(* ===== verification/_CoqProject ===== *)
-Q . S2P
Prelude.v
Codec.v
Binomial.v
Rank.v
Repr.v
Descriptor.v
Context.v
Streams.v
Materialize.v
MaterializeSafe.v
LZ.v
MaterializeSpec.v
Candidate.v
Encoders.v
EncodersSpec.v
Matcher.v
MatcherSpec.v
DeepSpec.v
RansModel.v
RansModelSpec.v
Version.v
SegRecord.v
Inode.v
Superblock.v
Keys.v
BTree.v
StoreError.v
RootObj.v
Segment.v
SyncIo.v
Recovery.v
StoreLog.v
SegmentSpec.v
WriterSpec.v
RecoverySpec.v
LogSpec.v
BTreeNode.v
BTreeSpec.v
BTreeCheck.v
IndexSpec.v
RemoveSpec.v
ScanSpec.v
ExtentTree.v
ExtentSpec.v
BulkSpec.v
BatchSpec.v
Directory.v
DirectorySpec.v
Transaction.v
TransactionSpec.v
Namespace.v
NamespaceSpec.v
Mutation.v
MutationSpec.v
Epoch.v
Checkpoint.v
FileRead.v
FileWrite.v
Facade.v
Gc.v
EpochSpec.v
CheckpointSpec.v
EpochInvariant.v
Durability.v
DurabilitySpec.v
ReplaySpec.v
FileReadSpec.v
FileWriteSpec.v
CommitSpec.v
FacadeSpec.v
GcSpec.v
CompactSpec.v
