(* ===== verification/Prelude.v ===== *)
(** * EntropyFS: verification library

    EntropyFS (src/src, one Rust crate) stores file content as small
    descriptor programs.  A chunk is never kept as "compressed bytes": it is
    a [Representation], one of seventeen families (zero, fill, raw, inline,
    references, sparse, palette, periodic, permutation, universe windows,
    rANS streams, copy/literal sequences, ...), and reading the chunk means
    running the bounded interpreter [core::materialize] on it.  Writing a chunk means
    proposing candidate descriptors, passing each through a gate that
    materializes it, and keeping the cheapest.  The meaning of the store
    therefore rests on these parts, which this library models:

    - the wire codec that turns descriptors into bytes and back
      ([format/codec.rs], [format/descriptor.rs]);
    - the structural validation every decoded descriptor has passed
      ([core/representation.rs] under [core/limits.rs]);
    - the combinatorial coordinates that sparse, palette and permutation
      descriptors carry ([entropy/rank.rs]);
    - the interpreter and the stream reconstruction it calls
      ([core/materialize.rs], the decode side of [rans/sequence.rs]);
    - the cost model and the gate ([core/cost.rs], [core/candidate.rs]) and
      the encoders that propose candidates ([entropy/sparse.rs],
      [palette.rs], [periodic.rs], [permutation.rs], [residual.rs]);
    - the copy/literal matchers and parses (the encode side of
      [rans/sequence.rs]), and the frequency models of the entropy coder
      ([rans/model.rs], [rans/metadata.rs]).

    Around that algebra stands the store.  Objects (records with a content
    id) are appended to segment files; an index from ids to places is derived
    from them.  Persistent B-trees over content-addressed nodes hold inodes,
    directories, extents, chunk descriptors and snapshots; a root object names
    the trees, and two superblock slots name the newest root.  Changes either
    run in a transaction that commits a new root, or are acknowledged in an
    epoch, an overlay with a mutation log, that a checkpoint merges into the
    trees and a recovery replays after a crash.  An [fsync] waits for a barrier
    that callers share.  Reads collect the extents of a window and materialize
    them; writes compose chunks over the old bytes; a collector marks what the
    roots reach and compacts the rest away.

    ** Files and the code they model

    - [Prelude]: Rust's [Result] with its [?] ([x <- m ;; k]), machine
      widths, checked and wrapping operations, slices and vectors with the
      bounds checks the code's indexing performs, little-endian bytes, and
      the predicate [wp m P] ("[m] does not panic and every value it
      returns satisfies [P]") with its rules and tactics.
    - [Codec]: [format/codec.rs].  [Writer] is the growing buffer, [Reader]
      the slice and the position; one definition per method, and
      [reader_at], the suffix a reader has left.
    - [Binomial]: exact counting functions; no code.
    - [Rank]: [entropy/rank.rs].  [comb], [multinomial], [factorial] and the
      three [rank_]/[unrank_] pairs, on [u128] arithmetic that reports what
      the code's [checked_mul]/[checked_add] report.
    - [Repr]: [core/limits.rs], [core/extent.rs], [core/representation.rs].
      [Limits], [ChunkId]/[Hash], [Representation] and [Residual] as the
      enums they are, [encoded_size], [family], and [Representation_validate]
      as one definition per match arm.
    - [Descriptor]: [format/descriptor.rs].  [encode] is a definition per
      match arm over the writer, [decode] the bounded parse, the exact
      consumption test and the validation, in the code's order.
    - [Context]: [MaterializeError], [SequenceError] and the
      [DecoderContext] trait as a typeclass ([ContextLaws] states what its
      implementations promise: bytes are bytes, and a resolved descriptor
      has passed [decode]).  [table_context] is an instance over explicit
      tables and proves the laws; [Store_fetch_descriptor] is the wrapper
      in [store/mod.rs] through which the store obtains them.
    - [Streams]: the decode side of [rans/sequence.rs]: the model object's
      slots and the reconstruction of two, three, four or five raw streams.
    - [Materialize]: [core/materialize.rs], one definition per family, the
      four command walks over a shared [Walk] state (cursors, repeat
      registers, output), residual application, and the recursive
      [materialize_loop].
    - [MaterializeSafe]: no step panics; budget, depth and termination.
    - [LZ]: reference decoders of the copy/literal families: streams
      consumed from the front, text appended; no code.
    - [MaterializeSpec]: [Denotes], the relation between descriptors and the
      bytes they stand for, and the proof that the interpreter implements
      it; [lz_walk_succeeds], the converse for the command walks.
    - [Candidate]: [core/cost.rs] and [core/candidate.rs]: cost breakdowns,
      objects, the terminal families, [validate_candidate] (the gate),
      [pick_cheapest], [account_objects].  [ChunkId::of] is a parameter.
    - [Encoders]: the five coordinate and residual encoders, the shared tail
      [propose] (validate, account, estimate) and the diff of [residual.rs].
    - [EncodersSpec]: what each encoder proposes and that it decodes.
    - [Matcher]: the hash-chain searches and the four parses of
      [rans/sequence.rs]; the parses of [encode_sequence],
      [encode_sequence_dict] and [encode_sequence_shared] are one loop,
      [greedy], over their searches.
    - [MatcherSpec]: match searches return repetitions ([search_ok], the
      contract the parse is proved against), each command denotes the bytes
      it was emitted for ([emits]), and the greedy parses are lossless.
    - [DeepSpec]: the same for the deep parse and its repeat registers.
    - [RansModel], [RansModelSpec]: [rans/model.rs] and [rans/metadata.rs]:
      normalisation, validation, symbol tables and the persisted form.

    Bytes on disk:
    - [Version], [SegRecord], [Inode], [Superblock], [RootObj]:
      [format/version.rs], [format/record.rs], [store/inode.rs],
      [format/features.rs] with [format/superblock.rs], and [store/root.rs]
      with [integrity/].  [StoreError]: the error types.
    - [Segment]: [store/segment.rs] over the transport of [store/io], the
      class [IoBackend]; [SyncIo]: [store/io/sync.rs], an instance of it over
      system calls, and the laws [IoLaws] and [OsLaws].
    - [Recovery]: [store/object.rs] and the choice of the root at open;
      [StoreLog]: appending, flushing and fetching in [store/mod.rs].
    - [SegmentSpec], [WriterSpec], [RecoverySpec], [LogSpec]: their theorems.

    Trees:
    - [Keys]: byte-string order and sorted association lists; no code.
    - [BTree]: [store/index.rs], with the [ObjectProvider] trait as a class.
      [BTreeNode], [BTreeSpec], [BTreeCheck], [IndexSpec], [RemoveSpec],
      [ScanSpec], [BulkSpec], [BatchSpec]: the relation [tree] between a node
      id and the sorted list it stands for, and every operation against it.
    - [ExtentTree], [Directory] with [ExtentSpec], [DirectorySpec]:
      [store/extent_tree.rs], [store/directory.rs], [store/snapshot.rs].

    Transactions and epochs:
    - [Transaction], [Namespace] with [TransactionSpec], [NamespaceSpec]:
      [store/transaction.rs] and the bodies of [store/mod.rs] between
      [begin_tx] and the commit, against [fs], a map of inodes and names.
    - [Mutation], [Epoch], [Checkpoint] with [MutationSpec], [EpochSpec],
      [CheckpointSpec], [EpochInvariant], [ReplaySpec]: [store/epoch.rs], the
      epoch operations, the checkpoint and the replay, against the view of the
      overlay.
    - [Durability], [DurabilitySpec]: [store/durability.rs] and the group gate
      as a transition system of threads.

    Files and the facade:
    - [FileRead], [FileReadSpec]: the read path, against the picture of a file
      (its extents painted over zeros).
    - [FileWrite], [FileWriteSpec], [CommitSpec]: composing, committing,
      truncating, against a file as an array of bytes.
    - [Facade], [FacadeSpec]: paths, parents, snapshots, attributes.
    - [Gc], [GcSpec], [CompactSpec]: [store/gc.rs], against reachability
      ([points_to], [reach], [chained]) and the object index.

    The descriptor parts meet in four places.  [decode] ends in [Representation_validate],
    so [Descriptor.decode_validates] is what the interpreter's theorems
    assume of their input; and the interpreter reaches other chunks only
    through [DecoderContext], so its theorems are proved against
    [ContextLaws] and hold for every resolver that satisfies them.  The gate
    runs the interpreter, so an accepted candidate denotes the chunk
    ([Candidate.gate_exact]); and the parses are proved against the
    reference decoders of [LZ], which the command walks of [Materialize]
    simulate in both directions.

    The store parts meet at interfaces.  The trees are proved against
    [ObjectProvider] (what is staged can be fetched back under its content
    id), of which a transaction, the committed store and the rebuild of the
    collector are instances; the log is proved against [IoLaws], which
    [SyncIo] discharges from the contract of the system calls.  A committed
    store is a provider and a root that stand for an [fs]; the namespace, the
    checkpoint, the write path and the facade say what they do to that [fs],
    and the read path what it returns from it.

    ** What the theorems show

    - Meaning: [materialize_denotes] (a successful run returns the denoted
      bytes, for every family, residual and nesting), and
      [materialize_deterministic] (depth, budget and the old buffer contents
      never influence the bytes).
    - Safety: [materialize_to_vec_safe] (exactly [len] bytes or a typed
      error, never a panic), [materialize_budget], [materialize_path_bound]
      (reference cycles never materialize), [materialize_fuel_enough].
    - Wire format: [decode_encode], [encode_decode], [decode_validates],
      [decode_prefix_free], [encode_size], and the codec primitives
      [varint_roundtrip] and [bytes32_roundtrip].
    - Coordinates: [comb_exact] and [multinomial_exact] (the checked
      arithmetic computes the exact count, overflow exactly when it does not
      fit [u128]), and a bijection in both directions for subsets, multiset
      sequences and permutations.

    - Gate and costs: [gate_exact], [terminal_families_accepted],
      [raw_candidate_total] (a candidate always exists),
      [persisted_accounts_every_byte], [pick_cheapest_first_minimum].
    - Encoders: [sparse_encoder_exact], [palette_encoder_exact],
      [periodic_encoder_smallest], [permutation_encoder_exact],
      [base_residual_encoder_exact]: never a panic, the exact domain where
      the code has one, and candidates that materialize to the chunk.
    - Parses: [encode_sequence_lossless], [encode_sequence_dict_lossless],
      [encode_sequence_shared_lossless], [encode_sequence_deep_lossless]:
      every parse ends, and the interpreter's walk over its streams rebuilds
      the chunk.  The deep parse holds up to 65,604 bytes; beyond,
      [push_deep_copy_wraps] shows its extra length loses bits.
    - Frequency models: [normalize_valid], [model_roundtrip],
      [build_symbols_tile]; [decode_model_panics] describes the payloads on
      which the decoder leaves its array.
    - Log and recovery: [scan_torn_tail], [open_keeps_log],
      [log_survives_crash], [append_flush_fetch], [choose_root_exact]; and
      where they end: [failed_flush_aliases], [two_commits_lose_generation],
      [scan_lost_payload].
    - Trees: [insert_get], [remove_get], [apply_sorted_batch_spec],
      [bulk_load_spec], scans and pages, earlier roots kept;
      [oversized_batch_unreadable] is where the batches of a checkpoint end.
    - Namespace and epochs: [create_entry_refines], [unlink_refines],
      [link_refines]; [epoch_create_exact], [epoch_unlink_exact],
      [epoch_reads_agree], [epoch_reachable_wf], [checkpoint_refines];
      [select_log_exact] and [recovery_replays_after] for the replay.
    - Durability: [fsync_linearizable], [durable_point_monotone],
      [failure_reaches_owner_only], [every_fsync_returns] (a bound on the
      accesses of every schedule, and nobody left waiting at the end of one).
    - Files: [read_file_exact], [decode_prepared_window], [compose_exact],
      [commit_refines], [truncate_refines]; [read_loses_byte],
      [truncate_at_extent_fails] and [batch_cuts_chunk] are the inputs on which
      the code departs from the picture.
    - Facade and collector: [snapshot_restore_exact], [restore_replays_log],
      [xattr_updates], [resolve_path_exact], [parent_of_exact]; [mark_exact],
      [mark_terminates], [rebuild_exact], [collect_index_exact].

    ** Conventions, bounds and fuel

    Machine integers are [Z] with their width explicit: [in_width w x] is the
    range, [checked_*] return [None] outside it, [wrap w] is the truncating
    cast.  A plain Rust [+], [-] or [*] that could leave its width is a
    [Panic] result (overflow checks on), as are an index out of range and a
    length mismatch in [copy_from_slice]; [Panic] is an error the theorems
    exclude, never one they assume away.  [usize] is 64 bits.

    Loops whose count is a value carry it as [nat]; other loops carry fuel:
    varints ten turns of the writer and eleven of the reader (64 bits by
    seven), Euclid's loop twice the operand's bit length (it halves every
    second turn), the unrank search the bit length of its interval, the
    interpreter the levels left below the depth cap
    ([materialize_fuel_enough] shows that more changes nothing), the command
    walks one turn per command byte, the parses one turn per input byte
    (every turn advances) and copy emission one per copied byte.
    No theorem has a fuel hypothesis, and none takes exhausted fuel for an
    answer of the code.

    In the store: a descent of a tree has 129 levels, as the code counts depths
    up to 128; a scan of a segment has the length of the file as fuel, and a
    record takes 58 bytes; the dependencies of a read have the reference depth
    cap as levels.  The loops of the mark walk return [None] without fuel;
    [mark_terminates] shows that they have a result for enough of it.

    Contents are addressed by hash.  Theorems about stored objects are stated
    up to a collision: the operation succeeds, and behaves as said unless two of
    the payloads it staged or found have one content id ([succeeds] and [yields]
    say so of one operation, [run_steps] of operations one after the other); no
    hash is assumed to be injective.  Which payloads an operation staged is on
    record: a transaction keeps, in the history variable [tx_asked] that the
    code does not have, what it was asked to stage.  Clock readings are
    arguments, in the order in which the code takes them.

    ** What is not modelled

    BLAKE3, CRC-32C and the rANS coder are third-party crates: they enter as
    parameters (chunk ids are plain 32-byte values; [decode_rans] is a field of
    the context).  The content of a buffer after an erroneous run
    is not modelled, as every caller drops it.  The entropy coding of parsed
    streams ([encode_streams_n]) and the candidates built on it call that
    coder and are left out.  So are: the io_uring transport; the caches, which
    return what the store would; the optimizer and the guided search, whose
    proposals pass the gate that is modelled; the choice of victims by the
    collector (floats over scanned occupancy); statistics and read costs; the
    physical census, fsck, and the FUSE, ublk, FFI and command-line front ends,
    which are I/O around the modelled operations.  Locks appear where the order
    of critical sections matters ([Durability]); elsewhere an operation is its
    part under the lock. *)
From Stdlib Require Export ZArith Lia List Bool.
From stdpp Require Export base list numbers decidable.
Export ListNotations.
#[export] Set Default Goal Selector "1".
#[global] Open Scope Z_scope.

(** * Fallible computations *)

(** Rust's [Result<A, E>]. *)
Inductive result (E A : Type) : Type :=
| Ok (a : A)
| Err (e : E).
Arguments Ok {E A} a.
Arguments Err {E A} e.

Definition rbind {E A B : Type} (m : result E A) (k : A -> result E B) : result E B :=
  match m with Ok a => k a | Err e => Err e end.

(** [Option::ok_or]. *)
Definition ok_or {E A : Type} (o : option A) (e : E) : result E A :=
  match o with Some a => Ok a | None => Err e end.

(** [Result::map_err]. *)
Definition map_err {E F A : Type} (f : E -> F) (m : result E A) : result F A :=
  match m with Ok a => Ok a | Err e => Err (f e) end.

Declare Scope efs_scope.
Delimit Scope efs_scope with efs.
#[global] Open Scope efs_scope.

(** The [?] operator: [let! x := e in k] is [let x = e?; k]. *)
Notation "'let!' x ':=' e 'in' k" := (rbind e (fun x => k))
  (at level 10, x binder, e at level 100, k at level 200) : efs_scope.
Notation "'let!' ' p ':=' e 'in' k" := (rbind e (fun x => match x with p => k end))
  (at level 10, p pattern, e at level 100, k at level 200) : efs_scope.
(** Early return of an error: [if c { return Err(e) }; k]. *)
Notation "'fail_if' c 'with' e ';;' k" := (if c then Err e else k)
  (at level 10, c at level 99, e at level 99, k at level 200) : efs_scope.

Definition is_ok {E A : Type} (m : result E A) : bool :=
  match m with Ok _ => true | Err _ => false end.

Lemma rbind_Ok_inv {E A B : Type} (m : result E A) (k : A -> result E B) b :
  rbind m k = Ok b -> exists a, m = Ok a /\ k a = Ok b.
Proof. destruct m as [a|e]; simpl; [eauto | discriminate]. Qed.

Lemma ok_or_Ok_inv {E A : Type} (o : option A) (e : E) a : ok_or o e = Ok a -> o = Some a.
Proof. destruct o; simpl; congruence. Qed.

Lemma map_err_Ok_inv {E F A : Type} (f : E -> F) (m : result E A) a :
  map_err f m = Ok a -> m = Ok a.
Proof. destruct m; simpl; congruence. Qed.

(** [inv_ok H] decomposes a successful chain of [let!], [fail_if] and [ok_or]
    steps into its intermediate equations. *)
Ltac inv_ok_step H :=
  lazymatch type of H with
  | rbind ?m ?k = Ok ?b =>
      let a := fresh "v" in let Hm := fresh "Hok" in
      apply rbind_Ok_inv in H; destruct H as (a & Hm & H); cbv beta in H
  | (if ?c then Err _ else _) = Ok _ =>
      let Hc := fresh "Hc" in destruct c eqn:Hc; [discriminate H |]
  | (if ?c then _ else Err _) = Ok _ =>
      let Hc := fresh "Hc" in destruct c eqn:Hc; [| discriminate H]
  | match ?x with pair _ _ => _ end = Ok _ => destruct x
  | Err _ = Ok _ => discriminate H
  end.
Ltac inv_ok H := repeat inv_ok_step H; simplify_eq.

(** Outcomes of code that may panic: the typed error, or a Rust panic
    (overflow with the overflow checks on, a slice index out of range, a
    failed [unwrap]).  Theorems that exclude [Panic] show that the typed
    errors are the only failures. *)
Inductive trap (E : Type) : Type :=
| Error (e : E)
| Panic.
Arguments Error {E} e.
Arguments Panic {E}.

Definition trap_map {E F : Type} (f : E -> F) (t : trap E) : trap F :=
  match t with Error e => Error (f e) | Panic => Panic end.

(** Embeds a computation that cannot panic. *)
Definition safe {E A : Type} (m : result E A) : result (trap E) A := map_err Error m.

(** * Machine integers *)

(** A [w]-bit unsigned integer is a [Z] in range. *)
Definition in_width (w z : Z) : Prop := 0 <= z < 2 ^ w.
Abbreviation is_u8 := (in_width 8).
Abbreviation is_u16 := (in_width 16).
Abbreviation is_u32 := (in_width 32).
Abbreviation is_u64 := (in_width 64).
Abbreviation is_u128 := (in_width 128).

#[global] Instance in_width_dec w z : Decision (in_width w z) := _.

(** [as u8], [as u32], ...: truncation to the low [w] bits. *)
Definition wrap (w z : Z) : Z := z mod 2 ^ w.

Definition checked_add (w a b : Z) : option Z :=
  if a + b <? 2 ^ w then Some (a + b) else None.
Definition checked_mul (w a b : Z) : option Z :=
  if a * b <? 2 ^ w then Some (a * b) else None.
Definition checked_sub (a b : Z) : option Z :=
  if b <=? a then Some (a - b) else None.
Definition saturating_add (w a b : Z) : Z := Z.min (a + b) (2 ^ w - 1).
Definition saturating_mul (w a b : Z) : Z := Z.min (a * b) (2 ^ w - 1).

(** Range side conditions of concrete and bounded values. *)
Ltac width := unfold in_width in *; lia.

Lemma wrap_small w z : in_width w z -> wrap w z = z.
Proof. intros H. unfold wrap. apply Z.mod_small, H. Qed.

Lemma in_width_mono w w' z : w <= w' -> in_width w z -> in_width w' z.
Proof.
  unfold in_width. intros Hw [H0 H1]. split; [done|].
  eapply Z.lt_le_trans; [exact H1|]. apply Z.pow_le_mono_r; lia.
Qed.

Lemma wrap_in_width w z : 0 <= w -> in_width w (wrap w z).
Proof. intros. apply Z.mod_pos_bound. by apply Z.pow_pos_nonneg. Qed.

Lemma checked_add_Some w a b c : checked_add w a b = Some c <-> c = a + b /\ a + b < 2 ^ w.
Proof. unfold checked_add. destruct (Z.ltb_spec (a + b) (2 ^ w)); split; intuition (subst; congruence || lia). Qed.

Lemma checked_mul_Some w a b c : checked_mul w a b = Some c <-> c = a * b /\ a * b < 2 ^ w.
Proof. unfold checked_mul. destruct (Z.ltb_spec (a * b) (2 ^ w)); split; intuition (subst; congruence || lia). Qed.

Lemma land_shiftl_disjoint a b s :
  0 <= s -> 0 <= a < 2 ^ s -> Z.land a (Z.shiftl b s) = 0.
Proof.
  intros Hs Ha. apply Z.bits_inj'. intros n Hn. rewrite Z.land_spec, Z.bits_0.
  destruct (Z.lt_ge_cases n s).
  - rewrite Z.shiftl_spec_low by done. apply andb_false_r.
  - rewrite <-(Z.mod_small a (2 ^ s)) by done. by rewrite Z.mod_pow2_bits_high by lia.
Qed.

Lemma lor_shiftl_add a b s :
  0 <= s -> 0 <= a < 2 ^ s -> Z.lor a (Z.shiftl b s) = a + b * 2 ^ s.
Proof.
  intros Hs Ha. rewrite <-Z.shiftl_mul_pow2 by done.
  pose proof (land_shiftl_disjoint a b s Hs Ha) as E.
  by rewrite Z.add_nocarry_lxor, Z.lxor_lor.
Qed.

(** Splits a [Forall] over a literal list. *)
Ltac foralls :=
  repeat match goal with
  | H : Forall _ (_ :: _) |- _ => apply Forall_cons_1 in H; destruct H
  | H : Forall _ [] |- _ => clear H
  end.

Ltac list_forall := repeat first [apply Forall_nil_2 | apply Forall_cons_2; [|]].

(** Turns boolean comparisons in the context into arithmetic facts. *)
Ltac bools :=
  repeat match goal with
  | H : (_ && _) = true |- _ => apply andb_true_iff in H; destruct H
  | H : (_ || _) = false |- _ => apply orb_false_iff in H; destruct H
  | H : negb _ = true |- _ => apply negb_true_iff in H
  | H : negb _ = false |- _ => apply negb_false_iff in H
  | H : (_ <? _) = true |- _ => apply Z.ltb_lt in H
  | H : (_ <? _) = false |- _ => apply Z.ltb_ge in H
  | H : (_ <=? _) = true |- _ => apply Z.leb_le in H
  | H : (_ <=? _) = false |- _ => apply Z.leb_gt in H
  | H : (_ =? _) = true |- _ => apply Z.eqb_eq in H
  | H : (_ =? _) = false |- _ => apply Z.eqb_neq in H
  | H : bool_decide _ = true |- _ => apply bool_decide_eq_true in H
  | H : bool_decide _ = false |- _ => apply bool_decide_eq_false in H
  end.

(** [pass_if] passes an early return whose guard the context refutes. *)
Ltac pass_if :=
  match goal with
  | |- context [if ?c then Err _ else _] =>
      let E := fresh in assert (E : c = false) by lia; rewrite E; clear E
  end.

(** [pass_guard] decides the first conditional the context settles. *)
Ltac pass_guard :=
  match goal with
  | |- context [if ?c then _ else _] =>
      let E := fresh in
      first [ assert (E : c = false) by lia | assert (E : c = true) by lia ]; rewrite E; clear E
  end.

(** * Byte strings *)

(** A byte string is a list of [u8] values. *)
Abbreviation bytes := (list Z).
Definition wf_bytes (l : bytes) : Prop := Forall is_u8 l.

(** Length of a slice as a [u64]/[usize] value. *)
Definition zlen {A : Type} (l : list A) : Z := Z.of_nat (length l).

(** [copy_from_slice] into [out[pos..pos+src.len()]]. *)
Definition splice {A : Type} (pos : nat) (src out : list A) : list A :=
  take pos out ++ src ++ drop (pos + length src) out.

(** [l[pos..pos+n]]. *)
Definition slice {A : Type} (pos n : nat) (l : list A) : list A := take n (drop pos l).

(** Little-endian encoding of an [n]-byte integer ([to_le_bytes]). *)
Fixpoint to_le (n : nat) (z : Z) : bytes :=
  match n with O => [] | S n' => z mod 256 :: to_le n' (z / 256) end.

(** [from_le_bytes]. *)
Fixpoint from_le (l : bytes) : Z :=
  match l with [] => 0 | b :: l' => b + 256 * from_le l' end.


Lemma zlen_nil {A} : zlen (@nil A) = 0. Proof. done. Qed.
Lemma zlen_cons {A} (x : A) l : zlen (x :: l) = 1 + zlen l.
Proof. unfold zlen. cbn [length]. lia. Qed.
Lemma zlen_app {A} (l k : list A) : zlen (l ++ k) = zlen l + zlen k.
Proof. unfold zlen. rewrite length_app. lia. Qed.
Lemma zlen_nonneg {A} (l : list A) : 0 <= zlen l.
Proof. unfold zlen. lia. Qed.
Lemma to_nat_zlen {A} (l : list A) : Z.to_nat (zlen l) = length l.
Proof. unfold zlen. apply Nat2Z.id. Qed.
Lemma zlen_map {A B} (f : A -> B) l : zlen (map f l) = zlen l.
Proof. unfold zlen. by rewrite length_map. Qed.

Lemma length_to_le n z : length (to_le n z) = n.
Proof. revert z. induction n; intros; cbn [to_le length]; congruence. Qed.

Lemma to_le_wf n z : wf_bytes (to_le n z).
Proof.
  revert z. induction n as [|n IH]; intros z; cbn [to_le]; constructor; [|apply IH].
  unfold in_width. pose proof (Z.mod_pos_bound z 256). lia.
Qed.

Lemma from_le_to_le n z : 0 <= z < 256 ^ Z.of_nat n -> from_le (to_le n z) = z.
Proof.
  revert z. induction n as [|n IH]; intros z Hz; cbn [to_le from_le].
  - change (256 ^ Z.of_nat 0) with 1 in Hz. lia.
  - rewrite Nat2Z.inj_succ, Z.pow_succ_r in Hz by lia.
    rewrite IH; [pose proof (Z.div_mod z 256); lia|].
    split; [apply Z.div_pos; lia | apply Z.div_lt_upper_bound; lia].
Qed.

Lemma from_le_bound l : wf_bytes l -> 0 <= from_le l < 256 ^ zlen l.
Proof.
  induction 1 as [|b l Hb _ IH]; cbn [from_le]; [done|].
  rewrite zlen_cons, Z.pow_add_r by (pose proof (zlen_nonneg l); lia).
  change (256 ^ 1) with 256. unfold in_width in Hb. change (2 ^ 8) with 256 in Hb. lia.
Qed.

Lemma to_le_from_le l : wf_bytes l -> to_le (length l) (from_le l) = l.
Proof.
  induction 1 as [|b l Hb Hl IH]; cbn [to_le from_le length]; [done|].
  unfold in_width in Hb. change (2 ^ 8) with 256 in Hb.
  replace ((b + 256 * from_le l) mod 256) with b
    by (rewrite Z.mul_comm, Z_mod_plus_full; symmetry; apply Z.mod_small; lia).
  replace ((b + 256 * from_le l) / 256) with (from_le l)
    by (rewrite Z.mul_comm, Z.div_add, Z.div_small by lia; lia).
  by rewrite IH.
Qed.

Lemma to_le_inj n a b :
  0 <= a < 256 ^ Z.of_nat n -> 0 <= b < 256 ^ Z.of_nat n -> to_le n a = to_le n b -> a = b.
Proof. intros Ha Hb E. rewrite <-(from_le_to_le n a), <-(from_le_to_le n b) by done. by rewrite E. Qed.

Lemma zlen_to_le n z : zlen (to_le n z) = Z.of_nat n.
Proof. unfold zlen. by rewrite length_to_le. Qed.

Lemma length_splice {A} pos (src out : list A) :
  (pos + length src <= length out)%nat -> length (splice pos src out) = length out.
Proof.
  intros. unfold splice. rewrite !length_app, length_take, length_drop. lia.
Qed.

Lemma length_slice {A} pos n (l : list A) :
  (pos + n <= length l)%nat -> length (slice pos n l) = n.
Proof. intros. unfold slice. rewrite length_take, length_drop. lia. Qed.

Lemma take_splice {A} pos (src out : list A) :
  (pos + length src <= length out)%nat ->
  take (pos + length src) (splice pos src out) = take pos out ++ src.
Proof.
  intros. unfold splice. rewrite app_assoc, take_app_le by (rewrite length_app, length_take; lia).
  apply take_ge. rewrite length_app, length_take. lia.
Qed.

Lemma lookup_map {A B} (f : A -> B) (l : list A) i : map f l !! i = f <$> l !! i.
Proof. revert i. induction l as [|x l IH]; intros [|i]; simpl; auto. Qed.
Lemma insert_map {A B} (f : A -> B) (l : list A) i x : <[i:=f x]> (map f l) = map f (<[i:=x]> l).
Proof. revert i. induction l as [|y l IH]; intros [|i]; simpl; try done. by rewrite IH. Qed.

(** A list of nonnegative integers is the image of a list of naturals. *)
Lemma nonneg_nats l : Forall (fun z => 0 <= z) l -> exists ns, l = map Z.of_nat ns.
Proof.
  induction 1 as [|z l Hz _ [ns ->]]; [by exists []|].
  exists (Z.to_nat z :: ns). simpl. by rewrite Z2Nat.id.
Qed.

Lemma width_nats w l : Forall (in_width w) l -> exists ns, l = map Z.of_nat ns.
Proof.
  intros H. apply nonneg_nats. induction H as [|z l Hz _ IH]; constructor; [apply Hz | done].
Qed.

Lemma map_of_nat_inj a b : map Z.of_nat a = map Z.of_nat b -> a = b.
Proof.
  revert b. induction a as [|x a IH]; intros [|y b] E; try done. simpl in E.
  injection E as E1 E2. apply Nat2Z.inj in E1. by rewrite E1, (IH b).
Qed.

Lemma wf_bytes_app l k : wf_bytes (l ++ k) <-> wf_bytes l /\ wf_bytes k.
Proof. apply Forall_app. Qed.

Create Rewrite HintDb zlen.
#[export] Hint Rewrite @zlen_nil @zlen_cons @zlen_app @zlen_map zlen_to_le : zlen.
Create HintDb efs discriminated.
#[export] Hint Resolve to_le_wf zlen_nonneg : efs.

#[global] Arguments zlen {A} l : simpl never.
#[global] Arguments to_le n z : simpl never.
#[global] Arguments from_le l : simpl never.
#[global] Arguments splice {A} pos src out : simpl never.
#[global] Arguments slice {A} pos n l : simpl never.

(** * Slices as Rust has them

    Indexing, range slicing and [copy_from_slice] panic out of range. *)
Section Slices.
Context {E A : Type}.

Definition get_idx (l : list A) (i : Z) : result (trap E) A := ok_or (l !! Z.to_nat i) Panic.

Definition get_slice (l : list A) (s e : Z) : result (trap E) (list A) :=
  if (s <=? e) && (e <=? zlen l) then Ok (slice (Z.to_nat s) (Z.to_nat (e - s)) l) else Err Panic.

Definition set_idx (l : list A) (i : Z) (v : A) : result (trap E) (list A) :=
  if i <? zlen l then Ok (<[Z.to_nat i := v]> l) else Err Panic.

(** [l[s..e].copy_from_slice(src)]. *)
Definition copy_from_slice (l : list A) (s e : Z) (src : list A) : result (trap E) (list A) :=
  if (s <=? e) && (e <=? zlen l) && (zlen src =? e - s)
  then Ok (splice (Z.to_nat s) src l) else Err Panic.
End Slices.

Section SliceFacts.
Context {E A : Type}.
Implicit Types (l src : list A).

Lemma get_idx_Ok l i v : get_idx (E := E) l i = Ok v <-> l !! Z.to_nat i = Some v.
Proof. unfold get_idx. destruct (l !! Z.to_nat i); cbn; split; intros; by simplify_eq. Qed.

Lemma get_slice_Ok l s e x :
  get_slice (E := E) l s e = Ok x <->
  s <= e <= zlen l /\ x = slice (Z.to_nat s) (Z.to_nat (e - s)) l.
Proof.
  unfold get_slice. destruct (Z.leb_spec s e), (Z.leb_spec e (zlen l)); cbn;
    split; intros; destruct_and?; simplify_eq; done || lia.
Qed.

Lemma set_idx_Ok l i v x :
  set_idx (E := E) l i v = Ok x <-> i < zlen l /\ x = <[Z.to_nat i := v]> l.
Proof.
  unfold set_idx. destruct (Z.ltb_spec i (zlen l)); split; intros; destruct_and?; simplify_eq; done || lia.
Qed.

Lemma copy_from_slice_Ok l s e src x :
  copy_from_slice (E := E) l s e src = Ok x <->
  s <= e <= zlen l /\ zlen src = e - s /\ x = splice (Z.to_nat s) src l.
Proof.
  unfold copy_from_slice.
  destruct (Z.leb_spec s e), (Z.leb_spec e (zlen l)), (Z.eqb_spec (zlen src) (e - s)); cbn;
    split; intros; destruct_and?; simplify_eq; done || lia.
Qed.
End SliceFacts.

(** [vec![v; n]]. *)
Definition vec {A} (v : A) (n : Z) : list A := replicate (Z.to_nat n) v.

Lemma zlen_vec {A} (v : A) n : 0 <= n -> zlen (vec v n) = n.
Proof. intros. unfold zlen, vec. rewrite length_replicate. lia. Qed.
Lemma zlen_splice {A} s (src out : list A) :
  0 <= s -> s + zlen src <= zlen out -> zlen (splice (Z.to_nat s) src out) = zlen out.
Proof. intros. unfold zlen in *. rewrite length_splice; lia. Qed.
Lemma zlen_slice {A} s n (l : list A) :
  0 <= s -> 0 <= n -> s + n <= zlen l -> zlen (slice (Z.to_nat s) (Z.to_nat n) l) = n.
Proof. intros. unfold zlen in *. rewrite length_slice; lia. Qed.
Lemma zlen_insert {A} i (v : A) l : zlen (<[i := v]> l) = zlen l.
Proof. unfold zlen. by rewrite length_insert. Qed.

Lemma wf_bytes_slice s n l : wf_bytes l -> wf_bytes (slice s n l).
Proof. intros. unfold slice. by apply Forall_take, Forall_drop. Qed.
Lemma wf_bytes_splice s src l : wf_bytes src -> wf_bytes l -> wf_bytes (splice s src l).
Proof.
  intros. unfold splice. apply wf_bytes_app. split; [by apply Forall_take|].
  apply wf_bytes_app. split; [done | by apply Forall_drop].
Qed.
Lemma wf_bytes_vec v n : is_u8 v -> wf_bytes (vec v n).
Proof. intros. by apply Forall_replicate. Qed.
Lemma wf_bytes_insert i v l : is_u8 v -> wf_bytes l -> wf_bytes (<[i := v]> l).
Proof. intros. by apply Forall_insert. Qed.
Lemma wf_bytes_lookup l i v : wf_bytes l -> l !! i = Some v -> is_u8 v.
Proof. intros H E. by eapply Forall_lookup_1. Qed.
#[export] Hint Resolve wf_bytes_slice wf_bytes_splice wf_bytes_vec wf_bytes_insert : efs.

(** * A logic for fallible code

    [wp m P]: the computation does not panic, and a successful result
    satisfies [P]; a typed error is an allowed outcome. *)
Definition wp {E A : Type} (m : result (trap E) A) (P : A -> Prop) : Prop :=
  match m with Ok a => P a | Err (Error _) => True | Err Panic => False end.

Section Wp.
Context {E : Type}.
Implicit Types (A B : Type).

Lemma wp_mono {A} (m : result (trap E) A) (P Q : A -> Prop) :
  wp m P -> (forall a, P a -> Q a) -> wp m Q.
Proof. destruct m as [a|[e|]]; simpl; auto. Qed.

Lemma wp_bind {A B} (m : result (trap E) A) (k : A -> result (trap E) B) Q :
  wp m (fun a => wp (k a) Q) -> wp (rbind m k) Q.
Proof. by destruct m as [a|[e|]]. Qed.

Lemma wp_fail_if {A} (c : bool) (e : E) (m : result (trap E) A) Q :
  (c = false -> wp m Q) -> wp (fail_if c with Error e ;; m) Q.
Proof. destruct c; simpl; auto. Qed.

Lemma wp_safe {A} (m : result E A) (P : A -> Prop) :
  (forall a, m = Ok a -> P a) -> wp (safe m) P.
Proof. destruct m; simpl; auto. Qed.

Lemma wp_ok_or {A} (o : option A) (e : E) (P : A -> Prop) :
  (forall a, o = Some a -> P a) -> wp (ok_or o (Error e)) P.
Proof. destruct o; simpl; auto. Qed.

Lemma wp_trap_map {F A} (f : E -> F) (m : result (trap E) A) P :
  wp m P -> wp (map_err (trap_map f) m) P.
Proof. by destruct m as [a|[e|]]. Qed.

Lemma wp_get_idx {A} (l : list A) i (P : A -> Prop) :
  0 <= i < zlen l -> (forall v, l !! Z.to_nat i = Some v -> P v) -> wp (E := E) (get_idx l i) P.
Proof.
  intros Hi HP. unfold get_idx. destruct (lookup_lt_is_Some_2 l (Z.to_nat i)) as [v Hv].
  { unfold zlen in Hi. lia. }
  rewrite Hv. by apply HP.
Qed.

Lemma wp_get_slice {A} (l : list A) s e (P : list A -> Prop) :
  s <= e <= zlen l -> P (slice (Z.to_nat s) (Z.to_nat (e - s)) l) ->
  wp (E := E) (get_slice l s e) P.
Proof.
  intros H HP. unfold get_slice.
  destruct (Z.leb_spec s e), (Z.leb_spec e (zlen l)); try lia. done.
Qed.

Lemma wp_set_idx {A} (l : list A) i v (P : list A -> Prop) :
  i < zlen l -> P (<[Z.to_nat i := v]> l) -> wp (E := E) (set_idx l i v) P.
Proof. intros H HP. unfold set_idx. destruct (Z.ltb_spec i (zlen l)); [done | lia]. Qed.

Lemma wp_copy_from_slice {A} (l : list A) s e src (P : list A -> Prop) :
  s <= e <= zlen l -> zlen src = e - s -> P (splice (Z.to_nat s) src l) ->
  wp (E := E) (copy_from_slice l s e src) P.
Proof.
  intros H Hs HP. unfold copy_from_slice.
  destruct (Z.leb_spec s e), (Z.leb_spec e (zlen l)), (Z.eqb_spec (zlen src) (e - s)); lia || done.
Qed.
End Wp.

(** * Two runs of the same code

    [agree R m m']: both succeed with related results, or both fail in the
    same way. *)
Definition agree {E A B : Type} (R : A -> B -> Prop) (m : result E A) (m' : result E B) : Prop :=
  match m, m' with Ok a, Ok b => R a b | Err e, Err e' => e = e' | _, _ => False end.

Section Agree.
Context {E : Type}.
Implicit Types (A B : Type).

Lemma agree_bind {A A' B B'} (R : A -> A' -> Prop) (S : B -> B' -> Prop)
    (m : result E A) (m' : result E A') k k' :
  agree R m m' -> (forall a a', R a a' -> agree S (k a) (k' a')) ->
  agree S (rbind m k) (rbind m' k').
Proof. destruct m, m'; simpl; intros; subst; auto; contradiction. Qed.

Lemma agree_same {A B B'} (S : B -> B' -> Prop) (m : result E A) k k' :
  (forall a, m = Ok a -> agree S (k a) (k' a)) -> agree S (rbind m k) (rbind m k').
Proof. destruct m; simpl; auto. Qed.

Lemma agree_eq {A} (m m' : result E A) : agree eq m m' <-> m = m'.
Proof. destruct m, m'; simpl; split; intros; by simplify_eq. Qed.

Lemma agree_fail_if {A B} (S : A -> B -> Prop) c c' (e : E) m m' :
  c = c' -> (c = false -> agree S m m') ->
  agree S (fail_if c with e ;; m) (fail_if c' with e ;; m').
Proof. intros <-. destruct c; simpl; auto. Qed.
End Agree.

(** [wp_step] applies the rule of the head construct; [wp_use lem] uses a
    specification of the head computation. *)
Ltac wp_step :=
  lazymatch goal with
  | |- wp (rbind _ _) _ => apply wp_bind; cbv beta
  | |- wp (if _ then Err (Error _) else _) _ =>
      let Hc := fresh "Hc" in apply wp_fail_if; intros Hc; bools
  | |- wp (safe _) _ => let a := fresh "v" in let Hv := fresh "Hv" in apply wp_safe; intros a Hv
  | |- wp (ok_or _ (Error _)) _ =>
      let a := fresh "v" in let Hv := fresh "Hv" in apply wp_ok_or; intros a Hv
  | |- wp (map_err (trap_map _) _) _ => apply wp_trap_map
  | |- wp (Err (Error _)) _ => exact I
  | |- wp (Ok _) _ => cbn [wp]
  | |- wp (match ?x with pair _ _ => _ end) _ => destruct x
  end.
Ltac wp_steps := repeat wp_step.
Tactic Notation "wp_use" uconstr(lem) := eapply wp_mono; [apply lem | cbv beta].
