(* ===== verification/Codec.v ===== *)
(** Component [format/codec.rs]: the checked little-endian [Writer] and
    [Reader].  A writer is its growing buffer; a reader is a slice and a
    position.  The theorems relate a reader to the suffix it has left
    ([reader_at]): every [Writer] primitive followed by the matching
    [Reader] primitive is the identity, every successful read has consumed
    exactly the canonical encoding of its value, and no read ever leaves
    the slice. *)
From S2P Require Import Prelude.

(** * Data *)

(** Codec errors. *)
Inductive CodecError : Type :=
| Truncated
| TooLong
| Malformed.
#[global] Instance CodecError_eq_dec : EqDecision CodecError.
Proof. solve_decision. Defined.

Record Writer : Type := { w_buf : bytes }.

Record Reader : Type := { r_buf : bytes; r_pos : Z }.

(** * Writer *)

Definition Writer_new : Writer := {| w_buf := [] |}.
Definition Writer_into_bytes (w : Writer) : bytes := w_buf w.
Definition Writer_len (w : Writer) : Z := zlen (w_buf w).
Definition Writer_is_empty (w : Writer) : bool := zlen (w_buf w) =? 0.

(** [extend_from_slice], shared by every primitive. *)
Definition Writer_bytes (w : Writer) (b : bytes) : Writer := {| w_buf := w_buf w ++ b |}.
Definition Writer_u8 (w : Writer) (v : Z) : Writer := {| w_buf := w_buf w ++ [v] |}.
Definition Writer_u16 (w : Writer) (v : Z) : Writer := {| w_buf := w_buf w ++ to_le 2 v |}.
Definition Writer_u32 (w : Writer) (v : Z) : Writer := {| w_buf := w_buf w ++ to_le 4 v |}.
Definition Writer_u64 (w : Writer) (v : Z) : Writer := {| w_buf := w_buf w ++ to_le 8 v |}.
Definition Writer_u128 (w : Writer) (v : Z) : Writer := {| w_buf := w_buf w ++ to_le 16 v |}.

Definition Writer_bytes16 (w : Writer) (b : bytes) : result CodecError Writer :=
  fail_if 2 ^ 16 <=? zlen b with TooLong ;;
  Ok (Writer_bytes (Writer_u16 w (zlen b)) b).

Definition Writer_bytes32 (w : Writer) (b : bytes) : result CodecError Writer :=
  fail_if 2 ^ 32 <=? zlen b with TooLong ;;
  Ok (Writer_bytes (Writer_u32 w (zlen b)) b).

(** The LEB128 loop: seven bits a turn, the high bit marks continuation.
    A [u64] needs at most ten turns, so ten is the fuel. *)
Fixpoint Writer_varint_loop (fuel : nat) (buf : bytes) (v : Z) : bytes :=
  match fuel with
  | O => buf
  | S fuel' =>
      let b := Z.land v 127 in
      let v' := Z.shiftr v 7 in
      let b := if v' =? 0 then b else Z.lor b 128 in
      let buf := buf ++ [b] in
      if v' =? 0 then buf else Writer_varint_loop fuel' buf v'
  end.
Definition Writer_varint (w : Writer) (v : Z) : Writer :=
  {| w_buf := Writer_varint_loop 10 (w_buf w) v |}.

(** * Reader *)

Definition Reader_new (buf : bytes) : Reader := {| r_buf := buf; r_pos := 0 |}.
Definition Reader_remaining (r : Reader) : Z := zlen (r_buf r) - r_pos r.
Definition Reader_done (r : Reader) : bool := r_pos r =? zlen (r_buf r).

Definition Reader_peek_u8 (r : Reader) : result CodecError Z :=
  ok_or (r_buf r !! Z.to_nat (r_pos r)) Truncated.

Definition Reader_u8 (r : Reader) : result CodecError (Z * Reader) :=
  let! v := ok_or (r_buf r !! Z.to_nat (r_pos r)) Truncated in
  Ok (v, {| r_buf := r_buf r; r_pos := r_pos r + 1 |}).

Definition Reader_take (r : Reader) (n : Z) : result CodecError (bytes * Reader) :=
  let! end_ := ok_or (checked_add 64 (r_pos r) n) Truncated in
  fail_if zlen (r_buf r) <? end_ with Truncated ;;
  Ok (slice (Z.to_nat (r_pos r)) (Z.to_nat n) (r_buf r),
      {| r_buf := r_buf r; r_pos := end_ |}).

(** [take(k)] then [from_le_bytes]. *)
Definition Reader_u16 (r : Reader) : result CodecError (Z * Reader) :=
  let! '(s, r) := Reader_take r 2 in Ok (from_le s, r).
Definition Reader_u32 (r : Reader) : result CodecError (Z * Reader) :=
  let! '(s, r) := Reader_take r 4 in Ok (from_le s, r).
Definition Reader_u64 (r : Reader) : result CodecError (Z * Reader) :=
  let! '(s, r) := Reader_take r 8 in Ok (from_le s, r).
Definition Reader_u128 (r : Reader) : result CodecError (Z * Reader) :=
  let! '(s, r) := Reader_take r 16 in Ok (from_le s, r).

Definition Reader_bytes16 (r : Reader) : result CodecError (bytes * Reader) :=
  let! '(len, r) := Reader_u16 r in Reader_take r len.

Definition Reader_bytes32_capped (r : Reader) (cap : Z) : result CodecError (bytes * Reader) :=
  let! '(len, r) := Reader_u32 r in
  fail_if cap <? len with TooLong ;;
  Reader_take r len.

Definition Reader_bytes32 (r : Reader) : result CodecError (bytes * Reader) :=
  Reader_bytes32_capped r (2 ^ 32 - 1).

(** The varint loop.  [shift] grows by seven and the loop stops at
    [shift >= 64], so eleven turns always suffice; [<<] on a [u64] drops
    the bits above 64. *)
Fixpoint Reader_varint_loop (fuel : nat) (r : Reader) (result_ shift : Z)
  : result CodecError (Z * Reader) :=
  match fuel with
  | O => Err Malformed
  | S fuel' =>
      fail_if 64 <=? shift with Malformed ;;
      let! '(b, r) := Reader_u8 r in
      let result_ := Z.lor result_ (wrap 64 (Z.shiftl (Z.land b 127) shift)) in
      if Z.land b 128 =? 0 then Ok (result_, r)
      else Reader_varint_loop fuel' r result_ (shift + 7)
  end.
Definition Reader_varint (r : Reader) : result CodecError (Z * Reader) :=
  Reader_varint_loop 11 r 0 0.

Definition Reader_skip (r : Reader) (n : Z) : result CodecError Reader :=
  let! '(_, r) := Reader_take r n in Ok r.

(** * The reader's view of its remaining input *)

(** [reader_at r l]: the reader is well formed (its slice is a Rust slice,
    shorter than [2^63], and its position lies inside it) and the bytes
    left are [l]. *)
Record reader_at (r : Reader) (l : bytes) : Prop := {
  ra_slice : zlen (r_buf r) < 2 ^ 63;
  ra_pos : 0 <= r_pos r <= zlen (r_buf r);
  ra_rest : drop (Z.to_nat (r_pos r)) (r_buf r) = l
}.

Lemma Reader_new_at buf : zlen buf < 2 ^ 63 -> reader_at (Reader_new buf) buf.
Proof. intros H. split; [exact H | pose proof (zlen_nonneg buf); simpl; lia | done]. Qed.

Lemma reader_at_len r l : reader_at r l -> zlen l = zlen (r_buf r) - r_pos r.
Proof.
  intros [? ? <-]. unfold zlen in *. rewrite length_drop. lia.
Qed.

Lemma Reader_done_spec r l : reader_at r l -> Reader_done r = bool_decide (l = []).
Proof.
  intros H. pose proof (reader_at_len _ _ H) as Hl. destruct H. unfold Reader_done.
  destruct (Z.eqb_spec (r_pos r) (zlen (r_buf r))); symmetry.
  - apply bool_decide_eq_true. apply nil_length_inv. unfold zlen in *. lia.
  - apply bool_decide_eq_false. intros ->. rewrite zlen_nil in Hl. lia.
Qed.

(** ** Reading what was written *)

Lemma Reader_take_ok r s l n :
  reader_at r (s ++ l) -> n = zlen s ->
  exists r', Reader_take r n = Ok (s, r') /\ reader_at r' l.
Proof.
  intros H ->. pose proof (reader_at_len _ _ H) as Hl. destruct H as [Hs Hp Hr].
  rewrite zlen_app in Hl. pose proof (zlen_nonneg s). pose proof (zlen_nonneg l).
  unfold Reader_take.
  replace (checked_add 64 (r_pos r) (zlen s)) with (Some (r_pos r + zlen s))
    by (symmetry; apply checked_add_Some; split; [done | lia]).
  cbn [ok_or rbind]. destruct (Z.ltb_spec (zlen (r_buf r)) (r_pos r + zlen s)); [lia|].
  eexists; split.
  - unfold slice. by rewrite Hr, to_nat_zlen, take_app_length.
  - split; simpl; [done | lia |].
    rewrite Z2Nat.inj_add by lia. rewrite <-drop_drop, Hr, to_nat_zlen.
    apply drop_app_length.
Qed.

Lemma Reader_u8_ok r v l :
  reader_at r (v :: l) -> exists r', Reader_u8 r = Ok (v, r') /\ reader_at r' l.
Proof.
  intros H. pose proof (reader_at_len _ _ H) as Hl. destruct H as [Hs Hp Hr].
  rewrite zlen_cons in Hl. pose proof (zlen_nonneg l).
  unfold Reader_u8. rewrite <-(Nat.add_0_r (Z.to_nat (r_pos r))), <-lookup_drop, Hr.
  cbn. eexists; split; [done|]. split; simpl; [done | lia |].
  rewrite Z2Nat.inj_add by lia. by rewrite <-drop_drop, Hr.
Qed.

Section IntReads.
Context (n : nat) (read : Reader -> result CodecError (Z * Reader)).
Hypothesis read_def : forall r,
  read r = rbind (Reader_take r (Z.of_nat n)) (fun '(s, r) => Ok (from_le s, r)).

Lemma int_read_ok r v l :
  reader_at r (to_le n v ++ l) -> 0 <= v < 256 ^ Z.of_nat n ->
  exists r', read r = Ok (v, r') /\ reader_at r' l.
Proof.
  intros H Hv. destruct (Reader_take_ok r (to_le n v) l (Z.of_nat n) H) as (r' & E & H').
  { by rewrite zlen_to_le. }
  exists r'. rewrite read_def, E. cbn. by rewrite from_le_to_le.
Qed.

Lemma int_read_inv r l v r' :
  reader_at r l -> wf_bytes l -> read r = Ok (v, r') ->
  (forall s, Reader_take r (Z.of_nat n) = Ok (s, r') ->
     exists l', l = s ++ l' /\ reader_at r' l' /\ zlen s = Z.of_nat n) ->
  exists l', l = to_le n v ++ l' /\ reader_at r' l' /\ wf_bytes l' /\ 0 <= v < 256 ^ Z.of_nat n.
Proof.
  intros H Hwf E Htake. rewrite read_def in E. inv_ok E.
  destruct (Htake _ Hok) as (l' & -> & Hr' & Hs).
  apply wf_bytes_app in Hwf as [Hs8 Hl'].
  exists l'. match type of Hs with zlen ?x = _ => rename x into s end.
  assert (Hn : n = length s) by (unfold zlen in Hs; lia).
  split; [by rewrite Hn, to_le_from_le | split; [done | split; [done|]]].
  rewrite <-Hs. by apply from_le_bound.
Qed.
End IntReads.

Lemma Reader_u16_ok r v l : reader_at r (to_le 2 v ++ l) -> is_u16 v ->
  exists r', Reader_u16 r = Ok (v, r') /\ reader_at r' l.
Proof. intros. by apply (int_read_ok 2). Qed.
Lemma Reader_u32_ok r v l : reader_at r (to_le 4 v ++ l) -> is_u32 v ->
  exists r', Reader_u32 r = Ok (v, r') /\ reader_at r' l.
Proof. intros. by apply (int_read_ok 4). Qed.
Lemma Reader_u64_ok r v l : reader_at r (to_le 8 v ++ l) -> is_u64 v ->
  exists r', Reader_u64 r = Ok (v, r') /\ reader_at r' l.
Proof. intros. by apply (int_read_ok 8). Qed.
Lemma Reader_u128_ok r v l : reader_at r (to_le 16 v ++ l) -> is_u128 v ->
  exists r', Reader_u128 r = Ok (v, r') /\ reader_at r' l.
Proof. intros. by apply (int_read_ok 16). Qed.

(** ** What a successful read consumed *)

Lemma Reader_take_inv r l n s r' :
  reader_at r l -> 0 <= n -> Reader_take r n = Ok (s, r') ->
  exists l', l = s ++ l' /\ reader_at r' l' /\ zlen s = n.
Proof.
  intros H Hn E. pose proof (reader_at_len _ _ H) as Hl.
  unfold Reader_take in E. inv_ok E. apply ok_or_Ok_inv, checked_add_Some in Hok as [-> _]. bools.
  destruct H as [Hs Hp Hr].
  exists (drop (Z.to_nat n) l). unfold slice. rewrite Hr. split; [by rewrite take_drop|]. split.
  - split; simpl; [done | lia |]. rewrite Z2Nat.inj_add, <-drop_drop by lia. by rewrite Hr.
  - unfold zlen in *. rewrite length_take. lia.
Qed.

Lemma Reader_u8_inv r l v r' :
  reader_at r l -> wf_bytes l -> Reader_u8 r = Ok (v, r') ->
  exists l', l = v :: l' /\ reader_at r' l' /\ wf_bytes l' /\ is_u8 v.
Proof.
  intros H Hwf E. pose proof (reader_at_len _ _ H) as Hl.
  unfold Reader_u8 in E. inv_ok E. apply ok_or_Ok_inv in Hok. destruct H as [Hs Hp Hr].
  rewrite <-(Nat.add_0_r (Z.to_nat (r_pos r))), <-lookup_drop, Hr in Hok.
  destruct l as [|b l]; [done|]. cbn in Hok. injection Hok as ->.
  inversion Hwf; subst. rewrite zlen_cons in Hl. pose proof (zlen_nonneg l).
  exists l. split; [done|]. split; [|done]. split; simpl; [done | lia |].
  rewrite Z2Nat.inj_add, <-drop_drop by lia. by rewrite Hr.
Qed.

Lemma Reader_u16_inv r l v r' : reader_at r l -> wf_bytes l -> Reader_u16 r = Ok (v, r') ->
  exists l', l = to_le 2 v ++ l' /\ reader_at r' l' /\ wf_bytes l' /\ is_u16 v.
Proof. intros. eapply (int_read_inv 2 Reader_u16); eauto. intros. by eapply Reader_take_inv. Qed.
Lemma Reader_u32_inv r l v r' : reader_at r l -> wf_bytes l -> Reader_u32 r = Ok (v, r') ->
  exists l', l = to_le 4 v ++ l' /\ reader_at r' l' /\ wf_bytes l' /\ is_u32 v.
Proof. intros. eapply (int_read_inv 4 Reader_u32); eauto. intros. by eapply Reader_take_inv. Qed.
Lemma Reader_u64_inv r l v r' : reader_at r l -> wf_bytes l -> Reader_u64 r = Ok (v, r') ->
  exists l', l = to_le 8 v ++ l' /\ reader_at r' l' /\ wf_bytes l' /\ is_u64 v.
Proof. intros. eapply (int_read_inv 8 Reader_u64); eauto. intros. by eapply Reader_take_inv. Qed.
Lemma Reader_u128_inv r l v r' : reader_at r l -> wf_bytes l -> Reader_u128 r = Ok (v, r') ->
  exists l', l = to_le 16 v ++ l' /\ reader_at r' l' /\ wf_bytes l' /\ is_u128 v.
Proof. intros. eapply (int_read_inv 16 Reader_u128); eauto. intros. by eapply Reader_take_inv. Qed.

(** ** Automation for chains of reads *)

(** [read_step] runs the next read of a goal whose reader is at the
    canonical encoding of the value to be read. *)
Ltac read_side := first [done | assumption | by autorewrite with zlen | lia].
Ltac read_with lem :=
  let r' := fresh "r" in let E := fresh "E" in let H' := fresh "Hat" in
  edestruct lem as (r' & E & H'); [eassumption | ..];
  [.. | rewrite E; cbn [rbind ok_or]]; try read_side.

Lemma Reader_take_short r l n :
  reader_at r l -> zlen l < n -> Reader_take r n = Err Truncated.
Proof.
  intros H Hn. apply reader_at_len in H. unfold Reader_take.
  destruct (checked_add 64 (r_pos r) n) eqn:E; [|done]. apply checked_add_Some in E as [-> _].
  cbn [ok_or rbind]. destruct (Z.ltb_spec (zlen (r_buf r)) (r_pos r + n)); [done | lia].
Qed.

Lemma Reader_take_at_end r n :
  reader_at r [] -> 0 < n -> Reader_take r n = Err Truncated.
Proof. intros. by eapply Reader_take_short. Qed.

(** [reads_inv] replaces every successful read in the context by the bytes it
    has consumed. *)
Lemma take_inv r l n s r' :
  reader_at r l -> wf_bytes l -> 0 <= n -> Reader_take r n = Ok (s, r') ->
  exists l', l = s ++ l' /\ reader_at r' l' /\ wf_bytes l' /\ (zlen s = n /\ wf_bytes s).
Proof.
  intros Hat Hwf Hn H. destruct (Reader_take_inv _ _ _ _ _ Hat Hn H) as (l' & -> & Hat' & Hs).
  apply wf_bytes_app in Hwf as [Hs' Hl']. eauto 7.
Qed.

Ltac read_inv_split :=
  match goal with
  | H : exists l', ?l = _ /\ reader_at _ l' /\ wf_bytes l' /\ _ |- _ =>
      let l' := fresh "l" in let Ha := fresh "Hat" in let Hw := fresh "Hwf" in let Hx := fresh "Hx" in
      destruct H as (l' & -> & Ha & Hw & Hx)
  end.
Ltac read_inv_step :=
  lazymatch goal with
  | Hat : reader_at ?r ?l, Hwf : wf_bytes ?l, H : Reader_u8 ?r = Ok _ |- _ =>
      apply (Reader_u8_inv _ _ _ _ Hat Hwf) in H; clear Hat Hwf
  | Hat : reader_at ?r ?l, Hwf : wf_bytes ?l, H : Reader_u16 ?r = Ok _ |- _ =>
      apply (Reader_u16_inv _ _ _ _ Hat Hwf) in H; clear Hat Hwf
  | Hat : reader_at ?r ?l, Hwf : wf_bytes ?l, H : Reader_u32 ?r = Ok _ |- _ =>
      apply (Reader_u32_inv _ _ _ _ Hat Hwf) in H; clear Hat Hwf
  | Hat : reader_at ?r ?l, Hwf : wf_bytes ?l, H : Reader_u64 ?r = Ok _ |- _ =>
      apply (Reader_u64_inv _ _ _ _ Hat Hwf) in H; clear Hat Hwf
  | Hat : reader_at ?r ?l, Hwf : wf_bytes ?l, H : Reader_u128 ?r = Ok _ |- _ =>
      apply (Reader_u128_inv _ _ _ _ Hat Hwf) in H; clear Hat Hwf
  | Hat : reader_at ?r ?l, Hwf : wf_bytes ?l, H : Reader_take ?r ?n = Ok _ |- _ =>
      apply (take_inv _ _ _ _ _ Hat Hwf) in H; [| width]; clear Hat Hwf
  end;
  read_inv_split.
Ltac reads_inv := repeat read_inv_step.

(** ** Varints *)

Lemma Writer_varint_loop_app fuel buf v :
  Writer_varint_loop fuel buf v = buf ++ Writer_varint_loop fuel [] v.
Proof.
  revert buf v. induction fuel as [|fuel IH]; intros buf v; cbn [Writer_varint_loop].
  - by rewrite app_nil_r.
  - destruct (Z.shiftr v 7 =? 0); [done|].
    rewrite IH, (IH ([] ++ _)). by rewrite <-app_assoc.
Qed.

Lemma varint_digit v : 0 <= v ->
  v = Z.land v 127 + Z.shiftr v 7 * 128 /\ 0 <= Z.land v 127 < 128 /\ 0 <= Z.shiftr v 7.
Proof.
  intros Hv. change 127 with (Z.ones 7). rewrite Z.land_ones, Z.shiftr_div_pow2 by lia.
  change (2 ^ 7) with 128. pose proof (Z.div_mod v 128). pose proof (Z.mod_pos_bound v 128).
  pose proof (Z.div_pos v 128). lia.
Qed.

Lemma land_lor_128 b : 0 <= b < 128 -> Z.land (Z.lor b 128) 127 = b /\ Z.land (Z.lor b 128) 128 = 128
  /\ Z.land b 127 = b /\ Z.land b 128 = 0.
Proof.
  intros Hb.
  assert (Hall : forallb (fun n => let b := Z.of_nat n in
      (Z.land (Z.lor b 128) 127 =? b) && (Z.land (Z.lor b 128) 128 =? 128) &&
      (Z.land b 127 =? b) && (Z.land b 128 =? 0)) (seq 0 128) = true) by reflexivity.
  rewrite forallb_forall in Hall. specialize (Hall (Z.to_nat b)).
  rewrite in_seq, Z2Nat.id in Hall by lia. specialize (Hall ltac:(lia)). cbv zeta in Hall. bools. by split_and!.
Qed.

Lemma varint_loop_roundtrip f v acc s g r l :
  (f <= g)%nat -> f <> O -> 0 <= v < 2 ^ (7 * Z.of_nat f) -> 0 <= s < 64 -> v * 2 ^ s < 2 ^ 64 ->
  0 <= acc < 2 ^ s -> reader_at r (Writer_varint_loop f [] v ++ l) ->
  exists r', Reader_varint_loop g r acc s = Ok (acc + v * 2 ^ s, r') /\ reader_at r' l.
Proof.
  revert v acc s g r. induction f as [|f IH]; intros v acc s g r Hg Hf Hv Hs Hvs Hacc Hat; [done|].
  destruct g as [|g]; [lia|]. cbn [Writer_varint_loop Reader_varint_loop] in *.
  destruct (Z.leb_spec 64 s); [lia|].
  destruct (varint_digit v) as (Hd & Hb & Hq); [lia|].
  destruct (land_lor_128 _ Hb) as (L1 & L2 & L3 & L4).
  assert (Hp : 0 < 2 ^ s) by (apply Z.pow_pos_nonneg; lia).
  set (b := Z.land v 127) in *. set (q := Z.shiftr v 7) in *.
  assert (Hw : wrap 64 (Z.shiftl b s) = Z.shiftl b s).
  { apply wrap_small. rewrite Z.shiftl_mul_pow2 by lia. unfold in_width. nia. }
  destruct (Z.eqb_spec q 0) as [Hq0|Hq0].
  - cbn [app] in Hat. destruct (Reader_u8_ok _ _ _ Hat) as (r' & E & Hat'). rewrite E. cbn [rbind].
    rewrite L3, L4, Hw, lor_shiftl_add by lia. cbn. exists r'. split; [|done]. do 2 f_equal. nia.
  - rewrite Writer_varint_loop_app in Hat. cbn [app] in Hat.
    destruct (Reader_u8_ok _ _ _ Hat) as (r' & E & Hat'). rewrite E. cbn [rbind].
    rewrite L1, L2, Hw, lor_shiftl_add by lia. cbn -[Z.pow Z.mul Z.add].
    assert (Hs' : 2 ^ (s + 7) = 2 ^ s * 128) by (rewrite Z.pow_add_r by lia; done).
    destruct (IH q (acc + b * 2 ^ s) (s + 7) g r') as (r'' & E' & Hat''); try done; try nia.
    + intros ->. cbn in Hv. lia.
    + split; [lia|]. replace (7 * Z.of_nat (S f)) with (7 * Z.of_nat f + 7) in Hv by lia.
      rewrite Z.pow_add_r in Hv by lia. change (2 ^ 7) with 128 in Hv. nia.
    + split; [lia|]. apply (Z.pow_lt_mono_r_iff 2); nia.
    + exists r''. rewrite E'. split; [|done]. do 2 f_equal. nia.
Qed.

(** Ten turns of the writer and eleven of the reader are enough fuel: more
    changes nothing. *)
Lemma Writer_varint_fuel k f buf v :
  0 <= v < 2 ^ (7 * Z.of_nat (S f)) -> Writer_varint_loop (S f + k) buf v = Writer_varint_loop (S f) buf v.
Proof.
  revert buf v. induction f as [|f IH]; intros buf v Hv.
  - cbn [Nat.add Writer_varint_loop]. replace (Z.shiftr v 7) with 0; [done|].
    rewrite Z.shiftr_div_pow2, Z.div_small by (try lia; exact Hv). done.
  - change (S (S f) + k)%nat with (S (S f + k)). cbn [Writer_varint_loop].
    destruct (Z.shiftr v 7 =? 0); [done|]. apply IH.
    rewrite Z.shiftr_div_pow2 by lia. split; [apply Z.div_pos; lia|].
    apply Z.div_lt_upper_bound; [lia|]. rewrite <-Z.pow_add_r by lia.
    replace (7 + 7 * Z.of_nat (S f)) with (7 * Z.of_nat (S (S f))) by lia. lia.
Qed.

Lemma Reader_varint_fuel k f r acc s :
  64 <= s + 7 * Z.of_nat f -> Reader_varint_loop (S f + k) r acc s = Reader_varint_loop (S f) r acc s.
Proof.
  revert r acc s. induction f as [|f IH]; intros r acc s Hs.
  - cbn [Nat.add Reader_varint_loop]. destruct (Z.leb_spec 64 s); [done | lia].
  - change (S (S f) + k)%nat with (S (S f + k)). cbn [Reader_varint_loop].
    destruct (64 <=? s); [done|]. destruct (Reader_u8 r) as [[b r1]|]; [|done]. cbn [rbind].
    destruct (Z.land b 128 =? 0); [done|]. apply IH. lia.
Qed.

(** * The module's contracts *)

(** LEB128 round trip: for every [u64] the reader returns the value the
    writer was given and stops exactly behind its bytes; neither loop needs
    more turns than the fuel of its definition. *)
Theorem varint_roundtrip w v l r :
  is_u64 v -> reader_at r (w_buf (Writer_varint w v) ++ l) ->
  (exists r0 r', Reader_take r (zlen (w_buf w)) = Ok (w_buf w, r0) /\
     Reader_varint r0 = Ok (v, r') /\ reader_at r' l) /\
  (forall k, Writer_varint_loop (10 + k) (w_buf w) v = w_buf (Writer_varint w v)) /\
  (forall k r, Reader_varint_loop (11 + k) r 0 0 = Reader_varint r).
Proof.
  intros Hv Hat. split_and!.
  - cbn [Writer_varint w_buf] in Hat. rewrite Writer_varint_loop_app, <-app_assoc in Hat.
    destruct (Reader_take_ok _ _ _ _ Hat eq_refl) as (r0 & E0 & Hat0). exists r0.
    edestruct (varint_loop_roundtrip 10 v 0 0 11) as (r' & E & Hat'); [..|exact Hat0|]; try lia.
    + split; [apply Hv|]. destruct Hv. change (2 ^ (7 * Z.of_nat 10)) with (2 ^ 70). lia.
    + destruct Hv. lia.
    + exists r'. unfold Reader_varint. rewrite E, Z.add_0_l, Z.mul_1_r. by split_and!.
  - intros k. apply (Writer_varint_fuel k 9). destruct Hv.
    change (2 ^ (7 * Z.of_nat 10)) with (2 ^ 70). lia.
  - intros k r'. apply (Reader_varint_fuel k 10). lia.
Qed.

Lemma varint_roundtrip_witness :
  exists r0 r', Reader_take (Reader_new [9; 172; 2]) 1 = Ok ([9], r0) /\
     Reader_varint r0 = Ok (300, r') /\ reader_at r' [].
Proof.
  refine (proj1 (varint_roundtrip {| w_buf := [9] |} 300 [] (Reader_new [9; 172; 2]) _ _)).
  - width.
  - apply Reader_new_at. vm_compute. reflexivity.
Defined.

(** Length-prefixed byte strings: [bytes32] refuses only what a [u32]
    length cannot describe, and [bytes32_capped] returns exactly the bytes
    written when they respect the cap, [TooLong] when they do not. *)
Theorem bytes32_roundtrip b w cap l r w' :
  Writer_bytes32 w b = Ok w' -> reader_at r (w_buf w' ++ l) ->
  zlen b < 2 ^ 32 /\
  exists r0, Reader_take r (zlen (w_buf w)) = Ok (w_buf w, r0) /\
    if zlen b <=? cap
    then exists r', Reader_bytes32_capped r0 cap = Ok (b, r') /\ reader_at r' l
    else Reader_bytes32_capped r0 cap = Err TooLong.
Proof.
  intros Hw Hat. unfold Writer_bytes32 in Hw. inv_ok Hw. bools. split; [done|].
  cbn [Writer_bytes Writer_u32 w_buf] in Hat. rewrite <-!app_assoc in Hat.
  destruct (Reader_take_ok _ _ _ _ Hat eq_refl) as (r0 & E0 & Hat0). exists r0. split; [done|].
  pose proof (zlen_nonneg b).
  destruct (Reader_u32_ok _ _ _ Hat0 ltac:(width)) as (r1 & E1 & Hat1).
  unfold Reader_bytes32_capped. rewrite E1. cbn [rbind].
  destruct (Z.leb_spec (zlen b) cap); [|destruct (Z.ltb_spec cap (zlen b)); [done | lia]].
  pass_if. by apply Reader_take_ok.
Qed.

Lemma bytes32_roundtrip_witness :
  zlen [7; 8] < 2 ^ 32 /\
  exists r0, Reader_take (Reader_new [2; 0; 0; 0; 7; 8; 9]) 0 = Ok ([], r0) /\
    exists r', Reader_bytes32_capped r0 2 = Ok ([7; 8], r') /\ reader_at r' [9].
Proof.
  refine (bytes32_roundtrip [7; 8] Writer_new 2 [9] (Reader_new [2; 0; 0; 0; 7; 8; 9])
            {| w_buf := [2; 0; 0; 0; 7; 8] |} _ _).
  - vm_compute. reflexivity.
  - apply Reader_new_at. vm_compute. reflexivity.
Defined.
