(* ===== verification/Binomial.v ===== *)
(** Counting functions the configurational families are measured against:
    binomial coefficients, factorials and multinomials on exact integers,
    with the identities the rank/unrank theorems use.  Nothing here models
    code; [Rank] proves that the checked [u128] routines of
    [entropy/rank.rs] compute these functions. *)
From S2P Require Import Prelude.

(** [C(n, k)] by Pascal's rule. *)
Fixpoint binom (n k : nat) : Z :=
  match k, n with
  | O, _ => 1
  | S _, O => 0
  | S k', S n' => binom n' k' + binom n' k
  end.

Fixpoint fact (n : nat) : Z :=
  match n with O => 1 | S n' => Z.of_nat n * fact n' end.

Lemma binom_0_r n : binom n 0 = 1.
Proof. by destruct n. Qed.

Lemma binom_S n k : binom (S n) (S k) = binom n k + binom n (S k).
Proof. done. Qed.

Lemma binom_nonneg n k : 0 <= binom n k.
Proof.
  revert k. induction n as [|n IH]; intros [|k]; try done.
  rewrite binom_S. pose proof (IH k). pose proof (IH (S k)). lia.
Qed.

Lemma binom_gt n k : (n < k)%nat -> binom n k = 0.
Proof.
  revert k. induction n as [|n IH]; intros [|k] H; try lia; [done|].
  rewrite binom_S, !IH by lia. done.
Qed.

Lemma binom_diag n : binom n n = 1.
Proof. induction n as [|n IH]; [done|]. rewrite binom_S, IH, binom_gt by lia. done. Qed.

Lemma binom_pos n k : (k <= n)%nat -> 1 <= binom n k.
Proof.
  revert k. induction n as [|n IH]; intros [|k] H; try (by simpl); try lia.
  rewrite binom_S. pose proof (IH k ltac:(lia)). pose proof (binom_nonneg n (S k)). lia.
Qed.

(** Absorption: [(k+1) C(n+1, k+1) = (n+1) C(n, k)]. *)
Lemma binom_absorb n k : (1 + Z.of_nat k) * binom (S n) (S k) = (1 + Z.of_nat n) * binom n k.
Proof.
  revert k. induction n as [|n IH]; intros k.
  - destruct k as [|k]; [done|]. rewrite binom_S, !binom_gt by lia. lia.
  - rewrite binom_S. destruct k as [|k].
    + rewrite !binom_0_r. pose proof (IH 0%nat) as E. rewrite binom_0_r in E. lia.
    + pose proof (IH k). pose proof (IH (S k)). rewrite (binom_S n k) in *. nia.
Qed.

Lemma binom_sym n k : (k <= n)%nat -> binom n k = binom n (n - k).
Proof.
  revert k. induction n as [|n IH]; intros k H.
  - by replace k with 0%nat by lia.
  - destruct k as [|k].
    + by rewrite binom_0_r, Nat.sub_0_r, binom_diag.
    + destruct (decide (k = n)) as [->|].
      { by rewrite binom_diag, Nat.sub_diag, binom_0_r. }
      replace (S n - S k)%nat with (S (n - S k)) by lia.
      rewrite !binom_S, (IH k), (IH (S k)) by lia.
      replace (n - k)%nat with (S (n - S k)) by lia. lia.
Qed.

Lemma binom_mono_l n k : binom n k <= binom (S n) k.
Proof.
  destruct k as [|k]; [by rewrite !binom_0_r|]. rewrite binom_S.
  pose proof (binom_nonneg n k). lia.
Qed.

Lemma binom_mono_le n m k : (n <= m)%nat -> binom n k <= binom m k.
Proof.
  induction 1 as [|m _ IH]; [done|]. etrans; [exact IH | apply binom_mono_l].
Qed.

Lemma binom_lt_succ n k : (k <= n)%nat -> (1 <= k)%nat -> binom n k < binom (S n) k.
Proof.
  destruct k as [|k]; intros; [lia|]. rewrite binom_S. pose proof (binom_pos n k ltac:(lia)). lia.
Qed.

Lemma binom_diag_mono n k : binom n k <= binom (S n) (S k).
Proof. rewrite binom_S. pose proof (binom_nonneg n (S k)). lia. Qed.

(** Along a diagonal: [C(d+i, i)] grows with [i]. *)
Lemma binom_diag_mono_le d i j : (i <= j)%nat -> binom (d + i) i <= binom (d + j) j.
Proof.
  induction 1 as [|j _ IH]; [done|]. etrans; [exact IH|].
  rewrite Nat.add_succ_r. apply binom_diag_mono.
Qed.

(** The state space shrinks when [j] coordinates have been fixed. *)
Lemma binom_shrink n k j m :
  (j <= k)%nat -> (m + j <= n)%nat -> binom m (k - j) <= binom n k.
Proof.
  intros Hj Hm. etrans; [|apply (binom_mono_le (m + j)); exact Hm].
  clear Hm n. induction j as [|j IH] in k, Hj |- *.
  - by rewrite Nat.sub_0_r, Nat.add_0_r.
  - destruct k as [|k]; [lia|]. rewrite Nat.add_succ_r.
    etrans; [|apply binom_diag_mono]. cbn [Nat.sub]. apply IH. lia.
Qed.

Lemma fact_pos n : 1 <= fact n.
Proof. induction n as [|n IH]; cbn [fact]; [done|]. nia. Qed.

Lemma fact_S n : fact (S n) = (1 + Z.of_nat n) * fact n.
Proof. cbn [fact]. lia. Qed.

Lemma fact_mono n m : (n <= m)%nat -> fact n <= fact m.
Proof.
  induction 1 as [|m _ IH]; [done|]. rewrite fact_S. pose proof (fact_pos m). nia.
Qed.

(** * The combinatorial number system *)

(** [crank i [p_i; p_{i+1}; ...] = C(p_i, i+1) + C(p_{i+1}, i+2) + ...] *)
Fixpoint crank (i : nat) (ps : list nat) : Z :=
  match ps with [] => 0 | p :: ps' => binom p (S i) + crank (S i) ps' end.

(** Strictly ascending and below [n]. *)
Fixpoint ascending_from (lo : nat) (ps : list nat) (n : nat) : Prop :=
  match ps with
  | [] => True
  | p :: ps' => (lo <= p)%nat /\ (p < n)%nat /\ ascending_from (S p) ps' n
  end.

Lemma crank_app i ps qs : crank i (ps ++ qs) = crank i ps + crank (i + length ps) qs.
Proof.
  revert i. induction ps as [|p ps IH]; intros i; cbn [crank app length].
  - by rewrite Nat.add_0_r.
  - rewrite IH. replace (S i + length ps)%nat with (i + S (length ps))%nat by lia. lia.
Qed.

Lemma ascending_weaken lo lo' ps n : (lo' <= lo)%nat -> ascending_from lo ps n -> ascending_from lo' ps n.
Proof. destruct ps; simpl; [done|]. intuition lia. Qed.

Lemma ascending_weaken_r lo ps n n' : (n <= n')%nat -> ascending_from lo ps n -> ascending_from lo ps n'.
Proof.
  revert lo. induction ps as [|p ps IH]; simpl; [done|]. intros lo ? (?&?&?). split_and!; [done | lia | auto].
Qed.

Lemma ascending_snoc lo ps p n :
  ascending_from lo (ps ++ [p]) n <-> ascending_from lo ps p /\ (lo <= p)%nat /\ (p < n)%nat.
Proof.
  revert lo. induction ps as [|q ps IH]; intros lo; cbn [app ascending_from].
  - intuition.
  - rewrite IH. intuition lia.
Qed.

Lemma ascending_length lo ps n : ascending_from lo ps n -> (lo <= n)%nat -> (length ps + lo <= n)%nat.
Proof.
  revert lo. induction ps as [|p ps IH]; intros lo H Hn; simpl in *; [done|].
  destruct H as (?&?&H). apply IH in H; lia.
Qed.

Lemma crank_nonneg i ps : 0 <= crank i ps.
Proof.
  revert i. induction ps as [|p ps IH]; intros i; cbn [crank]; [done|].
  pose proof (binom_nonneg p (S i)). pose proof (IH (S i)). lia.
Qed.

(** A subset's rank is below the number of subsets. *)
Lemma crank_lt ps n : ascending_from 0 ps n -> crank 0 ps < binom n (length ps).
Proof.
  revert n. induction ps as [|p ps IH] using rev_ind; intros n H.
  - rewrite binom_0_r. done.
  - apply ascending_snoc in H as (H & _ & Hp). specialize (IH _ H).
    rewrite crank_app, length_app, Nat.add_1_r. cbn [crank]. rewrite Nat.add_0_l.
    pose proof (binom_mono_le (S p) n (S (length ps)) ltac:(lia)) as Hm.
    rewrite binom_S in Hm. lia.
Qed.

(** The rank determines the subset. *)
Lemma crank_last_lt ps p qs q n :
  length ps = length qs -> (p < q)%nat -> ascending_from 0 (ps ++ [p]) n ->
  crank 0 (ps ++ [p]) < crank 0 (qs ++ [q]).
Proof.
  intros Hl Hpq H. apply ascending_snoc in H as (H & _ & _). apply crank_lt in H.
  rewrite !crank_app, !Nat.add_0_l, <-Hl. cbn [crank].
  pose proof (binom_mono_le (S p) q (S (length ps)) ltac:(lia)) as Hm. rewrite binom_S in Hm.
  pose proof (crank_nonneg 0 qs). lia.
Qed.

Lemma crank_inj ps qs n :
  length ps = length qs -> ascending_from 0 ps n -> ascending_from 0 qs n ->
  crank 0 ps = crank 0 qs -> ps = qs.
Proof.
  revert qs n. induction ps as [|p ps IH] using rev_ind; intros qs n Hl Hp Hq E.
  - by destruct qs.
  - destruct qs as [|q qs _] using rev_ind; [rewrite length_app in Hl; simpl in Hl; lia|].
    rewrite !length_app, !Nat.add_1_r in Hl. injection Hl as Hl.
    destruct (Nat.lt_trichotomy p q) as [Hlt|[->|Hlt]].
    + pose proof (crank_last_lt ps p qs q n Hl Hlt Hp). lia.
    + apply ascending_snoc in Hp as (Hp & _ & _). apply ascending_snoc in Hq as (Hq & _ & _).
      rewrite !crank_app, Hl in E. f_equal. eapply IH; eauto. lia.
    + pose proof (crank_last_lt qs q ps p n (eq_sym Hl) Hlt Hq). lia.
Qed.

(** * Multinomials and lexicographic blocks *)

(** Number of sequences in which symbol [i] occurs [cs !! i] times. *)
Fixpoint multi (cs : list nat) : Z :=
  match cs with [] => 1 | c :: cs' => binom (c + list_sum cs') c * multi cs' end.

Lemma multi_pos cs : 1 <= multi cs.
Proof.
  induction cs as [|c cs IH]; cbn [multi]; [done|].
  pose proof (binom_pos (c + list_sum cs) c ltac:(lia)). nia.
Qed.

Lemma list_sum_dec cs t c : cs !! t = Some (S c) -> S (list_sum (<[t:=c]> cs)) = list_sum cs.
Proof.
  revert t. induction cs as [|d cs IH]; intros [|t] H; simplify_eq/=; [done|].
  rewrite <-(IH t H). unfold list_sum. lia.
Qed.

(** Sequences that start with symbol [t]. *)
Definition block_at (cs : list nat) (t : nat) : Z :=
  match cs !! t with Some (S c) => multi (<[t:=c]> cs) | _ => 0 end.

(** Sequences whose first symbol is below [s]. *)
Fixpoint blocks (cs : list nat) (s : nat) : Z :=
  match s with O => 0 | S s' => blocks cs s' + block_at cs s' end.

Lemma block_at_nonneg cs t : 0 <= block_at cs t.
Proof.
  unfold block_at. destruct (cs !! t) as [[|c]|]; try done. pose proof (multi_pos (<[t:=c]> cs)). lia.
Qed.

Lemma blocks_mono cs a b : (a <= b)%nat -> blocks cs a <= blocks cs b.
Proof.
  induction 1 as [|b _ IH]; [done|]. cbn [blocks]. pose proof (block_at_nonneg cs b). lia.
Qed.

Lemma block_at_zero cs t : list_sum cs = 0%nat -> block_at cs t = 0.
Proof.
  intros H. unfold block_at. destruct (cs !! t) as [[|c]|] eqn:E; try done.
  apply list_sum_dec in E. lia.
Qed.

Lemma blocks_zero cs k : list_sum cs = 0%nat -> blocks cs k = 0.
Proof. intros H. induction k as [|k IH]; [done|]. cbn [blocks]. by rewrite IH, block_at_zero. Qed.

Lemma block_at_cons_S c cs t :
  block_at (c :: cs) (S t) = binom (c + pred (list_sum cs)) c * block_at cs t.
Proof.
  unfold block_at. cbn. destruct (cs !! t) as [[|d]|] eqn:E; try lia.
  cbn. rewrite <-(list_sum_dec _ _ _ E). done.
Qed.

Lemma blocks_cons_S c cs k :
  blocks (c :: cs) (S k) = block_at (c :: cs) 0 + binom (c + pred (list_sum cs)) c * blocks cs k.
Proof.
  induction k as [|k IH].
  - cbn [blocks]. lia.
  - cbn [blocks] in *. rewrite IH, block_at_cons_S. lia.
Qed.

(** The blocks of a nonempty family partition it. *)
Lemma blocks_total cs : (1 <= list_sum cs)%nat -> blocks cs (length cs) = multi cs.
Proof.
  induction cs as [|c cs IH]; intros H; [simpl in H; lia|].
  cbn [length]. rewrite blocks_cons_S. cbn [multi]. cbn in H. fold (list_sum cs) in H.
  destruct (decide (list_sum cs = 0%nat)) as [H0|H0].
  - rewrite blocks_zero, H0, Z.mul_0_r, Z.add_0_r, Nat.add_0_r, binom_diag by done.
    destruct c as [|c]; [lia|]. cbn. fold (list_sum cs). by rewrite H0, Nat.add_0_r, binom_diag.
  - rewrite IH by lia. destruct c as [|c].
    + cbn. fold (list_sum cs). rewrite !binom_0_r. lia.
    + unfold block_at. cbn [lookup list_lookup insert list_insert multi].
      replace (S c + list_sum cs)%nat with (S (c + list_sum cs)) by lia.
      replace (S c + pred (list_sum cs))%nat with (c + list_sum cs)%nat by lia.
      rewrite binom_S. lia.
Qed.

(** [sq] uses each symbol as often as [cs] says. *)
Inductive arranges : list nat -> list nat -> Prop :=
| arranges_nil cs : list_sum cs = 0%nat -> arranges cs []
| arranges_cons cs s c sq :
    cs !! s = Some (S c) -> arranges (<[s:=c]> cs) sq -> arranges cs (s :: sq).

(** Lexicographic position among the arrangements. *)
Fixpoint mrank (cs sq : list nat) : Z :=
  match sq with
  | [] => 0
  | s :: sq' => blocks cs s + mrank (<[s:=pred (cs !!! s)]> cs) sq'
  end.

Lemma mrank_cons cs s c sq :
  cs !! s = Some (S c) -> mrank cs (s :: sq) = blocks cs s + mrank (<[s:=c]> cs) sq.
Proof. intros E. cbn [mrank]. by rewrite (list_lookup_total_correct _ _ _ E). Qed.

Lemma block_at_some cs s c : cs !! s = Some (S c) -> block_at cs s = multi (<[s:=c]> cs).
Proof. intros E. unfold block_at. by rewrite E. Qed.

Lemma arranges_length cs sq : arranges cs sq -> length sq = list_sum cs.
Proof.
  induction 1 as [cs H|cs s c sq E _ IH]; [by rewrite H|]. cbn [length].
  rewrite IH. by apply list_sum_dec.
Qed.

Lemma mrank_nonneg cs sq : 0 <= mrank cs sq.
Proof.
  revert cs. induction sq as [|s sq IH]; intros cs; cbn [mrank]; [done|].
  pose proof (IH (<[s:=pred (cs !!! s)]> cs)). pose proof (blocks_mono cs 0 s ltac:(lia)).
  cbn [blocks] in *. lia.
Qed.

Lemma mrank_lt cs sq : arranges cs sq -> mrank cs sq < multi cs.
Proof.
  induction 1 as [cs H|cs s c sq E _ IH].
  - pose proof (multi_pos cs). cbn [mrank]. lia.
  - rewrite (mrank_cons _ _ _ _ E). pose proof (list_sum_dec _ _ _ E).
    rewrite <-(blocks_total cs) by lia. apply lookup_lt_Some in E as Hs.
    pose proof (blocks_mono cs (S s) (length cs) Hs) as Hm. cbn [blocks] in Hm.
    rewrite (block_at_some _ _ _ E) in Hm. lia.
Qed.

Lemma mrank_head_lt cs s c sq s' sq' :
  cs !! s = Some (S c) -> arranges (<[s:=c]> cs) sq -> (s < s')%nat ->
  mrank cs (s :: sq) < mrank cs (s' :: sq').
Proof.
  intros E Ha Hlt. rewrite (mrank_cons _ _ _ _ E). apply mrank_lt in Ha.
  cbn [mrank]. pose proof (mrank_nonneg (<[s':=pred (cs !!! s')]> cs) sq').
  pose proof (blocks_mono cs (S s) s' Hlt) as Hm. cbn [blocks] in Hm.
  rewrite (block_at_some _ _ _ E) in Hm. lia.
Qed.

Lemma mrank_inj cs a b : arranges cs a -> arranges cs b -> mrank cs a = mrank cs b -> a = b.
Proof.
  intros Ha. revert b. induction Ha as [cs H|cs s c sq E Ha IH]; intros b Hb Heq.
  - apply arranges_length in Hb. rewrite H in Hb. by destruct b.
  - pose proof (list_sum_dec _ _ _ E). inversion Hb as [|? s' c' sq' E' Hb']; subst; [lia|].
    destruct (Nat.lt_trichotomy s s') as [Hlt|[->|Hlt]].
    + pose proof (mrank_head_lt cs s c sq s' sq' E Ha Hlt). lia.
    + rewrite E in E'. injection E' as ->. rewrite !(mrank_cons _ _ _ _ E) in Heq.
      f_equal. apply IH; [done | lia].
    + pose proof (mrank_head_lt cs s' c' sq' s sq E' Hb' Hlt). lia.
Qed.
