(* ===== verification/Rank.v ===== *)
(** Component [entropy/rank.rs]: checked combinatorial rank/unrank
    arithmetic on [u128].  Subsets use the combinatorial number system,
    index sequences under multiset counts use lexicographic block sizes,
    permutations use the factorial number system.  The theorems show that
    the checked arithmetic computes the exact counts whenever they fit, and
    that each [unrank]/[rank] pair is a bijection onto its rank range. *)
From S2P Require Import Prelude Binomial.

Inductive RankError : Type :=
| KExceedsN
| SpaceOverflow
| RankOutOfRange
| BadPositions
| CountMismatch
| SizeTooLarge
| Overflow.
#[global] Instance RankError_eq_dec : EqDecision RankError.
Proof. solve_decision. Defined.

(** * Checked counting *)

(** Euclid's loop.  The second operand halves every two turns, which bounds
    the number of turns by twice its bit length. *)
Fixpoint gcd_loop (fuel : nat) (a b : Z) : Z :=
  match fuel with
  | O => a
  | S fuel' => if b =? 0 then a else gcd_loop fuel' b (a mod b)
  end.
Definition gcd_u128 (a b : Z) : Z := gcd_loop (Z.to_nat (2 * Z.log2 b + 3)) a b.

(** The loop [for i in 1..=k] of [comb]; [todo] counts the turns left. *)
Fixpoint comb_loop (todo : nat) (n k i r : Z) : option Z :=
  match todo with
  | O => Some r
  | S todo' =>
      let num := n - k + i in
      let den := i in
      let g := gcd_u128 r den in
      let r := r / g in
      let den := den / g in
      let g2 := gcd_u128 num den in
      let num := num / g2 in
      match checked_mul 128 r num with
      | None => None
      | Some r => comb_loop todo' n k (i + 1) r
      end
  end.

Definition comb (n k : Z) : option Z :=
  if n <? k then Some 0 else
  let k := Z.min k (n - k) in
  comb_loop (Z.to_nat k) n k 1 1.

Fixpoint factorial_loop (todo : nat) (i r : Z) : option Z :=
  match todo with
  | O => Some r
  | S todo' =>
      match checked_mul 128 r i with
      | None => None
      | Some r => factorial_loop todo' (i + 1) r
      end
  end.
Definition factorial (n : Z) : option Z := factorial_loop (Z.to_nat (n - 1)) 2 1.

Fixpoint sum_counts (total : Z) (counts : list Z) : option Z :=
  match counts with
  | [] => Some total
  | c :: counts' =>
      match checked_add 64 total c with
      | None => None
      | Some total => sum_counts total counts'
      end
  end.

Fixpoint multinomial_loop (r remaining : Z) (counts : list Z) : option Z :=
  match counts with
  | [] => Some r
  | c :: counts' =>
      match comb remaining c with
      | None => None
      | Some ck =>
          match checked_mul 128 r ck with
          | None => None
          | Some r => multinomial_loop r (remaining - c) counts'
          end
      end
  end.

Definition multinomial (n : Z) (counts : list Z) : option Z :=
  match sum_counts 0 counts with
  | None => None
  | Some total => if negb (total =? n) then None else multinomial_loop 1 n counts
  end.

(** * Subsets *)

Fixpoint rank_comb_subset_loop (positions : list Z) (i : Z) (prev : option Z) (n rank : Z)
  : result RankError Z :=
  match positions with
  | [] => Ok rank
  | p :: positions' =>
      fail_if n <=? p with BadPositions ;;
      fail_if (match prev with Some pp => p <=? pp | None => false end) with BadPositions ;;
      let! c := ok_or (comb p (i + 1)) SpaceOverflow in
      let! rank := ok_or (checked_add 128 rank c) SpaceOverflow in
      rank_comb_subset_loop positions' (i + 1) (Some p) n rank
  end.
Definition rank_comb_subset (positions : list Z) (n : Z) : result RankError Z :=
  rank_comb_subset_loop positions 0 None n 0.

(** Binary search for the largest [c] in [[lo, hi]] with [C(c, i) <= x].
    The interval halves, so its bit length plus one bounds the turns. *)
Fixpoint unrank_search (fuel : nat) (i x lo hi : Z) : result RankError Z :=
  match fuel with
  | O => Ok lo
  | S fuel' =>
      if lo <? hi then
        let mid := lo + (hi - lo + 1 + 1) / 2 in
        let! cm := ok_or (comb mid i) SpaceOverflow in
        if cm <=? x then unrank_search fuel' i x mid hi
        else unrank_search fuel' i x lo (mid - 1)
      else Ok lo
  end.

(** The loop [for i in (1..=k).rev()]; [i] is the loop variable, and the
    result is the remaining rank with the coordinates in push order. *)
Fixpoint unrank_comb_loop (i : nat) (x c : Z) (desc : list Z) : result RankError (Z * list Z) :=
  match i with
  | O => Ok (x, desc)
  | S i' =>
      let iz := Z.of_nat i in
      let lo := iz - 1 in
      let! c_i := unrank_search (Z.to_nat (Z.log2 (c - lo) + 2)) iz x lo c in
      let! cm := ok_or (comb c_i iz) SpaceOverflow in
      let! x := ok_or (checked_sub x cm) Overflow in
      let desc := desc ++ [wrap 32 c_i] in
      if 0 <? c_i then unrank_comb_loop i' x (c_i - 1) desc else Ok (x, desc)
  end.

(** With the overflow checks on, [n as u128 - 1] panics for [n = 0]. *)
Definition unrank_comb_subset (rank n k : Z) : result (trap RankError) (list Z) :=
  fail_if n <? k with Error KExceedsN ;;
  let! total := safe (ok_or (comb n k) SpaceOverflow) in
  fail_if total <=? rank with Error RankOutOfRange ;;
  let k := wrap 32 k in
  let! c := ok_or (checked_sub n 1) Panic in
  let! '(x, desc) := safe (unrank_comb_loop (Z.to_nat k) rank c []) in
  fail_if negb (x =? 0) || negb (zlen desc =? k) with Error RankOutOfRange ;;
  Ok (rev desc).

(** * Index sequences under multiset counts *)

(** The inner loop of [rank_multinomial] over the symbols [t] below the
    chosen one: decrement, measure the block, restore. *)
Fixpoint rank_multinomial_blocks (ts : list nat) (remaining rank : Z) (counts : list Z)
  : result RankError (Z * list Z) :=
  match ts with
  | [] => Ok (rank, counts)
  | t :: ts' =>
      if (counts !!! t) =? 0 then rank_multinomial_blocks ts' remaining rank counts
      else
        let counts := <[t := (counts !!! t) - 1]> counts in
        let! block := ok_or (multinomial remaining counts) SpaceOverflow in
        let! rank := ok_or (checked_add 128 rank block) SpaceOverflow in
        let counts := <[t := (counts !!! t) + 1]> counts in
        rank_multinomial_blocks ts' remaining rank counts
  end.

Fixpoint rank_multinomial_loop (sq : bytes) (pos n rank : Z) (counts : list Z)
  : result RankError Z :=
  match sq with
  | [] => Ok rank
  | s :: sq' =>
      fail_if zlen counts <=? s with BadPositions ;;
      fail_if (counts !!! Z.to_nat s) =? 0 with CountMismatch ;;
      let remaining := n - pos - 1 in
      let! '(rank, counts) :=
        rank_multinomial_blocks (seq 0 (Z.to_nat s)) remaining rank counts in
      let counts := <[Z.to_nat s := (counts !!! Z.to_nat s) - 1]> counts in
      rank_multinomial_loop sq' (pos + 1) n rank counts
  end.

Definition rank_multinomial (sq : bytes) (n : Z) (counts : list Z) : result RankError Z :=
  fail_if negb (zlen sq =? n) with CountMismatch ;;
  let! sum := ok_or (sum_counts 0 counts) Overflow in
  fail_if negb (sum =? n) with CountMismatch ;;
  rank_multinomial_loop sq 0 n 0 counts.

(** The inner loop of [unrank_multinomial]: the first symbol whose block
    contains the remaining rank. *)
Fixpoint unrank_multinomial_choose (ss : list nat) (remaining rem : Z) (counts : list Z)
  : result RankError (option nat * Z * list Z) :=
  match ss with
  | [] => Ok (None, rem, counts)
  | s :: ss' =>
      if (counts !!! s) =? 0 then unrank_multinomial_choose ss' remaining rem counts
      else
        let counts := <[s := (counts !!! s) - 1]> counts in
        let! block := ok_or (multinomial remaining counts) SpaceOverflow in
        if rem <? block then Ok (Some s, rem, counts)
        else
          let counts := <[s := (counts !!! s) + 1]> counts in
          unrank_multinomial_choose ss' remaining (rem - block) counts
  end.

(** The outer loop; [todo] positions are left, so [remaining = todo - 1]. *)
Fixpoint unrank_multinomial_loop (todo : nat) (rem : Z) (counts : list Z) (out : bytes)
  : result RankError (Z * bytes) :=
  match todo with
  | O => Ok (rem, out)
  | S todo' =>
      let remaining := Z.of_nat todo' in
      let! '(chosen, rem, counts) :=
        unrank_multinomial_choose (seq 0 (length counts)) remaining rem counts in
      let! s := ok_or chosen RankOutOfRange in
      unrank_multinomial_loop todo' rem counts (out ++ [wrap 8 (Z.of_nat s)])
  end.

Definition unrank_multinomial (rank n : Z) (counts : list Z) : result RankError bytes :=
  let! total := ok_or (multinomial n counts) SpaceOverflow in
  fail_if total <=? rank with RankOutOfRange ;;
  let! '(rem, out) := unrank_multinomial_loop (Z.to_nat n) rank counts [] in
  fail_if negb (rem =? 0) with RankOutOfRange ;;
  Ok out.

(** * Permutations *)

Definition count_true (l : list bool) : nat := length (List.filter id l).

Fixpoint rank_permutation_validate (sq : bytes) (m : Z) (used : list bool) : result RankError unit :=
  match sq with
  | [] => Ok tt
  | s :: sq' =>
      fail_if (m <=? s) || (used !!! Z.to_nat s) with BadPositions ;;
      rank_permutation_validate sq' m (<[Z.to_nat s := true]> used)
  end.

Fixpoint rank_permutation_loop (sq : bytes) (i m : Z) (unused : list bool) (rank : Z)
  : result RankError Z :=
  match sq with
  | [] => Ok rank
  | s :: sq' =>
      let smaller := Z.of_nat (count_true (take (Z.to_nat s) unused)) in
      let! f := ok_or (factorial (m - i - 1)) SpaceOverflow in
      let! term := ok_or (checked_mul 128 smaller f) SpaceOverflow in
      let! rank := ok_or (checked_add 128 rank term) SpaceOverflow in
      rank_permutation_loop sq' (i + 1) m (<[Z.to_nat s := false]> unused) rank
  end.

Definition rank_permutation (sq : bytes) : result RankError Z :=
  let m := zlen sq in
  fail_if 34 <? m with SizeTooLarge ;;
  let! _ := rank_permutation_validate sq m (replicate (Z.to_nat m) false) in
  rank_permutation_loop sq 0 m (replicate (Z.to_nat m) true) 0.

(** [todo] elements are left, so the place value is [(todo - 1)!]. *)
Fixpoint unrank_permutation_loop (todo : nat) (rem : Z) (available out : bytes)
  : result RankError (Z * bytes) :=
  match todo with
  | O => Ok (rem, out)
  | S todo' =>
      let! f := ok_or (factorial (Z.of_nat todo')) SpaceOverflow in
      let idx := rem / f in
      let rem := rem mod f in
      fail_if zlen available <=? idx with RankOutOfRange ;;
      unrank_permutation_loop todo' rem (delete (Z.to_nat idx) available)
        (out ++ [available !!! Z.to_nat idx])
  end.

Definition unrank_permutation (rank m : Z) : result RankError bytes :=
  fail_if 34 <? m with SizeTooLarge ;;
  let! total := ok_or (factorial m) SpaceOverflow in
  fail_if total <=? rank with RankOutOfRange ;;
  let! '(rem, out) :=
    unrank_permutation_loop (Z.to_nat m) rank (map Z.of_nat (seq 0 (Z.to_nat m))) [] in
  fail_if negb (rem =? 0) with RankOutOfRange ;;
  Ok out.

(** * Counting is exact *)

Lemma gcd_loop_spec k f a b :
  (2 * k + 1 <= f)%nat -> 0 <= a -> 0 <= b < 2 ^ Z.of_nat k -> gcd_loop f a b = Z.gcd a b.
Proof.
  revert f a b. induction k as [|k IH]; intros f a b Hf Ha Hb;
    (destruct f as [|f]; [lia|]); cbn [gcd_loop].
  - change (2 ^ Z.of_nat 0) with 1 in Hb. replace b with 0 by lia. cbn.
    by rewrite Z.gcd_0_r, Z.abs_eq.
  - destruct (Z.eqb_spec b 0) as [->|Hb0]; [by rewrite Z.gcd_0_r, Z.abs_eq|].
    destruct f as [|f]; [lia|]. cbn [gcd_loop].
    rewrite Nat2Z.inj_succ, Z.pow_succ_r in Hb by lia.
    pose proof (Z.mod_pos_bound a b ltac:(lia)) as Hr.
    rewrite (Z.gcd_comm a b), <-Z.gcd_mod, Z.gcd_comm by done. set (r := a mod b) in *.
    destruct (Z.eqb_spec r 0) as [->|Hr0]; [by rewrite Z.gcd_0_r, Z.abs_eq by lia|].
    rewrite (Z.gcd_comm b r), <-Z.gcd_mod, Z.gcd_comm by done. apply IH; [lia | lia|].
    pose proof (Z.mod_pos_bound b r ltac:(lia)). split; [lia|].
    pose proof (Z.div_mod b r Hr0). pose proof (Z.div_le_lower_bound b r 1 ltac:(lia) ltac:(lia)). nia.
Qed.

Lemma gcd_u128_spec a b : 0 <= a -> 0 <= b -> gcd_u128 a b = Z.gcd a b.
Proof.
  intros Ha Hb. unfold gcd_u128.
  apply (gcd_loop_spec (Z.to_nat (Z.log2 b + 1))); [pose proof (Z.log2_nonneg b); lia | done |].
  pose proof (Z.log2_nonneg b). rewrite Z2Nat.id by lia. split; [done|].
  destruct (Z.eq_dec b 0) as [->|]; [done|]. rewrite Z.add_1_r. apply Z.log2_spec. lia.
Qed.

(** One turn of [comb]'s loop: the two reductions leave denominator 1 (the
    [debug_assert]), and their product is the exact quotient. *)
Lemma comb_reduce r num den R :
  0 < r -> 0 < num -> 0 < den -> den * R = num * r ->
  let g := Z.gcd r den in let g2 := Z.gcd num (den / g) in
  den / g / g2 = 1 /\ r / g * (num / g2) = R.
Proof.
  intros Hr Hn Hd E g g2.
  assert (Hg : 0 < g) by (pose proof (Z.gcd_nonneg r den); assert (g <> 0); [|lia];
    intros Hg; apply Z.gcd_eq_0 in Hg; lia).
  destruct (Z.gcd_divide_l r den) as [r' Hr']. destruct (Z.gcd_divide_r r den) as [d' Hd'].
  fold g in Hr', Hd'.
  assert (Hrg : r / g = r') by (rewrite Hr' at 1; apply Z.div_mul; lia).
  assert (Hdg : den / g = d') by (rewrite Hd' at 1; apply Z.div_mul; lia).
  assert (Hd0 : 0 < d') by nia.
  assert (Hdiv : (d' | num)).
  { apply Z.gauss with r'.
    - exists R. nia.
    - rewrite <-Hrg, <-Hdg, Z.gcd_comm. apply Z.gcd_div_gcd; [lia | done]. }
  assert (Hg2 : g2 = d').
  { unfold g2. rewrite Hdg, Z.gcd_comm. apply Z.divide_gcd_iff; [lia | done]. }
  rewrite Hdg, Hrg, Hg2. split; [apply Z.div_same; lia|].
  destruct Hdiv as [q ->]. rewrite Z.div_mul by lia. nia.
Qed.

Lemma comb_loop_spec t d j K :
  binom (d + j) j < 2 ^ 128 ->
  comb_loop t (Z.of_nat (d + K)) (Z.of_nat K) (1 + Z.of_nat j) (binom (d + j) j) =
  let R := binom (d + (j + t)) (j + t) in if R <? 2 ^ 128 then Some R else None.
Proof.
  revert j. induction t as [|t IH]; intros j Hj; cbn [comb_loop].
  - rewrite Nat.add_0_r. cbv zeta. by destruct (Z.ltb_spec (binom (d + j) j) (2 ^ 128)); [|lia].
  - assert (Hp : 1 <= binom (d + j) j) by (apply binom_pos; lia).
    pose proof (binom_absorb (d + j) j) as E. rewrite <-Nat.add_succ_r in E.
    pose proof (comb_reduce (binom (d + j) j) (Z.of_nat (d + K) - Z.of_nat K + (1 + Z.of_nat j))
      (1 + Z.of_nat j) (binom (d + S j) (S j))) as [_ Hq]; try lia.
    rewrite (gcd_u128_spec (binom (d + j) j)) by lia.
    rewrite gcd_u128_spec by (try apply Z.div_pos; pose proof (Z.gcd_nonneg (binom (d + j) j) (1 + Z.of_nat j));
      try assert (Z.gcd (binom (d + j) j) (1 + Z.of_nat j) <> 0) by (intros Hz; apply Z.gcd_eq_0 in Hz; lia); lia).
    unfold checked_mul. rewrite Hq.
    replace (j + S t)%nat with (S j + t)%nat by lia.
    destruct (Z.ltb_spec (binom (d + S j) (S j)) (2 ^ 128)) as [Hlt|Hge].
    + rewrite <-IH by done. f_equal. lia.
    + pose proof (binom_diag_mono_le d (S j) (S j + t) ltac:(lia)). cbv zeta.
      by destruct (Z.ltb_spec (binom (d + (S j + t)) (S j + t)) (2 ^ 128)); [lia|].
Qed.

Lemma comb_nat n k :
  comb (Z.of_nat n) (Z.of_nat k) =
  if binom n k <? 2 ^ 128 then Some (binom n k) else None.
Proof.
  unfold comb. destruct (Z.ltb_spec (Z.of_nat n) (Z.of_nat k)).
  { by rewrite binom_gt by lia. }
  set (K := Nat.min k (n - k)).
  replace (Z.min (Z.of_nat k) (Z.of_nat n - Z.of_nat k)) with (Z.of_nat K) by lia.
  rewrite Nat2Z.id. pose proof (comb_loop_spec K (n - K) 0 K) as E.
  rewrite Nat.add_0_r, binom_0_r in E. change (1 + Z.of_nat 0) with 1 in E. cbn [Nat.add] in E.
  replace (n - K + K)%nat with n in E by lia. rewrite E by done. cbv zeta.
  replace (binom n K) with (binom n k); [done|].
  unfold K. destruct (Nat.min_spec k (n - k)) as [[_ ->]|[_ ->]]; [done|]. apply binom_sym. lia.
Qed.

(** [C(n, k)] for [Z] arguments. *)
Definition zbinom (n k : Z) : Z := binom (Z.to_nat n) (Z.to_nat k).

Lemma comb_some n k : binom n k < 2 ^ 128 -> comb (Z.of_nat n) (Z.of_nat k) = Some (binom n k).
Proof. intros H. rewrite comb_nat. by destruct (Z.ltb_spec (binom n k) (2 ^ 128)); [|lia]. Qed.

Lemma comb_some_inv n k v : comb (Z.of_nat n) (Z.of_nat k) = Some v -> v = binom n k /\ v < 2 ^ 128.
Proof. rewrite comb_nat. destruct (Z.ltb_spec (binom n k) (2 ^ 128)); intros; simplify_eq; done. Qed.

Lemma factorial_loop_spec t j :
  fact (S j) < 2 ^ 128 ->
  factorial_loop t (2 + Z.of_nat j) (fact (S j)) =
  if fact (S j + t) <? 2 ^ 128 then Some (fact (S j + t)) else None.
Proof.
  revert j. induction t as [|t IH]; intros j Hj; cbn [factorial_loop].
  - rewrite Nat.add_0_r. by destruct (Z.ltb_spec (fact (S j)) (2 ^ 128)); [|lia].
  - unfold checked_mul.
    replace (fact (S j) * (2 + Z.of_nat j)) with (fact (S (S j))) by (rewrite (fact_S (S j)); lia).
    replace (S j + S t)%nat with (S (S j) + t)%nat by lia.
    destruct (Z.ltb_spec (fact (S (S j))) (2 ^ 128)) as [Hlt|Hge].
    + rewrite <-IH by done. f_equal. lia.
    + pose proof (fact_mono (S (S j)) (S (S j) + t) ltac:(lia)).
      by destruct (Z.ltb_spec (fact (S (S j) + t)) (2 ^ 128)); [lia|].
Qed.

Lemma factorial_nat n :
  factorial (Z.of_nat n) = if fact n <? 2 ^ 128 then Some (fact n) else None.
Proof.
  unfold factorial. destruct n as [|n]; [done|].
  replace (Z.to_nat (Z.of_nat (S n) - 1)) with n by lia.
  pose proof (factorial_loop_spec n 0) as E. change (2 + Z.of_nat 0) with 2 in E. by apply E.
Qed.

(** * Subsets: the combinatorial number system *)

Lemma rank_comb_subset_loop_spec ps i prev N acc :
  ascending_from (match prev with Some p => S p | None => 0 end) ps N ->
  0 <= acc -> acc + crank i ps < 2 ^ 128 ->
  rank_comb_subset_loop (map Z.of_nat ps) (Z.of_nat i) (Z.of_nat <$> prev) (Z.of_nat N) acc
  = Ok (acc + crank i ps).
Proof.
  revert i prev acc. induction ps as [|p ps IH]; intros i prev acc Ha Hacc Hb;
    cbn [map rank_comb_subset_loop crank] in *.
  - by rewrite Z.add_0_r.
  - destruct Ha as (Hlo & HN & Ha). destruct (Z.leb_spec (Z.of_nat N) (Z.of_nat p)); [lia|].
    replace (match Z.of_nat <$> prev with Some pp => Z.of_nat p <=? pp | None => false end) with false
      by (destruct prev; [symmetry; apply Z.leb_gt; cbn; lia | done]).
    pose proof (crank_nonneg (S i) ps). pose proof (binom_nonneg p (S i)).
    replace (Z.of_nat i + 1) with (Z.of_nat (S i)) by lia.
    rewrite comb_some by lia. cbn [ok_or rbind].
    replace (checked_add 128 acc (binom p (S i))) with (Some (acc + binom p (S i)))
      by (symmetry; apply checked_add_Some; split; [done|lia]).
    cbn [ok_or rbind]. rewrite (IH (S i) (Some p)) by (done || lia). f_equal. lia.
Qed.

Lemma rank_comb_subset_ok ps N :
  ascending_from 0 ps N -> binom N (length ps) < 2 ^ 128 ->
  rank_comb_subset (map Z.of_nat ps) (Z.of_nat N) = Ok (crank 0 ps).
Proof.
  intros Ha Hb. pose proof (crank_lt ps N Ha).
  apply (rank_comb_subset_loop_spec ps 0 None N 0); [done | done | lia].
Qed.

Lemma unrank_search_spec f i x lo hi :
  (lo <= hi)%nat -> (hi - lo < 2 ^ f)%nat -> binom hi i < 2 ^ 128 -> binom lo i <= x ->
  exists c, unrank_search f (Z.of_nat i) x (Z.of_nat lo) (Z.of_nat hi) = Ok (Z.of_nat c) /\
    (lo <= c <= hi)%nat /\ binom c i <= x /\ (c = hi \/ x < binom (S c) i).
Proof.
  revert lo hi. induction f as [|f IH]; intros lo hi Hlh Hd Hb Hx; cbn [unrank_search].
  - exists lo. cbn in Hd. split_and!; [done | lia | lia | done | left; lia].
  - destruct (Z.ltb_spec (Z.of_nat lo) (Z.of_nat hi)).
    2:{ exists lo. split_and!; [done | lia | lia | done | left; lia]. }
    set (mid := (lo + (hi - lo + 2) / 2)%nat).
    pose proof (Nat.div_mod (hi - lo + 2) 2 ltac:(lia)).
    pose proof (Nat.mod_upper_bound (hi - lo + 2) 2 ltac:(lia)).
    cbn [Nat.pow] in Hd.
    replace (Z.of_nat lo + (Z.of_nat hi - Z.of_nat lo + 1 + 1) / 2) with (Z.of_nat mid)
      by (unfold mid; rewrite Nat2Z.inj_add, Nat2Z.inj_div; do 2 f_equal; lia).
    assert (Hmid : (lo < mid <= hi)%nat) by (unfold mid; lia).
    pose proof (binom_mono_le mid hi i ltac:(lia)).
    rewrite comb_some by lia. cbn [ok_or rbind].
    destruct (Z.leb_spec (binom mid i) x).
    + destruct (IH mid hi) as (c & E & Hc & Hcx & Hor); [lia | unfold mid; lia | done | done |].
      exists c. split_and!; [done | lia | lia | done | done].
    + replace (Z.of_nat mid - 1) with (Z.of_nat (mid - 1)) by lia.
      pose proof (binom_mono_le (mid - 1) hi i ltac:(lia)).
      destruct (IH lo (mid - 1)%nat) as (c & E & Hc & Hcx & Hor); [lia | unfold mid; lia | lia | done |].
      exists c. split_and!; [done | lia | lia | done |]. right.
      destruct Hor as [->|]; [|done]. by replace (S (mid - 1)) with mid by lia.
Qed.

Lemma unrank_fuel lo hi :
  (lo <= hi)%nat -> (hi - lo < 2 ^ Z.to_nat (Z.log2 (Z.of_nat hi - Z.of_nat lo) + 2))%nat.
Proof.
  intros H. set (d := Z.of_nat hi - Z.of_nat lo). pose proof (Z.log2_nonneg d).
  apply Nat2Z.inj_lt. rewrite Nat2Z.inj_pow, Z2Nat.id by lia.
  replace (Z.of_nat (hi - lo)) with d by lia.
  destruct (Z.eq_dec d 0) as [->|]; [done|]. pose proof (Z.log2_spec d ltac:(lia)) as [_ Hs].
  eapply Z.lt_le_trans; [exact Hs|]. apply Z.pow_le_mono_r; lia.
Qed.

Lemma unrank_comb_loop_spec i x C desc :
  0 <= x < binom C i -> binom C i < 2 ^ 128 -> Z.of_nat C < 2 ^ 32 ->
  exists ps, unrank_comb_loop i x (Z.of_nat C - 1) desc = Ok (0, desc ++ rev (map Z.of_nat ps)) /\
    ascending_from 0 ps C /\ length ps = i /\ crank 0 ps = x.
Proof.
  revert x C desc. induction i as [|i IH]; intros x C desc Hx Hb HC; cbn [unrank_comb_loop].
  { rewrite binom_0_r in Hx. exists []. rewrite app_nil_r. split_and!; simpl; try done; [repeat f_equal|]; lia. }
  assert (HCi : (S i <= C)%nat).
  { destruct (decide (S i <= C)%nat); [done|]. rewrite binom_gt in Hx by lia. lia. }
  replace (Z.of_nat C - 1) with (Z.of_nat (C - 1)) by lia.
  replace (Z.of_nat (S i) - 1) with (Z.of_nat i) by lia.
  destruct (unrank_search_spec (Z.to_nat (Z.log2 (Z.of_nat (C - 1) - Z.of_nat i) + 2)) (S i) x i (C - 1))
    as (c & E & Hc & Hcx & Hor).
  { lia. } { apply unrank_fuel. lia. }
  { pose proof (binom_mono_le (C - 1) C (S i) ltac:(lia)). lia. }
  { rewrite binom_gt by lia. lia. }
  rewrite E. cbn [rbind]. pose proof (binom_mono_le c C (S i) ltac:(lia)).
  rewrite comb_some by lia. cbn [ok_or rbind]. unfold checked_sub.
  destruct (Z.leb_spec (binom c (S i)) x); [|lia]. cbn [ok_or rbind].
  assert (Hx' : x < binom (S c) (S i)).
  { destruct Hor as [->|]; [|done]. replace (S (C - 1)) with C by lia. lia. }
  rewrite binom_S in Hx'. rewrite (wrap_small 32) by (unfold in_width; lia).
  assert (Hgoal : forall ps, ascending_from 0 ps c -> length ps = i -> crank 0 ps = x - binom c (S i) ->
    ascending_from 0 (ps ++ [c]) C /\ length (ps ++ [c]) = S i /\ crank 0 (ps ++ [c]) = x).
  { intros ps Ha Hl Hk. rewrite ascending_snoc, length_app, crank_app, Hl, Hk. cbn [crank length].
    rewrite Nat.add_0_l. split_and!; try done; lia. }
  assert (Hout : forall ps, (desc ++ [Z.of_nat c]) ++ rev (map Z.of_nat ps) = desc ++ rev (map Z.of_nat (ps ++ [c]))).
  { intros ps. rewrite map_app, rev_app_distr, <-app_assoc. done. }
  destruct (Z.ltb_spec 0 (Z.of_nat c)).
  - destruct (IH (x - binom c (S i)) c (desc ++ [Z.of_nat c])) as (ps & E' & Ha & Hl & Hk); [lia | | lia |].
    { pose proof (binom_mono_le (S c) C (S i) ltac:(lia)) as Hm. rewrite binom_S in Hm.
      pose proof (binom_nonneg c (S i)). lia. }
    exists (ps ++ [c]). rewrite E', Hout. split; [done | by apply Hgoal].
  - exists ([] ++ [c]). assert (c = 0%nat) as -> by lia. assert (i = 0%nat) as -> by lia.
    change (binom 0 1) with 0 in *. change (binom 0 0) with 1 in *.
    split; [|apply Hgoal; simpl; try done; lia].
    rewrite <-Hout. cbn [map rev]. rewrite app_nil_r. do 2 f_equal. lia.
Qed.

Lemma unrank_comb_subset_ok r N k :
  (1 <= N)%nat -> Z.of_nat N < 2 ^ 32 -> binom N k < 2 ^ 128 -> 0 <= r < binom N k ->
  exists ps, unrank_comb_subset r (Z.of_nat N) (Z.of_nat k) = Ok (map Z.of_nat ps) /\
    ascending_from 0 ps N /\ length ps = k /\ crank 0 ps = r.
Proof.
  intros HN HN32 Hb Hr.
  assert (Hk : (k <= N)%nat).
  { destruct (decide (k <= N)%nat); [done|]. rewrite binom_gt in Hr by lia. lia. }
  destruct (unrank_comb_loop_spec k r N []) as (ps & E & Ha & Hl & Hk'); [done | done | done |].
  exists ps. split; [|done]. unfold unrank_comb_subset.
  destruct (Z.ltb_spec (Z.of_nat N) (Z.of_nat k)); [lia|].
  rewrite comb_some by done. cbn [safe map_err ok_or rbind].
  destruct (Z.leb_spec (binom N k) r); [lia|].
  rewrite (wrap_small 32) by (unfold in_width; lia). unfold checked_sub.
  destruct (Z.leb_spec 1 (Z.of_nat N)); [|lia]. cbn [ok_or rbind]. rewrite Nat2Z.id, E.
  cbn [safe map_err rbind]. rewrite app_nil_l.
  replace (zlen (rev (map Z.of_nat ps)) =? Z.of_nat k) with true
    by (symmetry; apply Z.eqb_eq; unfold zlen; rewrite length_rev, length_map, Hl; done).
  by rewrite rev_involutive.
Qed.

Lemma unrank_rank_comb_subset ps N :
  ascending_from 0 ps N -> (1 <= N)%nat -> Z.of_nat N < 2 ^ 32 -> binom N (length ps) < 2 ^ 128 ->
  unrank_comb_subset (crank 0 ps) (Z.of_nat N) (Z.of_nat (length ps)) = Ok (map Z.of_nat ps).
Proof.
  intros Ha HN HN32 Hb. pose proof (crank_lt ps N Ha). pose proof (crank_nonneg 0 ps).
  destruct (unrank_comb_subset_ok (crank 0 ps) N (length ps)) as (qs & E & Hq & Hl & Hk); [done..|lia|].
  rewrite E. do 2 f_equal. by eapply crank_inj.
Qed.

(** * Multisets: lexicographic blocks *)

Definition nats : list nat -> list Z := map Z.of_nat.

Lemma nats_lookup cs t c : cs !! t = Some c -> nats cs !!! t = Z.of_nat c.
Proof. intros E. apply list_lookup_total_correct. unfold nats. by rewrite lookup_map, E. Qed.

Lemma nats_insert cs t c : <[t:=Z.of_nat c]> (nats cs) = nats (<[t:=c]> cs).
Proof. apply insert_map. Qed.

Lemma zlen_nats cs : zlen (nats cs) = Z.of_nat (length cs).
Proof. unfold nats. by rewrite zlen_map. Qed.

Lemma sum_counts_spec cs tot :
  Z.of_nat tot < 2 ^ 64 ->
  sum_counts (Z.of_nat tot) (nats cs) =
  if Z.of_nat (tot + list_sum cs) <? 2 ^ 64 then Some (Z.of_nat (tot + list_sum cs)) else None.
Proof.
  revert tot. induction cs as [|c cs IH]; intros tot H; cbn [nats map sum_counts].
  - rewrite Nat.add_0_r. by destruct (Z.ltb_spec (Z.of_nat tot) (2 ^ 64)); [|lia].
  - unfold checked_add. rewrite <-Nat2Z.inj_add.
    change (list_sum (c :: cs)) with (c + list_sum cs)%nat. rewrite Nat.add_assoc.
    destruct (Z.ltb_spec (Z.of_nat (tot + c)) (2 ^ 64)); [by apply IH|].
    by destruct (Z.ltb_spec (Z.of_nat (tot + c + list_sum cs)) (2 ^ 64)); [lia|].
Qed.

Lemma multinomial_loop_spec cs r :
  1 <= r < 2 ^ 128 ->
  multinomial_loop r (Z.of_nat (list_sum cs)) (nats cs) =
  if r * multi cs <? 2 ^ 128 then Some (r * multi cs) else None.
Proof.
  revert r. induction cs as [|c cs IH]; intros r Hr; cbn [nats map multinomial_loop multi].
  - rewrite Z.mul_1_r. by destruct (Z.ltb_spec r (2 ^ 128)); [|lia].
  - change (list_sum (c :: cs)) with (c + list_sum cs)%nat. rewrite comb_nat.
    pose proof (binom_pos (c + list_sum cs) c ltac:(lia)). pose proof (multi_pos cs).
    set (b := binom (c + list_sum cs) c) in *. rewrite Z.mul_assoc.
    destruct (Z.ltb_spec b (2 ^ 128)).
    2:{ destruct (Z.ltb_spec (r * b * multi cs) (2 ^ 128)); [nia | done]. }
    unfold checked_mul. destruct (Z.ltb_spec (r * b) (2 ^ 128)).
    + replace (Z.of_nat (c + list_sum cs) - Z.of_nat c) with (Z.of_nat (list_sum cs)) by lia.
      apply IH. nia.
    + destruct (Z.ltb_spec (r * b * multi cs) (2 ^ 128)); [nia | done].
Qed.

Lemma multinomial_nats n cs :
  multinomial (Z.of_nat n) (nats cs) =
  if decide (n = list_sum cs /\ Z.of_nat n < 2 ^ 64 /\ multi cs < 2 ^ 128)
  then Some (multi cs) else None.
Proof.
  unfold multinomial. pose proof (sum_counts_spec cs 0 ltac:(lia)) as E.
  change (Z.of_nat 0) with 0 in E. rewrite E. cbn [Nat.add].
  destruct (Z.ltb_spec (Z.of_nat (list_sum cs)) (2 ^ 64)).
  2:{ case_decide; [lia | done]. }
  destruct (Z.eqb_spec (Z.of_nat (list_sum cs)) (Z.of_nat n)) as [En|En]; cbn [negb].
  2:{ case_decide; [lia | done]. }
  apply Nat2Z.inj in En. subst n.
  rewrite multinomial_loop_spec, Z.mul_1_l by lia.
  case_decide; destruct (Z.ltb_spec (multi cs) (2 ^ 128)); done || lia.
Qed.

Lemma multinomial_some cs :
  Z.of_nat (list_sum cs) < 2 ^ 64 -> multi cs < 2 ^ 128 ->
  multinomial (Z.of_nat (list_sum cs)) (nats cs) = Some (multi cs).
Proof. intros. rewrite multinomial_nats. by rewrite decide_True. Qed.

(** One trial of a symbol: the decremented family, its size, and the
    restored counts. *)
Lemma trial_block cs t c remaining :
  cs !! t = Some (S c) -> Z.of_nat (list_sum cs) < 2 ^ 64 -> multi cs < 2 ^ 128 ->
  list_sum cs = S remaining ->
  <[t:=(nats cs !!! t) - 1]> (nats cs) = nats (<[t:=c]> cs) /\
  multinomial (Z.of_nat remaining) (nats (<[t:=c]> cs)) = Some (block_at cs t) /\
  <[t:=(nats (<[t:=c]> cs) !!! t) + 1]> (nats (<[t:=c]> cs)) = nats cs.
Proof.
  intros E H64 H128 Hs. pose proof (list_sum_dec _ _ _ E) as Hd.
  rewrite (nats_lookup _ _ _ E). replace (Z.of_nat (S c) - 1) with (Z.of_nat c) by lia.
  apply lookup_lt_Some in E as Ht. rewrite nats_insert. split_and!; [done | |].
  - assert (Hr : remaining = list_sum (<[t:=c]> cs)) by lia.
    rewrite Hr, (block_at_some _ _ _ E), multinomial_some; [done | lia |].
    pose proof (blocks_total cs ltac:(lia)). pose proof (blocks_mono cs (S t) (length cs) Ht) as Hm.
    cbn [blocks] in Hm. pose proof (blocks_mono cs 0 t ltac:(lia)). cbn [blocks] in *.
    rewrite (block_at_some _ _ _ E) in Hm. lia.
  - rewrite (nats_lookup _ t c) by (apply list_lookup_insert_eq; done).
    replace (Z.of_nat c + 1) with (Z.of_nat (S c)) by lia.
    rewrite nats_insert, list_insert_insert_eq. f_equal. by apply list_insert_id.
Qed.

Lemma nats_zero cs t : (t < length cs)%nat -> (nats cs !!! t =? 0) = true ->
  cs !! t = Some 0%nat.
Proof.
  intros Ht E. destruct (lookup_lt_is_Some_2 cs t Ht) as [c Hc].
  rewrite (nats_lookup _ _ _ Hc) in E. bools. rewrite Hc. f_equal. lia.
Qed.

Lemma nats_nonzero cs t : (t < length cs)%nat -> (nats cs !!! t =? 0) = false ->
  exists c, cs !! t = Some (S c).
Proof.
  intros Ht E. destruct (lookup_lt_is_Some_2 cs t Ht) as [[|c] Hc]; [|eauto].
  rewrite (nats_lookup _ _ _ Hc) in E. done.
Qed.

Section Multiset.
Context (cs : list nat) (remaining : nat).
Hypothesis sum_cs : list_sum cs = S remaining.
Hypothesis fits64 : Z.of_nat (list_sum cs) < 2 ^ 64.
Hypothesis fits128 : multi cs < 2 ^ 128.

Lemma blocks_le_multi s : (s <= length cs)%nat -> blocks cs s <= multi cs.
Proof. intros. rewrite <-blocks_total by lia. by apply blocks_mono. Qed.

Lemma rank_blocks_spec len a rank :
  (a + len <= length cs)%nat -> 0 <= rank -> rank + (blocks cs (a + len) - blocks cs a) < 2 ^ 128 ->
  rank_multinomial_blocks (seq a len) (Z.of_nat remaining) rank (nats cs) =
  Ok (rank + (blocks cs (a + len) - blocks cs a), nats cs).
Proof.
  revert a rank. induction len as [|len IH]; intros a rank Hl Hr Hb; cbn [seq rank_multinomial_blocks].
  { rewrite Nat.add_0_r. do 2 f_equal. lia. }
  rewrite <-Nat.add_succ_comm in *. pose proof (blocks_mono cs (S a) (S a + len) ltac:(lia)).
  pose proof (block_at_nonneg cs a).
  assert (HS : blocks cs (S a) = blocks cs a + block_at cs a) by done.
  destruct (nats cs !!! a =? 0) eqn:E0.
  - apply nats_zero in E0; [|lia]. rewrite IH by (try done; lia).
    unfold block_at in HS. rewrite E0 in HS. do 2 f_equal. lia.
  - destruct (nats_nonzero cs a ltac:(lia) E0) as [c Ec].
    destruct (trial_block cs a c remaining Ec fits64 fits128 sum_cs) as (-> & -> & Er).
    cbn [ok_or rbind].
    replace (checked_add 128 rank (block_at cs a)) with (Some (rank + block_at cs a))
      by (symmetry; apply checked_add_Some; split; [done | lia]).
    cbn [ok_or rbind]. rewrite Er, IH by (try done; lia). do 2 f_equal. lia.
Qed.

Lemma unrank_choose_spec len a rem :
  (a + len = length cs)%nat -> 0 <= rem < blocks cs (a + len) - blocks cs a ->
  exists s c, cs !! s = Some (S c) /\
    unrank_multinomial_choose (seq a len) (Z.of_nat remaining) rem (nats cs) =
    Ok (Some s, rem - (blocks cs s - blocks cs a), nats (<[s:=c]> cs)) /\
    0 <= rem - (blocks cs s - blocks cs a) < multi (<[s:=c]> cs).
Proof.
  revert a rem. induction len as [|len IH]; intros a rem Hl Hr; cbn [seq unrank_multinomial_choose].
  { rewrite Nat.add_0_r in Hr. lia. }
  rewrite <-Nat.add_succ_comm in *. pose proof (block_at_nonneg cs a).
  assert (HS : blocks cs (S a) = blocks cs a + block_at cs a) by done.
  destruct (nats cs !!! a =? 0) eqn:E0.
  - apply nats_zero in E0; [|lia].
    assert (Hz : blocks cs (S a) = blocks cs a) by (cbn [blocks]; unfold block_at; rewrite E0; lia).
    rewrite <-Hz in *. by apply IH.
  - destruct (nats_nonzero cs a ltac:(lia) E0) as [c Ec].
    destruct (trial_block cs a c remaining Ec fits64 fits128 sum_cs) as (-> & -> & Er).
    cbn [ok_or rbind]. destruct (Z.ltb_spec rem (block_at cs a)).
    + exists a, c. rewrite <-(block_at_some _ _ _ Ec). split_and!; try lia; try done.
      by replace (rem - (blocks cs a - blocks cs a)) with rem by lia.
    + rewrite Er. destruct (IH (S a) (rem - block_at cs a)) as (s & d & Es & Ech & Hb);
        [done | lia |].
      rewrite HS in Ech, Hb.
      exists s, d. replace (rem - (blocks cs s - blocks cs a))
        with (rem - block_at cs a - (blocks cs s - (blocks cs a + block_at cs a))) by lia.
      split_and!; [done | exact Ech | lia | lia].
Qed.
End Multiset.

Lemma rank_multinomial_loop_spec cs sq pos n rank :
  arranges cs sq -> n - pos = Z.of_nat (length sq) -> Z.of_nat (length sq) < 2 ^ 64 ->
  multi cs < 2 ^ 128 -> 0 <= rank -> rank + mrank cs sq < 2 ^ 128 ->
  rank_multinomial_loop (nats sq) pos n rank (nats cs) = Ok (rank + mrank cs sq).
Proof.
  intros Ha. revert pos rank. induction Ha as [cs H|cs s c sq E Ha IH];
    intros pos rank Hn H64 H128 Hr Hb; cbn [nats map rank_multinomial_loop].
  { cbn. do 2 f_equal. lia. }
  pose proof (list_sum_dec _ _ _ E) as Hd. pose proof (arranges_length _ _ Ha) as Hlen.
  apply lookup_lt_Some in E as Hs. cbn [length] in *.
  assert (Hsum : list_sum cs = S (length sq)) by lia.
  change (map Z.of_nat cs) with (nats cs). rewrite zlen_nats, Nat2Z.id.
  destruct (Z.leb_spec (Z.of_nat (length cs)) (Z.of_nat s)); [lia|].
  rewrite (nats_lookup _ _ _ E). destruct (Z.eqb_spec (Z.of_nat (S c)) 0); [lia|].
  rewrite (mrank_cons _ _ _ _ E) in *. pose proof (mrank_nonneg (<[s:=c]> cs) sq).
  pose proof (blocks_mono cs 0 s ltac:(lia)) as Hb0. cbn [blocks] in Hb0.
  replace (n - pos - 1) with (Z.of_nat (length sq)) by lia.
  rewrite (rank_blocks_spec cs (length sq) Hsum ltac:(lia) H128 s 0)
    by (rewrite ?Nat.add_0_l; cbn [blocks]; lia).
  cbn [rbind]. rewrite Nat.add_0_l. cbn [blocks]. rewrite Z.sub_0_r.
  rewrite (nats_lookup _ _ _ E). replace (Z.of_nat (S c) - 1) with (Z.of_nat c) by lia.
  rewrite nats_insert. rewrite (IH (pos + 1)).
  - f_equal. lia.
  - lia.
  - lia.
  - pose proof (blocks_le_multi cs (length sq) Hsum (S s) ltac:(lia)) as Hm.
    cbn [blocks] in Hm. rewrite (block_at_some _ _ _ E) in Hm. lia.
  - lia.
  - lia.
Qed.

Lemma rank_blocks_counts ts remaining rank cs r counts :
  Forall (fun t => (t < length cs)%nat) ts ->
  rank_multinomial_blocks ts remaining rank (nats cs) = Ok (r, counts) -> counts = nats cs.
Proof.
  intros Hts. revert rank. induction Hts as [|t ts Ht _ IH]; intros rank E;
    cbn [rank_multinomial_blocks] in E; [by simplify_eq|].
  destruct (nats cs !!! t =? 0) eqn:E0; [by eapply IH|].
  destruct (nats_nonzero cs t Ht E0) as [c Ec]. rewrite (nats_lookup _ _ _ Ec) in E.
  replace (Z.of_nat (S c) - 1) with (Z.of_nat c) in E by lia. rewrite nats_insert in E.
  inv_ok E. rewrite (nats_lookup _ t c) in E by (apply list_lookup_insert_eq; done).
  replace (Z.of_nat c + 1) with (Z.of_nat (S c)) in E by lia.
  rewrite nats_insert, list_insert_insert_eq, list_insert_id in E by done. by eapply IH.
Qed.

Lemma rank_multinomial_loop_inv cs sq pos n rank r :
  rank_multinomial_loop (nats sq) pos n rank (nats cs) = Ok r ->
  length sq = list_sum cs -> arranges cs sq.
Proof.
  revert cs pos rank. induction sq as [|s sq IH]; intros cs pos rank E Hl;
    [by apply arranges_nil|].
  cbn [nats map rank_multinomial_loop] in E. change (map Z.of_nat cs) with (nats cs) in E.
  rewrite zlen_nats, Nat2Z.id in E.
  inv_ok E. bools. assert (Hs : (s < length cs)%nat) by lia.
  apply Z.eqb_neq in Hc0. destruct (nats_nonzero cs s Hs Hc0) as [c Ec].
  apply rank_blocks_counts in Hok as ->.
  2:{ apply Forall_forall. intros t Ht. apply in_seq in Ht. lia. }
  rewrite (nats_lookup _ _ _ Ec) in E. replace (Z.of_nat (S c) - 1) with (Z.of_nat c) in E by lia.
  rewrite nats_insert in E. eapply arranges_cons; [exact Ec|]. eapply IH; [exact E|].
  pose proof (list_sum_dec _ _ _ Ec). simpl in Hl. lia.
Qed.

Lemma unrank_multinomial_loop_spec todo cs rem out :
  list_sum cs = todo -> Z.of_nat todo < 2 ^ 64 -> multi cs < 2 ^ 128 -> (length cs <= 256)%nat ->
  0 <= rem < multi cs ->
  exists sq, unrank_multinomial_loop todo rem (nats cs) out = Ok (0, out ++ nats sq) /\
    arranges cs sq /\ mrank cs sq = rem.
Proof.
  revert cs rem out. induction todo as [|todo IH]; intros cs rem out Hs H64 H128 Hl Hr;
    cbn [unrank_multinomial_loop].
  - exists []. assert (Hm : multi cs = 1).
    { clear -Hs. induction cs as [|c cs IH]; [done|]. cbn [multi]. cbn in Hs. fold (list_sum cs) in Hs.
      rewrite IH by lia. replace c with 0%nat by lia. by rewrite binom_0_r. }
    rewrite app_nil_r. split_and!; [repeat f_equal; lia | by constructor | cbn; lia].
  - destruct (unrank_choose_spec cs todo Hs ltac:(lia) H128 (length cs) 0 rem)
      as (s & c & Es & Ech & Hb); [lia | rewrite Nat.add_0_l, blocks_total by lia; cbn [blocks]; lia |].
    replace (length (nats cs)) with (length cs) by (unfold nats; by rewrite length_map).
    rewrite Ech. cbn [ok_or rbind]. apply lookup_lt_Some in Es as Hlt.
    pose proof (list_sum_dec _ _ _ Es).
    pose proof (blocks_le_multi cs todo Hs (S s) ltac:(lia)) as Hm.
    pose proof (blocks_mono cs 0 s ltac:(lia)) as Hb0.
    cbn [blocks] in Hm, Hb0. rewrite (block_at_some _ _ _ Es) in Hm.
    rewrite (wrap_small 8) by (unfold in_width; lia).
    destruct (IH (<[s:=c]> cs) (rem - (blocks cs s - blocks cs 0)) (out ++ [Z.of_nat s]))
      as (sq & E & Ha & Hk); [lia | lia | lia | by rewrite length_insert | done |].
    exists (s :: sq). rewrite E, <-app_assoc. split_and!; [done | by eapply arranges_cons |].
    rewrite (mrank_cons _ _ _ _ Es), Hk. cbn [blocks]. lia.
Qed.

Lemma unrank_multinomial_ok cs r :
  Z.of_nat (list_sum cs) < 2 ^ 64 -> multi cs < 2 ^ 128 -> (length cs <= 256)%nat -> 0 <= r < multi cs ->
  exists sq, unrank_multinomial r (Z.of_nat (list_sum cs)) (nats cs) = Ok (nats sq) /\
    arranges cs sq /\ mrank cs sq = r.
Proof.
  intros H64 H128 Hl Hr.
  destruct (unrank_multinomial_loop_spec (list_sum cs) cs r []) as (sq & E & Ha & Hk); [done..|].
  exists sq. split; [|done]. unfold unrank_multinomial. rewrite multinomial_some by done.
  cbn [ok_or rbind]. destruct (Z.leb_spec (multi cs) r); [lia|].
  rewrite Nat2Z.id, E. cbn [rbind]. done.
Qed.

Lemma rank_multinomial_ok cs sq :
  arranges cs sq -> Z.of_nat (list_sum cs) < 2 ^ 64 -> multi cs < 2 ^ 128 ->
  rank_multinomial (nats sq) (Z.of_nat (list_sum cs)) (nats cs) = Ok (mrank cs sq).
Proof.
  intros Ha H64 H128. pose proof (arranges_length _ _ Ha) as Hl. pose proof (mrank_lt _ _ Ha).
  unfold rank_multinomial. rewrite zlen_nats, Hl, Z.eqb_refl. cbn [negb].
  pose proof (sum_counts_spec cs 0 ltac:(lia)) as E. change (Z.of_nat 0) with 0 in E.
  rewrite E. cbn [Nat.add].
  destruct (Z.ltb_spec (Z.of_nat (list_sum cs)) (2 ^ 64)); [|lia]. cbn [ok_or rbind].
  rewrite Z.eqb_refl. cbn [negb]. apply rank_multinomial_loop_spec; done || lia.
Qed.

(** * Permutations: the factorial number system *)

(** Indices of the [true] entries: the elements still available. *)
Fixpoint true_idx (off : nat) (u : list bool) : list nat :=
  match u with
  | [] => []
  | true :: u' => off :: true_idx (S off) u'
  | false :: u' => true_idx (S off) u'
  end.

(** [sq] takes each available element once. *)
Inductive picks : list bool -> list nat -> Prop :=
| picks_nil u : count_true u = 0%nat -> picks u []
| picks_cons u s sq : u !! s = Some true -> picks (<[s:=false]> u) sq -> picks u (s :: sq).

(** The Lehmer code of [sq] in the factorial number system. *)
Fixpoint prank (u : list bool) (sq : list nat) : Z :=
  match sq with
  | [] => 0
  | s :: sq' => Z.of_nat (count_true (take s u)) * fact (length sq') + prank (<[s:=false]> u) sq'
  end.

Lemma count_true_cons b u : count_true (b :: u) = ((if b then 1 else 0) + count_true u)%nat.
Proof. unfold count_true. by destruct b. Qed.

Lemma count_true_insert u s : u !! s = Some true -> S (count_true (<[s:=false]> u)) = count_true u.
Proof.
  revert s. induction u as [|b u IH]; intros [|s] E; simplify_eq/=;
    rewrite !count_true_cons; [done|]. rewrite <-(IH s E). lia.
Qed.

Lemma length_true_idx off u : length (true_idx off u) = count_true u.
Proof.
  revert off. induction u as [|[] u IH]; intros off; cbn [true_idx length];
    rewrite ?count_true_cons; [done | by rewrite IH | by rewrite IH].
Qed.

Lemma true_idx_lookup off u s :
  u !! s = Some true -> true_idx off u !! count_true (take s u) = Some (off + s)%nat.
Proof.
  revert off s. induction u as [|b u IH]; intros off [|s] E; simplify_eq/=.
  - by rewrite Nat.add_0_r.
  - rewrite count_true_cons, <-Nat.add_succ_comm. destruct b; cbn; apply IH; done.
Qed.

Lemma true_idx_lookup_inv off u i x :
  true_idx off u !! i = Some x ->
  exists s, x = (off + s)%nat /\ u !! s = Some true /\ count_true (take s u) = i.
Proof.
  revert off i. induction u as [|b u IH]; intros off i E; [done|]. destruct b; cbn [true_idx] in E.
  - destruct i as [|i]; simplify_eq/=; [exists 0%nat; by rewrite Nat.add_0_r|].
    destruct (IH _ _ E) as (s & -> & Es & Hc). exists (S s). cbn [lookup list_lookup take].
    rewrite count_true_cons, Hc. split_and!; [lia | done | lia].
  - destruct (IH _ _ E) as (s & -> & Es & Hc). exists (S s). cbn [lookup list_lookup take].
    rewrite count_true_cons, Hc. split_and!; [lia | done | lia].
Qed.

Lemma true_idx_delete off u s :
  u !! s = Some true ->
  true_idx off (<[s:=false]> u) = delete (count_true (take s u)) (true_idx off u).
Proof.
  revert off s. induction u as [|b u IH]; intros off [|s] E; simplify_eq/=; [done|].
  rewrite count_true_cons. destruct b; cbn; by rewrite IH.
Qed.

Lemma count_true_take_lt u s : u !! s = Some true -> (count_true (take s u) < count_true u)%nat.
Proof.
  intros E. rewrite <-(length_true_idx 0 u). by eapply lookup_lt_Some, true_idx_lookup.
Qed.

Lemma picks_length u sq : picks u sq -> length sq = count_true u.
Proof.
  induction 1 as [u H|u s sq E _ IH]; [done|]. cbn [length]. rewrite IH. by apply count_true_insert.
Qed.

Lemma prank_bound u sq : picks u sq -> 0 <= prank u sq < fact (length sq).
Proof.
  induction 1 as [u H|u s sq E Hp IH]; cbn [prank length]; [done|].
  pose proof (count_true_take_lt _ _ E). apply picks_length in Hp.
  pose proof (count_true_insert _ _ E). rewrite fact_S. nia.
Qed.

Lemma prank_inj u a b : picks u a -> picks u b -> prank u a = prank u b -> a = b.
Proof.
  intros Ha. revert b. induction Ha as [u H|u s sq E Ha IH]; intros b Hb Heq.
  - apply picks_length in Hb. rewrite H in Hb. by destruct b.
  - pose proof (count_true_insert _ _ E). inversion Hb as [|? s' sq' E' Hb']; subst; [lia|].
    cbn [prank] in Heq. pose proof (prank_bound _ _ Ha). pose proof (prank_bound _ _ Hb').
    pose proof (count_true_insert _ _ E'). apply picks_length in Ha as Hla. apply picks_length in Hb' as Hlb.
    assert (Hl : length sq' = length sq) by lia. rewrite Hl in *.
    assert (Hi : count_true (take s u) = count_true (take s' u)) by nia.
    assert (s = s') as <-.
    { apply (true_idx_lookup 0) in E, E'. rewrite Hi in E. rewrite E in E'. by injection E'. }
    f_equal. apply IH; [done | lia].
Qed.

Lemma factorial_34 n : (n <= 34)%nat -> factorial (Z.of_nat n) = Some (fact n) /\ fact n < 2 ^ 128.
Proof.
  intros Hn. assert (fact n < 2 ^ 128).
  { eapply Z.le_lt_trans; [by apply fact_mono|]. by vm_compute. }
  rewrite factorial_nat. by destruct (Z.ltb_spec (fact n) (2 ^ 128)); [|lia].
Qed.

Lemma delete_map {A B} (f : A -> B) i l : delete i (map f l) = map f (delete i l).
Proof. revert i. induction l as [|x l IH]; intros [|i]; simpl; try done. by rewrite IH. Qed.

Lemma unrank_permutation_loop_spec todo u rem out :
  count_true u = todo -> (todo <= 34)%nat -> 0 <= rem < fact todo ->
  exists sq, unrank_permutation_loop todo rem (nats (true_idx 0 u)) out = Ok (0, out ++ nats sq) /\
    picks u sq /\ prank u sq = rem.
Proof.
  revert u rem out. induction todo as [|todo IH]; intros u rem out Hc Hle Hr;
    cbn [unrank_permutation_loop].
  { exists []. change (fact 0) with 1 in Hr. rewrite app_nil_r.
    split_and!; [repeat f_equal; lia | by constructor | cbn; lia]. }
  destruct (factorial_34 todo ltac:(lia)) as [-> Hf]. cbn [ok_or rbind].
  pose proof (fact_pos todo). rewrite fact_S in Hr.
  pose proof (Z.div_mod rem (fact todo) ltac:(lia)) as Hdm.
  pose proof (Z.mod_pos_bound rem (fact todo) ltac:(lia)) as Hm.
  assert (Hq : 0 <= rem / fact todo < 1 + Z.of_nat todo)
    by (split; [apply Z.div_pos; lia | apply Z.div_lt_upper_bound; lia]).
  rewrite zlen_nats, length_true_idx, Hc.
  destruct (Z.leb_spec (Z.of_nat (S todo)) (rem / fact todo)); [lia|].
  set (i := Z.to_nat (rem / fact todo)).
  destruct (lookup_lt_is_Some_2 (true_idx 0 u) i) as [s Es]; [rewrite length_true_idx; lia|].
  destruct (true_idx_lookup_inv _ _ _ _ Es) as (s' & -> & Eu & Ei). rewrite Nat.add_0_l in *.
  rewrite (nats_lookup _ _ _ Es). unfold nats. rewrite delete_map, <-Ei, <-true_idx_delete by done.
  destruct (IH (<[s':=false]> u) (rem mod fact todo) (out ++ [Z.of_nat s'])) as (sq & E & Hp & Hk);
    [pose proof (count_true_insert _ _ Eu); lia | lia | done |].
  exists (s' :: sq). unfold nats in E. rewrite E, <-app_assoc. split_and!; [done | by constructor |].
  cbn [prank]. rewrite Hk, Ei. apply picks_length in Hp as ->.
  pose proof (count_true_insert _ _ Eu). replace (count_true (<[s':=false]> u)) with todo by lia.
  unfold i. rewrite Z2Nat.id by lia. lia.
Qed.

Lemma rank_permutation_loop_spec u sq i m rank :
  picks u sq -> m - i = Z.of_nat (length sq) -> (length sq <= 34)%nat ->
  0 <= rank -> rank + prank u sq < 2 ^ 128 ->
  rank_permutation_loop (nats sq) i m u rank = Ok (rank + prank u sq).
Proof.
  intros Hp. revert i rank. induction Hp as [u H|u s sq E Hp IH]; intros i rank Hm Hl Hr Hb;
    cbn [nats map rank_permutation_loop prank length] in *.
  { do 2 f_equal. lia. }
  rewrite Nat2Z.id. replace (m - i - 1) with (Z.of_nat (length sq)) by lia.
  destruct (factorial_34 (length sq) ltac:(lia)) as [-> Hf]. cbn [ok_or rbind].
  pose proof (prank_bound _ _ Hp). pose proof (fact_pos (length sq)).
  set (t := Z.of_nat (count_true (take s u)) * fact (length sq)) in *.
  assert (0 <= t) by (unfold t; nia).
  replace (checked_mul 128 _ _) with (Some t)
    by (symmetry; apply checked_mul_Some; split; [done | fold t; lia]).
  cbn [ok_or rbind]. replace (checked_add 128 rank t) with (Some (rank + t))
    by (symmetry; apply checked_add_Some; split; [done | lia]).
  cbn [ok_or rbind]. change (map Z.of_nat sq) with (nats sq). rewrite IH by lia. f_equal. lia.
Qed.

Lemma negb_lookup u s b : u !! s = Some b -> map negb u !!! s = negb b.
Proof. intros E. apply list_lookup_total_correct. by rewrite lookup_map, E. Qed.

Lemma validate_picks u sq :
  rank_permutation_validate (nats sq) (Z.of_nat (length u)) (map negb u) = Ok tt ->
  length sq = count_true u -> picks u sq.
Proof.
  revert u. induction sq as [|s sq IH]; intros u E Hl; [by constructor|].
  cbn [nats map rank_permutation_validate] in E. rewrite Nat2Z.id in E.
  inv_ok E. bools. assert (Hs : (s < length u)%nat) by lia.
  destruct (lookup_lt_is_Some_2 u s Hs) as [b Eb]. rewrite (negb_lookup _ _ _ Eb) in H0.
  destruct b; [|done]. constructor; [done|].
  change true with (negb false) in E. rewrite insert_map in E.
  apply IH; [by rewrite length_insert |]. pose proof (count_true_insert _ _ Eb). simpl in Hl. lia.
Qed.

Lemma picks_validate u sq :
  picks u sq -> rank_permutation_validate (nats sq) (Z.of_nat (length u)) (map negb u) = Ok tt.
Proof.
  induction 1 as [u H|u s sq E Hp IH]; cbn [nats map rank_permutation_validate]; [done|].
  rewrite Nat2Z.id, (negb_lookup _ _ _ E). apply lookup_lt_Some in E as Hs.
  destruct (Z.leb_spec (Z.of_nat (length u)) (Z.of_nat s)); [lia|]. cbn [orb negb].
  change true with (negb false). rewrite insert_map. by rewrite length_insert in IH.
Qed.

Lemma count_true_replicate m : count_true (replicate m true) = m.
Proof. induction m as [|m IH]; [done|]. cbn [replicate]. by rewrite count_true_cons, IH. Qed.

Lemma true_idx_replicate off m : true_idx off (replicate m true) = seq off m.
Proof. revert off. induction m as [|m IH]; intros off; cbn; [done|]. by rewrite IH. Qed.

Lemma negb_replicate m : replicate m false = map negb (replicate m true).
Proof. induction m as [|m IH]; cbn; [done|]. by rewrite <-IH. Qed.

Lemma unrank_permutation_ok r m :
  (m <= 34)%nat -> 0 <= r < fact m ->
  exists sq, unrank_permutation r (Z.of_nat m) = Ok (nats sq) /\
    picks (replicate m true) sq /\ prank (replicate m true) sq = r.
Proof.
  intros Hm Hr.
  destruct (unrank_permutation_loop_spec m (replicate m true) r []) as (sq & E & Hp & Hk);
    [apply count_true_replicate | done | done |].
  exists sq. split; [|done]. unfold unrank_permutation.
  destruct (Z.ltb_spec 34 (Z.of_nat m)); [lia|]. destruct (factorial_34 m Hm) as [-> _].
  cbn [ok_or rbind]. destruct (Z.leb_spec (fact m) r); [lia|].
  rewrite true_idx_replicate in E. unfold nats in E. rewrite Nat2Z.id, E. done.
Qed.

Lemma rank_permutation_ok sq :
  picks (replicate (length sq) true) sq -> (length sq <= 34)%nat ->
  rank_permutation (nats sq) = Ok (prank (replicate (length sq) true) sq).
Proof.
  intros Hp Hl. unfold rank_permutation. rewrite zlen_nats, Nat2Z.id.
  destruct (Z.ltb_spec 34 (Z.of_nat (length sq))); [lia|].
  pose proof (picks_validate _ _ Hp) as Hv. rewrite length_replicate in Hv.
  rewrite negb_replicate, Hv. cbn [rbind]. pose proof (prank_bound _ _ Hp).
  destruct (factorial_34 (length sq) Hl) as [_ Hf].
  rewrite rank_permutation_loop_spec; [f_equal; lia | done | lia | done | done | lia].
Qed.

Lemma rank_permutation_inv sq r :
  rank_permutation (nats sq) = Ok r ->
  (length sq <= 34)%nat /\ picks (replicate (length sq) true) sq /\
  r = prank (replicate (length sq) true) sq.
Proof.
  intros E. unfold rank_permutation in E. rewrite zlen_nats, Nat2Z.id in E.
  inv_ok E. bools. destruct v. rewrite negb_replicate in Hok.
  rewrite <-(length_replicate (length sq) true) in Hok at 1.
  apply validate_picks in Hok; [|by rewrite count_true_replicate].
  pose proof (prank_bound _ _ Hok). destruct (factorial_34 (length sq) ltac:(lia)) as [_ Hf].
  rewrite rank_permutation_loop_spec in E; [|done | lia | lia | done | lia].
  simplify_eq. split_and!; [lia | done | lia].
Qed.

Lemma rank_comb_subset_loop_inv ps i prev N acc r :
  rank_comb_subset_loop (nats ps) (Z.of_nat i) (Z.of_nat <$> prev) (Z.of_nat N) acc = Ok r ->
  ascending_from (match prev with Some p => S p | None => 0 end) ps N /\ r = acc + crank i ps.
Proof.
  revert i prev acc. induction ps as [|p ps IH]; intros i prev acc E;
    cbn [nats map rank_comb_subset_loop ascending_from crank] in *.
  { simplify_eq. split; [done | lia]. }
  inv_ok E. replace (Z.of_nat i + 1) with (Z.of_nat (S i)) in * by lia.
  apply ok_or_Ok_inv, comb_some_inv in Hok as [-> _].
  apply ok_or_Ok_inv, checked_add_Some in Hok0 as [-> _]. bools.
  apply (IH (S i) (Some p)) in E as [Ha ->]. split; [|lia]. split_and!; [|lia|done].
  destruct prev; [cbn in Hc0; bools; lia | lia].
Qed.

(** * The promised properties *)

(** [comb] computes the exact binomial coefficient, and reports overflow
    exactly when the coefficient does not fit [u128]: the reductions never
    cause a spurious overflow. *)
Theorem comb_exact n k :
  is_u128 n -> is_u128 k ->
  comb n k = if zbinom n k <? 2 ^ 128 then Some (zbinom n k) else None.
Proof.
  intros [Hn _] [Hk _]. unfold zbinom. rewrite <-(Z2Nat.id n) at 1 by done.
  rewrite <-(Z2Nat.id k) at 1 by done. apply comb_nat.
Qed.
Lemma comb_exact_witness :
  is_u128 52 /\ is_u128 5 /\ comb 52 5 = if zbinom 52 5 <? 2 ^ 128 then Some (zbinom 52 5) else None.
Proof. split; [width | split; [width | apply comb_exact; width]]. Defined.

Lemma rank_comb_subset_inverse positions n r total :
  Forall is_u32 positions -> is_u32 n -> 1 <= n ->
  comb n (zlen positions) = Some total -> rank_comb_subset positions n = Ok r ->
  0 <= r < total /\ unrank_comb_subset r n (zlen positions) = Ok positions.
Proof.
  intros Hp Hn Hn1 Hc E. destruct (width_nats _ _ Hp) as [ps ->].
  rewrite <-(Z2Nat.id n) in * by lia. set (N := Z.to_nat n) in *.
  rewrite zlen_map in *. apply comb_some_inv in Hc as [-> Hc].
  apply (rank_comb_subset_loop_inv ps 0 None) in E as [Ha ->]. rewrite Z.add_0_l.
  pose proof (crank_nonneg 0 ps). pose proof (crank_lt _ _ Ha). split; [done|].
  destruct Hn. apply unrank_rank_comb_subset; done || lia.
Qed.

(** Ranking a subset and unranking the result returns the subset: every
    position list the ranker accepts, in a state space that fits [u128], has
    a rank below the number of subsets and is recovered exactly. *)
Theorem subset_unrank_rank positions n r total :
  Forall is_u32 positions -> is_u32 n -> 1 <= n ->
  comb n (zlen positions) = Some total -> rank_comb_subset positions n = Ok r ->
  0 <= r < total /\ unrank_comb_subset r n (zlen positions) = Ok positions.
Proof. apply rank_comb_subset_inverse. Qed.
Lemma subset_unrank_rank_witness :
  rank_comb_subset [5; 100; 200] 256 = Ok 1318355 /\
  unrank_comb_subset 1318355 256 (zlen [5; 100; 200]) = Ok [5; 100; 200].
Proof.
  split; [by vm_compute|]. refine (proj2 (subset_unrank_rank [5; 100; 200] 256 _ 2763520 _ _ _ _ _));
    [by repeat constructor | done | lia | by vm_compute | by vm_compute].
Defined.

Lemma unrank_comb_subset_total r n k total :
  is_u32 n -> 1 <= n -> 0 <= k -> comb n k = Some total -> 0 <= r < total ->
  exists positions, unrank_comb_subset r n k = Ok positions /\ zlen positions = k /\
    rank_comb_subset positions n = Ok r /\
    Forall (fun p => 0 <= p < n) positions.
Proof.
  intros [Hn0 Hn] Hn1 Hk Hc Hr. rewrite <-(Z2Nat.id n), <-(Z2Nat.id k) in * by lia.
  apply comb_some_inv in Hc as [-> Hc].
  destruct (unrank_comb_subset_ok r (Z.to_nat n) (Z.to_nat k)) as (ps & E & Ha & Hl & Hk'); [lia..|].
  exists (nats ps). rewrite E, zlen_nats, Hl. split_and!; try done.
  - unfold nats. rewrite rank_comb_subset_ok; [by rewrite Hk' | done | by rewrite Hl].
  - apply Forall_map. clear -Ha. revert Ha. generalize 0%nat as lo. induction ps as [|p ps IH];
      intros lo Ha; constructor; [destruct Ha; lia | eapply IH; apply Ha].
Qed.

(** Unranking is total on the admissible ranks and ranking inverts it:
    for [r < C(n, k)] the unranker returns [k] strictly ascending positions
    below [n] whose rank is [r]. *)
Theorem subset_rank_unrank r n k total :
  is_u32 n -> 1 <= n -> 0 <= k -> comb n k = Some total -> 0 <= r < total ->
  exists positions, unrank_comb_subset r n k = Ok positions /\ zlen positions = k /\
    rank_comb_subset positions n = Ok r /\
    Forall (fun p => 0 <= p < n) positions.
Proof. apply unrank_comb_subset_total. Qed.
Lemma subset_rank_unrank_witness :
  comb 64 32 = Some 1832624140942590534 /\
  exists positions, unrank_comb_subset (10 ^ 18) 64 32 = Ok positions /\ zlen positions = 32 /\
    rank_comb_subset positions 64 = Ok (10 ^ 18) /\ Forall (fun p => 0 <= p < 64) positions.
Proof.
  split; [by vm_compute|]. apply (subset_rank_unrank (10 ^ 18) 64 32 1832624140942590534);
    [done | lia | lia | by vm_compute | lia].
Defined.

(** [multinomial] computes the exact multinomial coefficient of counts
    that sum to [n], with overflow reported exactly when it does not fit. *)
Theorem multinomial_exact n counts :
  is_u64 n -> Forall is_u32 counts ->
  multinomial n counts =
  if decide (n = Z.of_nat (list_sum (map Z.to_nat counts)) /\ multi (map Z.to_nat counts) < 2 ^ 128)
  then Some (multi (map Z.to_nat counts)) else None.
Proof.
  intros [Hn0 Hn] Hc. destruct (width_nats _ _ Hc) as [cs ->].
  assert (Hm : map Z.to_nat (map Z.of_nat cs) = cs).
  { rewrite map_map. rewrite <-(map_id cs) at 2. apply map_ext. intros. apply Nat2Z.id. }
  rewrite Hm, <-(Z2Nat.id n) by done. change (map Z.of_nat cs) with (nats cs).
  rewrite multinomial_nats. destruct (decide _) as [(?&?&?)|Hd], (decide _) as [(?&?)|Hd'];
    try done; exfalso; [apply Hd' | apply Hd]; split_and!; lia.
Qed.
Lemma multinomial_exact_witness :
  multinomial 5 [2; 3] = if decide (5 = Z.of_nat (list_sum (map Z.to_nat [2; 3])) /\ multi (map Z.to_nat [2; 3]) < 2 ^ 128)
  then Some (multi (map Z.to_nat [2; 3])) else None.
Proof. apply multinomial_exact; [done | by repeat constructor]. Defined.

Lemma rank_multinomial_inverse sq n counts r total :
  wf_bytes sq -> Forall is_u32 counts -> zlen counts <= 256 ->
  multinomial n counts = Some total -> rank_multinomial sq n counts = Ok r ->
  0 <= r < total /\ unrank_multinomial r n counts = Ok sq.
Proof.
  intros Hs Hc Hl Hm E. destruct (width_nats _ _ Hc) as [cs ->].
  destruct (width_nats _ _ Hs) as [qs ->].
  change (map Z.of_nat) with nats in *. rewrite zlen_nats in Hl.
  unfold rank_multinomial in E. inv_ok E. bools. subst n. rewrite zlen_nats in *.
  rewrite multinomial_nats in Hm. case_decide as Hd; [|done]. destruct Hd as (Hsum & H64 & H128).
  simplify_eq. apply rank_multinomial_loop_inv in E as Ha; [|done].
  pose proof (mrank_lt _ _ Ha). pose proof (mrank_nonneg cs qs).
  rewrite rank_multinomial_loop_spec in E by (done || lia). simplify_eq. rewrite Z.add_0_l, Hsum.
  split; [done|].
  destruct (unrank_multinomial_ok cs (mrank cs qs)) as (q' & -> & Ha' & Hk); [lia | lia | lia | lia|].
  do 2 f_equal. by eapply mrank_inj.
Qed.

(** Ranking an index sequence under multiset counts and unranking the
    result returns the sequence. *)
Theorem multiset_unrank_rank sq n counts r total :
  wf_bytes sq -> Forall is_u32 counts -> zlen counts <= 256 ->
  multinomial n counts = Some total -> rank_multinomial sq n counts = Ok r ->
  0 <= r < total /\ unrank_multinomial r n counts = Ok sq.
Proof. apply rank_multinomial_inverse. Qed.
Lemma multiset_unrank_rank_witness :
  rank_multinomial [1; 0; 2; 0] 4 [2; 1; 1] = Ok 7 /\ unrank_multinomial 7 4 [2; 1; 1] = Ok [1; 0; 2; 0].
Proof.
  split; [by vm_compute|]. refine (proj2 (multiset_unrank_rank [1; 0; 2; 0] 4 [2; 1; 1] 7 12 _ _ _ _ _));
    [by repeat constructor | by repeat constructor | done | by vm_compute | by vm_compute].
Defined.

Lemma unrank_multinomial_total r n counts total :
  0 <= n -> Forall is_u32 counts -> zlen counts <= 256 ->
  multinomial n counts = Some total -> 0 <= r < total ->
  exists sq, unrank_multinomial r n counts = Ok sq /\ zlen sq = n /\
    Forall (fun s => 0 <= s < zlen counts) sq /\ rank_multinomial sq n counts = Ok r.
Proof.
  intros Hn Hc Hl Hm Hr. destruct (width_nats _ _ Hc) as [cs ->].
  change (map Z.of_nat) with nats in *. rewrite zlen_nats in *.
  rewrite <-(Z2Nat.id n) in * by done. rewrite multinomial_nats in Hm.
  case_decide as Hd; [|done]. destruct Hd as (Hsum & H64 & H128). simplify_eq.
  rewrite Hsum in *.
  destruct (unrank_multinomial_ok cs r) as (sq & E & Ha & Hk); [lia | lia | lia | lia|].
  exists (nats sq). rewrite E, zlen_nats, (arranges_length _ _ Ha). split_and!; try done.
  - apply Forall_map. clear -Ha. induction Ha as [|cs s c sq Es Ha IH]; constructor.
    + apply lookup_lt_Some in Es. lia.
    + by rewrite length_insert in IH.
  - rewrite rank_multinomial_ok by (done || lia). by rewrite Hk.
Qed.

(** Unranking a multiset coordinate is total on the admissible ranks and
    ranking inverts it. *)
Theorem multiset_rank_unrank r n counts total :
  0 <= n -> Forall is_u32 counts -> zlen counts <= 256 ->
  multinomial n counts = Some total -> 0 <= r < total ->
  exists sq, unrank_multinomial r n counts = Ok sq /\ zlen sq = n /\
    Forall (fun s => 0 <= s < zlen counts) sq /\ rank_multinomial sq n counts = Ok r.
Proof. apply unrank_multinomial_total. Qed.
Lemma multiset_rank_unrank_witness :
  exists sq, unrank_multinomial 11 4 [2; 1; 1] = Ok sq /\ zlen sq = 4 /\
    Forall (fun s => 0 <= s < zlen [2; 1; 1]) sq /\ rank_multinomial sq 4 [2; 1; 1] = Ok 11.
Proof.
  apply (multiset_rank_unrank 11 4 [2; 1; 1] 12);
    [lia | by repeat constructor | done | by vm_compute | lia].
Defined.

Lemma rank_permutation_inverse sq r :
  wf_bytes sq -> rank_permutation sq = Ok r ->
  0 <= r < fact (length sq) /\ unrank_permutation r (zlen sq) = Ok sq.
Proof.
  intros Hs E. destruct (width_nats _ _ Hs) as [qs ->].
  apply rank_permutation_inv in E as (Hl & Hp & ->). rewrite length_map.
  pose proof (prank_bound _ _ Hp). split; [done|].
  destruct (unrank_permutation_ok (prank (replicate (length qs) true) qs) (length qs))
    as (q' & E & Hp' & Hk); [done | done |].
  unfold zlen. rewrite length_map, E. unfold nats. do 2 f_equal. by eapply prank_inj.
Qed.

(** Every permutation the ranker accepts is recovered from its factoradic
    rank, and the rank is below [m!]. *)
Theorem permutation_unrank_rank sq r :
  wf_bytes sq -> rank_permutation sq = Ok r ->
  0 <= r < fact (length sq) /\ unrank_permutation r (zlen sq) = Ok sq.
Proof. apply rank_permutation_inverse. Qed.
Lemma permutation_unrank_rank_witness :
  rank_permutation [1; 3; 2; 0] = Ok 11 /\ unrank_permutation 11 (zlen [1; 3; 2; 0]) = Ok [1; 3; 2; 0].
Proof.
  split; [by vm_compute|]. refine (proj2 (permutation_unrank_rank [1; 3; 2; 0] 11 _ _));
    [by repeat constructor | by vm_compute].
Defined.

Lemma unrank_permutation_total r m :
  0 <= m <= 34 -> 0 <= r < fact (Z.to_nat m) ->
  exists sq, unrank_permutation r m = Ok sq /\ zlen sq = m /\
    Forall (fun s => 0 <= s < m) sq /\ rank_permutation sq = Ok r.
Proof.
  intros Hm Hr. rewrite <-(Z2Nat.id m) in * by lia. set (M := Z.to_nat m) in *. rewrite Nat2Z.id in Hr.
  destruct (unrank_permutation_ok r M) as (sq & E & Hp & Hk); [lia | done |].
  pose proof (picks_length _ _ Hp) as Hl. rewrite count_true_replicate in Hl.
  exists (nats sq). rewrite E, zlen_nats, Hl. split_and!; try done.
  - apply Forall_map. clear -Hp. rewrite <-(length_replicate M true).
    induction Hp as [|u s sq Es Hp IH]; constructor.
    + apply lookup_lt_Some in Es. lia.
    + by rewrite length_insert in IH.
  - rewrite rank_permutation_ok; rewrite Hl; [by rewrite Hk | done | lia].
Qed.

(** Factoradic unranking is total below [m!] for [m <= 34], and ranking
    inverts it; larger [m] is refused. *)
Theorem permutation_rank_unrank r m :
  0 <= m <= 34 -> 0 <= r < fact (Z.to_nat m) ->
  exists sq, unrank_permutation r m = Ok sq /\ zlen sq = m /\
    Forall (fun s => 0 <= s < m) sq /\ rank_permutation sq = Ok r.
Proof. apply unrank_permutation_total. Qed.
Lemma permutation_rank_unrank_witness :
  exists sq, unrank_permutation 5039 7 = Ok sq /\ zlen sq = 7 /\
    Forall (fun s => 0 <= s < 7) sq /\ rank_permutation sq = Ok 5039.
Proof. apply (permutation_rank_unrank 5039 7); [lia | by vm_compute]. Defined.

(** Ranges of successful unrankings, and the absence of panics. *)
Lemma unrank_comb_subset_wp r n k :
  is_u32 n -> 1 <= n -> 0 <= k -> 0 <= r ->
  wp (unrank_comb_subset r n k) (fun ps => zlen ps = k /\ Forall (fun p => 0 <= p < n) ps).
Proof.
  intros Hn H1 Hk Hr.
  destruct (Z.ltb_spec n k) as [Hlt|Hge]; [unfold unrank_comb_subset; by rewrite (proj2 (Z.ltb_lt _ _) Hlt)|].
  destruct (comb n k) as [v|] eqn:Hv.
  2: { unfold unrank_comb_subset. rewrite (proj2 (Z.ltb_ge _ _) Hge), Hv. done. }
  destruct (Z.ltb_spec r v) as [Hrv|Hrv].
  - destruct (unrank_comb_subset_total r n k v Hn H1 Hk Hv ltac:(lia)) as (ps & E & Hl & _ & Hf).
    by rewrite E.
  - unfold unrank_comb_subset. rewrite (proj2 (Z.ltb_ge _ _) Hge), Hv. cbn [ok_or safe map_err rbind].
    by rewrite (proj2 (Z.leb_le _ _) Hrv).
Qed.

Lemma unrank_multinomial_range r n counts sq :
  0 <= n -> 0 <= r -> Forall is_u32 counts -> zlen counts <= 256 ->
  unrank_multinomial r n counts = Ok sq ->
  zlen sq = n /\ Forall (fun s => 0 <= s < zlen counts) sq.
Proof.
  intros Hn Hr Hc Hl E. pose proof E as E'. unfold unrank_multinomial in E'. inv_ok E'. bools.
  apply ok_or_Ok_inv in Hok.
  destruct (unrank_multinomial_total r n counts v Hn Hc Hl Hok ltac:(lia)) as (q & E'' & ? & ? & _).
  rewrite E in E''. by simplify_eq.
Qed.

Lemma unrank_permutation_range r m sq :
  0 <= m -> 0 <= r -> unrank_permutation r m = Ok sq ->
  zlen sq = m /\ Forall (fun s => 0 <= s < m) sq.
Proof.
  intros Hm Hr E. pose proof E as E'. unfold unrank_permutation in E'. inv_ok E'. bools.
  apply ok_or_Ok_inv in Hok. rewrite <-(Z2Nat.id m) in Hok by done.
  destruct (factorial_34 (Z.to_nat m) ltac:(lia)) as [Hf _]. rewrite Hok in Hf. injection Hf as ->.
  destruct (unrank_permutation_total r m ltac:(lia) ltac:(lia)) as (q & E'' & ? & ? & _).
  rewrite E in E''. by simplify_eq.
Qed.

Example comb_52_5 : comb 52 5 = Some 2598960. Proof. by vm_compute. Qed.
Example comb_cliff : comb 65536 10 = None /\ is_Some (comb 65536 9).
Proof. vm_compute. split; [done | by eexists]. Qed.
Example subset_ex : unrank_comb_subset 7 5 2 = Ok [1; 4] /\ rank_comb_subset [1; 4] 5 = Ok 7.
Proof. by vm_compute. Qed.
Example multi_ex : unrank_multinomial 7 4 [2; 1; 1] = Ok [1; 0; 2; 0] /\ rank_multinomial [1; 0; 2; 0] 4 [2; 1; 1] = Ok 7.
Proof. by vm_compute. Qed.
Example perm_ex : unrank_permutation 11 4 = Ok [1; 3; 2; 0] /\ rank_permutation [1; 3; 2; 0] = Ok 11.
Proof. by vm_compute. Qed.
(** The coordinate casts of [unrank_comb_subset] ([c_i as u32]) lose bits
    once [n] exceeds [2^32]. *)
Example unrank_comb_subset_truncates : unrank_comb_subset (2 ^ 32) (2 ^ 33) 1 = Ok [0].
Proof. by vm_compute. Qed.
(** [n as u128 - 1] underflows for the empty domain. *)
Example unrank_comb_subset_empty_domain : unrank_comb_subset 0 0 0 = Err Panic.
Proof. by vm_compute. Qed.
