(* ===== verification/Repr.v ===== *)
(** Components [core/limits.rs], [core/extent.rs] and
    [core/representation.rs]: the resource limits, content ids and extents,
    and the representation algebra with its structural validation.  Each
    arm of [Representation::validate] is a definition of its own; the
    theorems say what a validated descriptor guarantees to the codec and to
    the materializer. *)
From S2P Require Import Prelude Binomial Rank.

(** * Limits ([core/limits.rs]) *)

Record Limits : Type := {
  max_chunk_size : Z;
  chunk_class : Z;
  max_descriptor_bytes : Z;
  max_reference_depth : Z;
  max_decode_work : Z;
  max_alloc_bytes : Z;
  max_fanout : Z;
  max_model_bytes : Z;
  max_inline_bytes : Z;
  max_period : Z;
  max_palette : Z
}.

Definition Limits_default : Limits := {|
  max_chunk_size := 256 * 1024;
  chunk_class := 64 * 1024;
  max_descriptor_bytes := 8192;
  max_reference_depth := 4;
  max_decode_work := 2 ^ 26;
  max_alloc_bytes := 1024 * 1024;
  max_fanout := 4096;
  max_model_bytes := 2048;
  max_inline_bytes := 4096;
  max_period := 1024;
  max_palette := 16
|}.

Definition CHUNK_CLASSES : list Z := [4 * 1024; 16 * 1024; 64 * 1024; 256 * 1024].

Definition class_for_len (len : Z) : option Z := List.find (fun c => c =? len) CHUNK_CLASSES.

(** The field types: [u64] everywhere but [u8] depth, [u32] counts. *)
Record wf_limits (l : Limits) : Prop := {
  wfl_chunk : is_u64 (max_chunk_size l);
  wfl_desc : is_u64 (max_descriptor_bytes l);
  wfl_depth : is_u8 (max_reference_depth l);
  wfl_work : is_u64 (max_decode_work l);
  wfl_alloc : is_u64 (max_alloc_bytes l);
  wfl_fanout : is_u32 (max_fanout l);
  wfl_model : is_u64 (max_model_bytes l);
  wfl_inline : is_u64 (max_inline_bytes l);
  wfl_period : is_u32 (max_period l);
  wfl_palette : is_u64 (max_palette l)
}.

Lemma wf_limits_default : wf_limits Limits_default.
Proof. split; cbn; width. Qed.

(** * Content ids and extents ([core/extent.rs]) *)

(** 32 bytes of BLAKE3 output. *)
Abbreviation ChunkId := (list Z).
Definition wf_id (id : ChunkId) : Prop := length id = 32%nat /\ wf_bytes id.

Definition ChunkId_ZERO : ChunkId := replicate 32 0.

(** The loop of [is_zero] stops at the first nonzero byte. *)
Fixpoint ChunkId_is_zero (id : ChunkId) : bool :=
  match id with
  | [] => true
  | b :: id' => if negb (b =? 0) then false else ChunkId_is_zero id'
  end.

Definition ChunkId_from_bytes (b : bytes) : option ChunkId :=
  if zlen b =? 32 then Some b else None.

(** ASCII codes of the hex digits. *)
Definition hex_val (b : Z) : option Z :=
  if (48 <=? b) && (b <=? 57) then Some (b - 48)
  else if (97 <=? b) && (b <=? 102) then Some (b - 97 + 10)
  else if (65 <=? b) && (b <=? 70) then Some (b - 65 + 10)
  else None.

(** [chunks_exact(2)] over the 64 characters. *)
Fixpoint from_hex_pairs (s : bytes) : option bytes :=
  match s with
  | c0 :: c1 :: s' =>
      match hex_val c0, hex_val c1 with
      | Some hi, Some lo =>
          match from_hex_pairs s' with
          | Some out => Some (Z.lor (Z.shiftl hi 4) lo :: out)
          | None => None
          end
      | _, _ => None
      end
  | _ => Some []
  end.
Definition ChunkId_from_hex (s : bytes) : option ChunkId :=
  if negb (zlen s =? 64) then None else from_hex_pairs s.

(** [{b:02x}] per byte. *)
Definition hex_digit (v : Z) : Z := if v <? 10 then 48 + v else 87 + v.
Definition ChunkId_display (id : ChunkId) : bytes :=
  flat_map (fun b => [hex_digit (b / 16); hex_digit (b mod 16)]) id.

Record Extent : Type := { offset : Z; length_ : Z }.

Definition Extent_end (e : Extent) : option Z := checked_add 64 (offset e) (length_ e).

Definition Extent_contains (e : Extent) (pos : Z) : bool :=
  match Extent_end e with
  | Some end_ => (offset e <=? pos) && (pos <? end_)
  | None => false
  end.

(** * The descriptor language *)

Inductive RansCodec : Type := Single | Interleaved2.
#[global] Instance RansCodec_eq_dec : EqDecision RansCodec.
Proof. solve_decision. Defined.
Definition RansCodec_from_u8 (v : Z) : option RansCodec :=
  if v =? 0 then Some Single else if v =? 1 then Some Interleaved2 else None.
Definition RansCodec_tag (c : RansCodec) : Z :=
  match c with Single => 0 | Interleaved2 => 1 end.

Inductive UniverseId : Type := UniformXofV1.
Definition UniverseId_from_u8 (v : Z) : option UniverseId :=
  if v =? 1 then Some UniformXofV1 else None.
Definition UniverseId_tag (u : UniverseId) : Z := match u with UniformXofV1 => 1 end.

Inductive TransformId : Type := Identity.
Definition TransformId_from_u8 (v : Z) : option TransformId :=
  if v =? 0 then Some Identity else None.
Definition TransformId_tag (t : TransformId) : Z := match t with Identity => 0 end.

Record Edit : Type := { pos : Z; val : Z }.
Record RangeChange : Type := { start : Z; end_ : Z }.

Inductive Residual : Type :=
| XorSparse (len : Z) (edits : list Edit)
| RangeReplace (len : Z) (changes : list RangeChange) (literals : bytes)
| RansCoded (len : Z) (enc_obj model : ChunkId) (scale_bits : Z) (codec : RansCodec)
    (decoded_len : Z)
| BaseSequence (len : Z) (enc_obj model : ChunkId) (scale_bits : Z) (codec : RansCodec)
    (seq_len lit_len off_len cmds lit_out : Z).

Inductive Representation : Type :=
| Zero (len : Z)
| Fill (value len : Z)
| Inline (data : bytes)
| Raw (obj : ChunkId) (len : Z)
| Rans (model enc_obj : ChunkId) (scale_bits : Z) (codec : RansCodec) (len : Z)
| ExactRef (target : ChunkId) (off len : Z)
| BaseResidual (base : ChunkId) (base_len : Z) (residual : Residual) (len : Z)
| Sparse (k rank : Z) (literals : bytes) (len : Z)
| Palette (palette : bytes) (counts : list Z) (rank len : Z)
| Periodic (period : Z) (pattern : bytes) (count : Z) (tail : bytes) (len : Z)
| Permutation (rank : Z) (alphabet : bytes) (len : Z)
| EntropyRef (universe : UniverseId) (seed : bytes) (coordinate : Z) (transform : TransformId)
    (residual : Residual) (len : Z)
| SequenceRans (model enc_obj : ChunkId) (scale_bits : Z) (codec : RansCodec)
    (seq_len lit_len off_len cmds lit_out len : Z)
| SparseBlock64 (model enc_obj : ChunkId) (scale_bits : Z) (codec : RansCodec)
    (pc_len rank_len lit_len words nonzero lit_out len : Z)
| SequenceDict (dictionary : ChunkId) (dictionary_len : Z) (model enc_obj : ChunkId)
    (scale_bits : Z) (codec : RansCodec) (seq_len lit_len off_len src_len cmds lit_out len : Z)
| SequenceSharedDict (dictionary : ChunkId) (dictionary_len : Z) (shared : ChunkId)
    (shared_len : Z) (model enc_obj : ChunkId) (scale_bits : Z) (codec : RansCodec)
    (seq_len lit_len off_len src_len cmds lit_out len : Z)
| SequenceDeep (model enc_obj : ChunkId) (scale_bits : Z) (codec : RansCodec)
    (seq_len lit_len off_len len_len cmds lit_out len : Z).

Definition Representation_len (r : Representation) : Z :=
  match r with
  | Zero len | Fill _ len | Raw _ len | Rans _ _ _ _ len | ExactRef _ _ len
  | BaseResidual _ _ _ len | Sparse _ _ _ len | Palette _ _ _ len | Periodic _ _ _ _ len
  | EntropyRef _ _ _ _ _ len | Permutation _ _ len
  | SequenceRans _ _ _ _ _ _ _ _ _ len | SparseBlock64 _ _ _ _ _ _ _ _ _ _ len
  | SequenceDict _ _ _ _ _ _ _ _ _ _ _ _ len
  | SequenceSharedDict _ _ _ _ _ _ _ _ _ _ _ _ _ _ len
  | SequenceDeep _ _ _ _ _ _ _ _ _ _ len => len
  | Inline data => zlen data
  end.

Definition Representation_is_empty (r : Representation) : bool := Representation_len r =? 0.

Definition Representation_tag (r : Representation) : Z :=
  match r with
  | Zero _ => 1 | Fill _ _ => 2 | Raw _ _ => 3 | Rans _ _ _ _ _ => 4
  | ExactRef _ _ _ => 5 | BaseResidual _ _ _ _ => 6 | Sparse _ _ _ _ => 7
  | Palette _ _ _ _ => 8 | Periodic _ _ _ _ _ => 9 | EntropyRef _ _ _ _ _ _ => 10
  | Inline _ => 11 | Permutation _ _ _ => 12
  | SequenceRans _ _ _ _ _ _ _ _ _ _ => 13 | SparseBlock64 _ _ _ _ _ _ _ _ _ _ _ => 14
  | SequenceDict _ _ _ _ _ _ _ _ _ _ _ _ _ => 15
  | SequenceSharedDict _ _ _ _ _ _ _ _ _ _ _ _ _ _ _ => 16
  | SequenceDeep _ _ _ _ _ _ _ _ _ _ _ => 17
  end.

Definition Residual_len (r : Residual) : Z :=
  match r with
  | XorSparse len _ | RangeReplace len _ _ | RansCoded len _ _ _ _ _
  | BaseSequence len _ _ _ _ _ _ _ _ _ => len
  end.

Definition Residual_encoded_size (r : Residual) : Z :=
  match r with
  | XorSparse _ edits => 1 + 4 + 5 * zlen edits
  | RangeReplace _ changes literals => 1 + 4 + 8 * zlen changes + zlen literals
  | RansCoded _ _ _ _ _ _ => 1 + 32 + 32 + 1 + 1 + 4
  | BaseSequence _ _ _ _ _ _ _ _ _ _ => 1 + 32 + 32 + 1 + 1 + 4 + 4 + 4 + 4 + 4
  end.

Definition Representation_encoded_size (r : Representation) : Z :=
  5 + match r with
  | Zero _ => 0
  | Fill _ _ => 1
  | Inline data => zlen data
  | Raw _ _ => 32
  | Rans _ _ _ _ _ => 32 + 32 + 1 + 1
  | ExactRef _ _ _ => 32 + 4
  | BaseResidual _ _ residual _ => 32 + 4 + Residual_encoded_size residual
  | Sparse _ _ literals _ => 4 + 16 + zlen literals
  | Palette palette counts _ _ => 1 + zlen palette + 4 * zlen counts + 16
  | Periodic period _ _ tail _ => 4 + period + 4 + 4 + zlen tail
  | EntropyRef _ _ _ _ residual _ => 1 + 16 + 8 + 1 + Residual_encoded_size residual
  | Permutation _ alphabet _ => 16 + zlen alphabet
  | SequenceRans _ _ _ _ _ _ _ _ _ _ => 32 + 32 + 1 + 1 + 4 + 4 + 4 + 4 + 4
  | SparseBlock64 _ _ _ _ _ _ _ _ _ _ _ => 32 + 32 + 1 + 1 + 4 + 4 + 4 + 4 + 4 + 4
  | SequenceDict _ _ _ _ _ _ _ _ _ _ _ _ _ =>
      32 + 4 + 32 + 32 + 1 + 1 + 4 + 4 + 4 + 4 + 4 + 4
  | SequenceSharedDict _ _ _ _ _ _ _ _ _ _ _ _ _ _ _ =>
      32 + 4 + 32 + 4 + 32 + 32 + 1 + 1 + 4 + 4 + 4 + 4 + 4 + 4
  | SequenceDeep _ _ _ _ _ _ _ _ _ _ _ => 32 + 32 + 1 + 1 + 4 + 4 + 4 + 4 + 4 + 4
  end.

(** * Structural validation *)

Inductive ReprError : Type :=
| ChunkTooLarge | ZeroObjectId | BadScaleBits | ReprOverflow | BaseTooShort
| ResidualLenMismatch | EditOutOfRange | EditsNotSorted | RangeOutOfRange | RangesOverlap
| LiteralCountMismatch | FanoutTooLarge | SparseKTooLarge | SparseLiteralCount
| SparseRankOutOfRange | CombOverflow | BadPalette | PaletteCountsMismatch
| PaletteRankOutOfRange | BadPeriod | BadTail | PeriodicLenMismatch | InlineTooLarge
| UnknownUniverse | UnknownTransform | DescriptorTooLarge | PermutationSize
| PermutationRankOutOfRange | BadPermutationAlphabet | SequenceStreamTooLarge
| SequenceLitOutMismatch | SequenceNoCommands | SequenceCmdsMismatch | SparseBlockWords
| SparseBlockLiteralCount | BadDictionary.
#[global] Instance ReprError_eq_dec : EqDecision ReprError.
Proof. solve_decision. Defined.

(** [rans::sequence::MAX_DICT]. *)
Definition MAX_DICT : Z := 65536.

Section Validate.
Context (limits : Limits).

Definition check_len (len : Z) : result ReprError unit :=
  fail_if max_chunk_size limits <? len with ChunkTooLarge ;; Ok tt.

(** [!(1..=16).contains(scale_bits)]. *)
Definition bad_scale_bits (scale_bits : Z) : bool :=
  negb ((1 <=? scale_bits) && (scale_bits <=? 16)).

(** [for s in [...] { if s > max_stream { return Err(...) } }]. *)
Fixpoint check_streams (max_stream : Z) (streams : list Z) : result ReprError unit :=
  match streams with
  | [] => Ok tt
  | s :: streams' =>
      fail_if max_stream <? s with SequenceStreamTooLarge ;;
      check_streams max_stream streams'
  end.

Definition max_stream : Z := saturating_add 64 (max_chunk_size limits) 64.

(** The edits of [XorSparse]: in range and strictly increasing. *)
Fixpoint validate_edits (repr_len : Z) (prev : option Z) (edits : list Edit)
  : result ReprError unit :=
  match edits with
  | [] => Ok tt
  | e :: edits' =>
      fail_if repr_len <=? pos e with EditOutOfRange ;;
      fail_if (match prev with Some p => pos e <=? p | None => false end) with EditsNotSorted ;;
      validate_edits repr_len (Some (pos e)) edits'
  end.

(** The changes of [RangeReplace]; [expected] accumulates the literals. *)
Fixpoint validate_changes (repr_len : Z) (prev : option Z) (expected : Z)
  (changes : list RangeChange) : result ReprError Z :=
  match changes with
  | [] => Ok expected
  | c :: changes' =>
      fail_if (end_ c <=? start c) || (repr_len <? end_ c) with RangeOutOfRange ;;
      fail_if (match prev with Some p => start c <=? p | None => false end) with RangesOverlap ;;
      let! expected := ok_or (checked_add 64 expected (end_ c - start c)) ReprOverflow in
      validate_changes repr_len (Some (end_ c)) expected changes'
  end.

Definition Residual_validate (residual : Residual) (repr_len : Z) : result ReprError unit :=
  fail_if negb (Residual_len residual =? repr_len) with ResidualLenMismatch ;;
  match residual with
  | XorSparse _ edits =>
      fail_if max_fanout limits <? zlen edits with FanoutTooLarge ;;
      validate_edits repr_len None edits
  | RangeReplace _ changes literals =>
      fail_if max_fanout limits <? zlen changes with FanoutTooLarge ;;
      let! expected_lits := validate_changes repr_len None 0 changes in
      fail_if negb (zlen literals =? expected_lits) with LiteralCountMismatch ;;
      Ok tt
  | RansCoded _ enc_obj model scale_bits _ decoded_len =>
      fail_if ChunkId_is_zero enc_obj || ChunkId_is_zero model with ZeroObjectId ;;
      fail_if bad_scale_bits scale_bits with BadScaleBits ;;
      fail_if negb (decoded_len =? repr_len) with ResidualLenMismatch ;;
      Ok tt
  | BaseSequence _ enc_obj model scale_bits _ seq_len lit_len off_len cmds lit_out =>
      fail_if ChunkId_is_zero enc_obj || ChunkId_is_zero model with ZeroObjectId ;;
      fail_if bad_scale_bits scale_bits with BadScaleBits ;;
      let! _ := check_streams max_stream [seq_len; lit_len; off_len] in
      fail_if repr_len <? lit_out with SequenceLitOutMismatch ;;
      fail_if (cmds =? 0) && (0 <? repr_len) with SequenceNoCommands ;;
      fail_if repr_len <? cmds with SequenceCmdsMismatch ;;
      Ok tt
  end.

Definition validate_inline (data : bytes) : result ReprError unit :=
  fail_if max_inline_bytes limits <? zlen data with InlineTooLarge ;; Ok tt.

Definition validate_raw (obj : ChunkId) (len : Z) : result ReprError unit :=
  let! _ := check_len len in
  fail_if ChunkId_is_zero obj with ZeroObjectId ;; Ok tt.

Definition validate_rans (model enc_obj : ChunkId) (scale_bits len : Z) : result ReprError unit :=
  let! _ := check_len len in
  fail_if ChunkId_is_zero model || ChunkId_is_zero enc_obj with ZeroObjectId ;;
  fail_if bad_scale_bits scale_bits with BadScaleBits ;; Ok tt.

Definition validate_exact_ref (target : ChunkId) (off len : Z) : result ReprError unit :=
  let! _ := check_len len in
  fail_if ChunkId_is_zero target with ZeroObjectId ;;
  fail_if (match checked_add 64 off len with None => true | Some _ => false end)
    with ReprOverflow ;; Ok tt.

Definition is_base_sequence (r : Residual) : bool :=
  match r with BaseSequence _ _ _ _ _ _ _ _ _ _ => true | _ => false end.

Definition validate_base_residual (base : ChunkId) (base_len : Z) (residual : Residual) (len : Z)
  : result ReprError unit :=
  let! _ := check_len len in
  fail_if ChunkId_is_zero base with ZeroObjectId ;;
  fail_if negb (is_base_sequence residual) && (base_len <? len) with BaseTooShort ;;
  Residual_validate residual len.

Definition validate_sparse (k rank : Z) (literals : bytes) (len : Z) : result ReprError unit :=
  let! _ := check_len len in
  fail_if len <? k with SparseKTooLarge ;;
  fail_if negb (zlen literals =? k) with SparseLiteralCount ;;
  match comb len k with
  | Some total => if rank <? total then Ok tt else Err SparseRankOutOfRange
  | None => Err CombOverflow
  end.

Definition validate_palette (palette : bytes) (counts : list Z) (rank len : Z)
  : result ReprError unit :=
  let! _ := check_len len in
  fail_if (zlen palette =? 0) || (max_palette limits <? zlen palette) with BadPalette ;;
  fail_if negb (zlen counts =? zlen palette) with BadPalette ;;
  let! total := ok_or (sum_counts 0 counts) ReprOverflow in
  fail_if negb (total =? len) with PaletteCountsMismatch ;;
  fail_if existsb (fun c => c =? 0) counts with BadPalette ;;
  match multinomial len counts with
  | Some total_states => if rank <? total_states then Ok tt else Err PaletteRankOutOfRange
  | None => Err CombOverflow
  end.

Definition validate_periodic (period : Z) (pattern : bytes) (count : Z) (tail : bytes) (len : Z)
  : result ReprError unit :=
  let! _ := check_len len in
  fail_if (period =? 0) || (max_period limits <? period) with BadPeriod ;;
  fail_if negb (zlen pattern =? period) with BadPeriod ;;
  fail_if period <=? zlen tail with BadTail ;;
  let! prod := ok_or (checked_mul 64 period count) ReprOverflow in
  let! expected := ok_or (checked_add 64 prod (zlen tail)) ReprOverflow in
  fail_if negb (expected =? len) with PeriodicLenMismatch ;; Ok tt.

(** Both id types have a single member, so the registry checks pass. *)
Definition validate_entropy_ref (universe : UniverseId) (transform : TransformId)
  (residual : Residual) (len : Z) : result ReprError unit :=
  let! _ := check_len len in
  match universe, transform with
  | UniformXofV1, Identity => Residual_validate residual len
  end.

Fixpoint strictly_increasing (l : bytes) : bool :=
  match l with
  | a :: ((b :: _) as l') => if b <=? a then false else strictly_increasing l'
  | _ => true
  end.

Definition validate_permutation (rank : Z) (alphabet : bytes) (len : Z) : result ReprError unit :=
  let! _ := check_len len in
  fail_if (len =? 0) || (34 <? len) with PermutationSize ;;
  fail_if negb (zlen alphabet =? len) with BadPermutationAlphabet ;;
  fail_if negb (strictly_increasing alphabet) with BadPermutationAlphabet ;;
  let! total := ok_or (factorial len) CombOverflow in
  fail_if total <=? rank with PermutationRankOutOfRange ;; Ok tt.

(** The checks [SequenceRans], [SequenceDict], [SequenceSharedDict] and
    [SequenceDeep] end with. *)
Definition validate_sequence_tail (streams : list Z) (cmds lit_out len : Z)
  : result ReprError unit :=
  let! _ := check_streams max_stream streams in
  fail_if len <? lit_out with SequenceLitOutMismatch ;;
  fail_if (cmds =? 0) && (0 <? len) with SequenceNoCommands ;;
  fail_if len <? cmds with SequenceCmdsMismatch ;; Ok tt.

Definition validate_sequence_rans (model enc_obj : ChunkId)
  (scale_bits seq_len lit_len off_len cmds lit_out len : Z) : result ReprError unit :=
  let! _ := check_len len in
  fail_if ChunkId_is_zero model || ChunkId_is_zero enc_obj with ZeroObjectId ;;
  fail_if bad_scale_bits scale_bits with BadScaleBits ;;
  validate_sequence_tail [seq_len; lit_len; off_len] cmds lit_out len.

Definition validate_sparse_block64 (model enc_obj : ChunkId)
  (scale_bits pc_len rank_len lit_len words nonzero lit_out len : Z) : result ReprError unit :=
  let! _ := check_len len in
  fail_if ChunkId_is_zero model || ChunkId_is_zero enc_obj with ZeroObjectId ;;
  fail_if bad_scale_bits scale_bits with BadScaleBits ;;
  let! _ := check_streams max_stream [pc_len; rank_len; lit_len] in
  fail_if saturating_mul 64 words 8 <? len with SparseBlockWords ;;
  fail_if words <? nonzero with SparseBlockWords ;;
  fail_if len <? lit_out with SequenceLitOutMismatch ;;
  fail_if lit_out <? nonzero with SparseBlockLiteralCount ;; Ok tt.

Definition bad_dictionary_len (n : Z) : bool :=
  (n =? 0) || (MAX_DICT <? n) || (max_chunk_size limits <? n).

Definition validate_sequence_dict (dictionary : ChunkId) (dictionary_len : Z)
  (model enc_obj : ChunkId) (scale_bits seq_len lit_len off_len src_len cmds lit_out len : Z)
  : result ReprError unit :=
  let! _ := check_len len in
  fail_if ChunkId_is_zero dictionary || ChunkId_is_zero model || ChunkId_is_zero enc_obj
    with ZeroObjectId ;;
  fail_if bad_scale_bits scale_bits with BadScaleBits ;;
  fail_if bad_dictionary_len dictionary_len with BadDictionary ;;
  validate_sequence_tail [seq_len; lit_len; off_len; src_len] cmds lit_out len.

Definition validate_sequence_shared_dict (dictionary : ChunkId) (dictionary_len : Z)
  (shared : ChunkId) (shared_len : Z) (model enc_obj : ChunkId)
  (scale_bits seq_len lit_len off_len src_len cmds lit_out len : Z) : result ReprError unit :=
  let! _ := check_len len in
  fail_if ChunkId_is_zero shared || ChunkId_is_zero model || ChunkId_is_zero enc_obj
    with ZeroObjectId ;;
  fail_if bad_scale_bits scale_bits with BadScaleBits ;;
  fail_if bad_dictionary_len shared_len with BadDictionary ;;
  let file_absent := ChunkId_is_zero dictionary && (dictionary_len =? 0) in
  let file_present := negb (ChunkId_is_zero dictionary) && (0 <? dictionary_len) &&
    (dictionary_len <=? MAX_DICT) && (dictionary_len <=? max_chunk_size limits) in
  fail_if negb file_absent && negb file_present with BadDictionary ;;
  validate_sequence_tail [seq_len; lit_len; off_len; src_len] cmds lit_out len.

Definition validate_sequence_deep (model enc_obj : ChunkId)
  (scale_bits seq_len lit_len off_len len_len cmds lit_out len : Z) : result ReprError unit :=
  let! _ := check_len len in
  fail_if ChunkId_is_zero model || ChunkId_is_zero enc_obj with ZeroObjectId ;;
  fail_if bad_scale_bits scale_bits with BadScaleBits ;;
  validate_sequence_tail [seq_len; lit_len; off_len; len_len] cmds lit_out len.

Definition Representation_validate (r : Representation) : result ReprError unit :=
  fail_if max_descriptor_bytes limits <? Representation_encoded_size r with DescriptorTooLarge ;;
  match r with
  | Zero len => check_len len
  | Fill _ len => check_len len
  | Inline data => validate_inline data
  | Raw obj len => validate_raw obj len
  | Rans model enc_obj scale_bits _ len => validate_rans model enc_obj scale_bits len
  | ExactRef target off len => validate_exact_ref target off len
  | BaseResidual base base_len residual len => validate_base_residual base base_len residual len
  | Sparse k rank literals len => validate_sparse k rank literals len
  | Palette palette counts rank len => validate_palette palette counts rank len
  | Periodic period pattern count tail len => validate_periodic period pattern count tail len
  | EntropyRef universe _ _ transform residual len =>
      validate_entropy_ref universe transform residual len
  | Permutation rank alphabet len => validate_permutation rank alphabet len
  | SequenceRans model enc_obj scale_bits _ seq_len lit_len off_len cmds lit_out len =>
      validate_sequence_rans model enc_obj scale_bits seq_len lit_len off_len cmds lit_out len
  | SparseBlock64 model enc_obj scale_bits _ pc_len rank_len lit_len words nonzero lit_out len =>
      validate_sparse_block64 model enc_obj scale_bits pc_len rank_len lit_len words nonzero
        lit_out len
  | SequenceDict dictionary dictionary_len model enc_obj scale_bits _ seq_len lit_len off_len
      src_len cmds lit_out len =>
      validate_sequence_dict dictionary dictionary_len model enc_obj scale_bits seq_len lit_len
        off_len src_len cmds lit_out len
  | SequenceSharedDict dictionary dictionary_len shared shared_len model enc_obj scale_bits _
      seq_len lit_len off_len src_len cmds lit_out len =>
      validate_sequence_shared_dict dictionary dictionary_len shared shared_len model enc_obj
        scale_bits seq_len lit_len off_len src_len cmds lit_out len
  | SequenceDeep model enc_obj scale_bits _ seq_len lit_len off_len len_len cmds lit_out len =>
      validate_sequence_deep model enc_obj scale_bits seq_len lit_len off_len len_len cmds
        lit_out len
  end.
End Validate.

(** * The field types *)

Definition wf_edit (e : Edit) : Prop := is_u32 (pos e) /\ is_u8 (val e).
Definition wf_change (c : RangeChange) : Prop := is_u32 (start c) /\ is_u32 (end_ c).

(** Every field holds a value of its Rust type. *)
Definition wf_residual (r : Residual) : Prop :=
  match r with
  | XorSparse len edits => is_u64 len /\ Forall wf_edit edits
  | RangeReplace len changes literals =>
      is_u64 len /\ Forall wf_change changes /\ wf_bytes literals
  | RansCoded len enc_obj model scale_bits _ decoded_len =>
      is_u64 len /\ wf_id enc_obj /\ wf_id model /\ is_u8 scale_bits /\ is_u64 decoded_len
  | BaseSequence len enc_obj model scale_bits _ seq_len lit_len off_len cmds lit_out =>
      is_u64 len /\ wf_id enc_obj /\ wf_id model /\ is_u8 scale_bits /\
      Forall is_u32 [seq_len; lit_len; off_len; cmds; lit_out]
  end.

Definition wf_repr (r : Representation) : Prop :=
  match r with
  | Zero len => is_u64 len
  | Fill value len => is_u8 value /\ is_u64 len
  | Inline data => wf_bytes data
  | Raw obj len => wf_id obj /\ is_u64 len
  | Rans model enc_obj scale_bits _ len =>
      wf_id model /\ wf_id enc_obj /\ is_u8 scale_bits /\ is_u64 len
  | ExactRef target off len => wf_id target /\ is_u64 off /\ is_u64 len
  | BaseResidual base base_len residual len =>
      wf_id base /\ is_u64 base_len /\ wf_residual residual /\ is_u64 len
  | Sparse k rank literals len => is_u32 k /\ is_u128 rank /\ wf_bytes literals /\ is_u64 len
  | Palette palette counts rank len =>
      wf_bytes palette /\ Forall is_u32 counts /\ is_u128 rank /\ is_u64 len
  | Periodic period pattern count tail len =>
      is_u32 period /\ wf_bytes pattern /\ is_u32 count /\ wf_bytes tail /\ is_u64 len
  | Permutation rank alphabet len => is_u128 rank /\ wf_bytes alphabet /\ is_u64 len
  | EntropyRef _ seed coordinate _ residual len =>
      (zlen seed = 16 /\ wf_bytes seed) /\ is_u64 coordinate /\ wf_residual residual /\
      is_u64 len
  | SequenceRans model enc_obj scale_bits _ seq_len lit_len off_len cmds lit_out len =>
      wf_id model /\ wf_id enc_obj /\ is_u8 scale_bits /\
      Forall is_u32 [seq_len; lit_len; off_len; cmds; lit_out] /\ is_u64 len
  | SparseBlock64 model enc_obj scale_bits _ pc_len rank_len lit_len words nonzero lit_out len =>
      wf_id model /\ wf_id enc_obj /\ is_u8 scale_bits /\
      Forall is_u32 [pc_len; rank_len; lit_len; words; nonzero; lit_out] /\ is_u64 len
  | SequenceDict dictionary dictionary_len model enc_obj scale_bits _ seq_len lit_len off_len
      src_len cmds lit_out len =>
      wf_id dictionary /\ wf_id model /\ wf_id enc_obj /\ is_u8 scale_bits /\
      Forall is_u32 [dictionary_len; seq_len; lit_len; off_len; src_len; cmds; lit_out] /\
      is_u64 len
  | SequenceSharedDict dictionary dictionary_len shared shared_len model enc_obj scale_bits _
      seq_len lit_len off_len src_len cmds lit_out len =>
      wf_id dictionary /\ wf_id shared /\ wf_id model /\ wf_id enc_obj /\ is_u8 scale_bits /\
      Forall is_u32 [dictionary_len; shared_len; seq_len; lit_len; off_len; src_len; cmds;
        lit_out] /\ is_u64 len
  | SequenceDeep model enc_obj scale_bits _ seq_len lit_len off_len len_len cmds lit_out len =>
      wf_id model /\ wf_id enc_obj /\ is_u8 scale_bits /\
      Forall is_u32 [seq_len; lit_len; off_len; len_len; cmds; lit_out] /\ is_u64 len
  end.

(** * Facts about validation *)

Lemma validate_size limits r :
  Representation_validate limits r = Ok tt ->
  Representation_encoded_size r <= max_descriptor_bytes limits.
Proof. unfold Representation_validate. intros H. inv_ok H. bools. lia. Qed.

Lemma check_len_ok limits len : check_len limits len = Ok tt <-> len <= max_chunk_size limits.
Proof.
  unfold check_len. destruct (Z.ltb_spec (max_chunk_size limits) len); split; intros; try done; lia.
Qed.

(** [validate_destruct H] opens a successful validation of a known family
    into its checks. *)
Ltac validate_destruct H :=
  unfold Representation_validate in H; inv_ok H;
  unfold validate_inline, validate_raw, validate_rans, validate_exact_ref, validate_base_residual,
    validate_sparse, validate_palette, validate_periodic, validate_entropy_ref,
    validate_permutation, validate_sequence_rans, validate_sparse_block64, validate_sequence_dict,
    validate_sequence_shared_dict, validate_sequence_deep, validate_sequence_tail in H;
  inv_ok H; bools;
  repeat match goal with
  | u : unit |- _ => destruct u
  | E : check_len _ _ = Ok tt |- _ => apply check_len_ok in E
  end.

Lemma validate_len limits r :
  Representation_validate limits r = Ok tt ->
  max_inline_bytes limits <= max_chunk_size limits ->
  Representation_len r <= max_chunk_size limits.
Proof.
  intros H Hi. destruct r; validate_destruct H; cbn [Representation_len]; lia.
Qed.

Lemma RansCodec_tag_inv v c : RansCodec_from_u8 v = Some c -> RansCodec_tag c = v.
Proof.
  unfold RansCodec_from_u8. destruct (Z.eqb_spec v 0); [intros; by simplify_eq|].
  destruct (Z.eqb_spec v 1); intros; by simplify_eq.
Qed.
Lemma RansCodec_from_tag c : RansCodec_from_u8 (RansCodec_tag c) = Some c.
Proof. by destruct c. Qed.
