(* ===== verification/Descriptor.v ===== *)
(** Component [format/descriptor.rs]: the wire codec of representation
    descriptors.  [encode] writes the tag, the logical length and the
    family's payload; [decode] bounds the input, parses it, requires exact
    consumption and validates the result under the same limits.  The
    theorems are the module's stated invariants: round trip, canonical
    re-encoding, decode-OK implies validate-OK, and the size mirror. *)
From S2P Require Import Prelude Binomial Codec Rank Repr.

(** * Encoding *)

Definition TAG_ZERO : Z := 1.
Definition TAG_FILL : Z := 2.
Definition TAG_RAW : Z := 3.
Definition TAG_RANS : Z := 4.
Definition TAG_EXACT_REF : Z := 5.
Definition TAG_BASE_RESIDUAL : Z := 6.
Definition TAG_SPARSE : Z := 7.
Definition TAG_PALETTE : Z := 8.
Definition TAG_PERIODIC : Z := 9.
Definition TAG_ENTROPY_REF : Z := 10.
Definition TAG_INLINE : Z := 11.
Definition TAG_PERMUTATION : Z := 12.
Definition TAG_SEQUENCE_RANS : Z := 13.
Definition TAG_SPARSE_BLOCK64 : Z := 14.
Definition TAG_SEQUENCE_DICT : Z := 15.
Definition TAG_SEQUENCE_SHARED_DICT : Z := 16.
Definition TAG_SEQUENCE_DEEP : Z := 17.
Definition RESIDUAL_XOR_SPARSE : Z := 1.
Definition RESIDUAL_RANGE_REPLACE : Z := 2.
Definition RESIDUAL_RANS_CODED : Z := 3.
Definition RESIDUAL_BASE_SEQUENCE : Z := 4.

(** Runs of [w.u32(...)] calls. *)
Fixpoint write_u32s (w : Writer) (vs : list Z) : Writer :=
  match vs with [] => w | v :: vs' => write_u32s (Writer_u32 w v) vs' end.

Fixpoint write_edits (w : Writer) (edits : list Edit) : Writer :=
  match edits with
  | [] => w
  | e :: edits' => write_edits (Writer_u8 (Writer_u32 w (pos e)) (val e)) edits'
  end.

Fixpoint write_changes (w : Writer) (changes : list RangeChange) : Writer :=
  match changes with
  | [] => w
  | c :: changes' => write_changes (Writer_u32 (Writer_u32 w (start c)) (end_ c)) changes'
  end.

Definition encode_residual (w : Writer) (r : Residual) : result CodecError Writer :=
  match r with
  | XorSparse _ edits =>
      let w := Writer_u8 w RESIDUAL_XOR_SPARSE in
      let w := Writer_u32 w (wrap 32 (zlen edits)) in
      Ok (write_edits w edits)
  | RangeReplace _ changes literals =>
      let w := Writer_u8 w RESIDUAL_RANGE_REPLACE in
      let w := Writer_u32 w (wrap 32 (zlen changes)) in
      let w := write_changes w changes in
      Ok (Writer_bytes w literals)
  | RansCoded _ enc_obj model scale_bits codec decoded_len =>
      let w := Writer_u8 w RESIDUAL_RANS_CODED in
      let w := Writer_bytes w enc_obj in
      let w := Writer_bytes w model in
      let w := Writer_u8 w scale_bits in
      let w := Writer_u8 w (RansCodec_tag codec) in
      Ok (Writer_u32 w (wrap 32 decoded_len))
  | BaseSequence _ enc_obj model scale_bits codec seq_len lit_len off_len cmds lit_out =>
      let w := Writer_u8 w RESIDUAL_BASE_SEQUENCE in
      let w := Writer_bytes w enc_obj in
      let w := Writer_bytes w model in
      let w := Writer_u8 w scale_bits in
      let w := Writer_u8 w (RansCodec_tag codec) in
      Ok (write_u32s w [seq_len; lit_len; off_len; cmds; lit_out])
  end.

(** The common prefix: family tag and [len as u32]. *)
Definition write_prefix (tag len : Z) : Writer :=
  Writer_u32 (Writer_u8 Writer_new tag) (wrap 32 len).

(** [model], [enc_obj], [scale_bits], [codec]: the head of every stream family. *)
Definition write_streams (w : Writer) (model enc_obj : ChunkId) (scale_bits : Z) (codec : RansCodec)
  : Writer :=
  let w := Writer_bytes w model in
  let w := Writer_bytes w enc_obj in
  let w := Writer_u8 w scale_bits in
  Writer_u8 w (RansCodec_tag codec).

Definition encode_sequence_rans (model enc_obj : ChunkId) (scale_bits : Z) (codec : RansCodec)
  (seq_len lit_len off_len cmds lit_out len : Z) : result CodecError Writer :=
  let w := write_streams (write_prefix TAG_SEQUENCE_RANS len) model enc_obj scale_bits codec in
  Ok (write_u32s w [seq_len; lit_len; off_len; cmds; lit_out]).

Definition encode_sparse_block64 (model enc_obj : ChunkId) (scale_bits : Z) (codec : RansCodec)
  (pc_len rank_len lit_len words nonzero lit_out len : Z) : result CodecError Writer :=
  let w := write_streams (write_prefix TAG_SPARSE_BLOCK64 len) model enc_obj scale_bits codec in
  Ok (write_u32s w [pc_len; rank_len; lit_len; words; nonzero; lit_out]).

Definition encode_sequence_dict (dictionary : ChunkId) (dictionary_len : Z) (model enc_obj :
  ChunkId) (scale_bits : Z) (codec : RansCodec) (seq_len lit_len off_len src_len cmds lit_out len
  : Z) : result CodecError Writer :=
  let w := Writer_bytes (write_prefix TAG_SEQUENCE_DICT len) dictionary in
  let w := Writer_u32 w dictionary_len in
  let w := write_streams w model enc_obj scale_bits codec in
  Ok (write_u32s w [seq_len; lit_len; off_len; src_len; cmds; lit_out]).

Definition encode_sequence_shared_dict (dictionary : ChunkId) (dictionary_len : Z) (shared :
  ChunkId) (shared_len : Z) (model enc_obj : ChunkId) (scale_bits : Z) (codec : RansCodec)
  (seq_len lit_len off_len src_len cmds lit_out len : Z) : result CodecError Writer :=
  let w := Writer_bytes (write_prefix TAG_SEQUENCE_SHARED_DICT len) dictionary in
  let w := Writer_u32 w dictionary_len in
  let w := Writer_bytes w shared in
  let w := Writer_u32 w shared_len in
  let w := write_streams w model enc_obj scale_bits codec in
  Ok (write_u32s w [seq_len; lit_len; off_len; src_len; cmds; lit_out]).

Definition encode_sequence_deep (model enc_obj : ChunkId) (scale_bits : Z) (codec : RansCodec)
  (seq_len lit_len off_len len_len cmds lit_out len : Z) : result CodecError Writer :=
  let w := write_streams (write_prefix TAG_SEQUENCE_DEEP len) model enc_obj scale_bits codec in
  Ok (write_u32s w [seq_len; lit_len; off_len; len_len; cmds; lit_out]).

Definition encode_rep (rep : Representation) : result CodecError Writer :=
  match rep with
  | Zero len => Ok (write_prefix TAG_ZERO len)
  | Fill value len => Ok (Writer_u8 (write_prefix TAG_FILL len) value)
  | Inline data => Ok (Writer_bytes (write_prefix TAG_INLINE (zlen data)) data)
  | Raw obj len => Ok (Writer_bytes (write_prefix TAG_RAW len) obj)
  | Rans model enc_obj scale_bits codec len =>
      Ok (write_streams (write_prefix TAG_RANS len) model enc_obj scale_bits codec)
  | ExactRef target off len =>
      Ok (Writer_u32 (Writer_bytes (write_prefix TAG_EXACT_REF len) target) (wrap 32 off))
  | BaseResidual base base_len residual len =>
      let w := Writer_bytes (write_prefix TAG_BASE_RESIDUAL len) base in
      let w := Writer_u32 w (wrap 32 base_len) in
      encode_residual w residual
  | Sparse k rank literals len =>
      let w := Writer_u32 (write_prefix TAG_SPARSE len) k in
      let w := Writer_u128 w rank in
      Ok (Writer_bytes w literals)
  | Palette palette counts rank len =>
      let w := write_prefix TAG_PALETTE len in
      fail_if 255 <? zlen palette with Malformed ;;
      let w := Writer_u8 w (wrap 8 (zlen palette)) in
      let w := Writer_bytes w palette in
      let w := write_u32s w counts in
      Ok (Writer_u128 w rank)
  | Periodic period pattern count tail len =>
      let w := Writer_u32 (write_prefix TAG_PERIODIC len) period in
      let w := Writer_bytes w pattern in
      let w := Writer_u32 w count in
      let w := Writer_u32 w (wrap 32 (zlen tail)) in
      Ok (Writer_bytes w tail)
  | EntropyRef universe seed coordinate transform residual len =>
      let w := Writer_u8 (write_prefix TAG_ENTROPY_REF len) (UniverseId_tag universe) in
      let w := Writer_bytes w seed in
      let w := Writer_u64 w coordinate in
      let w := Writer_u8 w (TransformId_tag transform) in
      encode_residual w residual
  | Permutation rank alphabet len =>
      Ok (Writer_bytes (Writer_u128 (write_prefix TAG_PERMUTATION len) rank) alphabet)
  | SequenceRans model enc_obj scale_bits codec seq_len lit_len off_len cmds lit_out len =>
      encode_sequence_rans model enc_obj scale_bits codec seq_len lit_len off_len cmds lit_out len
  | SparseBlock64 model enc_obj scale_bits codec pc_len rank_len lit_len words nonzero lit_out len
      =>
      encode_sparse_block64 model enc_obj scale_bits codec pc_len rank_len lit_len words nonzero
        lit_out len
  | SequenceDict dictionary dictionary_len model enc_obj scale_bits codec seq_len lit_len off_len
      src_len cmds lit_out len =>
      encode_sequence_dict dictionary dictionary_len model enc_obj scale_bits codec seq_len
        lit_len off_len src_len cmds lit_out len
  | SequenceSharedDict dictionary dictionary_len shared shared_len model enc_obj scale_bits codec
      seq_len lit_len off_len src_len cmds lit_out len =>
      encode_sequence_shared_dict dictionary dictionary_len shared shared_len model enc_obj
        scale_bits codec seq_len lit_len off_len src_len cmds lit_out len
  | SequenceDeep model enc_obj scale_bits codec seq_len lit_len off_len len_len cmds lit_out len
      =>
      encode_sequence_deep model enc_obj scale_bits codec seq_len lit_len off_len len_len cmds
        lit_out len
  end.

Definition encode (rep : Representation) : result CodecError bytes :=
  let! w := encode_rep rep in Ok (Writer_into_bytes w).

(** * Decoding *)

Definition read_id (r : Reader) : result CodecError (ChunkId * Reader) := Reader_take r 32.
Definition read_seed (r : Reader) : result CodecError (bytes * Reader) := Reader_take r 16.

Definition read_codec (r : Reader) : result CodecError (RansCodec * Reader) :=
  let! '(v, r) := Reader_u8 r in
  let! c := ok_or (RansCodec_from_u8 v) Malformed in Ok (c, r).

(** [for _ in 0..count] loops. *)
Fixpoint decode_edits (count : nat) (r : Reader) : result CodecError (list Edit * Reader) :=
  match count with
  | O => Ok ([], r)
  | S count' =>
      let! '(p, r) := Reader_u32 r in
      let! '(v, r) := Reader_u8 r in
      let! '(edits, r) := decode_edits count' r in
      Ok ({| pos := p; val := v |} :: edits, r)
  end.

Fixpoint decode_changes (count : nat) (r : Reader) : result CodecError (list RangeChange * Reader) :=
  match count with
  | O => Ok ([], r)
  | S count' =>
      let! '(s, r) := Reader_u32 r in
      let! '(e, r) := Reader_u32 r in
      let! '(changes, r) := decode_changes count' r in
      Ok ({| start := s; end_ := e |} :: changes, r)
  end.

Fixpoint decode_counts (count : nat) (r : Reader) : result CodecError (list Z * Reader) :=
  match count with
  | O => Ok ([], r)
  | S count' =>
      let! '(c, r) := Reader_u32 r in
      let! '(counts, r) := decode_counts count' r in
      Ok (c :: counts, r)
  end.

Fixpoint literal_total (acc : Z) (changes : list RangeChange) : result CodecError Z :=
  match changes with
  | [] => Ok acc
  | c :: changes' =>
      fail_if end_ c <=? start c with Malformed ;;
      literal_total (acc + (end_ c - start c)) changes'
  end.

Definition decode_residual (r : Reader) (repr_len : Z) : result CodecError (Residual * Reader) :=
  let! '(kind, r) := Reader_u8 r in
  if kind =? RESIDUAL_XOR_SPARSE then
    let! '(count, r) := Reader_u32 r in
    let! '(edits, r) := decode_edits (Z.to_nat count) r in
    Ok (XorSparse repr_len edits, r)
  else if kind =? RESIDUAL_RANGE_REPLACE then
    let! '(count, r) := Reader_u32 r in
    let! '(changes, r) := decode_changes (Z.to_nat count) r in
    let! total := literal_total 0 changes in
    let! '(literals, r) := Reader_take r total in
    Ok (RangeReplace repr_len changes literals, r)
  else if kind =? RESIDUAL_RANS_CODED then
    let! '(enc_obj, r) := read_id r in
    let! '(model, r) := read_id r in
    let! '(scale_bits, r) := Reader_u8 r in
    let! '(codec, r) := read_codec r in
    let! '(decoded_len, r) := Reader_u32 r in
    Ok (RansCoded repr_len enc_obj model scale_bits codec decoded_len, r)
  else if kind =? RESIDUAL_BASE_SEQUENCE then
    let! '(enc_obj, r) := read_id r in
    let! '(model, r) := read_id r in
    let! '(scale_bits, r) := Reader_u8 r in
    let! '(codec, r) := read_codec r in
    let! '(seq_len, r) := Reader_u32 r in
    let! '(lit_len, r) := Reader_u32 r in
    let! '(off_len, r) := Reader_u32 r in
    let! '(cmds, r) := Reader_u32 r in
    let! '(lit_out, r) := Reader_u32 r in
    Ok (BaseSequence repr_len enc_obj model scale_bits codec seq_len lit_len off_len cmds lit_out, r)
  else Err Malformed.

(** Elements reserved by [Vec::with_capacity(count)] before the loop reads
    the first of them. *)
Definition decode_residual_reserve (r : Reader) : result CodecError Z :=
  let! '(kind, r) := Reader_u8 r in
  if (kind =? RESIDUAL_XOR_SPARSE) || (kind =? RESIDUAL_RANGE_REPLACE) then
    let! '(count, r) := Reader_u32 r in Ok count
  else Ok 0.

Section Decode.
Context (limits : Limits).

Definition decode_inline (r : Reader) (len : Z) : result CodecError (Representation * Reader) :=
  fail_if max_inline_bytes limits <? len with TooLong ;;
  let! '(data, r) := Reader_take r len in
  Ok (Inline data, r).

Definition decode_rans_arm (r : Reader) (len : Z) : result CodecError (Representation * Reader) :=
  let! '(model, r) := read_id r in
  let! '(enc_obj, r) := read_id r in
  let! '(scale_bits, r) := Reader_u8 r in
  let! '(codec, r) := read_codec r in
  Ok (Rans model enc_obj scale_bits codec len, r).

Definition decode_exact_ref (r : Reader) (len : Z) : result CodecError (Representation * Reader) :=
  let! '(target, r) := read_id r in
  let! '(off, r) := Reader_u32 r in
  Ok (ExactRef target off len, r).

Definition decode_base_residual (r : Reader) (len : Z)
  : result CodecError (Representation * Reader) :=
  let! '(base, r) := read_id r in
  let! '(base_len, r) := Reader_u32 r in
  let! '(residual, r) := decode_residual r len in
  Ok (BaseResidual base base_len residual len, r).

Definition decode_sparse (r : Reader) (len : Z) : result CodecError (Representation * Reader) :=
  let! '(k, r) := Reader_u32 r in
  let! '(rank, r) := Reader_u128 r in
  let! '(literals, r) := Reader_take r k in
  Ok (Sparse k rank literals len, r).

Definition decode_palette (r : Reader) (len : Z) : result CodecError (Representation * Reader) :=
  let! '(m, r) := Reader_u8 r in
  fail_if (max_palette limits <? m) || (m =? 0) with Malformed ;;
  let! '(palette, r) := Reader_take r m in
  let! '(counts, r) := decode_counts (Z.to_nat m) r in
  let! '(rank, r) := Reader_u128 r in
  Ok (Palette palette counts rank len, r).

Definition decode_periodic (r : Reader) (len : Z) : result CodecError (Representation * Reader) :=
  let! '(period, r) := Reader_u32 r in
  fail_if (period =? 0) || (max_period limits <? period) with Malformed ;;
  let! '(pattern, r) := Reader_take r period in
  let! '(count, r) := Reader_u32 r in
  let! '(tail_len, r) := Reader_u32 r in
  fail_if period <=? tail_len with Malformed ;;
  let! '(tail, r) := Reader_take r tail_len in
  Ok (Periodic period pattern count tail len, r).

Definition decode_entropy_ref (r : Reader) (len : Z) : result CodecError (Representation * Reader) :=
  let! '(u, r) := Reader_u8 r in
  let! universe := ok_or (UniverseId_from_u8 u) Malformed in
  let! '(seed, r) := read_seed r in
  let! '(coordinate, r) := Reader_u64 r in
  let! '(t, r) := Reader_u8 r in
  let! transform := ok_or (TransformId_from_u8 t) Malformed in
  let! '(residual, r) := decode_residual r len in
  Ok (EntropyRef universe seed coordinate transform residual len, r).

Definition decode_permutation (r : Reader) (len : Z) : result CodecError (Representation * Reader) :=
  let! '(rank, r) := Reader_u128 r in
  let! '(alphabet, r) := Reader_take r len in
  Ok (Permutation rank alphabet len, r).

Definition decode_sequence_rans (r : Reader) (len : Z)
  : result CodecError (Representation * Reader) :=
  let! '(model, r) := read_id r in
  let! '(enc_obj, r) := read_id r in
  let! '(scale_bits, r) := Reader_u8 r in
  let! '(codec, r) := read_codec r in
  let! '(seq_len, r) := Reader_u32 r in
  let! '(lit_len, r) := Reader_u32 r in
  let! '(off_len, r) := Reader_u32 r in
  let! '(cmds, r) := Reader_u32 r in
  let! '(lit_out, r) := Reader_u32 r in
  Ok (SequenceRans model enc_obj scale_bits codec seq_len lit_len off_len cmds lit_out len, r).

Definition decode_sparse_block64 (r : Reader) (len : Z)
  : result CodecError (Representation * Reader) :=
  let! '(model, r) := read_id r in
  let! '(enc_obj, r) := read_id r in
  let! '(scale_bits, r) := Reader_u8 r in
  let! '(codec, r) := read_codec r in
  let! '(pc_len, r) := Reader_u32 r in
  let! '(rank_len, r) := Reader_u32 r in
  let! '(lit_len, r) := Reader_u32 r in
  let! '(words, r) := Reader_u32 r in
  let! '(nonzero, r) := Reader_u32 r in
  let! '(lit_out, r) := Reader_u32 r in
  Ok (SparseBlock64 model enc_obj scale_bits codec pc_len rank_len lit_len words nonzero
        lit_out len, r).

Definition decode_sequence_dict (r : Reader) (len : Z)
  : result CodecError (Representation * Reader) :=
  let! '(dictionary, r) := read_id r in
  let! '(dictionary_len, r) := Reader_u32 r in
  let! '(model, r) := read_id r in
  let! '(enc_obj, r) := read_id r in
  let! '(scale_bits, r) := Reader_u8 r in
  let! '(codec, r) := read_codec r in
  let! '(seq_len, r) := Reader_u32 r in
  let! '(lit_len, r) := Reader_u32 r in
  let! '(off_len, r) := Reader_u32 r in
  let! '(src_len, r) := Reader_u32 r in
  let! '(cmds, r) := Reader_u32 r in
  let! '(lit_out, r) := Reader_u32 r in
  Ok (SequenceDict dictionary dictionary_len model enc_obj scale_bits codec seq_len lit_len
        off_len src_len cmds lit_out len, r).

Definition decode_sequence_shared_dict (r : Reader) (len : Z)
  : result CodecError (Representation * Reader) :=
  let! '(dictionary, r) := read_id r in
  let! '(dictionary_len, r) := Reader_u32 r in
  let! '(shared, r) := read_id r in
  let! '(shared_len, r) := Reader_u32 r in
  let! '(model, r) := read_id r in
  let! '(enc_obj, r) := read_id r in
  let! '(scale_bits, r) := Reader_u8 r in
  let! '(codec, r) := read_codec r in
  let! '(seq_len, r) := Reader_u32 r in
  let! '(lit_len, r) := Reader_u32 r in
  let! '(off_len, r) := Reader_u32 r in
  let! '(src_len, r) := Reader_u32 r in
  let! '(cmds, r) := Reader_u32 r in
  let! '(lit_out, r) := Reader_u32 r in
  Ok (SequenceSharedDict dictionary dictionary_len shared shared_len model enc_obj scale_bits
        codec seq_len lit_len off_len src_len cmds lit_out len, r).

Definition decode_sequence_deep (r : Reader) (len : Z)
  : result CodecError (Representation * Reader) :=
  let! '(model, r) := read_id r in
  let! '(enc_obj, r) := read_id r in
  let! '(scale_bits, r) := Reader_u8 r in
  let! '(codec, r) := read_codec r in
  let! '(seq_len, r) := Reader_u32 r in
  let! '(lit_len, r) := Reader_u32 r in
  let! '(off_len, r) := Reader_u32 r in
  let! '(len_len, r) := Reader_u32 r in
  let! '(cmds, r) := Reader_u32 r in
  let! '(lit_out, r) := Reader_u32 r in
  Ok (SequenceDeep model enc_obj scale_bits codec seq_len lit_len off_len len_len cmds lit_out
        len, r).

(** Stage 3: the tag dispatch. *)
Definition decode_payload (tag : Z) (r : Reader) (len : Z)
  : result CodecError (Representation * Reader) :=
  if tag =? TAG_ZERO then Ok (Zero len, r)
  else if tag =? TAG_FILL then let! '(value, r) := Reader_u8 r in Ok (Fill value len, r)
  else if tag =? TAG_INLINE then decode_inline r len
  else if tag =? TAG_RAW then let! '(obj, r) := read_id r in Ok (Raw obj len, r)
  else if tag =? TAG_RANS then decode_rans_arm r len
  else if tag =? TAG_EXACT_REF then decode_exact_ref r len
  else if tag =? TAG_BASE_RESIDUAL then decode_base_residual r len
  else if tag =? TAG_SPARSE then decode_sparse r len
  else if tag =? TAG_PALETTE then decode_palette r len
  else if tag =? TAG_PERIODIC then decode_periodic r len
  else if tag =? TAG_ENTROPY_REF then decode_entropy_ref r len
  else if tag =? TAG_PERMUTATION then decode_permutation r len
  else if tag =? TAG_SEQUENCE_RANS then decode_sequence_rans r len
  else if tag =? TAG_SPARSE_BLOCK64 then decode_sparse_block64 r len
  else if tag =? TAG_SEQUENCE_DICT then decode_sequence_dict r len
  else if tag =? TAG_SEQUENCE_SHARED_DICT then decode_sequence_shared_dict r len
  else if tag =? TAG_SEQUENCE_DEEP then decode_sequence_deep r len
  else Err Malformed.

Definition decode_error (e : ReprError) : CodecError :=
  match e with DescriptorTooLarge | ChunkTooLarge => TooLong | _ => Malformed end.

Definition decode (b : bytes) : result CodecError Representation :=
  fail_if max_descriptor_bytes limits <? zlen b with TooLong ;;
  let r := Reader_new b in
  let! '(tag, r) := Reader_u8 r in
  let! '(len, r) := Reader_u32 r in
  fail_if max_chunk_size limits <? len with TooLong ;;
  let! '(rep, r) := decode_payload tag r len in
  fail_if negb (Reader_done r) with Malformed ;;
  let! _ := map_err decode_error (Representation_validate limits rep) in
  Ok rep.
End Decode.

(** * The wire table

    The payload columns of the on-disk format, family by family, as one
    byte string; [encode] writes exactly these bytes. *)

Definition edit_bytes (e : Edit) : bytes := to_le 4 (pos e) ++ [val e].
Definition change_bytes (c : RangeChange) : bytes := to_le 4 (start c) ++ to_le 4 (end_ c).

Definition streams_bytes (model enc_obj : ChunkId) (scale_bits : Z) (codec : RansCodec) : bytes :=
  model ++ enc_obj ++ [scale_bits; RansCodec_tag codec].

Definition residual_bytes (r : Residual) : bytes :=
  match r with
  | XorSparse _ edits => 1 :: to_le 4 (wrap 32 (zlen edits)) ++ flat_map edit_bytes edits
  | RangeReplace _ changes literals =>
      2 :: to_le 4 (wrap 32 (zlen changes)) ++ flat_map change_bytes changes ++ literals
  | RansCoded _ enc_obj model scale_bits codec decoded_len =>
      3 :: streams_bytes enc_obj model scale_bits codec ++ to_le 4 (wrap 32 decoded_len)
  | BaseSequence _ enc_obj model scale_bits codec seq_len lit_len off_len cmds lit_out =>
      4 :: streams_bytes enc_obj model scale_bits codec ++
        flat_map (to_le 4) [seq_len; lit_len; off_len; cmds; lit_out]
  end.

Definition payload_bytes (rep : Representation) : bytes :=
  match rep with
  | Zero _ => []
  | Fill value _ => [value]
  | Inline data => data
  | Raw obj _ => obj
  | Rans model enc_obj scale_bits codec _ => streams_bytes model enc_obj scale_bits codec
  | ExactRef target off _ => target ++ to_le 4 (wrap 32 off)
  | BaseResidual base base_len residual _ =>
      base ++ to_le 4 (wrap 32 base_len) ++ residual_bytes residual
  | Sparse k rank literals _ => to_le 4 k ++ to_le 16 rank ++ literals
  | Palette palette counts rank _ =>
      wrap 8 (zlen palette) :: palette ++ flat_map (to_le 4) counts ++ to_le 16 rank
  | Periodic period pattern count tail _ =>
      to_le 4 period ++ pattern ++ to_le 4 count ++ to_le 4 (wrap 32 (zlen tail)) ++ tail
  | EntropyRef universe seed coordinate transform residual _ =>
      UniverseId_tag universe :: seed ++ to_le 8 coordinate ++
        TransformId_tag transform :: residual_bytes residual
  | Permutation rank alphabet _ => to_le 16 rank ++ alphabet
  | SequenceRans model enc_obj scale_bits codec seq_len lit_len off_len cmds lit_out _ =>
      streams_bytes model enc_obj scale_bits codec ++
        flat_map (to_le 4) [seq_len; lit_len; off_len; cmds; lit_out]
  | SparseBlock64 model enc_obj scale_bits codec pc_len rank_len lit_len words nonzero lit_out _ =>
      streams_bytes model enc_obj scale_bits codec ++
        flat_map (to_le 4) [pc_len; rank_len; lit_len; words; nonzero; lit_out]
  | SequenceDict dictionary dictionary_len model enc_obj scale_bits codec seq_len lit_len off_len
      src_len cmds lit_out _ =>
      dictionary ++ to_le 4 dictionary_len ++ streams_bytes model enc_obj scale_bits codec ++
        flat_map (to_le 4) [seq_len; lit_len; off_len; src_len; cmds; lit_out]
  | SequenceSharedDict dictionary dictionary_len shared shared_len model enc_obj scale_bits codec
      seq_len lit_len off_len src_len cmds lit_out _ =>
      dictionary ++ to_le 4 dictionary_len ++ shared ++ to_le 4 shared_len ++
        streams_bytes model enc_obj scale_bits codec ++
        flat_map (to_le 4) [seq_len; lit_len; off_len; src_len; cmds; lit_out]
  | SequenceDeep model enc_obj scale_bits codec seq_len lit_len off_len len_len cmds lit_out _ =>
      streams_bytes model enc_obj scale_bits codec ++
        flat_map (to_le 4) [seq_len; lit_len; off_len; len_len; cmds; lit_out]
  end.

Definition rep_bytes (rep : Representation) : bytes :=
  Representation_tag rep :: to_le 4 (wrap 32 (Representation_len rep)) ++ payload_bytes rep.

Definition palette_fits (rep : Representation) : bool :=
  match rep with Palette palette _ _ _ => zlen palette <=? 255 | _ => true end.

Lemma write_u32s_buf w vs : w_buf (write_u32s w vs) = w_buf w ++ flat_map (to_le 4) vs.
Proof.
  revert w. induction vs as [|v vs IH]; intros w; cbn [write_u32s flat_map]; [by rewrite app_nil_r|].
  rewrite IH. cbn [Writer_u32 w_buf]. by rewrite app_assoc.
Qed.

Lemma write_edits_buf w edits : w_buf (write_edits w edits) = w_buf w ++ flat_map edit_bytes edits.
Proof.
  revert w. induction edits as [|e edits IH]; intros w; cbn [write_edits flat_map]; [by rewrite app_nil_r|].
  rewrite IH. cbn [Writer_u32 Writer_u8 w_buf]. unfold edit_bytes. by rewrite !app_assoc.
Qed.

Lemma write_changes_buf w cs : w_buf (write_changes w cs) = w_buf w ++ flat_map change_bytes cs.
Proof.
  revert w. induction cs as [|c cs IH]; intros w; cbn [write_changes flat_map]; [by rewrite app_nil_r|].
  rewrite IH. cbn [Writer_u32 w_buf]. unfold change_bytes. by rewrite !app_assoc.
Qed.

Lemma encode_residual_bytes w r :
  exists w', encode_residual w r = Ok w' /\ w_buf w' = w_buf w ++ residual_bytes r.
Proof.
  destruct r; eexists; (split; [reflexivity|]);
    rewrite ?write_edits_buf, ?write_u32s_buf; unfold Writer_bytes; cbn [w_buf];
    rewrite ?write_changes_buf;
    unfold residual_bytes, streams_bytes; cbn [Writer_u8 Writer_u32 w_buf];
    rewrite <-!app_assoc; reflexivity.
Qed.

(** [encode] writes the wire table; its only refusal is a palette of more
    than 255 symbols. *)
Lemma encode_bytes rep :
  encode rep = if palette_fits rep then Ok (rep_bytes rep) else Err Malformed.
Proof.
  unfold encode, Writer_into_bytes.
  destruct rep; cbn [encode_rep rbind palette_fits];
    unfold encode_sequence_rans, encode_sparse_block64, encode_sequence_dict,
      encode_sequence_shared_dict, encode_sequence_deep; cbn [rbind];
    try (rewrite ?write_u32s_buf; unfold write_streams, write_prefix, Writer_bytes;
      cbn [Writer_u8 Writer_u32 Writer_u128 Writer_new w_buf];
      unfold rep_bytes; cbn [payload_bytes Representation_tag Representation_len];
      unfold streams_bytes; rewrite <-!app_assoc; reflexivity).
  - edestruct encode_residual_bytes as (w' & -> & Hw). cbn [rbind]. f_equal. rewrite Hw.
    unfold write_prefix, Writer_bytes. cbn [Writer_u8 Writer_u32 Writer_new w_buf].
    rewrite <-!app_assoc. reflexivity.
  - rewrite Z.ltb_antisym. destruct (zlen palette <=? 255); [|done]. cbn [negb rbind Writer_u128 w_buf].
    rewrite write_u32s_buf. unfold write_prefix, Writer_bytes. cbn [Writer_u8 Writer_u32 Writer_new w_buf].
    rewrite <-!app_assoc. reflexivity.
  - edestruct encode_residual_bytes as (w' & -> & Hw). cbn [rbind]. f_equal. rewrite Hw.
    unfold write_prefix, Writer_bytes. cbn [Writer_u8 Writer_u32 Writer_u64 Writer_new w_buf].
    rewrite <-!app_assoc. reflexivity.
Qed.

Lemma zlen_flat_map {A} (f : A -> bytes) (k : Z) l :
  (forall x, zlen (f x) = k) -> zlen (flat_map f l) = k * zlen l.
Proof.
  intros H. induction l as [|x l IH]; cbn [flat_map]; [by rewrite !(@zlen_nil A), Z.mul_0_r|].
  rewrite zlen_app, zlen_cons, IH, H. lia.
Qed.
Lemma zlen_u32s vs : zlen (flat_map (to_le 4) vs) = 4 * zlen vs.
Proof. apply zlen_flat_map. intros. apply zlen_to_le. Qed.
Lemma zlen_edits es : zlen (flat_map edit_bytes es) = 5 * zlen es.
Proof. apply zlen_flat_map. intros. unfold edit_bytes. by autorewrite with zlen. Qed.
Lemma zlen_changes cs : zlen (flat_map change_bytes cs) = 8 * zlen cs.
Proof. apply zlen_flat_map. intros. unfold change_bytes. by autorewrite with zlen. Qed.
#[local] Hint Rewrite zlen_u32s zlen_edits zlen_changes : zlen.

Lemma wf_id_zlen id : wf_id id -> zlen id = 32.
Proof. intros [H _]. unfold zlen. by rewrite H. Qed.

Ltac wf_ids :=
  repeat match goal with
  | H : wf_id ?id |- _ =>
      lazymatch goal with
      | _ : zlen id = 32 |- _ => fail
      | _ => pose proof (wf_id_zlen id H)
      end
  end.

Lemma residual_bytes_size r : wf_residual r -> zlen (residual_bytes r) = Residual_encoded_size r.
Proof.
  destruct r; cbn [wf_residual residual_bytes Residual_encoded_size]; intros; destruct_and?;
    wf_ids; unfold streams_bytes; autorewrite with zlen; lia.
Qed.

(** The size mirror: the encoder emits exactly [encoded_size] bytes for every
    descriptor that passes validation. *)
Lemma rep_bytes_size limits rep :
  wf_repr rep -> Representation_validate limits rep = Ok tt ->
  zlen (rep_bytes rep) = Representation_encoded_size rep.
Proof.
  intros Hwf Hv. destruct rep; cbn [wf_repr] in Hwf; destruct_and?; wf_ids;
    unfold rep_bytes, streams_bytes; cbn [payload_bytes Representation_tag Representation_len];
    unfold Representation_encoded_size, streams_bytes; autorewrite with zlen; try lia.
  - rewrite residual_bytes_size by done. lia.
  - validate_destruct Hv. lia.
  - rewrite residual_bytes_size by done. lia.
Qed.

(** * Round trip *)

(** The reads a decoder performs, run against the bytes the encoder wrote. *)
Ltac norm_at Hat := repeat (progress (rewrite <-?app_assoc in Hat; cbn [app] in Hat)).
Ltac eval_tag :=
  match goal with
  | |- context [Z.eqb ?a ?b] =>
      let v := eval vm_compute in (Z.eqb a b) in
      lazymatch v with
      | true => change (Z.eqb a b) with true
      | false => change (Z.eqb a b) with false
      end; cbv beta iota
  end.
Ltac rd_step :=
  match goal with
  | Hat : reader_at ?r (?v :: ?l) |- context [Reader_u8 ?r] =>
      let r' := fresh "r" in let E := fresh "E" in let H := fresh "Hat" in
      destruct (Reader_u8_ok r v l Hat) as (r' & E & H); rewrite E; clear E Hat; cbn [rbind]
  | Hat : reader_at ?r (to_le 4 ?v ++ ?l) |- context [Reader_u32 ?r] =>
      let r' := fresh "r" in let E := fresh "E" in let H := fresh "Hat" in
      destruct (Reader_u32_ok r v l Hat) as (r' & E & H); [width | rewrite E; clear E Hat; cbn [rbind]]
  | Hat : reader_at ?r (to_le 8 ?v ++ ?l) |- context [Reader_u64 ?r] =>
      let r' := fresh "r" in let E := fresh "E" in let H := fresh "Hat" in
      destruct (Reader_u64_ok r v l Hat) as (r' & E & H); [width | rewrite E; clear E Hat; cbn [rbind]]
  | Hat : reader_at ?r (to_le 16 ?v ++ ?l) |- context [Reader_u128 ?r] =>
      let r' := fresh "r" in let E := fresh "E" in let H := fresh "Hat" in
      destruct (Reader_u128_ok r v l Hat) as (r' & E & H); [width | rewrite E; clear E Hat; cbn [rbind]]
  | Hat : reader_at ?r (?s ++ ?l) |- context [Reader_take ?r ?n] =>
      let r' := fresh "r" in let E := fresh "E" in let H := fresh "Hat" in
      destruct (Reader_take_ok r s l n Hat) as (r' & E & H); [lia | rewrite E; clear E Hat; cbn [rbind]]
  end.
Ltac rd := repeat (unfold read_id, read_seed, read_codec; first [eval_tag | rd_step];
                   rewrite ?RansCodec_from_tag; cbn [rbind ok_or]).

Lemma decode_edits_ok edits r l :
  Forall wf_edit edits -> reader_at r (flat_map edit_bytes edits ++ l) ->
  exists r', decode_edits (length edits) r = Ok (edits, r') /\ reader_at r' l.
Proof.
  intros Hwf. revert r. induction Hwf as [|[p v] edits [Hp Hv] _ IH]; intros r Hat;
    cbn [decode_edits length flat_map] in *; [by exists r|].
  unfold edit_bytes in Hat. cbn [pos val] in *. norm_at Hat. rd.
  edestruct IH as (r' & E & H'); [eassumption|]. rewrite E. by exists r'.
Qed.

Lemma decode_changes_ok cs r l :
  Forall wf_change cs -> reader_at r (flat_map change_bytes cs ++ l) ->
  exists r', decode_changes (length cs) r = Ok (cs, r') /\ reader_at r' l.
Proof.
  intros Hwf. revert r. induction Hwf as [|[p v] cs [Hp Hv] _ IH]; intros r Hat;
    cbn [decode_changes length flat_map] in *; [by exists r|].
  unfold change_bytes in Hat. cbn [start end_] in *. norm_at Hat. rd.
  edestruct IH as (r' & E & H'); [eassumption|]. rewrite E. by exists r'.
Qed.

Lemma decode_counts_ok cs r l :
  Forall is_u32 cs -> reader_at r (flat_map (to_le 4) cs ++ l) ->
  exists r', decode_counts (length cs) r = Ok (cs, r') /\ reader_at r' l.
Proof.
  intros Hwf. revert r. induction Hwf as [|c cs Hc _ IH]; intros r Hat;
    cbn [decode_counts length flat_map] in *; [by exists r|].
  norm_at Hat. rd. edestruct IH as (r' & E & H'); [eassumption|]. rewrite E. by exists r'.
Qed.

(** The validator's running literal total agrees with the decoder's. *)
Lemma validate_changes_total repr_len prev acc cs total :
  validate_changes repr_len prev acc cs = Ok total -> literal_total acc cs = Ok total.
Proof.
  revert prev acc. induction cs as [|c cs IH]; intros prev acc H; cbn [validate_changes literal_total] in *;
    [by simplify_eq|].
  inv_ok H. apply ok_or_Ok_inv, checked_add_Some in Hok as [-> _]. bools.
  destruct (Z.leb_spec (end_ c) (start c)); [lia|]. by eapply IH.
Qed.

Lemma decode_residual_ok limits res r l :
  wf_limits limits -> wf_residual res -> Residual_validate limits res (Residual_len res) = Ok tt ->
  (Residual_len res < 2 ^ 32) ->
  reader_at r (residual_bytes res ++ l) ->
  exists r', decode_residual r (Residual_len res) = Ok (res, r') /\ reader_at r' l.
Proof.
  intros Hl Hwf Hv H32 Hat. pose proof (wfl_fanout _ Hl).
  unfold decode_residual. unfold Residual_validate in Hv.
  destruct res; cbn [wf_residual residual_bytes Residual_len] in *; destruct_and?; wf_ids;
    unfold streams_bytes in Hat; norm_at Hat; inv_ok Hv; bools.
  - pose proof (zlen_nonneg edits). rewrite (wrap_small 32) in Hat by width. rd.
    rewrite to_nat_zlen. edestruct decode_edits_ok as (r' & E & H'); [eassumption..|].
    rewrite E. by exists r'.
  - pose proof (zlen_nonneg changes). rewrite (wrap_small 32) in Hat by width. rd.
    rewrite to_nat_zlen. edestruct decode_changes_ok as (r' & E & H'); [eassumption..|].
    rewrite E. cbn [rbind]. erewrite validate_changes_total by eassumption. cbn [rbind]. rd. eauto.
  - rewrite (wrap_small 32) in Hat by width. rd. subst. eauto.
  - cbn [flat_map] in Hat. norm_at Hat.
    foralls. rd. eauto.
Qed.

(** Limits under which every length the codec writes fits its wire field;
    the defaults qualify. *)
Record codec_limits (limits : Limits) : Prop := {
  cl_wf : wf_limits limits;
  cl_chunk : max_chunk_size limits < 2 ^ 32;
  cl_inline : max_inline_bytes limits <= max_chunk_size limits;
  cl_palette : max_palette limits <= 255;
  cl_desc : max_descriptor_bytes limits < 2 ^ 63
}.

Lemma codec_limits_default : codec_limits Limits_default.
Proof. split; [apply wf_limits_default | ..]; cbn; lia. Qed.

(** The two [u64] fields stored as [u32]: [off as u32] and
    [base_len as u32]. *)
Definition wire_fits (rep : Representation) : Prop :=
  match rep with
  | ExactRef _ off _ => is_u32 off
  | BaseResidual _ base_len _ _ => is_u32 base_len
  | _ => True
  end.
#[export] Instance wire_fits_dec rep : Decision (wire_fits rep).
Proof. destruct rep; apply _. Defined.

Lemma Residual_validate_len limits res len :
  Residual_validate limits res len = Ok tt -> Residual_len res = len.
Proof. unfold Residual_validate. intros H. inv_ok_step H. by bools. Qed.

Lemma decode_payload_ok limits rep r l :
  codec_limits limits -> wf_repr rep -> wire_fits rep ->
  Representation_validate limits rep = Ok tt ->
  reader_at r (payload_bytes rep ++ l) ->
  exists r', decode_payload limits (Representation_tag rep) r (Representation_len rep) = Ok (rep, r')
             /\ reader_at r' l.
Proof.
  intros [Hl Hchunk Hinl Hpal Hdesc] Hwf Hfit Hv Hat. unfold decode_payload.
  destruct rep; cbn [wf_repr payload_bytes Representation_tag Representation_len wire_fits] in *;
    destruct_and?; foralls; wf_ids; unfold streams_bytes in Hat; cbn [flat_map] in Hat;
    norm_at Hat; validate_destruct Hv; repeat eval_tag;
    unfold decode_inline, decode_rans_arm, decode_exact_ref, decode_base_residual, decode_sparse,
      decode_permutation, decode_entropy_ref, decode_sequence_rans,
      decode_sparse_block64, decode_sequence_dict, decode_sequence_shared_dict,
      decode_sequence_deep; try (rd; eauto; fail).
  - pass_if. rd. eauto.
  - rewrite (wrap_small 32) in Hat by done. rd. eauto.
  - rewrite (wrap_small 32) in Hat by done. rd.
    apply Residual_validate_len in Hv as Hlen. subst len.
    edestruct decode_residual_ok as (r' & E & H'); [eassumption..|lia|eassumption|].
    rewrite E. cbn [rbind]. eauto.
  - unfold decode_palette. pose proof (zlen_nonneg palette).
    rewrite (wrap_small 8) in Hat by width. rd. pass_if. rd.
    replace (Z.to_nat (zlen palette)) with (length counts) by (unfold zlen in *; lia).
    edestruct decode_counts_ok as (r' & E & H'); [eassumption..|]. rewrite E. cbn [rbind]. rd. eauto.
  - unfold decode_periodic. pose proof (wfl_period _ Hl). pose proof (zlen_nonneg tail).
    rewrite (wrap_small 32) in Hat by width. rd. pass_if. rd. pass_if. rd. eauto.
  - destruct universe, transform. rd. cbn [UniverseId_from_u8 TransformId_from_u8].
    apply Residual_validate_len in Hv as Hlen. subst len.
    edestruct decode_residual_ok as (r' & E & H'); [eassumption..|lia|eassumption|].
    rewrite E. cbn [rbind]. eauto.
Qed.

(** * Canonical re-encoding

    What a successful parse has consumed, read by read. *)
Lemma codec_inv r l c r' :
  reader_at r l -> wf_bytes l -> read_codec r = Ok (c, r') ->
  exists l', l = RansCodec_tag c :: l' /\ reader_at r' l' /\ wf_bytes l' /\ True.
Proof.
  intros Hat Hwf H. unfold read_codec in H. inv_ok H. apply ok_or_Ok_inv, RansCodec_tag_inv in Hok0.
  subst.
  destruct (Reader_u8_inv _ _ _ _ Hat Hwf Hok) as (l' & -> & ? & ? & _). eauto 6.
Qed.

Ltac rd_inv_step :=
  first
  [ read_inv_step
  | lazymatch goal with
    | Hat : reader_at ?r ?l, Hwf : wf_bytes ?l, H : read_codec ?r = Ok _ |- _ =>
        apply (codec_inv _ _ _ _ Hat Hwf) in H; clear Hat Hwf
    end; read_inv_split ].
Ltac rd_inv := unfold read_id, read_seed in *; repeat rd_inv_step.

Lemma id_wf (s : bytes) : zlen s = 32 -> wf_bytes s -> wf_id s.
Proof. intros Hs Hw. split; [unfold zlen in Hs; lia | done]. Qed.

Lemma decode_edits_inv n r l es r' :
  reader_at r l -> wf_bytes l -> decode_edits n r = Ok (es, r') ->
  exists l', l = flat_map edit_bytes es ++ l' /\ reader_at r' l' /\ wf_bytes l' /\
    (length es = n /\ Forall wf_edit es).
Proof.
  revert r l es. induction n as [|n IH]; intros r l es Hat Hwf H; cbn [decode_edits] in H.
  - inv_ok H. eexists; by split_and!.
  - inv_ok H. rd_inv. apply (IH _ _ _ Hat Hwf) in Hok1 as (l' & -> & Ha & Hw & <- & He).
    exists l'. cbn [flat_map length]. unfold edit_bytes at 2. cbn [pos val].
    rewrite <-!app_assoc. split_and!; try done. by constructor.
Qed.

Lemma decode_changes_inv n r l cs r' :
  reader_at r l -> wf_bytes l -> decode_changes n r = Ok (cs, r') ->
  exists l', l = flat_map change_bytes cs ++ l' /\ reader_at r' l' /\ wf_bytes l' /\
    (length cs = n /\ Forall wf_change cs).
Proof.
  revert r l cs. induction n as [|n IH]; intros r l cs Hat Hwf H; cbn [decode_changes] in H.
  - inv_ok H. eexists; by split_and!.
  - inv_ok H. rd_inv. apply (IH _ _ _ Hat Hwf) in Hok1 as (l' & -> & Ha & Hw & <- & He).
    exists l'. cbn [flat_map length]. unfold change_bytes at 2. cbn [start end_].
    rewrite <-!app_assoc. split_and!; try done. by constructor.
Qed.

Lemma decode_counts_inv n r l cs r' :
  reader_at r l -> wf_bytes l -> decode_counts n r = Ok (cs, r') ->
  exists l', l = flat_map (to_le 4) cs ++ l' /\ reader_at r' l' /\ wf_bytes l' /\
    (length cs = n /\ Forall is_u32 cs).
Proof.
  revert r l cs. induction n as [|n IH]; intros r l cs Hat Hwf H; cbn [decode_counts] in H.
  - inv_ok H. eexists; by split_and!.
  - inv_ok H. rd_inv. apply (IH _ _ _ Hat Hwf) in Hok0 as (l' & -> & Ha & Hw & <- & He).
    exists l'. cbn [flat_map length]. rewrite <-!app_assoc. split_and!; try done. by constructor.
Qed.

Lemma literal_total_nonneg acc cs t : 0 <= acc -> literal_total acc cs = Ok t -> 0 <= t.
Proof.
  revert acc. induction cs as [|c cs IH]; intros acc Ha H; cbn [literal_total] in H; inv_ok H; [done|].
  bools. eapply IH; [|done]. lia.
Qed.

Lemma zlen_of_count {A} (l : list A) w z : length l = Z.to_nat z -> in_width w z -> wrap w (zlen l) = z.
Proof. intros E H. replace (zlen l) with z; [by apply wrap_small|]. unfold zlen. width. Qed.

(** Closes the facts a payload parser leaves: ids, widths, field lists. *)
Ltac wf_done :=
  cbn [wf_residual Residual_len wf_repr Representation_len Representation_tag wire_fits];
  split_and?; try done;
  repeat match goal with
  | |- Forall _ (_ :: _) => apply Forall_cons_2
  | |- Forall _ [] => apply Forall_nil_2
  | |- wf_id _ => apply id_wf
  end; try done; try width.

Lemma decode_residual_inv r l len res r' :
  reader_at r l -> wf_bytes l -> is_u32 len -> decode_residual r len = Ok (res, r') ->
  exists l', l = residual_bytes res ++ l' /\ reader_at r' l' /\ wf_bytes l' /\
    (Residual_len res = len /\ wf_residual res).
Proof.
  intros Hat Hwf Hlen H. unfold decode_residual in H. inv_ok_step H. destruct v as [kind r0].
  repeat match type of H with
  | (if ?a =? ?b then _ else _) = _ => destruct (Z.eqb_spec a b) as [->|?]
  end; inv_ok H; rd_inv.
  - destruct (decode_edits_inv _ _ _ _ _ Hat Hwf Hok1) as (l' & -> & Ha & Hw & Hn & He).
    exists l'. unfold residual_bytes. erewrite zlen_of_count by eassumption.
    rewrite <-?app_assoc. split; [by rewrite <-app_comm_cons, <-!app_assoc|]. wf_done.
  - destruct (decode_changes_inv _ _ _ _ _ Hat Hwf Hok1) as (l' & -> & Ha & Hw & Hn & He).
    apply literal_total_nonneg in Hok2 as Ht; [|done]. rd_inv. destruct_and?.
    eexists. unfold residual_bytes. erewrite zlen_of_count by eassumption.
    split; [by rewrite <-app_comm_cons, <-!app_assoc|]. wf_done.
  - destruct_and?. eexists. unfold residual_bytes, streams_bytes. rewrite wrap_small by done.
    split; [by rewrite <-app_comm_cons, <-!app_assoc|]. wf_done.
  - destruct_and?. eexists. unfold residual_bytes, streams_bytes. cbn [flat_map].
    split; [by rewrite <-app_comm_cons, <-!app_assoc|]. wf_done.
Qed.

Lemma u32_u64 z : is_u32 z -> is_u64 z.
Proof. by apply in_width_mono. Qed.

Lemma UniverseId_tag_inv v u : UniverseId_from_u8 v = Some u -> UniverseId_tag u = v.
Proof. unfold UniverseId_from_u8. destruct (Z.eqb_spec v 1); intros; by simplify_eq. Qed.
Lemma TransformId_tag_inv v u : TransformId_from_u8 v = Some u -> TransformId_tag u = v.
Proof. unfold TransformId_from_u8. destruct (Z.eqb_spec v 0); intros; by simplify_eq. Qed.

Lemma decode_payload_inv limits tag r l len rep r' :
  reader_at r l -> wf_bytes l -> is_u32 len ->
  decode_payload limits tag r len = Ok (rep, r') ->
  exists l', l = payload_bytes rep ++ l' /\ reader_at r' l' /\ wf_bytes l' /\
    (tag = Representation_tag rep /\ Representation_len rep = len /\ wf_repr rep /\
     wire_fits rep /\ palette_fits rep = true).
Proof.
  intros Hat Hwf Hlen H. apply u32_u64 in Hlen as Hlen64. unfold decode_payload in H.
  repeat match type of H with
  | (if ?a =? ?b then _ else _) = _ => destruct (Z.eqb_spec a b) as [->|?]
  end;
  unfold decode_inline, decode_rans_arm, decode_exact_ref, decode_base_residual, decode_sparse,
    decode_palette, decode_periodic, decode_entropy_ref, decode_permutation, decode_sequence_rans,
    decode_sparse_block64, decode_sequence_dict, decode_sequence_shared_dict,
    decode_sequence_deep in H; inv_ok H; rd_inv; destruct_and?;
  try (eexists; unfold payload_bytes, streams_bytes; cbn [flat_map];
       split; [by rewrite <-?app_comm_cons, <-?app_assoc|]; wf_done; fail).
  - exists l. unfold payload_bytes. rewrite wrap_small by done.
    split; [by rewrite <-app_assoc|]. apply u32_u64 in Hx0 as ?. wf_done.
  - destruct (decode_residual_inv _ _ _ _ _ Hat Hwf Hlen Hok1) as (l' & -> & ? & ? & <- & ?).
    exists l'. unfold payload_bytes. rewrite wrap_small by done.
    split; [by rewrite <-!app_assoc|]. apply u32_u64 in Hx0 as ?. wf_done.
  - destruct (decode_counts_inv _ _ _ _ _ Hat Hwf Hok1) as (l' & -> & Hat' & Hwf' & Hn & ?).
    clear Hat Hwf. rd_inv. eexists. unfold payload_bytes. subst z.
    rewrite wrap_small by done.
    split; [by rewrite <-!app_comm_cons, <-!app_assoc|].
    assert (palette_fits (Palette l0 l1 z0 len) = true) by (cbn; width). wf_done.
  - exists l2. unfold payload_bytes. subst z z1. rewrite wrap_small by done.
    split; [by rewrite <-!app_assoc|]. wf_done.
  - apply ok_or_Ok_inv, UniverseId_tag_inv in Hok0. apply ok_or_Ok_inv, TransformId_tag_inv in Hok4.
    destruct (decode_residual_inv _ _ _ _ _ Hat Hwf Hlen Hok5) as (l' & -> & ? & ? & <- & ?).
    exists l'. unfold payload_bytes. subst z z1.
    split; [by rewrite <-!app_comm_cons, <-!app_assoc|]. wf_done.
Qed.

(** * The module's invariants *)

Lemma palette_validated limits rep :
  codec_limits limits -> Representation_validate limits rep = Ok tt -> palette_fits rep = true.
Proof.
  intros Hl Hv. destruct rep; try done. validate_destruct Hv. cbn. pose proof (cl_palette _ Hl). lia.
Qed.

Lemma len_u32 limits rep :
  codec_limits limits -> Representation_validate limits rep = Ok tt -> wf_repr rep ->
  is_u32 (Representation_len rep).
Proof.
  intros [Hl Hc Hi _ _] Hv Hwf. apply validate_len in Hv; [|done]. split; [|lia].
  destruct rep; cbn [wf_repr Representation_len] in *; destruct_and?; try width.
  apply zlen_nonneg.
Qed.

(** The parser on the bytes of a validated descriptor followed by [t]. *)
Lemma decode_payload_rep limits rep t :
  codec_limits limits -> wf_repr rep -> wire_fits rep ->
  Representation_validate limits rep = Ok tt ->
  zlen (rep_bytes rep ++ t) < 2 ^ 63 ->
  exists r0 r1 r2,
    Reader_u8 (Reader_new (rep_bytes rep ++ t)) = Ok (Representation_tag rep, r0) /\
    Reader_u32 r0 = Ok (Representation_len rep, r1) /\
    decode_payload limits (Representation_tag rep) r1 (Representation_len rep) = Ok (rep, r2) /\
    reader_at r2 t.
Proof.
  intros Hl Hwf Hfit Hv Hlen. pose proof (len_u32 _ _ Hl Hv Hwf) as H32.
  apply Reader_new_at in Hlen as Hat. unfold rep_bytes in *. rewrite wrap_small in * by done.
  norm_at Hat. destruct (Reader_u8_ok _ _ _ Hat) as (r0 & E0 & Hat0).
  destruct (Reader_u32_ok _ _ _ Hat0 H32) as (r1 & E1 & Hat1).
  destruct (decode_payload_ok _ _ _ _ Hl Hwf Hfit Hv Hat1) as (r2 & E2 & Hat2). eauto 8.
Qed.

(** What a successful decode has established. *)
Lemma decode_inv limits b rep :
  codec_limits limits -> wf_bytes b -> decode limits b = Ok rep ->
  b = rep_bytes rep /\ wf_repr rep /\ wire_fits rep /\ palette_fits rep = true /\
  Representation_validate limits rep = Ok tt /\ zlen b <= max_descriptor_bytes limits.
Proof.
  intros Hl Hwf H. pose proof (cl_desc _ Hl). pose proof (cl_chunk _ Hl). unfold decode in H.
  inv_ok H. bools. apply map_err_Ok_inv in Hok2. destruct v.
  pose proof (Reader_new_at b ltac:(lia)) as Hat. rd_inv.
  destruct (decode_payload_inv _ _ _ _ _ _ _ Hat Hwf Hx0 Hok1)
    as (l' & -> & Hat' & _ & -> & <- & ? & ? & ?).
  rewrite (Reader_done_spec _ _ Hat') in Hc1. bools. subst l'. rewrite app_nil_r in *.
  unfold rep_bytes. rewrite wrap_small by done. by split_and!.
Qed.

(** C31. Round trip: a validated descriptor whose [u64] fields fit their wire
    columns is encoded without error, and decoding the bytes under the same
    limits gives the descriptor back. *)
Theorem decode_encode limits rep :
  codec_limits limits -> wf_repr rep -> wire_fits rep ->
  Representation_validate limits rep = Ok tt ->
  exists b, encode rep = Ok b /\ decode limits b = Ok rep.
Proof.
  intros Hl Hwf Hfit Hv. exists (rep_bytes rep).
  rewrite encode_bytes, (palette_validated _ _ Hl Hv). split; [done|].
  pose proof (cl_desc _ Hl). apply validate_size in Hv as Hs.
  rewrite <-(rep_bytes_size _ _ Hwf Hv) in Hs.
  destruct (decode_payload_rep limits rep [] Hl Hwf Hfit Hv) as (r0 & r1 & r2 & E0 & E1 & E2 & Hat).
  { rewrite app_nil_r. lia. }
  rewrite app_nil_r in E0. unfold decode. pass_if. rewrite E0. cbn [rbind]. rewrite E1. cbn [rbind].
  apply validate_len in Hv as ?; [|apply Hl]. pass_if. rewrite E2. cbn [rbind].
  rewrite (Reader_done_spec _ _ Hat), bool_decide_true by done. cbn [negb].
  by rewrite Hv.
Qed.

Definition sample_id (v : Z) : ChunkId := v :: replicate 31 0.
Definition sample_residual : Representation :=
  BaseResidual (sample_id 1) 100 (XorSparse 90 [{| pos := 3; val := 7 |}; {| pos := 89; val := 1 |}]) 90.

Lemma sample_residual_wf : wf_repr sample_residual.
Proof. unfold sample_residual, sample_id. cbn. repeat first [constructor | split | width]; cbn; width. Qed.

Lemma decode_encode_witness :
  exists b, encode sample_residual = Ok b /\ decode Limits_default b = Ok sample_residual.
Proof.
  apply (decode_encode Limits_default sample_residual).
  - apply codec_limits_default.
  - apply sample_residual_wf.
  - cbn. width.
  - vm_compute. reflexivity.
Defined.

(** Canonical form: whatever [decode] accepts, [encode] writes back byte
    for byte, so no two byte strings decode to the same descriptor. *)
Theorem encode_decode limits b rep :
  codec_limits limits -> wf_bytes b -> decode limits b = Ok rep -> encode rep = Ok b.
Proof.
  intros Hl Hb H. destruct (decode_inv _ _ _ Hl Hb H) as (-> & _ & _ & Hp & _).
  by rewrite encode_bytes, Hp.
Qed.

Definition sample_bytes : bytes := 3 :: [90; 0; 0; 0] ++ sample_id 5.

Lemma sample_bytes_wf : wf_bytes sample_bytes.
Proof. unfold sample_bytes, sample_id. cbn. repeat first [constructor | width]. Qed.

Lemma encode_decode_witness : encode (Raw (sample_id 5) 90) = Ok sample_bytes.
Proof.
  apply (encode_decode Limits_default).
  - apply codec_limits_default.
  - apply sample_bytes_wf.
  - vm_compute. reflexivity.
Defined.

(** Decoding implies validity: an accepted descriptor passes
    [Representation::validate] under the same limits, each of its fields is
    in the range of its type, and the input had exactly [encoded_size]
    bytes, within [max_descriptor_bytes]. *)
Theorem decode_validates limits b rep :
  codec_limits limits -> wf_bytes b -> decode limits b = Ok rep ->
  Representation_validate limits rep = Ok tt /\ wf_repr rep /\
  zlen b = Representation_encoded_size rep /\
  Representation_encoded_size rep <= max_descriptor_bytes limits /\
  Representation_len rep <= max_chunk_size limits.
Proof.
  intros Hl Hb H. destruct (decode_inv _ _ _ Hl Hb H) as (-> & Hwf & _ & _ & Hv & Hs).
  rewrite <-(rep_bytes_size _ _ Hwf Hv). split_and!; try done.
  apply validate_len in Hv; [done | apply Hl].
Qed.

Lemma decode_validates_witness :
  zlen sample_bytes = Representation_encoded_size (Raw (sample_id 5) 90).
Proof.
  apply (decode_validates Limits_default).
  - apply codec_limits_default.
  - apply sample_bytes_wf.
  - vm_compute. reflexivity.
Defined.

(** The size mirror: for every validated descriptor the encoder emits
    exactly the number of bytes [encoded_size] announces to the candidate
    search, and that number respects the descriptor limit. *)
Theorem encode_size limits rep :
  codec_limits limits -> wf_repr rep -> Representation_validate limits rep = Ok tt ->
  exists b, encode rep = Ok b /\ zlen b = Representation_encoded_size rep /\
            zlen b <= max_descriptor_bytes limits.
Proof.
  intros Hl Hwf Hv. exists (rep_bytes rep). rewrite encode_bytes, (palette_validated _ _ Hl Hv).
  rewrite (rep_bytes_size _ _ Hwf Hv). split_and!; try done. by apply validate_size.
Qed.

Lemma encode_size_witness :
  exists b, encode sample_residual = Ok b /\ zlen b = 56 /\ zlen b <= 8192.
Proof.
  apply (encode_size Limits_default sample_residual).
  - apply codec_limits_default.
  - apply sample_residual_wf.
  - vm_compute. reflexivity.
Defined.

(** Exact consumption: no accepted input is a proper prefix of another,
    so a truncated descriptor and a descriptor with trailing bytes are both
    rejected. *)
Theorem decode_prefix_free limits b t rep rep' :
  codec_limits limits -> wf_bytes (b ++ t) ->
  decode limits b = Ok rep -> decode limits (b ++ t) = Ok rep' -> t = [] /\ rep = rep'.
Proof.
  intros Hl Hwf H H'. apply wf_bytes_app in Hwf as Hw. destruct Hw as [Hb _].
  destruct (decode_inv _ _ _ Hl Hb H) as (-> & Hw & Hf & _ & Hv & _).
  destruct (decode_inv _ _ _ Hl Hwf H') as (E & Hw' & Hf' & _ & Hv' & Hs').
  pose proof (cl_desc _ Hl).
  destruct (decode_payload_rep limits rep t Hl Hw Hf Hv ltac:(lia)) as (r0 & r1 & r2 & E0 & E1 & E2 & Hat).
  rewrite E in *. destruct (decode_payload_rep limits rep' [] Hl Hw' Hf' Hv')
    as (r0' & r1' & r2' & E0' & E1' & E2' & Hat'); [by rewrite app_nil_r; lia|].
  rewrite app_nil_r in E0'. rewrite E0 in E0'. injection E0' as Et <-. rewrite E1 in E1'.
  injection E1' as El <-. rewrite <-Et, <-El, E2 in E2'. injection E2' as -> <-.
  split; [|done]. by rewrite <-(ra_rest _ _ Hat), (ra_rest _ _ Hat').
Qed.

Lemma decode_prefix_free_witness : @nil Z = [] /\ Raw (sample_id 5) 90 = Raw (sample_id 5) 90.
Proof.
  apply (decode_prefix_free Limits_default sample_bytes).
  - apply codec_limits_default.
  - apply sample_bytes_wf.
  - vm_compute. reflexivity.
  - vm_compute. reflexivity.
Defined.

(** The hypothesis [wire_fits] is needed: a reference at offset [2^32]
    passes validation, and its [off as u32] column brings back offset 0. *)
Example exact_ref_offset_truncates :
  Representation_validate Limits_default (ExactRef (sample_id 1) (2 ^ 32) 1) = Ok tt /\
  (let! b := encode (ExactRef (sample_id 1) (2 ^ 32) 1) in decode Limits_default b)
  = Ok (ExactRef (sample_id 1) 0 1).
Proof. split; vm_compute; reflexivity. Qed.

(** A five-byte residual makes [Vec::with_capacity] reserve [2^32 - 1] edits
    before the first of them is read. *)
Example residual_reserve_unbounded :
  decode_residual_reserve (Reader_new [1; 255; 255; 255; 255]) = Ok (2 ^ 32 - 1).
Proof. vm_compute. reflexivity. Qed.
