(* ===== verification/Context.v ===== *)
(** Components [core/materialize.rs] (its error type and its resolver
    interface) and the errors of [rans/sequence.rs]: [MaterializeError] and
    the [DecoderContext] trait as a typeclass, with the laws the
    materializer relies on ([ContextLaws]) and the wrapper through which
    every resolver in the program obtains a nested descriptor. *)
From Stdlib Require String.
From S2P Require Import Prelude Binomial Codec Rank Repr Descriptor.
Import String.StringSyntax.
Bind Scope string_scope with String.string.

(** * Errors *)

Inductive SequenceError : Type :=
| SE_TooLarge (len max : Z)
| SE_Truncated
| UnknownKind (k : Z)
| SE_Malformed
| SE_TrailingBytes
| SE_Rans (msg : String.string)
| SE_Stream (msg : String.string)
| NoCommands.

(** The [String] payloads of the errors: the literal messages, and the
    [to_string()] of an inner error as that error itself. *)
Inductive MaterializeError : Type :=
| InvalidDescriptor (d : detail)
| OutputTooLarge (requested max : Z)
| AllocTooLarge (requested max : Z)
| DepthExceeded (depth max : Z)
| BudgetExceeded
| MissingObject (id : ChunkId)
| MissingChunk (id : ChunkId)
| RangeOutOfBounds
| RansDecode (d : detail)
| SequenceFailed (d : detail)
| Universe (d : detail)
| ResidualFailed (d : detail)
with detail : Type :=
| Msg (s : String.string)
| OfRank (e : RankError)
| OfCodec (e : CodecError)
| OfSequence (e : SequenceError)
| OfMaterialize (e : MaterializeError)
| UnknownCopySource (other : Z)
| ReservedDeepCommand (cmd : Z).

Abbreviation invalid s := (InvalidDescriptor (Msg s)).
Abbreviation residual_failed s := (ResidualFailed (Msg s)).

(** Outcomes of the materializer. *)
Abbreviation outcome A := (result (trap MaterializeError) A).

(** * The resolver interface *)

Class DecoderContext : Type := {
  fetch_object : ChunkId -> result MaterializeError bytes;
  fetch_descriptor : ChunkId -> result MaterializeError Representation;
  (** model, encoded, scale_bits, codec, out_len *)
  decode_rans : bytes -> bytes -> Z -> RansCodec -> Z -> result MaterializeError bytes;
  (** universe, seed, coordinate, range.start, range.end *)
  universe_bytes : UniverseId -> bytes -> Z -> Z -> Z -> result MaterializeError bytes
}.

(** What the program promises of its resolvers: they return byte strings,
    and descriptors that went through [descriptor::decode] under the same
    limits.  Nothing is promised about which bytes or descriptors, about
    lengths, or about the reference graph. *)
Class ContextLaws (limits : Limits) (ctx : DecoderContext) : Prop := {
  fetch_object_bytes id b : fetch_object id = Ok b -> wf_bytes b;
  fetch_descriptor_valid id d : fetch_descriptor id = Ok d ->
    wf_repr d /\ Representation_validate limits d = Ok tt;
  decode_rans_bytes m e s c n b : wf_bytes e -> decode_rans m e s c n = Ok b -> wf_bytes b;
  universe_bytes_bytes u seed k s e b : universe_bytes u seed k s e = Ok b -> wf_bytes b
}.

(** [Store::fetch_descriptor]: look the record up, decode it under the
    store's limits. *)
Definition Store_fetch_descriptor (limits : Limits)
  (chunk_descriptor : ChunkId -> result String.string (option bytes)) (id : ChunkId)
  : result MaterializeError Representation :=
  let! o := map_err (fun e => Universe (Msg e)) (chunk_descriptor id) in
  match o with
  | Some b => map_err (fun e => InvalidDescriptor (OfCodec e)) (decode limits b)
  | None => Err (MissingChunk id)
  end.

(** A resolver that decodes every record it serves lawfully serves only
    validated descriptors: the wrapper discharges the interface's law. *)
Lemma Store_fetch_descriptor_valid limits chunk_descriptor id d :
  codec_limits limits ->
  (forall id b, chunk_descriptor id = Ok (Some b) -> wf_bytes b) ->
  Store_fetch_descriptor limits chunk_descriptor id = Ok d ->
  wf_repr d /\ Representation_validate limits d = Ok tt.
Proof.
  intros Hl Hb H. unfold Store_fetch_descriptor in H. inv_ok H.
  apply map_err_Ok_inv in Hok. destruct v as [b|]; [|done]. apply map_err_Ok_inv in H.
  apply (decode_inv _ _ _ Hl (Hb _ _ Hok)) in H. intuition.
Qed.

(** ** A concrete resolver: two association lists and the identity codec *)

Fixpoint assoc_get {A} (id : ChunkId) (l : list (ChunkId * A)) : option A :=
  match l with
  | [] => None
  | (i, a) :: l' => if bool_decide (i = id) then Some a else assoc_get id l'
  end.

Definition table_context (limits : Limits) (objects : list (ChunkId * bytes))
  (records : list (ChunkId * bytes)) : DecoderContext := {|
  fetch_object id := ok_or (assoc_get id objects) (MissingObject id);
  fetch_descriptor := Store_fetch_descriptor limits (fun id => Ok (assoc_get id records));
  decode_rans _ encoded _ _ _ := Ok encoded;
  universe_bytes _ _ _ s e := Ok (vec 0 (e - s))
|}.

Lemma assoc_get_in {A} id (l : list (ChunkId * A)) a : assoc_get id l = Some a -> In (id, a) l.
Proof.
  induction l as [|[i x] l IH]; cbn; [done|]. case_bool_decide; intros E; simplify_eq; auto.
Qed.

Lemma table_context_laws limits objects records :
  codec_limits limits -> Forall (fun p => wf_bytes p.2) objects ->
  Forall (fun p => wf_bytes p.2) records ->
  ContextLaws limits (table_context limits objects records).
Proof.
  intros Hl Ho Hr. split.
  - intros id b H. cbn in H. apply ok_or_Ok_inv, assoc_get_in in H.
    rewrite List.Forall_forall in Ho. by apply Ho in H.
  - intros id d H. eapply Store_fetch_descriptor_valid; [done | | exact H].
    intros i b E. injection E as E. apply assoc_get_in in E.
    rewrite List.Forall_forall in Hr. by apply Hr in E.
  - intros. cbn in *. by simplify_eq.
  - intros u seed k s e b E. cbn in E. simplify_eq. by apply wf_bytes_vec.
Qed.
