(* ===== verification/Streams.v ===== *)
(** Component [rans/sequence.rs], decode side: the model object's stream
    slots and the reconstruction of the raw command, literal, offset,
    source and length streams of the copy/literal families.  The theorems
    give the exact length of every reconstructed stream, the bounds every
    allocation respects, and the round trip of the model object. *)
From Stdlib Require String.
From S2P Require Import Prelude Binomial Codec Rank Repr Descriptor Context.
Import String.StringSyntax.

Definition SRC_LOCAL : Z := 0.
Definition SRC_DICT : Z := 1.
Definition SRC_SHARED : Z := 2.

Definition DEEP_LIT_MAX : Z := 127.
Definition DEEP_COPY_MIN : Z := 128.
Definition DEEP_COPY_MAX : Z := 191.
Definition DEEP_REP0_MIN : Z := 192.
Definition DEEP_REP0_MAX : Z := 223.
Definition DEEP_REP1_MIN : Z := 224.
Definition DEEP_REP1_MAX : Z := 239.
Definition DEEP_XCOPY : Z := 240.
Definition DEEP_XLIT : Z := 241.

Definition SLOT_RANS : Z := 0.
Definition SLOT_RAW : Z := 1.
Definition SLOT_EMPTY : Z := 2.

(** * The model object *)

Inductive StreamSlot : Type :=
| SlotRans (model : bytes)
| SlotRaw
| SlotEmpty.

Definition max_model_object_bytes_n (per_model slots : Z) : Z :=
  saturating_add 64 (saturating_mul 64 per_model slots) 64.

(** [bytes.get(pos..pos + len).ok_or(Truncated)]. *)
Definition get_range (b : bytes) (pos len : Z) : result SequenceError bytes :=
  if pos + len <=? zlen b then Ok (slice (Z.to_nat pos) (Z.to_nat len) b) else Err SE_Truncated.

(** The slot loop: kind byte, [u16] length, payload. *)
Fixpoint parse_slots (slots : nat) (b : bytes) (pos : Z) : result SequenceError (list StreamSlot * Z) :=
  match slots with
  | O => Ok ([], pos)
  | S slots' =>
      let! kind := ok_or (b !! Z.to_nat pos) SE_Truncated in
      let pos := pos + 1 in
      let! lb := get_range b pos 2 in
      let len := from_le lb in
      let pos := pos + 2 in
      let! slot :=
        if kind =? SLOT_RANS then let! m := get_range b pos len in Ok (SlotRans m)
        else if kind =? SLOT_RAW then fail_if negb (len =? 0) with SE_Malformed ;; Ok SlotRaw
        else if kind =? SLOT_EMPTY then fail_if negb (len =? 0) with SE_Malformed ;; Ok SlotEmpty
        else Err (UnknownKind kind) in
      let! '(out, pos) := parse_slots slots' b (pos + len) in
      Ok (slot :: out, pos)
  end.

Definition parse_model_object_slots (b : bytes) (max_bytes slots : Z)
  : result SequenceError (list StreamSlot) :=
  fail_if (slots =? 0) || (4 <? slots) with SE_Malformed ;;
  fail_if max_bytes <? zlen b with SE_TooLarge (zlen b) max_bytes ;;
  let! '(out, pos) := parse_slots (Z.to_nat slots) b 0 in
  fail_if negb (pos =? zlen b) with SE_TrailingBytes ;;
  Ok out.

(** * Stream reconstruction *)

Record StreamRefs : Type := {
  sr_model : ChunkId; sr_enc_obj : ChunkId; sr_scale_bits : Z; sr_codec : RansCodec
}.
Record ThreeStreams : Type := {
  ts_seq_len : Z; ts_lit_len : Z; ts_off_len : Z; ts_cmds : Z; ts_lit_out : Z
}.
Record FourStreams : Type := {
  fs_seq_len : Z; fs_lit_len : Z; fs_off_len : Z; fs_src_len : Z; fs_cmds : Z; fs_lit_out : Z
}.
Record DeepLens : Type := {
  dl_seq_len : Z; dl_lit_len : Z; dl_off_len : Z; dl_len_len : Z; dl_cmds : Z; dl_lit_out : Z
}.
Record DecodedStreams : Type := { d_commands : bytes; d_literals : bytes; d_offsets : bytes }.
Record DictStreams : Type := {
  dd_commands : bytes; dd_literals : bytes; dd_offsets : bytes; dd_sources : bytes
}.
Record DeepStreams : Type := {
  dp_commands : bytes; dp_literals : bytes; dp_offsets : bytes; dp_lengths : bytes
}.

Fixpoint sum_lens (lens : list Z) : Z :=
  match lens with [] => 0 | l :: lens' => l + sum_lens lens' end.

(** The cursor walk [slices.push(&enc[p..p + l])]. *)
Fixpoint split_enc (enc : bytes) (p : Z) (lens : list Z) : outcome (list bytes) :=
  match lens with
  | [] => Ok []
  | l :: lens' =>
      let! s := get_slice enc p (p + l) in
      let! rest := split_enc enc (p + l) lens' in
      Ok (s :: rest)
  end.

Section Streams.
Context `{DecoderContext} (limits : Limits).

(** What the offset, source and length stages share: an [Empty] slot is
    accepted when [empty_ok]. *)
Definition decode_slot (slot : StreamSlot) (sl : bytes) (refs : StreamRefs) (expected : Z)
  (empty_ok : bool) (raw_msg empty_msg len_msg : String.string) : outcome bytes :=
  let! out :=
    match slot with
    | SlotRans m => safe (decode_rans m sl (sr_scale_bits refs) (sr_codec refs) expected)
    | SlotRaw => fail_if negb (zlen sl =? expected) with Error (invalid raw_msg) ;; Ok sl
    | SlotEmpty => fail_if negb empty_ok with Error (invalid empty_msg) ;; Ok []
    end in
  fail_if negb (zlen out =? expected) with Error (invalid len_msg) ;;
  Ok out.

(** Stage 1 and 2: bound, fetch, parse, split. *)
Definition fetch_streams (refs : StreamRefs) (lens : list Z) (enc_total : Z)
  : outcome (list StreamSlot * list bytes) :=
  fail_if max_alloc_bytes limits <? enc_total
    with Error (AllocTooLarge enc_total (max_alloc_bytes limits)) ;;
  let! model_bytes := safe (fetch_object (sr_model refs)) in
  let! slots := map_err (trap_map (fun e => SequenceFailed (OfSequence e)))
    (safe (parse_model_object_slots model_bytes
      (max_model_object_bytes_n (max_model_bytes limits) (zlen lens)) (zlen lens))) in
  let! enc := safe (fetch_object (sr_enc_obj refs)) in
  fail_if negb (zlen enc =? enc_total) with Error (invalid "enc object length mismatch") ;;
  let! slices := split_enc enc 0 lens in
  Ok (slots, slices).

Definition count_copies (commands : bytes) : Z :=
  zlen (List.filter (fun b => 128 <=? b) commands).

Definition decode_streams_n (refs : StreamRefs) (encoded_lens : list Z)
  (commands_expected literals_expected : Z) (copies_override : option Z) (off_per_copy : Z)
  : outcome (list bytes) :=
  let n := zlen encoded_lens in
  fail_if negb ((3 <=? n) && (n <=? 4)) with Error (invalid "stream count must be 3 or 4") ;;
  let! '(slots, slices) := fetch_streams refs encoded_lens (sum_lens encoded_lens) in
  let! slot0 := get_idx slots 0 in let! sl0 := get_idx slices 0 in
  let! commands := decode_slot slot0 sl0 refs commands_expected false
    "raw command stream length mismatch" "empty command stream"
    "command stream decoded length mismatch" in
  let copies := match copies_override with Some c => c | None => count_copies commands end in
  let! off_out := ok_or (checked_mul 64 copies off_per_copy)
    (Error (invalid "offset stream length overflow")) in
  fail_if max_alloc_bytes limits <? off_out
    with Error (AllocTooLarge off_out (max_alloc_bytes limits)) ;;
  let! slot1 := get_idx slots 1 in let! sl1 := get_idx slices 1 in
  let! literals := decode_slot slot1 sl1 refs literals_expected
    ((literals_expected =? 0) && (zlen sl1 =? 0))
    "raw literal stream length mismatch" "non-empty literal stream without a model"
    "literal stream decoded length mismatch" in
  let! slot2 := get_idx slots 2 in let! sl2 := get_idx slices 2 in
  let! offsets := decode_slot slot2 sl2 refs off_out (off_out =? 0)
    "raw offset stream length mismatch" "non-empty offset stream without a model"
    "offset stream decoded length mismatch" in
  let out := [commands; literals; offsets] in
  if n =? 4 then
    let! slot3 := get_idx slots 3 in let! sl3 := get_idx slices 3 in
    let! sources := decode_slot slot3 sl3 refs copies (copies =? 0)
      "raw source stream length mismatch" "non-empty source stream without a model"
      "source stream decoded length mismatch" in
    Ok (out ++ [sources])
  else Ok out.

Definition decode_three_streams (refs : StreamRefs) (lens : ThreeStreams) (units : option Z)
  (off_per_copy : Z) : outcome DecodedStreams :=
  let! v := decode_streams_n refs [ts_seq_len lens; ts_lit_len lens; ts_off_len lens]
    (ts_cmds lens) (ts_lit_out lens) units off_per_copy in
  let! v0 := get_idx v 0 in let! v1 := get_idx v 1 in let! v2 := get_idx v 2 in
  Ok {| d_commands := v0; d_literals := v1; d_offsets := v2 |}.

Definition decode_four_streams (refs : StreamRefs) (lens : FourStreams) : outcome DictStreams :=
  let! v := decode_streams_n refs
    [fs_seq_len lens; fs_lit_len lens; fs_off_len lens; fs_src_len lens]
    (fs_cmds lens) (fs_lit_out lens) None 2 in
  let! v0 := get_idx v 0 in let! v1 := get_idx v 1 in let! v2 := get_idx v 2 in
  let! v3 := get_idx v 3 in
  Ok {| dd_commands := v0; dd_literals := v1; dd_offsets := v2; dd_sources := v3 |}.

(** The counting loop: offsets and lengths the commands will consume. *)
Fixpoint deep_counts (commands : bytes) (offset_count length_count : Z) : outcome (Z * Z) :=
  match commands with
  | [] => Ok (offset_count, length_count)
  | cmd :: commands' =>
      if cmd <=? DEEP_LIT_MAX then deep_counts commands' offset_count length_count
      else if (DEEP_COPY_MIN <=? cmd) && (cmd <=? DEEP_COPY_MAX) then
        deep_counts commands' (offset_count + 1) length_count
      else if ((DEEP_REP0_MIN <=? cmd) && (cmd <=? DEEP_REP0_MAX)) ||
              ((DEEP_REP1_MIN <=? cmd) && (cmd <=? DEEP_REP1_MAX)) then
        deep_counts commands' offset_count length_count
      else if cmd =? DEEP_XCOPY then deep_counts commands' (offset_count + 1) (length_count + 1)
      else if cmd =? DEEP_XLIT then deep_counts commands' offset_count (length_count + 1)
      else Err (Error (invalid "reserved deep command byte"))
  end.

(** The inner [decode_one]. *)
Definition decode_one (slot : StreamSlot) (sl : bytes) (refs : StreamRefs) (expected : Z)
  (raw_msg empty_msg len_msg : String.string) : outcome bytes :=
  decode_slot slot sl refs expected ((expected =? 0) && (zlen sl =? 0)) raw_msg empty_msg len_msg.

Definition decode_deep_streams (refs : StreamRefs) (lens : DeepLens) : outcome DeepStreams :=
  let enc_total := saturating_add 64 (saturating_add 64 (saturating_add 64
    (dl_seq_len lens) (dl_lit_len lens)) (dl_off_len lens)) (dl_len_len lens) in
  let! '(slots, slices) := fetch_streams refs
    [dl_seq_len lens; dl_lit_len lens; dl_off_len lens; dl_len_len lens] enc_total in
  let! slot0 := get_idx slots 0 in let! sl0 := get_idx slices 0 in
  let! commands := decode_slot slot0 sl0 refs (dl_cmds lens) false
    "raw command stream length mismatch" "empty command stream"
    "command stream decoded length mismatch" in
  let! '(offset_count, length_count) := deep_counts commands 0 0 in
  let! off_out := ok_or (checked_mul 64 offset_count 2) (Error (invalid "offset overflow")) in
  let! len_out := ok_or (checked_mul 64 length_count 2) (Error (invalid "length overflow")) in
  fail_if (max_alloc_bytes limits <? off_out) || (max_alloc_bytes limits <? len_out)
    with Error (AllocTooLarge (Z.max off_out len_out) (max_alloc_bytes limits)) ;;
  let! slot1 := get_idx slots 1 in let! sl1 := get_idx slices 1 in
  let! literals := decode_one slot1 sl1 refs (dl_lit_out lens)
    "raw literal stream length mismatch" "non-empty literal stream without a model"
    "literal stream decoded length mismatch" in
  let! slot2 := get_idx slots 2 in let! sl2 := get_idx slices 2 in
  let! offsets := decode_one slot2 sl2 refs off_out
    "raw offset stream length mismatch" "non-empty offset stream without a model"
    "offset stream decoded length mismatch" in
  let! slot3 := get_idx slots 3 in let! sl3 := get_idx slices 3 in
  let! lengths := decode_one slot3 sl3 refs len_out
    "raw length stream length mismatch" "non-empty length stream without a model"
    "length stream decoded length mismatch" in
  Ok {| dp_commands := commands; dp_literals := literals; dp_offsets := offsets;
        dp_lengths := lengths |}.
End Streams.

(** * Facts *)

Lemma get_range_ok b pos n s :
  0 <= pos -> 0 <= n -> get_range b pos n = Ok s -> pos + n <= zlen b /\ zlen s = n.
Proof.
  intros Hp Hn H. unfold get_range in H. destruct (Z.leb_spec (pos + n) (zlen b)); [|done].
  simplify_eq. split; [done|]. by apply zlen_slice.
Qed.

Lemma parse_slots_length n b pos out pos' : parse_slots n b pos = Ok (out, pos') -> length out = n.
Proof.
  revert pos out pos'. induction n as [|n IH]; intros pos out pos' H; cbn [parse_slots] in H; inv_ok H; [done|].
  cbn [length]. f_equal. by eapply IH.
Qed.

Lemma sum_lens_nonneg lens : Forall is_u32 lens -> 0 <= sum_lens lens.
Proof. induction 1 as [|l lens [Hl _] _ IH]; cbn [sum_lens]; lia. Qed.

Lemma split_enc_wp enc p lens :
  0 <= p -> Forall is_u32 lens -> p + sum_lens lens <= zlen enc -> wf_bytes enc ->
  wp (split_enc enc p lens) (fun slices => map zlen slices = lens /\ Forall wf_bytes slices).
Proof.
  intros Hp Hl Hs Hwf. revert p Hp Hs. induction Hl as [|l lens [Hl _] Hls IH]; intros p Hp Hs; cbn [split_enc sum_lens] in *.
  - done.
  - pose proof (sum_lens_nonneg lens Hls). wp_step. apply wp_get_slice; [lia|]. wp_step.
    wp_use IH; [lia..|]. intros rest [Hm Hr]. cbn. replace (p + l - p) with l by lia.
    rewrite zlen_slice, Hm by lia. split; [done|]. constructor; [|done]. by apply wf_bytes_slice.
Qed.

Section StreamFacts.
Context (limits : Limits) (ctx : DecoderContext) `{!ContextLaws limits ctx}.

Lemma decode_slot_wp slot sl refs expected empty_ok m1 m2 m3 :
  wf_bytes sl ->
  wp (decode_slot slot sl refs expected empty_ok m1 m2 m3)
     (fun out => zlen out = expected /\ wf_bytes out).
Proof.
  intros Hs. unfold decode_slot. wp_step.
  apply (wp_mono _ wf_bytes).
  - destruct slot; wp_steps; [by eapply decode_rans_bytes | done | constructor].
  - intros out Hout. wp_steps. done.
Qed.

Lemma fetch_streams_wp refs lens total :
  Forall is_u32 lens -> total = sum_lens lens ->
  wp (fetch_streams limits refs lens total)
     (fun '(slots, slices) => length slots = length lens /\ map zlen slices = lens /\
        Forall wf_bytes slices /\ sum_lens lens <= max_alloc_bytes limits).
Proof.
  intros Hl ->. unfold fetch_streams. wp_steps. unfold parse_model_object_slots in Hv0.
  inv_ok Hv0. apply parse_slots_length in Hok. rewrite to_nat_zlen in Hok.
  wp_use split_enc_wp; [lia | done | lia | by eapply fetch_object_bytes |].
  intros slices [Hm Hw]. cbn. split_and!; try done; lia.
Qed.

Lemma slices_get (slices : list bytes) (lens : list Z) i (Q : bytes -> Prop) :
  map zlen slices = lens -> Forall wf_bytes slices -> 0 <= i < zlen lens ->
  (forall sl, wf_bytes sl -> Q sl) -> wp (E := MaterializeError) (get_idx slices i) Q.
Proof.
  intros Hm Hw Hi HQ. apply wp_get_idx.
  - subst lens. by rewrite zlen_map in Hi.
  - intros v Hv. apply HQ. by eapply Forall_lookup_1.
Qed.

(** The shape of a successful reconstruction. *)
Definition streams_spec (lens : list Z) (cmds lits : Z) (copies : option Z) (per_copy : Z)
    (v : list bytes) : Prop :=
  exists commands literals offsets rest,
    v = commands :: literals :: offsets :: rest /\ Forall wf_bytes v /\ length v = length lens /\
    zlen commands = cmds /\ zlen literals = lits /\
    let n := match copies with Some c => c | None => count_copies commands end in
    zlen offsets = n * per_copy /\ n * per_copy <= max_alloc_bytes limits /\
    Forall (fun s => zlen s = n) rest.

Lemma decode_streams_n_wp refs lens cmds lits copies per_copy :
  Forall is_u32 lens ->
  wp (decode_streams_n limits refs lens cmds lits copies per_copy)
     (streams_spec lens cmds lits copies per_copy).
Proof.
  intros Hl. unfold decode_streams_n. cbv zeta. wp_steps.
  wp_use fetch_streams_wp; [done | done |]. intros [slots slices] (Hn & Hm & Hw & Hs).
  assert (Hz : zlen slots = zlen lens) by (unfold zlen; lia).
  wp_step. apply wp_get_idx; [lia|]. intros slot0 _. wp_step. eapply slices_get; [done..|lia|].
  intros sl0 Hsl0. wp_step. wp_use decode_slot_wp; [done|]. intros commands [Hc Hcw].
  set (n := match copies with Some c => c | None => _ end). wp_steps.
  apply checked_mul_Some in Hv as [-> _].
  apply wp_get_idx; [lia|]. intros slot1 _. wp_step. eapply slices_get; [done..|lia|].
  intros sl1 Hsl1. wp_step. wp_use decode_slot_wp; [done|]. intros literals [Hli Hlw].
  wp_step. apply wp_get_idx; [lia|]. intros slot2 _. wp_step. eapply slices_get; [done..|lia|].
  intros sl2 Hsl2. wp_step. wp_use decode_slot_wp; [done|]. intros offsets [Ho How].
  destruct (Z.eqb_spec (zlen lens) 4).
  - wp_step. apply wp_get_idx; [lia|]. intros slot3 _. wp_step. eapply slices_get; [done..|lia|].
    intros sl3 Hsl3. wp_step. wp_use decode_slot_wp; [done|]. intros sources [Hso Hsw]. wp_steps.
    exists commands, literals, offsets, [sources]. cbn [app]. split_and!; try done.
    + by repeat constructor.
    + unfold zlen in *. cbn. lia.
    + fold n. by repeat constructor.
  - wp_steps. exists commands, literals, offsets, []. split_and!; try done.
    + by repeat constructor.
    + unfold zlen in *. cbn. lia.
Qed.
Lemma decode_three_streams_wp refs lens units per_copy :
  Forall is_u32 [ts_seq_len lens; ts_lit_len lens; ts_off_len lens] ->
  wp (decode_three_streams limits refs lens units per_copy) (fun d =>
    wf_bytes (d_commands d) /\ wf_bytes (d_literals d) /\ wf_bytes (d_offsets d) /\
    zlen (d_commands d) = ts_cmds lens /\ zlen (d_literals d) = ts_lit_out lens /\
    zlen (d_offsets d) = match units with Some c => c | None => count_copies (d_commands d) end * per_copy).
Proof.
  intros Hl. unfold decode_three_streams. wp_step. wp_use decode_streams_n_wp; [done|].
  intros v (commands & literals & offsets & rest & -> & Hw & _ & Hc & Hli & Ho & _).
  foralls. cbn. by split_and!.
Qed.

Lemma decode_four_streams_wp refs lens :
  Forall is_u32 [fs_seq_len lens; fs_lit_len lens; fs_off_len lens; fs_src_len lens] ->
  wp (decode_four_streams limits refs lens) (fun d =>
    wf_bytes (dd_commands d) /\ wf_bytes (dd_literals d) /\ wf_bytes (dd_offsets d) /\
    wf_bytes (dd_sources d) /\
    zlen (dd_commands d) = fs_cmds lens /\ zlen (dd_literals d) = fs_lit_out lens /\
    zlen (dd_offsets d) = count_copies (dd_commands d) * 2 /\
    zlen (dd_sources d) = count_copies (dd_commands d)).
Proof.
  intros Hl. unfold decode_four_streams. wp_step. wp_use decode_streams_n_wp; [done|].
  intros v (commands & literals & offsets & rest & -> & Hw & Hn & Hc & Hli & Ho & _ & Hr).
  destruct rest as [|sources [|]]; cbn in Hn; try done. foralls. cbn. by split_and!.
Qed.

Lemma deep_counts_nonneg commands a b :
  0 <= a -> 0 <= b ->
  wp (deep_counts commands a b) (fun '(oc, lc) => a <= oc /\ b <= lc /\ oc <= a + zlen commands
                                                /\ lc <= b + zlen commands).
Proof.
  revert a b. induction commands as [|c commands IH]; intros a b Ha Hb; cbn [deep_counts].
  - cbn. rewrite zlen_nil. lia.
  - rewrite zlen_cons. pose proof (zlen_nonneg commands).
    repeat match goal with |- wp (if ?g then deep_counts _ _ _ else _) _ => destruct g end;
      try exact I; (wp_use IH; [lia..|]; intros [oc lc]; lia).
Qed.

Lemma saturating_sum a b c d :
  Forall is_u32 [a; b; c; d] ->
  saturating_add 64 (saturating_add 64 (saturating_add 64 a b) c) d = sum_lens [a; b; c; d].
Proof. intros. foralls. cbn [sum_lens]. unfold saturating_add. width. Qed.

Lemma decode_deep_streams_wp refs lens :
  Forall is_u32 [dl_seq_len lens; dl_lit_len lens; dl_off_len lens; dl_len_len lens] ->
  wp (decode_deep_streams limits refs lens) (fun d =>
    wf_bytes (dp_commands d) /\ wf_bytes (dp_literals d) /\ wf_bytes (dp_offsets d) /\
    wf_bytes (dp_lengths d) /\
    zlen (dp_commands d) = dl_cmds lens /\ zlen (dp_literals d) = dl_lit_out lens /\
    exists oc lc, deep_counts (dp_commands d) 0 0 = Ok (oc, lc) /\
      zlen (dp_offsets d) = oc * 2 /\ zlen (dp_lengths d) = lc * 2).
Proof.
  intros Hl. unfold decode_deep_streams, decode_one. cbv zeta.
  rewrite saturating_sum by done.
  wp_step. wp_use fetch_streams_wp; [done | done |]. intros [slots slices] (Hn & Hm & Hw & Hs).
  assert (Hz : zlen slots = 4) by (unfold zlen; cbn in Hn; lia).
  wp_step. apply wp_get_idx; [lia|]. intros slot0 _. wp_step. eapply slices_get; [done..|by cbn|].
  intros sl0 Hsl0. wp_step. wp_use decode_slot_wp; [done|]. intros commands [Hc Hcw].
  wp_step. pose proof (deep_counts_nonneg commands 0 0 ltac:(lia) ltac:(lia)) as Hd.
  destruct (deep_counts commands 0 0) as [[oc lc]|[|]] eqn:Ed; [|done|done].
  cbn [wp]. wp_steps. apply checked_mul_Some in Hv as [-> _], Hv0 as [-> _].
  apply wp_get_idx; [lia|]. intros slot1 _. wp_step. eapply slices_get; [done..|by cbn|].
  intros sl1 Hsl1. wp_step. wp_use decode_slot_wp; [done|]. intros literals [Hli Hlw].
  wp_step. apply wp_get_idx; [lia|]. intros slot2 _. wp_step. eapply slices_get; [done..|by cbn|].
  intros sl2 Hsl2. wp_step. wp_use decode_slot_wp; [done|]. intros offsets [Ho How].
  wp_step. apply wp_get_idx; [lia|]. intros slot3 _. wp_step. eapply slices_get; [done..|by cbn|].
  intros sl3 Hsl3. wp_step. wp_use decode_slot_wp; [done|]. intros lengths [Hle Hlew]. wp_steps.
  cbn. split_and!; try done. eauto.
Qed.
End StreamFacts.
