(* ===== verification/Materialize.v ===== *)
(** Component [core/materialize.rs]: the bounded interpreter of descriptor
    programs.  [materialize] checks lengths, depth and budget, then runs one
    arm per family; reference families recurse at [depth + 1]; the budget
    and the output buffer are threaded through every step.  The buffer an
    erroneous run leaves behind is not modelled: every caller drops it. *)
From Stdlib Require String.
From S2P Require Import Prelude Binomial Codec Rank Repr Descriptor Context Streams.
Import String.StringSyntax.

(** * Steps *)

Definition spend (n budget : Z) : outcome Z :=
  fail_if budget <? n with Error BudgetExceeded ;; Ok (budget - n).

Lemma spend_Ok n budget b : spend n budget = Ok b <-> n <= budget /\ b = budget - n.
Proof.
  unfold spend. destruct (Z.ltb_spec budget n); split; intros; destruct_and?; simplify_eq; done || lia.
Qed.

(** [output.fill(v)]. *)
Definition fill (v : Z) (output : bytes) : bytes := map (fun _ => v) output.

(** [output.copy_from_slice(src)]. *)
Definition copy_all (output src : bytes) : outcome bytes :=
  copy_from_slice output 0 (zlen output) src.

(** [u16::from_le_bytes([b[i], b[i + 1]])]. *)
Definition read_u16 (b : bytes) (i : Z) : outcome Z :=
  let! x := get_idx b i in
  let! y := get_idx b (i + 1) in
  Ok (from_le [x; y]).

(** [for (i, &pos) in positions.iter().enumerate() { output[pos] = literals[i] }]. *)
Fixpoint scatter (positions : list Z) (i : Z) (literals output : bytes) : outcome bytes :=
  match positions with
  | [] => Ok output
  | p :: positions' =>
      let! v := get_idx literals i in
      let! output := set_idx output p v in
      scatter positions' (i + 1) literals output
  end.

(** [for (i, &s) in symbols.iter().enumerate() { output[i] = table[s] }]. *)
Fixpoint substitute (symbols : list Z) (i : Z) (table output : bytes) : outcome bytes :=
  match symbols with
  | [] => Ok output
  | s :: symbols' =>
      let! v := get_idx table s in
      let! output := set_idx output i v in
      substitute symbols' (i + 1) table output
  end.

Fixpoint periodic_loop (count : nat) (period : Z) (pattern : bytes) (written budget : Z)
  (output : bytes) : outcome (bytes * Z * Z) :=
  match count with
  | O => Ok (output, written, budget)
  | S count' =>
      let end_ := written + period in
      fail_if zlen output <? end_ with Error (invalid "periodic overflow") ;;
      let! output := copy_from_slice output written end_ pattern in
      let! budget := spend (period / 8 + 1) budget in
      periodic_loop count' period pattern end_ budget output
  end.

(** The edits of an entropy reference: not charged. *)
Fixpoint apply_entropy_edits (edits : list Edit) (len : Z) (output : bytes) : outcome bytes :=
  match edits with
  | [] => Ok output
  | e :: edits' =>
      fail_if len <=? pos e with Error (residual_failed "entropy residual edit out of range") ;;
      let! v := get_idx output (pos e) in
      let! output := set_idx output (pos e) (Z.lxor v (val e)) in
      apply_entropy_edits edits' len output
  end.

Fixpoint apply_edits (edits : list Edit) (len budget : Z) (out : bytes) : outcome (bytes * Z) :=
  match edits with
  | [] => Ok (out, budget)
  | e :: edits' =>
      fail_if len <=? pos e with Error (residual_failed "edit out of range") ;;
      let! v := get_idx out (pos e) in
      let! out := set_idx out (pos e) (Z.lxor v (val e)) in
      let! budget := spend 1 budget in
      apply_edits edits' len budget out
  end.

Fixpoint apply_changes (changes : list RangeChange) (len : Z) (literals : bytes) (lit budget : Z)
  (out : bytes) : outcome (bytes * Z) :=
  match changes with
  | [] => Ok (out, budget)
  | c :: changes' =>
      fail_if (len <? end_ c) || (end_ c <=? start c)
        with Error (residual_failed "range out of bounds") ;;
      let take := end_ c - start c in
      fail_if zlen literals <? lit + take with Error (residual_failed "literal exhaustion") ;;
      let! s := get_slice literals lit (lit + take) in
      let! out := copy_from_slice out (start c) (end_ c) s in
      let! budget := spend take budget in
      apply_changes changes' len literals (lit + take) budget out
  end.

(** [for i in 0..len { out[i] = base[i] ^ decoded[i] }]. *)
Fixpoint xor_loop (todo : nat) (i : Z) (base decoded out : bytes) : outcome bytes :=
  match todo with
  | O => Ok out
  | S todo' =>
      let! a := get_idx base i in
      let! b := get_idx decoded i in
      let! out := set_idx out i (Z.lxor a b) in
      xor_loop todo' (i + 1) base decoded out
  end.

(** * Command walks *)

(** The mutable locals of a command walk: the buffer and its write cursor,
    the literal and offset cursors, the cursor of the fourth stream
    ([src] or [lenp]), the two repeat registers, and the budget. *)
Record Walk : Type := {
  wk_out : bytes; wk_pos : Z; wk_lit : Z; wk_off : Z; wk_aux : Z;
  wk_rep0 : Z; wk_rep1 : Z; wk_budget : Z
}.

Definition Walk_start (output : bytes) (budget : Z) : Walk :=
  {| wk_out := output; wk_pos := 0; wk_lit := 0; wk_off := 0; wk_aux := 0;
     wk_rep0 := 0; wk_rep1 := 0; wk_budget := budget |}.

(** A literal run: copy [run] literals to the cursor and charge them. *)
Definition literal_run (e : MaterializeError) (literals : bytes) (run : Z) (st : Walk) : outcome Walk :=
  fail_if (zlen (wk_out st) <? wk_pos st + run) || (zlen literals <? wk_lit st + run) with Error e ;;
  let! s := get_slice literals (wk_lit st) (wk_lit st + run) in
  let! out := copy_from_slice (wk_out st) (wk_pos st) (wk_pos st + run) s in
  let! budget := spend run (wk_budget st) in
  Ok {| wk_out := out; wk_pos := wk_pos st + run; wk_lit := wk_lit st + run;
        wk_off := wk_off st; wk_aux := wk_aux st;
        wk_rep0 := wk_rep0 st; wk_rep1 := wk_rep1 st; wk_budget := budget |}.

(** [for _ in 0..clen { output[pos] = output[pos - dist]; pos += 1; }]. *)
Fixpoint copy_loop (n : nat) (out : bytes) (pos dist : Z) : outcome (bytes * Z) :=
  match n with
  | O => Ok (out, pos)
  | S n' =>
      let! from := ok_or (checked_sub pos dist) Panic in
      let! v := get_idx out from in
      let! out := set_idx out pos v in
      copy_loop n' out (pos + 1) dist
  end.

(** A copy out of the bytes already written. *)
Definition copy_local (dist clen : Z) (st : Walk) : outcome Walk :=
  fail_if (dist =? 0) || (wk_pos st <? dist) with Error (invalid "copy distance out of range") ;;
  fail_if zlen (wk_out st) <? wk_pos st + clen with Error (invalid "copy overflow") ;;
  let! '(out, pos) := copy_loop (Z.to_nat clen) (wk_out st) (wk_pos st) dist in
  let! budget := spend clen (wk_budget st) in
  Ok {| wk_out := out; wk_pos := pos; wk_lit := wk_lit st; wk_off := wk_off st;
        wk_aux := wk_aux st; wk_rep0 := wk_rep0 st; wk_rep1 := wk_rep1 st; wk_budget := budget |}.

(** A copy out of an external window ([dict_bytes], [shared_bytes] or the
    base), at an absolute offset. *)
Definition copy_window (e_src e_out : MaterializeError) (src : bytes) (v clen : Z) (st : Walk)
  : outcome Walk :=
  fail_if (match checked_add 64 v clen with None => true | Some _ => false end) ||
          (zlen src <? v + clen) with Error e_src ;;
  fail_if zlen (wk_out st) <? wk_pos st + clen with Error e_out ;;
  let! s := get_slice src v (v + clen) in
  let! out := copy_from_slice (wk_out st) (wk_pos st) (wk_pos st + clen) s in
  let! budget := spend clen (wk_budget st) in
  Ok {| wk_out := out; wk_pos := wk_pos st + clen; wk_lit := wk_lit st; wk_off := wk_off st;
        wk_aux := wk_aux st; wk_rep0 := wk_rep0 st; wk_rep1 := wk_rep1 st; wk_budget := budget |}.

Definition advance_off (n : Z) (st : Walk) : Walk :=
  {| wk_out := wk_out st; wk_pos := wk_pos st; wk_lit := wk_lit st; wk_off := wk_off st + n;
     wk_aux := wk_aux st; wk_rep0 := wk_rep0 st; wk_rep1 := wk_rep1 st; wk_budget := wk_budget st |}.
Definition advance_aux (n : Z) (st : Walk) : Walk :=
  {| wk_out := wk_out st; wk_pos := wk_pos st; wk_lit := wk_lit st; wk_off := wk_off st;
     wk_aux := wk_aux st + n; wk_rep0 := wk_rep0 st; wk_rep1 := wk_rep1 st;
     wk_budget := wk_budget st |}.
Definition set_reps (r0 r1 : Z) (st : Walk) : Walk :=
  {| wk_out := wk_out st; wk_pos := wk_pos st; wk_lit := wk_lit st; wk_off := wk_off st;
     wk_aux := wk_aux st; wk_rep0 := r0; wk_rep1 := r1; wk_budget := wk_budget st |}.

(** The next [u16] of the offset stream. *)
Definition next_offset (offsets : bytes) (st : Walk) : outcome (Z * Walk) :=
  fail_if zlen offsets <? wk_off st + 2 with Error (invalid "copy offset exhausted") ;;
  let! v := read_u16 offsets (wk_off st) in
  Ok (v, advance_off 2 st).

Definition next_source (sources : bytes) (st : Walk) : outcome (Z * Walk) :=
  fail_if zlen sources <? wk_aux st + 1 with Error (invalid "copy source exhausted") ;;
  let! source := get_idx sources (wk_aux st) in
  Ok (source, advance_aux 1 st).

Definition next_length (lengths : bytes) (st : Walk) : outcome (Z * Walk) :=
  fail_if zlen lengths <? wk_aux st + 2 with Error (invalid "extended length exhausted") ;;
  let! v := read_u16 lengths (wk_aux st) in
  Ok (v, advance_aux 2 st).

(** One command of SEQUENCE_RANS. *)
Definition step_sequence (literals offsets : bytes) (cmd : Z) (st : Walk) : outcome Walk :=
  if cmd <? 128 then literal_run (invalid "literal run overflow") literals (cmd + 1) st
  else
    let clen := cmd - 128 + 4 in
    let! '(dist, st) := next_offset offsets st in
    copy_local dist clen st.

(** One command of SEQUENCE_DICT. *)
Definition step_dict (literals offsets sources dict_bytes : bytes) (cmd : Z) (st : Walk)
  : outcome Walk :=
  if cmd <? 128 then literal_run (invalid "literal run overflow") literals (cmd + 1) st
  else
    let clen := cmd - 128 + 4 in
    let! '(source, st) := next_source sources st in
    let! '(v, st) := next_offset offsets st in
    if source =? SRC_LOCAL then copy_local v clen st
    else if source =? SRC_DICT then
      copy_window (invalid "dict copy out of dictionary bounds") (invalid "copy overflow")
        dict_bytes v clen st
    else Err (Error (InvalidDescriptor (UnknownCopySource source))).

(** One command of SEQUENCE_SHARED_DICT. *)
Definition step_shared (literals offsets sources dict_bytes shared_bytes : bytes) (cmd : Z)
  (st : Walk) : outcome Walk :=
  if cmd <? 128 then literal_run (invalid "literal run overflow") literals (cmd + 1) st
  else
    let clen := cmd - 128 + 4 in
    let! '(source, st) := next_source sources st in
    let! '(v, st) := next_offset offsets st in
    if source =? SRC_LOCAL then copy_local v clen st
    else if source =? SRC_DICT then
      fail_if zlen dict_bytes =? 0 with Error (invalid "file dict copy out of bounds") ;;
      copy_window (invalid "file dict copy out of bounds") (invalid "copy overflow")
        dict_bytes v clen st
    else if source =? SRC_SHARED then
      copy_window (invalid "shared dict copy out of bounds") (invalid "copy overflow")
        shared_bytes v clen st
    else Err (Error (InvalidDescriptor (UnknownCopySource source))).

(** One command of SEQUENCE_DEEP. *)
Definition step_deep (literals offsets lengths : bytes) (cmd : Z) (st : Walk) : outcome Walk :=
  if cmd <=? DEEP_LIT_MAX then literal_run (invalid "literal run overflow") literals (cmd + 1) st
  else if cmd <=? DEEP_COPY_MAX then
    let! '(d, st) := next_offset offsets st in
    let! st := copy_local d (4 + (cmd - DEEP_COPY_MIN)) st in
    Ok (set_reps d (wk_rep0 st) st)
  else if cmd <=? DEEP_REP0_MAX then copy_local (wk_rep0 st) (4 + (cmd - DEEP_REP0_MIN)) st
  else if cmd <=? DEEP_REP1_MAX then copy_local (wk_rep1 st) (4 + (cmd - DEEP_REP1_MIN)) st
  else if cmd =? DEEP_XCOPY then
    let! '(extra, st) := next_length lengths st in
    let! '(d, st) := next_offset offsets st in
    let! st := copy_local d (68 + extra) st in
    Ok (set_reps d (wk_rep0 st) st)
  else if cmd =? DEEP_XLIT then
    let! '(extra, st) := next_length lengths st in
    literal_run (invalid "extended literal run overflow") literals (129 + extra) st
  else Err (Error (InvalidDescriptor (ReservedDeepCommand cmd))).

(** [u32::from_le_bytes(offsets[off..off + 4])]. *)
Definition next_base_offset (offsets : bytes) (st : Walk) : outcome (Z * Walk) :=
  fail_if zlen offsets <? wk_off st + 4
    with Error (residual_failed "base-sequence copy offset exhausted") ;;
  let! s := get_slice offsets (wk_off st) (wk_off st + 4) in
  Ok (from_le s, advance_off 4 st).

(** One command of a base-sequence residual. *)
Definition step_base (literals offsets base : bytes) (cmd : Z) (st : Walk) : outcome Walk :=
  if cmd <? 128 then
    literal_run (residual_failed "base-sequence literal run overflow") literals (cmd + 1) st
  else
    let clen := cmd - 128 + 4 in
    let! '(boff, st) := next_base_offset offsets st in
    copy_window (residual_failed "base-sequence copy out of base bounds")
      (residual_failed "base-sequence copy overflow") base boff clen st.

(** [for &cmd in &commands]. *)
Fixpoint walk (step : Z -> Walk -> outcome Walk) (commands : bytes) (st : Walk) : outcome Walk :=
  match commands with
  | [] => Ok st
  | cmd :: commands' => let! st := step cmd st in walk step commands' st
  end.

(** The final coverage check of the four sequence families. *)
Definition finish_walk (msg : String.string) (literals : bytes) (st : Walk) : outcome (bytes * Z) :=
  fail_if negb (wk_pos st =? zlen (wk_out st)) || negb (wk_lit st =? zlen literals)
    with Error (invalid msg) ;;
  Ok (wk_out st, wk_budget st).

(** ** The SPARSE_BLOCK64 loop *)

(** [for (j, &p) in positions.iter().enumerate()]: place one word's literals. *)
Fixpoint scatter_word (positions : list Z) (j base lit : Z) (literals output : bytes)
  : outcome bytes :=
  match positions with
  | [] => Ok output
  | p :: positions' =>
      let out_pos := base + p in
      fail_if zlen output <=? out_pos
        with Error (invalid "sparse-block64 position out of bounds") ;;
      let! v := get_idx literals (lit + j) in
      let! output := set_idx output out_pos v in
      scatter_word positions' (j + 1) base lit literals output
  end.

(** [for (w, &k) in popcounts.iter().enumerate()]: buffer, literal cursor
    and budget at the end. *)
Fixpoint block64_loop (popcounts : bytes) (w : Z) (ranks literals : bytes) (rank lit budget : Z)
  (output : bytes) : outcome (bytes * Z * Z) :=
  match popcounts with
  | [] => Ok (output, lit, budget)
  | k :: popcounts' =>
      if k =? 0 then block64_loop popcounts' (w + 1) ranks literals rank lit budget output
      else
        fail_if (64 <? k) || (zlen ranks <? rank + 8) || (zlen literals <? lit + k)
          with Error (invalid "sparse-block64 stream inconsistency") ;;
        let! rb := get_slice ranks rank (rank + 8) in
        let r := from_le rb in
        let! positions := map_err (trap_map (fun e => InvalidDescriptor (OfRank e)))
          (unrank_comb_subset r 64 k) in
        fail_if negb (zlen positions =? k)
          with Error (invalid "sparse-block64 rank length mismatch") ;;
        let! output := scatter_word positions 0 (w * 8) lit literals output in
        let! budget := spend (k + 1) budget in
        block64_loop popcounts' (w + 1) ranks literals (rank + 8) (lit + k) budget output
  end.

(** * The interpreter *)

Section Interpreter.
Context `{DecoderContext} (limits : Limits).

Definition alloc_too_large (n : Z) : MaterializeError := AllocTooLarge n (max_alloc_bytes limits).

(** ** Residuals *)

Definition apply_xor_sparse (edits : list Edit) (len : Z) (base : bytes) (budget : Z) (out : bytes)
  : outcome (bytes * Z) :=
  let! s := get_slice base 0 len in
  let! out := copy_from_slice out 0 len s in
  apply_edits edits len budget out.

Definition apply_range_replace (changes : list RangeChange) (literals : bytes) (len : Z)
  (base : bytes) (budget : Z) (out : bytes) : outcome (bytes * Z) :=
  let! s := get_slice base 0 len in
  let! out := copy_from_slice out 0 len s in
  apply_changes changes len literals 0 budget out.

Definition apply_rans_coded (enc_obj model : ChunkId) (scale_bits : Z) (codec : RansCodec)
  (decoded_len len : Z) (base : bytes) (budget : Z) (out : bytes) : outcome (bytes * Z) :=
  fail_if negb (decoded_len =? len) with Error (residual_failed "residual decoded length mismatch") ;;
  fail_if max_alloc_bytes limits <? decoded_len with Error (alloc_too_large decoded_len) ;;
  let! model_bytes := safe (fetch_object model) in
  fail_if max_model_bytes limits <? zlen model_bytes
    with Error (invalid "residual model object too large") ;;
  let! encoded := safe (fetch_object enc_obj) in
  let! decoded := safe (decode_rans model_bytes encoded scale_bits codec len) in
  fail_if negb (zlen decoded =? len) with Error (residual_failed "residual rans length mismatch") ;;
  let! out := xor_loop (Z.to_nat len) 0 base decoded out in
  Ok (out, budget).

Definition apply_base_sequence (len : Z) (enc_obj model : ChunkId) (scale_bits : Z)
  (codec : RansCodec) (seq_len lit_len off_len cmds lit_out : Z) (base : bytes) (budget : Z)
  (out : bytes) : outcome (bytes * Z) :=
  fail_if negb (len =? zlen out)
    with Error (residual_failed "base-sequence residual output length mismatch") ;;
  fail_if len <? cmds
    with Error (residual_failed "base-sequence command count exceeds output length") ;;
  let! d := map_err (trap_map (fun e => ResidualFailed (OfMaterialize e)))
    (decode_three_streams limits
      {| sr_model := model; sr_enc_obj := enc_obj; sr_scale_bits := scale_bits; sr_codec := codec |}
      {| ts_seq_len := seq_len; ts_lit_len := lit_len; ts_off_len := off_len; ts_cmds := cmds;
         ts_lit_out := lit_out |} None 4) in
  let! st := walk (step_base (d_literals d) (d_offsets d) base) (d_commands d)
    (Walk_start out budget) in
  fail_if negb (wk_pos st =? zlen (wk_out st))
    with Error (residual_failed "base-sequence command walk did not cover the output") ;;
  Ok (wk_out st, wk_budget st).

Definition apply_residual (residual : Residual) (base : bytes) (budget : Z) (out : bytes)
  : outcome (bytes * Z) :=
  let len := Residual_len residual in
  fail_if negb (zlen out =? len) with Error (residual_failed "residual output length mismatch") ;;
  fail_if negb (is_base_sequence residual) && (zlen base <? len)
    with Error (residual_failed "base shorter than residual") ;;
  match residual with
  | XorSparse _ edits => apply_xor_sparse edits len base budget out
  | RangeReplace _ changes literals => apply_range_replace changes literals len base budget out
  | RansCoded _ enc_obj model scale_bits codec decoded_len =>
      apply_rans_coded enc_obj model scale_bits codec decoded_len len base budget out
  | BaseSequence len enc_obj model scale_bits codec seq_len lit_len off_len cmds lit_out =>
      apply_base_sequence len enc_obj model scale_bits codec seq_len lit_len off_len cmds lit_out
        base budget out
  end.

(** ** Terminal families *)

Definition materialize_inline (data : bytes) (budget : Z) (output : bytes) : outcome (bytes * Z) :=
  fail_if negb (zlen data =? zlen output) with Error (invalid "inline length mismatch") ;;
  let! output := copy_all output data in
  Ok (output, budget).

Definition materialize_raw (obj : ChunkId) (len budget : Z) (output : bytes)
  : outcome (bytes * Z) :=
  let! b := safe (fetch_object obj) in
  fail_if negb (zlen b =? len) with Error (invalid "raw object length mismatch") ;;
  let! output := copy_all output b in
  Ok (output, budget).

Definition materialize_rans (model enc_obj : ChunkId) (scale_bits : Z) (codec : RansCodec)
  (len budget : Z) (output : bytes) : outcome (bytes * Z) :=
  fail_if max_alloc_bytes limits <? len with Error (alloc_too_large len) ;;
  let! model_bytes := safe (fetch_object model) in
  fail_if max_model_bytes limits <? zlen model_bytes with Error (invalid "model object too large") ;;
  let! encoded := safe (fetch_object enc_obj) in
  let! decoded := safe (decode_rans model_bytes encoded scale_bits codec len) in
  fail_if negb (zlen decoded =? len) with Error (invalid "rans decoded length mismatch") ;;
  let! output := copy_all output decoded in
  Ok (output, budget).

(** ** Configurational families *)

Definition materialize_sparse (k rank : Z) (literals : bytes) (len budget : Z) (output : bytes)
  : outcome (bytes * Z) :=
  let output := fill 0 output in
  fail_if len <? k with Error (invalid "sparse k exceeds length") ;;
  let! positions := map_err (trap_map (fun e => InvalidDescriptor (OfRank e)))
    (unrank_comb_subset rank len k) in
  fail_if negb (zlen positions =? k) || negb (zlen literals =? k)
    with Error (invalid "sparse rank/literal mismatch") ;;
  let! output := scatter positions 0 literals output in
  Ok (output, budget).

Definition materialize_palette (palette : bytes) (counts : list Z) (rank len budget : Z)
  (output : bytes) : outcome (bytes * Z) :=
  let! symbols := map_err (trap_map (fun e => InvalidDescriptor (OfRank e)))
    (safe (unrank_multinomial rank len counts)) in
  fail_if negb (zlen symbols =? zlen output)
    with Error (invalid "palette unrank length mismatch") ;;
  let! output := substitute symbols 0 palette output in
  Ok (output, budget).

Definition materialize_periodic (period : Z) (pattern : bytes) (count : Z) (tail : bytes)
  (budget : Z) (output : bytes) : outcome (bytes * Z) :=
  fail_if (period =? 0) || negb (zlen pattern =? period)
    with Error (invalid "periodic pattern mismatch") ;;
  let! '(output, written, budget) :=
    periodic_loop (Z.to_nat count) period pattern 0 budget output in
  fail_if negb (written + zlen tail =? zlen output) with Error (invalid "periodic tail mismatch") ;;
  let! output := copy_from_slice output written (zlen output) tail in
  Ok (output, budget).

Definition materialize_permutation (rank : Z) (alphabet : bytes) (len budget : Z) (output : bytes)
  : outcome (bytes * Z) :=
  let m := len in
  fail_if (m =? 0) || (34 <? m) with Error (invalid "permutation length out of range") ;;
  fail_if negb (zlen alphabet =? m) with Error (invalid "permutation alphabet mismatch") ;;
  let! seq := map_err (trap_map (fun e => InvalidDescriptor (OfRank e)))
    (safe (unrank_permutation rank m)) in
  let! output := substitute seq 0 alphabet output in
  Ok (output, budget).

Definition materialize_entropy_ref (universe : UniverseId) (seed : bytes) (coordinate : Z)
  (transform : TransformId) (residual : Residual) (len budget : Z) (output : bytes)
  : outcome (bytes * Z) :=
  let! generated := safe (universe_bytes universe seed coordinate 0 len) in
  fail_if negb (zlen generated =? len) with Error (Universe (Msg "universe length mismatch")) ;;
  match residual with
  | XorSparse rlen edits =>
      fail_if negb (rlen =? len) with Error (residual_failed "entropy residual length mismatch") ;;
      let! output := copy_all output generated in
      let! output := apply_entropy_edits edits len output in
      Ok (output, budget)
  | RangeReplace _ _ _ =>
      Err (Error (residual_failed "range-replace residual not valid for entropy ref v1"))
  | RansCoded _ _ _ _ _ _ =>
      let diff := vec 0 len in
      let! '(diff, budget) := apply_residual residual generated budget diff in
      let! output := copy_all output diff in
      Ok (output, budget)
  | BaseSequence _ _ _ _ _ _ _ _ _ _ =>
      Err (Error (residual_failed "base-sequence residual not valid for entropy ref v1"))
  end.

(** ** Stream families *)

Definition refs (model enc_obj : ChunkId) (scale_bits : Z) (codec : RansCodec) : StreamRefs :=
  {| sr_model := model; sr_enc_obj := enc_obj; sr_scale_bits := scale_bits; sr_codec := codec |}.

Definition materialize_sequence_rans (model enc_obj : ChunkId) (scale_bits : Z) (codec : RansCodec)
  (seq_len lit_len off_len cmds lit_out len budget : Z) (output : bytes) : outcome (bytes * Z) :=
  fail_if max_alloc_bytes limits <? len with Error (alloc_too_large len) ;;
  fail_if len <? cmds with Error (invalid "sequence command count exceeds output length") ;;
  let! d := decode_three_streams limits (refs model enc_obj scale_bits codec)
    {| ts_seq_len := seq_len; ts_lit_len := lit_len; ts_off_len := off_len; ts_cmds := cmds;
       ts_lit_out := lit_out |} None 2 in
  let! st := walk (step_sequence (d_literals d) (d_offsets d)) (d_commands d)
    (Walk_start output budget) in
  finish_walk "sequence command walk did not cover the output" (d_literals d) st.

Definition materialize_sparse_block64 (model enc_obj : ChunkId) (scale_bits : Z)
  (codec : RansCodec) (pc_len rank_len lit_len words nonzero lit_out len budget : Z)
  (output : bytes) : outcome (bytes * Z) :=
  fail_if max_alloc_bytes limits <? len with Error (alloc_too_large len) ;;
  fail_if saturating_mul 64 words 8 <? len
    with Error (invalid "sparse-block64 word count does not cover the output") ;;
  let! d := map_err (trap_map (fun e => SequenceFailed (OfMaterialize e)))
    (decode_three_streams limits (refs model enc_obj scale_bits codec)
      {| ts_seq_len := pc_len; ts_lit_len := lit_len; ts_off_len := rank_len; ts_cmds := words;
         ts_lit_out := lit_out |} (Some nonzero) 8) in
  fail_if negb (zlen (d_commands d) =? words)
    with Error (invalid "sparse-block64 popcount count mismatch") ;;
  let output := fill 0 output in
  let! '(output, lit, budget) :=
    block64_loop (d_commands d) 0 (d_offsets d) (d_literals d) 0 0 budget output in
  fail_if negb (lit =? zlen (d_literals d))
    with Error (invalid "sparse-block64 literal count mismatch") ;;
  Ok (output, budget).

Definition materialize_sequence_deep (model enc_obj : ChunkId) (scale_bits : Z)
  (codec : RansCodec) (seq_len lit_len off_len len_len cmds lit_out len budget : Z)
  (output : bytes) : outcome (bytes * Z) :=
  fail_if max_alloc_bytes limits <? len with Error (alloc_too_large len) ;;
  fail_if len <? cmds with Error (invalid "sequence command count exceeds output length") ;;
  let! d := decode_deep_streams limits (refs model enc_obj scale_bits codec)
    {| dl_seq_len := seq_len; dl_lit_len := lit_len; dl_off_len := off_len; dl_len_len := len_len;
       dl_cmds := cmds; dl_lit_out := lit_out |} in
  let! st := walk (step_deep (dp_literals d) (dp_offsets d) (dp_lengths d)) (dp_commands d)
    (Walk_start output budget) in
  finish_walk "deep command walk did not cover the output" (dp_literals d) st.

(** ** Reference families

    [rec] is the recursive call [materialize(.., depth + 1, budget, ..)]. *)
Section Rec.
Context (rec : Representation -> Z -> Z -> bytes -> outcome (bytes * Z)).

(** The call [materialize(&desc, ctx, limits, depth + 1, budget, &mut vec![0; n])]. *)
Definition materialize_nested (desc : Representation) (n depth budget : Z)
  : outcome (bytes * Z) :=
  let! depth := ok_or (checked_add 8 depth 1) Panic in
  rec desc depth budget (vec 0 n).

(** Fetch a nested chunk of a declared length. *)
Definition fetch_nested (id : ChunkId) (n : Z) (msg : String.string) (depth budget : Z)
  : outcome (bytes * Z) :=
  let! desc := safe (fetch_descriptor id) in
  fail_if negb (Representation_len desc =? n) with Error (invalid msg) ;;
  materialize_nested desc n depth budget.

Definition materialize_exact_ref (target : ChunkId) (off len depth budget : Z) (output : bytes)
  : outcome (bytes * Z) :=
  let! target_desc := safe (fetch_descriptor target) in
  fail_if Representation_len target_desc <? off + len with Error RangeOutOfBounds ;;
  let target_len := Representation_len target_desc in
  fail_if max_alloc_bytes limits <? target_len with Error (alloc_too_large target_len) ;;
  let! '(full, budget) := materialize_nested target_desc target_len depth budget in
  let! s := get_slice full off (off + len) in
  let! output := copy_all output s in
  Ok (output, budget).

Definition materialize_base_residual (base : ChunkId) (base_len : Z) (residual : Residual)
  (depth budget : Z) (output : bytes) : outcome (bytes * Z) :=
  fail_if max_alloc_bytes limits <? base_len with Error (alloc_too_large base_len) ;;
  let! '(base_bytes, budget) := fetch_nested base base_len "base length mismatch" depth budget in
  apply_residual residual base_bytes budget output.

Definition materialize_sequence_dict (dictionary : ChunkId) (dictionary_len : Z)
  (model enc_obj : ChunkId) (scale_bits : Z) (codec : RansCodec)
  (seq_len lit_len off_len src_len cmds lit_out len depth budget : Z) (output : bytes)
  : outcome (bytes * Z) :=
  fail_if max_alloc_bytes limits <? len with Error (alloc_too_large len) ;;
  fail_if len <? cmds with Error (invalid "sequence command count exceeds output length") ;;
  fail_if max_alloc_bytes limits <? dictionary_len with Error (alloc_too_large dictionary_len) ;;
  let! '(dict_bytes, budget) :=
    fetch_nested dictionary dictionary_len "dictionary length mismatch" depth budget in
  let! d := decode_four_streams limits (refs model enc_obj scale_bits codec)
    {| fs_seq_len := seq_len; fs_lit_len := lit_len; fs_off_len := off_len;
       fs_src_len := src_len; fs_cmds := cmds; fs_lit_out := lit_out |} in
  let! st := walk (step_dict (dd_literals d) (dd_offsets d) (dd_sources d) dict_bytes)
    (dd_commands d) (Walk_start output budget) in
  finish_walk "sequence command walk did not cover the output" (dd_literals d) st.

(** The optional file dictionary: absent when its id is zero. *)
Definition file_dictionary (dictionary : ChunkId) (dictionary_len depth budget : Z)
  : outcome (bytes * Z) :=
  if negb (ChunkId_is_zero dictionary) then
    fail_if max_alloc_bytes limits <? dictionary_len
      with Error (alloc_too_large dictionary_len) ;;
    fetch_nested dictionary dictionary_len "file dictionary length mismatch" depth budget
  else Ok ([], budget).

Definition materialize_sequence_shared_dict (dictionary : ChunkId) (dictionary_len : Z)
  (shared : ChunkId) (shared_len : Z) (model enc_obj : ChunkId) (scale_bits : Z)
  (codec : RansCodec) (seq_len lit_len off_len src_len cmds lit_out len depth budget : Z)
  (output : bytes) : outcome (bytes * Z) :=
  fail_if max_alloc_bytes limits <? len with Error (alloc_too_large len) ;;
  fail_if len <? cmds with Error (invalid "sequence command count exceeds output length") ;;
  fail_if max_alloc_bytes limits <? shared_len with Error (alloc_too_large shared_len) ;;
  let! '(shared_bytes, budget) :=
    fetch_nested shared shared_len "shared dictionary length mismatch" depth budget in
  let! '(dict_bytes, budget) := file_dictionary dictionary dictionary_len depth budget in
  let! d := decode_four_streams limits (refs model enc_obj scale_bits codec)
    {| fs_seq_len := seq_len; fs_lit_len := lit_len; fs_off_len := off_len;
       fs_src_len := src_len; fs_cmds := cmds; fs_lit_out := lit_out |} in
  let! st := walk (step_shared (dd_literals d) (dd_offsets d) (dd_sources d) dict_bytes shared_bytes)
    (dd_commands d) (Walk_start output budget) in
  finish_walk "sequence command walk did not cover the output" (dd_literals d) st.

(** Stage 2: the family dispatch. *)
Definition materialize_family (desc : Representation) (depth budget : Z) (output : bytes)
  : outcome (bytes * Z) :=
  match desc with
  | Zero _ => Ok (fill 0 output, budget)
  | Fill value _ => Ok (fill value output, budget)
  | Inline data => materialize_inline data budget output
  | Raw obj len => materialize_raw obj len budget output
  | Rans model enc_obj scale_bits codec len =>
      materialize_rans model enc_obj scale_bits codec len budget output
  | ExactRef target off len => materialize_exact_ref target off len depth budget output
  | BaseResidual base base_len residual _ =>
      materialize_base_residual base base_len residual depth budget output
  | Sparse k rank literals len => materialize_sparse k rank literals len budget output
  | Palette palette counts rank len => materialize_palette palette counts rank len budget output
  | Periodic period pattern count tail _ =>
      materialize_periodic period pattern count tail budget output
  | EntropyRef universe seed coordinate transform residual len =>
      materialize_entropy_ref universe seed coordinate transform residual len budget output
  | Permutation rank alphabet len => materialize_permutation rank alphabet len budget output
  | SequenceRans model enc_obj scale_bits codec seq_len lit_len off_len cmds lit_out len =>
      materialize_sequence_rans model enc_obj scale_bits codec seq_len lit_len off_len cmds
        lit_out len budget output
  | SparseBlock64 model enc_obj scale_bits codec pc_len rank_len lit_len words nonzero lit_out
      len =>
      materialize_sparse_block64 model enc_obj scale_bits codec pc_len rank_len lit_len words
        nonzero lit_out len budget output
  | SequenceDict dictionary dictionary_len model enc_obj scale_bits codec seq_len lit_len off_len
      src_len cmds lit_out len =>
      materialize_sequence_dict dictionary dictionary_len model enc_obj scale_bits codec seq_len
        lit_len off_len src_len cmds lit_out len depth budget output
  | SequenceSharedDict dictionary dictionary_len shared shared_len model enc_obj scale_bits codec
      seq_len lit_len off_len src_len cmds lit_out len =>
      materialize_sequence_shared_dict dictionary dictionary_len shared shared_len model enc_obj
        scale_bits codec seq_len lit_len off_len src_len cmds lit_out len depth budget output
  | SequenceDeep model enc_obj scale_bits codec seq_len lit_len off_len len_len cmds lit_out len =>
      materialize_sequence_deep model enc_obj scale_bits codec seq_len lit_len off_len len_len
        cmds lit_out len budget output
  end.
End Rec.

(** [materialize].  The depth cap stops the recursion after at most
    [max_reference_depth + 2] calls, the fuel [materialize] is given. *)
Fixpoint materialize_loop (fuel : nat) (desc : Representation) (depth budget : Z) (output : bytes)
  : outcome (bytes * Z) :=
  match fuel with
  | O => Err Panic
  | S fuel' =>
      fail_if negb (zlen output =? Representation_len desc)
        with Error (invalid "output length does not match descriptor length") ;;
      fail_if max_chunk_size limits <? Representation_len desc
        with Error (OutputTooLarge (Representation_len desc) (max_chunk_size limits)) ;;
      fail_if max_reference_depth limits <? depth
        with Error (DepthExceeded depth (max_reference_depth limits)) ;;
      let! budget := spend (Representation_len desc / 8 + 1) budget in
      materialize_family (materialize_loop fuel') desc depth budget output
  end.

Definition materialize (desc : Representation) (depth budget : Z) (output : bytes)
  : outcome (bytes * Z) :=
  materialize_loop (Z.to_nat (max_reference_depth limits - depth) + 2) desc depth budget output.

Definition materialize_to_vec (desc : Representation) : outcome bytes :=
  let len := Representation_len desc in
  fail_if max_alloc_bytes limits <? len with Error (alloc_too_large len) ;;
  let out := vec 0 len in
  let budget := max_decode_work limits in
  let! '(out, _) := materialize desc 0 budget out in
  Ok out.
End Interpreter.
