(* ===== verification/MaterializeSafe.v ===== *)
(** Safety of the interpreter ([core/materialize.rs]): on validated
    descriptors no step panics, every run ends in an exact-length byte
    string or a typed error, the work budget only decreases, and the depth
    cap stops every reference chain, cyclic ones included. *)
From Stdlib Require String.
From S2P Require Import Prelude Binomial Codec Rank Repr Descriptor Context Streams Materialize.

(** * Steps *)

(** A buffer of the same length, still of bytes, and no budget gained. *)
Definition good (n budget : Z) (r : bytes * Z) : Prop :=
  zlen r.1 = n /\ wf_bytes r.1 /\ 0 <= r.2 <= budget.

Lemma spend_wp n budget (P : Z -> Prop) :
  (n <= budget -> P (budget - n)) -> wp (spend n budget) P.
Proof. intros HP. unfold spend. wp_steps. by apply HP. Qed.

Lemma copy_all_wp output src (P : bytes -> Prop) :
  zlen src = zlen output -> P src -> wp (copy_all output src) P.
Proof.
  intros Hl HP. unfold copy_all. apply wp_copy_from_slice; [pose proof (zlen_nonneg output); lia | lia |].
  unfold splice. rewrite take_0, drop_ge by (unfold zlen in *; lia). by rewrite app_nil_r.
Qed.

Lemma fill_facts v output : is_u8 v -> zlen (fill v output) = zlen output /\ wf_bytes (fill v output).
Proof.
  intros Hv. unfold fill. split; [by rewrite zlen_map|]. apply Forall_map, Forall_true. done.
Qed.

Lemma lxor_u8 a b : is_u8 a -> is_u8 b -> is_u8 (Z.lxor a b).
Proof.
  unfold in_width. intros Ha Hb.
  assert (E : Z.lxor a b = Z.land (Z.lxor a b) (Z.ones 8)).
  { apply Z.bits_inj'. intros n Hn. rewrite Z.land_spec, Z.lxor_spec.
    destruct (Z.lt_ge_cases n 8).
    - rewrite Z.ones_spec_low by lia. by rewrite andb_true_r.
    - rewrite <-(Z.mod_small a (2 ^ 8)), <-(Z.mod_small b (2 ^ 8)) by done.
      rewrite !Z.mod_pow2_bits_high by lia. done. }
  rewrite E, Z.land_ones by lia. apply Z.mod_pos_bound. done.
Qed.

Lemma set_idx_wp out i v n (P : bytes -> Prop) :
  zlen out = n -> wf_bytes out -> is_u8 v -> 0 <= i < n ->
  (forall out', zlen out' = n -> wf_bytes out' -> P out') ->
  wp (E := MaterializeError) (set_idx out i v) P.
Proof.
  intros Hn Hw Hv Hi HP. apply wp_set_idx; [lia|]. apply HP; [by rewrite zlen_insert|].
  by apply wf_bytes_insert.
Qed.

Lemma get_idx_wp l i (P : Z -> Prop) :
  wf_bytes l -> 0 <= i < zlen l -> (forall v, is_u8 v -> P v) ->
  wp (E := MaterializeError) (get_idx l i) P.
Proof. intros Hw Hi HP. apply wp_get_idx; [done|]. intros v Hv. apply HP. by eapply wf_bytes_lookup. Qed.

(** [out[s..e].copy_from_slice(&src[a..b])] with both windows in range. *)
Lemma copy_range_wp src a b out s e n (P : bytes -> Prop) :
  wf_bytes src -> wf_bytes out -> zlen out = n -> 0 <= a -> a <= b <= zlen src ->
  0 <= s -> s <= e <= n -> b - a = e - s ->
  (forall out', zlen out' = n -> wf_bytes out' -> P out') ->
  wp (E := MaterializeError)
     (rbind (get_slice src a b) (fun sl => copy_from_slice out s e sl)) P.
Proof.
  intros Hs Ho Hn Ha Hab Hs0 Hse Hd HP. wp_step. apply wp_get_slice; [done|].
  apply wp_copy_from_slice; [lia | rewrite zlen_slice; lia |].
  apply HP; [rewrite zlen_splice; rewrite ?zlen_slice; lia|].
  apply wf_bytes_splice; [by apply wf_bytes_slice | done].
Qed.

Lemma wp_assoc {A B C} (m : outcome A) (k : A -> outcome B) (h : B -> outcome C) P :
  wp (rbind (rbind m k) h) P -> wp (rbind m (fun a => rbind (k a) h)) P.
Proof. by destruct m as [a|[e|]]. Qed.

Lemma scatter_wp ps i literals out n :
  Forall (fun p => 0 <= p < n) ps -> 0 <= i -> i + zlen ps <= zlen literals -> wf_bytes literals ->
  zlen out = n -> wf_bytes out ->
  wp (scatter ps i literals out) (fun out' => zlen out' = n /\ wf_bytes out').
Proof.
  intros Hp. revert i out. induction Hp as [|p ps Hp _ IH]; intros i out Hi Hl Hw Hn Ho; cbn [scatter].
  - done.
  - rewrite zlen_cons in Hl. pose proof (zlen_nonneg ps). wp_step.
    apply get_idx_wp; [done | lia |]. intros v Hv. wp_step.
    eapply set_idx_wp; [done..|lia|]. intros out' Hn' Ho'. apply IH; done || lia.
Qed.

Lemma substitute_wp ss i table out n :
  Forall (fun s => 0 <= s < zlen table) ss -> 0 <= i -> i + zlen ss <= n -> wf_bytes table ->
  zlen out = n -> wf_bytes out ->
  wp (substitute ss i table out) (fun out' => zlen out' = n /\ wf_bytes out').
Proof.
  intros Hp. revert i out. induction Hp as [|s ss Hs _ IH]; intros i out Hi Hl Hw Hn Ho; cbn [substitute].
  - done.
  - rewrite zlen_cons in Hl. pose proof (zlen_nonneg ss). wp_step.
    apply get_idx_wp; [done | lia |]. intros v Hv. wp_step.
    eapply set_idx_wp; [done..|lia|]. intros out' Hn' Ho'. apply IH; done || lia.
Qed.

Lemma scatter_word_wp ps j base lit literals out n :
  Forall (fun p => 0 <= p < 64) ps -> 0 <= j -> 0 <= lit -> 0 <= base ->
  lit + j + zlen ps <= zlen literals -> wf_bytes literals -> zlen out = n -> wf_bytes out ->
  wp (scatter_word ps j base lit literals out) (fun out' => zlen out' = n /\ wf_bytes out').
Proof.
  intros Hp. revert j out. induction Hp as [|p ps Hp _ IH]; intros j out Hj Hlit Hb Hl Hw Hn Ho;
    cbn [scatter_word]; [done|].
  rewrite zlen_cons in Hl. pose proof (zlen_nonneg ps). wp_steps.
  apply get_idx_wp; [done | lia |]. intros v Hv. wp_step.
  eapply set_idx_wp; [done..|lia|]. intros out' Hn' Ho'. apply IH; done || lia.
Qed.

Lemma periodic_loop_wp count period pattern written budget out n :
  0 <= written <= n -> 0 < period -> zlen pattern = period -> wf_bytes pattern ->
  zlen out = n -> wf_bytes out -> 0 <= budget ->
  wp (periodic_loop count period pattern written budget out)
     (fun '(out', w', b') => good n budget (out', b') /\ 0 <= w' <= n).
Proof.
  intros Hw Hp Hl Hpw. revert written budget out Hw.
  induction count as [|count IH]; intros written budget out Hw Hn Ho Hb; cbn [periodic_loop].
  - split; [|done]. split_and!; try done; cbn; lia.
  - cbv zeta. wp_steps. apply wp_copy_from_slice; [lia | lia |]. wp_step.
    apply spend_wp. intros Hs. pose proof (Z.div_pos period 8).
    wp_use IH; try lia.
    + rewrite zlen_splice; lia.
    + by apply wf_bytes_splice.
    + intros [[out' w'] b'] [(? & ? & ?) ?]. cbn in *. unfold good. cbn. split_and!; try done; lia.
Qed.

Lemma entropy_edits_wp edits len out :
  Forall wf_edit edits -> zlen out = len -> wf_bytes out ->
  wp (apply_entropy_edits edits len out) (fun out' => zlen out' = len /\ wf_bytes out').
Proof.
  intros He. revert out. induction He as [|e edits [Hp Hv] _ IH]; intros out Hn Ho;
    cbn [apply_entropy_edits]; [done|].
  wp_steps. apply get_idx_wp; [done | width |]. intros v Hv'. wp_step.
  eapply set_idx_wp; [done | done | by apply lxor_u8 | width |]. intros. by apply IH.
Qed.

Lemma apply_edits_wp edits len budget out :
  Forall wf_edit edits -> zlen out = len -> wf_bytes out -> 0 <= budget ->
  wp (apply_edits edits len budget out) (good len budget).
Proof.
  intros He. revert budget out. induction He as [|e edits [Hp Hv] _ IH]; intros budget out Hn Ho Hb;
    cbn [apply_edits].
  - split_and!; cbn; done || lia.
  - wp_steps. apply get_idx_wp; [done | width |]. intros v Hv'. wp_step.
    eapply set_idx_wp; [done | done | by apply lxor_u8 | width |]. intros out' ? ?. wp_step.
    apply spend_wp. intros. wp_use IH; [done | done | lia |].
    intros r (? & ? & ?). split_and!; done || lia.
Qed.

Lemma apply_changes_wp changes len literals lit budget out :
  Forall wf_change changes -> wf_bytes literals -> 0 <= lit -> zlen out = len -> wf_bytes out ->
  0 <= budget ->
  wp (apply_changes changes len literals lit budget out) (good len budget).
Proof.
  intros Hc Hl. revert lit budget out. induction Hc as [|c changes [Hs He] _ IH];
    intros lit budget out Hlit Hn Ho Hb; cbn [apply_changes].
  - split_and!; cbn; done || lia.
  - cbv zeta. wp_step. wp_step. apply wp_assoc, wp_bind.
    eapply copy_range_wp; [done.. | width | width | width | width | lia |].
    intros out' ? ?. wp_step. apply spend_wp. intros. wp_use IH; [lia | done | done | lia |].
    intros r (? & ? & ?). split_and!; try done; lia.
Qed.

Lemma xor_loop_wp todo i base decoded out n :
  0 <= i -> i + Z.of_nat todo <= n -> n <= zlen base -> zlen decoded = n -> zlen out = n ->
  wf_bytes base -> wf_bytes decoded -> wf_bytes out ->
  wp (xor_loop todo i base decoded out) (fun out' => zlen out' = n /\ wf_bytes out').
Proof.
  intros Hi Hn Hb Hd Ho Wb Wd. revert i out Hi Hn Ho.
  induction todo as [|todo IH]; intros i out Hi Hn Ho Wo; cbn [xor_loop]; [done|].
  wp_step. apply get_idx_wp; [done | lia |]. intros a Ha. wp_step.
  apply get_idx_wp; [done | lia |]. intros b Hb'. wp_step.
  eapply set_idx_wp; [done | done | by apply lxor_u8 | lia |]. intros. apply IH; done || lia.
Qed.

(** * Command walks *)

Record walk_ok (n budget : Z) (st : Walk) : Prop := {
  wo_len : zlen (wk_out st) = n;
  wo_bytes : wf_bytes (wk_out st);
  wo_pos : 0 <= wk_pos st <= n;
  wo_lit : 0 <= wk_lit st;
  wo_off : 0 <= wk_off st;
  wo_aux : 0 <= wk_aux st;
  wo_reps : 0 <= wk_rep0 st /\ 0 <= wk_rep1 st;
  wo_budget : 0 <= wk_budget st <= budget
}.

Lemma Walk_start_ok out n budget :
  zlen out = n -> wf_bytes out -> 0 <= budget -> walk_ok n budget (Walk_start out budget).
Proof. intros <- Ho Hb. pose proof (zlen_nonneg out). split; cbn; done || lia. Qed.

Section Walks.
Context (n budget : Z).
Implicit Types (st : Walk).
Let safe_step (m : outcome Walk) : Prop := wp m (walk_ok n budget).

Lemma literal_run_wp e literals run st :
  wf_bytes literals -> 0 <= run -> walk_ok n budget st -> safe_step (literal_run e literals run st).
Proof.
  intros Hl Hr [? ? ? ? ? ? ? ?]. unfold safe_step, literal_run. wp_step.
  apply wp_assoc, wp_bind. eapply copy_range_wp; [done | done | done | lia.. |].
  intros out' ? ?. wp_step. apply spend_wp. intros. cbn. split; cbn; done || lia.
Qed.

Lemma copy_loop_wp k out pos dist :
  zlen out = n -> wf_bytes out -> 0 < dist <= pos -> pos + Z.of_nat k <= n ->
  wp (copy_loop k out pos dist) (fun '(out', pos') =>
    zlen out' = n /\ wf_bytes out' /\ pos' = pos + Z.of_nat k).
Proof.
  revert out pos. induction k as [|k IH]; intros out pos Hn Ho Hd Hk; cbn [copy_loop].
  - split_and!; done || lia.
  - unfold checked_sub. destruct (Z.leb_spec dist pos); [|lia]. cbn [ok_or rbind].
    wp_step. apply get_idx_wp; [done | lia |]. intros v Hv. wp_step.
    eapply set_idx_wp; [done..|lia|]. intros out' ? ?. wp_use IH; [done | done | lia | lia |].
    intros [o p] (? & ? & ?). split_and!; done || lia.
Qed.

Lemma copy_local_wp dist clen st :
  0 <= dist -> 0 <= clen -> walk_ok n budget st -> safe_step (copy_local dist clen st).
Proof.
  intros Hd Hc [? ? ? ? ? ? ? ?]. unfold safe_step, copy_local. wp_steps.
  wp_use copy_loop_wp; [done | done | lia | lia |]. intros [o p] (? & ? & ?). wp_steps.
  apply spend_wp. intros. cbn. split; cbn; done || lia.
Qed.

Lemma copy_window_wp e1 e2 src v clen st :
  wf_bytes src -> 0 <= v -> 0 <= clen -> walk_ok n budget st ->
  safe_step (copy_window e1 e2 src v clen st).
Proof.
  intros Hs Hv Hc [? ? ? ? ? ? ? ?]. unfold safe_step, copy_window. wp_step. wp_step.
  apply wp_assoc, wp_bind. eapply copy_range_wp; [done | done | done | lia.. |].
  intros out' ? ?. wp_step. apply spend_wp. intros. cbn. split; cbn; done || lia.
Qed.

Lemma read_u16_wp b i (P : Z -> Prop) :
  wf_bytes b -> 0 <= i -> i + 2 <= zlen b -> (forall v, 0 <= v -> P v) -> wp (read_u16 b i) P.
Proof.
  intros Hb Hi Hl HP. unfold read_u16. wp_step. apply get_idx_wp; [done | lia |].
  intros x Hx. wp_step. apply get_idx_wp; [done | lia |]. intros y Hy. apply HP.
  unfold from_le. width.
Qed.

Lemma next_offset_wp offsets st :
  wf_bytes offsets -> walk_ok n budget st ->
  wp (next_offset offsets st) (fun '(v, st') => 0 <= v /\ walk_ok n budget st').
Proof.
  intros Ho [? ? ? ? ? ? ? ?]. unfold next_offset. wp_steps. apply read_u16_wp; [done | done | lia |].
  intros v Hv. cbn. split; [done|]. split; cbn; done || lia.
Qed.

Lemma next_length_wp lengths st :
  wf_bytes lengths -> walk_ok n budget st ->
  wp (next_length lengths st) (fun '(v, st') => 0 <= v /\ walk_ok n budget st').
Proof.
  intros Ho [? ? ? ? ? ? ? ?]. unfold next_length. wp_steps. apply read_u16_wp; [done | done | lia |].
  intros v Hv. cbn. split; [done|]. split; cbn; done || lia.
Qed.

Lemma next_source_wp sources st :
  wf_bytes sources -> walk_ok n budget st ->
  wp (next_source sources st) (fun '(v, st') => walk_ok n budget st').
Proof.
  intros Ho [? ? ? ? ? ? ? ?]. unfold next_source. wp_steps. apply get_idx_wp; [done | lia |].
  intros v Hv. cbn. split; cbn; done || lia.
Qed.

Lemma next_base_offset_wp offsets st :
  wf_bytes offsets -> walk_ok n budget st ->
  wp (next_base_offset offsets st) (fun '(v, st') => 0 <= v /\ walk_ok n budget st').
Proof.
  intros Ho [? ? ? ? ? ? ? ?]. unfold next_base_offset. wp_steps. apply wp_get_slice; [lia|].
  cbn. split; [|split; cbn; done || lia]. by apply from_le_bound, wf_bytes_slice.
Qed.

Lemma set_reps_ok r0 r1 st : 0 <= r0 -> 0 <= r1 -> walk_ok n budget st -> walk_ok n budget (set_reps r0 r1 st).
Proof. intros ? ? [? ? ? ? ? ? ? ?]. split; cbn; done || lia. Qed.

(** One tactic for the four command interpreters. *)
Ltac walk_step :=
  match goal with
  | |- wp (literal_run _ _ _ _) _ => apply literal_run_wp; [done | width | done]
  | |- wp (copy_local _ _ _) _ => apply copy_local_wp; [done | lia | done]
  | |- wp (copy_window _ _ _ _ _ _) _ => apply copy_window_wp; [done | done | lia | done]
  | |- wp (rbind (next_offset _ _) _) _ =>
      wp_step; wp_use next_offset_wp; [done | done | intros [? ?] [? ?]]
  | |- wp (rbind (next_length _ _) _) _ =>
      wp_step; wp_use next_length_wp; [done | done | intros [? ?] [? ?]]
  | |- wp (rbind (next_base_offset _ _) _) _ =>
      wp_step; wp_use next_base_offset_wp; [done | done | intros [? ?] [? ?]]
  | |- wp (rbind (next_source _ _) _) _ =>
      wp_step; wp_use next_source_wp; [done | done | intros [? ?] ?]
  | |- wp (rbind (copy_local _ _ _) _) _ =>
      wp_step; wp_use copy_local_wp; [done | lia | done | intros ? ?]
  | |- wp (if _ then Err (Error _) else _) _ => wp_step
  | |- wp (if ?a <? ?b then _ else _) _ => destruct (Z.ltb_spec a b)
  | |- wp (if ?a <=? ?b then _ else _) _ => destruct (Z.leb_spec a b)
  | |- wp (if ?a =? ?b then _ else _) _ => destruct (Z.eqb_spec a b)
  | |- wp (Err (Error _)) _ => exact I
  end.

Lemma step_sequence_wp literals offsets cmd st :
  wf_bytes literals -> wf_bytes offsets -> is_u8 cmd -> walk_ok n budget st ->
  safe_step (step_sequence literals offsets cmd st).
Proof. intros. unfold safe_step, step_sequence. cbv zeta. repeat walk_step. Qed.

Lemma step_dict_wp literals offsets sources dict cmd st :
  wf_bytes literals -> wf_bytes offsets -> wf_bytes sources -> wf_bytes dict -> is_u8 cmd ->
  walk_ok n budget st -> safe_step (step_dict literals offsets sources dict cmd st).
Proof. intros. unfold safe_step, step_dict. cbv zeta. repeat walk_step. Qed.

Lemma step_shared_wp literals offsets sources dict shared cmd st :
  wf_bytes literals -> wf_bytes offsets -> wf_bytes sources -> wf_bytes dict -> wf_bytes shared ->
  is_u8 cmd -> walk_ok n budget st ->
  safe_step (step_shared literals offsets sources dict shared cmd st).
Proof. intros. unfold safe_step, step_shared. cbv zeta. repeat walk_step. Qed.

Lemma step_base_wp literals offsets base cmd st :
  wf_bytes literals -> wf_bytes offsets -> wf_bytes base -> is_u8 cmd -> walk_ok n budget st ->
  safe_step (step_base literals offsets base cmd st).
Proof. intros. unfold safe_step, step_base. cbv zeta. repeat walk_step. Qed.

Lemma step_deep_wp literals offsets lengths cmd st :
  wf_bytes literals -> wf_bytes offsets -> wf_bytes lengths -> is_u8 cmd -> walk_ok n budget st ->
  safe_step (step_deep literals offsets lengths cmd st).
Proof.
  intros ? ? ? ? Hok. pose proof (wo_reps _ _ _ Hok) as [? ?].
  unfold safe_step, step_deep, DEEP_LIT_MAX, DEEP_COPY_MIN, DEEP_COPY_MAX, DEEP_REP0_MIN,
    DEEP_REP0_MAX, DEEP_REP1_MIN, DEEP_REP1_MAX, DEEP_XCOPY, DEEP_XLIT.
  repeat walk_step;
    match goal with H : walk_ok _ _ ?st |- wp (Ok (set_reps _ _ ?st)) _ =>
      pose proof (wo_reps _ _ _ H) as [? ?]; by apply set_reps_ok end.
Qed.

Lemma walk_wp step commands st :
  (forall cmd st, is_u8 cmd -> walk_ok n budget st -> safe_step (step cmd st)) ->
  wf_bytes commands -> walk_ok n budget st -> safe_step (walk step commands st).
Proof.
  intros Hstep Hc. revert st. induction Hc as [|cmd commands Hcmd _ IH]; intros st Hok; [done|].
  cbn [walk]. unfold safe_step. wp_step. wp_use Hstep; [done | done |]. apply IH.
Qed.

Lemma finish_walk_wp msg literals st :
  walk_ok n budget st -> wp (finish_walk msg literals st) (good n budget).
Proof. intros [? ? ? ? ? ? ? ?]. unfold finish_walk. wp_steps. split_and!; cbn; done || lia. Qed.
End Walks.

Lemma block64_loop_wp popcounts w ranks literals rank lit budget out n :
  wf_bytes popcounts -> wf_bytes ranks -> wf_bytes literals -> wf_bytes out -> zlen out = n ->
  0 <= w -> 0 <= rank -> 0 <= lit -> 0 <= budget ->
  wp (block64_loop popcounts w ranks literals rank lit budget out)
     (fun '(out', _, b') => good n budget (out', b')).
Proof.
  intros Hp Hr Hl. revert w rank lit budget out.
  induction Hp as [|k popcounts Hk _ IH]; intros w rank lit budget out Ho Hn Hw Hrank Hlit Hb;
    cbn [block64_loop].
  - split_and!; cbn; done || lia.
  - destruct (Z.eqb_spec k 0); [apply IH; done || lia|]. wp_steps. apply wp_get_slice; [lia|].
    wp_steps. wp_use unrank_comb_subset_wp; [width | lia | width | |].
    { by apply from_le_bound, wf_bytes_slice. }
    intros ps [Hps Hf]. wp_steps. wp_use scatter_word_wp; [done | lia | lia | lia | lia | done..|].
    intros out' [? ?]. wp_step. apply spend_wp. intros.
    wp_use IH; [done | done | lia | lia | width | lia |].
    intros [[o l] b'] (? & ? & ?). cbn in *. split_and!; cbn; try done; width.
Qed.

Section Safe.
Context (limits : Limits) (ctx : DecoderContext) `{!ContextLaws limits ctx}.

Lemma apply_residual_wp residual base budget out :
  wf_residual residual -> wf_bytes base -> wf_bytes out -> 0 <= budget ->
  wp (apply_residual limits residual base budget out) (good (zlen out) budget).
Proof.
  intros Hwf Hb Ho Hbud. unfold apply_residual. cbv zeta. wp_steps.
  destruct residual; cbn [wf_residual Residual_len is_base_sequence negb andb] in *; destruct_and?; bools.
  - unfold apply_xor_sparse. apply wp_assoc, wp_bind.
    eapply copy_range_wp; [done | done | done | width | width | width | width | lia |].
    intros. subst len. by apply apply_edits_wp.
  - unfold apply_range_replace. apply wp_assoc, wp_bind.
    eapply copy_range_wp; [done | done | done | width | width | width | width | lia |].
    intros. subst len. by apply apply_changes_wp.
  - unfold apply_rans_coded. wp_steps.
    assert (wf_bytes v1) by (eapply decode_rans_bytes; [|eassumption]; by eapply fetch_object_bytes).
    wp_use (xor_loop_wp (Z.to_nat len) 0 base v1 out (zlen out)); try done; try width.
    intros out' [? ?]. cbn. split_and!; cbn; done || lia.
  - unfold apply_base_sequence. wp_steps. foralls.
    wp_use (decode_three_streams_wp limits ctx); [by list_forall |].
    intros d (? & ? & ? & _). wp_step. wp_use (walk_wp (zlen out) budget).
    + intros. by apply step_base_wp.
    + done.
    + by apply Walk_start_ok.
    + intros st [? ? ? ? ? ? ? ?]. wp_steps. split_and!; cbn; done || lia.
Qed.

(** The terminal, configurational and stream arms. *)
Lemma materialize_inline_wp data budget out :
  wf_bytes data -> 0 <= budget -> wp (materialize_inline data budget out) (good (zlen out) budget).
Proof.
  intros. unfold materialize_inline. wp_steps. apply copy_all_wp; [done|]. wp_steps.
  split_and!; cbn; done || lia.
Qed.

Lemma materialize_raw_wp obj len budget out :
  zlen out = len -> 0 <= budget -> wp (materialize_raw obj len budget out) (good (zlen out) budget).
Proof.
  intros. unfold materialize_raw. wp_steps. apply copy_all_wp; [lia|]. wp_steps.
  split_and!; cbn; [lia | by eapply fetch_object_bytes | lia | lia].
Qed.

Lemma materialize_rans_wp model enc_obj scale_bits codec len budget out :
  zlen out = len -> 0 <= budget ->
  wp (materialize_rans limits model enc_obj scale_bits codec len budget out) (good (zlen out) budget).
Proof.
  intros. unfold materialize_rans. wp_steps. apply copy_all_wp; [lia|]. wp_steps.
  split_and!; cbn; [lia | | lia | lia].
  eapply decode_rans_bytes; [|eassumption]. by eapply fetch_object_bytes.
Qed.

Lemma materialize_sparse_wp k rank literals len budget out :
  zlen out = len -> wf_bytes out -> is_u32 len -> 1 <= len -> 0 <= k -> 0 <= rank ->
  wf_bytes literals -> 0 <= budget ->
  wp (materialize_sparse k rank literals len budget out) (good (zlen out) budget).
Proof.
  intros Hn Ho Hlen H1 Hk Hr Hl Hb. unfold materialize_sparse. cbv zeta. wp_steps.
  wp_use unrank_comb_subset_wp; [done..|]. intros ps [Hps Hf]. wp_steps.
  destruct (fill_facts 0 out) as [Hfl Hfw]; [width|].
  wp_use (scatter_wp ps 0 literals (fill 0 out) (zlen out)); try done; try lia.
  - by rewrite Hn.
  - intros out' [? ?]. split_and!; cbn; done || lia.
Qed.

Lemma materialize_palette_wp palette counts rank len budget out :
  zlen out = len -> wf_bytes out -> wf_bytes palette -> Forall is_u32 counts ->
  zlen counts = zlen palette -> zlen palette <= 255 -> 0 <= rank -> 0 <= budget ->
  wp (materialize_palette palette counts rank len budget out) (good (zlen out) budget).
Proof.
  intros Hn Ho Hp Hc Hl H255 Hr Hb. unfold materialize_palette. wp_steps.
  pose proof (zlen_nonneg out).
  destruct (unrank_multinomial_range rank len counts v) as [? Hf]; [lia | done | done | lia | done |].
  wp_use (substitute_wp v 0 palette out (zlen out)); try done; try lia.
  - by rewrite <-Hl.
  - intros out' [? ?]. split_and!; cbn; done || lia.
Qed.

Lemma materialize_periodic_wp period pattern count tail budget out :
  wf_bytes out -> wf_bytes pattern -> wf_bytes tail -> 0 <= period -> 0 <= budget ->
  wp (materialize_periodic period pattern count tail budget out) (good (zlen out) budget).
Proof.
  intros Ho Hp Ht Hper Hb. unfold materialize_periodic. wp_steps. pose proof (zlen_nonneg out).
  wp_use (periodic_loop_wp (Z.to_nat count) period pattern 0 budget out (zlen out)); try done; try lia.
  intros [[o w] b] [(Hn & Hw & Hb') ?]. cbn in Hn, Hw, Hb'. wp_steps.
  apply wp_copy_from_slice; [lia | lia |]. wp_steps. pose proof (zlen_nonneg tail).
  split_and!; cbn; [rewrite zlen_splice; lia | by apply wf_bytes_splice | lia | lia].
Qed.

Lemma materialize_permutation_wp rank alphabet len budget out :
  zlen out = len -> wf_bytes out -> wf_bytes alphabet -> 0 <= rank -> 0 <= budget ->
  wp (materialize_permutation rank alphabet len budget out) (good (zlen out) budget).
Proof.
  intros Hn Ho Ha Hr Hb. unfold materialize_permutation. cbv zeta. wp_steps.
  pose proof (zlen_nonneg out).
  destruct (unrank_permutation_range rank len v) as [? Hf]; [lia | done | done |].
  wp_use (substitute_wp v 0 alphabet out (zlen out)); try done; try lia.
  - by replace (zlen alphabet) with len by lia.
  - intros out' [? ?]. split_and!; cbn; done || lia.
Qed.

Lemma materialize_entropy_ref_wp universe seed coordinate transform residual len budget out :
  zlen out = len -> wf_bytes out -> wf_residual residual -> 0 <= budget ->
  wp (materialize_entropy_ref limits universe seed coordinate transform residual len budget out)
     (good (zlen out) budget).
Proof.
  intros Hn Ho Hwf Hb. unfold materialize_entropy_ref. pose proof (zlen_nonneg out).
  wp_steps. assert (wf_bytes v) by by eapply universe_bytes_bytes.
  destruct residual; try exact I.
  - cbn [wf_residual] in Hwf. destruct_and?. wp_steps. apply copy_all_wp; [lia|]. wp_step.
    wp_use entropy_edits_wp; [done | done | done |]. intros out' [? ?].
    split_and!; cbn; done || lia.
  - cbv zeta. wp_step. wp_use apply_residual_wp; [done | done | by apply wf_bytes_vec | done |].
    intros [diff b'] (Hd & Hw & Hb'). rewrite zlen_vec in Hd by lia. cbn in *. wp_steps.
    apply copy_all_wp; [lia|]. wp_steps. split_and!; cbn; done || lia.
Qed.

Lemma materialize_sequence_rans_wp model enc_obj scale_bits codec seq_len lit_len off_len cmds
    lit_out len budget out :
  wf_bytes out -> Forall is_u32 [seq_len; lit_len; off_len; cmds; lit_out] -> 0 <= budget ->
  wp (materialize_sequence_rans limits model enc_obj scale_bits codec seq_len lit_len off_len cmds
        lit_out len budget out) (good (zlen out) budget).
Proof.
  intros Ho Hl Hb. foralls. unfold materialize_sequence_rans. wp_steps.
  wp_use (decode_three_streams_wp limits ctx); [by list_forall|]. intros d (? & ? & ? & _). wp_step.
  wp_use (walk_wp (zlen out) budget);
    [intros; by apply step_sequence_wp | done | by apply Walk_start_ok | apply finish_walk_wp].
Qed.

Lemma materialize_sparse_block64_wp model enc_obj scale_bits codec pc_len rank_len lit_len words
    nonzero lit_out len budget out :
  wf_bytes out -> Forall is_u32 [pc_len; rank_len; lit_len; words; nonzero; lit_out] -> 0 <= budget ->
  wp (materialize_sparse_block64 limits model enc_obj scale_bits codec pc_len rank_len lit_len words
        nonzero lit_out len budget out) (good (zlen out) budget).
Proof.
  intros Ho Hl Hb. foralls. unfold materialize_sparse_block64. wp_steps.
  wp_use (decode_three_streams_wp limits ctx); [by list_forall|]. intros d (? & ? & ? & _). cbv zeta. wp_steps.
  destruct (fill_facts 0 out) as [? ?]; [width|].
  wp_use block64_loop_wp; [done | done | done | done | done | lia | lia | lia | done |].
  intros [[o l] b] Hg. by wp_steps.
Qed.

Lemma materialize_sequence_deep_wp model enc_obj scale_bits codec seq_len lit_len off_len len_len
    cmds lit_out len budget out :
  wf_bytes out -> Forall is_u32 [seq_len; lit_len; off_len; len_len; cmds; lit_out] -> 0 <= budget ->
  wp (materialize_sequence_deep limits model enc_obj scale_bits codec seq_len lit_len off_len len_len
        cmds lit_out len budget out) (good (zlen out) budget).
Proof.
  intros Ho Hl Hb. foralls. unfold materialize_sequence_deep. wp_steps.
  wp_use (decode_deep_streams_wp limits ctx); [by list_forall|]. intros d (? & ? & ? & ? & _). wp_step.
  wp_use (walk_wp (zlen out) budget);
    [intros; by apply step_deep_wp | done | by apply Walk_start_ok | apply finish_walk_wp].
Qed.
End Safe.

(** * The recursion *)

(** The empty SPARSE descriptor validates, but its unranking computes
    [n as u128 - 1] with [n = 0]; see [empty_sparse_panics]. *)
Definition sparse_nonempty (d : Representation) : Prop :=
  match d with Sparse _ _ _ len => 1 <= len | _ => True end.

Definition valid_desc (limits : Limits) (d : Representation) : Prop :=
  wf_repr d /\ Representation_validate limits d = Ok tt /\ sparse_nonempty d.

Section Recursion.
Context (limits : Limits) (ctx : DecoderContext) `{!ContextLaws limits ctx}.
Hypothesis Hlimits : codec_limits limits.
Hypothesis Hfetch : forall id d, fetch_descriptor id = Ok d -> sparse_nonempty d.

Lemma fetch_valid id d : fetch_descriptor id = Ok d -> valid_desc limits d.
Proof.
  intros E. destruct (fetch_descriptor_valid id d E). split_and!; [done | done | by eapply Hfetch].
Qed.

Lemma valid_len d : wf_repr d -> 0 <= Representation_len d.
Proof.
  destruct d; cbn [wf_repr Representation_len]; intros; destruct_and?; try width. apply zlen_nonneg.
Qed.

Section Nested.
Context (rec : Representation -> Z -> Z -> bytes -> outcome (bytes * Z)) (depth : Z).
Hypothesis Hdepth : 0 <= depth < 255.
Hypothesis Hrec : forall desc budget out, valid_desc limits desc -> wf_bytes out -> 0 <= budget ->
  wp (rec desc (depth + 1) budget out) (good (zlen out) budget).

Lemma materialize_nested_wp desc n budget :
  valid_desc limits desc -> 0 <= n -> 0 <= budget ->
  wp (materialize_nested rec desc n depth budget) (good n budget).
Proof.
  intros Hd Hn Hb. unfold materialize_nested, checked_add.
  destruct (Z.ltb_spec (depth + 1) (2 ^ 8)); [|lia]. cbn [ok_or rbind].
  rewrite <-(zlen_vec 0 n) at 2 by done. apply Hrec; [done | by apply wf_bytes_vec | done].
Qed.

Lemma fetch_nested_wp id n msg budget :
  0 <= n -> 0 <= budget -> wp (fetch_nested rec id n msg depth budget) (good n budget).
Proof.
  intros Hn Hb. unfold fetch_nested. wp_steps. apply materialize_nested_wp; [|done|done].
  by eapply fetch_valid.
Qed.

Lemma materialize_exact_ref_wp target off len budget out :
  zlen out = len -> 0 <= off -> 0 <= len -> 0 <= budget ->
  wp (materialize_exact_ref limits rec target off len depth budget out) (good (zlen out) budget).
Proof.
  intros Hn Hoff Hlen Hb. unfold materialize_exact_ref. cbv zeta. wp_steps.
  apply fetch_valid in Hv. wp_use materialize_nested_wp; [done | by apply valid_len, Hv | done |].
  intros [full b] (Hf & Hw & Hb'). cbn in Hf, Hw, Hb'. wp_steps. apply wp_get_slice; [lia|]. wp_step.
  apply copy_all_wp; [rewrite zlen_slice; lia|]. wp_steps.
  split_and!; cbn; [rewrite zlen_slice; lia | by apply wf_bytes_slice | lia | lia].
Qed.

Lemma materialize_base_residual_wp base base_len residual budget out :
  wf_bytes out -> 0 <= base_len -> wf_residual residual -> 0 <= budget ->
  wp (materialize_base_residual limits rec base base_len residual depth budget out)
     (good (zlen out) budget).
Proof.
  intros Ho Hbl Hr Hb. unfold materialize_base_residual. wp_steps.
  wp_use fetch_nested_wp; [done | done |]. intros [bb b] (Hf & Hw & Hb'). cbn in Hf, Hw, Hb'. wp_steps.
  wp_use (apply_residual_wp limits ctx); [done | done | done | lia |].
  intros r (? & ? & ?). split_and!; done || lia.
Qed.

Lemma materialize_sequence_dict_wp dictionary dictionary_len model enc_obj scale_bits codec
    seq_len lit_len off_len src_len cmds lit_out len budget out :
  wf_bytes out -> Forall is_u32 [dictionary_len; seq_len; lit_len; off_len; src_len; cmds; lit_out] ->
  0 <= budget ->
  wp (materialize_sequence_dict limits rec dictionary dictionary_len model enc_obj scale_bits codec
        seq_len lit_len off_len src_len cmds lit_out len depth budget out) (good (zlen out) budget).
Proof.
  intros Ho Hl Hb. foralls. unfold materialize_sequence_dict. wp_steps.
  wp_use fetch_nested_wp; [width | done |]. intros [dict b] (Hf & Hw & Hb'). cbn in Hf, Hw, Hb'. wp_steps.
  wp_use (decode_four_streams_wp limits ctx); [by list_forall|]. intros d (? & ? & ? & ? & _). wp_step.
  wp_use (walk_wp (zlen out) budget); [intros; by apply step_dict_wp | done | | apply finish_walk_wp].
  split; cbn; pose proof (zlen_nonneg out); done || lia.
Qed.

Lemma file_dictionary_wp dictionary dictionary_len budget :
  0 <= dictionary_len -> 0 <= budget ->
  wp (file_dictionary limits rec dictionary dictionary_len depth budget)
     (fun '(dict, b) => wf_bytes dict /\ 0 <= b <= budget).
Proof.
  intros Hd Hb. unfold file_dictionary. destruct (negb _); [|by split; [constructor | lia]].
  wp_steps. wp_use fetch_nested_wp; [done | done |]. intros [dict b] (? & ? & ?). done.
Qed.

Lemma materialize_sequence_shared_dict_wp dictionary dictionary_len shared shared_len model enc_obj
    scale_bits codec seq_len lit_len off_len src_len cmds lit_out len budget out :
  wf_bytes out ->
  Forall is_u32 [dictionary_len; shared_len; seq_len; lit_len; off_len; src_len; cmds; lit_out] ->
  0 <= budget ->
  wp (materialize_sequence_shared_dict limits rec dictionary dictionary_len shared shared_len model
        enc_obj scale_bits codec seq_len lit_len off_len src_len cmds lit_out len depth budget out)
     (good (zlen out) budget).
Proof.
  intros Ho Hl Hb. foralls. unfold materialize_sequence_shared_dict. wp_steps.
  wp_use fetch_nested_wp; [width | done |]. intros [shd b] (Hf & Hw & Hb'). cbn in Hf, Hw, Hb'. wp_steps.
  wp_use file_dictionary_wp; [width | lia |]. intros [dict b2] [Hdw Hb2]. wp_steps.
  wp_use (decode_four_streams_wp limits ctx); [by list_forall|]. intros d (? & ? & ? & ? & _). wp_step.
  wp_use (walk_wp (zlen out) budget); [intros; by apply step_shared_wp | done | | apply finish_walk_wp].
  split; cbn; pose proof (zlen_nonneg out); done || lia.
Qed.

Lemma materialize_family_wp desc budget out :
  valid_desc limits desc -> zlen out = Representation_len desc -> wf_bytes out -> 0 <= budget ->
  wp (materialize_family limits rec desc depth budget out) (good (zlen out) budget).
Proof.
  intros (Hwf & Hv & Hne) Hn Ho Hb. apply validate_len in Hv as Hmax; [|apply Hlimits].
  pose proof (cl_chunk _ Hlimits).
  destruct desc; cbn [wf_repr Representation_len sparse_nonempty materialize_family]
    in Hwf, Hn, Hne, Hmax |- *; destruct_and? Hwf.
  - destruct (fill_facts 0 out) as [? ?]; [width|]. split_and!; cbn; done || lia.
  - destruct (fill_facts value out) as [? ?]; [done|]. split_and!; cbn; done || lia.
  - by apply materialize_inline_wp.
  - by eapply materialize_raw_wp.
  - by eapply materialize_rans_wp.
  - apply materialize_exact_ref_wp; done || width.
  - apply materialize_base_residual_wp; done || width.
  - apply materialize_sparse_wp; done || width.
  - apply palette_validated in Hv as Hp; [|done]. cbn in Hp. validate_destruct Hv.
    apply materialize_palette_wp; done || width.
  - apply materialize_periodic_wp; done || width.
  - apply materialize_permutation_wp; done || width.
  - by eapply materialize_entropy_ref_wp.
  - by eapply materialize_sequence_rans_wp.
  - by eapply materialize_sparse_block64_wp.
  - by apply materialize_sequence_dict_wp.
  - by apply materialize_sequence_shared_dict_wp.
  - by eapply materialize_sequence_deep_wp.
Qed.
End Nested.

Hypothesis Hmax : max_reference_depth limits < 255.

Lemma materialize_loop_wp fuel desc depth budget out :
  (Z.to_nat (max_reference_depth limits + 1 - depth) < fuel)%nat ->
  0 <= depth -> valid_desc limits desc -> wf_bytes out -> 0 <= budget ->
  wp (materialize_loop limits fuel desc depth budget out) (fun '(out', b') =>
    zlen out' = Representation_len desc /\ zlen out' = zlen out /\ wf_bytes out' /\ 0 <= b' /\
    b' + Representation_len desc / 8 + 1 <= budget).
Proof.
  revert desc depth budget out. induction fuel as [|fuel IH]; intros desc depth budget out Hf Hd Hv Ho Hb;
    [lia|].
  cbn [materialize_loop]. wp_steps. apply spend_wp. intros Hs.
  wp_use (materialize_family_wp (materialize_loop limits fuel) depth); try done; try lia.
  - intros desc' budget' out' Hv' Ho' Hb'. wp_use IH; [lia | lia | done | done | done |].
    intros [o b] (? & ? & ? & ? & ?). pose proof (Z.div_pos (Representation_len desc') 8).
    pose proof (valid_len desc' ltac:(apply Hv')). split_and!; cbn; done || lia.
  - intros [o b] (? & ? & ?). cbn in *. split_and!; done || lia.
Qed.
End Recursion.

(** * Fuel and reference paths *)

(** An arm depends on the recursive call only at [depth + 1]. *)
Lemma materialize_nested_ext rec rec' desc n depth budget :
  (forall d b o, rec d (depth + 1) b o = rec' d (depth + 1) b o) ->
  materialize_nested rec desc n depth budget = materialize_nested rec' desc n depth budget.
Proof.
  intros E. unfold materialize_nested, checked_add. destruct (_ <? _); cbn [ok_or rbind]; [apply E | done].
Qed.

Lemma fetch_nested_ext `{DecoderContext} rec rec' id n msg depth budget :
  (forall d b o, rec d (depth + 1) b o = rec' d (depth + 1) b o) ->
  fetch_nested rec id n msg depth budget = fetch_nested rec' id n msg depth budget.
Proof.
  intros E. unfold fetch_nested. destruct (fetch_descriptor id); cbn [safe map_err rbind]; [|done].
  by rewrite (materialize_nested_ext rec rec').
Qed.

Lemma materialize_family_ext `{DecoderContext} limits rec rec' desc depth budget out :
  (forall d b o, rec d (depth + 1) b o = rec' d (depth + 1) b o) ->
  materialize_family limits rec desc depth budget out =
  materialize_family limits rec' desc depth budget out.
Proof.
  intros E. destruct desc; cbn [materialize_family]; try done.
  - unfold materialize_exact_ref. destruct (fetch_descriptor target); cbn [safe map_err rbind]; [|done].
    by rewrite (materialize_nested_ext rec rec').
  - unfold materialize_base_residual. by rewrite (fetch_nested_ext rec rec').
  - unfold materialize_sequence_dict. by rewrite (fetch_nested_ext rec rec').
  - unfold materialize_sequence_shared_dict, file_dictionary.
    rewrite (fetch_nested_ext rec rec' shared) by done.
    destruct (_ <? _); [done|]. destruct (_ <? _); [done|]. destruct (_ <? _); [done|].
    destruct (fetch_nested rec' shared _ _ _ _) as [[s b]|]; [|done]. cbn [rbind].
    by rewrite (fetch_nested_ext rec rec').
Qed.

Lemma materialize_loop_fuel `{DecoderContext} limits fuel fuel' desc depth budget out :
  (Z.to_nat (max_reference_depth limits + 1 - depth) < fuel)%nat ->
  (Z.to_nat (max_reference_depth limits + 1 - depth) < fuel')%nat ->
  materialize_loop limits fuel desc depth budget out = materialize_loop limits fuel' desc depth budget out.
Proof.
  revert fuel' desc depth budget out. induction fuel as [|fuel IH]; intros fuel' desc depth budget out Hf Hf';
    [lia|]. destruct fuel' as [|fuel']; [lia|]. cbn [materialize_loop].
  destruct (negb _); [done|]. destruct (_ <? _); [done|].
  destruct (Z.ltb_spec (max_reference_depth limits) depth); [done|].
  destruct (spend _ _) as [b|]; [|done]. cbn [rbind].
  apply materialize_family_ext. intros. apply IH; lia.
Qed.

(** The chunks a descriptor resolves through the context. *)
Definition nested_ids (desc : Representation) : list ChunkId :=
  match desc with
  | ExactRef target _ _ => [target]
  | BaseResidual base _ _ _ => [base]
  | SequenceDict dictionary _ _ _ _ _ _ _ _ _ _ _ _ => [dictionary]
  | SequenceSharedDict dictionary _ shared _ _ _ _ _ _ _ _ _ _ _ _ =>
      shared :: (if negb (ChunkId_is_zero dictionary) then [dictionary] else [])
  | _ => []
  end.

(** [path desc n]: a chain of [n] references starts at [desc]. *)
Inductive path {ctx : DecoderContext} : Representation -> nat -> Prop :=
| path_here desc : path desc 0
| path_step desc id desc' n :
    In id (nested_ids desc) -> fetch_descriptor id = Ok desc' -> path desc' n -> path desc (S n).

Section Paths.
Context (limits : Limits) {ctx : DecoderContext}.
Context (rec : Representation -> Z -> Z -> bytes -> outcome (bytes * Z)).

Lemma materialize_nested_Ok desc n depth budget r :
  materialize_nested rec desc n depth budget = Ok r ->
  exists b o, rec desc (depth + 1) b o = Ok r.
Proof.
  unfold materialize_nested. intros H. inv_ok H. apply ok_or_Ok_inv, checked_add_Some in Hok as [-> _].
  eauto.
Qed.

Lemma fetch_nested_Ok id n msg depth budget r desc :
  fetch_nested rec id n msg depth budget = Ok r -> fetch_descriptor id = Ok desc ->
  exists b o, rec desc (depth + 1) b o = Ok r.
Proof.
  unfold fetch_nested. intros H E. rewrite E in H. cbn [safe map_err rbind] in H. inv_ok H.
  by eapply materialize_nested_Ok.
Qed.

(** A successful arm has resolved every nested chunk at [depth + 1]. *)
Lemma materialize_family_nested desc depth budget out r id desc' :
  materialize_family limits rec desc depth budget out = Ok r ->
  In id (nested_ids desc) -> fetch_descriptor id = Ok desc' ->
  exists b o r', rec desc' (depth + 1) b o = Ok r'.
Proof.
  intros H Hin E. destruct desc; cbn [nested_ids] in Hin; try done; cbn [materialize_family] in H.
  - destruct Hin as [->|[]]. unfold materialize_exact_ref in H. rewrite E in H.
    cbn [safe map_err rbind] in H. inv_ok H. apply materialize_nested_Ok in Hok as (b' & o & ?). eauto.
  - destruct Hin as [->|[]]. unfold materialize_base_residual in H. inv_ok H.
    eapply fetch_nested_Ok in Hok as (? & ? & ?); eauto.
  - destruct Hin as [->|[]]. unfold materialize_sequence_dict in H. inv_ok H.
    eapply fetch_nested_Ok in Hok as (? & ? & ?); eauto.
  - unfold materialize_sequence_shared_dict, file_dictionary in H. inv_ok H.
    destruct Hin as [->|Hin]; [eapply fetch_nested_Ok in Hok as (? & ? & ?); eauto|].
    destruct (negb (ChunkId_is_zero dictionary)); [|done]. destruct Hin as [->|[]]. inv_ok Hok0.
    eapply fetch_nested_Ok in Hok0 as (? & ? & ?); eauto.
Qed.
End Paths.

Lemma materialize_loop_path `{ctx : DecoderContext} limits fuel desc depth budget out r n :
  materialize_loop limits fuel desc depth budget out = Ok r -> path desc n ->
  depth + Z.of_nat n <= max_reference_depth limits.
Proof.
  revert desc depth budget out r n. induction fuel as [|fuel IH]; intros desc depth budget out r n H Hp;
    [done|]. cbn [materialize_loop] in H. inv_ok H. bools.
  destruct Hp as [|desc id desc' n Hin E Hp]; [lia|].
  destruct (materialize_family_nested _ _ _ _ _ _ _ _ _ H Hin E) as (b & o & r' & Hr).
  specialize (IH _ _ _ _ _ _ Hr Hp). lia.
Qed.

(** * The promised properties *)

(** C29. Safe materialization, the empty SPARSE descriptor excepted: over a
    resolver that serves decoded descriptors, [materialize_to_vec] of a
    validated descriptor never panics, never diverges and never over- or
    under-fills its buffer: it returns exactly [len] bytes or a typed error.
    The exception, of the descriptor and of all that the resolver serves
    ([sparse_nonempty]), is needed: of zero elements the unranking subtracts
    one from zero ([empty_sparse_panics]). *)
Theorem materialize_to_vec_safe limits ctx desc :
  ContextLaws limits ctx -> codec_limits limits -> max_reference_depth limits < 255 ->
  (forall id d, fetch_descriptor id = Ok d -> sparse_nonempty d) ->
  valid_desc limits desc ->
  match materialize_to_vec limits desc with
  | Ok out => zlen out = Representation_len desc /\ wf_bytes out
  | Err (Error _) => True
  | Err Panic => False
  end.
Proof.
  intros Hlaws Hl Hmax Hf Hv.
  change (wp (materialize_to_vec limits desc) (fun out => zlen out = Representation_len desc /\ wf_bytes out)).
  unfold materialize_to_vec, materialize. cbv zeta. wp_steps.
  pose proof (wfl_work _ (cl_wf _ Hl)). pose proof (wfl_depth _ (cl_wf _ Hl)).
  wp_use (materialize_loop_wp limits ctx Hl Hf Hmax); try done; try width.
  - by apply wf_bytes_vec.
  - intros [o b] (? & _ & ? & _). by wp_steps.
Qed.

(** A store of two records and an object, resolved by a reference into it. *)
Definition sample_record : bytes := 3 :: [4; 0; 0; 0] ++ sample_id 5.
Definition sample_ctx : DecoderContext :=
  table_context Limits_default [(sample_id 5, [10; 20; 30; 40])] [(sample_id 7, sample_record)].

Lemma sample_ctx_laws : ContextLaws Limits_default sample_ctx.
Proof.
  apply table_context_laws; [apply codec_limits_default | |];
    repeat constructor; cbn; unfold in_width; lia.
Qed.

Lemma sample_ctx_nonempty id d : @fetch_descriptor sample_ctx id = Ok d -> sparse_nonempty d.
Proof.
  cbn. unfold Store_fetch_descriptor. cbn [map_err rbind assoc_get].
  case_bool_decide; [|done]. vm_compute. intros. by simplify_eq.
Qed.

Lemma sample_ref_valid : valid_desc Limits_default (ExactRef (sample_id 7) 1 2).
Proof.
  split_and!; [|by vm_compute|done]. cbn. split_and!; try width.
  split; [done|]. unfold sample_id. cbn. list_forall; width.
Qed.

Lemma materialize_to_vec_safe_witness :
  match @materialize_to_vec sample_ctx Limits_default (ExactRef (sample_id 7) 1 2) with
  | Ok out => zlen out = 2 /\ wf_bytes out
  | Err (Error _) => True
  | Err Panic => False
  end.
Proof.
  apply (materialize_to_vec_safe Limits_default sample_ctx (ExactRef (sample_id 7) 1 2)).
  - apply sample_ctx_laws.
  - apply codec_limits_default.
  - reflexivity.
  - apply sample_ctx_nonempty.
  - apply sample_ref_valid.
Defined.

Example sample_materialized :
  @materialize_to_vec sample_ctx Limits_default (ExactRef (sample_id 7) 1 2) = Ok [20; 30].
Proof. vm_compute. reflexivity. Qed.

(** The work budget only shrinks: a successful call has charged at least
    [len / 8 + 1] operations, and never more than it was given. *)
Theorem materialize_budget limits ctx desc depth budget out out' budget' :
  ContextLaws limits ctx -> codec_limits limits -> max_reference_depth limits < 255 ->
  (forall id d, fetch_descriptor id = Ok d -> sparse_nonempty d) ->
  valid_desc limits desc -> wf_bytes out -> 0 <= depth -> 0 <= budget ->
  materialize limits desc depth budget out = Ok (out', budget') ->
  0 <= budget' /\ budget' + Representation_len desc / 8 + 1 <= budget.
Proof.
  intros Hlaws Hl Hmax Hf Hv Ho Hd Hb H. unfold materialize in H.
  pose proof (materialize_loop_wp limits ctx Hl Hf Hmax
    (Z.to_nat (max_reference_depth limits - depth) + 2) desc depth budget out ltac:(lia) Hd Hv Ho Hb) as Hw.
  rewrite H in Hw. apply Hw.
Qed.

Lemma materialize_budget_witness :
  0 <= 98 /\ 98 + 2 / 8 + 1 <= 100.
Proof.
  apply (materialize_budget Limits_default sample_ctx (ExactRef (sample_id 7) 1 2) 0 100 [0; 0] [20; 30] 98).
  - apply sample_ctx_laws.
  - apply codec_limits_default.
  - reflexivity.
  - apply sample_ctx_nonempty.
  - apply sample_ref_valid.
  - list_forall; width.
  - lia.
  - lia.
  - vm_compute. reflexivity.
Defined.

(** Termination: the recursion is bounded by the depth cap.  The fuel of
    [materialize] is enough for every descriptor and every resolver, in that
    any larger fuel gives the same result. *)
Theorem materialize_fuel_enough `{DecoderContext} limits k desc depth budget out :
  materialize_loop limits (Z.to_nat (max_reference_depth limits - depth) + 2 + k) desc depth budget out
  = materialize limits desc depth budget out.
Proof. apply materialize_loop_fuel; lia. Qed.

(** The depth cap on success: when a descriptor materializes, no chain
    of references that starts at it is longer than the cap; in particular
    no descriptor on a reference cycle ever materializes. *)
Theorem materialize_path_bound `{ctx : DecoderContext} limits desc depth budget out r n :
  materialize limits desc depth budget out = Ok r -> path desc n ->
  depth + Z.of_nat n <= max_reference_depth limits.
Proof. apply materialize_loop_path. Qed.

Lemma materialize_path_bound_witness : 0 + Z.of_nat 1 <= 4.
Proof.
  eapply (@materialize_path_bound sample_ctx Limits_default (ExactRef (sample_id 7) 1 2) 0 100 [0; 0]).
  - vm_compute. reflexivity.
  - eapply path_step; [left; reflexivity | vm_compute; reflexivity | apply path_here].
Defined.

(** The domain gap behind [sparse_nonempty]: the empty SPARSE descriptor is
    well formed and validates, and unranking it underflows. *)
Example empty_sparse_panics :
  Representation_validate Limits_default (Sparse 0 0 [] 0) = Ok tt /\
  decode Limits_default (7 :: replicate 24 0) = Ok (Sparse 0 0 [] 0) /\
  @materialize_to_vec sample_ctx Limits_default (Sparse 0 0 [] 0) = Err Panic.
Proof. vm_compute. split_and!; reflexivity. Qed.
