(* ===== verification/LZ.v ===== *)
(** Reference decoders for the copy/literal families of
    [core/materialize.rs]: each consumes its streams from the front and
    appends to the text produced so far.  There is no buffer, no cursor, no
    budget and no output bound; [MaterializeSpec] shows that the in-place
    command walks compute exactly these functions. *)
From S2P Require Import Prelude Binomial Codec Rank Repr Descriptor Context Streams Materialize.

(** The text so far and what is left of the literal, offset and fourth
    streams; the repeat registers. *)
Record LZ : Type := {
  lz_text : bytes; lz_lits : bytes; lz_offs : bytes; lz_aux : bytes; lz_rep0 : Z; lz_rep1 : Z
}.

Definition LZ_start (lits offs aux : bytes) : LZ :=
  {| lz_text := []; lz_lits := lits; lz_offs := offs; lz_aux := aux; lz_rep0 := 0; lz_rep1 := 0 |}.

Definition lz_append (s : bytes) (z : LZ) : LZ :=
  {| lz_text := lz_text z ++ s; lz_lits := lz_lits z; lz_offs := lz_offs z; lz_aux := lz_aux z;
     lz_rep0 := lz_rep0 z; lz_rep1 := lz_rep1 z |}.

Definition lz_set_reps (r0 r1 : Z) (z : LZ) : LZ :=
  {| lz_text := lz_text z; lz_lits := lz_lits z; lz_offs := lz_offs z; lz_aux := lz_aux z;
     lz_rep0 := r0; lz_rep1 := r1 |}.

(** [n] literals. *)
Definition lz_literal (n : Z) (z : LZ) : option LZ :=
  if zlen (lz_lits z) <? n then None
  else Some {| lz_text := lz_text z ++ take (Z.to_nat n) (lz_lits z);
               lz_lits := drop (Z.to_nat n) (lz_lits z); lz_offs := lz_offs z; lz_aux := lz_aux z;
               lz_rep0 := lz_rep0 z; lz_rep1 := lz_rep1 z |}.

(** The [n] bytes a copy at distance [d] produces after the text [t]: each is
    the byte [d] positions back, so a short distance repeats its period. *)
Fixpoint self_copy (t : bytes) (d n : nat) : bytes :=
  match n with
  | O => []
  | S n' => let b := default 0 (t !! (length t - d)%nat) in b :: self_copy (t ++ [b]) d n'
  end.

Definition lz_copy (d n : Z) (z : LZ) : option LZ :=
  if (d =? 0) || (zlen (lz_text z) <? d) then None
  else Some (lz_append (self_copy (lz_text z) (Z.to_nat d) (Z.to_nat n)) z).

(** [n] bytes of an external window at offset [v]. *)
Definition lz_window (src : bytes) (v n : Z) (z : LZ) : option LZ :=
  if zlen src <? v + n then None else Some (lz_append (slice (Z.to_nat v) (Z.to_nat n) src) z).

Definition lz_offset (k : nat) (z : LZ) : option (Z * LZ) :=
  if (length (lz_offs z) <? k)%nat then None
  else Some (from_le (take k (lz_offs z)),
             {| lz_text := lz_text z; lz_lits := lz_lits z; lz_offs := drop k (lz_offs z);
                lz_aux := lz_aux z; lz_rep0 := lz_rep0 z; lz_rep1 := lz_rep1 z |}).

Definition lz_fourth (k : nat) (z : LZ) : option (Z * LZ) :=
  if (length (lz_aux z) <? k)%nat then None
  else Some (from_le (take k (lz_aux z)),
             {| lz_text := lz_text z; lz_lits := lz_lits z; lz_offs := lz_offs z;
                lz_aux := drop k (lz_aux z); lz_rep0 := lz_rep0 z; lz_rep1 := lz_rep1 z |}).

(** The five command sets. *)
Definition lz_sequence (cmd : Z) (z : LZ) : option LZ :=
  if cmd <? 128 then lz_literal (cmd + 1) z
  else '(d, z) ← lz_offset 2 z; lz_copy d (cmd - 124) z.

Definition lz_base (base : bytes) (cmd : Z) (z : LZ) : option LZ :=
  if cmd <? 128 then lz_literal (cmd + 1) z
  else '(v, z) ← lz_offset 4 z; lz_window base v (cmd - 124) z.

Definition lz_dict (dict : bytes) (cmd : Z) (z : LZ) : option LZ :=
  if cmd <? 128 then lz_literal (cmd + 1) z
  else
    '(source, z) ← lz_fourth 1 z; '(v, z) ← lz_offset 2 z;
    if source =? SRC_LOCAL then lz_copy v (cmd - 124) z
    else if source =? SRC_DICT then lz_window dict v (cmd - 124) z
    else None.

Definition lz_shared (dict shared : bytes) (cmd : Z) (z : LZ) : option LZ :=
  if cmd <? 128 then lz_literal (cmd + 1) z
  else
    '(source, z) ← lz_fourth 1 z; '(v, z) ← lz_offset 2 z;
    if source =? SRC_LOCAL then lz_copy v (cmd - 124) z
    else if source =? SRC_DICT then lz_window dict v (cmd - 124) z
    else if source =? SRC_SHARED then lz_window shared v (cmd - 124) z
    else None.

Definition lz_deep (cmd : Z) (z : LZ) : option LZ :=
  if cmd <? 128 then lz_literal (cmd + 1) z
  else if cmd <? 192 then
    '(d, z) ← lz_offset 2 z; z ← lz_copy d (cmd - 124) z; Some (lz_set_reps d (lz_rep0 z) z)
  else if cmd <? 224 then lz_copy (lz_rep0 z) (cmd - 188) z
  else if cmd <? 240 then lz_copy (lz_rep1 z) (cmd - 220) z
  else if cmd =? 240 then
    '(extra, z) ← lz_fourth 2 z; '(d, z) ← lz_offset 2 z;
    z ← lz_copy d (68 + extra) z; Some (lz_set_reps d (lz_rep0 z) z)
  else if cmd =? 241 then '(extra, z) ← lz_fourth 2 z; lz_literal (129 + extra) z
  else None.

Fixpoint lz_walk (step : Z -> LZ -> option LZ) (commands : bytes) (z : LZ) : option LZ :=
  match commands with
  | [] => Some z
  | cmd :: commands' => z ← step cmd z; lz_walk step commands' z
  end.

(** The text of a whole stream set; with [all_lits], unread literals are an
    error. *)
Definition lz_decode (step : Z -> LZ -> option LZ) (all_lits : bool) (commands lits offs aux : bytes)
  : option bytes :=
  z ← lz_walk step commands (LZ_start lits offs aux);
  if all_lits && negb (zlen (lz_lits z) =? 0) then None else Some (lz_text z).

(** The reference decoders only append. *)
Definition grows (f : LZ -> option LZ) : Prop :=
  forall z z', f z = Some z' -> zlen (lz_text z) <= zlen (lz_text z').

Lemma lz_literal_grows n : grows (lz_literal n).
Proof.
  intros z z' E. unfold lz_literal in E. destruct (_ <? _); [done|]. injection E as <-. cbn.
  rewrite zlen_app. pose proof (zlen_nonneg (take (Z.to_nat n) (lz_lits z))). lia.
Qed.
Lemma lz_append_grows s z : zlen (lz_text z) <= zlen (lz_text (lz_append s z)).
Proof. cbn. rewrite zlen_app. pose proof (zlen_nonneg s). lia. Qed.
Lemma lz_copy_grows d n : grows (lz_copy d n).
Proof.
  intros z z' E. unfold lz_copy in E. destruct (_ || _); [done|]. injection E as <-. apply lz_append_grows.
Qed.
Lemma lz_window_grows src v n : grows (lz_window src v n).
Proof.
  intros z z' E. unfold lz_window in E. destruct (_ <? _); [done|]. injection E as <-. apply lz_append_grows.
Qed.
Lemma lz_offset_text k z v z' : lz_offset k z = Some (v, z') -> lz_text z' = lz_text z.
Proof. unfold lz_offset. destruct (_ <? _)%nat; intros; by simplify_eq. Qed.
Lemma lz_fourth_text k z v z' : lz_fourth k z = Some (v, z') -> lz_text z' = lz_text z.
Proof. unfold lz_fourth. destruct (_ <? _)%nat; intros; by simplify_eq. Qed.

Ltac grows_step :=
  match goal with
  | E : (if ?c then _ else _) = Some _ |- _ => destruct c
  | E : lz_literal _ _ = Some _ |- _ => apply lz_literal_grows in E
  | E : lz_copy _ _ _ = Some _ |- _ => apply lz_copy_grows in E
  | E : lz_window _ _ _ _ = Some _ |- _ => apply lz_window_grows in E
  | E : lz_offset _ _ = Some (_, _) |- _ => apply lz_offset_text in E; rewrite E in *
  | E : lz_fourth _ _ = Some (_, _) |- _ => apply lz_fourth_text in E; rewrite E in *
  | E : (mbind _ ?o) = Some _ |- _ => destruct o eqn:?; cbn [mbind option_bind] in E; [|discriminate E]
  | p : (_ * _)%type |- _ => destruct p
  | E : None = Some _ |- _ => discriminate E
  | E : Some _ = Some _ |- _ => injection E as <-
  end.
Ltac grows_tac := repeat grows_step; cbn [lz_text lz_set_reps] in *; lia.
Lemma lz_sequence_grows cmd : grows (lz_sequence cmd).
Proof. intros z z' E. unfold lz_sequence in E. grows_tac. Qed.
Lemma lz_base_grows base cmd : grows (lz_base base cmd).
Proof. intros z z' E. unfold lz_base in E. grows_tac. Qed.
Lemma lz_dict_grows dict cmd : grows (lz_dict dict cmd).
Proof. intros z z' E. unfold lz_dict in E. grows_tac. Qed.
Lemma lz_shared_grows dict shared cmd : grows (lz_shared dict shared cmd).
Proof. intros z z' E. unfold lz_shared in E. grows_tac. Qed.
Lemma lz_deep_grows cmd : grows (lz_deep cmd).
Proof. intros z z' E. unfold lz_deep in E. grows_tac. Qed.

Lemma length_self_copy t d n : length (self_copy t d n) = n.
Proof. revert t. induction n as [|n IH]; intros t; cbn [self_copy length]; [done|]. by rewrite IH. Qed.

Example lz_sequence_example :
  lz_decode lz_sequence true [2; 130; 0] [97; 98; 99; 100] [3; 0] [] =
  Some [97; 98; 99; 97; 98; 99; 97; 98; 99; 100].
Proof. vm_compute. reflexivity. Qed.
