(* ===== verification/MaterializeSpec.v ===== *)
(** The abstract specification of [core/materialize.rs] and the proof that
    the interpreter implements it.  [Denotes desc bytes] says what a
    descriptor stands for, with no buffers, budgets or depths; a successful
    [materialize] yields exactly the denoted bytes, whatever the buffer
    held before. *)
From Stdlib Require String.
From S2P Require Import Prelude Binomial Codec Rank Repr Descriptor Context Streams Materialize MaterializeSafe LZ.

(** * In-place walks against the reference decoders *)

(** The walk's locals against the reference decoder's state. *)
Record sim (L O A : bytes) (st : Walk) (z : LZ) : Prop := {
  sim_pos : 0 <= wk_pos st <= zlen (wk_out st);
  sim_text : lz_text z = take (Z.to_nat (wk_pos st)) (wk_out st);
  sim_lit : 0 <= wk_lit st <= zlen L;
  sim_lits : lz_lits z = drop (Z.to_nat (wk_lit st)) L;
  sim_off : 0 <= wk_off st;
  sim_offs : lz_offs z = drop (Z.to_nat (wk_off st)) O;
  sim_auxp : 0 <= wk_aux st;
  sim_aux : lz_aux z = drop (Z.to_nat (wk_aux st)) A;
  sim_rep0 : lz_rep0 z = wk_rep0 st /\ 0 <= wk_rep0 st;
  sim_rep1 : lz_rep1 z = wk_rep1 st /\ 0 <= wk_rep1 st
}.

Lemma sim_text_len L O A st z : sim L O A st z -> zlen (lz_text z) = wk_pos st.
Proof. intros [? -> _ _ _ _ _ _ _ _]. unfold zlen in *. rewrite length_take. lia. Qed.

(** Soundness and completeness of one piece of a walk. *)
Record simulates (L O A : bytes) (st : Walk) (z : LZ) (m : outcome Walk) (o : option LZ) : Prop := {
  sm_sound st' : m = Ok st' -> exists z', o = Some z' /\ sim L O A st' z' /\
    zlen (wk_out st') = zlen (wk_out st) /\
    wk_budget st' = wk_budget st - (zlen (lz_text z') - zlen (lz_text z));
  sm_complete z' : o = Some z' -> zlen (lz_text z') <= zlen (wk_out st) ->
    zlen (lz_text z') - zlen (lz_text z) <= wk_budget st -> exists st', m = Ok st'
}.

Lemma simulates_fail L O A st z e : simulates L O A st z (Err e) None.
Proof. by split. Qed.

(** A piece run after steps that touched neither buffer nor budget. *)
Lemma simulates_transfer L O A st st1 z z1 m o :
  wk_out st1 = wk_out st -> wk_budget st1 = wk_budget st -> lz_text z1 = lz_text z ->
  simulates L O A st1 z1 m o -> simulates L O A st z m o.
Proof. intros E1 E2 E3 [Hs Hc]. rewrite E1, E2, E3 in *. by split. Qed.

Lemma simulates_bind L O A st z m o k ko :
  simulates L O A st z m o -> grows ko ->
  (forall st1 z1, sim L O A st1 z1 -> simulates L O A st1 z1 (k st1) (ko z1)) ->
  simulates L O A st z (rbind m k) (o ≫= ko).
Proof.
  intros [Hs Hc] Hg Hk. split.
  - intros st' H. destruct m as [st1|]; [|done]. cbn [rbind] in H.
    destruct (Hs _ eq_refl) as (z1 & -> & Hsim & Ho & Hb).
    destruct (sm_sound _ _ _ _ _ _ _ (Hk _ _ Hsim) _ H) as (z' & E & Hsim' & Ho' & Hb').
    exists z'. cbn. split_and!; [done | done | lia | lia].
  - intros z' H Hlen Hb. destruct o as [z1|] eqn:Eo; [|done]. cbn in H. apply Hg in H as Hg'.
    destruct (Hc z1 eq_refl) as [st1 E1]; [lia | lia |].
    destruct (Hs _ E1) as (z1' & Ez & Hsim & Ho & Hb1). injection Ez as <-.
    destruct (sm_complete _ _ _ _ _ _ _ (Hk _ _ Hsim) _ H) as [st' E2]; [lia | lia |].
    exists st'. by rewrite E1.
Qed.

(** ** The primitives *)

Lemma copy_loop_eq k out pos dist :
  0 < dist <= pos -> pos + Z.of_nat k <= zlen out ->
  copy_loop k out pos dist =
  Ok (splice (Z.to_nat pos) (self_copy (take (Z.to_nat pos) out) (Z.to_nat dist) k) out,
      pos + Z.of_nat k).
Proof.
  revert out pos. induction k as [|k IH]; intros out pos Hd Hk; cbn [copy_loop self_copy].
  - unfold splice. cbn [length app]. by rewrite Nat.add_0_r, take_drop, Z.add_0_r.
  - unfold checked_sub. destruct (Z.leb_spec dist pos); [|lia]. cbn [ok_or rbind].
    set (p := Z.to_nat pos).
    assert (Hp : (p < length out)%nat) by (unfold zlen in Hk; lia).
    assert (Hlen : length (take p out) = p) by (rewrite length_take; lia).
    assert (Hi : Z.to_nat (pos - dist) = (p - Z.to_nat dist)%nat) by lia.
    destruct (lookup_lt_is_Some_2 out (p - Z.to_nat dist)) as [b Hb]; [lia|].
    rewrite Hlen, lookup_take_lt, Hb by lia. cbn [default].
    unfold get_idx, set_idx. rewrite Hi, Hb. cbn [ok_or rbind].
    destruct (Z.ltb_spec pos (zlen out)); [|lia]. cbn [rbind]. fold p.
    rewrite IH by (rewrite ?zlen_insert; lia). f_equal. f_equal; [|lia].
    replace (Z.to_nat (pos + 1)) with (S p) by lia.
    assert (Ht : take (S p) (<[p:=b]> out) = take p out ++ [b]).
    { rewrite insert_take_drop by done. rewrite take_app_ge by lia. rewrite Hlen.
      by replace (S p - p)%nat with 1%nat by lia. }
    rewrite Ht. unfold splice. rewrite Ht, <-app_assoc. cbn [app length].
    cbn [id]. rewrite drop_insert_lt by lia. rewrite length_self_copy. do 4 f_equal. lia.
Qed.

(** The state after the [n] bytes [s] were written at the cursor. *)
Lemma sim_write L O A st z s n lit' lits' budget' :
  sim L O A st z -> zlen s = n -> wk_pos st + n <= zlen (wk_out st) -> 0 <= lit' <= zlen L ->
  lits' = drop (Z.to_nat lit') L ->
  sim L O A
    {| wk_out := splice (Z.to_nat (wk_pos st)) s (wk_out st); wk_pos := wk_pos st + n;
       wk_lit := lit'; wk_off := wk_off st; wk_aux := wk_aux st; wk_rep0 := wk_rep0 st;
       wk_rep1 := wk_rep1 st; wk_budget := budget' |}
    {| lz_text := lz_text z ++ s; lz_lits := lits'; lz_offs := lz_offs z; lz_aux := lz_aux z;
       lz_rep0 := lz_rep0 z; lz_rep1 := lz_rep1 z |}.
Proof.
  intros [Hp Ht Hl Hls Ho Hos Ha Has H0 H1] <- Hs Hlit' ->. pose proof (zlen_nonneg s).
  split; cbn; try done.
  - rewrite zlen_splice; lia.
  - rewrite Ht. replace (Z.to_nat (wk_pos st + zlen s)) with (Z.to_nat (wk_pos st) + length s)%nat
      by (unfold zlen; lia).
    rewrite take_splice; [done|]. unfold zlen in *. lia.
Qed.

(** Opens a successful chain of slice operations. *)
Ltac ok_facts :=
  repeat match goal with
  | H : get_slice _ _ _ = Ok _ |- _ => apply get_slice_Ok in H as [? ->]
  | H : copy_from_slice _ _ _ _ = Ok _ |- _ => apply copy_from_slice_Ok in H as (? & ? & ->)
  | H : spend _ _ = Ok _ |- _ => apply spend_Ok in H as [? ->]
  end.

Section Primitives.
Context (L O A : bytes).
Implicit Types (st : Walk) (z : LZ).
Hypothesis (HO : wf_bytes O) (HA : wf_bytes A).

Lemma literal_run_sim e run st z :
  0 < run -> sim L O A st z ->
  simulates L O A st z (literal_run e L run st) (lz_literal run z).
Proof.
  intros Hr Hsim. pose proof (sim_text_len _ _ _ _ _ Hsim) as Htl.
  pose proof Hsim as [Hp Ht Hl Hls _ _ _ _ _ _].
  assert (Hrem : zlen (lz_lits z) = Z.max 0 (zlen L - wk_lit st)).
  { rewrite Hls. unfold zlen. rewrite length_drop. lia. }
  assert (Hs : zlen (lz_lits z) < run \/
               zlen (slice (Z.to_nat (wk_lit st)) (Z.to_nat run) L) = run).
  { destruct (Z.lt_ge_cases (zlen (lz_lits z)) run); [by left | right; apply zlen_slice; lia]. }
  unfold literal_run, lz_literal. rewrite Hls in *.
  change (take (Z.to_nat run) (drop (Z.to_nat (wk_lit st)) L))
    with (slice (Z.to_nat (wk_lit st)) (Z.to_nat run) L).
  split.
  - intros st' H. inv_ok H. bools. ok_facts.
    replace (wk_lit st + run - wk_lit st) with run in * by lia.
    pass_guard. eexists. split; [done|]. split_and!.
    + apply sim_write; [done | lia | lia | lia |]. rewrite drop_drop. f_equal. lia.
    + cbn. rewrite zlen_splice; lia.
    + cbn. rewrite zlen_app. lia.
  - intros z' H Hlen Hb. destruct (Z.ltb_spec (zlen (drop (Z.to_nat (wk_lit st)) L)) run); [done|].
    injection H as <-. cbn in Hlen, Hb. rewrite zlen_app in *.
    unfold get_slice, copy_from_slice, spend.
    replace (wk_lit st + run - wk_lit st) with run by lia.
    repeat (pass_guard; cbn [rbind]). eauto.
Qed.

Lemma copy_local_sim dist clen st z :
  0 <= dist -> 0 <= clen -> sim L O A st z ->
  simulates L O A st z (copy_local dist clen st) (lz_copy dist clen z).
Proof.
  intros Hd Hc Hsim. pose proof (sim_text_len _ _ _ _ _ Hsim) as Htl.
  pose proof Hsim as [Hp Ht _ _ _ _ _ _ _ _]. unfold copy_local, lz_copy. rewrite Htl.
  destruct ((dist =? 0) || (wk_pos st <? dist)) eqn:Eg; [apply simulates_fail|]. bools.
  set (s := self_copy (lz_text z) (Z.to_nat dist) (Z.to_nat clen)).
  assert (Hs : zlen s = clen) by (unfold zlen, s; rewrite length_self_copy; lia).
  destruct (Z.ltb_spec (zlen (wk_out st)) (wk_pos st + clen)).
  - split; [done|]. intros z' E. injection E as <-. cbn. rewrite zlen_app. lia.
  - rewrite copy_loop_eq by lia. cbn [rbind]. rewrite <-Ht. fold s. split.
    + intros st' E. inv_ok E. ok_facts. eexists. split; [done|]. split_and!.
      * unfold lz_append. replace (wk_pos st + Z.of_nat (Z.to_nat clen)) with (wk_pos st + clen) by lia.
        apply sim_write; try done; try apply Hsim.
      * cbn. rewrite zlen_splice; lia.
      * cbn. rewrite zlen_app. lia.
    + intros z' E. injection E as <-. cbn. rewrite zlen_app. intros. unfold spend.
      pass_guard. cbn [rbind]. eauto.
Qed.

Lemma copy_window_sim e1 e2 src v clen st z :
  0 <= v < 2 ^ 32 -> 0 <= clen <= 2 ^ 32 -> sim L O A st z ->
  simulates L O A st z (copy_window e1 e2 src v clen st) (lz_window src v clen z).
Proof.
  intros Hv Hc Hsim. pose proof (sim_text_len _ _ _ _ _ Hsim) as Htl.
  pose proof Hsim as [Hp Ht _ _ _ _ _ _ _ _]. unfold copy_window, lz_window, checked_add.
  destruct (Z.ltb_spec (v + clen) (2 ^ 64)); [|lia]. cbn [orb].
  destruct (Z.ltb_spec (zlen src) (v + clen)); [apply simulates_fail|].
  assert (Hs : zlen (slice (Z.to_nat v) (Z.to_nat clen) src) = clen) by (apply zlen_slice; lia).
  split.
  - intros st' E. inv_ok E. bools. ok_facts. replace (v + clen - v) with clen in * by lia.
    eexists. split; [done|]. split_and!.
    + unfold lz_append. apply sim_write; try done; try apply Hsim.
    + cbn. rewrite zlen_splice; lia.
    + cbn. rewrite zlen_app. lia.
  - intros z' E. injection E as <-. cbn. rewrite zlen_app. intros.
    unfold get_slice, copy_from_slice, spend. replace (v + clen - v) with clen by lia.
    repeat (pass_guard; cbn [rbind]). eauto.
Qed.
(** A read of the offset or fourth stream: both sides fail, or both read
    the same value and leave buffer, text and budget alone. *)
Definition reads (st : Walk) (z : LZ) (hi : Z) (m : outcome (Z * Walk)) (o : option (Z * LZ)) : Prop :=
  (exists e, m = Err e /\ o = None) \/
  (exists v st1 z1, m = Ok (v, st1) /\ o = Some (v, z1) /\ 0 <= v < hi /\ sim L O A st1 z1 /\
     wk_out st1 = wk_out st /\ wk_budget st1 = wk_budget st /\ lz_text z1 = lz_text z).

Lemma simulates_read st z hi m o k ko :
  reads st z hi m o ->
  (forall v st1 z1, 0 <= v < hi -> sim L O A st1 z1 -> simulates L O A st1 z1 (k v st1) (ko v z1)) ->
  simulates L O A st z (rbind m (fun '(v, st) => k v st)) (o ≫= (fun '(v, z) => ko v z)).
Proof.
  intros [(e & -> & ->)|(v & st1 & z1 & -> & -> & Hv & Hs & Eo & Eb & Et)] Hk;
    [apply simulates_fail|].
  cbn. eapply simulates_transfer; [done..|]. by apply Hk.
Qed.

Lemma read_u16_eq b i :
  0 <= i -> i + 2 <= zlen b -> read_u16 b i = Ok (from_le (take 2 (drop (Z.to_nat i) b))).
Proof.
  intros Hi Hl. unfold read_u16, get_idx. replace (Z.to_nat (i + 1)) with (S (Z.to_nat i)) by lia.
  destruct (lookup_lt_is_Some_2 b (Z.to_nat i)) as [x Hx]; [unfold zlen in Hl; lia|].
  destruct (lookup_lt_is_Some_2 b (S (Z.to_nat i))) as [y Hy]; [unfold zlen in Hl; lia|].
  rewrite Hx, Hy. cbn [ok_or rbind]. by rewrite (drop_S _ x), (drop_S _ y).
Qed.

Lemma from_le_take k l : wf_bytes l -> (k <= length l)%nat -> 0 <= from_le (take k l) < 256 ^ Z.of_nat k.
Proof.
  intros Hl Hk. replace (Z.of_nat k) with (zlen (take k l)) by (unfold zlen; rewrite length_take; lia).
  apply from_le_bound. by apply Forall_take.
Qed.

Lemma next_offset_reads st z :
  sim L O A st z -> reads st z (2 ^ 16) (next_offset O st) (lz_offset 2 z).
Proof.
  intros Hsim. pose proof Hsim as [Hp Ht Hl Hls Ho Hos _ _ _ _]. unfold next_offset, lz_offset.
  rewrite Hos, length_drop. destruct (Nat.ltb_spec (length O - Z.to_nat (wk_off st)) 2).
  - left. destruct (Z.ltb_spec (zlen O) (wk_off st + 2)); [|unfold zlen in *; lia]. eauto.
  - right. destruct (Z.ltb_spec (zlen O) (wk_off st + 2)); [unfold zlen in *; lia|].
    rewrite read_u16_eq by done. cbn [rbind]. eexists _, _, _. split_and!; try done.
    + apply (from_le_take 2); [by apply Forall_drop|]. rewrite length_drop. lia.
    + apply (from_le_take 2); [by apply Forall_drop|]. rewrite length_drop. lia.
    + destruct Hsim. split; cbn; try done; [lia|]. rewrite drop_drop. f_equal. lia.
Qed.

Lemma next_length_reads st z :
  sim L O A st z -> reads st z (2 ^ 16) (next_length A st) (lz_fourth 2 z).
Proof.
  intros Hsim. pose proof Hsim as [Hp Ht Hl Hls _ _ Ho Hos _ _]. unfold next_length, lz_fourth.
  rewrite Hos, length_drop. destruct (Nat.ltb_spec (length A - Z.to_nat (wk_aux st)) 2).
  - left. destruct (Z.ltb_spec (zlen A) (wk_aux st + 2)); [|unfold zlen in *; lia]. eauto.
  - right. destruct (Z.ltb_spec (zlen A) (wk_aux st + 2)); [unfold zlen in *; lia|].
    rewrite read_u16_eq by done. cbn [rbind]. eexists _, _, _. split_and!; try done.
    + apply (from_le_take 2); [by apply Forall_drop|]. rewrite length_drop. lia.
    + apply (from_le_take 2); [by apply Forall_drop|]. rewrite length_drop. lia.
    + destruct Hsim. split; cbn; try done; [lia|]. rewrite drop_drop. f_equal. lia.
Qed.

Lemma next_source_reads st z :
  sim L O A st z -> reads st z (2 ^ 8) (next_source A st) (lz_fourth 1 z).
Proof.
  intros Hsim. pose proof Hsim as [Hp Ht Hl Hls _ _ Ho Hos _ _]. unfold next_source, lz_fourth.
  rewrite Hos, length_drop. destruct (Nat.ltb_spec (length A - Z.to_nat (wk_aux st)) 1).
  - left. destruct (Z.ltb_spec (zlen A) (wk_aux st + 1)); [|unfold zlen in *; lia]. eauto.
  - right. destruct (Z.ltb_spec (zlen A) (wk_aux st + 1)); [unfold zlen in *; lia|].
    destruct (lookup_lt_is_Some_2 A (Z.to_nat (wk_aux st))) as [x Hx]; [unfold zlen in *; lia|].
    unfold get_idx. rewrite Hx. cbn [ok_or rbind]. eexists x, _, _.
    assert (E : from_le (take 1 (drop (Z.to_nat (wk_aux st)) A)) = x).
    { rewrite (drop_S _ x), firstn_cons, take_0 by done. change (x + 256 * 0 = x). lia. }
    rewrite E. split_and!; try done.
    + apply (wf_bytes_lookup _ _ _ HA Hx).
    + apply (wf_bytes_lookup _ _ _ HA Hx).
    + destruct Hsim. split; cbn; try done; [lia|]. rewrite drop_drop. f_equal. lia.
Qed.

Lemma next_base_offset_reads st z :
  sim L O A st z -> reads st z (2 ^ 32) (next_base_offset O st) (lz_offset 4 z).
Proof.
  intros Hsim. pose proof Hsim as [Hp Ht Hl Hls Ho Hos _ _ _ _]. unfold next_base_offset, lz_offset.
  rewrite Hos, length_drop. destruct (Nat.ltb_spec (length O - Z.to_nat (wk_off st)) 4).
  - left. destruct (Z.ltb_spec (zlen O) (wk_off st + 4)); [|unfold zlen in *; lia]. eauto.
  - right. destruct (Z.ltb_spec (zlen O) (wk_off st + 4)); [unfold zlen in *; lia|].
    unfold get_slice. repeat pass_guard. cbn [rbind]. unfold slice.
    replace (Z.to_nat (wk_off st + 4 - wk_off st)) with 4%nat by lia.
    eexists _, _, _. split_and!; try done.
    + apply (from_le_take 4); [by apply Forall_drop|]. rewrite length_drop. lia.
    + apply (from_le_take 4); [by apply Forall_drop|]. rewrite length_drop. lia.
    + destruct Hsim. split; cbn; try done; [lia|]. rewrite drop_drop. f_equal. lia.
Qed.

(** A copy that also updates the repeat registers. *)
Lemma copy_reps_sim d n st z :
  0 <= d -> 0 <= n -> sim L O A st z ->
  simulates L O A st z (let! st := copy_local d n st in Ok (set_reps d (wk_rep0 st) st))
    (z ← lz_copy d n z; Some (lz_set_reps d (lz_rep0 z) z)).
Proof.
  intros Hd Hn Hsim. apply simulates_bind; [by apply copy_local_sim | |].
  - intros z1 z2 E. injection E as <-. done.
  - intros st1 z1 Hs. split.
    + intros st' E. injection E as <-. eexists. split; [done|]. cbn. split_and!; try lia.
      destruct Hs as [? ? ? ? ? ? ? ? [E0 ?] ?]. split; cbn; try done.
    + intros. eauto.
Qed.

(** ** The five command sets *)

Ltac cases :=
  repeat match goal with
  | |- simulates _ _ _ _ _ (if ?a <? ?b then _ else _) _ => destruct (Z.ltb_spec a b)
  | |- simulates _ _ _ _ _ (if ?a <=? ?b then _ else _) _ => destruct (Z.leb_spec a b)
  | |- simulates _ _ _ _ _ (if ?a =? ?b then _ else _) _ => destruct (Z.eqb_spec a b)
  end.

Lemma step_sequence_sim cmd st z :
  is_u8 cmd -> sim L O A st z ->
  simulates L O A st z (step_sequence L O cmd st) (lz_sequence cmd z).
Proof.
  intros Hc Hsim. unfold step_sequence, lz_sequence. cbv zeta. cases.
  - apply literal_run_sim; [width | done].
  - replace (cmd - 128 + 4) with (cmd - 124) by lia.
    eapply simulates_read; [by apply next_offset_reads|]. intros. apply copy_local_sim; done || lia.
Qed.

Lemma step_base_sim base cmd st z :
  is_u8 cmd -> sim L O A st z ->
  simulates L O A st z (step_base L O base cmd st) (lz_base base cmd z).
Proof.
  intros Hc Hsim. unfold step_base, lz_base. cbv zeta. cases.
  - apply literal_run_sim; [width | done].
  - replace (cmd - 128 + 4) with (cmd - 124) by lia.
    eapply simulates_read; [by apply next_base_offset_reads|].
    intros. apply copy_window_sim; done || width.
Qed.

Lemma step_dict_sim dict cmd st z :
  is_u8 cmd -> sim L O A st z ->
  simulates L O A st z (step_dict L O A dict cmd st) (lz_dict dict cmd z).
Proof.
  intros Hc Hsim. unfold step_dict, lz_dict. cbv zeta. cases.
  - apply literal_run_sim; [width | done].
  - replace (cmd - 128 + 4) with (cmd - 124) by lia.
    eapply simulates_read; [by apply next_source_reads|]. intros source st1 z1 Hsrc Hsim1.
    eapply simulates_read; [by apply next_offset_reads|]. intros v st2 z2 Hv Hsim2. cases.
    + apply copy_local_sim; done || lia.
    + apply copy_window_sim; done || width.
    + apply simulates_fail.
Qed.

Lemma step_shared_sim dict shared cmd st z :
  is_u8 cmd -> sim L O A st z ->
  simulates L O A st z (step_shared L O A dict shared cmd st) (lz_shared dict shared cmd z).
Proof.
  intros Hc Hsim. unfold step_shared, lz_shared. cbv zeta. cases.
  - apply literal_run_sim; [width | done].
  - replace (cmd - 128 + 4) with (cmd - 124) by lia.
    eapply simulates_read; [by apply next_source_reads|]. intros source st1 z1 Hsrc Hsim1.
    eapply simulates_read; [by apply next_offset_reads|]. intros v st2 z2 Hv Hsim2. cases.
    + apply copy_local_sim; done || lia.
    + unfold lz_window. pass_guard. apply simulates_fail.
    + apply copy_window_sim; done || width.
    + apply copy_window_sim; done || width.
    + apply simulates_fail.
Qed.

Lemma step_deep_sim cmd st z :
  is_u8 cmd -> sim L O A st z ->
  simulates L O A st z (step_deep L O A cmd st) (lz_deep cmd z).
Proof.
  intros Hc Hsim. pose proof (sim_rep0 _ _ _ _ _ Hsim) as [E0 H0].
  pose proof (sim_rep1 _ _ _ _ _ Hsim) as [E1 H1].
  unfold step_deep, lz_deep, DEEP_LIT_MAX, DEEP_COPY_MIN, DEEP_COPY_MAX, DEEP_REP0_MIN,
    DEEP_REP0_MAX, DEEP_REP1_MIN, DEEP_REP1_MAX, DEEP_XCOPY, DEEP_XLIT.
  cases; repeat pass_guard; try apply simulates_fail.
  - apply literal_run_sim; [width | done].
  - replace (4 + (cmd - 128)) with (cmd - 124) by lia.
    eapply simulates_read; [by apply next_offset_reads|]. intros. apply copy_reps_sim; done || lia.
  - replace (4 + (cmd - 192)) with (cmd - 188) by lia. rewrite E0. apply copy_local_sim; done || lia.
  - replace (4 + (cmd - 224)) with (cmd - 220) by lia. rewrite E1. apply copy_local_sim; done || lia.
  - eapply simulates_read; [by apply next_length_reads|]. intros extra st1 z1 He Hsim1.
    eapply simulates_read; [by apply next_offset_reads|]. intros. apply copy_reps_sim; done || lia.
  - eapply simulates_read; [by apply next_length_reads|]. intros. apply literal_run_sim; done || lia.
Qed.

(** ** Whole walks *)

Lemma walk_sim step zstep commands st z :
  (forall cmd st z, is_u8 cmd -> sim L O A st z -> simulates L O A st z (step cmd st) (zstep cmd z)) ->
  (forall cmd, grows (zstep cmd)) ->
  wf_bytes commands -> sim L O A st z ->
  simulates L O A st z (walk step commands st) (lz_walk zstep commands z).
Proof.
  intros Hstep Hg Hc. revert st z. induction Hc as [|cmd commands Hcmd _ IH]; intros st z Hsim.
  - split; [intros st' E; injection E as <-; exists z; cbn; split_and!; done || lia | eauto].
  - cbn [walk lz_walk]. apply simulates_bind; [by apply Hstep | | intros; by apply IH].
    clear -Hg. induction commands as [|c cs IHc]; intros z z' E; cbn in E; [by simplify_eq|].
    destruct (zstep c z) as [z1|] eqn:E1; [|done]. cbn in E.
    apply Hg in E1. apply IHc in E. lia.
Qed.

Lemma Walk_start_sim out budget : sim L O A (Walk_start out budget) (LZ_start L O A).
Proof. pose proof (zlen_nonneg out). pose proof (zlen_nonneg L). split; cbn; done || lia. Qed.
End Primitives.

(** * What a descriptor denotes *)

(** Write the literals at the positions, in order. *)
Fixpoint place (ps : list Z) (lits out : bytes) : bytes :=
  match ps, lits with
  | p :: ps', v :: lits' => place ps' lits' (<[Z.to_nat p := v]> out)
  | _, _ => out
  end.

Fixpoint xor_edits (edits : list Edit) (out : bytes) : bytes :=
  match edits with
  | [] => out
  | e :: edits' =>
      xor_edits edits' (<[Z.to_nat (pos e) := Z.lxor (out !!! Z.to_nat (pos e)) (val e)]> out)
  end.

Fixpoint replace_ranges (changes : list RangeChange) (lits out : bytes) : bytes :=
  match changes with
  | [] => out
  | c :: changes' =>
      let n := Z.to_nat (end_ c - start c) in
      replace_ranges changes' (drop n lits) (splice (Z.to_nat (start c)) (take n lits) out)
  end.

(** The words of SPARSE_BLOCK64: each consumes one rank and its literals. *)
Fixpoint block64_text (popcounts : bytes) (w : Z) (ranks lits out : bytes) : option bytes :=
  match popcounts with
  | [] => if zlen lits =? 0 then Some out else None
  | k :: popcounts' =>
      if k =? 0 then block64_text popcounts' (w + 1) ranks lits out
      else
        match unrank_comb_subset (from_le (take 8 ranks)) 64 k with
        | Ok ps => block64_text popcounts' (w + 1) (drop 8 ranks) (drop (Z.to_nat k) lits)
                     (place (map (fun p => w * 8 + p) ps) (take (Z.to_nat k) lits) out)
        | Err _ => None
        end
  end.

Definition lookup_symbols (table : bytes) (ss : list Z) : bytes :=
  map (fun s => table !!! Z.to_nat s) ss.

Section Denotes.
Context {ctx : DecoderContext} (limits : Limits).

Definition coded (model enc_obj : ChunkId) (scale_bits : Z) (codec : RansCodec) (n : Z) (d : bytes)
  : Prop :=
  exists m e, fetch_object model = Ok m /\ fetch_object enc_obj = Ok e /\
    decode_rans m e scale_bits codec n = Ok d /\ zlen d = n.

Inductive residual_denotes (base : bytes) : Residual -> bytes -> Prop :=
| RD_xor_sparse len edits :
    len <= zlen base -> Forall (fun e => pos e < len) edits ->
    residual_denotes base (XorSparse len edits) (xor_edits edits (take (Z.to_nat len) base))
| RD_range_replace len changes literals :
    len <= zlen base -> Forall (fun c => start c < end_ c <= len) changes ->
    residual_denotes base (RangeReplace len changes literals)
      (replace_ranges changes literals (take (Z.to_nat len) base))
| RD_rans_coded len enc_obj model scale_bits codec d :
    len <= zlen base -> coded model enc_obj scale_bits codec len d ->
    residual_denotes base (RansCoded len enc_obj model scale_bits codec len)
      (zip_with Z.lxor (take (Z.to_nat len) base) d)
| RD_base_sequence len enc_obj model scale_bits codec seq_len lit_len off_len cmds lit_out d text :
    decode_three_streams limits (refs model enc_obj scale_bits codec)
      {| ts_seq_len := seq_len; ts_lit_len := lit_len; ts_off_len := off_len; ts_cmds := cmds;
         ts_lit_out := lit_out |} None 4 = Ok d ->
    lz_decode (lz_base base) false (d_commands d) (d_literals d) (d_offsets d) [] = Some text ->
    zlen text = len ->
    residual_denotes base
      (BaseSequence len enc_obj model scale_bits codec seq_len lit_len off_len cmds lit_out) text.

Inductive Denotes : Representation -> bytes -> Prop :=
| D_Zero len : Denotes (Zero len) (vec 0 len)
| D_Fill value len : Denotes (Fill value len) (vec value len)
| D_Inline data : Denotes (Inline data) data
| D_Raw obj len b : fetch_object obj = Ok b -> zlen b = len -> Denotes (Raw obj len) b
| D_Rans model enc_obj scale_bits codec len d :
    coded model enc_obj scale_bits codec len d -> Denotes (Rans model enc_obj scale_bits codec len) d
| D_ExactRef target off len desc full :
    fetch_descriptor target = Ok desc -> Denotes desc full -> off + len <= zlen full ->
    Denotes (ExactRef target off len) (slice (Z.to_nat off) (Z.to_nat len) full)
| D_BaseResidual base base_len residual len desc bb out :
    fetch_descriptor base = Ok desc -> Representation_len desc = base_len -> Denotes desc bb ->
    residual_denotes bb residual out ->
    Denotes (BaseResidual base base_len residual len) out
| D_Sparse k rank literals len ps :
    unrank_comb_subset rank len k = Ok ps -> zlen ps = k -> zlen literals = k ->
    Denotes (Sparse k rank literals len) (place ps literals (vec 0 len))
| D_Palette palette counts rank len ss :
    unrank_multinomial rank len counts = Ok ss -> zlen ss = len ->
    Denotes (Palette palette counts rank len) (lookup_symbols palette ss)
| D_Periodic period pattern count tail len :
    0 < period -> zlen pattern = period ->
    Denotes (Periodic period pattern count tail len)
      (concat (replicate (Z.to_nat count) pattern) ++ tail)
| D_EntropyXor universe seed coordinate transform edits len g :
    universe_bytes universe seed coordinate 0 len = Ok g -> zlen g = len ->
    Forall (fun e => pos e < len) edits ->
    Denotes (EntropyRef universe seed coordinate transform (XorSparse len edits) len) (xor_edits edits g)
| D_EntropyRans universe seed coordinate transform rlen enc_obj model scale_bits codec dlen len g out :
    universe_bytes universe seed coordinate 0 len = Ok g -> zlen g = len ->
    residual_denotes g (RansCoded rlen enc_obj model scale_bits codec dlen) out ->
    Denotes (EntropyRef universe seed coordinate transform
               (RansCoded rlen enc_obj model scale_bits codec dlen) len) out
| D_Permutation rank alphabet len ss :
    unrank_permutation rank len = Ok ss -> zlen alphabet = len ->
    Denotes (Permutation rank alphabet len) (lookup_symbols alphabet ss)
| D_SequenceRans model enc_obj scale_bits codec seq_len lit_len off_len cmds lit_out len d text :
    decode_three_streams limits (refs model enc_obj scale_bits codec)
      {| ts_seq_len := seq_len; ts_lit_len := lit_len; ts_off_len := off_len; ts_cmds := cmds;
         ts_lit_out := lit_out |} None 2 = Ok d ->
    lz_decode lz_sequence true (d_commands d) (d_literals d) (d_offsets d) [] = Some text ->
    zlen text = len ->
    Denotes (SequenceRans model enc_obj scale_bits codec seq_len lit_len off_len cmds lit_out len) text
| D_SparseBlock64 model enc_obj scale_bits codec pc_len rank_len lit_len words nonzero lit_out len d
    text :
    decode_three_streams limits (refs model enc_obj scale_bits codec)
      {| ts_seq_len := pc_len; ts_lit_len := lit_len; ts_off_len := rank_len; ts_cmds := words;
         ts_lit_out := lit_out |} (Some nonzero) 8 = Ok d ->
    block64_text (d_commands d) 0 (d_offsets d) (d_literals d) (vec 0 len) = Some text ->
    Denotes (SparseBlock64 model enc_obj scale_bits codec pc_len rank_len lit_len words nonzero
               lit_out len) text
| D_SequenceDict dictionary dictionary_len model enc_obj scale_bits codec seq_len lit_len off_len
    src_len cmds lit_out len desc dict d text :
    fetch_descriptor dictionary = Ok desc -> Representation_len desc = dictionary_len ->
    Denotes desc dict ->
    decode_four_streams limits (refs model enc_obj scale_bits codec)
      {| fs_seq_len := seq_len; fs_lit_len := lit_len; fs_off_len := off_len;
         fs_src_len := src_len; fs_cmds := cmds; fs_lit_out := lit_out |} = Ok d ->
    lz_decode (lz_dict dict) true (dd_commands d) (dd_literals d) (dd_offsets d) (dd_sources d)
      = Some text ->
    zlen text = len ->
    Denotes (SequenceDict dictionary dictionary_len model enc_obj scale_bits codec seq_len lit_len
               off_len src_len cmds lit_out len) text
| D_SequenceSharedDict dictionary dictionary_len shared shared_len model enc_obj scale_bits codec
    seq_len lit_len off_len src_len cmds lit_out len sdesc shd dict d text :
    fetch_descriptor shared = Ok sdesc -> Representation_len sdesc = shared_len -> Denotes sdesc shd ->
    dictionary_denotes dictionary dictionary_len dict ->
    decode_four_streams limits (refs model enc_obj scale_bits codec)
      {| fs_seq_len := seq_len; fs_lit_len := lit_len; fs_off_len := off_len;
         fs_src_len := src_len; fs_cmds := cmds; fs_lit_out := lit_out |} = Ok d ->
    lz_decode (lz_shared dict shd) true (dd_commands d) (dd_literals d) (dd_offsets d)
      (dd_sources d) = Some text ->
    zlen text = len ->
    Denotes (SequenceSharedDict dictionary dictionary_len shared shared_len model enc_obj scale_bits
               codec seq_len lit_len off_len src_len cmds lit_out len) text
| D_SequenceDeep model enc_obj scale_bits codec seq_len lit_len off_len len_len cmds lit_out len d
    text :
    decode_deep_streams limits (refs model enc_obj scale_bits codec)
      {| dl_seq_len := seq_len; dl_lit_len := lit_len; dl_off_len := off_len; dl_len_len := len_len;
         dl_cmds := cmds; dl_lit_out := lit_out |} = Ok d ->
    lz_decode lz_deep true (dp_commands d) (dp_literals d) (dp_offsets d) (dp_lengths d) = Some text ->
    zlen text = len ->
    Denotes (SequenceDeep model enc_obj scale_bits codec seq_len lit_len off_len len_len cmds lit_out
               len) text
with dictionary_denotes : ChunkId -> Z -> bytes -> Prop :=
| DD_absent dictionary n : ChunkId_is_zero dictionary = true -> dictionary_denotes dictionary n []
| DD_present dictionary n desc dict :
    ChunkId_is_zero dictionary = false -> fetch_descriptor dictionary = Ok desc ->
    Representation_len desc = n -> Denotes desc dict -> dictionary_denotes dictionary n dict.
End Denotes.

(** * The loops compute their specifications *)

Lemma splice_all (s out : bytes) : zlen s = zlen out -> splice 0 s out = s.
Proof.
  intros. unfold splice. rewrite take_0, drop_ge by (unfold zlen in *; lia). by rewrite app_nil_r.
Qed.

Lemma copy_all_Ok output src x : copy_all output src = Ok x -> zlen src = zlen output /\ x = src.
Proof.
  unfold copy_all. intros H. apply copy_from_slice_Ok in H as (_ & Hl & ->).
  split; [lia|]. apply splice_all. lia.
Qed.

Lemma fill_vec v output : fill v output = vec v (zlen output).
Proof.
  unfold fill, vec. rewrite to_nat_zlen. induction output as [|b output IH]; cbn; [done|]. by rewrite IH.
Qed.

Lemma scatter_spec ps i lits out x :
  0 <= i -> scatter ps i lits out = Ok x -> x = place ps (drop (Z.to_nat i) lits) out.
Proof.
  revert i out. induction ps as [|p ps IH]; intros i out Hi H; cbn [scatter] in H; inv_ok H; [done|].
  apply get_idx_Ok in Hok. apply set_idx_Ok in Hok0 as [_ ->].
  rewrite (drop_S _ _ _ Hok). cbn [place]. replace (S (Z.to_nat i)) with (Z.to_nat (i + 1)) by lia.
  apply IH in H; [done | lia].
Qed.

Lemma splice_cons p (b : Z) s out :
  (p < length out)%nat -> splice (S p) s (<[p:=b]> out) = splice p (b :: s) out.
Proof.
  intros Hp. unfold splice. cbn [length].
  assert (Ht : take (S p) (<[p:=b]> out) = take p out ++ [b]).
  { assert (Hlen : length (take p out) = p) by (rewrite length_take; lia).
    rewrite insert_take_drop by done. rewrite take_app_ge by lia. rewrite Hlen.
    by replace (S p - p)%nat with 1%nat by lia. }
  rewrite Ht, <-app_assoc, drop_insert_lt by lia. cbn [app].
  by replace (p + S (length s))%nat with (S p + length s)%nat by lia.
Qed.

Lemma splice_nil p (out : bytes) : splice p [] out = out.
Proof. unfold splice. cbn [length app]. by rewrite Nat.add_0_r, take_drop. Qed.

Lemma substitute_spec ss i table out x :
  0 <= i -> substitute ss i table out = Ok x -> x = splice (Z.to_nat i) (lookup_symbols table ss) out.
Proof.
  revert i out. induction ss as [|s ss IH]; intros i out Hi H; cbn [substitute] in H; inv_ok H.
  - by rewrite splice_nil.
  - apply get_idx_Ok in Hok. apply set_idx_Ok in Hok0 as [Hlt ->].
    apply IH in H; [|lia]. subst x. replace (Z.to_nat (i + 1)) with (S (Z.to_nat i)) by lia.
    rewrite splice_cons by (unfold zlen in Hlt; lia). cbn [lookup_symbols map].
    by rewrite (list_lookup_total_correct _ _ _ Hok).
Qed.

Lemma splice_splice p (s t out : bytes) :
  (p + length s + length t <= length out)%nat ->
  splice (p + length s) t (splice p s out) = splice p (s ++ t) out.
Proof.
  intros H. unfold splice at 1. rewrite take_splice by lia. unfold splice.
  rewrite length_app, <-!app_assoc. do 3 f_equal.
  rewrite !drop_app, length_take, drop_drop. rewrite (drop_ge (take p out)) by (rewrite length_take; lia).
  rewrite (drop_ge s) by lia. cbn [app]. f_equal. lia.
Qed.

Lemma periodic_loop_spec count period pattern written budget out x w b :
  0 <= written <= zlen out -> zlen pattern = period ->
  periodic_loop count period pattern written budget out = Ok (x, w, b) ->
  x = splice (Z.to_nat written) (concat (replicate count pattern)) out /\
  w = written + zlen (concat (replicate count pattern)) /\ w <= zlen out.
Proof.
  intros Hw Hp. revert written budget out Hw.
  induction count as [|count IH]; intros written budget out Hw H; cbn [periodic_loop] in H; cbv zeta in H;
    inv_ok H; cbn [replicate concat].
  - rewrite splice_nil, zlen_nil. split_and!; done || lia.
  - bools. apply copy_from_slice_Ok in Hok as (? & ? & ->). pose proof (zlen_nonneg pattern).
    assert (Hz : zlen (splice (Z.to_nat written) pattern out) = zlen out) by (apply zlen_splice; lia).
    apply IH in H as (-> & -> & Hle); [|lia].
    rewrite zlen_app. split_and!; [|lia|lia].
    replace (Z.to_nat (written + zlen pattern)) with (Z.to_nat written + length pattern)%nat
      by (unfold zlen; lia).
    apply splice_splice. unfold zlen in *. lia.
Qed.

Lemma apply_entropy_edits_spec edits len out x :
  apply_entropy_edits edits len out = Ok x -> x = xor_edits edits out /\ Forall (fun e => pos e < len) edits.
Proof.
  revert out. induction edits as [|e edits IH]; intros out H; cbn [apply_entropy_edits] in H; inv_ok H;
    [done|]. bools. apply get_idx_Ok in Hok. apply set_idx_Ok in Hok0 as [_ ->].
  apply IH in H as [-> Hf]. split; [|by constructor]. cbn [xor_edits].
  by rewrite (list_lookup_total_correct _ _ _ Hok).
Qed.

Lemma apply_edits_spec edits len budget out x b :
  apply_edits edits len budget out = Ok (x, b) ->
  x = xor_edits edits out /\ Forall (fun e => pos e < len) edits.
Proof.
  revert budget out. induction edits as [|e edits IH]; intros budget out H; cbn [apply_edits] in H;
    inv_ok H; [done|]. bools. apply get_idx_Ok in Hok. apply set_idx_Ok in Hok0 as [_ ->].
  apply IH in H as [-> Hf]. split; [|by constructor]. cbn [xor_edits].
  by rewrite (list_lookup_total_correct _ _ _ Hok).
Qed.

Lemma apply_changes_spec changes len literals lit budget out x b :
  0 <= lit ->
  apply_changes changes len literals lit budget out = Ok (x, b) ->
  x = replace_ranges changes (drop (Z.to_nat lit) literals) out /\
  Forall (fun c => start c < end_ c <= len) changes.
Proof.
  revert lit budget out. induction changes as [|c changes IH]; intros lit budget out Hlit H;
    cbn [apply_changes] in H; cbv zeta in H; inv_ok H; [done|]. bools. ok_facts.
  apply IH in H as [-> Hf]; [|lia]. split; [|constructor; [lia | done]].
  cbn [replace_ranges]. unfold slice.
  replace (lit + (end_ c - start c) - lit) with (end_ c - start c) by lia.
  rewrite drop_drop. do 2 f_equal. lia.
Qed.

Lemma xor_loop_spec todo i base decoded out x :
  0 <= i -> i + Z.of_nat todo <= zlen base -> i + Z.of_nat todo <= zlen decoded ->
  xor_loop todo i base decoded out = Ok x ->
  x = splice (Z.to_nat i) (zip_with Z.lxor (slice (Z.to_nat i) todo base) (slice (Z.to_nat i) todo decoded)) out.
Proof.
  revert i out. induction todo as [|todo IH]; intros i out Hi Hb Hd H; cbn [xor_loop] in H; inv_ok H.
  - unfold slice. rewrite !take_0. by rewrite splice_nil.
  - apply get_idx_Ok in Hok, Hok0. apply set_idx_Ok in Hok1 as [Hlt ->].
    apply IH in H; [|lia..]. subst x. replace (Z.to_nat (i + 1)) with (S (Z.to_nat i)) by lia.
    rewrite splice_cons by (unfold zlen in Hlt; lia). unfold slice.
    rewrite (drop_S _ _ _ Hok), (drop_S _ _ _ Hok0). done.
Qed.

Lemma scatter_word_spec ps j base lit lits out x :
  0 <= j -> 0 <= lit -> scatter_word ps j base lit lits out = Ok x ->
  x = place (map (fun p => base + p) ps) (drop (Z.to_nat (lit + j)) lits) out.
Proof.
  revert j out. induction ps as [|p ps IH]; intros j out Hj Hl H; cbn [scatter_word] in H;
    cbv zeta in H; inv_ok H; [done|].
  apply get_idx_Ok in Hok. apply set_idx_Ok in Hok0 as [_ ->]. apply IH in H; [|lia|done].
  subst x. rewrite (drop_S _ _ _ Hok). cbn [map place].
  by replace (S (Z.to_nat (lit + j))) with (Z.to_nat (lit + (j + 1))) by lia.
Qed.

(** Only as many literals as positions are placed. *)
Lemma place_take ps lits out k : (length ps <= k)%nat -> place ps (take k lits) out = place ps lits out.
Proof.
  revert lits out k. induction ps as [|p ps IH]; intros lits out k Hk; [by destruct lits, k|].
  destruct k as [|k]; [cbn in Hk; lia|]. destruct lits as [|v lits]; [done|]. cbn.
  apply IH. cbn in Hk. lia.
Qed.

Lemma block64_loop_spec popcounts w ranks lits rank lit budget out x l b :
  wf_bytes popcounts -> 0 <= rank -> 0 <= lit <= zlen lits ->
  block64_loop popcounts w ranks lits rank lit budget out = Ok (x, l, b) -> l = zlen lits ->
  block64_text popcounts w (drop (Z.to_nat rank) ranks) (drop (Z.to_nat lit) lits) out = Some x.
Proof.
  intros Hp. revert w rank lit budget out. induction Hp as [|k popcounts Hk _ IH];
    intros w rank lit budget out Hr Hl H El; cbn [block64_loop block64_text] in *.
  - inv_ok H. rewrite drop_ge by (unfold zlen; lia). done.
  - destruct (Z.eqb_spec k 0); [by eapply IH|]. inv_ok H. bools. ok_facts.
    apply map_err_Ok_inv in Hok0. unfold slice in Hok0.
    replace (Z.to_nat (rank + 8 - rank)) with 8%nat in Hok0 by lia. rewrite Hok0.
    apply scatter_word_spec in Hok1; [|lia..].
    rewrite place_take by (rewrite length_map; unfold zlen in *; lia).
    rewrite Z.add_0_r in Hok1. subst v1. rewrite !drop_drop.
    replace (Z.to_nat rank + 8)%nat with (Z.to_nat (rank + 8)) by lia.
    replace (Z.to_nat lit + Z.to_nat k)%nat with (Z.to_nat (lit + k)) by width.
    eapply IH; [lia | width | eassumption | done].
Qed.

(** * The interpreter implements the specification *)

Lemma walk_lz L O A step zstep all_lits commands out budget st :
  wf_bytes O -> wf_bytes A -> wf_bytes commands ->
  (forall cmd st z, is_u8 cmd -> sim L O A st z -> simulates L O A st z (step cmd st) (zstep cmd z)) ->
  (forall cmd, grows (zstep cmd)) ->
  walk step commands (Walk_start out budget) = Ok st ->
  wk_pos st = zlen (wk_out st) -> (all_lits = true -> wk_lit st = zlen L) ->
  lz_decode zstep all_lits commands L O A = Some (wk_out st) /\ zlen (wk_out st) = zlen out.
Proof.
  intros HO HA Hc Hstep Hg H Hpos Hlit.
  destruct (walk_sim L O A step zstep commands _ _ Hstep Hg Hc (Walk_start_sim L O A out budget))
    as [Hs _]. destruct (Hs _ H) as (z & E & Hsim & Hlen & _). split; [|done].
  unfold lz_decode. rewrite E. cbn [mbind option_bind].
  assert (Ht : lz_text z = wk_out st).
  { rewrite (sim_text _ _ _ _ _ Hsim), Hpos, to_nat_zlen. by rewrite firstn_all. }
  rewrite Ht. destruct all_lits; [|done]. cbn [andb].
  rewrite (sim_lits _ _ _ _ _ Hsim), Hlit, to_nat_zlen, drop_all by done. done.
Qed.

(** The converse: a walk over streams with a reference text succeeds in any
    buffer of that length with a budget for it, and passes the coverage
    check. *)
Lemma lz_walk_succeeds L O A step zstep msg commands out budget text :
  wf_bytes commands ->
  (forall cmd st z, is_u8 cmd -> sim L O A st z -> simulates L O A st z (step cmd st) (zstep cmd z)) ->
  (forall cmd, grows (zstep cmd)) ->
  lz_decode zstep true commands L O A = Some text ->
  zlen out = zlen text -> zlen text <= budget ->
  rbind (walk step commands (Walk_start out budget)) (finish_walk msg L) = Ok (text, budget - zlen text).
Proof.
  intros Hc Hstep Hg E Ho Hb. unfold lz_decode in E.
  destruct (lz_walk zstep commands (LZ_start L O A)) as [z|] eqn:Ez; [|done]. cbn [mbind option_bind andb] in E.
  destruct (Z.eqb_spec (zlen (lz_lits z)) 0) as [Hl0|]; [|done]. cbn [negb] in E. injection E as <-.
  destruct (walk_sim L O A step zstep commands _ _ Hstep Hg Hc (Walk_start_sim L O A out budget)) as [Hs Hcm].
  destruct (Hcm z Ez) as [st H]; [cbn; lia | cbn; change (zlen []) with 0; lia |].
  destruct (Hs _ H) as (z' & Ez' & Hsim & Hlen & Hbud). rewrite Ez in Ez'. injection Ez' as <-.
  cbn in Hlen, Hbud. change (zlen []) with 0 in Hbud.
  pose proof (sim_text_len _ _ _ _ _ Hsim) as Htl. destruct Hsim as [Hp Ht Hl Hls _ _ _ _ _ _].
  rewrite Hls in Hl0. unfold zlen in Hl0, Hl. rewrite length_drop in Hl0.
  rewrite H. cbn [rbind]. unfold finish_walk.
  assert (wk_lit st = zlen L) as -> by (unfold zlen; lia). assert (wk_pos st = zlen (wk_out st)) as Hpe by lia.
  rewrite Hpe in Ht |- *. rewrite !Z.eqb_refl. cbn [negb orb]. f_equal. f_equal; [|lia].
  by rewrite Ht, to_nat_zlen, firstn_all.
Qed.

Section Refine.
Context (limits : Limits) (ctx : DecoderContext) `{!ContextLaws limits ctx}.

Lemma three_bytes rf lens u k d :
  decode_three_streams limits rf lens u k = Ok d ->
  Forall is_u32 [ts_seq_len lens; ts_lit_len lens; ts_off_len lens] ->
  wf_bytes (d_commands d) /\ wf_bytes (d_literals d) /\ wf_bytes (d_offsets d).
Proof.
  intros H Hl. pose proof (decode_three_streams_wp limits ctx rf lens u k Hl) as Hw.
  rewrite H in Hw. cbn in Hw. intuition.
Qed.
Lemma four_bytes rf lens d :
  decode_four_streams limits rf lens = Ok d ->
  Forall is_u32 [fs_seq_len lens; fs_lit_len lens; fs_off_len lens; fs_src_len lens] ->
  wf_bytes (dd_commands d) /\ wf_bytes (dd_literals d) /\ wf_bytes (dd_offsets d) /\
  wf_bytes (dd_sources d).
Proof.
  intros H Hl. pose proof (decode_four_streams_wp limits ctx rf lens Hl) as Hw.
  rewrite H in Hw. cbn in Hw. intuition.
Qed.
Lemma deep_bytes rf lens d :
  decode_deep_streams limits rf lens = Ok d ->
  Forall is_u32 [dl_seq_len lens; dl_lit_len lens; dl_off_len lens; dl_len_len lens] ->
  wf_bytes (dp_commands d) /\ wf_bytes (dp_literals d) /\ wf_bytes (dp_offsets d) /\
  wf_bytes (dp_lengths d).
Proof.
  intros H Hl. pose proof (decode_deep_streams_wp limits ctx rf lens Hl) as Hw.
  rewrite H in Hw. cbn in Hw. intuition.
Qed.

Lemma apply_residual_denotes residual base budget out x b :
  wf_residual residual ->
  apply_residual limits residual base budget out = Ok (x, b) ->
  residual_denotes limits base residual x.
Proof.
  intros Hwf H. unfold apply_residual in H. cbv zeta in H. inv_ok H. bools.
  destruct residual; cbn [wf_residual Residual_len is_base_sequence negb andb] in *; destruct_and?; bools.
  - unfold apply_xor_sparse in H. inv_ok H. ok_facts. apply apply_edits_spec in H as [-> Hf].
    rewrite splice_all by lia. unfold slice. rewrite drop_0, Z.sub_0_r. by constructor.
  - unfold apply_range_replace in H. inv_ok H. ok_facts.
    apply apply_changes_spec in H as [-> Hf]; [|done].
    rewrite splice_all by lia. unfold slice. rewrite drop_0, Z.sub_0_r. by constructor.
  - unfold apply_rans_coded in H. inv_ok H. bools. subst decoded_len.
    apply map_err_Ok_inv in Hok, Hok0, Hok1.
    set (len := zlen out) in *.
    assert (Hz : zlen (zip_with Z.lxor (take (Z.to_nat len) base) v1) = len).
    { unfold zlen in *. rewrite length_zip_with, length_take. lia. }
    apply xor_loop_spec in Hok2; [|lia | width | width]. subst x.
    unfold slice. cbn [Z.to_nat]. rewrite !drop_0, (take_ge v1) by (unfold zlen in *; lia).
    rewrite splice_all by lia. constructor; [done|]. by exists v, v0.
  - unfold apply_base_sequence in H. inv_ok H. bools. foralls. apply map_err_Ok_inv in Hok.
    apply three_bytes in Hok as Hd; [|by list_forall]. destruct Hd as (? & ? & ?).
    destruct (walk_lz (d_literals v) (d_offsets v) [] (step_base (d_literals v) (d_offsets v) base)
      (lz_base base) false (d_commands v) out budget v0) as [E Hl]; try done.
    + constructor.
    + intros. by apply step_base_sim.
    + apply lz_base_grows.
    + econstructor; [exact Hok | exact E | lia].
Qed.

Context (rec : Representation -> Z -> Z -> bytes -> outcome (bytes * Z)) (depth : Z).
Hypothesis Hrec : forall desc budget out x b,
  wf_repr desc -> rec desc (depth + 1) budget out = Ok (x, b) -> Denotes limits desc x.

Lemma materialize_nested_denotes desc n budget x b :
  wf_repr desc -> materialize_nested rec desc n depth budget = Ok (x, b) -> Denotes limits desc x.
Proof.
  intros Hwf H. unfold materialize_nested in H. inv_ok H.
  apply ok_or_Ok_inv, checked_add_Some in Hok as [-> _]. by eapply Hrec.
Qed.

Lemma fetch_nested_denotes id n msg budget x b :
  fetch_nested rec id n msg depth budget = Ok (x, b) ->
  exists desc, fetch_descriptor id = Ok desc /\ Representation_len desc = n /\
    Denotes limits desc x.
Proof.
  intros H. unfold fetch_nested in H. inv_ok H. bools. apply map_err_Ok_inv in Hok.
  destruct (fetch_descriptor_valid _ _ Hok) as [Hwf _].
  apply materialize_nested_denotes in H; [|done]. eauto.
Qed.

Lemma file_dictionary_denotes dictionary n budget x b :
  file_dictionary limits rec dictionary n depth budget = Ok (x, b) ->
  dictionary_denotes limits dictionary n x.
Proof.
  intros H. unfold file_dictionary in H. destruct (ChunkId_is_zero dictionary) eqn:E; cbn [negb] in H.
  - inv_ok H. by constructor.
  - inv_ok H. apply fetch_nested_denotes in H as (desc & ? & ? & ?). by econstructor.
Qed.

Lemma finish_walk_Ok msg lits st x b :
  finish_walk msg lits st = Ok (x, b) ->
  wk_pos st = zlen (wk_out st) /\ wk_lit st = zlen lits /\ x = wk_out st.
Proof. intros H. unfold finish_walk in H. inv_ok H. by bools. Qed.

(** The walk of a sequence family, from the recovered streams to the text. *)
Ltac walk_text L O A Hwalk Hfin step_lemma grows_lemma :=
  apply finish_walk_Ok in Hfin as (? & ? & ->);
  eapply (walk_lz L O A _ _ true) in Hwalk as [? ?];
    [| done | (done || constructor) | done
     | intros; eapply step_lemma; (done || constructor) | apply grows_lemma | done | by intros _].

Lemma materialize_family_denotes desc budget out x b :
  wf_repr desc -> zlen out = Representation_len desc ->
  materialize_family limits rec desc depth budget out = Ok (x, b) -> Denotes limits desc x.
Proof.
  intros Hwf Hn H.
  destruct desc; cbn [wf_repr Representation_len materialize_family] in Hwf, Hn, H; destruct_and? Hwf;
    foralls.
  - injection H as <- _. rewrite fill_vec, Hn. constructor.
  - injection H as <- _. rewrite fill_vec, Hn. constructor.
  - unfold materialize_inline in H. inv_ok H. apply copy_all_Ok in Hok as [_ ->]. constructor.
  - unfold materialize_raw in H. inv_ok H. bools. apply copy_all_Ok in Hok0 as [_ ->].
    apply map_err_Ok_inv in Hok. by constructor.
  - unfold materialize_rans in H. inv_ok H. bools. apply copy_all_Ok in Hok2 as [_ ->].
    apply map_err_Ok_inv in Hok, Hok0, Hok1. constructor. by eexists _, _.
  - unfold materialize_exact_ref in H. cbv zeta in H. inv_ok H.
    apply map_err_Ok_inv in Hok. destruct (fetch_descriptor_valid _ _ Hok) as [Hwf _].
    apply materialize_nested_denotes in Hok0; [|done]. ok_facts. apply copy_all_Ok in Hok2 as [_ ->].
    replace (off + zlen out - off) with (zlen out) by lia. econstructor; [done | done | lia].
  - unfold materialize_base_residual in H. inv_ok H.
    apply fetch_nested_denotes in Hok as (desc & ? & ? & ?).
    apply apply_residual_denotes in H; [|done]. by econstructor.
  - unfold materialize_sparse in H. cbv zeta in H. inv_ok H. bools. apply map_err_Ok_inv in Hok.
    apply scatter_spec in Hok0 as ->; [|done]. rewrite fill_vec, drop_0. by econstructor.
  - unfold materialize_palette in H. inv_ok H. bools.
    apply map_err_Ok_inv, map_err_Ok_inv in Hok. apply substitute_spec in Hok0 as ->; [|done].
    rewrite splice_all by (unfold lookup_symbols; by rewrite zlen_map). econstructor; [done | lia].
  - unfold materialize_periodic in H. inv_ok H. bools. ok_facts.
    apply periodic_loop_spec in Hok as (-> & Hw & Hle); [|pose proof (zlen_nonneg out); lia | done].
    set (body := concat _) in *. rewrite zlen_splice in * by lia.
    replace (Z.to_nat z0) with (0 + length body)%nat by (unfold zlen in *; lia).
    rewrite splice_splice by (unfold zlen in *; lia).
    rewrite splice_all by (rewrite zlen_app; lia). pose proof (zlen_nonneg pattern). constructor; [lia | done].
  - unfold materialize_permutation in H. cbv zeta in H. inv_ok H. bools.
    apply map_err_Ok_inv, map_err_Ok_inv in Hok. apply substitute_spec in Hok0 as ->; [|done].
    destruct (unrank_permutation_range rank (zlen out) v) as [? _]; [width | width | done |].
    rewrite splice_all by (unfold lookup_symbols; by rewrite zlen_map). by econstructor.
  - unfold materialize_entropy_ref in H. inv_ok H. apply map_err_Ok_inv in Hok.
    destruct residual; try done.
    + inv_ok H. bools. apply copy_all_Ok in Hok0 as [_ ->].
      apply apply_entropy_edits_spec in Hok1 as [-> ?]. subst. by constructor.
    + cbv zeta in H. inv_ok H. apply copy_all_Ok in Hok1 as [_ ->]. bools.
      apply apply_residual_denotes in Hok0; [|done]. by econstructor.
  - unfold materialize_sequence_rans in H. inv_ok H.
    apply three_bytes in Hok as Hd; [|by list_forall]. destruct Hd as (? & ? & ?).
    walk_text (d_literals v) (d_offsets v) (@nil Z) Hok0 H step_sequence_sim lz_sequence_grows.
    econstructor; [exact Hok | done | lia].
  - unfold materialize_sparse_block64 in H. cbv zeta in H. inv_ok H. bools. apply map_err_Ok_inv in Hok.
    apply three_bytes in Hok as Hd; [|by list_forall]. destruct Hd as (? & ? & ?).
    pose proof (zlen_nonneg (d_literals v)).
    eapply block64_loop_spec in Hok0; [|done|lia|lia|done]. rewrite fill_vec, !drop_0 in Hok0.
    econstructor; [exact Hok | exact Hok0].
  - unfold materialize_sequence_dict in H. inv_ok H.
    apply fetch_nested_denotes in Hok as (desc & ? & ? & ?).
    apply four_bytes in Hok0 as Hd; [|by list_forall]. destruct Hd as (? & ? & ? & ?).
    walk_text (dd_literals v) (dd_offsets v) (dd_sources v) Hok1 H step_dict_sim lz_dict_grows.
    econstructor; [done | done | done | exact Hok0 | done | lia].
  - unfold materialize_sequence_shared_dict in H. inv_ok H.
    apply fetch_nested_denotes in Hok as (desc & ? & ? & ?). apply file_dictionary_denotes in Hok0.
    apply four_bytes in Hok1 as Hd; [|by list_forall]. destruct Hd as (? & ? & ? & ?).
    walk_text (dd_literals v) (dd_offsets v) (dd_sources v) Hok2 H step_shared_sim lz_shared_grows.
    econstructor; [done | done | done | done | exact Hok1 | done | lia].
  - unfold materialize_sequence_deep in H. inv_ok H.
    apply deep_bytes in Hok as Hd; [|by list_forall]. destruct Hd as (? & ? & ? & ?).
    walk_text (dp_literals v) (dp_offsets v) (dp_lengths v) Hok0 H step_deep_sim lz_deep_grows.
    econstructor; [exact Hok | done | lia].
Qed.
End Refine.

Lemma materialize_loop_denotes limits ctx fuel desc depth budget out x b :
  ContextLaws limits ctx -> wf_repr desc ->
  materialize_loop limits fuel desc depth budget out = Ok (x, b) -> Denotes limits desc x.
Proof.
  intros Hlaws. revert desc depth budget out x b.
  induction fuel as [|fuel IH]; intros desc depth budget out x b Hwf H; [done|].
  cbn [materialize_loop] in H. inv_ok H. bools.
  eapply materialize_family_denotes in H; [done | done | | done | done].
  intros. by eapply IH.
Qed.

(** ** The denotation is a function of the descriptor and the context *)

Scheme Denotes_mut := Minimality for Denotes Sort Prop
  with dictionary_denotes_mut := Minimality for dictionary_denotes Sort Prop.

(** Identifies the results of equal computations, and of subdescriptors. *)
Ltac merge :=
  repeat match goal with
  | H1 : ?t = Ok ?a, H2 : ?t = Ok ?b |- _ => rewrite H1 in H2; injection H2 as ?; subst
  | H1 : ?t = Some ?a, H2 : ?t = Some ?b |- _ => rewrite H1 in H2; injection H2 as ?; subst
  | IH : forall y, Denotes _ ?d y -> ?x = y, H : Denotes _ ?d ?z |- _ => apply IH in H; subst
  | IH : forall y, dictionary_denotes _ ?d ?n y -> ?x = y, H : dictionary_denotes _ ?d ?n ?z |- _ =>
      apply IH in H; subst
  end.

Lemma coded_functional `{DecoderContext} m e s c n x y : coded m e s c n x -> coded m e s c n y -> x = y.
Proof. intros (? & ? & ? & ? & ? & ?) (? & ? & ? & ? & ? & ?). by merge. Qed.

Lemma residual_denotes_functional `{ctx : DecoderContext} limits base res x y :
  residual_denotes limits base res x -> residual_denotes limits base res y -> x = y.
Proof.
  intros H1 H2. destruct H1; inversion H2; subst; merge; try done.
  by erewrite (coded_functional _ _ _ _ _ d).
Qed.

Lemma Denotes_functional `{ctx : DecoderContext} limits desc x y :
  Denotes limits desc x -> Denotes limits desc y -> x = y.
Proof.
  intros H. revert y.
  apply (Denotes_mut ctx limits (fun desc x => forall y, Denotes limits desc y -> x = y)
    (fun id n x => forall y, dictionary_denotes limits id n y -> x = y)); try exact H; clear;
    intros;
    match goal with
    | H : Denotes _ _ ?y |- _ = ?y => inversion H
    | H : dictionary_denotes _ _ _ ?y |- _ = ?y => inversion H
    end;
    subst; merge; try done; try congruence.
  - by eapply coded_functional.
  - by eapply residual_denotes_functional.
  - by eapply residual_denotes_functional.
Qed.

(** * The promised properties *)

(** C1. Refinement: over a lawful resolver, whatever [materialize] returns
    for a well-formed descriptor is the byte string the descriptor denotes:
    the in-place, budgeted, cursor-driven interpreter computes the abstract
    semantics of every representation family. *)
Theorem materialize_denotes limits ctx desc depth budget out x b :
  ContextLaws limits ctx -> wf_repr desc ->
  materialize limits desc depth budget out = Ok (x, b) -> Denotes limits desc x.
Proof. apply materialize_loop_denotes. Qed.

Lemma materialize_denotes_witness :
  @Denotes sample_ctx Limits_default (ExactRef (sample_id 7) 1 2) [20; 30].
Proof.
  apply (materialize_denotes Limits_default sample_ctx _ 0 100 [0; 0] _ 98).
  - apply sample_ctx_laws.
  - apply sample_ref_valid.
  - vm_compute. reflexivity.
Defined.

(** Determinism: two successful materializations of a descriptor agree,
    whatever the depths, the budgets and the previous contents of the two
    output buffers. *)
Theorem materialize_deterministic limits ctx desc depth depth' budget budget' out out' x x' b b' :
  ContextLaws limits ctx -> wf_repr desc ->
  materialize limits desc depth budget out = Ok (x, b) ->
  materialize limits desc depth' budget' out' = Ok (x', b') -> x = x'.
Proof.
  intros Hl Hw H H'. eapply Denotes_functional; by eapply materialize_loop_denotes.
Qed.

Lemma materialize_deterministic_witness : [20; 30] = [20; 30].
Proof.
  apply (materialize_deterministic Limits_default sample_ctx (ExactRef (sample_id 7) 1 2)
           0 1 100 64 [0; 0] [255; 7] _ _ 98 62).
  - apply sample_ctx_laws.
  - apply sample_ref_valid.
  - vm_compute. reflexivity.
  - vm_compute. reflexivity.
Defined.
