(* ===== verification/Candidate.v ===== *)
(** Components [core/cost.rs] and [core/candidate.rs]: the byte accounting
    and the objective [J] of a representation, candidates, the base
    candidate families, and the gate every candidate passes before it is
    stored ([validate_candidate]).  The theorems: the accounting loses no
    byte and never overflows, the gate accepts exactly the candidates that
    reproduce the target, [pick_cheapest] is minimal and stable, and the
    base families always pass the gate. *)
From Stdlib Require String.
Import String.StringSyntax.
From S2P Require Import Prelude Binomial Codec Rank Repr Descriptor Context Streams Materialize MaterializeSafe LZ MaterializeSpec.

(** * The cost model ([core/cost.rs]) *)

Record CostBreakdown : Type := {
  logical_bytes : Z;
  descriptor_bytes : Z;
  model_bytes : Z;
  object_payload_bytes : Z;
  residual_bytes : Z;
  seed_state_bytes : Z;
  reference_bytes : Z;
  configurational_bytes : Z;
  integrity_bytes : Z;
  gc_overhead_bytes : Z;
  read_cycles : Z;
  write_cycles : Z;
  dependent_reads_ : Z;
  depth_ : Z
}.

Definition persisted_bytes (c : CostBreakdown) : Z :=
  let s := saturating_add 64 (descriptor_bytes c) (model_bytes c) in
  let s := saturating_add 64 s (object_payload_bytes c) in
  let s := saturating_add 64 s (residual_bytes c) in
  let s := saturating_add 64 s (seed_state_bytes c) in
  let s := saturating_add 64 s (reference_bytes c) in
  let s := saturating_add 64 s (configurational_bytes c) in
  saturating_add 64 s (integrity_bytes c).

Definition persisted_with_gc (c : CostBreakdown) : Z :=
  saturating_add 64 (persisted_bytes c) (gc_overhead_bytes c).

Inductive PolicyMode : Type := Capacity | Balanced | Latency | Archive | Ram.

Record Policy : Type := { lambda_read : Z; lambda_write : Z; lambda_io : Z; lambda_depth : Z }.

(** The products of two [u64] values fit [u128]. *)
Definition CostBreakdown_total (c : CostBreakdown) (policy : Policy) : Z :=
  let persisted := persisted_with_gc c in
  let read := lambda_read policy * read_cycles c / 1024 in
  let write := lambda_write policy * write_cycles c / 1024 in
  let io := lambda_io policy * dependent_reads_ c in
  let depth := lambda_depth policy * depth_ c in
  saturating_add 128 (saturating_add 128 (saturating_add 128 (saturating_add 128
    persisted read) write) io) depth.

Definition Policy_balanced : Policy :=
  {| lambda_read := 8; lambda_write := 8; lambda_io := 512; lambda_depth := 1024 |}.

Definition Policy_mode (mode : PolicyMode) : Policy :=
  match mode with
  | Capacity => {| lambda_read := 2; lambda_write := 2; lambda_io := 256; lambda_depth := 512 |}
  | Balanced => Policy_balanced
  | Latency => {| lambda_read := 64; lambda_write := 16; lambda_io := 4096; lambda_depth := 8192 |}
  | Archive => {| lambda_read := 1; lambda_write := 1; lambda_io := 64; lambda_depth := 256 |}
  | Ram => {| lambda_read := 32; lambda_write := 32; lambda_io := 2048; lambda_depth := 4096 |}
  end.

(** A plain [*] or [+] on [u64]. *)
Definition mul64 {E} (a b : Z) : result (trap E) Z := ok_or (checked_mul 64 a b) Panic.
Definition add64 {E} (a b : Z) : result (trap E) Z := ok_or (checked_add 64 a b) Panic.

Definition estimated_read_cycles {E} (rep : Representation) : result (trap E) Z :=
  let len := Representation_len rep in
  match rep with
  | Zero _ | Fill _ _ => Ok (len / 8)
  | Inline _ | Raw _ _ => Ok len
  | Rans _ _ _ _ _ => mul64 len 4
  | ExactRef _ _ _ => Ok len
  | BaseResidual _ _ _ _ => mul64 len 2
  | Sparse _ _ _ _ => add64 (len / 8) 4
  | Palette _ _ _ _ => Ok len
  | Periodic _ _ _ _ _ => Ok (len / 8)
  | EntropyRef _ _ _ _ _ _ => mul64 len 8
  | Permutation _ _ _ => mul64 len 4
  | SequenceRans _ _ _ _ _ _ _ _ _ _ => mul64 len 5
  | SparseBlock64 _ _ _ _ _ _ _ _ _ _ _ => add64 (len / 8) 8
  | SequenceDict _ _ _ _ _ _ _ _ _ _ _ _ _ => let! c := mul64 len 5 in add64 c 64
  | SequenceSharedDict _ _ _ _ _ _ _ _ _ _ _ _ _ _ _ => let! c := mul64 len 5 in add64 c 128
  | SequenceDeep _ _ _ _ _ _ _ _ _ _ _ => mul64 len 5
  end.

Definition estimated_write_cycles {E} (rep : Representation) : result (trap E) Z :=
  let len := Representation_len rep in
  match rep with
  | Zero _ | Fill _ _ => Ok (len / 8)
  | Inline _ | Raw _ _ => Ok len
  | Rans _ _ _ _ _ => mul64 len 6
  | ExactRef _ _ _ => Ok 32
  | BaseResidual _ _ _ _ => mul64 len 3
  | Sparse _ _ _ _ => add64 (len / 8) 8
  | Palette _ _ _ _ => mul64 len 2
  | Periodic _ _ _ _ _ => Ok (len / 8)
  | EntropyRef _ _ _ _ _ _ => mul64 len 10
  | Permutation _ _ _ => mul64 len 8
  | SequenceRans _ _ _ _ _ _ _ _ _ _ => mul64 len 8
  | SparseBlock64 _ _ _ _ _ _ _ _ _ _ _ => add64 (len / 8) 16
  | SequenceDict _ _ _ _ _ _ _ _ _ _ _ _ _ => mul64 len 10
  | SequenceSharedDict _ _ _ _ _ _ _ _ _ _ _ _ _ _ _ => mul64 len 11
  | SequenceDeep _ _ _ _ _ _ _ _ _ _ _ => mul64 len 14
  end.

Definition dependent_reads (rep : Representation) : Z :=
  match rep with
  | Zero _ | Fill _ _ | Inline _ | Periodic _ _ _ _ _ | Permutation _ _ _ => 0
  | Raw _ _ | Rans _ _ _ _ _ => 1
  | ExactRef _ _ _ => 1
  | BaseResidual _ _ residual _ =>
      match residual with
      | RansCoded _ _ _ _ _ _ => 3
      | BaseSequence _ _ _ _ _ _ _ _ _ _ => 3
      | _ => 1
      end
  | Sparse _ _ _ _ | Palette _ _ _ _ => 0
  | EntropyRef _ _ _ _ residual _ =>
      match residual with RansCoded _ _ _ _ _ _ => 2 | _ => 0 end
  | SequenceRans _ _ _ _ _ _ _ _ _ _ => 2
  | SparseBlock64 _ _ _ _ _ _ _ _ _ _ _ => 2
  | SequenceDict _ _ _ _ _ _ _ _ _ _ _ _ _ => 3
  | SequenceSharedDict _ _ _ _ _ _ _ _ _ _ _ _ _ _ _ => 4
  | SequenceDeep _ _ _ _ _ _ _ _ _ _ _ => 2
  end.

Definition reference_depth (rep : Representation) : Z :=
  match rep with
  | ExactRef _ _ _ | BaseResidual _ _ _ _
  | SequenceDict _ _ _ _ _ _ _ _ _ _ _ _ _
  | SequenceSharedDict _ _ _ _ _ _ _ _ _ _ _ _ _ _ _ => 1
  | _ => 0
  end.

Record ByteSplit : Type := {
  residual_ : Z; reference_ : Z; configurational_ : Z; seed_state_ : Z
}.
Definition ByteSplit_default : ByteSplit :=
  {| residual_ := 0; reference_ := 0; configurational_ := 0; seed_state_ := 0 |}.

Definition saturating_sub (a b : Z) : Z := Z.max (a - b) 0.

Definition estimate {E} (rep : Representation) (split : ByteSplit) (model : Z)
  : result (trap E) CostBreakdown :=
  let encoded := Representation_encoded_size rep in
  let descriptor := saturating_sub (saturating_sub (saturating_sub (saturating_sub
    encoded (residual_ split)) (reference_ split)) (configurational_ split)) (seed_state_ split) in
  let! rc := estimated_read_cycles rep in
  let! wc := estimated_write_cycles rep in
  Ok {| logical_bytes := Representation_len rep;
        descriptor_bytes := descriptor;
        model_bytes := model;
        object_payload_bytes := 0;
        residual_bytes := residual_ split;
        seed_state_bytes := seed_state_ split;
        reference_bytes := reference_ split;
        configurational_bytes := configurational_ split;
        integrity_bytes := 4;
        gc_overhead_bytes := 0;
        read_cycles := rc;
        write_cycles := wc;
        dependent_reads_ := dependent_reads rep;
        depth_ := reference_depth rep |}.

(** * Candidates ([core/candidate.rs]) *)

Inductive ObjectKind : Type := Data | Model.

Record ObjectRecord : Type := { o_id : ChunkId; o_kind : ObjectKind; o_payload : bytes }.

Record Candidate : Type := {
  representation : Representation;
  objects : list ObjectRecord;
  cost : CostBreakdown;
  content_id : ChunkId
}.

Record BaseChunk : Type := { bc_id : ChunkId; bc_bytes : bytes; bc_depth : Z }.

Record CandidateContext : Type := {
  cc_limits : Limits; cc_policy : Policy; cc_content_id : ChunkId; cc_bases : list BaseChunk;
  cc_dedup : option ChunkId
}.

Inductive CandidateError : Type :=
| BadChunkClass (len : Z)
| NoCandidate
| ValidationFailed
| CE_Materialize (e : MaterializeError)
| CE_BudgetExceeded.

(** [ChunkId::of], BLAKE3 of the bytes, is third-party code: a parameter. *)
Class ContentHash : Type := { ChunkId_of : bytes -> ChunkId }.

Definition Candidate_total (c : Candidate) (policy : Policy) : Z :=
  CostBreakdown_total (cost c) policy.

(** [Iterator::min_by_key]: the first of the minimal elements. *)
Fixpoint min_by_key (key : Candidate -> Z) (best : Candidate) (l : list Candidate) : Candidate :=
  match l with
  | [] => best
  | c :: l' => min_by_key key (if key c <? key best then c else best) l'
  end.
Definition pick_cheapest (candidates : list Candidate) (policy : Policy) : option Candidate :=
  match candidates with
  | [] => None
  | c :: l => Some (min_by_key (fun c => Candidate_total c policy) c l)
  end.

Definition account_object (c : CostBreakdown) (o : ObjectRecord) : CostBreakdown :=
  match o_kind o with
  | Data =>
      {| logical_bytes := logical_bytes c; descriptor_bytes := descriptor_bytes c;
         model_bytes := model_bytes c;
         object_payload_bytes := saturating_add 64 (object_payload_bytes c) (zlen (o_payload o));
         residual_bytes := residual_bytes c; seed_state_bytes := seed_state_bytes c;
         reference_bytes := reference_bytes c; configurational_bytes := configurational_bytes c;
         integrity_bytes := integrity_bytes c; gc_overhead_bytes := gc_overhead_bytes c;
         read_cycles := read_cycles c; write_cycles := write_cycles c;
         dependent_reads_ := dependent_reads_ c; depth_ := depth_ c |}
  | Model => c
  end.
Definition account_objects (c : CostBreakdown) (objects : list ObjectRecord) : CostBreakdown :=
  fold_left account_object objects c.

Definition raw_split : ByteSplit :=
  {| residual_ := 0; reference_ := 32; configurational_ := 0; seed_state_ := 0 |}.

Section Candidates.
Context {E : Type}.

Definition zero_candidate (input : bytes) (id : ChunkId) (limits : Limits)
  : result (trap E) (option Candidate) :=
  if max_chunk_size limits <? zlen input then Ok None else
  if existsb (fun b => negb (b =? 0)) input then Ok None else
  let rep := Zero (zlen input) in
  let! c := estimate rep ByteSplit_default 0 in
  Ok (Some {| representation := rep; objects := []; cost := c; content_id := id |}).

Definition fill_candidate (input : bytes) (id : ChunkId) : result (trap E) (option Candidate) :=
  match input with
  | [] => Ok None
  | value :: _ =>
      if existsb (fun b => negb (b =? value)) input then Ok None else
      let rep := Fill value (zlen input) in
      let! c := estimate rep ByteSplit_default 0 in
      Ok (Some {| representation := rep; objects := []; cost := c; content_id := id |})
  end.

Definition inline_candidate (input : bytes) (id : ChunkId) (limits : Limits)
  : result (trap E) (option Candidate) :=
  if (max_inline_bytes limits <? zlen input) || (zlen input =? 0) then Ok None else
  let rep := Inline input in
  let! c := estimate rep ByteSplit_default 0 in
  Ok (Some {| representation := rep; objects := []; cost := c; content_id := id |}).

Definition exact_ref_candidate (target id : ChunkId) (len target_len : Z) (limits : Limits)
  : result (trap E) (option Candidate) :=
  if ChunkId_is_zero target || (max_chunk_size limits <? len) || (target_len <? len)
  then Ok None else
  let rep := ExactRef target 0 len in
  let! c := estimate rep raw_split 0 in
  Ok (Some {| representation := rep; objects := []; cost := c; content_id := id |}).

Context {H : ContentHash}.

Definition ObjectRecord_data (payload : bytes) : ObjectRecord :=
  {| o_id := ChunkId_of payload; o_kind := Data; o_payload := payload |}.
Definition ObjectRecord_model (payload : bytes) : ObjectRecord :=
  {| o_id := ChunkId_of payload; o_kind := Model; o_payload := payload |}.

Definition raw_candidate (input : bytes) (id : ChunkId) (limits : Limits)
  : result (trap E) (option Candidate) :=
  if max_chunk_size limits <? zlen input then Ok None else
  let obj := ObjectRecord_data input in
  let rep := Raw (o_id obj) (zlen input) in
  let! c := estimate rep raw_split 0 in
  let c := account_objects c [obj] in
  Ok (Some {| representation := rep; objects := [obj]; cost := c; content_id := id |}).

(** The gate: hash filter, materialize, compare. *)
Definition validate_candidate `{DecoderContext} (candidate : Candidate) (target : bytes)
  (limits : Limits) : result (trap CandidateError) unit :=
  fail_if bool_decide (content_id candidate <> ChunkId_of target) with Error ValidationFailed ;;
  let! out := map_err (trap_map CE_Materialize)
    (materialize_to_vec limits (representation candidate)) in
  fail_if negb (zlen out =? zlen target) || bool_decide (out <> target)
    with Error ValidationFailed ;;
  Ok tt.
End Candidates.

(** * Facts *)

(** Limits under which a chunk of the largest class always fits the
    allocation cap and the work budget of its own materialization; the
    defaults qualify. *)
Record candidate_limits (limits : Limits) : Prop := {
  cdl_codec : codec_limits limits;
  cdl_alloc : max_chunk_size limits <= max_alloc_bytes limits;
  cdl_work : 3 * max_chunk_size limits + 2 <= max_decode_work limits;
  cdl_desc : 37 <= max_descriptor_bytes limits;
  cdl_inline : 5 + max_inline_bytes limits <= max_descriptor_bytes limits
}.

Lemma candidate_limits_default : candidate_limits Limits_default.
Proof. split; [apply codec_limits_default | cbn; lia..]. Qed.

(** The interpreter as the arms of a top-level run see it. *)
Definition nested_interpreter `{DecoderContext} (limits : Limits) :=
  materialize_loop limits (Z.to_nat (max_reference_depth limits) + 1).

(** One level of the interpreter, entered through [materialize_to_vec]. *)
Lemma materialize_to_vec_arm `{DecoderContext} limits desc x b :
  candidate_limits limits -> 0 <= Representation_len desc <= max_chunk_size limits ->
  (forall rec, rec = nested_interpreter limits ->
    materialize_family limits rec desc 0 (max_decode_work limits - (Representation_len desc / 8 + 1))
      (vec 0 (Representation_len desc)) = Ok (x, b)) ->
  materialize_to_vec limits desc = Ok x.
Proof.
  intros [Hl Ha Hw _ _] Hn Hf. unfold materialize_to_vec. cbv zeta. pass_if. unfold materialize.
  destruct (cl_wf _ Hl) as [_ _ [Hd _] _ _ _ _ _ _ _].
  replace (Z.to_nat (max_reference_depth limits - 0) + 2)%nat
    with (S (Z.to_nat (max_reference_depth limits) + 1)) by lia.
  cbn [materialize_loop].
  rewrite zlen_vec, Z.eqb_refl by lia. cbn [negb]. do 2 pass_if.
  unfold spend. assert (Representation_len desc / 8 <= Representation_len desc) by (apply Z.div_le_upper_bound; lia).
  pass_if. cbn [rbind]. specialize (Hf _ eq_refl). unfold nested_interpreter in Hf.
  by rewrite Hf.
Qed.

Lemma existsb_all (v : Z) l :
  existsb (fun b => negb (b =? v)) l = false -> l = vec v (zlen l).
Proof.
  unfold vec. rewrite to_nat_zlen. induction l as [|b l IH]; cbn; intros E; [done|].
  apply orb_false_iff in E as [E E']. bools. subst b. by rewrite <-IH.
Qed.

Lemma existsb_all_inv (v : Z) n : existsb (fun b => negb (b =? v)) (vec v n) = false.
Proof. unfold vec. induction (Z.to_nat n) as [|m IH]; cbn; [done|]. by rewrite Z.eqb_refl. Qed.

Section Gate.
Context `{ctx : DecoderContext} `{hash : ContentHash} (limits : Limits).

Lemma validate_candidate_ok c target :
  validate_candidate c target limits = Ok tt <->
  content_id c = ChunkId_of target /\ materialize_to_vec limits (representation c) = Ok target.
Proof.
  unfold validate_candidate. case_bool_decide as Hid; [by split; [|intros [? _]]|].
  destruct (materialize_to_vec limits (representation c)) as [out|e]; cbn.
  - case_bool_decide as Ho; rewrite ?orb_true_r.
    + split; [done|]. intros [_ E]. by simplify_eq.
    + subst. rewrite Z.eqb_refl. done.
  - split; [done | by intros []].
Qed.

(** The candidates a family proposes: each is a valid descriptor that
    passes the gate. *)
Definition accepted (input : bytes) (c : Candidate) : Prop :=
  Representation_validate limits (representation c) = Ok tt /\
  validate_candidate c input limits = Ok tt.
End Gate.

Lemma estimate_ok {E} rep split m :
  0 <= Representation_len rep < 2 ^ 60 ->
  exists c, estimate (E := E) rep split m = Ok c.
Proof.
  intros Hn. unfold estimate, estimated_read_cycles, estimated_write_cycles, mul64, add64, checked_mul,
    checked_add. cbv zeta.
  assert (0 <= Representation_len rep / 8 < 2 ^ 60).
  { split; [apply Z.div_pos; lia | apply Z.div_lt_upper_bound; lia]. }
  destruct rep; cbn [Representation_len] in *; repeat (pass_guard; cbn [rbind ok_or]); by eexists.
Qed.

(** [propose] steps through an encoder's tail: the cost of a candidate of
    admissible length never panics. *)
Lemma estimate_wp {E} rep split m (P : CostBreakdown -> Prop) :
  0 <= Representation_len rep < 2 ^ 60 -> (forall c, P c) -> wp (E := E) (estimate rep split m) P.
Proof. intros Hn HP. destruct (estimate_ok (E := E) rep split m Hn) as [c ->]. apply HP. Qed.

Lemma saturating_add_small w a b : a + b < 2 ^ w -> saturating_add w a b = a + b.
Proof. unfold saturating_add. lia. Qed.

(** The charged categories, and their sum without saturation. *)
Record wf_cost (c : CostBreakdown) : Prop := {
  wfc_descriptor : 0 <= descriptor_bytes c; wfc_model : 0 <= model_bytes c;
  wfc_payload : 0 <= object_payload_bytes c; wfc_residual : 0 <= residual_bytes c;
  wfc_seed : 0 <= seed_state_bytes c; wfc_reference : 0 <= reference_bytes c;
  wfc_rank : 0 <= configurational_bytes c; wfc_integrity : 0 <= integrity_bytes c
}.
Definition charged (c : CostBreakdown) : Z :=
  descriptor_bytes c + model_bytes c + object_payload_bytes c + residual_bytes c +
  seed_state_bytes c + reference_bytes c + configurational_bytes c + integrity_bytes c.

Lemma persisted_bytes_sum c : wf_cost c -> charged c < 2 ^ 64 -> persisted_bytes c = charged c.
Proof. intros [] H. unfold persisted_bytes, charged, saturating_add in *. lia. Qed.

Definition is_data (o : ObjectRecord) : bool := match o_kind o with Data => true | Model => false end.
(** The payload bytes of the data objects. *)
Fixpoint data_bytes (objs : list ObjectRecord) : Z :=
  match objs with
  | [] => 0
  | o :: objs' => (if is_data o then zlen (o_payload o) else 0) + data_bytes objs'
  end.

Lemma data_bytes_nonneg objs : 0 <= data_bytes objs.
Proof.
  induction objs as [|o objs IH]; cbn; [done|]. pose proof (zlen_nonneg (o_payload o)).
  destruct (is_data o); lia.
Qed.

Definition payload_charge (o : ObjectRecord) : Z := if is_data o then zlen (o_payload o) else 0.

Lemma account_object_charged c o :
  wf_cost c -> charged c + payload_charge o < 2 ^ 64 ->
  wf_cost (account_object c o) /\ charged (account_object c o) = charged c + payload_charge o.
Proof.
  intros [] H. pose proof (zlen_nonneg (o_payload o)).
  unfold charged, account_object, payload_charge, is_data, saturating_add in *.
  destruct (o_kind o); cbn; (split; [split; cbn; lia | lia]).
Qed.

Lemma account_objects_charged objs c :
  wf_cost c -> charged c + data_bytes objs < 2 ^ 64 ->
  wf_cost (account_objects c objs) /\ charged (account_objects c objs) = charged c + data_bytes objs.
Proof.
  unfold account_objects. revert c. induction objs as [|o objs IH]; intros c Hw Hc; cbn in *.
  { split; [done | lia]. }
  fold (payload_charge o) in *. pose proof (data_bytes_nonneg objs).
  destruct (account_object_charged c o Hw) as [Hw' E]; [lia|].
  destruct (IH _ Hw') as [Hw'' E']; [lia|]. split; [done | lia].
Qed.

Lemma min_by_key_spec key l best pre mid :
  Forall (fun x => key best < key x) pre -> Forall (fun x => key best <= key x) mid ->
  exists a b, pre ++ best :: mid ++ l = a ++ min_by_key key best l :: b /\
    Forall (fun x => key (min_by_key key best l) < key x) a /\
    Forall (fun x => key (min_by_key key best l) <= key x) b.
Proof.
  revert best pre mid. induction l as [|c l IH]; intros best pre mid Hp Hm; cbn [min_by_key].
  { exists pre, mid. by rewrite app_nil_r. }
  destruct (Z.ltb_spec (key c) (key best)).
  - destruct (IH c (pre ++ best :: mid) []) as (a & b & E & Ha & Hb); [|constructor|].
    + apply Forall_app. split; [|constructor; [done|]]; eapply Forall_impl; eauto; cbn; lia.
    + exists a, b. rewrite <-E. split; [|done]. by rewrite <-!app_assoc.
  - destruct (IH best pre (mid ++ [c])) as (a & b & E & Ha & Hb); [done | |].
    + apply Forall_app. split; [done | by repeat constructor].
    + exists a, b. rewrite <-E. split; [|done]. by rewrite <-!app_assoc.
Qed.

(** * Properties *)

(** Honest accounting: the cost of a descriptor charges every persisted
    byte once.  Whenever the split categories fit the descriptor and the
    total fits [u64], [estimate] does not overflow and the persisted bytes
    of the accounted candidate are its encoded size, its model bytes, its
    data payloads and the four checksum bytes. *)
Theorem persisted_accounts_every_byte rep split m objs :
  0 <= Representation_len rep < 2 ^ 60 ->
  0 <= residual_ split -> 0 <= reference_ split -> 0 <= configurational_ split ->
  0 <= seed_state_ split -> 0 <= m ->
  residual_ split + reference_ split + configurational_ split + seed_state_ split
    <= Representation_encoded_size rep ->
  Representation_encoded_size rep + m + data_bytes objs + 4 < 2 ^ 64 ->
  exists c, estimate (E := CandidateError) rep split m = Ok c /\
    persisted_bytes (account_objects c objs) =
    Representation_encoded_size rep + m + data_bytes objs + 4.
Proof.
  intros Hn Hr Hf Hc Hs Hm Hle Hlt.
  destruct (estimate_ok (E := CandidateError) rep split m Hn) as [c Ec]. exists c. split; [done|].
  unfold estimate in Ec. cbv zeta in Ec. inv_ok Ec. unfold saturating_sub.
  match goal with |- persisted_bytes (account_objects ?c objs) = _ =>
    assert (Hw : wf_cost c) by (split; cbn; lia);
    assert (E : charged c = Representation_encoded_size rep + m + 4) by (unfold charged; cbn; lia);
    destruct (account_objects_charged objs c Hw) as [Hw' E']; [lia|]
  end.
  rewrite persisted_bytes_sum by (done || lia). lia.
Qed.

Lemma persisted_accounts_every_byte_witness :
  exists c, estimate (E := CandidateError) (Raw (sample_id 1) 4) raw_split 0 = Ok c /\
    persisted_bytes (account_objects c [{| o_id := sample_id 1; o_kind := Data; o_payload := [1; 2; 3; 4] |}]) = 45.
Proof.
  apply (persisted_accounts_every_byte (Raw (sample_id 1) 4) raw_split 0
    [{| o_id := sample_id 1; o_kind := Data; o_payload := [1; 2; 3; 4] |}]);
    by vm_compute.
Defined.

(** Selection: [pick_cheapest] returns the first of the candidates of
    least objective [J], and only an empty list has none. *)
Theorem pick_cheapest_first_minimum candidates policy :
  match pick_cheapest candidates policy with
  | None => candidates = []
  | Some c => exists a b, candidates = a ++ c :: b /\
      Forall (fun x => Candidate_total c policy < Candidate_total x policy) a /\
      Forall (fun x => Candidate_total c policy <= Candidate_total x policy) b
  end.
Proof.
  destruct candidates as [|c l]; [done|]. cbn [pick_cheapest].
  by apply (min_by_key_spec (fun c => Candidate_total c policy) l c [] []).
Qed.

(** C37. The candidate gate: [validate_candidate] accepts a candidate exactly
    when its content id is the hash of the target and its descriptor
    materializes to the target, and then the descriptor denotes the target
    bytes. *)
Theorem gate_exact `{ctx : DecoderContext} `{hash : ContentHash} limits c target :
  ContextLaws limits ctx -> wf_repr (representation c) ->
  (validate_candidate c target limits = Ok tt <->
   content_id c = ChunkId_of target /\ materialize_to_vec limits (representation c) = Ok target) /\
  (validate_candidate c target limits = Ok tt -> Denotes limits (representation c) target).
Proof.
  intros Hlaws Hwf. split; [apply validate_candidate_ok|]. intros H.
  apply validate_candidate_ok in H as [_ H]. unfold materialize_to_vec in H. cbv zeta in H. inv_ok H.
  by eapply materialize_loop_denotes.
Qed.

(** A resolver hash for the witnesses: the first 32 bytes, padded. *)
Definition sample_hash : ContentHash := {| ChunkId_of b := take 32 (b ++ replicate 32 0) |}.

Definition sample_candidate : Candidate :=
  {| representation := ExactRef (sample_id 7) 1 2; objects := [];
     cost := {| logical_bytes := 2; descriptor_bytes := 9; model_bytes := 0; object_payload_bytes := 0;
       residual_bytes := 0; seed_state_bytes := 0; reference_bytes := 32; configurational_bytes := 0;
       integrity_bytes := 4; gc_overhead_bytes := 0; read_cycles := 2; write_cycles := 32;
       dependent_reads_ := 1; depth_ := 1 |};
     content_id := take 32 ([20; 30] ++ replicate 32 0) |}.

Lemma gate_exact_witness :
  @validate_candidate sample_hash sample_ctx sample_candidate [20; 30] Limits_default = Ok tt /\
  @Denotes sample_ctx Limits_default (ExactRef (sample_id 7) 1 2) [20; 30].
Proof.
  split; [by vm_compute|].
  apply (proj2 (@gate_exact sample_ctx sample_hash Limits_default sample_candidate [20; 30]
    sample_ctx_laws (proj1 sample_ref_valid))). by vm_compute.
Defined.

Section Families.
Context `{ctx : DecoderContext} `{hash : ContentHash} (limits : Limits).
Context (Hl : candidate_limits limits).

Lemma chunk_bound : max_chunk_size limits < 2 ^ 32.
Proof. apply Hl. Qed.

(** A plain candidate is accepted when its arm yields the input. *)
Lemma accepted_arm input rep objs c b :
  zlen input = Representation_len rep -> zlen input <= max_chunk_size limits ->
  Representation_validate limits rep = Ok tt ->
  (forall rec, rec = nested_interpreter limits -> materialize_family limits rec rep 0
    (max_decode_work limits - (Representation_len rep / 8 + 1)) (vec 0 (Representation_len rep))
    = Ok (input, b)) ->
  accepted limits input
    {| representation := rep; objects := objs; cost := c; content_id := ChunkId_of input |}.
Proof.
  intros Hlen Hc Hv Hf. split; [done|]. apply validate_candidate_ok. split; [done|]. cbn.
  pose proof (zlen_nonneg input). eapply materialize_to_vec_arm; [done | lia | exact Hf].
Qed.

Lemma copy_all_ok output src : zlen src = zlen output -> copy_all output src = Ok src.
Proof.
  intros E. pose proof (zlen_nonneg output). unfold copy_all, copy_from_slice.
  rewrite Z.sub_0_r, E, Z.eqb_refl. repeat (pass_guard; cbn [andb]). by rewrite splice_all.
Qed.

Lemma fill_ok v n : fill v (vec 0 n) = vec v n.
Proof. unfold fill, vec. induction (Z.to_nat n) as [|m IH]; cbn; [done|]. by rewrite IH. Qed.

(** [opt_accepted none input r]: the family does not panic, proposes nothing
    exactly when [none] holds, and what it proposes is accepted. *)
Definition opt_accepted {E} (none : Prop) (input : bytes)
  (r : result (trap E) (option Candidate)) : Prop :=
  exists o, r = Ok o /\ (o = None <-> none) /\ forall c, o = Some c -> accepted limits input c.

Lemma opt_accepted_none {E} (none : Prop) input : none -> opt_accepted (E := E) none input (Ok None).
Proof. intros H. exists None. by split_and!. Qed.

Lemma opt_accepted_some {E} (none : Prop) input rep split m :
  ~ none -> 0 <= Representation_len rep < 2 ^ 60 ->
  (forall c, accepted limits input
    {| representation := rep; objects := []; cost := c; content_id := ChunkId_of input |}) ->
  opt_accepted (E := E) none input
    (let! c := estimate rep split m in
     Ok (Some {| representation := rep; objects := []; cost := c; content_id := ChunkId_of input |})).
Proof.
  intros Hn Hlen Ha. destruct (estimate_ok (E := E) rep split m Hlen) as [c ->]. cbn [rbind].
  eexists. split; [done|]. split; [done|]. intros c' E'. by simplify_eq.
Qed.

(** The bytes of a constant chunk. *)
Definition constant (v : Z) (input : bytes) : Prop := input = vec v (zlen input).

(** The terminal families: for a chunk within the size limit, ZERO,
    FILL and INLINE never panic; they propose a candidate exactly for the
    all-zero, the constant nonempty, and the short nonempty chunks; and
    what they propose is valid and passes the candidate gate. *)
Theorem terminal_families_accepted {E} input :
  zlen input <= max_chunk_size limits ->
  opt_accepted (E := E) (~ constant 0 input) input (zero_candidate input (ChunkId_of input) limits) /\
  opt_accepted (E := E) (~ exists v, input <> [] /\ constant v input) input
    (fill_candidate input (ChunkId_of input)) /\
  opt_accepted (E := E) (input = [] \/ max_inline_bytes limits < zlen input) input
    (inline_candidate input (ChunkId_of input) limits).
Proof.
  intros Hn. pose proof chunk_bound. pose proof (zlen_nonneg input). destruct Hl as [_ _ _ Hd Hi].
  split_and!.
  - unfold zero_candidate. pass_guard.
    destruct (existsb _ input) eqn:Ex.
    + apply opt_accepted_none. intros Hc. rewrite Hc, existsb_all_inv in Ex. done.
    + apply existsb_all in Ex. apply opt_accepted_some; [tauto | cbn; lia | intros c].
      eapply accepted_arm; [done | done | | intros; cbn; by rewrite fill_ok, <-Ex].
      unfold Representation_validate, check_len, Representation_encoded_size. by repeat pass_if.
  - unfold fill_candidate. destruct input as [|v input']; [by apply opt_accepted_none; intros (? & ? & _)|].
    set (input := v :: input') in *. destruct (existsb _ input) eqn:Ex.
    + apply opt_accepted_none. intros (v' & _ & Hc). rewrite Hc in Ex.
      assert (v = v') as <-; [|by rewrite existsb_all_inv in Ex].
      unfold constant, vec in Hc. rewrite to_nat_zlen in Hc. by injection Hc.
    + apply existsb_all in Ex. apply opt_accepted_some; [|cbn [Representation_len]; lia | intros c].
      { intros Hno. apply Hno. by exists v. }
      eapply accepted_arm; [done | done | | intros; cbn [materialize_family Representation_len]; by rewrite fill_ok, <-Ex].
      unfold Representation_validate, check_len, Representation_encoded_size. by repeat pass_if.
  - unfold inline_candidate. destruct (Z.ltb_spec (max_inline_bytes limits) (zlen input)).
    { apply opt_accepted_none. by right. }
    destruct (Z.eqb_spec (zlen input) 0) as [E0|E0]; cbn [orb].
    { apply opt_accepted_none. left. by destruct input. }
    apply opt_accepted_some; [intros [->|]; [done | lia] | cbn [Representation_len]; lia | intros c].
    eapply accepted_arm; [done | done | |].
    + unfold Representation_validate, validate_inline, Representation_encoded_size. by repeat pass_if.
    + intros rec _. cbn [materialize_family Representation_len]. unfold materialize_inline.
      rewrite zlen_vec, Z.eqb_refl by lia. cbn [negb]. by rewrite copy_all_ok by (rewrite zlen_vec; lia).
Qed.

(** RAW is total: for every chunk within the size limit it proposes
    exactly one candidate, whose only new object is the chunk itself, which
    persists 41 bytes more than the chunk, and which passes the gate over
    any resolver that returns that object. *)
Theorem raw_candidate_total {E} input :
  zlen input <= max_chunk_size limits ->
  exists c, raw_candidate (E := E) input (ChunkId_of input) limits = Ok (Some c) /\
    map o_payload (objects c) = [input] /\ map o_id (objects c) = [ChunkId_of input] /\
    persisted_bytes (cost c) = zlen input + 41 /\
    (fetch_object (ChunkId_of input) = Ok input -> validate_candidate c input limits = Ok tt).
Proof.
  intros Hn. pose proof chunk_bound. pose proof (zlen_nonneg input).
  unfold raw_candidate. pass_guard. cbn. eexists. split; [done|]. split_and!; try done.
  - cbn. unfold persisted_bytes, saturating_sub, saturating_add, Representation_encoded_size. cbn. lia.
  - intros Hf. apply validate_candidate_ok. split; [done|]. cbn [representation].
    eapply materialize_to_vec_arm; [done | cbn; lia | intros rec _].
    cbn [materialize_family Representation_len]. unfold materialize_raw. rewrite Hf. cbn [safe map_err rbind].
    rewrite Z.eqb_refl. cbn [negb]. by rewrite copy_all_ok by (rewrite zlen_vec; lia).
Qed.
End Families.

Lemma terminal_families_accepted_witness :
  opt_accepted (ctx := sample_ctx) (hash := sample_hash) (E := CandidateError) Limits_default
    (~ constant 0 [0; 0; 0]) [0; 0; 0]
    (zero_candidate [0; 0; 0] (@ChunkId_of sample_hash [0; 0; 0]) Limits_default).
Proof.
  apply (@terminal_families_accepted sample_ctx sample_hash Limits_default candidate_limits_default
    CandidateError [0; 0; 0]). by vm_compute.
Defined.

Lemma raw_candidate_total_witness :
  exists c, raw_candidate (H := sample_hash) (E := CandidateError) [5; 6]
      (@ChunkId_of sample_hash [5; 6]) Limits_default = Ok (Some c) /\
    map o_payload (objects c) = [[5; 6]] /\ persisted_bytes (cost c) = 43.
Proof.
  destruct (@raw_candidate_total sample_ctx sample_hash Limits_default candidate_limits_default
    CandidateError [5; 6]) as (c & Ec & Hp & _ & Hs & _); [by vm_compute|].
  by exists c.
Defined.
