(* ===== verification/Encoders.v ===== *)
(** Components [entropy/sparse.rs], [entropy/palette.rs],
    [entropy/periodic.rs], [entropy/permutation.rs] and
    [entropy/residual.rs]: the candidate families that need no coder.  Each
    scans the chunk, builds a descriptor, validates it and prices it.  The
    encoders return a list of candidates and no error, so their only failure
    would be a panic; [EncodersSpec] shows there is none and that every
    candidate reproduces the chunk. *)
From S2P Require Import Prelude Binomial Codec Rank Repr Descriptor Context Streams Materialize MaterializeSafe LZ MaterializeSpec Candidate.

Definition rank_split (residual : Z) : ByteSplit :=
  {| residual_ := residual; reference_ := 0; configurational_ := 16; seed_state_ := 0 |}.

Section Encoders.
Context {E : Type} (ctx : CandidateContext).

(** The common tail: a descriptor that does not validate is not proposed. *)
Definition propose (rep : Representation) (split : ByteSplit) : result (trap E) (list Candidate) :=
  match Representation_validate (cc_limits ctx) rep with
  | Err _ => Ok []
  | Ok _ =>
      let! c := estimate rep split 0 in
      Ok [{| representation := rep; objects := []; cost := c; content_id := cc_content_id ctx |}]
  end.

(** ** SPARSE *)

(** The scan over [input.iter().enumerate()]: marked positions and their
    bytes; [i] is the index of the head. *)
Fixpoint sparse_scan (i : Z) (input : bytes) : list Z * bytes :=
  match input with
  | [] => ([], [])
  | b :: input' =>
      let '(positions, literals) := sparse_scan (i + 1) input' in
      if negb (b =? 0) then (wrap 32 i :: positions, b :: literals) else (positions, literals)
  end.

Definition SparseEncoder_encode (input : bytes) : result (trap E) (list Candidate) :=
  let limits := cc_limits ctx in
  let n := zlen input in
  if (n =? 0) || (max_chunk_size limits <? n) then Ok [] else
  let '(positions, literals) := sparse_scan 0 input in
  let k := zlen positions in
  if k =? 0 then Ok [] else
  if n / 4 <? k then Ok [] else
  if max_fanout limits <? k then Ok [] else
  match rank_comb_subset positions n with
  | Err _ => Ok []
  | Ok rank => propose (Sparse (wrap 32 k) rank literals n) (rank_split k)
  end.

(** ** PALETTE *)

(** [hist[b as usize] += 1] for every byte, on [u32] counters. *)
Fixpoint histogram (input : bytes) (hist : list Z) : result (trap E) (list Z) :=
  match input with
  | [] => Ok hist
  | b :: input' =>
      let! c := get_idx hist b in
      let! c := ok_or (checked_add 32 c 1) Panic in
      let! hist := set_idx hist b c in
      histogram input' hist
  end.

(** The symbols of nonzero count, ascending; [s] is the symbol of the head. *)
Fixpoint used_symbols (s : Z) (hist : list Z) : bytes :=
  match hist with
  | [] => []
  | c :: hist' => if 0 <? c then s :: used_symbols (s + 1) hist' else used_symbols (s + 1) hist'
  end.

(** [palette.iter().position(|&s| s == b)]. *)
Fixpoint position (b : Z) (i : Z) (palette : bytes) : option Z :=
  match palette with
  | [] => None
  | s :: palette' => if s =? b then Some i else position b (i + 1) palette'
  end.

Fixpoint map_ok {A B} (f : A -> result (trap E) B) (l : list A) : result (trap E) (list B) :=
  match l with
  | [] => Ok []
  | a :: l' => let! b := f a in let! bs := map_ok f l' in Ok (b :: bs)
  end.

Definition PaletteEncoder_encode (input : bytes) : result (trap E) (list Candidate) :=
  let limits := cc_limits ctx in
  let n := zlen input in
  if (n =? 0) || (max_chunk_size limits <? n) then Ok [] else
  let! hist := histogram input (vec 0 256) in
  let m := zlen (List.filter (fun c => 0 <? c) hist) in
  if (m <? 2) || (max_palette limits <? m) then Ok [] else
  let palette := used_symbols 0 hist in
  let! counts := map_ok (fun s => get_idx hist s) palette in
  let! seq := map_ok (fun b => let! idx := ok_or (position b 0 palette) Panic in Ok (wrap 8 idx)) input in
  match rank_multinomial seq n counts with
  | Err _ => Ok []
  | Ok rank => propose (Palette palette counts rank n) (rank_split 0)
  end.

(** ** PERIODIC *)

Definition PERIODIC_WORK_CAP : Z := 8 * 1024 * 1024.

(** The search [for p in 2..=max_p]; [todo] counts the periods left. *)
Fixpoint periodic_search (todo : nat) (p work : Z) (input : bytes)
  : result (trap E) (list Candidate) :=
  match todo with
  | O => Ok []
  | S todo' =>
      let n := zlen input in
      let! at_p := get_idx input p in
      let! at_0 := get_idx input 0 in
      if negb (at_p =? at_0) then
        let work := work + 1 in
        if PERIODIC_WORK_CAP <? work then Ok [] else periodic_search todo' (p + 1) work input
      else
        let work := work + (n - p) in
        if PERIODIC_WORK_CAP <? work then Ok [] else
        let! a := get_slice input p n in
        let! b := get_slice input 0 (n - p) in
        if bool_decide (a = b) then
          let period := wrap 32 p in
          let count := wrap 32 (n / p) in
          let! tail := get_slice input (p * (n / p)) n in
          let! pattern := get_slice input 0 p in
          propose (Periodic period pattern count tail n)
            {| residual_ := zlen tail; reference_ := 0; configurational_ := 0; seed_state_ := 0 |}
        else periodic_search todo' (p + 1) work input
  end.

Definition PeriodicEncoder_encode (input : bytes) : result (trap E) (list Candidate) :=
  let n := zlen input in
  if n <? 4 then Ok [] else
  let max_p := Z.min (max_period (cc_limits ctx)) (n / 2) in
  if max_p <? 2 then Ok [] else
  periodic_search (Z.to_nat (max_p - 1)) 2 0 input.

(** ** PERMUTATION *)

(** The [seen] scan. *)
Fixpoint all_distinct (seen : list bool) (input : bytes) : result (trap E) bool :=
  match input with
  | [] => Ok true
  | b :: input' =>
      let! s := get_idx seen b in
      if s then Ok false else
      let! seen := set_idx seen b true in
      all_distinct seen input'
  end.

(** [sort_unstable] on bytes. *)
Fixpoint insert_sorted (b : Z) (l : bytes) : bytes :=
  match l with
  | [] => [b]
  | x :: l' => if b <=? x then b :: l else x :: insert_sorted b l'
  end.
Fixpoint sort_bytes (l : bytes) : bytes :=
  match l with [] => [] | b :: l' => insert_sorted b (sort_bytes l') end.

(** [binary_search] finds the one index of a byte in a slice of distinct
    sorted bytes. *)
Definition PermutationEncoder_encode (input : bytes) : result (trap E) (list Candidate) :=
  let n := zlen input in
  if (n =? 0) || (34 <? n) then Ok [] else
  let! distinct := all_distinct (vec false 256) input in
  if negb distinct then Ok [] else
  let sorted := sort_bytes input in
  let! seq := map_ok (fun b => let! idx := ok_or (position b 0 sorted) Panic in Ok (wrap 8 idx)) input in
  match rank_permutation seq with
  | Err _ => Ok []
  | Ok rank => propose (Permutation rank sorted n) (rank_split 0)
  end.

(** ** BASE_RESIDUAL *)

Definition residual_data_bytes (r : Residual) : Z :=
  match r with
  | XorSparse _ edits => 5 * zlen edits
  | RangeReplace _ changes literals => 8 * zlen changes + zlen literals
  | RansCoded _ _ _ _ _ _ => 0
  | BaseSequence _ _ _ _ _ _ _ _ _ _ => 0
  end.

(** Pass 1: the differing positions; [i] is the index of the heads. *)
Fixpoint diff_edits (i : Z) (target base : bytes) : list Edit :=
  match target, base with
  | t :: target', b :: base' =>
      let rest := diff_edits (i + 1) target' base' in
      if negb (t =? b) then {| pos := wrap 32 i; val := Z.lxor t b |} :: rest else rest
  | _, _ => []
  end.

(** The inner [while]: the literals of the run at the head, and what
    follows it. *)
Fixpoint diff_run (target base : bytes) : bytes * bytes * bytes :=
  match target, base with
  | t :: target', b :: base' =>
      if negb (t =? b) then
        let '(run, target'', base'') := diff_run target' base' in (t :: run, target'', base'')
      else ([], target, base)
  | _, _ => ([], target, base)
  end.

(** Pass 2, [while i < n]: every turn advances [i], so the length of the
    target is enough fuel. *)
Fixpoint diff_ranges (fuel : nat) (i : Z) (target base : bytes) : list RangeChange * bytes :=
  match fuel, target, base with
  | S fuel', t :: target', b :: base' =>
      if negb (t =? b) then
        let '(run, target'', base'') := diff_run target base in
        let e := i + zlen run in
        let '(changes, literals) := diff_ranges fuel' e target'' base'' in
        ({| start := wrap 32 i; end_ := wrap 32 e |} :: changes, run ++ literals)
      else diff_ranges fuel' (i + 1) target' base'
  | _, _, _ => ([], [])
  end.

(** [sort_by_key] on at most two elements: stable. *)
Fixpoint insert_by_size (r : Residual) (l : list Residual) : list Residual :=
  match l with
  | [] => [r]
  | x :: l' =>
      if Residual_encoded_size r <=? Residual_encoded_size x then r :: l else x :: insert_by_size r l'
  end.
Fixpoint sort_by_size (l : list Residual) : list Residual :=
  match l with [] => [] | r :: l' => insert_by_size r (sort_by_size l') end.

Definition derive_residuals (target base : bytes) (max_fanout : Z) : list Residual :=
  if negb (zlen target =? zlen base) then [] else
  let n := zlen target in
  if n =? 0 then [] else
  let edits := diff_edits 0 target base in
  let out := if zlen edits <=? max_fanout then [XorSparse n edits] else [] in
  let '(changes, literals) := diff_ranges (length target) 0 target base in
  let out :=
    if (zlen changes <=? max_fanout) && negb (zlen changes =? 0)
    then out ++ [RangeReplace n changes literals] else out in
  sort_by_size out.

Definition is_empty_xor (r : Residual) : bool :=
  match r with XorSparse _ edits => zlen edits =? 0 | _ => false end.

(** [cost.depth.saturating_add(base.depth)]. *)
Definition add_depth (c : CostBreakdown) (d : Z) : CostBreakdown :=
  {| logical_bytes := logical_bytes c; descriptor_bytes := descriptor_bytes c;
     model_bytes := model_bytes c; object_payload_bytes := object_payload_bytes c;
     residual_bytes := residual_bytes c; seed_state_bytes := seed_state_bytes c;
     reference_bytes := reference_bytes c; configurational_bytes := configurational_bytes c;
     integrity_bytes := integrity_bytes c; gc_overhead_bytes := gc_overhead_bytes c;
     read_cycles := read_cycles c; write_cycles := write_cycles c;
     dependent_reads_ := dependent_reads_ c; depth_ := saturating_add 8 (depth_ c) d |}.

Fixpoint encode_residuals (input : bytes) (base : BaseChunk) (rs : list Residual)
  : result (trap E) (list Candidate) :=
  match rs with
  | [] => Ok []
  | r :: rs' =>
      if is_empty_xor r then encode_residuals input base rs' else
      let rep := BaseResidual (bc_id base) (zlen (bc_bytes base)) r (zlen input) in
      match Representation_validate (cc_limits ctx) rep with
      | Err _ => encode_residuals input base rs'
      | Ok _ =>
          let split := {| residual_ := residual_data_bytes r; reference_ := 32;
                          configurational_ := 0; seed_state_ := 0 |} in
          let! c := estimate rep split 0 in
          let! out := encode_residuals input base rs' in
          Ok ({| representation := rep; objects := []; cost := add_depth c (bc_depth base);
                 content_id := cc_content_id ctx |} :: out)
      end
  end.

Fixpoint encode_bases (input : bytes) (bases : list BaseChunk) : result (trap E) (list Candidate) :=
  match bases with
  | [] => Ok []
  | base :: bases' =>
      if max_reference_depth (cc_limits ctx) <=? bc_depth base then encode_bases input bases' else
      if negb (zlen (bc_bytes base) =? zlen input) then encode_bases input bases' else
      let! out := encode_residuals input base
        (derive_residuals input (bc_bytes base) (max_fanout (cc_limits ctx))) in
      let! rest := encode_bases input bases' in
      Ok (out ++ rest)
  end.

Definition BaseResidualEncoder_encode (input : bytes) : result (trap E) (list Candidate) :=
  encode_bases input (cc_bases ctx).

Definition diff_summary_step (acc : Z * Z * bool) (p : Z * Z) : Z * Z * bool :=
  let '(positions, runs, in_run) := acc in
  if negb (fst p =? snd p) then
    (positions + 1, if negb in_run then runs + 1 else runs, true)
  else (positions, runs, false).

Definition diff_summary (target base : bytes) : Z * Z :=
  if negb (zlen target =? zlen base) then (2 ^ 64 - 1, 2 ^ 64 - 1) else
  let '(positions, runs, _) := fold_left diff_summary_step (combine target base) (0, 0, false) in
  (positions, runs).
End Encoders.
