(* ===== verification/EncodersSpec.v ===== *)
(** The self-contained encoders are exact ([entropy/*.rs]): none panics, and
    every candidate SPARSE, PALETTE, PERIODIC, PERMUTATION or BASE_RESIDUAL
    proposes for a chunk is a valid descriptor that materializes to exactly
    that chunk, so the gate of [core/candidate.rs] never rejects one. *)
From S2P Require Import Prelude Binomial Codec Rank Repr Descriptor Context Streams Materialize MaterializeSafe LZ MaterializeSpec Candidate Encoders.

(** * Successful steps of the interpreter *)

Lemma set_idx_ok {E A} (l : list A) i v : 0 <= i < zlen l -> set_idx (E := E) l i v = Ok (<[Z.to_nat i := v]> l).
Proof. intros H. unfold set_idx. by pass_guard. Qed.

Lemma get_idx_ok {E A} (l : list A) i v : l !! Z.to_nat i = Some v -> get_idx (E := E) l i = Ok v.
Proof. intros H. unfold get_idx. by rewrite H. Qed.

Lemma get_idx_total {E} (l : bytes) i : 0 <= i < zlen l -> get_idx (E := E) l i = Ok (l !!! Z.to_nat i).
Proof.
  intros H. apply get_idx_ok. apply list_lookup_lookup_total_lt. unfold zlen in H. lia.
Qed.

Lemma get_slice_ok {E A} (l : list A) s e :
  0 <= s <= e -> e <= zlen l -> get_slice (E := E) l s e = Ok (slice (Z.to_nat s) (Z.to_nat (e - s)) l).
Proof. intros H H'. unfold get_slice. by repeat (pass_guard; cbn [andb]). Qed.

Lemma copy_from_slice_ok {E A} (l src : list A) s e :
  0 <= s -> e <= zlen l -> zlen src = e - s ->
  copy_from_slice (E := E) l s e src = Ok (splice (Z.to_nat s) src l).
Proof. intros. pose proof (zlen_nonneg src). unfold copy_from_slice. by pass_guard. Qed.

Lemma spend_ok n budget : n <= budget -> spend n budget = Ok (budget - n).
Proof. intros. by apply spend_Ok. Qed.

Lemma scatter_ok ps i lits out :
  0 <= i -> i + zlen ps <= zlen lits -> Forall (fun p => 0 <= p < zlen out) ps ->
  scatter ps i lits out = Ok (place ps (drop (Z.to_nat i) lits) out).
Proof.
  revert i out. induction ps as [|p ps IH]; intros i out Hi Hl Hp; cbn [scatter]; [done|].
  rewrite zlen_cons in Hl. apply Forall_cons_1 in Hp as [Hp Hps]. pose proof (zlen_nonneg ps).
  destruct (lookup_lt_is_Some_2 lits (Z.to_nat i)) as [v Hv]; [unfold zlen in *; lia|].
  rewrite (get_idx_ok _ _ _ Hv). cbn [rbind]. rewrite set_idx_ok by done. cbn [rbind].
  rewrite IH by (rewrite ?zlen_insert; lia || by eauto).
  rewrite (drop_S _ _ _ Hv). cbn [place].
  by replace (Z.to_nat (i + 1)) with (S (Z.to_nat i)) by lia.
Qed.

Lemma substitute_ok ss i table out :
  0 <= i -> i + zlen ss <= zlen out -> Forall (fun s => 0 <= s < zlen table) ss ->
  substitute ss i table out = Ok (splice (Z.to_nat i) (lookup_symbols table ss) out).
Proof.
  revert i out. induction ss as [|s ss IH]; intros i out Hi Hl Hs; cbn [substitute].
  { by rewrite splice_nil. }
  rewrite zlen_cons in Hl. apply Forall_cons_1 in Hs as [Hs Hss]. pose proof (zlen_nonneg ss).
  rewrite get_idx_total by done. cbn [rbind]. rewrite set_idx_ok by lia. cbn [rbind].
  rewrite IH by (rewrite ?zlen_insert; lia || by eauto).
  replace (Z.to_nat (i + 1)) with (S (Z.to_nat i)) by lia.
  rewrite splice_cons by (unfold zlen in *; lia). done.
Qed.

(** * Symbol indices *)

Lemma position_spec b i pal idx :
  position b i pal = Some idx -> i <= idx < i + zlen pal /\ pal !! Z.to_nat (idx - i) = Some b.
Proof.
  revert i. induction pal as [|s pal IH]; intros i H; cbn [position] in H; [done|].
  rewrite zlen_cons. pose proof (zlen_nonneg pal). destruct (Z.eqb_spec s b) as [->|].
  - simplify_eq. rewrite Z.sub_diag. split; [lia | done].
  - apply IH in H as [Hr Hp]. split; [lia|].
    by replace (Z.to_nat (idx - i)) with (S (Z.to_nat (idx - (i + 1)))) by lia.
Qed.

Lemma position_total b i pal : In b pal -> exists idx, position b i pal = Some idx.
Proof.
  revert i. induction pal as [|s pal IH]; intros i H; cbn [position]; [done|].
  destruct (Z.eqb_spec s b) as [->|Hs]; [by eexists|]. destruct H as [->|H]; [done|]. by apply IH.
Qed.

(** Both alphabet encoders map a chunk to indices this way. *)
Lemma index_seq {E} input pal :
  zlen pal <= 256 -> Forall (fun b => In b pal) input ->
  exists sq, map_ok (E := E) (fun b => let! idx := ok_or (position b 0 pal) Panic in Ok (wrap 8 idx)) input
    = Ok sq /\ Forall (fun s => 0 <= s < zlen pal) sq /\ wf_bytes sq /\ lookup_symbols pal sq = input.
Proof.
  intros Hp H. induction H as [|b input Hb _ (sq & E' & Hs & Hw & Ht)]; cbn [map_ok].
  { exists []. split_and!; try done; constructor. }
  destruct (position_total b 0 pal Hb) as [idx Hi]. rewrite Hi. cbn [ok_or rbind]. rewrite E'. cbn [rbind].
  apply position_spec in Hi as [Hr Hi]. rewrite Z.sub_0_r in Hi. rewrite wrap_small by width.
  eexists. split; [done|]. split_and!; [constructor; [lia | done] | constructor; [width | done] |].
  unfold lookup_symbols in *. cbn [map]. by rewrite Ht, (list_lookup_total_correct _ _ _ Hi).
Qed.

Lemma lookup_symbols_length pal sq : zlen (lookup_symbols pal sq) = zlen sq.
Proof. unfold lookup_symbols. by rewrite zlen_map. Qed.

(** * Periods *)

Lemma periodic_prefix (l : bytes) (p k : nat) :
  drop p l = take (length l - p) l -> (k * p <= length l)%nat ->
  take (k * p) l = concat (replicate k (take p l)).
Proof.
  intros H. induction k as [|k IH]; intros Hk; [done|]. cbn [replicate concat Nat.mul].
  rewrite <-IH by lia. rewrite <-(take_drop p l) at 1. rewrite take_app_ge by (rewrite length_take; lia).
  rewrite length_take_le by lia. f_equal. rewrite H, take_take. f_equal. lia.
Qed.

Lemma zlen_repeat (k : nat) (l : bytes) : zlen (concat (replicate k l)) = Z.of_nat k * zlen l.
Proof.
  induction k as [|k IH]; cbn [replicate concat]; [done|]. rewrite zlen_app, IH. lia.
Qed.

Lemma periodic_loop_ok count period pattern written budget out :
  0 <= written -> 0 <= period -> zlen pattern = period ->
  written + Z.of_nat count * period <= zlen out -> Z.of_nat count * (period / 8 + 1) <= budget ->
  periodic_loop count period pattern written budget out =
  Ok (splice (Z.to_nat written) (concat (replicate count pattern)) out,
      written + Z.of_nat count * period, budget - Z.of_nat count * (period / 8 + 1)).
Proof.
  intros Hw Hp Hlen. revert written budget out Hw.
  induction count as [|count IH]; intros written budget out Hw Ho Hb; cbn [periodic_loop].
  { cbn [replicate concat]. rewrite splice_nil. do 2 f_equal; [f_equal|]; lia. }
  cbv zeta. assert (0 <= period / 8) by (apply Z.div_pos; lia). pass_if.
  rewrite copy_from_slice_ok by nia. cbn [rbind]. rewrite spend_ok by nia. cbn [rbind].
  rewrite IH; [|lia|rewrite zlen_splice by nia; nia|nia].
  assert (Hs : splice (Z.to_nat (written + period)) (concat (replicate count pattern))
      (splice (Z.to_nat written) pattern out) =
      splice (Z.to_nat written) (pattern ++ concat (replicate count pattern)) out).
  { replace (Z.to_nat (written + period)) with (Z.to_nat written + length pattern)%nat by (unfold zlen in *; lia).
    apply splice_splice. pose proof (zlen_repeat count pattern). unfold zlen in *. nia. }
  rewrite Hs. cbn [replicate concat]. do 2 f_equal; [f_equal|]; lia.
Qed.

(** * Proposals *)

Section Spec.
Context `{dctx : DecoderContext} `{hash : ContentHash} (cc : CandidateContext) {E : Type}.
Context (Hl : candidate_limits (cc_limits cc)).
Abbreviation limits := (cc_limits cc).

(** An encoder's run: no panic, and every candidate is accepted. *)
Definition proposes (input : bytes) (r : result (trap E) (list Candidate)) : Prop :=
  exists cs, r = Ok cs /\ Forall (accepted limits input) cs.

Lemma proposes_nil input : proposes input (Ok []).
Proof. exists []. by split. Qed.

Lemma proposes_arm input rep split :
  cc_content_id cc = ChunkId_of input -> zlen input = Representation_len rep ->
  (Representation_validate limits rep = Ok tt -> exists b, forall rec, rec = nested_interpreter limits ->
    materialize_family limits rec rep 0
      (max_decode_work limits - (Representation_len rep / 8 + 1)) (vec 0 (Representation_len rep))
    = Ok (input, b)) ->
  proposes input (propose cc rep split).
Proof.
  intros Hid Hlen Hf. unfold propose.
  destruct (Representation_validate limits rep) as [[]|e] eqn:Hv; [|apply proposes_nil].
  apply validate_len in Hv as Hn; [|apply Hl]. pose proof (chunk_bound _ Hl). pose proof (zlen_nonneg input).
  destruct (estimate_ok (E := E) rep split 0) as [c ->]; [lia|]. cbn [rbind].
  eexists. split; [done|]. constructor; [|done]. rewrite Hid. destruct (Hf eq_refl) as [b Hb].
  eapply accepted_arm; [done | done | lia | done | exact Hb].
Qed.

(** ** SPARSE *)

Lemma sparse_scan_spec input i ps lits :
  0 <= i -> i + zlen input <= 2 ^ 32 -> sparse_scan i input = (ps, lits) ->
  zlen ps = zlen lits /\ Forall (fun p => i <= p < i + zlen input) ps /\
  forall pre, zlen pre = i -> place ps lits (pre ++ vec 0 (zlen input)) = pre ++ input.
Proof.
  revert i ps lits. induction input as [|b input IH]; intros i ps lits Hi Hn H; cbn [sparse_scan] in H.
  { simplify_eq. by split_and!. }
  rewrite zlen_cons in *. pose proof (zlen_nonneg input).
  destruct (sparse_scan (i + 1) input) as [ps' lits'] eqn:E'.
  destruct (IH (i + 1) ps' lits') as (Hz & Hf & Hp); [lia | lia | done |].
  assert (Hv : vec 0 (1 + zlen input) = 0 :: vec 0 (zlen input)).
  { unfold vec. by replace (Z.to_nat (1 + zlen input)) with (S (Z.to_nat (zlen input))) by lia. }
  assert (Hcons : forall pre, zlen pre = i -> place ps' lits' (pre ++ b :: vec 0 (zlen input)) = pre ++ b :: input).
  { intros pre Hpre. specialize (Hp (pre ++ [b])). rewrite zlen_app, <-!app_assoc in Hp. apply Hp.
    rewrite zlen_cons, zlen_nil. lia. }
  assert (Hf' : Forall (fun p => i <= p < i + (1 + zlen input)) ps').
  { eapply Forall_impl; [|exact Hf]. cbn. lia. }
  destruct (Z.eqb_spec b 0) as [->|Hb]; cbn [negb] in H; simplify_eq.
  - split_and!; [done | done |]. intros pre Hpre. rewrite Hv. by apply Hcons.
  - rewrite wrap_small by width. rewrite !zlen_cons. split_and!; [lia | constructor; [lia | done] |].
    intros pre Hpre. cbn [place]. rewrite Hv.
    replace (Z.to_nat i) with (length pre + 0)%nat by (unfold zlen in Hpre; lia).
    rewrite insert_app_r. cbn. by apply Hcons.
Qed.

Lemma sparse_proposes input :
  cc_content_id cc = ChunkId_of input -> proposes input (SparseEncoder_encode (E := E) cc input).
Proof.
  intros Hid. unfold SparseEncoder_encode. cbv zeta. pose proof (chunk_bound _ Hl).
  pose proof (zlen_nonneg input).
  destruct (_ || _) eqn:Hn; [apply proposes_nil|]. bools.
  destruct (sparse_scan 0 input) as [ps lits] eqn:Es.
  destruct (sparse_scan_spec input 0 ps lits) as (Hz & Hf & Hp); [lia | lia | done |].
  repeat case_match; try apply proposes_nil. bools. pose proof (zlen_nonneg ps).
  assert (zlen input / 4 <= zlen input) by (apply Z.div_le_upper_bound; lia).
  rewrite wrap_small by width.
  apply proposes_arm; [done | done |]. intros Hv. eexists. intros rec _.
  cbn [materialize_family Representation_len]. validate_destruct Hv. unfold materialize_sparse.
  destruct (comb (zlen input) (zlen ps)) as [total|] eqn:Ec; [|done].
  destruct (rank_comb_subset_inverse ps (zlen input) a total) as [_ Hu]; try done || lia || width.
  { eapply Forall_impl; [|exact Hf]. cbn. width. }
  cbv zeta. pass_if. rewrite Hu. cbn [map_err rbind]. rewrite Hz, Z.eqb_refl. cbn [negb orb].
  rewrite fill_ok. rewrite scatter_ok; [|lia|lia|by rewrite zlen_vec by lia].
  cbn [rbind]. specialize (Hp [] eq_refl). cbn [app] in Hp. change (Z.to_nat 0) with 0%nat. rewrite drop_0, Hp. done.
Qed.

(** ** PERMUTATION *)

Lemma all_distinct_total seen input :
  zlen seen = 256 -> wf_bytes input -> exists d, all_distinct (E := E) seen input = Ok d.
Proof.
  revert seen. induction input as [|b input IH]; intros seen Hs Hw; cbn [all_distinct]; [by eexists|].
  apply Forall_cons_1 in Hw as [Hb Hw].
  destruct (lookup_lt_is_Some_2 seen (Z.to_nat b)) as [s Hi]; [unfold zlen in Hs; width|].
  rewrite (get_idx_ok _ _ _ Hi). cbn [rbind]. destruct s; [by eexists|].
  rewrite set_idx_ok by width. cbn [rbind]. apply IH; [by rewrite zlen_insert | done].
Qed.

Lemma insert_sorted_perm b l : insert_sorted b l ≡ₚ b :: l.
Proof.
  induction l as [|x l IH]; cbn; [done|]. case_match; [done|]. by rewrite IH, Permutation_swap.
Qed.

Lemma sort_bytes_perm l : sort_bytes l ≡ₚ l.
Proof. induction l as [|b l IH]; cbn; [done|]. by rewrite insert_sorted_perm, IH. Qed.

Lemma perm_zlen {A} (l k : list A) : l ≡ₚ k -> zlen l = zlen k.
Proof. intros H. unfold zlen. by rewrite H. Qed.

Lemma in_sorted input : Forall (fun b => In b (sort_bytes input)) input.
Proof.
  apply List.Forall_forall. intros b Hb. by rewrite sort_bytes_perm.
Qed.

Lemma permutation_proposes input :
  cc_content_id cc = ChunkId_of input -> wf_bytes input ->
  proposes input (PermutationEncoder_encode (E := E) cc input).
Proof.
  intros Hid Hw. unfold PermutationEncoder_encode. cbv zeta. pose proof (zlen_nonneg input).
  destruct (_ || _) eqn:Hn; [apply proposes_nil|]. bools.
  destruct (all_distinct_total (vec false 256) input) as [d Ed]; [done | done |].
  rewrite Ed. cbn [rbind]. destruct d; [|apply proposes_nil]. cbn [negb].
  pose proof (perm_zlen _ _ (sort_bytes_perm input)) as Hlen.
  destruct (index_seq (E := E) input (sort_bytes input)) as (sq & Es & Hs & Hsw & Ht); [lia | apply in_sorted |].
  rewrite Es. cbn [rbind]. destruct (rank_permutation sq) as [rank|] eqn:Er; [|apply proposes_nil].
  assert (Hsq : zlen sq = zlen input) by (rewrite <-Ht; by rewrite lookup_symbols_length).
  apply proposes_arm; [done | done |]. intros Hv. eexists. intros rec _.
  cbn [materialize_family Representation_len]. validate_destruct Hv. unfold materialize_permutation. cbv zeta.
  destruct (rank_permutation_inverse sq rank) as [_ Hu]; [done..|]. rewrite Hsq in Hu.
  repeat pass_if. rewrite Hu. cbn [safe map_err rbind].
  rewrite substitute_ok; [|lia| rewrite zlen_vec; lia | done]. cbn [rbind].
  change (Z.to_nat 0) with 0%nat. rewrite splice_all by (rewrite lookup_symbols_length, zlen_vec; lia).
  by rewrite Ht.
Qed.

(** ** PALETTE *)

Lemma histogram_ok input hist :
  wf_bytes input -> zlen hist = 256 ->
  Forall (fun c => 0 <= c /\ c + zlen input < 2 ^ 32) hist ->
  exists h, histogram (E := E) input hist = Ok h /\ zlen h = 256 /\ Forall is_u32 h /\
    (forall s : nat, hist !!! s <= h !!! s) /\ Forall (fun b => 0 < h !!! Z.to_nat b) input.
Proof.
  intros Hw. revert hist. induction Hw as [|b input Hb Hw IH]; intros hist Hlen Hf; cbn [histogram].
  { exists hist. split_and!; try done. eapply Forall_impl; [|exact Hf].
    intros c. unfold zlen. cbn. width. }
  rewrite zlen_cons in Hf. pose proof (zlen_nonneg input).
  destruct (lookup_lt_is_Some_2 hist (Z.to_nat b)) as [c Hc]; [unfold zlen in Hlen; width|].
  destruct (Forall_lookup_1 _ _ _ _ Hf Hc) as [Hc0 Hc1].
  rewrite (get_idx_ok _ _ _ Hc). cbn [rbind]. unfold checked_add. pass_guard. cbn [ok_or rbind].
  rewrite set_idx_ok by width. cbn [rbind].
  assert (Hlt : (Z.to_nat b < length hist)%nat) by (by eapply lookup_lt_Some).
  destruct (IH (<[Z.to_nat b := c + 1]> hist)) as (h & Eh & Hh & Hh32 & Hge & Hpos).
  { by rewrite zlen_insert. }
  { apply Forall_insert; [|cbn; lia]. eapply Forall_impl; [|exact Hf]. cbn. lia. }
  exists h. split; [exact Eh|]. split; [done|]. split; [done|]. split.
  - intros s. specialize (Hge s). destruct (decide (s = Z.to_nat b)) as [->|Hs].
    + rewrite list_lookup_total_insert_eq in Hge by done. rewrite (list_lookup_total_correct _ _ _ Hc). lia.
    + by rewrite list_lookup_total_insert_ne in Hge.
  - constructor; [|done]. specialize (Hge (Z.to_nat b)).
    rewrite list_lookup_total_insert_eq in Hge by done. lia.
Qed.

Lemma used_symbols_in s hist b :
  0 <= s <= b -> b - s < zlen hist -> 0 < hist !!! Z.to_nat (b - s) -> In b (used_symbols s hist).
Proof.
  revert s. induction hist as [|c hist IH]; intros s Hb Hz H; cbn [used_symbols].
  { rewrite zlen_nil in Hz. lia. }
  rewrite zlen_cons in Hz.
  destruct (Z.eq_dec b s) as [->|Hne].
  - rewrite Z.sub_diag in H. change (0 < c) in H. pass_guard. by left.
  - replace (Z.to_nat (b - s)) with (S (Z.to_nat (b - (s + 1)))) in H by lia.
    assert (In b (used_symbols (s + 1) hist)) by (apply IH; [lia | lia | exact H]).
    case_match; [by right | done].
Qed.

Lemma used_symbols_range s hist : Forall (fun b => s <= b < s + zlen hist) (used_symbols s hist).
Proof.
  revert s. induction hist as [|c hist IH]; intros s; cbn [used_symbols]; [constructor|].
  rewrite zlen_cons. pose proof (zlen_nonneg hist).
  assert (Forall (fun b => s <= b < s + (1 + zlen hist)) (used_symbols (s + 1) hist)).
  { eapply Forall_impl; [|apply IH]. cbn. lia. }
  case_match; [constructor; [lia | done] | done].
Qed.

Lemma used_symbols_length s hist : zlen (used_symbols s hist) = zlen (List.filter (fun c => 0 <? c) hist).
Proof.
  revert s. induction hist as [|c hist IH]; intros s; cbn [used_symbols List.filter]; [done|].
  case_match; [by rewrite !zlen_cons, IH | apply IH].
Qed.

Lemma map_ok_get hist palette :
  Forall (fun b => 0 <= b < zlen hist) palette ->
  map_ok (E := E) (fun s => get_idx hist s) palette = Ok (lookup_symbols hist palette).
Proof.
  induction 1 as [|b palette Hb _ IH]; cbn [map_ok]; [done|].
  rewrite get_idx_total by done. cbn [rbind]. by rewrite IH.
Qed.

Lemma palette_proposes input :
  cc_content_id cc = ChunkId_of input -> wf_bytes input ->
  proposes input (PaletteEncoder_encode (E := E) cc input).
Proof.
  intros Hid Hw. unfold PaletteEncoder_encode. cbv zeta. pose proof (zlen_nonneg input).
  pose proof (chunk_bound _ Hl).
  destruct (_ || _) eqn:Hn; [apply proposes_nil|]. bools.
  destruct (histogram_ok input (vec 0 256) Hw) as (h & Eh & Hh & Hh32 & _ & Hpos); [done | |].
  { unfold vec. apply Forall_replicate. lia. }
  rewrite Eh. cbn [rbind]. destruct (_ || _) eqn:Hm; [apply proposes_nil|]. bools.
  rewrite <-(used_symbols_length 0) in *. pose proof (cl_palette _ (cdl_codec _ Hl)).
  pose proof (used_symbols_range 0 h) as Hr. rewrite Hh in Hr.
  set (palette := used_symbols 0 h) in *.
  rewrite map_ok_get by (by rewrite Hh). cbn [rbind].
  destruct (index_seq (E := E) input palette) as (sq & Es & Hs & Hsw & Ht); [lia | |].
  { eapply Forall_impl; [|exact (List.Forall_and Hw Hpos)]. cbn. intros b [Hb Hp].
    apply used_symbols_in; [width | width |]. by rewrite Z.sub_0_r. }
  rewrite Es. cbn [rbind]. set (counts := lookup_symbols h palette).
  destruct (rank_multinomial sq (zlen input) counts) as [rank|] eqn:Er; [|apply proposes_nil].
  assert (Hsq : zlen sq = zlen input) by (rewrite <-Ht; by rewrite lookup_symbols_length).
  apply proposes_arm; [done | done |]. intros Hv. eexists. intros rec _.
  assert (exists total, multinomial (zlen input) counts = Some total) as [total Em].
  { clear Ht. validate_destruct Hv. destruct (multinomial (zlen input) counts); [by eexists | done]. }
  cbn [materialize_family Representation_len]. unfold materialize_palette.
  destruct (rank_multinomial_inverse sq (zlen input) counts rank total) as [_ Hu]; try done.
  { unfold counts, lookup_symbols. apply List.Forall_map. eapply Forall_impl; [|exact Hr]. cbn.
    intros b Hb. apply (Forall_lookup_total_1 _ _ _ Hh32). unfold zlen in Hh. lia. }
  { unfold counts. rewrite lookup_symbols_length. lia. }
  rewrite Hu. cbn [safe map_err rbind]. rewrite zlen_vec, Hsq, Z.eqb_refl by lia. cbn [negb].
  rewrite substitute_ok; [|lia| rewrite zlen_vec; lia | done]. cbn [rbind].
  change (Z.to_nat 0) with 0%nat. rewrite splice_all by (rewrite lookup_symbols_length, zlen_vec; lia).
  by rewrite Ht.
Qed.

(** ** PERIODIC *)

Lemma periodic_arm (input : bytes) p :
  0 < p <= zlen input -> zlen input < 2 ^ 32 ->
  drop (Z.to_nat p) input = take (length input - Z.to_nat p) input ->
  exists tail, slice (Z.to_nat (p * (zlen input / p))) (Z.to_nat (zlen input - p * (zlen input / p))) input = tail /\
    input = concat (replicate (Z.to_nat (zlen input / p)) (take (Z.to_nat p) input)) ++ tail.
Proof.
  intros Hp Hn Hd. eexists. split; [done|].
  pose proof (Z.mul_div_le (zlen input) p ltac:(lia)). assert (0 <= zlen input / p) by (apply Z.div_pos; lia).
  rewrite <-periodic_prefix; [|done|unfold zlen in *; nia].
  unfold slice. rewrite (take_ge (drop _ _)) by (rewrite length_drop; unfold zlen in *; nia).
  replace (Z.to_nat (zlen input / p) * Z.to_nat p)%nat with (Z.to_nat (p * (zlen input / p))) by nia.
  by rewrite take_drop.
Qed.

Lemma periodic_found input p :
  cc_content_id cc = ChunkId_of input -> 0 < p <= zlen input ->
  drop (Z.to_nat p) input = take (length input - Z.to_nat p) input ->
  let tail := slice (Z.to_nat (p * (zlen input / p))) (Z.to_nat (zlen input - p * (zlen input / p))) input in
  proposes input (propose cc
    (Periodic (wrap 32 p) (take (Z.to_nat p) input) (wrap 32 (zlen input / p)) tail (zlen input))
    {| residual_ := zlen tail; reference_ := 0; configurational_ := 0; seed_state_ := 0 |}).
Proof.
  intros Hid Hp Hd tail. apply proposes_arm; [done | done |]. intros Hv. eexists. intros rec _.
  apply validate_len in Hv as Hn; [|apply Hl]. cbn [Representation_len] in Hn. pose proof (chunk_bound _ Hl).
  destruct (periodic_arm input p) as (tail' & Et & Hin); [lia | lia | done |].
  fold tail in Et. subst tail'. clearbody tail.
  pose proof (Z.mul_div_le (zlen input) p ltac:(lia)). assert (0 <= zlen input / p) by (apply Z.div_pos; lia).
  assert (zlen input / p <= zlen input) by (apply Z.div_le_upper_bound; nia).
  rewrite !wrap_small by width. set (c := zlen input / p) in *.
  assert (Hpat : zlen (take (Z.to_nat p) input) = p) by (unfold zlen in *; rewrite length_take; lia).
  set (pattern := take (Z.to_nat p) input) in *. clearbody pattern.
  assert (Hc : zlen (concat (replicate (Z.to_nat c) pattern)) = c * p).
  { rewrite zlen_repeat, Hpat. lia. }
  assert (Ht : zlen input = c * p + zlen tail) by (rewrite <-Hc, <-zlen_app; by f_equal).
  cbn [materialize_family Representation_len]. unfold materialize_periodic. rewrite Hpat, Z.eqb_refl. cbn [negb].
  pass_if. rewrite periodic_loop_ok; [|lia..|rewrite zlen_vec by lia; lia|].
  2:{ pose proof (cdl_work _ Hl). assert (c * (p / 8) <= zlen input).
      { assert (p / 8 <= p) by (apply Z.div_le_upper_bound; lia). nia. }
      assert (zlen input / 8 <= zlen input) by (apply Z.div_le_upper_bound; lia). nia. }
  cbn [rbind]. pose proof (zlen_nonneg tail).
  rewrite zlen_splice by (rewrite ?zlen_vec by lia; lia). rewrite zlen_vec by lia.
  rewrite !Z2Nat.id by lia. pass_if.
  rewrite copy_from_slice_ok; [|lia|rewrite zlen_splice by (rewrite ?zlen_vec by lia; lia); rewrite zlen_vec; lia|lia].
  cbn [rbind]. replace (Z.to_nat (0 + c * p))
    with (Z.to_nat 0 + length (concat (replicate (Z.to_nat c) pattern)))%nat by (unfold zlen in Hc; lia).
  rewrite splice_splice by (unfold vec, zlen in *; rewrite length_replicate; lia).
  change (Z.to_nat 0) with 0%nat. rewrite splice_all by (rewrite zlen_app, zlen_vec by lia; lia).
  by rewrite <-Hin.
Qed.

Lemma periodic_search_proposes todo p work input :
  cc_content_id cc = ChunkId_of input -> 2 <= p -> p + Z.of_nat todo <= zlen input ->
  proposes input (periodic_search (E := E) cc todo p work input).
Proof.
  intros Hid. revert p work. induction todo as [|todo IH]; intros p work Hp Hn; cbn [periodic_search].
  { apply proposes_nil. }
  cbv zeta. rewrite get_idx_total by lia. cbn [rbind]. rewrite get_idx_total by lia. cbn [rbind].
  destruct (negb _).
  { case_match; [apply proposes_nil | apply IH; lia]. }
  case_match; [apply proposes_nil|].
  do 2 (rewrite get_slice_ok by lia; cbn [rbind]).
  case_bool_decide as Hab; [|apply IH; lia].
  pose proof (Z.mul_div_le (zlen input) p ltac:(lia)). assert (0 <= zlen input / p) by (apply Z.div_pos; lia).
  do 2 (rewrite get_slice_ok by nia; cbn [rbind]).
  unfold slice in Hab |- * at 2. change (Z.to_nat 0) with 0%nat in *. rewrite !drop_0, Z.sub_0_r in *.
  apply periodic_found; [done | lia |].
  rewrite take_ge in Hab by (rewrite length_drop; unfold zlen; lia). rewrite Hab. f_equal. unfold zlen. lia.
Qed.

Lemma periodic_proposes input :
  cc_content_id cc = ChunkId_of input -> proposes input (PeriodicEncoder_encode (E := E) cc input).
Proof.
  intros Hid. unfold PeriodicEncoder_encode. cbv zeta. case_match; [apply proposes_nil|].
  case_match; [apply proposes_nil|]. bools.
  assert (zlen input / 2 * 2 <= zlen input) by (rewrite Z.mul_comm; apply Z.mul_div_le; lia).
  apply periodic_search_proposes; [done | lia | lia].
Qed.

(** ** BASE_RESIDUAL *)

Lemma lxor_cancel a b : Z.lxor b (Z.lxor a b) = a.
Proof. by rewrite (Z.lxor_comm a b), <-Z.lxor_assoc, Z.lxor_nilpotent, Z.lxor_0_l. Qed.

Lemma apply_edits_diff target base pre budget :
  zlen target = zlen base -> zlen pre + zlen target <= 2 ^ 32 ->
  zlen (diff_edits (zlen pre) target base) <= budget ->
  apply_edits (diff_edits (zlen pre) target base) (zlen pre + zlen target) budget (pre ++ base) =
  Ok (pre ++ target, budget - zlen (diff_edits (zlen pre) target base)).
Proof.
  revert base pre budget. induction target as [|t target IH]; intros [|b base] pre budget Hlen Hn Hb;
    rewrite ?zlen_cons, ?zlen_nil in *; pose proof (zlen_nonneg pre); try (pose proof (zlen_nonneg base); lia);
    try (pose proof (zlen_nonneg target); lia).
  { cbn. by rewrite Z.sub_0_r. }
  pose proof (zlen_nonneg target).
  assert (Hstep : forall bud, zlen (diff_edits (zlen pre + 1) target base) <= bud ->
    apply_edits (diff_edits (zlen pre + 1) target base) (zlen pre + (1 + zlen target)) bud (pre ++ t :: base) =
    Ok (pre ++ t :: target, bud - zlen (diff_edits (zlen pre + 1) target base))).
  { intros bud Hbud. specialize (IH base (pre ++ [t]) bud).
    assert (Hz : zlen (pre ++ [t]) = zlen pre + 1) by (by rewrite zlen_app, zlen_cons, zlen_nil).
    rewrite Hz, <-!app_assoc, <-Z.add_assoc in IH. apply IH; lia. }
  cbn [diff_edits]. cbv zeta. cbn [diff_edits] in Hb. cbv zeta in Hb.
  destruct (Z.eqb_spec t b) as [->|Hne]; cbn [negb] in *; [by apply Hstep|].
  rewrite zlen_cons in *. cbn [apply_edits pos val]. rewrite wrap_small by width.
  pass_if. rewrite get_idx_ok with (v := b);
    [|unfold zlen; rewrite Nat2Z.id; by apply list_lookup_middle].
  cbn [rbind]. rewrite set_idx_ok by (rewrite zlen_app, zlen_cons; pose proof (zlen_nonneg base); lia).
  cbn [rbind]. pose proof (zlen_nonneg (diff_edits (zlen pre + 1) target base)).
  rewrite spend_ok by lia. cbn [rbind]. rewrite lxor_cancel.
  assert (Hi : <[Z.to_nat (zlen pre) := t]> (pre ++ b :: base) = pre ++ t :: base).
  { unfold zlen. rewrite Nat2Z.id. replace (length pre) with (length pre + 0)%nat by lia.
    by rewrite insert_app_r. }
  rewrite Hi, Hstep by lia. do 2 f_equal. lia.
Qed.

Lemma diff_run_spec target base run target' base' :
  zlen target = zlen base -> diff_run target base = (run, target', base') ->
  zlen target' = zlen base' /\ target = run ++ target' /\
  exists old, base = old ++ base' /\ zlen old = zlen run.
Proof.
  revert base run target' base'. induction target as [|t target IH]; intros [|b base] run target' base' Hlen H;
    cbn [diff_run] in H; rewrite ?zlen_cons, ?zlen_nil in *;
    try (pose proof (zlen_nonneg base); lia); try (pose proof (zlen_nonneg target); lia).
  { simplify_eq. split_and!; [done | done |]. by exists []. }
  destruct (negb (t =? b)); [|simplify_eq; rewrite !zlen_cons; split_and!; [done | done | by exists []]].
  destruct (diff_run target base) as [[run' t'] b'] eqn:E'. simplify_eq.
  destruct (IH base run' target' base') as (Hz & -> & old & -> & Ho); [lia | done |].
  split_and!; [done | done |]. exists (b :: old). split; [done|]. rewrite !zlen_cons. lia.
Qed.

Lemma splice_middle (pre src old post : bytes) :
  zlen old = zlen src -> splice (length pre) src (pre ++ old ++ post) = pre ++ src ++ post.
Proof.
  unfold zlen. intros H. unfold splice. rewrite take_app_length. f_equal. f_equal.
  rewrite <-drop_drop, drop_app_length. by rewrite drop_app_length' by lia.
Qed.

Lemma slice_middle (pre src post : bytes) : slice (length pre) (length src) (pre ++ src ++ post) = src.
Proof. unfold slice. by rewrite drop_app_length, take_app_length. Qed.

(** One range: the run's literals go over the base's bytes. *)
Lemma apply_change_run run old pre post done_ lits all len budget changes :
  zlen old = zlen run -> 0 < zlen run -> len = zlen pre + zlen run + zlen post -> len < 2 ^ 32 ->
  all = done_ ++ run ++ lits -> zlen run <= budget ->
  apply_changes ({| start := wrap 32 (zlen pre); end_ := wrap 32 (zlen pre + zlen run) |} :: changes)
    len all (zlen done_) budget (pre ++ old ++ post) =
  apply_changes changes len all (zlen (done_ ++ run)) (budget - zlen run) (pre ++ run ++ post).
Proof.
  intros Ho Hr Hlen Hn Ha Hb. pose proof (zlen_nonneg pre). pose proof (zlen_nonneg post).
  pose proof (zlen_nonneg done_). pose proof (zlen_nonneg lits).
  cbn [apply_changes start end_]. cbv zeta. rewrite !wrap_small by width.
  replace (zlen pre + zlen run - zlen pre) with (zlen run) by lia.
  assert (Hall : zlen all = zlen done_ + zlen run + zlen lits) by (rewrite Ha, !zlen_app; lia).
  repeat pass_if. rewrite get_slice_ok by lia. cbn [rbind].
  replace (zlen done_ + zlen run - zlen done_) with (zlen run) by lia.
  rewrite !to_nat_zlen, Ha, slice_middle.
  rewrite copy_from_slice_ok by (rewrite ?zlen_app; lia). cbn [rbind].
  rewrite spend_ok by done. cbn [rbind]. rewrite to_nat_zlen, splice_middle, <-zlen_app by done. done.
Qed.

Lemma apply_changes_diff fuel target base pre all done_ budget changes lits :
  zlen target = zlen base -> zlen pre + zlen target < 2 ^ 32 -> (length target <= fuel)%nat ->
  diff_ranges fuel (zlen pre) target base = (changes, lits) ->
  all = done_ ++ lits -> zlen target <= budget ->
  apply_changes changes (zlen pre + zlen target) all (zlen done_) budget (pre ++ base) =
  Ok (pre ++ target, budget - zlen lits) /\ zlen lits <= zlen target.
Proof.
  revert target base pre done_ budget changes lits.
  induction fuel as [|fuel IH]; intros target base pre done_ budget changes lits Hlen Hn Hf H Ha Hb;
    cbn [diff_ranges] in H; destruct target as [|t target]; try (cbn in Hf; lia).
  1,2: destruct base as [|b base]; [|rewrite zlen_cons, zlen_nil in Hlen; pose proof (zlen_nonneg base); lia].
  1,2: simplify_eq; cbn; rewrite Z.sub_0_r; done.
  destruct base as [|b base]; [rewrite zlen_cons, zlen_nil in Hlen; pose proof (zlen_nonneg target); lia|].
  cbn [length] in Hf. destruct (Z.eqb_spec t b) as [->|Hne]; cbn [negb] in H.
  - specialize (IH target base (pre ++ [b]) done_ budget changes lits).
    rewrite zlen_app, !zlen_cons, zlen_nil, <-!app_assoc, <-Z.add_assoc in *.
    pose proof (zlen_nonneg target). destruct IH as [E' Hz]; [lia..|done|done|lia|]. split; [exact E' | lia].
  - destruct (diff_run (t :: target) (b :: base)) as [[run target'] base'] eqn:Er.
    destruct (diff_ranges fuel _ target' base') as [changes' lits'] eqn:Ed. injection H as <- <-.
    destruct (diff_run_spec _ _ _ _ _ Hlen Er) as (Hz & Et & old & Eb & Ho).
    assert (Hr : 0 < zlen run).
    { cbn [diff_run] in Er. rewrite (proj2 (Z.eqb_neq t b) Hne) in Er. cbn [negb] in Er.
      destruct (diff_run target base) as [[run' ?] ?]. injection Er as <- _ _. rewrite zlen_cons.
      pose proof (zlen_nonneg run'). lia. }
    rewrite Et, Eb in *. rewrite !zlen_app in *. pose proof (zlen_nonneg target').
    rewrite (apply_change_run run old pre base' done_ lits') by (done || lia).
    destruct (IH target' base' (pre ++ run) (done_ ++ run) (budget - zlen run) changes' lits') as [E' Hz'];
      rewrite ?zlen_app; try done || lia.
    { assert (length (run ++ target') = S (length target)) by (rewrite <-Et; done).
      rewrite length_app in *. unfold zlen in Hr. lia. }
    { by rewrite <-app_assoc. }
    rewrite !zlen_app, <-!app_assoc in E'. rewrite Z.add_assoc.
    split; [|lia]. rewrite E'. do 2 f_equal. lia.
Qed.

(** A base the context offers is the materialization of its chunk id, and
    its own reference chain leaves work for the residual. *)
Definition available (base : BaseChunk) : Prop :=
  exists d b', fetch_descriptor (bc_id base) = Ok d /\
    Representation_len d = zlen (bc_bytes base) /\
    materialize limits d 1 (max_decode_work limits - (zlen (bc_bytes base) / 8 + 1))
      (vec 0 (zlen (bc_bytes base))) = Ok (bc_bytes base, b') /\
    zlen (bc_bytes base) <= b'.

(** What [derive_residuals] returns turns the base into the target. *)
Definition transforms (base target : bytes) (r : Residual) : Prop :=
  Residual_len r = zlen target /\
  forall budget out, zlen out = zlen target -> zlen target <= budget ->
    exists b, apply_residual limits r base budget out = Ok (target, b).

Lemma insert_by_size_perm r l : insert_by_size r l ≡ₚ r :: l.
Proof.
  induction l as [|x l IH]; cbn; [done|]. case_match; [done|]. by rewrite IH, Permutation_swap.
Qed.
Lemma sort_by_size_perm l : sort_by_size l ≡ₚ l.
Proof. induction l as [|r l IH]; cbn; [done|]. by rewrite insert_by_size_perm, IH. Qed.

Lemma zlen_diff_edits i target base :
  zlen (diff_edits i target base) <= zlen target.
Proof.
  revert i base. induction target as [|t target IH]; intros i [|b base]; cbn [diff_edits]; cbv zeta; try apply zlen_nonneg.
  rewrite ?zlen_cons.
  specialize (IH (i + 1) base). case_match; rewrite ?zlen_cons; lia.
Qed.

Lemma derive_residuals_transform target base fanout :
  zlen target < 2 ^ 32 -> Forall (transforms base target) (derive_residuals target base fanout).
Proof.
  intros Hn. pose proof (zlen_nonneg target). unfold derive_residuals. cbv zeta.
  destruct (Z.eqb_spec (zlen target) (zlen base)) as [Hlen|]; cbn [negb]; [|constructor].
  case_match; [constructor|]. destruct (diff_ranges _ 0 target base) as [changes lits] eqn:Ed.
  assert (Hx : transforms base target (XorSparse (zlen target) (diff_edits 0 target base))).
  { split; [done|]. intros budget out Ho Hb. unfold apply_residual, apply_xor_sparse.
    cbn [Residual_len is_base_sequence negb andb]. do 2 pass_guard.
    rewrite get_slice_ok by lia. cbn [rbind].
    unfold slice. change (Z.to_nat 0) with 0%nat. rewrite drop_0, take_ge by (unfold zlen in *; lia).
    rewrite copy_from_slice_ok by lia. cbn [rbind]. change (Z.to_nat 0) with 0%nat. rewrite splice_all by lia.
    eexists. apply (apply_edits_diff target base []); [done | rewrite zlen_nil; lia |].
    eapply Z.le_trans; [apply zlen_diff_edits | done]. }
  assert (Hr : transforms base target (RangeReplace (zlen target) changes lits)).
  { split; [done|]. intros budget out Ho Hb. unfold apply_residual, apply_range_replace.
    cbn [Residual_len is_base_sequence negb andb]. do 2 pass_guard.
    rewrite get_slice_ok by lia. cbn [rbind].
    unfold slice. change (Z.to_nat 0) with 0%nat. rewrite drop_0, take_ge by (unfold zlen in *; lia).
    rewrite copy_from_slice_ok by lia. cbn [rbind]. change (Z.to_nat 0) with 0%nat. rewrite splice_all by lia.
    eexists. apply (apply_changes_diff (length target) target base [] lits [] budget changes lits); done || rewrite ?zlen_nil; lia. }
  rewrite sort_by_size_perm. repeat case_match; cbn [app]; list_forall; done.
Qed.

Lemma base_residual_arm input base r :
  available base -> 0 < max_reference_depth limits -> zlen (bc_bytes base) = zlen input ->
  zlen input <= max_chunk_size limits -> transforms (bc_bytes base) input r ->
  exists b, forall rec, rec = nested_interpreter limits ->
    materialize_family limits rec (BaseResidual (bc_id base) (zlen (bc_bytes base)) r (zlen input)) 0
      (max_decode_work limits - (zlen input / 8 + 1)) (vec 0 (zlen input)) = Ok (input, b).
Proof.
  intros (d & b' & Ef & El & Em & Hb) Hd Hlen Hn [Hrl Ht]. pose proof (zlen_nonneg input).
  destruct (Ht b' (vec 0 (zlen input))) as [b E']; [rewrite zlen_vec; lia | lia |].
  exists b. intros rec ->. cbn [materialize_family]. unfold materialize_base_residual, fetch_nested.
  pose proof (cdl_alloc _ Hl). pass_if. rewrite Ef. cbn [safe map_err rbind]. rewrite El, Z.eqb_refl.
  cbn [negb]. unfold materialize_nested. change (checked_add 8 0 1) with (Some 1). cbn [rbind ok_or].
  unfold materialize in Em. unfold nested_interpreter.
  replace (Z.to_nat (max_reference_depth limits - 1) + 2)%nat
    with (Z.to_nat (max_reference_depth limits) + 1)%nat in Em by lia.
  rewrite <-Hlen, Em. cbn [rbind]. by rewrite Hlen, E'.
Qed.

Lemma encode_residuals_proposes input base rs :
  cc_content_id cc = ChunkId_of input -> available base -> 0 < max_reference_depth limits ->
  zlen (bc_bytes base) = zlen input -> Forall (fun r => zlen input <= max_chunk_size limits ->
    transforms (bc_bytes base) input r) rs ->
  proposes input (encode_residuals (E := E) cc input base rs).
Proof.
  intros Hid Ha Hd Hlen. induction 1 as [|r rs Hr _ (cs & Ecs & Hcs)]; cbn [encode_residuals].
  { apply proposes_nil. }
  case_match; [by exists cs|]. cbv zeta.
  destruct (Representation_validate _ _) as [[]|] eqn:Hv; [|by exists cs].
  apply validate_len in Hv as Hn; [|apply Hl]. cbn [Representation_len] in Hn.
  pose proof (chunk_bound _ Hl). pose proof (zlen_nonneg input).
  edestruct (estimate_ok (E := E)) as [c ->]; [|cbn [rbind]; rewrite Ecs; cbn [rbind]].
  { cbn [Representation_len]. lia. }
  eexists. split; [done|]. constructor; [|done]. rewrite Hid.
  destruct (base_residual_arm input base r) as [b Hb]; [done | done | done | lia | by apply Hr |].
  eapply accepted_arm; [done | done | done | done | exact Hb].
Qed.

Lemma base_residual_proposes input :
  cc_content_id cc = ChunkId_of input -> Forall (fun b => is_u8 (bc_depth b)) (cc_bases cc) ->
  Forall available (cc_bases cc) -> proposes input (BaseResidualEncoder_encode (E := E) cc input).
Proof.
  intros Hid Hd Ha. unfold BaseResidualEncoder_encode.
  induction Ha as [|base bases Ha _ IH]; cbn [encode_bases]; [apply proposes_nil|].
  apply Forall_cons_1 in Hd as [Hd Hds]. destruct (IH Hds) as (cs & Ecs & Hcs).
  case_match; [by exists cs|]. case_match; [by exists cs|]. bools.
  destruct (encode_residuals_proposes input base
    (derive_residuals input (bc_bytes base) (max_fanout limits))) as (cs' & Ecs' & Hcs');
    [done | done | width | done | |].
  { apply List.Forall_forall. intros r Hr Hn. pose proof (chunk_bound _ Hl).
    assert (Hlt : zlen input < 2 ^ 32) by lia.
    pose proof (derive_residuals_transform input (bc_bytes base) (max_fanout limits) Hlt) as Ht.
    rewrite List.Forall_forall in Ht. by apply Ht. }
  rewrite Ecs'. cbn [rbind]. rewrite Ecs. cbn [rbind]. eexists. split; [done|]. by apply Forall_app_2.
Qed.
(** ** When SPARSE and PERIODIC apply *)

Definition nonzero_count (input : bytes) : Z := zlen (List.filter (fun b => negb (b =? 0)) input).

(** The chunks SPARSE represents: sparse enough, and with a position space
    that fits the [u128] rank and a descriptor that fits its cap. *)
Definition sparse_applies (input : bytes) : Prop :=
  let n := zlen input in let k := nonzero_count input in
  n <= max_chunk_size limits /\ 0 < k <= n / 4 /\ k <= max_fanout limits /\
  zbinom n k < 2 ^ 128 /\ 25 + k <= max_descriptor_bytes limits.

Lemma sparse_scan_ascending input i ps lits :
  0 <= i -> i + zlen input <= 2 ^ 32 -> sparse_scan i input = (ps, lits) ->
  zlen ps = nonzero_count input /\ zlen lits = nonzero_count input /\
  exists qs, ps = map Z.of_nat qs /\ ascending_from (Z.to_nat i) qs (Z.to_nat (i + zlen input)).
Proof.
  unfold nonzero_count. revert i ps lits. induction input as [|b input IH]; intros i ps lits Hi Hn H;
    cbn [sparse_scan List.filter] in *.
  { simplify_eq. split_and!; [done | done | by exists []]. }
  rewrite zlen_cons in *. pose proof (zlen_nonneg input).
  destruct (sparse_scan (i + 1) input) as [ps' lits'] eqn:E'.
  destruct (IH (i + 1) ps' lits') as (Hp & Hz & qs & -> & Hq); [lia | lia | done |].
  replace (i + 1 + zlen input) with (i + (1 + zlen input)) in Hq by lia.
  destruct (negb (b =? 0)); simplify_eq.
  - rewrite wrap_small, !zlen_cons by width. split_and!; [lia | lia |].
    exists (Z.to_nat i :: qs). split; [cbn; by rewrite Z2Nat.id|].
    cbn [ascending_from]. replace (S (Z.to_nat i)) with (Z.to_nat (i + 1)) by lia.
    split_and!; [lia | lia | done].
  - split_and!; [done | done |]. exists qs. split; [done|]. eapply ascending_weaken; [|exact Hq]. lia.
Qed.

Lemma propose_nonempty rep split cs :
  propose (E := E) cc rep split = Ok cs -> cs <> [] -> Representation_validate limits rep = Ok tt.
Proof.
  unfold propose. destruct (Representation_validate limits rep) as [[]|]; [done|]. intros. by simplify_eq.
Qed.

Lemma propose_some rep split :
  Representation_validate limits rep = Ok tt -> 0 <= Representation_len rep ->
  exists c, propose (E := E) cc rep split = Ok [c] /\ representation c = rep.
Proof.
  intros Hv H0. unfold propose. rewrite Hv. apply validate_len in Hv; [|apply Hl].
  pose proof (chunk_bound _ Hl). destruct (estimate_ok (E := E) rep split 0) as [c ->]; [lia|].
  cbn [rbind]. by eexists.
Qed.

Lemma sparse_proposed input cs :
  SparseEncoder_encode (E := E) cc input = Ok cs -> cs <> [] -> sparse_applies input.
Proof.
  intros H Hne. unfold SparseEncoder_encode in H. cbv zeta in H. pose proof (chunk_bound _ Hl).
  pose proof (zlen_nonneg input).
  destruct (_ || _) eqn:Hn; [by simplify_eq|]. bools.
  destruct (sparse_scan 0 input) as [ps lits] eqn:Es.
  destruct (sparse_scan_ascending input 0 ps lits) as (Hp & Hz & _); [lia | lia | done |].
  pose proof (zlen_nonneg ps).
  repeat (case_match; [by simplify_eq|]). bools. case_match; [|by simplify_eq].
  apply propose_nonempty in H; [|done].
  assert (zlen input / 4 <= zlen input) by (apply Z.div_le_upper_bound; lia).
  rewrite wrap_small in H by width. validate_destruct H. unfold Representation_encoded_size in Hc.
  unfold sparse_applies. cbv zeta. rewrite <-Hp. split_and!; try lia.
  destruct (comb (zlen input) (zlen ps)) as [v|] eqn:Ec; [|done].
  rewrite <-(Z2Nat.id (zlen input)), <-(Z2Nat.id (zlen ps)) in Ec by lia.
  apply comb_some_inv in Ec as [-> Hb]. exact Hb.
Qed.

Lemma sparse_applied input :
  sparse_applies input -> exists c rank lits, SparseEncoder_encode (E := E) cc input = Ok [c] /\
    representation c = Sparse (nonzero_count input) rank lits (zlen input).
Proof.
  unfold sparse_applies. cbv zeta. intros (Hn & Hk & Hfan & Hb & Hs). pose proof (chunk_bound _ Hl).
  assert (zlen input / 4 <= zlen input) by (apply Z.div_le_upper_bound; pose proof (zlen_nonneg input); lia).
  unfold SparseEncoder_encode. cbv zeta. pass_guard.
  destruct (sparse_scan 0 input) as [ps lits] eqn:Es.
  destruct (sparse_scan_ascending input 0 ps lits) as (Hp & Hz & qs & Eq & Hq); [lia | lia | done |].
  rewrite <-Hp in *. do 3 pass_guard. rewrite wrap_small by width.
  assert (Hbq : binom (Z.to_nat (zlen input)) (length qs) < 2 ^ 128).
  { unfold zbinom in Hb. rewrite Eq, zlen_nats in Hb. by rewrite Nat2Z.id in Hb. }
  pose proof (rank_comb_subset_ok qs (Z.to_nat (zlen input)) Hq Hbq) as Er.
  pose proof (crank_lt _ _ Hq) as Hlt. rewrite Z.add_0_l in Hlt.
  rewrite <-Eq, Z2Nat.id in Er by lia. rewrite Er.
  destruct (propose_some (Sparse (zlen ps) (crank 0 qs) lits (zlen input)) (rank_split (zlen ps)))
    as (c & Ec & Erep); [|cbn; lia|by exists c, (crank 0 qs), lits].
  unfold Representation_validate, validate_sparse, Representation_encoded_size, check_len.
  replace (5 + (4 + 16 + zlen lits)) with (25 + zlen lits) by lia.
  do 2 pass_if. cbn [rbind]. do 2 pass_if.
  assert (Ecomb : comb (zlen input) (zlen ps) = Some (binom (Z.to_nat (zlen input)) (length qs))).
  { rewrite <-(Z2Nat.id (zlen input)) at 1 by lia. rewrite Eq, zlen_nats. by apply comb_some. }
  rewrite Ecomb. by pass_guard.
Qed.

(** [p] is a period: the chunk agrees with itself shifted by [p]. *)
Definition has_period (input : bytes) (p : Z) : Prop :=
  drop (Z.to_nat p) input = take (length input - Z.to_nat p) input.
#[local] Instance has_period_dec input p : Decision (has_period input p).
Proof. unfold has_period. apply _. Defined.

(** The descriptor of a period: the pattern, the whole repetitions, the
    rest. *)
Definition periodic_rep (input : bytes) (p : Z) : Representation :=
  let n := zlen input in
  Periodic (wrap 32 p) (take (Z.to_nat p) input) (wrap 32 (n / p))
    (slice (Z.to_nat (p * (n / p))) (Z.to_nat (n - p * (n / p))) input) n.

(** One period of the search. *)
Lemma periodic_search_step todo p work input :
  2 <= p < zlen input -> 0 <= work -> work + zlen input <= PERIODIC_WORK_CAP ->
  exists work', work <= work' <= work + zlen input /\
  periodic_search (E := E) cc (S todo) p work input =
  if decide (has_period input p) then
    propose cc (periodic_rep input p)
      {| residual_ := zlen input - p * (zlen input / p); reference_ := 0; configurational_ := 0; seed_state_ := 0 |}
  else periodic_search cc todo (p + 1) work' input.
Proof.
  intros Hp Hw Hcap. cbn [periodic_search]. cbv zeta.
  rewrite get_idx_total by lia. cbn [rbind]. rewrite get_idx_total by lia. cbn [rbind].
  assert (Hper : has_period input p -> input !!! Z.to_nat p = input !!! Z.to_nat 0).
  { unfold has_period. intros H. rewrite !list_lookup_total_alt. f_equal.
    rewrite <-(Nat.add_0_r (Z.to_nat p)), <-lookup_drop, H, lookup_take_lt; [done | unfold zlen in Hp; lia]. }
  destruct (Z.eqb_spec (input !!! Z.to_nat p) (input !!! Z.to_nat 0)) as [E0|Hne]; cbn [negb].
  - exists (work + (zlen input - p)). split; [lia|]. pass_guard.
    do 2 (rewrite get_slice_ok by lia; cbn [rbind]).
    assert (Hs : slice (Z.to_nat p) (Z.to_nat (zlen input - p)) input = drop (Z.to_nat p) input).
    { unfold slice. apply take_ge. rewrite length_drop. unfold zlen. lia. }
    assert (Hs0 : slice (Z.to_nat 0) (Z.to_nat (zlen input - p - 0)) input = take (length input - Z.to_nat p) input).
    { unfold slice. change (Z.to_nat 0) with 0%nat. rewrite drop_0. f_equal. unfold zlen. lia. }
    rewrite Hs, Hs0. unfold has_period. case_bool_decide; (destruct (decide _); [|done || done]); try done.
    pose proof (Z.mul_div_le (zlen input) p ltac:(lia)). assert (0 <= zlen input / p) by (apply Z.div_pos; lia).
    do 2 (rewrite get_slice_ok by nia; cbn [rbind]). unfold periodic_rep. cbv zeta. do 2 f_equal.
    + unfold slice. change (Z.to_nat 0) with 0%nat. by rewrite drop_0, Z.sub_0_r.
    + apply zlen_slice; lia.
  - exists (work + 1). split; [lia|]. pass_guard. destruct (decide _) as [Hh|]; [|done]. by apply Hper in Hh.
Qed.

(** The search stops at the smallest period. *)
Lemma periodic_search_first todo p work input q :
  2 <= p <= q -> q < p + Z.of_nat todo -> p + Z.of_nat todo <= zlen input -> 0 <= work ->
  work + (q - p + 1) * zlen input <= PERIODIC_WORK_CAP ->
  has_period input q -> (forall r, p <= r < q -> ~ has_period input r) ->
  periodic_search (E := E) cc todo p work input = propose cc (periodic_rep input q)
    {| residual_ := zlen input - q * (zlen input / q); reference_ := 0; configurational_ := 0; seed_state_ := 0 |}.
Proof.
  revert p work. induction todo as [|todo IH]; intros p work Hp Hq Hn Hw Hcap Hper Hmin; [lia|].
  destruct (periodic_search_step todo p work input) as (work' & Hw' & ->); [lia | lia | nia |].
  destruct (Z.eq_dec p q) as [->|Hne]; destruct (decide _) as [Hh|Hh]; try done.
  - exfalso. apply (Hmin p); [lia | done].
  - apply IH; [lia | lia | lia | lia | nia | done |]. intros r Hr. apply Hmin. lia.
Qed.

Lemma periodic_search_none todo p work input :
  2 <= p -> p + Z.of_nat todo <= zlen input -> (forall r, p <= r < p + Z.of_nat todo -> ~ has_period input r) ->
  0 <= work -> periodic_search (E := E) cc todo p work input = Ok [].
Proof.
  revert p work. induction todo as [|todo IH]; intros p work Hp Hn Hmin Hw; [done|].
  assert (Hno : ~ has_period input p) by (apply Hmin; lia).
  assert (Hrest : forall w, 0 <= w -> periodic_search (E := E) cc todo (p + 1) w input = Ok []).
  { intros w Hw'. apply IH; [lia | lia | intros r Hr; apply Hmin; lia | done]. }
  cbn [periodic_search]. cbv zeta.
  rewrite get_idx_total by lia. cbn [rbind]. rewrite get_idx_total by lia. cbn [rbind].
  destruct (negb _); [case_match; [done|]; apply Hrest; lia|].
  case_match; [done|]. do 2 (rewrite get_slice_ok by lia; cbn [rbind]).
  case_bool_decide as Hab; [|apply Hrest; lia]. exfalso. apply Hno. unfold has_period, slice in *.
  rewrite take_ge in Hab by (rewrite length_drop; unfold zlen; lia).
  rewrite Hab. change (Z.to_nat 0) with 0%nat. rewrite drop_0. f_equal. unfold zlen. lia.
Qed.
End Spec.

(** * Properties *)

(** SPARSE is exact and complete: the encoder never panics; it proposes
    a candidate exactly for the chunks within the size limit whose marked
    bytes number between one and a quarter of the chunk, respect the
    fan-out and descriptor caps, and whose position space fits [u128]; and
    its candidate is a valid SPARSE descriptor that passes the gate, that
    is, materializes to the chunk. *)
Theorem sparse_encoder_exact `{dctx : DecoderContext} `{hash : ContentHash} {E} cc input :
  candidate_limits (cc_limits cc) -> cc_content_id cc = ChunkId_of input ->
  exists cs, SparseEncoder_encode (E := E) cc input = Ok cs /\
    Forall (accepted (cc_limits cc) input) cs /\ (cs <> [] <-> sparse_applies cc input).
Proof.
  intros Hl Hid. destruct (sparse_proposes cc (E := E) Hl input Hid) as (cs & Ecs & Hcs).
  exists cs. split_and!; [done | done |]. split.
  - intros Hne. by eapply sparse_proposed.
  - intros Ha. destruct (sparse_applied cc (E := E) Hl input Ha) as (c & rank & lits & E' & _).
    rewrite Ecs in E'. by simplify_eq.
Qed.

(** A context for the witnesses, under the default limits. *)
Definition sample_cc (input : bytes) (bases : list BaseChunk) : CandidateContext :=
  {| cc_limits := Limits_default; cc_policy := Policy_balanced;
     cc_content_id := @ChunkId_of sample_hash input; cc_bases := bases; cc_dedup := None |}.

Lemma sparse_encoder_exact_witness :
  let input := [0; 0; 0; 7; 0; 0; 0; 0] in
  exists cs, SparseEncoder_encode (E := CandidateError) (sample_cc input []) input = Ok cs /\
    Forall (accepted (ctx := sample_ctx) (hash := sample_hash) Limits_default input) cs /\
    (cs <> [] <-> sparse_applies (sample_cc input []) input).
Proof.
  apply (@sparse_encoder_exact sample_ctx sample_hash CandidateError
    (sample_cc [0; 0; 0; 7; 0; 0; 0; 0] [])); [apply candidate_limits_default | done].
Defined.

(** PALETTE is exact: histogram, canonical palette, indexing and ranking
    never panic on a chunk of bytes, and every candidate is a valid PALETTE
    descriptor that passes the gate. *)
Theorem palette_encoder_exact `{dctx : DecoderContext} `{hash : ContentHash} {E} cc input :
  candidate_limits (cc_limits cc) -> cc_content_id cc = ChunkId_of input -> wf_bytes input ->
  exists cs, PaletteEncoder_encode (E := E) cc input = Ok cs /\
    Forall (accepted (cc_limits cc) input) cs.
Proof. intros Hl Hid Hw. by apply palette_proposes. Qed.

Lemma palette_encoder_exact_witness :
  let input := [16; 32; 16; 48; 16; 32] in
  exists cs, PaletteEncoder_encode (E := CandidateError) (sample_cc input []) input = Ok cs /\
    length cs = 1%nat /\
    Forall (accepted (ctx := sample_ctx) (hash := sample_hash) Limits_default input) cs.
Proof.
  destruct (@palette_encoder_exact sample_ctx sample_hash CandidateError
    (sample_cc [16; 32; 16; 48; 16; 32] []) [16; 32; 16; 48; 16; 32]) as (cs & Ecs & Hcs);
    [apply candidate_limits_default | done | by repeat constructor |].
  exists cs. split_and!; [done | | done]. vm_compute in Ecs. by injection Ecs as <-.
Defined.

(** PERIODIC finds the smallest period: the encoder never panics and
    every candidate passes the gate; when no period of the searched range
    exists it proposes nothing; and when [q] is the smallest and the search
    up to [q] fits the work cap, its result is the proposal of the
    descriptor with period [q]. *)
Theorem periodic_encoder_smallest `{dctx : DecoderContext} `{hash : ContentHash} {E} cc input :
  candidate_limits (cc_limits cc) -> cc_content_id cc = ChunkId_of input ->
  let max_p := Z.min (max_period (cc_limits cc)) (zlen input / 2) in
  (exists cs, PeriodicEncoder_encode (E := E) cc input = Ok cs /\
    Forall (accepted (cc_limits cc) input) cs) /\
  ((forall r, 2 <= r <= max_p -> ~ has_period input r) ->
    PeriodicEncoder_encode (E := E) cc input = Ok []) /\
  (forall q, 4 <= zlen input -> 2 <= q <= max_p -> has_period input q ->
    (forall r, 2 <= r < q -> ~ has_period input r) -> q * zlen input <= PERIODIC_WORK_CAP ->
    PeriodicEncoder_encode (E := E) cc input = propose cc (periodic_rep input q)
      {| residual_ := zlen input - q * (zlen input / q); reference_ := 0; configurational_ := 0;
         seed_state_ := 0 |}).
Proof.
  intros Hl Hid max_p. pose proof (zlen_nonneg input).
  assert (zlen input / 2 * 2 <= zlen input) by (rewrite Z.mul_comm; apply Z.mul_div_le; lia).
  split_and!; [by apply periodic_proposes | |].
  - intros Hno. unfold PeriodicEncoder_encode. cbv zeta. fold max_p. case_match; [done|].
    case_match; [done|]. bools. apply (periodic_search_none cc); [lia | lia | | lia].
    intros r Hr. apply Hno. lia.
  - intros q Hn Hq Hper Hmin Hcap. unfold PeriodicEncoder_encode. cbv zeta. fold max_p.
    do 2 pass_guard. apply (periodic_search_first cc); done || lia.
Qed.

(** The witness needs a decision procedure at a concrete chunk. *)
Lemma periodic_encoder_smallest_witness :
  let input := [1; 2; 3; 1; 2; 3; 1; 2] in
  exists cs, PeriodicEncoder_encode (E := CandidateError) (sample_cc input []) input = Ok cs /\
    map representation cs = [Periodic 3 [1; 2; 3] 2 [1; 2] 8].
Proof.
  destruct (@periodic_encoder_smallest sample_ctx sample_hash CandidateError
    (sample_cc [1; 2; 3; 1; 2; 3; 1; 2] []) [1; 2; 3; 1; 2; 3; 1; 2]) as (_ & _ & H);
    [apply candidate_limits_default | done |].
  cbv zeta. rewrite (H 3).
  - eexists. split; [vm_compute; reflexivity | reflexivity].
  - by vm_compute.
  - by vm_compute.
  - reflexivity.
  - intros r Hr. assert (r = 2) as -> by lia. by vm_compute.
  - by vm_compute.
Defined.

(** PERMUTATION is exact: the encoder never panics on a chunk of bytes,
    proposes nothing for chunks of more than 34 bytes, and every candidate
    is a valid PERMUTATION descriptor (its alphabet sorted and free of
    duplicates) that passes the gate. *)
Theorem permutation_encoder_exact `{dctx : DecoderContext} `{hash : ContentHash} {E} cc input :
  candidate_limits (cc_limits cc) -> cc_content_id cc = ChunkId_of input -> wf_bytes input ->
  exists cs, PermutationEncoder_encode (E := E) cc input = Ok cs /\
    Forall (accepted (cc_limits cc) input) cs /\ (34 < zlen input -> cs = []).
Proof.
  intros Hl Hid Hw. destruct (permutation_proposes cc (E := E) Hl input Hid Hw) as (cs & Ecs & Hcs).
  exists cs. split_and!; [done | done |]. intros Hn. unfold PermutationEncoder_encode in Ecs. cbv zeta in Ecs.
  assert (Hg : (zlen input =? 0) || (34 <? zlen input) = true) by lia. rewrite Hg in Ecs. by simplify_eq.
Qed.

Lemma permutation_encoder_exact_witness :
  let input := [30; 10; 20] in
  exists cs, PermutationEncoder_encode (E := CandidateError) (sample_cc input []) input = Ok cs /\
    map representation cs = [Permutation 4 [10; 20; 30] 3] /\
    Forall (accepted (ctx := sample_ctx) (hash := sample_hash) Limits_default input) cs.
Proof.
  destruct (@permutation_encoder_exact sample_ctx sample_hash CandidateError
    (sample_cc [30; 10; 20] []) [30; 10; 20]) as (cs & Ecs & Hcs & _);
    [apply candidate_limits_default | done | by repeat constructor |].
  exists cs. split_and!; [done | | done]. vm_compute in Ecs. by injection Ecs as <-.
Defined.

(** BASE_RESIDUAL is exact: when every base of the context is the
    materialization of its chunk id, the encoder never panics, and every
    residual it derives, XOR edits or replaced ranges, turns the base into
    the chunk through the interpreter: each candidate is valid and passes
    the gate. *)
Theorem base_residual_encoder_exact `{dctx : DecoderContext} `{hash : ContentHash} {E} cc input :
  candidate_limits (cc_limits cc) -> cc_content_id cc = ChunkId_of input ->
  Forall (fun b => is_u8 (bc_depth b)) (cc_bases cc) -> Forall (available cc) (cc_bases cc) ->
  exists cs, BaseResidualEncoder_encode (E := E) cc input = Ok cs /\
    Forall (accepted (cc_limits cc) input) cs.
Proof. intros Hl Hid Hd Ha. by apply base_residual_proposes. Qed.

Definition sample_base : BaseChunk :=
  {| bc_id := sample_id 7; bc_bytes := [10; 20; 30; 40]; bc_depth := 0 |}.

Lemma base_residual_encoder_exact_witness :
  let input := [10; 21; 30; 40] in
  exists cs, BaseResidualEncoder_encode (E := CandidateError) (sample_cc input [sample_base]) input = Ok cs /\
    length cs = 2%nat /\
    Forall (accepted (ctx := sample_ctx) (hash := sample_hash) Limits_default input) cs.
Proof.
  destruct (@base_residual_encoder_exact sample_ctx sample_hash CandidateError
    (sample_cc [10; 21; 30; 40] [sample_base]) [10; 21; 30; 40]) as (cs & Ecs & Hcs).
  - apply candidate_limits_default.
  - done.
  - by repeat constructor.
  - repeat constructor. eexists (Raw (sample_id 5) 4), _.
    split; [by vm_compute|]. split; [done|]. split; [by vm_compute | by vm_compute].
  - exists cs. split_and!; [done | | done]. vm_compute in Ecs. by injection Ecs as <-.
Defined.
