(* ===== verification/Matcher.v ===== *)
(** Component [rans/sequence.rs], encode side: the hash-chain matchers and
    the greedy parses that turn a chunk into the raw command, literal,
    offset, source and length streams of the copy/literal families.  The
    three parses over 2-byte offsets ([encode_sequence],
    [encode_sequence_dict], [encode_sequence_shared]) run one loop over
    their match search; the deep parse has a command language and a loop of
    its own.  [MatcherSpec] shows that decoding undoes every parse. *)
From S2P Require Import Prelude Binomial Codec Rank Repr Descriptor Context Streams.

Definition MIN_MATCH : Z := 4.
Definition DICT_CHAIN_DEPTH : nat := 8.
Definition MAX_COPY : Z := 131.
Definition MAX_LIT_RUN : Z := 128.
Definition MAX_DIST : Z := 65535.
Definition CHAIN_DEPTH : nat := 16.
Definition DEEP_CHAIN_DEPTH : nat := 256.
Definition MIN_LAZY_GAIN : Z := 8.

(** [u32::MAX], the empty chain link. *)
Definition U32_MAX : Z := 2 ^ 32 - 1.

(** The hash-chain tables: the most recent position of each 16-bit key, and
    the next older position of each position. *)
Record Tables : Type := { t_head : list Z; t_chain : list Z }.
Definition Tables_new (n : Z) : Tables :=
  {| t_head := vec U32_MAX (2 ^ 16); t_chain := vec U32_MAX n |}.

Record EncStreams : Type := {
  es_commands : bytes; es_literals : bytes; es_offsets : bytes; es_sources : bytes
}.
Definition EncStreams_new : EncStreams :=
  {| es_commands := []; es_literals := []; es_offsets := []; es_sources := [] |}.

Section Matchers.
Context {E : Type}.

Definition hash_at (input : bytes) (pos : Z) : result (trap E) Z :=
  let! w := get_slice input pos (pos + 4) in
  Ok (Z.shiftr (wrap 32 (from_le w * 0x9E3779B1)) 16).

(** Link [pos] in front of its chain, when a whole window starts there. *)
Definition register (input : bytes) (pos : Z) (t : Tables) : result (trap E) Tables :=
  if pos + MIN_MATCH <=? zlen input then
    let! h := hash_at input pos in
    let! old := get_idx (t_head t) h in
    let! chain := set_idx (t_chain t) pos old in
    let! head := set_idx (t_head t) h (wrap 32 pos) in
    Ok {| t_head := head; t_chain := chain |}
  else Ok t.

Fixpoint register_range (todo : nat) (input : bytes) (pos : Z) (t : Tables) : result (trap E) Tables :=
  match todo with
  | O => Ok t
  | S todo' => let! t := register input pos t in register_range todo' input (pos + 1) t
  end.

(** [while l < max_len && a[i + l] == b[j + l]]; [todo] is [max_len - l]. *)
Fixpoint match_len (todo : nat) (a : bytes) (i : Z) (b : bytes) (j l : Z) : result (trap E) Z :=
  match todo with
  | O => Ok l
  | S todo' =>
      let! x := get_idx a (i + l) in
      let! y := get_idx b (j + l) in
      if x =? y then match_len todo' a i b j (l + 1) else Ok l
  end.

Fixpoint find_match_loop (depth : nat) (input : bytes) (pos : Z) (chain : list Z)
  (c best_len best_dist : Z) : result (trap E) (Z * Z) :=
  match depth with
  | O => Ok (best_len, best_dist)
  | S depth' =>
      if c =? U32_MAX then Ok (best_len, best_dist) else
      let max_len := zlen input - pos in
      let! dist := ok_or (checked_sub pos c) Panic in
      let! l :=
        if dist <=? MAX_DIST then match_len (Z.to_nat max_len) input c input pos 0 else Ok 0 in
      let better := (dist <=? MAX_DIST) && (MIN_MATCH <=? l) && (best_len <? l) in
      let best_len := if better then l else best_len in
      let best_dist := if better then dist else best_dist in
      if better && (l =? max_len) then Ok (best_len, best_dist) else
      let! c := get_idx chain c in
      find_match_loop depth' input pos chain c best_len best_dist
  end.

Definition find_match (input : bytes) (pos : Z) (t : Tables) : result (trap E) (option (Z * Z)) :=
  let! h := hash_at input pos in
  let! c := get_idx (t_head t) h in
  let! '(best_len, best_dist) := find_match_loop CHAIN_DEPTH input pos (t_chain t) c 0 0 in
  Ok (if MIN_MATCH <=? best_len then Some (best_dist, best_len) else None).

Fixpoint find_dict_match_loop (depth : nat) (input : bytes) (pos : Z) (dict : bytes)
  (chain : list Z) (c best_len best_off : Z) : result (trap E) (Z * Z) :=
  match depth with
  | O => Ok (best_len, best_off)
  | S depth' =>
      if c =? U32_MAX then Ok (best_len, best_off) else
      let max_len := zlen input - pos in
      let! avail := ok_or (checked_sub (zlen dict) c) Panic in
      let limit := Z.min max_len avail in
      let! l := match_len (Z.to_nat limit) dict c input pos 0 in
      let better := (MIN_MATCH <=? l) && (best_len <? l) in
      let best_len := if better then l else best_len in
      let best_off := if better then c else best_off in
      if better && (l =? max_len) then Ok (best_len, best_off) else
      let! c := get_idx chain c in
      find_dict_match_loop depth' input pos dict chain c best_len best_off
  end.

Definition find_dict_match (input : bytes) (pos : Z) (dict : bytes) (d : Tables)
  : result (trap E) (option (Z * Z)) :=
  let! h := hash_at input pos in
  let! c := get_idx (t_head d) h in
  let! '(best_len, best_off) := find_dict_match_loop DICT_CHAIN_DEPTH input pos dict (t_chain d) c 0 0 in
  Ok (if MIN_MATCH <=? best_len then Some (best_off, best_len) else None).

(** A match: distance or offset, length, copy source. *)
Definition Match : Type := Z * Z * Z.

Definition best_match (input : bytes) (pos : Z) (dict : bytes) (t d : Tables)
  : result (trap E) (option Match) :=
  let! local := find_match input pos t in
  let! dm := find_dict_match input pos dict d in
  Ok (match local, dm with
      | Some (ld, ll), Some (dd, dl) =>
          if ll <? dl then Some (dd, dl, SRC_DICT) else Some (ld, ll, SRC_LOCAL)
      | Some (ld, ll), None => Some (ld, ll, SRC_LOCAL)
      | None, Some (dd, dl) => Some (dd, dl, SRC_DICT)
      | None, None => None
      end).

(** The candidate replaces the best match when it is strictly longer. *)
Definition take_longer (best : option Match) (m : option (Z * Z)) (source : Z) : option Match :=
  match m with
  | Some (od, ol) =>
      let better := match best with Some (_, bl, _) => bl <? ol | None => true end in
      if better then Some (od, ol, source) else best
  | None => best
  end.

Definition best_match_shared (input : bytes) (pos : Z) (file_dict shared : bytes) (t f s : Tables)
  : result (trap E) (option Match) :=
  let! local := find_match input pos t in
  let! fm := if zlen file_dict =? 0 then Ok None else find_dict_match input pos file_dict f in
  let! sm := find_dict_match input pos shared s in
  let best := match local with Some (d, l) => Some (d, l, SRC_LOCAL) | None => None end in
  let best := take_longer best fm SRC_DICT in
  Ok (take_longer best sm SRC_SHARED).

(** ** The greedy parse *)

Section Greedy.
Context (input : bytes) (search : Z -> Tables -> result (trap E) (option Match)).
(** What a copy pushes on the source stream: its source, or nothing in
    [encode_sequence], which has no such stream. *)
Context (src_bytes : Z -> bytes).

(** [while remaining > 0]: one command and one offset per 131 bytes; an
    external offset advances, a distance repeats. *)
Fixpoint emit_copies (fuel : nat) (remaining cur_off source : Z) (st : EncStreams)
  : result (trap E) EncStreams :=
  if remaining <=? 0 then Ok st else
  match fuel with
  | O => Err Panic
  | S fuel' =>
      let take := Z.min remaining MAX_COPY in
      fail_if negb ((MIN_MATCH <=? take) && (take <=? MAX_COPY)) with Panic ;;
      let st := {| es_commands := es_commands st ++ [wrap 8 (128 + take - MIN_MATCH)];
                   es_literals := es_literals st;
                   es_offsets := es_offsets st ++ to_le 2 (wrap 16 cur_off);
                   es_sources := es_sources st ++ src_bytes source |} in
      let cur_off := if source =? SRC_LOCAL then cur_off else saturating_add 64 cur_off take in
      emit_copies fuel' (remaining - take) cur_off source st
  end.

Definition search_at (pos : Z) (t : Tables) : result (trap E) (option Match) :=
  if pos + MIN_MATCH <=? zlen input then search pos t else Ok None.

(** The literal run; [todo] is [MAX_LIT_RUN - run]. *)
Fixpoint literal_scan (todo : nat) (pos : Z) (t : Tables) : result (trap E) (Z * Tables) :=
  match todo with
  | O => Ok (pos, t)
  | S todo' =>
      if zlen input <=? pos then Ok (pos, t) else
      let! m := search_at pos t in
      match m with
      | Some _ => Ok (pos, t)
      | None => let! t := register input pos t in literal_scan todo' (pos + 1) t
      end
  end.

Definition push_literals (start pos : Z) (st : EncStreams) : result (trap E) EncStreams :=
  let run := pos - start in
  if 0 <? run then
    let! s := get_slice input start pos in
    Ok {| es_commands := es_commands st ++ [wrap 8 (run - 1)];
          es_literals := es_literals st ++ s;
          es_offsets := es_offsets st; es_sources := es_sources st |}
  else Ok st.

(** A copy whose tail would be 1 to 3 bytes is shortened by the tail. *)
Definition clip (len : Z) : Z :=
  let rem := len mod MAX_COPY in
  if (0 <? rem) && (rem <? MIN_MATCH) then len - rem else len.

(** [while pos < n].  Every turn advances [pos], so the length of the input
    is enough fuel. *)
Fixpoint greedy_loop (fuel : nat) (pos : Z) (t : Tables) (st : EncStreams)
  : result (trap E) EncStreams :=
  if zlen input <=? pos then Ok st else
  match fuel with
  | O => Err Panic
  | S fuel' =>
      let! m := search_at pos t in
      match m with
      | Some (dist, len, source) =>
          let len := clip len in
          let! st := emit_copies (Z.to_nat len) len dist source st in
          let! t := register_range (Z.to_nat len) input pos t in
          greedy_loop fuel' (pos + len) t st
      | None =>
          let! '(pos', t) := literal_scan (Z.to_nat MAX_LIT_RUN) pos t in
          let! st := push_literals pos pos' st in
          greedy_loop fuel' pos' t st
      end
  end.

Definition greedy : result (trap E) EncStreams :=
  greedy_loop (length input) 0 (Tables_new (zlen input)) EncStreams_new.
End Greedy.

Definition find_local (input : bytes) (pos : Z) (t : Tables) : result (trap E) (option Match) :=
  let! m := find_match input pos t in
  Ok (match m with Some (d, l) => Some (d, l, SRC_LOCAL) | None => None end).

Definition encode_sequence (input : bytes) : result (trap E) EncStreams :=
  if zlen input =? 0 then Ok EncStreams_new else
  greedy input (find_local input) (fun _ => []).

(** The chain tables of a whole dictionary. *)
Definition dict_tables (dict : bytes) : result (trap E) Tables :=
  register_range (Z.to_nat (zlen dict - (MIN_MATCH - 1))) dict 0 (Tables_new (zlen dict)).

Definition encode_sequence_dict (input dict : bytes) : result (trap E) (option EncStreams) :=
  if (zlen input =? 0) || (zlen dict =? 0) || (MAX_DICT <? zlen dict) then Ok None else
  let! d := dict_tables dict in
  let! st := greedy input (fun pos t => best_match input pos dict t d) (fun source => [source]) in
  Ok (Some st).

Definition encode_sequence_shared (input file_dict shared : bytes)
  : result (trap E) (option EncStreams) :=
  if (zlen input =? 0) || (zlen shared =? 0) || (MAX_DICT <? zlen shared) ||
     (MAX_DICT <? zlen file_dict) then Ok None else
  let! f := dict_tables file_dict in
  let! s := dict_tables shared in
  let! st := greedy input (fun pos t => best_match_shared input pos file_dict shared t f s)
    (fun source => [source]) in
  Ok (Some st).

(** ** The deep parse *)

(** The streams with the repeat registers; [es_sources] is the lengths
    stream. *)
Record DeepState : Type := { dp_streams : EncStreams; dp_rep0 : Z; dp_rep1 : Z }.

Definition push_deep_copy (dist len : Z) (d : DeepState) : result (trap E) DeepState :=
  fail_if len <? MIN_MATCH with Panic ;;
  let st := dp_streams d in
  if (len <=? 35) && negb (dp_rep0 d =? 0) && (dist =? dp_rep0 d) then
    Ok {| dp_streams :=
            {| es_commands := es_commands st ++ [DEEP_REP0_MIN + wrap 8 (len - 4)];
               es_literals := es_literals st; es_offsets := es_offsets st;
               es_sources := es_sources st |};
          dp_rep0 := dp_rep0 d; dp_rep1 := dp_rep1 d |}
  else if (len <=? 19) && negb (dp_rep1 d =? 0) && (dist =? dp_rep1 d) then
    Ok {| dp_streams :=
            {| es_commands := es_commands st ++ [DEEP_REP1_MIN + wrap 8 (len - 4)];
               es_literals := es_literals st; es_offsets := es_offsets st;
               es_sources := es_sources st |};
          dp_rep0 := dp_rep0 d; dp_rep1 := dp_rep1 d |}
  else if len <=? 67 then
    Ok {| dp_streams :=
            {| es_commands := es_commands st ++ [DEEP_COPY_MIN + wrap 8 (len - 4)];
               es_literals := es_literals st; es_offsets := es_offsets st ++ to_le 2 (wrap 16 dist);
               es_sources := es_sources st |};
          dp_rep0 := dist; dp_rep1 := dp_rep0 d |}
  else
    let extra := len - 68 in
    Ok {| dp_streams :=
            {| es_commands := es_commands st ++ [DEEP_XCOPY];
               es_literals := es_literals st; es_offsets := es_offsets st ++ to_le 2 (wrap 16 dist);
               es_sources := es_sources st ++ to_le 2 (wrap 16 extra) |};
          dp_rep0 := dist; dp_rep1 := dp_rep0 d |}.

(** The repeat distances, [rep0] first. *)
Fixpoint rep_matches (reps : list Z) (input : bytes) (pos : Z)
  : result (trap E) (option (Z * Z)) :=
  match reps with
  | [] => Ok None
  | rep :: reps' =>
      if (rep =? 0) || (pos <? rep) then rep_matches reps' input pos else
      let! l := match_len (Z.to_nat (zlen input - pos)) input (pos - rep) input pos 0 in
      if MIN_MATCH <=? l then Ok (Some (rep, l)) else rep_matches reps' input pos
  end.

Fixpoint find_deep_loop (depth : nat) (input : bytes) (pos : Z) (chain : list Z) (c : Z)
  (best : option (Z * Z)) : result (trap E) (option (Z * Z)) :=
  match depth with
  | O => Ok best
  | S depth' =>
      if c =? U32_MAX then Ok best else
      let max_len := zlen input - pos in
      let! dist := ok_or (checked_sub pos c) Panic in
      let! l :=
        if dist <=? MAX_DIST then match_len (Z.to_nat max_len) input c input pos 0 else Ok 0 in
      let replace := (dist <=? MAX_DIST) &&
        match best with None => MIN_MATCH <=? l | Some (_, bl) => bl <? l end in
      let best := if replace then Some (dist, l) else best in
      if replace && (l =? max_len) then Ok best else
      let! c := get_idx chain c in
      find_deep_loop depth' input pos chain c best
  end.

Definition find_match_deep (input : bytes) (pos : Z) (t : Tables) (rep0 rep1 : Z)
  : result (trap E) (option (Z * Z)) :=
  let! best := rep_matches [rep0; rep1] input pos in
  let! h := hash_at input pos in
  let! c := get_idx (t_head t) h in
  find_deep_loop DEEP_CHAIN_DEPTH input pos (t_chain t) c best.

Definition search_deep (input : bytes) (pos : Z) (t : Tables) (d : DeepState)
  : result (trap E) (option (Z * Z)) :=
  if pos + MIN_MATCH <=? zlen input
  then find_match_deep input pos t (dp_rep0 d) (dp_rep1 d) else Ok None.

Fixpoint deep_literal_scan (todo : nat) (input : bytes) (pos : Z) (t : Tables) (d : DeepState)
  : result (trap E) (Z * Tables) :=
  match todo with
  | O => Ok (pos, t)
  | S todo' =>
      if zlen input <=? pos then Ok (pos, t) else
      let! m := search_deep input pos t d in
      match m with
      | Some _ => Ok (pos, t)
      | None => let! t := register input pos t in deep_literal_scan todo' input (pos + 1) t d
      end
  end.

Definition push_deep_literals (input : bytes) (start pos : Z) (d : DeepState)
  : result (trap E) DeepState :=
  let! st := push_literals input start pos (dp_streams d) in
  Ok {| dp_streams := st; dp_rep0 := dp_rep0 d; dp_rep1 := dp_rep1 d |}.

(** A match is deferred when the next position has one that is longer by at
    least [MIN_LAZY_GAIN]. *)
Fixpoint deep_loop (fuel : nat) (input : bytes) (pos : Z) (t : Tables) (d : DeepState)
  : result (trap E) DeepState :=
  if zlen input <=? pos then Ok d else
  match fuel with
  | O => Err Panic
  | S fuel' =>
      let! m := search_deep input pos t d in
      match m with
      | Some (dist, len) =>
          let! m2 := search_deep input (pos + 1) t d in
          let lazy := match m2 with Some (_, l2) => len + MIN_LAZY_GAIN <=? l2 | None => false end in
          if negb lazy then
            let! d := push_deep_copy dist len d in
            let! t := register_range (Z.to_nat len) input pos t in
            deep_loop fuel' input (pos + len) t d
          else
            let! d := push_deep_literals input pos (pos + 1) d in
            let! t := register input pos t in
            deep_loop fuel' input (pos + 1) t d
      | None =>
          let! '(pos', t) := deep_literal_scan (Z.to_nat MAX_LIT_RUN) input pos t d in
          let! d := push_deep_literals input pos pos' d in
          deep_loop fuel' input pos' t d
      end
  end.

Definition encode_sequence_deep (input : bytes) : result (trap E) (option EncStreams) :=
  if zlen input =? 0 then Ok None else
  let! d := deep_loop (length input) input 0 (Tables_new (zlen input))
    {| dp_streams := EncStreams_new; dp_rep0 := 0; dp_rep1 := 0 |} in
  Ok (Some (dp_streams d)).
End Matchers.

Example encode_sequence_ex :
  encode_sequence (E := Empty_set) [97; 98; 99; 97; 98; 99; 97; 98; 99; 100] =
  Ok {| es_commands := [2; 130; 0]; es_literals := [97; 98; 99; 100]; es_offsets := [3; 0]; es_sources := [] |}.
Proof. vm_compute. reflexivity. Qed.
