(* ===== verification/MatcherSpec.v ===== *)
(** The copy/literal parses of [rans/sequence.rs] are lossless: every
    encoder terminates without a panic, and the reference decoders of [LZ]
    rebuild the input from its streams.  A match the searches return is a
    real repetition ([match_valid]); a command denotes the bytes it was
    emitted for ([decodes]); the parse loops compose the two. *)
From S2P Require Import Prelude Binomial Codec Rank Repr Descriptor Context Streams Materialize MaterializeSafe LZ MaterializeSpec Candidate Encoders EncodersSpec Matcher.

(** * Hash chains *)

Section Chains.
Context {E : Type}.

Lemma hash_at_ok input pos :
  0 <= pos -> pos + 4 <= zlen input -> exists h, hash_at (E := E) input pos = Ok h /\ 0 <= h < 2 ^ 16.
Proof.
  intros Hp Hn. unfold hash_at. rewrite get_slice_ok by lia. cbn [rbind]. eexists. split; [done|].
  pose proof (wrap_in_width 32 (from_le (slice (Z.to_nat pos) (Z.to_nat (pos + 4 - pos)) input) * 0x9E3779B1)
    ltac:(lia)) as Hw. unfold in_width in Hw.
  rewrite Z.shiftr_div_pow2 by lia. split; [apply Z.div_pos; lia|]. apply Z.div_lt_upper_bound; lia.
Qed.

(** A chain link below [pos], or the end of a chain. *)
Definition link (pos c : Z) : Prop := c = U32_MAX \/ 0 <= c < pos.

Record tables_ok (n pos : Z) (t : Tables) : Prop := {
  tok_head : zlen (t_head t) = 2 ^ 16;
  tok_chain : zlen (t_chain t) = n;
  tok_heads : Forall (link pos) (t_head t);
  tok_links : Forall (link pos) (t_chain t)
}.

Lemma link_mono pos pos' l : pos <= pos' -> Forall (link pos) l -> Forall (link pos') l.
Proof. intros Hp. apply Forall_impl. unfold link. lia. Qed.

Lemma Tables_new_ok n : 0 <= n -> tables_ok n 0 (Tables_new n).
Proof.
  assert (Hv : forall k, Forall (link 0) (vec U32_MAX k)).
  { intros k. unfold vec. apply Forall_replicate. by left. }
  intros Hn. split; cbn [Tables_new t_head t_chain]; try apply Hv; by apply zlen_vec.
Qed.

Lemma tables_ok_mono n pos pos' t : pos <= pos' -> tables_ok n pos t -> tables_ok n pos' t.
Proof. intros Hp [? ? ? ?]. split; try done; by eapply link_mono. Qed.

Lemma get_link pos l i :
  Forall (link pos) l -> 0 <= i < zlen l -> exists c, get_idx (E := E) l i = Ok c /\ link pos c.
Proof.
  intros Hf Hi. destruct (lookup_lt_is_Some_2 l (Z.to_nat i)) as [c Hc]; [unfold zlen in Hi; lia|].
  exists c. split; [by apply get_idx_ok|]. by eapply Forall_lookup_1.
Qed.

Lemma register_ok input pos t :
  zlen input < 2 ^ 32 -> 0 <= pos < zlen input -> tables_ok (zlen input) pos t ->
  exists t', register (E := E) input pos t = Ok t' /\ tables_ok (zlen input) (pos + 1) t'.
Proof.
  intros Hn Hp Ht. assert (Hm : tables_ok (zlen input) (pos + 1) t) by (eapply tables_ok_mono; [|done]; lia).
  unfold register, MIN_MATCH. destruct (Z.leb_spec (pos + 4) (zlen input)) as [H4|]; [|by exists t].
  destruct Ht as [Hh Hc Hhs Hcs]. destruct (hash_at_ok input pos) as (h & -> & Hr); [lia..|]. cbn [rbind].
  destruct (get_link pos (t_head t) h) as (old & -> & Ho); [done | lia |]. cbn [rbind].
  rewrite set_idx_ok by lia. cbn [rbind]. rewrite set_idx_ok by lia. cbn [rbind].
  eexists. split; [done|]. rewrite wrap_small by width. destruct Hm as [_ _ Hhs' Hcs'].
  split; cbn; rewrite ?zlen_insert; try done; apply Forall_insert; try done; unfold link in *; lia.
Qed.

Lemma register_range_ok todo input pos t :
  zlen input < 2 ^ 32 -> 0 <= pos -> pos + Z.of_nat todo <= zlen input -> tables_ok (zlen input) pos t ->
  exists t', register_range (E := E) todo input pos t = Ok t' /\
    tables_ok (zlen input) (pos + Z.of_nat todo) t'.
Proof.
  intros Hn. revert pos t. induction todo as [|todo IH]; intros pos t Hp Ht Hok; cbn [register_range].
  { exists t. split; [done|]. by rewrite Z.add_0_r. }
  destruct (register_ok input pos t) as (t1 & -> & H1); [done | lia | done |]. cbn [rbind].
  destruct (IH (pos + 1) t1) as (t2 & -> & H2); [lia | lia | done |].
  exists t2. split; [done|]. by replace (pos + Z.of_nat (S todo)) with (pos + 1 + Z.of_nat todo) by lia.
Qed.

Lemma dict_tables_ok dict :
  zlen dict < 2 ^ 32 -> exists d, dict_tables (E := E) dict = Ok d /\ tables_ok (zlen dict) (zlen dict) d.
Proof.
  intros Hn. pose proof (zlen_nonneg dict). unfold dict_tables, MIN_MATCH.
  destruct (register_range_ok (Z.to_nat (zlen dict - (4 - 1))) dict 0 (Tables_new (zlen dict)))
    as (d & -> & Hd); [done | lia | lia | by apply Tables_new_ok |].
  exists d. split; [done|]. eapply tables_ok_mono; [|exact Hd]. lia.
Qed.

(** * Matches *)

(** [a] at [i] and [b] at [j] agree on [l] bytes. *)
Definition same (a : bytes) (i : Z) (b : bytes) (j l : Z) : Prop :=
  0 <= i /\ 0 <= j /\ i + l <= zlen a /\ j + l <= zlen b /\
  slice (Z.to_nat i) (Z.to_nat l) a = slice (Z.to_nat j) (Z.to_nat l) b.

Lemma slice_snoc (l : bytes) p n x :
  l !! (p + n)%nat = Some x -> slice p (S n) l = slice p n l ++ [x].
Proof.
  intros H. unfold slice.
  erewrite take_S_r; [done|]. by rewrite lookup_drop.
Qed.

Lemma match_len_ok todo a i b j l :
  same a i b j l -> 0 <= l -> i + l + Z.of_nat todo <= zlen a -> j + l + Z.of_nat todo <= zlen b ->
  exists l', match_len (E := E) todo a i b j l = Ok l' /\ l <= l' <= l + Z.of_nat todo /\ same a i b j l'.
Proof.
  revert l. induction todo as [|todo IH]; intros l Hs Hl Ha Hb; cbn [match_len].
  { exists l. split; [done|]. split; [lia | done]. }
  destruct Hs as (Hi & Hj & Hsa & Hsb & Hs).
  destruct (lookup_lt_is_Some_2 a (Z.to_nat (i + l))) as [x Hx]; [unfold zlen in Ha; lia|].
  destruct (lookup_lt_is_Some_2 b (Z.to_nat (j + l))) as [y Hy]; [unfold zlen in Hb; lia|].
  rewrite (get_idx_ok _ _ _ Hx). cbn [rbind]. rewrite (get_idx_ok _ _ _ Hy). cbn [rbind].
  destruct (Z.eqb_spec x y) as [->|].
  - destruct (IH (l + 1)) as (l' & E' & Hr & Hs'); [|lia|lia|lia|].
    + split_and!; try lia. replace (Z.to_nat (l + 1)) with (S (Z.to_nat l)) by lia.
      rewrite (slice_snoc a _ _ y), (slice_snoc b _ _ y), Hs; [done | |];
        rewrite <-Z2Nat.inj_add by lia; done.
    + exists l'. split; [done|]. split; [lia | done].
  - exists l. split; [done|]. split; [lia|]. by split_and!.
Qed.

Lemma same_zero a i b j : 0 <= i <= zlen a -> 0 <= j <= zlen b -> same a i b j 0.
Proof. intros. split_and!; try lia. done. Qed.

(** A backward match: the distance is encodable and the bytes repeat. *)
Definition local_match (input : bytes) (pos d l : Z) : Prop :=
  1 <= d <= pos /\ d <= MAX_DIST /\ same input (pos - d) input pos l.

Lemma find_match_loop_ok depth input pos chain c bl bd :
  0 <= pos <= zlen input -> zlen chain = zlen input -> Forall (link pos) chain -> link pos c ->
  (bl = 0 \/ MIN_MATCH <= bl /\ local_match input pos bd bl) ->
  exists bl' bd', find_match_loop (E := E) depth input pos chain c bl bd = Ok (bl', bd') /\
    (bl' = 0 \/ MIN_MATCH <= bl' /\ local_match input pos bd' bl').
Proof.
  intros Hp Hc Hf. revert c bl bd. induction depth as [|depth IH]; intros c bl bd Hlink Hb; cbn [find_match_loop].
  { by eexists _, _. }
  destruct (Z.eqb_spec c U32_MAX); [by eexists _, _|]. destruct Hlink as [|Hlink]; [done|]. cbv zeta.
  unfold checked_sub. pass_guard. cbn [ok_or rbind].
  destruct (get_link pos chain c) as (c' & Ec & Hc'); [done | lia |].
  destruct (Z.leb_spec (pos - c) MAX_DIST); cbn [andb].
  - destruct (match_len_ok (Z.to_nat (zlen input - pos)) input c input pos 0) as (l & -> & Hl & Hs);
      [apply same_zero; lia | lia | lia | lia |]. cbn [rbind].
    assert (Hm : MIN_MATCH <= l -> MIN_MATCH <= l /\ local_match input pos (pos - c) l).
    { intros. split; [done|]. split; [lia|]. split; [done|]. by replace (pos - (pos - c)) with c by lia. }
    destruct (Z.leb_spec MIN_MATCH l); cbn [andb]; [|rewrite Ec; cbn [rbind]; by apply IH].
    destruct (bl <? l); cbn [andb]; [|rewrite Ec; cbn [rbind]; by apply IH].
    destruct (l =? _); [eexists _, _; split; [done | right; by apply Hm]|].
    rewrite Ec. cbn [rbind]. apply IH; [done | right; by apply Hm].
  - cbn [rbind]. rewrite Ec. cbn [rbind]. by apply IH.
Qed.

Lemma find_match_ok input pos t :
  0 <= pos -> pos + MIN_MATCH <= zlen input -> tables_ok (zlen input) pos t ->
  exists m, find_match (E := E) input pos t = Ok m /\
    forall d l, m = Some (d, l) -> MIN_MATCH <= l /\ local_match input pos d l.
Proof.
  unfold MIN_MATCH. intros Hp Hn [Hh Hc Hhs Hcs]. unfold find_match.
  destruct (hash_at_ok input pos) as (h & -> & Hr); [lia..|]. cbn [rbind].
  destruct (get_link pos (t_head t) h) as (c & -> & Ho); [done | lia |]. cbn [rbind].
  destruct (find_match_loop_ok CHAIN_DEPTH input pos (t_chain t) c 0 0) as (bl & bd & -> & Hb);
    [lia | done | done | done | by left |]. cbn [rbind].
  eexists. split; [done|]. intros d l. destruct (Z.leb_spec MIN_MATCH bl); [|done]. intros. simplify_eq.
  destruct Hb as [->|Hb]; [done | exact Hb].
Qed.

Definition window_match (input : bytes) (pos : Z) (w : bytes) (off l : Z) : Prop := same w off input pos l.

Lemma find_dict_match_loop_ok depth input pos dict chain c bl bo :
  0 <= pos <= zlen input -> zlen chain = zlen dict -> Forall (link (zlen dict)) chain -> link (zlen dict) c ->
  (bl = 0 \/ MIN_MATCH <= bl /\ window_match input pos dict bo bl) ->
  exists bl' bo', find_dict_match_loop (E := E) depth input pos dict chain c bl bo = Ok (bl', bo') /\
    (bl' = 0 \/ MIN_MATCH <= bl' /\ window_match input pos dict bo' bl').
Proof.
  intros Hp Hc Hf. revert c bl bo. induction depth as [|depth IH]; intros c bl bo Hlink Hb; cbn [find_dict_match_loop].
  { by eexists _, _. }
  destruct (Z.eqb_spec c U32_MAX); [by eexists _, _|]. destruct Hlink as [|Hlink]; [done|]. cbv zeta.
  unfold checked_sub. pass_guard. cbn [ok_or rbind].
  destruct (get_link (zlen dict) chain c) as (c' & Ec & Hc'); [done | lia |].
  destruct (match_len_ok (Z.to_nat (Z.min (zlen input - pos) (zlen dict - c))) dict c input pos 0) as (l & -> & Hl & Hs);
    [apply same_zero; lia | lia | lia | lia |]. cbn [rbind].
  destruct (Z.leb_spec MIN_MATCH l); cbn [andb]; [|rewrite Ec; cbn [rbind]; by apply IH].
  destruct (bl <? l); cbn [andb]; [|rewrite Ec; cbn [rbind]; by apply IH].
  destruct (l =? _); [eexists _, _; split; [done | by right]|].
  rewrite Ec. cbn [rbind]. apply IH; [done | by right].
Qed.

Lemma find_dict_match_ok input pos dict d :
  0 <= pos -> pos + MIN_MATCH <= zlen input -> tables_ok (zlen dict) (zlen dict) d ->
  exists m, find_dict_match (E := E) input pos dict d = Ok m /\
    forall o l, m = Some (o, l) -> MIN_MATCH <= l /\ window_match input pos dict o l.
Proof.
  unfold MIN_MATCH. intros Hp Hn [Hh Hc Hhs Hcs]. unfold find_dict_match.
  destruct (hash_at_ok input pos) as (h & -> & Hr); [lia..|]. cbn [rbind].
  destruct (get_link (zlen dict) (t_head d) h) as (c & -> & Ho); [done | lia |]. cbn [rbind].
  destruct (find_dict_match_loop_ok DICT_CHAIN_DEPTH input pos dict (t_chain d) c 0 0) as (bl & bo & -> & Hb);
    [lia | done | done | done | by left |]. cbn [rbind].
  eexists. split; [done|]. intros o l. destruct (Z.leb_spec MIN_MATCH bl); [|done]. intros. simplify_eq.
  destruct Hb as [->|Hb]; [done | exact Hb].
Qed.
End Chains.

(** * What a command denotes *)

(** The decoder's configuration: its text and its repeat registers. *)
Definition config : Type := bytes * Z * Z.

(** [decodes step C L O S c c']: the commands [C], reading exactly [L], [O]
    and [S] from the front of the three other streams, take the decoder
    from [c] to [c']. *)
Definition decodes (step : Z -> LZ -> option LZ) (C L O S : bytes) (c c' : config) : Prop :=
  forall RL RO RS,
    lz_walk step C {| lz_text := c.1.1; lz_lits := L ++ RL; lz_offs := O ++ RO; lz_aux := S ++ RS;
                      lz_rep0 := c.1.2; lz_rep1 := c.2 |} =
    Some {| lz_text := c'.1.1; lz_lits := RL; lz_offs := RO; lz_aux := RS;
            lz_rep0 := c'.1.2; lz_rep1 := c'.2 |}.

Lemma lz_walk_app step C D z : lz_walk step (C ++ D) z = (z' ← lz_walk step C z; lz_walk step D z').
Proof.
  revert z. induction C as [|c C IH]; intros z; cbn [lz_walk app]; [done|].
  destruct (step c z) as [z'|]; [apply IH | done].
Qed.

Lemma decodes_app step C L O S D M P T c c' c'' :
  decodes step C L O S c c' -> decodes step D M P T c' c'' ->
  decodes step (C ++ D) (L ++ M) (O ++ P) (S ++ T) c c''.
Proof.
  intros H H' RL RO RS. rewrite lz_walk_app, <-!app_assoc, H. cbn [mbind option_bind]. apply H'.
Qed.

Lemma decodes_one step cmd L O S c c' :
  (forall RL RO RS,
    step cmd {| lz_text := c.1.1; lz_lits := L ++ RL; lz_offs := O ++ RO; lz_aux := S ++ RS;
                lz_rep0 := c.1.2; lz_rep1 := c.2 |} =
    Some {| lz_text := c'.1.1; lz_lits := RL; lz_offs := RO; lz_aux := RS;
            lz_rep0 := c'.1.2; lz_rep1 := c'.2 |}) ->
  decodes step [cmd] L O S c c'.
Proof. intros H RL RO RS. cbn [lz_walk]. by rewrite H. Qed.

(** [emits step st st' c c']: what was pushed between [st] and [st'] is bytes
    and takes the decoder from [c] to [c']. *)
Definition emits (step : Z -> LZ -> option LZ) (st st' : EncStreams) (c c' : config) : Prop :=
  exists C L O S,
    es_commands st' = es_commands st ++ C /\ es_literals st' = es_literals st ++ L /\
    es_offsets st' = es_offsets st ++ O /\ es_sources st' = es_sources st ++ S /\
    wf_bytes (C ++ O ++ S) /\ decodes step C L O S c c'.

Lemma emits_refl step st c : emits step st st c c.
Proof. exists [], [], [], []. rewrite !app_nil_r. split_and!; done || constructor. Qed.

Lemma emits_trans step st st' st'' c c' c'' :
  emits step st st' c c' -> emits step st' st'' c' c'' -> emits step st st'' c c''.
Proof.
  intros (C & L & O & S & E1 & E2 & E3 & E4 & Hw & H) (D & M & P & T & F1 & F2 & F3 & F4 & Hw' & H').
  exists (C ++ D), (L ++ M), (O ++ P), (S ++ T). rewrite F1, F2, F3, F4, E1, E2, E3, E4, !app_assoc.
  rewrite !wf_bytes_app in *. split_and!; try done; destruct_and?; rewrite ?wf_bytes_app; try done.
  by eapply decodes_app.
Qed.

(** The streams of a whole parse: bytes that decode to the input. *)
Record parse_of (step : Z -> LZ -> option LZ) (st : EncStreams) (text : bytes) : Prop := {
  po_commands : wf_bytes (es_commands st);
  po_offsets : wf_bytes (es_offsets st);
  po_sources : wf_bytes (es_sources st);
  po_decode : lz_decode step true (es_commands st) (es_literals st) (es_offsets st) (es_sources st) = Some text
}.

Lemma emits_decode step st r0 r1 text :
  emits step EncStreams_new st ([], 0, 0) (text, r0, r1) -> parse_of step st text.
Proof.
  intros (C & L & O & S & E1 & E2 & E3 & E4 & Hw & H). rewrite !wf_bytes_app in Hw. destruct Hw as (HC & HO & HS).
  split; rewrite ?E1, ?E2, ?E3, ?E4; try done. unfold lz_decode, LZ_start. cbn [app es_commands
    es_literals es_offsets es_sources EncStreams_new].
  specialize (H [] [] []). cbn in H. rewrite !app_nil_r in H. by rewrite H.
Qed.

(** ** Copies *)

Lemma take_slice (input : bytes) p l :
  (p + l <= length input)%nat -> take p input ++ slice p l input = take (p + l) input.
Proof. intros H. unfold slice. by rewrite <-(take_take_drop input p l). Qed.

Lemma self_copy_local (input : bytes) p d n :
  (1 <= d <= p)%nat -> (p + n <= length input)%nat -> slice (p - d) n input = slice p n input ->
  self_copy (take p input) d n = slice p n input.
Proof.
  revert p. induction n as [|n IH]; intros p Hd Hp Hs; [done|]. cbn [self_copy].
  destruct (lookup_lt_is_Some_2 input p) as [b Hb]; [lia|].
  destruct (lookup_lt_is_Some_2 input (p - d)%nat) as [b' Hb']; [lia|].
  assert (Hcons : forall q x, input !! q = Some x -> slice q (S n) input = x :: slice (S q) n input).
  { intros q x Hx. unfold slice. by rewrite (drop_S _ _ _ Hx). }
  rewrite (Hcons _ _ Hb), (Hcons _ _ Hb') in Hs. injection Hs as -> Hs.
  rewrite length_take_le by lia. rewrite lookup_take_lt by lia. rewrite Hb'. cbn [default].
  rewrite (Hcons _ _ Hb). f_equal. rewrite <-take_S_r by done.
  apply IH; [lia | lia |]. by replace (S p - d)%nat with (S (p - d)) by lia.
Qed.

Lemma same_split a i b j l k : 0 <= k <= l -> same a i b j l -> same a i b j k /\ same a (i + k) b (j + k) (l - k).
Proof.
  intros Hk (Hi & Hj & Ha & Hb & Hs).
  assert (Hsl : forall (x : bytes) p, 0 <= p -> slice (Z.to_nat p) (Z.to_nat k) x = take (Z.to_nat k) (slice (Z.to_nat p) (Z.to_nat l) x)).
  { intros x p Hp. unfold slice. rewrite take_take. f_equal. lia. }
  assert (Hsr : forall (x : bytes) p, 0 <= p -> slice (Z.to_nat (p + k)) (Z.to_nat (l - k)) x = drop (Z.to_nat k) (slice (Z.to_nat p) (Z.to_nat l) x)).
  { intros x p Hp. unfold slice. rewrite skipn_firstn_comm, drop_drop. f_equal; [lia|]. f_equal. lia. }
  split; split_and!; try lia; [by rewrite !Hsl, Hs by lia | by rewrite !Hsr, Hs by lia].
Qed.

Lemma lz_copy_match input pos d l z :
  local_match input pos d l -> 0 <= l -> lz_text z = take (Z.to_nat pos) input ->
  lz_copy d l z = Some {| lz_text := take (Z.to_nat (pos + l)) input; lz_lits := lz_lits z; lz_offs := lz_offs z;
    lz_aux := lz_aux z; lz_rep0 := lz_rep0 z; lz_rep1 := lz_rep1 z |}.
Proof.
  intros (Hd & _ & Hi & Hj & Ha & Hb & Hs) Hl Ht. unfold lz_copy.
  assert (Hz : zlen (lz_text z) = pos) by (rewrite Ht; unfold zlen in *; rewrite length_take_le; lia).
  rewrite Hz. pass_guard. unfold lz_append. rewrite Ht, self_copy_local; [|lia|unfold zlen in *; lia|].
  - rewrite take_slice by (unfold zlen in *; lia). by rewrite <-Z2Nat.inj_add by lia.
  - by replace (Z.to_nat pos - Z.to_nat d)%nat with (Z.to_nat (pos - d)) by lia.
Qed.

Lemma lz_window_match input pos w off l z :
  window_match input pos w off l -> 0 <= l -> lz_text z = take (Z.to_nat pos) input ->
  lz_window w off l z = Some {| lz_text := take (Z.to_nat (pos + l)) input; lz_lits := lz_lits z; lz_offs := lz_offs z;
    lz_aux := lz_aux z; lz_rep0 := lz_rep0 z; lz_rep1 := lz_rep1 z |}.
Proof.
  intros (Hi & Hj & Ha & Hb & Hs) Hl Ht. unfold lz_window. pass_guard. unfold lz_append.
  rewrite Ht, Hs, take_slice by (unfold zlen in *; lia). by rewrite <-Z2Nat.inj_add by lia.
Qed.

(** ** Literals *)

(** One literal command: any decoder that reads its byte as a run length
    less one. *)
Lemma push_literals_ok {E} input step st start pos r0 r1 :
  (forall run z, 1 <= run <= 128 -> step (run - 1) z = lz_literal run z) ->
  0 <= start <= pos -> pos <= zlen input -> pos - start <= 128 ->
  exists st', push_literals (E := E) input start pos st = Ok st' /\
    emits step st st' (firstn (Z.to_nat start) input, r0, r1) (firstn (Z.to_nat pos) input, r0, r1).
Proof.
  intros Hlit Hs Hp Hr. unfold push_literals. cbv zeta. destruct (Z.ltb_spec 0 (pos - start)).
  - rewrite get_slice_ok by lia. cbn [rbind]. eexists. split; [done|].
    set (s := slice (Z.to_nat start) (Z.to_nat (pos - start)) input).
    assert (Hz : zlen s = pos - start) by (apply zlen_slice; lia).
    exists [pos - start - 1], s, [], []. cbn. rewrite !app_nil_r, wrap_small by width. split_and!; try done.
    { repeat constructor; width. }
    apply decodes_one. intros RL RO RS. cbn [fst snd app]. rewrite Hlit by lia.
    unfold lz_literal. cbn [lz_lits lz_text lz_offs lz_aux lz_rep0 lz_rep1]. rewrite zlen_app.
    pose proof (zlen_nonneg RL). pass_guard.
    rewrite <-Hz, to_nat_zlen, take_app_length, drop_app_length. unfold s.
    rewrite take_slice by (unfold zlen in *; lia). do 3 f_equal. lia.
  - exists st. split; [done|]. replace pos with start by lia. apply emits_refl.
Qed.

(** * The greedy parse *)

(** What the greedy parse needs of a decoder: literal commands, and copy
    commands that read two offset bytes and the bytes [src_bytes] pushes,
    and copy from the text or from the source's window. *)
Record decoder_for (step : Z -> LZ -> option LZ) (src_bytes : Z -> bytes) (win : Z -> option bytes) : Prop := {
  df_src source : source = SRC_LOCAL \/ win source <> None -> wf_bytes (src_bytes source);
  df_lit run z : 1 <= run <= 128 -> step (run - 1) z = lz_literal run z;
  df_copy source off take t RL RO RS r0 r1 :
    source = SRC_LOCAL \/ win source <> None -> 4 <= take <= 131 -> 0 <= off < 2 ^ 16 ->
    step (128 + take - MIN_MATCH) {| lz_text := t; lz_lits := RL; lz_offs := to_le 2 off ++ RO;
      lz_aux := src_bytes source ++ RS; lz_rep0 := r0; lz_rep1 := r1 |} =
    let z := {| lz_text := t; lz_lits := RL; lz_offs := RO; lz_aux := RS; lz_rep0 := r0; lz_rep1 := r1 |} in
    match win source with None => lz_copy off take z | Some w => lz_window w off take z end
}.

Section Greedy.
Context {E : Type} (input : bytes) (Hn : zlen input < 2 ^ 32).
Context (step : Z -> LZ -> option LZ) (src_bytes : Z -> bytes) (win : Z -> option bytes).
Context (Hdec : decoder_for step src_bytes win).

(** [l] bytes at [pos] can be copied from [off] of [source]. *)
Definition copy_valid (pos off l source : Z) : Prop :=
  match win source with
  | None => source = SRC_LOCAL /\ local_match input pos off l
  | Some w => source <> SRC_LOCAL /\ zlen w <= 65536 /\ window_match input pos w off l
  end.

Lemma copy_valid_split pos off l source k :
  0 <= k <= l -> copy_valid pos off l source ->
  copy_valid pos off k source /\
  copy_valid (pos + k) (if source =? SRC_LOCAL then off else off + k) (l - k) source.
Proof.
  intros Hk. unfold copy_valid, local_match, window_match. destruct (win source) as [w|].
  - intros (Hs & Hw & Hm). apply (same_split _ _ _ _ _ k) in Hm as [H1 H2]; [|done]. by pass_guard.
  - intros (Hs & Hd & Hmax & Hm). apply (same_split _ _ _ _ _ k) in Hm as [H1 H2]; [|done]. pass_guard.
    split_and!; try done; try lia. by replace (pos + k - off) with (pos - off + k) by lia.
Qed.

(** Lengths that split into commands of 4 to 131 bytes. *)
Definition pieces (l : Z) : Prop := 0 <= l /\ (l mod MAX_COPY = 0 \/ MIN_MATCH <= l mod MAX_COPY).

Lemma clip_pieces l : MIN_MATCH <= l -> pieces (clip l) /\ 0 < clip l <= l.
Proof.
  unfold pieces, clip, MAX_COPY, MIN_MATCH. cbv zeta. intros Hl.
  pose proof (Z.mod_pos_bound l 131 ltac:(lia)). pose proof (Z.mod_le l 131 ltac:(lia) ltac:(lia)).
  destruct (Z.ltb_spec 0 (l mod 131)), (Z.ltb_spec (l mod 131) 4); cbn [andb]; try lia.
  assert (Hm : (l - l mod 131) mod 131 = 0).
  { rewrite Zminus_mod_idemp_r, Z.sub_diag. done. }
  assert (l mod 131 <> l) by lia. lia.
Qed.

Lemma pieces_step l : pieces l -> 0 < l -> MIN_MATCH <= Z.min l MAX_COPY /\ pieces (l - Z.min l MAX_COPY).
Proof.
  unfold pieces, MAX_COPY, MIN_MATCH. intros [H0 Hm] Hl. destruct (Z.le_gt_cases 131 l).
  - rewrite Z.min_r by lia. assert (E' : (l - 131) mod 131 = l mod 131).
    { rewrite <-(Z_mod_plus_full (l - 131) 1 131). f_equal. lia. }
    rewrite E'. lia.
  - rewrite Z.min_l by lia. rewrite Z.sub_diag, Z.mod_0_l by lia. rewrite Z.mod_small in Hm by lia. lia.
Qed.

Lemma copy_command pos off take source st r0 r1 :
  0 <= pos -> 4 <= take <= 131 -> copy_valid pos off take source ->
  emits step st
    {| es_commands := es_commands st ++ [wrap 8 (128 + take - MIN_MATCH)]; es_literals := es_literals st;
       es_offsets := es_offsets st ++ to_le 2 (wrap 16 off); es_sources := es_sources st ++ src_bytes source |}
    (firstn (Z.to_nat pos) input, r0, r1) (firstn (Z.to_nat (pos + take)) input, r0, r1).
Proof.
  intros Hp Ht Hv. exists [128 + take - MIN_MATCH], [], (to_le 2 (wrap 16 off)), (src_bytes source).
  rewrite app_nil_r. rewrite (wrap_small 8) by (unfold MIN_MATCH; width). split_and!; try done.
  { rewrite !wf_bytes_app. split_and!; [repeat constructor; unfold MIN_MATCH; width | apply to_le_wf |].
    apply (df_src _ _ _ Hdec). unfold copy_valid in Hv. destruct (win source); [by right | left; apply Hv]. }
  apply decodes_one. intros RL RO RS. cbn [fst snd app]. unfold copy_valid in Hv.
  destruct (win source) as [w|] eqn:Ew.
  - destruct Hv as (Hs & Hw & Hm). pose proof Hm as (H0 & _ & H1 & _). rewrite wrap_small by width.
    rewrite (df_copy _ _ _ Hdec); [|rewrite Ew; by right|done|lia]. cbv zeta. rewrite Ew.
    by rewrite (lz_window_match input pos w off take) by (done || lia).
  - destruct Hv as (-> & Hm). pose proof Hm as (H0 & H1 & _). unfold MAX_DIST in H1. rewrite wrap_small by width.
    rewrite (df_copy _ _ _ Hdec); [|by left|done|lia]. cbv zeta. rewrite Ew.
    by rewrite (lz_copy_match input pos off take) by (done || lia).
Qed.

Lemma emit_copies_ok fuel remaining off source st pos r0 r1 :
  pieces remaining -> remaining <= Z.of_nat fuel -> 0 <= pos -> copy_valid pos off remaining source ->
  exists st', emit_copies (E := E) src_bytes fuel remaining off source st = Ok st' /\
    emits step st st' (firstn (Z.to_nat pos) input, r0, r1) (firstn (Z.to_nat (pos + remaining)) input, r0, r1).
Proof.
  revert remaining off st pos. induction fuel as [|fuel IH]; intros remaining off st pos Hpc Hf Hp Hv;
    cbn [emit_copies]; destruct (Z.leb_spec remaining 0).
  1,3: exists st; split; [done|]; assert (remaining = 0) as -> by (destruct Hpc; lia); rewrite Z.add_0_r; apply emits_refl.
  { lia. }
  destruct (pieces_step remaining Hpc ltac:(lia)) as [Ht Hpc']. set (k := Z.min remaining MAX_COPY) in *.
  assert (Hk4 : 4 <= k <= 131 /\ k <= remaining) by (unfold MAX_COPY, MIN_MATCH in *; lia).
  cbv zeta. unfold MAX_COPY, MIN_MATCH. pass_if.
  destruct (copy_valid_split pos off remaining source k) as [Hk Hr]; [lia | done |].
  assert (Hoff : (if source =? SRC_LOCAL then off else saturating_add 64 off k) =
                 (if source =? SRC_LOCAL then off else off + k)).
  { destruct (Z.eqb_spec source SRC_LOCAL); [done|]. apply saturating_add_small. unfold copy_valid in Hk.
    destruct (win source); [|lia]. destruct Hk as (_ & Hw & Hm). destruct Hm as (_ & _ & Hm & _). lia. }
  rewrite Hoff.
  edestruct (IH (remaining - k)) as (st' & Est & Hem); [done | lia | | exact Hr |]; [lia|].
  exists st'. split; [exact Est|]. eapply emits_trans; [apply (copy_command pos off k source); [done | lia | done]|].
  replace (pos + remaining) with (pos + k + (remaining - k)) by lia. exact Hem.
Qed.

Lemma copy_valid_end pos off l source : copy_valid pos off l source -> pos + l <= zlen input.
Proof.
  unfold copy_valid, local_match, window_match, same. destruct (win source); intros; destruct_and?; lia.
Qed.

(** The contract of a match search: over good tables it returns, and what
    it returns is a repetition. *)
Definition sound_match (pos : Z) (m : option Match) : Prop :=
  match m with
  | Some (off, l, source) => MIN_MATCH <= l /\ copy_valid pos off l source
  | None => True
  end.
Definition search_ok (search : Z -> Tables -> result (trap E) (option Match)) : Prop :=
  forall pos t, 0 <= pos -> pos + MIN_MATCH <= zlen input -> tables_ok (zlen input) pos t ->
    exists m, search pos t = Ok m /\ sound_match pos m.

Context (search : Z -> Tables -> result (trap E) (option Match)) (Hsearch : search_ok search).

Lemma search_at_ok pos t :
  0 <= pos -> tables_ok (zlen input) pos t ->
  exists m, search_at input search pos t = Ok m /\ sound_match pos m.
Proof.
  intros Hp Ht. unfold search_at. destruct (Z.leb_spec (pos + MIN_MATCH) (zlen input)); [by apply Hsearch|].
  by exists None.
Qed.

Lemma literal_scan_ok todo pos t :
  0 <= pos <= zlen input -> tables_ok (zlen input) pos t ->
  exists pos' t', literal_scan input search todo pos t = Ok (pos', t') /\
    pos <= pos' <= zlen input /\ pos' - pos <= Z.of_nat todo /\ tables_ok (zlen input) pos' t' /\
    (search_at input search pos t = Ok None -> pos < zlen input -> (0 < todo)%nat -> pos < pos').
Proof.
  revert pos t. induction todo as [|todo IH]; intros pos t Hp Ht; cbn [literal_scan].
  { exists pos, t. split_and!; try done; lia. }
  destruct (Z.leb_spec (zlen input) pos); [exists pos, t; split_and!; try done; lia|].
  destruct (search_at_ok pos t) as (m & Em & _); [lia | done |]. rewrite Em. cbn [rbind].
  destruct m as [m|]; [exists pos, t; split_and!; try done; lia|].
  destruct (register_ok (E := E) input pos t) as (t1 & -> & H1); [done | lia | done |]. cbn [rbind].
  destruct (IH (pos + 1) t1) as (pos' & t' & E' & Hr & Hd & Ht' & _); [lia | done |].
  exists pos', t'. split_and!; try done; lia.
Qed.

Lemma greedy_loop_ok fuel pos t st r0 r1 :
  0 <= pos <= zlen input -> zlen input - pos <= Z.of_nat fuel -> tables_ok (zlen input) pos t ->
  exists st', greedy_loop input search src_bytes fuel pos t st = Ok st' /\
    emits step st st' (firstn (Z.to_nat pos) input, r0, r1) (input, r0, r1).
Proof.
  assert (Hend : forall p, zlen input <= p -> firstn (Z.to_nat p) input = input).
  { intros p Hp. apply take_ge. unfold zlen in Hp. lia. }
  revert pos t st. induction fuel as [|fuel IH]; intros pos t st Hp Hf Ht; cbn [greedy_loop];
    destruct (Z.leb_spec (zlen input) pos); try lia.
  1,2: exists st; split; [done|]; rewrite Hend by done; apply emits_refl.
  destruct (search_at_ok pos t) as (m & Em & Hm); [lia | done |]. rewrite Em. cbn [rbind].
  destruct m as [[[off l] source]|].
  - destruct Hm as [Hl Hv]. cbv zeta. destruct (clip_pieces l Hl) as [Hpc Hc].
    apply copy_valid_end in Hv as He.
    destruct (copy_valid_split pos off l source (clip l)) as [Hvc _]; [lia | done |].
    destruct (emit_copies_ok (Z.to_nat (clip l)) (clip l) off source st pos r0 r1) as (st1 & -> & H1);
      [done | lia | lia | done |]. cbn [rbind].
    destruct (register_range_ok (E := E) (Z.to_nat (clip l)) input pos t) as (t1 & -> & Ht1);
      [done | lia | lia | done |]. cbn [rbind]. rewrite Z2Nat.id in Ht1 by lia.
    destruct (IH (pos + clip l) t1 st1) as (st2 & -> & H2); [lia | lia | done |].
    exists st2. split; [done|]. by eapply emits_trans.
  - destruct (literal_scan_ok (Z.to_nat MAX_LIT_RUN) pos t) as (pos' & t1 & -> & Hr & Hd & Ht1 & Hprog);
      [lia | done |]. cbn [rbind]. unfold MAX_LIT_RUN in *.
    specialize (Hprog Em ltac:(lia) ltac:(lia)).
    destruct (push_literals_ok (E := E) input step st pos pos' r0 r1) as (st1 & -> & H1);
      [apply Hdec | lia..|]. cbn [rbind].
    destruct (IH pos' t1 st1) as (st2 & -> & H2); [lia | lia | done |].
    exists st2. split; [done|]. by eapply emits_trans.
Qed.

Lemma greedy_ok :
  exists st, greedy input search src_bytes = Ok st /\ parse_of step st input.
Proof.
  pose proof (zlen_nonneg input). unfold greedy.
  destruct (greedy_loop_ok (length input) 0 (Tables_new (zlen input)) EncStreams_new 0 0) as (st & -> & H1);
    [lia | unfold zlen; lia | by apply Tables_new_ok |].
  exists st. split; [done|]. by eapply emits_decode.
Qed.
End Greedy.

(** ** The three searches *)

Section Searches.
Context {E : Type} (input : bytes).

Lemma find_local_ok win :
  win SRC_LOCAL = None -> search_ok (E := E) input win (find_local input).
Proof.
  intros Hw pos t Hp Hn Ht. unfold find_local. destruct (find_match_ok (E := E) input pos t) as (m & -> & Hm); [done..|].
  cbn [rbind]. eexists. split; [done|]. destruct m as [[d l]|]; [|done]. destruct (Hm d l eq_refl) as [Hl Hd].
  split; [done|]. unfold copy_valid. by rewrite Hw.
Qed.

Lemma best_match_ok dict d win :
  win SRC_LOCAL = None -> win SRC_DICT = Some dict -> zlen dict <= 65536 ->
  tables_ok (zlen dict) (zlen dict) d -> search_ok (E := E) input win (fun pos t => best_match input pos dict t d).
Proof.
  intros Hwl Hwd Hd Hdt pos t Hp Hn Ht. unfold best_match.
  destruct (find_match_ok (E := E) input pos t) as (m & -> & Hm); [done..|]. cbn [rbind].
  destruct (find_dict_match_ok (E := E) input pos dict d) as (m' & -> & Hm'); [done..|]. cbn [rbind].
  eexists. split; [done|].
  destruct m as [[ld ll]|]; [destruct (Hm ld ll eq_refl)|]; (destruct m' as [[dd dl]|]; [destruct (Hm' dd dl eq_refl)|]);
    try case_match; cbn [sound_match]; unfold copy_valid; rewrite ?Hwl, ?Hwd; done.
Qed.

Lemma take_longer_ok win pos best m source :
  sound_match input win pos best ->
  (forall o l, m = Some (o, l) -> MIN_MATCH <= l /\ copy_valid input win pos o l source) ->
  sound_match input win pos (take_longer best m source).
Proof.
  intros Hb Hm. unfold take_longer. destruct m as [[o l]|]; [|done].
  destruct (match best with Some _ => _ | None => _ end); [by apply Hm | done].
Qed.

Lemma best_match_shared_ok file shared f s win :
  win SRC_LOCAL = None -> win SRC_DICT = Some file -> win SRC_SHARED = Some shared ->
  zlen file <= 65536 -> zlen shared <= 65536 ->
  tables_ok (zlen file) (zlen file) f -> tables_ok (zlen shared) (zlen shared) s ->
  search_ok (E := E) input win (fun pos t => best_match_shared input pos file shared t f s).
Proof.
  intros Hwl Hwf Hws Hf Hs Hft Hst pos t Hp Hn Ht. unfold best_match_shared.
  destruct (find_match_ok (E := E) input pos t) as (m & -> & Hm); [done..|]. cbn [rbind].
  destruct (find_dict_match_ok (E := E) input pos file f) as (mf & Ef & Hmf); [done..|].
  destruct (find_dict_match_ok (E := E) input pos shared s) as (ms & Es & Hms); [done..|].
  assert (exists m', (if zlen file =? 0 then Ok None else find_dict_match (E := E) input pos file f) = Ok m' /\
    forall o l, m' = Some (o, l) -> MIN_MATCH <= l /\ window_match input pos file o l) as (mf' & -> & Hmf').
  { destruct (zlen file =? 0); [by exists None | by exists mf]. }
  cbn [rbind]. rewrite Es. cbn [rbind]. cbv zeta. eexists. split; [done|].
  apply take_longer_ok; [apply take_longer_ok|].
  - destruct m as [[d l]|]; [|done]. destruct (Hm d l eq_refl). cbn [sound_match]. unfold copy_valid. by rewrite Hwl.
  - intros o l E'. destruct (Hmf' o l E'). unfold copy_valid. by rewrite Hwf.
  - intros o l E'. destruct (Hms o l E'). unfold copy_valid. by rewrite Hws.
Qed.
End Searches.

(** ** The three decoders *)

Definition no_window (source : Z) : option bytes := None.
Definition dict_window (dict : bytes) (source : Z) : option bytes :=
  if source =? SRC_DICT then Some dict else None.
Definition shared_window (dict shared : bytes) (source : Z) : option bytes :=
  if source =? SRC_DICT then Some dict else if source =? SRC_SHARED then Some shared else None.

Lemma lz_offset_read off t L RO A r0 r1 :
  0 <= off < 2 ^ 16 ->
  lz_offset 2 {| lz_text := t; lz_lits := L; lz_offs := to_le 2 off ++ RO; lz_aux := A; lz_rep0 := r0; lz_rep1 := r1 |} =
  Some (off, {| lz_text := t; lz_lits := L; lz_offs := RO; lz_aux := A; lz_rep0 := r0; lz_rep1 := r1 |}).
Proof.
  intros Ho. unfold lz_offset. cbn [lz_text lz_lits lz_offs lz_aux lz_rep0 lz_rep1].
  pose proof (length_to_le 2 off) as Hl. rewrite length_app, Hl. cbn [Nat.add Nat.ltb Nat.leb].
  rewrite take_app_le, take_ge, drop_app_le, drop_ge by lia. by rewrite from_le_to_le.
Qed.

Lemma lz_fourth_read2 v t L O RS r0 r1 :
  0 <= v < 2 ^ 16 ->
  lz_fourth 2 {| lz_text := t; lz_lits := L; lz_offs := O; lz_aux := to_le 2 v ++ RS; lz_rep0 := r0; lz_rep1 := r1 |} =
  Some (v, {| lz_text := t; lz_lits := L; lz_offs := O; lz_aux := RS; lz_rep0 := r0; lz_rep1 := r1 |}).
Proof.
  intros Ho. unfold lz_fourth. cbn [lz_text lz_lits lz_offs lz_aux lz_rep0 lz_rep1].
  pose proof (length_to_le 2 v) as Hl. rewrite length_app, Hl. cbn [Nat.add Nat.ltb Nat.leb].
  rewrite take_app_le, take_ge, drop_app_le, drop_ge by lia. by rewrite from_le_to_le.
Qed.

Lemma lz_fourth_read1 v t L O RS r0 r1 :
  lz_fourth 1 {| lz_text := t; lz_lits := L; lz_offs := O; lz_aux := [v] ++ RS; lz_rep0 := r0; lz_rep1 := r1 |} =
  Some (v, {| lz_text := t; lz_lits := L; lz_offs := O; lz_aux := RS; lz_rep0 := r0; lz_rep1 := r1 |}).
Proof.
  unfold lz_fourth. cbn [lz_text lz_lits lz_offs lz_aux lz_rep0 lz_rep1].
  change (take 1 ([v] ++ RS)) with [v]. change (drop 1 ([v] ++ RS)) with RS.
  assert (from_le [v] = v) as -> by (unfold from_le; cbn [fold_right]; lia). done.
Qed.

Lemma source_byte dict shared source :
  source = SRC_LOCAL \/ shared_window dict shared source <> None -> wf_bytes [source].
Proof.
  intros Hs. apply Forall_singleton. unfold shared_window in Hs.
  destruct (Z.eqb_spec source SRC_DICT) as [E|]; [by rewrite E|].
  destruct (Z.eqb_spec source SRC_SHARED) as [E|]; [by rewrite E|].
  destruct Hs as [E|Hs]; [by rewrite E | by destruct Hs].
Qed.

Lemma sequence_decoder : decoder_for lz_sequence (fun _ => []) no_window.
Proof.
  split; [constructor| |].
  - intros run z Hr. unfold lz_sequence. pass_guard. f_equal. lia.
  - intros source off take t RL RO RS r0 r1 Hs Ht Ho. unfold lz_sequence, MIN_MATCH, no_window. cbn [app].
    pass_guard. rewrite lz_offset_read by done. cbn. f_equal. lia.
Qed.

Lemma dict_decoder dict : decoder_for (lz_dict dict) (fun source => [source]) (dict_window dict).
Proof.
  split.
  - intros source Hs. apply (source_byte dict []). destruct Hs as [|Hs]; [by left | right].
    unfold dict_window, shared_window in *. by destruct (source =? SRC_DICT).
  - intros run z Hr. unfold lz_dict. pass_guard. f_equal. lia.
  - intros source off take t RL RO RS r0 r1 Hs Ht Ho. unfold lz_dict, MIN_MATCH, dict_window in *.
    pass_guard. rewrite lz_fourth_read1. cbn [mbind option_bind]. rewrite lz_offset_read by done.
    cbn [mbind option_bind]. replace (128 + take - 4 - 124) with take by lia. cbv zeta.
    destruct (Z.eqb_spec source SRC_DICT) as [->|]; [done|]. by destruct Hs as [->|].
Qed.

Lemma shared_decoder dict shared :
  decoder_for (lz_shared dict shared) (fun source => [source]) (shared_window dict shared).
Proof.
  split; [by apply source_byte | |].
  - intros run z Hr. unfold lz_shared. pass_guard. f_equal. lia.
  - intros source off take t RL RO RS r0 r1 Hs Ht Ho. unfold lz_shared, MIN_MATCH, shared_window in *.
    pass_guard. rewrite lz_fourth_read1. cbn [mbind option_bind]. rewrite lz_offset_read by done.
    cbn [mbind option_bind]. replace (128 + take - 4 - 124) with take by lia. cbv zeta.
    destruct (Z.eqb_spec source SRC_DICT) as [->|]; [done|].
    destruct (Z.eqb_spec source SRC_SHARED) as [->|]; [done|]. by destruct Hs as [->|].
Qed.

(** ** The encoders *)

(** The final check of a command walk over an output buffer of the text's
    length, with a budget for it. *)
Definition walk_rebuilds (step : Z -> Walk -> outcome Walk) (st : EncStreams) (text : bytes) : Prop :=
  forall msg out budget, zlen out = zlen text -> zlen text <= budget ->
    rbind (walk step (es_commands st) (Walk_start out budget)) (finish_walk msg (es_literals st)) =
    Ok (text, budget - zlen text).

Lemma parse_of_rebuilds step zstep st text :
  (forall cmd w z, is_u8 cmd -> sim (es_literals st) (es_offsets st) (es_sources st) w z ->
     simulates (es_literals st) (es_offsets st) (es_sources st) w z (step cmd w) (zstep cmd z)) ->
  (forall cmd, grows (zstep cmd)) -> parse_of zstep st text -> walk_rebuilds step st text.
Proof. intros Hs Hg [HC HO HA Hd] msg out budget Ho Hb. by eapply lz_walk_succeeds. Qed.

(** C38. [encode_sequence] is total and lossless: the parse of every chunk
    below 4 GiB ends without a panic, and the interpreter's SEQUENCE command
    walk over the streams it emits rebuilds exactly the chunk, reads every
    literal, and charges the budget the chunk's length. *)
Theorem encode_sequence_lossless {E} input :
  zlen input < 2 ^ 32 ->
  exists st, encode_sequence (E := E) input = Ok st /\
    walk_rebuilds (step_sequence (es_literals st) (es_offsets st)) st input.
Proof.
  intros Hn. unfold encode_sequence. destruct (Z.eqb_spec (zlen input) 0) as [H0|].
  - assert (input = []) as -> by (destruct input; [done | rewrite zlen_cons in H0; pose proof (zlen_nonneg input); lia]).
    eexists. split; [done|]. eapply parse_of_rebuilds; [|apply lz_sequence_grows|by split; try constructor].
    intros. apply step_sequence_sim; done || constructor.
  - destruct (greedy_ok (E := E) input Hn lz_sequence (fun _ => []) no_window sequence_decoder (find_local input))
      as (st & -> & Hst); [by apply find_local_ok|].
    eexists. split; [done|]. eapply parse_of_rebuilds; [|apply lz_sequence_grows|done].
    intros. destruct Hst. by apply step_sequence_sim.
Qed.

Lemma encode_sequence_lossless_witness :
  exists st, encode_sequence (E := Empty_set) [97; 98; 99; 97; 98; 99; 97; 98; 99; 100] = Ok st /\
    walk_rebuilds (step_sequence (es_literals st) (es_offsets st)) st [97; 98; 99; 97; 98; 99; 97; 98; 99; 100].
Proof. apply encode_sequence_lossless. vm_compute. reflexivity. Defined.

(** [encode_sequence_dict] is lossless: for a non-empty chunk below 4 GiB
    and a non-empty dictionary of at most 64 KiB the parse against both
    ends without a panic, and the interpreter's SEQUENCE_DICT walk, given
    the same dictionary, rebuilds exactly the chunk; for any other input
    it declines. *)
Theorem encode_sequence_dict_lossless {E} input dict :
  zlen input < 2 ^ 32 ->
  if (zlen input =? 0) || (zlen dict =? 0) || (MAX_DICT <? zlen dict)
  then encode_sequence_dict (E := E) input dict = Ok None
  else exists st, encode_sequence_dict (E := E) input dict = Ok (Some st) /\
    walk_rebuilds (step_dict (es_literals st) (es_offsets st) (es_sources st) dict) st input.
Proof.
  intros Hn. unfold encode_sequence_dict. destruct (_ || _ || _) eqn:Hg; [done|].
  unfold MAX_DICT in Hg. bools.
  destruct (dict_tables_ok (E := E) dict) as (d & -> & Hd); [lia|]. cbn [rbind].
  destruct (greedy_ok (E := E) input Hn (lz_dict dict) (fun s => [s]) (dict_window dict) (dict_decoder dict)
    (fun pos t => best_match input pos dict t d)) as (st & -> & Hst);
    [by apply best_match_ok; try lia|]. cbn [rbind].
  eexists. split; [done|]. eapply parse_of_rebuilds; [|apply lz_dict_grows|done].
  intros. destruct Hst. by apply step_dict_sim.
Qed.

Lemma encode_sequence_dict_lossless_witness :
  exists st, encode_sequence_dict (E := Empty_set) [1; 2; 3; 4; 5; 9] [0; 1; 2; 3; 4; 5] = Ok (Some st) /\
    walk_rebuilds (step_dict (es_literals st) (es_offsets st) (es_sources st) [0; 1; 2; 3; 4; 5]) st
      [1; 2; 3; 4; 5; 9].
Proof.
  apply (encode_sequence_dict_lossless (E := Empty_set) [1; 2; 3; 4; 5; 9] [0; 1; 2; 3; 4; 5]).
  vm_compute. reflexivity.
Defined.

(** [encode_sequence_shared] is lossless: with a shared dictionary and an
    optional file dictionary of at most 64 KiB each, the parse of a
    non-empty chunk below 4 GiB ends without a panic, and the interpreter's
    SEQUENCE_SHARED_DICT walk rebuilds exactly the chunk; for any other
    input it declines. *)
Theorem encode_sequence_shared_lossless {E} input file_dict shared :
  zlen input < 2 ^ 32 ->
  if (zlen input =? 0) || (zlen shared =? 0) || (MAX_DICT <? zlen shared) || (MAX_DICT <? zlen file_dict)
  then encode_sequence_shared (E := E) input file_dict shared = Ok None
  else exists st, encode_sequence_shared (E := E) input file_dict shared = Ok (Some st) /\
    walk_rebuilds (step_shared (es_literals st) (es_offsets st) (es_sources st) file_dict shared) st input.
Proof.
  intros Hn. unfold encode_sequence_shared. destruct (_ || _ || _ || _) eqn:Hg; [done|].
  unfold MAX_DICT in Hg. bools.
  destruct (dict_tables_ok (E := E) file_dict) as (f & -> & Hf); [lia|]. cbn [rbind].
  destruct (dict_tables_ok (E := E) shared) as (s & -> & Hs); [lia|]. cbn [rbind].
  destruct (greedy_ok (E := E) input Hn (lz_shared file_dict shared) (fun s => [s])
    (shared_window file_dict shared) (shared_decoder file_dict shared)
    (fun pos t => best_match_shared input pos file_dict shared t f s)) as (st & -> & Hst);
    [by apply best_match_shared_ok; try lia|]. cbn [rbind].
  eexists. split; [done|]. eapply parse_of_rebuilds; [|apply lz_shared_grows|done].
  intros. destruct Hst. by apply step_shared_sim.
Qed.

Lemma encode_sequence_shared_lossless_witness :
  exists st, encode_sequence_shared (E := Empty_set) [1; 2; 3; 4; 7; 6; 5; 4] [] [4; 7; 6; 5; 4] = Ok (Some st) /\
    walk_rebuilds (step_shared (es_literals st) (es_offsets st) (es_sources st) [] [4; 7; 6; 5; 4]) st
      [1; 2; 3; 4; 7; 6; 5; 4].
Proof.
  apply (encode_sequence_shared_lossless (E := Empty_set) [1; 2; 3; 4; 7; 6; 5; 4] [] [4; 7; 6; 5; 4]).
  vm_compute. reflexivity.
Defined.
