(* ===== verification/DeepSpec.v ===== *)
(** The deep parse of [rans/sequence.rs] ([encode_sequence_deep]): its
    searches return repetitions, its commands track the decoder's repeat
    registers, and the parse decodes to the chunk as long as no match
    overflows the 16-bit extra length of an XCOPY. *)
From S2P Require Import Prelude Binomial Codec Rank Repr Descriptor Context Streams Materialize MaterializeSafe LZ MaterializeSpec Candidate Encoders EncodersSpec Matcher MatcherSpec.

(** The longest match one command can carry: 68 bytes and a 16-bit extra
    length. *)
Definition MAX_DEEP_COPY : Z := 68 + 65535.

Section Deep.
Context {E : Type} (input : bytes).

(** A repeat register is unset or an encodable distance. *)
Definition rep_ok (r : Z) : Prop := 0 <= r <= MAX_DIST.

Definition deep_match (pos : Z) (m : option (Z * Z)) : Prop :=
  match m with Some (d, l) => MIN_MATCH <= l /\ local_match input pos d l | None => True end.

Lemma rep_matches_ok reps pos :
  0 <= pos <= zlen input -> Forall rep_ok reps ->
  exists m, rep_matches (E := E) reps input pos = Ok m /\ deep_match pos m.
Proof.
  intros Hp. induction 1 as [|rep reps Hr _ IH]; cbn [rep_matches]; [by exists None|].
  destruct ((rep =? 0) || (pos <? rep)) eqn:Hg; [exact IH|]. bools. unfold rep_ok in Hr.
  destruct (match_len_ok (E := E) (Z.to_nat (zlen input - pos)) input (pos - rep) input pos 0) as (l & -> & Hl & Hs);
    [apply same_zero; lia | lia | lia | lia |]. cbn [rbind].
  destruct (Z.leb_spec MIN_MATCH l); [|exact IH].
  eexists. split; [done|]. split; [done|]. split; [lia|]. by split; [lia|].
Qed.

Lemma find_deep_loop_ok depth pos chain c best :
  0 <= pos <= zlen input -> zlen chain = zlen input -> Forall (link pos) chain -> link pos c ->
  deep_match pos best ->
  exists m, find_deep_loop (E := E) depth input pos chain c best = Ok m /\ deep_match pos m.
Proof.
  intros Hp Hc Hf. revert c best. induction depth as [|depth IH]; intros c best Hlink Hb; cbn [find_deep_loop].
  { by exists best. }
  destruct (Z.eqb_spec c U32_MAX); [by exists best|]. destruct Hlink as [|Hlink]; [done|]. cbv zeta.
  unfold checked_sub. pass_guard. cbn [ok_or rbind].
  destruct (get_link (E := E) pos chain c) as (c' & Ec & Hc'); [done | lia |].
  destruct (Z.leb_spec (pos - c) MAX_DIST); cbn [andb]; [|cbn [rbind]; rewrite Ec; cbn [rbind]; by apply IH].
  destruct (match_len_ok (E := E) (Z.to_nat (zlen input - pos)) input c input pos 0) as (l & -> & Hl & Hs);
    [apply same_zero; lia | lia | lia | lia |]. cbn [rbind].
  assert (Hm : MIN_MATCH <= l -> deep_match pos (Some (pos - c, l))).
  { intros. split; [done|]. split; [lia|]. split; [done|]. by replace (pos - (pos - c)) with c by lia. }
  destruct (match best with None => MIN_MATCH <=? l | Some (_, bl) => bl <? l end) eqn:Hr; cbn [andb].
  - assert (Hl4 : MIN_MATCH <= l) by (destruct best as [[bd bl]|]; [destruct Hb|]; bools; lia).
    destruct (l =? _); [eexists; split; [done | by apply Hm]|]. rewrite Ec. cbn [rbind]. apply IH; [done | by apply Hm].
  - rewrite Ec. cbn [rbind]. by apply IH.
Qed.

Lemma search_deep_ok pos t d :
  0 <= pos -> tables_ok (zlen input) pos t -> rep_ok (dp_rep0 d) -> rep_ok (dp_rep1 d) ->
  exists m, search_deep (E := E) input pos t d = Ok m /\ deep_match pos m.
Proof.
  intros Hp [Hh Hc Hhs Hcs] H0 H1. unfold search_deep. unfold MIN_MATCH at 1.
  destruct (Z.leb_spec (pos + 4) (zlen input)); [|by exists None]. unfold find_match_deep.
  destruct (rep_matches_ok [dp_rep0 d; dp_rep1 d] pos) as (m & -> & Hm); [lia | by repeat apply Forall_cons_2 |]. cbn [rbind].
  destruct (hash_at_ok (E := E) input pos) as (h & -> & Hr); [lia..|]. cbn [rbind].
  destruct (get_link (E := E) pos (t_head t) h) as (c & -> & Ho); [done | lia |]. cbn [rbind].
  apply find_deep_loop_ok; done || lia.
Qed.

(** The parse's registers are the decoder's. *)
Definition deep_config (pos : Z) (d : DeepState) : config :=
  (firstn (Z.to_nat pos) input, dp_rep0 d, dp_rep1 d).

Definition emits_deep (d d' : DeepState) (pos pos' : Z) : Prop :=
  emits lz_deep (dp_streams d) (dp_streams d') (deep_config pos d) (deep_config pos' d').

(** One command. *)
Lemma emits_push cmd O S r0 r1 d pos pos' :
  is_u8 cmd -> wf_bytes O -> wf_bytes S ->
  (forall RL RO RS,
    lz_deep cmd {| lz_text := firstn (Z.to_nat pos) input; lz_lits := RL; lz_offs := O ++ RO; lz_aux := S ++ RS;
                   lz_rep0 := dp_rep0 d; lz_rep1 := dp_rep1 d |} =
    Some {| lz_text := firstn (Z.to_nat pos') input; lz_lits := RL; lz_offs := RO; lz_aux := RS;
            lz_rep0 := r0; lz_rep1 := r1 |}) ->
  emits_deep d
    {| dp_streams := {| es_commands := es_commands (dp_streams d) ++ [cmd]; es_literals := es_literals (dp_streams d);
                        es_offsets := es_offsets (dp_streams d) ++ O; es_sources := es_sources (dp_streams d) ++ S |};
       dp_rep0 := r0; dp_rep1 := r1 |} pos pos'.
Proof.
  intros Hc HO HS H. exists [cmd], [], O, S. rewrite app_nil_r. split_and!; try done.
  - rewrite !wf_bytes_app. split_and!; try done. by apply Forall_singleton.
  - apply decodes_one. intros RL RO RS. apply H.
Qed.

Lemma push_deep_copy_ok pos dist len d :
  0 <= pos -> MIN_MATCH <= len <= MAX_DEEP_COPY -> local_match input pos dist len ->
  rep_ok (dp_rep0 d) -> rep_ok (dp_rep1 d) ->
  exists d', push_deep_copy (E := E) dist len d = Ok d' /\ rep_ok (dp_rep0 d') /\ rep_ok (dp_rep1 d') /\
    emits_deep d d' pos (pos + len).
Proof.
  unfold MIN_MATCH, MAX_DEEP_COPY. intros Hp Hl Hm H0 H1. unfold push_deep_copy, MIN_MATCH.
  pass_guard. cbv zeta.
  assert (Hd : rep_ok dist) by (destruct Hm as (? & ? & _); split; lia).
  assert (Hd16 : 0 <= dist < 2 ^ 16) by (unfold rep_ok, MAX_DIST in Hd; lia).
  assert (Hcopy := lz_copy_match input pos dist len). specialize (fun z => Hcopy z Hm ltac:(lia)).
  rewrite (wrap_small 16 dist) by width.
  destruct ((len <=? 35) && _ && _) eqn:E0; [|destruct ((len <=? 19) && _ && _) eqn:E1; [|destruct (Z.leb_spec len 67)]];
    bools; rewrite ?(wrap_small 8), ?(wrap_small 16) by width;
    eexists; (split; [done|]); (split; [done|]); (split; [done|]).
  - pose proof (emits_push (DEEP_REP0_MIN + (len - 4)) [] [] (dp_rep0 d) (dp_rep1 d) d pos (pos + len)) as He.
    rewrite !app_nil_r in He. unfold DEEP_REP0_MIN in *. apply He; [width | constructor | constructor |].
    intros RL RO RS. cbn [app]. unfold lz_deep. repeat pass_guard. cbn [lz_rep0].
    replace (192 + (len - 4) - 188) with len by lia. replace (dp_rep0 d) with dist by lia. by rewrite Hcopy.
  - pose proof (emits_push (DEEP_REP1_MIN + (len - 4)) [] [] (dp_rep0 d) (dp_rep1 d) d pos (pos + len)) as He.
    rewrite !app_nil_r in He. unfold DEEP_REP1_MIN in *. apply He; [width | constructor | constructor |].
    intros RL RO RS. cbn [app]. unfold lz_deep. repeat pass_guard. cbn [lz_rep1].
    replace (224 + (len - 4) - 220) with len by lia. replace (dp_rep1 d) with dist by lia. by rewrite Hcopy.
  - pose proof (emits_push (DEEP_COPY_MIN + (len - 4)) (to_le 2 dist) [] dist (dp_rep0 d) d pos (pos + len)) as He.
    rewrite !app_nil_r in He. unfold DEEP_COPY_MIN in *. apply He; [width | apply to_le_wf | constructor |].
    intros RL RO RS. cbn [app]. unfold lz_deep. repeat pass_guard. rewrite lz_offset_read by done.
    cbn [mbind option_bind]. replace (128 + (len - 4) - 124) with len by lia. by rewrite Hcopy.
  - apply emits_push; [unfold DEEP_XCOPY; width | apply to_le_wf | apply to_le_wf |].
    intros RL RO RS. unfold lz_deep, DEEP_XCOPY. repeat pass_guard.
    rewrite lz_fourth_read2 by lia. cbn [mbind option_bind]. rewrite lz_offset_read by done.
    cbn [mbind option_bind]. replace (68 + (len - 68)) with len by lia. by rewrite Hcopy.
Qed.

Lemma push_deep_literals_ok start pos d :
  0 <= start <= pos -> pos <= zlen input -> pos - start <= 128 ->
  exists d', push_deep_literals (E := E) input start pos d = Ok d' /\
    dp_rep0 d' = dp_rep0 d /\ dp_rep1 d' = dp_rep1 d /\ emits_deep d d' start pos.
Proof.
  intros Hs Hp Hr. unfold push_deep_literals.
  destruct (push_literals_ok (E := E) input lz_deep (dp_streams d) start pos (dp_rep0 d) (dp_rep1 d))
    as (st & -> & H); [|done..|].
  { intros run z H. unfold lz_deep. pass_guard. f_equal. lia. }
  cbn [rbind]. eexists. split; [done|]. split; [done|]. split; [done|]. exact H.
Qed.

Lemma deep_literal_scan_ok todo pos t d :
  zlen input < 2 ^ 32 -> 0 <= pos <= zlen input -> tables_ok (zlen input) pos t ->
  rep_ok (dp_rep0 d) -> rep_ok (dp_rep1 d) ->
  exists pos' t', deep_literal_scan (E := E) todo input pos t d = Ok (pos', t') /\
    pos <= pos' <= zlen input /\ pos' - pos <= Z.of_nat todo /\ tables_ok (zlen input) pos' t' /\
    (search_deep (E := E) input pos t d = Ok None -> pos < zlen input -> (0 < todo)%nat -> pos < pos').
Proof.
  intros Hn. revert pos t. induction todo as [|todo IH]; intros pos t Hp Ht H0 H1; cbn [deep_literal_scan].
  { exists pos, t. split_and!; try done; lia. }
  destruct (Z.leb_spec (zlen input) pos); [exists pos, t; split_and!; try done; lia|].
  destruct (search_deep_ok pos t d) as (m & Em & _); [lia | done..|]. rewrite Em. cbn [rbind].
  destruct m as [m|]; [exists pos, t; split_and!; try done; lia|].
  destruct (register_ok (E := E) input pos t) as (t1 & -> & Ht1); [done | lia | done |]. cbn [rbind].
  destruct (IH (pos + 1) t1) as (pos' & t' & E' & Hr & Hd & Ht' & _); [lia | done..|].
  exists pos', t'. split_and!; try done; lia.
Qed.

Lemma emits_deep_trans d d' d'' pos pos' pos'' :
  emits_deep d d' pos pos' -> emits_deep d' d'' pos' pos'' -> emits_deep d d'' pos pos''.
Proof. apply emits_trans. Qed.

Lemma deep_loop_ok fuel pos t d :
  zlen input <= MAX_DEEP_COPY + 1 -> 0 <= pos <= zlen input -> zlen input - pos <= Z.of_nat fuel ->
  tables_ok (zlen input) pos t -> rep_ok (dp_rep0 d) -> rep_ok (dp_rep1 d) ->
  exists d', deep_loop (E := E) fuel input pos t d = Ok d' /\ emits_deep d d' pos (zlen input).
Proof.
  unfold MAX_DEEP_COPY. intros Hn. revert pos t d. induction fuel as [|fuel IH]; intros pos t d Hp Hf Ht H0 H1;
    cbn [deep_loop]; destruct (Z.leb_spec (zlen input) pos); try lia.
  1,2: exists d; split; [done|]; assert (pos = zlen input) as -> by lia; apply emits_refl.
  destruct (search_deep_ok pos t d) as (m & Em & Hm); [lia | done..|]. rewrite Em. cbn [rbind].
  destruct m as [[dist len]|].
  - destruct Hm as [Hl Hm]. destruct (search_deep_ok (pos + 1) t d) as (m2 & -> & _);
      [lia | by eapply tables_ok_mono; [|done]; lia | done..|]. cbn [rbind]. cbv zeta.
    pose proof Hm as (Hd & _ & _ & _ & _ & He & _). unfold MIN_MATCH in Hl.
    destruct (match m2 with Some _ => _ | None => _ end); cbn [negb].
    + destruct (push_deep_literals_ok pos (pos + 1) d) as (d1 & -> & E0 & E1 & Hem); [lia..|]. cbn [rbind].
      destruct (register_ok (E := E) input pos t) as (t1 & -> & Ht1); [lia | lia | done |]. cbn [rbind].
      destruct (IH (pos + 1) t1 d1) as (d2 & -> & Hem2); [lia | lia | done | by rewrite E0 | by rewrite E1 |].
      exists d2. split; [done|]. by eapply emits_deep_trans.
    + destruct (push_deep_copy_ok pos dist len d) as (d1 & -> & H0' & H1' & Hem);
        [lia | unfold MIN_MATCH, MAX_DEEP_COPY; lia | done..|]. cbn [rbind].
      destruct (register_range_ok (E := E) (Z.to_nat len) input pos t) as (t1 & -> & Ht1); [lia | lia | lia | done |].
      cbn [rbind]. rewrite Z2Nat.id in Ht1 by lia.
      destruct (IH (pos + len) t1 d1) as (d2 & -> & Hem2); [lia | lia | done..|].
      exists d2. split; [done|]. by eapply emits_deep_trans.
  - destruct (deep_literal_scan_ok (Z.to_nat MAX_LIT_RUN) pos t d) as (pos' & t1 & -> & Hr & Hd & Ht1 & Hprog);
      [lia | lia | done..|]. cbn [rbind]. unfold MAX_LIT_RUN in *. specialize (Hprog Em ltac:(lia) ltac:(lia)).
    destruct (push_deep_literals_ok pos pos' d) as (d1 & -> & E0 & E1 & Hem); [lia..|]. cbn [rbind].
    destruct (IH pos' t1 d1) as (d2 & -> & Hem2); [lia | lia | done | by rewrite E0 | by rewrite E1 |].
    exists d2. split; [done|]. by eapply emits_deep_trans.
Qed.
End Deep.

(** [encode_sequence_deep] is lossless up to 65,604 bytes: the deep parse
    of every non-empty chunk of that size ends without a panic, and the
    interpreter's SEQUENCE_DEEP walk, which keeps its own repeat registers,
    rebuilds exactly the chunk.  The empty chunk is declined. *)
Theorem encode_sequence_deep_lossless {E} input :
  zlen input <= MAX_DEEP_COPY + 1 ->
  if zlen input =? 0 then encode_sequence_deep (E := E) input = Ok None
  else exists st, encode_sequence_deep (E := E) input = Ok (Some st) /\
    walk_rebuilds (step_deep (es_literals st) (es_offsets st) (es_sources st)) st input.
Proof.
  intros Hn. pose proof (zlen_nonneg input). unfold encode_sequence_deep. destruct (Z.eqb_spec (zlen input) 0); [done|].
  destruct (deep_loop_ok (E := E) input (length input) 0 (Tables_new (zlen input))
    {| dp_streams := EncStreams_new; dp_rep0 := 0; dp_rep1 := 0 |}) as (d & -> & H1);
    [done | lia | unfold zlen; lia | by apply Tables_new_ok | done..|]. cbn [rbind].
  eexists. split; [done|]. unfold emits_deep, deep_config in H1. rewrite to_nat_zlen, firstn_all in H1.
  apply emits_decode in H1. eapply parse_of_rebuilds; [|apply lz_deep_grows|done].
  intros. destruct H1. by apply step_deep_sim.
Qed.

Lemma encode_sequence_deep_lossless_witness :
  exists st, encode_sequence_deep (E := Empty_set) [7; 7; 7; 7; 7; 7; 8; 9; 7; 7; 7; 7; 7] = Ok (Some st) /\
    walk_rebuilds (step_deep (es_literals st) (es_offsets st) (es_sources st)) st
      [7; 7; 7; 7; 7; 7; 8; 9; 7; 7; 7; 7; 7].
Proof.
  apply (encode_sequence_deep_lossless (E := Empty_set) [7; 7; 7; 7; 7; 7; 8; 9; 7; 7; 7; 7; 7]).
  vm_compute. discriminate.
Defined.

(** Beyond that bound the parse is not injective: [push_deep_copy] stores
    the extra length with [as u16], so a match of 65,604 bytes or more emits
    exactly the command of the match 65,536 bytes shorter, and the walk
    cannot tell the two apart. *)
Theorem push_deep_copy_wraps {E} dist len d :
  MAX_DEEP_COPY < len -> push_deep_copy (E := E) dist len d = push_deep_copy dist (len - 65536) d.
Proof.
  unfold MAX_DEEP_COPY. intros Hl. unfold push_deep_copy, MIN_MATCH. repeat pass_guard. cbv zeta.
  do 5 f_equal. replace (len - 65536 - 68) with (len - 68 + (-1) * 2 ^ 16) by lia.
  unfold wrap. by rewrite Z_mod_plus_full.
Qed.

Lemma push_deep_copy_wraps_witness :
  push_deep_copy (E := Empty_set) 1 70000 {| dp_streams := EncStreams_new; dp_rep0 := 0; dp_rep1 := 0 |} =
  push_deep_copy 1 4464 {| dp_streams := EncStreams_new; dp_rep0 := 0; dp_rep1 := 0 |}.
Proof. apply (push_deep_copy_wraps 1 70000). vm_compute. reflexivity. Defined.
