(* ===== verification/RansModel.v ===== *)
(** Component [rans/model.rs] and [rans/metadata.rs]: the canonical frequency
    model of a stream, its normalisation from a histogram, its validation, its
    symbol tables and its persisted form.

    The coder, and the constructors of its symbols, are the third-party crate:
    they enter as parameters.  So does CRC-32C. *)
From stdpp Require Import gmap sorting.
From S2P Require Import Prelude Codec Repr.

(** * The model *)

Definition MIN_SCALE_BITS : Z := 8.
Definition MAX_SCALE_BITS : Z := 15.

Record RansModel : Type := {
  rm_scale_bits : Z;
  rm_codec : RansCodec;
  rm_freqs : list Z
}.

Inductive ModelValidationError : Type :=
| ModelBadScaleBits
| FrequencyTooLarge
| EmptyModel
| TotalMismatch (sum total : Z).

Definition bad_model_scale (scale_bits : Z) : bool := (scale_bits <? MIN_SCALE_BITS) || (MAX_SCALE_BITS <? scale_bits).

(** [1u32 << scale_bits] *)
Definition RansModel_total (m : RansModel) : Z := Z.shiftl 1 (rm_scale_bits m).
Definition distinct_symbols (m : RansModel) : nat := length (base.filter (fun f => 0 < f) (rm_freqs m)).

(** The sum of the frequencies, and whether any is not zero. *)
Fixpoint validate_freqs (freqs : list Z) (sum : Z) (any : bool) : result ModelValidationError (Z * bool) :=
  match freqs with
  | [] => Ok (sum, any)
  | f :: freqs' =>
      if f =? 0 then validate_freqs freqs' sum any
      else
        fail_if 32768 <? f with FrequencyTooLarge ;;
        validate_freqs freqs' (sum + f) true
  end.
Definition RansModel_validate (m : RansModel) : result ModelValidationError unit :=
  fail_if bad_model_scale (rm_scale_bits m) with ModelBadScaleBits ;;
  let! '(sum, any) := validate_freqs (rm_freqs m) 0 false in
  fail_if negb any with EmptyModel ;;
  fail_if negb (sum =? RansModel_total m) with TotalMismatch sum (RansModel_total m) ;;
  Ok tt.

(** [build_enc_symbols] and [build_dec_symbols]: one loop over the crate's
    constructor, which is given the start and the frequency of a symbol. *)
Fixpoint build_symbols {Sym E : Type} (new : Z -> Z -> result E Sym) (freqs : list Z) (start : Z) : result (trap E) (list (option Sym)) :=
  match freqs with
  | [] => Ok []
  | f :: freqs' =>
      if f =? 0 then let! out := build_symbols new freqs' start in Ok (None :: out)
      else
        let! sym := safe (new start f) in
        let! start := ok_or (checked_add 32 start f) Panic in
        let! out := build_symbols new freqs' start in
        Ok (Some sym :: out)
  end.

(** * Normalisation *)

Definition present (hist : list Z) : list Z := base.filter (fun i => 0 < hist !!! Z.to_nat i) (seqZ 0 256).

(** Step 1: the floors, and the rounding errors. *)
Definition scaled (scale total h : Z) : Z := h * scale / total.
Definition scale_error (scale total h : Z) : Z := (h * scale) mod total.

(** [max_by_key] of the frequencies above one, ties to the smaller index. *)
Fixpoint largest_from (j : Z) (f : list Z) (best : option (Z * Z)) : option (Z * Z) :=
  match f with
  | [] => best
  | x :: f' =>
      let best := if 1 <? x then
                    match best with
                    | Some (_, y) => if y <? x then Some (j, x) else best
                    | None => Some (j, x)
                    end
                  else best in
      largest_from (j + 1) f' best
  end.
Definition largest (f : list Z) : option Z := fst <$> largest_from 0 f None.

(** Step 2 for one symbol: [None] is the function's early return. *)
Definition raise_one (hist : list Z) (i : Z) (f : list Z) (rem : Z) : option (list Z * Z) :=
  if (0 <? hist !!! Z.to_nat i) && (f !!! Z.to_nat i =? 0) then
    if 0 <? rem then Some (<[Z.to_nat i := f !!! Z.to_nat i + 1]> f, rem - 1)
    else
      target ← largest f;
      Some (<[Z.to_nat i := 1]> (<[Z.to_nat target := f !!! Z.to_nat target - 1]> f), rem)
  else Some (f, rem).
Fixpoint raise_all (hist : list Z) (indices : list Z) (f : list Z) (rem : Z) : option (list Z * Z) :=
  match indices with
  | [] => Some (f, rem)
  | i :: indices' => '(f, rem) ← raise_one hist i f rem; raise_all hist indices' f rem
  end.

(** Step 3: the order of the rounding errors, and one more for the first. *)
Definition error_le (error : list Z) (a b : Z) : Prop :=
  error !!! Z.to_nat b < error !!! Z.to_nat a \/ (error !!! Z.to_nat a = error !!! Z.to_nat b /\ a <= b).
#[global] Instance error_le_dec error : RelDecision (error_le error).
Proof. intros a b. unfold error_le. apply _. Defined.
Fixpoint bump (indices : list Z) (f : list Z) : list Z :=
  match indices with
  | [] => f
  | i :: indices' => bump indices' (<[Z.to_nat i := f !!! Z.to_nat i + 1]> f)
  end.
Definition distribute (hist error f : list Z) (rem : Z) : list Z :=
  if 0 <? rem then bump (take (Z.to_nat rem) (merge_sort (error_le error) (present hist))) f else f.

Fixpoint sum_freqs (l : list Z) : Z := match l with [] => 0 | x :: l' => x + sum_freqs l' end.

(** The debug assertions are panics; so is a difference below zero. *)
Definition normalize_histogram {E} (hist : list Z) (scale_bits : Z) (codec : RansCodec) : result (trap E) (option RansModel) :=
  if bad_model_scale scale_bits then Ok None
  else
    let total := sum_freqs hist in
    if total =? 0 then Ok None
    else
      if zlen (present hist) <=? 1 then Ok None
      else
        let scale := Z.shiftl 1 scale_bits in
        let f := map (scaled scale total) hist in
        let error := map (scale_error scale total) hist in
        let! rem := ok_or (checked_sub scale (sum_freqs f)) Panic in
        match raise_all hist (seqZ 0 256) f rem with
        | None => Ok None
        | Some (f, rem) =>
            let f := distribute hist error f rem in
            fail_if existsb (fun x => 32768 <? x) f with Panic ;;
            let model := {| rm_scale_bits := scale_bits; rm_codec := codec; rm_freqs := map (wrap 16) f |} in
            match RansModel_validate model with
            | Ok _ => Ok (Some model)
            | Err _ => Err Panic
            end
        end.

(** * The persisted form *)

Definition TOK_SET : Z := 0.
Definition TOK_RLE : Z := 1.
Definition TOK_DELTA : Z := 2.
Definition TOK_END : Z := 255.

Fixpoint run_length (f : Z) (freqs : list Z) : nat :=
  match freqs with
  | [] => O
  | x :: freqs' => if x =? f then S (run_length f freqs') else O
  end.

(** [while i < 256]: every turn takes at least one frequency. *)
Fixpoint encode_tokens (fuel : nat) (freqs : list Z) (prev : Z) : bytes :=
  match fuel, freqs with
  | _, [] => []
  | O, _ => []
  | S fuel, f :: freqs' =>
      if f =? prev then
        let run := run_length f freqs in
        TOK_RLE :: to_le 2 f ++ to_le 2 (Z.of_nat run) ++ encode_tokens fuel (drop run freqs) prev
      else TOK_DELTA :: to_le 2 (wrap 16 (f - prev)) ++ encode_tokens fuel freqs' f
  end.

Section Metadata.
Context (crc32c : bytes -> Z) (content_id : bytes -> ChunkId).

Definition encode_model_payload (m : RansModel) : bytes :=
  let first := rm_freqs m !!! 0%nat in
  [rm_scale_bits m; RansCodec_tag (rm_codec m)] ++ to_le 2 256 ++
  TOK_SET :: to_le 2 first ++ encode_tokens (length (rm_freqs m)) (drop 1 (rm_freqs m)) first ++ [TOK_END].
Definition encode_model (m : RansModel) : bytes :=
  let out := encode_model_payload m in
  out ++ to_le 4 (crc32c out).
Definition model_id (m : RansModel) : ChunkId := content_id (encode_model m).

Inductive ModelDecodeError : Type :=
| ModelTooLarge (len max : Z)
| ModelTruncated
| ModelChecksum
| ModelDecodeBadScaleBits
| BadCodec
| BadSymbolCount
| ModelMalformed
| ModelTrailingBytes
| InvalidModel (e : ModelValidationError).
#[local] Abbreviation decoded A := (result (trap ModelDecodeError) A).

(** The module's own reader: the bytes that are left. *)
Definition model_u8 (r : bytes) : decoded (Z * bytes) :=
  match r with v :: r' => Ok (v, r') | [] => Err (Error ModelTruncated) end.
Definition model_u16 (r : bytes) : decoded (Z * bytes) :=
  fail_if zlen r <? 2 with Error ModelTruncated ;; Ok (from_le (take 2 r), drop 2 r).
Definition as_i16 (v : Z) : Z := if v <? 32768 then v else v - 65536.
Definition model_i16 (r : bytes) : decoded (Z * bytes) :=
  let! '(v, r) := model_u16 r in Ok (as_i16 v, r).

(** [freqs[idx] = v; idx += 1], [run] times. *)
Fixpoint set_run (run : nat) (v idx : Z) (freqs : list Z) : decoded (list Z) :=
  match run with
  | O => Ok freqs
  | S run => let! freqs := set_idx freqs idx v in set_run run v (idx + 1) freqs
  end.

(** The token loop: every turn reads a byte.  The result is the frequencies,
    how many were set, and what is left to read. *)
Fixpoint decode_tokens (fuel : nat) (r : bytes) (freqs : list Z) (idx prev : Z) : decoded (list Z * Z * bytes) :=
  match fuel with
  | O => Err (Error ModelTruncated)
  | S fuel =>
      let! '(tok, r) := model_u8 r in
      let! '(stop, freqs, idx, prev, r) :=
        (if tok =? TOK_SET then
           fail_if negb (idx =? 0) with Error ModelMalformed ;;
           let! '(v, r) := model_u16 r in
           let! freqs := set_idx freqs 0 v in
           Ok (false, freqs, 1, v, r)
         else if tok =? TOK_RLE then
           let! '(v, r) := model_u16 r in
           let! '(run, r) := model_u16 r in
           fail_if (run =? 0) || (256 <? idx + run) with Error ModelMalformed ;;
           let! freqs := set_run (Z.to_nat run) v idx freqs in
           Ok (false, freqs, idx + run, v, r)
         else if tok =? TOK_DELTA then
           fail_if idx =? 0 with Error ModelMalformed ;;
           let! '(d, r) := model_i16 r in
           let v := prev + d in
           fail_if (v <? 0) || (32768 <? v) with Error ModelMalformed ;;
           let! freqs := set_idx freqs idx v in
           Ok (false, freqs, idx + 1, v, r)
         else if tok =? TOK_END then Ok (true, freqs, idx, prev, r)
         else Err (Error ModelMalformed)) in
      if (stop : bool) then Ok (freqs, idx, r)
      else
        fail_if 256 <? idx with Error ModelMalformed ;;
        decode_tokens fuel r freqs idx prev
  end.

(** What follows the checksum of [decode_model]. *)
Definition decode_model_payload (payload : bytes) : decoded RansModel :=
  let! '(scale_bits, r) := model_u8 payload in
  fail_if bad_model_scale scale_bits with Error ModelDecodeBadScaleBits ;;
  let! '(codec_tag, r) := model_u8 r in
  let! codec := ok_or (RansCodec_from_u8 codec_tag) (Error BadCodec) in
  let! '(sym_count, r) := model_u16 r in
  fail_if negb (sym_count =? 256) with Error BadSymbolCount ;;
  let! '(freqs, idx, r) := decode_tokens (S (length r)) r (vec 0 256) 0 0 in
  fail_if negb (idx =? 256) with Error ModelMalformed ;;
  fail_if negb (zlen r =? 0) with Error ModelTrailingBytes ;;
  let model := {| rm_scale_bits := scale_bits; rm_codec := codec; rm_freqs := freqs |} in
  let! _ := map_err (fun e => Error (InvalidModel e)) (RansModel_validate model) in
  Ok model.
Definition decode_model (b : bytes) (max_bytes : Z) : decoded RansModel :=
  fail_if max_bytes <? zlen b with Error (ModelTooLarge (zlen b) max_bytes) ;;
  fail_if zlen b <? 4 with Error ModelTruncated ;;
  let payload := take (length b - 4) b in
  let stored_crc := from_le (drop (length b - 4) b) in
  fail_if negb (stored_crc =? crc32c payload) with Error ModelChecksum ;;
  decode_model_payload payload.
End Metadata.
