(* ===== verification/RansModelSpec.v ===== *)
(** The frequency model: what normalisation promises, and the persisted form. *)
From stdpp Require Import gmap sorting.
From S2P Require Import Prelude Codec Repr RansModel.

(** * Sums of frequencies *)

Lemma sum_freqs_insert (l : list Z) i v : (i < length l)%nat -> sum_freqs (<[i := v]> l) = sum_freqs l - l !!! i + v.
Proof.
  revert i. induction l as [|x l IH]; intros [|i] Hi; cbn [length] in Hi; try lia; cbn [insert list_insert sum_freqs]; [change ((x :: l) !!! 0%nat) with x; lia|].
  change ((x :: l) !!! S i) with (l !!! i). rewrite IH by lia. lia.
Qed.
Lemma sum_freqs_nonneg l : Forall (fun f => 0 <= f) l -> 0 <= sum_freqs l.
Proof. induction 1; cbn; lia. Qed.
Lemma sum_freqs_at l i : Forall (fun f => 0 <= f) l -> (i < length l)%nat -> l !!! i <= sum_freqs l.
Proof.
  intros Hl Hi. pose proof (sum_freqs_insert l i 0 Hi) as E. enough (0 <= sum_freqs (<[i := 0]> l)) by lia.
  apply sum_freqs_nonneg. by apply Forall_insert.
Qed.
Lemma sum_freqs_ones l : Forall (fun f => 0 <= f <= 1) l -> sum_freqs l <= zlen l.
Proof. induction 1; unfold zlen in *; cbn in *; lia. Qed.

(** The frequencies are those of a valid model. *)
Record freqs_ok (scale_bits : Z) (freqs : list Z) : Prop := {
  fo_scale : MIN_SCALE_BITS <= scale_bits <= MAX_SCALE_BITS;
  fo_length : length freqs = 256%nat;
  fo_nonneg : Forall (fun f => 0 <= f) freqs;
  fo_sum : sum_freqs freqs = 2 ^ scale_bits
}.

Lemma scale_pow s : MIN_SCALE_BITS <= s <= MAX_SCALE_BITS -> Z.shiftl 1 s = 2 ^ s /\ 256 <= 2 ^ s <= 32768.
Proof.
  unfold MIN_SCALE_BITS, MAX_SCALE_BITS. intros Hs. rewrite Z.shiftl_1_l. split; [done|]. change 256 with (2 ^ 8). change 32768 with (2 ^ 15).
  split; apply Z.pow_le_mono_r; lia.
Qed.
Lemma bad_model_scale_false s : bad_model_scale s = false <-> MIN_SCALE_BITS <= s <= MAX_SCALE_BITS.
Proof. unfold bad_model_scale. rewrite orb_false_iff, !Z.ltb_ge. lia. Qed.

Lemma validate_freqs_ok l : forall s any, Forall (fun f => 0 <= f <= 32768) l ->
  exists any', validate_freqs l s any = Ok (s + sum_freqs l, any') /\ (any' = false -> any = false /\ sum_freqs l = 0).
Proof.
  induction l as [|f l IH]; intros s any; cbn [validate_freqs sum_freqs]; [intros _; exists any; rewrite Z.add_0_r; done|].
  intros [Hf Hl]%list.Forall_cons. destruct (Z.eqb_spec f 0) as [->|Hne].
  - destruct (IH s any Hl) as (any' & -> & Ha). exists any'. split; [done|]. intros E. by destruct (Ha E).
  - destruct (Z.ltb_spec 32768 f); [lia|]. destruct (IH (s + f) true Hl) as (any' & -> & Ha). exists any'. split; [do 2 f_equal; lia|].
    intros E. by destruct (Ha E).
Qed.

Lemma validate_valid s codec freqs : freqs_ok s freqs -> RansModel_validate {| rm_scale_bits := s; rm_codec := codec; rm_freqs := freqs |} = Ok tt.
Proof.
  intros [Hs Hl Hn Hsum]. destruct (scale_pow s Hs) as [Ep Hp]. unfold RansModel_validate, RansModel_total. cbn [rm_scale_bits rm_freqs].
  rewrite (proj2 (bad_model_scale_false s) Hs), Ep.
  destruct (validate_freqs_ok freqs 0 false) as (any & -> & Ha).
  { apply list.Forall_forall. intros f Hf. rewrite list.Forall_forall in Hn. split; [by apply Hn|].
    apply list_elem_of_lookup in Hf as [i Hi]. rewrite <-(list_lookup_total_correct _ _ _ Hi). 
    etransitivity; [apply sum_freqs_at; [by apply list.Forall_forall|by eapply lookup_lt_Some]|lia]. }
  cbn [rbind]. destruct any; [|destruct (Ha eq_refl); lia]. cbn [negb]. rewrite Hsum, Z.eqb_refl. done.
Qed.

(** * Symbol tables *)

(** When the constructor accepts every slice of the scale, the table has an
    entry for each symbol of positive frequency, made from the sum of the
    frequencies before it: the slices tile the scale. *)
Lemma build_symbols_tile {Sym E : Type} (new : Z -> Z -> result E Sym) (top : Z) (freqs : list Z) : top < 2 ^ 32 ->
  (forall s f, 0 <= s -> 0 < f -> s + f <= top -> exists sym, new s f = Ok sym) ->
  forall start, 0 <= start -> Forall (fun f => 0 <= f) freqs -> start + sum_freqs freqs <= top ->
  exists out, build_symbols new freqs start = Ok out /\ length out = length freqs /\
  forall i f, freqs !! i = Some f -> if f =? 0 then out !! i = Some None else
    exists sym, out !! i = Some (Some sym) /\ new (start + sum_freqs (take i freqs)) f = Ok sym.
Proof.
  intros Htop Hnew. induction freqs as [|f freqs IH]; intros start Hst Hf Hsum; [by exists []|].
  apply list.Forall_cons in Hf as [Hf0 Hf]. cbn [build_symbols sum_freqs] in *. pose proof (sum_freqs_nonneg freqs Hf). destruct (Z.eqb_spec f 0) as [->|Hne].
  - destruct (IH start Hst Hf ltac:(lia)) as (out & -> & L & V). exists (None :: out). split; [done|]. split; [cbn; lia|].
    intros [|i] f; [by intros [= <-]|]. cbn [lookup list_lookup take sum_freqs]. intros Hi. specialize (V i f Hi). done.
  - destruct (Hnew start f Hst ltac:(lia) ltac:(lia)) as (sym & Es). rewrite Es. unfold checked_add. change (safe (Ok ?x)) with (Ok (E := trap E) x). cbn [rbind].
    destruct (Z.ltb_spec (start + f) (2 ^ 32)); [|lia]. cbn [ok_or rbind]. destruct (IH (start + f) ltac:(lia) Hf ltac:(lia)) as (out & -> & L & V).
    exists (Some sym :: out). split; [done|]. split; [cbn; lia|]. intros [|i] g.
    + intros [= <-]. destruct (Z.eqb_spec f 0); [lia|]. exists sym. split; [done|]. cbn [take sum_freqs]. by rewrite Z.add_0_r.
    + cbn [lookup list_lookup take sum_freqs]. intros Hi. specialize (V i g Hi). destruct (g =? 0); [done|]. by rewrite Z.add_assoc.
Qed.

(** * Normalisation *)

Section Normalize.
Context (hist : list Z) (Hlen : length hist = 256%nat) (Hu32 : Forall is_u32 hist).
#[local] Abbreviation h i := (hist !!! Z.to_nat i).

Lemma hist_nonneg : Forall (fun x => 0 <= x) hist.
Proof. eapply list.Forall_impl; [exact Hu32|]. intros x Hx. width. Qed.

Lemma hist_map : map (fun i => h i) (seqZ 0 256) = hist.
Proof.
  apply list_eq. intros i. rewrite list_lookup_fmap. destruct (decide (i < 256)%nat) as [Hi|Hi].
  - rewrite lookup_seqZ_lt by lia. cbn. rewrite Z.add_0_l, Nat2Z.id. symmetry. apply list_lookup_lookup_total_lt. lia.
  - rewrite lookup_seqZ_ge by lia. symmetry. apply lookup_ge_None. lia.
Qed.

Lemma present_count : length (present hist) = length (base.filter (fun x => 0 < x) hist).
Proof.
  rewrite <-hist_map at 2. unfold present. induction (seqZ 0 256) as [|i l IH]; [done|]. cbn [map]. rewrite !filter_cons.
  destruct (decide (0 < h i)); cbn [length]; lia.
Qed.

Lemma present_in i : i ∈ present hist <-> 0 < h i /\ 0 <= i < 256.
Proof. unfold present. rewrite list_elem_of_filter, elem_of_seqZ. done. Qed.
Lemma present_NoDup : NoDup (present hist).
Proof. apply list.NoDup_filter, NoDup_seqZ. Qed.

Lemma scaled_sum scale total (l : list Z) : 0 < total -> scale * sum_freqs l = total * sum_freqs (map (scaled scale total) l) + sum_freqs (map (scale_error scale total) l).
Proof.
  intros Ht. induction l as [|x l IH]; cbn [map sum_freqs]; [lia|]. unfold scaled at 1, scale_error at 1.
  pose proof (Z.div_mod (x * scale) total ltac:(lia)). lia.
Qed.
Lemma error_sum scale total (l : list Z) : 0 < total -> Forall (fun x => 0 <= x) l ->
  0 <= sum_freqs (map (scale_error scale total) l) <= (total - 1) * Z.of_nat (length (base.filter (fun x => 0 < x) l)).
Proof.
  intros Ht. induction 1 as [|x l Hx _ IH]; cbn [map sum_freqs]; [cbn; lia|]. rewrite filter_cons. unfold scale_error at 1 3.
  pose proof (Z.mod_pos_bound (x * scale) total Ht). destruct (decide (0 < x)) as [|Hz]; [cbn [length]; lia|].
  replace x with 0 by lia. rewrite Z.mul_0_l, Z.mod_0_l by lia. lia.
Qed.

(** After the floors: what is missing from the scale is less than one for
    each present symbol. *)
Lemma floors_ok scale : 0 < sum_freqs hist -> 0 <= scale ->
  let f := map (scaled scale (sum_freqs hist)) hist in
  0 <= scale - sum_freqs f /\ (scale - sum_freqs f < zlen (present hist) \/ scale - sum_freqs f = 0).
Proof.
  intros Ht Hs f. pose proof (scaled_sum scale (sum_freqs hist) hist Ht) as E. pose proof (error_sum scale (sum_freqs hist) hist Ht hist_nonneg) as B.
  fold f in E. unfold zlen. rewrite present_count. set (n := Z.of_nat _) in *. set (e := sum_freqs (map _ hist)) in *. set (T := sum_freqs hist) in *.
  assert (T * (scale - sum_freqs f) = e) by lia. assert (0 <= n) by lia. split; [nia|]. destruct (decide (n = 0)); [right; nia|left; nia].
Qed.

Lemma largest_from_ok f : forall j best k x, largest_from j f best = Some (k, x) ->
  best = Some (k, x) \/ (j <= k < j + zlen f /\ f !!! Z.to_nat (k - j) = x /\ 1 < x).
Proof.
  induction f as [|y f IH]; intros j best k x; cbn [largest_from]; [by left|]. intros Hl. apply IH in Hl. unfold zlen in *. cbn [length].
  destruct Hl as [Hl|(Hk & Hx & H1)].
  - destruct (Z.ltb_spec 1 y); [|by left]. assert (Hnew : Some (j, y) = Some (k, x) -> j <= k < j + Z.of_nat (S (length f)) /\ (y :: f) !!! Z.to_nat (k - j) = x /\ 1 < x).
    { intros [= -> ->]. split; [lia|]. by rewrite Z.sub_diag. }
    destruct best as [[k0 x0]|]; [|right; auto]. destruct (x0 <? y); [right; auto|by left].
  - right. split; [lia|]. split; [|done]. replace (Z.to_nat (k - j)) with (S (Z.to_nat (k - (j + 1)))) by lia. done.
Qed.
Lemma largest_from_None f : forall j best, largest_from j f best = None -> best = None /\ Forall (fun x => x <= 1) f.
Proof.
  induction f as [|y f IH]; intros j best; cbn [largest_from]; [done|]. intros [Hb Hf]%IH. destruct (Z.ltb_spec 1 y) as [Hy|Hy].
  - destruct best as [[k x]|]; [destruct (x <? y)|]; done.
  - split; [done|]. by constructor.
Qed.

(** The state of step 2 before symbol [n]. *)
Record raising (scale rem0 n : Z) (f : list Z) (rem : Z) : Prop := {
  rg_length : length f = 256%nat;
  rg_nonneg : Forall (fun x => 0 <= x) f;
  rg_sum : sum_freqs f + rem = scale;
  rg_rem : 0 <= rem <= rem0;
  rg_absent i : 0 <= i < 256 -> h i = 0 -> f !!! Z.to_nat i = 0;
  rg_raised i : 0 <= i < n -> 0 < h i -> 1 <= f !!! Z.to_nat i
}.

Lemma nonneg_at f i : Forall (fun x => 0 <= x) f -> (i < length f)%nat -> 0 <= f !!! i.
Proof. intros Hf Hi. rewrite list.Forall_forall in Hf. apply Hf. by apply list_elem_of_lookup_total_2. Qed.

Lemma forall_at (P : Z -> Prop) f : (forall i, (i < length f)%nat -> P (f !!! i)) -> Forall P f.
Proof.
  intros HP. apply Forall_lookup_2. intros i x Hx. rewrite <-(list_lookup_total_correct _ _ _ Hx). apply HP. by eapply lookup_lt_Some.
Qed.

Lemma raise_one_ok scale rem0 n f rem : 256 <= scale -> 0 <= n < 256 -> raising scale rem0 n f rem ->
  exists f' rem', raise_one hist n f rem = Some (f', rem') /\ raising scale rem0 (n + 1) f' rem'.
Proof.
  intros Hscale Hn [L P S R A K]. unfold raise_one. destruct (Z.ltb_spec 0 (h n)) as [Hh|Hh]; cbn [andb].
  2: { exists f, rem. split; [done|]. split; try done. intros i Hi Hhi. destruct (decide (i = n)) as [->|]; [lia|apply K; lia]. }
  destruct (Z.eqb_spec (f !!! Z.to_nat n) 0) as [Ez|Ez].
  2: { exists f, rem. split; [done|]. split; try done. intros i Hi Hhi. destruct (decide (i = n)) as [->|]; [|apply K; lia].
       pose proof (nonneg_at f (Z.to_nat n) P ltac:(lia)). lia. }
  destruct (Z.ltb_spec 0 rem) as [Hrem|Hrem].
  - eexists _, _. split; [reflexivity|]. split.
    + by rewrite length_insert.
    + apply Forall_insert; [done|lia].
    + rewrite sum_freqs_insert by lia. lia.
    + lia.
    + intros i Hi Hz. rewrite list_lookup_total_insert_ne; [by apply A|]. intros E. apply Z2Nat.inj in E; [subst; lia|lia..].
    + intros i Hi Hp. destruct (decide (i = n)) as [->|Hne]; [rewrite list_lookup_total_insert_eq by lia; lia|].
      rewrite list_lookup_total_insert_ne by lia. apply K; [lia|done].
  - unfold largest. destruct (largest_from 0 f None) as [[t x]|] eqn:El.
    2: { exfalso. apply largest_from_None in El as [_ Hf]. assert (Hs : sum_freqs (<[Z.to_nat n := 1]> f) <= zlen (<[Z.to_nat n := 1]> f)).
         { apply sum_freqs_ones, list.Forall_forall. intros y Hy. assert (Hall : Forall (fun y => 0 <= y <= 1) (<[Z.to_nat n := 1]> f)).
           { apply Forall_insert; [|lia]. apply list.Forall_and. done. }
           rewrite list.Forall_forall in Hall. by apply Hall. }
         rewrite sum_freqs_insert in Hs by lia. unfold zlen in Hs. rewrite length_insert in Hs. lia. }
    apply largest_from_ok in El as [|(Ht & Hx & H1)]; [done|]. rewrite Z.sub_0_r in Hx. unfold zlen in Ht. rewrite L in Ht.
    assert (Htn : t <> n) by (intros ->; lia). assert (Hne : Z.to_nat t <> Z.to_nat n) by lia.
    assert (Hht : 0 < h t).
    { pose proof (nonneg_at hist (Z.to_nat t) hist_nonneg ltac:(lia)). destruct (decide (h t = 0)) as [E|]; [|lia]. apply A in E; lia. }
    eexists _, _. split; [reflexivity|]. cbn [fst]. split.
    + by rewrite !length_insert.
    + apply Forall_insert; [|lia]. apply Forall_insert; [done|lia].
    + rewrite sum_freqs_insert by (rewrite length_insert; lia). rewrite list_lookup_total_insert_ne by done. rewrite sum_freqs_insert by lia. lia.
    + lia.
    + intros i Hi Hz. rewrite !list_lookup_total_insert_ne; [by apply A|intros E; apply Z2Nat.inj in E; subst; lia..].
    + intros i Hi Hp. destruct (decide (i = n)) as [->|Hni]; [rewrite list_lookup_total_insert_eq by (rewrite length_insert; lia); lia|].
      rewrite list_lookup_total_insert_ne by lia. destruct (decide (i = t)) as [->|Hnt].
      * rewrite list_lookup_total_insert_eq by lia. lia.
      * rewrite list_lookup_total_insert_ne by lia. apply K; [lia|done].
Qed.

Lemma raise_all_ok scale rem0 k : forall n f rem, 256 <= scale -> 0 <= n -> n + Z.of_nat k = 256 -> raising scale rem0 n f rem ->
  exists f' rem', raise_all hist (seqZ n (Z.of_nat k)) f rem = Some (f', rem') /\ raising scale rem0 256 f' rem'.
Proof.
  induction k as [|k IH]; intros n f rem Hscale Hn Hk Hr.
  - exists f, rem. split; [done|]. by replace 256 with n by lia.
  - rewrite seqZ_cons by lia. cbn [raise_all]. destruct (raise_one_ok scale rem0 n f rem Hscale ltac:(lia) Hr) as (f1 & rem1 & -> & Hr1). cbn.
    replace (Z.succ n) with (n + 1) by lia. replace (Z.pred (Z.of_nat (S k))) with (Z.of_nat k) by lia. apply IH; [done|lia..|done].
Qed.

Lemma bump_ok l : forall f, length f = 256%nat -> NoDup l -> Forall (fun i => 0 <= i < 256) l ->
  length (bump l f) = 256%nat /\ sum_freqs (bump l f) = sum_freqs f + zlen l /\
  forall i, 0 <= i < 256 -> (bump l f) !!! Z.to_nat i = f !!! Z.to_nat i + if decide (i ∈ l) then 1 else 0.
Proof.
  induction l as [|j l IH]; intros f Hf Hnd Hl; cbn [bump].
  - split; [done|]. split; [unfold zlen; cbn; lia|]. intros i _. rewrite decide_False by apply not_elem_of_nil. lia.
  - apply list.NoDup_cons in Hnd as [Hj Hnd]. apply list.Forall_cons in Hl as [Hjr Hl].
    destruct (IH (<[Z.to_nat j := f !!! Z.to_nat j + 1]> f)) as (L & S & V); [by rewrite length_insert|done..|].
    split; [done|]. split; [rewrite S, sum_freqs_insert by lia; unfold zlen; cbn [length]; lia|]. intros i Hi. rewrite V by done.
    destruct (decide (i = j)) as [->|Hne].
    + rewrite list_lookup_total_insert_eq by lia. rewrite decide_False by done. rewrite decide_True by by left. lia.
    + rewrite list_lookup_total_insert_ne by lia. destruct (decide (i ∈ l)), (decide (i ∈ j :: l)) as [Hin|Hni]; try done.
      * exfalso. apply Hni. by right.
      * apply elem_of_cons in Hin as [?|?]; done.
Qed.

Lemma distribute_ok error f rem : length f = 256%nat -> 0 <= rem <= zlen (present hist) ->
  let f' := distribute hist error f rem in
  length f' = 256%nat /\ sum_freqs f' = sum_freqs f + rem /\
  forall i, 0 <= i < 256 -> f !!! Z.to_nat i <= f' !!! Z.to_nat i /\ (h i = 0 -> f' !!! Z.to_nat i = f !!! Z.to_nat i).
Proof.
  intros Hf Hrem. unfold distribute. destruct (Z.ltb_spec 0 rem) as [Hp|Hp]; [|split; [done|]; split; [lia|]; intros i _; split; [lia|done]].
  pose proof (merge_sort_Permutation (error_le error) (present hist)) as Hperm. set (s := merge_sort _ _) in *.
  assert (Hsub : forall i, i ∈ take (Z.to_nat rem) s -> 0 < h i /\ 0 <= i < 256).
  { intros i Hi. apply present_in. rewrite <-Hperm. by apply (subseteq_take (Z.to_nat rem)). }
  destruct (bump_ok (take (Z.to_nat rem) s) f Hf) as (L & S & V).
  - apply (sublist_NoDup _ s); [rewrite Hperm; apply present_NoDup|apply sublist_take].
  - apply list.Forall_forall. intros i Hi. by apply Hsub.
  - split; [done|]. split.
    + rewrite S. unfold zlen in *. rewrite length_take, Hperm. lia.
    + intros i Hi. rewrite V by done. destruct (decide _) as [Hin|_]; [|split; [lia|intros _; lia]].
      apply Hsub in Hin. split; lia.
Qed.

Lemma total_positive : 0 < zlen (present hist) -> 0 < sum_freqs hist.
Proof.
  unfold zlen. destruct (present hist) as [|i l] eqn:E; [cbn; lia|]. intros _. assert (Hi : i ∈ present hist) by (rewrite E; by left).
  apply present_in in Hi as [Hh Hi]. pose proof (sum_freqs_at hist (Z.to_nat i) hist_nonneg ltac:(lia)). lia.
Qed.

Lemma floors_raising scale : 0 < sum_freqs hist -> 0 <= scale ->
  let f := map (scaled scale (sum_freqs hist)) hist in
  raising scale (scale - sum_freqs f) 0 f (scale - sum_freqs f).
Proof.
  intros Ht Hs f. assert (Hat : forall i, f !!! Z.to_nat i = scaled scale (sum_freqs hist) (h i) \/ ~ (Z.to_nat i < 256)%nat).
  { intros i. destruct (decide (Z.to_nat i < 256)%nat) as [Hi|]; [left|by right]. apply (list_lookup_total_fmap (scaled scale (sum_freqs hist))). lia. }
  split.
  - unfold f. by rewrite length_map.
  - apply list.Forall_forall. intros x Hx. apply list_elem_of_fmap in Hx as (y & -> & Hy). unfold scaled.
    pose proof hist_nonneg as Hn. rewrite list.Forall_forall in Hn. apply Hn in Hy. apply Z.div_pos; nia.
  - lia.
  - destruct (floors_ok scale Ht Hs) as [H0 _]. fold f in H0. lia.
  - intros i Hi Hz. destruct (Hat i) as [-> |]; [|lia]. unfold scaled. rewrite Hz. apply Z.div_0_l. lia.
  - lia.
Qed.

(** The model of a histogram, when there is one. *)
Record normal_model (scale_bits : Z) (codec : RansCodec) (m : RansModel) : Prop := {
  nm_scale : rm_scale_bits m = scale_bits;
  nm_codec : rm_codec m = codec;
  nm_freqs : freqs_ok scale_bits (rm_freqs m);
  nm_valid : RansModel_validate m = Ok tt;
  nm_present i : 0 <= i < 256 -> (0 < rm_freqs m !!! Z.to_nat i <-> 0 < h i)
}.

(** C28. Normalisation of a histogram of 256 [u32] counts never panics (its
    debug assertions hold, its residual does not underflow, there is always a
    frequency to steal from).  It returns nothing exactly for a scale outside
    8..=15 or a histogram with at most one symbol; else it returns a model that
    [validate] accepts, whose 256 frequencies sum to [2 ^ scale_bits], with a
    positive frequency for exactly the symbols that occur. *)
Theorem normalize_valid (E : Type) (scale_bits : Z) (codec : RansCodec) :
  normalize_histogram (E := E) hist scale_bits codec = Ok None /\ (bad_model_scale scale_bits = true \/ zlen (present hist) <= 1) \/
  exists m, normalize_histogram (E := E) hist scale_bits codec = Ok (Some m) /\ 2 <= zlen (present hist) /\ normal_model scale_bits codec m.
Proof.
  unfold normalize_histogram. destruct (bad_model_scale scale_bits) eqn:Eb; [left; auto|]. apply bad_model_scale_false in Eb as Hs.
  destruct (scale_pow scale_bits Hs) as [-> Hp]. destruct (Z.leb_spec (zlen (present hist)) 1) as [H1|H1].
  { left. split; [by destruct (_ =? _)|by right]. }
  right. pose proof (total_positive ltac:(lia)) as Ht. destruct (Z.eqb_spec (sum_freqs hist) 0); [lia|].
  set (scale := 2 ^ scale_bits) in *. set (f0 := map _ hist). pose proof (floors_raising scale Ht ltac:(lia)) as Hr0.
  destruct (floors_ok scale Ht ltac:(lia)) as [Hrem Hlt]. fold f0 in Hr0, Hrem, Hlt. unfold checked_sub. destruct (Z.leb_spec (sum_freqs f0) scale); [|lia]. cbn [ok_or rbind].
  destruct (raise_all_ok scale _ 256 0 f0 _ ltac:(lia) ltac:(lia) ltac:(lia) Hr0) as (f1 & rem1 & Era & [L1 P1 S1 R1 A1 K1]).
  change (Z.of_nat 256) with 256 in Era. rewrite Era. cbn [snd fst]. set (error := map _ hist).
  destruct (distribute_ok error f1 rem1 L1 ltac:(lia)) as (L & S & V). set (f := distribute hist error f1 rem1) in *.
  assert (Hnn : Forall (fun x => 0 <= x) f).
  { apply forall_at. intros i Hi. specialize (V (Z.of_nat i) ltac:(lia)). rewrite Nat2Z.id in V.
    pose proof (nonneg_at f1 i P1 ltac:(lia)). lia. }
  assert (Hle : Forall (fun x => 0 <= x <= 32768) f).
  { apply forall_at. intros i Hi. pose proof (nonneg_at f i Hnn Hi). pose proof (sum_freqs_at f i Hnn Hi). lia. }
  assert (Ew : map (wrap 16) f = f).
  { rewrite <-(map_id f) at 2. apply map_ext_in. intros x Hx. apply list_elem_of_In in Hx. rewrite list.Forall_forall in Hle.
    apply Hle in Hx. apply Z.mod_small. lia. }
  assert (Ee : existsb (fun x => 32768 <? x) f = false).
  { apply not_true_iff_false. rewrite existsb_exists. intros (x & Hx & Hb). apply list_elem_of_In in Hx. rewrite list.Forall_forall in Hle.
    apply Hle in Hx. lia. }
  assert (Hok : freqs_ok scale_bits f) by (split; [done..|fold scale; lia]).
  rewrite Ee, Ew, (validate_valid _ codec f Hok). eexists. split; [reflexivity|]. split; [lia|]. split; [done..|by apply validate_valid|]. cbn [rm_freqs].
  intros i Hi. specialize (V i Hi). specialize (A1 i Hi). specialize (K1 i Hi). pose proof (nonneg_at hist (Z.to_nat i) hist_nonneg ltac:(lia)).
  destruct (decide (h i = 0)) as [Hz|]; [destruct V as [_ V]; rewrite V, A1 by done; lia|]. lia.
Qed.
End Normalize.

(** * The persisted form *)

Lemma model_u16_ok v r : is_u16 v -> model_u16 (to_le 2 v ++ r) = Ok (v, r).
Proof.
  intros Hv. unfold model_u16. rewrite zlen_app, zlen_to_le. destruct (Z.ltb_spec (Z.of_nat 2 + zlen r) 2); [pose proof (zlen_nonneg r); lia|].
  rewrite take_app_length', drop_app_length' by (by rewrite length_to_le). rewrite from_le_to_le; [done|width].
Qed.
Lemma model_i16_ok d r : -32768 <= d < 32768 -> model_i16 (to_le 2 (wrap 16 d) ++ r) = Ok (d, r).
Proof.
  intros Hd. unfold model_i16. rewrite model_u16_ok; [|unfold wrap, is_u16; pose proof (Z.mod_pos_bound d (2 ^ 16) ltac:(lia)); width].
  cbn [rbind]. do 2 f_equal. unfold as_i16, wrap. destruct (decide (0 <= d)).
  - rewrite Z.mod_small by lia. destruct (Z.ltb_spec d 32768); lia.
  - replace (d mod 2 ^ 16) with (d + 65536); [destruct (Z.ltb_spec (d + 65536) 32768); lia|].
    apply (Z.mod_unique _ _ (-1)); lia.
Qed.

(** The frequencies read so far, in an array of 256. *)
Definition filling (n : nat) (l : list Z) : list Z := l ++ replicate n 0.

Lemma set_filling {E} l n v : set_idx (E := E) (filling (S n) l) (zlen l) v = Ok (filling n (l ++ [v])).
Proof.
  apply set_idx_Ok. unfold filling. split; [rewrite zlen_app; unfold zlen; rewrite length_replicate; lia|].
  unfold zlen. rewrite Nat2Z.id, insert_app_r_alt, Nat.sub_diag, <-app_assoc by done. done.
Qed.
Lemma set_run_filling v n : forall l k, set_run n v (zlen l) (filling (n + k) l) = Ok (filling k (l ++ replicate n v)).
Proof.
  induction n as [|n IH]; intros l k; cbn [set_run Nat.add]; [by rewrite app_nil_r|]. rewrite set_filling. cbn [rbind].
  replace (zlen l + 1) with (zlen (l ++ [v])) by (rewrite zlen_app; done). by rewrite IH, <-app_assoc.
Qed.

Lemma run_length_ok f freqs : exists rest, freqs = replicate (run_length f freqs) f ++ rest /\ drop (run_length f freqs) freqs = rest.
Proof.
  induction freqs as [|x freqs IH]; cbn [run_length]; [by exists []|]. destruct (Z.eqb_spec x f) as [->|]; [|by exists (x :: freqs)].
  destruct IH as (rest & E & Ed). exists rest. cbn [replicate drop app]. by rewrite <-E.
Qed.

Lemma decode_tokens_end fuel freqs idx prev r : decode_tokens (S fuel) (TOK_END :: r) freqs idx prev = Ok (freqs, idx, r).
Proof. done. Qed.
Lemma decode_tokens_set fuel r v prev : is_u16 v ->
  decode_tokens (S fuel) (TOK_SET :: to_le 2 v ++ r) (vec 0 256) 0 prev = decode_tokens fuel r (filling 255 [v]) 1 v.
Proof. intros Hv. cbn [decode_tokens model_u8 rbind]. cbn [Z.eqb TOK_SET negb]. by rewrite model_u16_ok. Qed.
Lemma decode_tokens_rle fuel r l n k v prev : (0 < n)%nat -> (length l + n <= 256)%nat -> is_u16 v ->
  decode_tokens (S fuel) (TOK_RLE :: to_le 2 v ++ to_le 2 (Z.of_nat n) ++ r) (filling (n + k) l) (zlen l) prev =
  decode_tokens fuel r (filling k (l ++ replicate n v)) (zlen (l ++ replicate n v)) v.
Proof.
  intros Hn Hlen Hv. cbn [decode_tokens model_u8 rbind]. change (TOK_RLE =? TOK_SET) with false. change (TOK_RLE =? TOK_RLE) with true. cbn match. rewrite model_u16_ok by done. cbn [rbind].
  rewrite model_u16_ok by width. cbn [rbind].
  destruct (Z.eqb_spec (Z.of_nat n) 0); [lia|]. destruct (Z.ltb_spec 256 (zlen l + Z.of_nat n)); [unfold zlen in *; lia|]. cbn [orb].
  rewrite Nat2Z.id, set_run_filling. cbn [rbind]. destruct (Z.ltb_spec 256 (zlen l + Z.of_nat n)); [lia|].
  rewrite zlen_app. unfold zlen at 3. by rewrite length_replicate.
Qed.
Lemma decode_tokens_delta fuel r l k v prev : l <> [] -> (length l < 256)%nat -> 0 <= v < 32768 -> 0 <= prev < 32768 ->
  decode_tokens (S fuel) (TOK_DELTA :: to_le 2 (wrap 16 (v - prev)) ++ r) (filling (S k) l) (zlen l) prev =
  decode_tokens fuel r (filling k (l ++ [v])) (zlen (l ++ [v])) v.
Proof.
  intros Hl Hlen Hv Hp. cbn [decode_tokens model_u8 rbind]. change (TOK_DELTA =? TOK_SET) with false. change (TOK_DELTA =? TOK_RLE) with false. change (TOK_DELTA =? TOK_DELTA) with true. cbn match.
  destruct (Z.eqb_spec (zlen l) 0) as [E|_]; [destruct l; [done|unfold zlen in E; cbn in E; lia]|]. rewrite model_i16_ok by lia. cbn [rbind].
  replace (prev + (v - prev)) with v by lia. destruct (Z.ltb_spec v 0); [lia|]. destruct (Z.ltb_spec 32768 v); [lia|]. cbn [orb].
  rewrite set_filling. cbn [rbind]. rewrite zlen_app, zlen_cons, zlen_nil. destruct (Z.ltb_spec 256 (zlen l + 1)); [unfold zlen in *; lia|].
  replace (zlen l + (1 + 0)) with (zlen l + 1) by lia. done.
Qed.

Lemma last_shift (f : Z) l d : List.last (f :: l) d = List.last l f.
Proof. revert f d. induction l as [|g l IH]; intros f d; [done|]. change (List.last (f :: g :: l) d) with (List.last (g :: l) d). by rewrite !IH. Qed.
Lemma last_replicate n f (l : list Z) : List.last (replicate n f ++ l) f = List.last l f.
Proof. induction n as [|n IH]; [done|]. cbn [replicate app]. by rewrite last_shift. Qed.

Lemma last_total : forall l (f : Z), (f :: l) !!! length l = List.last l f.
Proof. induction l as [|g l IH]; intros f; [done|]. rewrite last_shift. exact (IH g). Qed.

(** The tokens of a list of frequencies are read back, whatever follows. *)
Lemma tokens_read k : forall l freqs prev fuel tail, (length freqs <= k)%nat -> l <> [] -> (length l + length freqs = 256)%nat ->
  Forall (fun f => 0 <= f < 32768) freqs -> 0 <= prev < 32768 -> (length (encode_tokens k freqs prev ++ tail) < fuel)%nat ->
  exists fuel', (length tail < fuel')%nat /\
    decode_tokens fuel (encode_tokens k freqs prev ++ tail) (filling (length freqs) l) (zlen l) prev =
    decode_tokens fuel' tail (l ++ freqs) 256 (List.last freqs prev).
Proof.
  induction k as [|k IH]; intros l [|f freqs] prev [|fuel] tail Hk Hl Hlen Hf Hp Hfuel; cbn [length] in Hk; try (cbn in Hfuel; lia).
  1,2: exists (S fuel); split; [exact Hfuel|]; cbn [length] in Hlen; replace (zlen l) with 256 by (unfold zlen; lia); done.
  apply list.Forall_cons in Hf as [Hf0 Hf]. cbn [encode_tokens] in *. destruct (Z.eqb_spec f prev) as [->|Hne].
  - destruct (run_length_ok prev (prev :: freqs)) as (rest & E & Ed). rewrite Ed in *. assert (Hn : (0 < run_length prev (prev :: freqs))%nat) by (cbn; rewrite Z.eqb_refl; lia).
    set (n := run_length prev (prev :: freqs)) in *. assert (Hrest : length (prev :: freqs) = (n + length rest)%nat) by (rewrite E, length_app, length_replicate; done).
    rewrite Hrest. cbn [length] in *. change ((TOK_RLE :: ?x) ++ ?y) with (TOK_RLE :: x ++ y) in *. rewrite <-!app_assoc in *. rewrite decode_tokens_rle by (lia || width).
    destruct (IH (l ++ replicate n prev) rest prev fuel tail) as (fuel' & Hfuel' & ->); [lia|by destruct l|rewrite length_app, length_replicate; lia| |done| |].
    + assert (Hall : Forall (fun f => 0 <= f < 32768) (prev :: freqs)) by by constructor. rewrite E, Forall_app in Hall. tauto.
    + cbn [length] in Hfuel. rewrite !length_app in *. lia.
    + exists fuel'. split; [done|]. by rewrite E, <-app_assoc, last_replicate.
  - change ((TOK_DELTA :: ?x) ++ ?y) with (TOK_DELTA :: x ++ y) in *. rewrite <-!app_assoc in *. cbn [length] in *. rewrite decode_tokens_delta by (done || lia).
    destruct (IH (l ++ [f]) freqs f fuel tail) as (fuel' & Hfuel' & ->); [lia|by destruct l|rewrite length_app; cbn; lia|done|lia|rewrite !length_app in *; lia|].
    exists fuel'. split; [done|]. by rewrite <-app_assoc, last_shift.
Qed.

Lemma tokens_roundtrip k l freqs prev fuel : (length freqs <= k)%nat -> l <> [] -> (length l + length freqs = 256)%nat ->
  Forall (fun f => 0 <= f < 32768) freqs -> 0 <= prev < 32768 -> (length (encode_tokens k freqs prev ++ [TOK_END]) < fuel)%nat ->
  decode_tokens fuel (encode_tokens k freqs prev ++ [TOK_END]) (filling (length freqs) l) (zlen l) prev = Ok (l ++ freqs, 256, []).
Proof.
  intros. destruct (tokens_read k l freqs prev fuel [TOK_END]) as ([|fuel'] & Hf & ->); try done. cbn in Hf. lia.
Qed.

Lemma encode_tokens_length k : forall freqs prev, (length freqs <= k)%nat -> zlen (encode_tokens k freqs prev) <= 5 * zlen freqs.
Proof.
  induction k as [|k IH]; intros [|f freqs] prev Hk; cbn [length] in Hk; try lia; [done..|]. cbn [encode_tokens]. destruct (Z.eqb_spec f prev) as [->|Hne].
  - destruct (run_length_ok prev (prev :: freqs)) as (rest & E & ->). assert (Hn : (0 < run_length prev (prev :: freqs))%nat) by (cbn; rewrite Z.eqb_refl; lia).
    rewrite E at 2. set (n := run_length _ _) in *. assert (Hrest : length (prev :: freqs) = (n + length rest)%nat) by (rewrite E, length_app, length_replicate; done).
    cbn [length] in Hrest. specialize (IH rest prev ltac:(lia)). unfold zlen in *. cbn [length]. rewrite !length_app, !length_to_le, length_replicate. lia.
  - specialize (IH freqs f ltac:(lia)). unfold zlen in *. cbn [length]. rewrite !length_app, !length_to_le. lia.
Qed.

(** Any byte string under its checksum is decoded as its payload is. *)
Lemma decode_sealed crc32c payload max : is_u32 (crc32c payload) -> zlen payload + 4 <= max ->
  decode_model crc32c (payload ++ to_le 4 (crc32c payload)) max = decode_model_payload payload.
Proof.
  intros Hc Hm. unfold decode_model. rewrite zlen_app, zlen_to_le, length_app, length_to_le. pose proof (zlen_nonneg payload).
  destruct (Z.ltb_spec max (zlen payload + Z.of_nat 4)); [lia|]. destruct (Z.ltb_spec (zlen payload + Z.of_nat 4) 4); [lia|].
  rewrite Nat.add_sub, take_app_length, drop_app_length, from_le_to_le by width. by rewrite Z.eqb_refl.
Qed.

(** C32. A valid model in which no symbol takes the whole 32768 is encoded in
    at most 1287 bytes, below the default limit of 2048, and decodes to
    itself under any limit of at least that. *)
Theorem model_roundtrip (crc32c : bytes -> Z) (m : RansModel) (max : Z) :
  (forall b, is_u32 (crc32c b)) -> freqs_ok (rm_scale_bits m) (rm_freqs m) -> Forall (fun f => f < 32768) (rm_freqs m) -> 1287 <= max ->
  zlen (encode_model crc32c m) <= 1287 /\ decode_model crc32c (encode_model crc32c m) max = Ok m.
Proof.
  destruct m as [s codec freqs]. cbn [rm_scale_bits rm_freqs]. intros Hcrc Hok Hsmall Hmax. pose proof (validate_valid s codec freqs Hok) as Hv.
  destruct Hok as [Hs Hl Hn _]. destruct freqs as [|f freqs]; [done|]. cbn [length] in Hl.
  assert (Hall : Forall (fun f => 0 <= f < 32768) (f :: freqs)) by (apply list.Forall_and; done). apply list.Forall_cons in Hall as [Hf Hfs].
  assert (Hlen : zlen (encode_model_payload {| rm_scale_bits := s; rm_codec := codec; rm_freqs := f :: freqs |}) <= 1283).
  { unfold encode_model_payload. cbn [rm_scale_bits rm_codec rm_freqs drop length]. pose proof (encode_tokens_length (S (length freqs)) freqs f ltac:(lia)) as Ht.
    change ((f :: freqs) !!! 0%nat) with f. unfold zlen in *. cbn [app length]. rewrite !length_app, !length_to_le. cbn [length].
    rewrite !length_app, !length_to_le. cbn [length]. rewrite drop_0. lia. }
  split; [unfold encode_model; rewrite zlen_app, zlen_to_le; lia|]. unfold encode_model at 1. rewrite decode_sealed by (done || lia).
  unfold encode_model_payload, decode_model_payload. cbn [rm_scale_bits rm_codec rm_freqs]. change ((f :: freqs) !!! 0%nat) with f.
  cbn [app model_u8 rbind]. rewrite (proj2 (bad_model_scale_false s) Hs). cbn [rbind].
  assert (Hcod : RansCodec_from_u8 (RansCodec_tag codec) = Some codec) by by destruct codec. rewrite Hcod. cbn [ok_or rbind].
  rewrite model_u16_ok by width. cbn [rbind]. change (256 =? 256) with true. cbn [negb]. rewrite decode_tokens_set by width.
  change (drop 1 (f :: freqs)) with (drop 0 freqs). rewrite drop_0. change 1 with (zlen [f]) at 1. replace 255%nat with (length freqs) at 1 by lia.
  rewrite tokens_roundtrip; [|cbn; lia|done|cbn; lia|done|done|cbn [length]; rewrite !length_app; cbn [length]; lia].
  cbn [rbind app]. change (256 =? 256) with true. change (zlen [] =? 0) with true. cbn [negb]. by rewrite Hv.
Qed.

(** The payload of a model with its END token replaced by a step [d] past the
    last symbol, and anything behind it. *)
Definition overrun_payload (m : RansModel) (d : Z) (rest : bytes) : bytes :=
  let first := rm_freqs m !!! 0%nat in
  [rm_scale_bits m; RansCodec_tag (rm_codec m)] ++ to_le 2 256 ++ TOK_SET :: to_le 2 first ++
  encode_tokens 256 (drop 1 (rm_freqs m)) first ++ TOK_DELTA :: to_le 2 (wrap 16 d) ++ rest.

(** C33. [decode_model] panics on every payload that steps past the 256
    frequencies: take any 256 frequencies below 32768, whatever their sum,
    in any scale and codec, and put a DELTA token behind them whose step leads
    to a value the decoder accepts.  The DELTA arm writes past the array
    before the loop compares the index with 256, whatever follows, and the
    function panics under a right checksum instead of returning its error. *)
Theorem decode_model_panics (crc32c : bytes -> Z) (m : RansModel) (d : Z) (rest : bytes) (max : Z) :
  (forall b, is_u32 (crc32c b)) -> MIN_SCALE_BITS <= rm_scale_bits m <= MAX_SCALE_BITS ->
  length (rm_freqs m) = 256%nat -> Forall (fun f => 0 <= f < 32768) (rm_freqs m) ->
  -32768 <= d < 32768 -> 0 <= rm_freqs m !!! 255%nat + d <= 32768 ->
  let payload := overrun_payload m d rest in
  zlen payload + 4 <= max -> decode_model crc32c (payload ++ to_le 4 (crc32c payload)) max = Err Panic.
Proof.
  intros Hc Hs Hl Hf Hd Hv payload Hmax. rewrite decode_sealed by done.
  subst payload. clear Hmax. destruct m as [s codec freqs]. cbn [rm_scale_bits rm_freqs] in *. unfold overrun_payload, decode_model_payload. cbn [rm_scale_bits rm_codec rm_freqs].
  destruct freqs as [|f freqs]; [done|]. cbn [length] in Hl. assert (Elast : (f :: freqs) !!! 255%nat = List.last freqs f).
  { injection Hl as Hl. by rewrite <-Hl, last_total. }
  rewrite Elast in Hv. apply list.Forall_cons in Hf as [Hf0 Hf]. change ((f :: freqs) !!! 0%nat) with f. change (drop 1 (f :: freqs)) with (drop 0 freqs). rewrite drop_0.
  cbn [app model_u8 rbind]. rewrite (proj2 (bad_model_scale_false s) Hs). cbn [rbind].
  assert (Hcod : RansCodec_from_u8 (RansCodec_tag codec) = Some codec) by by destruct codec. rewrite Hcod. cbn [ok_or rbind].
  rewrite model_u16_ok by width. cbn [rbind]. change (256 =? 256) with true. cbn [negb]. rewrite decode_tokens_set by width.
  change 1 with (zlen [f]) at 1. replace (filling 255 [f]) with (filling (length freqs) [f]) by (f_equal; lia).
  set (n := length (TOK_SET :: _)).
  destruct (tokens_read 256 [f] freqs f n (TOK_DELTA :: to_le 2 (wrap 16 d) ++ rest))
    as ([|fuel'] & Hfuel & ->); [lia|done|cbn; lia|done|done|unfold n; cbn [length]; rewrite !length_app, ?Hl; cbn [length]; lia|cbn in Hfuel; lia|].
  cbn [decode_tokens model_u8 rbind]. change (TOK_DELTA =? TOK_SET) with false. change (TOK_DELTA =? TOK_RLE) with false. change (TOK_DELTA =? TOK_DELTA) with true. cbn match.
  change (256 =? 0) with false. cbv iota. rewrite model_i16_ok by done. cbn [rbind].
  destruct (Z.ltb_spec (List.last freqs f + d) 0); [lia|]. destruct (Z.ltb_spec 32768 (List.last freqs f + d)); [lia|]. cbn [orb].
  unfold set_idx. assert (Hz : zlen ([f] ++ freqs) = 256) by (unfold zlen; cbn [app length]; lia). by rewrite Hz.
Qed.

(** * Concrete inputs *)

(** One frequent symbol, and two that the floors of scale 8 lose. *)
Definition skewed_hist : list Z := [1; 10000; 1] ++ replicate 253 0.
Lemma skewed_ok : length skewed_hist = 256%nat /\ Forall is_u32 skewed_hist.
Proof. split; [done|]. apply (bool_decide_unpack _). by vm_compute. Qed.

Lemma normalize_valid_witness :
  2 <= zlen (present skewed_hist) /\ exists m, normalize_histogram (E := Empty_set) skewed_hist 8 Single = Ok (Some m) /\ normal_model skewed_hist 8 Single m.
Proof.
  split; [by vm_compute|]. destruct (normalize_valid skewed_hist (proj1 skewed_ok) (proj2 skewed_ok) Empty_set 8 Single) as [[_ [H|H]]|(m & E & _ & Hm)].
  - by vm_compute in H.
  - by vm_compute in H.
  - exists m. split; [exact E|exact Hm].
Defined.

Definition skewed_model : RansModel := {| rm_scale_bits := 8; rm_codec := Single; rm_freqs := [1; 254; 1] ++ replicate 253 0 |}.
Lemma skewed_freqs : freqs_ok 8 (rm_freqs skewed_model) /\ Forall (fun f => f < 32768) (rm_freqs skewed_model).
Proof.
  split; [split; [by vm_compute|done| |done]|]; apply (bool_decide_unpack _); by vm_compute.
Qed.

Lemma model_roundtrip_witness :
  decode_model (fun _ => 7) (encode_model (fun _ => 7) skewed_model) 2048 = Ok skewed_model.
Proof.
  apply (model_roundtrip (fun _ => 7) skewed_model 2048); [intros _; width|exact (proj1 skewed_freqs)|exact (proj2 skewed_freqs)|lia].
Defined.

(** The skewed model with one step more, and nothing behind it. *)
Lemma decode_model_panics_witness :
  decode_model (fun _ => 7) (overrun_payload skewed_model 5 [] ++ to_le 4 7) 2048 = Err Panic.
Proof.
  apply (decode_model_panics (fun _ => 7) skewed_model 5 [] 2048); [intros _; width|by vm_compute|done| |lia|by vm_compute|by vm_compute].
  apply (bool_decide_unpack _); by vm_compute.
Defined.
Lemma skewed_normalizes : normalize_histogram (E := Empty_set) skewed_hist 8 Single = Ok (Some skewed_model).
Proof. by vm_compute. Qed.

(** A model of one symbol behind index zero at scale 15 is valid, and its step
    of 32768 does not fit the [i16] of a DELTA token. *)
Example dominant_symbol_lost :
  let m := {| rm_scale_bits := 15; rm_codec := Single; rm_freqs := [0; 32768] ++ replicate 254 0 |} in
  RansModel_validate m = Ok tt /\ decode_model (fun _ => 7) (encode_model (fun _ => 7) m) 2048 = Err (Error ModelMalformed).
Proof. by vm_compute. Qed.
