(* ===== verification/Version.v ===== *)
(** Component [format/version.rs]: format constants and the registry of
    record tags. *)
From Stdlib Require String.
From S2P Require Import Prelude.
Import String.StringSyntax.

Definition FORMAT_MAJOR : Z := 1.
Definition FORMAT_MINOR : Z := 0.
(** [ENTR0FS\0] *)
Definition SUPERBLOCK_MAGIC : bytes := [69; 78; 84; 82; 48; 70; 83; 0].
Definition SUPERBLOCK_VERSION : Z := 1.
Definition RECORD_VERSION : Z := 1.
(** [ESEG] *)
Definition SEGMENT_MAGIC : bytes := [69; 83; 69; 71].
Definition SUPERBLOCK_SLOT_SIZE : Z := 512.
Definition SUPERBLOCK_SLOT_A_OFFSET : Z := 0.
Definition SUPERBLOCK_SLOT_B_OFFSET : Z := 4096.
Definition RECORD_HEADER_SIZE : Z := 58.
Definition TAG_PAD : Z := 0x7F.

Inductive RecordTag : Type :=
| Data
| Model
| InodeTag
| BtreeNode
| RootTag
| Xattr
| MutationLog
| Pad.
#[global] Instance RecordTag_eq_dec : EqDecision RecordTag.
Proof. solve_decision. Defined.

Definition RecordTag_from_u8 (v : Z) : option RecordTag :=
  if v =? 0x01 then Some Data
  else if v =? 0x02 then Some Model
  else if v =? 0x03 then Some InodeTag
  else if v =? 0x04 then Some BtreeNode
  else if v =? 0x05 then Some RootTag
  else if v =? 0x06 then Some Xattr
  else if v =? 0x07 then Some MutationLog
  else if v =? 0x7F then Some Pad
  else None.

Definition RecordTag_tag (t : RecordTag) : Z :=
  match t with
  | Data => 0x01 | Model => 0x02 | InodeTag => 0x03 | BtreeNode => 0x04
  | RootTag => 0x05 | Xattr => 0x06 | MutationLog => 0x07 | Pad => 0x7F
  end.

#[local] Open Scope string_scope.
Definition RecordTag_name (t : RecordTag) : String.string :=
  match t with
  | Data => "data" | Model => "model" | InodeTag => "inode" | BtreeNode => "btree"
  | RootTag => "root" | Xattr => "xattr" | MutationLog => "mutation_log" | Pad => "pad"
  end.
#[local] Close Scope string_scope.

(** A tag reads back from its persisted byte, and a byte that reads as a tag
    is the byte of that tag. *)
Lemma RecordTag_from_tag t : RecordTag_from_u8 (RecordTag_tag t) = Some t.
Proof. by destruct t. Qed.

Lemma RecordTag_tag_from v t : RecordTag_from_u8 v = Some t -> RecordTag_tag t = v.
Proof.
  unfold RecordTag_from_u8. intros Ht.
  repeat case_match; simplify_eq; cbn; lia.
Qed.

Lemma RecordTag_tag_u8 t : 0 <= RecordTag_tag t < 2 ^ 8.
Proof. destruct t; cbn; lia. Qed.
