(* ===== verification/SegRecord.v ===== *)
(** Component [format/record.rs]: the envelope of a segment record, a
    58-byte header (tag, version, flags, lengths, content id, two CRCs) and
    the payload.  The CRC and the content hash are parameters. *)
From S2P Require Import Prelude Codec Repr Version.

Definition HEADER_SIZE : Z := RECORD_HEADER_SIZE.
Definition FLAG_HAS_MATERIALIZED_LEN : Z := 0x0001.

(** A decoded envelope.  The payload is borrowed in the code. *)
Record SegRecord : Type := {
  rec_tag : RecordTag;
  rec_version : Z;
  rec_flags : Z;
  rec_stored_len : Z;
  rec_materialized_len : option Z;
  rec_content_id : ChunkId;
  rec_payload : bytes;
  rec_offset : Z
}.
#[global] Instance SegRecord_eq_dec : EqDecision SegRecord.
Proof. solve_decision. Defined.

Definition SegRecord_total_size (r : SegRecord) : Z := HEADER_SIZE + rec_stored_len r.
Definition SegRecord_has_materialized_len (r : SegRecord) : bool :=
  negb (Z.land (rec_flags r) FLAG_HAS_MATERIALIZED_LEN =? 0).

(** [next_offset]: the [expect] on the [u64] sum. *)
Definition next_offset (r : SegRecord) : result (trap CodecError) Z :=
  ok_or (checked_add 64 (rec_offset r) (SegRecord_total_size r)) Panic.

Section Envelope.
Context (crc32c : bytes -> Z) (content_id : bytes -> ChunkId).

(** The header is written with a zero id and its CRC, then the id is patched
    in and the CRC computed again. *)
Definition record_encode (tag : RecordTag) (flags : Z) (materialized_len : option Z) (payload : bytes) : bytes :=
  let stored_len := wrap 32 (zlen payload) in
  let w := Writer_u8 Writer_new (RecordTag_tag tag) in
  let w := Writer_u8 w RECORD_VERSION in
  let w := Writer_u16 w flags in
  let w := Writer_u16 w (wrap 16 HEADER_SIZE) in
  let w := Writer_u32 w stored_len in
  let w := match materialized_len with Some ml => Writer_u64 w ml | None => Writer_u64 w 0 end in
  let w := Writer_bytes w (replicate 32 0) in
  let header_crc_pos := Writer_len w in
  let w := Writer_u32 w (crc32c (take (Z.to_nat header_crc_pos) (w_buf w))) in
  let w := Writer_u32 w (crc32c payload) in
  let w := Writer_bytes w payload in
  let out := Writer_into_bytes w in
  let cid_pos := 1 + 1 + 2 + 2 + 4 + 8 in
  let out := splice (Z.to_nat cid_pos) (content_id payload) out in
  splice (Z.to_nat header_crc_pos) (to_le 4 (crc32c (take (Z.to_nat header_crc_pos) out))) out.

Definition record_read_id (r : Reader) : result CodecError (ChunkId * Reader) := Reader_take r 32.

(** The envelope at [offset]; [None] at the end of the slice and on a tail
    of zeros. *)
Definition record_decode (segment : bytes) (offset : Z) : result CodecError (option SegRecord) :=
  let avail := Z.max 0 (zlen segment - offset) in
  if avail =? 0 then Ok None else
  let head := drop (Z.to_nat offset) segment in
  if forallb (fun b => b =? 0) head then Ok None else
  fail_if avail <? HEADER_SIZE with Truncated ;;
  let r := Reader_new head in
  let! '(t, r) := Reader_u8 r in
  let! tag := ok_or (RecordTag_from_u8 t) Malformed in
  let! '(version, r) := Reader_u8 r in
  fail_if negb (version =? RECORD_VERSION) with Malformed ;;
  let! '(flags, r) := Reader_u16 r in
  let! '(header_len, r) := Reader_u16 r in
  fail_if negb (header_len =? HEADER_SIZE) with Malformed ;;
  let! '(stored_len, r) := Reader_u32 r in
  let! '(materialized_raw, r) := Reader_u64 r in
  let! '(cid, r) := record_read_id r in
  let! '(header_crc, r) := Reader_u32 r in
  let! '(payload_crc, r) := Reader_u32 r in
  let header_end := 1 + 1 + 2 + 2 + 4 + 8 + 32 in
  fail_if negb (crc32c (take (Z.to_nat header_end) head) =? header_crc) with Malformed ;;
  let payload_start := HEADER_SIZE in
  let! payload_end := ok_or (checked_add 64 payload_start stored_len) Malformed in
  fail_if avail <? payload_end with Truncated ;;
  let payload := slice (Z.to_nat payload_start) (Z.to_nat (payload_end - payload_start)) head in
  fail_if negb (crc32c payload =? payload_crc) with Malformed ;;
  fail_if negb (bool_decide (content_id payload = cid)) with Malformed ;;
  Ok (Some {| rec_tag := tag; rec_version := version; rec_flags := flags; rec_stored_len := stored_len;
     rec_materialized_len :=
       if negb (Z.land flags FLAG_HAS_MATERIALIZED_LEN =? 0) then Some materialized_raw else None;
     rec_content_id := cid; rec_payload := payload; rec_offset := offset |}).
End Envelope.

(** * The image of a record *)

Section Image.
Context (crc32c : bytes -> Z) (content_id : bytes -> ChunkId).
Context (Hid : forall b, wf_id (content_id b)) (Hcrc : forall b, is_u32 (crc32c b)).

(** The bytes under the header CRC; [raw] is the materialized-length field. *)
Definition header_image (tag : RecordTag) (flags raw : Z) (payload : bytes) : bytes :=
  [RecordTag_tag tag; RECORD_VERSION] ++ to_le 2 flags ++ to_le 2 HEADER_SIZE ++
  to_le 4 (zlen payload) ++ to_le 8 raw ++ content_id payload.
Definition record_image (tag : RecordTag) (flags raw : Z) (payload : bytes) : bytes :=
  let h := header_image tag flags raw payload in
  h ++ to_le 4 (crc32c h) ++ to_le 4 (crc32c payload) ++ payload.

Lemma length_header_image tag flags raw payload : length (header_image tag flags raw payload) = 50%nat.
Proof. unfold header_image. rewrite !length_app, !length_to_le, (proj1 (Hid payload)). done. Qed.

Lemma length_record_image tag flags raw payload :
  length (record_image tag flags raw payload) = (58 + length payload)%nat.
Proof. unfold record_image. rewrite !length_app, !length_to_le, length_header_image. lia. Qed.

Lemma record_encode_image tag flags ml payload :
  zlen payload < 2 ^ 32 ->
  record_encode crc32c content_id tag flags ml payload = record_image tag flags (default 0 ml) payload.
Proof.
  intros Hl. pose proof (zlen_nonneg payload). unfold record_encode. cbv zeta.
  rewrite (wrap_small 32) by width. rewrite (wrap_small 16 HEADER_SIZE) by done.
  set (pre := [RecordTag_tag tag; RECORD_VERSION] ++ to_le 2 flags ++ to_le 2 HEADER_SIZE ++
    to_le 4 (zlen payload) ++ to_le 8 (default 0 ml)).
  assert (Hpre : length pre = 18%nat) by (unfold pre; by rewrite !length_app, !length_to_le).
  match goal with |- context [Writer_bytes ?w (replicate 32 0)] => set (w0 := w) end.
  assert (Hw0 : w_buf w0 = pre) by (unfold w0, pre; destruct ml; cbn -[to_le]; by rewrite <-?app_assoc).
  unfold Writer_into_bytes, Writer_len, Writer_u32, Writer_bytes. cbn [w_buf]. rewrite Hw0.
  set (z := replicate 32 0). assert (Hz : length z = 32%nat) by done.
  rewrite to_nat_zlen. clear w0 Hw0.
  replace (Z.to_nat (1 + 1 + 2 + 2 + 4 + 8)) with (length pre) by (by rewrite Hpre).
  rewrite (take_ge (pre ++ z)) by done. set (c0 := to_le 4 (crc32c (pre ++ z))).
  assert (Hc0 : length c0 = 4%nat) by apply length_to_le.
  rewrite <-!app_assoc.
  assert (E : forall rest, splice (length pre) (content_id payload) (pre ++ z ++ rest) = header_image tag flags (default 0 ml) payload ++ rest).
  { intros rest. unfold splice. rewrite take_app_length, <-drop_drop, drop_app_length, (proj1 (Hid payload)), <-Hz, drop_app_length.
    unfold header_image, pre. by rewrite <-!app_assoc. }
  rewrite E. set (h := header_image _ _ _ _). assert (Hh : length h = 50%nat) by apply length_header_image.
  rewrite length_app, Hpre, Hz. change (18 + 32)%nat with 50%nat. rewrite <-Hh, take_app_length.
  unfold splice. rewrite take_app_length, <-drop_drop, drop_app_length, length_to_le, <-Hc0, drop_app_length. done.
Qed.

(** The record that an image at [offset] holds. *)
Definition record_at (tag : RecordTag) (flags raw : Z) (payload : bytes) (offset : Z) : SegRecord :=
  {| rec_tag := tag; rec_version := RECORD_VERSION; rec_flags := flags; rec_stored_len := zlen payload;
     rec_materialized_len := if negb (Z.land flags FLAG_HAS_MATERIALIZED_LEN =? 0) then Some raw else None;
     rec_content_id := content_id payload; rec_payload := payload; rec_offset := offset |}.

Record fields_ok (flags raw : Z) (payload : bytes) : Prop := {
  fok_flags : is_u16 flags;
  fok_raw : is_u64 raw;
  fok_payload : wf_bytes payload;
  fok_len : zlen payload < 2 ^ 32
}.

Lemma tag_not_zeros t l : forallb (fun b => b =? 0) (RecordTag_tag t :: l) = false.
Proof. by destruct t. Qed.

Lemma record_read_id_ok r id l :
  reader_at r (id ++ l) -> wf_id id -> exists r', record_read_id r = Ok (id, r') /\ reader_at r' l.
Proof. intros Hat [Hl _]. apply Reader_take_ok; [done|]. unfold zlen. by rewrite Hl. Qed.

(** Decoding at a whole header, whatever follows it. *)
Lemma record_decode_head pre tag flags raw payload rest :
  fields_ok flags raw payload -> zlen (pre ++ rest) + 58 < 2 ^ 63 ->
  record_decode crc32c content_id
    (pre ++ header_image tag flags raw payload ++ to_le 4 (crc32c (header_image tag flags raw payload)) ++
     to_le 4 (crc32c payload) ++ rest) (zlen pre) =
  fail_if zlen rest <? zlen payload with Truncated ;;
  let p := take (length payload) rest in
  fail_if negb (crc32c p =? crc32c payload) with Malformed ;;
  fail_if negb (bool_decide (content_id p = content_id payload)) with Malformed ;;
  Ok (Some {| rec_tag := tag; rec_version := RECORD_VERSION; rec_flags := flags; rec_stored_len := zlen payload;
     rec_materialized_len := if negb (Z.land flags FLAG_HAS_MATERIALIZED_LEN =? 0) then Some raw else None;
     rec_content_id := content_id payload; rec_payload := p; rec_offset := zlen pre |}).
Proof.
  intros [Hf Hr Hw Hl] Htot. pose proof (length_header_image tag flags raw payload) as Hh.
  pose proof (zlen_nonneg payload). pose proof (zlen_nonneg rest). pose proof (zlen_nonneg pre).
  rewrite zlen_app in Htot. unfold record_decode. cbv zeta. rewrite to_nat_zlen, drop_app_length.
  set (h := header_image tag flags raw payload) in *.
  assert (Hzh : zlen h = 50) by (unfold zlen; by rewrite Hh).
  set (head := h ++ _). assert (Hzhead : zlen head = 58 + zlen rest).
  { unfold head. autorewrite with zlen. lia. }
  rewrite zlen_app, Z.add_simpl_l, Hzhead, Z.max_r by lia. pass_guard.
  replace (forallb _ head) with false by (symmetry; apply tag_not_zeros).
  replace (58 + zlen rest <? HEADER_SIZE) with false by (change HEADER_SIZE with 58; lia).
  assert (Hat : reader_at (Reader_new head) head) by (apply Reader_new_at; lia).
  assert (Htake : take 50 head = h) by (unfold head; by rewrite <-Hh, take_app_length).
  assert (Hslice : forall n, slice 58 n head = take n rest).
  { intros n. unfold slice, head. change 58%nat with (50 + (4 + 4))%nat.
    rewrite <-!drop_drop, (drop_app_length' h) by done.
    by rewrite !drop_app_length' by (by rewrite length_to_le). }
  generalize dependent (Reader_new head). intros rd Hat. unfold head, h in Hat.
  fold h in Hat. unfold header_image in h. unfold h in Hat at 1. rewrite <-!app_assoc in Hat. cbn [app] in Hat.
  pose proof (RecordTag_tag_u8 tag). assert (is_u32 (zlen payload)) by width.
  read_with Reader_u8_ok. rewrite RecordTag_from_tag. cbn [ok_or rbind].
  read_with Reader_u8_ok. cbn [negb Z.eqb RECORD_VERSION Pos.eqb].
  read_with Reader_u16_ok. read_with Reader_u16_ok. rewrite Z.eqb_refl. cbn [negb].
  read_with Reader_u32_ok. read_with Reader_u64_ok.
  read_with record_read_id_ok.
  read_with Reader_u32_ok. read_with Reader_u32_ok.
  change (Z.to_nat (1 + 1 + 2 + 2 + 4 + 8 + 32)) with 50%nat. rewrite Htake, Z.eqb_refl. cbn [negb].
  replace (checked_add 64 HEADER_SIZE (zlen payload)) with (Some (58 + zlen payload))
    by (symmetry; apply checked_add_Some; change HEADER_SIZE with 58; lia).
  cbn [ok_or rbind].
  replace (58 + zlen rest <? 58 + zlen payload) with (zlen rest <? zlen payload) by lia.
  replace (Z.to_nat (58 + zlen payload - HEADER_SIZE)) with (length payload)
    by (change HEADER_SIZE with 58; unfold zlen; lia).
  change (Z.to_nat HEADER_SIZE) with 58%nat. by rewrite Hslice.
Qed.

Lemma record_decode_here pre tag flags raw payload post :
  fields_ok flags raw payload -> zlen (pre ++ record_image tag flags raw payload ++ post) < 2 ^ 63 ->
  record_decode crc32c content_id (pre ++ record_image tag flags raw payload ++ post) (zlen pre) =
  Ok (Some (record_at tag flags raw payload (zlen pre))).
Proof.
  intros Hok Htot. assert (Hl := length_record_image tag flags raw payload).
  unfold record_image in *. rewrite <-!app_assoc in *.
  rewrite record_decode_head; [| done | autorewrite with zlen in *; unfold zlen in *; rewrite length_header_image in Htot; lia].
  pose proof (zlen_nonneg post). rewrite zlen_app. pass_if. cbv zeta.
  rewrite take_app_length, Z.eqb_refl, bool_decide_eq_true_2 by done. done.
Qed.

(** A record cut short: a proper prefix of an image decodes to nothing, as
    the end of the log or as a truncation. *)
Lemma record_decode_cut pre tag flags raw payload k :
  fields_ok flags raw payload -> zlen (pre ++ record_image tag flags raw payload) < 2 ^ 63 ->
  (k < length (record_image tag flags raw payload))%nat ->
  record_decode crc32c content_id (pre ++ take k (record_image tag flags raw payload)) (zlen pre) =
  if decide (k = O) then Ok None else Err Truncated.
Proof.
  intros Hok Htot Hk. assert (Hl := length_record_image tag flags raw payload).
  pose proof (zlen_nonneg pre). destruct (decide (k = O)) as [->|Hk0].
  { unfold record_decode. cbv zeta. by rewrite app_nil_r, Z.sub_diag. }
  destruct (decide (k < 58)%nat) as [Hs|Hs].
  - assert (Hz : zlen (take k (record_image tag flags raw payload)) = Z.of_nat k)
      by (unfold zlen; rewrite length_take; lia).
    unfold record_decode. cbv zeta. rewrite zlen_app, Z.add_simpl_l, Hz, to_nat_zlen, drop_app_length, Z.max_r by lia.
    pass_guard. destruct k as [|k]; [done|]. unfold record_image, header_image at 1. cbn [app take].
    rewrite tag_not_zeros.
    replace (Z.of_nat (S k) <? HEADER_SIZE) with true by (symmetry; apply Z.ltb_lt; unfold HEADER_SIZE, RECORD_HEADER_SIZE; clear - Hs; lia).
    done.
  - unfold record_image. set (h := header_image _ _ _ _). assert (Hh : length h = 50%nat) by apply length_header_image.
    replace k with (50 + (4 + (4 + (k - 58))))%nat by lia.
    rewrite take_app_add' by done. rewrite 2 take_app_add' by (by rewrite length_to_le).
    unfold h. rewrite record_decode_head; [| done |].
    + assert (zlen (take (k - 58) payload) < zlen payload) by (unfold zlen; rewrite length_take; lia). by pass_guard.
    + rewrite zlen_app in *. unfold zlen in *. rewrite length_take in *. lia.
Qed.

(** What a successful decode has read. *)
Lemma record_decode_inv segment offset r :
  0 <= offset -> wf_bytes segment -> zlen segment < 2 ^ 63 ->
  record_decode crc32c content_id segment offset = Ok (Some r) ->
  exists raw rest, fields_ok (rec_flags r) raw (rec_payload r) /\
    drop (Z.to_nat offset) segment = record_image (rec_tag r) (rec_flags r) raw (rec_payload r) ++ rest /\
    r = record_at (rec_tag r) (rec_flags r) raw (rec_payload r) offset.
Proof.
  intros Hoff Hwf Hlen Hd. unfold record_decode in Hd. cbv zeta in Hd.
  destruct (Z.max 0 (zlen segment - offset) =? 0) eqn:Ha; [done|].
  set (head := drop (Z.to_nat offset) segment) in *.
  assert (Hhl : zlen head = zlen segment - offset).
  { unfold head, zlen in *. rewrite length_drop. lia. }
  assert (Hhw : wf_bytes head) by by apply Forall_drop.
  destruct (forallb _ head); [done|].
  assert (Hat : reader_at (Reader_new head) head).
  { apply Reader_new_at. lia. }
  rewrite <-Hhl, Z.max_r in Hd by apply zlen_nonneg.
  inv_ok Hd. bools.
  unfold record_read_id in *. change HEADER_SIZE with 58 in *. apply ok_or_Ok_inv in Hok0. apply RecordTag_tag_from in Hok0.
  apply ok_or_Ok_inv in Hok9. apply checked_add_Some in Hok9 as [-> _].
  rewrite Z.add_simpl_l in *. change (Z.to_nat 58) with 58%nat in *.
  set (payload := slice _ _ _) in *. clearbody head. rename Hhw into Hwh. clear Hwf Hlen Hhl Ha.
  reads_inv. destruct Hx5 as [Hl32 Hlw]. subst z z0 z2. clear r0 r1 r2 r3 r4 r5 r6 r7 Hat r8.
  set (h := [RecordTag_tag v; RECORD_VERSION] ++ to_le 2 z1 ++ to_le 2 58 ++ to_le 4 z3 ++ to_le 8 z4 ++ l).
  assert (Hh : length h = 50%nat).
  { unfold h. rewrite !length_app, !length_to_le. unfold zlen in Hl32. cbn [length]. lia. }
  match goal with |- exists raw rest, _ /\ ?x = _ /\ _ => set (whole := x) in * end.
  assert (Hwhole : whole = h ++ to_le 4 z5 ++ to_le 4 z6 ++ l0).
  { unfold whole, h. rewrite <-!app_assoc. done. }
  clearbody whole. subst whole.
  assert (Hz3 : zlen payload = z3 /\ payload = take (Z.to_nat z3) l0).
  { assert (Hp : payload = take (Z.to_nat z3) l0).
    { unfold payload, slice. change 58%nat with (50 + (4 + (4 + 0)))%nat.
      rewrite <-!drop_drop, (drop_app_length' h) by done.
      by rewrite !drop_app_length' by (by rewrite length_to_le). }
    split; [|done]. rewrite Hp. autorewrite with zlen in Hc3. unfold zlen in *. rewrite length_take, Hh in *. width. }
  destruct Hz3 as [Hz3 Hp]. clearbody payload.
  change (Z.to_nat (1 + 1 + 2 + 2 + 4 + 8 + 32)) with 50%nat in Hc2. rewrite (take_app_length' h) in Hc2 by done.
  assert (Himg : h = header_image v z1 z4 payload).
  { unfold h, header_image. rewrite Hz3, Hc5. done. }
  exists z4, (drop (Z.to_nat z3) l0). cbn [rec_flags rec_payload rec_tag]. split_and!.
  - split; [done | done | | width]. rewrite Hp. by apply Forall_take.
  - unfold record_image. rewrite <-Himg, Hc2, Hc4, <-!app_assoc. do 3 f_equal. rewrite Hp. by rewrite take_drop.
  - unfold record_at. by rewrite Hz3, Hc5.
Qed.

(** * The envelope's contract *)

(** The envelope is canonical: [decode] returns a record exactly when the
    bytes at the offset are the image of its tag, flags, payload and of some
    materialized-length field (both CRCs and the content id computed from
    them), and then it returns that record at that offset. *)
Theorem record_decode_exact segment offset r :
  0 <= offset -> wf_bytes segment -> zlen segment < 2 ^ 63 ->
  record_decode crc32c content_id segment offset = Ok (Some r) <->
  exists raw rest, fields_ok (rec_flags r) raw (rec_payload r) /\
    drop (Z.to_nat offset) segment = record_image (rec_tag r) (rec_flags r) raw (rec_payload r) ++ rest /\
    r = record_at (rec_tag r) (rec_flags r) raw (rec_payload r) offset.
Proof.
  intros Hoff Hwf Hlen. split; [by apply record_decode_inv|].
  intros (raw & rest & Hok & Hd & ->). cbn [rec_tag rec_flags rec_payload record_at] in *.
  assert (Hz : zlen (take (Z.to_nat offset) segment) = offset).
  { apply (f_equal length) in Hd. rewrite length_app, length_record_image, length_drop in Hd.
    unfold zlen. rewrite length_take. lia. }
  rewrite <-(take_drop (Z.to_nat offset) segment), Hd in Hlen |- *. rewrite <-Hz at 2.
  by rewrite record_decode_here, Hz.
Qed.

(** A record that [encode] wrote reads back at its offset inside any
    segment, with [next_offset] just behind it; a record cut short there (the
    torn end of a log) reads as the end of the log or as [Truncated], never
    as a record and never as corruption. *)
Theorem record_roundtrip pre tag flags ml payload post k :
  fields_ok flags (default 0 ml) payload ->
  let e := record_encode crc32c content_id tag flags ml payload in
  zlen (pre ++ e ++ post) < 2 ^ 63 -> (k < length e)%nat ->
  record_decode crc32c content_id (pre ++ e ++ post) (zlen pre) =
    Ok (Some (record_at tag flags (default 0 ml) payload (zlen pre))) /\
  next_offset (record_at tag flags (default 0 ml) payload (zlen pre)) = Ok (zlen (pre ++ e)) /\
  record_decode crc32c content_id (pre ++ take k e) (zlen pre) =
    if decide (k = O) then Ok None else Err Truncated.
Proof.
  cbv zeta. intros Hok. rewrite record_encode_image by apply Hok. intros Hlen Hk.
  pose proof (zlen_nonneg post). rewrite app_assoc, zlen_app in Hlen.
  split_and!; [| | by apply record_decode_cut; [| lia |]].
  - apply record_decode_here; [done|]. rewrite app_assoc, zlen_app. lia.
  - unfold next_offset. rewrite zlen_app in *. unfold record_at, SegRecord_total_size. cbn [rec_offset rec_stored_len].
    assert (Hz : zlen (record_image tag flags (default 0 ml) payload) = 58 + zlen payload)
      by (unfold zlen; rewrite length_record_image; lia).
    unfold HEADER_SIZE, RECORD_HEADER_SIZE. rewrite <-Hz.
    replace (checked_add _ _ _) with (Some (zlen pre + zlen (record_image tag flags (default 0 ml) payload)));
      [done|]. symmetry. apply checked_add_Some. lia.
Qed.
End Image.

(** A checksum and a content hash for the examples: the byte sum, and a
    polynomial in the payload. *)
Definition sample_crc (b : bytes) : Z := fold_left (fun h x => (h * 31 + x + 1) mod 2 ^ 32) b 7.
Definition sample_hash (b : bytes) : ChunkId := to_le 32 (fold_left (fun h x => (h * 257 + x + 1) mod 2 ^ 248) b 1).
Lemma sample_hash_wf b : wf_id (sample_hash b).
Proof. split; [apply length_to_le | apply to_le_wf]. Qed.
Lemma sample_crc_u32 b : is_u32 (sample_crc b).
Proof.
  unfold sample_crc. destruct b as [|x b] using rev_ind; [by split|].
  rewrite fold_left_app. cbn. by apply Z.mod_pos_bound.
Qed.

Lemma record_roundtrip_witness :
  let e := record_encode sample_crc sample_hash Data 1 (Some 300) [1; 2; 3] in
  record_decode sample_crc sample_hash ([9; 9] ++ e ++ [0]) 2 =
    Ok (Some (record_at sample_hash Data 1 300 [1; 2; 3] 2)) /\
  next_offset (record_at sample_hash Data 1 300 [1; 2; 3] 2) = Ok 63 /\
  record_decode sample_crc sample_hash ([9; 9] ++ take 60 e) 2 = Err Truncated.
Proof.
  apply (record_roundtrip sample_crc sample_hash sample_hash_wf sample_crc_u32 [9; 9] Data 1 (Some 300) [1; 2; 3] [0] 60).
  - split; [width | cbn; width | repeat constructor; width | done].
  - by vm_compute.
  - apply Nat.ltb_lt. by vm_compute.
Defined.

Lemma record_decode_exact_witness :
  let e := record_encode sample_crc sample_hash RootTag 0 None [5] in
  record_decode sample_crc sample_hash e 0 = Ok (Some (record_at sample_hash RootTag 0 0 [5] 0)) /\
  exists raw rest, fields_ok 0 raw [5] /\
    e = record_image sample_crc sample_hash RootTag 0 raw [5] ++ rest /\
    record_at sample_hash RootTag 0 0 [5] 0 = record_at sample_hash RootTag 0 raw [5] 0.
Proof.
  cbv zeta. split; [by vm_compute|].
  apply (record_decode_exact sample_crc sample_hash sample_hash_wf sample_crc_u32
           (record_encode sample_crc sample_hash RootTag 0 None [5]) 0 (record_at sample_hash RootTag 0 0 [5] 0)).
  - done.
  - apply (bool_decide_unpack _). by vm_compute.
  - by vm_compute.
  - by vm_compute.
Defined.
