(* ===== verification/Inode.v ===== *)
(** Component [store/inode.rs]: inodes, their codec and the agreement of the
    type bits with the data kind.  The clock is a parameter of the
    constructors. *)
From Stdlib Require String.
From S2P Require Import Prelude Codec Repr Version SegRecord Descriptor.
Import String.StringSyntax.

Definition DATA_DIRECTORY : Z := 1.
Definition DATA_FILE : Z := 2.
Definition DATA_SYMLINK : Z := 3.
Definition DATA_DEVICE : Z := 4.

(** [mod mode], in octal there *)
Definition S_IFMT : Z := 0xF000.
Definition S_IFDIR : Z := 0x4000.
Definition S_IFREG : Z := 0x8000.
Definition S_IFLNK : Z := 0xA000.
Definition S_IFCHR : Z := 0x2000.
Definition S_IFBLK : Z := 0x6000.
Definition S_IPERM : Z := 0xFFF.

Record Timespec : Type := { ts_sec : Z; ts_nsec : Z }.
#[global] Instance Timespec_eq_dec : EqDecision Timespec.
Proof. solve_decision. Defined.

Definition Timespec_encode (w : Writer) (t : Timespec) : Writer :=
  let w := Writer_u64 w (ts_sec t) in
  Writer_u32 w (ts_nsec t).

Definition Timespec_decode (r : Reader) : result CodecError (Timespec * Reader) :=
  let! '(sec, r) := Reader_u64 r in
  let! '(nsec, r) := Reader_u32 r in
  fail_if 1000000000 <=? nsec with Malformed ;;
  Ok ({| ts_sec := sec; ts_nsec := nsec |}, r).

Inductive InodeData : Type :=
  | IDirectory (dir_root : ChunkId)
  | IFile (extent_root : ChunkId)
  | ISymlink (target : bytes)
  | IDevice.
#[global] Instance InodeData_eq_dec : EqDecision InodeData.
Proof. solve_decision. Defined.

Record Inode : Type := {
  i_mode : Z;
  i_uid : Z;
  i_gid : Z;
  i_size : Z;
  i_atime : Timespec;
  i_ctime : Timespec;
  i_mtime : Timespec;
  i_crtime : Timespec;
  i_nlink : Z;
  i_rdev : Z;
  i_flags : Z;
  i_xattr_root : ChunkId;
  i_data_kind : Z;
  i_data : InodeData
}.
#[global] Instance Inode_eq_dec : EqDecision Inode.
Proof. solve_decision. Defined.

Definition new_inode (now : Timespec) (mode uid gid size nlink kind : Z) (data : InodeData) : Inode :=
  {| i_mode := mode; i_uid := uid; i_gid := gid; i_size := size; i_atime := now; i_ctime := now;
     i_mtime := now; i_crtime := now; i_nlink := nlink; i_rdev := 0; i_flags := 0;
     i_xattr_root := ChunkId_ZERO; i_data_kind := kind; i_data := data |}.
Definition new_file (now : Timespec) (uid gid mode_perms : Z) : Inode :=
  new_inode now (Z.lor S_IFREG (Z.land mode_perms S_IPERM)) uid gid 0 1 DATA_FILE (IFile ChunkId_ZERO).
Definition new_dir (now : Timespec) (uid gid mode_perms : Z) : Inode :=
  new_inode now (Z.lor S_IFDIR (Z.land mode_perms S_IPERM)) uid gid 0 2 DATA_DIRECTORY (IDirectory ChunkId_ZERO).
Definition new_symlink (now : Timespec) (target : bytes) (uid gid : Z) : Inode :=
  new_inode now (Z.lor S_IFLNK 0x1FF) uid gid (zlen target) 1 DATA_SYMLINK (ISymlink target).

Definition file_type (t : Inode) : Z := Z.land (i_mode t) S_IFMT.
Definition is_dir (t : Inode) : bool := file_type t =? S_IFDIR.
Definition is_file (t : Inode) : bool := file_type t =? S_IFREG.
Definition is_symlink (t : Inode) : bool := file_type t =? S_IFLNK.

(** A symlink target that does not fit the length prefix is the [expect]'s
    panic. *)
Definition Inode_encode (t : Inode) : result (trap CodecError) bytes :=
  let w := Writer_new in
  let w := Writer_u32 w (i_mode t) in
  let w := Writer_u32 w (i_uid t) in
  let w := Writer_u32 w (i_gid t) in
  let w := Writer_u64 w (i_size t) in
  let w := Timespec_encode w (i_atime t) in
  let w := Timespec_encode w (i_ctime t) in
  let w := Timespec_encode w (i_mtime t) in
  let w := Timespec_encode w (i_crtime t) in
  let w := Writer_u32 w (i_nlink t) in
  let w := Writer_u32 w (i_rdev t) in
  let w := Writer_u32 w (i_flags t) in
  let w := Writer_bytes w (i_xattr_root t) in
  let w := Writer_u8 w (i_data_kind t) in
  let! w :=
    (match i_data t with
     | IDirectory dir_root => Ok (Writer_bytes w dir_root)
     | IFile extent_root => Ok (Writer_bytes w extent_root)
     | ISymlink target => map_err (fun _ => Panic) (Writer_bytes32 w target)
     | IDevice => Ok w
     end) in
  Ok (Writer_into_bytes w).

Definition decode_data (data_kind : Z) (r : Reader) : result CodecError (InodeData * Reader) :=
  if data_kind =? DATA_DIRECTORY then
    let! '(id, r) := record_read_id r in Ok (IDirectory id, r)
  else if data_kind =? DATA_FILE then
    let! '(id, r) := record_read_id r in Ok (IFile id, r)
  else if data_kind =? DATA_SYMLINK then
    let! '(target, r) := Reader_bytes32 r in Ok (ISymlink target, r)
  else if data_kind =? DATA_DEVICE then Ok (IDevice, r)
  else Err Malformed.

(** The type bits a data kind calls for. *)
Definition expected_type (data_kind : Z) : result CodecError Z :=
  if data_kind =? DATA_DIRECTORY then Ok S_IFDIR
  else if data_kind =? DATA_FILE then Ok S_IFREG
  else if data_kind =? DATA_SYMLINK then Ok S_IFLNK
  else if data_kind =? DATA_DEVICE then Ok (Z.lor S_IFCHR S_IFBLK)
  else Err Malformed.

Definition type_mismatch (ft expected data_kind : Z) : bool :=
  negb (ft =? expected) &&
  negb ((data_kind =? DATA_DEVICE) && negb (ft =? 0) && negb (Z.land ft (Z.lor S_IFCHR S_IFBLK) =? 0)).

Definition Inode_decode (b : bytes) : result CodecError Inode :=
  let r := Reader_new b in
  let! '(mode, r) := Reader_u32 r in
  let! '(uid, r) := Reader_u32 r in
  let! '(gid, r) := Reader_u32 r in
  let! '(size, r) := Reader_u64 r in
  let! '(atime, r) := Timespec_decode r in
  let! '(ctime, r) := Timespec_decode r in
  let! '(mtime, r) := Timespec_decode r in
  let! '(crtime, r) := Timespec_decode r in
  let! '(nlink, r) := Reader_u32 r in
  let! '(rdev, r) := Reader_u32 r in
  let! '(flags, r) := Reader_u32 r in
  let! '(xattr_root, r) := record_read_id r in
  let! '(data_kind, r) := Reader_u8 r in
  let! '(data, r) := decode_data data_kind r in
  fail_if negb (Reader_done r) with Malformed ;;
  let ft := Z.land mode S_IFMT in
  let! expected := expected_type data_kind in
  fail_if type_mismatch ft expected data_kind with Malformed ;;
  Ok {| i_mode := mode; i_uid := uid; i_gid := gid; i_size := size; i_atime := atime; i_ctime := ctime;
        i_mtime := mtime; i_crtime := crtime; i_nlink := nlink; i_rdev := rdev; i_flags := flags;
        i_xattr_root := xattr_root; i_data_kind := data_kind; i_data := data |}.

(** * The codec is exact *)

Definition timespec_wf (t : Timespec) : Prop := is_u64 (ts_sec t) /\ 0 <= ts_nsec t < 1000000000.

Definition data_kind_of (d : InodeData) : Z :=
  match d with
  | IDirectory _ => DATA_DIRECTORY | IFile _ => DATA_FILE | ISymlink _ => DATA_SYMLINK | IDevice => DATA_DEVICE
  end.
Definition data_wf (d : InodeData) : Prop :=
  match d with
  | IDirectory id | IFile id => wf_id id
  | ISymlink target => wf_bytes target /\ zlen target < 2 ^ 32
  | IDevice => True
  end.
Definition data_image (d : InodeData) : bytes :=
  match d with
  | IDirectory id | IFile id => id
  | ISymlink target => to_le 4 (zlen target) ++ target
  | IDevice => []
  end.

(** The type bits each kind of data admits: exactly its own, and for a device
    any that have the character or the block bit. *)
Definition type_ok (ft : Z) (d : InodeData) : Prop :=
  match d with
  | IDirectory _ => ft = S_IFDIR
  | IFile _ => ft = S_IFREG
  | ISymlink _ => ft = S_IFLNK
  | IDevice => ft <> 0 /\ Z.land ft (Z.lor S_IFCHR S_IFBLK) <> 0
  end.

Record inode_wf (t : Inode) : Prop := {
  iw_mode : is_u32 (i_mode t);
  iw_uid : is_u32 (i_uid t);
  iw_gid : is_u32 (i_gid t);
  iw_size : is_u64 (i_size t);
  iw_atime : timespec_wf (i_atime t);
  iw_ctime : timespec_wf (i_ctime t);
  iw_mtime : timespec_wf (i_mtime t);
  iw_crtime : timespec_wf (i_crtime t);
  iw_nlink : is_u32 (i_nlink t);
  iw_rdev : is_u32 (i_rdev t);
  iw_flags : is_u32 (i_flags t);
  iw_xattr : wf_id (i_xattr_root t);
  iw_kind : i_data_kind t = data_kind_of (i_data t);
  iw_data : data_wf (i_data t);
  iw_type : type_ok (file_type t) (i_data t)
}.

Definition time_image (t : Timespec) : bytes := to_le 8 (ts_sec t) ++ to_le 4 (ts_nsec t).
Definition inode_image (t : Inode) : bytes :=
  to_le 4 (i_mode t) ++ to_le 4 (i_uid t) ++ to_le 4 (i_gid t) ++ to_le 8 (i_size t) ++
  time_image (i_atime t) ++ time_image (i_ctime t) ++ time_image (i_mtime t) ++ time_image (i_crtime t) ++
  to_le 4 (i_nlink t) ++ to_le 4 (i_rdev t) ++ to_le 4 (i_flags t) ++ i_xattr_root t ++
  [i_data_kind t] ++ data_image (i_data t).

(** The symlink target fits its length prefix. *)
Definition data_fits (d : InodeData) : Prop := match d with ISymlink target => zlen target < 2 ^ 32 | _ => True end.

Lemma Inode_encode_fits t : data_fits (i_data t) -> Inode_encode t = Ok (inode_image t).
Proof.
  intros Hd. unfold Inode_encode, Writer_into_bytes, Timespec_encode, Writer_bytes32, Writer_bytes, Writer_u8, Writer_u32, Writer_u64.
  cbn [w_buf Writer_new app]. unfold inode_image, time_image.
  destruct (i_data t) as [id|id|target|]; cbn [data_fits data_image] in *; cbn [rbind map_err w_buf].
  3: pass_guard; cbn [rbind map_err w_buf].
  all: by rewrite <-?app_assoc, ?app_nil_r.
Qed.

Lemma data_wf_fits d : data_wf d -> data_fits d.
Proof. destruct d; cbn; [done|done|by intros []|done]. Qed.
Lemma Inode_encode_image t : data_wf (i_data t) -> Inode_encode t = Ok (inode_image t).
Proof. intros Hd. by apply Inode_encode_fits, data_wf_fits. Qed.

Lemma Timespec_decode_ok r t l :
  reader_at r (time_image t ++ l) -> timespec_wf t -> exists r', Timespec_decode r = Ok (t, r') /\ reader_at r' l.
Proof.
  intros Hat [Hs Hn]. unfold time_image in Hat. rewrite <-app_assoc in Hat. unfold Timespec_decode.
  read_with Reader_u64_ok. assert (is_u32 (ts_nsec t)) by width. read_with Reader_u32_ok.
  pass_guard. exists r1. by destruct t.
Qed.

Lemma Timespec_decode_inv r l t r' :
  reader_at r l -> wf_bytes l -> Timespec_decode r = Ok (t, r') ->
  exists l', l = time_image t ++ l' /\ reader_at r' l' /\ wf_bytes l' /\ timespec_wf t.
Proof.
  intros Hat Hwf H. unfold Timespec_decode in H. inv_ok H. bools. reads_inv.
  eexists. split_and!; [by rewrite app_assoc | done | done |]. split; cbn; width.
Qed.

Lemma type_mismatch_ok ft d : forall e, expected_type (data_kind_of d) = Ok e ->
  type_mismatch ft e (data_kind_of d) = false <-> type_ok ft d.
Proof.
  intros e He. unfold type_mismatch, type_ok. destruct d; cbn in He; injection He as <-; cbn [data_kind_of].
  1-3: cbn [Z.eqb]; rewrite andb_true_r, negb_false_iff, Z.eqb_eq; done.
  change (DATA_DEVICE =? DATA_DEVICE) with true. cbn [andb]. rewrite andb_false_iff, !negb_false_iff, andb_true_iff, !negb_true_iff, !Z.eqb_neq, Z.eqb_eq.
  split; [intros [->|?]; [done|done] | by right].
Qed.

Lemma decode_data_ok r d l :
  reader_at r (data_image d ++ l) -> data_wf d ->
  exists r', decode_data (data_kind_of d) r = Ok (d, r') /\ reader_at r' l.
Proof.
  intros Hat Hd. unfold decode_data. destruct d as [id|id|target|]; cbn [data_kind_of data_image data_wf] in *.
  - change (DATA_DIRECTORY =? DATA_DIRECTORY) with true. cbv iota. read_with record_read_id_ok. eauto.
  - change (DATA_FILE =? DATA_DIRECTORY) with false. change (DATA_FILE =? DATA_FILE) with true. cbv iota.
    read_with record_read_id_ok. eauto.
  - change (DATA_SYMLINK =? DATA_DIRECTORY) with false. change (DATA_SYMLINK =? DATA_FILE) with false.
    change (DATA_SYMLINK =? DATA_SYMLINK) with true. cbv iota. destruct Hd as [_ Hd]. pose proof (zlen_nonneg target).
    rewrite <-app_assoc in Hat. unfold Reader_bytes32, Reader_bytes32_capped. assert (is_u32 (zlen target)) by width.
    read_with Reader_u32_ok. pass_guard. read_with Reader_take_ok. eauto.
  - exists r. done.
Qed.

Lemma decode_data_inv r l k d r' :
  reader_at r l -> wf_bytes l -> decode_data k r = Ok (d, r') ->
  exists l', l = data_image d ++ l' /\ reader_at r' l' /\ wf_bytes l' /\ (k = data_kind_of d /\ data_wf d).
Proof.
  intros Hat Hwf H. unfold decode_data, record_read_id, Reader_bytes32, Reader_bytes32_capped in H.
  destruct (Z.eqb_spec k DATA_DIRECTORY) as [->|_]; [|destruct (Z.eqb_spec k DATA_FILE) as [->|_];
    [|destruct (Z.eqb_spec k DATA_SYMLINK) as [->|_]; [|destruct (Z.eqb_spec k DATA_DEVICE) as [->|_]; [|done]]]]; inv_ok H.
  - reads_inv. destruct Hx. eexists. split_and!; [done..| by apply id_wf].
  - reads_inv. destruct Hx. eexists. split_and!; [done..| by apply id_wf].
  - inv_ok Hok. bools. reads_inv. destruct_and?. subst. eexists. cbn [data_image data_wf]. rewrite <-app_assoc. split_and!; try done; width.
  - exists l. by split_and!.
Qed.

Lemma inode_decode_fwd t : inode_wf t -> zlen (inode_image t) < 2 ^ 63 -> Inode_decode (inode_image t) = Ok t.
Proof.
  intros H Hlen. pose proof (Reader_new_at _ Hlen) as Hat. unfold Inode_decode. cbv zeta.
  generalize dependent (Reader_new (inode_image t)). intros rd Hat. unfold inode_image in Hat. clear Hlen.
  destruct H. rewrite iw_kind0 in Hat. rewrite <-(app_nil_r (data_image _)) in Hat.
  do 3 read_with Reader_u32_ok. read_with Reader_u64_ok. do 4 read_with Timespec_decode_ok. do 3 read_with Reader_u32_ok.
  read_with record_read_id_ok. cbn [app] in Hat10.
  assert (is_u8 (data_kind_of (i_data t))) by (by destruct (i_data t)). read_with Reader_u8_ok. read_with decode_data_ok.
  match goal with H : reader_at ?r [] |- _ => rewrite (Reader_done_spec _ _ H) end. cbn [bool_decide negb].
  destruct (expected_type (data_kind_of (i_data t))) as [e|] eqn:Ee; [|by destruct (i_data t)]. cbn [rbind].
  pose proof (proj2 (type_mismatch_ok (file_type t) _ _ Ee) iw_type0) as Ht. unfold file_type in Ht. rewrite Ht.
  rewrite <-iw_kind0. by destruct t.
Qed.

Ltac inode_read_step :=
  first [ read_inv_step
        | match goal with
          | Hat : reader_at ?r ?l, Hwf : wf_bytes ?l, H : Timespec_decode ?r = Ok _ |- _ =>
              apply (Timespec_decode_inv _ _ _ _ Hat Hwf) in H; clear Hat Hwf
          | Hat : reader_at ?r ?l, Hwf : wf_bytes ?l, H : decode_data _ ?r = Ok _ |- _ =>
              apply (decode_data_inv _ _ _ _ _ Hat Hwf) in H; clear Hat Hwf
          end; read_inv_split ].

Lemma inode_decode_bwd b t :
  wf_bytes b -> zlen b < 2 ^ 63 -> Inode_decode b = Ok t -> inode_wf t /\ b = inode_image t.
Proof.
  intros Hwf Hlen Hd. unfold Inode_decode in Hd. cbv zeta in Hd.
  pose proof (Reader_new_at b Hlen) as Hat. generalize dependent (Reader_new b). intros rd Hd Hat.
  inv_ok Hd. unfold record_read_id in *. bools. repeat inode_read_step.
  destruct_and?. subst.
  match goal with Hr : reader_at ?r ?l, Hd : Reader_done ?r = true |- _ =>
    rewrite (Reader_done_spec _ _ Hr) in Hd; apply bool_decide_eq_true in Hd; subst l end.
  split; [split; cbn; auto using id_wf|].
  - match goal with H : expected_type _ = Ok _ |- _ => apply (type_mismatch_ok _ _ _ H) end. done.
  - unfold inode_image. cbn. by rewrite app_nil_r.
Qed.

(** The inode codec is exact: a payload decodes to an inode precisely when
    the inode is well formed (fields in range, nanoseconds below a second,
    the data kind that of its data, type bits the kind admits) and the
    payload is its encoding; every other payload is refused.  In particular
    what [encode] writes for a well-formed inode reads back as that inode. *)
Theorem inode_decode_exact b t :
  wf_bytes b -> zlen b < 2 ^ 63 ->
  Inode_decode b = Ok t <-> inode_wf t /\ Inode_encode t = Ok b.
Proof.
  intros Hwf Hlen. split.
  - intros Hd. apply inode_decode_bwd in Hd as [Hw ->]; [|done|done]. split; [done|]. apply Inode_encode_image, Hw.
  - intros [Hw He]. rewrite Inode_encode_image in He by apply Hw. injection He as <-. by apply inode_decode_fwd.
Qed.

(** The constructors make well-formed inodes. *)
Lemma land_perm m : 0 <= Z.land m S_IPERM < 2 ^ 12.
Proof. change S_IPERM with (Z.ones 12). rewrite Z.land_ones by lia. by apply Z.mod_pos_bound. Qed.

Lemma new_mode k m :
  k = S_IFREG \/ k = S_IFDIR \/ k = S_IFCHR \/ k = S_IFBLK -> is_u32 (Z.lor k (Z.land m S_IPERM)) /\ Z.land (Z.lor k (Z.land m S_IPERM)) S_IFMT = k.
Proof.
  intros Hk. pose proof (land_perm m) as Hp. set (q := Z.land m S_IPERM) in *.
  assert (E : Z.land q S_IFMT = 0).
  { unfold q. rewrite <-Z.land_assoc. change (Z.land S_IPERM S_IFMT) with 0. apply Z.land_0_r. }
  split.
  - assert (H0 : Z.land k q = 0).
    { unfold q. rewrite (Z.land_comm m), Z.land_assoc. destruct Hk as [->|[->|[->| ->]]]; apply Z.land_0_l. }
    rewrite <-Z.lxor_lor, <-Z.add_nocarry_lxor by done. change S_IFREG with 32768 in *. change S_IFDIR with 16384 in *. change S_IFCHR with 8192 in *. change S_IFBLK with 24576 in *.
    destruct Hk as [->|[->|[->| ->]]]; width.
  - rewrite Z.land_lor_distr_l, E, Z.lor_0_r. by destruct Hk as [->|[->|[->| ->]]].
Qed.

Lemma zero_id_wf : wf_id ChunkId_ZERO.
Proof. split; [done|]. apply (bool_decide_unpack _). by vm_compute. Qed.

Lemma new_inode_wf now uid gid m target :
  timespec_wf now -> is_u32 uid -> is_u32 gid -> wf_bytes target -> zlen target < 2 ^ 32 ->
  inode_wf (new_file now uid gid m) /\ inode_wf (new_dir now uid gid m) /\ inode_wf (new_symlink now target uid gid).
Proof.
  intros Ht Hu Hg Hw Hl. pose proof (zlen_nonneg target).
  destruct (new_mode S_IFREG m ltac:(auto)), (new_mode S_IFDIR m ltac:(auto)).
  split_and!; (split; cbn; try done; try width; try (by split); try exact zero_id_wf).
Qed.

Definition sample_time : Timespec := {| ts_sec := 1700000000; ts_nsec := 999999999 |}.
Definition sample_inode : Inode := new_symlink sample_time [47; 97] 1000 1000.

Lemma inode_decode_exact_witness :
  Inode_decode (inode_image sample_inode) = Ok sample_inode.
Proof.
  apply inode_decode_exact; [apply (bool_decide_unpack _); by vm_compute | by vm_compute |].
  split; [|by vm_compute].
  apply (new_inode_wf sample_time 1000 1000 0 [47; 97]); try (by split); try done; repeat constructor; width.
Defined.

(** The type bits of a device are not checked against each other: a payload
    of device kind with the type bits of a directory, or of a symlink,
    decodes, and [is_dir] is then true of it; one with the type bits of a
    FIFO does not. *)
Definition device_inode (mode : Z) : Inode := new_inode sample_time mode 0 0 0 1 DATA_DEVICE IDevice.
Example device_with_directory_bits :
  Inode_decode (inode_image (device_inode S_IFDIR)) = Ok (device_inode S_IFDIR) /\
  is_dir (device_inode S_IFDIR) = true /\
  Inode_decode (inode_image (device_inode S_IFLNK)) = Ok (device_inode S_IFLNK) /\
  Inode_decode (inode_image (device_inode 0x1000)) = Err Malformed.
Proof. by vm_compute. Qed.
