(* ===== verification/Superblock.v ===== *)
(** Components [format/features.rs] and [format/superblock.rs]: the feature
    registry with the compatibility gate of an open, and the 512-byte
    superblock slot.  The CRC is a parameter. *)
From Stdlib Require String.
From S2P Require Import Prelude Codec Repr Version SegRecord.
Import String.StringSyntax.

(** * Features *)

Inductive Feature : Type :=
| Chunk4K | Chunk16K | Chunk256K | FEntropyRef | FPalette | FPermutation | Encrypted | ExtentDeltaIndex
| OptimizerRewrite | FSequenceRans | FSparseBlock64 | FSequenceDict | FSequenceSharedDict | FSequenceDeep
| FMutationLog.
#[global] Instance Feature_eq_dec : EqDecision Feature.
Proof. solve_decision. Defined.

Inductive FeatureSetKind : Type :=
| Compat
| RoCompat
| Incompat.

(** [self as u8] *)
Definition Feature_code (f : Feature) : Z :=
  match f with
  | Chunk4K => 1 | Chunk16K => 2 | Chunk256K => 3 | FEntropyRef => 4 | FPalette => 5 | FPermutation => 6
  | Encrypted => 7 | ExtentDeltaIndex => 8 | OptimizerRewrite => 9 | FSequenceRans => 10
  | FSparseBlock64 => 11 | FSequenceDict => 12 | FSequenceSharedDict => 13 | FSequenceDeep => 14
  | FMutationLog => 15
  end.

Definition Feature_set (f : Feature) : FeatureSetKind :=
  match f with
  | Encrypted => RoCompat
  | ExtentDeltaIndex | OptimizerRewrite => Compat
  | _ => Incompat
  end.

Definition Feature_mask (f : Feature) : Z := Z.shiftl 1 (Feature_code f - 1).

Definition Feature_ALL : list Feature :=
  [Chunk4K; Chunk16K; Chunk256K; FEntropyRef; FPalette; FPermutation; Encrypted; ExtentDeltaIndex;
   OptimizerRewrite; FSequenceRans; FSparseBlock64; FSequenceDict; FSequenceSharedDict; FSequenceDeep;
   FMutationLog].

Record FeatureBits : Type := { compat : Z; ro_compat : Z; incompat : Z }.
#[global] Instance FeatureBits_eq_dec : EqDecision FeatureBits.
Proof. solve_decision. Defined.

Definition FeatureBits_empty : FeatureBits := {| compat := 0; ro_compat := 0; incompat := 0 |}.

Definition FeatureBits_enable (b : FeatureBits) (f : Feature) : FeatureBits :=
  match Feature_set f with
  | Compat => {| compat := Z.lor (compat b) (Feature_mask f); ro_compat := ro_compat b; incompat := incompat b |}
  | RoCompat => {| compat := compat b; ro_compat := Z.lor (ro_compat b) (Feature_mask f); incompat := incompat b |}
  | Incompat => {| compat := compat b; ro_compat := ro_compat b; incompat := Z.lor (incompat b) (Feature_mask f) |}
  end.

Definition FeatureBits_has (b : FeatureBits) (f : Feature) : bool :=
  match Feature_set f with
  | Compat => negb (Z.land (compat b) (Feature_mask f) =? 0)
  | RoCompat => negb (Z.land (ro_compat b) (Feature_mask f) =? 0)
  | Incompat => negb (Z.land (incompat b) (Feature_mask f) =? 0)
  end.

Definition for_representations (b : FeatureBits) (has_entropy_ref has_palette has_permutation : bool) : FeatureBits :=
  let out := b in
  let out := if has_entropy_ref then FeatureBits_enable out FEntropyRef else out in
  let out := if has_palette then FeatureBits_enable out FPalette else out in
  if has_permutation then FeatureBits_enable out FPermutation else out.

Inductive AccessMode : Type :=
| ReadOnly
| ReadWrite.

(** [remediation] is prose and left out. *)
Record CompatibilityError : Type := {
  ce_format_major : Z;
  ce_format_minor : Z;
  unknown_incompat : Z;
  unknown_ro_compat : Z;
  unknown_compat : Z;
  access : AccessMode
}.

Definition unknown_any (e : CompatibilityError) : Z :=
  Z.lor (Z.lor (unknown_incompat e) (unknown_ro_compat e)) (unknown_compat e).

Inductive Compatibility : Type :=
| COk
| ReadOnlyOnly (e : CompatibilityError)
| Refused (e : CompatibilityError).

Definition supported_incompat_mask : Z :=
  fold_left Z.lor
    (map Feature_mask [Chunk16K; Chunk256K; FEntropyRef; FPalette; FPermutation; FSequenceRans; FSparseBlock64;
       FSequenceDict; FSequenceSharedDict; FSequenceDeep; FMutationLog]) (Feature_mask Chunk4K).
Definition supported_ro_compat_mask : Z := 0.
Definition supported_compat_mask : Z := Z.lor (Feature_mask ExtentDeltaIndex) (Feature_mask OptimizerRewrite).

(** [a & !b] *)
Definition and_not (a b : Z) : Z := Z.land a (Z.lxor b (2 ^ 64 - 1)).

Definition check_with_version (on_disk : FeatureBits) (want_write : bool) (format_major format_minor : Z) : Compatibility :=
  let unknown_incompat := and_not (incompat on_disk) supported_incompat_mask in
  if negb (unknown_incompat =? 0) then
    Refused {| ce_format_major := format_major; ce_format_minor := format_minor;
               unknown_incompat := unknown_incompat; unknown_ro_compat := 0; unknown_compat := 0;
               access := ReadWrite |}
  else
  let unknown_ro_compat := and_not (ro_compat on_disk) supported_ro_compat_mask in
  if negb (unknown_ro_compat =? 0) then
    let err a :=
      {| ce_format_major := format_major; ce_format_minor := format_minor;
         unknown_incompat := 0; unknown_ro_compat := unknown_ro_compat;
         unknown_compat := and_not (compat on_disk) supported_compat_mask; access := a |} in
    if want_write then Refused (err ReadWrite) else ReadOnlyOnly (err ReadOnly)
  else COk.

Definition check (on_disk : FeatureBits) (want_write : bool) : Compatibility :=
  check_with_version on_disk want_write FORMAT_MAJOR FORMAT_MINOR.

(** * The superblock slot *)

Record Superblock : Type := {
  sb_version : Z;
  sb_format_major : Z;
  sb_format_minor : Z;
  sb_compat : Z;
  sb_ro_compat : Z;
  sb_incompat : Z;
  sb_uuid : bytes;
  sb_generation : Z;
  sb_root_object_id : ChunkId;
  sb_segment_seq : Z;
  sb_created_unix_ns : Z;
  sb_flags : Z;
  sb_extension : bytes
}.
#[global] Instance Superblock_eq_dec : EqDecision Superblock.
Proof. solve_decision. Defined.

Definition Superblock_default : Superblock :=
  {| sb_version := SUPERBLOCK_VERSION; sb_format_major := FORMAT_MAJOR; sb_format_minor := FORMAT_MINOR;
     sb_compat := 0; sb_ro_compat := 0; sb_incompat := 0; sb_uuid := replicate 16 0; sb_generation := 0;
     sb_root_object_id := ChunkId_ZERO; sb_segment_seq := 0; sb_created_unix_ns := 0; sb_flags := 0;
     sb_extension := replicate 248 0 |}.

Definition Superblock_features (s : Superblock) : FeatureBits :=
  {| compat := sb_compat s; ro_compat := sb_ro_compat s; incompat := sb_incompat s |}.

(** The fields up to [flags], in slot order. *)
Definition Superblock_fields (w : Writer) (s : Superblock) : Writer :=
  let w := Writer_bytes w SUPERBLOCK_MAGIC in
  let w := Writer_u8 w (sb_version s) in
  let w := Writer_u16 w (sb_format_major s) in
  let w := Writer_u16 w (sb_format_minor s) in
  let w := Writer_u64 w (sb_compat s) in
  let w := Writer_u64 w (sb_ro_compat s) in
  let w := Writer_u64 w (sb_incompat s) in
  let w := Writer_bytes w (sb_uuid s) in
  let w := Writer_u64 w (sb_generation s) in
  let w := Writer_bytes w (sb_root_object_id s) in
  let w := Writer_u64 w (sb_segment_seq s) in
  let w := Writer_u64 w (sb_created_unix_ns s) in
  Writer_u32 w (sb_flags s).

(** [Vec::resize] *)
Definition resize (n : nat) (v : Z) (l : bytes) : bytes := take n l ++ replicate (n - length l) v.

Section Slot.
Context (crc32c : bytes -> Z).

Definition Superblock_encode (s : Superblock) : bytes :=
  let w := Superblock_fields Writer_new s in
  let w := Writer_u16 w 0 in
  let w := Writer_bytes w (sb_extension s) in
  let out := resize 508 0 (Writer_into_bytes w) in
  out ++ to_le 4 (crc32c out).

(** [extension[..extension_len].copy_from_slice(ext)] panics when the
    length passes the 248 bytes of the array. *)
Definition Superblock_decode (slot : bytes) : result (trap CodecError) Superblock :=
  fail_if negb (zlen slot =? SUPERBLOCK_SLOT_SIZE) with Error Malformed ;;
  let stored_crc := from_le (slice 508 4 slot) in
  let body := take 508 slot in
  fail_if negb (crc32c body =? stored_crc) with Error Malformed ;;
  let! '(magic, r) := safe (Reader_take (Reader_new body) 8) in
  fail_if negb (bool_decide (magic = SUPERBLOCK_MAGIC)) with Error Malformed ;;
  let! '(version, r) := safe (Reader_u8 r) in
  fail_if negb (version =? SUPERBLOCK_VERSION) with Error Malformed ;;
  let! '(format_major, r) := safe (Reader_u16 r) in
  let! '(format_minor, r) := safe (Reader_u16 r) in
  let! '(compat, r) := safe (Reader_u64 r) in
  let! '(ro_compat, r) := safe (Reader_u64 r) in
  let! '(incompat, r) := safe (Reader_u64 r) in
  let! '(uuid, r) := safe (Reader_take r 16) in
  let! '(generation, r) := safe (Reader_u64 r) in
  let! '(root_object_id, r) := safe (Reader_take r 32) in
  let! '(segment_seq, r) := safe (Reader_u64 r) in
  let! '(created_unix_ns, r) := safe (Reader_u64 r) in
  let! '(flags, r) := safe (Reader_u32 r) in
  let! '(extension_len, r) := safe (Reader_u16 r) in
  let extension := replicate 248 0 in
  let! '(ext, r) := safe (Reader_take r extension_len) in
  let! extension := copy_from_slice extension 0 extension_len ext in
  let! pad := safe (let! '(p, _) := Reader_take r (Reader_remaining r) in Ok p) in
  fail_if negb (Reader_remaining r =? 0) && negb (forallb (fun b => b =? 0) pad) with Error Malformed ;;
  Ok {| sb_version := version; sb_format_major := format_major; sb_format_minor := format_minor;
        sb_compat := compat; sb_ro_compat := ro_compat; sb_incompat := incompat; sb_uuid := uuid;
        sb_generation := generation; sb_root_object_id := root_object_id; sb_segment_seq := segment_seq;
        sb_created_unix_ns := created_unix_ns; sb_flags := flags; sb_extension := extension |}.
End Slot.

(** Even generations commit to slot A, odd ones to slot B. *)
Definition slot_for_generation (generation : Z) : Z := wrap 8 (Z.land generation 1).

(** * The compatibility gate *)

Lemma and_not_zero a m :
  is_u64 a -> is_u64 m -> and_not a m = 0 <-> forall i, Z.testbit a i = true -> Z.testbit m i = true.
Proof.
  intros Ha Hm. unfold and_not. change (2 ^ 64 - 1) with (Z.ones 64). split.
  - intros E i Hi. assert (0 <= i < 64) as Hr.
    { destruct (Z.lt_ge_cases i 0); [by rewrite Z.testbit_neg_r in Hi|].
      destruct (Z.lt_ge_cases i 64); [lia|].
      rewrite <-(Z.mod_small a (2 ^ 64)), Z.mod_pow2_bits_high in Hi by (exact Ha || lia). done. }
    apply (f_equal (fun z => Z.testbit z i)) in E.
    rewrite Z.land_spec, Z.lxor_spec, Z.bits_0, Hi, Z.testbit_ones_nonneg in E by lia.
    replace (i <? 64) with true in E by lia. by destruct (Z.testbit m i).
  - intros H. apply Z.bits_inj_0. intros i. rewrite Z.land_spec, Z.lxor_spec.
    destruct (Z.testbit a i) eqn:Ea; [|done]. rewrite (H i Ea). cbn.
    destruct (Z.lt_ge_cases i 0); [by rewrite Z.testbit_neg_r in Ea|].
    destruct (Z.lt_ge_cases i 64); [rewrite Z.testbit_ones_nonneg by lia; by replace (i <? 64) with true by lia|].
    rewrite <-(Z.mod_small a (2 ^ 64)), Z.mod_pow2_bits_high in Ea by (exact Ha || lia). done.
Qed.

Lemma testbit_shiftl_1 k i : 0 <= k -> Z.testbit (Z.shiftl 1 k) i = (i =? k).
Proof.
  intros Hk. rewrite Z.shiftl_1_l. destruct (Z.eqb_spec i k) as [->|].
  - by apply Z.pow2_bits_true.
  - by apply Z.pow2_bits_false.
Qed.

Lemma testbit_fold_lor l z i :
  Z.testbit (fold_left Z.lor l z) i = Z.testbit z i || existsb (fun x => Z.testbit x i) l.
Proof.
  revert z. induction l as [|x l IH]; intros z; cbn; [by rewrite orb_false_r|].
  by rewrite IH, Z.lor_spec, orb_assoc.
Qed.

Lemma supported_incompat_bit i :
  Z.testbit supported_incompat_mask i = true <-> exists f, Feature_set f = Incompat /\ Feature_code f = i + 1.
Proof.
  unfold supported_incompat_mask. rewrite testbit_fold_lor. cbn [map existsb].
  unfold Feature_mask. rewrite !testbit_shiftl_1 by done. cbn [Feature_code]. split.
  - intros H. rewrite orb_false_r, !orb_true_iff, !Z.eqb_eq in H.
    assert (Hf : existsb (fun f => match Feature_set f with Incompat => Feature_code f =? i + 1 | _ => false end) Feature_ALL = true)
      by (destruct_or! H; subst i; reflexivity).
    apply existsb_exists in Hf as (f & _ & Hf). exists f. destruct (Feature_set f); [done..|]. split; [done | lia].
  - intros (f & Hs & Hc). replace i with (Feature_code f - 1) by lia. by destruct f.
Qed.

(** The compatibility gate of an open decides by the defined features
    alone: it accepts without reservation exactly when every incompat bit is
    a defined incompat feature and no ro_compat bit is set; a set ro_compat
    bit (the defined [ENCRYPTED] bit too) permits a read-only open and
    refuses a writable one; an incompat bit without a feature refuses both,
    and the compat bits never matter. *)
Theorem compat_gate_exact b want_write major minor :
  is_u64 (incompat b) -> is_u64 (ro_compat b) ->
  let known := forall i, Z.testbit (incompat b) i = true ->
    exists f, Feature_set f = Incompat /\ Feature_code f = i + 1 in
  match check_with_version b want_write major minor with
  | COk => known /\ ro_compat b = 0
  | ReadOnlyOnly e => known /\ ro_compat b <> 0 /\ want_write = false /\ unknown_ro_compat e = ro_compat b
  | Refused e => (~ known /\ unknown_incompat e <> 0) \/ (known /\ ro_compat b <> 0 /\ want_write = true)
  end.
Proof.
  intros Hi Hr known. assert (Hk : and_not (incompat b) supported_incompat_mask = 0 <-> known).
  { rewrite and_not_zero by done. unfold known. by setoid_rewrite supported_incompat_bit. }
  assert (Hro : and_not (ro_compat b) supported_ro_compat_mask = ro_compat b).
  { unfold and_not, supported_ro_compat_mask. rewrite Z.lxor_0_l. change (2 ^ 64 - 1) with (Z.ones 64).
    rewrite Z.land_ones by done. by apply Z.mod_small. }
  unfold check_with_version. cbv zeta. rewrite Hro.
  destruct (Z.eqb_spec (and_not (incompat b) supported_incompat_mask) 0) as [E|E]; cbn [negb].
  - apply Hk in E. destruct (Z.eqb_spec (ro_compat b) 0); cbn [negb]; [done|]. destruct want_write; [by right|done].
  - left. by rewrite <-Hk.
Qed.

Lemma compat_gate_exact_witness :
  let b := {| compat := 2 ^ 63; ro_compat := 64; incompat := 2 ^ 9 |} in
  (forall i, Z.testbit (2 ^ 9) i = true -> exists f, Feature_set f = Incompat /\ Feature_code f = i + 1) /\
  64 <> 0 /\ false = false /\ 64 = 64.
Proof.
  apply (compat_gate_exact {| compat := 2 ^ 63; ro_compat := 64; incompat := 2 ^ 9 |} false 1 0); by split.
Defined.

(** A refusal for incompat bits names no other unknown bit and always reports
    a writable access, whatever was asked. *)
Example refusal_is_partial :
  check_with_version {| compat := 2 ^ 63; ro_compat := 2 ^ 62; incompat := 2 ^ 61 |} false 1 0 =
  Refused {| ce_format_major := 1; ce_format_minor := 0; unknown_incompat := 2 ^ 61; unknown_ro_compat := 0;
             unknown_compat := 0; access := ReadWrite |}.
Proof. done. Qed.

(** * The slot codec *)

Lemma zeros_replicate l : forallb (fun b => b =? 0) l = true -> replicate (length l) 0 = l.
Proof.
  induction l as [|b l IH]; cbn [forallb length replicate]; intros H; [done|]. bools. subst b. by rewrite IH.
Qed.

Section SlotImage.
Context (crc32c : bytes -> Z) (Hcrc : forall b, is_u32 (crc32c b)).

(** Field widths; the version and the magic are fixed. *)
Record fields_wf (s : Superblock) : Prop := {
  fw_version : sb_version s = SUPERBLOCK_VERSION;
  fw_major : is_u16 (sb_format_major s);
  fw_minor : is_u16 (sb_format_minor s);
  fw_compat : is_u64 (sb_compat s);
  fw_ro_compat : is_u64 (sb_ro_compat s);
  fw_incompat : is_u64 (sb_incompat s);
  fw_uuid : zlen (sb_uuid s) = 16;
  fw_generation : is_u64 (sb_generation s);
  fw_root : zlen (sb_root_object_id s) = 32;
  fw_segment_seq : is_u64 (sb_segment_seq s);
  fw_created : is_u64 (sb_created_unix_ns s);
  fw_flags : is_u32 (sb_flags s)
}.

Definition fields_image (s : Superblock) : bytes :=
  SUPERBLOCK_MAGIC ++ [sb_version s] ++ to_le 2 (sb_format_major s) ++ to_le 2 (sb_format_minor s) ++
  to_le 8 (sb_compat s) ++ to_le 8 (sb_ro_compat s) ++ to_le 8 (sb_incompat s) ++ sb_uuid s ++
  to_le 8 (sb_generation s) ++ sb_root_object_id s ++ to_le 8 (sb_segment_seq s) ++
  to_le 8 (sb_created_unix_ns s) ++ to_le 4 (sb_flags s).

(** The slot of the fields of [s], an extension length and the 393 bytes
    behind it. *)
Definition slot_body (s : Superblock) (e : Z) (tail : bytes) : bytes := fields_image s ++ to_le 2 e ++ tail.
Definition slot_image (s : Superblock) (e : Z) (tail : bytes) : bytes :=
  slot_body s e tail ++ to_le 4 (crc32c (slot_body s e tail)).

Lemma Superblock_fields_image s : w_buf (Superblock_fields Writer_new s) = fields_image s.
Proof.
  unfold Superblock_fields, Writer_bytes, Writer_u8, Writer_u16, Writer_u32, Writer_u64. cbn [w_buf Writer_new app].
  unfold fields_image. by rewrite <-!app_assoc.
Qed.

Lemma length_fields s : fields_wf s -> length (fields_image s) = 113%nat.
Proof.
  intros H. pose proof (fw_uuid s H) as Hu. pose proof (fw_root s H) as Hr. unfold zlen in Hu, Hr.
  unfold fields_image. rewrite !length_app, !length_to_le. cbn [length SUPERBLOCK_MAGIC]. lia.
Qed.

Lemma length_slot_body s e tail : fields_wf s -> zlen tail = 393 -> length (slot_body s e tail) = 508%nat.
Proof.
  intros H Ht. unfold slot_body. rewrite !length_app, length_fields, length_to_le by done. unfold zlen in Ht. lia.
Qed.

Lemma Superblock_encode_image s :
  fields_wf s -> zlen (sb_extension s) = 248 ->
  Superblock_encode crc32c s = slot_image s 0 (sb_extension s ++ replicate 145 0).
Proof.
  intros H He. unfold Superblock_encode, Writer_u16, Writer_bytes, Writer_into_bytes. cbn [w_buf].
  rewrite Superblock_fields_image, <-app_assoc. unfold slot_image.
  assert (E : resize 508 0 (fields_image s ++ to_le 2 0 ++ sb_extension s) =
              slot_body s 0 (sb_extension s ++ replicate 145 0)); [|by rewrite E].
  unfold resize, slot_body. pose proof (length_fields s H). unfold zlen in He.
  rewrite take_ge by (rewrite !length_app, length_to_le; lia).
  rewrite !length_app, length_to_le. replace (508 - _)%nat with 145%nat by lia. by rewrite <-!app_assoc.
Qed.

Definition with_extension (s : Superblock) (ext : bytes) : Superblock :=
  {| sb_version := sb_version s; sb_format_major := sb_format_major s; sb_format_minor := sb_format_minor s;
     sb_compat := sb_compat s; sb_ro_compat := sb_ro_compat s; sb_incompat := sb_incompat s; sb_uuid := sb_uuid s;
     sb_generation := sb_generation s; sb_root_object_id := sb_root_object_id s; sb_segment_seq := sb_segment_seq s;
     sb_created_unix_ns := sb_created_unix_ns s; sb_flags := sb_flags s; sb_extension := ext |}.

Ltac safe_read lem := read_with lem; cbn [safe map_err rbind].

(** What [decode] does with a slot whose checksum, magic and version are
    right, by its extension length [e]: up to 248 the first [e] bytes behind
    the fields become the extension and the rest must be zero; from 249 to
    393 (the bytes left in the slot) the copy into the 248-byte array is out
    of range and the decoder panics; above 393 it is [Truncated]. *)
Theorem superblock_decode_slot s e tail :
  fields_wf s -> is_u16 e -> zlen tail = 393 ->
  Superblock_decode crc32c (slot_image s e tail) =
  if e <=? 248 then
    if forallb (fun b => b =? 0) (drop (Z.to_nat e) tail)
    then Ok (with_extension s (take (Z.to_nat e) tail ++ replicate (248 - Z.to_nat e) 0))
    else Err (Error Malformed)
  else if e <=? 393 then Err Panic else Err (Error Truncated).
Proof.
  intros H He Ht. pose proof (length_slot_body s e tail H Ht) as Hb.
  unfold Superblock_decode, slot_image. set (body := slot_body s e tail) in *.
  assert (Hz : zlen body = 508) by (unfold zlen; by rewrite Hb).
  rewrite zlen_app, zlen_to_le, Hz. cbn [Z.add Z.eqb Z.of_nat SUPERBLOCK_SLOT_SIZE]. cbv zeta.
  rewrite (take_app_length' body) by done.
  replace (slice 508 4 _) with (to_le 4 (crc32c body)); last first.
  { unfold slice. rewrite (drop_app_length' body) by done. by rewrite take_ge by (by rewrite length_to_le). }
  rewrite from_le_to_le, Z.eqb_refl by apply Hcrc. cbn [negb]. change (508 + 4 =? SUPERBLOCK_SLOT_SIZE) with true. cbn [negb].
  assert (Hat : reader_at (Reader_new body) body) by (apply Reader_new_at; lia).
  generalize dependent (Reader_new body). intros rd Hat. unfold body, slot_body, fields_image in Hat.
  rewrite <-!app_assoc in Hat. destruct H.
  safe_read Reader_take_ok. rewrite bool_decide_eq_true_2 by done. cbn [negb].
  cbn [app] in Hat0. safe_read Reader_u8_ok. rewrite fw_version0, Z.eqb_refl. cbn [negb].
  do 2 safe_read Reader_u16_ok. do 3 safe_read Reader_u64_ok. safe_read Reader_take_ok.
  safe_read Reader_u64_ok. safe_read Reader_take_ok. do 2 safe_read Reader_u64_ok. safe_read Reader_u32_ok.
  safe_read Reader_u16_ok. cbn [negb Z.eqb SUPERBLOCK_VERSION Pos.eqb]. unfold with_extension. rewrite fw_version0.
  clear - Hat13 He Ht Hz. destruct (Z.leb_spec e 393) as [Hs|Hs]; last first.
  { rewrite (Reader_take_short r12 tail) by (done || lia). cbn [safe map_err rbind]. by repeat pass_guard. }
  assert (Hz' : zlen (take (Z.to_nat e) tail) = e) by (unfold zlen in *; rewrite length_take; width).
  rewrite <-(take_drop (Z.to_nat e) tail) in Hat13. safe_read Reader_take_ok.
  unfold copy_from_slice. rewrite Hz'. change (zlen (replicate 248 0)) with 248.
  destruct (Z.leb_spec e 248) as [Hs'|Hs']; last first.
  { by replace ((0 <=? e) && false && (e =? e - 0)) with false by (by rewrite andb_false_r). }
  replace ((0 <=? e) && true && (e =? e - 0)) with true by (symmetry; rewrite !andb_true_iff; width).
  cbn [rbind]. pose proof (reader_at_len _ _ Hat) as Hrem.
  rewrite <-(app_nil_r (drop _ _)) in Hat. safe_read (Reader_take_ok r (drop (Z.to_nat e) tail)).
  unfold Reader_remaining. rewrite <-Hrem. change (Z.to_nat 0) with O.
  replace (zlen (drop (Z.to_nat e) tail) =? 0) with false
    by (unfold zlen in Ht |- *; rewrite length_drop; symmetry; apply Z.eqb_neq; width).
  cbn [negb andb]. destruct (forallb _ _); cbn [negb]; [|done]. do 2 f_equal.
  unfold splice. rewrite take_0, drop_replicate. cbn [app]. do 2 f_equal. unfold zlen in Hz'. lia.
Qed.

Lemma superblock_encode_slot s :
  fields_wf s -> zlen (sb_extension s) = 248 ->
  Superblock_encode crc32c s = slot_image s 0 (sb_extension s ++ replicate 145 0) /\
  zlen (Superblock_encode crc32c s) = SUPERBLOCK_SLOT_SIZE.
Proof.
  intros H He. rewrite Superblock_encode_image by done. split; [done|].
  unfold slot_image. rewrite zlen_app, zlen_to_le. unfold zlen. rewrite length_slot_body; [done | done|].
  rewrite zlen_app, He. done.
Qed.

Lemma superblock_decode_encode s :
  fields_wf s -> zlen (sb_extension s) = 248 ->
  Superblock_decode crc32c (Superblock_encode crc32c s) =
  if forallb (fun b => b =? 0) (sb_extension s) then Ok s else Err (Error Malformed).
Proof.
  intros H He. destruct (superblock_encode_slot s H He) as [-> _]. set (tail := sb_extension s ++ replicate 145 0).
  assert (Ht : zlen tail = 393) by (unfold tail; rewrite zlen_app, He; done).
  rewrite superblock_decode_slot by done. change (Z.to_nat 0) with O. rewrite drop_0, take_0. cbn [Z.leb Z.compare app].
  unfold tail. rewrite forallb_app. change (forallb _ (replicate 145 0)) with true. rewrite andb_true_r.
  destruct (forallb _ _) eqn:E; [|done]. f_equal. apply zeros_replicate in E.
  change (Z.to_nat 248 - 0)%nat with 248%nat. unfold zlen in He. rewrite Nat.sub_0_r.
  replace 248%nat with (length (sb_extension s)) by lia. rewrite E. by destruct s.
Qed.

(** The slot codec: a superblock of the current slot version with fields
    in range and a 248-byte extension encodes to exactly 512 bytes; with a
    zero extension the slot decodes to it, with any other extension (which
    [encode] writes under a zero length) the slot is refused. *)
Theorem superblock_roundtrip s :
  fields_wf s -> zlen (sb_extension s) = 248 ->
  zlen (Superblock_encode crc32c s) = SUPERBLOCK_SLOT_SIZE /\
  Superblock_decode crc32c (Superblock_encode crc32c s) =
  if forallb (fun b => b =? 0) (sb_extension s) then Ok s else Err (Error Malformed).
Proof. intros H He. split; [by apply superblock_encode_slot | by apply superblock_decode_encode]. Qed.
End SlotImage.

Definition sample_superblock : Superblock :=
  {| sb_version := SUPERBLOCK_VERSION; sb_format_major := 1; sb_format_minor := 0;
     sb_compat := 0; sb_ro_compat := 0; sb_incompat := 2 ^ 14; sb_uuid := seqZ 1 16; sb_generation := 7;
     sb_root_object_id := seqZ 3 32; sb_segment_seq := 2; sb_created_unix_ns := 99; sb_flags := 0;
     sb_extension := replicate 248 0 |}.
Lemma sample_superblock_wf : fields_wf sample_superblock.
Proof. split; cbn; done || width. Qed.

Lemma superblock_roundtrip_witness :
  zlen (Superblock_encode sample_crc sample_superblock) = SUPERBLOCK_SLOT_SIZE /\
  Superblock_decode sample_crc (Superblock_encode sample_crc sample_superblock) = Ok sample_superblock.
Proof.
  apply (superblock_roundtrip sample_crc sample_crc_u32 sample_superblock); [apply sample_superblock_wf | done].
Defined.

Lemma superblock_decode_slot_witness :
  Superblock_decode sample_crc (slot_image sample_crc sample_superblock 249 (replicate 393 0)) = Err Panic.
Proof.
  apply (superblock_decode_slot sample_crc sample_crc_u32 sample_superblock 249 (replicate 393 0));
    [apply sample_superblock_wf | width | done].
Defined.
