(* ===== verification/Keys.v ===== *)
(** Byte-string keys in Rust's [Ord] for slices (lexicographic), and sorted
    association lists over them: what an index tree stands for.  The lemmas
    let an update of a concatenation be carried out in the part whose key
    range covers the key. *)
From Stdlib Require Import Orders OrdersTac Sorted.
From stdpp Require Export gmap.
From S2P Require Import Prelude.
#[global] Open Scope Z_scope.
#[global] Open Scope efs_scope.

(** * The order *)

(** [a.cmp(b)]. *)
Fixpoint cmp_key (a b : bytes) : comparison :=
  match a, b with
  | [], [] => Eq
  | [], _ :: _ => Lt
  | _ :: _, [] => Gt
  | x :: a', y :: b' => match Z.compare x y with Eq => cmp_key a' b' | c => c end
  end.

Definition klt (a b : bytes) : Prop := cmp_key a b = Lt.
Definition kle (a b : bytes) : Prop := klt a b \/ a = b.

Lemma cmp_key_refl a : cmp_key a a = Eq.
Proof. induction a as [|x a IH]; cbn; [done|]. by rewrite Z.compare_refl. Qed.
Lemma cmp_key_eq a b : cmp_key a b = Eq -> a = b.
Proof.
  revert b. induction a as [|x a IH]; intros [|y b]; cbn; try done.
  destruct (Z.compare_spec x y) as [->| |]; try done. intros. f_equal. by apply IH.
Qed.
Lemma cmp_key_antisym a b : cmp_key b a = CompOpp (cmp_key a b).
Proof.
  revert b. induction a as [|x a IH]; intros [|y b]; cbn; try done.
  rewrite (Z.compare_antisym x y). destruct (x ?= y); cbn; [apply IH | done..].
Qed.
Lemma klt_trans a b c : klt a b -> klt b c -> klt a c.
Proof.
  unfold klt. revert b c. induction a as [|x a IH]; intros [|y b] [|z c]; cbn; try done.
  destruct (Z.compare_spec x y) as [->|Hxy|], (Z.compare_spec y z) as [->|Hyz|]; try done; intros Hab Hbc.
  - by eapply IH.
  - by destruct (Z.compare_spec x z); try lia.
  - by destruct (Z.compare_spec x z); try lia.
Qed.
Lemma klt_irrefl a : ~ klt a a.
Proof. unfold klt. by rewrite cmp_key_refl. Qed.

Lemma cmp_key_spec a b : CompareSpec (a = b) (klt a b) (klt b a) (cmp_key a b).
Proof.
  destruct (cmp_key a b) eqn:E; constructor; [by apply cmp_key_eq | done |].
  unfold klt. by rewrite cmp_key_antisym, E.
Qed.

#[global] Instance klt_dec a b : Decision (klt a b).
Proof. unfold klt. solve_decision. Defined.

Module KeyOrder.
Definition t : Type := bytes.
Definition eq : t -> t -> Prop := @Logic.eq t.
Definition lt : t -> t -> Prop := klt.
Definition le : t -> t -> Prop := kle.
Lemma eq_equiv : Equivalence eq.
Proof. apply eq_equivalence. Qed.
Lemma lt_strorder : StrictOrder lt.
Proof. split; [intros a; apply klt_irrefl | intros a b c; apply klt_trans]. Qed.
Lemma lt_compat : Proper (eq ==> eq ==> iff) lt.
Proof. intros a b -> c d ->. done. Qed.
Lemma le_lteq a b : le a b <-> lt a b \/ eq a b.
Proof. done. Qed.
Lemma lt_total a b : lt a b \/ eq a b \/ lt b a.
Proof. destruct (cmp_key_spec a b); eauto. Qed.
End KeyOrder.
Module KeyTac := MakeOrderTac KeyOrder KeyOrder.

(** Decides goals about [klt], [kle] and equality of keys. *)
Ltac korder := KeyTac.order.

(** * Key ranges *)

(** [k] is in the range that starts at [lo] and ends before [hi]; [None] is
    an open bound. *)
Definition above (lo : option bytes) (k : bytes) : Prop := match lo with Some l => kle l k | None => True end.
Definition below (hi : option bytes) (k : bytes) : Prop := match hi with Some h => klt k h | None => True end.

Definition lo_le (lo' lo : option bytes) : Prop :=
  match lo', lo with None, _ => True | Some a, Some b => kle a b | Some _, None => False end.
Definition hi_le (hi hi' : option bytes) : Prop :=
  match hi, hi' with _, None => True | Some a, Some b => kle a b | None, Some _ => False end.

Lemma above_mono lo lo' k : lo_le lo' lo -> above lo k -> above lo' k.
Proof. destruct lo, lo'; cbn; try done. intros. korder. Qed.
Lemma below_mono hi hi' k : hi_le hi hi' -> below hi k -> below hi' k.
Proof. destruct hi, hi'; cbn; try done. intros. korder. Qed.
Lemma lo_le_refl lo : lo_le lo lo.
Proof. destruct lo; cbn; [korder | done]. Qed.
Lemma hi_le_refl hi : hi_le hi hi.
Proof. destruct hi; cbn; [korder | done]. Qed.
#[export] Hint Resolve lo_le_refl hi_le_refl : efs.

(** * Sorted association lists *)

Abbreviation kvs := (list (bytes * bytes)).

Definition sorted (l : list bytes) : Prop := StronglySorted klt l.
Definition within (lo hi : option bytes) (m : kvs) : Prop :=
  Forall (fun kv : bytes * bytes => above lo kv.1 /\ below hi kv.1) m.

Fixpoint assoc (k : bytes) (m : kvs) : option bytes :=
  match m with
  | [] => None
  | (k', v) :: m' => if decide (k' = k) then Some v else assoc k m'
  end.

Fixpoint upsert (k v : bytes) (m : kvs) : kvs :=
  match m with
  | [] => [(k, v)]
  | (k', v') :: m' =>
      match cmp_key k' k with
      | Lt => (k', v') :: upsert k v m'
      | Eq => (k, v) :: m'
      | Gt => (k, v) :: m
      end
  end.

Fixpoint erase (k : bytes) (m : kvs) : kvs :=
  match m with
  | [] => []
  | (k', v') :: m' => if decide (k' = k) then m' else (k', v') :: erase k m'
  end.

(** The finite map a list stands for. *)
Definition to_map (m : kvs) : gmap bytes bytes := list_to_map m.

(** ** Ranges *)

Lemma within_app lo hi m1 m2 : within lo hi (m1 ++ m2) <-> within lo hi m1 /\ within lo hi m2.
Proof. apply Forall_app. Qed.

Lemma within_mono lo hi lo' hi' m : lo_le lo' lo -> hi_le hi hi' -> within lo hi m -> within lo' hi' m.
Proof.
  intros Hl Hh. apply Forall_impl. intros kv [? ?]. split; [by eapply above_mono | by eapply below_mono].
Qed.

Lemma sorted_app a b s :
  sorted a -> sorted b -> Forall (fun k => klt k s) a -> Forall (fun k => kle s k) b -> sorted (a ++ b).
Proof.
  intros Ha Hb. induction Ha as [|k a Ha IH Hk]; intros Hlt Hge; [done|]. foralls. cbn. constructor; [by apply IH|].
  apply Forall_app. split; [done|]. eapply Forall_impl; [|done]. cbn. intros. korder.
Qed.

Lemma sorted_app_inv a b :
  sorted (a ++ b) -> sorted a /\ sorted b /\ forall x y, x ∈ a -> y ∈ b -> klt x y.
Proof.
  induction a as [|k a IH]; cbn; intros H; [split_and!; [constructor | done | by intros ?? ?%elem_of_nil]|].
  apply StronglySorted_inv in H as [H Hf]. apply IH in H as (Ha & Hb & Hab). apply Forall_app in Hf as [Hfa Hfb].
  split_and!; [by constructor | done |]. intros x y [->|Hx]%elem_of_cons Hy; [|by apply Hab].
  rewrite list.Forall_forall in Hfb. by apply Hfb.
Qed.

Lemma sorted_cons_inv k l : sorted (k :: l) -> sorted l /\ Forall (klt k) l.
Proof. apply StronglySorted_inv. Qed.

(** ** Lookup, insertion and removal in the covering part *)

(** Every key of [m] is below, or above, [k]. *)
Abbreviation keys_lt m k := (Forall (fun kv : bytes * bytes => klt kv.1 k) m).
Abbreviation keys_gt m k := (Forall (fun kv : bytes * bytes => klt k kv.1) m).

Lemma within_lt lo s m k : within lo (Some s) m -> kle s k -> keys_lt m k.
Proof. intros H Hk. eapply Forall_impl; [|exact H]. cbn. intros kv [_ ?]. korder. Qed.
Lemma within_gt s hi m k : within (Some s) hi m -> klt k s -> keys_gt m k.
Proof. intros H Hk. eapply Forall_impl; [|exact H]. cbn. intros kv [? _]. korder. Qed.

Lemma assoc_None k m : Forall (fun kv : bytes * bytes => kv.1 <> k) m -> assoc k m = None.
Proof. induction 1 as [|[k' v] m Hk _ IH]; cbn; [done|]. rewrite decide_False; done. Qed.
Lemma keys_lt_ne m k : keys_lt m k -> Forall (fun kv : bytes * bytes => kv.1 <> k) m.
Proof. apply Forall_impl. intros kv H E. rewrite E in H. by eapply klt_irrefl. Qed.
Lemma keys_gt_ne m k : keys_gt m k -> Forall (fun kv : bytes * bytes => kv.1 <> k) m.
Proof. apply Forall_impl. intros kv H E. rewrite E in H. by eapply klt_irrefl. Qed.
#[export] Hint Resolve keys_lt_ne keys_gt_ne : efs.

Lemma assoc_app_r k m1 m2 : Forall (fun kv : bytes * bytes => kv.1 <> k) m1 -> assoc k (m1 ++ m2) = assoc k m2.
Proof. induction 1 as [|[k' v] m Hk _ IH]; cbn; [done|]. by rewrite decide_False. Qed.
Lemma assoc_app_l k m1 m2 : Forall (fun kv : bytes * bytes => kv.1 <> k) m2 -> assoc k (m1 ++ m2) = assoc k m1.
Proof.
  intros H. induction m1 as [|[k' v] m IH]; cbn; [by apply assoc_None|]. by case_decide.
Qed.

Lemma upsert_app_r k v m1 m2 : keys_lt m1 k -> upsert k v (m1 ++ m2) = m1 ++ upsert k v m2.
Proof. induction 1 as [|[k' v'] m Hk _ IH]; cbn; [done|]. cbn in Hk. rewrite Hk. by rewrite IH. Qed.
Lemma upsert_app_l k v m1 m2 : keys_gt m2 k -> upsert k v (m1 ++ m2) = upsert k v m1 ++ m2.
Proof.
  intros H. induction m1 as [|[k' v'] m IH]; cbn.
  - destruct m2 as [|[k2 v2] m2]; [done|]. foralls. cbn in *. destruct (cmp_key_spec k2 k); [subst | |done].
    + exfalso. by eapply klt_irrefl.
    + exfalso. korder.
  - destruct (cmp_key k' k); [done | by rewrite IH | done].
Qed.

Lemma erase_ne k m : Forall (fun kv : bytes * bytes => kv.1 <> k) m -> erase k m = m.
Proof. induction 1 as [|[k' v'] m Hk _ IH]; cbn; [done|]. rewrite decide_False by done. by rewrite IH. Qed.
Lemma erase_app_r k m1 m2 : Forall (fun kv : bytes * bytes => kv.1 <> k) m1 -> erase k (m1 ++ m2) = m1 ++ erase k m2.
Proof. induction 1 as [|[k' v'] m Hk _ IH]; cbn; [done|]. rewrite decide_False by done. by rewrite IH. Qed.
Lemma erase_app_l k m1 m2 : Forall (fun kv : bytes * bytes => kv.1 <> k) m2 -> erase k (m1 ++ m2) = erase k m1 ++ m2.
Proof.
  intros H. induction m1 as [|[k' v'] m IH]; cbn; [by apply erase_ne|]. case_decide; [done|]. by rewrite IH.
Qed.

(** ** Invariants of the updates *)

Lemma upsert_within lo hi k v m : above lo k -> below hi k -> within lo hi m -> within lo hi (upsert k v m).
Proof.
  intros Hl Hh. induction 1 as [|[k' v'] m Hk Hm IH]; cbn; [by repeat constructor|].
  destruct (cmp_key k' k); repeat constructor; by try apply Hk.
Qed.
Lemma erase_within lo hi k m : within lo hi m -> within lo hi (erase k m).
Proof. induction 1 as [|[k' v'] m Hk Hm IH]; cbn; [constructor|]. case_decide; [done|]. by constructor. Qed.

Lemma upsert_sorted k v m : sorted (map fst m) -> sorted (map fst (upsert k v m)).
Proof.
  induction m as [|[k' v'] m IH]; cbn; intros H; [repeat constructor|].
  apply sorted_cons_inv in H as [Hs Hf]. destruct (cmp_key_spec k' k) as [->|Hlt|Hgt]; cbn.
  - by constructor.
  - constructor; [by apply IH|]. rewrite Forall_fmap in Hf |- *. clear -Hf Hlt.
    induction Hf as [|[k2 v2] m ? Hf IH]; cbn; [by repeat constructor|].
    destruct (cmp_key k2 k); repeat constructor; done.
  - constructor; [by constructor|]. constructor; [done|]. eapply Forall_impl; [|exact Hf]. cbn. intros. korder.
Qed.
Lemma erase_sorted k m : sorted (map fst m) -> sorted (map fst (erase k m)).
Proof.
  induction m as [|[k' v'] m IH]; cbn; intros H; [done|]. apply sorted_cons_inv in H as [Hs Hf].
  case_decide; [done|]. cbn. constructor; [by apply IH|]. rewrite Forall_fmap in Hf |- *. clear -Hf.
  induction Hf as [|[k2 v2] m ? Hf IH]; cbn; [constructor|]. case_decide; [done|]. by constructor.
Qed.

(** ** As finite maps *)

Lemma sorted_head_ne k l : Forall (klt k) l -> k ∉ l.
Proof. intros H Hin. rewrite list.Forall_forall in H. by eapply klt_irrefl, H. Qed.
Lemma sorted_NoDup l : sorted l -> NoDup l.
Proof. induction 1 as [|k l Hs IH Hf]; constructor; [by apply sorted_head_ne | done]. Qed.

Lemma to_map_lookup m k : to_map m !! k = assoc k m.
Proof.
  unfold to_map. induction m as [|[k' v] m IH]; cbn; [done|]. case_decide; [subst; by rewrite lookup_insert_eq|].
  by rewrite lookup_insert_ne.
Qed.
Lemma assoc_upsert k v m j : sorted (map fst m) -> assoc j (upsert k v m) = if decide (k = j) then Some v else assoc j m.
Proof.
  induction m as [|[k' v'] m IH]; cbn; intros H; [done|]. apply sorted_cons_inv in H as [Hs Hf].
  destruct (cmp_key_spec k' k) as [->|Hlt|Hgt]; cbn; [by repeat case_decide | |done].
  rewrite IH by done. repeat case_decide; subst; try done. exfalso. by eapply klt_irrefl.
Qed.
Lemma assoc_erase k m j : sorted (map fst m) -> assoc j (erase k m) = if decide (k = j) then None else assoc j m.
Proof.
  induction m as [|[k' v'] m IH]; cbn; intros H; [by case_decide|]. apply sorted_cons_inv in H as [Hs Hf].
  destruct (decide (k' = k)) as [->|]; [|cbn; rewrite IH by done; repeat case_decide; by subst].
  repeat case_decide; subst; try done. apply assoc_None. rewrite Forall_fmap in Hf.
  eapply Forall_impl; [|exact Hf]. cbn. intros kv ? E. rewrite E in *. by eapply klt_irrefl.
Qed.
Lemma to_map_upsert k v m : sorted (map fst m) -> to_map (upsert k v m) = <[k := v]> (to_map m).
Proof.
  intros H. apply map_eq. intros j. rewrite to_map_lookup, assoc_upsert by done.
  case_decide; [subst; by rewrite lookup_insert_eq|]. by rewrite lookup_insert_ne, to_map_lookup by done.
Qed.
Lemma to_map_erase k m : sorted (map fst m) -> to_map (erase k m) = delete k (to_map m).
Proof.
  intros H. apply map_eq. intros j. rewrite to_map_lookup, assoc_erase by done.
  case_decide; [subst; by rewrite lookup_delete_eq|]. by rewrite lookup_delete_ne, to_map_lookup by done.
Qed.
Lemma elem_of_to_map k v m : sorted (map fst m) -> (k, v) ∈ m <-> to_map m !! k = Some v.
Proof. intros Hs. unfold to_map. apply elem_of_list_to_map. by apply sorted_NoDup. Qed.

(** A sorted list cut before one of its keys. *)
Lemma within_cut lo hi m1 (k v : bytes) m2 :
  sorted (map fst (m1 ++ (k, v) :: m2)) -> within lo hi (m1 ++ (k, v) :: m2) ->
  within lo (Some k) m1 /\ within (Some k) hi ((k, v) :: m2).
Proof.
  intros Hs [Hw1 Hw2]%within_app. rewrite map_app in Hs. apply sorted_app_inv in Hs as (_ & Hs2 & Hlt).
  cbn in Hs2. apply sorted_cons_inv in Hs2 as [_ Hf]. rewrite Forall_fmap in Hf. split.
  - unfold within in *. rewrite list.Forall_forall in *. intros kv Hin. split; [by apply Hw1|]. cbn.
    apply Hlt; [by apply (list_elem_of_fmap_2 fst) | cbn; by apply elem_of_cons; left].
  - apply Forall_cons_1 in Hw2 as [[Ha Hb] Hw2]. constructor; [split; [cbn; korder | done]|].
    unfold within in *. rewrite list.Forall_forall in *. intros kv Hin. split; [|by apply Hw2]. cbn.
    apply Hf in Hin. cbn in Hin. korder.
Qed.
