(* ===== verification/BTree.v ===== *)
(** Component [store/index.rs]: the persistent copy-on-write B-tree over
    content-addressed nodes.  [Node] and its codec, the [ObjectProvider]
    seam as a typeclass, and the operations: [get], [predecessor],
    [insert], [remove], [scan], [bulk_load], [apply_sorted_batch], [count],
    [verify].  A recursion takes the levels left below the depth cap (129 at
    the root, where the code counts up to 128); running out of levels is the
    code's "tree depth exceeded".  [Tx] is the provider of
    [store/transaction.rs]. *)
From Stdlib Require String.
From S2P Require Import Prelude Binomial Codec Rank Repr Descriptor Context Version Keys.
Import String.StringSyntax.

(** * Data *)

Definition NODE_LEAF : Z := 1.
Definition NODE_INTERNAL : Z := 2.
Definition DEFAULT_ORDER : Z := 64.
(** The greatest depth a descent may reach is 128. *)
Definition MAX_LEVELS : nat := 129.

Record Entry : Type := { e_key : bytes; e_value : bytes }.
#[global] Instance Entry_eq_dec : EqDecision Entry.
Proof. solve_decision. Defined.

Inductive Node : Type :=
| Leaf (entries : list Entry)
| Internal (first_child : ChunkId) (entries : list Entry).
#[global] Instance Node_eq_dec : EqDecision Node.
Proof. solve_decision. Defined.

(** [Corrupt] and [Invariant] carry a [String]; here the inner error, the
    message, or the id of the missing node. *)
Inductive BTreeError : Type :=
| Provider (msg : String.string)
| Corrupt (e : CodecError)
| KeyTooLong
| ValueTooLarge
| Invariant (msg : String.string)
| MissingNode (id : ChunkId).

(** Outcomes of the tree operations. *)
Abbreviation tree_outcome A := (result (trap BTreeError) A).

Abbreviation EntryPair := (bytes * bytes)%type.
(** One operation of a batch: [Some v] upserts, [None] removes. *)
Abbreviation BatchOp := (bytes * option bytes)%type.
(** A child slot: its separator ([None] for the first child) and its id. *)
Abbreviation Slot := (option bytes * ChunkId)%type.
Definition Promotion : Type := option (bytes * ChunkId).

(** * Nodes and their encoding *)

Definition Node_kind_tag (n : Node) : Z :=
  match n with Leaf _ => NODE_LEAF | Internal _ _ => NODE_INTERNAL end.
Definition Node_len (n : Node) : Z :=
  match n with Leaf entries => zlen entries | Internal _ entries => zlen entries end.
Definition Node_is_empty (n : Node) : bool := Node_len n =? 0.

(** A codec error met by an [expect]. *)
Definition expect {E A} (m : result E A) : tree_outcome A := map_err (fun _ => Panic) m.

Fixpoint encode_leaf_entries (w : Writer) (entries : list Entry) : tree_outcome Writer :=
  match entries with
  | [] => Ok w
  | e :: entries' =>
      let! w := expect (Writer_bytes16 w (e_key e)) in
      let! w := expect (Writer_bytes32 w (e_value e)) in
      encode_leaf_entries w entries'
  end.

Fixpoint encode_child_entries (w : Writer) (entries : list Entry) : tree_outcome Writer :=
  match entries with
  | [] => Ok w
  | e :: entries' =>
      let! w := expect (Writer_bytes16 w (e_key e)) in
      encode_child_entries (Writer_bytes w (e_value e)) entries'
  end.

Definition Node_encode (n : Node) (order : Z) : tree_outcome bytes :=
  let w := Writer_u8 Writer_new (Node_kind_tag n) in
  let w := Writer_u16 w order in
  let w := Writer_u16 w (wrap 16 (Node_len n)) in
  let! w :=
    match n with
    | Leaf entries => encode_leaf_entries w entries
    | Internal first_child entries => encode_child_entries (Writer_bytes w first_child) entries
    end in
  Ok (Writer_into_bytes w).

Fixpoint decode_leaf_entries (count : nat) (r : Reader) : result CodecError (list Entry * Reader) :=
  match count with
  | O => Ok ([], r)
  | S count' =>
      let! '(key, r) := Reader_bytes16 r in
      let! '(value, r) := Reader_bytes32 r in
      let! '(entries, r) := decode_leaf_entries count' r in
      Ok ({| e_key := key; e_value := value |} :: entries, r)
  end.

Fixpoint decode_child_entries (count : nat) (r : Reader) : result CodecError (list Entry * Reader) :=
  match count with
  | O => Ok ([], r)
  | S count' =>
      let! '(key, r) := Reader_bytes16 r in
      let! '(child, r) := Reader_take r 32 in
      let! '(entries, r) := decode_child_entries count' r in
      Ok ({| e_key := key; e_value := child |} :: entries, r)
  end.

(** [windows(2)]: keys strictly increasing. *)
Fixpoint keys_increasing (entries : list Entry) : bool :=
  match entries with
  | e :: ((e' :: _) as entries') =>
      bool_decide (klt (e_key e) (e_key e')) && keys_increasing entries'
  | _ => true
  end.

Definition Node_decode (b : bytes) (expected_order max_fanout : Z) : result CodecError Node :=
  let r := Reader_new b in
  let! '(kind, r) := Reader_u8 r in
  let! '(encoded_order, r) := Reader_u16 r in
  fail_if negb (encoded_order =? expected_order) with Malformed ;;
  let! '(count, r) := Reader_u16 r in
  fail_if max_fanout <? count with TooLong ;;
  if kind =? NODE_LEAF then
    let! '(entries, r) := decode_leaf_entries (Z.to_nat count) r in
    fail_if negb (keys_increasing entries) with Malformed ;;
    fail_if negb (Reader_done r) with Malformed ;;
    Ok (Leaf entries)
  else if kind =? NODE_INTERNAL then
    let! '(first_child, r) := Reader_take r 32 in
    let! '(entries, r) := decode_child_entries (Z.to_nat count) r in
    fail_if negb (keys_increasing entries) with Malformed ;;
    fail_if negb (Reader_done r) with Malformed ;;
    Ok (Internal first_child entries)
  else Err Malformed.

(** * The object provider *)

Class ObjectProvider (P : Type) : Type := {
  prov_get : P -> ChunkId -> result BTreeError (option bytes);
  prov_put : P -> ChunkId -> bytes -> P
}.

Record PendingRecord : Type := {
  pr_tag : RecordTag;
  pr_payload : bytes;
  pr_materialized_len : option Z
}.

(** The transaction as a provider: the store below it (which ids its object
    index holds, what a fetch returns, and the text of its errors), the
    payloads staged so far, and the records to append, in append order.

    [tx_asked] is a history variable, which the code does not have: the records
    it was asked to stage, those included that [Tx_stage] drops because their
    id is known.  No operation reads it; it lets a statement say what a run
    staged. *)
Record Tx (E : Type) : Type := {
  tx_text : E -> String.string;
  tx_indexed : ChunkId -> bool;
  tx_fetch : ChunkId -> result E (option bytes);
  tx_pending : gmap (list Z) bytes;
  tx_records : list PendingRecord;
  tx_asked : list PendingRecord
}.
Arguments Build_Tx {E}.
Arguments tx_text {E} t.
Arguments tx_indexed {E} t.
Arguments tx_fetch {E} t.
Arguments tx_pending {E} t.
Arguments tx_records {E} t.
Arguments tx_asked {E} t.

Definition with_asked {E} (tx : Tx E) (l : list PendingRecord) : Tx E :=
  {| tx_text := tx_text tx; tx_indexed := tx_indexed tx; tx_fetch := tx_fetch tx; tx_pending := tx_pending tx;
     tx_records := tx_records tx; tx_asked := l |}.

Definition Tx_stage {E} (tx : Tx E) (id : ChunkId) (b : bytes) (tag : RecordTag) (materialized_len : option Z) : Tx E :=
  let r := {| pr_tag := tag; pr_payload := b; pr_materialized_len := materialized_len |} in
  let tx := with_asked tx (tx_asked tx ++ [r]) in
  if bool_decide (is_Some (tx_pending tx !! id)) || tx_indexed tx id then tx
  else {| tx_text := tx_text tx; tx_indexed := tx_indexed tx; tx_fetch := tx_fetch tx;
          tx_pending := <[id := b]> (tx_pending tx); tx_records := tx_records tx ++ [r]; tx_asked := tx_asked tx |}.

Definition fetch_pending_or_store {E} (tx : Tx E) (id : ChunkId) : result E (option bytes) :=
  match tx_pending tx !! id with
  | Some b => Ok (Some b)
  | None => tx_fetch tx id
  end.

#[global] Instance Tx_provider {E} : ObjectProvider (Tx E) := {
  prov_get tx id := map_err (fun e => Provider (tx_text tx e)) (fetch_pending_or_store tx id);
  prov_put tx id b := Tx_stage tx id b BtreeNode None
}.

(** A transaction over an empty store. *)
Definition Tx_empty : Tx String.string :=
  {| tx_text := fun s => s; tx_indexed := fun _ => false; tx_fetch := fun _ => Ok None; tx_pending := ∅; tx_records := []; tx_asked := [] |}.

(** * Operations *)

(** Where a binary search ends in a sorted node: at the entry with the key,
    or at the insertion point. *)
Inductive found : Type :=
| Found (i : nat)
| Missing (i : nat).

(** [binary_search_by(|e| e.key.cmp(key))]. *)
Fixpoint search (key : bytes) (entries : list Entry) : found :=
  match entries with
  | [] => Missing 0
  | e :: entries' =>
      match cmp_key (e_key e) key with
      | Eq => Found 0
      | Gt => Missing 0
      | Lt => match search key entries' with Found i => Found (S i) | Missing i => Missing (S i) end
      end
  end.

Definition child_id (e : Entry) : tree_outcome ChunkId := ok_or (ChunkId_from_bytes (e_value e)) Panic.

(** [Vec::remove]. *)
Definition vec_remove {A} (l : list A) (i : nat) : tree_outcome (list A) :=
  if (i <? length l)%nat then Ok (delete i l) else Err Panic.

(** [Vec::insert]. *)
Definition vec_insert {A} (l : list A) (i : nat) (x : A) : tree_outcome (list A) :=
  if (i <=? length l)%nat then Ok (take i l ++ x :: drop i l) else Err Panic.

(** [entries[i].value = v]. *)
Definition set_value (entries : list Entry) (i : nat) (v : bytes) : tree_outcome (list Entry) :=
  let! e := get_idx entries (Z.of_nat i) in
  set_idx entries (Z.of_nat i) {| e_key := e_key e; e_value := v |}.

Section Operations.
Context {P : Type} `{ObjectProvider P} (content_id : bytes -> ChunkId) (order max_fanout : Z).

Definition Node_id (n : Node) : tree_outcome ChunkId :=
  let! b := Node_encode n order in Ok (content_id b).

(** [let id = n.id(order); provider.put(id, n.encode(order))]. *)
Definition stage_node (p : P) (n : Node) : tree_outcome (ChunkId * P) :=
  let! id := Node_id n in
  let! b := Node_encode n order in
  Ok (id, prov_put p id b).

Definition fetch (p : P) (node_id : ChunkId) : tree_outcome Node :=
  fail_if ChunkId_is_zero node_id with Error (Invariant "zero node id") ;;
  let! o := safe (prov_get p node_id) in
  let! b := ok_or o (Error (MissingNode node_id)) in
  map_err (fun e => Error (Corrupt e)) (Node_decode b order max_fanout).

Definition depth_exceeded {A} : tree_outcome A := Err (Error (Invariant "tree depth exceeded")).

(** ** Lookup *)

(** The child whose range covers the key: its slot ([None] for the first
    child) and its id. *)
Definition child_slot (key : bytes) (first_child : ChunkId) (entries : list Entry)
  : tree_outcome (option nat * ChunkId) :=
  match search key entries with
  | Found i => let! e := get_idx entries (Z.of_nat i) in let! c := child_id e in Ok (Some i, c)
  | Missing O => Ok (None, first_child)
  | Missing (S i) => let! e := get_idx entries (Z.of_nat i) in let! c := child_id e in Ok (Some i, c)
  end.

Fixpoint get_loop (levels : nat) (p : P) (node_id : ChunkId) (key : bytes) : tree_outcome (option bytes) :=
  match levels with
  | O => depth_exceeded
  | S levels' =>
      let! node := fetch p node_id in
      match node with
      | Leaf entries =>
          match search key entries with
          | Found i => let! e := get_idx entries (Z.of_nat i) in Ok (Some (e_value e))
          | Missing _ => Ok None
          end
      | Internal first_child entries =>
          let! '(_, c) := child_slot key first_child entries in
          get_loop levels' p c key
      end
  end.

Definition get (p : P) (root : ChunkId) (key : bytes) : tree_outcome (option bytes) :=
  if ChunkId_is_zero root then Ok None else get_loop MAX_LEVELS p root key.

Fixpoint predecessor_loop (levels : nat) (p : P) (node_id : ChunkId) (key : bytes)
  (candidate : option EntryPair) : tree_outcome (option EntryPair) :=
  match levels with
  | O => depth_exceeded
  | S levels' =>
      let! node := fetch p node_id in
      match node with
      | Leaf entries =>
          match search key entries with
          | Found _ | Missing O => Ok candidate
          | Missing (S i) => let! e := get_idx entries (Z.of_nat i) in Ok (Some (e_key e, e_value e))
          end
      | Internal first_child entries =>
          match search key entries with
          | Found i =>
              let! e := get_idx entries (Z.of_nat i) in
              let! c := child_id e in
              predecessor_loop levels' p c key candidate
          | Missing O => predecessor_loop levels' p first_child key candidate
          | Missing (S i) =>
              let! e := get_idx entries (Z.of_nat i) in
              let! c := child_id e in
              predecessor_loop levels' p c key (Some (e_key e, e_value e))
          end
      end
  end.

Definition predecessor (p : P) (root : ChunkId) (key : bytes) : tree_outcome (option EntryPair) :=
  if ChunkId_is_zero root then Ok None else predecessor_loop MAX_LEVELS p root key None.

(** ** Insertion *)

(** The leaf after the insertion: within the order, or split in two. *)
Definition stage_leaf (p : P) (entries : list Entry) : tree_outcome (ChunkId * Promotion * P) :=
  if order <? wrap 16 (zlen entries) then
    let mid := (length entries / 2)%nat in
    let right_entries := drop mid entries in
    let! median := get_idx right_entries 0 in
    let! '(left_id, p) := stage_node p (Leaf (take mid entries)) in
    let! '(right_id, p) := stage_node p (Leaf right_entries) in
    Ok (left_id, Some (e_key median, right_id), p)
  else
    let! '(id, p) := stage_node p (Leaf entries) in
    Ok (id, None, p).

Definition split_internal (p : P) (first_child : ChunkId) (entries : list Entry)
  : tree_outcome (ChunkId * Promotion * P) :=
  let mid := (length entries / 2)%nat in
  let! median := get_idx entries (Z.of_nat mid) in
  let! right_first := child_id median in
  let! '(left_id, p) := stage_node p (Internal first_child (take mid entries)) in
  let! '(right_id, p) := stage_node p (Internal right_first (drop (S mid) entries)) in
  Ok (left_id, Some (e_key median, right_id), p).

(** The internal node after an insertion below it. *)
Definition stage_internal (p : P) (first_child : ChunkId) (entries : list Entry)
  : tree_outcome (ChunkId * Promotion * P) :=
  if order <? wrap 16 (zlen entries) then split_internal p first_child entries
  else
    let! '(id, p) := stage_node p (Internal first_child entries) in
    Ok (id, None, p).

(** Without a promotion the changed slot is staged without a size test. *)
Definition restage_slot (p : P) (slot : option nat) (new_child first_child : ChunkId)
  (entries : list Entry) : tree_outcome (ChunkId * P) :=
  match slot with
  | None => stage_node p (Internal new_child entries)
  | Some idx =>
      let! entries := set_value entries idx new_child in
      stage_node p (Internal first_child entries)
  end.

Fixpoint insert_rec (levels : nat) (p : P) (node_id : ChunkId) (key value : bytes)
  : tree_outcome (ChunkId * Promotion * P) :=
  match levels with
  | O => depth_exceeded
  | S levels' =>
      let! node := fetch p node_id in
      match node with
      | Leaf entries =>
          let! entries :=
            match search key entries with
            | Found i => set_value entries i value
            | Missing i => vec_insert entries i {| e_key := key; e_value := value |}
            end in
          stage_leaf p entries
      | Internal first_child entries =>
          let! '(slot, child_current) := child_slot key first_child entries in
          let! '(new_child, promote, p) := insert_rec levels' p child_current key value in
          match promote with
          | Some (pkey, right_id) =>
              let new_entry := {| e_key := pkey; e_value := right_id |} in
              match slot with
              | None =>
                  let! entries := vec_insert entries 0 new_entry in
                  stage_internal p new_child entries
              | Some idx =>
                  let! entries := set_value entries idx new_child in
                  let! entries := vec_insert entries (S idx) new_entry in
                  stage_internal p first_child entries
              end
          | None =>
              let! '(id, p) := restage_slot p slot new_child first_child entries in
              Ok (id, None, p)
          end
      end
  end.

(** A root that split gets a new root above its halves. *)
Definition grow_root (p : P) (left_id : ChunkId) (promote : Promotion) : tree_outcome (ChunkId * P) :=
  match promote with
  | None => Ok (left_id, p)
  | Some (pkey, right_id) => stage_node p (Internal left_id [{| e_key := pkey; e_value := right_id |}])
  end.

Definition insert (p : P) (root : ChunkId) (key value : bytes) : tree_outcome (ChunkId * P) :=
  fail_if 2 ^ 16 - 1 <? zlen key with Error KeyTooLong ;;
  fail_if 2 ^ 32 - 1 <? zlen value with Error ValueTooLarge ;;
  if ChunkId_is_zero root then stage_node p (Leaf [{| e_key := key; e_value := value |}])
  else
    let! '(new_node, promote, p) := insert_rec MAX_LEVELS p root key value in
    grow_root p new_node promote.

(** ** Removal *)

Fixpoint remove_rec (levels : nat) (p : P) (node_id : ChunkId) (key : bytes)
  : tree_outcome (option ChunkId * option bytes * P) :=
  match levels with
  | O => depth_exceeded
  | S levels' =>
      let! node := fetch p node_id in
      match node with
      | Leaf entries =>
          match search key entries with
          | Found i =>
              let! e := get_idx entries (Z.of_nat i) in
              let! entries := vec_remove entries i in
              if zlen entries =? 0 then Ok (None, Some (e_value e), p)
              else
                let! '(id, p) := stage_node p (Leaf entries) in
                Ok (Some id, Some (e_value e), p)
          | Missing _ => Ok (Some node_id, None, p)
          end
      | Internal first_child entries =>
          let! '(slot, child_current) := child_slot key first_child entries in
          let! '(child_result, removed, p) := remove_rec levels' p child_current key in
          match child_result with
          | None =>
              match slot with
              | None =>
                  fail_if zlen entries =? 0
                    with Error (Invariant "first_child collapsed with no entries") ;;
                  let! e := get_idx entries 0 in
                  let! new_first := child_id e in
                  let! entries := vec_remove entries 0 in
                  if zlen entries =? 0 then Ok (Some new_first, removed, p)
                  else
                    let! '(id, p) := stage_node p (Internal new_first entries) in
                    Ok (Some id, removed, p)
              | Some idx =>
                  let! entries := vec_remove entries idx in
                  if zlen entries =? 0 then Ok (Some first_child, removed, p)
                  else
                    let! '(id, p) := stage_node p (Internal first_child entries) in
                    Ok (Some id, removed, p)
              end
          | Some new_child =>
              if bool_decide (new_child = child_current) then Ok (Some node_id, removed, p)
              else
                let! '(id, p) := restage_slot p slot new_child first_child entries in
                Ok (Some id, removed, p)
          end
      end
  end.

Definition remove (p : P) (root : ChunkId) (key : bytes) : tree_outcome (ChunkId * P) :=
  if ChunkId_is_zero root then Ok (ChunkId_ZERO, p)
  else
    let! '(new_root, _, p) := remove_rec MAX_LEVELS p root key in
    Ok (default ChunkId_ZERO new_root, p).

(** ** Range scans *)

Record ScanState : Type := {
  sc_out : list EntryPair; sc_has_more : bool; sc_last_key : option bytes
}.
Definition ScanState_new : ScanState := {| sc_out := []; sc_has_more := false; sc_last_key := None |}.
Definition scan_full (st : ScanState) : ScanState :=
  {| sc_out := sc_out st; sc_has_more := true; sc_last_key := sc_last_key st |}.
Definition scan_emit (e : Entry) (st : ScanState) : ScanState :=
  {| sc_out := sc_out st ++ [(e_key e, e_value e)]; sc_has_more := sc_has_more st;
     sc_last_key := Some (e_key e) |}.

Definition min_bound (a b : option bytes) : option bytes :=
  match a, b with
  | Some x, Some y => Some (if bool_decide (klt y x) then y else x)
  | Some x, None => Some x
  | None, Some y => Some y
  | None, None => None
  end.

Fixpoint scan_leaf (entries : list Entry) (start end_ : option bytes) (limit : Z) (st : ScanState)
  : ScanState :=
  match entries with
  | [] => st
  | e :: entries' =>
      if match start with Some s => bool_decide (klt (e_key e) s) | None => false end
      then scan_leaf entries' start end_ limit st
      else if match end_ with Some en => negb (bool_decide (klt (e_key e) en)) | None => false end
      then st
      else if limit <=? zlen (sc_out st) then scan_full st
      else scan_leaf entries' start end_ limit (scan_emit e st)
  end.

Fixpoint scan_children (rec : ChunkId -> option bytes -> option bytes -> ScanState -> tree_outcome ScanState)
  (entries : list Entry) (start end_ : option bytes) (limit : Z) (st : ScanState) : tree_outcome ScanState :=
  match entries with
  | [] => Ok st
  | e :: entries' =>
      if limit <=? zlen (sc_out st) then Ok (scan_full st)
      else
        let child_start :=
          match start with Some s => if bool_decide (klt s (e_key e)) then None else Some s | None => None end in
        let child_end := min_bound (e_key <$> head entries') end_ in
        let! c := child_id e in
        let! st := rec c child_start child_end st in
        scan_children rec entries' start end_ limit st
  end.

Fixpoint scan_rec (levels : nat) (p : P) (node_id : ChunkId) (start end_ : option bytes) (limit : Z)
  (st : ScanState) : tree_outcome ScanState :=
  match levels with
  | O => depth_exceeded
  | S levels' =>
      if limit <=? zlen (sc_out st) then Ok (scan_full st)
      else if ChunkId_is_zero node_id then Ok st
      else
        let! node := fetch p node_id in
        match node with
        | Leaf entries => Ok (scan_leaf entries start end_ limit st)
        | Internal first_child entries =>
            let first_end := min_bound (e_key <$> head entries) end_ in
            let skip :=
              match start, head entries with
              | Some s, Some e => negb (bool_decide (klt s (e_key e)))
              | _, _ => false
              end in
            let! st :=
              if negb skip then scan_rec levels' p first_child start first_end limit st else Ok st in
            scan_children (fun c s e st => scan_rec levels' p c s e limit st) entries start end_ limit st
        end
  end.

Definition scan (p : P) (root : ChunkId) (start end_ : option bytes) (limit : Z)
  : tree_outcome (list EntryPair * bool * option bytes) :=
  if ChunkId_is_zero root then Ok ([], false, None)
  else
    let! st := scan_rec MAX_LEVELS p root start end_ limit ScanState_new in
    Ok (sc_out st, sc_has_more st, sc_last_key st).

Definition scan_all (p : P) (root : ChunkId) : tree_outcome (list EntryPair) :=
  let! '(entries, _, _) := scan p root None None (2 ^ 64 - 1) in
  Ok entries.

Definition count (p : P) (root : ChunkId) : tree_outcome Z :=
  let! entries := scan_all p root in
  Ok (zlen entries).

(** ** Verification *)

Fixpoint verify_children (rec : ChunkId -> tree_outcome Z) (entries : list Entry) (total : Z)
  : tree_outcome Z :=
  match entries with
  | [] => Ok total
  | e :: entries' =>
      let! cid := child_id e in
      fail_if ChunkId_is_zero cid with Error (Invariant "zero child id") ;;
      let! n := rec cid in
      let! total := ok_or (checked_add 64 total n) Panic in
      verify_children rec entries' total
  end.

Fixpoint verify_rec (levels : nat) (p : P) (node_id : ChunkId) : tree_outcome Z :=
  match levels with
  | O => depth_exceeded
  | S levels' =>
      let! node := fetch p node_id in
      match node with
      | Leaf entries => Ok (zlen entries)
      | Internal first_child entries =>
          fail_if ChunkId_is_zero first_child with Error (Invariant "zero first child") ;;
          let! total := verify_rec levels' p first_child in
          verify_children (verify_rec levels' p) entries total
      end
  end.

Definition verify (p : P) (root : ChunkId) : tree_outcome Z :=
  if ChunkId_is_zero root then Ok 0 else verify_rec MAX_LEVELS p root.

(** ** Bulk construction *)

(** [slice.chunks(n)]; the length of the slice is enough fuel. *)
Fixpoint chunks {A} (fuel n : nat) (l : list A) : list (list A) :=
  match fuel, l with
  | S fuel', _ :: _ => take n l :: chunks fuel' n (drop n l)
  | _, _ => []
  end.

Fixpoint load_leaves (p : P) (cs : list (list EntryPair)) : tree_outcome (list (ChunkId * bytes) * P) :=
  match cs with
  | [] => Ok ([], p)
  | c :: cs' =>
      let! '(leftmost, _) := get_idx c 0 in
      let! '(id, p) := stage_node p (Leaf (map (fun kv : EntryPair => {| e_key := kv.1; e_value := kv.2 |}) c)) in
      let! '(level, p) := load_leaves p cs' in
      Ok ((id, leftmost) :: level, p)
  end.

Fixpoint load_internals (p : P) (cs : list (list (ChunkId * bytes)))
  : tree_outcome (list (ChunkId * bytes) * P) :=
  match cs with
  | [] => Ok ([], p)
  | c :: cs' =>
      let! '(first_child, leftmost) := get_idx c 0 in
      let entries := map (fun s : ChunkId * bytes => {| e_key := s.2; e_value := s.1 |}) (drop 1 c) in
      let! '(id, p) := stage_node p (Internal first_child entries) in
      let! '(level, p) := load_internals p cs' in
      Ok ((id, leftmost) :: level, p)
  end.

(** [while level.len() > 1]: every turn shrinks the level. *)
Fixpoint load_levels (fuel : nat) (p : P) (level : list (ChunkId * bytes))
  : tree_outcome (list (ChunkId * bytes) * P) :=
  if zlen level <=? 1 then Ok (level, p)
  else
    match fuel with
    | O => Err Panic
    | S fuel' =>
        let! '(next, p) := load_internals p (chunks (length level) (Z.to_nat (order + 1)) level) in
        load_levels fuel' p next
    end.

Definition bulk_load (p : P) (entries : list EntryPair) : tree_outcome (ChunkId * P) :=
  if zlen entries =? 0 then Ok (ChunkId_ZERO, p)
  else
    fail_if order =? 0 with Error (Invariant "zero order") ;;
    fail_if max_fanout <? order with Error (Invariant "order exceeds max fanout") ;;
    let! '(level, p) := load_leaves p (chunks (length entries) (Z.to_nat order) entries) in
    let! '(level, p) := load_levels (length level) p level in
    let! '(root, _) := get_idx level 0 in
    Ok (root, p).

(** ** Sorted batches *)

(** The sorted walk over a leaf and its batch: the merged entries, and
    whether anything changed. *)
Fixpoint merge_leaf (entries : list Entry) : list BatchOp -> list Entry * bool :=
  fix merge_batch (batch : list BatchOp) : list Entry * bool :=
    match entries, batch with
    | [], [] => ([], false)
    | e :: entries', [] => let '(out, changed) := merge_leaf entries' [] in (e :: out, changed)
    | [], (k, v) :: batch' =>
        let '(out, changed) := merge_batch batch' in
        match v with
        | Some value => ({| e_key := k; e_value := value |} :: out, true)
        | None => (out, changed)
        end
    | e :: entries', (k, v) :: batch' =>
        match cmp_key (e_key e) k with
        | Lt => let '(out, changed) := merge_leaf entries' batch in (e :: out, changed)
        | Eq =>
            let '(out, changed) := merge_leaf entries' batch' in
            match v with
            | Some value =>
                if bool_decide (e_value e <> value) then ({| e_key := k; e_value := value |} :: out, true)
                else (e :: out, changed)
            | None => (out, true)
            end
        | Gt =>
            let '(out, changed) := merge_batch batch' in
            match v with
            | Some value => ({| e_key := k; e_value := value |} :: out, true)
            | None => (out, changed)
            end
        end
    end.

(** [partition_point]: the first index where the predicate fails; the
    interval halves, so its length is enough fuel. *)
Fixpoint partition_loop (fuel : nat) (slice : list bytes) (pred : bytes -> bool) (lo hi : Z) : tree_outcome Z :=
  if lo <? hi then
    match fuel with
    | O => Err Panic
    | S fuel' =>
        let mid := (lo + hi) / 2 in
        let! k := get_idx slice mid in
        if pred k then partition_loop fuel' slice pred (mid + 1) hi
        else partition_loop fuel' slice pred lo mid
    end
  else Ok lo.
Definition partition_point (slice : list bytes) (pred : bytes -> bool) : tree_outcome Z :=
  partition_loop (length slice) slice pred 0 (zlen slice).

(** How many of the remaining keys fall in the slot's range; [slots'] are
    the slots after it. *)
Definition slot_share (first : bool) (sep : option bytes) (slots' : list Slot) (keys : list bytes)
  : tree_outcome Z :=
  if first then
    match slots' with
    | (Some f, _) :: _ => partition_point keys (fun k => bool_decide (klt k f))
    | _ => Ok (zlen keys)
    end
  else
    let! cur := ok_or sep Panic in
    match slots' with
    | (next, _) :: _ =>
        let! next := ok_or next Panic in
        partition_point keys (fun k => negb (bool_decide (klt k cur)) && bool_decide (klt k next))
    | [] => partition_point keys (fun k => negb (bool_decide (klt k cur)))
    end.

(** The loop over the child slots; [batch] is what no earlier slot took. *)
Fixpoint patch_slots (rec : P -> ChunkId -> list BatchOp -> tree_outcome (option ChunkId * Promotion * P))
  (p : P) (first : bool) (slots : list Slot) (batch : list BatchOp)
  : tree_outcome (list (option bytes * option ChunkId) * bool * P) :=
  match slots with
  | [] => Ok ([], false, p)
  | (sep, child) :: slots' =>
      let! hi := slot_share first sep slots' (map fst batch) in
      let! slice := get_slice batch 0 hi in
      let! rest := get_slice batch hi (zlen batch) in
      if zlen slice =? 0 then
        let! '(out, changed, p) := patch_slots rec p false slots' rest in
        Ok ((sep, Some child) :: out, changed, p)
      else
        let! '(new_child, promote, p) := rec p child slice in
        let! '(out, changed, p) := patch_slots rec p false slots' rest in
        let changed := bool_decide (new_child <> Some child) || changed in
        match promote with
        | Some (pkey, right_id) => Ok ((sep, new_child) :: (Some pkey, Some right_id) :: out, true, p)
        | None => Ok ((sep, new_child) :: out, changed, p)
        end
  end.

(** Collapsed children go; the first survivor loses its separator. *)
Fixpoint compact (seen_survivor : bool) (slots : list (option bytes * option ChunkId)) : list Slot :=
  match slots with
  | [] => []
  | (sep, Some c) :: slots' => ((if seen_survivor then sep else None), c) :: compact true slots'
  | (_, None) :: slots' => compact seen_survivor slots'
  end.

Fixpoint slot_entries (slots : list Slot) : tree_outcome (list Entry) :=
  match slots with
  | [] => Ok []
  | (sep, c) :: slots' =>
      let! key := ok_or sep Panic in
      let! entries := slot_entries slots' in
      Ok ({| e_key := key; e_value := c |} :: entries)
  end.

Fixpoint entry_slots (entries : list Entry) : tree_outcome (list Slot) :=
  match entries with
  | [] => Ok []
  | e :: entries' =>
      let! c := child_id e in
      let! slots := entry_slots entries' in
      Ok ((Some (e_key e), c) :: slots)
  end.

Fixpoint patch_rec (levels : nat) (p : P) (node_id : ChunkId) (batch : list BatchOp)
  : tree_outcome (option ChunkId * Promotion * P) :=
  match levels with
  | O => depth_exceeded
  | S levels' =>
      if zlen batch =? 0 then Ok (Some node_id, None, p)
      else
        let! node := fetch p node_id in
        match node with
        | Leaf entries =>
            let '(out, changed) := merge_leaf entries batch in
            if negb changed then Ok (Some node_id, None, p)
            else if zlen out =? 0 then Ok (None, None, p)
            else
              let! '(id, promote, p) := stage_leaf p out in
              Ok (Some id, promote, p)
        | Internal first_child entries =>
            let! slots := entry_slots entries in
            let! '(out_slots, changed, p) :=
              patch_slots (patch_rec levels') p true ((None, first_child) :: slots) batch in
            if negb changed then Ok (Some node_id, None, p)
            else
              match compact false out_slots with
              | [] => Ok (None, None, p)
              | [(_, c)] => Ok (Some c, None, p)
              | (_, new_first_child) :: compacted =>
                  let! new_entries := slot_entries compacted in
                  let! '(id, promote, p) := stage_internal p new_first_child new_entries in
                  Ok (Some id, promote, p)
              end
        end
  end.

Fixpoint batch_increasing (batch : list BatchOp) : bool :=
  match batch with
  | o :: ((o' :: _) as batch') => bool_decide (klt o.1 o'.1) && batch_increasing batch'
  | _ => true
  end.

Definition apply_sorted_batch (p : P) (root : ChunkId) (batch : list BatchOp) : tree_outcome (ChunkId * P) :=
  if zlen batch =? 0 then Ok (root, p)
  else
    fail_if order =? 0 with Error (Invariant "zero order") ;;
    fail_if negb (batch_increasing batch)
      with Error (Invariant "apply_sorted_batch: batch not sorted / duplicate keys") ;;
    if ChunkId_is_zero root then
      bulk_load p (omap (fun o : BatchOp => (fun v => (o.1, v)) <$> o.2) batch)
    else
      let! '(new_root, promote, p) := patch_rec MAX_LEVELS p root batch in
      match new_root with
      | Some id => grow_root p id promote
      | None => Ok (ChunkId_ZERO, p)
      end.
End Operations.
