(* ===== verification/StoreError.v ===== *)
(** The error types of the store: [SegmentError] of [store/segment.rs] and
    [StoreError] of [store/mod.rs].  Messages are kept as strings where the
    code builds them from constants; a message that formats an inner error
    carries that error. *)
From Stdlib Require String.
From S2P Require Import Prelude Codec Repr Version SegRecord Superblock Descriptor Context BTree.

Inductive SegmentError : Type :=
| SegIo (msg : String.string)
| SegMalformed
| CorruptRecord (msg : String.string) (at_ : option (Z * CodecError))
| SegOverflow
| SegMissing.

(** The text of a message: a constant, or an error formatted into it. *)
Inductive Message : Type :=
| Text (s : String.string)
| OfCodec (e : CodecError)
| OfTree (e : BTreeError)
| OfMaterialized (e : MaterializeError).
Coercion Text : String.string >-> Message.

Inductive StoreError : Type :=
| StoreSegment (e : SegmentError)
| StoreSuperblock (msg : String.string)
| StoreIndex (msg : Message)
| MissingObject (id : ChunkId)
| MissingChunk (id : ChunkId)
| StoreDescriptor (msg : Message)
| NotOpen
| Locked
| StoreConfigError (msg : String.string)
| StoreLimit (msg : String.string)
| StoreFull (msg : String.string)
| StoreIo (msg : String.string)
| CrashSimulated (msg : String.string)
| StoreInvariant (msg : String.string)
| StoreReadOnly
| IncompatibleFormat (e : CompatibilityError).
