(* ===== verification/RootObj.v ===== *)
(** Components [store/root.rs], [integrity/root.rs] and [integrity/content.rs]:
    the filesystem root object and its codec, the two superblock slots of the
    superblock file and the choice between them, and the bindings between a
    superblock, its root object and the content hashes.  The CRC and the
    content hash are parameters; a superblock file is its bytes. *)
From Stdlib Require String.
From S2P Require Import Prelude Codec Repr Version SegRecord Superblock Descriptor Context Materialize Keys BTree StoreError.
Import String.StringSyntax.

Record Root : Type := {
  root_format_major : Z;
  root_format_minor : Z;
  inode_index_root : ChunkId;
  root_dir_ino : Z;
  snapshot_tree_root : ChunkId;
  model_index_root : ChunkId;
  root_segment_seq : Z;
  index_epoch : Z;
  root_uuid : bytes;
  root_generation : Z;
  chunk_index_root : ChunkId;
  log_seq : Z
}.
#[global] Instance Root_eq_dec : EqDecision Root.
Proof. solve_decision. Defined.

Definition Root_default : Root :=
  {| root_format_major := FORMAT_MAJOR; root_format_minor := FORMAT_MINOR; inode_index_root := ChunkId_ZERO;
     root_dir_ino := 0; snapshot_tree_root := ChunkId_ZERO; model_index_root := ChunkId_ZERO;
     root_segment_seq := 0; index_epoch := 0; root_uuid := replicate 16 0; root_generation := 0;
     chunk_index_root := ChunkId_ZERO; log_seq := 0 |}.

Definition Root_encode (t : Root) : bytes :=
  let w := Writer_new in
  let w := Writer_u16 w (root_format_major t) in
  let w := Writer_u16 w (root_format_minor t) in
  let w := Writer_bytes w (inode_index_root t) in
  let w := Writer_u64 w (root_dir_ino t) in
  let w := Writer_bytes w (snapshot_tree_root t) in
  let w := Writer_bytes w (model_index_root t) in
  let w := Writer_u64 w (root_segment_seq t) in
  let w := Writer_u64 w (index_epoch t) in
  let w := Writer_bytes w (root_uuid t) in
  let w := Writer_u64 w (root_generation t) in
  let w := Writer_bytes w (chunk_index_root t) in
  let w := Writer_u64 w (log_seq t) in
  Writer_into_bytes w.

Definition Root_decode (b : bytes) : result CodecError Root :=
  let r := Reader_new b in
  let! '(format_major, r) := Reader_u16 r in
  let! '(format_minor, r) := Reader_u16 r in
  let! '(inode_index_root, r) := record_read_id r in
  let! '(root_dir_ino, r) := Reader_u64 r in
  let! '(snapshot_tree_root, r) := record_read_id r in
  let! '(model_index_root, r) := record_read_id r in
  let! '(segment_seq, r) := Reader_u64 r in
  let! '(index_epoch, r) := Reader_u64 r in
  let! '(uuid, r) := Reader_take r 16 in
  let! '(generation, r) := Reader_u64 r in
  let! '(chunk_index_root, r) := record_read_id r in
  let! '(log_seq, r) := (if 8 <=? Reader_remaining r then Reader_u64 r else Ok (0, r)) in
  fail_if negb (Reader_done r) with Malformed ;;
  fail_if negb (format_major =? FORMAT_MAJOR) with Malformed ;;
  Ok {| root_format_major := format_major; root_format_minor := format_minor;
        inode_index_root := inode_index_root; root_dir_ino := root_dir_ino;
        snapshot_tree_root := snapshot_tree_root; model_index_root := model_index_root;
        root_segment_seq := segment_seq; index_epoch := index_epoch; root_uuid := uuid;
        root_generation := generation; chunk_index_root := chunk_index_root; log_seq := log_seq |}.

(** * The two slots *)

Record SuperblockPair : Type := { slot_a : option Superblock; slot_b : option Superblock }.

Section Slots.
Context (crc32c : bytes -> Z).

(** The bytes of a slot of the file: what a read loop until the end of the
    file returns.  A short slot is an error, an invalid one is ignored. *)
Definition read_slot (file : bytes) (offset : Z) : result (trap StoreError) (option Superblock) :=
  let buf := slice (Z.to_nat offset) (Z.to_nat SUPERBLOCK_SLOT_SIZE) file in
  let read := zlen buf in
  if read =? 0 then Ok None else
  fail_if read <? SUPERBLOCK_SLOT_SIZE with Error (StoreSuperblock "truncated superblock slot") ;;
  match Superblock_decode crc32c buf with
  | Ok sb => Ok (Some sb)
  | Err Panic => Err Panic
  | Err (Error _) => Ok None
  end.

Definition SuperblockPair_read (file : bytes) : result (trap StoreError) SuperblockPair :=
  let! a := read_slot file SUPERBLOCK_SLOT_A_OFFSET in
  let! b := read_slot file SUPERBLOCK_SLOT_B_OFFSET in
  Ok {| slot_a := a; slot_b := b |}.

(** [[a, b].into_iter().flatten()] *)
Definition valid_slots (p : SuperblockPair) : list Superblock := omap id [slot_a p; slot_b p].

(** [max_by_key]: the last of the greatest elements. *)
Fixpoint max_by_key {A : Type} (key : A -> Z) (l : list A) : option A :=
  match l with
  | [] => None
  | x :: l' =>
      match max_by_key key l' with
      | None => Some x
      | Some y => if key x <=? key y then Some y else Some x
      end
  end.

Definition choose (p : SuperblockPair) : result StoreError Superblock :=
  ok_or (max_by_key sb_generation (valid_slots p)) (StoreSuperblock "no valid superblock found").

Definition inactive_slot (p : SuperblockPair) (next_generation : Z) : Z :=
  if Z.land next_generation 1 =? 0 then SUPERBLOCK_SLOT_A_OFFSET else SUPERBLOCK_SLOT_B_OFFSET.

(** A positioned write into a file: bytes past the end extend it, a gap
    reads as zeros; writing nothing changes nothing. *)
Definition write_bytes_at (file : bytes) (offset : Z) (b : bytes) : bytes :=
  let o := Z.to_nat offset in
  match b with
  | [] => file
  | _ => take o file ++ replicate (o - length file) 0 ++ b ++ drop (o + length b) file
  end.

Definition write_slot (file : bytes) (offset : Z) (sb : Superblock) : bytes :=
  write_bytes_at file offset (Superblock_encode crc32c sb).
End Slots.

(** * Root integrity *)

Inductive RootVerifyError : Type :=
| RootIdMismatch (expected actual : ChunkId)
| RootDecode
| GenerationMismatch (sb root : Z)
| RootObjectMissing.

Inductive ContentVerifyError : Type :=
| ContentMaterialize (e : MaterializeError)
| LengthMismatch (declared actual : Z)
| HashMismatch (key actual : ChunkId).

Section Verify.
Context (content_id : bytes -> ChunkId).

Definition Root_id (t : Root) : ChunkId := content_id (Root_encode t).

Definition verify_root_payload (sb : Superblock) (root_payload : bytes) : result RootVerifyError unit :=
  let actual := content_id root_payload in
  fail_if negb (bool_decide (actual = sb_root_object_id sb)) with RootIdMismatch (sb_root_object_id sb) actual ;;
  Ok tt.

Definition verify_root (sb : Superblock) (root_payload : bytes) : result RootVerifyError Root :=
  let! _ := verify_root_payload sb root_payload in
  let! root := map_err (fun _ => RootDecode) (Root_decode root_payload) in
  fail_if negb (root_generation root =? sb_generation sb) with
    GenerationMismatch (sb_generation sb) (root_generation root) ;;
  Ok root.

Definition verify_snapshot_root (expected_id : ChunkId) (root_payload : bytes) : result RootVerifyError Root :=
  let actual := content_id root_payload in
  fail_if negb (bool_decide (actual = expected_id)) with RootIdMismatch expected_id actual ;;
  map_err (fun _ => RootDecode) (Root_decode root_payload).

Definition logical_content_hash (b : bytes) : ChunkId := content_id b.
Definition verify_content (b : bytes) (expected : ChunkId) : bool :=
  bool_decide (logical_content_hash b = expected).
End Verify.

(** * The root codec *)

Record root_wf (t : Root) : Prop := {
  rw_major : root_format_major t = FORMAT_MAJOR;
  rw_minor : is_u16 (root_format_minor t);
  rw_inode : wf_id (inode_index_root t);
  rw_dir : is_u64 (root_dir_ino t);
  rw_snapshot : wf_id (snapshot_tree_root t);
  rw_model : wf_id (model_index_root t);
  rw_seq : is_u64 (root_segment_seq t);
  rw_epoch : is_u64 (index_epoch t);
  rw_uuid : zlen (root_uuid t) = 16 /\ wf_bytes (root_uuid t);
  rw_generation : is_u64 (root_generation t);
  rw_chunk : wf_id (chunk_index_root t);
  rw_log : is_u64 (log_seq t)
}.

(** The payload up to the chunk index, which every version of the format
    writes. *)
Definition root_image (t : Root) : bytes :=
  to_le 2 (root_format_major t) ++ to_le 2 (root_format_minor t) ++ inode_index_root t ++
  to_le 8 (root_dir_ino t) ++ snapshot_tree_root t ++ model_index_root t ++ to_le 8 (root_segment_seq t) ++
  to_le 8 (index_epoch t) ++ root_uuid t ++ to_le 8 (root_generation t) ++ chunk_index_root t.

Lemma Root_encode_image t : Root_encode t = root_image t ++ to_le 8 (log_seq t).
Proof.
  unfold Root_encode, Writer_into_bytes, Writer_bytes, Writer_u16, Writer_u64. cbn [w_buf Writer_new app].
  unfold root_image. by rewrite <-!app_assoc.
Qed.

Lemma root_image_ok t : root_wf t -> zlen (root_image t) = 180 /\ wf_bytes (root_image t).
Proof.
  intros [? ? [Hi ?] ? [Hs ?] [Hm ?] ? ? [Hu ?] ? [Hc ?] ?]. unfold root_image. split.
  - autorewrite with zlen. rewrite Hu. unfold zlen. rewrite Hi, Hs, Hm, Hc. done.
  - rewrite !wf_bytes_app. split_and!; done || apply to_le_wf.
Qed.

Lemma root_decode_fwd t tail :
  root_wf t -> (tail = to_le 8 (log_seq t) \/ (tail = [] /\ log_seq t = 0)) ->
  Root_decode (root_image t ++ tail) = Ok t.
Proof.
  intros H Htail. destruct (root_image_ok t H) as [Hl _].
  assert (Ht : zlen tail = 8 \/ (tail = [] /\ log_seq t = 0)).
  { destruct Htail as [->|?]; [by left; rewrite zlen_to_le | by right]. }
  assert (Hat : reader_at (Reader_new (root_image t ++ tail)) (root_image t ++ tail)).
  { apply Reader_new_at. rewrite zlen_app, Hl. destruct Ht as [->|[-> _]]; done. }
  unfold Root_decode. cbv zeta. generalize dependent (Reader_new (root_image t ++ tail)). intros rd Hat.
  unfold root_image in Hat. rewrite <-!app_assoc in Hat. destruct H. destruct rw_uuid0 as [Hu _].
  rewrite rw_major0 in Hat. assert (is_u16 FORMAT_MAJOR) by done.
  do 2 read_with Reader_u16_ok. read_with record_read_id_ok. read_with Reader_u64_ok. do 2 read_with record_read_id_ok.
  do 2 read_with Reader_u64_ok. read_with Reader_take_ok. read_with Reader_u64_ok. read_with record_read_id_ok.
  match goal with H : reader_at ?r tail |- context [Reader_remaining ?r] => rename H into Htl; rename r into rt end.
  unfold Reader_remaining. rewrite <-(reader_at_len _ _ Htl).
  destruct Htail as [->|[-> Hlog]].
  - rewrite zlen_to_le. change (8 <=? Z.of_nat 8) with true.
    rewrite <-(app_nil_r (to_le 8 _)) in Htl. read_with Reader_u64_ok.
    cbn [rbind]. match goal with H : reader_at ?r [] |- _ => rewrite (Reader_done_spec r _ H) end.
    cbn. rewrite <-rw_major0. by destruct t.
  - rewrite zlen_nil. cbn [Z.leb Z.compare rbind]. rewrite (Reader_done_spec _ _ Htl). cbn.
    rewrite <-rw_major0, <-Hlog. by destruct t.
Qed.

Lemma root_decode_bwd b t :
  wf_bytes b -> zlen b < 2 ^ 63 -> Root_decode b = Ok t ->
  root_wf t /\ (b = root_image t ++ to_le 8 (log_seq t) \/ (b = root_image t /\ log_seq t = 0)).
Proof.
  intros Hwf Hlen Hd. unfold Root_decode in Hd. cbv zeta in Hd.
  pose proof (Reader_new_at b Hlen) as Hat. generalize dependent (Reader_new b). intros rd Hd Hat.
  inv_ok Hd. unfold record_read_id in *. bools. reads_inv.
  destruct_and?. unfold root_image.
  match goal with H : (if _ then _ else _) = Ok _ |- _ => rename H into Hlog end.
  destruct (8 <=? Reader_remaining _) in Hlog; inv_ok Hlog; reads_inv;
    match goal with Hr : reader_at ?r ?l, Hd : Reader_done ?r = true |- _ =>
      rewrite (Reader_done_spec _ _ Hr) in Hd; apply bool_decide_eq_true in Hd; subst l end.
  - split; [split; cbn; auto using id_wf|]. left. cbn. by rewrite <-!app_assoc, app_nil_r.
  - split; [split; cbn; auto using id_wf; width|]. right. cbn. by rewrite app_nil_r.
Qed.

(** The root codec is exact: a payload decodes to a root precisely when
    the root is well formed (format major 1, ids of 32 bytes, fields in
    range) and the payload is its encoding, or its encoding without the
    trailing [log_seq] where that is zero (the payloads written before the
    epoch log).  Every other payload is refused. *)
Theorem root_decode_exact b t :
  wf_bytes b -> zlen b < 2 ^ 63 ->
  Root_decode b = Ok t <->
  root_wf t /\ (b = Root_encode t \/ (log_seq t = 0 /\ b ++ replicate 8 0 = Root_encode t)).
Proof.
  intros Hwf Hlen. rewrite Root_encode_image. split.
  - intros Hd. apply root_decode_bwd in Hd as [Hw Hb]; [|done|done]. split; [done|].
    destruct Hb as [->|[-> Hlog]]; [by left | right]. by rewrite Hlog.
  - intros [Hw Hb]. destruct Hb as [->|[Hlog Hb]]; [by apply root_decode_fwd; [|left]|].
    rewrite Hlog in Hb. change (to_le 8 0) with (replicate 8 0) in Hb. apply app_inj_2 in Hb as [-> _]; [|done].
    rewrite <-(app_nil_r (root_image t)). apply root_decode_fwd; [done|]. by right.
Qed.

Definition sample_root : Root :=
  {| root_format_major := 1; root_format_minor := 0; inode_index_root := sample_hash [1]; root_dir_ino := 1;
     snapshot_tree_root := ChunkId_ZERO; model_index_root := ChunkId_ZERO; root_segment_seq := 0; index_epoch := 0;
     root_uuid := seqZ 0 16; root_generation := 5; chunk_index_root := sample_hash [2]; log_seq := 0 |}.
Lemma sample_root_wf : root_wf sample_root.
Proof.
  split; cbn; try (done || width || apply sample_hash_wf || (split; [done|]; apply (bool_decide_unpack _); by vm_compute)).
Qed.

Lemma root_decode_exact_witness :
  Root_decode (take 180 (Root_encode sample_root)) = Ok sample_root.
Proof.
  apply root_decode_exact; [| by vm_compute |].
  - apply (bool_decide_unpack _). by vm_compute.
  - split; [apply sample_root_wf|]. right. split; [done|]. by vm_compute.
Defined.

(** A root read from a short payload has another id than the payload: [id]
    hashes the current encoding. *)
Example short_root_id :
  Root_decode (take 180 (Root_encode sample_root)) = Ok sample_root /\
  Root_id sample_hash sample_root <> sample_hash (take 180 (Root_encode sample_root)).
Proof. split; by vm_compute. Qed.
