(* ===== verification/Segment.v ===== *)
(** Components [store/segment.rs] and [store/io]: append-only segment files.
    The pure scans over the bytes of a file, the transport seam [IoBackend]
    as a typeclass whose operations return the next state even when they
    fail, opening a segment with its torn-tail removal, and the segment
    writer.  [fuel] is the number of records still allowed by the length of
    the file: a record takes at least 58 bytes. *)
From Stdlib Require String.
From S2P Require Import Prelude Codec Repr Version SegRecord Superblock Descriptor Context BTree StoreError RootObj.
Import String.StringSyntax.

Record ScanRecord : Type := {
  sr_tag : RecordTag;
  sr_flags : Z;
  sr_stored_len : Z;
  sr_materialized_len : option Z;
  sr_content_id : ChunkId;
  sr_payload : bytes;
  sr_offset : Z
}.
#[global] Instance ScanRecord_eq_dec : EqDecision ScanRecord.
Proof. solve_decision. Defined.

Definition ScanRecord_total_size (r : ScanRecord) : Z := HEADER_SIZE + sr_stored_len r.

(** The owned copy of a decoded record. *)
Definition scan_record (rec : SegRecord) : ScanRecord :=
  {| sr_tag := rec_tag rec; sr_flags := rec_flags rec; sr_stored_len := rec_stored_len rec;
     sr_materialized_len := rec_materialized_len rec; sr_content_id := rec_content_id rec;
     sr_payload := rec_payload rec; sr_offset := rec_offset rec |}.

Section Scans.
Context (crc32c : bytes -> Z) (content_id : bytes -> ChunkId).
#[local] Abbreviation record_decode := (record_decode crc32c content_id).

Fixpoint scan_loop (fuel : nat) (file : bytes) (limit_records : Z) (records : list ScanRecord) (offset : Z)
  : result SegmentError (list ScanRecord * Z) :=
  if zlen file <=? offset then Ok (records, offset) else
  match fuel with
  | O => Ok (records, offset)
  | S fuel' =>
      fail_if limit_records <=? zlen records with CorruptRecord "record limit exceeded" None ;;
      match record_decode file offset with
      | Ok (Some rec) =>
          let records := records ++ [scan_record rec] in
          let! offset := ok_or (checked_add 64 offset (SegRecord_total_size rec)) SegOverflow in
          scan_loop fuel' file limit_records records offset
      | Ok None => Ok (records, offset)
      | Err Truncated => Ok (records, offset)
      | Err e => Err (CorruptRecord "at offset" (Some (offset, e)))
      end
  end.

Definition scan_segment (file : bytes) (limit_records : Z) : result SegmentError (list ScanRecord * Z) :=
  if zlen file <? 4 then Ok ([], zlen file) else
  fail_if negb (bool_decide (take 4 file = SEGMENT_MAGIC)) with SegMalformed ;;
  scan_loop (length file) file limit_records [] 4.

Fixpoint clean_end_loop (fuel : nat) (file : bytes) (offset : Z) : result SegmentError Z :=
  if zlen file <=? offset then Ok offset else
  match fuel with
  | O => Ok offset
  | S fuel' =>
      match record_decode file offset with
      | Ok (Some rec) =>
          let! offset := ok_or (checked_add 64 offset (SegRecord_total_size rec)) SegOverflow in
          clean_end_loop fuel' file offset
      | Ok None | Err _ => Ok offset
      end
  end.

Definition find_clean_end_bytes (file : bytes) : result SegmentError Z :=
  if zlen file <? 4 then Ok (zlen file) else clean_end_loop (length file) file 4.

(** [integrity/record.rs] *)
Definition verify_envelope (segment : bytes) (offset : Z) : result CodecError (option SegRecord) :=
  record_decode segment offset.

Definition verify_segment (file : bytes) (limit_records : Z) : result SegmentError (Z * Z) :=
  let! '(records, end_) := scan_segment file limit_records in Ok (zlen records, end_).

Definition record_content_id (segment : bytes) (offset : Z) : result CodecError (option ChunkId) :=
  let! r := verify_envelope segment offset in Ok (option_map rec_content_id r).

(** ** What the log of a segment is *)

(** One append: the arguments of [encode_record]. *)
Record Append : Type := { ap_tag : RecordTag; ap_flags : Z; ap_ml : option Z; ap_payload : bytes }.

Definition append_bytes (a : Append) : bytes :=
  record_encode crc32c content_id (ap_tag a) (ap_flags a) (ap_ml a) (ap_payload a).
Definition append_ok (a : Append) : Prop := fields_ok (ap_flags a) (default 0 (ap_ml a)) (ap_payload a).
Definition append_record (a : Append) (offset : Z) : ScanRecord :=
  scan_record (record_at content_id (ap_tag a) (ap_flags a) (default 0 (ap_ml a)) (ap_payload a) offset).

Definition log_bytes (l : list Append) : bytes := flat_map append_bytes l.
Fixpoint log_records (l : list Append) (offset : Z) : list ScanRecord :=
  match l with
  | [] => []
  | a :: l' => append_record a offset :: log_records l' (offset + zlen (append_bytes a))
  end.
Definition segment_bytes (l : list Append) : bytes := SEGMENT_MAGIC ++ log_bytes l.
End Scans.

(** * The transport *)

(** [IoBackend]: the next state is returned with the outcome, for an
    operation that fails may have done part of its work. *)
Class IoBackend (D : Type) : Type := {
  io_segment_len : D -> Z -> result StoreError Z;
  io_read_segment_file : D -> Z -> result StoreError bytes;
  io_write_at : D -> Z -> Z -> bytes -> D * result StoreError unit;
  io_truncate_segment : D -> Z -> Z -> D * result StoreError unit;
  io_sync_segment_file : D -> Z -> D * result StoreError unit;
  io_fdatasync_segment : D -> Z -> D * result StoreError unit;
  io_sync_segments_dir : D -> D * result StoreError unit;
  io_delete_segment : D -> Z -> D * result StoreError unit;
  io_read_payload : D -> Z -> Z -> Z -> result StoreError bytes;
  io_write_superblock_slot : D -> Z -> bytes -> D * result StoreError unit;
  io_fsync_superblock : D -> D * result StoreError unit
}.

Record ReadRequest : Type := { rq_segment_seq : Z; rq_offset : Z; rq_stored_len : Z }.

(** The reference [read_many]: one read per request, in order. *)
Definition io_read_many {D} `{IoBackend D} (d : D) (reqs : list ReadRequest) : list (result StoreError bytes) :=
  map (fun r => io_read_payload d (rq_segment_seq r) (rq_offset r) (rq_stored_len r)) reqs.

(** Sequencing of effects that return their state. *)
Definition step {D A B E : Type} (m : D * result E A) (k : D -> A -> D * result E B) : D * result E B :=
  match m with
  | (d, Ok a) => k d a
  | (d, Err e) => (d, Err e)
  end.
Notation "'do!' ( d , x ) ':=' m 'in' k" := (step m (fun d x => k))
  (at level 200, d name, x name, m at level 100, k at level 200, only parsing).

Section Opening.
Context (crc32c : bytes -> Z) (content_id : bytes -> ChunkId) {D : Type} `{IoBackend D}.

Definition open_segment_common (d : D) (seq : Z) : D * result StoreError Z :=
  do! (d, len) := (d, io_segment_len d seq) in
  if len =? 0 then
    do! (d, u) := io_write_at d seq 0 SEGMENT_MAGIC in
    do! (d, u) := io_sync_segment_file d seq in
    (d, Ok 4)
  else
    do! (d, file) := (d, io_read_segment_file d seq) in
    if zlen file <? 4 then (d, Err (StoreSegment SegMalformed))
    else if negb (bool_decide (take 4 file = SEGMENT_MAGIC)) then (d, Err (StoreSegment SegMalformed))
    else
      do! (d, clean) := (d, map_err StoreSegment (find_clean_end_bytes crc32c content_id file)) in
      do! (d, u) := (if clean <? len then
                       do! (d, u) := io_truncate_segment d seq clean in
                       io_fdatasync_segment d seq
                     else (d, Ok tt)) in
      do! (d, len) := (d, io_segment_len d seq) in
      (d, Ok (Z.max len 4)).

(** * The writer

    The backend is shared, so it is threaded beside the writer. *)
Record SegmentWriter : Type := {
  sw_seq : Z;
  sw_buffer : bytes;
  sw_durable_end : Z;
  sw_record_count : Z
}.

Definition SegmentWriter_open (d : D) (seq : Z) : D * result StoreError SegmentWriter :=
  do! (d, durable_end) := open_segment_common d seq in
  (d, Ok {| sw_seq := seq; sw_buffer := []; sw_durable_end := Z.max durable_end 4; sw_record_count := 0 |}).

Definition SegmentWriter_append (w : SegmentWriter) (b : bytes) : SegmentWriter :=
  {| sw_seq := sw_seq w; sw_buffer := sw_buffer w ++ b; sw_durable_end := sw_durable_end w;
     sw_record_count := sw_record_count w + 1 |}.

Definition buffered_len (w : SegmentWriter) : Z := zlen (sw_buffer w).

(** [std::mem::take] empties the buffer before the write, so a write that
    fails leaves a writer without its bytes. *)
Definition SegmentWriter_flush (d : D) (w : SegmentWriter) : (D * SegmentWriter) * result StoreError unit :=
  if zlen (sw_buffer w) =? 0 then ((d, w), Ok tt) else
  let buf := sw_buffer w in
  let w := {| sw_seq := sw_seq w; sw_buffer := []; sw_durable_end := sw_durable_end w;
              sw_record_count := sw_record_count w |} in
  let '(d, r) := io_write_at d (sw_seq w) (sw_durable_end w) buf in
  match r with
  | Err e => ((d, w), Err e)
  | Ok _ =>
      ((d, {| sw_seq := sw_seq w; sw_buffer := []; sw_durable_end := sw_durable_end w + zlen buf;
              sw_record_count := sw_record_count w |}), Ok tt)
  end.

Definition SegmentWriter_fdatasync (d : D) (w : SegmentWriter) : D * result StoreError unit :=
  io_fdatasync_segment d (sw_seq w).
End Opening.
