(* ===== verification/SyncIo.v ===== *)
(** Component [store/io/sync.rs]: the reference transport, and the contract
    [IoLaws] of a transport that the store relies on.  A file is its bytes;
    beside the bytes a reader sees, the state keeps those of the last sync.
    The system calls ([pwrite] and [pread] of [rustix], [stat], [read],
    [ftruncate] and [fsync] behind the standard library) are the class [Os],
    with their POSIX contract as [OsLaws]. *)
From stdpp Require Import gmap.
From Stdlib Require String.
From S2P Require Import Prelude Codec Repr Version SegRecord Superblock Descriptor Context BTree StoreError RootObj Segment.
Import String.StringSyntax.

(** * The contract of a transport *)

Class IoLaws (D : Type) `{IoBackend D} : Type := {
  (** what a reader of segment [q] sees, and what its last sync made durable *)
  io_file : D -> Z -> bytes;
  io_synced : D -> Z -> bytes;
  io_super : D -> bytes;
  io_super_synced : D -> bytes;
  law_len d q n : io_segment_len d q = Ok n -> n = zlen (io_file d q);
  law_read d q b : io_read_segment_file d q = Ok b -> b = io_file d q;
  law_payload d q off n b : 0 <= off -> 0 <= n ->
    io_read_payload d q off n = Ok b -> b = slice (Z.to_nat (off + 58)) (Z.to_nat n) (io_file d q) /\ zlen b = n;
  (** a write that fails has written some of the bytes *)
  law_write d q off b d' r : 0 <= off -> io_write_at d q off b = (d', r) ->
    (forall q', q' <> q -> io_file d' q' = io_file d q') /\
    io_synced d' = io_synced d /\ io_super d' = io_super d /\ io_super_synced d' = io_super_synced d /\
    exists k, io_file d' q = write_bytes_at (io_file d q) off (take k b) /\ (r = Ok tt -> k = length b);
  law_truncate d q n d' r : io_truncate_segment d q n = (d', r) ->
    (forall q', q' <> q -> io_file d' q' = io_file d q') /\
    io_synced d' = io_synced d /\ io_super d' = io_super d /\ io_super_synced d' = io_super_synced d /\
    (r = Ok tt -> io_file d' q = resize (Z.to_nat n) 0 (io_file d q)) /\
    (r <> Ok tt -> io_file d' q = io_file d q);
  law_sync d q d' r f : f = io_sync_segment_file \/ f = io_fdatasync_segment -> f d q = (d', r) ->
    io_file d' = io_file d /\ io_super d' = io_super d /\ io_super_synced d' = io_super_synced d /\
    (forall q', q' <> q -> io_synced d' q' = io_synced d q') /\
    (r = Ok tt -> io_synced d' q = io_file d q) /\ (r <> Ok tt -> io_synced d' q = io_synced d q);
  law_sync_dir d d' r : io_sync_segments_dir d = (d', r) -> d' = d;
  law_super_write d off b d' r : 0 <= off -> io_write_superblock_slot d off b = (d', r) ->
    io_file d' = io_file d /\ io_synced d' = io_synced d /\ io_super_synced d' = io_super_synced d /\
    exists k, io_super d' = write_bytes_at (io_super d) off (take k b) /\ (r = Ok tt -> k = length b);
  law_super_sync d d' r : io_fsync_superblock d = (d', r) ->
    io_file d' = io_file d /\ io_synced d' = io_synced d /\ io_super d' = io_super d /\
    (r = Ok tt -> io_super_synced d' = io_super d) /\ (r <> Ok tt -> io_super_synced d' = io_super_synced d)
}.

(** * The reference transport *)

(** An absent file and an empty one differ only in the directory listing; a
    handle is opened with [create], so an operation on an absent file sees
    an empty one. *)
Record Disk : Type := {
  dk_segments : gmap Z bytes;
  dk_synced : gmap Z bytes;
  dk_superblock : bytes;
  dk_superblock_synced : bytes
}.
#[global] Instance Disk_eq_dec : EqDecision Disk.
Proof. solve_decision. Defined.

Definition segment_file (d : Disk) (seq : Z) : bytes := default [] (dk_segments d !! seq).
Definition set_segment (d : Disk) (seq : Z) (f : bytes) : Disk :=
  {| dk_segments := <[seq := f]> (dk_segments d); dk_synced := dk_synced d;
     dk_superblock := dk_superblock d; dk_superblock_synced := dk_superblock_synced d |}.

(** The system calls on a file: each may fail. *)
Class Os : Type := {
  (** file, buffer, offset *)
  pwrite : bytes -> bytes -> Z -> bytes * result String.string Z;
  (** file, length, offset *)
  pread : bytes -> Z -> Z -> result String.string bytes;
  stat_len : bytes -> result String.string Z;
  read_file : bytes -> result String.string bytes;
  set_len : bytes -> Z -> result String.string bytes;
  fsync : bytes -> result String.string unit
}.

Class OsLaws `{Os} : Prop := {
  pwrite_ok file b off f n : 0 <= off -> pwrite file b off = (f, Ok n) ->
    0 <= n <= zlen b /\ f = write_bytes_at file off (take (Z.to_nat n) b);
  pwrite_err file b off f e : pwrite file b off = (f, Err e) -> f = file;
  pread_ok file n off b : 0 <= off -> 0 < n -> pread file n off = Ok b ->
    zlen b <= n /\ b = slice (Z.to_nat off) (length b) file;
  stat_ok file n : stat_len file = Ok n -> n = zlen file;
  read_file_ok file b : read_file file = Ok b -> b = file;
  set_len_ok file n f : set_len file n = Ok f -> f = resize (Z.to_nat n) 0 file
}.

Section Loops.
Context `{Os}.

(** The loop over short writes. *)
Fixpoint pwrite_loop (fuel : nat) (file : bytes) (offset : Z) (buf : bytes) : bytes * result StoreError unit :=
  match fuel with
  | O => (file, Ok tt)
  | S fuel' =>
      if zlen buf =? 0 then (file, Ok tt) else
      let '(file, r) := pwrite file buf offset in
      match r with
      | Err e => (file, Err (StoreIo e))
      | Ok n =>
          if n =? 0 then (file, Err (StoreIo "short segment write (0 bytes)"))
          else pwrite_loop fuel' file (offset + n) (drop (Z.to_nat n) buf)
      end
  end.
Definition pwrite_full (file : bytes) (offset : Z) (buf : bytes) : bytes * result StoreError unit :=
  pwrite_loop (length buf) file offset buf.

(** The loop over short reads; [filled] is the part of the buffer read so
    far. *)
Fixpoint pread_loop (fuel : nat) (file : bytes) (offset : Z) (filled : bytes) (len : Z) : result StoreError bytes :=
  if len <=? zlen filled then Ok filled else
  match fuel with
  | O => Ok filled
  | S fuel' =>
      let! b := map_err StoreIo (pread file (len - zlen filled) (offset + zlen filled)) in
      fail_if zlen b =? 0 with StoreIo "short segment read" ;;
      pread_loop fuel' file offset (filled ++ b) len
  end.
Definition pread_full (file : bytes) (offset len : Z) : result StoreError bytes :=
  pread_loop (Z.to_nat len) file offset [] len.

Definition SyncIo_read_payload (d : Disk) (seq offset stored_len : Z) : result StoreError bytes :=
  let file := segment_file d seq in
  let! start := ok_or (checked_add 64 offset RECORD_HEADER_SIZE) (StoreLimit "payload offset overflow") in
  pread_full file start stored_len.

Definition SyncIo_write_at (d : Disk) (seq offset : Z) (b : bytes) : Disk * result StoreError unit :=
  let '(f, r) := pwrite_full (segment_file d seq) offset b in (set_segment d seq f, r).

Definition SyncIo_truncate_segment (d : Disk) (seq len : Z) : Disk * result StoreError unit :=
  match set_len (segment_file d seq) len with
  | Ok f => (set_segment d seq f, Ok tt)
  | Err e => (d, Err (StoreIo e))
  end.

Definition SyncIo_fdatasync_segment (d : Disk) (seq : Z) : Disk * result StoreError unit :=
  match fsync (segment_file d seq) with
  | Ok _ =>
      ({| dk_segments := dk_segments d; dk_synced := <[seq := segment_file d seq]> (dk_synced d);
          dk_superblock := dk_superblock d; dk_superblock_synced := dk_superblock_synced d |}, Ok tt)
  | Err e => (d, Err (StoreIo e))
  end.

Definition SyncIo_delete_segment (d : Disk) (seq : Z) : Disk * result StoreError unit :=
  ({| dk_segments := delete seq (dk_segments d); dk_synced := delete seq (dk_synced d);
      dk_superblock := dk_superblock d; dk_superblock_synced := dk_superblock_synced d |}, Ok tt).

Definition SyncIo_write_superblock_slot (d : Disk) (offset : Z) (slot : bytes) : Disk * result StoreError unit :=
  let '(f, r) := pwrite_full (dk_superblock d) offset slot in
  ({| dk_segments := dk_segments d; dk_synced := dk_synced d;
      dk_superblock := f; dk_superblock_synced := dk_superblock_synced d |}, r).

Definition SyncIo_fsync_superblock (d : Disk) : Disk * result StoreError unit :=
  match fsync (dk_superblock d) with
  | Ok _ =>
      ({| dk_segments := dk_segments d; dk_synced := dk_synced d;
          dk_superblock := dk_superblock d; dk_superblock_synced := dk_superblock d |}, Ok tt)
  | Err e => (d, Err (StoreIo e))
  end.

#[global] Instance SyncIo : IoBackend Disk := {|
  io_segment_len d seq := map_err StoreIo (stat_len (segment_file d seq));
  io_read_segment_file d seq := map_err StoreIo (read_file (segment_file d seq));
  io_write_at := SyncIo_write_at;
  io_truncate_segment := SyncIo_truncate_segment;
  io_sync_segment_file := SyncIo_fdatasync_segment;
  io_fdatasync_segment := SyncIo_fdatasync_segment;
  io_sync_segments_dir d := (d, map_err StoreIo (fsync []));
  io_delete_segment := SyncIo_delete_segment;
  io_read_payload := SyncIo_read_payload;
  io_write_superblock_slot := SyncIo_write_superblock_slot;
  io_fsync_superblock := SyncIo_fsync_superblock
|}.
End Loops.

(** * The loops *)

Lemma write_bytes_at_nil f off : write_bytes_at f off [] = f.
Proof. done. Qed.

Lemma write_bytes_at_cons f off b :
  b <> [] ->
  write_bytes_at f off b =
  (take (Z.to_nat off) f ++ replicate (Z.to_nat off - length f) 0) ++ b ++ drop (Z.to_nat off + length b) f.
Proof. destruct b; [done|]. intros _. unfold write_bytes_at. by rewrite <-app_assoc. Qed.

Lemma write_bytes_at_app f off a b :
  0 <= off -> write_bytes_at (write_bytes_at f off a) (off + zlen a) b = write_bytes_at f off (a ++ b).
Proof.
  intros Ho. destruct (decide (a = [])) as [->|Ha]; [by rewrite zlen_nil, Z.add_0_r|].
  destruct (decide (b = [])) as [->|Hb]; [by rewrite app_nil_r|].
  rewrite (write_bytes_at_cons _ _ b), (write_bytes_at_cons f off a), (write_bytes_at_cons f off (a ++ b)) by
    (done || (intros E; by apply app_eq_nil in E as [-> _])).
  set (p := take (Z.to_nat off) f ++ replicate (Z.to_nat off - length f) 0).
  assert (Hp : length p = Z.to_nat off).
  { unfold p. rewrite length_app, length_take, length_replicate. lia. }
  rewrite Z2Nat.inj_add, to_nat_zlen by (lia || apply zlen_nonneg).
  assert (Hpa : length (p ++ a) = (Z.to_nat off + length a)%nat) by (by rewrite length_app, Hp).
  rewrite !(app_assoc p a), (take_app_length' (p ++ a)) by done.
  rewrite (length_app (p ++ a)), Hpa. replace (_ - (_ + _))%nat with O by lia. cbn [replicate].
  rewrite <-(drop_drop ((p ++ a) ++ _)), (drop_app_length' (p ++ a)) by done.
  rewrite drop_drop, length_app, Nat.add_assoc, app_nil_r, <-!app_assoc. done.
Qed.

Section LoopSpecs.
Context `{OsLaws}.

(** A full write leaves some of its bytes at the offset; all of them when it
    succeeds, and then it has not run out of turns. *)
Lemma pwrite_loop_ok fuel f off b f' r :
  (length b <= fuel)%nat -> 0 <= off -> pwrite_loop fuel f off b = (f', r) ->
  exists k, f' = write_bytes_at f off (take k b) /\ (r = Ok tt -> k = length b).
Proof.
  revert f off b. induction fuel as [|fuel IH]; intros f off b Hn Ho E; cbn [pwrite_loop] in E.
  { simplify_eq. exists O. destruct b; [done | cbn in Hn; lia]. }
  destruct (Z.eqb_spec (zlen b) 0) as [Hb|Hb].
  { simplify_eq. exists O. split; [done|]. unfold zlen in Hb. lia. }
  destruct (pwrite f b off) as [f1 [n|e]] eqn:Ew; [|simplify_eq; exists O; apply pwrite_err in Ew as ->; done].
  apply pwrite_ok in Ew as [Hr ->]; [|done]. destruct (Z.eqb_spec n 0) as [->|Hn0].
  { simplify_eq. exists O. done. }
  apply IH in E as (k & -> & Hk); [| rewrite length_drop; unfold zlen in *; lia | lia].
  assert (Ht : zlen (take (Z.to_nat n) b) = n) by (unfold zlen in *; rewrite length_take; lia).
  exists (Z.to_nat n + k)%nat. split.
  - rewrite <-Ht at 2. rewrite write_bytes_at_app by done. f_equal.
    rewrite <-(take_drop (Z.to_nat n) b) at 3. symmetry. apply take_app_add'. unfold zlen in *. rewrite length_take. lia.
  - intros ->. rewrite Hk by done. rewrite length_drop. unfold zlen in *. lia.
Qed.

Lemma pread_loop_ok fuel f off filled n b :
  (Z.to_nat n - length filled <= fuel)%nat -> 0 <= off -> zlen filled <= n ->
  filled = slice (Z.to_nat off) (length filled) f ->
  pread_loop fuel f off filled n = Ok b -> b = slice (Z.to_nat off) (Z.to_nat n) f /\ zlen b = n.
Proof.
  revert filled. induction fuel as [|fuel IH]; intros filled Hn Ho Hl Hf E; cbn [pread_loop] in E.
  { destruct (Z.leb_spec n (zlen filled)); simplify_eq; (assert (Hz : zlen b = n) by (unfold zlen in *; lia));
      (split; [|done]); rewrite Hf at 1; f_equal; unfold zlen in Hz; lia. }
  destruct (Z.leb_spec n (zlen filled)) as [Hle|Hgt].
  { simplify_eq. assert (Hz : zlen b = n) by lia. split; [|done]. rewrite Hf at 1. f_equal. unfold zlen in Hz; lia. }
  inv_ok E. apply map_err_Ok_inv in Hok. pose proof (zlen_nonneg filled). bools.
  apply pread_ok in Hok as [Hll Hv]; [|lia|lia].
  match type of Hv with ?x = _ => rename x into v end. pose proof (zlen_nonneg v).
  apply IH in E; [done | rewrite length_app; unfold zlen in *; lia | done | rewrite zlen_app; lia |].
  rewrite length_app. unfold slice in *. rewrite <-(take_drop (length filled) (drop (Z.to_nat off) f)).
  rewrite take_app_add' by (rewrite <-Hf; done). rewrite <-Hf. f_equal. rewrite drop_drop.
  rewrite Hv at 1. unfold zlen. rewrite Z2Nat.inj_add, Nat2Z.id by lia. done.
Qed.
End LoopSpecs.

(** * The reference transport meets the contract *)

Section Instance.
Context `{OsLaws}.

Definition super_file (d : Disk) : bytes := dk_superblock d.

Lemma set_segment_file d q f q' :
  segment_file (set_segment d q f) q' = if decide (q' = q) then f else segment_file d q'.
Proof.
  unfold segment_file, set_segment. cbn [dk_segments]. destruct (decide (q' = q)) as [->|].
  - by rewrite lookup_insert_eq.
  - by rewrite lookup_insert_ne.
Qed.

Lemma SyncIo_sync_ok d q d' r :
  SyncIo_fdatasync_segment d q = (d', r) ->
  segment_file d' = segment_file d /\ dk_superblock d' = dk_superblock d /\
  dk_superblock_synced d' = dk_superblock_synced d /\
  (forall q', q' <> q -> default [] (dk_synced d' !! q') = default [] (dk_synced d !! q')) /\
  (r = Ok tt -> default [] (dk_synced d' !! q) = segment_file d q) /\
  (r <> Ok tt -> default [] (dk_synced d' !! q) = default [] (dk_synced d !! q)).
Proof.
  unfold SyncIo_fdatasync_segment. destruct (fsync _) as [[]|]; intros; simplify_eq; cbn [dk_synced dk_superblock dk_superblock_synced].
  - split_and!; try done.
    + intros q' Hq. by rewrite lookup_insert_ne.
    + intros _. by rewrite lookup_insert_eq.
  - by split_and!.
Qed.

#[global] Program Instance SyncIo_laws : IoLaws Disk := {
  io_file := segment_file;
  io_synced d q := default [] (dk_synced d !! q);
  io_super := dk_superblock;
  io_super_synced := dk_superblock_synced
}.
Next Obligation. intros d q n E. cbn in E. apply map_err_Ok_inv in E. by apply stat_ok in E. Qed.
Next Obligation. intros d q b E. cbn in E. apply map_err_Ok_inv in E. by apply read_file_ok in E. Qed.
Next Obligation.
  intros d q off n b Ho Hn E. cbn in E. unfold SyncIo_read_payload in E. inv_ok E.
  apply ok_or_Ok_inv, checked_add_Some in Hok as [-> _]. unfold pread_full, RECORD_HEADER_SIZE in *.
  apply (pread_loop_ok (Z.to_nat n) _ _ []) in E; [done | cbn; lia | lia | done | done].
Qed.
Next Obligation.
  intros d q off b d' r Ho E. cbn in E. unfold SyncIo_write_at in E.
  destruct (pwrite_full _ _ _) as [f r'] eqn:Ew. simplify_eq. unfold pwrite_full in Ew.
  apply pwrite_loop_ok in Ew as (k & -> & Hk); [|done..]. split_and!; try done.
  - intros q' Hq. by rewrite set_segment_file, decide_False.
  - exists k. rewrite set_segment_file, decide_True by done. done.
Qed.
Next Obligation.
  intros d q n d' r E. cbn in E. unfold SyncIo_truncate_segment in E.
  destruct (set_len _ _) as [f|] eqn:Es; simplify_eq; split_and!; try done.
  - intros q' Hq. by rewrite set_segment_file, decide_False.
  - intros _. rewrite set_segment_file, decide_True by done. by apply set_len_ok in Es.
Qed.
Next Obligation. intros d q d' r f Hf E. by apply SyncIo_sync_ok; destruct Hf as [->| ->]. Qed.
Next Obligation. intros d d' r E. cbn in E. by simplify_eq. Qed.
Next Obligation.
  intros d off b d' r Ho E. cbn in E. unfold SyncIo_write_superblock_slot in E.
  destruct (pwrite_full _ _ _) as [f r'] eqn:Ew. simplify_eq. unfold pwrite_full in Ew.
  apply pwrite_loop_ok in Ew as (k & -> & Hk); [|done..]. split_and!; try done. by exists k.
Qed.
Next Obligation.
  intros d d' r E. cbn in E. unfold SyncIo_fsync_superblock in E.
  destruct (fsync _) as [[]|]; simplify_eq; by split_and!.
Qed.
End Instance.

(** System calls that never fail and write at most five bytes at a time. *)
Definition sample_os : Os := {|
  pwrite f b off := (write_bytes_at f off (take 5 b), Ok (Z.min 5 (zlen b)));
  pread f n off := Ok (slice (Z.to_nat off) (Z.to_nat (Z.min 3 n)) f);
  stat_len f := Ok (zlen f);
  read_file f := Ok f;
  set_len f n := Ok (resize (Z.to_nat n) 0 f);
  fsync _ := Ok tt
|}.
Lemma sample_os_laws : @OsLaws sample_os.
Proof.
  split; cbn; intros; simplify_eq; try done.
  - pose proof (zlen_nonneg b). split; [lia|]. f_equal.
    destruct (Z.min_spec 5 (zlen b)) as [[_ ->]|[Hm ->]]; [done|]. unfold zlen in *. rewrite Nat2Z.id. rewrite !take_ge; done || lia.
  - unfold slice. set (l := drop _ file). set (k := Z.to_nat (3 `min` n)).
    assert (Hk : (k <= Z.to_nat n)%nat) by lia. clearbody k l. split; [unfold zlen; rewrite length_take; lia|].
    rewrite length_take. destruct (Nat.min_spec k (length l)) as [[_ ->]|[Hm ->]]; [done|]. by rewrite !take_ge by lia.
Qed.
