(* ===== verification/Recovery.v ===== *)
(** Components [store/object.rs] and the recovery half of [store/mod.rs] and
    [store/segment.rs]: the derived object index, its rebuild from the
    segments, the choice of the committed root at open (superblock slots
    first, then the newest ROOT record), and the compatibility gate.  Here
    the store directory is its segment files by sequence number and its
    superblock file; these functions read it through the standard library,
    not through the transport. *)
From stdpp Require Import gmap sorting.
From Stdlib Require String.
From S2P Require Import Prelude Codec Repr Version SegRecord Superblock Descriptor Context BTree StoreError RootObj Segment.
Import String.StringSyntax.

(** * The object index *)

Record Location : Type := {
  loc_segment_seq : Z;
  loc_offset : Z;
  loc_stored_len : Z;
  loc_materialized_len : option Z;
  loc_tag : RecordTag
}.
#[global] Instance Location_eq_dec : EqDecision Location.
Proof. solve_decision. Defined.

Definition Location_total_size (l : Location) : Z := HEADER_SIZE + loc_stored_len l.

Definition SHARDS : nat := 64.

Record ObjectIndex : Type := { shards : list (gmap (list Z) Location) }.

Definition ObjectIndex_new : ObjectIndex := {| shards := replicate SHARDS ∅ |}.

(** The low bits of the first word of the id. *)
Definition shard_of (id : ChunkId) : nat := Z.to_nat (Z.land (from_le (take 8 id)) (Z.of_nat SHARDS - 1)).

Definition ObjectIndex_insert (x : ObjectIndex) (id : ChunkId) (loc : Location) : ObjectIndex :=
  {| shards := alter (fun s => <[id := loc]> s) (shard_of id) (shards x) |}.
Definition ObjectIndex_get (x : ObjectIndex) (id : ChunkId) : option Location :=
  s ← shards x !! shard_of id; s !! id.
Definition ObjectIndex_contains (x : ObjectIndex) (id : ChunkId) : bool :=
  bool_decide (is_Some (ObjectIndex_get x id)).
Definition ObjectIndex_len (x : ObjectIndex) : nat := sum_list (map size (shards x)).
Definition ObjectIndex_is_empty (x : ObjectIndex) : bool := Nat.eqb (ObjectIndex_len x) 0.
Definition ObjectIndex_iter (x : ObjectIndex) : list (ChunkId * Location) := concat (map map_to_list (shards x)).
(** The entry that was removed, and the index. *)
Definition ObjectIndex_remove (x : ObjectIndex) (id : ChunkId) : ObjectIndex * option Location :=
  ({| shards := alter (delete id) (shard_of id) (shards x) |}, ObjectIndex_get x id).
Definition ObjectIndex_clear (x : ObjectIndex) : ObjectIndex := {| shards := map (fun _ => ∅) (shards x) |}.

(** * The segments of a directory *)

Abbreviation Segments := (gmap Z bytes).

Definition list_segments (segs : Segments) : list Z := merge_sort Z.le (map fst (map_to_list segs)).

(** [seek] then [read_exact]. *)
Definition segment_read_payload (segs : Segments) (seq offset stored_len : Z) : result SegmentError bytes :=
  let! file := ok_or (segs !! seq) (SegIo "not found") in
  let! start := ok_or (checked_add 64 offset HEADER_SIZE) SegOverflow in
  fail_if zlen file <? start + stored_len with SegIo "failed to fill whole buffer" ;;
  Ok (slice (Z.to_nat start) (Z.to_nat stored_len) file).

Section Recovery.
Context (crc32c : bytes -> Z) (content_id : bytes -> ChunkId).

Definition scan_file (segs : Segments) (seq limit_records : Z) : result SegmentError (list ScanRecord * Z) :=
  let! file := ok_or (segs !! seq) (SegIo "not found") in
  scan_segment crc32c content_id file limit_records.

(** The superblock reconstructed from a root record. *)
Definition superblock_of_root (root : Root) : Superblock :=
  {| sb_version := SUPERBLOCK_VERSION; sb_format_major := FORMAT_MAJOR; sb_format_minor := FORMAT_MINOR;
     sb_compat := 0; sb_ro_compat := 0; sb_incompat := 0; sb_uuid := root_uuid root;
     sb_generation := root_generation root; sb_root_object_id := Root_id content_id root;
     sb_segment_seq := root_segment_seq root; sb_created_unix_ns := 0; sb_flags := 0;
     sb_extension := replicate 248 0 |}.

(** One record of the search for the newest root. *)
Definition newest_root_step (best : option (Superblock * Root)) (rec : ScanRecord) : option (Superblock * Root) :=
  if negb (bool_decide (sr_tag rec = RootTag)) then best else
  match Root_decode (sr_payload rec) with
  | Err _ => best
  | Ok root =>
      match best with
      | None => Some (superblock_of_root root, root)
      | Some (b, _) =>
          if sb_generation b <? root_generation root then Some (superblock_of_root root, root) else best
      end
  end.

Fixpoint newest_root_loop (segs : Segments) (limit : Z) (seqs : list Z) (best : option (Superblock * Root))
  : result SegmentError (option (Superblock * Root)) :=
  match seqs with
  | [] => Ok best
  | seq :: seqs' =>
      let! '(records, _) := scan_file segs seq limit in
      newest_root_loop segs limit seqs' (fold_left newest_root_step records best)
  end.

Definition scan_newest_root (segs : Segments) (limit : Z) : result SegmentError (option (Superblock * Root)) :=
  newest_root_loop segs limit (list_segments segs) None.

(** * Committing a root

    The in-memory commit state, and [Store::write_superblock]: the offset and
    the bytes of the slot write, and the next state. *)
Record CommitState : Type := {
  cs_root : Root;
  cs_superblock : Superblock;
  cs_generation : Z;
  features_in_use : Z
}.

Definition write_superblock (cs : CommitState) (root_id : ChunkId) (root : Root) : (Z * bytes) * CommitState :=
  let sb := cs_superblock cs in
  let sb :=
    {| sb_version := sb_version sb; sb_format_major := sb_format_major sb; sb_format_minor := sb_format_minor sb;
       sb_compat := sb_compat sb; sb_ro_compat := sb_ro_compat sb; sb_incompat := features_in_use cs;
       sb_uuid := sb_uuid sb; sb_generation := root_generation root; sb_root_object_id := root_id;
       sb_segment_seq := root_segment_seq root; sb_created_unix_ns := sb_created_unix_ns sb;
       sb_flags := sb_flags sb; sb_extension := sb_extension sb |} in
  let offset := if Z.land (root_generation root) 1 =? 0 then SUPERBLOCK_SLOT_A_OFFSET else SUPERBLOCK_SLOT_B_OFFSET in
  ((offset, Superblock_encode crc32c sb),
   {| cs_root := cs_root cs; cs_superblock := sb; cs_generation := cs_generation cs;
      features_in_use := features_in_use cs |}).

Definition publish_commit (cs : CommitState) (root : Root) : CommitState :=
  {| cs_root := root; cs_superblock := cs_superblock cs; cs_generation := root_generation root;
     features_in_use := features_in_use cs |}.

(** * Opening a store *)

(** The object index of one segment's records, added to [x]. *)
Definition index_record (seq : Z) (x : ObjectIndex) (rec : ScanRecord) : ObjectIndex :=
  ObjectIndex_insert x (sr_content_id rec)
    {| loc_segment_seq := seq; loc_offset := sr_offset rec; loc_stored_len := sr_stored_len rec;
       loc_materialized_len := sr_materialized_len rec; loc_tag := sr_tag rec |}.

Fixpoint rebuild_loop (segs : Segments) (limit : Z) (seqs : list Z) (x : ObjectIndex) : result StoreError ObjectIndex :=
  match seqs with
  | [] => Ok x
  | seq :: seqs' =>
      let! '(records, _) := map_err StoreSegment (scan_file segs seq limit) in
      rebuild_loop segs limit seqs' (fold_left (index_record seq) records x)
  end.
Definition rebuild_index (segs : Segments) (limit : Z) : result StoreError ObjectIndex :=
  rebuild_loop segs limit (list_segments segs) ObjectIndex_new.

Definition load_root_for (sb : Superblock) (segs : Segments) (x : ObjectIndex) : result StoreError (option Root) :=
  match ObjectIndex_get x (sb_root_object_id sb) with
  | None => Ok None
  | Some loc =>
      let! b := map_err StoreSegment
        (segment_read_payload segs (loc_segment_seq loc) (loc_offset loc) (loc_stored_len loc)) in
      Ok (match Root_decode b with Ok root => Some root | Err _ => None end)
  end.

(** The stable sort by descending generation. *)
Fixpoint insert_desc (s : Superblock) (l : list Superblock) : list Superblock :=
  match l with
  | [] => [s]
  | t :: l' => if sb_generation t <=? sb_generation s then s :: l else t :: insert_desc s l'
  end.
Definition sort_desc (l : list Superblock) : list Superblock := fold_right insert_desc [] l.

Fixpoint try_slots (segs : Segments) (x : ObjectIndex) (slots : list Superblock)
  : result StoreError (option (Superblock * Root)) :=
  match slots with
  | [] => Ok None
  | sb :: slots' =>
      let! o := load_root_for sb segs x in
      match o with
      | Some root =>
          if root_generation root =? sb_generation sb then Ok (Some (sb, root)) else try_slots segs x slots'
      | None => try_slots segs x slots'
      end
  end.

Definition choose_root (sbp : SuperblockPair) (segs : Segments) (x : ObjectIndex) (limit : Z)
  : result StoreError (Superblock * Root) :=
  let! o := try_slots segs x (sort_desc (valid_slots sbp)) in
  match o with
  | Some r => Ok r
  | None =>
      let! o := map_err (fun _ => StoreIo "scan") (scan_newest_root segs limit) in
      ok_or o (StoreSuperblock "no valid root: slot roots missing and no root record in segments")
  end.

(** The gate of an open. *)
Definition open_gate (sb : Superblock) (read_only : bool) : result StoreError unit :=
  match check_with_version (Superblock_features sb) (negb read_only) (sb_format_major sb) (sb_format_minor sb) with
  | COk | ReadOnlyOnly _ => Ok tt
  | Refused e => Err (IncompatibleFormat e)
  end.

(** [Store::open] up to the construction of the store. *)
Definition open_root (segs : Segments) (superblock : bytes) (limit : Z) (read_only : bool)
  : result (trap StoreError) (ObjectIndex * Superblock * Root) :=
  let! sbp := SuperblockPair_read crc32c superblock in
  let! x := safe (rebuild_index segs limit) in
  let! '(sb, root) := safe (choose_root sbp segs x limit) in
  let! _ := safe (open_gate sb read_only) in
  Ok (x, sb, root).
End Recovery.
