(* ===== verification/StoreLog.v ===== *)
(** The log half of [store/mod.rs]: appending the records of a transaction
    to the current segment with rollover, flushing, and fetching objects
    through the object index, over any transport. *)
From stdpp Require Import gmap.
From Stdlib Require String.
From S2P Require Import Prelude Codec Repr Version SegRecord Superblock Descriptor Context BTree StoreError RootObj Segment Recovery SyncIo.
Import String.StringSyntax.

(** The part of [Store] the log uses: the transport's state, the object
    index and the segment writer. *)
Record LogState (D : Type) : Type := {
  lg_io : D;
  lg_index : ObjectIndex;
  lg_segment : option SegmentWriter
}.
Arguments lg_io {D} l.
Arguments lg_index {D} l.
Arguments lg_segment {D} l.
Arguments Build_LogState {D}.

Section Log.
Context (crc32c : bytes -> Z) (content_id : bytes -> ChunkId) {D : Type} `{IoBackend D} (segment_size : Z).

(** [Store::open_segment] *)
Definition open_segment (st : LogState D) (seq : Z) : LogState D * result StoreError unit :=
  let '(d, r) := SegmentWriter_open crc32c content_id (lg_io st) seq in
  match r with
  | Ok w => (Build_LogState d (lg_index st) (Some w), Ok tt)
  | Err e => (Build_LogState d (lg_index st) (lg_segment st), Err e)
  end.

(** [Store::flush_segment] on a writable store *)
Definition flush_segment (st : LogState D) : LogState D * result StoreError unit :=
  match lg_segment st with
  | None => (st, Ok tt)
  | Some w =>
      let '((d, w), r) := SegmentWriter_flush (lg_io st) w in
      (Build_LogState d (lg_index st) (Some w), r)
  end.

(** [Store::fdatasync_segment] on a writable store *)
Definition fdatasync_segment (st : LogState D) : LogState D * result StoreError unit :=
  match lg_segment st with
  | None => (st, Ok tt)
  | Some _ =>
      do! (st, u) := flush_segment st in
      match lg_segment st with
      | None => (st, Ok tt)
      | Some w =>
          let '(d, r) := SegmentWriter_fdatasync (lg_io st) w in
          (Build_LogState d (lg_index st) (Some w), r)
      end
  end.

Definition record_flags (p : PendingRecord) : Z :=
  match pr_materialized_len p with Some _ => FLAG_HAS_MATERIALIZED_LEN | None => 0 end.
Definition encode_pending (p : PendingRecord) : bytes :=
  record_encode crc32c content_id (pr_tag p) (record_flags p) (pr_materialized_len p) (pr_payload p).

(** The rollover: flush and sync the current segment, open the next one,
    sync the directory. *)
Definition roll_segment (st : LogState D) : LogState D * result StoreError unit :=
  do! (st, u) := fdatasync_segment st in
  match lg_segment st with
  | None => (st, Err NotOpen)
  | Some w =>
      do! (st, u) := open_segment st (sw_seq w + 1) in
      let '(d, r) := io_sync_segments_dir (lg_io st) in
      (Build_LogState d (lg_index st) (lg_segment st), r)
  end.

(** One turn of [append_records].  After a rollover the new writer has an
    empty buffer, so [base_after_roll] is the same sum; its debug assertion
    that the record fits the fresh segment is left out. *)
Definition append_one (st : LogState D) (p : PendingRecord) : LogState D * result StoreError unit :=
  let encoded := encode_pending p in
  match lg_segment st with
  | None => (st, Err NotOpen)
  | Some w =>
      let base := sw_durable_end w + buffered_len w in
      do! (st, u) := (if segment_size <? base + zlen encoded then roll_segment st else (st, Ok tt)) in
      match lg_segment st with
      | None => (st, Err NotOpen)
      | Some w =>
          let offset := sw_durable_end w + buffered_len w in
          let w := SegmentWriter_append w encoded in
          (Build_LogState (lg_io st)
             (ObjectIndex_insert (lg_index st) (content_id (pr_payload p))
                {| loc_segment_seq := sw_seq w; loc_offset := offset; loc_stored_len := zlen (pr_payload p);
                   loc_materialized_len := pr_materialized_len p; loc_tag := pr_tag p |})
             (Some w), Ok tt)
      end
  end.

Fixpoint append_records (st : LogState D) (records : list PendingRecord) : LogState D * result StoreError unit :=
  match records with
  | [] => (st, Ok tt)
  | p :: records' => do! (st, u) := append_one st p in append_records st records'
  end.

Definition fetch_object (st : LogState D) (id : ChunkId) : result StoreError (option bytes) :=
  match ObjectIndex_get (lg_index st) id with
  | Some loc =>
      let! b := io_read_payload (lg_io st) (loc_segment_seq loc) (loc_offset loc) (loc_stored_len loc) in
      Ok (Some b)
  | None => Ok None
  end.

(** One batched read for the ids that are present; the results go back to
    their positions. *)
Definition fetch_objects_many (st : LogState D) (ids : list ChunkId) : list (result StoreError (option bytes)) :=
  let reqs := map (fun id =>
    match ObjectIndex_get (lg_index st) id with
    | Some loc => Some {| rq_segment_seq := loc_segment_seq loc; rq_offset := loc_offset loc; rq_stored_len := loc_stored_len loc |}
    | None => None
    end) ids in
  let out := map (fun _ => Ok None) ids in
  if negb (existsb (fun r => match r with Some _ => true | None => false end) reqs) then out else
  let need := filter (fun i => is_Some (reqs !! i ≫= id)) (seq 0 (length reqs)) in
  let batch := omap (fun i => reqs !! i ≫= id) need in
  let results := io_read_many (lg_io st) batch in
  fold_left (fun out '(idx, r) => <[idx := rbind r (fun b => Ok (Some b))]> out) (zip need results) out.
End Log.
