(* ===== verification/SegmentSpec.v ===== *)
(** The log of a segment: the scans of [store/segment.rs] return exactly the
    records that were appended, whatever a crash left behind them, and the
    open-time truncation keeps every whole record. *)
From Stdlib Require String.
From S2P Require Import Prelude Codec Repr Version SegRecord Superblock Descriptor Context BTree StoreError RootObj Segment.
Import String.StringSyntax.

Section Log.
Context (crc32c : bytes -> Z) (content_id : bytes -> ChunkId).
Context (Hid : forall b, wf_id (content_id b)) (Hcrc : forall b, is_u32 (crc32c b)).
#[local] Abbreviation record_decode := (record_decode crc32c content_id).
#[local] Abbreviation append_bytes := (append_bytes crc32c content_id).
#[local] Abbreviation append_record := (append_record content_id).
#[local] Abbreviation log_bytes := (log_bytes crc32c content_id).
#[local] Abbreviation log_records := (log_records crc32c content_id).
#[local] Abbreviation segment_bytes := (segment_bytes crc32c content_id).
#[local] Abbreviation scan_loop := (scan_loop crc32c content_id).
#[local] Abbreviation clean_end_loop := (clean_end_loop crc32c content_id).
#[local] Abbreviation scan_segment := (scan_segment crc32c content_id).
#[local] Abbreviation find_clean_end_bytes := (find_clean_end_bytes crc32c content_id).
Implicit Types (l : list Append) (file pre rest : bytes).

Lemma zlen_append_bytes a : append_ok a -> zlen (append_bytes a) = HEADER_SIZE + zlen (ap_payload a).
Proof.
  intros H. unfold Segment.append_bytes. rewrite record_encode_image by (exact Hid || apply (fok_len _ _ _ H)).
  unfold zlen. rewrite (length_record_image crc32c content_id Hid). change HEADER_SIZE with 58. lia.
Qed.

Lemma log_bytes_app l k : log_bytes (l ++ k) = log_bytes l ++ log_bytes k.
Proof. apply flat_map_app. Qed.
Lemma segment_bytes_app l k : segment_bytes (l ++ k) = segment_bytes l ++ log_bytes k.
Proof. unfold Segment.segment_bytes. by rewrite log_bytes_app, app_assoc. Qed.

Lemma length_log l : Forall append_ok l -> (length l <= length (log_bytes l))%nat.
Proof.
  induction 1 as [|a l Ha _ IH]; cbn [Segment.log_bytes flat_map length]; [done|].
  fold (log_bytes l). rewrite length_app. pose proof (zlen_append_bytes a Ha) as E. pose proof (zlen_nonneg (ap_payload a)).
  unfold zlen in *. change HEADER_SIZE with 58 in E. lia.
Qed.

(** The record an append leaves at its offset. *)
Lemma decode_append pre a rest :
  append_ok a -> zlen (pre ++ append_bytes a ++ rest) < 2 ^ 63 ->
  exists r, record_decode (pre ++ append_bytes a ++ rest) (zlen pre) = Ok (Some r) /\
    scan_record r = append_record a (zlen pre) /\
    checked_add 64 (zlen pre) (SegRecord_total_size r) = Some (zlen (pre ++ append_bytes a)).
Proof.
  intros Ha Hlen. pose proof (zlen_append_bytes a Ha) as Hz. eexists. split_and!.
  - unfold Segment.append_bytes in *. rewrite record_encode_image in * by (exact Hid || apply (fok_len _ _ _ Ha)). by apply record_decode_here.
  - done.
  - unfold SegRecord_total_size. cbn [rec_stored_len record_at]. rewrite <-Hz, zlen_app. apply checked_add_Some.
    rewrite !zlen_app in Hlen. pose proof (zlen_nonneg rest). lia.
Qed.

(** Walking over the appended records, whatever follows them. *)
Lemma scan_loop_log l pre rest fuel limit records :
  Forall append_ok l -> zlen (pre ++ log_bytes l ++ rest) < 2 ^ 63 -> zlen records + zlen l <= limit ->
  scan_loop (length l + fuel) (pre ++ log_bytes l ++ rest) limit records (zlen pre) =
  scan_loop fuel (pre ++ log_bytes l ++ rest) limit (records ++ log_records l (zlen pre)) (zlen (pre ++ log_bytes l)).
Proof.
  intros Hl. revert pre records. induction Hl as [|a l Ha Hl IH]; intros pre records Hlen Hlim.
  { cbn [length Nat.add Segment.log_bytes flat_map Segment.log_records]. by rewrite !app_nil_r. }
  cbn [Segment.log_bytes flat_map] in *. fold (log_bytes l) in *. rewrite <-!app_assoc in *.
  destruct (decode_append pre a (log_bytes l ++ rest) Ha Hlen) as (r & Hd & Hr & Hoff).
  pose proof (zlen_append_bytes a Ha) as Hz. pose proof (zlen_nonneg (ap_payload a)). rewrite zlen_cons in Hlim.
  pose proof (zlen_nonneg l). change HEADER_SIZE with 58 in Hz.
  cbn [length Nat.add Segment.scan_loop]. 
  assert (zlen pre < zlen (pre ++ append_bytes a ++ log_bytes l ++ rest)).
  { rewrite zlen_app, (zlen_app (append_bytes a)), Hz. pose proof (zlen_nonneg (log_bytes l ++ rest)). lia. }
  do 2 pass_guard. rewrite Hd, Hoff. cbn [ok_or rbind].
  specialize (IH (pre ++ append_bytes a) (records ++ [scan_record r])). rewrite <-!app_assoc in IH.
  rewrite IH; [| done | rewrite zlen_app, zlen_cons, zlen_nil; lia].
  cbn [Segment.log_records app]. by rewrite Hr, <-zlen_app.
Qed.

Lemma clean_end_loop_log l pre rest fuel :
  Forall append_ok l -> zlen (pre ++ log_bytes l ++ rest) < 2 ^ 63 ->
  clean_end_loop (length l + fuel) (pre ++ log_bytes l ++ rest) (zlen pre) =
  clean_end_loop fuel (pre ++ log_bytes l ++ rest) (zlen (pre ++ log_bytes l)).
Proof.
  intros Hl. revert pre. induction Hl as [|a l Ha Hl IH]; intros pre Hlen.
  { cbn [length Nat.add Segment.log_bytes flat_map]. by rewrite app_nil_r. }
  cbn [Segment.log_bytes flat_map] in *. fold (log_bytes l) in *. rewrite <-!app_assoc in *.
  destruct (decode_append pre a (log_bytes l ++ rest) Ha Hlen) as (r & Hd & Hr & Hoff).
  pose proof (zlen_append_bytes a Ha) as Hz. pose proof (zlen_nonneg (ap_payload a)).
  change HEADER_SIZE with 58 in Hz. cbn [length Nat.add Segment.clean_end_loop]. 
  assert (zlen pre < zlen (pre ++ append_bytes a ++ log_bytes l ++ rest)).
  { rewrite zlen_app, (zlen_app (append_bytes a)), Hz. pose proof (zlen_nonneg (log_bytes l ++ rest)). lia. }
  pass_guard. rewrite Hd, Hoff. cbn [ok_or rbind].
  specialize (IH (pre ++ append_bytes a)). rewrite <-!app_assoc in IH. by apply IH.
Qed.

(** No record starts at [offset]. *)
Definition stops file (offset : Z) : Prop := forall r, record_decode file offset <> Ok (Some r).

Lemma append_bytes_raw tag flags raw payload :
  zlen payload < 2 ^ 32 ->
  append_bytes {| ap_tag := tag; ap_flags := flags; ap_ml := Some raw; ap_payload := payload |} =
  record_image crc32c content_id tag flags raw payload.
Proof. intros. unfold Segment.append_bytes. by rewrite record_encode_image. Qed.

(** The records at the head of any bytes. *)
Lemma log_split n pre rest :
  (length rest <= n)%nat -> wf_bytes (pre ++ rest) -> zlen (pre ++ rest) < 2 ^ 63 ->
  exists l rest', rest = log_bytes l ++ rest' /\ Forall append_ok l /\
    stops (pre ++ rest) (zlen (pre ++ log_bytes l)).
Proof.
  revert pre rest. induction n as [|n IH]; intros pre rest Hn Hwf Hlen.
  { destruct rest; [|cbn in Hn; lia]. exists [], []. split_and!; [done..|]. intros r.
    rewrite app_nil_r. unfold SegRecord.record_decode. cbv zeta. by rewrite app_nil_r, Z.sub_diag. }
  destruct (record_decode (pre ++ rest) (zlen pre)) as [[r|]|] eqn:Hd; cycle 1.
  1,2: exists [], rest; split_and!; [done..|]; intros r; cbn; rewrite app_nil_r, Hd; done.
  destruct (record_decode_inv _ _ _ _ _ (zlen_nonneg pre) Hwf Hlen Hd) as (raw & rest' & Hok & Hdrop & _).
  rewrite to_nat_zlen, drop_app_length in Hdrop. subst rest.
  set (a := {| ap_tag := rec_tag r; ap_flags := rec_flags r; ap_ml := Some raw; ap_payload := rec_payload r |}).
  assert (Ha : append_ok a) by done.
  pose proof (append_bytes_raw (rec_tag r) (rec_flags r) raw (rec_payload r) (fok_len _ _ _ Hok)) as E. fold a in E.
  rewrite <-E in *. pose proof (zlen_append_bytes a Ha) as Hz. pose proof (zlen_nonneg (ap_payload a)).
  rewrite app_assoc in Hwf, Hlen. destruct (IH (pre ++ append_bytes a) rest') as (l & rest & -> & Hl & Hs); [|done|done|].
  { change HEADER_SIZE with 58 in Hz. rewrite length_app in Hn. unfold zlen in *. lia. }
  exists (a :: l), rest. cbn [Segment.log_bytes flat_map]. fold (log_bytes l). rewrite <-!app_assoc in *. split_and!; [done| by constructor |done].
Qed.

Lemma scan_fuel l rest :
  Forall append_ok l -> exists f, length (segment_bytes l ++ rest) = (length l + S f)%nat.
Proof.
  intros Hl. apply length_log in Hl. unfold Segment.segment_bytes. rewrite !length_app. cbn [length SEGMENT_MAGIC].
  exists (3 + (length (log_bytes l) - length l) + length rest)%nat. lia.
Qed.

Lemma segment_guards l rest :
  (zlen (segment_bytes l ++ rest) <? 4) = false /\ take 4 (segment_bytes l ++ rest) = SEGMENT_MAGIC.
Proof.
  unfold Segment.segment_bytes. rewrite <-app_assoc. split; [|done]. rewrite zlen_app.
  change (zlen SEGMENT_MAGIC) with 4. pose proof (zlen_nonneg (log_bytes l ++ rest)). lia.
Qed.

Lemma clean_end_log l rest :
  Forall append_ok l -> zlen (segment_bytes l ++ rest) < 2 ^ 63 ->
  stops (segment_bytes l ++ rest) (zlen (segment_bytes l)) ->
  find_clean_end_bytes (segment_bytes l ++ rest) = Ok (zlen (segment_bytes l)).
Proof.
  intros Hl Hlen Hs. unfold Segment.find_clean_end_bytes. rewrite (proj1 (segment_guards l rest)).
  destruct (scan_fuel l rest Hl) as [f ->]. unfold Segment.segment_bytes in *. rewrite <-!app_assoc in *.
  change 4 with (zlen SEGMENT_MAGIC). rewrite clean_end_loop_log by done. cbn [Segment.clean_end_loop].
  destruct (_ <=? _); [done|]. destruct (record_decode _ _) as [[r|]|] eqn:E; [by apply Hs in E | done..].
Qed.

(** [scan_segment] of a log and then anything at which no record starts. *)
Lemma scan_segment_stops l rest limit :
  Forall append_ok l -> (zlen l < limit \/ (rest = [] /\ zlen l <= limit)) ->
  zlen (segment_bytes l ++ rest) < 2 ^ 63 -> stops (segment_bytes l ++ rest) (zlen (segment_bytes l)) ->
  scan_segment (segment_bytes l ++ rest) limit =
    match record_decode (segment_bytes l ++ rest) (zlen (segment_bytes l)) with
    | Err e => if decide (e = Truncated) then Ok (log_records l 4, zlen (segment_bytes l))
               else Err (CorruptRecord "at offset" (Some (zlen (segment_bytes l), e)))
    | Ok _ => Ok (log_records l 4, zlen (segment_bytes l))
    end.
Proof.
  intros Hl Hlim Hlen Hs.
  unfold Segment.scan_segment. destruct (segment_guards l rest) as [-> ->].
  rewrite bool_decide_eq_true_2 by done. cbn [negb]. destruct (scan_fuel l rest Hl) as [f ->].
  unfold Segment.segment_bytes in *. rewrite <-!app_assoc in *.
  change 4 with (zlen SEGMENT_MAGIC). rewrite scan_loop_log; [|done|done|rewrite zlen_nil; destruct Hlim; lia].
  cbn [Segment.scan_loop app]. destruct (Z.leb_spec (zlen (SEGMENT_MAGIC ++ log_bytes l ++ rest)) (zlen (SEGMENT_MAGIC ++ log_bytes l))) as [Hle|Hgt].
  - destruct rest as [|x rest]; [|rewrite app_assoc, (zlen_app (SEGMENT_MAGIC ++ _)), zlen_cons in Hle; pose proof (zlen_nonneg rest); lia].
    rewrite app_nil_r. unfold SegRecord.record_decode. cbv zeta. by rewrite Z.sub_diag.
  - assert (rest <> []) by (intros ->; rewrite app_nil_r in Hgt; lia).
    assert (Hrl : zlen (log_records l (zlen SEGMENT_MAGIC)) = zlen l).
    { clear. generalize (zlen SEGMENT_MAGIC). induction l as [|a l IH]; intros z; [done|].
      cbn [Segment.log_records]. by rewrite !zlen_cons, IH. }
    rewrite Hrl. destruct Hlim as [|[]]; [|done]. pass_guard.
    destruct (record_decode _ _) as [[r|]|[]] eqn:E; [by apply Hs in E | done..].
Qed.

(** The two scans of a segment file agree on its log.  For a file that
    holds the records [l] and then anything at which no record starts, the
    open-time scan stops exactly behind [l], and [scan_segment] (within its
    record limit) returns exactly the records of [l] at their offsets with
    that same end, when what follows is nothing, zeros or a truncated record;
    when it is anything else, [scan_segment] reports corruption where the
    open-time scan sees a clean end. *)
Theorem segment_scan_exact l rest limit :
  Forall append_ok l -> zlen (segment_bytes l ++ rest) < 2 ^ 63 ->
  (zlen l < limit \/ (rest = [] /\ zlen l <= limit)) ->
  let file := segment_bytes l ++ rest in
  let end_ := zlen (segment_bytes l) in
  stops file end_ ->
  find_clean_end_bytes file = Ok end_ /\
  scan_segment file limit =
    match record_decode file end_ with
    | Err e => if decide (e = Truncated) then Ok (log_records l 4, end_)
               else Err (CorruptRecord "at offset" (Some (end_, e)))
    | Ok _ => Ok (log_records l 4, end_)
    end.
Proof. cbv zeta. intros. split; [by apply clean_end_log | by apply scan_segment_stops]. Qed.

Lemma decode_zeros pre n : record_decode (pre ++ replicate n 0) (zlen pre) = Ok None.
Proof.
  unfold SegRecord.record_decode. cbv zeta. destruct (_ =? _); [done|]. rewrite to_nat_zlen, drop_app_length.
  replace (forallb _ _) with true; [done|]. symmetry. apply forallb_forall. intros x Hx.
  apply list_elem_of_In, elem_of_replicate in Hx as [-> _]. done.
Qed.

Lemma decode_torn pre a k :
  append_ok a -> zlen (pre ++ append_bytes a) < 2 ^ 63 -> (k < length (append_bytes a))%nat ->
  record_decode (pre ++ take k (append_bytes a)) (zlen pre) = if decide (k = O) then Ok None else Err Truncated.
Proof.
  intros Ha. unfold Segment.append_bytes. rewrite record_encode_image by (exact Hid || apply (fok_len _ _ _ Ha)).
  intros. by apply record_decode_cut.
Qed.

(** Torn tails are benign: when a crash cuts the last append short at any
    byte, or the file ends in zeros, both scans stop behind the last whole
    record, and every whole record is returned. *)
Theorem scan_torn_tail l a k n limit :
  Forall append_ok (l ++ [a]) -> zlen (segment_bytes (l ++ [a])) + Z.of_nat n < 2 ^ 63 ->
  (k < length (append_bytes a))%nat -> zlen l < limit ->
  forall tail, tail = take k (append_bytes a) \/ tail = replicate n 0 ->
  find_clean_end_bytes (segment_bytes l ++ tail) = Ok (zlen (segment_bytes l)) /\
  scan_segment (segment_bytes l ++ tail) limit = Ok (log_records l 4, zlen (segment_bytes l)).
Proof.
  intros Hla Hlen Hk Hlim tail Ht. apply Forall_app in Hla as [Hl Ha]. foralls.
  rewrite segment_bytes_app in Hlen. cbn [Segment.log_bytes flat_map] in Hlen. rewrite app_nil_r in Hlen.
  assert (Hd : exists e, record_decode (segment_bytes l ++ tail) (zlen (segment_bytes l)) = e /\ (e = Ok None \/ e = Err Truncated)).
  { destruct Ht as [->| ->]; [|eexists; split; [apply decode_zeros | by left]].
    eexists. split; [apply decode_torn; [done | lia | done]|]. destruct (decide _); auto. }
  assert (Hlt : zlen (segment_bytes l ++ tail) < 2 ^ 63).
  { rewrite zlen_app in *. pose proof (zlen_nonneg (append_bytes a)). destruct Ht as [->| ->]; unfold zlen in *.
    - rewrite length_take. lia.
    - rewrite length_replicate. lia. }
  destruct Hd as (e & Hd & He).
  assert (Hs : stops (segment_bytes l ++ tail) (zlen (segment_bytes l))) by (intros r; rewrite Hd; by destruct He as [->| ->]).
  rewrite clean_end_log, scan_segment_stops by (done || by left). split; [done|]. rewrite Hd. by destruct He as [->| ->].
Qed.

(** A lost payload is not: when the header of the last append reached the
    disk but its payload did not (the file has its length and other bytes
    with another CRC), the open-time scan drops the record, while
    [scan_segment], which the store runs over every segment before it opens
    one, fails with a corruption error. *)
Theorem scan_lost_payload l a lost limit :
  Forall append_ok (l ++ [a]) -> zlen (segment_bytes (l ++ [a])) < 2 ^ 63 -> zlen l < limit ->
  zlen lost = zlen (ap_payload a) -> crc32c lost <> crc32c (ap_payload a) ->
  let file := segment_bytes l ++ take 58 (append_bytes a) ++ lost in
  zlen file = zlen (segment_bytes (l ++ [a])) /\
  find_clean_end_bytes file = Ok (zlen (segment_bytes l)) /\
  scan_segment file limit = Err (CorruptRecord "at offset" (Some (zlen (segment_bytes l), Malformed))).
Proof.
  cbv zeta. intros Hla Hlen Hlim Hlost Hcrc'. apply Forall_app in Hla as [Hl Ha]. foralls. rename H into Ha.
  rewrite segment_bytes_app in *. cbn [Segment.log_bytes flat_map] in *. rewrite app_nil_r in *.
  pose proof (zlen_append_bytes a Ha) as Hz. change HEADER_SIZE with 58 in Hz. pose proof (zlen_nonneg (ap_payload a)).
  assert (Hlen' : zlen (take 58 (append_bytes a) ++ lost) = zlen (append_bytes a)).
  { rewrite zlen_app. unfold zlen in *. rewrite length_take. lia. }
  assert (Hd : record_decode (segment_bytes l ++ take 58 (append_bytes a) ++ lost) (zlen (segment_bytes l)) = Err Malformed).
  { unfold Segment.append_bytes in *. rewrite record_encode_image in * by (exact Hid || apply (fok_len _ _ _ Ha)).
    unfold record_image. change 58%nat with (50 + (4 + (4 + 0)))%nat.
    rewrite take_app_add' by (by rewrite length_header_image). rewrite 2 take_app_add' by (by rewrite length_to_le).
    rewrite take_0, app_nil_r, <-!app_assoc.
    rewrite record_decode_head; [|done|done|done|rewrite !zlen_app in *; lia].
    rewrite Hlost, Z.ltb_irrefl. cbv zeta. rewrite take_ge by (unfold zlen in Hlost; lia).
    by replace (crc32c lost =? crc32c (ap_payload a)) with false by lia. }
  split; [by rewrite !zlen_app, <-zlen_app, Hlen'|].
  assert (Hs : stops (segment_bytes l ++ take 58 (append_bytes a) ++ lost) (zlen (segment_bytes l))) by (intros r; by rewrite Hd).
  assert (zlen (segment_bytes l ++ take 58 (append_bytes a) ++ lost) < 2 ^ 63) by (rewrite zlen_app, Hlen'; by rewrite zlen_app in Hlen).
  rewrite clean_end_log, scan_segment_stops by (done || by left). split; [done|]. by rewrite Hd.
Qed.
End Log.

(** * Examples: a segment of two records and a third *)

Definition sample_log : list Append :=
  [{| ap_tag := Data; ap_flags := 1; ap_ml := Some 300; ap_payload := [1; 2; 3] |};
   {| ap_tag := RootTag; ap_flags := 0; ap_ml := None; ap_payload := [] |}].
Definition sample_append : Append := {| ap_tag := Model; ap_flags := 0; ap_ml := None; ap_payload := [7; 8] |}.
Lemma sample_log_ok : Forall append_ok (sample_log ++ [sample_append]).
Proof.
  repeat constructor; cbn; try width; try done; repeat constructor; width.
Qed.

Lemma sample_log_ok' : Forall append_ok sample_log.
Proof. apply (proj1 (Forall_app _ _ _) sample_log_ok). Qed.

Lemma segment_scan_exact_witness :
  find_clean_end_bytes sample_crc sample_hash (segment_bytes sample_crc sample_hash sample_log ++ [3; 1; 0]) = Ok 123 /\
  scan_segment sample_crc sample_hash (segment_bytes sample_crc sample_hash sample_log ++ [3; 1; 0]) 3 =
    Ok (log_records sample_crc sample_hash sample_log 4, 123).
Proof.
  assert (Hs : stops sample_crc sample_hash (segment_bytes sample_crc sample_hash sample_log ++ [3; 1; 0])
    (zlen (segment_bytes sample_crc sample_hash sample_log))).
  { assert (Hd : record_decode sample_crc sample_hash (segment_bytes sample_crc sample_hash sample_log ++ [3; 1; 0])
      (zlen (segment_bytes sample_crc sample_hash sample_log)) = Err Truncated) by by vm_compute.
    intros r. by rewrite Hd. }
  exact (segment_scan_exact sample_crc sample_hash sample_hash_wf sample_crc_u32 sample_log [3; 1; 0] 3 sample_log_ok'
    eq_refl (or_introl eq_refl) Hs).
Defined.

Lemma scan_torn_tail_witness :
  find_clean_end_bytes sample_crc sample_hash
    (segment_bytes sample_crc sample_hash sample_log ++ take 59 (append_bytes sample_crc sample_hash sample_append)) =
    Ok (zlen (segment_bytes sample_crc sample_hash sample_log)) /\
  scan_segment sample_crc sample_hash
    (segment_bytes sample_crc sample_hash sample_log ++ take 59 (append_bytes sample_crc sample_hash sample_append)) 3 =
    Ok (log_records sample_crc sample_hash sample_log 4, zlen (segment_bytes sample_crc sample_hash sample_log)).
Proof.
  apply (scan_torn_tail sample_crc sample_hash sample_hash_wf sample_crc_u32 sample_log sample_append 59 7 3 sample_log_ok).
  - by vm_compute.
  - apply Nat.ltb_lt. by vm_compute.
  - by vm_compute.
  - by left.
Defined.

Lemma scan_lost_payload_witness :
  scan_segment sample_crc sample_hash
    (segment_bytes sample_crc sample_hash sample_log ++
     take 58 (append_bytes sample_crc sample_hash sample_append) ++ [0; 0]) 3 =
  Err (CorruptRecord "at offset" (Some (zlen (segment_bytes sample_crc sample_hash sample_log), Malformed))).
Proof.
  apply (scan_lost_payload sample_crc sample_hash sample_hash_wf sample_crc_u32 sample_log sample_append [0; 0] 3 sample_log_ok).
  - by vm_compute.
  - by vm_compute.
  - done.
  - by vm_compute.
Defined.
