(* ===== verification/WriterSpec.v ===== *)
(** The segment writer over any transport that meets [IoLaws]: opening keeps
    every whole record and drops the torn tail, a flush appends exactly the
    buffered records, and what was flushed and synced survives a crash. *)
From stdpp Require Import gmap.
From Stdlib Require String.
From S2P Require Import Prelude Codec Repr Version SegRecord Superblock Descriptor Context BTree StoreError RootObj Segment SyncIo SegmentSpec.
Import String.StringSyntax.

Section Writer.
Context (crc32c : bytes -> Z) (content_id : bytes -> ChunkId).
Context (Hid : forall b, wf_id (content_id b)) (Hcrc : forall b, is_u32 (crc32c b)).
Context {D : Type} `{IoLaws D}.
#[local] Abbreviation log_bytes := (log_bytes crc32c content_id).
#[local] Abbreviation log_records := (log_records crc32c content_id).
#[local] Abbreviation segment_bytes := (segment_bytes crc32c content_id).
#[local] Abbreviation open_segment_common := (open_segment_common crc32c content_id).
Implicit Types (d : D) (l : list Append) (w : SegmentWriter).

Lemma segment_bytes_pos l : 4 <= zlen (segment_bytes l).
Proof.
  unfold Segment.segment_bytes. rewrite zlen_app. pose proof (zlen_nonneg (log_bytes l)). change (zlen SEGMENT_MAGIC) with 4. lia.
Qed.

Lemma step_Ok {A B E} (m : D * result E A) (k : D -> A -> D * result E B) d' b :
  step m k = (d', Ok b) -> exists d1 a, m = (d1, Ok a) /\ k d1 a = (d', Ok b).
Proof. unfold step. destruct m as [d1 [a|e]]; intros Hs; [by exists d1, a | by simplify_eq]. Qed.

Lemma log_records_app l k z : log_records (l ++ k) z = log_records l z ++ log_records k (z + zlen (log_bytes l)).
Proof.
  revert z. induction l as [|a l IH]; intros z; cbn [app Segment.log_records Segment.log_bytes flat_map].
  { by rewrite zlen_nil, Z.add_0_r. }
  rewrite IH. fold (log_bytes l). by rewrite zlen_app, Z.add_assoc.
Qed.

Lemma scan_log l limit :
  Forall append_ok l -> zlen (segment_bytes l) < 2 ^ 63 -> zlen l < limit ->
  scan_segment crc32c content_id (segment_bytes l) limit = Ok (log_records l 4, zlen (segment_bytes l)).
Proof.
  intros Hl Hlen Hlim. rewrite <-(app_nil_r (segment_bytes l)) at 1.
  assert (Hd : record_decode crc32c content_id (segment_bytes l ++ []) (zlen (segment_bytes l)) = Ok None).
  { rewrite app_nil_r. unfold record_decode. cbv zeta. by rewrite Z.sub_diag. }
  rewrite (scan_segment_stops crc32c content_id Hid Hcrc l []);
    [by rewrite Hd | done | by left | by rewrite app_nil_r | intros r; by rewrite Hd].
Qed.

(** An opened segment: a log and nothing else, and a truncation is durable. *)
Lemma open_log d seq l g d' n :
  Forall append_ok l -> wf_bytes (segment_bytes l ++ g) -> zlen (segment_bytes l ++ g) < 2 ^ 63 ->
  io_file d seq = segment_bytes l ++ g ->
  open_segment_common d seq = (d', Ok n) ->
  exists l' rest, g = log_bytes l' ++ rest /\ Forall append_ok l' /\
    io_file d' seq = segment_bytes (l ++ l') /\ n = zlen (segment_bytes (l ++ l')) /\
    (forall q, q <> seq -> io_file d' q = io_file d q) /\
    (rest = [] \/ io_synced d' seq = io_file d' seq).
Proof.
  intros Hl Hwf Hlen Hf Ho.
  destruct (log_split crc32c content_id Hid (length g) (segment_bytes l) g) as (l' & rest & -> & Hl' & Hs); [done..|].
  exists l', rest. unfold Segment.open_segment_common in Ho.
  pose proof (segment_bytes_pos l) as Hpos. rewrite app_assoc, <-segment_bytes_app in *.
  pose proof (segment_bytes_pos (l ++ l')) as Hpos'.
  apply step_Ok in Ho as (d1 & len & E & Ho). injection E as <- E. apply law_len in E. subst len. rewrite Hf in Ho.
  pose proof (zlen_nonneg rest) as Hr.
  replace (zlen (segment_bytes (l ++ l') ++ rest) =? 0) with false in Ho by (rewrite zlen_app; lia).
  apply step_Ok in Ho as (d1 & file & E & Ho). injection E as <- E. apply law_read in E. subst file. rewrite Hf in Ho.
  destruct (segment_guards crc32c content_id (l ++ l') rest) as [Hg Htake].
  rewrite Hg, Htake, bool_decide_eq_true_2 in Ho by done.
  cbn [negb] in Ho. rewrite clean_end_log in Ho by (done || by apply Forall_app). cbn [map_err] in Ho.
  apply step_Ok in Ho as (d1 & clean & E & Ho). simplify_eq.
  apply step_Ok in Ho as (d2 & [] & Htr & Ho).
  apply step_Ok in Ho as (d3 & len & E & Ho). injection E as <- E. apply law_len in E. subst len. injection Ho as <- <-.
  assert (Hz : io_file d2 seq = segment_bytes (l ++ l') -> Z.max (zlen (io_file d2 seq)) 4 = zlen (segment_bytes (l ++ l')))
    by (intros ->; lia).
  destruct (Z.ltb_spec (zlen (segment_bytes (l ++ l'))) (zlen (segment_bytes (l ++ l') ++ rest))) as [Hlt|Hge].
  - apply step_Ok in Htr as (d4 & [] & Ht & Hsync).
    apply law_truncate in Ht as (Hoth & _ & _ & _ & Hf1 & _). specialize (Hf1 eq_refl).
    apply law_sync in Hsync as (Hf2 & _ & _ & _ & Hsy & _); [|by right]. specialize (Hsy eq_refl).
    rewrite Hf in Hf1. unfold resize in Hf1. rewrite to_nat_zlen, take_app_length, length_app in Hf1.
    replace (_ - _)%nat with O in Hf1 by lia. cbn [replicate] in Hf1. rewrite app_nil_r in Hf1.
    rewrite Hf2 in *. split_and!; auto.
  - injection Htr as E. subst d2. rewrite zlen_app in Hge. assert (rest = []) as -> by (apply nil_length_inv; unfold zlen in *; lia).
    rewrite app_nil_r in Hf. split_and!; auto.
Qed.

(** Opening keeps the log.  For a segment file that holds the records
    [l] and then anything at all, an open that succeeds leaves a file that
    is exactly a log: [l], then the whole records the rest began with; what
    followed is gone (and its removal is durable), the other segments are
    untouched, the returned end is the file's length, and a scan then returns
    every record, those of [l] first. *)
Theorem open_keeps_log d seq l g d' n limit :
  Forall append_ok l -> wf_bytes (segment_bytes l ++ g) -> zlen (segment_bytes l ++ g) < 2 ^ 63 ->
  io_file d seq = segment_bytes l ++ g -> zlen l + zlen g < limit ->
  open_segment_common d seq = (d', Ok n) ->
  exists l', prefix (log_bytes l') g /\
    io_file d' seq = segment_bytes (l ++ l') /\ n = zlen (io_file d' seq) /\
    (forall q, q <> seq -> io_file d' q = io_file d q) /\
    (io_file d' seq = io_file d seq \/ io_synced d' seq = io_file d' seq) /\
    scan_segment crc32c content_id (io_file d' seq) limit =
      Ok (log_records l 4 ++ log_records l' (zlen (segment_bytes l)), n).
Proof.
  intros Hl Hwf Hlen Hf Hlim Ho.
  destruct (open_log d seq l g d' n Hl Hwf Hlen Hf Ho) as (l' & rest & -> & Hl' & Hf' & -> & Hoth & Hsy).
  exists l'. rewrite Hf'. split_and!; [by exists rest | done | done | done | |].
  - destruct Hsy as [->|Hsy]; [left | right; by rewrite <-Hf'].
    by rewrite Hf, app_nil_r, segment_bytes_app.
  - pose proof (length_log crc32c content_id Hid l' Hl') as Hll.
    rewrite scan_log, log_records_app, <-(zlen_app SEGMENT_MAGIC); [done | by apply Forall_app | |].
    + rewrite app_assoc, <-segment_bytes_app, zlen_app in Hlen. pose proof (zlen_nonneg rest). lia.
    + rewrite zlen_app in *. unfold zlen in *. rewrite length_app in Hlim. lia.
Qed.

Lemma write_at_end f b : write_bytes_at f (zlen f) b = f ++ b.
Proof.
  destruct (decide (b = [])) as [->|Hb]; [by rewrite app_nil_r|].
  rewrite write_bytes_at_cons, to_nat_zlen, Nat.sub_diag by done. cbn [replicate].
  rewrite take_ge, drop_ge by lia. by rewrite !app_nil_r.
Qed.

(** The writer stands at the end of the log [l] with the records [p] in its
    buffer. *)
Record writer_at d w l p : Prop := {
  wa_file : io_file d (sw_seq w) = segment_bytes l;
  wa_end : sw_durable_end w = zlen (segment_bytes l);
  wa_buffer : sw_buffer w = log_bytes p
}.

Lemma flush_ok d w l p d' w' :
  writer_at d w l p -> SegmentWriter_flush d w = ((d', w'), Ok tt) ->
  sw_seq w' = sw_seq w /\ writer_at d' w' (l ++ p) [] /\
  (forall q, q <> sw_seq w -> io_file d' q = io_file d q) /\ io_synced d' = io_synced d.
Proof.
  intros [Hf He Hb] Hfl. unfold SegmentWriter_flush in Hfl.
  destruct (Z.eqb_spec (zlen (sw_buffer w)) 0) as [Hz|Hz].
  - simplify_eq. assert (Hnil : sw_buffer w' = []) by (apply nil_length_inv; unfold zlen in Hz; lia).
    split_and!; try done. rewrite Hnil in Hb. split; rewrite ?segment_bytes_app, <-?Hb, ?app_nil_r; done.
  - cbn zeta in Hfl. cbn [sw_seq sw_durable_end sw_buffer sw_record_count] in Hfl.
    destruct (io_write_at _ _ _ _) as [d1 r1] eqn:Ew. rewrite He in Ew.
    apply law_write in Ew as (Ho & Hs & _ & _ & k & Hk & Hr); [|apply zlen_nonneg].
    rewrite Hf, write_at_end, Hb in Hk. destruct r1 as [[]|e]; simplify_eq. split_and!; try done.
    rewrite (Hr eq_refl), Hb, firstn_all in Hk. split; cbn [sw_seq sw_durable_end sw_buffer]; [|rewrite Hb, He|done].
    + by rewrite Hk, segment_bytes_app.
    + by rewrite segment_bytes_app, zlen_app.
Qed.

Lemma flush_err d w l p d' w' e :
  writer_at d w l p -> SegmentWriter_flush d w = ((d', w'), Err e) ->
  sw_seq w' = sw_seq w /\ sw_buffer w' = [] /\ sw_durable_end w' = zlen (segment_bytes l) /\
  (forall q, q <> sw_seq w -> io_file d' q = io_file d q) /\ io_synced d' = io_synced d /\
  exists k, io_file d' (sw_seq w) = segment_bytes l ++ take k (log_bytes p).
Proof.
  intros [Hf He Hb] Hfl. unfold SegmentWriter_flush in Hfl. destruct (zlen (sw_buffer w) =? 0); [by simplify_eq|].
  cbn zeta in Hfl. destruct (io_write_at _ _ _ _) as [d1 r1] eqn:Ew. cbn [sw_seq sw_durable_end sw_buffer] in Ew.
  rewrite He in Ew. apply law_write in Ew as (Ho & Hs & _ & _ & k & Hk & _); [|apply zlen_nonneg].
  rewrite Hf, write_at_end, Hb in Hk. destruct r1 as [[]|e']; simplify_eq. cbn [sw_seq sw_buffer sw_durable_end].
  split_and!; try done. by exists k.
Qed.

(** A flush is all or nothing in memory but not on disk.  When it
    succeeds, the file is the log with the buffered records behind it and the
    writer stands at its end.  When it fails, the file has some bytes of them
    behind the log, the writer still stands in front of these, and the
    buffered records are gone from the writer: no later flush writes them. *)
Theorem flush_exact d w l p d' w' r :
  writer_at d w l p -> SegmentWriter_flush d w = ((d', w'), r) ->
  sw_seq w' = sw_seq w /\ sw_buffer w' = [] /\
  (forall q, q <> sw_seq w -> io_file d' q = io_file d q) /\ io_synced d' = io_synced d /\
  match r with
  | Ok _ => writer_at d' w' (l ++ p) []
  | Err _ => sw_durable_end w' = zlen (segment_bytes l) /\
      exists k, io_file d' (sw_seq w) = segment_bytes l ++ take k (log_bytes p)
  end.
Proof.
  intros Hw Hfl. destruct r as [[]|e].
  - apply (flush_ok _ _ l p) in Hfl as (? & Hw' & ? & ?); [|done]. split_and!; try done. apply Hw'.
  - by apply (flush_err _ _ l p) in Hfl as (? & ? & ? & ? & ? & ?).
Qed.

(** C35. What was flushed and synced survives: after a flush and an
    [fdatasync] that succeeded, take any state whose segment begins with the
    bytes that were durable, whatever a power loss left behind them; an open
    that succeeds there and a scan return every record of the log and of the
    flushed buffer, in order, at their offsets. *)
Theorem log_survives_crash d0 w0 l p d1 w1 d2 d3 d4 g n limit :
  Forall append_ok (l ++ p) -> writer_at d0 w0 l p ->
  SegmentWriter_flush d0 w0 = ((d1, w1), Ok tt) ->
  SegmentWriter_fdatasync d1 w1 = (d2, Ok tt) ->
  io_file d3 (sw_seq w0) = io_synced d2 (sw_seq w0) ++ g ->
  wf_bytes (segment_bytes (l ++ p) ++ g) -> zlen (segment_bytes (l ++ p) ++ g) < 2 ^ 63 ->
  zlen (l ++ p) + zlen g < limit ->
  open_segment_common d3 (sw_seq w0) = (d4, Ok n) ->
  exists l', scan_segment crc32c content_id (io_file d4 (sw_seq w0)) limit =
    Ok (log_records (l ++ p) 4 ++ log_records l' (zlen (segment_bytes (l ++ p))), n).
Proof.
  intros Hok Hw Hfl Hsy Hcr Hwf Hlen Hlim Ho.
  apply (flush_ok _ _ l p) in Hfl as (Hseq & [Hf1 _ _] & _ & _); [|done].
  unfold SegmentWriter_fdatasync in Hsy. rewrite Hseq in *.
  apply law_sync in Hsy as (_ & _ & _ & _ & Hs & _); [|by right]. rewrite (Hs eq_refl), Hf1 in Hcr.
  destruct (open_log d3 (sw_seq w0) (l ++ p) g d4 n) as (l' & rest & -> & Hl' & Hf4 & -> & _); [done..|].
  exists l'. rewrite Hf4. pose proof (length_log crc32c content_id Hid l' Hl') as Hll.
  rewrite scan_log, log_records_app, <-(zlen_app SEGMENT_MAGIC); [done | by apply Forall_app | |].
  - rewrite app_assoc, <-segment_bytes_app, zlen_app in Hlen. pose proof (zlen_nonneg rest). lia.
  - rewrite (zlen_app (l ++ p)), (zlen_app (log_bytes l')) in *. unfold zlen in *. lia.
Qed.
End Writer.

(** * Examples: one segment of two records *)

Definition sample_disk (f : bytes) : Disk :=
  {| dk_segments := {[ 0 := f ]}; dk_synced := {[ 0 := f ]}; dk_superblock := []; dk_superblock_synced := [] |}.
Definition sample_segment : bytes := segment_bytes sample_crc sample_hash sample_log.

#[local] Existing Instance sample_os.
#[local] Existing Instance sample_os_laws.

Lemma open_keeps_log_witness :
  exists l', prefix (log_bytes sample_crc sample_hash l') [1; 1; 0] /\
    let d' := fst (open_segment_common sample_crc sample_hash (sample_disk (sample_segment ++ [1; 1; 0])) 0) in
    io_file d' 0 = segment_bytes sample_crc sample_hash (sample_log ++ l') /\
    scan_segment sample_crc sample_hash (io_file d' 0) 9 =
      Ok (log_records sample_crc sample_hash sample_log 4 ++
          log_records sample_crc sample_hash l' (zlen sample_segment), zlen sample_segment).
Proof.
  destruct (open_keeps_log sample_crc sample_hash sample_hash_wf sample_crc_u32
    (sample_disk (sample_segment ++ [1; 1; 0])) 0 sample_log [1; 1; 0]
    (fst (open_segment_common sample_crc sample_hash (sample_disk (sample_segment ++ [1; 1; 0])) 0))
    (zlen sample_segment) 9) as (l' & Hp & Hf & _ & _ & _ & Hs).
  - apply (proj1 (Forall_app _ _ _) sample_log_ok).
  - apply (bool_decide_unpack _). by vm_compute.
  - by vm_compute.
  - by vm_compute.
  - by vm_compute.
  - by vm_compute.
  - exists l'. exact (conj Hp (conj Hf Hs)).
Defined.

Definition sample_writer : SegmentWriter :=
  {| sw_seq := 0; sw_buffer := append_bytes sample_crc sample_hash sample_append;
     sw_durable_end := zlen sample_segment; sw_record_count := 1 |}.
Lemma sample_writer_at :
  writer_at sample_crc sample_hash (sample_disk sample_segment) sample_writer sample_log [sample_append].
Proof. split; by vm_compute. Qed.

Definition sample_flushed : (Disk * SegmentWriter) * result StoreError unit :=
  SegmentWriter_flush (sample_disk sample_segment) sample_writer.

Lemma flush_exact_witness :
  snd sample_flushed = Ok tt /\
  writer_at sample_crc sample_hash (fst (fst sample_flushed)) (snd (fst sample_flushed)) (sample_log ++ [sample_append]) [].
Proof.
  split; [by vm_compute|].
  apply (flush_exact sample_crc sample_hash (sample_disk sample_segment) sample_writer sample_log [sample_append]
    (fst (fst sample_flushed)) (snd (fst sample_flushed)) (Ok tt)); [apply sample_writer_at | by vm_compute].
Defined.

Definition sample_crashed : Disk :=
  sample_disk (segment_bytes sample_crc sample_hash (sample_log ++ [sample_append]) ++ [2; 1]).

Lemma log_survives_crash_witness :
  exists l', scan_segment sample_crc sample_hash
      (io_file (fst (open_segment_common sample_crc sample_hash sample_crashed 0)) 0) 9 =
    Ok (log_records sample_crc sample_hash (sample_log ++ [sample_append]) 4 ++
        log_records sample_crc sample_hash l' 183, 183).
Proof.
  destruct (log_survives_crash sample_crc sample_hash sample_hash_wf sample_crc_u32
    (sample_disk sample_segment) sample_writer sample_log [sample_append]
    (fst (fst sample_flushed)) (snd (fst sample_flushed))
    (fst (SegmentWriter_fdatasync (fst (fst sample_flushed)) (snd (fst sample_flushed))))
    sample_crashed (fst (open_segment_common sample_crc sample_hash sample_crashed 0)) [2; 1] 183 9) as (l' & Hl').
  - apply sample_log_ok.
  - apply sample_writer_at.
  - by vm_compute.
  - by vm_compute.
  - by vm_compute.
  - apply (bool_decide_unpack _). by vm_compute.
  - by vm_compute.
  - by vm_compute.
  - by vm_compute.
  - exists l'. exact Hl'.
Defined.
