(* ===== verification/RecoverySpec.v ===== *)
(** Recovery: the object index is a finite map, the root chosen at open is
    the newest committed one, and what a crash during commits can do to it. *)
From stdpp Require Import gmap sorting.
From Stdlib Require String.
From S2P Require Import Prelude Codec Repr Version SegRecord Superblock Descriptor Context BTree StoreError RootObj Segment Recovery.
Import String.StringSyntax.

(** * The object index as a map *)

Record index_denotes (x : ObjectIndex) (m : gmap (list Z) Location) : Prop := {
  ixd_shards : length (shards x) = SHARDS;
  ixd_get id : ObjectIndex_get x id = m !! id
}.

Lemma shard_of_bound id : (shard_of id < SHARDS)%nat.
Proof.
  unfold shard_of. change (Z.of_nat SHARDS - 1) with (Z.ones 6). rewrite Z.land_ones by done.
  pose proof (Z.mod_pos_bound (from_le (take 8 id)) (2 ^ 6)). change (2 ^ 6) with 64 in *. unfold SHARDS. lia.
Qed.

Lemma shard_lookup x id : length (shards x) = SHARDS -> exists s, shards x !! shard_of id = Some s.
Proof. intros Hl. apply lookup_lt_is_Some. rewrite Hl. apply shard_of_bound. Qed.

Lemma get_alter x f id id' :
  length (shards x) = SHARDS ->
  ObjectIndex_get {| shards := alter f (shard_of id) (shards x) |} id' =
  if decide (shard_of id' = shard_of id)
  then (s ← shards x !! shard_of id'; f s !! id') else ObjectIndex_get x id'.
Proof.
  intros Hl. unfold ObjectIndex_get. cbn [shards]. destruct (decide (shard_of id' = shard_of id)) as [->|Hne].
  - rewrite list_lookup_alter_eq. destruct (shard_lookup x id Hl) as [s ->]. done.
  - by rewrite list_lookup_alter_ne.
Qed.

Lemma get_empty l : Forall (fun s : gmap (list Z) Location => s = ∅) l -> forall id, ObjectIndex_get {| shards := l |} id = None.
Proof.
  intros Hl id. unfold ObjectIndex_get. cbn [shards]. destruct (l !! _) as [s|] eqn:E; [|done].
  rewrite Forall_lookup in Hl. by rewrite (Hl _ _ E).
Qed.

Lemma get_new id : ObjectIndex_get ObjectIndex_new id = None.
Proof. apply get_empty, Forall_replicate. done. Qed.

(** The sharded object index is a finite map from content ids to
    locations: the fresh index is empty, [get] and [contains] look up,
    [insert] overwrites, [remove] deletes and returns the old entry, [clear]
    empties, whatever shards the ids fall into. *)
Theorem object_index_refines x m id loc :
  index_denotes ObjectIndex_new ∅ /\
  (index_denotes x m ->
   index_denotes (ObjectIndex_insert x id loc) (<[id := loc]> m) /\
   index_denotes (fst (ObjectIndex_remove x id)) (delete id m) /\
   snd (ObjectIndex_remove x id) = m !! id /\
   ObjectIndex_contains x id = bool_decide (id ∈ dom m) /\
   index_denotes (ObjectIndex_clear x) ∅).
Proof.
  split.
  { split; [done|]. intros id'. rewrite lookup_empty. apply get_new. }
  intros [Hs Hg]. destruct (shard_lookup x id Hs) as [s Hsl].
  assert (Halter : forall f m', (forall id', (s' ← shards x !! shard_of id'; f s' !! id') = m' !! id') ->
    (forall id', shard_of id' <> shard_of id -> m' !! id' = m !! id') ->
    index_denotes {| shards := alter f (shard_of id) (shards x) |} m').
  { intros f m' Hf Hm. split; [cbn; by rewrite length_alter|]. intros id'. rewrite get_alter by done.
    destruct (decide _) as [E|E]; [apply Hf | by rewrite Hg, Hm]. }
  assert (Hin : forall id', (s' ← shards x !! shard_of id'; s' !! id') = m !! id') by apply Hg.
  split_and!.
  - apply Halter.
    + intros id'. specialize (Hin id'). destruct (shard_lookup x id' Hs) as [s' E]. rewrite E in *. cbn in *.
      destruct (decide (id = id')) as [->|]; [by rewrite !lookup_insert_eq | by rewrite !lookup_insert_ne].
    + intros id' Hne. apply lookup_insert_ne. congruence.
  - apply Halter.
    + intros id'. specialize (Hin id'). destruct (shard_lookup x id' Hs) as [s' E]. rewrite E in *. cbn in *.
      destruct (decide (id = id')) as [->|]; [by rewrite !lookup_delete_eq | by rewrite !lookup_delete_ne].
    + intros id' Hne. apply lookup_delete_ne. congruence.
  - apply Hg.
  - unfold ObjectIndex_contains. rewrite Hg. apply bool_decide_ext. by rewrite elem_of_dom.
  - split; [cbn; by rewrite length_map|]. intros id'. rewrite lookup_empty. apply get_empty.
    apply list.Forall_forall. intros s' Hs'. apply list_elem_of_In, in_map_iff in Hs' as (? & <- & _). done.
Qed.

Lemma object_index_refines_witness :
  let loc := {| loc_segment_seq := 0; loc_offset := 4; loc_stored_len := 9; loc_materialized_len := None; loc_tag := Data |} in
  index_denotes (ObjectIndex_insert ObjectIndex_new [1] loc) (<[[1] := loc]> ∅).
Proof.
  cbv zeta. destruct (object_index_refines ObjectIndex_new ∅ [1]
    {| loc_segment_seq := 0; loc_offset := 4; loc_stored_len := 9; loc_materialized_len := None; loc_tag := Data |})
    as [Hn Hx]. apply (Hx Hn).
Defined.

(** * The chosen root *)

Section Choice.
Context (crc32c : bytes -> Z) (content_id : bytes -> ChunkId).
Context (segs : Segments) (x : ObjectIndex) (limit : Z).

(** The root a slot commits: its record is present and of its generation. *)
Definition committed (sb : Superblock) (root : Root) : Prop :=
  load_root_for sb segs x = Ok (Some root) /\ root_generation root = sb_generation sb.

Lemma insert_desc_perm s l : insert_desc s l ≡ₚ s :: l.
Proof.
  induction l as [|t l IH]; cbn; [done|]. destruct (_ <=? _); [done|]. rewrite IH. apply perm_swap.
Qed.

Lemma sort_desc_perm l : sort_desc l ≡ₚ l.
Proof. induction l as [|s l IH]; cbn; [done|]. by rewrite insert_desc_perm, IH. Qed.

Abbreviation descending := (StronglySorted (fun a b => sb_generation b <= sb_generation a)).

Lemma insert_desc_sorted s l : descending l -> descending (insert_desc s l).
Proof.
  induction 1 as [|t l Hl IH Hf]; cbn; [by repeat constructor|].
  destruct (Z.leb_spec (sb_generation t) (sb_generation s)).
  - constructor; [by constructor|]. constructor; [done|]. eapply list.Forall_impl; [exact Hf|]. intros b Hb. cbn in Hb. lia.
  - constructor; [done|]. rewrite insert_desc_perm. constructor; [lia | done].
Qed.

Lemma sort_desc_sorted l : descending (sort_desc l).
Proof. induction l as [|s l IH]; cbn; [constructor | by apply insert_desc_sorted]. Qed.

Lemma try_slots_Some slots sb root :
  descending slots -> try_slots segs x slots = Ok (Some (sb, root)) ->
  sb ∈ slots /\ committed sb root /\
  forall sb' root', sb' ∈ slots -> committed sb' root' -> sb_generation sb' <= sb_generation sb.
Proof.
  intros Hd. induction Hd as [|s slots Hd IH Hf]; cbn [try_slots]; intros Ht; [done|].
  rewrite list.Forall_forall in Hf. inv_ok Ht.
  destruct v as [r|]; [destruct (Z.eqb_spec (root_generation r) (sb_generation s)) as [Hg|Hg]|].
  1: { simplify_eq. split; [by left|]. split; [done|]. intros sb' root' [->|Hin]%elem_of_cons _; [done | by apply Hf]. }
  all: destruct (IH Ht) as (Hin & Hc & Hmax); split; [by right|]; split; [done|];
    intros sb' root' [->|Hin']%elem_of_cons Hc'; [destruct Hc'; congruence | by eapply Hmax].
Qed.

Lemma try_slots_None slots sb root :
  try_slots segs x slots = Ok None -> sb ∈ slots -> ~ committed sb root.
Proof.
  induction slots as [|s slots IH]; cbn [try_slots]; intros Ht Hin [Hl Hg]; [by apply elem_of_nil in Hin|].
  inv_ok Ht. apply elem_of_cons in Hin as [->|Hin].
  - rewrite Hl in Hok. injection Hok as <-. by rewrite Hg, Z.eqb_refl in Ht.
  - destruct v as [r|]; [destruct (_ =? _); [done|]|]; by eapply IH.
Qed.

(** The ROOT records of a segment. *)
Definition root_record (seq : Z) (root : Root) : Prop :=
  exists records e rec, scan_file crc32c content_id segs seq limit = Ok (records, e) /\
    rec ∈ records /\ sr_tag rec = RootTag /\ Root_decode (sr_payload rec) = Ok root.

(** [best] is the newest of the roots that satisfy [P]. *)
Definition newest (P : Root -> Prop) (best : option (Superblock * Root)) : Prop :=
  match best with
  | None => forall root, ~ P root
  | Some (sb, root) => sb = superblock_of_root content_id root /\ P root /\
      forall root', P root' -> root_generation root' <= root_generation root
  end.

Lemma newest_ext P Q best : (forall r, P r <-> Q r) -> newest P best -> newest Q best.
Proof.
  intros E. unfold newest. destruct best as [[sb root]|].
  - intros (? & ? & Hm). split; [done|]. split; [by apply E|]. intros r Hr. by apply Hm, E.
  - intros H root Hr. by apply (H root), E.
Qed.

Lemma newest_fold records P best :
  newest P best ->
  newest (fun root => P root \/ exists rec, rec ∈ records /\ sr_tag rec = RootTag /\ Root_decode (sr_payload rec) = Ok root)
    (fold_left (newest_root_step content_id) records best).
Proof.
  revert P best. induction records as [|rec records IH]; intros P best Hb; cbn [fold_left].
  { eapply newest_ext; [|exact Hb]. intros r. split; [by left|]. intros [?|(? & Hin & _)]; [done|]. by apply elem_of_nil in Hin. }
  eapply newest_ext; [|apply (IH (fun root => P root \/ (sr_tag rec = RootTag /\ Root_decode (sr_payload rec) = Ok root)))].
  - intros r. cbn. setoid_rewrite elem_of_cons. split.
    + intros [[?|[? ?]]|(rec' & ? & ?)]; [by left | right; exists rec; by split; [left|] | right; exists rec'; by split; [right|]].
    + intros [?|(rec' & [->|?] & ?)]; [by left; left | by left; right | by right; exists rec'].
  - unfold newest_root_step. destruct (bool_decide (sr_tag rec = RootTag)) eqn:Et; cbn [negb]; bools.
    2: { eapply newest_ext; [|exact Hb]. intros r. tauto. }
    destruct (Root_decode (sr_payload rec)) as [root|] eqn:Ed.
    2: { eapply newest_ext; [|exact Hb]. intros r. split; [by left|]. intros [?|[_ ?]]; done. }
    destruct best as [[b rb]|]; cbn in Hb.
    + destruct Hb as (-> & Hp & Hm). cbn [sb_generation superblock_of_root].
      destruct (Z.ltb_spec (root_generation rb) (root_generation root)); cbn.
      * split_and!; [done | by right|]. intros r [Hr|[_ Hr]]; [apply Hm in Hr; lia | by simplify_eq].
      * split_and!; [done | by left|]. intros r [Hr|[_ Hr]]; [by apply Hm | by simplify_eq].
    + cbn. split_and!; [done | by right|]. intros r [Hr|[_ Hr]]; [by apply Hb in Hr | by simplify_eq].
Qed.

Lemma newest_loop seqs P best best' :
  newest P best -> newest_root_loop crc32c content_id segs limit seqs best = Ok best' ->
  newest (fun root => P root \/ exists seq, seq ∈ seqs /\ root_record seq root) best'.
Proof.
  revert P best. induction seqs as [|seq seqs IH]; intros P best Hb Hl; cbn [newest_root_loop] in Hl.
  { simplify_eq. eapply newest_ext; [|exact Hb]. intros r. split; [by left|]. intros [?|(? & Hin & _)]; [done|]. by apply elem_of_nil in Hin. }
  inv_ok Hl. match goal with H : scan_file _ _ _ _ _ = Ok (?l, ?z) |- _ => rename H into Hscan; rename l into records end.
  eapply newest_ext; [|eapply IH; [eapply newest_fold, Hb | exact Hl]].
  intros r. cbn. setoid_rewrite elem_of_cons. split.
  - intros [[?|(rec & ? & ? & ?)]|(q & ? & ?)]; [by left | right; exists seq; split; [by left|] | right; exists q; by split; [right|]].
    by eexists _, _, _.
  - intros [?|(q & [->|?] & Hr)]; [by left; left | left; right | by right; exists q].
    destruct Hr as (records' & e & rec & Hs & Hr). rewrite Hscan in Hs. simplify_eq. by exists rec.
Qed.

Lemma elem_of_list_segments seq : seq ∈ list_segments segs <-> is_Some (segs !! seq).
Proof.
  unfold list_segments. rewrite merge_sort_Permutation, list_elem_of_In, in_map_iff. split.
  - intros ([q f] & <- & Hin%list_elem_of_In). apply elem_of_map_to_list in Hin. by exists f.
  - intros [f Hf]. exists (seq, f). split; [done|]. by apply list_elem_of_In, elem_of_map_to_list.
Qed.

(** Either a slot was taken, or no slot was and the log was scanned. *)
Lemma choose_root_cases sbp sb root :
  choose_root crc32c content_id sbp segs x limit = Ok (sb, root) ->
  (sb ∈ valid_slots sbp /\ committed sb root /\
   forall sb' root', sb' ∈ valid_slots sbp -> committed sb' root' -> sb_generation sb' <= sb_generation sb) \/
  ((forall sb' root', sb' ∈ valid_slots sbp -> ~ committed sb' root') /\
   scan_newest_root crc32c content_id segs limit = Ok (Some (sb, root))).
Proof.
  intros Hc. unfold choose_root in Hc. inv_ok Hc.
  match goal with H : try_slots _ _ _ = Ok _ |- _ => rename H into Ht end.
  destruct v as [[sb0 root0]|].
  - simplify_eq. apply try_slots_Some in Ht as (Hin & Hcom & Hmax); [|apply sort_desc_sorted].
    rewrite sort_desc_perm in Hin. left. split; [done|]. split; [done|].
    intros sb' root' Hin'. apply Hmax. by rewrite sort_desc_perm.
  - inv_ok Hc. apply map_err_Ok_inv in Hok. apply ok_or_Ok_inv in Hc. subst. right. split; [|done].
    intros sb' root' Hin. eapply try_slots_None; [exact Ht|]. by rewrite sort_desc_perm.
Qed.

Lemma choose_root_at_least sbp sb root sb0 root0 :
  choose_root crc32c content_id sbp segs x limit = Ok (sb, root) ->
  sb0 ∈ valid_slots sbp -> committed sb0 root0 -> sb_generation sb0 <= root_generation root.
Proof.
  intros [(_ & [_ ->] & Hm)|(Hn & _)]%choose_root_cases Hin Hc; [by eapply Hm | by apply Hn in Hc].
Qed.

(** C36. The root chosen at open.  A superblock slot counts as committed when
    its root object is in the index, reads back, decodes, and has the slot's
    generation.  If any slot is committed, the chosen superblock is a
    committed slot of the greatest generation, with its root; otherwise it is
    rebuilt from the newest ROOT record of all the segments.  Either way the
    superblock and the root agree on the generation. *)
Theorem choose_root_exact sbp sb root :
  choose_root crc32c content_id sbp segs x limit = Ok (sb, root) ->
  root_generation root = sb_generation sb /\
  ((sb ∈ valid_slots sbp /\ committed sb root /\
    forall sb' root', sb' ∈ valid_slots sbp -> committed sb' root' -> sb_generation sb' <= sb_generation sb) \/
   ((forall sb' root', sb' ∈ valid_slots sbp -> ~ committed sb' root') /\
    sb = superblock_of_root content_id root /\ (exists seq, root_record seq root) /\
    forall seq root', root_record seq root' -> root_generation root' <= root_generation root)).
Proof.
  intros [(Hin & Hcom & Hm)|(Hn & Hs)]%choose_root_cases; [split; [apply Hcom | by left]|].
  apply (newest_loop _ (fun _ => False)) in Hs; [|by intros ? ?].
  destruct Hs as (-> & [[]|(seq & _ & Hr)] & Hm). split; [done|]. right. split_and!; [done | done | by exists seq|].
  intros seq' root' Hr'. apply Hm. right. exists seq'. split; [|done].
  destruct Hr' as (records & e & rec & Hs & _). unfold scan_file in Hs. inv_ok Hs. apply ok_or_Ok_inv in Hok.
  apply elem_of_list_segments. by eexists.
Qed.
End Choice.

(** * Slot writes and crashes *)

Section Slots.
Context (crc32c : bytes -> Z) (Hcrc : forall b, is_u32 (crc32c b)).

(** The slot a generation commits to. *)
Definition slot_offset (generation : Z) : Z :=
  if Z.land generation 1 =? 0 then SUPERBLOCK_SLOT_A_OFFSET else SUPERBLOCK_SLOT_B_OFFSET.

Lemma land_1 z : Z.land z 1 = z mod 2.
Proof. change 1 with (Z.ones 1) at 1. by rewrite Z.land_ones. Qed.

Lemma slot_offset_cases g :
  (slot_offset g = 0 /\ slot_offset (g + 1) = 4096 /\ slot_offset (g + 2) = 0) \/
  (slot_offset g = 4096 /\ slot_offset (g + 1) = 0 /\ slot_offset (g + 2) = 4096).
Proof.
  unfold slot_offset. rewrite !land_1. pose proof (Z.mod_pos_bound g 2 ltac:(lia)).
  rewrite Z.add_mod, (Z.add_mod g 2) by lia. change (1 mod 2) with 1. change (2 mod 2) with 0.
  assert (g mod 2 = 0 \/ g mod 2 = 1) as [-> | ->] by lia; [left | right]; done.
Qed.

Lemma write_superblock_offset cs id root : fst (fst (write_superblock crc32c cs id root)) = slot_offset (root_generation root).
Proof. done. Qed.

Lemma slice_write_here f (off : Z) b :
  b <> [] -> slice (Z.to_nat off) (length b) (write_bytes_at f off b) = b.
Proof.
  intros Hb. unfold slice, write_bytes_at. destruct b as [|y b]; [done|]. set (l := y :: b).
  rewrite app_assoc, drop_app_length' by (rewrite length_app, length_take, length_replicate; lia).
  by rewrite take_app_length.
Qed.

(** A write inside one slot leaves the other. *)
Lemma slice_write_other f b o o' :
  4608 <= zlen f -> zlen b = 512 -> (o = 0 /\ o' = 4096) \/ (o = 4096 /\ o' = 0) ->
  slice (Z.to_nat o') 512 (write_bytes_at f o b) = slice (Z.to_nat o') 512 f.
Proof.
  intros Hf Hb Ho. unfold slice, write_bytes_at, zlen in *. destruct b as [|y b]; [cbn in Hb; lia|].
  set (l := y :: b) in *. replace (length l) with 512%nat by lia.
  replace (Z.to_nat o - length f)%nat with O by lia. cbn [replicate app].
  apply list_eq. intros i. rewrite !lookup_take. destruct (decide (i < 512)%nat); [|done].
  rewrite !lookup_drop. destruct Ho as [[-> ->]|[-> ->]].
  - change (Z.to_nat 0) with O. rewrite take_0. cbn [app]. rewrite lookup_app_r by lia.
    rewrite lookup_drop. f_equal. lia.
  - rewrite lookup_app_l by (rewrite length_take; lia). by rewrite lookup_take_lt by lia.
Qed.

Lemma read_slot_ext f f' o :
  slice (Z.to_nat o) 512 f' = slice (Z.to_nat o) 512 f -> read_slot crc32c f' o = read_slot crc32c f o.
Proof. intros E. unfold read_slot. change (Z.to_nat SUPERBLOCK_SLOT_SIZE) with 512%nat. by rewrite E. Qed.

Lemma SuperblockPair_read_slots f p g sb :
  SuperblockPair_read crc32c f = Ok p -> read_slot crc32c f (slot_offset g) = Ok (Some sb) -> sb ∈ valid_slots p.
Proof.
  intros Hp Hr. unfold SuperblockPair_read in Hp. inv_ok Hp. unfold valid_slots. cbn [slot_a slot_b].
  unfold slot_offset in Hr. destruct (Z.land g 1 =? 0); rewrite Hr in *; simplify_eq; cbn.
  - left.
  - destruct v; cbn; [right|]; left.
Qed.

(** One commit after a barrier is safe.  Take a superblock file whose slot
    holds a committed superblock, and the slot write of the next generation,
    torn to any bytes at all: the other slot still reads back, and the root
    chosen from the crashed file is not older than that superblock. *)
Theorem one_commit_keeps_generation content_id segs x limit f cs id1 root1 sb root junk p' sb' root' :
  4608 <= zlen f -> zlen junk = 512 ->
  read_slot crc32c f (slot_offset (sb_generation sb)) = Ok (Some sb) ->
  root_generation root1 = sb_generation sb + 1 ->
  let f' := write_bytes_at f (fst (fst (write_superblock crc32c cs id1 root1))) junk in
  committed segs x sb root ->
  SuperblockPair_read crc32c f' = Ok p' ->
  choose_root crc32c content_id p' segs x limit = Ok (sb', root') ->
  sb_generation sb <= root_generation root'.
Proof.
  cbv zeta. intros Hf Hj Hr Hg Hc Hp Hch. rewrite write_superblock_offset, Hg in Hp.
  assert (Hin : sb ∈ valid_slots p').
  { eapply SuperblockPair_read_slots; [exact Hp|]. rewrite <-Hr. apply read_slot_ext.
    apply slice_write_other; [done | done|]. pose proof (slot_offset_cases (sb_generation sb)). lia. }
  by eapply choose_root_at_least.
Qed.

Lemma read_slot_written f o s :
  fields_wf s -> sb_extension s = replicate 248 0 ->
  read_slot crc32c (write_bytes_at f o (Superblock_encode crc32c s)) o = Ok (Some s).
Proof.
  intros Hs He. destruct (superblock_encode_slot crc32c s Hs) as [_ Hl]; [by rewrite He|].
  pose proof (superblock_decode_encode crc32c Hcrc s Hs ltac:(by rewrite He)) as Hd.
  rewrite He in Hd. change (forallb _ _) with true in Hd. unfold read_slot.
  assert (Hlen : length (Superblock_encode crc32c s) = 512%nat) by (unfold zlen in Hl; change SUPERBLOCK_SLOT_SIZE with 512 in Hl; lia).
  change (Z.to_nat SUPERBLOCK_SLOT_SIZE) with 512%nat. rewrite <-Hlen, slice_write_here; [|intros E; by rewrite E in Hlen].
  rewrite Hl. change SUPERBLOCK_SLOT_SIZE with 512. cbn [Z.eqb Z.ltb Z.compare Pos.compare Pos.compare_cont]. by rewrite Hd.
Qed.

(** C39. Two commits after a barrier are not.  Generations [g - 1] and [g] are
    durable in their slots and their roots in the log; two deferred commits
    write the slots of [g + 1] and [g + 2], unsynced.  A crash that keeps the
    second slot write but neither the first nor the new records leaves a
    store that opens at generation [g - 1]: the root of the acknowledged
    generation [g], still in the log, is passed over. *)
Theorem two_commits_lose_generation content_id segs x limit f cs id1 root1 id2 root2 sb root old old_root :
  4608 <= zlen f ->
  read_slot crc32c f (slot_offset (sb_generation sb)) = Ok (Some sb) ->
  read_slot crc32c f (slot_offset (sb_generation sb - 1)) = Ok (Some old) ->
  sb_generation old = sb_generation sb - 1 ->
  committed segs x sb root -> committed segs x old old_root ->
  root_generation root1 = sb_generation sb + 1 -> root_generation root2 = sb_generation sb + 2 ->
  let '(_, cs1) := write_superblock crc32c cs id1 root1 in
  let '((o2, slot2), cs2) := write_superblock crc32c cs1 id2 root2 in
  fields_wf (cs_superblock cs2) -> sb_extension (cs_superblock cs2) = replicate 248 0 ->
  ObjectIndex_get x id2 = None ->
  (let! p' := SuperblockPair_read crc32c (write_bytes_at f o2 slot2) in
   safe (choose_root crc32c content_id p' segs x limit)) = Ok (old, old_root).
Proof.
  intros Hf Hr Hro Hgo Hc Hco Hg1 Hg2. 
  destruct (write_superblock crc32c cs id1 root1) as [[o1 slot1] cs1].
  destruct (write_superblock crc32c cs1 id2 root2) as [[o2 slot2] cs2] eqn:E.
  intros Hwf Hext Hnone.
  assert (Ho2 : o2 = slot_offset (root_generation root2)) by (by injection E).
  assert (Hs2 : slot2 = Superblock_encode crc32c (cs_superblock cs2)) by (by injection E as _ <- <-).
  assert (Hgen : sb_generation (cs_superblock cs2) = root_generation root2) by (by injection E as _ _ <-).
  assert (Hid2 : sb_root_object_id (cs_superblock cs2) = id2) by (by injection E as _ _ <-).
  clear E. set (new := cs_superblock cs2) in *. subst o2 slot2.
  assert (Hnew : read_slot crc32c (write_bytes_at f (slot_offset (root_generation root2)) (Superblock_encode crc32c new))
    (slot_offset (root_generation root2)) = Ok (Some new)) by by apply read_slot_written.
  assert (Hlen : zlen (Superblock_encode crc32c new) = 512).
  { apply (superblock_encode_slot crc32c new Hwf). by rewrite Hext. }
  assert (Hold : read_slot crc32c (write_bytes_at f (slot_offset (root_generation root2)) (Superblock_encode crc32c new))
    (slot_offset (sb_generation sb - 1)) = Ok (Some old)).
  { rewrite <-Hro. apply read_slot_ext, slice_write_other; [done|done|]. rewrite Hg2.
    pose proof (slot_offset_cases (sb_generation sb - 1)) as Hcase. pose proof (slot_offset_cases (sb_generation sb)).
    rewrite Z.sub_add in Hcase. lia. }
  assert (Htry : forall l, l = [new; old] \/ l = [old; new] -> try_slots segs x (sort_desc l) = Ok (Some (old, old_root))).
  { intros l Hl. assert (sort_desc l = [new; old]) as ->.
    { destruct Hl as [->| ->]; cbn [sort_desc fold_right insert_desc]; rewrite Hgen, Hgo, Hg2; by pass_guard. }
    cbn [try_slots]. unfold load_root_for at 1. rewrite Hid2, Hnone. cbn [rbind].
    destruct Hco as [-> Hgr]. cbn [rbind]. by rewrite Hgr, Z.eqb_refl. }
  unfold SuperblockPair_read.
  pose proof (slot_offset_cases (sb_generation sb - 1)) as Hcase. pose proof (slot_offset_cases (sb_generation sb)) as Hcase'.
  rewrite Z.sub_add in Hcase. rewrite Hg2 in *.
  set (f' := write_bytes_at _ _ _) in *. clearbody f'.
  change SUPERBLOCK_SLOT_A_OFFSET with 0. change SUPERBLOCK_SLOT_B_OFFSET with 4096.
  destruct Hcase as [(E1 & E2 & _)|(E1 & E2 & _)]; rewrite E2 in Hcase'; rewrite E1 in Hold.
  - destruct Hcase' as [(? & _)|(_ & _ & E3)]; [done|]. rewrite E3 in Hnew. rewrite Hold, Hnew. cbn [rbind].
    unfold choose_root, valid_slots. cbn [slot_a slot_b omap list_omap id]. by rewrite Htry by by right.
  - destruct Hcase' as [(_ & _ & E3)|(? & _)]; [|done]. rewrite E3 in Hnew. rewrite Hold, Hnew. cbn [rbind].
    unfold choose_root, valid_slots. cbn [slot_a slot_b omap list_omap id]. by rewrite Htry by by left.
Qed.
End Slots.

(** * Examples: generations 4 and 5 durable, 6 and 7 deferred *)

Definition root_gen (g : Z) : Root :=
  {| root_format_major := 1; root_format_minor := 0; inode_index_root := sample_hash [1; g]; root_dir_ino := 1;
     snapshot_tree_root := ChunkId_ZERO; model_index_root := ChunkId_ZERO; root_segment_seq := 0; index_epoch := 0;
     root_uuid := replicate 16 7; root_generation := g; chunk_index_root := sample_hash [2; g]; log_seq := 0 |}.
Definition superblock_gen (g : Z) : Superblock := superblock_of_root sample_hash (root_gen g).
Definition root_append (g : Z) : Append :=
  {| ap_tag := RootTag; ap_flags := 0; ap_ml := None; ap_payload := Root_encode (root_gen g) |}.
Definition durable_segments : Segments :=
  {[ 0 := segment_bytes sample_crc sample_hash [root_append 4; root_append 5] ]}.
Definition durable_index : ObjectIndex :=
  match rebuild_index sample_crc sample_hash durable_segments 100 with Ok x => x | Err _ => ObjectIndex_new end.
Definition durable_superblock : bytes :=
  write_slot sample_crc (write_slot sample_crc (replicate 4608 0) 0 (superblock_gen 4)) 4096 (superblock_gen 5).
Definition commit_state_gen (g : Z) : CommitState :=
  {| cs_root := root_gen g; cs_superblock := superblock_gen g; cs_generation := g; features_in_use := 0 |}.

Lemma committed_gen g : g = 4 \/ g = 5 -> committed durable_segments durable_index (superblock_gen g) (root_gen g).
Proof. intros [->| ->]; split; by vm_compute. Qed.

Lemma choose_root_exact_witness :
  choose_root sample_crc sample_hash {| slot_a := Some (superblock_gen 4); slot_b := None |} durable_segments durable_index 100 =
    Ok (superblock_gen 4, root_gen 4) /\
  root_generation (root_gen 4) = 4.
Proof.
  assert (E : choose_root sample_crc sample_hash {| slot_a := Some (superblock_gen 4); slot_b := None |}
    durable_segments durable_index 100 = Ok (superblock_gen 4, root_gen 4)) by by vm_compute.
  split; [exact E|]. apply (choose_root_exact sample_crc sample_hash _ _ _ _ _ _ E).
Defined.

Definition torn_slot : bytes := replicate 512 9.
Definition crashed_pair : SuperblockPair := {| slot_a := None; slot_b := Some (superblock_gen 5) |}.

Lemma one_commit_keeps_generation_witness : 5 <= root_generation (root_gen 5).
Proof.
  apply (one_commit_keeps_generation sample_crc sample_hash durable_segments durable_index 100
    durable_superblock (commit_state_gen 5) (Root_id sample_hash (root_gen 6)) (root_gen 6) (superblock_gen 5) (root_gen 5)
    torn_slot crashed_pair (superblock_gen 5) (root_gen 5)).
  - by vm_compute.
  - done.
  - by vm_compute.
  - done.
  - apply committed_gen. by right.
  - by vm_compute.
  - by vm_compute.
Defined.

Lemma two_commits_lose_generation_witness :
  let '(_, cs1) := write_superblock sample_crc (commit_state_gen 5) (Root_id sample_hash (root_gen 6)) (root_gen 6) in
  let '((o2, slot2), cs2) := write_superblock sample_crc cs1 (Root_id sample_hash (root_gen 7)) (root_gen 7) in
  (let! p' := SuperblockPair_read sample_crc (write_bytes_at durable_superblock o2 slot2) in
   safe (choose_root sample_crc sample_hash p' durable_segments durable_index 100)) = Ok (superblock_gen 4, root_gen 4).
Proof.
  apply (two_commits_lose_generation sample_crc sample_crc_u32 sample_hash durable_segments durable_index 100
    durable_superblock (commit_state_gen 5) (Root_id sample_hash (root_gen 6)) (root_gen 6)
    (Root_id sample_hash (root_gen 7)) (root_gen 7) (superblock_gen 5) (root_gen 5) (superblock_gen 4) (root_gen 4)).
  - by vm_compute.
  - by vm_compute.
  - by vm_compute.
  - done.
  - apply committed_gen. by right.
  - apply committed_gen. by left.
  - done.
  - done.
  - split; cbn; done || width.
  - done.
  - by vm_compute.
Defined.

(** The fallback superblock carries no feature bits, so the gate of an open
    accepts it whatever features the store needs. *)
Example fallback_passes_gate root : open_gate (superblock_of_root sample_hash root) false = Ok tt.
Proof. done. Qed.
