(* ===== verification/LogSpec.v ===== *)
(** The store's log over any transport: while appends and flushes succeed,
    every location of the object index holds a record whose payload hashes to
    the id it is filed under; after a flush that failed, one need not. *)
From stdpp Require Import gmap.
From Stdlib Require String.
From S2P Require Import Prelude Codec Repr Version SegRecord Superblock Descriptor Context BTree StoreError RootObj Segment SyncIo Recovery StoreLog SegmentSpec WriterSpec RecoverySpec.
Import String.StringSyntax.

Section Log.
Context (crc32c : bytes -> Z) (content_id : bytes -> ChunkId).
Context (Hid : forall b, wf_id (content_id b)) (Hcrc : forall b, is_u32 (crc32c b)).
Context {D : Type} `{IoLaws D} (segment_size : Z).
#[local] Abbreviation append_bytes := (append_bytes crc32c content_id).
#[local] Abbreviation log_bytes := (log_bytes crc32c content_id).
#[local] Abbreviation log_records := (log_records crc32c content_id).
#[local] Abbreviation segment_bytes := (segment_bytes crc32c content_id).
#[local] Abbreviation writer_at := (writer_at crc32c content_id).
#[local] Abbreviation append_one := (append_one crc32c content_id segment_size).
#[local] Abbreviation append_records := (append_records crc32c content_id segment_size).
Implicit Types (st : LogState D) (L : Z -> list Append).

(** The segment [q] holds its log [L q], up to the buffer of its writer. *)
Definition segment_ok st L (q : Z) : Prop :=
  match lg_segment st with
  | Some w =>
      if decide (q = sw_seq w) then exists l p, writer_at (lg_io st) w l p /\ L q = l ++ p
      else io_file (lg_io st) q = segment_bytes (L q) \/ (io_file (lg_io st) q = [] /\ L q = [])
  | None => io_file (lg_io st) q = segment_bytes (L q) \/ (io_file (lg_io st) q = [] /\ L q = [])
  end.

(** The location [loc] is a record of the logs with the id [id]. *)
Definition located L (id : ChunkId) (loc : Location) : Prop :=
  exists r, r ∈ log_records (L (loc_segment_seq loc)) 4 /\
    sr_offset r = loc_offset loc /\ sr_stored_len r = loc_stored_len loc /\ sr_content_id r = id.

(** A segment outgrows [segment_size] only by a first record. *)
Definition size_bound : Z := Z.max segment_size (62 + 2 ^ 32).

Record log_ok st L : Prop := {
  lo_appends q : Forall append_ok (L q) /\ zlen (segment_bytes (L q)) <= size_bound;
  lo_files q : segment_ok st L q;
  lo_next q : match lg_segment st with Some w => sw_seq w < q -> L q = [] | None => True end;
  lo_shards : length (shards (lg_index st)) = SHARDS;
  lo_index id loc : ObjectIndex_get (lg_index st) id = Some loc -> located L id loc
}.

Definition flushed st : Prop := match lg_segment st with Some w => sw_buffer w = [] | None => True end.

(** ** Reading a record back *)

Lemma log_records_at l r :
  Forall append_ok l -> r ∈ log_records l 4 ->
  exists pre a post, segment_bytes l = pre ++ append_bytes a ++ post /\ append_ok a /\
    r = append_record content_id a (zlen pre).
Proof.
  unfold Segment.segment_bytes. change 4 with (zlen SEGMENT_MAGIC). generalize SEGMENT_MAGIC as pre.
  intros pre Hl. revert pre. induction Hl as [|a l Ha Hl IH]; intros pre Hr; cbn [Segment.log_records Segment.log_bytes flat_map] in *.
  { by apply elem_of_nil in Hr. }
  fold (log_bytes l). apply elem_of_cons in Hr as [->|Hr]; [by exists pre, a, (log_bytes l)|].
  rewrite <-zlen_app in Hr. destruct (IH _ Hr) as (pre' & a' & post & E & Ha' & ->).
  exists pre', a', post. split; [|done]. by rewrite app_assoc.
Qed.

Lemma append_bytes_payload a :
  append_ok a -> exists h, append_bytes a = h ++ ap_payload a /\ zlen h = 58.
Proof.
  intros Ha. unfold Segment.append_bytes. rewrite record_encode_image by (exact Hid || apply (fok_len _ _ _ Ha)).
  unfold record_image. rewrite !app_assoc. eexists; split; [reflexivity|]. rewrite !zlen_app, !zlen_to_le.
  unfold zlen. by rewrite length_header_image.
Qed.

Lemma log_ok_file st L q :
  log_ok st L -> flushed st -> io_file (lg_io st) q = segment_bytes (L q) \/ (io_file (lg_io st) q = [] /\ L q = []).
Proof.
  intros Hok Hfl. pose proof (lo_files _ _ Hok q) as Hq. unfold segment_ok, flushed in *.
  destruct (lg_segment st) as [w|]; [|done]. destruct (decide (q = sw_seq w)) as [->|]; [|done]. left.
  destruct Hq as (l & p & [Hf _ Hb] & E). rewrite Hfl in Hb. symmetry in Hb.
  pose proof (lo_appends _ _ Hok (sw_seq w)) as [Ha _]. rewrite E in *. apply Forall_app in Ha as [_ Hp].
  pose proof (length_log crc32c content_id Hid p Hp) as Hlen. rewrite Hb in Hlen. destruct p; [|cbn in Hlen; lia].
  by rewrite app_nil_r.
Qed.

(** What a fetch returns hashes to the id that was asked for. *)
Lemma fetch_object_ok st L id b :
  log_ok st L -> flushed st -> fetch_object st id = Ok (Some b) -> content_id b = id.
Proof.
  intros Hok Hfl Hf. unfold fetch_object in Hf. destruct (ObjectIndex_get _ _) as [loc|] eqn:E; [|done].
  inv_ok Hf. destruct (lo_index _ _ Hok _ _ E) as (r & Hr & Ho & Hn & <-).
  pose proof (lo_appends _ _ Hok (loc_segment_seq loc)) as [Ha _].
  destruct (log_records_at _ _ Ha Hr) as (pre & a & post & Eb & Hao & ->).
  cbn in Ho, Hn |- *. destruct (append_bytes_payload a Hao) as (h & Eh & Hh).
  pose proof (zlen_nonneg pre). pose proof (zlen_nonneg (ap_payload a)).
  apply law_payload in Hok0 as [-> _]; [|lia|lia]. rewrite <-Ho, <-Hn.
  destruct (log_ok_file st L (loc_segment_seq loc) Hok Hfl) as [->|[_ E']].
  - rewrite Eb, Eh, <-app_assoc. unfold slice. rewrite Z2Nat.inj_add, !to_nat_zlen by lia.
    rewrite <-drop_drop, drop_app_length, drop_app_length' by (unfold zlen in Hh; lia).
    by rewrite take_app_length.
  - rewrite E' in Hr. by apply elem_of_nil in Hr.
Qed.

(** ** Appends and flushes *)

Definition pending_append (p : PendingRecord) : Append :=
  {| ap_tag := pr_tag p; ap_flags := record_flags p; ap_ml := pr_materialized_len p; ap_payload := pr_payload p |}.
Definition pending_ok (p : PendingRecord) : Prop :=
  wf_bytes (pr_payload p) /\ zlen (pr_payload p) < 2 ^ 32 /\ is_u64 (default 0 (pr_materialized_len p)).

Lemma pending_append_ok p : pending_ok p -> append_ok (pending_append p).
Proof.
  intros (? & ? & ?). split; [|done..]. cbn. unfold record_flags. destruct (pr_materialized_len p); cbv; done.
Qed.

Lemma flush_segment_ok st L st' :
  log_ok st L -> flush_segment st = (st', Ok tt) -> log_ok st' L /\ flushed st'.
Proof.
  intros Hok Hf. unfold flush_segment in Hf. destruct (lg_segment st) as [w|] eqn:Ew.
  2: { simplify_eq. split; [done|]. unfold flushed. by rewrite Ew. }
  destruct (SegmentWriter_flush (lg_io st) w) as [[d w'] r] eqn:E. simplify_eq.
  pose proof (lo_files _ _ Hok (sw_seq w)) as Hw. unfold segment_ok in Hw. rewrite Ew, decide_True in Hw by done.
  destruct Hw as (l & p & Hw & EL). destruct (flush_ok crc32c content_id _ _ l p _ _ Hw E) as (Hs & Hw' & Hoth & _).
  split; [|apply Hw']. split; cbn [lg_io lg_index lg_segment]; [apply Hok | | | apply Hok | apply Hok].
  2: { intros q Hq. pose proof (lo_next _ _ Hok q) as Hn. rewrite Ew in Hn. apply Hn. lia. }
  intros q. pose proof (lo_files _ _ Hok q) as Hq. unfold segment_ok in *. rewrite Ew in Hq. cbn [lg_segment lg_io].
  rewrite Hs. destruct (decide (q = sw_seq w)) as [->|Hne].
  - exists (l ++ p), []. by rewrite app_nil_r.
  - by rewrite Hoth.
Qed.

Lemma step_Ok_inv {A B C E} (m : A * result E B) (k : A -> B -> A * result E C) s c :
  step m k = (s, Ok c) -> exists s1 b, m = (s1, Ok b) /\ k s1 b = (s, Ok c).
Proof. unfold step. destruct m as [s1 [b|e]]; intros Hs; [by exists s1, b | by simplify_eq]. Qed.

Lemma fdatasync_segment_ok st L st' :
  log_ok st L -> fdatasync_segment st = (st', Ok tt) -> log_ok st' L /\ flushed st'.
Proof.
  intros Hok Hf. unfold fdatasync_segment in Hf. destruct (lg_segment st) as [w|] eqn:Ew.
  2: { simplify_eq. split; [done|]. unfold flushed. by rewrite Ew. }
  apply step_Ok_inv in Hf as (st1 & [] & Hfl & Hf). apply (flush_segment_ok st L) in Hfl as [Hok1 Hfl1]; [|done].
  destruct (lg_segment st1) as [w1|] eqn:Ew1; [|by simplify_eq].
  destruct (SegmentWriter_fdatasync (lg_io st1) w1) as [d r] eqn:E. simplify_eq. unfold SegmentWriter_fdatasync in E.
  apply law_sync in E as (Hf & _); [|by right]. split; [|unfold flushed in *; by rewrite Ew1 in Hfl1].
  split; cbn [lg_io lg_index lg_segment]; [apply Hok1 | | | apply Hok1 | apply Hok1].
  2: { intros q Hq. pose proof (lo_next _ _ Hok1 q) as Hn. rewrite Ew1 in Hn. by apply Hn. }
  intros q. pose proof (lo_files _ _ Hok1 q) as Hq. unfold segment_ok in *. rewrite Ew1 in Hq. cbn [lg_segment lg_io].
  destruct (decide (q = sw_seq w1)); [|by rewrite Hf]. destruct Hq as (l & p & [] & EL). exists l, p. split; [|done].
  split; by rewrite ?Hf.
Qed.

(** Opening a segment that no record was appended to. *)
Lemma open_fresh d q d' n :
  io_file d q = segment_bytes [] \/ io_file d q = [] -> open_segment_common crc32c content_id d q = (d', Ok n) ->
  io_file d' q = segment_bytes [] /\ n = 4 /\ (forall q', q' <> q -> io_file d' q' = io_file d q').
Proof.
  intros [Hf|Hf] Ho.
  - destruct (open_log crc32c content_id Hid Hcrc d q [] [] d' n) as (l' & rest & E & _ & Hf' & -> & Hoth & _);
      rewrite ?app_nil_r; [constructor | by repeat constructor | done | done | done |].
    symmetry in E. apply app_eq_nil in E as [E _]. rewrite Hf'. cbn [app]. unfold Segment.segment_bytes. by rewrite E.
  - unfold Segment.open_segment_common in Ho. apply step_Ok_inv in Ho as (d1 & len & E & Ho). injection E as <- E.
    apply law_len in E. subst len. rewrite Hf in Ho. cbn [zlen length Z.of_nat Z.eqb] in Ho.
    apply step_Ok_inv in Ho as (d1 & [] & Hw & Ho). apply step_Ok_inv in Ho as (d2 & [] & Hs & Ho). simplify_eq.
    apply law_write in Hw as (Hoth & _ & _ & _ & k & Hk & Hr); [|done]. apply law_sync in Hs as (Hf2 & _); [|by left].
    rewrite Hf2. split_and!; try done. rewrite Hk, (Hr eq_refl), Hf. done.
Qed.

Definition extends L L' : Prop := forall q, prefix (L q) (L' q).

Lemma located_extends L L' id loc : extends L L' -> located L id loc -> located L' id loc.
Proof.
  intros Hx (r & Hr & Hrest). exists r. split; [|done]. destruct (Hx (loc_segment_seq loc)) as [k ->].
  rewrite log_records_app. apply elem_of_app. by left.
Qed.

Lemma roll_segment_ok st L st' :
  log_ok st L -> roll_segment crc32c content_id st = (st', Ok tt) ->
  log_ok st' L /\ lg_index st' = lg_index st /\
  exists w, lg_segment st' = Some w /\ L (sw_seq w) = [] /\ writer_at (lg_io st') w [] [].
Proof.
  intros Hok Hr. unfold roll_segment in Hr. apply step_Ok_inv in Hr as (st1 & [] & Hf & Hr).
  assert (Hi : lg_index st1 = lg_index st).
  { unfold fdatasync_segment, flush_segment in Hf. destruct (lg_segment st) as [w|]; [|by simplify_eq].
    apply step_Ok_inv in Hf as (st2 & [] & E & Hf). destruct (SegmentWriter_flush _ _) as [[d w'] r]. simplify_eq.
    cbn in Hf. destruct (SegmentWriter_fdatasync _ _). by simplify_eq. }
  apply (fdatasync_segment_ok _ L) in Hf as [Hok1 Hfl1]; [|done].
  destruct (lg_segment st1) as [w|] eqn:Ew; [|by simplify_eq].
  apply step_Ok_inv in Hr as (st2 & [] & Ho & Hr). unfold open_segment in Ho.
  destruct (SegmentWriter_open _ _ _ _) as [d [w'|]] eqn:E; [|by simplify_eq]. simplify_eq. cbn [lg_io lg_index lg_segment] in Hr.
  destruct (io_sync_segments_dir d) as [d2 r2] eqn:Es. apply law_sync_dir in Es as ->. simplify_eq.
  unfold SegmentWriter_open in E. apply step_Ok_inv in E as (d3 & n & E & E'). simplify_eq.
  pose proof (lo_next _ _ Hok1 (sw_seq w + 1)) as Hn. rewrite Ew in Hn. specialize (Hn ltac:(lia)).
  apply open_fresh in E as (Hf & -> & Hoth).
  2: { destruct (log_ok_file st1 L (sw_seq w + 1) Hok1 Hfl1) as [->|[-> _]]; [left; by rewrite Hn | by right]. }
  split; [|split; [done|]].
  - split; cbn [lg_io lg_index lg_segment]; [apply Hok1 | | | apply Hok1 | apply Hok1].
    + intros q. unfold segment_ok. cbn [lg_segment lg_io sw_seq]. destruct (decide (q = sw_seq w + 1)) as [->|Hne].
      * exists [], []. split; [|done]. by split.
      * rewrite Hoth by done. by apply log_ok_file.
    + intros q Hq. cbn in Hq. pose proof (lo_next _ _ Hok1 q) as Hnq. rewrite Ew in Hnq. apply Hnq. lia.
  - eexists. cbn [lg_segment lg_io]. split_and!; [done | done | by split].
Qed.

Lemma get_insert x id loc id' :
  length (shards x) = SHARDS ->
  ObjectIndex_get (ObjectIndex_insert x id loc) id' = if decide (id' = id) then Some loc else ObjectIndex_get x id'.
Proof.
  intros Hl. unfold ObjectIndex_insert. rewrite get_alter by done. destruct (decide (id' = id)) as [->|Hne].
  - rewrite decide_True by done. destruct (shard_lookup x id Hl) as [s ->]. cbn. by rewrite lookup_insert_eq.
  - destruct (decide _) as [E|]; [|done]. unfold ObjectIndex_get. destruct (shards x !! _) as [s|]; [|done]. cbn.
    by rewrite lookup_insert_ne.
Qed.

Lemma log_end d w l p : writer_at d w l p -> sw_durable_end w + buffered_len w = zlen (segment_bytes (l ++ p)).
Proof. intros [_ -> Hb]. unfold buffered_len. rewrite Hb, segment_bytes_app, zlen_app. done. Qed.

(** The append of one record behind what is there. *)
Lemma buffer_append_ok st L w q :
  log_ok st L -> pending_ok q -> lg_segment st = Some w ->
  zlen (segment_bytes (L (sw_seq w))) + zlen (encode_pending crc32c content_id q) <= size_bound ->
  let st' := Build_LogState (lg_io st)
    (ObjectIndex_insert (lg_index st) (content_id (pr_payload q))
       {| loc_segment_seq := sw_seq w; loc_offset := sw_durable_end w + buffered_len w;
          loc_stored_len := zlen (pr_payload q); loc_materialized_len := pr_materialized_len q; loc_tag := pr_tag q |})
    (Some (SegmentWriter_append w (encode_pending crc32c content_id q))) in
  let L' := fun n => if decide (n = sw_seq w) then L n ++ [pending_append q] else L n in
  log_ok st' L' /\ extends L L'.
Proof.
  intros Hok Hq Hw Hlen. pose proof (lo_files _ _ Hok (sw_seq w)) as Hf. unfold segment_ok in Hf.
  rewrite Hw, decide_True in Hf by done. destruct Hf as (l & p & Hat & EL). rewrite (log_end _ _ _ _ Hat), <-EL.
  pose proof (lo_appends _ _ Hok (sw_seq w)) as [Ha Hb].
  cbv zeta. set (L' := fun n => if decide (n = sw_seq w) then L n ++ [pending_append q] else L n).
  assert (EL' : L' (sw_seq w) = L (sw_seq w) ++ [pending_append q]) by (unfold L'; by rewrite decide_True).
  assert (Hx : extends L L').
  { intros n. unfold L'. destruct (decide _); [by apply prefix_app_r | done]. }
  split; [|done]. split; cbn [lg_io lg_index lg_segment].
  - intros n. unfold L'. destruct (decide (n = sw_seq w)) as [->|]; [|apply Hok]. split.
    + apply Forall_app. split; [done|]. constructor; [by apply pending_append_ok | constructor].
    + rewrite segment_bytes_app, zlen_app. cbn [Segment.log_bytes flat_map]. by rewrite app_nil_r.
  - intros n. pose proof (lo_files _ _ Hok n) as Hn. unfold segment_ok in *. cbn [lg_segment lg_io SegmentWriter_append sw_seq].
    rewrite Hw in Hn. destruct (decide (n = sw_seq w)) as [->|Hne]; [|unfold L'; by rewrite decide_False].
    exists l, (p ++ [pending_append q]). rewrite EL', EL, app_assoc. split; [|done].
    destruct Hat as [Hfile He Hbuf]. split; cbn [SegmentWriter_append sw_seq sw_durable_end sw_buffer]; [done | done |].
    rewrite Hbuf, log_bytes_app. cbn [Segment.log_bytes flat_map]. by rewrite app_nil_r.
  - intros n Hn. cbn in Hn. unfold L'. rewrite decide_False by lia. pose proof (lo_next _ _ Hok n) as Hnx. rewrite Hw in Hnx.
    by apply Hnx.
  - unfold ObjectIndex_insert. cbn. rewrite length_alter. apply Hok.
  - intros id loc Hg. rewrite get_insert in Hg by apply Hok. destruct (decide _) as [->|]; simplify_eq.
    + exists (append_record content_id (pending_append q) (zlen (segment_bytes (L (sw_seq w))))). split_and!; [|done..].
      cbn [loc_segment_seq]. rewrite EL', log_records_app. apply elem_of_app. right. cbn [Segment.log_records].
      unfold Segment.segment_bytes. rewrite zlen_app. apply list_elem_of_here.
    + eapply located_extends; [done|]. by apply (lo_index _ _ Hok).
Qed.

Definition indexed st (id : ChunkId) : Prop := is_Some (ObjectIndex_get (lg_index st) id).

Lemma append_one_ok st L q st' :
  log_ok st L -> pending_ok q -> append_one st q = (st', Ok tt) ->
  exists L', log_ok st' L' /\ extends L L' /\ indexed st' (content_id (pr_payload q)) /\
    forall id, indexed st id -> indexed st' id.
Proof.
  intros Hok Hq Ha. unfold StoreLog.append_one in Ha. destruct (lg_segment st) as [w|] eqn:Ew; [|by simplify_eq].
  apply step_Ok_inv in Ha as (st1 & [] & Hroll & Ha).
  assert (Henc : zlen (encode_pending crc32c content_id q) = 58 + zlen (pr_payload q))
    by apply (zlen_append_bytes crc32c content_id Hid _ (pending_append_ok _ Hq)).
  assert (H1 : log_ok st1 L /\ lg_index st1 = lg_index st /\ exists w1, lg_segment st1 = Some w1 /\
    zlen (segment_bytes (L (sw_seq w1))) + zlen (encode_pending crc32c content_id q) <= size_bound).
  { destruct (Z.ltb_spec segment_size (sw_durable_end w + buffered_len w + zlen (encode_pending crc32c content_id q))) as [Hlt|Hge].
    - apply (roll_segment_ok st L) in Hroll as (? & ? & w1 & ? & E & _); [|done]. split_and!; [done..|]. exists w1. split; [done|].
      rewrite E, Henc. destruct Hq as (_ & Hq & _). change (zlen (segment_bytes [])) with 4. unfold size_bound. lia.
    - simplify_eq. split_and!; [done..|]. exists w. split; [done|].
      pose proof (lo_files _ _ Hok (sw_seq w)) as Hf. unfold segment_ok in Hf.
      rewrite Ew, decide_True in Hf by done. destruct Hf as (l & p & Hat & EL). rewrite EL, <-(log_end _ _ _ _ Hat).
      unfold size_bound. lia. }
  destruct H1 as (Hok1 & Hi & w1 & Ew1 & Hlen). rewrite Ew1 in Ha. simplify_eq.
  destruct (buffer_append_ok st1 L w1 q Hok1 Hq Ew1 Hlen) as [Hok' Hx].
  eexists. split; [exact Hok'|]. split; [exact Hx|]. unfold indexed. cbn [lg_index SegmentWriter_append sw_seq].
  split.
  - rewrite get_insert, decide_True by (done || apply Hok1). by eexists.
  - intros id Hid'. rewrite get_insert by apply Hok1. rewrite Hi. destruct (decide _); [by eexists | done].
Qed.

Lemma append_records_ok st L ps st' :
  log_ok st L -> Forall pending_ok ps -> append_records st ps = (st', Ok tt) ->
  exists L', log_ok st' L' /\ extends L L' /\
    (forall id, indexed st id \/ id ∈ map (fun p => content_id (pr_payload p)) ps -> indexed st' id).
Proof.
  intros Hok Hps. revert st L Hok. induction Hps as [|q ps Hq Hps IH]; intros st L Hok Ha; cbn [StoreLog.append_records] in Ha.
  { simplify_eq. exists L. split_and!; [done | by intros n |]. intros id [?|Hin]; [done|]. by apply elem_of_nil in Hin. }
  apply step_Ok_inv in Ha as (st1 & [] & H1 & Ha). apply (append_one_ok st L) in H1 as (L1 & Hok1 & Hx1 & Hq1 & Hi1); [|done..].
  destruct (IH st1 L1 Hok1 Ha) as (L2 & Hok2 & Hx2 & Hi2). exists L2. split; [done|]. split.
  { intros n. etransitivity; [apply Hx1 | apply Hx2]. }
  intros id Hin. apply Hi2. cbn [map] in Hin. rewrite elem_of_cons in Hin. destruct Hin as [?|[->|?]]; auto.
Qed.

(** C27. A commit's records can be read back.  From a store whose index
    points at records of its logs, append a batch and flush, both with
    success, over any transport: the index still points at records only; no
    record of a log is lost; every object that was indexed and every payload
    of the batch is indexed; and whatever a fetch then returns hashes to the
    id that was asked for. *)
Theorem append_flush_fetch st L ps st1 st2 :
  log_ok st L -> Forall pending_ok ps ->
  append_records st ps = (st1, Ok tt) -> flush_segment st1 = (st2, Ok tt) ->
  exists L', log_ok st2 L' /\ flushed st2 /\ extends L L' /\
    (forall id, indexed st id \/ id ∈ map (fun p => content_id (pr_payload p)) ps -> fetch_object st2 id <> Ok None) /\
    (forall id b, fetch_object st2 id = Ok (Some b) -> content_id b = id).
Proof.
  intros Hok Hps Ha Hf. destruct (append_records_ok st L ps st1 Hok Hps Ha) as (L' & Hok1 & Hx & Hi).
  destruct (flush_segment_ok st1 L' st2 Hok1 Hf) as [Hok2 Hfl]. exists L'. split_and!; try done.
  - intros id Hin. apply Hi in Hin as [loc E]. unfold fetch_object.
    replace (lg_index st2) with (lg_index st1).
    + rewrite E. by destruct (io_read_payload _ _ _ _).
    + unfold flush_segment in Hf. destruct (lg_segment st1); [|by simplify_eq].
      destruct (SegmentWriter_flush _ _) as [[d w'] r]. by simplify_eq.
  - intros id b. by apply fetch_object_ok with (L := L').
Qed.

(** The scatter of results to their positions. *)
Lemma scatter_lookup {A B C} (h : nat -> option A) (g : A -> B) (f : B -> C) need out i :
  Forall (fun j => is_Some (h j) /\ (j < length out)%nat) need ->
  fold_left (fun out '(j, r) => <[j := f r]> out) (zip need (map g (omap h need))) out !! i =
  if decide (i ∈ need) then f ∘ g <$> h i else out !! i.
Proof.
  intros Hn. revert out Hn. induction need as [|j need IH]; intros out Hn.
  { cbn. rewrite decide_False; [done|]. apply not_elem_of_nil. }
  inversion Hn as [|? ? [[a Ha] Hj] Hrest]; subst. cbn [omap list_omap]. rewrite Ha. cbn [map zip zip_with fold_left].
  rewrite IH by (rewrite length_insert; eapply list.Forall_impl; [exact Hrest|]; naive_solver).
  destruct (decide (i ∈ need)) as [Hi|Hi].
  - by rewrite decide_True by (by apply elem_of_cons; right).
  - destruct (decide (i = j)) as [->|Hne].
    + rewrite decide_True by apply list_elem_of_here. rewrite list_lookup_insert_eq, Ha by done. done.
    + rewrite list_lookup_insert_ne by done. rewrite decide_False; [done|]. by rewrite elem_of_cons; intros [?|?].
Qed.

(** The batched fetch is the sequence of single fetches, in the order of
    the ids, whatever mixture of present and absent ids it is given. *)
Theorem fetch_objects_many_exact st ids : fetch_objects_many st ids = map (fetch_object st) ids.
Proof.
  unfold fetch_objects_many. set (req := fun id => match ObjectIndex_get (lg_index st) id with
    | Some loc => Some {| rq_segment_seq := loc_segment_seq loc; rq_offset := loc_offset loc; rq_stored_len := loc_stored_len loc |}
    | None => None end). cbv zeta. set (some := fun b : bytes => Ok (E := StoreError) (Some b)).
  assert (Hfetch : forall id, fetch_object st id = match req id with
    | Some r => rbind (io_read_payload (lg_io st) (rq_segment_seq r) (rq_offset r) (rq_stored_len r)) some
    | None => Ok None end).
  { intros id. unfold fetch_object, req. by destruct (ObjectIndex_get _ _). }
  assert (Hm : forall {B} (f : ChunkId -> B) i, map f ids !! i = f <$> (ids !! i)) by (intros; apply list_lookup_fmap).
  assert (Hreq : forall i, map req ids !! i ≫= id = (ids !! i ≫= req)).
  { intros i. rewrite Hm. by destruct (ids !! i). }
  destruct (existsb _ _) eqn:Ex; cbn [negb].
  - apply list_eq. intros i. unfold io_read_many. rewrite scatter_lookup.
    + rewrite Hreq, !Hm. destruct (decide _) as [Hi|Hi].
      * apply list_elem_of_filter in Hi as [[r Hr] _]. cbn beta in Hr. rewrite Hreq in Hr. rewrite Hr.
        destruct (ids !! i) as [id|]; [|done]. cbn in Hr |- *. by rewrite Hfetch, Hr.
      * destruct (ids !! i) as [id|] eqn:E; [|done]. cbn. rewrite Hfetch. destruct (req id) as [r|] eqn:Er; [|done].
        destruct Hi. apply list_elem_of_filter. rewrite Hreq, E. cbn. rewrite Er. split; [by eexists|].
        apply elem_of_seq. rewrite length_map. apply lookup_lt_Some in E. lia.
    + apply list.Forall_forall. intros j Hj. apply list_elem_of_filter in Hj as [Hj Hs]. split; [done|].
      apply elem_of_seq in Hs. rewrite length_map in *. lia.
  - apply map_ext_in. intros id Hid'. rewrite Hfetch. destruct (req id) as [r|] eqn:Er; [|done].
    assert (Ht : existsb (fun r => match r with Some _ => true | None => false end) (map req ids) = true).
    { apply existsb_exists. exists (Some r). split; [|done]. rewrite <-Er. by apply in_map. }
    by rewrite Ht in Ex.
Qed.

Lemma append_one_fits st w q :
  lg_segment st = Some w ->
  sw_durable_end w + buffered_len w + zlen (encode_pending crc32c content_id q) <= segment_size ->
  append_records st [q] = (Build_LogState (lg_io st)
    (ObjectIndex_insert (lg_index st) (content_id (pr_payload q))
       {| loc_segment_seq := sw_seq w; loc_offset := sw_durable_end w + buffered_len w;
          loc_stored_len := zlen (pr_payload q); loc_materialized_len := pr_materialized_len q; loc_tag := pr_tag q |})
    (Some (SegmentWriter_append w (encode_pending crc32c content_id q))), Ok tt).
Proof.
  intros Hw Hlen. cbn [StoreLog.append_records]. unfold StoreLog.append_one. rewrite Hw.
  replace (_ <? _) with false by lia. cbn [step]. by rewrite Hw.
Qed.

(** Two flushes over the same place: the second overwrites what the first,
    failing, left there. *)
Lemma rewrite_tail d w l p1 d1 w1 e a2 d2 w2 :
  writer_at d w l [p1] -> length (append_bytes p1) = length (append_bytes a2) -> append_bytes a2 <> [] ->
  SegmentWriter_flush d w = ((d1, w1), Err e) ->
  SegmentWriter_flush d1 (SegmentWriter_append w1 (append_bytes a2)) = ((d2, w2), Ok tt) ->
  io_file d2 (sw_seq w) = segment_bytes l ++ append_bytes a2.
Proof.
  intros Hw Hlen Hne H1 H2. apply (flush_err crc32c content_id _ _ l [p1]) in H1 as (Hq & Hb & He & _ & _ & k & Hk); [|done].
  unfold SegmentWriter_flush in H2. cbn [SegmentWriter_append sw_seq sw_buffer sw_durable_end app] in H2. rewrite Hb, He, Hq in H2.
  cbn [app] in H2. destruct (Z.eqb_spec (zlen (append_bytes a2)) 0) as [Hz|_].
  { unfold zlen in Hz. destruct (append_bytes a2); [done | cbn in Hz; lia]. }
  cbn zeta in H2. cbn [sw_seq sw_buffer sw_durable_end] in H2.
  destruct (io_write_at d1 _ _ _) as [d2' [[]|e']] eqn:Ew; simplify_eq.
  apply law_write in Ew as (_ & _ & _ & _ & k' & Hk' & Hr); [|apply zlen_nonneg].
  rewrite Hk', (Hr eq_refl), firstn_all, Hk, write_bytes_at_cons, to_nat_zlen, take_app_length by done.
  rewrite length_app. replace (_ - (_ + _))%nat with O by lia. cbn [replicate]. rewrite app_nil_r. f_equal.
  rewrite drop_ge, app_nil_r; [done|]. rewrite length_app, length_take. cbn [Segment.log_bytes flat_map]. rewrite app_nil_r. lia.
Qed.

(** C40. A flush that fails poisons the index.  Append [p1] to a flushed log
    and let the flush fail; append [p2], a record of the same size, and let
    its flush succeed, with no rollover: the id of [p1] is still indexed, at
    the place where [p2] now lies, so a fetch of it returns the payload of
    [p2], and no transaction will stage [p1] again. *)
Theorem failed_flush_aliases st L w p1 p2 st1 st2 e st3 st4 b :
  log_ok st L -> lg_segment st = Some w -> sw_buffer w = [] -> pending_ok p1 -> pending_ok p2 ->
  zlen (pr_payload p1) = zlen (pr_payload p2) -> content_id (pr_payload p1) <> content_id (pr_payload p2) ->
  sw_durable_end w + 58 + zlen (pr_payload p1) <= segment_size ->
  append_records st [p1] = (st1, Ok tt) -> flush_segment st1 = (st2, Err e) ->
  append_records st2 [p2] = (st3, Ok tt) -> flush_segment st3 = (st4, Ok tt) ->
  indexed st4 (content_id (pr_payload p1)) /\
  (fetch_object st4 (content_id (pr_payload p1)) = Ok (Some b) -> b = pr_payload p2).
Proof.
  intros Hok Hw Hbuf Hp1 Hp2 Hlen Hids Hfit H1 H2 H3 H4.
  pose proof (zlen_append_bytes crc32c content_id Hid _ (pending_append_ok _ Hp1)) as Hz1.
  pose proof (zlen_append_bytes crc32c content_id Hid _ (pending_append_ok _ Hp2)) as Hz2. cbn [ap_payload pending_append] in Hz1, Hz2.
  change (append_bytes (pending_append p1)) with (encode_pending crc32c content_id p1) in Hz1.
  change (append_bytes (pending_append p2)) with (encode_pending crc32c content_id p2) in Hz2. change HEADER_SIZE with 58 in *.
  assert (Hb0 : buffered_len w = 0) by (unfold buffered_len; by rewrite Hbuf).
  pose proof (lo_files _ _ Hok (sw_seq w)) as Hf. unfold segment_ok in Hf. rewrite Hw, decide_True in Hf by done.
  destruct Hf as (l & p & Hat & EL).
  assert (p = []) as ->.
  { pose proof (lo_appends _ _ Hok (sw_seq w)) as [Ha _]. rewrite EL in Ha. apply Forall_app in Ha as [_ Ha].
    apply (length_log crc32c content_id Hid) in Ha. destruct Hat as [_ _ Hb]. rewrite <-Hb, Hbuf in Ha. by destruct p; [|cbn in Ha; lia]. }
  assert (Hat1 : writer_at (lg_io st) (SegmentWriter_append w (encode_pending crc32c content_id p1)) l [pending_append p1]).
  { destruct Hat as [? ? Hb]. split; cbn [SegmentWriter_append sw_seq sw_durable_end sw_buffer]; [done..|].
    rewrite Hbuf. cbn [app Segment.log_bytes flat_map]. by rewrite app_nil_r. }
  rewrite (append_one_fits _ w) in H1 by (done || lia). simplify_eq. unfold flush_segment in H2. cbn [lg_io lg_index lg_segment] in H2.
  destruct (SegmentWriter_flush _ _) as [[d1 w1] r1] eqn:E1. simplify_eq.
  pose proof (flush_err crc32c content_id _ _ _ _ _ _ _ Hat1 E1) as (Hq1 & Hb1 & He1 & _).
  destruct Hat as [_ He _]. assert (Hb1' : buffered_len w1 = 0) by (unfold buffered_len; by rewrite Hb1).
  rewrite (append_one_fits _ w1) in H3 by (done || (cbn; lia)). simplify_eq. unfold flush_segment in H4. cbn [lg_io lg_index lg_segment] in H4.
  destruct (SegmentWriter_flush d1 _) as [[d2 w2] r2] eqn:E2. simplify_eq.
  destruct (append_bytes_payload (pending_append p2) (pending_append_ok _ Hp2)) as (h & Eh & Hh). cbn [ap_payload pending_append] in Eh.
  assert (Hfile : io_file d2 (sw_seq w) = segment_bytes l ++ h ++ pr_payload p2).
  { rewrite <-Eh. eapply (rewrite_tail _ _ _ _ _ _ _ _ _ _ Hat1); [ | | exact E1 | exact E2].
    - unfold zlen in Hz1, Hz2, Hlen. change (append_bytes (pending_append p1)) with (encode_pending crc32c content_id p1).
      change (append_bytes (pending_append p2)) with (encode_pending crc32c content_id p2). lia.
    - rewrite Eh. destruct h; [by unfold zlen in Hh | done]. }
  unfold indexed, fetch_object. cbn [lg_index lg_io].
  rewrite !get_insert, decide_False, decide_True by (done || apply Hok || (cbn; rewrite length_alter; apply Hok)).
  split; [by eexists|]. intros Hr. inv_ok Hr. cbn [loc_segment_seq loc_offset loc_stored_len] in Hok0.
  pose proof (zlen_nonneg (segment_bytes l)). pose proof (zlen_nonneg (pr_payload p1)).
  apply law_payload in Hok0 as [-> _]; [|lia|lia]. rewrite Hfile, He, Hb0, Z.add_0_r. unfold slice.
  rewrite Z2Nat.inj_add, !to_nat_zlen by lia.
  rewrite <-drop_drop, drop_app_length, drop_app_length' by (unfold zlen in Hh; lia).
  apply take_ge. unfold zlen in Hlen. lia.
Qed.
End Log.

(** * Examples: the log of two records, over transports that write all and
    that fail *)

#[local] Open Scope string_scope.
(** A device that refuses to write a byte 9. *)
Definition faulty_os : Os := {|
  pwrite f b off := if bool_decide (9 ∈ b) then (f, Err "EIO") else (write_bytes_at f off b, Ok (zlen b));
  pread f n off := Ok (slice (Z.to_nat off) (Z.to_nat n) f);
  stat_len f := Ok (zlen f);
  read_file f := Ok f;
  set_len f n := Ok (resize (Z.to_nat n) 0 f);
  fsync _ := Ok tt
|}.
Lemma faulty_os_laws : @OsLaws faulty_os.
Proof.
  split; cbn; intros; try (case_match; simplify_eq); simplify_eq; try done.
  - split; [pose proof (zlen_nonneg b); lia|]. by rewrite to_nat_zlen, firstn_all.
  - unfold slice. split; [unfold zlen; rewrite length_take; lia|]. rewrite length_take. set (l := drop _ file).
    destruct (Nat.min_spec (Z.to_nat n) (length l)) as [[_ ->]|[Hm ->]]; [done|]. by rewrite !take_ge by lia.
Qed.

Definition sample_state : LogState Disk :=
  Build_LogState (sample_disk sample_segment) ObjectIndex_new
    (Some {| sw_seq := 0; sw_buffer := []; sw_durable_end := zlen sample_segment; sw_record_count := 0 |}).
Definition sample_logs (q : Z) : list Append := if decide (q = 0) then sample_log else [].

Definition sample_pending (b : bytes) : PendingRecord :=
  {| pr_tag := Data; pr_payload := b; pr_materialized_len := None |}.

Lemma sample_state_ok `{OsLaws} : log_ok sample_crc sample_hash 200 sample_state sample_logs.
Proof.
  split.
  - intros q. unfold sample_logs. destruct (decide (q = 0)); (split; [|by vm_compute]).
    + apply sample_log_ok'.
    + constructor.
  - intros q. unfold segment_ok, sample_state. cbn [lg_segment lg_io sw_seq]. unfold sample_logs.
    destruct (decide (q = 0)) as [->|Hq]; [exists sample_log, []; split; [by split|done]|].
    right. split; [|done].
    change (default [] (({[ 0 := sample_segment ]} : gmap Z bytes) !! q) = []). by rewrite lookup_singleton_ne.
  - intros q Hq. cbn in Hq. unfold sample_logs. by rewrite decide_False by lia.
  - done.
  - intros id loc Hg. cbn [sample_state lg_index] in Hg. by rewrite get_new in Hg.
Qed.

#[local] Existing Instance sample_os.
#[local] Existing Instance sample_os_laws.

Definition sample_batch : list PendingRecord := [sample_pending [1; 2; 3]; sample_pending [5]].
Definition sample_appended : LogState Disk * result StoreError unit :=
  append_records sample_crc sample_hash 200 sample_state sample_batch.
Definition sample_committed : LogState Disk * result StoreError unit := flush_segment (fst sample_appended).

Lemma sample_pending_ok b : wf_bytes b -> zlen b < 2 ^ 32 -> pending_ok (sample_pending b).
Proof. intros ? ?. split_and!; [done | done | by cbv]. Qed.

Lemma append_flush_fetch_witness :
  sample_committed = (fst sample_committed, Ok tt) /\
  option_map sw_seq (lg_segment (fst sample_committed)) = Some 1 /\
  fetch_object (fst sample_committed) (sample_hash [5]) = Ok (Some [5]) /\
  forall id b, fetch_object (fst sample_committed) id = Ok (Some b) -> sample_hash b = id.
Proof.
  assert (Ha : snd sample_appended = Ok tt) by (by vm_compute).
  assert (Hc : snd sample_committed = Ok tt) by (by vm_compute).
  split_and!; [by rewrite <-Hc; destruct sample_committed | by vm_compute | by vm_compute |].
  destruct (append_flush_fetch sample_crc sample_hash sample_hash_wf sample_crc_u32 200 sample_state sample_logs sample_batch
    (fst sample_appended) (fst sample_committed)) as (L' & _ & _ & _ & _ & Hf).
  - apply sample_state_ok.
  - constructor; [|constructor; [|constructor]].
    all: apply sample_pending_ok; [repeat constructor; width | by vm_compute].
  - rewrite <-Ha. exact (surjective_pairing _).
  - rewrite <-Hc. exact (surjective_pairing _).
  - exact Hf.
Defined.

#[local] Existing Instance faulty_os | 0.
#[local] Existing Instance faulty_os_laws | 0.

Lemma failed_flush_aliases_witness :
  let p1 := sample_pending [1; 2; 9] in let p2 := sample_pending [1; 2; 3] in
  let st2 := fst (flush_segment (fst (append_records sample_crc sample_hash 200 sample_state [p1]))) in
  let st4 := fst (flush_segment (fst (append_records sample_crc sample_hash 200 st2 [p2]))) in
  fetch_object st4 (sample_hash [1; 2; 9]) = Ok (Some [1; 2; 3]) /\ indexed st4 (sample_hash [1; 2; 9]).
Proof.
  cbv zeta.
  set (p1 := sample_pending [1; 2; 9]). set (p2 := sample_pending [1; 2; 3]).
  set (a1 := append_records sample_crc sample_hash 200 sample_state [p1]).
  assert (H1 : snd a1 = Ok tt) by (by vm_compute). assert (H2 : snd (flush_segment (fst a1)) = Err (StoreIo "EIO")) by (by vm_compute).
  set (a2 := append_records sample_crc sample_hash 200 (fst (flush_segment (fst a1))) [p2]).
  assert (H3 : snd a2 = Ok tt) by (by vm_compute). assert (H4 : snd (flush_segment (fst a2)) = Ok tt) by (by vm_compute).
  assert (Hf : fetch_object (fst (flush_segment (fst a2))) (sample_hash [1; 2; 9]) = Ok (Some [1; 2; 3])) by (by vm_compute).
  split; [exact Hf|].
  apply (failed_flush_aliases sample_crc sample_hash sample_hash_wf 200 sample_state sample_logs
    {| sw_seq := 0; sw_buffer := []; sw_durable_end := zlen sample_segment; sw_record_count := 0 |} p1 p2
    (fst a1) (fst (flush_segment (fst a1))) (StoreIo "EIO") (fst a2) (fst (flush_segment (fst a2))) [1; 2; 3]).
  - apply sample_state_ok.
  - done.
  - done.
  - apply sample_pending_ok; [repeat constructor; width | by vm_compute].
  - apply sample_pending_ok; [repeat constructor; width | by vm_compute].
  - done.
  - by vm_compute.
  - by vm_compute.
  - rewrite <-H1. exact (surjective_pairing _).
  - rewrite <-H2. exact (surjective_pairing _).
  - rewrite <-H3. exact (surjective_pairing _).
  - rewrite <-H4. exact (surjective_pairing _).
Defined.
