(* ===== verification/BTreeNode.v ===== *)
(** The node codec of [store/index.rs] and the contract of its
    [ObjectProvider]: encoding then decoding a well-formed node is the
    identity, and a node staged through a provider can be fetched back by
    its content id. *)
From S2P Require Import Prelude Binomial Codec Rank Repr Descriptor Context Version SegRecord Keys BTree.

(** * Well-formed nodes *)

Definition key_ok (k : bytes) : Prop := wf_bytes k /\ zlen k < 2 ^ 16.
Definition leaf_entry_ok (e : Entry) : Prop :=
  key_ok (e_key e) /\ wf_bytes (e_value e) /\ zlen (e_value e) < 2 ^ 32.
Definition child_entry_ok (e : Entry) : Prop := key_ok (e_key e) /\ wf_id (e_value e).

Definition Node_entries (n : Node) : list Entry :=
  match n with Leaf entries => entries | Internal _ entries => entries end.

(** Nodes that encode. *)
Record entries_ok (n : Node) : Prop := {
  eok_entries : Forall (match n with Leaf _ => leaf_entry_ok | Internal _ _ => child_entry_ok end) (Node_entries n);
  eok_child : match n with Leaf _ => True | Internal c _ => wf_id c end
}.

Record node_ok (n : Node) : Prop := {
  nok_ok : entries_ok n;
  nok_sorted : sorted (map e_key (Node_entries n))
}.

(** * The codec *)

Section Codec.
Context (order max_fanout : Z) (Horder : 0 <= order < 2 ^ 16).

(** What an entry list encodes to. *)
Definition leaf_image (es : list Entry) : bytes :=
  flat_map (fun e => to_le 2 (zlen (e_key e)) ++ e_key e ++ to_le 4 (zlen (e_value e)) ++ e_value e) es.
Definition child_image (es : list Entry) : bytes :=
  flat_map (fun e => to_le 2 (zlen (e_key e)) ++ e_key e ++ e_value e) es.

Lemma encode_leaf_entries_ok w es :
  Forall leaf_entry_ok es -> encode_leaf_entries w es = Ok {| w_buf := w_buf w ++ leaf_image es |}.
Proof.
  intros H. revert w. induction H as [|e es ((_ & Hk) & _ & Hv) _ IH]; intros w; cbn [encode_leaf_entries leaf_image flat_map].
  { rewrite app_nil_r. by destruct w. }
  unfold Writer_bytes16, Writer_bytes32. do 2 (pass_if; cbn [expect map_err rbind]).
  rewrite IH. cbn [w_buf Writer_bytes Writer_u16 Writer_u32]. by rewrite <-!app_assoc.
Qed.

Lemma encode_child_entries_ok w es :
  Forall child_entry_ok es -> encode_child_entries w es = Ok {| w_buf := w_buf w ++ child_image es |}.
Proof.
  intros H. revert w. induction H as [|e es ((_ & Hk) & _) _ IH]; intros w; cbn [encode_child_entries child_image flat_map].
  { rewrite app_nil_r. by destruct w. }
  unfold Writer_bytes16. pass_if. cbn [expect map_err rbind].
  rewrite IH. cbn [w_buf Writer_bytes Writer_u16]. by rewrite <-!app_assoc.
Qed.

Lemma decode_leaf_entries_ok es r l :
  Forall leaf_entry_ok es -> reader_at r (leaf_image es ++ l) ->
  exists r', decode_leaf_entries (length es) r = Ok (es, r') /\ reader_at r' l.
Proof.
  intros H. revert r. induction H as [|e es ((_ & Hk) & _ & Hv) _ IH]; intros r Hat; cbn [decode_leaf_entries length].
  { by exists r. }
  cbn [leaf_image flat_map] in Hat. rewrite <-!app_assoc in Hat. unfold Reader_bytes16, Reader_bytes32, Reader_bytes32_capped.
  pose proof (zlen_nonneg (e_key e)). pose proof (zlen_nonneg (e_value e)).
  read_with Reader_u16_ok. read_with Reader_take_ok. read_with Reader_u32_ok. pass_if.
  read_with Reader_take_ok.
  edestruct IH as (r' & -> & Hat'); [eassumption|]. cbn [rbind]. exists r'. split; [|done]. by destruct e.
Qed.

Lemma decode_child_entries_ok es r l :
  Forall child_entry_ok es -> reader_at r (child_image es ++ l) ->
  exists r', decode_child_entries (length es) r = Ok (es, r') /\ reader_at r' l.
Proof.
  intros H. revert r. induction H as [|e es ((_ & Hk) & Hid & _) _ IH]; intros r Hat; cbn [decode_child_entries length].
  { by exists r. }
  cbn [child_image flat_map] in Hat. rewrite <-!app_assoc in Hat. unfold Reader_bytes16.
  pose proof (zlen_nonneg (e_key e)).
  read_with Reader_u16_ok. read_with Reader_take_ok. read_with (Reader_take_ok r1 (e_value e)); [unfold zlen; by rewrite Hid|].
  edestruct IH as (r' & -> & Hat'); [eassumption|]. cbn [rbind]. exists r'. split; [|done]. by destruct e.
Qed.

Lemma keys_increasing_sorted es : sorted (map e_key es) -> keys_increasing es = true.
Proof.
  induction es as [|e [|e' es] IH]; intros H; try done. apply sorted_cons_inv in H as [H Hf].
  cbn [keys_increasing]. cbn in Hf. foralls. rewrite bool_decide_eq_true_2 by done. by apply IH.
Qed.

Lemma leaf_image_ok es :
  Forall leaf_entry_ok es -> wf_bytes (leaf_image es) /\ zlen (leaf_image es) <= zlen es * 2 ^ 33.
Proof.
  induction 1 as [|e es ((Hk & Hkl) & Hv & Hvl) _ [IHw IHl]]; cbn [leaf_image flat_map].
  { split; [constructor | done]. }
  split; [rewrite !wf_bytes_app; split_and!; done || apply to_le_wf|].
  fold (leaf_image es). autorewrite with zlen. lia.
Qed.

Lemma child_image_ok es :
  Forall child_entry_ok es -> wf_bytes (child_image es) /\ zlen (child_image es) <= zlen es * 2 ^ 33.
Proof.
  induction 1 as [|e es ((Hk & Hkl) & Hv & Hvl) _ [IHw IHl]]; cbn [child_image flat_map].
  { split; [constructor | done]. }
  split; [rewrite !wf_bytes_app; split_and!; done || apply to_le_wf|].
  fold (child_image es). autorewrite with zlen. assert (zlen (e_value e) = 32) by (unfold zlen; by rewrite Hv). lia.
Qed.

(** The header: kind, order, entry count. *)
Definition node_header (n : Node) : bytes := [Node_kind_tag n] ++ to_le 2 order ++ to_le 2 (Node_len n).
Definition node_image (n : Node) : bytes :=
  node_header n ++ match n with Leaf es => leaf_image es | Internal c es => c ++ child_image es end.

Lemma Node_encode_image n : entries_ok n -> Node_len n < 2 ^ 16 -> Node_encode n order = Ok (node_image n).
Proof.
  intros [He Hc] Hlen. unfold Node_encode, node_image, node_header. cbv zeta.
  rewrite wrap_small by (pose proof (zlen_nonneg (Node_entries n)); destruct n; cbn in *; width).
  destruct n as [es|c es]; cbn [Node_entries] in He.
  - rewrite encode_leaf_entries_ok by done. cbn. by rewrite <-!app_assoc.
  - rewrite encode_child_entries_ok by done. cbn. by rewrite <-!app_assoc.
Qed.

Lemma node_image_ok n : entries_ok n -> Node_len n < 2 ^ 16 -> wf_bytes (node_image n) /\ zlen (node_image n) < 2 ^ 63.
Proof.
  intros [He Hc] Hlen.
  assert (Hh : wf_bytes (node_header n) /\ zlen (node_header n) = 5).
  { unfold node_header. rewrite !wf_bytes_app. autorewrite with zlen.
    split; [split_and!; try apply to_le_wf; apply Forall_singleton; destruct n; cbn; unfold NODE_LEAF, NODE_INTERNAL; width | done]. }
  destruct Hh as [Hhw Hhl]. unfold node_image. rewrite wf_bytes_app, zlen_app, Hhl.
  destruct n as [es|c es]; cbn [Node_entries Node_len] in *.
  - destruct (leaf_image_ok es He). split; [done | lia].
  - destruct Hc as [Hcl Hcw], (child_image_ok es He). rewrite wf_bytes_app, zlen_app. assert (zlen c = 32) by (unfold zlen; by rewrite Hcl).
    split; [done | lia].
Qed.

Lemma node_codec_ok n :
  entries_ok n -> Node_len n <= max_fanout -> Node_len n < 2 ^ 16 ->
  exists b, Node_encode n order = Ok b /\ wf_bytes b /\
    (sorted (map e_key (Node_entries n)) -> Node_decode b order max_fanout = Ok n).
Proof.
  intros Hn Hf Hlen. exists (node_image n). pose proof (node_image_ok n Hn Hlen) as [Hw Hz].
  split; [by apply Node_encode_image|]. split; [done|]. intros Hs. pose proof Hn as [He Hc]. clear Hn.
  assert (Hat := Reader_new_at _ Hz). unfold Node_decode. cbv zeta.
  generalize dependent (Reader_new (node_image n)). intros rd Hat.
  unfold node_image, node_header in Hat. rewrite <-!app_assoc in Hat. cbn [app] in Hat.
  pose proof (zlen_nonneg (Node_entries n)) as Hnn.
  assert (Hnl : zlen (Node_entries n) = Node_len n) by by destruct n.
  assert (is_u16 (Node_len n)) by width.
  read_with Reader_u8_ok. read_with Reader_u16_ok. rewrite Z.eqb_refl. cbn [negb].
  read_with Reader_u16_ok. pass_if. rewrite <-Hnl, to_nat_zlen.
  destruct n as [es|c es]; cbn [Node_kind_tag Node_entries] in *; cbn [Z.eqb NODE_LEAF NODE_INTERNAL Pos.eqb].
  - rewrite <-(app_nil_r (leaf_image es)) in Hat2.
    destruct (decode_leaf_entries_ok es _ [] He Hat2) as (r' & -> & Hat'). cbn [rbind].
    rewrite keys_increasing_sorted by done. cbn [negb]. by rewrite (Reader_done_spec _ _ Hat').
  - destruct Hc as [Hcl Hcw]. read_with (Reader_take_ok r1 c); [unfold zlen; by rewrite Hcl|].
    rewrite <-(app_nil_r (child_image es)) in Hat3.
    destruct (decode_child_entries_ok es _ [] He Hat3) as (r' & -> & Hat'). cbn [rbind].
    rewrite keys_increasing_sorted by done. cbn [negb]. by rewrite (Reader_done_spec _ _ Hat').
Qed.

(** The node codec: a well-formed node (keys strictly increasing, key and
    value lengths within their prefixes, 32-byte children) with at most
    [max_fanout] entries encodes without a panic to a payload of bytes, and
    decoding that payload under the same order returns the node. *)
Theorem node_decode_encode n :
  node_ok n -> Node_len n <= max_fanout -> Node_len n < 2 ^ 16 ->
  exists b, Node_encode n order = Ok b /\ wf_bytes b /\ Node_decode b order max_fanout = Ok n.
Proof.
  intros [Hn Hs] Hf Hlen. destruct (node_codec_ok n Hn Hf Hlen) as (b & ? & ? & Hd). exists b. by auto.
Qed.
End Codec.

Lemma node_decode_encode_witness :
  exists b, Node_encode (Leaf [{| e_key := [1]; e_value := [9] |}; {| e_key := [1; 0]; e_value := [] |}]) 64 = Ok b /\
    wf_bytes b /\
    Node_decode b 64 4096 = Ok (Leaf [{| e_key := [1]; e_value := [9] |}; {| e_key := [1; 0]; e_value := [] |}]).
Proof.
  apply (node_decode_encode 64 4096); [by split | split; [split|] | by vm_compute | by vm_compute].
  - repeat constructor; vm_compute; done.
  - done.
  - repeat constructor.
Defined.

(** * The provider's contract *)

(** Payloads are immutable once bound, and an unbound id becomes bound by a
    put.  Nothing is said about an id that is bound to other bytes: then the
    content ids have collided. *)
Class ProviderLaws (P : Type) `{ObjectProvider P} : Type := {
  prov_ok : P -> Prop;
  put_ok p id b : prov_ok p -> prov_ok (prov_put p id b);
  put_other p id b id' : prov_ok p -> id <> id' -> prov_get (prov_put p id b) id' = prov_get p id';
  put_keeps p id b c :
    prov_ok p -> prov_get p id = Ok (Some c) -> prov_get (prov_put p id b) id = Ok (Some c);
  put_fresh p id b :
    prov_ok p -> prov_get p id = Ok None -> prov_get (prov_put p id b) id = Ok (Some b)
}.

(** The object index of the store below a transaction: what is fetched is
    indexed, and what is indexed is not reported absent. *)
Definition store_coherent {E} (tx : Tx E) : Prop :=
  (forall id c, tx_fetch tx id = Ok (Some c) -> tx_indexed tx id = true) /\
  (forall id, tx_indexed tx id = true -> tx_fetch tx id <> Ok None).

#[global] Program Instance Tx_laws {E} : ProviderLaws (Tx E) := { prov_ok := store_coherent }.
Next Obligation. intros E tx id b Hc. cbn. unfold Tx_stage. by destruct (_ || _). Qed.
Next Obligation.
  intros E tx id b id' _ Hne. cbn. unfold fetch_pending_or_store, Tx_stage. destruct (_ || _); [done|].
  cbn. by rewrite lookup_insert_ne.
Qed.
Next Obligation.
  intros E tx id b c [Hf Hi] Hg. cbn in *. unfold fetch_pending_or_store, Tx_stage in *. cbn [with_asked tx_pending tx_indexed].
  destruct (tx_pending tx !! id) eqn:Ep.
  - rewrite bool_decide_eq_true_2 by done. cbn [orb]. cbn. by rewrite Ep.
  - apply map_err_Ok_inv in Hg as Hg'. apply Hf in Hg'. rewrite Hg', orb_true_r. cbn. rewrite Ep. done.
Qed.
Next Obligation.
  intros E tx id b [Hf Hi] Hg. cbn in *. unfold fetch_pending_or_store, Tx_stage in *. cbn [with_asked tx_pending tx_indexed].
  destruct (tx_pending tx !! id) eqn:Ep; [done|]. apply map_err_Ok_inv in Hg.
  rewrite bool_decide_eq_false_2 by (intros [? ?]; done). cbn [orb].
  destruct (tx_indexed tx id) eqn:Ei; [by apply Hi in Ei|]. cbn. by rewrite lookup_insert_eq.
Qed.

Lemma Tx_empty_ok : prov_ok Tx_empty.
Proof. by split. Qed.

(** * Staging *)

Section Staging.
Context {P : Type} `{ProviderLaws P} (content_id : bytes -> ChunkId) (order max_fanout : Z).
Context (Horder : 0 <= order < 2 ^ 16) (Hid : forall b, wf_id (content_id b)).
Implicit Types (p : P) (n : Node).

(** The provider after staging the payloads [l] in order. *)
Definition staged p (l : list bytes) : P := fold_left (fun p b => prov_put p (content_id b) b) l p.

(** Every payload of [l] reads back by its content id: no id is zero, none
    has collided. *)
Definition reads_back p (l : list bytes) : Prop :=
  Forall (fun b => ChunkId_is_zero (content_id b) = false /\ prov_get p (content_id b) = Ok (Some b)) l.

(** Every node of [p] is a node of [p']. *)
Definition sub p p' : Prop :=
  forall id n, fetch order max_fanout p id = Ok n -> fetch order max_fanout p' id = Ok n.

Lemma staged_app p l l' : staged p (l ++ l') = staged (staged p l) l'.
Proof. apply fold_left_app. Qed.
Lemma reads_back_app p l l' : reads_back p (l ++ l') <-> reads_back p l /\ reads_back p l'.
Proof. apply Forall_app. Qed.

Lemma staged_ok p l : prov_ok p -> prov_ok (staged p l).
Proof. revert p. induction l as [|b l IH]; intros p Hp; [done|]. by apply IH, put_ok. Qed.

Lemma staged_keeps p l id c : prov_ok p -> prov_get p id = Ok (Some c) -> prov_get (staged p l) id = Ok (Some c).
Proof.
  revert p. induction l as [|b l IH]; intros p Hp Hg; [done|]. cbn. apply IH; [by apply put_ok|].
  destruct (decide (content_id b = id)) as [->|]; [by apply put_keeps | by rewrite put_other].
Qed.

Lemma sub_refl p : sub p p.
Proof. by intros id n. Qed.
Lemma sub_trans p p' p'' : sub p p' -> sub p' p'' -> sub p p''.
Proof. intros H1 H2 id n E. by apply H2, H1. Qed.

Lemma fetch_Ok p id n :
  fetch order max_fanout p id = Ok n <->
  ChunkId_is_zero id = false /\ exists b, prov_get p id = Ok (Some b) /\ Node_decode b order max_fanout = Ok n.
Proof.
  unfold fetch. destruct (ChunkId_is_zero id); [split; [done | by intros [? _]]|]. split.
  - intros E. split; [done|]. unfold safe in E. destruct (prov_get p id) as [[b|]|]; cbn in E; try done.
    apply map_err_Ok_inv in E. by exists b.
  - intros [_ (b & -> & E)]. cbn. by rewrite E.
Qed.

Lemma staged_sub p l : prov_ok p -> sub p (staged p l).
Proof.
  intros Hp id n. rewrite !fetch_Ok. intros [Hz (b & Hg & Hd)]. split; [done|]. exists b. split; [|done].
  by apply staged_keeps.
Qed.

(** Staging a node: the keys need only be sorted for it to be fetched. *)
Lemma stage_node_ok p n :
  entries_ok n -> Node_len n <= max_fanout -> Node_len n < 2 ^ 16 ->
  exists b, stage_node content_id order p n = Ok (content_id b, staged p [b]) /\
    forall p', reads_back p' [b] -> sorted (map e_key (Node_entries n)) ->
      fetch order max_fanout p' (content_id b) = Ok n.
Proof.
  intros Hn Hf Hl. destruct (node_codec_ok order max_fanout Horder n Hn Hf Hl) as (b & E & _ & Hd).
  exists b. unfold stage_node, Node_id. rewrite E. cbn [rbind]. split; [done|].
  intros p' Hr Hs. apply Forall_singleton in Hr as [Hz Hg]. apply fetch_Ok. split; [done|]. exists b. by auto.
Qed.

(** Payloads read back when no two of them, and none of them and a bound
    payload, share an id. *)
Lemma staged_reads_back p l :
  prov_ok p -> Forall (fun b => ChunkId_is_zero (content_id b) = false) l ->
  (forall a b, a ∈ l -> b ∈ l -> content_id a = content_id b -> a = b) ->
  Forall (fun b => prov_get p (content_id b) = Ok None \/ prov_get p (content_id b) = Ok (Some b)) l ->
  reads_back (staged p l) l.
Proof.
  revert p. induction l as [|b l IH]; intros p Hp Hz Hinj Hb; [constructor|]. foralls.
  assert (Hput : prov_get (prov_put p (content_id b) b) (content_id b) = Ok (Some b)).
  { match goal with H : _ \/ _ |- _ => destruct H end; [by apply put_fresh | by apply put_keeps]. }
  change (staged p (b :: l)) with (staged (prov_put p (content_id b) b) l).
  apply Forall_cons_2; [split; [done|]; apply staged_keeps; [by apply put_ok | done]|].
  apply IH; [by apply put_ok | done | intros a c ??; apply Hinj; apply elem_of_cons; by right|].
  apply list.Forall_forall. intros a Ha. pose proof (proj1 (list.Forall_forall _ _) H2 a Ha) as Hga.
  destruct (decide (content_id b = content_id a)) as [E|]; [|by rewrite put_other].
  assert (b = a) as -> by (apply Hinj; [apply elem_of_cons; by left | apply elem_of_cons; by right | done]). by right.
Qed.
End Staging.

(** * A concrete provider and content id, for the examples *)

(** An append-only log of objects; the oldest binding of an id counts. *)
Definition Log : Type := list (ChunkId * bytes).
Fixpoint Log_get (p : Log) (id : ChunkId) : option bytes :=
  match p with
  | [] => None
  | (id', b) :: p' => if decide (id' = id) then Some b else Log_get p' id
  end.
#[global] Instance Log_provider : ObjectProvider Log := {
  prov_get p id := Ok (Log_get p id);
  prov_put p id b := p ++ [(id, b)]
}.
#[global] Program Instance Log_laws : ProviderLaws Log := { prov_ok := fun _ => True }.
Next Obligation. done. Qed.
Next Obligation.
  intros p id b id' _ Hne. cbn. f_equal. induction p as [|[i c] p IH]; cbn; [by rewrite decide_False|]. by rewrite IH.
Qed.
Next Obligation.
  intros p id b c _ [= Hg]. cbn. f_equal. induction p as [|[i c'] p IH]; cbn in *; [done|].
  case_decide; [done | by apply IH].
Qed.
Next Obligation.
  intros p id b _ [= Hg]. cbn. f_equal. induction p as [|[i c'] p IH]; cbn in *; [by rewrite decide_True|].
  case_decide; [done | by apply IH].
Qed.

Lemma Log_ok (p : Log) : prov_ok p.
Proof. exact I. Qed.

(** What a run staged can be read off the log. *)
Lemma Log_staged content_id (p : Log) l : staged content_id p l = p ++ map (fun b => (content_id b, b)) l.
Proof.
  revert p. induction l as [|b l IH]; intros p; [by rewrite app_nil_r|].
  change (staged content_id p (b :: l)) with (staged content_id (p ++ [(content_id b, b)]) l).
  by rewrite IH, <-app_assoc.
Qed.
Lemma Log_payloads {A E} content_id (out : result E (A * Log)) (x : A) (p : Log) l :
  out = Ok (x, staged content_id p l) ->
  l = match out with Ok (_, q) => map snd (drop (length p) q) | Err _ => [] end.
Proof. intros ->. rewrite Log_staged, drop_app_length, map_map. cbn. by rewrite map_id. Qed.

Definition reads_back_check {P} `{ObjectProvider P} (content_id : bytes -> ChunkId) (p : P) (l : list bytes) : bool :=
  forallb (fun b => negb (ChunkId_is_zero (content_id b)) &&
    match prov_get p (content_id b) with Ok (Some b') => bool_decide (b' = b) | _ => false end) l.
Lemma reads_back_check_sound {P} `{ObjectProvider P} content_id (p : P) l :
  reads_back_check content_id p l = true -> reads_back content_id p l.
Proof.
  unfold reads_back_check, reads_back. rewrite forallb_forall, List.Forall_forall. intros H1 b Hb. apply H1 in Hb.
  apply andb_true_iff in Hb as [Hz Hg]. split; [by destruct (ChunkId_is_zero _)|].
  destruct (prov_get p (content_id b)) as [[b'|]|]; try done. apply bool_decide_eq_true in Hg. by subst.
Qed.

(** The outcome of a run that succeeds, for states built by the operations. *)
Definition root_of {E P} (out : result E (ChunkId * P)) : ChunkId :=
  match out with Ok (id, _) => id | Err _ => ChunkId_ZERO end.
Definition state_of {E P} (p : P) (out : result E (ChunkId * P)) : P :=
  match out with Ok (_, p') => p' | Err _ => p end.

(** The payloads of a closed run [E] on a log read back. *)
Ltac eval_reads_back E := rewrite (Log_payloads _ _ _ _ _ E); apply reads_back_check_sound; vm_compute; reflexivity.
