(* ===== verification/BTreeSpec.v ===== *)
(** The abstract view of [store/index.rs]: [tree] relates a node id in a
    provider to the sorted list of key/value pairs it stands for, with the
    shape invariants of the code (ranges, sizes, key order); [index] is a
    root, the empty tree included.  [get], [insert] and [remove] implement
    lookup, insertion and deletion of a finite map, and never disturb the
    trees of earlier roots. *)
From S2P Require Import Prelude Binomial Codec Rank Repr Descriptor Context Keys BTree BTreeNode.

(** * Trees *)

(** Bounds on node sizes: entries of a leaf at most [sh_leaf], separators of
    an internal node at least [sh_min] (and at most the order). *)
Record Shape : Type := { sh_leaf : Z; sh_min : Z }.

Definition pairs (es : list Entry) : kvs := map (fun e => (e_key e, e_value e)) es.
Definition eslots (es : list Entry) : list Slot := map (fun e => (Some (e_key e), e_value e)) es.

(** Where the range of the slot before [ss] ends. *)
Definition next_lo (ss : list Slot) (hi : option bytes) : option bytes :=
  match ss with (s, _) :: _ => s | [] => hi end.

(** The children of an internal node, each over its own range. *)
Fixpoint kids (T : ChunkId -> option bytes -> option bytes -> kvs -> Prop)
  (ss : list Slot) (hi : option bytes) (m : kvs) : Prop :=
  match ss with
  | [] => m = []
  | (lo, c) :: ss' => exists m1 m2, m = m1 ++ m2 /\ T c lo (next_lo ss' hi) m1 /\ kids T ss' hi m2
  end.

Lemma map_fst_pairs es : map fst (pairs es) = map e_key es.
Proof. unfold pairs. by rewrite map_map. Qed.
Lemma zlen_pairs es : zlen (pairs es) = zlen es.
Proof. apply zlen_map. Qed.

Section Kids.
Context (T : ChunkId -> option bytes -> option bytes -> kvs -> Prop).

Lemma next_lo_app s1 s2 hi : next_lo (s1 ++ s2) hi = next_lo s1 (next_lo s2 hi).
Proof. by destruct s1 as [|[??] ?]. Qed.

Lemma kids_app s1 s2 hi m :
  kids T (s1 ++ s2) hi m <-> exists m1 m2, m = m1 ++ m2 /\ kids T s1 (next_lo s2 hi) m1 /\ kids T s2 hi m2.
Proof.
  revert m. induction s1 as [|[lo c] s1 IH]; intros m; cbn [kids app].
  { split; [intros; by exists [], m | by intros (? & ? & -> & -> & ?)]. }
  setoid_rewrite IH. setoid_rewrite next_lo_app. split.
  - intros (m1 & ? & -> & Ht & m2 & m3 & -> & H2 & H3). exists (m1 ++ m2), m3. rewrite app_assoc.
    split_and!; try done. by exists m1, m2.
  - intros (? & m3 & -> & (m1 & m2 & -> & Ht & H2) & H3). exists m1, (m2 ++ m3). rewrite app_assoc.
    split_and!; try done. by exists m2, m3.
Qed.

Context (Hwithin : forall c lo hi m, T c lo hi m -> within lo hi m /\ sorted (map fst m) /\ m <> []).

(** Nonempty children make a nonempty, sorted list inside the range. *)
Lemma kids_within lo c es hi m :
  kids T ((lo, c) :: eslots es) hi m -> within lo hi m /\ sorted (map fst m) /\ m <> [].
Proof.
  revert lo c m. induction es as [|e es IH]; intros lo c m (m1 & m2 & -> & Ht & Hk); cbn [next_lo eslots map] in *.
  { cbn in Hk. subst. rewrite app_nil_r. by eapply Hwithin. }
  destruct (Hwithin _ _ _ _ Ht) as (Hw1 & Hs1 & Hn1), (IH _ _ _ Hk) as (Hw2 & Hs2 & Hn2).
  destruct m1 as [|kv1 m1]; [done|]. destruct m2 as [|kv2 m2]; [done|]. set (s := e_key e) in *.
  assert (Hlo : lo_le lo (Some s)).
  { apply Forall_cons_1 in Hw1 as [[Ha Hb] _]. destruct lo; cbn in *; [korder | done]. }
  assert (Hhi : hi_le (Some s) hi).
  { apply Forall_cons_1 in Hw2 as [[Ha Hb] _]. destruct hi; cbn in *; [korder | done]. }
  split_and!; [apply within_app; split | rewrite map_app; apply (sorted_app _ _ s) | done]; try done.
  - by apply (within_mono lo (Some s)); auto with efs.
  - by apply (within_mono (Some s) hi); auto with efs.
  - rewrite Forall_fmap. eapply Forall_impl; [exact Hw1|]. by intros ? [_ ?].
  - rewrite Forall_fmap. eapply Forall_impl; [exact Hw2|]. by intros ? [? _].
Qed.

(** The separators between nonempty children increase. *)
Lemma kids_seps_sorted lo c es hi m :
  kids T ((lo, c) :: eslots es) hi m -> sorted (map e_key es).
Proof.
  revert lo c m. induction es as [|e es IH]; intros lo c m (m1 & m2 & -> & _ & Hk); [constructor|].
  cbn [map eslots] in *. pose proof (IH _ _ _ Hk) as Hs. destruct es as [|e' es]; [by repeat constructor|].
  destruct Hk as (m3 & m4 & -> & Ht & _). cbn [next_lo eslots map] in Ht.
  destruct (Hwithin _ _ _ _ Ht) as (Hw & _ & Hn). destruct m3 as [|kv m3]; [done|].
  apply Forall_cons_1 in Hw as [[Ha Hb] _]. cbn in Ha, Hb. assert (klt (e_key e) (e_key e')) by korder.
  cbn [map] in *. apply sorted_cons_inv in Hs as [Hs Hf]. constructor; [by constructor|]. constructor; [done|].
  eapply Forall_impl; [exact Hf|]. cbn. intros. korder.
Qed.
End Kids.

(** ** Searching a node *)

Lemma pairs_app es1 es2 : pairs (es1 ++ es2) = pairs es1 ++ pairs es2.
Proof. apply map_app. Qed.
Lemma eslots_app es1 es2 : eslots (es1 ++ es2) = eslots es1 ++ eslots es2.
Proof. apply map_app. Qed.

Lemma length_eslots es : length (eslots es) = length es.
Proof. apply length_map. Qed.

Abbreviation entries_lt es k := (Forall (fun e => klt (e_key e) k) es).
Abbreviation entries_gt es k := (Forall (fun e => klt k (e_key e)) es).

Lemma pairs_lt es k : entries_lt es k -> keys_lt (pairs es) k.
Proof. intros. unfold pairs. by rewrite Forall_fmap. Qed.
Lemma pairs_gt es k : entries_gt es k -> keys_gt (pairs es) k.
Proof. intros. unfold pairs. by rewrite Forall_fmap. Qed.

Lemma sorted_entries_gt k l : Forall (klt k) (map e_key l) -> entries_gt l k.
Proof. by rewrite Forall_fmap. Qed.

(** What a binary search of a sorted node finds. *)
Lemma search_spec key es :
  sorted (map e_key es) ->
  match search key es with
  | Found i => exists es1 e es2, es = es1 ++ e :: es2 /\ length es1 = i /\ e_key e = key /\
      entries_lt es1 key /\ entries_gt es2 key
  | Missing i => exists es1 es2, es = es1 ++ es2 /\ length es1 = i /\ entries_lt es1 key /\ entries_gt es2 key
  end.
Proof.
  induction es as [|e es IH]; intros Hs; cbn [search].
  { by exists [], []. }
  cbn [map] in Hs. apply sorted_cons_inv in Hs as [Hs Hf]. apply sorted_entries_gt in Hf.
  destruct (cmp_key_spec (e_key e) key) as [E|Hlt|Hgt].
  - exists [], e, es. subst. by split_and!.
  - specialize (IH Hs). destruct (search key es) as [i|i].
    + destruct IH as (es1 & e' & es2 & -> & <- & ? & ? & ?). exists (e :: es1), e', es2. split_and!; try done. by constructor.
    + destruct IH as (es1 & es2 & -> & <- & ? & ?). exists (e :: es1), es2. split_and!; try done. by constructor.
  - exists [], (e :: es). split_and!; try done. constructor; [done|]. eapply Forall_impl; [exact Hf|]. cbn. intros. korder.
Qed.

Lemma get_idx_middle {E A} (l1 : list A) x l2 : get_idx (E := E) (l1 ++ x :: l2) (Z.of_nat (length l1)) = Ok x.
Proof. unfold get_idx. by rewrite Nat2Z.id, list_lookup_middle. Qed.

Lemma child_id_ok e : wf_id (e_value e) -> child_id e = Ok (e_value e).
Proof. intros [Hl _]. unfold child_id, ChunkId_from_bytes, zlen. by rewrite Hl. Qed.

(** Splits the slots at the one whose range holds the key. *)
Record slot_at (c : ChunkId) (es : list Entry) (lo hi : option bytes) (key : bytes)
  (slot : option nat) (child : ChunkId) (s1 s2 : list Slot) (s : option bytes) : Prop := {
  sa_split : (lo, c) :: eslots es = s1 ++ (s, child) :: s2;
  sa_slot : match slot with
    | None => s1 = [] /\ s = lo /\ child = c /\ s2 = eslots es
    | Some i => exists es1 e es2, es = es1 ++ e :: es2 /\ length es1 = i /\ s1 = (lo, c) :: eslots es1 /\
        s = Some (e_key e) /\ child = e_value e /\ s2 = eslots es2
    end;
  sa_above : above s key;
  sa_below : below (next_lo s2 hi) key
}.

Lemma child_slot_spec key c es lo hi :
  sorted (map e_key es) -> Forall child_entry_ok es -> above lo key -> below hi key ->
  exists slot child s1 s2 s, child_slot key c es = Ok (slot, child) /\ slot_at c es lo hi key slot child s1 s2 s.
Proof.
  intros Hs Hok Hlo Hhi. pose proof (search_spec key es Hs) as Hsp. unfold child_slot.
  destruct (search key es) as [i|[|i]].
  - destruct Hsp as (es1 & e & es2 & -> & <- & Hk & _ & Hgt). apply Forall_app in Hok as [_ Hok]. foralls.
    rewrite get_idx_middle. cbn [rbind]. rewrite child_id_ok by apply H. cbn [rbind].
    eexists _, _, ((lo, c) :: eslots es1), (eslots es2), (Some (e_key e)). split; [done|].
    split; [by rewrite eslots_app | by exists es1, e, es2 | cbn; rewrite Hk; korder |].
    destruct es2; cbn; [done|]. by foralls.
  - destruct Hsp as (es1 & es2 & -> & Hl & _ & Hgt). destruct es1; [|done]. cbn [app].
    eexists _, _, [], (eslots es2), lo. split; [done|]. split; try done. destruct es2; cbn; [done|]. by foralls.
  - destruct Hsp as (es1 & es2 & -> & Hl & Hlt & Hgt).
    destruct es1 as [|e es1' _] using rev_ind; [done|]. rewrite length_app in Hl. cbn in Hl.
    assert (length es1' = i) as <- by lia. apply Forall_app in Hlt as [_ Hlt], Hok as [Hok _]. apply Forall_app in Hok as [_ Hok].
    foralls. rewrite <-app_assoc. cbn [app]. rewrite get_idx_middle. cbn [rbind]. rewrite child_id_ok by apply H1. cbn [rbind].
    eexists _, _, ((lo, c) :: eslots es1'), (eslots es2), (Some (e_key e)). split; [done|].
    split; [by rewrite eslots_app | by exists es1', e, es2 | cbn; korder |].
    destruct es2; cbn; [done|]. by foralls.
Qed.

Lemma kids_at (T : ChunkId -> option bytes -> option bytes -> kvs -> Prop) c es lo hi key slot child s1 s2 s m :
  (forall c lo hi m, T c lo hi m -> within lo hi m /\ sorted (map fst m) /\ m <> []) ->
  slot_at c es lo hi key slot child s1 s2 s -> kids T ((lo, c) :: eslots es) hi m ->
  exists m1 mc m2, m = m1 ++ mc ++ m2 /\ keys_lt m1 key /\ keys_gt m2 key /\
    kids T s1 s m1 /\ T child s (next_lo s2 hi) mc /\ kids T s2 hi m2.
Proof.
  intros HT [Hsp Hsl Ha Hb] Hk. rewrite Hsp in Hk. apply kids_app in Hk as (m1 & m' & -> & H1 & mc & m2 & -> & Hc & H2).
  exists m1, mc, m2. cbn [next_lo] in H1. split_and!; try done.
  - destruct slot as [i|]; [|destruct Hsl as (-> & _); cbn in H1; by subst].
    destruct Hsl as (es1 & e & es2 & _ & _ & -> & -> & _). apply kids_within in H1 as [Hw _]; [|done].
    eapply within_lt; [exact Hw | exact Ha].
  - assert (exists es2, s2 = eslots es2) as [es2 ->].
    { destruct slot; [destruct Hsl as (? & ? & es2 & Hsl) | destruct Hsl as (? & ? & ? & ->)]; [exists es2; apply Hsl | by eexists]. }
    destruct es2 as [|e es2]; [cbn in H2; by subst|]. cbn [eslots map] in *. apply kids_within in H2 as [Hw _]; [|done].
    eapply within_gt; [exact Hw | exact Hb].
Qed.

(** ** Trees *)

Section Trees.
Context {P : Type} `{ProviderLaws P} (content_id : bytes -> ChunkId) (order max_fanout : Z).
Context (Horder : 2 <= order < 2 ^ 15) (Hfan : order <= max_fanout).
Context (Hid : forall b, wf_id (content_id b)).
Implicit Types (p : P) (sh : Shape) (n : nat) (m : kvs).

(** [tree p sh n id lo hi m]: the node [id], of height at most [n], stands
    for [m]; its keys are in the range from [lo] to [hi]. *)
Fixpoint tree p sh (n : nat) (id : ChunkId) (lo hi : option bytes) m : Prop :=
  wf_id id /\
  ((exists es, fetch order max_fanout p id = Ok (Leaf es) /\ node_ok (Leaf es) /\
      0 < zlen es <= sh_leaf sh /\ m = pairs es /\ within lo hi m) \/
   match n with
   | O => False
   | S n' => exists c es, fetch order max_fanout p id = Ok (Internal c es) /\ node_ok (Internal c es) /\
       sh_min sh <= zlen es <= order /\ kids (tree p sh n') ((lo, c) :: eslots es) hi m
   end).

Lemma tree_wf p sh n id lo hi m : tree p sh n id lo hi m -> wf_id id.
Proof. by destruct n; intros [? _]. Qed.

Lemma tree_inv p sh n id lo hi m :
  tree p sh n id lo hi m ->
  (exists es, fetch order max_fanout p id = Ok (Leaf es) /\ node_ok (Leaf es) /\ 0 < zlen es <= sh_leaf sh /\
     m = pairs es /\ within lo hi m) \/
  (exists n' c es, n = S n' /\ fetch order max_fanout p id = Ok (Internal c es) /\ node_ok (Internal c es) /\
     sh_min sh <= zlen es <= order /\ kids (tree p sh n') ((lo, c) :: eslots es) hi m).
Proof. destruct n as [|n]; intros [_ [Hl|Hi]]; [by left | done | by left |]. destruct Hi as (c & es & Hi). right. by exists n, c, es. Qed.

Lemma tree_leaf p sh n id lo hi es :
  wf_id id -> fetch order max_fanout p id = Ok (Leaf es) -> node_ok (Leaf es) -> 0 < zlen es <= sh_leaf sh ->
  within lo hi (pairs es) -> tree p sh n id lo hi (pairs es).
Proof. intros. destruct n; (split; [done|]); left; by exists es. Qed.

Lemma tree_within p sh n id lo hi m : tree p sh n id lo hi m -> within lo hi m /\ sorted (map fst m) /\ m <> [].
Proof.
  revert id lo hi m. induction n as [|n IH]; intros id lo hi m [_ [(es & _ & Hok & Hl & -> & Hw)|Hi]]; try done.
  1, 2: split_and!; [done | rewrite map_fst_pairs; apply Hok | intros E; rewrite <-zlen_pairs, E in Hl; unfold zlen in Hl; cbn in Hl; lia].
  destruct Hi as (c & es & _ & _ & _ & Hk). by eapply kids_within.
Qed.

(** ** Stability *)

Lemma kids_mono (T T' : ChunkId -> option bytes -> option bytes -> kvs -> Prop) ss hi m :
  (forall c lo hi m, T c lo hi m -> T' c lo hi m) -> kids T ss hi m -> kids T' ss hi m.
Proof.
  intros HT. revert m. induction ss as [|[lo c] ss IH]; intros m; [done|].
  intros (m1 & m2 & -> & Ht & Hk). exists m1, m2. split_and!; auto.
Qed.

Lemma tree_sub p p' sh n id lo hi m :
  sub order max_fanout p p' -> tree p sh n id lo hi m -> tree p' sh n id lo hi m.
Proof.
  intros Hs. revert id lo hi m. induction n as [|n IH]; intros id lo hi m [Hw [(es & E & ?)|Hi]]; try done.
  1, 2: split; [done|]; left; exists es; split; [by apply Hs | done].
  destruct Hi as (c & es & E & Hok & Hl & Hk). split; [done|]. right. exists c, es. split_and!; try done; [by apply Hs | lia | lia |].
  eapply kids_mono; [|exact Hk]. intros. by apply IH.
Qed.

Lemma tree_height p sh n id lo hi m : tree p sh n id lo hi m -> tree p sh (S n) id lo hi m.
Proof.
  revert id lo hi m. induction n as [|n IH]; intros id lo hi m [Hw [?|Hi]]; try done.
  1, 2: split; [done|]; by left.
  destruct Hi as (c & es & E & Hok & Hl & Hk). split; [done|]. right. exists c, es. split_and!; try done; try lia.
  eapply kids_mono; [|exact Hk]. intros. by apply IH.
Qed.

Lemma kids_widen (T : ChunkId -> option bytes -> option bytes -> kvs -> Prop) ss hi hi' m :
  (forall c lo hi hi' m, hi_le hi hi' -> T c lo hi m -> T c lo hi' m) ->
  hi_le hi hi' -> kids T ss hi m -> kids T ss hi' m.
Proof.
  intros HT Hhi. revert m. induction ss as [|[lo c] ss IH]; intros m; [done|].
  intros (m1 & m2 & -> & Ht & Hk). exists m1, m2. split_and!; auto. eapply HT; [|exact Ht].
  destruct ss as [|[s ?] ?]; cbn; auto with efs.
Qed.

Lemma tree_widen p sh n id lo hi lo' hi' m :
  lo_le lo' lo -> hi_le hi hi' -> tree p sh n id lo hi m -> tree p sh n id lo' hi' m.
Proof.
  revert id lo hi lo' hi' m. induction n as [|n IH]; intros id lo hi lo' hi' m Hlo Hhi [Hw [(es & E & Hok & Hl & -> & Hwi)|Hi]]; try done.
  1, 2: split; [done|]; left; exists es; split_and!; try done; try lia; by eapply within_mono.
  destruct Hi as (c & es & E & Hok & Hl & Hk). split; [done|]. right. exists c, es. split_and!; try done; try lia.
  apply (kids_widen _ _ hi hi'); [intros; eapply IH; eauto with efs | done |].
  destruct Hk as (m1 & m2 & -> & Ht & Hk). exists m1, m2. split_and!; try done. eapply IH; eauto with efs.
Qed.

(** ** Lookup *)

Lemma assoc_pairs_found es1 e es2 key :
  entries_lt es1 key -> e_key e = key -> assoc key (pairs (es1 ++ e :: es2)) = Some (e_value e).
Proof.
  intros Hlt <-. rewrite pairs_app, assoc_app_r by (apply keys_lt_ne, pairs_lt, Hlt). cbn. by rewrite decide_True.
Qed.
Lemma assoc_pairs_missing es1 es2 key :
  entries_lt es1 key -> entries_gt es2 key -> assoc key (pairs (es1 ++ es2)) = None.
Proof.
  intros Hlt Hgt. rewrite pairs_app, assoc_app_r by (apply keys_lt_ne, pairs_lt, Hlt).
  apply assoc_None, keys_gt_ne, pairs_gt, Hgt.
Qed.

Lemma get_loop_ok p sh n levels id lo hi m key :
  (n < levels)%nat -> tree p sh n id lo hi m -> above lo key -> below hi key ->
  get_loop order max_fanout levels p id key = Ok (assoc key m).
Proof.
  revert n id lo hi m. induction levels as [|levels IH]; intros n id lo hi m Hn Ht Hlo Hhi; [lia|]. cbn [get_loop].
  apply tree_inv in Ht as [(es & -> & Hok & _ & -> & _)|(n' & c & es & -> & -> & Hok & _ & Hk)]; cbn [rbind].
  - pose proof (search_spec key es (nok_sorted _ Hok)) as Hsp. destruct (search key es) as [i|i].
    + destruct Hsp as (es1 & e & es2 & -> & <- & Hke & Hlt & Hgt). rewrite get_idx_middle. cbn [rbind].
      by rewrite assoc_pairs_found.
    + destruct Hsp as (es1 & es2 & -> & <- & Hlt & Hgt). by rewrite assoc_pairs_missing.
  - destruct (child_slot_spec key c es lo hi) as (slot & child & s1 & s2 & s & -> & Hat); [apply Hok | apply Hok | done..|].
    destruct (kids_at _ _ _ _ _ _ _ _ _ _ _ _ (tree_within p sh n') Hat Hk) as (m1 & mc & m2 & -> & Hlt & Hgt & _ & Hc & _).
    cbn [rbind].
    rewrite (IH n' child s (next_lo s2 hi) mc); [|lia|exact Hc|apply Hat|apply Hat].
    rewrite assoc_app_r by auto with efs. by rewrite assoc_app_l by auto with efs.
Qed.

(** ** Staging the two halves of an update *)

(** The sizes a tree may have under the format: every node can be decoded,
    and a leaf grown by one splits in two that fit. *)
Definition shape_ok sh : Prop :=
  order <= sh_leaf sh <= max_fanout /\ sh_leaf sh < 2 ^ 16 - 1 /\ 0 <= sh_min sh <= 1.

(** A subtree after an update: one node, or two around a separator. *)
Definition grown p sh n (id : ChunkId) (promote : Promotion) (lo hi : option bytes) m : Prop :=
  match promote with
  | None => tree p sh n id lo hi m
  | Some (pkey, right_id) =>
      exists m1 m2, m = m1 ++ m2 /\ tree p sh n id lo (Some pkey) m1 /\ tree p sh n right_id (Some pkey) hi m2
  end.

Definition promotion_ok (promote : Promotion) : Prop :=
  match promote with Some (pkey, right_id) => key_ok pkey /\ wf_id right_id | None => True end.

(** The outcome of an update from [p]: what it staged, and that wherever
    this reads back the new subtree stands for [m], provided [pre] holds
    there. *)
Definition updates p sh n lo hi m (pre : P -> Prop) (out : tree_outcome (ChunkId * Promotion * P)) : Prop :=
  exists id promote l, out = Ok (id, promote, staged content_id p l) /\ wf_id id /\ promotion_ok promote /\
    forall p', pre p' -> reads_back content_id p' l -> grown p' sh n id promote lo hi m.

Lemma updates_weaken p sh n lo hi m (pre pre' : P -> Prop) out :
  (forall p', pre' p' -> pre p') -> updates p sh n lo hi m pre out -> updates p sh n lo hi m pre' out.
Proof. intros Hpre (id & promote & l & ? & ? & ? & ?). exists id, promote, l. auto 10. Qed.

(** An update that goes on from what was staged. *)
Lemma updates_staged p l sh n lo hi m (pre : P -> Prop) out :
  updates (staged content_id p l) sh n lo hi m (fun p' => pre p' /\ reads_back content_id p' l) out ->
  updates p sh n lo hi m pre out.
Proof.
  intros (id & promote & l' & -> & ? & ? & Hg). exists id, promote, (l ++ l'). split; [by rewrite staged_app|].
  split_and!; try done. intros p' Hp [Hr Hr']%reads_back_app. by apply Hg.
Qed.

Lemma node_ok_leaf_app es1 es2 : node_ok (Leaf (es1 ++ es2)) -> node_ok (Leaf es1) /\ node_ok (Leaf es2).
Proof.
  intros [[He _] Hs]. cbn [Node_entries] in *. apply Forall_app in He as [? ?]. rewrite map_app in Hs.
  apply sorted_app_inv in Hs as (? & ? & _). split; by split.
Qed.

Lemma entries_ok_internal_app c es1 e es2 :
  entries_ok (Internal c (es1 ++ e :: es2)) ->
  entries_ok (Internal c es1) /\ entries_ok (Internal (e_value e) es2) /\ child_entry_ok e.
Proof.
  intros [He Hc]. cbn [Node_entries] in *. apply Forall_app in He as [? He]. foralls.
  split; [by split|]. split; [split; [done | by apply H2] | done].
Qed.

Lemma middle_split {A} (l : list A) :
  (2 <= length l)%nat -> exists l1 x l2, l = l1 ++ x :: l2 /\ length l1 = (length l / 2)%nat /\ l1 <> [].
Proof.
  intros Hl. assert ((length l / 2 < length l)%nat) by (apply Nat.div_lt; lia).
  destruct (lookup_lt_is_Some_2 l (length l / 2)) as [x Hx]; [done|].
  exists (take (length l / 2) l), x, (drop (S (length l / 2)) l).
  assert (Hlen : length (take (length l / 2) l) = (length l / 2)%nat) by (rewrite length_take; lia).
  split_and!; [by rewrite take_drop_middle | done |]. intros E. rewrite E in Hlen. change (@length A []) with 0%nat in Hlen.
  assert (1 <= length l / 2)%nat by (apply Nat.div_le_lower_bound; lia). lia.
Qed.

Lemma halves {A} (l l1 : list A) x l2 :
  l = l1 ++ x :: l2 -> length l1 = (length l / 2)%nat ->
  2 * zlen l1 <= zlen l /\ 2 * zlen (x :: l2) <= zlen l + 1 /\ zlen l = zlen l1 + zlen (x :: l2).
Proof.
  intros -> Hl. unfold zlen. pose proof (Nat.div_mod (length (l1 ++ x :: l2)) 2 ltac:(lia)) as Hd.
  pose proof (Nat.mod_upper_bound (length (l1 ++ x :: l2)) 2 ltac:(lia)). rewrite <-Hl, length_app in *. lia.
Qed.

Lemma stage_leaf_ok p sh n lo hi es :
  shape_ok sh -> node_ok (Leaf es) -> 0 < zlen es < 2 ^ 16 -> zlen es <= 2 * sh_leaf sh -> within lo hi (pairs es) ->
  updates p sh n lo hi (pairs es) (fun _ => True) (stage_leaf content_id order p es).
Proof.
  intros (Hsl & Hsl16 & _) Hok Hl Hhalf Hw. unfold stage_leaf. rewrite wrap_small by width.
  destruct (Z.ltb_spec order (zlen es)).
  - destruct (middle_split es) as (es1 & e & es2 & Ees & Hmid & Hne); [unfold zlen in *; lia|].
    destruct (halves es es1 e es2 Ees Hmid) as (Hl1 & Hl2 & Hl12).
    rewrite <-Hmid. rewrite Ees, take_app_length, drop_app_length. cbn [rbind get_idx Z.to_nat lookup list_lookup ok_or].
    rewrite Ees in Hok. pose proof (node_ok_leaf_app _ _ Hok) as [Hok1 Hok2].
    destruct (stage_node_ok content_id order max_fanout ltac:(lia) p (Leaf es1) (nok_ok _ Hok1)) as (b1 & -> & F1); [cbn; lia..|].
    cbn [rbind].
    destruct (stage_node_ok content_id order max_fanout ltac:(lia) (staged content_id p [b1]) (Leaf (e :: es2)) (nok_ok _ Hok2))
      as (b2 & -> & F2); [cbn [Node_len]; lia..|].
    cbn [rbind]. eexists _, _, [b1; b2]. split; [done|]. split; [apply Hid|].
    split; [split; [|apply Hid]; pose proof (eok_entries _ (nok_ok _ Hok2)) as He; apply Forall_cons_1 in He; apply He|].
    intros p' _ Hr. apply (reads_back_app _ _ [b1] [b2]) in Hr as [Hr1 Hr2].
    pose proof (nok_sorted _ Hok) as Hs. cbn [Node_entries] in Hs. rewrite <-map_fst_pairs, pairs_app in Hs.
    rewrite Ees, pairs_app in Hw. rewrite pairs_app. destruct (within_cut _ _ _ _ _ _ Hs Hw) as [Hw1 Hw2].
    exists (pairs es1), (pairs (e :: es2)). split; [done|].
    assert (0 < zlen es1) by (destruct es1; [done | rewrite zlen_cons; pose proof (zlen_nonneg es1); lia]).
    rewrite zlen_cons in *. pose proof (zlen_nonneg es2).
    split; (apply tree_leaf; [apply Hid | | done | rewrite ?zlen_cons; lia | done]).
    + apply F1, Hok1; done.
    + apply F2, Hok2; done.
  - destruct (stage_node_ok content_id order max_fanout ltac:(lia) p (Leaf es) (nok_ok _ Hok)) as (b & -> & F); [cbn; lia..|].
    cbn [rbind]. eexists _, _, [b]. split; [done|]. split; [apply Hid|]. split; [done|]. intros p' _ Hr.
    apply tree_leaf; [apply Hid | apply F, Hok; done | done | lia | done].
Qed.

Lemma tree_internal p sh n id c es lo hi m :
  wf_id id -> (sorted (map e_key es) -> fetch order max_fanout p id = Ok (Internal c es)) -> entries_ok (Internal c es) ->
  sh_min sh <= zlen es <= order -> kids (tree p sh n) ((lo, c) :: eslots es) hi m -> tree p sh (S n) id lo hi m.
Proof.
  intros Hw Hf Hok Hl Hk. assert (Hs : sorted (map e_key es)).
  { eapply kids_seps_sorted; [|exact Hk]. intros. by eapply tree_within. }
  split; [done|]. right. exists c, es. split_and!; auto; [by split | lia..].
Qed.

Lemma stage_internal_ok p sh n lo hi c es m pre :
  shape_ok sh -> entries_ok (Internal c es) -> sh_min sh <= zlen es <= 2 * order + 1 ->
  (forall p', pre p' -> kids (tree p' sh n) ((lo, c) :: eslots es) hi m) ->
  updates p sh (S n) lo hi m pre (stage_internal content_id order p c es).
Proof.
  intros (Hsl & _ & Hmin) Hok Hl Hpre. unfold stage_internal. rewrite wrap_small by width.
  destruct (Z.ltb_spec order (zlen es)).
  - unfold split_internal. destruct (middle_split es) as (es1 & e & es2 & Ees & Hmid & Hne); [unfold zlen in *; lia|].
    destruct (halves es es1 e es2 Ees Hmid) as (Hl1 & Hl2 & Hl12). rewrite zlen_cons in Hl2, Hl12.
    rewrite Ees in Hok. destruct (entries_ok_internal_app _ _ _ _ Hok) as (Hok1 & Hok2 & Hk & He).
    rewrite <-Hmid. rewrite Ees, get_idx_middle. cbn [rbind]. rewrite child_id_ok by done. cbn [rbind].
    rewrite take_app_length.
    replace (drop (S (length es1)) (es1 ++ e :: es2)) with es2
      by (symmetry; change (e :: es2) with ([e] ++ es2); rewrite app_assoc; apply drop_app_length'; rewrite length_app; cbn; lia).
    destruct (stage_node_ok content_id order max_fanout ltac:(lia) p (Internal c es1) Hok1) as (b1 & -> & F1); [cbn; lia..|]. cbn [rbind].
    destruct (stage_node_ok content_id order max_fanout ltac:(lia) (staged content_id p [b1]) (Internal (e_value e) es2) Hok2)
      as (b2 & -> & F2); [cbn [Node_len]; lia..|].
    cbn [rbind]. eexists _, _, [b1; b2]. split; [done|]. split; [apply Hid|]. split; [by split; [|apply Hid]|].
    intros p' Hp' Hr. apply (reads_back_app _ _ [b1] [b2]) in Hr as [Hr1 Hr2]. apply Hpre in Hp' as Hkids.
    rewrite Ees, eslots_app in Hkids. apply (kids_app _ ((lo, c) :: eslots es1)) in Hkids as (m1 & m2 & -> & K1 & K2).
    exists m1, m2. split; [done|].
    assert (0 < zlen es1) by (destruct es1; [done | rewrite zlen_cons; pose proof (zlen_nonneg es1); lia]).
    split; eapply tree_internal; try apply Hid; try (by auto); try done; lia.
  - destruct (stage_node_ok content_id order max_fanout ltac:(lia) p (Internal c es) Hok) as (b & -> & F); [cbn; lia..|]. cbn [rbind].
    eexists _, _, [b]. split; [done|]. split; [apply Hid|]. split; [done|]. intros p' Hp' Hr.
    eapply tree_internal; [apply Hid | by auto | done | lia | by apply Hpre].
Qed.

(** ** Rewriting the slots of an internal node *)

Lemma set_value_middle es1 e es2 v :
  set_value (es1 ++ e :: es2) (length es1) v = Ok (es1 ++ {| e_key := e_key e; e_value := v |} :: es2).
Proof.
  unfold set_value. rewrite get_idx_middle. cbn [rbind]. unfold set_idx, zlen. rewrite length_app. cbn [length].
  destruct (Z.ltb_spec (Z.of_nat (length es1)) (Z.of_nat (length es1 + S (length es2)))); [|lia].
  rewrite Nat2Z.id, insert_app_r_alt, Nat.sub_diag by lia. done.
Qed.

Lemma vec_insert_middle (es1 es2 : list Entry) x : vec_insert (es1 ++ es2) (length es1) x = Ok (es1 ++ x :: es2).
Proof.
  unfold vec_insert. rewrite length_app. destruct (Nat.leb_spec (length es1) (length es1 + length es2)); [|lia].
  by rewrite take_app_length, drop_app_length.
Qed.

Lemma entries_ok_replace c es1 e es2 v :
  entries_ok (Internal c (es1 ++ e :: es2)) -> wf_id v ->
  entries_ok (Internal c (es1 ++ {| e_key := e_key e; e_value := v |} :: es2)).
Proof.
  intros [He Hc] Hv. cbn [Node_entries] in *. split; [cbn [Node_entries] | done].
  apply Forall_app in He as [? He]. apply Forall_cons_1 in He as [[? _] ?].
  apply Forall_app; split; [done|]. constructor; [by split | done].
Qed.

Lemma restage_slot_ok p c es lo hi key slot child s1 s2 s new :
  entries_ok (Internal c es) -> slot_at c es lo hi key slot child s1 s2 s -> wf_id new ->
  exists c' es', restage_slot content_id order p slot new c es = stage_node content_id order p (Internal c' es') /\
    entries_ok (Internal c' es') /\ zlen es' = zlen es /\ (lo, c') :: eslots es' = s1 ++ (s, new) :: s2.
Proof.
  intros Hok Hat Hnew. pose proof (sa_slot _ _ _ _ _ _ _ _ _ _ Hat) as Hsl. unfold restage_slot.
  destruct slot as [i|].
  - destruct Hsl as (es1 & e & es2 & -> & <- & -> & -> & -> & ->). rewrite set_value_middle. cbn [rbind].
    eexists c, _. split; [done|]. split; [by apply entries_ok_replace|]. unfold zlen. rewrite !length_app.
    split; [done|]. by rewrite eslots_app.
  - destruct Hsl as (-> & -> & -> & ->). exists new, es. split; [done|]. split; [|done].
    destruct Hok as [He _]. by split.
Qed.

Lemma entries_ok_insert c es1 k v es2 :
  entries_ok (Internal c (es1 ++ es2)) -> key_ok k -> wf_id v ->
  entries_ok (Internal c (es1 ++ {| e_key := k; e_value := v |} :: es2)).
Proof.
  intros [He Hc] Hk Hv. cbn [Node_entries] in *. split; [cbn [Node_entries] | done].
  apply Forall_app in He as [? ?]. apply Forall_app; split; [done|]. by constructor.
Qed.

Lemma insert_slot_ok p c es lo hi key slot child s1 s2 s new pkey right_id :
  entries_ok (Internal c es) -> slot_at c es lo hi key slot child s1 s2 s -> wf_id new -> wf_id right_id -> key_ok pkey ->
  exists c' es',
    match slot with
    | None => let! entries := vec_insert es 0 {| e_key := pkey; e_value := right_id |} in
              stage_internal content_id order p new entries
    | Some idx => let! entries := set_value es idx new in
                  let! entries := vec_insert entries (S idx) {| e_key := pkey; e_value := right_id |} in
                  stage_internal content_id order p c entries
    end = stage_internal content_id order p c' es' /\
    entries_ok (Internal c' es') /\ zlen es' = zlen es + 1 /\
    (lo, c') :: eslots es' = s1 ++ (s, new) :: (Some pkey, right_id) :: s2.
Proof.
  intros Hok Hat Hnew Hright Hpk. pose proof (sa_slot _ _ _ _ _ _ _ _ _ _ Hat) as Hsl.
  destruct slot as [i|].
  - destruct Hsl as (es1 & e & es2 & -> & <- & -> & -> & -> & Es2). rewrite set_value_middle. cbn [rbind].
    pose proof (entries_ok_replace _ _ _ _ new Hok Hnew) as Hok'.
    change (es1 ++ {| e_key := e_key e; e_value := new |} :: es2) with (es1 ++ [{| e_key := e_key e; e_value := new |}] ++ es2) in *.
    rewrite app_assoc in *.
    replace (S (length es1)) with (length (es1 ++ [{| e_key := e_key e; e_value := new |}])) by (rewrite length_app; cbn; lia).
    rewrite vec_insert_middle. cbn [rbind]. eexists c, _. split; [done|].
    split; [by apply entries_ok_insert|]. split; [unfold zlen; rewrite !length_app; cbn [length]; lia|].
    by rewrite !eslots_app, Es2, <-!app_assoc.
  - destruct Hsl as (-> & -> & -> & Es2).
    pose proof (vec_insert_middle [] es {| e_key := pkey; e_value := right_id |}) as Hv. cbn [app length] in Hv.
    rewrite Hv. cbn [rbind]. eexists new, _. split; [done|].
    split; [|split; [rewrite zlen_cons; lia | by rewrite Es2]].
    apply (entries_ok_insert new []); try done. destruct Hok as [He _]. by split.
Qed.

(** ** Insertion *)

Definition value_ok (v : bytes) : Prop := wf_bytes v /\ zlen v < 2 ^ 32.

Lemma upsert_found es1 e es2 key value :
  entries_lt es1 key -> e_key e = key ->
  upsert key value (pairs (es1 ++ e :: es2)) = pairs (es1 ++ {| e_key := e_key e; e_value := value |} :: es2).
Proof.
  intros Hlt <-. rewrite !pairs_app, upsert_app_r by (by apply pairs_lt). cbn. by rewrite cmp_key_refl.
Qed.
Lemma upsert_missing es1 es2 key value :
  entries_lt es1 key -> entries_gt es2 key ->
  upsert key value (pairs (es1 ++ es2)) = pairs (es1 ++ {| e_key := key; e_value := value |} :: es2).
Proof.
  intros Hlt Hgt. rewrite !pairs_app, upsert_app_r by (by apply pairs_lt).
  by rewrite (upsert_app_l _ _ [] (pairs es2)) by (by apply pairs_gt).
Qed.

Lemma leaf_insert_ok es key value :
  node_ok (Leaf es) -> key_ok key -> value_ok value ->
  exists es', match search key es with
              | Found i => set_value es i value
              | Missing i => vec_insert es i {| e_key := key; e_value := value |}
              end = Ok es' /\
    node_ok (Leaf es') /\ pairs es' = upsert key value (pairs es) /\ 0 < zlen es' <= zlen es + 1.
Proof.
  intros Hok Hk Hv. pose proof (nok_sorted _ Hok) as Hs. pose proof (search_spec key es Hs) as Hsp.
  pose proof (eok_entries _ (nok_ok _ Hok)) as He. cbn [Node_entries] in *.
  assert (Hsort : forall es', pairs es' = upsert key value (pairs es) -> sorted (map e_key es')).
  { intros es' E. rewrite <-map_fst_pairs, E. apply upsert_sorted. by rewrite map_fst_pairs. }
  destruct (search key es) as [i|i].
  - destruct Hsp as (es1 & e & es2 & -> & <- & Ek & Hlt & Hgt). rewrite set_value_middle. eexists. split; [done|].
    pose proof (upsert_found es1 e es2 key value Hlt Ek) as Hup. split_and!; [split; [split; [|done] | by apply Hsort] | done | |].
    + cbn [Node_entries]. apply Forall_app in He as [? He]. apply Forall_cons_1 in He as [[? ?] ?].
      apply Forall_app; split; [done|]. by constructor.
    + rewrite zlen_app, zlen_cons. pose proof (zlen_nonneg es1). pose proof (zlen_nonneg es2). lia.
    + rewrite !zlen_app, !zlen_cons. lia.
  - destruct Hsp as (es1 & es2 & -> & <- & Hlt & Hgt). rewrite vec_insert_middle. eexists. split; [done|].
    pose proof (upsert_missing es1 es2 key value Hlt Hgt) as Hup. split_and!; [split; [split; [|done] | by apply Hsort] | done | |].
    + cbn [Node_entries]. apply Forall_app in He as [? He]. apply Forall_app; split; [done|]. by constructor.
    + rewrite zlen_app, zlen_cons. pose proof (zlen_nonneg es1). pose proof (zlen_nonneg es2). lia.
    + rewrite !zlen_app, !zlen_cons. lia.
Qed.

(** The list after an update in the part that covers the key. *)
Lemma upsert_middle key value m1 mc m2 :
  keys_lt m1 key -> keys_gt m2 key -> upsert key value (m1 ++ mc ++ m2) = m1 ++ upsert key value mc ++ m2.
Proof. intros. by rewrite upsert_app_r, upsert_app_l. Qed.
Lemma erase_middle key m1 mc m2 :
  keys_lt m1 key -> keys_gt m2 key -> erase key (m1 ++ mc ++ m2) = m1 ++ erase key mc ++ m2.
Proof. intros. rewrite erase_app_r, erase_app_l by auto with efs. done. Qed.

(** Reassembling the children around an updated one. *)
Lemma kids_replace (T : ChunkId -> option bytes -> option bytes -> kvs -> Prop) s1 s c s2 hi m1 mc m2 :
  kids T s1 s m1 -> T c s (next_lo s2 hi) mc -> kids T s2 hi m2 -> kids T (s1 ++ (s, c) :: s2) hi (m1 ++ mc ++ m2).
Proof.
  intros H1 Hc H2. apply kids_app. exists m1, (mc ++ m2). split; [done|]. split; [done|]. by exists mc, m2.
Qed.

Lemma insert_rec_ok sh levels p n id lo hi m key value :
  shape_ok sh -> prov_ok p -> (n < levels)%nat -> tree p sh n id lo hi m -> above lo key -> below hi key ->
  key_ok key -> value_ok value ->
  updates p sh n lo hi (upsert key value m) (sub order max_fanout p)
    (insert_rec content_id order max_fanout levels p id key value).
Proof.
  intros Hsh Hp Hn Ht Hlo Hhi Hk Hv. revert n id lo hi m Hn Ht Hlo Hhi.
  induction levels as [|levels IH]; intros n id lo hi m Hn Ht Hlo Hhi; [lia|]. cbn [insert_rec].
  apply tree_inv in Ht as [(es & -> & Hok & Hl & -> & Hw)|(n' & c & es & -> & -> & Hok & Hl & Hkids)]; cbn [rbind].
  - destruct (leaf_insert_ok es key value Hok Hk Hv) as (es' & -> & Hok' & Hup & Hl'). cbn [rbind].
    pose proof Hsh as (Hsl & Hs16 & Hm). rewrite <-Hup.
    eapply updates_weaken; [|apply stage_leaf_ok]; [done | done | done | lia | lia |].
    rewrite Hup. by apply upsert_within.
  - destruct (child_slot_spec key c es lo hi) as (slot & child & s1 & s2 & s & -> & Hat); [apply Hok | apply Hok | done..|].
    destruct (kids_at _ _ _ _ _ _ _ _ _ _ _ _ (tree_within p sh n') Hat Hkids) as (m1 & mc & m2 & -> & Hlt & Hgt & K1 & Hc & K2).
    cbn [rbind].
    destruct (IH n' child s (next_lo s2 hi) mc) as (new & promote & l & -> & Hnew & Hpr & Hg); [lia | done | apply Hat | apply Hat |].
    cbn [rbind]. rewrite upsert_middle by done. destruct promote as [[pkey right_id]|].
    + destruct Hpr as [Hpk Hright].
      destruct (insert_slot_ok (staged content_id p l) c es lo hi key slot child s1 s2 s new pkey right_id)
        as (c' & es' & -> & Hok' & Hl' & Hs'); [apply Hok | done..|].
      apply (updates_staged p l), stage_internal_ok; [done | done | lia |].
      intros p' [Hsub Hr]. rewrite Hs'. destruct (Hg p' Hsub Hr) as (mc1 & mc2 & -> & T1 & T2).
      apply kids_app. exists m1, ((mc1 ++ mc2) ++ m2). split; [done|].
      split; [eapply kids_mono; [|exact K1]; intros; by eapply tree_sub|].
      exists mc1, (mc2 ++ m2). split; [by rewrite app_assoc|]. split; [done|]. exists mc2, m2. split_and!; try done.
      eapply kids_mono; [|exact K2]. intros. by eapply tree_sub.
    + destruct (restage_slot_ok (staged content_id p l) c es lo hi key slot child s1 s2 s new)
        as (c' & es' & -> & Hok' & Hl' & Hs'); [apply Hok | done..|].
      destruct (stage_node_ok content_id order max_fanout ltac:(lia) (staged content_id p l) (Internal c' es') Hok')
        as (b & -> & F); [destruct Hsh; cbn [Node_len]; lia..|]. cbn [rbind].
      exists (content_id b), None, (l ++ [b]). split; [by rewrite staged_app|]. split; [apply Hid|]. split; [done|].
      intros p' Hsub [Hr1 Hr2]%reads_back_app. apply (tree_internal p' sh n' _ c' es'); [apply Hid | by auto | done | lia |].
      rewrite Hs'. apply kids_replace; [| by apply Hg |]; (eapply kids_mono; [|eassumption]); intros; by eapply tree_sub.
Qed.

(** ** The index *)

(** The root of an index that stands for [m]: zero for the empty one. *)
Definition index p sh n (root : ChunkId) m : Prop :=
  (root = ChunkId_ZERO /\ m = []) \/ tree p sh n root None None m.

(** The finite map an index holds. *)
Definition holds p sh n (root : ChunkId) (M : gmap bytes bytes) : Prop :=
  exists m, index p sh n root m /\ M = to_map m.

Lemma tree_nonzero p sh n id lo hi m : tree p sh n id lo hi m -> ChunkId_is_zero id = false.
Proof. intros Ht. apply tree_inv in Ht as [(es & E & _)|(n' & c & es & _ & E & _)]; by apply fetch_Ok in E as [? _]. Qed.

Lemma index_sorted p sh n root m : index p sh n root m -> sorted (map fst m).
Proof. intros [[_ ->]|Ht]; [constructor | by apply tree_within in Ht as (_ & ? & _)]. Qed.

Lemma index_sub p p' sh n root m : sub order max_fanout p p' -> index p sh n root m -> index p' sh n root m.
Proof. intros Hs [?|Ht]; [by left | right; by eapply tree_sub]. Qed.

Lemma holds_sub p p' sh n root M : sub order max_fanout p p' -> holds p sh n root M -> holds p' sh n root M.
Proof. intros Hs (m & ? & ->). exists m. split; [by eapply index_sub | done]. Qed.

Lemma grow_root_ok p sh n m pre out :
  shape_ok sh -> sh_min sh <= 1 -> updates p sh n None None m pre out ->
  exists root l, (let! '(id, promote, p) := out in grow_root content_id order p id promote) = Ok (root, staged content_id p l) /\
    forall p', pre p' -> reads_back content_id p' l -> index p' sh (S n) root m.
Proof.
  intros (Hsl & _ & Hmin) Hm (id & [[pkey right_id]|] & l & -> & Hw & Hpr & Hg); cbn [rbind grow_root].
  - destruct Hpr as [Hk Hr]. set (es := [{| e_key := pkey; e_value := right_id |}]). assert (Hz : zlen es = 1) by done.
    assert (Hok : entries_ok (Internal id es)) by (split; [apply Forall_singleton; by split | done]).
    destruct (stage_node_ok content_id order max_fanout ltac:(lia) (staged content_id p l) (Internal id es) Hok)
      as (b & -> & F); [cbn [Node_len]; lia..|].
    exists (content_id b), (l ++ [b]). split; [by rewrite staged_app|]. intros p' Hp' [Hr1 Hr2]%reads_back_app. right.
    destruct (Hg p' Hp' Hr1) as (m1 & m2 & -> & T1 & T2).
    apply (tree_internal p' sh n _ id es); [apply Hid | by auto | done | lia |].
    exists m1, m2. split_and!; try done. exists m2, []. by rewrite app_nil_r.
  - exists id, l. split; [done|]. intros p' Hp' Hr. right. by apply tree_height, Hg.
Qed.
End Trees.
