(* ===== verification/BTreeCheck.v ===== *)
(** The invariants of an index are decidable: [tree_check] evaluates the
    relation [tree] on a concrete provider, which the examples use. *)
From stdpp Require Import sorting.
From S2P Require Import Prelude Binomial Codec Rank Repr Descriptor Context Keys BTree BTreeNode BTreeSpec.

(** * Decision instances *)

#[global] Instance kle_dec a b : Decision (kle a b).
Proof. unfold kle. apply _. Defined.
#[global] Instance above_dec lo k : Decision (above lo k).
Proof. destruct lo; cbn; apply _. Defined.
#[global] Instance below_dec hi k : Decision (below hi k).
Proof. destruct hi; cbn; apply _. Defined.
#[global] Instance within_dec lo hi m : Decision (within lo hi m).
Proof. unfold within. apply _. Defined.
#[global] Instance sorted_dec l : Decision (sorted l).
Proof. unfold sorted. apply _. Defined.
#[global] Instance wf_bytes_dec b : Decision (wf_bytes b).
Proof. unfold wf_bytes. apply _. Defined.
#[global] Instance wf_id_dec id : Decision (wf_id id).
Proof. unfold wf_id. apply _. Defined.
#[global] Instance key_ok_dec k : Decision (key_ok k).
Proof. unfold key_ok. apply _. Defined.
#[global] Instance entries_ok_dec n : Decision (entries_ok n).
Proof.
  assert (D : Decision (Forall (match n with Leaf _ => leaf_entry_ok | Internal _ _ => child_entry_ok end) (Node_entries n) /\
    match n with Leaf _ => True | Internal c _ => wf_id c end)).
  { unfold leaf_entry_ok, child_entry_ok. destruct n; apply _. }
  destruct D as [[? ?]|D]; [left | right]; [done | intros [? ?]; by apply D].
Defined.
#[global] Instance node_ok_dec n : Decision (node_ok n).
Proof. destruct (decide (entries_ok n /\ sorted (map e_key (Node_entries n)))) as [[? ?]|D]; [left | right]; [done | intros [? ?]; by apply D]. Defined.

(** * Evaluating [tree] *)

Section Evaluate.
Context {P : Type} `{ProviderLaws P} (order max_fanout : Z) (p : P) (sh : Shape).

(** The list the children stand for, when every one of them checks. *)
Fixpoint kids_check (rec : ChunkId -> option bytes -> option bytes -> option kvs) (ss : list Slot)
  (hi : option bytes) : option kvs :=
  match ss with
  | [] => Some []
  | (lo, c) :: ss' => m1 ← rec c lo (next_lo ss' hi); m2 ← kids_check rec ss' hi; Some (m1 ++ m2)
  end.

Fixpoint tree_check (n : nat) (id : ChunkId) (lo hi : option bytes) : option kvs :=
  guard (wf_id id);;
  match fetch order max_fanout p id with
  | Ok (Leaf es) =>
      guard (node_ok (Leaf es) /\ 0 < zlen es <= sh_leaf sh /\ within lo hi (pairs es));; Some (pairs es)
  | Ok (Internal c es) =>
      match n with
      | O => None
      | S n' =>
          guard (node_ok (Internal c es) /\ sh_min sh <= zlen es <= order);;
          kids_check (tree_check n') ((lo, c) :: eslots es) hi
      end
  | Err _ => None
  end.

Lemma kids_check_sound rec (T : ChunkId -> option bytes -> option bytes -> kvs -> Prop) ss hi m :
  (forall c lo hi m, rec c lo hi = Some m -> T c lo hi m) -> kids_check rec ss hi = Some m -> kids T ss hi m.
Proof.
  intros HT. revert m. induction ss as [|[lo c] ss IH]; intros m; cbn [kids_check]; [by intros [= <-]|].
  intros (m1 & E1 & (m2 & E2 & [= <-])%bind_Some)%bind_Some. exists m1, m2. auto.
Qed.

Lemma tree_check_sound n id lo hi m :
  tree_check n id lo hi = Some m -> tree order max_fanout p sh n id lo hi m.
Proof.
  revert id lo hi m. induction n as [|n IH]; intros id lo hi m; cbn [tree_check];
    intros (Hw & _ & E)%bind_Some; (split; [done|]).
  all: destruct (fetch order max_fanout p id) as [[es|c es]|] eqn:Ef; try done;
    apply bind_Some in E as ([Hok [Hl Hwi]] & _ & E) || apply bind_Some in E as ([Hok Hl] & _ & E).
  1, 2: apply (inj Some) in E; subst m; left; exists es; split_and!; try done; apply Hl.
  right. exists c, es. split_and!; try done; try lia. eapply kids_check_sound; [|exact E]. done.
Qed.
End Evaluate.

(** Proves that a closed index holds a closed map. *)
Ltac eval_holds m := exists m; split; [right; apply tree_check_sound; vm_compute; reflexivity | reflexivity].
