(* ===== verification/IndexSpec.v ===== *)
(** [get] and [insert] of [store/index.rs] against the finite map an index
    holds. *)
From S2P Require Import Prelude Binomial Codec Rank Repr Descriptor Context Keys SegRecord BTree BTreeNode BTreeSpec BTreeCheck.

Section Index.
Context {P : Type} `{ProviderLaws P} (content_id : bytes -> ChunkId) (order max_fanout : Z).
Context (Horder : 2 <= order < 2 ^ 15) (Hfan : order <= max_fanout).
Context (Hid : forall b, wf_id (content_id b)).
Implicit Types (p : P) (sh : Shape) (n : nat) (m : kvs) (M : gmap bytes bytes).

(** Lookup: in an index of height at most 128 that holds the finite map
    [M], [get] returns exactly the binding of the key in [M]. *)
Lemma get_ok p sh n root M key :
  holds order max_fanout p sh n root M -> (n <= 128)%nat -> get order max_fanout p root key = Ok (M !! key).
Proof.
  intros (m & [[-> ->]|Ht] & ->) Hn; unfold get; [done|]. rewrite (tree_nonzero _ _ _ _ _ _ _ _ _ Ht), to_map_lookup.
  apply (get_loop_ok order max_fanout p sh n _ root None None); [unfold MAX_LEVELS; lia | done..].
Qed.

(** Insertion: for a key and a value within the format's lengths, [insert]
    into an index that holds [M] succeeds; unless content ids collide, the
    new root holds [<[key:=value]> M] at a height larger by at most one, and
    every index of the provider before, the old root's among them, is still
    what it was. *)
Lemma insert_ok p sh n root M key value :
  shape_ok order max_fanout sh -> prov_ok p -> holds order max_fanout p sh n root M -> (n <= 128)%nat -> key_ok key -> value_ok value ->
  exists root' l, insert content_id order max_fanout p root key value = Ok (root', staged content_id p l) /\
    (reads_back content_id (staged content_id p l) l ->
     holds order max_fanout (staged content_id p l) sh (S n) root' (<[key := value]> M)) /\
    (forall n0 r M0, holds order max_fanout p sh n0 r M0 -> holds order max_fanout (staged content_id p l) sh n0 r M0).
Proof.
  intros Hsh Hp (m & Hix & ->) Hn Hk Hv. pose proof (index_sorted _ _ _ _ _ _ _ Hix) as Hs.
  assert (Hup : exists root' l, insert content_id order max_fanout p root key value = Ok (root', staged content_id p l) /\
    forall p', sub order max_fanout p p' -> reads_back content_id p' l -> index order max_fanout p' sh (S n) root' (upsert key value m)).
  { unfold insert. destruct (Z.ltb_spec (2 ^ 16 - 1) (zlen key)), (Z.ltb_spec (2 ^ 32 - 1) (zlen value));
      [destruct Hk, Hv; lia..|]. destruct Hix as [[-> ->]|Ht].
    - cbn [ChunkId_is_zero]. change (ChunkId_is_zero ChunkId_ZERO) with true. cbv iota.
      set (es := [{| e_key := key; e_value := value |}]). assert (Hz : zlen es = 1) by done.
      assert (Hok : node_ok (Leaf es)) by (split; [split; [by apply Forall_singleton | done] | repeat constructor]).
      destruct Hsh as (Hsl & _). destruct (stage_node_ok content_id order max_fanout ltac:(lia) p (Leaf es) (nok_ok _ Hok))
        as (b & -> & F); [cbn [Node_len]; lia..|].
      exists (content_id b), [b]. split; [done|]. intros p' _ Hr. right.
      apply (tree_leaf order max_fanout p' sh (S n) _ None None es); [apply Hid | by apply F, Hok | done | lia | by apply Forall_singleton].
    - rewrite (tree_nonzero _ _ _ _ _ _ _ _ _ Ht). apply grow_root_ok; [done..| |].
      { apply Hsh. }
      apply insert_rec_ok; try done. unfold MAX_LEVELS. lia. }
  destruct Hup as (root' & l & -> & Hg). pose proof (staged_sub content_id order max_fanout p l Hp) as Hsub.
  exists root', l. split; [done|]. split.
  - intros Hr. exists (upsert key value m). split; [by apply Hg | by rewrite to_map_upsert].
  - intros n0 r M0. by apply holds_sub.
Qed.

(** The new root is the id of a node that was staged, whatever the provider
    returns. *)
Lemma stage_node_wf p nd id p' : stage_node content_id order p nd = Ok (id, p') -> wf_id id.
Proof.
  unfold stage_node, Node_id. destruct (Node_encode nd order) as [b|]; [|done]. cbn [rbind]. by intros [= <- _].
Qed.
Lemma stage_leaf_wf p es id pr p' : stage_leaf content_id order p es = Ok (id, pr, p') -> wf_id id.
Proof. unfold stage_leaf. intros E. destruct (_ <? _); inv_ok E; by eapply stage_node_wf. Qed.
Lemma stage_internal_wf p c es id pr p' : stage_internal content_id order p c es = Ok (id, pr, p') -> wf_id id.
Proof. unfold stage_internal, split_internal. intros E. destruct (_ <? _); inv_ok E; by eapply stage_node_wf. Qed.
Lemma restage_slot_wf p slot new c es id p' : restage_slot content_id order p slot new c es = Ok (id, p') -> wf_id id.
Proof. unfold restage_slot. intros E. destruct slot; inv_ok E; by eapply stage_node_wf. Qed.
Lemma insert_rec_wf levels p node key value id pr p' :
  insert_rec content_id order max_fanout levels p node key value = Ok (id, pr, p') -> wf_id id.
Proof.
  destruct levels as [|levels]; [done|]. cbn [insert_rec]. intros E. apply rbind_Ok_inv in E as ([es|c es] & _ & E).
  - inv_ok E. by eapply stage_leaf_wf.
  - apply rbind_Ok_inv in E as ([slot child] & _ & E). apply rbind_Ok_inv in E as ([[new pr'] q] & _ & E).
    destruct pr' as [[pkey right]|]; [destruct slot|]; inv_ok E; first [by eapply stage_internal_wf|by eapply restage_slot_wf].
Qed.
Lemma insert_root_wf p root key value r p' : insert content_id order max_fanout p root key value = Ok (r, p') -> wf_id r.
Proof.
  unfold insert, grow_root. intros E. do 2 (destruct (_ <? _); [done|]). destruct (ChunkId_is_zero root); [by eapply stage_node_wf|].
  apply rbind_Ok_inv in E as ([[new pr] q] & Er & E). destruct pr as [[pkey right]|]; [by eapply stage_node_wf|]. injection E as <- _. by eapply insert_rec_wf.
Qed.

(** C30. Read your writes.  In an index of height below 128 that holds the
    finite map [M], an insertion of a key and a value within the format's
    lengths succeeds and leaves the old root readable as it was; unless
    content ids collide, the new root is an index again, and a lookup through
    it returns the value for the key and the old binding for every other. *)
Theorem insert_get p sh n root M key value :
  shape_ok order max_fanout sh -> prov_ok p -> holds order max_fanout p sh n root M -> (n < 128)%nat -> key_ok key -> value_ok value ->
  exists root' l, let p' := staged content_id p l in
    insert content_id order max_fanout p root key value = Ok (root', p') /\
    (forall k, get order max_fanout p' root k = Ok (M !! k)) /\
    (reads_back content_id p' l ->
     holds order max_fanout p' sh (S n) root' (<[key := value]> M) /\
     forall k, get order max_fanout p' root' k = Ok (if decide (k = key) then Some value else M !! k)).
Proof.
  intros Hsh Hp HM Hn Hk Hv. destruct (insert_ok p sh n root M key value) as (root' & l & E & Hnew & Hold); [done..|lia|done|done|].
  exists root', l. split_and!; [done | intros k; eapply get_ok; [by apply Hold | lia] |].
  intros Hr. specialize (Hnew Hr). split; [done|]. intros k. rewrite (get_ok _ _ _ _ _ k Hnew) by lia.
  destruct (decide (k = key)) as [->|]; [by rewrite lookup_insert_eq | by rewrite lookup_insert_ne].
Qed.
End Index.

(** * Examples *)

(** The index after inserting three keys at order 2: a root over two leaves. *)
Definition sample_tree : tree_outcome (ChunkId * Log) :=
  let! '(root, p) := insert sample_hash 2 8 ([] : Log) ChunkId_ZERO [1] [10] in
  let! '(root, p) := insert sample_hash 2 8 p root [2] [20] in
  insert sample_hash 2 8 p root [3] [30].
Definition sample_log : Log := Eval vm_compute in state_of [] sample_tree.
Definition sample_root : ChunkId := Eval vm_compute in root_of sample_tree.
Definition sample_shape : Shape := {| sh_leaf := 2; sh_min := 1 |}.

Lemma sample_holds : holds 2 8 sample_log sample_shape 1 sample_root (to_map [([1], [10]); ([2], [20]); ([3], [30])]).
Proof. eval_holds [([1%Z], [10%Z]); ([2%Z], [20%Z]); ([3%Z], [30%Z])]. Qed.

Lemma sample_shape_ok : shape_ok 2 8 sample_shape.
Proof. by vm_compute. Qed.

Lemma insert_get_witness :
  exists root' l, insert sample_hash 2 8 sample_log sample_root [2; 7] [99] = Ok (root', staged sample_hash sample_log l) /\
    get 2 8 (staged sample_hash sample_log l) sample_root [2] = Ok (Some [20]) /\
    get 2 8 (staged sample_hash sample_log l) root' [2; 7] = Ok (Some [99]).
Proof.
  destruct (insert_get sample_hash 2 8 ltac:(lia) ltac:(lia) sample_hash_wf sample_log sample_shape 1 sample_root _ [2; 7] [99]
    sample_shape_ok (Log_ok _) sample_holds ltac:(lia)) as (root' & l & E & Hold & Hh).
  - split; [by apply Forall_cons_2; [|apply Forall_cons_2] | done].
  - split; [by apply Forall_singleton | done].
  - exists root', l. split; [exact E|]. split; [exact (Hold [2])|]. apply (fun H => proj2 (Hh H) [2; 7]). clear Hold Hh.
    eval_reads_back E.
Defined.
