(* ===== verification/RemoveSpec.v ===== *)
(** [remove] of [store/index.rs] against the finite map an index holds: the
    key is deleted, empty nodes collapse, single-child nodes are replaced by
    their child, and a removal that finds nothing changes nothing. *)
From Stdlib Require String.
From S2P Require Import Prelude Binomial Codec Rank Repr Descriptor Context Keys SegRecord Inode BTree BTreeNode BTreeSpec BTreeCheck IndexSpec.
Import String.StringSyntax.

Section Remove.
Context {P : Type} `{ProviderLaws P} (content_id : bytes -> ChunkId) (order max_fanout : Z).
Context (Horder : 2 <= order < 2 ^ 15) (Hfan : order <= max_fanout).
Context (Hid : forall b, wf_id (content_id b)).
Implicit Types (p : P) (sh : Shape) (n : nat) (m : kvs) (M : gmap bytes bytes).

Abbreviation tree := (tree order max_fanout).

(** ** A node stands for one list only *)

Lemma kids_det (T T' : ChunkId -> option bytes -> option bytes -> kvs -> Prop) ss ss' hi hi' m m' :
  (forall c lo hi m lo' hi' m', T c lo hi m -> T' c lo' hi' m' -> m = m') ->
  map snd ss = map snd ss' -> kids T ss hi m -> kids T' ss' hi' m' -> m = m'.
Proof.
  intros HT. revert ss' m m'. induction ss as [|[lo c] ss IH]; intros [|[lo' c'] ss'] m m' E; try done; cbn in *.
  { by intros -> ->. }
  injection E as -> E. intros (m1 & m2 & -> & H1 & H2) (m1' & m2' & -> & H1' & H2').
  f_equal; [by eapply HT | by eapply IH].
Qed.

Lemma tree_det p sh n id lo hi m sh' n' lo' hi' m' :
  tree p sh n id lo hi m -> tree p sh' n' id lo' hi' m' -> m = m'.
Proof.
  revert id lo hi m n' lo' hi' m'. induction n as [|n IH]; intros id lo hi m n' lo' hi' m' H1 H2;
    apply tree_inv in H1 as [(es & E & _ & _ & -> & _)|(k & c & es & En & E & _ & _ & K)]; try done;
    apply tree_inv in H2 as [(es' & E' & _ & _ & -> & _)|(k' & c' & es' & En' & E' & _ & _ & K')]; rewrite E in E';
    simplify_eq; try done.
  eapply (kids_det _ _ ((lo, c') :: eslots es') ((lo', c') :: eslots es')); [|done | exact K | exact K'].
  intros ? ? ? ? ? ? ? Ht Ht'. by eapply IH.
Qed.

(** ** Dropping a slot *)

Lemma vec_remove_middle (es1 : list Entry) e es2 : vec_remove (es1 ++ e :: es2) (length es1) = Ok (es1 ++ es2).
Proof.
  unfold vec_remove. rewrite length_app. cbn [length]. destruct (Nat.ltb_spec (length es1) (length es1 + S (length es2))); [|lia].
  by rewrite delete_middle.
Qed.

Lemma entries_ok_remove c es1 e es2 : entries_ok (Internal c (es1 ++ e :: es2)) -> entries_ok (Internal c (es1 ++ es2)).
Proof.
  intros [He Hc]. split; [|done]. cbn [Node_entries] in *. apply Forall_app in He as [? He].
  apply Forall_cons_1 in He as [_ ?]. by apply Forall_app.
Qed.

(** The slot whose child is gone: its right neighbour becomes the first
    child, or its left neighbour takes over its range. *)
Lemma drop_slot_ok p (removed : option bytes) c es lo hi key slot child s1 s2 s :
  entries_ok (Internal c es) -> slot_at c es lo hi key slot child s1 s2 s -> 1 <= zlen es ->
  exists c' es',
    match slot with
    | None =>
        fail_if zlen es =? 0 with Error (Invariant "first_child collapsed with no entries") ;;
        let! e := get_idx es 0 in
        let! new_first := child_id e in
        let! entries := vec_remove es 0 in
        if zlen entries =? 0 then Ok (Some new_first, removed, p)
        else let! '(id, p) := stage_node content_id order p (Internal new_first entries) in Ok (Some id, removed, p)
    | Some idx =>
        let! entries := vec_remove es idx in
        if zlen entries =? 0 then Ok (Some c, removed, p)
        else let! '(id, p) := stage_node content_id order p (Internal c entries) in Ok (Some id, removed, p)
    end = (if zlen es' =? 0 then Ok (Some c', removed, p)
           else let! '(id, p) := stage_node content_id order p (Internal c' es') in Ok (Some id, removed, p)) /\
    entries_ok (Internal c' es') /\ zlen es' = zlen es - 1 /\
    forall p' sh n m1 mc m2, kids (tree p' sh n) s1 s m1 -> tree p' sh n child s (next_lo s2 hi) mc ->
      kids (tree p' sh n) s2 hi m2 -> kids (tree p' sh n) ((lo, c') :: eslots es') hi (m1 ++ m2).
Proof.
  intros Hok Hat Hl. pose proof (sa_slot _ _ _ _ _ _ _ _ _ _ Hat) as Hsl.
  assert (Hrange : forall p' sh n c lo hi m, tree p' sh n c lo hi m -> forall k k', lo = Some k -> hi = Some k' -> kle k k').
  { intros p' sh n c0 lo0 hi0 m0 Ht k k' -> ->. apply tree_within in Ht as (Hw & _ & Hn). destruct m0 as [|kv m0]; [done|].
    apply Forall_cons_1 in Hw as [[Ha Hb] _]. cbn in *. korder. }
  destruct slot as [i|].
  - destruct Hsl as (es1 & e & es2 & -> & <- & -> & -> & -> & ->). rewrite vec_remove_middle. cbn [rbind].
    exists c, (es1 ++ es2). split; [done|]. split; [by eapply entries_ok_remove|].
    split; [rewrite !zlen_app, zlen_cons; lia|]. intros p' sh n m1 mc m2 K1 Hc K2. rewrite eslots_app.
    apply (kids_app _ ((lo, c) :: eslots es1)). exists m1, m2. split_and!; try done.
    eapply kids_widen; [| |exact K1]; [intros; eapply tree_widen; eauto with efs|].
    destruct (next_lo (eslots es2) hi) as [k'|] eqn:E; [|done]. cbn. by eapply (Hrange _ _ _ _ _ _ _ Hc).
  - destruct Hsl as (-> & -> & -> & ->). destruct es as [|e es]; [done|].
    rewrite zlen_cons in *. pose proof (zlen_nonneg es). destruct (Z.eqb_spec (1 + zlen es) 0); [lia|].
    destruct Hok as [He _]. cbn [Node_entries] in He. apply Forall_cons_1 in He as [[Hk Hv] He].
    change (get_idx (e :: es) 0) with (Ok (E := trap BTreeError) e). cbn [rbind]. rewrite child_id_ok by done. cbn [rbind].
    change (vec_remove (e :: es) 0) with (Ok (E := trap BTreeError) es). cbn [rbind].
    exists (e_value e), es. split; [done|]. split; [by split|]. split; [lia|].
    intros p' sh n1 m1 mc m2 -> Hc (m3 & m4 & -> & H3 & H4). cbn [app]. exists m3, m4. split_and!; try done.
    eapply tree_widen; [| |exact H3]; [|auto with efs]. destruct lo as [l|]; [|done]. cbn [eslots map next_lo] in Hc. cbn.
    by eapply (Hrange _ _ _ _ _ _ _ Hc).
Qed.

(** ** Removal below a node *)

Lemma leaf_remove_ok es key :
  node_ok (Leaf es) ->
  match search key es with
  | Found i => exists es1 e es2, es = es1 ++ e :: es2 /\ length es1 = i /\ assoc key (pairs es) = Some (e_value e) /\
      erase key (pairs es) = pairs (es1 ++ es2) /\ node_ok (Leaf (es1 ++ es2))
  | Missing _ => assoc key (pairs es) = None /\ erase key (pairs es) = pairs es
  end.
Proof.
  intros Hok. pose proof (search_spec key es (nok_sorted _ Hok)) as Hsp. destruct (search key es) as [i|i].
  - destruct Hsp as (es1 & e & es2 & -> & <- & Ek & Hlt & Hgt). exists es1, e, es2.
    assert (Her : erase key (pairs (es1 ++ e :: es2)) = pairs (es1 ++ es2)).
    { rewrite !pairs_app, erase_app_r by (by apply keys_lt_ne, pairs_lt). cbn. by rewrite decide_True. }
    split_and!; [done | done | by apply assoc_pairs_found | done |].
    destruct Hok as [[He _] Hs]. cbn [Node_entries] in *. split; [split; [|done]|]; cbn [Node_entries].
    + apply Forall_app in He as [? He]. apply Forall_cons_1 in He as [_ ?]. by apply Forall_app.
    + rewrite <-map_fst_pairs, <-Her. apply erase_sorted. by rewrite map_fst_pairs.
  - destruct Hsp as (es1 & es2 & -> & <- & Hlt & Hgt). split; [by apply assoc_pairs_missing|].
    rewrite !pairs_app, erase_app_r by (by apply keys_lt_ne, pairs_lt). f_equal. by apply erase_ne, keys_gt_ne, pairs_gt.
Qed.

(** What is left of a subtree. *)
Definition shrunk p sh n (res : option ChunkId) lo hi m : Prop :=
  match res with Some id => tree p sh n id lo hi m | None => m = [] end.

(** The outcome of a removal from [p] below the node [id]. *)
Definition removes p sh n id lo hi m key (out : tree_outcome (option ChunkId * option bytes * P)) : Prop :=
  exists res l, out = Ok (res, assoc key m, staged content_id p l) /\
    match res with Some id' => wf_id id' | None => True end /\
    (assoc key m = None -> res = Some id /\ l = []) /\
    forall p', sub order max_fanout p p' -> reads_back content_id p' l -> shrunk p' sh n res lo hi (erase key m).

Lemma remove_rec_ok sh levels p n id lo hi m key :
  shape_ok order max_fanout sh -> sh_min sh = 1 -> prov_ok p -> (n < levels)%nat -> tree p sh n id lo hi m ->
  above lo key -> below hi key ->
  removes p sh n id lo hi m key (remove_rec content_id order max_fanout levels p id key).
Proof.
  intros (Hsl & Hs16 & _) Hmin Hp Hn Ht Hlo Hhi. revert n id lo hi m Hn Ht Hlo Hhi.
  induction levels as [|levels IH]; intros n id lo hi m Hn Ht Hlo Hhi; [lia|]. cbn [remove_rec].
  pose proof (tree_wf _ _ _ _ _ _ _ _ _ Ht) as Hwf. pose proof Ht as Ht0.
  apply tree_inv in Ht as [(es & -> & Hok & Hl & -> & Hw)|(n' & c & es & -> & -> & Hok & Hl & Hkids)]; cbn [rbind].
  - pose proof (leaf_remove_ok es key Hok) as Hsp. destruct (search key es) as [i|i].
    + destruct Hsp as (es1 & e & es2 & -> & <- & Ha & He & Hok'). rewrite get_idx_middle. cbn [rbind].
      rewrite vec_remove_middle. cbn [rbind]. destruct (Z.eqb_spec (zlen (es1 ++ es2)) 0) as [E|E].
      * exists None, []. rewrite Ha. split_and!; try done. intros p' _ _. unfold shrunk. rewrite He.
        by destruct (es1 ++ es2); [|rewrite zlen_cons in E; pose proof (zlen_nonneg l); lia].
      * assert (zlen (es1 ++ es2) = zlen (es1 ++ e :: es2) - 1) by (rewrite !zlen_app, zlen_cons; lia).
        pose proof (zlen_nonneg (es1 ++ es2)).
        destruct (stage_node_ok content_id order max_fanout ltac:(lia) p (Leaf (es1 ++ es2)) (nok_ok _ Hok'))
          as (b & -> & F); [cbn [Node_len]; lia..|]. cbn [rbind].
        exists (Some (content_id b)), [b]. rewrite Ha. split; [done|]. split; [apply Hid|]. split; [done|].
        intros p' _ Hr. unfold shrunk. rewrite He. apply tree_leaf; [apply Hid | by apply F, Hok' | done | lia |].
        rewrite <-He. by apply erase_within.
    + destruct Hsp as [Ha He]. exists (Some id), []. rewrite Ha. split_and!; try done. intros p' Hsub _. unfold shrunk. rewrite He.
      by eapply tree_sub.
  - destruct (child_slot_spec key c es lo hi) as (slot & child & s1 & s2 & s & -> & Hat); [apply Hok | apply Hok | done..|].
    destruct (kids_at _ _ _ _ _ _ _ _ _ _ _ _ (tree_within _ _ p sh n') Hat Hkids) as (m1 & mc & m2 & -> & Hlt & Hgt & K1 & Hc & K2).
    cbn [rbind]. destruct (IH n' child s (next_lo s2 hi) mc) as (res & l & -> & Hwc & Hno & Hg); [lia | done | apply Hat | apply Hat |].
    cbn [rbind]. unfold removes. rewrite erase_middle by done.
    rewrite assoc_app_r, assoc_app_l by auto with efs. destruct res as [new|].
    + case_bool_decide as Enew.
      * exists (Some id), l. split; [done|]. split; [done|]. split; [intros E; by apply Hno in E as [_ ->]|].
        intros p' Hsub Hr. unfold shrunk. subst new. specialize (Hg p' Hsub Hr). unfold shrunk in Hg.
        rewrite (tree_det _ _ _ _ _ _ _ _ _ _ _ _ Hg (tree_sub _ _ _ _ _ _ _ _ _ _ Hsub Hc)). by eapply tree_sub.
      * destruct (restage_slot_ok content_id order (staged content_id p l) c es lo hi key slot child s1 s2 s new)
          as (c' & es' & -> & Hok' & Hl' & Hs'); [apply Hok | done..|].
        destruct (stage_node_ok content_id order max_fanout ltac:(lia) (staged content_id p l) (Internal c' es') Hok')
          as (b & -> & F); [cbn [Node_len]; lia..|]. cbn [rbind].
        exists (Some (content_id b)), (l ++ [b]). split; [by rewrite staged_app|]. split; [apply Hid|].
        split; [intros E; apply Hno in E as [E _]; congruence|]. intros p' Hsub [Hr1 Hr2]%reads_back_app. unfold shrunk.
        apply (tree_internal order max_fanout p' sh n' _ c' es'); [apply Hid | by auto | done | lia |].
        rewrite Hs'. apply kids_replace; [| by apply Hg |]; (eapply kids_mono; [|eassumption]); intros; by eapply tree_sub.
    + destruct (drop_slot_ok (staged content_id p l) (assoc key mc) c es lo hi key slot child s1 s2 s)
        as (c' & es' & -> & Hok' & Hl' & Hs'); [apply Hok | done | lia |].
      assert (Hnone : assoc key mc <> None) by (intros E; apply Hno in E as [? _]; done).
      assert (Hk' : forall p', sub order max_fanout p p' -> reads_back content_id p' l ->
        kids (tree p' sh n') ((lo, c') :: eslots es') hi (m1 ++ erase key mc ++ m2)).
      { intros p' Hsub Hr. specialize (Hg p' Hsub Hr). unfold shrunk in Hg. rewrite Hg. cbn [app].
        eapply Hs'; [eapply kids_mono; [|exact K1] | eapply tree_sub; [exact Hsub | exact Hc] | eapply kids_mono; [|exact K2]];
          intros; by eapply tree_sub. }
      destruct (Z.eqb_spec (zlen es') 0) as [E|E].
      * exists (Some c'), l. split; [done|]. split; [apply Hok'|]. split; [done|]. intros p' Hsub Hr. cbn.
        destruct es'; [|rewrite zlen_cons in E; pose proof (zlen_nonneg es'); lia].
        destruct (Hk' p' Hsub Hr) as (mx & my & -> & Hx & ->). rewrite app_nil_r. by apply tree_height.
      * destruct (stage_node_ok content_id order max_fanout ltac:(lia) (staged content_id p l) (Internal c' es') Hok')
          as (b & -> & F); [cbn [Node_len]; lia..|]. cbn [rbind].
        exists (Some (content_id b)), (l ++ [b]). split; [by rewrite staged_app|]. split; [apply Hid|]. split; [done|].
        intros p' Hsub [Hr1 Hr2]%reads_back_app. unfold shrunk. pose proof (zlen_nonneg es').
        apply (tree_internal order max_fanout p' sh n' _ c' es'); [apply Hid | by auto | done | lia | by apply Hk'].
Qed.

(** Removal: in an index whose internal nodes have at least one separator,
    [remove] succeeds for every key; unless content ids collide, the new
    root holds [delete key M] at no larger height, every earlier index is
    still what it was, and removing an absent key stages nothing and returns
    the old root. *)
Lemma remove_ok p sh n root M key :
  shape_ok order max_fanout sh -> sh_min sh = 1 -> prov_ok p -> holds order max_fanout p sh n root M -> (n <= 128)%nat ->
  exists root' l, remove content_id order max_fanout p root key = Ok (root', staged content_id p l) /\
    (reads_back content_id (staged content_id p l) l ->
     holds order max_fanout (staged content_id p l) sh n root' (delete key M)) /\
    (forall n0 r M0, holds order max_fanout p sh n0 r M0 -> holds order max_fanout (staged content_id p l) sh n0 r M0) /\
    (M !! key = None -> root' = root /\ l = []).
Proof.
  intros Hsh Hmin Hp (m & Hix & ->) Hn. pose proof (index_sorted _ _ _ _ _ _ _ Hix) as Hs. unfold remove.
  rewrite to_map_lookup. destruct Hix as [[-> ->]|Ht].
  - change (ChunkId_is_zero ChunkId_ZERO) with true. cbv iota. exists ChunkId_ZERO, []. split_and!; try done.
    intros _. exists []. split; [by left|]. change (to_map []) with (∅ : gmap bytes bytes). apply delete_empty.
  - rewrite (tree_nonzero _ _ _ _ _ _ _ _ _ Ht).
    destruct (remove_rec_ok sh MAX_LEVELS p n root None None m key) as (res & l & -> & Hw & Hno & Hg);
      try done; [unfold MAX_LEVELS; lia|]. cbn [rbind].
    pose proof (staged_sub content_id order max_fanout p l Hp) as Hsub. exists (default ChunkId_ZERO res), l.
    split; [done|]. split; [|split; [intros; by eapply holds_sub | intros E; by apply Hno in E as [-> ->]]].
    intros Hr. exists (erase key m). split; [|by rewrite to_map_erase]. specialize (Hg _ Hsub Hr).
    destruct res; [by right | by left].
Qed.

Lemma remove_root_wf p sh n root M key r p' :
  shape_ok order max_fanout sh -> sh_min sh = 1 -> prov_ok p -> holds order max_fanout p sh n root M -> (n <= 128)%nat ->
  remove content_id order max_fanout p root key = Ok (r, p') -> wf_id r.
Proof.
  intros Hsh Hmin Hp (m & Hix & _) Hn. unfold remove. destruct Hix as [[-> _]|Ht]; [intros [= <- _]; exact zero_id_wf|].
  rewrite (tree_nonzero _ _ _ _ _ _ _ _ _ Ht).
  destruct (remove_rec_ok sh MAX_LEVELS p n root None None m key) as (res & l & -> & Hw & _); try done; [unfold MAX_LEVELS; lia|].
  cbn [rbind]. intros [= <- _]. destruct res; [done|exact zero_id_wf].
Qed.

(** In an index whose internal nodes have a separator, a removal succeeds
    for every key and leaves the old root readable as it was; unless content
    ids collide, the new root is an index no higher than the old one through
    which the key is absent and every other lookup is as before.  Removing
    an absent key stages nothing and returns the old root. *)
Theorem remove_get p sh n root M key :
  shape_ok order max_fanout sh -> sh_min sh = 1 -> prov_ok p -> holds order max_fanout p sh n root M -> (n <= 128)%nat ->
  exists root' l, let p' := staged content_id p l in
    remove content_id order max_fanout p root key = Ok (root', p') /\
    (forall k, get order max_fanout p' root k = Ok (M !! k)) /\
    (M !! key = None -> root' = root /\ l = []) /\
    (reads_back content_id p' l ->
     holds order max_fanout p' sh n root' (delete key M) /\
     forall k, get order max_fanout p' root' k = Ok (if decide (k = key) then None else M !! k)).
Proof.
  intros Hsh Hm Hp HM Hn. destruct (remove_ok p sh n root M key) as (root' & l & E & Hnew & Hold & Hno); [done..|].
  exists root', l. split_and!; [done | intros k; eapply get_ok; [by apply Hold | lia] | done |].
  intros Hr. specialize (Hnew Hr). split; [done|]. intros k. rewrite (get_ok order max_fanout _ _ _ _ _ k Hnew) by lia.
  destruct (decide (k = key)) as [->|]; [by rewrite lookup_delete_eq | by rewrite lookup_delete_ne].
Qed.
End Remove.

(** * Examples *)

Lemma remove_get_witness :
  exists root' l, remove sample_hash 2 8 sample_log sample_root [2] = Ok (root', staged sample_hash sample_log l) /\
    get 2 8 (staged sample_hash sample_log l) sample_root [2] = Ok (Some [20]) /\
    get 2 8 (staged sample_hash sample_log l) root' [2] = Ok None /\
    get 2 8 (staged sample_hash sample_log l) root' [3] = Ok (Some [30]).
Proof.
  destruct (remove_get sample_hash 2 8 ltac:(lia) ltac:(lia) sample_hash_wf sample_log sample_shape 1 sample_root _ [2]
    sample_shape_ok eq_refl (Log_ok _) sample_holds ltac:(lia)) as (root' & l & E & Hold & _ & Hh).
  exists root', l. split; [exact E|]. split; [exact (Hold [2])|].
  assert (Hr : reads_back sample_hash (staged sample_hash sample_log l) l) by (clear Hold Hh; eval_reads_back E).
  destruct (Hh Hr) as [_ Hg]. split; [exact (Hg [2]) | exact (Hg [3])].
Defined.
