(* ===== verification/ScanSpec.v ===== *)
(** [scan], [scan_all], [count] and [verify] of [store/index.rs] against the
    sorted list an index stands for: a scan emits the first [limit] entries
    of the range, in key order. *)
From S2P Require Import Prelude Binomial Codec Rank Repr Descriptor Context Keys BTree BTreeNode BTreeSpec BTreeCheck IndexSpec.

(** * Ranges of a sorted list *)

Definition in_range (lo hi : option bytes) (kv : bytes * bytes) : Prop := above lo kv.1 /\ below hi kv.1.
#[global] Instance in_range_dec lo hi kv : Decision (in_range lo hi kv).
Proof. unfold in_range. apply _. Defined.

(** The entries in the range [lo, hi). *)
Definition range (lo hi : option bytes) (m : kvs) : kvs := base.filter (in_range lo hi) m.

Lemma range_app lo hi m1 m2 : range lo hi (m1 ++ m2) = range lo hi m1 ++ range lo hi m2.
Proof. apply filter_app. Qed.
Lemma range_all lo hi m : within lo hi m -> range lo hi m = m.
Proof. induction 1 as [|kv m Hkv _ IH]; [done|]. unfold range. rewrite filter_cons_True by done. by f_equal. Qed.
Lemma range_none lo hi m : Forall (fun kv => ~ in_range lo hi kv) m -> range lo hi m = [].
Proof. induction 1 as [|kv m Hkv _ IH]; [done|]. unfold range. by rewrite filter_cons_False. Qed.
Lemma range_ext lo hi lo' hi' m :
  Forall (fun kv => in_range lo hi kv <-> in_range lo' hi' kv) m -> range lo hi m = range lo' hi' m.
Proof.
  induction 1 as [|kv m Hkv _ IH]; [done|]. unfold range in *. destruct (decide (in_range lo hi kv)).
  - rewrite !filter_cons_True by tauto. by rewrite IH.
  - rewrite !filter_cons_False by tauto. done.
Qed.
Lemma range_length lo hi m : zlen (range lo hi m) <= zlen m.
Proof. unfold zlen. apply Nat2Z.inj_le, length_filter. Qed.

Definition last_key (l : list EntryPair) : option bytes := fst <$> last l.

(** * What a scan does to its state *)

(** From [st] the entries [l] were offered. *)
Record scans (limit : Z) (st : ScanState) (l : kvs) (st' : ScanState) : Prop := {
  scn_out : sc_out st' = take (Z.to_nat limit) (sc_out st ++ l);
  scn_more : limit < zlen (sc_out st ++ l) -> sc_has_more st' = true;
  scn_mono : sc_has_more st = true -> sc_has_more st' = true;
  scn_full : sc_has_more st' = true -> sc_has_more st = true \/ limit <= zlen (sc_out st');
  scn_last : sc_last_key st = last_key (sc_out st) -> sc_last_key st' = last_key (sc_out st')
}.

Lemma scans_bound limit st l st' : 0 <= limit -> scans limit st l st' -> zlen (sc_out st') <= limit.
Proof. intros ? H. rewrite (scn_out _ _ _ _ H). unfold zlen. rewrite length_take. lia. Qed.

Lemma take_small {A} limit (l : list A) : zlen l <= limit -> take (Z.to_nat limit) l = l.
Proof. intros. apply take_ge. unfold zlen in *. lia. Qed.

Lemma scans_nil limit st : zlen (sc_out st) <= limit -> scans limit st [] st.
Proof. intros Hl. split; rewrite ?app_nil_r; try done; [by rewrite take_small | lia | by left]. Qed.

Lemma scans_full limit st l : zlen (sc_out st) = limit -> scans limit st l (scan_full st).
Proof.
  intros Hl. split; cbn; try done; [|intros _; right; lia].
  rewrite take_app_le by (unfold zlen in *; lia). by rewrite take_small by lia.
Qed.

Lemma take_take_app {A} n (a b : list A) : take n (take n a ++ b) = take n (a ++ b).
Proof. rewrite !take_app, take_take, Nat.min_id, length_take. do 2 f_equal. lia. Qed.

Lemma scans_app limit st l1 st1 l2 st2 :
  0 <= limit -> scans limit st l1 st1 -> scans limit st1 l2 st2 -> scans limit st (l1 ++ l2) st2.
Proof.
  intros H0 H1 H2. pose proof (scans_bound _ _ _ _ H0 H1) as Hb.
  assert (Eout : sc_out st2 = take (Z.to_nat limit) (sc_out st ++ l1 ++ l2)).
  { rewrite (scn_out _ _ _ _ H2), (scn_out _ _ _ _ H1), app_assoc. apply take_take_app. }
  split; [done | | | |].
  - intros Hlt. destruct (Z.ltb_spec limit (zlen (sc_out st ++ l1))) as [Hc|Hc].
    + by apply (scn_mono _ _ _ _ H2), (scn_more _ _ _ _ H1).
    + apply H2. rewrite (scn_out _ _ _ _ H1), take_small by done. by rewrite <-app_assoc.
  - intros Hm. by apply (scn_mono _ _ _ _ H2), (scn_mono _ _ _ _ H1).
  - intros Hm. destruct (scn_full _ _ _ _ H2 Hm) as [Hm1|]; [|by right].
    destruct (scn_full _ _ _ _ H1 Hm1) as [|Hfull]; [by left|]. right.
    rewrite (scn_out _ _ _ _ H2). unfold zlen in *. rewrite length_take, length_app. lia.
  - intros Hl. by apply (scn_last _ _ _ _ H2), (scn_last _ _ _ _ H1).
Qed.

(** An entry emitted. *)
Lemma scans_emit limit st e :
  zlen (sc_out st) < limit -> scans limit st [(e_key e, e_value e)] (scan_emit e st).
Proof.
  intros Hl. split; cbn.
  - rewrite take_small; [done|]. rewrite zlen_app. change (zlen [(e_key e, e_value e)]) with 1. lia.
  - rewrite zlen_app. change (zlen [(e_key e, e_value e)]) with 1. lia.
  - done.
  - by left.
  - intros _. unfold last_key. by rewrite last_snoc.
Qed.

Lemma scan_leaf_ok limit start end_ es st :
  sorted (map e_key es) -> zlen (sc_out st) <= limit ->
  scans limit st (range start end_ (pairs es)) (scan_leaf es start end_ limit st).
Proof.
  intros Hs Hl. pose proof (zlen_nonneg (sc_out st)). revert st Hl H. induction es as [|e es IH]; intros st Hl H0; cbn [scan_leaf pairs map].
  { by apply scans_nil. }
  cbn [map] in Hs. apply sorted_cons_inv in Hs as [Hs Hf]. rewrite Forall_fmap in Hf.
  destruct (match start with Some s => bool_decide (klt (e_key e) s) | None => false end) eqn:Est.
  { unfold range. rewrite filter_cons_False; [by apply IH|]. intros [Ha _]. destruct start as [s|]; [|done].
    apply bool_decide_eq_true in Est. cbn in Ha. korder. }
  destruct (match end_ with Some en => negb (bool_decide (klt (e_key e) en)) | None => false end) eqn:Een.
  { rewrite range_none; [by apply scans_nil|]. destruct end_ as [en|]; [|done].
    apply negb_true_iff, bool_decide_eq_false in Een.
    constructor; [intros [_ Hb]; by apply Een|]. rewrite Forall_fmap. eapply Forall_impl; [exact Hf|].
    intros e' Hlt [_ Hb]. apply Een. cbn in *. korder. }
  destruct (Z.leb_spec limit (zlen (sc_out st))); [apply scans_full; lia|].
  unfold range. rewrite filter_cons_True.
  - apply (scans_app _ _ [(e_key e, e_value e)] (scan_emit e st)); [lia | by apply scans_emit |].
    apply IH; [done | | apply zlen_nonneg]. cbn [scan_emit sc_out]. rewrite zlen_app. change (zlen [(e_key e, e_value e)]) with 1. lia.
  - split; cbn.
    + destruct start as [s|]; [|done]. apply bool_decide_eq_false in Est. cbn. destruct (cmp_key_spec (e_key e) s); korder.
    + destruct end_ as [en|]; [|done]. apply negb_false_iff, bool_decide_eq_true in Een. done.
Qed.

(** The bounds handed to a child select the same entries of its range. *)
Lemma range_min_bound lo hi s e m : within lo hi m -> range s (min_bound hi e) m = range s e m.
Proof.
  intros Hw. apply range_ext. eapply Forall_impl; [exact Hw|]. intros kv [_ Hb]. unfold in_range.
  enough (below (min_bound hi e) kv.1 <-> below e kv.1) by tauto.
  destruct hi as [h|], e as [e|]; cbn in *; try done. case_bool_decide; cbn; [done|].
  split; [|done]. intros. destruct (cmp_key_spec e h); [by subst | done |]. korder.
Qed.
Lemma range_start k hi s e m :
  within (Some k) hi m ->
  range (match s with Some s => if bool_decide (klt s k) then None else Some s | None => None end) e m = range s e m.
Proof.
  intros Hw. destruct s as [s|]; [|done]. case_bool_decide as Hlt; [|done]. apply range_ext.
  eapply Forall_impl; [exact Hw|]. intros kv [Ha _]. unfold in_range. cbn in *. enough (kle s kv.1) by tauto. korder.
Qed.

Section Scans.
Context {P : Type} `{ProviderLaws P} (order max_fanout : Z).
Implicit Types (p : P) (sh : Shape) (n : nat) (m : kvs) (M : gmap bytes bytes).

Abbreviation tree := (tree order max_fanout).
Abbreviation index := (index order max_fanout).

(** The children of a node, scanned in turn. *)
Lemma scan_children_ok (T : ChunkId -> option bytes -> option bytes -> kvs -> Prop) rec start end_ limit es hi m st :
  0 <= limit ->
  (forall c lo hi m, T c lo hi m -> within lo hi m /\ sorted (map fst m) /\ m <> []) ->
  (forall c lo hi m s e st, T c lo hi m -> zlen (sc_out st) <= limit ->
     exists st', rec c s e st = Ok st' /\ scans limit st (range s e m) st') ->
  Forall child_entry_ok es -> kids T (eslots es) hi m -> zlen (sc_out st) <= limit ->
  exists st', scan_children rec es start end_ limit st = Ok st' /\ scans limit st (range start end_ m) st'.
Proof.
  intros Hlim HT Hrec Hok. revert m st. induction Hok as [|e es [_ Hv] _ IH]; intros m st; cbn [scan_children eslots map kids].
  { intros -> Hl. exists st. split; [done | by apply scans_nil]. }
  intros (m1 & m2 & -> & Ht & Hk) Hl. destruct (Z.leb_spec limit (zlen (sc_out st))).
  { exists (scan_full st). split; [done|]. apply scans_full. lia. }
  rewrite child_id_ok by done. cbn [rbind]. destruct (HT _ _ _ _ Ht) as (Hw & _).
  set (cs := match start with Some s => if bool_decide (klt s (e_key e)) then None else Some s | None => None end).
  destruct (Hrec _ _ _ _ cs (min_bound (e_key <$> head es) end_) st Ht Hl) as (st1 & -> & Hs1). cbn [rbind].
  destruct (IH m2 st1 Hk (scans_bound _ _ _ _ Hlim Hs1)) as (st2 & -> & Hs2). exists st2. split; [done|].
  rewrite range_app. eapply scans_app; [done | | exact Hs2].
  unfold cs in Hs1. erewrite range_start in Hs1 by exact Hw.
  assert (Hmin : range start (min_bound (e_key <$> head es) end_) m1 = range start end_ m1); [|by rewrite <-Hmin].
  destruct es as [|e' es]; cbn [head fmap option_fmap option_map eslots map next_lo] in *;
    [by destruct end_ | by apply (range_min_bound (Some (e_key e)) (Some (e_key e')))].
Qed.

Lemma scan_rec_ok sh n levels p id lo hi m start end_ limit st :
  0 <= limit -> (n < levels)%nat -> tree p sh n id lo hi m -> zlen (sc_out st) <= limit ->
  exists st', scan_rec order max_fanout levels p id start end_ limit st = Ok st' /\
    scans limit st (range start end_ m) st'.
Proof.
  intros Hlim. revert n id lo hi m start end_ st. induction levels as [|levels IH]; intros n id lo hi m start end_ st Hn Ht Hl; [lia|].
  cbn [scan_rec]. destruct (Z.leb_spec limit (zlen (sc_out st))).
  { exists (scan_full st). split; [done|]. apply scans_full. lia. }
  rewrite (tree_nonzero _ _ _ _ _ _ _ _ _ Ht).
  apply tree_inv in Ht as [(es & -> & Hok & _ & -> & _)|(n' & c & es & -> & -> & Hok & _ & Hkids)]; cbn [rbind].
  { eexists. split; [done|]. apply scan_leaf_ok; [apply Hok | done]. }
  destruct Hkids as (m1 & m2 & -> & Ht & Hk). destruct (tree_within _ _ _ _ _ _ _ _ _ Ht) as (Hw & _).
  set (skip := match start with Some _ => _ | None => false end).
  set (fe := min_bound (e_key <$> head es) end_).
  assert (Hfirst : exists st1,
    (if negb skip then scan_rec order max_fanout levels p c start fe limit st else Ok st) = Ok st1 /\
    scans limit st (range start end_ m1) st1).
  { assert (Hmin : range start fe m1 = range start end_ m1).
    { unfold fe. destruct es as [|e es]; cbn [head fmap option_fmap option_map eslots map next_lo] in *;
        [by destruct end_ | by eapply range_min_bound]. }
    destruct (negb skip) eqn:Eskip.
    - destruct (IH n' c lo (next_lo (eslots es) hi) m1 start fe st) as (st1 & E & Hs1); [lia | exact Ht | done |]. exists st1.
      by rewrite <-Hmin.
    - exists st. split; [done|]. rewrite range_none; [by apply scans_nil|].
      apply negb_false_iff in Eskip. unfold skip in Eskip. destruct start as [s|], es as [|e es]; try done.
      apply negb_true_iff, bool_decide_eq_false in Eskip. eapply Forall_impl; [exact Hw|].
      intros kv [_ Hb] [Ha _]. cbn in *. apply Eskip. korder. }
  destruct Hfirst as (st1 & -> & Hs1). cbn [rbind].
  destruct (scan_children_ok (tree p sh n') (fun c s e st => scan_rec order max_fanout levels p c s e limit st)
    start end_ limit es hi m2 st1) as (st2 & -> & Hs2); [done | intros; by eapply tree_within | | apply Hok | done | by eapply scans_bound |].
  { intros. eapply IH; [|eassumption | done]. lia. }
  exists st2. split; [done|]. rewrite range_app. by eapply scans_app.
Qed.

(** A scan of the index that stands for the sorted list [m] returns the
    first [limit] entries of [m] in the half-open range, in key order; when
    it leaves entries out it says so, when it says so the limit was reached,
    and the reported last key is the key of the last entry returned. *)
Lemma scan_ok p sh n root m start end_ limit :
  index p sh n root m -> (n <= 128)%nat -> 0 <= limit ->
  exists more, scan order max_fanout p root start end_ limit =
      Ok (take (Z.to_nat limit) (range start end_ m), more, last_key (take (Z.to_nat limit) (range start end_ m))) /\
    (limit < zlen (range start end_ m) -> more = true) /\
    (more = true -> zlen (take (Z.to_nat limit) (range start end_ m)) = limit).
Proof.
  intros Hix Hn Hlim. unfold scan. destruct Hix as [[-> ->]|Ht].
  { change (ChunkId_is_zero ChunkId_ZERO) with true. cbv iota. exists false. change (range start end_ []) with (@nil EntryPair).
    rewrite take_nil. split_and!; [done | unfold zlen; cbn; lia | done]. }
  rewrite (tree_nonzero _ _ _ _ _ _ _ _ _ Ht).
  destruct (scan_rec_ok sh n MAX_LEVELS p root None None m start end_ limit ScanState_new Hlim)
    as (st & -> & Hst); [unfold MAX_LEVELS; lia | done | cbn; unfold zlen; cbn; lia |]. cbn [rbind].
  assert (Eo : sc_out st = take (Z.to_nat limit) (range start end_ m)) by apply (scn_out _ _ _ _ Hst). exists (sc_has_more st).
  rewrite <-Eo, (scn_last _ _ _ _ Hst) by done. split_and!; [done | apply Hst|].
  intros Hm. destruct (scn_full _ _ _ _ Hst Hm) as [|Hf]; [done|].
  apply Z.le_antisymm; [exact (scans_bound _ _ _ _ Hlim Hst) | done].
Qed.

Lemma scan_all_ok p sh n root m :
  index p sh n root m -> (n <= 128)%nat -> zlen m < 2 ^ 64 ->
  scan_all order max_fanout p root = Ok m /\ count order max_fanout p root = Ok (zlen m).
Proof.
  intros Hix Hn Hl.
  assert (E : scan_all order max_fanout p root = Ok m); [|by unfold count; rewrite E].
  assert (Hr : range None None m = m) by (apply range_all, Forall_true; done).
  unfold scan_all, scan. destruct Hix as [[-> ->]|Ht].
  { done. }
  rewrite (tree_nonzero _ _ _ _ _ _ _ _ _ Ht).
  destruct (scan_rec_ok sh n MAX_LEVELS p root None None m None None (2 ^ 64 - 1) ScanState_new)
    as (st & -> & Hst); [done | unfold MAX_LEVELS; lia | done | cbn; unfold zlen; cbn; lia |]. cbn [rbind].
  assert (Hle : zlen m <= 2 ^ 64 - 1) by lia.
  rewrite (scn_out _ _ _ _ Hst), Hr, take_small; [done | exact Hle].
Qed.

(** Without a limit in reach, [scan_all] returns the whole sorted list the
    index stands for, and [count] its length. *)
Theorem scan_all_spec p sh n root m :
  index p sh n root m -> (n <= 128)%nat -> zlen m < 2 ^ 64 ->
  scan_all order max_fanout p root = Ok m /\ count order max_fanout p root = Ok (zlen m).
Proof. apply scan_all_ok. Qed.
End Scans.

(** ** Verification *)

Section Verify.
Context {P : Type} `{ProviderLaws P} (order max_fanout : Z).
Implicit Types (p : P) (sh : Shape) (n : nat) (m : kvs).

Abbreviation tree := (tree order max_fanout).

Lemma verify_children_ok p sh n es hi m rec total :
  (forall c lo hi m, tree p sh n c lo hi m -> zlen m < 2 ^ 64 -> rec c = Ok (zlen m)) ->
  Forall child_entry_ok es -> kids (tree p sh n) (eslots es) hi m -> 0 <= total -> total + zlen m < 2 ^ 64 ->
  verify_children rec es total = Ok (total + zlen m).
Proof.
  intros Hrec Hok. revert m total. induction Hok as [|e es [_ Hv] _ IH]; intros m total; cbn [verify_children eslots map kids].
  { intros -> _ _. rewrite Z.add_0_r. done. }
  intros (m1 & m2 & -> & Ht & Hk) H0' Hl. rewrite zlen_app in *. pose proof (zlen_nonneg m1). pose proof (zlen_nonneg m2).
  rewrite child_id_ok by done. cbn [rbind]. rewrite (tree_nonzero _ _ _ _ _ _ _ _ _ Ht).
  rewrite (Hrec _ _ _ _ Ht) by lia. cbn [rbind].
  assert (E : checked_add 64 total (zlen m1) = Some (total + zlen m1)).
  { apply checked_add_Some. lia. }
  rewrite E. cbn [ok_or rbind]. rewrite (IH m2) by (done || lia). f_equal; lia.
Qed.

Lemma verify_rec_ok sh n levels p id lo hi m :
  (n < levels)%nat -> tree p sh n id lo hi m -> zlen m < 2 ^ 64 -> verify_rec order max_fanout levels p id = Ok (zlen m).
Proof.
  revert n id lo hi m. induction levels as [|levels IH]; intros n id lo hi m Hn Ht Hl; [lia|]. cbn [verify_rec].
  apply tree_inv in Ht as [(es & -> & _ & _ & -> & _)|(n' & c & es & -> & -> & Hok & _ & Hkids)]; cbn [rbind].
  { by rewrite zlen_pairs. }
  destruct Hkids as (m1 & m2 & -> & Ht & Hk). rewrite zlen_app in *. pose proof (zlen_nonneg m1). pose proof (zlen_nonneg m2).
  rewrite (tree_nonzero _ _ _ _ _ _ _ _ _ Ht). rewrite (IH n' c lo (next_lo (eslots es) hi) m1) by (done || lia). cbn [rbind].
  eapply verify_children_ok; [|apply Hok | exact Hk | lia | lia]. intros. eapply IH; [|eassumption | done]. lia.
Qed.

(** [verify] accepts every well-formed index of height at most 128 and
    counts exactly its keys. *)
Theorem verify_spec p sh n root m :
  index order max_fanout p sh n root m -> (n <= 128)%nat -> zlen m < 2 ^ 64 ->
  verify order max_fanout p root = Ok (zlen m).
Proof.
  intros [[-> ->]|Ht] Hn Hl; unfold verify; [done|]. rewrite (tree_nonzero _ _ _ _ _ _ _ _ _ Ht).
  eapply verify_rec_ok; [|exact Ht | done]. unfold MAX_LEVELS. lia.
Qed.
End Verify.

(** * Examples *)

Lemma sample_index : index 2 8 sample_log sample_shape 1 sample_root [([1], [10]); ([2], [20]); ([3], [30])].
Proof. right. apply tree_check_sound. by vm_compute. Qed.

Lemma scan_all_spec_witness :
  scan_all 2 8 sample_log sample_root = Ok [([1], [10]); ([2], [20]); ([3], [30])] /\ count 2 8 sample_log sample_root = Ok 3.
Proof. exact (scan_all_spec 2 8 sample_log sample_shape 1 sample_root _ sample_index ltac:(lia) ltac:(by vm_compute)). Defined.

Lemma verify_spec_witness : verify 2 8 sample_log sample_root = Ok 3.
Proof. exact (verify_spec 2 8 sample_log sample_shape 1 sample_root _ sample_index ltac:(lia) ltac:(by vm_compute)). Defined.

(** [has_more] may be set when nothing is left: the limit is reached before
    the last child is visited, and that child is past the range. *)
Example scan_has_more_spurious :
  scan 2 8 sample_log sample_root None (Some [2]) 1 = Ok ([([1], [10])], true, Some [1]) /\
  range None (Some [2]) [([1], [10]); ([2], [20]); ([3], [30])] = [([1], [10])].
Proof. by vm_compute. Qed.
