(* ===== verification/ExtentTree.v ===== *)
(** Component [store/extent_tree.rs]: the extents of a file, an index keyed by
    big-endian offsets. *)
From S2P Require Import Prelude Binomial Codec Rank Repr Descriptor Context Keys BTree.

(** [to_be_bytes] and [from_be_bytes]. *)
Definition to_be (n : nat) (z : Z) : bytes := rev (to_le n z).
Definition from_be (b : bytes) : Z := from_le (rev b).

Definition extent_key (offset : Z) : bytes := to_be 8 offset.

(** [u64::from_be_bytes(k.as_slice().try_into().expect("8-byte key"))]. *)
Definition key_offset (k : bytes) : tree_outcome Z :=
  if (length k =? 8)%nat then Ok (from_be k) else Err Panic.

Definition ExtentScan : Type := list (Z * bytes) * bool.

(** [entries.into_iter().map(..).collect()]. *)
Fixpoint decode_starts (entries : list EntryPair) : tree_outcome (list (Z * bytes)) :=
  match entries with
  | [] => Ok []
  | (k, v) :: entries' =>
      let! start := key_offset k in
      let! out := decode_starts entries' in
      Ok ((start, v) :: out)
  end.

Section ExtentTree.
Context {P : Type} `{ObjectProvider P} (content_id : bytes -> ChunkId) (order max_fanout : Z).

Definition scan_range (p : P) (extent_root : ChunkId) (start_offset end_offset limit : Z) : tree_outcome ExtentScan :=
  let! '(entries, has_more, _) :=
    scan order max_fanout p extent_root (Some (extent_key start_offset)) (Some (extent_key end_offset)) limit in
  let! out := decode_starts entries in
  Ok (out, has_more).

Definition next_extent_start (p : P) (extent_root : ChunkId) (pos : Z) : tree_outcome (option Z) :=
  let! '(entries, _) := scan_range p extent_root (saturating_add 64 pos 1) (2 ^ 64 - 1) 1 in
  Ok (fst <$> head entries).

Definition covering (p : P) (extent_root : ChunkId) (offset : Z) : tree_outcome (option (Z * bytes)) :=
  let key := extent_key (saturating_add 64 offset 1) in
  let! o := predecessor order max_fanout p extent_root key in
  match o with
  | Some (k, v) => let! start := key_offset k in Ok (Some (start, v))
  | None => Ok None
  end.

Definition extent_insert (p : P) (extent_root : ChunkId) (offset : Z) (descriptor_bytes : bytes)
  : tree_outcome (ChunkId * P) :=
  insert content_id order max_fanout p extent_root (extent_key offset) descriptor_bytes.

Definition extent_remove (p : P) (extent_root : ChunkId) (offset : Z) : tree_outcome (ChunkId * bool * P) :=
  let! before := get order max_fanout p extent_root (extent_key offset) in
  let! '(new_root, p) := remove content_id order max_fanout p extent_root (extent_key offset) in
  Ok (new_root, bool_decide (is_Some before), p).

Definition extent_scan_all (p : P) (extent_root : ChunkId) : tree_outcome (list (Z * bytes)) :=
  let! '(entries, _, _) := scan order max_fanout p extent_root None None (2 ^ 64 - 1) in
  decode_starts entries.
End ExtentTree.
