(* ===== verification/ExtentSpec.v ===== *)
(** The extent tree against a finite map from offsets to descriptors. *)
From Stdlib Require Import Sorted.
From S2P Require Import Prelude Binomial Codec Rank Repr Descriptor Context Keys SegRecord BTree BTreeNode BTreeSpec BTreeCheck IndexSpec RemoveSpec ScanSpec ExtentTree.

(** * Big-endian keys *)

Lemma cmp_key_snoc a b x y : length a = length b ->
  cmp_key (a ++ [x]) (b ++ [y]) = match cmp_key a b with Eq => x ?= y | c => c end.
Proof.
  revert b. induction a as [|u a IH]; intros [|v b] Hl; try done; cbn.
  - by destruct (x ?= y).
  - destruct (u ?= v); [|done..]. apply IH. by injection Hl.
Qed.

Lemma to_be_length n z : length (to_be n z) = n.
Proof. unfold to_be. by rewrite length_rev, length_to_le. Qed.
Lemma to_be_wf n z : wf_bytes (to_be n z).
Proof. unfold to_be, wf_bytes. apply Forall_rev, to_le_wf. Qed.
Lemma from_be_to_be n z : 0 <= z < 256 ^ Z.of_nat n -> from_be (to_be n z) = z.
Proof. intros. unfold from_be, to_be. rewrite rev_involutive. by apply from_le_to_le. Qed.

(** Lexicographic order of the keys is numeric order of the integers. *)
Lemma cmp_key_to_be n a b :
  0 <= a < 256 ^ Z.of_nat n -> 0 <= b < 256 ^ Z.of_nat n -> cmp_key (to_be n a) (to_be n b) = (a ?= b).
Proof.
  revert a b. induction n as [|n IH]; intros a b Ha Hb.
  { change (256 ^ Z.of_nat 0) with 1 in *. assert (a = b) as -> by lia. by rewrite Z.compare_refl. }
  rewrite Nat2Z.inj_succ, Z.pow_succ_r in Ha, Hb by lia.
  assert (E : forall z, to_be (S n) z = to_be n (z / 256) ++ [z mod 256]) by done. rewrite !E, cmp_key_snoc by by rewrite !to_be_length.
  rewrite IH by (split; [apply Z.div_pos; lia | apply Z.div_lt_upper_bound; lia]).
  pose proof (Z.div_mod a 256). pose proof (Z.div_mod b 256). pose proof (Z.mod_pos_bound a 256). pose proof (Z.mod_pos_bound b 256).
  destruct (Z.compare_spec (a / 256) (b / 256)), (Z.compare_spec (a mod 256) (b mod 256)), (Z.compare_spec a b); lia || done.
Qed.

Lemma extent_key_lt a b : is_u64 a -> is_u64 b -> klt (extent_key a) (extent_key b) <-> a < b.
Proof. intros. unfold klt, extent_key. rewrite cmp_key_to_be by (change (256 ^ Z.of_nat 8) with (2 ^ 64); width). apply Z.compare_lt_iff. Qed.
Lemma extent_key_inj a b : is_u64 a -> is_u64 b -> extent_key a = extent_key b -> a = b.
Proof.
  intros Ha Hb E. rewrite <-(from_be_to_be 8 a), <-(from_be_to_be 8 b) by (change (256 ^ Z.of_nat 8) with (2 ^ 64); width).
  unfold extent_key in E. by rewrite E.
Qed.
Lemma extent_key_le a b : is_u64 a -> is_u64 b -> kle (extent_key a) (extent_key b) <-> a <= b.
Proof.
  intros Ha Hb. unfold kle. rewrite extent_key_lt by done. split; [|destruct (Z.eq_dec a b); [subst; auto | left; lia]].
  intros [?|E]; [lia|]. apply extent_key_inj in E; try done. lia.
Qed.
Lemma key_offset_ok a : is_u64 a -> key_offset (extent_key a) = Ok a.
Proof.
  intros. unfold key_offset, extent_key. rewrite to_be_length. cbn [Nat.eqb].
  by rewrite from_be_to_be by (change (256 ^ Z.of_nat 8) with (2 ^ 64); width).
Qed.
Lemma extent_key_ok a : key_ok (extent_key a).
Proof. split; [apply to_be_wf|]. unfold zlen, extent_key. by rewrite to_be_length. Qed.

(** * Extents *)

(** The index maps the key of [o] to [v] exactly when [E] has an extent at
    [o] with descriptor [v]. *)
Definition extents_map (E : gmap Z bytes) (M : gmap bytes bytes) : Prop :=
  (forall o, is_Some (E !! o) -> is_u64 o) /\
  (forall k v, M !! k = Some v <-> exists o, is_u64 o /\ k = extent_key o /\ E !! o = Some v).

Lemma extents_lookup E M o : extents_map E M -> is_u64 o -> M !! extent_key o = E !! o.
Proof.
  intros [_ H] Ho. apply option_eq. intros v. rewrite H. split; [|by exists o].
  intros (o' & Ho' & E' & ?). by apply extent_key_inj in E' as ->.
Qed.
Lemma extents_insert E M o v : extents_map E M -> is_u64 o -> extents_map (<[o := v]> E) (<[extent_key o := v]> M).
Proof.
  intros [Hu H] Ho. split.
  - intros o'. destruct (decide (o = o')) as [->|]; [done|]. rewrite lookup_insert_ne by done. apply Hu.
  - intros k w. rewrite lookup_insert_Some, H. setoid_rewrite lookup_insert_Some. split.
    + intros [[<- <-]|(Hne & o' & ? & -> & ?)]; [exists o; by auto|]. exists o'. split_and!; try done. right. split; [|done].
      intros ->. done.
    + intros (o' & Ho' & -> & [[-> ->]|[Hne ?]]); [by left|]. right. split; [intros E'; by apply extent_key_inj in E'|]. by exists o'.
Qed.
Lemma extents_delete E M o : extents_map E M -> is_u64 o -> extents_map (delete o E) (delete (extent_key o) M).
Proof.
  intros [Hu H] Ho. split.
  - intros o'. destruct (decide (o = o')) as [->|]; [done|]. rewrite lookup_delete_ne by done. apply Hu.
  - intros k w. rewrite lookup_delete_Some, H. setoid_rewrite lookup_delete_Some. split.
    + intros (Hne & o' & ? & -> & ?). exists o'. split_and!; try done. intros ->. done.
    + intros (o' & Ho' & -> & Hne & ?). split; [intros E'; by apply extent_key_inj in E'|]. by exists o'.
Qed.

(** The extents in offset order. *)
Definition listing (E : gmap Z bytes) (l : list (Z * bytes)) : Prop :=
  StronglySorted Z.lt (map fst l) /\ forall o v, (o, v) ∈ l <-> E !! o = Some v.

Definition enc_extent (x : Z * bytes) : EntryPair := (extent_key x.1, x.2).

Lemma decode_starts_ok l : Forall (fun x : Z * bytes => is_u64 x.1) l -> decode_starts (map enc_extent l) = Ok l.
Proof.
  induction 1 as [|[o v] l Ho _ IH]; [done|]. cbn [map enc_extent decode_starts fst snd]. rewrite key_offset_ok by done.
  cbn [rbind]. by rewrite IH.
Qed.

Lemma extents_listing E m :
  extents_map E (to_map m) -> sorted (map fst m) ->
  exists l, listing E l /\ m = map enc_extent l /\ Forall (fun x : Z * bytes => is_u64 x.1) l.
Proof.
  intros [Hu H] Hs.
  assert (Hl : forall m0, (forall x, x ∈ m0 -> x ∈ m) ->
    exists l, m0 = map enc_extent l /\ Forall (fun x : Z * bytes => is_u64 x.1 /\ E !! x.1 = Some x.2) l).
  { induction m0 as [|[k v] m0 IH]; intros Hsub; [by exists []|].
    destruct IH as (l & -> & Hl); [intros x Hx; apply Hsub, elem_of_cons; by right|].
    assert (Hin : (k, v) ∈ m) by (apply Hsub, elem_of_cons; by left). apply elem_of_to_map in Hin; [|done].
    apply H in Hin as (o & Ho & -> & He). exists ((o, v) :: l). split; [done|]. by constructor. }
  destruct (Hl m) as (l & Em & Hf); [done|]. exists l.
  assert (Hul : Forall (fun x : Z * bytes => is_u64 x.1) l) by (eapply Forall_impl; [exact Hf|]; by intros ? [? _]).
  split_and!; [split | done | done].
  - rewrite Em, map_map in Hs. clear -Hs Hul. induction l as [|[o v] l IH]; cbn in *; [constructor|].
    apply sorted_cons_inv in Hs as [Hs Hlt]. foralls. constructor; [by apply IH|].
    apply (proj1 (Forall_fmap _ _ l)) in Hlt. apply Forall_fmap. rewrite list.Forall_forall in *. intros [o' v'] Hin.
    apply extent_key_lt; [done | by apply (H0 (o', v')) | by apply (Hlt (o', v'))].
  - intros o v. rewrite list.Forall_forall in Hf. split; [intros Hin; by apply (Hf (o, v))|]. intros He.
    assert (Hin : (extent_key o, v) ∈ m) by (apply elem_of_to_map; [done|]; apply H; exists o; split_and!; try done; apply Hu; by eexists).
    rewrite Em in Hin. apply list_elem_of_fmap in Hin as ([o' v'] & Ek & Hin). unfold enc_extent in Ek. cbn in Ek.
    apply pair_eq in Ek as [Ek ->]. apply extent_key_inj in Ek as ->; [done | apply Hu; by eexists | by apply (Hf (o', v'))].
Qed.

Lemma range_extents s e l :
  is_u64 s -> is_u64 e -> Forall (fun x : Z * bytes => is_u64 x.1) l ->
  range (Some (extent_key s)) (Some (extent_key e)) (map enc_extent l) =
  map enc_extent (base.filter (fun x : Z * bytes => s <= x.1 < e) l).
Proof.
  intros Hs He. induction 1 as [|[o v] l Ho _ IH]; [done|]. cbn [map]. unfold range in *.
  assert (Hiff : in_range (Some (extent_key s)) (Some (extent_key e)) (enc_extent (o, v)) <-> s <= o < e).
  { unfold in_range, enc_extent. cbn. rewrite extent_key_le, extent_key_lt by done. done. }
  destruct (decide (s <= o < e)) as [Hin|Hin].
  - rewrite !filter_cons_True by (done || by apply Hiff). cbn [map]. by rewrite IH.
  - rewrite !filter_cons_False by (done || by rewrite Hiff). by rewrite IH.
Qed.

Lemma Forall_filter {A} (Q R : A -> Prop) `{forall x, Decision (R x)} l : Forall Q l -> Forall Q (base.filter R l).
Proof.
  induction 1 as [|x l Hx _ IH]; [constructor|]. destruct (decide (R x)).
  - rewrite filter_cons_True by done. by constructor.
  - by rewrite filter_cons_False.
Qed.

Lemma starts_filter (R : Z * bytes -> Prop) `{forall x, Decision (R x)} l :
  StronglySorted Z.lt (map fst l) -> StronglySorted Z.lt (map fst (base.filter R l)).
Proof.
  induction l as [|x l IH]; intros Hs; [constructor|]. cbn in Hs. apply StronglySorted_inv in Hs as [Hs Hf].
  destruct (decide (R x)).
  - rewrite filter_cons_True by done. cbn. constructor; [by apply IH|].
    rewrite Forall_fmap in *. by apply Forall_filter.
  - rewrite filter_cons_False by done. by apply IH.
Qed.

Section Extents.
Context {P : Type} `{ProviderLaws P} (order max_fanout : Z).
Implicit Types (p : P) (sh : Shape) (n : nat) (E : gmap Z bytes).

(** The extent tree at [root] holds the extents [E]. *)
Definition extents p sh n (root : ChunkId) E : Prop :=
  exists M, holds order max_fanout p sh n root M /\ extents_map E M.

(** Extent scans: [scan_range] returns the first [limit] extents that
    start in the half-open window, in offset order and with their
    descriptors, never a decoding panic; a longer window is reported as
    having more. *)
Theorem scan_range_spec p sh n root E start end_ limit :
  extents p sh n root E -> (n <= 128)%nat -> is_u64 start -> is_u64 end_ -> 0 <= limit ->
  exists l more, listing E l /\
    scan_range order max_fanout p root start end_ limit =
      Ok (take (Z.to_nat limit) (base.filter (fun x : Z * bytes => start <= x.1 < end_) l), more) /\
    (limit < zlen (base.filter (fun x : Z * bytes => start <= x.1 < end_) l) -> more = true).
Proof.
  intros (M & (m & Hix & ->) & HE) Hn Hs He Hlim.
  destruct (extents_listing E m HE (index_sorted _ _ _ _ _ _ _ Hix)) as (l & Hl & -> & Hu).
  destruct (scan_ok order max_fanout p sh n root _ (Some (extent_key start)) (Some (extent_key end_)) limit Hix Hn Hlim)
    as (more & Esc & Hm & _).
  rewrite range_extents, zlen_map in * by done. exists l, more. split; [done|]. split; [|done].
  unfold scan_range. rewrite Esc. cbn [rbind]. rewrite List.firstn_map, decode_starts_ok; [done|].
  by apply Forall_take, Forall_filter.
Qed.

(** [next_extent_start] returns the least extent start above [pos] (the
    last u64 offset is outside the window it scans), and nothing only when
    no extent starts there. *)
Theorem next_extent_start_spec p sh n root E pos :
  extents p sh n root E -> (n <= 128)%nat -> is_u64 pos ->
  exists r, next_extent_start order max_fanout p root pos = Ok r /\
    match r with
    | Some o => is_Some (E !! o) /\ pos < o < 2 ^ 64 - 1 /\ forall o', is_Some (E !! o') -> pos < o' -> o <= o'
    | None => forall o', is_Some (E !! o') -> o' <= pos \/ o' = 2 ^ 64 - 1
    end.
Proof.
  intros HE Hn Hp. unfold next_extent_start.
  assert (Hs : is_u64 (saturating_add 64 pos 1)) by (unfold saturating_add; width).
  destruct (scan_range_spec p sh n root E (saturating_add 64 pos 1) (2 ^ 64 - 1) 1) as (l & more & [Hso Hl] & -> & _);
    try done. cbn [rbind].
  set (f := base.filter _ l). eexists. split; [reflexivity|].
  assert (Hin : forall o v, (o, v) ∈ f <-> E !! o = Some v /\ pos < o < 2 ^ 64 - 1).
  { intros o v. unfold f. rewrite list_elem_of_filter, Hl.
    enough (saturating_add 64 pos 1 <= o < 2 ^ 64 - 1 <-> pos < o < 2 ^ 64 - 1) by (cbn [fst]; tauto).
    unfold saturating_add. width. }
  assert (Hsf : StronglySorted Z.lt (map fst f)).
  { by apply starts_filter. }
  change (Z.to_nat 1) with 1%nat. destruct f as [|[o v] f']; cbn.
  - intros o' [v' Ho']. destruct HE as (M & _ & Hu & _). assert (is_u64 o') by (apply Hu; by eexists).
    destruct (decide (pos < o' < 2 ^ 64 - 1)); [|width].
    assert ((o', v') ∈ @nil (Z * bytes)) as []%elem_of_nil by by apply Hin.
  - assert (Hov : E !! o = Some v /\ pos < o < 2 ^ 64 - 1) by (apply Hin, elem_of_cons; by left).
    split; [exists v; apply Hov|]. split; [apply Hov|]. intros o' [v' Ho'] Hlt.
    destruct (Z.lt_ge_cases o' (2 ^ 64 - 1)); [|lia].
    assert (Hin' : (o', v') ∈ (o, v) :: f') by (apply Hin; split; [done | lia]).
    apply elem_of_cons in Hin' as [[= -> _]|Hin']; [lia|]. cbn in Hsf. apply StronglySorted_inv in Hsf as [_ Hf].
    rewrite list.Forall_forall in Hf. apply Z.lt_le_incl, Hf. by apply (list_elem_of_fmap_2 fst _ (o', v')).
Qed.

Context (content_id : bytes -> ChunkId) (Horder : 2 <= order < 2 ^ 15) (Hfan : order <= max_fanout).
Context (Hid : forall b, wf_id (content_id b)).

(** Extent updates: inserting an extent binds its offset, removing one
    deletes it and reports whether it was there; in both cases the previous
    tree is still what it was. *)
Theorem extent_update_spec p sh n root E offset desc :
  shape_ok order max_fanout sh -> sh_min sh = 1 -> prov_ok p -> extents p sh n root E -> (n <= 128)%nat ->
  is_u64 offset -> value_ok desc ->
  (exists root' l, extent_insert content_id order max_fanout p root offset desc = Ok (root', staged content_id p l) /\
    extents (staged content_id p l) sh n root E /\
    (reads_back content_id (staged content_id p l) l ->
     extents (staged content_id p l) sh (S n) root' (<[offset := desc]> E))) /\
  (exists root' l, extent_remove content_id order max_fanout p root offset =
      Ok (root', bool_decide (is_Some (E !! offset)), staged content_id p l) /\
    extents (staged content_id p l) sh n root E /\
    (reads_back content_id (staged content_id p l) l ->
     extents (staged content_id p l) sh n root' (delete offset E))).
Proof.
  intros Hsh Hmin Hp (M & HM & HE) Hn Ho Hv. split.
  - destruct (insert_ok content_id order max_fanout Horder Hfan Hid p sh n root M (extent_key offset) desc)
      as (root' & l & Ei & Hnew & Hold); try done; [apply extent_key_ok|].
    exists root', l. split; [exact Ei|]. split; [exists M; by auto|].
    intros Hr. exists (<[extent_key offset := desc]> M). split; [by apply Hnew | by apply extents_insert].
  - unfold extent_remove. rewrite (get_ok order max_fanout p sh n root M _ HM Hn). cbn [rbind].
    destruct (remove_ok content_id order max_fanout Horder Hfan Hid p sh n root M (extent_key offset))
      as (root' & l & -> & Hnew & Hold & _); try done. cbn [rbind].
    exists root', l. rewrite (extents_lookup E M) by done. split; [done|]. split; [exists M; by auto|].
    intros Hr. exists (delete (extent_key offset) M). split; [by apply Hnew | by apply extents_delete].
Qed.
End Extents.

(** * The extent that covers an offset *)

(** Entries of a leaf below a key. *)
Definition entries_below (key : bytes) (m : kvs) : kvs := base.filter (fun kv : bytes * bytes => klt kv.1 key) m.

Lemma entries_below_split key es1 es2 :
  entries_lt es1 key -> Forall (fun e => ~ klt (e_key e) key) es2 -> entries_below key (pairs (es1 ++ es2)) = pairs es1.
Proof.
  intros H1 H2. unfold entries_below. rewrite pairs_app, filter_app.
  assert (E1 : base.filter (fun kv : bytes * bytes => klt kv.1 key) (pairs es1) = pairs es1).
  { induction H1 as [|e es He _ IH]; [done|]. cbn [pairs map] in *. rewrite filter_cons_True by done. by f_equal. }
  assert (E2 : base.filter (fun kv : bytes * bytes => klt kv.1 key) (pairs es2) = []).
  { induction H2 as [|e es He _ IH]; [done|]. cbn [pairs map] in *. by rewrite filter_cons_False. }
  by rewrite E1, E2, app_nil_r.
Qed.

Section Predecessor.
Context {P : Type} `{ProviderLaws P} (order max_fanout : Z).
Implicit Types (p : P).

(** [predecessor] on an index that is one leaf: for a key that is absent it
    returns the entry with the greatest smaller key, but for a key that is
    present it returns nothing, whatever smaller keys the leaf holds. *)
Theorem predecessor_leaf p root es key :
  fetch order max_fanout p root = Ok (Leaf es) -> sorted (map e_key es) ->
  predecessor order max_fanout p root key =
    Ok (if decide (is_Some (assoc key (pairs es))) then None else last (entries_below key (pairs es))).
Proof.
  intros Hf Hs. unfold predecessor. pose proof Hf as Hz. apply fetch_Ok in Hz as [-> _].
  assert (exists n, MAX_LEVELS = S n) as [n ->] by by exists 128%nat. cbn [predecessor_loop]. rewrite Hf. cbn [rbind].
  pose proof (search_spec key es Hs) as Hsp. destruct (search key es) as [i|i].
  - destruct Hsp as (es1 & e & es2 & -> & _ & Hk & Hlt & _). rewrite assoc_pairs_found by done. by rewrite decide_True.
  - destruct Hsp as (es1 & es2 & -> & <- & Hlt & Hgt). rewrite assoc_pairs_missing by done.
    rewrite decide_False by by intros [? ?]. rewrite entries_below_split; [|done|].
    2: { eapply Forall_impl; [exact Hgt|]. cbn. intros e He He'. by apply (klt_irrefl key), (klt_trans _ (e_key e)). }
    destruct es1 as [|e es1' _] using rev_ind; [done|]. rewrite length_app. cbn [length].
    rewrite Nat.add_1_r, <-app_assoc. cbn [app]. rewrite get_idx_middle. cbn [rbind]. rewrite pairs_app.
    cbn [pairs map]. by rewrite last_snoc.
Qed.
End Predecessor.

(** * Examples *)

(** Two extents, at 0 and at 65536, in one leaf. *)
Definition extent_sample : tree_outcome (ChunkId * Log) :=
  let! '(root, p) := extent_insert sample_hash 8 4096 ([] : Log) ChunkId_ZERO 0 [1] in
  extent_insert sample_hash 8 4096 p root 65536 [2].
Definition extent_log : Log := Eval vm_compute in state_of [] extent_sample.
Definition extent_root : ChunkId := Eval vm_compute in root_of extent_sample.
Definition extent_shape : Shape := {| sh_leaf := 8; sh_min := 1 |}.
Definition extent_map : gmap Z bytes := {[ 0 := [1]; 65536 := [2] ]}.

Lemma extent_sample_holds : extents 8 4096 extent_log extent_shape 0 extent_root extent_map.
Proof.
  exists (to_map [(extent_key 0, [1]); (extent_key 65536, [2])]). split.
  - eval_holds [(extent_key 0, [1%Z]); (extent_key 65536, [2%Z])].
  - split.
    + intros o [v Ho]. unfold extent_map in Ho. rewrite lookup_insert_Some, lookup_singleton_Some in Ho. width.
    + intros k v. unfold extent_map, to_map. cbn [list_to_map foldr]. setoid_rewrite lookup_insert_Some.
      setoid_rewrite lookup_singleton_Some. rewrite lookup_insert_Some. split.
      * intros [[<- <-]|[Hne [[<- <-]|[_ ?]]]]; [exists 0 | exists 65536 | done]; (split; [width|]); split; try done; [by left|].
        right. done.
      * intros (o & Ho & -> & [[<- <-]|[Hne [<- <-]]]); [by left|]. right. split; [by vm_compute | by left].
Qed.

Lemma scan_range_spec_witness :
  exists l more, listing extent_map l /\
    scan_range 8 4096 extent_log extent_root 1 70000 10 =
      Ok (take 10 (base.filter (fun x : Z * bytes => 1 <= x.1 < 70000) l), more).
Proof.
  destruct (scan_range_spec 8 4096 extent_log extent_shape 0 extent_root extent_map 1 70000 10 extent_sample_holds
    ltac:(lia) ltac:(width) ltac:(width) ltac:(lia)) as (l & more & Hl & E & _).
  exists l, more. split; [exact Hl | exact E].
Defined.

Lemma next_extent_start_spec_witness :
  exists r, next_extent_start 8 4096 extent_log extent_root 5 = Ok r /\
    match r with
    | Some o => is_Some (extent_map !! o) /\ 5 < o < 2 ^ 64 - 1 /\ forall o', is_Some (extent_map !! o') -> 5 < o' -> o <= o'
    | None => forall o', is_Some (extent_map !! o') -> o' <= 5 \/ o' = 2 ^ 64 - 1
    end.
Proof.
  exact (next_extent_start_spec 8 4096 extent_log extent_shape 0 extent_root extent_map 5 extent_sample_holds
    ltac:(lia) ltac:(width)).
Defined.

Lemma extent_update_spec_witness :
  exists root' l, extent_remove sample_hash 8 4096 extent_log extent_root 0 = Ok (root', true, staged sample_hash extent_log l) /\
    extents 8 4096 (staged sample_hash extent_log l) extent_shape 0 root' (delete 0 extent_map).
Proof.
  destruct (extent_update_spec 8 4096 sample_hash ltac:(lia) ltac:(lia) sample_hash_wf extent_log extent_shape 0 extent_root
    extent_map 0 [7] ltac:(by vm_compute) eq_refl (Log_ok _) extent_sample_holds ltac:(lia) ltac:(width)
    ltac:(split; [by apply Forall_singleton | done])) as [_ (root' & l & E & _ & Hh)].
  exists root', l. split; [exact E|]. apply Hh. clear Hh. eval_reads_back E.
Defined.

Definition extent_leaf : list Entry :=
  [{| e_key := extent_key 0; e_value := [1] |}; {| e_key := extent_key 65536; e_value := [2] |}].
Lemma extent_leaf_fetch : fetch 8 4096 extent_log extent_root = Ok (Leaf extent_leaf).
Proof. by vm_compute. Qed.

Lemma predecessor_leaf_witness :
  predecessor 8 4096 extent_log extent_root (extent_key 65536) = Ok None /\
  predecessor 8 4096 extent_log extent_root (extent_key 65535) = Ok (Some (extent_key 0, [1])).
Proof.
  assert (Hs : sorted (map e_key extent_leaf)) by repeat constructor.
  split; etransitivity; [| | |]; [exact (predecessor_leaf 8 4096 _ _ _ (extent_key 65536) extent_leaf_fetch Hs) |
    vm_compute; reflexivity | exact (predecessor_leaf 8 4096 _ _ _ (extent_key 65535) extent_leaf_fetch Hs) |
    vm_compute; reflexivity].
Defined.

(** The last byte of an extent whose neighbour starts right after it is
    reported as uncovered. *)
Example covering_misses :
  covering 8 4096 extent_log extent_root 65534 = Ok (Some (0, [1])) /\
  covering 8 4096 extent_log extent_root 65535 = Ok None.
Proof. by vm_compute. Qed.

(** With more than one leaf, the predecessor in the leaf before is missed; and
    once the key of a separator is removed, the separator itself comes back
    with the id of the child below it in the place of a value. *)
Example predecessor_across_leaves :
  predecessor 2 8 sample_log sample_root [2] = Ok None /\
  match remove sample_hash 2 8 sample_log sample_root [2] with
  | Ok (root, p) =>
      get 2 8 p root [2] = Ok None /\
      match predecessor 2 8 p root [2; 5] with Ok (Some (k, v)) => k = [2] /\ length v = 32%nat | _ => False end
  | Err _ => False
  end.
Proof. by vm_compute. Qed.
