(* ===== verification/BulkSpec.v ===== *)
(** [bulk_load] of [store/index.rs]: the levels built bottom-up from a sorted
    list form an index that stands for exactly that list, of logarithmic
    height. *)
From Stdlib Require String.
From S2P Require Import Prelude Binomial Codec Rank Repr Descriptor Context Keys SegRecord BTree BTreeNode BTreeSpec BTreeCheck IndexSpec.
Import String.StringSyntax.

(** * Chunks *)

Lemma chunks_concat {A} fuel n (l : list A) : (0 < n)%nat -> (length l <= fuel)%nat -> concat (chunks fuel n l) = l.
Proof.
  intros Hn. revert l. induction fuel as [|fuel IH]; intros [|x l] Hl; cbn in Hl; try done; [lia|].
  cbn [chunks concat]. rewrite IH by (rewrite length_drop; cbn; lia). apply take_drop.
Qed.

Lemma chunks_sizes {A} fuel n (l : list A) :
  (0 < n)%nat -> Forall (fun c : list A => (0 < length c <= n)%nat) (chunks fuel n l).
Proof.
  intros Hn. revert l. induction fuel as [|fuel IH]; intros [|x l]; try constructor; [|by apply IH].
  rewrite length_take. cbn. lia.
Qed.

Lemma chunks_count {A} fuel n (l : list A) :
  (0 < n)%nat -> (length l <= fuel)%nat -> (0 < length l)%nat ->
  (0 < length (chunks fuel n l) /\ (length (chunks fuel n l) - 1) * n < length l)%nat.
Proof.
  intros Hn. revert l. induction fuel as [|fuel IH]; intros [|x l] Hf Hl; cbn [length] in *; try lia.
  cbn [chunks length]. split; [lia|]. destruct (decide (length (x :: l) <= n)%nat) as [Hs|Hs].
  - rewrite (drop_ge (x :: l) n) by done. destruct fuel; cbn; lia.
  - destruct (IH (drop n (x :: l))) as [H1 H2]; rewrite ?length_drop; cbn [length] in *; try lia.
    rewrite length_drop in H2. cbn [length] in H2. nia.
Qed.

(** * Levels *)

Abbreviation level := (list (ChunkId * bytes)).
Definition level_slots (lv : level) : list Slot := map (fun s => (Some s.2, s.1)) lv.
Definition level_ok (lv : level) : Prop := Forall (fun s => wf_id s.1 /\ key_ok s.2) lv.

Lemma within_chunk k (v : bytes) (c rest : kvs) :
  sorted (map fst (((k, v) :: c) ++ rest)) -> within (Some k) (fst <$> head rest) ((k, v) :: c).
Proof.
  intros Hs. rewrite map_app in Hs. apply sorted_app_inv in Hs as (Hc & _ & Hcr).
  unfold within. rewrite list.Forall_forall. intros kv Hin. split.
  - cbn in Hc. apply sorted_cons_inv in Hc as [_ Hf]. apply elem_of_cons in Hin as [->|Hin]; [by right|].
    left. rewrite Forall_fmap, list.Forall_forall in Hf. by apply Hf.
  - destruct rest as [|kv' rest]; [done|]. cbn. apply Hcr; [by apply (list_elem_of_fmap_2 fst)|].
    cbn. apply elem_of_cons. by left.
Qed.

Section Bulk.
Context {P : Type} `{ProviderLaws P} (content_id : bytes -> ChunkId) (order max_fanout : Z).
Context (Horder : 2 <= order < 2 ^ 15) (Hfan : order <= max_fanout).
Context (Hid : forall b, wf_id (content_id b)).
Implicit Types (p : P) (sh : Shape) (n : nat) (m : kvs).

Abbreviation tree := (tree order max_fanout).

(** The outcome of building a level from [p]: its length and its first key,
    and that once what was staged reads back, the level stands for every
    list that [holds] below it. *)
Definition loads p sh n (below : P -> kvs -> Prop) (out : tree_outcome (level * P)) (size : nat) (first : option bytes) : Prop :=
  exists lv l, out = Ok (lv, staged content_id p l) /\ length lv = size /\ level_ok lv /\ snd <$> head lv = first /\
    forall p' m, reads_back content_id p' l -> below p' m -> kids (tree p' sh n) (level_slots lv) None m.

Lemma leaf_of_pairs (c : kvs) : pairs (map (fun kv : EntryPair => {| e_key := kv.1; e_value := kv.2 |}) c) = c.
Proof. unfold pairs. rewrite map_map. cbn. rewrite <-(map_id c) at 2. apply map_ext. by intros []. Qed.

Lemma load_leaves_ok p sh cs :
  order <= sh_leaf sh -> Forall (fun c : kvs => (0 < length c <= Z.to_nat order)%nat) cs -> sorted (map fst (concat cs)) ->
  Forall (fun kv : bytes * bytes => key_ok kv.1 /\ wf_bytes kv.2 /\ zlen kv.2 < 2 ^ 32) (concat cs) ->
  loads p sh 0 (fun _ m => m = concat cs) (load_leaves content_id order p cs) (length cs) (fst <$> head (concat cs)).
Proof.
  intros Hsl. revert p. induction cs as [|c cs IH]; intros p Hsz Hs Hok.
  { exists [], []. split_and!; try done; constructor. }
  apply Forall_cons_1 in Hsz as [Hc Hsz]. cbn [concat] in *. destruct c as [|[k v] c]; [cbn in Hc; lia|].
  change (get_idx ((k, v) :: c) 0) with (Ok (E := trap BTreeError) (k, v)). cbn [load_leaves rbind].
  set (es := map (fun kv : EntryPair => {| e_key := kv.1; e_value := kv.2 |}) ((k, v) :: c)).
  assert (Hz : 0 < zlen es <= order) by (unfold es; rewrite zlen_map; unfold zlen; cbn [length] in *; lia).
  assert (Hpe : pairs es = (k, v) :: c) by apply leaf_of_pairs.
  apply Forall_app in Hok as [Hokc Hok].
  assert (Hnode : node_ok (Leaf es)).
  { split; [split; [|done]|]; cbn [Node_entries].
    - unfold es. apply Forall_fmap. eapply Forall_impl; [exact Hokc|]. by intros [k' v'].
    - rewrite <-map_fst_pairs, Hpe. rewrite map_app in Hs. by apply sorted_app_inv in Hs as (? & _ & _). }
  change (get_idx ((k, v) :: c) 0) with (Ok (E := trap BTreeError) (k, v)). cbn [rbind].
  destruct (stage_node_ok content_id order max_fanout ltac:(lia) p (Leaf es) (nok_ok _ Hnode)) as (b & -> & F); [cbn [Node_len]; lia..|].
  cbn [rbind]. assert (Hs2 : sorted (map fst (concat cs))) by (rewrite map_app in Hs; by apply sorted_app_inv in Hs as (_ & ? & _)).
  destruct (IH (staged content_id p [b]) Hsz Hs2 Hok) as (lv & l & -> & Hlen & Hlv & Hfst & Hh). cbn [rbind].
  exists ((content_id b, k) :: lv), ([b] ++ l). split; [by rewrite staged_app|]. split; [cbn; by rewrite Hlen|].
  apply Forall_cons_1 in Hokc as [[Hk _] _]. split; [apply Forall_cons_2; [split; [apply Hid | done] | done]|].
  split; [done|]. intros p' m [Hr1 Hr2]%reads_back_app ->. specialize (Hh p' _ Hr2 eq_refl). exists ((k, v) :: c), (concat cs). split_and!; try done.
  assert (Hnext : next_lo (level_slots lv) None = fst <$> head (concat cs)) by (rewrite <-Hfst; by destruct lv as [|[]]).
  fold (level_slots lv). rewrite Hnext, <-Hpe. apply tree_leaf; [apply Hid | by apply F, Hnode | done | lia |].
  rewrite Hpe. by apply within_chunk.
Qed.

Lemma level_slots_app lv1 lv2 : level_slots (lv1 ++ lv2) = level_slots lv1 ++ level_slots lv2.
Proof. apply map_app. Qed.

Lemma load_internals_ok p sh n cs :
  sh_min sh <= 0 -> Forall (fun c : level => (0 < length c <= Z.to_nat (order + 1))%nat) cs -> level_ok (concat cs) ->
  loads p sh (S n) (fun p' m => kids (tree p' sh n) (level_slots (concat cs)) None m)
    (load_internals content_id order p cs) (length cs) (snd <$> head (concat cs)).
Proof.
  intros Hmin. revert p. induction cs as [|c cs IH]; intros p Hsz Hok.
  { by exists [], []. }
  apply Forall_cons_1 in Hsz as [Hc Hsz]. cbn [concat] in *. destruct c as [|[id0 k0] c]; [cbn in Hc; lia|].
  cbn [load_internals]. change (get_idx ((id0, k0) :: c) 0) with (Ok (E := trap BTreeError) (id0, k0)). cbn [rbind].
  change (drop 1 ((id0, k0) :: c)) with c.
  set (es := map (fun s : ChunkId * bytes => {| e_key := s.2; e_value := s.1 |}) c).
  apply Forall_app in Hok as [Hokc Hok]. apply Forall_cons_1 in Hokc as [[Hid0 Hk0] Hokc]. cbn in Hid0, Hk0.
  assert (Hent : entries_ok (Internal id0 es)).
  { split; [|done]. cbn [Node_entries]. unfold es. apply Forall_fmap. eapply Forall_impl; [exact Hokc|]. by intros [? ?] [? ?]. }
  assert (Hz : 0 <= zlen es <= order) by (unfold es; rewrite zlen_map; unfold zlen; cbn [length] in *; lia).
  assert (Hslots : level_slots ((id0, k0) :: c) = (Some k0, id0) :: eslots es).
  { unfold level_slots, eslots, es. cbn [map]. f_equal. by rewrite map_map. }
  destruct (stage_node_ok content_id order max_fanout ltac:(lia) p (Internal id0 es) Hent) as (b & -> & F); [cbn [Node_len]; lia..|].
  cbn [rbind]. destruct (IH (staged content_id p [b]) Hsz Hok) as (lv & l & -> & Hlen & Hlv & Hfst & Hh). cbn [rbind].
  exists ((content_id b, k0) :: lv), ([b] ++ l). split; [by rewrite staged_app|]. split; [cbn; by rewrite Hlen|].
  split; [apply Forall_cons_2; [split; [apply Hid | done] | done]|]. split; [done|].
  intros p' m [Hr1 Hr2]%reads_back_app. rewrite level_slots_app. intros (m1 & m2 & -> & K1 & K2)%kids_app.
  exists m1, m2. split; [done|]. split; [|by apply Hh]. rewrite Hslots in K1.
  assert (Hnext : next_lo (level_slots lv) None = next_lo (level_slots (concat cs)) None).
  { transitivity (snd <$> head lv); [by destruct lv as [|[]] | rewrite Hfst; by destruct (concat cs) as [|[]]]. }
  fold (level_slots lv). rewrite Hnext. apply (tree_internal order max_fanout p' sh n _ id0 es); [apply Hid | by apply F | done | lia | exact K1].
Qed.

(** Every turn of the loop shrinks the level, to at most half. *)
Lemma turn_shrinks (lv : level) cs :
  cs = chunks (length lv) (Z.to_nat (order + 1)) lv -> 1 < zlen lv -> (0 < length cs)%nat /\ 2 * zlen cs <= zlen lv.
Proof.
  intros -> Hl. assert (Hl' : (0 < length lv)%nat) by (unfold zlen in Hl; lia).
  destruct (chunks_count (length lv) (Z.to_nat (order + 1)) lv) as [H1 H2]; [lia | done | done |].
  split; [done|]. unfold zlen in *. set (x := length (chunks _ _ _)) in *. nia.
Qed.

Lemma load_levels_ok fuel p sh n lv :
  sh_min sh <= 0 -> level_ok lv -> (0 < length lv <= fuel)%nat ->
  exists k id key l, load_levels content_id order fuel p lv = Ok ([(id, key)], staged content_id p l) /\
    2 ^ Z.of_nat k <= zlen lv /\
    forall p' m, reads_back content_id p' l -> kids (tree p' sh n) (level_slots lv) None m ->
      tree p' sh (k + n) id (Some key) None m.
Proof.
  intros Hmin. revert p n lv. induction fuel as [|fuel IH]; intros p n lv Hok Hl; [lia|]. cbn [load_levels].
  destruct (Z.leb_spec (zlen lv) 1).
  - destruct lv as [|[id key] [|s lv]]; cbn in Hl; [lia | | unfold zlen in *; cbn in *; lia].
    exists 0%nat, id, key, []. split; [done|]. split; [done|]. intros p' m _ (m1 & m2 & -> & Ht & ->). by rewrite app_nil_r.
  - destruct (turn_shrinks lv _ eq_refl) as [Hpos Hhalf]; [done|]. set (cs := chunks _ _ _) in *.
    assert (Hcat : concat cs = lv) by (apply chunks_concat; lia).
    destruct (load_internals_ok p sh n cs) as (next & l1 & -> & Hlen & Hnext & _ & Hh1);
      [done | apply chunks_sizes; lia | by rewrite Hcat |]. cbn [rbind].
    assert (Hzn : zlen next = zlen cs) by (unfold zlen; by rewrite Hlen).
    destruct (IH (staged content_id p l1) (S n) next) as (k & id & key & l2 & -> & Hk & Hh2); [done | unfold zlen in *; lia |].
    exists (S k), id, key, (l1 ++ l2). split; [by rewrite staged_app|].
    split; [rewrite Nat2Z.inj_succ, Z.pow_succ_r by lia; lia|]. intros p' m [Hr1 Hr2]%reads_back_app Hkids.
    replace (S k + n)%nat with (k + S n)%nat by lia. apply Hh2; [done|]. apply Hh1; [done|]. by rewrite Hcat.
Qed.

Lemma bulk_load_ok p sh entries :
  shape_ok order max_fanout sh -> sh_min sh = 0 -> prov_ok p -> sorted (map fst entries) ->
  Forall (fun kv : bytes * bytes => key_ok kv.1 /\ value_ok kv.2) entries ->
  exists root n l, bulk_load content_id order max_fanout p entries = Ok (root, staged content_id p l) /\
    2 ^ Z.of_nat n <= Z.max 1 (zlen entries) /\
    (reads_back content_id (staged content_id p l) l ->
     index order max_fanout (staged content_id p l) sh n root entries) /\
    sub order max_fanout p (staged content_id p l).
Proof.
  intros (Hsl & _ & _) Hmin Hp Hs Hok. unfold bulk_load. destruct (Z.eqb_spec (zlen entries) 0) as [E|E].
  { assert (entries = []) as -> by (destruct entries; [done | rewrite zlen_cons in E; pose proof (zlen_nonneg entries); lia]).
    exists ChunkId_ZERO, 0%nat, []. split_and!; [done | done | by left | by apply sub_refl]. }
  destruct (Z.eqb_spec order 0); [lia|]. destruct (Z.ltb_spec max_fanout order); [lia|].
  assert (Hl : (0 < length entries)%nat) by (destruct entries; [done | cbn; lia]).
  set (cs := chunks (length entries) (Z.to_nat order) entries).
  assert (Hcat : concat cs = entries) by (apply chunks_concat; lia).
  destruct (chunks_count (length entries) (Z.to_nat order) entries) as [Hpos Hcnt]; [lia | done | done |]. fold cs in Hpos, Hcnt.
  destruct (load_leaves_ok p sh cs) as (lv & l1 & -> & Hlen & Hlv & _ & Hh1);
    [lia | apply chunks_sizes; lia | by rewrite Hcat | by rewrite Hcat |]. cbn [rbind].
  destruct (load_levels_ok (length lv) (staged content_id p l1) sh 0 lv) as (h & root & key & l2 & -> & Hn & Hh2);
    [lia | done | lia |]. cbn [rbind]. change (get_idx [(root, key)] 0) with (Ok (E := trap BTreeError) (root, key)). cbn [rbind].
  exists root, h, (l1 ++ l2). split; [by rewrite staged_app|]. split; [unfold zlen in *; rewrite Hlen in Hn; nia|].
  split; [|by apply staged_sub]. intros [Hr1 Hr2]%reads_back_app. right. rewrite <-Hcat. rewrite <-(Nat.add_0_r h).
  eapply tree_widen; [| |apply Hh2; [done | by apply Hh1]]; done.
Qed.

(** [bulk_load] of a strictly sorted list of well-formed entries succeeds
    and, unless content ids collide, its root stands for exactly that list,
    at a height whose power of two is at most the number of entries; nothing
    that was stored before is lost. *)
Theorem bulk_load_spec p sh entries :
  shape_ok order max_fanout sh -> sh_min sh = 0 -> prov_ok p -> sorted (map fst entries) ->
  Forall (fun kv : bytes * bytes => key_ok kv.1 /\ value_ok kv.2) entries ->
  exists root n l, bulk_load content_id order max_fanout p entries = Ok (root, staged content_id p l) /\
    2 ^ Z.of_nat n <= Z.max 1 (zlen entries) /\
    (reads_back content_id (staged content_id p l) l ->
     index order max_fanout (staged content_id p l) sh n root entries) /\
    sub order max_fanout p (staged content_id p l).
Proof. apply bulk_load_ok. Qed.
End Bulk.

(** * Examples *)

Definition bulk_shape : Shape := {| sh_leaf := 2; sh_min := 0 |}.

Lemma bulk_load_spec_witness :
  exists root n l, bulk_load sample_hash 2 8 ([] : Log) [([1], [1]); ([2], [2]); ([3], [3])] = Ok (root, staged sample_hash [] l) /\
    2 ^ Z.of_nat n <= 3 /\ index 2 8 (staged sample_hash ([] : Log) l) bulk_shape n root [([1], [1]); ([2], [2]); ([3], [3])].
Proof.
  destruct (bulk_load_spec sample_hash 2 8 ltac:(lia) ltac:(lia) sample_hash_wf ([] : Log) bulk_shape
    [([1], [1]); ([2], [2]); ([3], [3])] ltac:(by vm_compute) eq_refl (Log_ok _) ltac:(repeat constructor)
    ltac:(repeat (apply Forall_cons_2; [repeat split; try (by apply Forall_singleton)|]); apply Forall_nil_2))
    as (root & n & l & E & Hn & Hh & _).
  exists root, n, l. split; [exact E|]. split; [exact Hn|]. apply Hh. clear Hh. eval_reads_back E.
Defined.

(** A level one longer than a multiple of [order + 1] ends in an internal
    node without separators; removing the last key below it fails. *)
Example bulk_load_lone_child :
  match bulk_load sample_hash 2 8 ([] : Log) (map (fun k => ([k], [k])) [1; 2; 3; 4; 5; 6; 7]) with
  | Ok (root, p) => remove sample_hash 2 8 p root [7] = Err (Error (Invariant "first_child collapsed with no entries"))
  | Err _ => False
  end.
Proof. by vm_compute. Qed.
