(* ===== verification/BatchSpec.v ===== *)
(** [apply_sorted_batch] of [store/index.rs]: one pass over the tree has the
    effect of applying the operations of the batch one by one. *)
From Stdlib Require String.
From S2P Require Import Prelude Binomial Codec Rank Repr Descriptor Context Keys SegRecord BTree BTreeNode BTreeSpec BTreeCheck IndexSpec RemoveSpec BulkSpec.
Import String.StringSyntax.

(** * The reference: the operations one by one *)

Definition apply_op (m : kvs) (o : BatchOp) : kvs := match o.2 with Some v => upsert o.1 v m | None => erase o.1 m end.
Definition apply_batch (b : list BatchOp) (m : kvs) : kvs := fold_left apply_op b m.

Lemma apply_batch_cons o b m : apply_batch (o :: b) m = apply_batch b (apply_op m o).
Proof. done. Qed.

Definition map_op (M : gmap bytes bytes) (o : BatchOp) : gmap bytes bytes :=
  match o.2 with Some v => <[o.1 := v]> M | None => delete o.1 M end.

Definition op_ok (o : BatchOp) : Prop := key_ok o.1 /\ match o.2 with Some v => value_ok v | None => True end.

Lemma apply_op_sorted o m : sorted (map fst m) -> sorted (map fst (apply_op m o)).
Proof. unfold apply_op. destruct o.2; [apply upsert_sorted | apply erase_sorted]. Qed.

Lemma to_map_apply_batch b m :
  sorted (map fst m) ->
  sorted (map fst (apply_batch b m)) /\ to_map (apply_batch b m) = fold_left map_op b (to_map m).
Proof.
  revert m. induction b as [|o b IH]; intros m Hs; [done|].
  destruct (IH (apply_op m o)) as [H1 H2]; [by apply apply_op_sorted|]. rewrite apply_batch_cons. split; [done|].
  rewrite H2. cbn [fold_left]. f_equal.
  unfold apply_op, map_op. destruct o as [k [v|]]; cbn; [by apply to_map_upsert | by apply to_map_erase].
Qed.

Lemma apply_op_within lo hi o m : above lo o.1 -> below hi o.1 -> within lo hi m -> within lo hi (apply_op m o).
Proof. intros. unfold apply_op. destruct o.2; [by apply upsert_within | by apply erase_within]. Qed.

(** The keys of the batch are in the range. *)
Definition batch_within (lo hi : option bytes) (b : list BatchOp) : Prop :=
  Forall (fun o : BatchOp => above lo o.1 /\ below hi o.1) b.

Lemma apply_batch_within lo hi b m : batch_within lo hi b -> within lo hi m -> within lo hi (apply_batch b m).
Proof.
  intros H. revert m. induction H as [|o b [? ?] _ IH]; intros m Hm; [done|]. rewrite apply_batch_cons. apply IH. by apply apply_op_within.
Qed.

(** A batch below a bound works on the part below it, one above on the rest. *)
Lemma apply_batch_left b m1 m2 : Forall (fun o : BatchOp => keys_gt m2 o.1) b -> apply_batch b (m1 ++ m2) = apply_batch b m1 ++ m2.
Proof.
  intros H. revert m1. induction H as [|[k [v|]] b Ho _ IH]; intros m1; [done| |]; rewrite !apply_batch_cons; unfold apply_op; cbn [fst snd] in *.
  - by rewrite upsert_app_l.
  - by rewrite erase_app_l by auto with efs.
Qed.
Lemma apply_batch_right b m1 m2 : Forall (fun o : BatchOp => keys_lt m1 o.1) b -> apply_batch b (m1 ++ m2) = m1 ++ apply_batch b m2.
Proof.
  intros H. revert m2. induction H as [|[k [v|]] b Ho _ IH]; intros m2; [done| |]; rewrite !apply_batch_cons; unfold apply_op; cbn [fst snd] in *.
  - by rewrite upsert_app_r.
  - by rewrite erase_app_r by auto with efs.
Qed.
Lemma apply_batch_app b1 b2 m : apply_batch (b1 ++ b2) m = apply_batch b2 (apply_batch b1 m).
Proof. apply fold_left_app. Qed.

Lemma apply_batch_split lo s hi b1 b2 m1 m2 :
  batch_within lo (Some s) b1 -> batch_within (Some s) hi b2 -> within lo (Some s) m1 -> within (Some s) hi m2 ->
  apply_batch (b1 ++ b2) (m1 ++ m2) = apply_batch b1 m1 ++ apply_batch b2 m2.
Proof.
  intros Hb1 Hb2 Hm1 Hm2. rewrite apply_batch_app, apply_batch_left, apply_batch_right; [done | |].
  - assert (Hw : within lo (Some s) (apply_batch b1 m1)) by by apply apply_batch_within.
    eapply Forall_impl; [exact Hb2|]. intros o [Ha _]. by eapply within_lt.
  - eapply Forall_impl; [exact Hb1|]. intros o [_ Hb]. by eapply within_gt.
Qed.

(** * Merging into a leaf *)

Definition batch_sorted (b : list BatchOp) : Prop := sorted (map fst b).

Lemma apply_batch_first k v b m : Forall (klt k) (map fst b) -> apply_batch b ((k, v) :: m) = (k, v) :: apply_batch b m.
Proof.
  intros H. apply (apply_batch_right b [(k, v)]). rewrite Forall_fmap in H. eapply Forall_impl; [exact H|].
  intros o Ho. by constructor.
Qed.

(** One step of the walk. *)
Lemma merge_leaf_step entries batch :
  merge_leaf entries batch =
  match entries, batch with
  | [], [] => ([], false)
  | e :: entries', [] => let '(out, changed) := merge_leaf entries' [] in (e :: out, changed)
  | [], (k, v) :: batch' =>
      let '(out, changed) := merge_leaf [] batch' in
      match v with Some value => ({| e_key := k; e_value := value |} :: out, true) | None => (out, changed) end
  | e :: entries', (k, v) :: batch' =>
      match cmp_key (e_key e) k with
      | Lt => let '(out, changed) := merge_leaf entries' batch in (e :: out, changed)
      | Eq =>
          let '(out, changed) := merge_leaf entries' batch' in
          match v with
          | Some value =>
              if bool_decide (e_value e <> value) then ({| e_key := k; e_value := value |} :: out, true)
              else (e :: out, changed)
          | None => (out, true)
          end
      | Gt =>
          let '(out, changed) := merge_leaf entries batch' in
          match v with Some value => ({| e_key := k; e_value := value |} :: out, true) | None => (out, changed) end
      end
  end.
Proof. by destruct entries as [|e entries], batch as [|[k v] batch]. Qed.

Definition merged es b (r : list Entry * bool) : Prop :=
  pairs r.1 = apply_batch b (pairs es) /\ Forall leaf_entry_ok r.1 /\ zlen r.1 <= zlen es + zlen b /\ (r.2 = false -> r.1 = es).

Lemma merged_keep e es b r :
  leaf_entry_ok e -> Forall (klt (e_key e)) (map fst b) -> merged es b r -> merged (e :: es) b (e :: r.1, r.2).
Proof.
  intros He Hk (H1 & H2 & H3 & H4). unfold merged. cbn [fst snd pairs map] in *. rewrite !zlen_cons. split_and!.
  - rewrite apply_batch_first by done. by f_equal.
  - by constructor.
  - lia.
  - intros E. by rewrite H4.
Qed.

Lemma merged_put e (es : list Entry) b m changed out :
  leaf_entry_ok e -> Forall (klt (e_key e)) (map fst b) -> pairs out = apply_batch b m -> Forall leaf_entry_ok out ->
  zlen out + 1 <= zlen es + zlen b + 1 -> changed = true ->
  forall es0 o, apply_op (pairs es0) o = (e_key e, e_value e) :: m -> zlen es <= zlen es0 ->
  merged es0 (o :: b) (e :: out, changed).
Proof.
  intros He Hk Hp Hf Hl -> es0 o Ho Hl0. unfold merged. cbn [fst snd pairs map]. rewrite apply_batch_cons, Ho, apply_batch_first by done.
  rewrite !zlen_cons. split_and!; [by f_equal | by constructor | lia | done].
Qed.

Lemma op_entry_ok k v : op_ok (k, Some v) -> leaf_entry_ok {| e_key := k; e_value := v |}.
Proof. intros [? [? ?]]. split_and!; by cbn. Qed.

Lemma merge_leaf_ok es b :
  sorted (map e_key es) -> batch_sorted b -> Forall leaf_entry_ok es -> Forall op_ok b -> merged es b (merge_leaf es b).
Proof.
  remember (length es + length b)%nat as n eqn:En. revert es b En.
  induction n as [n IH] using lt_wf_ind. intros es b -> Hs Hb Hok Hbok.
  assert (IH' : forall es' b', (length es' + length b' < length es + length b)%nat -> sorted (map e_key es') -> batch_sorted b' ->
    Forall leaf_entry_ok es' -> Forall op_ok b' -> merged es' b' (merge_leaf es' b')) by (intros; by eapply IH).
  clear IH. rewrite merge_leaf_step.
  destruct es as [|e es], b as [|[k v] b]; cbn [map] in *.
  - by split_and!.
  - apply sorted_cons_inv in Hb as [Hb Hf]. apply Forall_cons_1 in Hbok as [Ho Hbok].
    pose proof (IH' [] b ltac:(cbn; lia) Hs Hb Hok Hbok) as IH.
    destruct (merge_leaf [] b) as [out changed]. destruct IH as (H1 & H2 & H3 & H4). cbn [fst snd] in *. destruct v as [v|].
    + apply (merged_put {| e_key := k; e_value := v |} [] b []); first [done | by apply op_entry_ok | lia].
    + split_and!; cbn [fst snd]; try done. rewrite zlen_cons. lia.
  - apply sorted_cons_inv in Hs as [Hs Hf]. apply Forall_cons_1 in Hok as [He Hok].
    pose proof (IH' es [] ltac:(cbn; lia) Hs Hb Hok Hbok) as IH.
    destruct (merge_leaf es []) as [out changed]. by apply (merged_keep e es [] (out, changed)).
  - apply sorted_cons_inv in Hb as [Hb Hf], Hs as [Hs Hfe]. apply Forall_cons_1 in Hbok as [Ho Hbok], Hok as [He Hok]. cbn [fst] in *.
    destruct (cmp_key_spec (e_key e) k) as [Ek|Hlt|Hgt].
    + pose proof (IH' es b ltac:(cbn; lia) Hs Hb Hok Hbok) as IH. destruct (merge_leaf es b) as [out changed].
      pose proof IH as (H1' & H2' & H3 & H4). cbn [fst snd] in *. subst k. destruct v as [v|].
      * case_bool_decide as Ev.
        -- eapply (merged_put {| e_key := e_key e; e_value := v |} es b (pairs es)); first [by apply op_entry_ok | done | lia | rewrite zlen_cons; lia | idtac].
           unfold apply_op. cbn. by rewrite cmp_key_refl.
        -- subst v. destruct (merged_keep e es b (out, changed)) as (K1 & K2 & K3 & K4); [done..|].
           cbn [fst snd] in *. split_and!; cbn [fst snd]; try done; [|rewrite (zlen_cons _ b); lia].
           rewrite K1, apply_batch_cons. unfold apply_op. cbn. by rewrite cmp_key_refl.
      * split_and!; cbn [fst snd]; try done; [|rewrite !zlen_cons; lia].
        rewrite H1', apply_batch_cons. unfold apply_op. cbn. by rewrite decide_True.
    + assert (Hf' : Forall (klt (e_key e)) (map fst ((k, v) :: b))).
      { cbn. constructor; [done|]. eapply Forall_impl; [exact Hf|]. cbn. intros. korder. }
      pose proof (IH' es ((k, v) :: b) ltac:(cbn; lia) Hs ltac:(by constructor) Hok ltac:(by constructor)) as IH.
      destruct (merge_leaf es ((k, v) :: b)) as [out changed]. by apply (merged_keep e es ((k, v) :: b) (out, changed)).
    + pose proof (IH' (e :: es) b ltac:(cbn; lia) ltac:(by constructor) Hb ltac:(by constructor) Hbok) as IH.
      destruct (merge_leaf (e :: es) b) as [out changed]. destruct IH as (H1' & H2' & H3 & H4). cbn [fst snd] in *. destruct v as [v|].
      * eapply (merged_put {| e_key := k; e_value := v |} (e :: es) b (pairs (e :: es))); first [by apply op_entry_ok | done | lia | idtac].
        unfold apply_op. cbn. unfold klt in Hgt. by rewrite cmp_key_antisym, Hgt.
      * split_and!; cbn [fst snd]; try done; [|rewrite (zlen_cons _ b); lia]. rewrite H1', apply_batch_cons.
        unfold apply_op. cbn [fst snd]. rewrite erase_ne; [done|]. apply keys_gt_ne, pairs_gt. constructor; [done|].
        rewrite Forall_fmap in Hfe. eapply Forall_impl; [exact Hfe|]. cbn. intros. korder.
Qed.

(** * Dividing a batch among the children *)

Lemma partition_loop_ok fuel (a b : list bytes) pred lo hi :
  Forall (fun k => pred k = true) a -> Forall (fun k => pred k = false) b ->
  0 <= lo <= zlen a -> zlen a <= hi <= zlen (a ++ b) -> hi - lo <= Z.of_nat fuel ->
  partition_loop fuel (a ++ b) pred lo hi = Ok (zlen a).
Proof.
  intros Ha Hb. revert lo hi. induction fuel as [|fuel IH]; intros lo hi Hlo Hhi Hf; cbn [partition_loop].
  { destruct (Z.ltb_spec lo hi); [lia|]. f_equal. lia. }
  destruct (Z.ltb_spec lo hi) as [Hlt|]; [|f_equal; lia].
  assert (Hm : lo <= (lo + hi) / 2 < hi) by (split; [apply Z.div_le_lower_bound | apply Z.div_lt_upper_bound]; lia).
  set (mid := (lo + hi) / 2) in *. rewrite zlen_app in Hhi.
  destruct (lookup_lt_is_Some_2 (a ++ b) (Z.to_nat mid)) as [k Hk]; [rewrite length_app; unfold zlen in *; lia|].
  unfold get_idx. rewrite Hk. cbn [ok_or rbind].
  apply lookup_app_Some in Hk as [Hk|[Hge Hk]].
  - assert (Hp : pred k = true) by exact (Forall_lookup_1 _ _ _ _ Ha Hk). rewrite Hp. apply lookup_lt_Some in Hk.
    apply IH; rewrite ?zlen_app; unfold zlen in *; lia.
  - assert (Hp : pred k = false) by exact (Forall_lookup_1 _ _ _ _ Hb Hk). rewrite Hp.
    apply IH; rewrite ?zlen_app; unfold zlen in *; lia.
Qed.

Lemma partition_point_ok (a b : list bytes) pred :
  Forall (fun k => pred k = true) a -> Forall (fun k => pred k = false) b -> partition_point (a ++ b) pred = Ok (zlen a).
Proof.
  intros Ha Hb. unfold partition_point. pose proof (zlen_nonneg a). pose proof (zlen_nonneg b).
  apply partition_loop_ok; try done; rewrite ?zlen_app; unfold zlen in *; rewrite ?length_app; lia.
Qed.

(** A sorted batch cut at a bound. *)
Lemma batch_cut s b :
  batch_sorted b -> exists b1 b2, b = b1 ++ b2 /\ batch_sorted b1 /\ batch_sorted b2 /\
    Forall (fun o : BatchOp => klt o.1 s) b1 /\ Forall (fun o : BatchOp => kle s o.1) b2.
Proof.
  unfold batch_sorted. induction b as [|o b IH]; intros Hs; [by exists [], []|]. cbn in Hs. pose proof Hs as Hs0.
  apply sorted_cons_inv in Hs as [Hs Hf]. destruct (decide (klt o.1 s)) as [Hlt|Hge].
  - destruct (IH Hs) as (b1 & b2 & -> & H1 & H2 & Hb1 & Hb2). exists (o :: b1), b2. split_and!; try done.
    + cbn. constructor; [done|]. rewrite map_app in Hf. by apply Forall_app in Hf as [? _].
    + by constructor.
  - exists [], (o :: b). split_and!; try done; [constructor|]. assert (kle s o.1) by (destruct (cmp_key_spec o.1 s); korder).
    constructor; [done|]. rewrite Forall_fmap in Hf. eapply Forall_impl; [exact Hf|]. cbn. intros. korder.
Qed.

(** The share of the first slots' keys. *)
Lemma slot_share_ok (first : bool) sep lo (slots' : list Slot) nx b1 b2 :
  (if first then sep = None else sep = lo /\ is_Some lo) ->
  match slots' with (s, _) :: _ => s = Some nx | [] => b2 = [] end ->
  Forall (fun o : BatchOp => above lo o.1) b1 ->
  Forall (fun o : BatchOp => klt o.1 nx \/ slots' = []) b1 -> Forall (fun o : BatchOp => kle nx o.1) b2 ->
  slot_share first sep slots' (map fst (b1 ++ b2)) = Ok (zlen b1).
Proof.
  intros Hsep Hslots Ha H1 H2. rewrite map_app. unfold slot_share. rewrite <-(zlen_map fst b1).
  assert (Hnot : forall o : BatchOp, kle nx o.1 -> bool_decide (klt o.1 nx) = false).
  { intros o Ho. apply bool_decide_eq_false_2. intros ?. korder. }
  destruct first.
  - destruct slots' as [|[s c] slots']; [subst b2; by rewrite app_nil_r|]. rewrite Hslots.
    apply partition_point_ok; apply Forall_fmap; (eapply Forall_impl; [eassumption|]); cbn.
    + intros o [Ho|]; [by apply bool_decide_eq_true_2 | done].
    + apply Hnot.
  - destruct Hsep as [-> [cur ->]]. cbn [ok_or rbind].
    assert (Hcur : forall o : BatchOp, above (Some cur) o.1 -> negb (bool_decide (klt o.1 cur)) = true).
    { intros o Ho. apply negb_true_iff, bool_decide_eq_false_2. intros ?. cbn in Ho. korder. }
    destruct slots' as [|[s c] slots'].
    + subst b2. apply partition_point_ok; [|constructor]. apply Forall_fmap. eapply Forall_impl; [exact Ha|]. apply Hcur.
    + rewrite Hslots. cbn [ok_or rbind]. apply partition_point_ok; apply Forall_fmap.
      * assert (H12 := proj2 (Forall_and _ _) (conj Ha H1)). eapply Forall_impl; [exact H12|]. cbn.
        intros o [Ho [Hn|]]; [|done]. rewrite (Hcur o Ho). by apply bool_decide_eq_true_2.
      * eapply Forall_impl; [exact H2|]. cbn. intros o Ho. rewrite Hnot by done. apply andb_false_r.
Qed.

Lemma get_slice_app {A} (b1 b2 : list A) :
  get_slice (E := BTreeError) (b1 ++ b2) 0 (zlen b1) = Ok b1 /\
  get_slice (E := BTreeError) (b1 ++ b2) (zlen b1) (zlen (b1 ++ b2)) = Ok b2.
Proof.
  pose proof (zlen_nonneg b1). pose proof (zlen_nonneg b2). split; apply get_slice_Ok; (split; [rewrite zlen_app; lia|]); unfold slice.
  - rewrite Z.sub_0_r, to_nat_zlen. change (Z.to_nat 0) with 0%nat. by rewrite drop_0, take_app_length.
  - rewrite zlen_app, !to_nat_zlen, drop_app_length. replace (zlen b1 + zlen b2 - zlen b1) with (zlen b2) by lia.
    by rewrite to_nat_zlen, firstn_all.
Qed.

(** * Slots after a batch *)

Abbreviation OutSlot := (option bytes * option ChunkId)%type.

Definition range_le (lo hi : option bytes) : Prop :=
  match lo, hi with Some a, Some b => kle a b | _, _ => True end.

(** Slots whose child may be gone; the range of the first starts at [lo]. *)
Fixpoint okids (T : ChunkId -> option bytes -> option bytes -> kvs -> Prop) (lo : option bytes) (out : list OutSlot)
  (hi : option bytes) (m : kvs) : Prop :=
  match out with
  | [] => m = []
  | (_, oc) :: out' =>
      exists nx m1 m2, match out' with [] => nx = hi | (s, _) :: _ => nx = s /\ is_Some s end /\ range_le lo nx /\
        m = m1 ++ m2 /\ match oc with Some c => T c lo nx m1 | None => m1 = [] end /\ okids T nx out' hi m2
  end.

Definition child_ok (oc : option ChunkId) : Prop := forall c, oc = Some c -> wf_id c.
Definition slot_ok (s : OutSlot) : Prop := (exists k, s.1 = Some k /\ key_ok k) /\ child_ok s.2.

Section Compact.
Context (T : ChunkId -> option bytes -> option bytes -> kvs -> Prop).
Context (Hwiden : forall c lo hi lo' hi' m, lo_le lo' lo -> hi_le hi hi' -> T c lo hi m -> T c lo' hi' m).

Lemma compact_true_ok out lo0 c0 m0 lo hi m :
  match out with [] => lo = hi | (s, _) :: _ => lo = s /\ is_Some s end ->
  range_le lo0 lo -> T c0 lo0 lo m0 -> okids T lo out hi m -> kids T ((lo0, c0) :: compact true out) hi (m0 ++ m).
Proof.
  revert lo0 c0 m0 lo m. induction out as [|[s [c|]] out IH]; intros lo0 c0 m0 lo m Hlo Hr Ht Hk.
  - cbn in Hk. subst. by exists m0, [].
  - destruct Hlo as [-> Hs]. destruct Hk as (nx & m1 & m2 & Hnx & Hr' & -> & Hc & Hk). exists m0, (m1 ++ m2).
    split; [done|]. split; [done|]. by apply (IH s c m1 nx).
  - destruct Hlo as [-> Hs]. destruct Hk as (nx & m1 & m2 & Hnx & Hr' & -> & -> & Hk). cbn [app compact]. apply (IH lo0 c0 m0 nx); try done.
    + destruct lo0, s, nx; cbn in *; try done; try korder; by destruct Hs.
    + eapply Hwiden; [apply lo_le_refl | | exact Ht]. destruct s, nx; cbn in *; done || by destruct Hs.
Qed.

Lemma compact_false_ok out lo hi m :
  okids T lo out hi m ->
  match compact false out with [] => m = [] | (s, c) :: rest => kids T ((lo, c) :: rest) hi m end.
Proof.
  revert lo m. induction out as [|[s [c|]] out IH]; intros lo m Hk; [done| |];
    destruct Hk as (nx & m1 & m2 & Hnx & Hr & -> & Hc & Hk); cbn [compact].
  - eapply compact_true_ok; [| exact Hr | exact Hc | exact Hk]. by destruct out as [|[??] ?].
  - subst m1. cbn [app]. specialize (IH nx m2 Hk). destruct out as [|[s' oc'] out']; [done|].
    destruct Hnx as [-> Hs']. destruct (compact false ((s', oc') :: out')) as [|[s'' c''] rest]; [done|].
    destruct IH as (mx & my & -> & Hx & Hy). exists mx, my. split_and!; try done. eapply Hwiden; [|apply hi_le_refl|exact Hx].
    destruct lo, s'; cbn in *; done || by destruct Hs'.
Qed.
End Compact.

Lemma slot_entries_eslots es : slot_entries (eslots es) = Ok es.
Proof.
  induction es as [|[k v] es IH]; [done|].
  change (eslots ({| e_key := k; e_value := v |} :: es)) with ((Some k, v) :: eslots es). cbn [slot_entries ok_or rbind]. by rewrite IH.
Qed.

Lemma entry_slots_ok es : Forall child_entry_ok es -> entry_slots es = Ok (eslots es).
Proof. induction 1 as [|e es [_ Hv] _ IH]; [done|]. cbn [entry_slots]. rewrite child_id_ok by done. cbn [rbind]. by rewrite IH. Qed.

Lemma compact_true_shape out :
  Forall slot_ok out -> exists es, compact true out = eslots es /\ Forall child_entry_ok es /\ (length es <= length out)%nat.
Proof.
  induction 1 as [|[s [c|]] out [(k & Hk & Hkok) Hc] _ (es & E & Hes & Hl)]; cbn [compact fst snd] in *; [by exists [] | |].
  - subst s. exists ({| e_key := k; e_value := c |} :: es). rewrite E. split_and!; [done | | cbn; lia].
    constructor; [split; [done | by apply Hc] | done].
  - exists es. split_and!; [done | done | cbn; lia].
Qed.

Lemma compact_false_shape s oc out :
  child_ok oc -> Forall slot_ok out ->
  compact false ((s, oc) :: out) = [] \/
  exists c es, compact false ((s, oc) :: out) = (None, c) :: eslots es /\ wf_id c /\ Forall child_entry_ok es /\
    (length es <= length out)%nat.
Proof.
  intros Hoc Hout. revert s oc Hoc. induction Hout as [|[s' oc'] out Hs Hout IH]; intros s [c|] Hoc.
  - right. exists c, []. split_and!; [done | by apply Hoc | done | done].
  - by left.
  - right. destruct (compact_true_shape ((s', oc') :: out)) as (es & E & Hes & Hl); [by constructor|].
    exists c, es. change (compact false ((s, Some c) :: (s', oc') :: out)) with ((@None bytes, c) :: compact true ((s', oc') :: out)).
    rewrite E. split_and!; [done | by apply Hoc | done | done].
  - change (compact false ((s, None) :: (s', oc') :: out)) with (compact false ((s', oc') :: out)).
    destruct (IH s' oc') as [E|(c & es & E & ? & ? & Hl)]; [apply Hs | by left |]. right. exists c, es. split_and!; try done. cbn. lia.
Qed.

Section Batch.
Context {P : Type} `{ProviderLaws P} (content_id : bytes -> ChunkId) (order max_fanout : Z).
Context (Horder : 2 <= order < 2 ^ 15) (Hfan : order <= max_fanout).
Context (Hid : forall b, wf_id (content_id b)).
Implicit Types (p : P) (n : nat) (m : kvs).

Abbreviation tree := (tree order max_fanout).
Abbreviation sub := (sub order max_fanout).

(** The tree before, the tree after, and the length of the batch. *)
Context (sh sh' : Shape) (size : Z).
Context (Hsh' : shape_ok order max_fanout sh').
Context (Hleaf : sh_leaf sh <= sh_leaf sh') (Hmin : sh_min sh' <= sh_min sh).
Context (Hfit : sh_leaf sh + size <= 2 * sh_leaf sh') (Hfit16 : sh_leaf sh + size < 2 ^ 16).

Lemma tree_shape p n id lo hi m : tree p sh n id lo hi m -> tree p sh' n id lo hi m.
Proof.
  revert id lo hi m. induction n as [|n IH]; intros id lo hi m [Hw [(es & E & Hok & Hl & -> & Hwi)|Hi]]; try done.
  1, 2: split; [done|]; left; exists es; split_and!; try done; lia.
  destruct Hi as (c & es & E & Hok & Hl & Hk). split; [done|]. right. exists c, es. split_and!; try done; try lia.
  eapply kids_mono; [|exact Hk]. intros. by apply IH.
Qed.

Lemma tree_range p sh0 n id lo hi m : tree p sh0 n id lo hi m -> range_le lo hi.
Proof.
  intros Ht. apply tree_within in Ht as (Hw & _ & Hn). destruct m as [|kv m]; [done|].
  apply Forall_cons_1 in Hw as [[Ha Hb] _]. destruct lo, hi; cbn in *; try done. korder.
Qed.

(** The outcome of patching, from [p] over the nodes of [p0], a subtree that
    then stands for [m']. *)
Definition patches p0 p n lo hi m' (out : tree_outcome (option ChunkId * Promotion * P)) : Prop :=
  exists res promote l, out = Ok (res, promote, staged content_id p l) /\ child_ok res /\ promotion_ok promote /\
    (res = None -> promote = None) /\
    forall p', sub p0 p' -> reads_back content_id p' l ->
      match res with Some id => grown order max_fanout p' sh' n id promote lo hi m' | None => m' = [] end.

Lemma updates_patches p0 p n lo hi m' (out : tree_outcome (ChunkId * Promotion * P)) l :
  updates content_id order max_fanout (staged content_id p l) sh' n lo hi m'
    (fun p' => sub p0 p' /\ reads_back content_id p' l) out ->
  patches p0 p n lo hi m' (let! '(id, promote, p) := out in Ok (Some id, promote, p)).
Proof.
  intros (id & promote & l' & -> & Hw & Hpr & Hg). cbn [rbind]. exists (Some id), promote, (l ++ l').
  split; [by rewrite staged_app|]. split; [by intros ? [= <-]|]. split_and!; [done | done |].
  intros p' Hsub [Hr Hr']%reads_back_app. by apply Hg.
Qed.

(** An untouched subtree. *)
Lemma patches_same p0 p n id lo hi m : tree p0 sh n id lo hi m -> patches p0 p n lo hi m (Ok (Some id, None, p)).
Proof.
  intros Ht. exists (Some id), None, []. split; [done|]. split; [intros ? [= <-]; by eapply tree_wf|]. split_and!; try done.
  intros p' Hsub _. cbn. by eapply tree_shape, tree_sub.
Qed.

Section Slots.
Context (p0 : P) (n : nat) (rec : P -> ChunkId -> list BatchOp -> tree_outcome (option ChunkId * Promotion * P)).
Context (Hrec : forall p c lo hi m b, prov_ok p -> sub p0 p -> tree p0 sh n c lo hi m -> batch_sorted b -> Forall op_ok b ->
  batch_within lo hi b -> zlen b <= size -> patches p0 p n lo hi (apply_batch b m) (rec p c b)).

Definition unchanged_slots (es : list Entry) : list OutSlot := map (fun e => (Some (e_key e), Some (e_value e))) es.

(** The outcome of patching the slots from [lo] on. *)
Definition patches_slots p lo hi m' sep c es (out : tree_outcome (list OutSlot * bool * P)) : Prop :=
  exists oc outs changed l, out = Ok ((sep, oc) :: outs, changed, staged content_id p l) /\ child_ok oc /\ Forall slot_ok outs /\
    zlen outs <= 1 + 2 * zlen es /\ (changed = false -> oc = Some c /\ outs = unchanged_slots es) /\
    forall p', sub p0 p' -> reads_back content_id p' l -> okids (tree p' sh' n) lo ((sep, oc) :: outs) hi m'.

(** One slot, and the slots after it. *)
Lemma patch_slot_ok p lo nx hi m1' m2' sep c es res promote l (Q : tree_outcome (list OutSlot * bool * P)) :
  child_ok res -> promotion_ok promote -> (res = None -> promote = None) -> range_le lo nx ->
  (forall p', sub p0 p' -> reads_back content_id p' l ->
     match res with Some id => grown order max_fanout p' sh' n id promote lo nx m1' | None => m1' = [] end) ->
  match es with [] => nx = hi /\ m2' = [] /\ Q = Ok ([], false, staged content_id p l)
  | e :: es' => nx = Some (e_key e) /\ key_ok (e_key e) /\ patches_slots (staged content_id p l) nx hi m2' nx (e_value e) es' Q end ->
  patches_slots p lo hi (m1' ++ m2') sep c es
    (let! '(out, changed, p) := Q in
     let changed := bool_decide (res <> Some c) || changed in
     match promote with
     | Some (pkey, right_id) => Ok ((sep, res) :: (Some pkey, Some right_id) :: out, true, p)
     | None => Ok ((sep, res) :: out, changed, p)
     end).
Proof.
  intros Hres Hpr Hnone Hr Hg Hrest.
  assert (Hq : exists outs changed l', Q = Ok (outs, changed, staged content_id (staged content_id p l) l') /\ Forall slot_ok outs /\
    zlen outs <= 2 * zlen es /\ (changed = false -> outs = unchanged_slots es) /\
    (match outs with [] => nx = hi | (s, _) :: _ => nx = s /\ is_Some s end) /\
    forall p', sub p0 p' -> reads_back content_id p' l' -> okids (tree p' sh' n) nx outs hi m2').
  { destruct es as [|e es'].
    - destruct Hrest as (-> & -> & ->). by exists [], false, [].
    - destruct Hrest as (-> & Hk & oc & outs & changed & l' & -> & Hoc & Houts & Hlen & Hsame & Hok).
      exists ((Some (e_key e), oc) :: outs), changed, l'. rewrite !zlen_cons. split_and!; try done; [|lia|].
      + constructor; [split; [by exists (e_key e) | done] | done].
      + intros Ec. by destruct (Hsame Ec) as [-> ->]. }
  clear Hrest. destruct Hq as (outs & changed & l' & -> & Houts & Hlen & Hsame & Hnx & Hok). cbn [rbind].
  destruct promote as [[pkey right_id]|].
  - destruct res as [id|]; [|by specialize (Hnone eq_refl)]. destruct Hpr as [Hpk Hright].
    exists (Some id), ((Some pkey, Some right_id) :: outs), true, (l ++ l'). split; [by rewrite staged_app|]. split_and!; try done.
    + constructor; [split; [by exists pkey | by intros ? [= <-]] | done].
    + rewrite zlen_cons. lia.
    + intros p' Hsub [Hr1 Hr2]%reads_back_app. destruct (Hg p' Hsub Hr1) as (ma & mb & -> & Ta & Tb).
      exists (Some pkey), ma, (mb ++ m2'). split; [done|]. split; [by eapply tree_range|]. split; [by rewrite app_assoc|].
      split; [done|]. exists nx, mb, m2'. split_and!; try done; [by eapply tree_range | by apply Hok].
  - exists res, outs, (bool_decide (res <> Some c) || changed), (l ++ l'). split; [by rewrite staged_app|]. split_and!; try done; [lia | |].
    + intros [Ec Ech]%orb_false_iff. apply bool_decide_eq_false in Ec. split; [by apply dec_stable | by apply Hsame].
    + intros p' Hsub [Hr1 Hr2]%reads_back_app. exists nx, m1', m2'. split_and!; try done; [|by apply Hok].
      specialize (Hg p' Hsub Hr1). by destruct res.
Qed.

Lemma divide lo hi c es m1 m2 b (first : bool) (sep : option bytes) :
  (if first then sep = None else sep = lo /\ is_Some lo) ->
  tree p0 sh n c lo (next_lo (eslots es) hi) m1 -> kids (tree p0 sh n) (eslots es) hi m2 ->
  batch_sorted b -> batch_within lo hi b ->
  exists b1 b2, b = b1 ++ b2 /\ batch_sorted b1 /\ batch_sorted b2 /\ batch_within lo (next_lo (eslots es) hi) b1 /\
    batch_within (next_lo (eslots es) hi) hi b2 /\ (es = [] -> b2 = []) /\
    slot_share first sep (eslots es) (map fst b) = Ok (zlen b1) /\
    apply_batch b (m1 ++ m2) = apply_batch b1 m1 ++ apply_batch b2 m2.
Proof.
  intros Hsep Ht Hk Hs Hw. destruct (tree_within _ _ _ _ _ _ _ _ _ Ht) as (Hw1 & _).
  assert (Habove : forall b0, batch_within lo hi b0 -> Forall (fun o : BatchOp => above lo o.1) b0).
  { intros b0 H0'. eapply Forall_impl; [exact H0'|]. by intros o [? _]. }
  destruct es as [|e es].
  - cbn in Hk. subst m2. exists b, []. rewrite !app_nil_r. split_and!; try done; [constructor | constructor |].
    rewrite <-(app_nil_r b) at 1. apply (slot_share_ok first sep lo [] []); try done; [by apply Habove|].
    apply Forall_true. by right.
  - destruct (batch_cut (e_key e) b Hs) as (b1 & b2 & -> & Hs1 & Hs2 & Hlt & Hge). exists b1, b2.
    apply Forall_app in Hw as [Hwb1 Hwb2]. cbn [eslots map next_lo] in *.
    assert (Hb1 : batch_within lo (Some (e_key e)) b1).
    { unfold batch_within in *. rewrite list.Forall_forall in *. intros o Ho. split; [by apply Hwb1 | by apply Hlt]. }
    assert (Hb2 : batch_within (Some (e_key e)) hi b2).
    { unfold batch_within in *. rewrite list.Forall_forall in *. intros o Ho. split; [by apply Hge | by apply Hwb2]. }
    split_and!; try done.
    + apply (slot_share_ok first sep lo _ (e_key e)); try done; [by apply Habove|].
      eapply Forall_impl; [exact Hlt|]. by left.
    + apply (kids_within _ (tree_within _ _ p0 sh n) (Some (e_key e)) (e_value e) es) in Hk as (Hw2 & _).
      by apply (apply_batch_split lo (e_key e) hi).
Qed.

Lemma same_form sep c (Q : tree_outcome (list OutSlot * bool * P)) :
  (let! '(out, changed, p) := Q in Ok ((sep, Some c) :: out, changed, p)) =
  (let! '(out, changed, p) := Q in Ok ((sep, Some c) :: out, bool_decide (Some c <> Some c) || changed, p)).
Proof. rewrite bool_decide_eq_false_2; [done | by intros []]. Qed.

(** The slot with its share [b1] of the batch; [rest] patches the slots after it. *)
Lemma share_ok p lo nx hi m1 m2' b1 sep c es (rest : P -> tree_outcome (list OutSlot * bool * P)) :
  prov_ok p -> sub p0 p -> tree p0 sh n c lo nx m1 -> batch_sorted b1 -> Forall op_ok b1 -> batch_within lo nx b1 -> zlen b1 <= size ->
  (forall l, match es with [] => nx = hi /\ m2' = [] /\ rest (staged content_id p l) = Ok ([], false, staged content_id p l)
    | e :: es' => nx = Some (e_key e) /\ key_ok (e_key e) /\
        patches_slots (staged content_id p l) nx hi m2' nx (e_value e) es' (rest (staged content_id p l)) end) ->
  patches_slots p lo hi (apply_batch b1 m1 ++ m2') sep c es
    (if zlen b1 =? 0 then
       let! '(out, changed, p) := rest p in Ok ((sep, Some c) :: out, changed, p)
     else
       let! '(new_child, promote, p) := rec p c b1 in
       let! '(out, changed, p) := rest p in
       let changed := bool_decide (new_child <> Some c) || changed in
       match promote with
       | Some (pkey, right_id) => Ok ((sep, new_child) :: (Some pkey, Some right_id) :: out, true, p)
       | None => Ok ((sep, new_child) :: out, changed, p)
       end).
Proof.
  intros Hp Hsub Ht Hs Hb Hw Hsz Hrest. pose proof (tree_range _ _ _ _ _ _ _ Ht) as Hr.
  destruct (Z.eqb_spec (zlen b1) 0) as [E|E].
  - assert (b1 = []) as -> by (destruct b1; [done | rewrite zlen_cons in E; pose proof (zlen_nonneg b1); lia]).
    rewrite same_form. destruct (patches_same p0 p n c lo nx m1 Ht) as (res & promote & l & [= <- <- El] & Hc & Hpr & Hnone & Hg).
    apply (patch_slot_ok p lo nx hi m1 m2' sep c es (Some c) None [] (rest p)); try done; [|apply (Hrest [])].
    intros p' Hsub' _. cbn. by eapply tree_shape, tree_sub.
  - destruct (Hrec p c lo nx m1 b1 Hp Hsub Ht Hs Hb Hw Hsz) as (res & promote & l & -> & Hc & Hpr & Hnone & Hg). cbn [rbind].
    apply (patch_slot_ok p lo nx hi _ m2' sep c es res promote l (rest (staged content_id p l))); try done. apply Hrest.
Qed.

Lemma patch_slots_step p first sep c es b :
  patch_slots rec p first ((sep, c) :: eslots es) b =
  let! hi := slot_share first sep (eslots es) (map fst b) in
  let! slice := get_slice b 0 hi in
  let! rest := get_slice b hi (zlen b) in
  if zlen slice =? 0 then
    let! '(out, changed, p) := patch_slots rec p false (eslots es) rest in Ok ((sep, Some c) :: out, changed, p)
  else
    let! '(new_child, promote, p) := rec p c slice in
    let! '(out, changed, p) := patch_slots rec p false (eslots es) rest in
    let changed := bool_decide (new_child <> Some c) || changed in
    match promote with
    | Some (pkey, right_id) => Ok ((sep, new_child) :: (Some pkey, Some right_id) :: out, true, p)
    | None => Ok ((sep, new_child) :: out, changed, p)
    end.
Proof. done. Qed.

Lemma patch_slots_ok es (first : bool) sep lo c hi m b p :
  (if first then sep = None else sep = lo /\ is_Some lo) -> prov_ok p -> sub p0 p -> Forall child_entry_ok es ->
  kids (tree p0 sh n) ((lo, c) :: eslots es) hi m -> batch_sorted b -> Forall op_ok b -> batch_within lo hi b -> zlen b <= size ->
  patches_slots p lo hi (apply_batch b m) sep c es (patch_slots rec p first ((sep, c) :: eslots es) b).
Proof.
  revert first sep lo c m b p. induction es as [|e es IH]; intros first sep lo c m b p Hsep Hp Hsub Hok Hkids Hs Hb Hw Hsz;
    destruct Hkids as (m1 & m2 & -> & Ht & Hk);
    destruct (divide lo hi c _ m1 m2 b first sep Hsep Ht Hk Hs Hw) as (b1 & b2 & -> & Hs1 & Hs2 & Hw1 & Hw2 & Hnil & Hshare & ->);
    apply Forall_app in Hb as [Hb1 Hb2]; rewrite zlen_app in Hsz; pose proof (zlen_nonneg b1); pose proof (zlen_nonneg b2).
  - rewrite patch_slots_step, Hshare; cbn [rbind]; destruct (get_slice_app b1 b2) as [-> ->]; cbn [rbind].
    apply (share_ok p lo (next_lo (eslots []) hi) hi m1 (apply_batch b2 m2) b1 sep c [] (fun p => patch_slots rec p false (eslots []) b2));
      try done; [lia|]. intros l. cbn in Hk. subst m2. by rewrite (Hnil eq_refl).
  - rewrite patch_slots_step, Hshare; cbn [rbind]; destruct (get_slice_app b1 b2) as [-> ->]; cbn [rbind].
    apply (share_ok p lo (next_lo (eslots (e :: es)) hi) hi m1 (apply_batch b2 m2) b1 sep c (e :: es) (fun p => patch_slots rec p false (eslots (e :: es)) b2));
      try done; [lia|]. intros l. apply Forall_cons_1 in Hok as [He Hok]. split; [done|]. split; [apply He|].
    apply IH; try done; [by apply staged_ok | eapply sub_trans; [exact Hsub | by apply staged_sub] | lia].
Qed.
End Slots.

Lemma okids_unchanged (T : ChunkId -> option bytes -> option bytes -> kvs -> Prop) es lo sep c hi m :
  okids T lo ((sep, Some c) :: unchanged_slots es) hi m -> kids T ((lo, c) :: eslots es) hi m.
Proof.
  revert lo sep c m. induction es as [|e es IH]; intros lo sep c m (nx & m1 & m2 & Hnx & _ & -> & Hc & Hk).
  - cbn in Hnx, Hk. subst. by exists m1, [].
  - destruct Hnx as [-> _]. exists m1, m2. split_and!; try done. by apply (IH _ (Some (e_key e))).
Qed.

Lemma patch_rec_ok p0 levels n p id lo hi m b :
  (n < levels)%nat -> prov_ok p -> sub p0 p -> tree p0 sh n id lo hi m -> batch_sorted b -> Forall op_ok b ->
  batch_within lo hi b -> zlen b <= size ->
  patches p0 p n lo hi (apply_batch b m) (patch_rec content_id order max_fanout levels p id b).
Proof.
  revert n p id lo hi m b. induction levels as [|levels IH]; intros n p id lo hi m b Hn Hp Hsub Ht Hs Hb Hw Hsz; [lia|].
  cbn [patch_rec]. destruct (Z.eqb_spec (zlen b) 0) as [E|E].
  { assert (b = []) as -> by (destruct b; [done | rewrite zlen_cons in E; pose proof (zlen_nonneg b); lia]).
    by apply (patches_same p0 p n id lo hi m). }
  pose proof Hsh' as (Hsl & Hs16 & Hm01). pose proof Ht as Ht0.
  apply tree_inv in Ht as [(es & Ef & Hok & Hl & -> & Hwi)|(n' & c & es & -> & Ef & Hok & Hl & Hkids)];
    rewrite (Hsub _ _ Ef); cbn [rbind].
  - pose proof (merge_leaf_ok es b (nok_sorted _ Hok) Hs (eok_entries _ (nok_ok _ Hok)) Hb) as Hmerge.
    destruct (merge_leaf es b) as [out changed]. destruct Hmerge as (Hout & Hleaf' & Hlen & Hsame). cbn [fst snd] in *.
    destruct changed; cbn [negb].
    2: { rewrite Hsame in Hout by done. rewrite <-Hout. by apply (patches_same p0 p n id lo hi). }
    destruct (Z.eqb_spec (zlen out) 0) as [E'|E'].
    { exists None, None, []. split_and!; try done. intros p' _ _. rewrite <-Hout.
      by destruct out; [|rewrite zlen_cons in E'; pose proof (zlen_nonneg out); lia]. }
    pose proof (zlen_nonneg out). rewrite <-Hout. apply (updates_patches p0 p n lo hi (pairs out) _ []).
    eapply updates_weaken; [|apply stage_leaf_ok]; try done; try lia.
    + split; [by split|]. cbn [Node_entries]. rewrite <-map_fst_pairs, Hout. apply to_map_apply_batch.
      rewrite map_fst_pairs. apply Hok.
    + rewrite Hout. by apply apply_batch_within.
  - rewrite entry_slots_ok by apply Hok. cbn [rbind].
    destruct (patch_slots_ok p0 n' (patch_rec content_id order max_fanout levels)
      ltac:(intros; apply IH; done || lia) es true None lo c hi m b p) as
      (oc & outs & changed & l & Eo & Hoc & Houts & Hlen & Hsame & Hg); try done; [apply Hok|].
    change ((None, c) :: eslots es) with ((@None bytes, c) :: eslots es). rewrite Eo. cbn [rbind].
    destruct changed; cbn [negb].
    2: { destruct (Hsame eq_refl) as [-> ->]. exists (Some id), None, l. split; [done|].
         split; [intros ? [= <-]; by eapply tree_wf|]. split_and!; try done. intros p' Hsub' Hr.
         apply (tree_internal order max_fanout p' sh' n' _ c es); [by eapply tree_wf | | apply Hok | lia |].
         - intros _. by apply Hsub'.
         - eapply okids_unchanged. by apply Hg. }
    assert (Hc : forall p', sub p0 p' -> reads_back content_id p' l ->
      match compact false ((None, oc) :: outs) with [] => apply_batch b m = []
      | (s, c) :: rest => kids (tree p' sh' n') ((lo, c) :: rest) hi (apply_batch b m) end).
    { intros p' Hsub' Hr. apply compact_false_ok; [|by apply Hg]. intros. by eapply tree_widen. }
    destruct (compact_false_shape None oc outs Hoc Houts) as [Ec|(c' & es' & Ec & Hc' & Hes' & Hl')]; rewrite Ec in Hc |- *.
    { by exists None, None, l. }
    destruct es' as [|e' es'].
    + exists (Some c'), None, l. split; [done|]. split; [by intros ? [= <-]|]. split_and!; try done. intros p' Hsub' Hr.
      destruct (Hc p' Hsub' Hr) as (m1 & m2 & -> & Ht & ->). rewrite app_nil_r. by apply tree_height.
    + cbn [eslots map]. fold (eslots (e' :: es')).
      change ((Some (e_key e'), e_value e') :: map (fun e => (Some (e_key e), e_value e)) es') with (eslots (e' :: es')).
      rewrite slot_entries_eslots. cbn [rbind]. apply (updates_patches p0 p _ lo hi _ _ l).
      apply stage_internal_ok; [done..| | |].
      * by split.
      * split; [rewrite zlen_cons; pose proof (zlen_nonneg es'); lia | unfold zlen in *; lia].
      * intros p' [Hsub' Hr]. by apply Hc.
Qed.

Lemma batch_increasing_ok b : batch_sorted b -> batch_increasing b = true.
Proof.
  unfold batch_sorted. induction b as [|o [|o' b] IH]; intros Hs; [done..|]. cbn in Hs. apply sorted_cons_inv in Hs as [Hs Hf].
  apply Forall_cons_1 in Hf as [Hlt _]. cbn [batch_increasing]. rewrite bool_decide_eq_true_2 by done. by apply IH.
Qed.

Lemma apply_sorted_batch_ok p n root M b :
  prov_ok p -> holds order max_fanout p sh n root M -> root <> ChunkId_ZERO -> (n <= 128)%nat ->
  batch_sorted b -> Forall op_ok b -> zlen b <= size ->
  exists root' l, apply_sorted_batch content_id order max_fanout p root b = Ok (root', staged content_id p l) /\
    (reads_back content_id (staged content_id p l) l ->
     holds order max_fanout (staged content_id p l) sh' (S n) root' (fold_left map_op b M)) /\
    (forall n0 r M0, holds order max_fanout p sh n0 r M0 -> holds order max_fanout (staged content_id p l) sh n0 r M0).
Proof.
  intros Hp (m & Hix & ->) Hroot Hn Hs Hb Hsz. pose proof (index_sorted _ _ _ _ _ _ _ Hix) as Hsm.
  destruct Hix as [[-> _]|Ht]; [done|]. destruct (to_map_apply_batch b m Hsm) as [_ Hmap].
  unfold apply_sorted_batch. destruct (Z.eqb_spec (zlen b) 0) as [E|E].
  { assert (b = []) as -> by (destruct b; [done | rewrite zlen_cons in E; pose proof (zlen_nonneg b); lia]).
    exists root, []. split; [done|]. split; [|done]. intros _. exists m. split; [|done]. right. by apply tree_height, tree_shape. }
  destruct (Z.eqb_spec order 0); [lia|]. rewrite batch_increasing_ok by done. cbn [negb].
  rewrite (tree_nonzero _ _ _ _ _ _ _ _ _ Ht).
  destruct (patch_rec_ok p MAX_LEVELS n p root None None m b) as (res & promote & l & -> & Hres & Hpr & Hnone & Hg);
    try done; [unfold MAX_LEVELS; lia | apply sub_refl | apply Forall_true; done |]. cbn [rbind].
  pose proof (fun l' => staged_sub content_id order max_fanout p l' Hp) as Hsub.
  destruct res as [id|].
  - destruct (grow_root_ok content_id order max_fanout Horder Hfan Hid p sh' n (apply_batch b m) (sub p)
      (Ok (id, promote, staged content_id p l))) as (root' & l' & El & Hh);
      [done | apply Hsh' | exists id, promote, l; split_and!; try done; by apply Hres |].
    cbn [rbind] in El. rewrite El. exists root', l'. split; [done|]. split; [|intros; by eapply holds_sub].
    intros Hr. exists (apply_batch b m). split; [|done]. by apply Hh.
  - exists ChunkId_ZERO, l. split; [done|]. split; [|intros; by eapply holds_sub].
    intros Hr. exists []. split; [by left|]. by rewrite <-Hmap, (Hg _ (Hsub l) Hr).
Qed.

(** C34. A sorted batch, applied to an index of height at most 128 in one pass,
    gives an index of the map in which the operations of the batch were
    carried out one after the other.  The leaves of the result are bounded
    by [sh_leaf sh'] when a leaf of the old tree and the whole batch split
    into two such leaves: batches up to the order keep leaves of the order. *)
Theorem apply_sorted_batch_spec p n root M b :
  prov_ok p -> holds order max_fanout p sh n root M -> root <> ChunkId_ZERO -> (n <= 128)%nat ->
  batch_sorted b -> Forall op_ok b -> zlen b <= size ->
  exists root' l, apply_sorted_batch content_id order max_fanout p root b = Ok (root', staged content_id p l) /\
    (reads_back content_id (staged content_id p l) l ->
     holds order max_fanout (staged content_id p l) sh' (S n) root' (fold_left map_op b M)) /\
    (forall n0 r M0, holds order max_fanout p sh n0 r M0 -> holds order max_fanout (staged content_id p l) sh n0 r M0).
Proof. apply apply_sorted_batch_ok. Qed.
End Batch.

(** * Oversized batches *)

(** A leaf splits once.  When a batch leaves more entries in a leaf than two
    nodes of [max_fanout] hold, both halves are written all the same, and
    neither can be read again. *)
Section Overfull.
Context {P : Type} `{ProviderLaws P} (content_id : bytes -> ChunkId) (order max_fanout : Z).
Context (Horder : 2 <= order < 2 ^ 15) (Hfan : order <= max_fanout).
Context (Hid : forall b, wf_id (content_id b)).

Lemma Node_decode_overfull n : entries_ok n -> max_fanout < Node_len n < 2 ^ 16 ->
  exists b, Node_encode n order = Ok b /\ Node_decode b order max_fanout = Err TooLong.
Proof.
  intros Hn Hlen. exists (node_image order n). pose proof (node_image_ok order n Hn ltac:(lia)) as [_ Hz].
  split; [apply Node_encode_image; done || lia|].
  assert (Hat := Reader_new_at _ Hz). unfold Node_decode. cbv zeta.
  generalize dependent (Reader_new (node_image order n)). intros rd Hat.
  unfold node_image, node_header in Hat. rewrite <-!app_assoc in Hat. cbn [app] in Hat.
  assert (is_u16 (Node_len n)) by width. assert (0 <= order < 2 ^ 16) by lia.
  read_with Reader_u8_ok. read_with Reader_u16_ok. rewrite Z.eqb_refl. cbn [negb]. read_with Reader_u16_ok.
  by rewrite (proj2 (Z.ltb_lt _ _)) by lia.
Qed.

Lemma stage_overfull p es : Forall leaf_entry_ok es -> max_fanout < zlen es < 2 ^ 16 ->
  exists b, stage_node content_id order p (Leaf es) = Ok (content_id b, staged content_id p [b]) /\
    forall p', reads_back content_id p' [b] -> fetch order max_fanout p' (content_id b) = Err (Error (Corrupt TooLong)).
Proof.
  intros Hok Hlen. destruct (Node_decode_overfull (Leaf es)) as (b & E & Ed); [done|done|]. exists b. unfold stage_node, Node_id. rewrite E. cbn [rbind].
  split; [done|]. intros p' Hr. apply Forall_singleton in Hr as [Hz Hg]. unfold fetch. rewrite Hz, Hg. cbn [safe map_err rbind ok_or]. by rewrite Ed.
Qed.

Lemma oversized_batch_unreadable p root es b :
  prov_ok p -> fetch order max_fanout p root = Ok (Leaf es) -> node_ok (Leaf es) -> zlen es <= max_fanout ->
  batch_sorted b -> Forall op_ok b -> 2 * max_fanout + 1 < zlen (apply_batch b (pairs es)) < 2 ^ 16 ->
  exists root' l, apply_sorted_batch content_id order max_fanout p root b = Ok (root', staged content_id p l) /\
    (reads_back content_id (staged content_id p l) l ->
     forall key, get order max_fanout (staged content_id p l) root' key = Err (Error (Corrupt TooLong))).
Proof.
  intros Hp Ef Hok Hes Hs Hb Hlen. unfold apply_sorted_batch.
  assert (Hb0 : (zlen b =? 0) = false).
  { apply Z.eqb_neq. intros E. destruct b as [|o b]; [|rewrite zlen_cons in E; pose proof (zlen_nonneg b); lia].
    cbn in Hlen. unfold pairs, zlen in *. rewrite length_map in Hlen. lia. }
  rewrite Hb0.
  destruct (Z.eqb_spec order 0); [lia|]. rewrite batch_increasing_ok by done. cbn [negb].
  assert (Hz : ChunkId_is_zero root = false) by (by apply fetch_Ok in Ef as [? _]). rewrite Hz.
  unfold MAX_LEVELS. cbn [patch_rec].
  rewrite Hb0, Ef. cbn [rbind].
  pose proof (merge_leaf_ok es b (nok_sorted _ Hok) Hs (eok_entries _ (nok_ok _ Hok)) Hb) as Hmerge.
  destruct (merge_leaf es b) as [out changed]. destruct Hmerge as (Hout & Hleaf' & _ & Hsame). cbn [fst snd] in *.
  assert (Hol : zlen (apply_batch b (pairs es)) = zlen out) by (rewrite <-Hout; unfold pairs, zlen; by rewrite length_map).
  rewrite Hol in Hlen. destruct changed; cbn [negb]; [|rewrite Hsame in Hlen by done; lia].
  destruct (Z.eqb_spec (zlen out) 0); [lia|]. unfold stage_leaf. rewrite wrap_small by width. rewrite (proj2 (Z.ltb_lt _ _)) by lia.
  destruct (middle_split out) as (es1 & e & es2 & Ees & Hmid & Hne); [unfold zlen in *; lia|].
  destruct (halves out es1 e es2 Ees Hmid) as (Hl1 & Hl2 & Hl12). rewrite <-Hmid.
  assert (Hhalf : max_fanout < zlen es1).
  { pose proof (Nat.div_mod (length out) 2 ltac:(lia)). pose proof (Nat.mod_upper_bound (length out) 2 ltac:(lia)). unfold zlen in *. lia. }
  rewrite Ees, take_app_length, drop_app_length. cbn [rbind get_idx Z.to_nat lookup list_lookup ok_or].
  rewrite Ees in Hleaf'. apply Forall_app in Hleaf' as [Hok1 Hok2].
  destruct (stage_overfull p es1 Hok1) as (b1 & -> & F1); [pose proof (zlen_nonneg (e :: es2)); lia|]. cbn [rbind].
  destruct (stage_overfull (staged content_id p [b1]) (e :: es2) Hok2) as (b2 & -> & F2); [lia|]. change (get_idx (e :: es2) 0) with (Ok (E := trap BTreeError) e). cbn [rbind grow_root].
  destruct (stage_node_ok content_id order max_fanout ltac:(lia) (staged content_id (staged content_id p [b1]) [b2])
    (Internal (content_id b1) [{| e_key := e_key e; e_value := content_id b2 |}])) as (b3 & -> & F3); [|cbn [Node_len]; rewrite zlen_cons, zlen_nil; lia..|].
  { split; [|split; apply Hid]. apply Forall_singleton. split; [|apply Hid]. apply Forall_cons_1 in Hok2 as [[Hk _] _]. exact Hk. }
  exists (content_id b3), [b1; b2; b3]. split; [done|]. intros Hr key.
  change [b1; b2; b3] with ([b1] ++ [b2] ++ [b3]) in Hr at 2. rewrite !reads_back_app in Hr. destruct Hr as (R1 & R2 & R3).
  assert (Fr := F3 _ R3 ltac:(by repeat constructor)). unfold get. assert (ChunkId_is_zero (content_id b3) = false) as -> by (by apply fetch_Ok in Fr as [? _]).
  unfold MAX_LEVELS. cbn [get_loop]. rewrite Fr. cbn [rbind].
  assert (Hc : exists slot c, child_slot key (content_id b1) [{| e_key := e_key e; e_value := content_id b2 |}] = Ok (slot, c) /\ (c = content_id b1 \/ c = content_id b2)).
  { set (x := {| e_key := e_key e; e_value := content_id b2 |}). assert (Hx : child_id x = Ok (content_id b2)) by (apply child_id_ok, Hid).
    unfold child_slot. cbn [search]. destruct (cmp_key (e_key x) key); [| |by exists None, (content_id b1); auto];
      exists (Some 0%nat), (content_id b2); change (get_idx [x] (Z.of_nat 0)) with (Ok (E := trap BTreeError) x); cbn [rbind]; rewrite Hx; by auto. }
  destruct Hc as (slot & c & -> & [-> | ->]); cbn [rbind]; [by rewrite F1|by rewrite F2].
Qed.
End Overfull.

(** * Examples *)

(** An upsert, a change and a removal in three parts of the sample index. *)
Definition sample_batch : list BatchOp := [([1], None); ([2], Some [21]); ([4], Some [40])].

Lemma apply_sorted_batch_spec_witness :
  exists root' l, apply_sorted_batch sample_hash 2 8 sample_log sample_root sample_batch = Ok (root', staged sample_hash sample_log l) /\
    holds 2 8 (staged sample_hash sample_log l) {| sh_leaf := 3; sh_min := 1 |} 2 root'
      (fold_left map_op sample_batch (to_map [([1], [10]); ([2], [20]); ([3], [30])])).
Proof.
  destruct (apply_sorted_batch_spec sample_hash 2 8 ltac:(lia) ltac:(lia) sample_hash_wf sample_shape {| sh_leaf := 3; sh_min := 1 |} 3
    ltac:(by vm_compute) ltac:(by vm_compute) ltac:(by vm_compute) ltac:(by vm_compute) ltac:(by vm_compute)
    sample_log 1 sample_root _ sample_batch (Log_ok _) sample_holds ltac:(done) ltac:(lia) ltac:(repeat constructor)
    ltac:(repeat (apply Forall_cons_2; [repeat split; try (by apply Forall_singleton)|]); apply Forall_nil_2) ltac:(by vm_compute))
    as (root' & l & E & Hh & _).
  exists root', l. split; [exact E|]. apply Hh. clear Hh. eval_reads_back E.
Defined.

(** A leaf splits only once: a batch of more operations than the order leaves
    leaves above the order. *)
Example batch_overfull_leaf :
  match apply_sorted_batch sample_hash 2 8 sample_log sample_root (map (fun k => ([k], Some [k])) [4; 5; 6; 7; 8; 9]) with
  | Ok (root, p) =>
      match fetch 2 8 p root with
      | Ok (Internal _ es) =>
          match last es with Some e => match fetch 2 8 p (e_value e) with Ok (Leaf l) => zlen l = 4 | _ => False end | None => False end
      | _ => False
      end
  | Err _ => False
  end.
Proof. by vm_compute. Qed.
