(* ===== verification/Directory.v ===== *)
(** Components [store/directory.rs] and [store/snapshot.rs]: two indexes whose
    values are small records, directory entries under raw names and snapshot
    roots under snapshot names. *)
From S2P Require Import Prelude Binomial Codec Rank Repr Descriptor Context Keys SegRecord BTree.

(** * Directory entries *)

Record DirEntry : Type := { de_ino : Z; de_d_type : Z }.
#[global] Instance DirEntry_eq_dec : EqDecision DirEntry.
Proof. solve_decision. Defined.

Definition DirEntry_encode (e : DirEntry) : bytes :=
  let w := Writer_new in
  let w := Writer_u64 w (de_ino e) in
  let w := Writer_u8 w (de_d_type e) in
  Writer_into_bytes w.

Definition DirEntry_decode (b : bytes) : result CodecError DirEntry :=
  let r := Reader_new b in
  let! '(ino, r) := Reader_u64 r in
  let! '(d_type, r) := Reader_u8 r in
  fail_if negb (Reader_done r) with Malformed ;;
  Ok {| de_ino := ino; de_d_type := d_type |}.

(** [mod dt] *)
Definition DT_UNKNOWN : Z := 0.
Definition DT_DIR : Z := 4.
Definition DT_REG : Z := 8.
Definition DT_LNK : Z := 10.

(** * Snapshot entries *)

Record SnapshotEntry : Type := { se_root_id : ChunkId; se_created_unix_ns : Z }.
#[global] Instance SnapshotEntry_eq_dec : EqDecision SnapshotEntry.
Proof. solve_decision. Defined.

Definition SnapshotEntry_encode (e : SnapshotEntry) : bytes :=
  let w := Writer_new in
  let w := Writer_bytes w (se_root_id e) in
  let w := Writer_u64 w (se_created_unix_ns e) in
  Writer_into_bytes w.

Definition SnapshotEntry_decode (b : bytes) : result CodecError SnapshotEntry :=
  let r := Reader_new b in
  let! '(root_id, r) := Reader_take r 32 in
  let! '(created_unix_ns, r) := Reader_u64 r in
  fail_if negb (Reader_done r) with Malformed ;;
  Ok {| se_root_id := root_id; se_created_unix_ns := created_unix_ns |}.

(** [map_err(|e| BTreeError::Corrupt(e.to_string()))] *)
Definition or_corrupt {A} (m : result CodecError A) : tree_outcome A := map_err (fun e => Error (Corrupt e)) m.

Section Operations.
Context {P : Type} `{ObjectProvider P} (content_id : bytes -> ChunkId) (order max_fanout : Z).

(** * Directories *)

Definition dir_lookup (p : P) (dir_root : ChunkId) (name : bytes) : tree_outcome (option DirEntry) :=
  let! o := get order max_fanout p dir_root name in
  match o with
  | Some b => let! e := or_corrupt (DirEntry_decode b) in Ok (Some e)
  | None => Ok None
  end.

Definition dir_insert (p : P) (dir_root : ChunkId) (name : bytes) (e : DirEntry) : tree_outcome (ChunkId * P) :=
  insert content_id order max_fanout p dir_root name (DirEntry_encode e).

Definition dir_remove (p : P) (dir_root : ChunkId) (name : bytes) : tree_outcome (ChunkId * bool * P) :=
  let! before := dir_lookup p dir_root name in
  let! '(new_root, p) := remove content_id order max_fanout p dir_root name in
  Ok (new_root, bool_decide (is_Some before), p).

(** The loop over the scanned entries: the entry at [start_after] is passed
    over, and one entry beyond [limit] ends it. *)
Fixpoint dir_collect (start_after : option bytes) (limit : Z) (entries : list EntryPair)
  (out : list (bytes * DirEntry)) (more : bool) : tree_outcome (list (bytes * DirEntry) * bool) :=
  match entries with
  | [] => Ok (out, more)
  | (k, v) :: entries' =>
      if bool_decide (start_after = Some k) then dir_collect start_after limit entries' out more
      else if limit <=? zlen out then Ok (out, true)
      else
        let! e := or_corrupt (DirEntry_decode v) in
        dir_collect start_after limit entries' (out ++ [(k, e)]) more
  end.

Definition dir_scan (p : P) (dir_root : ChunkId) (start_after : option bytes) (limit : Z)
  : tree_outcome (list (bytes * DirEntry) * bool) :=
  let! '(entries, has_more, _) := scan order max_fanout p dir_root start_after None (saturating_add 64 limit 1) in
  dir_collect start_after limit entries [] has_more.

Definition dir_count (p : P) (dir_root : ChunkId) : tree_outcome Z := count order max_fanout p dir_root.

(** * Snapshots *)

Definition snapshot_lookup (p : P) (tree_root : ChunkId) (name : bytes) : tree_outcome (option SnapshotEntry) :=
  let! o := get order max_fanout p tree_root name in
  match o with
  | Some b => let! e := or_corrupt (SnapshotEntry_decode b) in Ok (Some e)
  | None => Ok None
  end.

Definition snapshot_insert (p : P) (tree_root : ChunkId) (name : bytes) (e : SnapshotEntry) : tree_outcome (ChunkId * P) :=
  insert content_id order max_fanout p tree_root name (SnapshotEntry_encode e).

Definition snapshot_remove (p : P) (tree_root : ChunkId) (name : bytes) : tree_outcome (ChunkId * bool * P) :=
  let! before := snapshot_lookup p tree_root name in
  let! '(new_root, p) := remove content_id order max_fanout p tree_root name in
  Ok (new_root, bool_decide (is_Some before), p).

Fixpoint decode_snapshots (entries : list EntryPair) : tree_outcome (list (bytes * SnapshotEntry)) :=
  match entries with
  | [] => Ok []
  | (k, v) :: entries' =>
      let! e := or_corrupt (SnapshotEntry_decode v) in
      let! out := decode_snapshots entries' in
      Ok ((k, e) :: out)
  end.

Definition snapshot_list (p : P) (tree_root : ChunkId) : tree_outcome (list (bytes * SnapshotEntry)) :=
  let! entries := scan_all order max_fanout p tree_root in
  decode_snapshots entries.
End Operations.
