(* ===== verification/DirectorySpec.v ===== *)
(** Directories and snapshot trees against finite maps from names to their
    entries: the values an index of small records holds, whatever the record,
    and the pages of a directory. *)
From Stdlib Require Import Sorted.
From S2P Require Import Prelude Binomial Codec Rank Repr Descriptor Context Keys SegRecord BTree BTreeNode BTreeSpec BTreeCheck IndexSpec RemoveSpec ScanSpec Directory.

(** * The codecs *)

Definition DirEntry_ok (e : DirEntry) : Prop := is_u64 (de_ino e) /\ is_u8 (de_d_type e).
Definition SnapshotEntry_ok (e : SnapshotEntry) : Prop := wf_id (se_root_id e) /\ is_u64 (se_created_unix_ns e).

Lemma DirEntry_encode_image e : DirEntry_encode e = to_le 8 (de_ino e) ++ [de_d_type e].
Proof. done. Qed.
Lemma SnapshotEntry_encode_image e : SnapshotEntry_encode e = se_root_id e ++ to_le 8 (se_created_unix_ns e).
Proof. done. Qed.

Lemma DirEntry_roundtrip e : DirEntry_ok e -> DirEntry_decode (DirEntry_encode e) = Ok e.
Proof.
  intros [Hi Ht]. rewrite DirEntry_encode_image. set (b := to_le 8 (de_ino e) ++ [de_d_type e]).
  assert (Hat : reader_at (Reader_new b) b) by (apply Reader_new_at; unfold b; by rewrite zlen_app, zlen_to_le).
  unfold DirEntry_decode. generalize dependent (Reader_new b). intros r Hat. unfold b in Hat.
  read_with Reader_u64_ok. read_with Reader_u8_ok. rewrite (Reader_done_spec _ _ Hat1). cbn. by destruct e.
Qed.
Lemma SnapshotEntry_roundtrip e : SnapshotEntry_ok e -> SnapshotEntry_decode (SnapshotEntry_encode e) = Ok e.
Proof.
  intros [[Hl Hw] Ht]. rewrite SnapshotEntry_encode_image. set (b := se_root_id e ++ to_le 8 (se_created_unix_ns e)).
  assert (Hz : zlen (se_root_id e) = 32) by (unfold zlen; by rewrite Hl).
  assert (Hat : reader_at (Reader_new b) b) by (apply Reader_new_at; unfold b; by rewrite zlen_app, zlen_to_le, Hz).
  unfold SnapshotEntry_decode. generalize dependent (Reader_new b). intros r Hat. unfold b in Hat.
  read_with Reader_take_ok. rewrite <-(app_nil_r (to_le 8 _)) in Hat0. read_with Reader_u64_ok.
  rewrite (Reader_done_spec _ _ Hat1). cbn. by destruct e.
Qed.
Lemma DirEntry_value e : DirEntry_ok e -> value_ok (DirEntry_encode e).
Proof.
  intros [Hi Ht]. rewrite DirEntry_encode_image. split; [|by rewrite zlen_app, zlen_to_le].
  apply wf_bytes_app. split; [apply to_le_wf | by repeat constructor; width].
Qed.
Lemma SnapshotEntry_value e : SnapshotEntry_ok e -> value_ok (SnapshotEntry_encode e).
Proof.
  intros [[Hl Hw] Ht]. rewrite SnapshotEntry_encode_image. split.
  - apply wf_bytes_app. split; [done | apply to_le_wf].
  - rewrite zlen_app, zlen_to_le. unfold zlen. by rewrite Hl.
Qed.

(** * An index of records *)

Section Typed.
Context {P : Type} `{ProviderLaws P} (content_id : bytes -> ChunkId) (order max_fanout : Z).
Context (Horder : 2 <= order < 2 ^ 15) (Hfan : order <= max_fanout).
Context (Hid : forall b, wf_id (content_id b)).
Context {V : Type} (enc : V -> bytes) (dec : bytes -> result CodecError V) (ok : V -> Prop).
Context (Hrt : forall v, ok v -> dec (enc v) = Ok v) (Hval : forall v, ok v -> value_ok (enc v)).
Implicit Types (p : P) (sh : Shape) (n : nat) (E : gmap bytes V).

(** The index at [root] holds the encodings of [E]. *)
Definition records p sh n (root : ChunkId) E : Prop :=
  holds order max_fanout p sh n root (enc <$> E) /\ map_Forall (fun _ v => ok v) E.

(** The lookup of the module at hand: [get], then decode. *)
Definition record_lookup p root name : tree_outcome (option V) :=
  let! o := get order max_fanout p root name in
  match o with
  | Some b => let! e := or_corrupt (dec b) in Ok (Some e)
  | None => Ok None
  end.

Lemma record_lookup_ok p sh n root E name :
  records p sh n root E -> (n <= 128)%nat -> record_lookup p root name = Ok (E !! name).
Proof.
  intros [HE Hok] Hn. unfold record_lookup. rewrite (get_ok _ _ _ _ _ _ _ _ HE Hn), lookup_fmap. cbn [rbind].
  destruct (E !! name) as [v|] eqn:Ev; [|done]. cbn. by rewrite Hrt by by apply (Hok name).
Qed.

Lemma record_insert_ok p sh n root E name v :
  shape_ok order max_fanout sh -> prov_ok p -> records p sh n root E -> (n <= 128)%nat -> key_ok name -> ok v ->
  exists root' l, insert content_id order max_fanout p root name (enc v) = Ok (root', staged content_id p l) /\
    (reads_back content_id (staged content_id p l) l -> records (staged content_id p l) sh (S n) root' (<[name := v]> E)) /\
    (forall n0 r E0, records p sh n0 r E0 -> records (staged content_id p l) sh n0 r E0).
Proof.
  intros Hsh Hp [HE Hok] Hn Hk Hv.
  destruct (insert_ok content_id order max_fanout Horder Hfan Hid p sh n root _ name (enc v) Hsh Hp HE Hn Hk (Hval _ Hv))
    as (root' & l & Ei & Hnew & Hold). exists root', l. split; [done|]. split.
  - intros Hr. split; [rewrite fmap_insert; by apply Hnew | by apply map_Forall_insert_2].
  - intros n0 r E0 [HE0 Hok0]. split; [by apply Hold | done].
Qed.

Lemma record_remove_ok p sh n root E name :
  shape_ok order max_fanout sh -> sh_min sh = 1 -> prov_ok p -> records p sh n root E -> (n <= 128)%nat ->
  exists root' l, remove content_id order max_fanout p root name = Ok (root', staged content_id p l) /\
    (reads_back content_id (staged content_id p l) l -> records (staged content_id p l) sh n root' (delete name E)) /\
    (forall n0 r E0, records p sh n0 r E0 -> records (staged content_id p l) sh n0 r E0).
Proof.
  intros Hsh Hmin Hp [HE Hok] Hn.
  destruct (remove_ok content_id order max_fanout Horder Hfan Hid p sh n root _ name Hsh Hmin Hp HE Hn)
    as (root' & l & Ei & Hnew & Hold & _). exists root', l. split; [done|]. split.
  - intros Hr. split; [rewrite fmap_delete; by apply Hnew|]. by apply map_Forall_delete.
  - intros n0 r E0 [HE0 Hok0]. split; [by apply Hold | done].
Qed.

(** The entries of [E] in the order of their names. *)
Definition named (E : gmap bytes V) (l : list (bytes * V)) : Prop :=
  sorted (map fst l) /\ forall k v, (k, v) ∈ l <-> E !! k = Some v.
Definition enc_named (x : bytes * V) : bytes * bytes := (x.1, enc x.2).

Lemma named_size E l : named E l -> length l = size E.
Proof.
  intros [Hs Hl]. rewrite <-length_map_to_list. apply Permutation_length, NoDup_Permutation.
  - apply (NoDup_fmap_1 fst). by apply sorted_NoDup.
  - apply NoDup_map_to_list.
  - intros [k v]. by rewrite elem_of_map_to_list.
Qed.

Lemma records_named p sh n root E :
  records p sh n root E ->
  exists l, named E l /\ index order max_fanout p sh n root (map enc_named l) /\ Forall (fun x : bytes * V => ok x.2) l.
Proof.
  intros [(m & Hix & Em) Hok]. pose proof (index_sorted _ _ _ _ _ _ _ Hix) as Hs.
  assert (Hl : forall m0, (forall x, x ∈ m0 -> x ∈ m) ->
    exists l, m0 = map enc_named l /\ Forall (fun x : bytes * V => E !! x.1 = Some x.2) l).
  { induction m0 as [|[k b] m0 IH]; intros Hsub; [by exists []|].
    destruct IH as (l & -> & Hl); [intros x Hx; apply Hsub, elem_of_cons; by right|].
    assert (Hin : (k, b) ∈ m) by (apply Hsub, elem_of_cons; by left). apply elem_of_to_map in Hin; [|done].
    rewrite <-Em, lookup_fmap in Hin. destruct (E !! k) as [v|] eqn:Ev; [|done]. injection Hin as <-.
    exists ((k, v) :: l). split; [done|]. by constructor. }
  destruct (Hl m) as (l & Eml & Hf); [done|]. rewrite Eml in Hix, Hs. exists l. split; [split|split; [done|]].
  - by rewrite map_map in Hs.
  - intros k v. rewrite list.Forall_forall in Hf. split; [intros Hin; by apply (Hf (k, v))|]. intros Hv.
    assert (Hin : (k, enc v) ∈ m).
    { rewrite Eml. apply elem_of_to_map; [done|]. by rewrite <-Eml, <-Em, lookup_fmap, Hv. }
    rewrite Eml in Hin. apply list_elem_of_fmap in Hin as ([k' v'] & Ek & Hin). unfold enc_named in Ek. cbn in Ek.
    injection Ek as -> _. pose proof (Hf _ Hin) as Hv'. cbn in Hv'. by simplify_eq.
  - eapply list.Forall_impl; [exact Hf|]. intros [k v] Hv. by apply (Hok k).
Qed.
End Typed.

(** * Directories *)

Section Directories.
Context {P : Type} `{ProviderLaws P} (content_id : bytes -> ChunkId) (order max_fanout : Z).
Context (Horder : 2 <= order < 2 ^ 15) (Hfan : order <= max_fanout).
Context (Hid : forall b, wf_id (content_id b)).
Implicit Types (p : P) (sh : Shape) (n : nat) (E : gmap bytes DirEntry).

(** The directory at [root] has the entries [E]. *)
Definition directory p sh n (root : ChunkId) E : Prop := records order max_fanout DirEntry_encode DirEntry_ok p sh n root E.
Definition snapshots p sh n (root : ChunkId) (E : gmap bytes SnapshotEntry) : Prop :=
  records order max_fanout SnapshotEntry_encode SnapshotEntry_ok p sh n root E.

Lemma dir_lookup_ok p sh n root E name :
  directory p sh n root E -> (n <= 128)%nat -> dir_lookup order max_fanout p root name = Ok (E !! name).
Proof. apply (record_lookup_ok _ _ _ _ _ DirEntry_roundtrip). Qed.

Lemma dir_insert_ok p sh n root E name e :
  shape_ok order max_fanout sh -> prov_ok p -> directory p sh n root E -> (n <= 128)%nat -> key_ok name -> DirEntry_ok e ->
  exists root' l, dir_insert content_id order max_fanout p root name e = Ok (root', staged content_id p l) /\
    (reads_back content_id (staged content_id p l) l -> directory (staged content_id p l) sh (S n) root' (<[name := e]> E)) /\
    (forall n0 r E0, directory p sh n0 r E0 -> directory (staged content_id p l) sh n0 r E0).
Proof. apply (record_insert_ok content_id order max_fanout Horder Hfan Hid _ _ DirEntry_value). Qed.

Lemma dir_remove_ok p sh n root E name :
  shape_ok order max_fanout sh -> sh_min sh = 1 -> prov_ok p -> directory p sh n root E -> (n <= 128)%nat ->
  exists root' l, dir_remove content_id order max_fanout p root name =
      Ok (root', bool_decide (is_Some (E !! name)), staged content_id p l) /\
    (reads_back content_id (staged content_id p l) l -> directory (staged content_id p l) sh n root' (delete name E)) /\
    (forall n0 r E0, directory p sh n0 r E0 -> directory (staged content_id p l) sh n0 r E0).
Proof.
  intros Hsh Hmin Hp HE Hn. unfold dir_remove. rewrite (dir_lookup_ok p sh n root E) by done. cbn [rbind].
  destruct (record_remove_ok content_id order max_fanout Horder Hfan Hid DirEntry_encode DirEntry_ok p sh n root E name)
    as (root' & l & -> & Hr); [done..|]. exists root', l. by split.
Qed.

(** The names behind [start_after]. *)
Definition is_after (start_after : option bytes) (k : bytes) : Prop :=
  match start_after with Some s => klt s k | None => True end.
#[local] Instance is_after_dec sa k : Decision (is_after sa k).
Proof. destruct sa; unfold is_after; apply _. Defined.
Definition after (start_after : option bytes) (l : list (bytes * DirEntry)) : list (bytes * DirEntry) :=
  base.filter (fun x : bytes * DirEntry => is_after start_after x.1) l.

Lemma dir_collect_ok sa limit es out more :
  Forall (fun x : bytes * DirEntry => DirEntry_ok x.2 /\ sa <> Some x.1) es -> zlen out <= limit ->
  dir_collect sa limit (map (enc_named DirEntry_encode) es) out more =
  Ok (out ++ take (Z.to_nat (limit - zlen out)) es, if limit <? zlen out + zlen es then true else more).
Proof.
  intros Hes. revert out. induction Hes as [|[k e] es [He Hk] Hes IH]; intros out Hout; cbn [map dir_collect enc_named fst snd].
  { rewrite take_nil, app_nil_r, zlen_nil. by pass_guard. }
  rewrite bool_decide_eq_false_2 by done. rewrite zlen_cons. pose proof (zlen_nonneg es).
  destruct (Z.leb_spec limit (zlen out)).
  - replace (limit - zlen out) with 0 by lia. rewrite take_0, app_nil_r. by pass_guard.
  - unfold or_corrupt. rewrite DirEntry_roundtrip by done. cbn [map_err rbind].
    assert (Hz : zlen (out ++ [(k, e)]) = zlen out + 1) by apply zlen_app.
    rewrite IH, Hz, <-app_assoc by lia.
    replace (Z.to_nat (limit - zlen out)) with (S (Z.to_nat (limit - (zlen out + 1)))) by lia. cbn [take app].
    by rewrite <-Z.add_assoc.
Qed.

Lemma range_named sa l :
  range sa None (map (enc_named DirEntry_encode) l) =
  map (enc_named DirEntry_encode)
    (base.filter (fun x : bytes * DirEntry => above sa x.1) l).
Proof.
  induction l as [|[k e] l IH]; [done|]. cbn [map]. unfold range in *.
  assert (Hiff : in_range sa None (enc_named DirEntry_encode (k, e)) <-> above sa k).
  { unfold in_range, enc_named. cbn. tauto. }
  destruct (decide (above sa k)).
  - rewrite !filter_cons_True by (done || by apply Hiff). cbn [map]. by rewrite IH.
  - rewrite !filter_cons_False by (done || by rewrite Hiff). by rewrite IH.
Qed.

(** The entry at [start_after], if it is there, comes first. *)
Lemma from_after sa l :
  sorted (map fst l) ->
  let r := base.filter (fun x : bytes * DirEntry => above sa x.1) l in
  r = after sa l \/ exists k e, sa = Some k /\ r = (k, e) :: after sa l.
Proof.
  intros Hs. cbv zeta. destruct sa as [s|]; [|by left]. unfold after.
  induction l as [|[k e] l IH]; [by left|]. cbn [map] in Hs. apply sorted_cons_inv in Hs as [Hs Hf].
  destruct (cmp_key_spec s k) as [->|Hlt|Hgt].
  - right. exists k, e. split; [done|]. rewrite filter_cons_True by by right.
    rewrite filter_cons_False by (cbn; korder). f_equal. clear IH Hs.
    assert (Hall : Forall (fun x : bytes * DirEntry => klt k x.1) l) by (by apply (proj1 (Forall_fmap _ _ l)) in Hf).
    clear Hf. induction Hall as [|x l Hx Hall IH]; [done|].
    rewrite !filter_cons_True by (done || by left). by rewrite IH.
  - rewrite !filter_cons_True by (done || by left). destruct (IH Hs) as [->|(k' & e' & [= <-] & E)]; [by left|].
    exfalso. assert (Hin : (s, e') ∈ l).
    { apply (list_elem_of_filter (fun x : bytes * DirEntry => above (Some s) x.1)). rewrite E. apply list_elem_of_here. }
    rewrite list.Forall_forall in Hf. assert (klt k s) by (apply Hf; by apply (list_elem_of_fmap_2 fst) in Hin). korder.
  - rewrite !filter_cons_False by (cbn; try korder; intros [?|?]; korder). by apply IH.
Qed.

Lemma dir_scan_ok p sh n (root : ChunkId) E start_after limit :
  directory p sh n root E -> (n <= 128)%nat -> is_u64 limit ->
  exists l more, named E l /\
    (zlen l < 2 ^ 64 - 1 ->
     dir_scan order max_fanout p root start_after limit = Ok (take (Z.to_nat limit) (after start_after l), more) /\
     (limit < zlen (after start_after l) -> more = true) /\
     (more = true -> zlen (take (Z.to_nat limit) (after start_after l)) = limit)).
Proof.
  intros HE Hn Hl. assert (Hl0 : 0 <= limit) by width. destruct (records_named _ _ _ _ _ _ _ _ _ HE) as (l & Hnm & Hix & Hok). exists l.
  unfold dir_scan. set (L := saturating_add 64 limit 1).
  destruct (scan_ok order max_fanout p sh n root _ start_after None L Hix Hn) as (more' & -> & Hm1 & Hm2);
    [unfold L, saturating_add; width|]. cbn [rbind].
  rewrite range_named in *. set (r := base.filter _ l) in *.
  pose proof (from_after start_after l (proj1 Hnm)) as Hr. cbv zeta in Hr. change (base.filter _ l) with r in Hr.
  assert (Hz : forall m, zlen (map (enc_named DirEntry_encode) m) = zlen m) by (intros m; unfold zlen; by rewrite length_map).
  rewrite Hz in Hm1. rewrite firstn_map in *. rewrite Hz in Hm2. set (a := after start_after l) in *.
  assert (Hoka : Forall (fun x : bytes * DirEntry => DirEntry_ok x.2 /\ start_after <> Some x.1) a).
  { apply list.Forall_forall. intros x Hx. apply list_elem_of_filter in Hx as [Hx Hin]. rewrite list.Forall_forall in Hok.
    split; [by apply Hok|]. intros ->. cbn in Hx. korder. }
  assert (Hal : zlen a <= zlen l) by (unfold zlen, a, after; apply Nat2Z.inj_le, length_filter).
  pose proof (zlen_nonneg a). assert (HL : L = limit + 1 \/ (L = limit /\ L = 2 ^ 64 - 1)) by (unfold L, saturating_add; width).
  assert (HL1 : 1 <= L) by (unfold L, saturating_add; width). clearbody L.
  assert (Htk : forall k, zlen (take k a) = Z.min (Z.of_nat k) (zlen a)) by (intros k; unfold zlen; rewrite length_take; lia).
  destruct Hr as [Hr|(k & e & -> & Hr)]; rewrite Hr in *.
  - exists (if limit <? zlen (take (Z.to_nat L) a) then true else more'). split; [done|]. intros Hlen.
    rewrite dir_collect_ok by (by apply Forall_take || (rewrite zlen_nil; width)).
    cbn [app]. rewrite zlen_nil, Z.sub_0_r, Z.add_0_l, take_take, !Htk in *.
    replace (Z.to_nat limit `min` Z.to_nat L)%nat with (Z.to_nat limit) by lia. split; [done|].
    destruct (Z.ltb_spec limit (Z.of_nat (Z.to_nat L) `min` zlen a)); (split; [|]); try done; try width.
    intros Hm. specialize (Hm2 Hm). width.
  - exists more'. split; [done|]. intros Hlen. rewrite zlen_cons in *.
    assert (Hll : 1 + zlen a <= zlen l).
    { enough (zlen r <= zlen l) by (rewrite Hr, zlen_cons in *; lia). unfold zlen, r. apply Nat2Z.inj_le, length_filter. }
    assert (L = limit + 1 \/ zlen a < limit) by lia.
    replace (Z.to_nat L) with (S (Z.to_nat (L - 1))) in * by lia. cbn [take map enc_named fst snd dir_collect] in *.
    rewrite (bool_decide_eq_true_2 (Some k = Some k)) by done. rewrite zlen_cons, Htk in Hm2.
    rewrite dir_collect_ok by (by apply Forall_take || (rewrite zlen_nil; width)).
    cbn [app]. rewrite zlen_nil, Z.sub_0_r, Z.add_0_l, take_take, !Htk in *.
    destruct HL as [HL|[HL HL']].
    + replace (Z.to_nat limit `min` Z.to_nat (L - 1))%nat with (Z.to_nat limit) by lia.
      assert (Hf : (limit <? Z.of_nat (Z.to_nat (L - 1)) `min` zlen a) = false) by (apply Z.ltb_ge; lia). rewrite Hf. split_and!; [done | intros; apply Hm1; lia | intros Hm; specialize (Hm2 Hm); lia].
    + assert (Hf : (limit <? Z.of_nat (Z.to_nat (L - 1)) `min` zlen a) = false) by (apply Z.ltb_ge; lia). rewrite Hf.
      rewrite !take_ge by (unfold zlen in *; lia). split_and!; [done | intros; lia | intros Hm; specialize (Hm2 Hm); lia].
Qed.

(** A page of a directory.  For a directory with the entries [E] in name
    order [l], [dir_scan] returns the first [limit] entries whose names come
    strictly after [start_after], whether or not that name still exists; when
    entries are left it says so, and it says so only of a full page. *)
Theorem dir_scan_page p sh n (root : ChunkId) E start_after limit :
  directory p sh n root E -> (n <= 128)%nat -> is_u64 limit ->
  exists l more, named E l /\
    (zlen l < 2 ^ 64 - 1 ->
     dir_scan order max_fanout p root start_after limit = Ok (take (Z.to_nat limit) (after start_after l), more) /\
     (limit < zlen (after start_after l) -> more = true) /\
     (more = true -> zlen (take (Z.to_nat limit) (after start_after l)) = limit)).
Proof. apply dir_scan_ok. Qed.

(** The emptiness test of a removal: a page of one entry. *)
Lemma dir_probe_ok p sh n (root : ChunkId) E :
  directory p sh n root E -> (n <= 128)%nat -> Z.of_nat (size E) < 2 ^ 64 - 1 ->
  exists l more, dir_scan order max_fanout p root None 1 = Ok (l, more) /\ (l = [] <-> E = ∅).
Proof.
  intros HE Hn Hsz. destruct (dir_scan_ok p sh n root E None 1 HE Hn ltac:(done)) as (l & more & Hl & Hscan).
  pose proof (named_size _ _ Hl) as Hsize. destruct Hscan as [-> _]; [unfold zlen; lia|].
  eexists _, _. split; [done|]. change (Z.to_nat 1) with 1%nat. unfold after.
  assert (Hall : forall m : list (bytes * DirEntry), base.filter (fun x : bytes * DirEntry => is_after None x.1) m = m).
  { induction m as [|y m IH]; [done|]. by rewrite filter_cons_True, IH. }
  rewrite Hall.
  split.
  - intros Ht. apply map_size_empty_inv. rewrite <-Hsize. by destruct l.
  - intros ->. by destruct l.
Qed.

Lemma decode_snapshots_ok l :
  Forall (fun x : bytes * SnapshotEntry => SnapshotEntry_ok x.2) l ->
  decode_snapshots (map (enc_named SnapshotEntry_encode) l) = Ok l.
Proof.
  induction 1 as [|[k e] l He _ IH]; [done|]. cbn [map enc_named decode_snapshots fst snd]. unfold or_corrupt.
  rewrite SnapshotEntry_roundtrip by done. cbn [map_err rbind]. by rewrite IH.
Qed.

(** The snapshot tree: a lookup finds exactly the snapshot of that name,
    [list] returns all of them in name order, an insertion binds its name,
    and a removal unbinds it and reports whether it was there; both leave
    the old tree what it was. *)
Theorem snapshot_tree_spec p sh n (root : ChunkId) (E : gmap bytes SnapshotEntry) name e :
  shape_ok order max_fanout sh -> sh_min sh = 1 -> prov_ok p -> snapshots p sh n root E -> (n <= 128)%nat ->
  Z.of_nat (size E) < 2 ^ 64 -> key_ok name -> SnapshotEntry_ok e ->
  snapshot_lookup order max_fanout p root name = Ok (E !! name) /\
  (exists l, named E l /\ snapshot_list order max_fanout p root = Ok l) /\
  (exists root' l, snapshot_insert content_id order max_fanout p root name e = Ok (root', staged content_id p l) /\
    snapshots (staged content_id p l) sh n root E /\
    (reads_back content_id (staged content_id p l) l -> snapshots (staged content_id p l) sh (S n) root' (<[name := e]> E))) /\
  (exists root' l, snapshot_remove content_id order max_fanout p root name =
      Ok (root', bool_decide (is_Some (E !! name)), staged content_id p l) /\
    snapshots (staged content_id p l) sh n root E /\
    (reads_back content_id (staged content_id p l) l -> snapshots (staged content_id p l) sh n root' (delete name E))).
Proof.
  intros Hsh Hmin Hp HE Hn Hsz Hk He.
  assert (Hlook : snapshot_lookup order max_fanout p root name = Ok (E !! name))
    by exact (record_lookup_ok order max_fanout _ _ _ SnapshotEntry_roundtrip p sh n root E name HE Hn).
  split_and!; [done | | |].
  - destruct (records_named _ _ _ _ _ _ _ _ _ HE) as (l & Hnm & Hix & Hok). exists l. split; [done|].
    assert (Hl : zlen (map (enc_named SnapshotEntry_encode) l) < 2 ^ 64) by (unfold zlen; rewrite length_map; apply named_size in Hnm; lia).
    unfold snapshot_list. rewrite (proj1 (scan_all_spec order max_fanout p sh n root _ Hix Hn Hl)).
    cbn [rbind]. by apply decode_snapshots_ok.
  - destruct (record_insert_ok content_id order max_fanout Horder Hfan Hid SnapshotEntry_encode SnapshotEntry_ok SnapshotEntry_value
      p sh n root E name e) as (root' & l & Ei & Hnew & Hold); [done..|]. exists root', l. split_and!; [done | by apply Hold | done].
  - unfold snapshot_remove. rewrite Hlook. cbn [rbind].
    destruct (record_remove_ok content_id order max_fanout Horder Hfan Hid SnapshotEntry_encode SnapshotEntry_ok p sh n root E name)
      as (root' & l & -> & Hnew & Hold); [done..|]. exists root', l. split_and!; [done | by apply Hold | done].
Qed.
End Directories.

(** * Examples *)

(** The names [a] and [b] in one leaf, and a tree of one snapshot. *)
Definition dir_sample : tree_outcome (ChunkId * Log) :=
  let! '(root, p) := dir_insert sample_hash 8 4096 ([] : Log) ChunkId_ZERO [97] {| de_ino := 2; de_d_type := DT_REG |} in
  dir_insert sample_hash 8 4096 p root [98] {| de_ino := 3; de_d_type := DT_DIR |}.
Definition dir_log : Log := Eval vm_compute in state_of [] dir_sample.
Definition dir_root : ChunkId := Eval vm_compute in root_of dir_sample.
Definition one_leaf : Shape := {| sh_leaf := 8; sh_min := 1 |}.
Definition dir_entries : gmap bytes DirEntry :=
  {[ [97] := {| de_ino := 2; de_d_type := DT_REG |}; [98] := {| de_ino := 3; de_d_type := DT_DIR |} ]}.

Lemma dir_sample_holds : directory 8 4096 dir_log one_leaf 0 dir_root dir_entries.
Proof.
  split.
  - eval_holds [([97%Z], DirEntry_encode {| de_ino := 2; de_d_type := DT_REG |}); ([98%Z], DirEntry_encode {| de_ino := 3; de_d_type := DT_DIR |})].
  - intros k v Hk. unfold dir_entries in Hk. rewrite lookup_insert_Some, lookup_singleton_Some in Hk.
    destruct Hk as [[_ <-]|[_ [_ <-]]]; split; cbn; unfold DT_REG, DT_DIR; width.
Qed.

Lemma dir_scan_page_witness :
  exists l more, named dir_entries l /\
    dir_scan 8 4096 dir_log dir_root (Some [97]) 10 = Ok (take 10 (after (Some [97]) l), more).
Proof.
  destruct (dir_scan_page 8 4096 ltac:(lia) dir_log one_leaf 0 dir_root dir_entries (Some [97]) 10 dir_sample_holds ltac:(lia) ltac:(width))
    as (l & more & Hl & Hscan).
  exists l, more. split; [exact Hl|]. apply Hscan. unfold zlen. rewrite (named_size _ _ Hl).
  replace (size dir_entries) with 2%nat by by vm_compute. lia.
Defined.

Definition snap_entry : SnapshotEntry := {| se_root_id := sample_hash [1]; se_created_unix_ns := 7 |}.
Definition snap_sample : tree_outcome (ChunkId * Log) :=
  snapshot_insert sample_hash 8 4096 ([] : Log) ChunkId_ZERO [115] snap_entry.
Definition snap_log : Log := Eval vm_compute in state_of [] snap_sample.
Definition snap_root : ChunkId := Eval vm_compute in root_of snap_sample.
Definition snap_entries : gmap bytes SnapshotEntry := {[ [115] := snap_entry ]}.

Lemma snap_sample_holds : snapshots 8 4096 snap_log one_leaf 0 snap_root snap_entries.
Proof.
  split.
  - eval_holds [([115%Z], SnapshotEntry_encode snap_entry)].
  - apply map_Forall_singleton. split; [apply sample_hash_wf | cbn; width].
Qed.

Lemma snapshot_tree_spec_witness :
  snapshot_lookup 8 4096 snap_log snap_root [115] = Ok (Some snap_entry) /\
  exists root' l, snapshot_remove sample_hash 8 4096 snap_log snap_root [115] = Ok (root', true, staged sample_hash snap_log l) /\
    snapshots 8 4096 (staged sample_hash snap_log l) one_leaf 0 root' ∅.
Proof.
  destruct (snapshot_tree_spec sample_hash 8 4096 ltac:(lia) ltac:(lia) sample_hash_wf snap_log one_leaf 0 snap_root snap_entries
    [115] snap_entry ltac:(by vm_compute) eq_refl (Log_ok _) snap_sample_holds ltac:(lia) ltac:(by vm_compute)
    ltac:(split; [by repeat constructor | done]) ltac:(split; [apply sample_hash_wf | cbn; width])) as (El & _ & _ & (root' & l & E & _ & Hh)).
  split; [exact El|]. exists root', l. split; [exact E|].
  replace (∅ : gmap bytes SnapshotEntry) with (delete [115] snap_entries) by by vm_compute.
  apply Hh. clear Hh. eval_reads_back E.
Defined.
