(* ===== verification/Transaction.v ===== *)
(** Component [store/transaction.rs] and the in-transaction half of
    [store/mod.rs]: a transaction over the trees of a root (inodes, chunk
    descriptors, extents), the walk that drops the records its final root does
    not reach, and the commit.

    Every index access goes through the transaction as an object provider; the
    store below it is what [tx_indexed] and [tx_fetch] answer.  The text of an
    error that is formatted into another is a parameter of that store.  The
    numbers formatted into the messages of invariant errors are left out. *)
From stdpp Require Import gmap.
From Stdlib Require String.
From S2P Require Import Prelude Codec Repr Version SegRecord Inode Superblock Descriptor Context Keys BTree StoreError RootObj ExtentTree Directory.
Import String.StringSyntax.

(** * Crash points *)

Inductive CrashPoint : Type :=
| AfterRecordAppend
| AfterSegmentFdatasync
| AfterSegmentDirFsync
| AfterRootWrite
| AfterSuperblockWrite
| AfterSuperblockFsync
| BeforeOldSegmentDelete.
#[global] Instance CrashPoint_eq_dec : EqDecision CrashPoint.
Proof. solve_decision. Defined.

Record CrashHooks : Type := { armed : option CrashPoint }.
Definition CrashHooks_none : CrashHooks := {| armed := None |}.
Definition crash_at (point : CrashPoint) : CrashHooks := {| armed := Some point |}.

(** [format!("{point:?}")] *)
Definition CrashPoint_text (point : CrashPoint) : String.string :=
  match point with
  | AfterRecordAppend => "AfterRecordAppend"
  | AfterSegmentFdatasync => "AfterSegmentFdatasync"
  | AfterSegmentDirFsync => "AfterSegmentDirFsync"
  | AfterRootWrite => "AfterRootWrite"
  | AfterSuperblockWrite => "AfterSuperblockWrite"
  | AfterSuperblockFsync => "AfterSuperblockFsync"
  | BeforeOldSegmentDelete => "BeforeOldSegmentDelete"
  end.

Definition hit (h : CrashHooks) (point : CrashPoint) : result StoreError unit :=
  if bool_decide (armed h = Some point) then Err (CrashSimulated (CrashPoint_text point)) else Ok tt.

(** * Outcomes *)

(** A store operation: a typed error or a panic. *)
Definition outcome (A : Type) : Type := result (trap StoreError) A.
(** [?] on a [BTreeError] and on a [CodecError]. *)
Definition of_tree {A} (m : tree_outcome A) : outcome A := map_err (trap_map (fun e => StoreIndex (OfTree e))) m.
Definition of_codec {A} (m : result CodecError A) : outcome A := map_err (fun e => Error (StoreDescriptor (OfCodec e))) m.
Definition of_trap_codec {A} (m : result (trap CodecError) A) : outcome A := map_err (trap_map (fun e => StoreDescriptor (OfCodec e))) m.
Definition invariant {A} (msg : String.string) : outcome A := Err (Error (StoreInvariant msg)).

Definition BTREE_ORDER : Z := 64.

(** * The transaction *)

(** [Tx]: the provider, the root being built, and the feature bits of the
    commit state it runs under. *)
Record Txn : Type := {
  txn_tx : Tx StoreError;
  txn_root : Root;
  txn_features : Z
}.

Definition set_tx (t : Txn) (x : Tx StoreError) : Txn :=
  {| txn_tx := x; txn_root := txn_root t; txn_features := txn_features t |}.
Definition set_root (t : Txn) (r : Root) : Txn :=
  {| txn_tx := txn_tx t; txn_root := r; txn_features := txn_features t |}.

Definition with_inode_index (r : Root) (id : ChunkId) : Root :=
  {| root_format_major := root_format_major r; root_format_minor := root_format_minor r; inode_index_root := id;
     root_dir_ino := root_dir_ino r; snapshot_tree_root := snapshot_tree_root r; model_index_root := model_index_root r;
     root_segment_seq := root_segment_seq r; index_epoch := index_epoch r; root_uuid := root_uuid r;
     root_generation := root_generation r; chunk_index_root := chunk_index_root r; log_seq := log_seq r |}.
Definition with_chunk_index (r : Root) (id : ChunkId) : Root :=
  {| root_format_major := root_format_major r; root_format_minor := root_format_minor r; inode_index_root := inode_index_root r;
     root_dir_ino := root_dir_ino r; snapshot_tree_root := snapshot_tree_root r; model_index_root := model_index_root r;
     root_segment_seq := root_segment_seq r; index_epoch := index_epoch r; root_uuid := root_uuid r;
     root_generation := root_generation r; chunk_index_root := id; log_seq := log_seq r |}.
Definition with_snapshot_tree (r : Root) (id : ChunkId) : Root :=
  {| root_format_major := root_format_major r; root_format_minor := root_format_minor r; inode_index_root := inode_index_root r;
     root_dir_ino := root_dir_ino r; snapshot_tree_root := id; model_index_root := model_index_root r;
     root_segment_seq := root_segment_seq r; index_epoch := index_epoch r; root_uuid := root_uuid r;
     root_generation := root_generation r; chunk_index_root := chunk_index_root r; log_seq := log_seq r |}.
Definition with_log_seq (r : Root) (s : Z) : Root :=
  {| root_format_major := root_format_major r; root_format_minor := root_format_minor r; inode_index_root := inode_index_root r;
     root_dir_ino := root_dir_ino r; snapshot_tree_root := snapshot_tree_root r; model_index_root := model_index_root r;
     root_segment_seq := root_segment_seq r; index_epoch := index_epoch r; root_uuid := root_uuid r;
     root_generation := root_generation r; chunk_index_root := chunk_index_root r; log_seq := s |}.
Definition with_publication (r : Root) (generation segment_seq : Z) : Root :=
  {| root_format_major := root_format_major r; root_format_minor := root_format_minor r; inode_index_root := inode_index_root r;
     root_dir_ino := root_dir_ino r; snapshot_tree_root := snapshot_tree_root r; model_index_root := model_index_root r;
     root_segment_seq := segment_seq; index_epoch := index_epoch r; root_uuid := root_uuid r;
     root_generation := generation; chunk_index_root := chunk_index_root r; log_seq := log_seq r |}.

Definition with_data (i : Inode) (d : InodeData) : Inode :=
  {| i_mode := i_mode i; i_uid := i_uid i; i_gid := i_gid i; i_size := i_size i; i_atime := i_atime i;
     i_ctime := i_ctime i; i_mtime := i_mtime i; i_crtime := i_crtime i; i_nlink := i_nlink i; i_rdev := i_rdev i;
     i_flags := i_flags i; i_xattr_root := i_xattr_root i; i_data_kind := i_data_kind i; i_data := d |}.
Definition with_ctime (i : Inode) (now : Timespec) : Inode :=
  {| i_mode := i_mode i; i_uid := i_uid i; i_gid := i_gid i; i_size := i_size i; i_atime := i_atime i;
     i_ctime := now; i_mtime := i_mtime i; i_crtime := i_crtime i; i_nlink := i_nlink i; i_rdev := i_rdev i;
     i_flags := i_flags i; i_xattr_root := i_xattr_root i; i_data_kind := i_data_kind i; i_data := i_data i |}.
Definition with_mtime (i : Inode) (now : Timespec) : Inode :=
  {| i_mode := i_mode i; i_uid := i_uid i; i_gid := i_gid i; i_size := i_size i; i_atime := i_atime i;
     i_ctime := i_ctime i; i_mtime := now; i_crtime := i_crtime i; i_nlink := i_nlink i; i_rdev := i_rdev i;
     i_flags := i_flags i; i_xattr_root := i_xattr_root i; i_data_kind := i_data_kind i; i_data := i_data i |}.
Definition with_nlink (i : Inode) (n : Z) : Inode :=
  {| i_mode := i_mode i; i_uid := i_uid i; i_gid := i_gid i; i_size := i_size i; i_atime := i_atime i;
     i_ctime := i_ctime i; i_mtime := i_mtime i; i_crtime := i_crtime i; i_nlink := n; i_rdev := i_rdev i;
     i_flags := i_flags i; i_xattr_root := i_xattr_root i; i_data_kind := i_data_kind i; i_data := i_data i |}.

(** The object a decoded inode-index value names. *)
Definition load_inode (fetch : ChunkId -> result StoreError (option bytes)) (id_bytes : bytes) : outcome Inode :=
  let! inode_id := ok_or (ChunkId_from_bytes id_bytes) (Error (StoreInvariant "inode index value not an id")) in
  let! o := safe (fetch inode_id) in
  let! payload := ok_or o (Error (StoreInvariant "inode object missing")) in
  of_codec (Inode_decode payload).

(** [ino.to_be_bytes()] *)
Definition inode_key (ino : Z) : bytes := to_be 8 ino.

Section Ops.
Context (content_id : bytes -> ChunkId) (limits : Limits).
#[local] Abbreviation fanout := (max_fanout limits).

(** ** Objects *)

Definition put_object (t : Txn) (tag : RecordTag) (payload : bytes) (materialized_len : option Z) : ChunkId * Txn :=
  let id := content_id payload in
  (id, set_tx t (Tx_stage (txn_tx t) id payload tag materialized_len)).

Definition put_inode (t : Txn) (inode : Inode) : outcome (ChunkId * Txn) :=
  let! b := of_trap_codec (Inode_encode inode) in
  Ok (put_object t InodeTag b None).

Definition resolve_descriptor (t : Txn) (cid : ChunkId) : outcome (option Representation) :=
  let! o := safe (fetch_pending_or_store (txn_tx t) cid) in
  match o with
  | Some b => let! rep := of_codec (Descriptor.decode limits b) in Ok (Some rep)
  | None => Ok None
  end.

(** ** Inodes *)

(** [Store::get_inode], over the committed store as the provider [x]. *)
Definition get_inode (x : Tx StoreError) (root : Root) (ino : Z) : outcome (option Inode) :=
  let! o := of_tree (get BTREE_ORDER fanout x (inode_index_root root) (inode_key ino)) in
  match o with
  | Some id_bytes => let! i := load_inode (tx_fetch x) id_bytes in Ok (Some i)
  | None => Ok None
  end.

Definition inode_for_tx (t : Txn) (ino : Z) : outcome Inode :=
  let! o := of_tree (get BTREE_ORDER fanout (txn_tx t) (inode_index_root (txn_root t)) (inode_key ino)) in
  match o with
  | Some id_bytes => load_inode (fetch_pending_or_store (txn_tx t)) id_bytes
  | None => invariant "inode missing"
  end.

Definition put_inode_in_tx (t : Txn) (ino : Z) (inode : Inode) : outcome Txn :=
  let! '(inode_id, t) := put_inode t inode in
  let! '(root, x) :=
    of_tree (insert content_id BTREE_ORDER fanout (txn_tx t) (inode_index_root (txn_root t)) (inode_key ino) inode_id) in
  Ok (set_root (set_tx t x) (with_inode_index (txn_root t) root)).

Definition remove_inode_in_tx (t : Txn) (ino : Z) : outcome Txn :=
  let! '(root, x) :=
    of_tree (remove content_id BTREE_ORDER fanout (txn_tx t) (inode_index_root (txn_root t)) (inode_key ino)) in
  Ok (set_root (set_tx t x) (with_inode_index (txn_root t) root)).

Fixpoint key_inos (entries : list EntryPair) : outcome (list Z) :=
  match entries with
  | [] => Ok []
  | (k, _) :: entries' =>
      let! ino := of_tree (key_offset k) in
      let! inos := key_inos entries' in
      Ok (ino :: inos)
  end.

Definition all_inodes (x : Tx StoreError) (root : Root) : outcome (list Z) :=
  let! entries := of_tree (scan_all BTREE_ORDER fanout x (inode_index_root root)) in
  key_inos entries.

(** [inodes.iter().copied().max().unwrap_or(1) + 1] *)
Definition alloc_ino (x : Tx StoreError) (root : Root) : outcome Z :=
  let! inodes := all_inodes x root in
  ok_or (checked_add 64 (match inodes with [] => 1 | i :: is_ => fold_left Z.max is_ i end) 1) Panic.

(** ** Chunk descriptors *)

Definition chunk_descriptor (x : Tx StoreError) (root : Root) (cid : ChunkId) : outcome (option bytes) :=
  of_tree (get BTREE_ORDER fanout x (chunk_index_root root) cid).

(** The feature bits a descriptor needs. *)
Definition descriptor_features (features : Z) (descriptor : Representation) : Z :=
  match descriptor with
  | EntropyRef _ _ _ _ _ _ => Z.lor features (Feature_mask FEntropyRef)
  | Palette _ _ _ _ => Z.lor features (Feature_mask FPalette)
  | Repr.Permutation _ _ _ => Z.lor features (Feature_mask FPermutation)
  | SequenceRans _ _ _ _ _ _ _ _ _ _ => Z.lor features (Feature_mask FSequenceRans)
  | SparseBlock64 _ _ _ _ _ _ _ _ _ _ _ => Z.lor features (Feature_mask FSparseBlock64)
  | SequenceDict _ _ _ _ _ _ _ _ _ _ _ _ _ => Z.lor features (Feature_mask FSequenceDict)
  | SequenceSharedDict _ _ _ _ _ _ _ _ _ _ _ _ _ _ _ => Z.lor features (Feature_mask FSequenceSharedDict)
  | SequenceDeep _ _ _ _ _ _ _ _ _ _ _ => Z.lor features (Feature_mask FSequenceDeep)
  | _ => features
  end.

Definition put_chunk_in_tx (t : Txn) (cid : ChunkId) (descriptor : Representation) : outcome Txn :=
  match Representation_validate limits descriptor with
  | Err _ => Err (Error (StoreDescriptor (Text "invalid descriptor")))
  | Ok _ =>
      let self_alias := match descriptor with ExactRef target _ _ => bool_decide (target = cid) | _ => false end in
      if self_alias then Ok t else
      let features := descriptor_features (txn_features t) descriptor in
      let! b := of_codec (Descriptor.encode descriptor) in
      let! '(root, x) := of_tree (insert content_id BTREE_ORDER fanout (txn_tx t) (chunk_index_root (txn_root t)) cid b) in
      Ok {| txn_tx := x; txn_root := with_chunk_index (txn_root t) root; txn_features := Z.lor (txn_features t) features |}
  end.

(** ** Extents *)

Definition put_extent_in_tx (t : Txn) (now : Timespec) (ino off : Z) (descriptor : Representation) : outcome Txn :=
  let! b := of_codec (Descriptor.encode descriptor) in
  let! inode := inode_for_tx t ino in
  match i_data inode with
  | IFile extent_root =>
      let! '(new_root, x) := of_tree (extent_insert content_id BTREE_ORDER fanout (txn_tx t) extent_root off b) in
      put_inode_in_tx (set_tx t x) ino (with_ctime (with_data inode (IFile new_root)) now)
  | _ => invariant "not a regular file"
  end.

Definition remove_extent_in_tx (t : Txn) (ino off : Z) : outcome Txn :=
  let! inode := inode_for_tx t ino in
  match i_data inode with
  | IFile extent_root =>
      let! '(new_root, _, x) := of_tree (extent_remove content_id BTREE_ORDER fanout (txn_tx t) extent_root off) in
      put_inode_in_tx (set_tx t x) ino (with_data inode (IFile new_root))
  | _ => invariant "not a regular file"
  end.

(** ** The directory of an inode *)

Definition dir_root_of (msg : String.string) (i : Inode) : outcome ChunkId :=
  match i_data i with IDirectory dir_root => Ok dir_root | _ => invariant msg end.

(** ** Records the final root does not reach *)

Inductive TreeKind : Type :=
| KInodeIndex
| KChunkIndex
| KExtent
| KDirectory
| KSnapshot
| KXattr
| KRoot.

Definition residual_objs (r : Residual) : list ChunkId :=
  match r with
  | RansCoded _ enc_obj model _ _ _ => [enc_obj; model]
  | BaseSequence _ enc_obj model _ _ _ _ _ _ _ => [enc_obj; model]
  | _ => []
  end.

Definition descriptor_objects (desc : Representation) : list ChunkId :=
  match desc with
  | Raw obj _ => [obj]
  | Rans model enc_obj _ _ _ => [model; enc_obj]
  | SequenceRans model enc_obj _ _ _ _ _ _ _ _ => [model; enc_obj]
  | SparseBlock64 model enc_obj _ _ _ _ _ _ _ _ _ => [model; enc_obj]
  | SequenceDict _ _ model enc_obj _ _ _ _ _ _ _ _ _ => [model; enc_obj]
  | SequenceSharedDict _ _ _ _ model enc_obj _ _ _ _ _ _ _ _ _ => [model; enc_obj]
  | SequenceDeep model enc_obj _ _ _ _ _ _ _ _ _ => [model; enc_obj]
  | BaseResidual base _ residual _ => base :: residual_objs residual
  | EntropyRef _ _ _ _ residual _ => residual_objs residual
  | _ => []
  end.

Definition descriptor_object_ids (b : bytes) : list ChunkId :=
  match Descriptor.decode limits b with
  | Ok desc => descriptor_objects desc
  | Err _ => []
  end.

Definition WorkItem : Type := ChunkId * TreeKind.

Definition root_work (r : Root) : list WorkItem :=
  [(inode_index_root r, KInodeIndex); (chunk_index_root r, KChunkIndex)] ++
  (if ChunkId_is_zero (snapshot_tree_root r) then [] else [(snapshot_tree_root r, KSnapshot)]) ++
  (if ChunkId_is_zero (model_index_root r) then [] else [(model_index_root r, KChunkIndex)]).

(** The state of a level: the ids reached, the next level's work, and the
    inodes to fetch: those pending are carried with their bytes. *)
Record Walk : Type := {
  wk_reachable : gset (list Z);
  wk_work : list WorkItem;
  wk_inode_ids : list ChunkId;
  wk_inode_pending : list bytes
}.
Definition wk_push (k : Walk) (items : list WorkItem) : Walk :=
  {| wk_reachable := wk_reachable k; wk_work := wk_work k ++ items; wk_inode_ids := wk_inode_ids k;
     wk_inode_pending := wk_inode_pending k |}.
Definition wk_reach (k : Walk) (ids : list ChunkId) : Walk :=
  {| wk_reachable := list_to_set ids ∪ wk_reachable k; wk_work := wk_work k; wk_inode_ids := wk_inode_ids k;
     wk_inode_pending := wk_inode_pending k |}.

(** The ids of a level that were not reached before, each with its pending
    bytes or a place for the fetched ones. *)
Fixpoint collect_level (pending : gmap (list Z) bytes) (level : list WorkItem) (reachable : gset (list Z))
    (entries : list (WorkItem * bytes)) (fetch_idx : list nat) (to_fetch : list ChunkId)
    : gset (list Z) * list (WorkItem * bytes) * list nat * list ChunkId :=
  match level with
  | [] => (reachable, entries, fetch_idx, to_fetch)
  | (id, kind) :: level' =>
      if ChunkId_is_zero id || bool_decide (id ∈ reachable) then collect_level pending level' reachable entries fetch_idx to_fetch
      else
        let reachable := {[id]} ∪ reachable in
        match pending !! id with
        | Some b => collect_level pending level' reachable (entries ++ [((id, kind), b)]) fetch_idx to_fetch
        | None => collect_level pending level' reachable (entries ++ [((id, kind), [])]) (fetch_idx ++ [length entries]) (to_fetch ++ [id])
        end
  end.

(** [fetched.into_iter().enumerate()]: the bytes go to their places, a
    missing object leaves its place empty. *)
Fixpoint fill_level (fetched : list (result StoreError (option bytes))) (fetch_idx : list nat)
    (entries : list (WorkItem * bytes)) : result StoreError (list (WorkItem * bytes)) :=
  match fetched, fetch_idx with
  | r :: fetched', ei :: fetch_idx' =>
      match r with
      | Ok (Some b) => fill_level fetched' fetch_idx' (alter (fun e => (fst e, b)) ei entries)
      | Ok None => fill_level fetched' fetch_idx' entries
      | Err e => Err e
      end
  | _, _ => Ok entries
  end.

Definition leaf_entry (pending : gmap (list Z) bytes) (kind : TreeKind) (e : Entry) (k : Walk) : outcome Walk :=
  match kind with
  | KInodeIndex =>
      let! inode_id := ok_or (ChunkId_from_bytes (e_value e)) (Error (StoreInvariant "inode value not 32 bytes")) in
      if bool_decide (inode_id ∈ wk_reachable k) then Ok k
      else
        let k := wk_reach k [inode_id] in
        match pending !! inode_id with
        | Some b => Ok {| wk_reachable := wk_reachable k; wk_work := wk_work k; wk_inode_ids := wk_inode_ids k;
                          wk_inode_pending := wk_inode_pending k ++ [b] |}
        | None => Ok {| wk_reachable := wk_reachable k; wk_work := wk_work k; wk_inode_ids := wk_inode_ids k ++ [inode_id];
                        wk_inode_pending := wk_inode_pending k |}
        end
  | KExtent | KChunkIndex => Ok (wk_reach k (descriptor_object_ids (e_value e)))
  | KSnapshot =>
      match SnapshotEntry_decode (e_value e) with
      | Ok entry => Ok (wk_push k [(se_root_id entry, KRoot)])
      | Err _ => Ok k
      end
  | KDirectory | KXattr | KRoot => Ok k
  end.

Fixpoint leaf_entries (pending : gmap (list Z) bytes) (kind : TreeKind) (entries : list Entry) (k : Walk) : outcome Walk :=
  match entries with
  | [] => Ok k
  | e :: entries' => let! k := leaf_entry pending kind e k in leaf_entries pending kind entries' k
  end.

Fixpoint child_work (kind : TreeKind) (entries : list Entry) : outcome (list WorkItem) :=
  match entries with
  | [] => Ok []
  | e :: entries' =>
      let! child := of_tree (child_id e) in
      let! items := child_work kind entries' in
      Ok ((child, kind) :: items)
  end.

Definition walk_entry (pending : gmap (list Z) bytes) (x : WorkItem * bytes) (k : Walk) : outcome Walk :=
  let '((_, kind), b) := x in
  match kind with
  | KRoot =>
      match b with
      | [] => Ok k
      | _ => match Root_decode b with Ok root => Ok (wk_push k (root_work root)) | Err _ => Ok k end
      end
  | _ =>
      match b with
      | [] => Ok k
      | _ =>
          let! node := map_err (fun e => Error (StoreIndex (OfCodec e))) (Node_decode b BTREE_ORDER fanout) in
          match node with
          | Internal first_child node_entries =>
              let! items := child_work kind node_entries in
              Ok (wk_push k ((first_child, kind) :: items))
          | Leaf entries => leaf_entries pending kind entries k
          end
      end
  end.

Fixpoint walk_entries (pending : gmap (list Z) bytes) (xs : list (WorkItem * bytes)) (k : Walk) : outcome Walk :=
  match xs with
  | [] => Ok k
  | x :: xs' => let! k := walk_entry pending x k in walk_entries pending xs' k
  end.

(** The trees of an inode that was reached. *)
Definition inode_work (b : bytes) : list WorkItem :=
  match Inode_decode b with
  | Ok inode =>
      (if ChunkId_is_zero (i_xattr_root inode) then [] else [(i_xattr_root inode, KXattr)]) ++
      match i_data inode with
      | IDirectory dir_root => if ChunkId_is_zero dir_root then [] else [(dir_root, KDirectory)]
      | IFile extent_root => if ChunkId_is_zero extent_root then [] else [(extent_root, KExtent)]
      | _ => []
      end
  | Err _ => []
  end.

Fixpoint fetched_bytes (fetched : list (result StoreError (option bytes))) : result StoreError (list bytes) :=
  match fetched with
  | [] => Ok []
  | Ok (Some b) :: fetched' => let! bs := fetched_bytes fetched' in Ok (b :: bs)
  | Ok None :: fetched' => fetched_bytes fetched'
  | Err e :: _ => Err e
  end.

(** One turn of the loop: a level of the trees.  The batched fetches are the
    single ones in order. *)
Definition prune_level (x : Tx StoreError) (reachable : gset (list Z)) (level : list WorkItem)
    : outcome (gset (list Z) * list WorkItem) :=
  let '(reachable, entries, fetch_idx, to_fetch) := collect_level (tx_pending x) level reachable [] [] [] in
  let! entries := safe (fill_level (map (tx_fetch x) to_fetch) fetch_idx entries) in
  let! k := walk_entries (tx_pending x) entries
              {| wk_reachable := reachable; wk_work := []; wk_inode_ids := []; wk_inode_pending := [] |} in
  let! fetched := safe (fetched_bytes (map (tx_fetch x) (wk_inode_ids k))) in
  Ok (wk_reachable k, wk_work k ++ flat_map inode_work (wk_inode_pending k ++ fetched)).

(** [while !work.is_empty()]; [None] when the fuel is gone. *)
Fixpoint prune_loop (fuel : nat) (x : Tx StoreError) (reachable : gset (list Z)) (work : list WorkItem)
    : option (outcome (gset (list Z))) :=
  match work with
  | [] => Some (Ok reachable)
  | _ =>
      match fuel with
      | O => None
      | S fuel =>
          match prune_level x reachable work with
          | Ok (reachable, work) => prune_loop fuel x reachable work
          | Err e => Some (Err e)
          end
      end
  end.

Definition keep_reachable (reachable : gset (list Z)) (records : list PendingRecord) : list PendingRecord :=
  base.filter (fun r => content_id (pr_payload r) ∈ reachable) records.

Definition prune_unreachable_records (fuel : nat) (t : Txn) (root_id : ChunkId) : option (outcome (list PendingRecord)) :=
  let x := txn_tx t in
  r ← prune_loop fuel x {[root_id]} (root_work (txn_root t));
  Some (let! reachable := r in Ok (keep_reachable reachable (tx_records x))).
End Ops.
