(* ===== verification/TransactionSpec.v ===== *)
(** The in-transaction operations against finite maps: what a transaction's
    trees hold, and that each operation changes exactly its part, unless two
    payloads collide on a content id. *)
From stdpp Require Import gmap.
From Stdlib Require String.
From S2P Require Import Prelude Codec Repr Version SegRecord Inode Superblock Descriptor Context Keys BTree StoreError RootObj BTreeNode BTreeSpec BTreeCheck IndexSpec RemoveSpec ScanSpec ExtentTree ExtentSpec Directory DirectorySpec Transaction.
Import String.StringSyntax.

(** * Heights are bounds *)

Lemma holds_le {P} `{ObjectProvider P} order max_fanout (p : P) sh n n' (root : ChunkId) M :
  (n <= n')%nat -> holds order max_fanout p sh n root M -> holds order max_fanout p sh n' root M.
Proof.
  induction 1 as [|n' _ IH]; [done|]. intros HM. destruct (IH HM) as (m & Hix & ->). exists m. split; [|done].
  destruct Hix as [?|Ht]; [by left|right; by apply tree_height].
Qed.

Lemma ChunkId_from_bytes_ok id : wf_id id -> ChunkId_from_bytes id = Some id.
Proof. intros [Hl _]. unfold ChunkId_from_bytes, zlen. by rewrite Hl. Qed.

(** * The provider *)

Section Spec.
Context (content_id : bytes -> ChunkId) (limits : Limits).
Context (Hid : forall b, wf_id (content_id b)) (Hfan : BTREE_ORDER <= max_fanout limits).
Context (sh : Shape) (Hsh : shape_ok BTREE_ORDER (max_fanout limits) sh) (Hmin : sh_min sh = 1).
#[local] Abbreviation fanout := (max_fanout limits).
#[local] Abbreviation T := (Tx StoreError).
Implicit Types (x : T) (t : Txn) (L : list PendingRecord) (n : nat).

(** Staging a list of records: the nodes of the trees among the others. *)
Definition stages x L : T :=
  fold_left (fun x r => Tx_stage x (content_id (pr_payload r)) (pr_payload r) (pr_tag r) (pr_materialized_len r)) L x.
Definition node_record (b : bytes) : PendingRecord := {| pr_tag := BtreeNode; pr_payload := b; pr_materialized_len := None |}.

Lemma stages_app x L L' : stages x (L ++ L') = stages (stages x L) L'.
Proof. apply fold_left_app. Qed.
(** A transaction remembers what it was asked to stage, so the list is
    determined by where it leads. *)
Lemma stages_asked x L : tx_asked (stages x L) = tx_asked x ++ L.
Proof.
  unfold stages. revert x. induction L as [|[tag b ml] L IH]; intros x; cbn [fold_left]; [by rewrite app_nil_r|]. rewrite IH.
  unfold Tx_stage. by destruct (_ || _); cbn [with_asked tx_asked pr_tag pr_payload pr_materialized_len]; rewrite <-app_assoc.
Qed.
Lemma stages_unique x L L' : stages x L = stages x L' -> L = L'.
Proof. intros E. apply (f_equal tx_asked) in E. rewrite !stages_asked in E. by apply app_inv_head in E. Qed.

Lemma staged_stages x (l : list bytes) : staged content_id x l = stages x (map node_record l).
Proof. unfold staged, stages. revert x. by induction l as [|b l IH]; intros x; [|cbn]. Qed.

Lemma stage_get x id b tag ml id' : prov_get (Tx_stage x id b tag ml) id' = prov_get (prov_put x id b) id'.
Proof. cbn. unfold fetch_pending_or_store, Tx_stage. by destruct (_ || _). Qed.
Lemma stage_ok x id b tag ml : prov_ok x -> prov_ok (Tx_stage x id b tag ml).
Proof. unfold Tx_stage. by destruct (_ || _). Qed.
Lemma stages_ok x L : prov_ok x -> prov_ok (stages x L).
Proof. revert x. induction L as [|r L IH]; intros x Hx; [done|]. by apply IH, stage_ok. Qed.

(** The object [id] as the transaction sees it. *)
Definition seen x (id : ChunkId) (b : bytes) : Prop := fetch_pending_or_store x id = Ok (Some b).

Lemma seen_get x id b : seen x id b <-> prov_get x id = Ok (Some b).
Proof. cbn. unfold seen. destruct (fetch_pending_or_store x id); cbn; split; congruence. Qed.

Lemma stages_seen x L id b : prov_ok x -> seen x id b -> seen (stages x L) id b.
Proof.
  revert x. induction L as [|r L IH]; intros x Hx Hs; [done|]. cbn. apply IH; [by apply stage_ok|].
  rewrite seen_get, stage_get. apply seen_get in Hs. destruct (decide (content_id (pr_payload r) = id)) as [->|].
  - by apply put_keeps.
  - by rewrite put_other.
Qed.

Lemma stages_sub x L : prov_ok x -> sub BTREE_ORDER fanout x (stages x L).
Proof.
  intros Hx id nd. rewrite !fetch_Ok. intros [Hz (b & Hg & Hd)]. split; [done|]. exists b. split; [|done].
  by apply seen_get, stages_seen, seen_get.
Qed.

(** No payload of [L] collides: each is what its content id names. *)
Definition good x L : Prop := reads_back content_id x (map pr_payload L).

Lemma good_app x L L' : good x (L ++ L') <-> good x L /\ good x L'.
Proof. unfold good. rewrite map_app. apply reads_back_app. Qed.
Lemma good_nodes x (l : list bytes) : good x (map node_record l) <-> reads_back content_id x l.
Proof. unfold good. rewrite map_map. cbn. by rewrite map_id. Qed.
Lemma good_seen x L r : good x L -> r ∈ L -> seen x (content_id (pr_payload r)) (pr_payload r).
Proof.
  intros Hg Hr. unfold good, reads_back in Hg. rewrite list.Forall_forall in Hg.
  apply seen_get. apply Hg. by apply list_elem_of_fmap_2.
Qed.

(** [m] succeeds from [x]: what it was asked to stage is [L], by
    [stages_unique] the only such list, and its result is as [post] says unless
    one of these payloads does not read back, that is, has collided. *)
Definition succeeds {A} (tx : A -> T) (x : T) (m : outcome A) (post : A -> Prop) : Prop :=
  exists a L, m = Ok a /\ tx a = stages x L /\ (good (tx a) L -> post a).

Lemma succeeds_impl {A} (tx : A -> T) x m (P Q : A -> Prop) :
  succeeds tx x m P -> (forall a L, m = Ok a -> tx a = stages x L -> P a -> Q a) -> succeeds tx x m Q.
Proof. intros (a & L & E & Hx & HP) HQ. exists a, L. split_and!; [done..|]. intros Hg. by eapply HQ; [..|apply HP]. Qed.

(** Whether all that was staged between two transactions reads back. *)
Definition clean x x' : bool := reads_back_check content_id x' (map pr_payload (drop (length (tx_asked x)) (tx_asked x'))).

Lemma succeeds_clean {A} (tx : A -> T) x m (P : A -> Prop) :
  succeeds tx x m P -> match m with Ok a => clean x (tx a) = true | Err _ => True end -> exists a, m = Ok a /\ P a.
Proof.
  intros (a & L & -> & Hx & HP) Hc. exists a. split; [done|]. apply HP. unfold clean in Hc. apply reads_back_check_sound in Hc.
  by rewrite Hx, stages_asked, drop_app_length, <-Hx in Hc.
Qed.

Lemma order_ok : 2 <= BTREE_ORDER < 2 ^ 15.
Proof. done. Qed.

(** * The inode index *)

(** Object [id] is the inode [i]. *)
Definition inode_object x (id : bytes) (i : Inode) : Prop := wf_id id /\ inode_wf i /\ seen x id (inode_image i).

(** The index at [root] maps the numbers of [I] to objects that are the
    inodes of [I]. *)
Definition inodes x n (root : ChunkId) (I : gmap Z Inode) : Prop :=
  exists X, extents BTREE_ORDER fanout x sh n root X /\ map_Forall2 (fun _ => inode_object x) X I.

Lemma inode_object_stages x L id i : prov_ok x -> inode_object x id i -> inode_object (stages x L) id i.
Proof. intros Hx (? & ? & ?). split_and!; [done..|by apply stages_seen]. Qed.
Lemma extents_stages x L n root X : prov_ok x ->
  extents BTREE_ORDER fanout x sh n root X -> extents BTREE_ORDER fanout (stages x L) sh n root X.
Proof. intros Hx (M & HM & HX). exists M. split; [|done]. eapply holds_sub; [by apply stages_sub|done]. Qed.
Lemma inodes_stages x L n root I : prov_ok x -> inodes x n root I -> inodes (stages x L) n root I.
Proof.
  intros Hx (X & HX & HI). exists X. split; [by apply extents_stages|].
  eapply map_Forall2_impl; [done|]. intros ? ? ? Hi. by apply inode_object_stages.
Qed.
Lemma inodes_le x n n' root I : (n <= n')%nat -> inodes x n root I -> inodes x n' root I.
Proof. intros Hn (X & (M & HM & HX) & HI). exists X. split; [|done]. exists M. split; [by eapply holds_le|done]. Qed.

Lemma Inode_decode_image i : inode_wf i -> Inode_decode (inode_image i) = Ok i.
Proof.
  intros Hi. apply inode_decode_fwd; [done|]. destruct Hi as [? ? ? ? ? ? ? ? ? ? ? [Hx _] Hk Hd Ht]. clear Hk Ht.
  assert (Hz : zlen (data_image (i_data i)) <= 4 + 2 ^ 32).
  { destruct (i_data i) as [id|id|tg|]; cbn in Hd |- *; rewrite ?zlen_app, ?zlen_to_le, ?zlen_nil; try lia; destruct Hd as [Hd Hd']; try lia; unfold zlen; rewrite Hd; lia. }
  unfold inode_image, time_image. rewrite ?zlen_app, ?zlen_to_le, zlen_cons, zlen_nil. unfold zlen at 1. rewrite Hx. lia.
Qed.

Lemma load_inode_ok x (fetch : ChunkId -> result StoreError (option bytes)) id i :
  fetch id = fetch_pending_or_store x id -> inode_object x id i -> load_inode fetch id = Ok i.
Proof.
  intros Ef (Hw & Hi & Hs). unfold load_inode. rewrite ChunkId_from_bytes_ok by done. cbn [ok_or rbind].
  rewrite Ef, Hs. cbn. unfold of_codec. by rewrite Inode_decode_image.
Qed.

Lemma inodes_lookup x n root I ino :
  inodes x n root I -> (n <= 128)%nat -> is_u64 ino ->
  match I !! ino with
  | Some i => exists id, get BTREE_ORDER fanout x root (inode_key ino) = Ok (Some id) /\ inode_object x id i
  | None => get BTREE_ORDER fanout x root (inode_key ino) = Ok None
  end.
Proof.
  intros (X & (M & HM & HX) & HI) Hn Hi. change (inode_key ino) with (extent_key ino).
  rewrite (get_ok _ _ _ _ _ _ _ _ HM Hn), (extents_lookup X M ino HX Hi). specialize (HI ino).
  destruct HI as [id i Ho|]; [by exists id|done].
Qed.

Lemma inode_for_tx_ok t n I ino :
  inodes (txn_tx t) n (inode_index_root (txn_root t)) I -> (n <= 128)%nat -> is_u64 ino ->
  inode_for_tx limits t ino = match I !! ino with Some i => Ok i | None => invariant "inode missing" end.
Proof.
  intros HI Hn Hi. pose proof (inodes_lookup _ _ _ _ _ HI Hn Hi) as Hl. unfold inode_for_tx.
  destruct (I !! ino) as [i|]; [destruct Hl as (id & -> & Ho)|rewrite Hl]; cbn; [by eapply load_inode_ok|done].
Qed.

(** The trees a root names, other than the inode index. *)
Definition same_but_inodes (r r' : Root) : Prop := r' = with_inode_index r (inode_index_root r').

Lemma put_inode_in_tx_ok t n I ino i :
  prov_ok (txn_tx t) -> inodes (txn_tx t) n (inode_index_root (txn_root t)) I -> (n <= 128)%nat -> is_u64 ino -> inode_wf i ->
  succeeds txn_tx (txn_tx t) (put_inode_in_tx content_id limits t ino i) (fun t' =>
    inodes (txn_tx t') (S n) (inode_index_root (txn_root t')) (<[ino := i]> I) /\
    same_but_inodes (txn_root t) (txn_root t') /\ txn_features t' = txn_features t).
Proof.
  intros Hx (X & (M & HM & HX) & HI) Hn Hino Hi.
  set (r := {| pr_tag := InodeTag; pr_payload := inode_image i; pr_materialized_len := None |}).
  set (x1 := stages (txn_tx t) [r]). assert (Hx1 : prov_ok x1) by by apply stages_ok.
  assert (HM1 : holds BTREE_ORDER fanout x1 sh n (inode_index_root (txn_root t)) M) by (eapply holds_sub; [by apply stages_sub|done]).
  destruct (insert_ok content_id BTREE_ORDER fanout order_ok Hfan Hid x1 sh n _ M (extent_key ino) (content_id (inode_image i))
    Hsh Hx1 HM1 Hn (extent_key_ok ino)) as (root' & l & Ei & Hnew & _).
  { destruct (Hid (inode_image i)) as [Hl Hw]. split; [done|]. unfold zlen. rewrite Hl. done. }
  eexists _, ([r] ++ map node_record l). split; [|split].
  - unfold put_inode_in_tx, put_inode. rewrite Inode_encode_image by apply Hi. cbn [of_trap_codec map_err rbind put_object].
    change (Tx_stage _ _ _ _ _) with x1. cbn [txn_tx set_tx txn_root]. change (inode_key ino) with (extent_key ino). rewrite Ei. cbn.
    reflexivity.
  - cbn [txn_tx set_root set_tx]. by rewrite stages_app, staged_stages.
  - cbn [txn_tx set_root set_tx txn_root with_inode_index inode_index_root txn_features]. intros [Hg1 Hg2]%good_app. split; [|by split].
    rewrite good_nodes in Hg2. exists (<[ino := content_id (inode_image i)]> X). split.
    + exists (<[extent_key ino := content_id (inode_image i)]> M). split; [by apply Hnew | by apply extents_insert].
    + apply map_Forall2_insert_2.
      * split_and!; [apply Hid|done|]. apply (good_seen _ _ r Hg1). apply list_elem_of_here.
      * rewrite staged_stages. eapply map_Forall2_impl; [exact HI|]. intros ? ? ? Ho. apply inode_object_stages; [done|]. by apply (inode_object_stages _ [r]).
Qed.

Lemma remove_inode_in_tx_ok t n I ino :
  prov_ok (txn_tx t) -> inodes (txn_tx t) n (inode_index_root (txn_root t)) I -> (n <= 128)%nat -> is_u64 ino ->
  succeeds txn_tx (txn_tx t) (remove_inode_in_tx content_id limits t ino) (fun t' =>
    inodes (txn_tx t') n (inode_index_root (txn_root t')) (delete ino I) /\
    same_but_inodes (txn_root t) (txn_root t') /\ txn_features t' = txn_features t).
Proof.
  intros Hx (X & (M & HM & HX) & HI) Hn Hino.
  destruct (remove_ok content_id BTREE_ORDER fanout order_ok Hfan Hid (txn_tx t) sh n _ M (extent_key ino) Hsh Hmin Hx HM Hn)
    as (root' & l & Ei & Hnew & _).
  eexists _, (map node_record l). split; [|split].
  - unfold remove_inode_in_tx. change (inode_key ino) with (extent_key ino). rewrite Ei. cbn. reflexivity.
  - cbn [txn_tx set_root set_tx]. by rewrite staged_stages.
  - cbn [txn_tx set_root set_tx txn_root with_inode_index inode_index_root txn_features]. intros Hg. rewrite good_nodes in Hg. split; [|by split].
    exists (delete ino X). split.
    + exists (delete (extent_key ino) M). split; [by apply Hnew | by apply extents_delete].
    + apply map_Forall2_delete. rewrite staged_stages. eapply map_Forall2_impl; [exact HI|].
      intros ? ? ? Ho. by apply inode_object_stages.
Qed.

Lemma inodes_u64 x n root I ino i : inodes x n root I -> I !! ino = Some i -> is_u64 ino /\ inode_wf i.
Proof.
  intros (X & (M & HM & [Hu _]) & HI) Hi. specialize (HI ino). rewrite Hi in HI. inv HI.
  match goal with H : inode_object _ _ _ |- _ => destruct H as (_ & Hw & _) end. split; [|done]. apply Hu. by eexists.
Qed.
End Spec.
