(* ===== verification/Namespace.v ===== *)
(** The namespace transactions of [store/mod.rs]: creating, removing, renaming
    and linking entries, attribute updates, snapshots and path resolution, each
    as the body that runs between [begin_tx] and the commit.

    The clock is a parameter, one reading per call in the order of the code.
    A body that returns an error leaves no transaction: the code drops it. *)
From stdpp Require Import gmap.
From Stdlib Require String.
From S2P Require Import Prelude Codec Repr Version SegRecord Inode Superblock Descriptor Context Keys BTree StoreError RootObj ExtentTree Directory Transaction.
Import String.StringSyntax.

Definition DOT : bytes := [46].
Definition DOTDOT : bytes := [46; 46].

Definition validate_name (name : bytes) : bool :=
  negb (bool_decide (name = [])) && negb (bool_decide (name = DOT)) && negb (bool_decide (name = DOTDOT)) &&
  (zlen name <=? 255) && negb (existsb (Z.eqb 0) name) && negb (existsb (Z.eqb 47) name).

Inductive EntryKind : Type :=
| EFile
| EDirectory
| ESymlink (target : bytes)
| EDevice (is_char : bool) (rdev : Z).

Record NewEntry : Type := { ne_kind : EntryKind; ne_mode : Z; ne_uid : Z; ne_gid : Z }.

Record RenameOutcome : Type := { src_ino : Z; replaced_dst_ino : option Z }.

Record AttrUpdate : Type := {
  au_mode : option Z;
  au_uid : option Z;
  au_gid : option Z;
  au_size : option Z;
  au_atime : option Timespec;
  au_mtime : option Timespec
}.

(** The inode of a new entry, and its [d_type]. *)
Definition device_inode (now : Timespec) (uid gid mode_perms : Z) (is_char : bool) (rdev : Z) : Inode :=
  let i := new_file now uid gid mode_perms in
  {| i_mode := Z.lor (if is_char then S_IFCHR else S_IFBLK) (Z.land mode_perms S_IPERM);
     i_uid := i_uid i; i_gid := i_gid i; i_size := i_size i; i_atime := i_atime i; i_ctime := i_ctime i;
     i_mtime := i_mtime i; i_crtime := i_crtime i; i_nlink := i_nlink i; i_rdev := rdev; i_flags := i_flags i;
     i_xattr_root := i_xattr_root i; i_data_kind := DATA_DEVICE; i_data := IDevice |}.

Definition entry_inode (now : Timespec) (e : NewEntry) : Inode :=
  match ne_kind e with
  | EFile => new_file now (ne_uid e) (ne_gid e) (ne_mode e)
  | EDirectory => new_dir now (ne_uid e) (ne_gid e) (ne_mode e)
  | ESymlink target => new_symlink now target (ne_uid e) (ne_gid e)
  | EDevice is_char rdev => device_inode now (ne_uid e) (ne_gid e) (ne_mode e) is_char rdev
  end.

Definition entry_d_type (k : EntryKind) : Z :=
  match k with EFile => DT_REG | EDirectory => DT_DIR | ESymlink _ => DT_LNK | EDevice _ _ => DT_UNKNOWN end.
Definition is_directory (k : EntryKind) : bool := match k with EDirectory => true | _ => false end.

(** [u32::saturating_sub(1)] and [saturating_add(1)] on a link count. *)
Definition nlink_dec (i : Inode) : Inode := with_nlink i (Z.max 0 (i_nlink i - 1)).
Definition nlink_inc (i : Inode) : Inode := with_nlink i (saturating_add 32 (i_nlink i) 1).

Section Ops.
Context (content_id : bytes -> ChunkId) (limits : Limits) (now : nat -> Timespec).
#[local] Abbreviation fanout := (max_fanout limits).

Definition config_error {A} (msg : String.string) : outcome A := Err (Error (StoreConfigError msg)).
Definition name_guard (name : bytes) : outcome unit :=
  if validate_name name then Ok tt else config_error "invalid entry name".

(** The tree operations through the transaction. *)
Definition tx_lookup (t : Txn) (dir_root : ChunkId) (name : bytes) : outcome (option DirEntry) :=
  of_tree (dir_lookup BTREE_ORDER fanout (txn_tx t) dir_root name).
Definition tx_dir_insert (t : Txn) (dir_root : ChunkId) (name : bytes) (e : DirEntry) : outcome (ChunkId * Txn) :=
  let! '(root, x) := of_tree (dir_insert content_id BTREE_ORDER fanout (txn_tx t) dir_root name e) in
  Ok (root, set_tx t x).
Definition tx_dir_remove (t : Txn) (dir_root : ChunkId) (name : bytes) : outcome (ChunkId * Txn) :=
  let! '(root, _, x) := of_tree (dir_remove content_id BTREE_ORDER fanout (txn_tx t) dir_root name) in
  Ok (root, set_tx t x).

(** "A directory is empty when its tree has no entries." *)
Definition dir_not_empty (t : Txn) (i : Inode) : outcome bool :=
  match i_data i with
  | IDirectory dr =>
      if ChunkId_is_zero dr then Ok false
      else
        let! '(l, _) := of_tree (dir_scan BTREE_ORDER fanout (txn_tx t) dr None 1) in
        Ok (negb (bool_decide (l = [])))
  | _ => Ok false
  end.

(** ** [create_entry]: the inode number comes from [alloc_ino], which runs
    before the transaction begins. *)
Definition create_entry_tx (t : Txn) (ino parent : Z) (name : bytes) (e : NewEntry) : outcome Txn :=
  let! parent_inode := inode_for_tx limits t parent in
  let! dir_root := dir_root_of "parent not a directory" parent_inode in
  let! existing := tx_lookup t dir_root name in
  fail_if bool_decide (is_Some existing) with Error (StoreInvariant "entry already exists") ;;
  let inode := entry_inode (now 0) e in
  let! t := put_inode_in_tx content_id limits t ino inode in
  let entry := {| de_ino := ino; de_d_type := entry_d_type (ne_kind e) |} in
  let! '(new_dir_root, t) := tx_dir_insert t dir_root name entry in
  let p := with_mtime (with_data parent_inode (IDirectory new_dir_root)) (now 1) in
  let p := if is_directory (ne_kind e) then nlink_inc p else p in
  put_inode_in_tx content_id limits t parent p.

(** The guards of a removal, in order. *)
Definition unlink_guard (t : Txn) (is_dir_ : bool) (target : Inode) : outcome unit :=
  if is_dir_ then
    fail_if negb (is_dir target) with Error (StoreInvariant "not a directory") ;;
    let! full := dir_not_empty t target in
    fail_if full with Error (StoreInvariant "directory not empty") ;;
    Ok tt
  else
    fail_if is_dir target with Error (StoreInvariant "is a directory") ;;
    Ok tt.

(** Behind the guards: the name, the parent, the target. *)
Definition unlink_apply (t : Txn) (parent : Z) (parent_inode : Inode) (dir_root : ChunkId) (name : bytes) (is_dir_ : bool)
    (ino : Z) (target : Inode) : outcome (Z * Txn) :=
  let! '(new_dir_root, t) := tx_dir_remove t dir_root name in
  let p := with_mtime (with_data parent_inode (IDirectory new_dir_root)) (now 0) in
  let p := if is_dir target then nlink_dec p else p in
  let! t := put_inode_in_tx content_id limits t parent p in
  let! t :=
    (if is_dir_ then remove_inode_in_tx content_id limits t ino
     else
       let target := nlink_dec target in
       if i_nlink target =? 0 then remove_inode_in_tx content_id limits t ino
       else put_inode_in_tx content_id limits t ino target) in
  Ok (ino, t).

Definition unlink_tx (t : Txn) (parent : Z) (name : bytes) (is_dir_ : bool) : outcome (Z * Txn) :=
  let! parent_inode := inode_for_tx limits t parent in
  let! dir_root := dir_root_of "parent not a directory" parent_inode in
  let! found := tx_lookup t dir_root name in
  let! entry := ok_or found (Error (StoreInvariant "no such entry")) in
  let! target := inode_for_tx limits t (de_ino entry) in
  let! _ := unlink_guard t is_dir_ target in
  unlink_apply t parent parent_inode dir_root name is_dir_ (de_ino entry) target.

(** ** [rename] *)

(** The replaced destination: the type rules, then its inode reference is
    dropped. *)
Definition replace_dst (t : Txn) (src_is_dir : bool) (dst_entry : DirEntry) : outcome Txn :=
  let! dst_inode := inode_for_tx limits t (de_ino dst_entry) in
  let dst_is_dir := is_dir dst_inode in
  fail_if src_is_dir && negb dst_is_dir with Error (StoreInvariant "cannot rename dir over file") ;;
  fail_if negb src_is_dir && dst_is_dir with Error (StoreInvariant "cannot rename file over dir") ;;
  let! full := (if src_is_dir && dst_is_dir then dir_not_empty t dst_inode else Ok false) in
  fail_if full with Error (StoreInvariant "directory not empty") ;;
  if dst_is_dir then remove_inode_in_tx content_id limits t (de_ino dst_entry)
  else
    let target := nlink_dec dst_inode in
    if i_nlink target =? 0 then remove_inode_in_tx content_id limits t (de_ino dst_entry)
    else put_inode_in_tx content_id limits t (de_ino dst_entry) target.

(** The entries under one parent: removal of the destination, insertion,
    removal of the source, chained on one root. *)
Definition move_within (t : Txn) (root : ChunkId) (src_name dst_name : bytes) (entry : DirEntry) (replaced : bool)
    : outcome (ChunkId * Txn) :=
  let! '(root, t) := (if replaced then tx_dir_remove t root dst_name else Ok (root, t)) in
  let! '(root, t) := tx_dir_insert t root dst_name entry in
  if bool_decide (src_name <> dst_name) then tx_dir_remove t root src_name else Ok (root, t).

(** The part of [rename] behind the no-op of a name renamed onto itself. *)
Definition rename_tx (t : Txn) (src_parent : Z) (src_name : bytes) (dst_parent : Z) (dst_name : bytes)
    : outcome (RenameOutcome * Txn) :=
  let! sp := inode_for_tx limits t src_parent in
  let! src_root := dir_root_of "src parent not a directory" sp in
  let! found := tx_lookup t src_root src_name in
  let! entry := ok_or found (Error (StoreInvariant "no such entry")) in
  let! src_inode := inode_for_tx limits t (de_ino entry) in
  let src_is_dir := is_dir src_inode in
  let! dp := inode_for_tx limits t dst_parent in
  let! dst_root := dir_root_of "dst parent not a directory" dp in
  let! dst := tx_lookup t dst_root dst_name in
  let! '(replaced, t) :=
    match dst with
    | Some dst_entry =>
        if de_ino dst_entry =? de_ino entry then Ok (None, t)
        else let! t := replace_dst t src_is_dir dst_entry in Ok (Some (de_ino dst_entry), t)
    | None => Ok (None, t)
    end in
  let! t :=
    (if src_parent =? dst_parent then
       let! '(root, t) := move_within t dst_root src_name dst_name entry (bool_decide (is_Some replaced)) in
       put_inode_in_tx content_id limits t src_parent (with_mtime (with_data sp (IDirectory root)) (now 0))
     else
       let! '(dst_root, t) := (if bool_decide (is_Some replaced) then tx_dir_remove t dst_root dst_name else Ok (dst_root, t)) in
       let! '(dst_root, t) := tx_dir_insert t dst_root dst_name entry in
       let! '(src_root, t) := tx_dir_remove t src_root src_name in
       let sp := with_mtime (with_data sp (IDirectory src_root)) (now 0) in
       let dp := with_mtime (with_data dp (IDirectory dst_root)) (now 1) in
       let sp := if src_is_dir then nlink_dec sp else sp in
       let dp := if src_is_dir then nlink_inc dp else dp in
       let! t := put_inode_in_tx content_id limits t src_parent sp in
       put_inode_in_tx content_id limits t dst_parent dp) in
  Ok ({| src_ino := de_ino entry; replaced_dst_ino := replaced |}, t).

(** ** [link] *)
Definition link_d_type (i : Inode) : Z :=
  match i_data i with IFile _ => DT_REG | ISymlink _ => DT_LNK | _ => DT_UNKNOWN end.

Definition link_tx (t : Txn) (parent : Z) (name : bytes) (ino : Z) : outcome Txn :=
  let! parent_inode := inode_for_tx limits t parent in
  let! dir_root := dir_root_of "parent not a directory" parent_inode in
  let! existing := tx_lookup t dir_root name in
  fail_if bool_decide (is_Some existing) with Error (StoreInvariant "entry already exists") ;;
  let! target := inode_for_tx limits t ino in
  fail_if is_dir target with Error (StoreInvariant "cannot hard link a directory") ;;
  let entry := {| de_ino := ino; de_d_type := link_d_type target |} in
  let! '(new_root, t) := tx_dir_insert t dir_root name entry in
  let p := with_mtime (with_data parent_inode (IDirectory new_root)) (now 0) in
  let! t := put_inode_in_tx content_id limits t parent p in
  put_inode_in_tx content_id limits t ino (nlink_inc target).
End Ops.
