(* ===== verification/NamespaceSpec.v ===== *)
(** The namespace transactions against a finite map of inodes and a finite map
    of names: what each body does on every branch, and the link counts. *)
From stdpp Require Import gmap.
From Stdlib Require String.
From S2P Require Import Prelude Codec Repr Version SegRecord Inode Superblock Descriptor Context Keys BTree StoreError RootObj BTreeNode BTreeSpec BTreeCheck IndexSpec RemoveSpec ScanSpec ExtentTree ExtentSpec Directory DirectorySpec Transaction TransactionSpec Namespace.
Import String.StringSyntax.

(** All names of a file system: the entries under (directory, name). *)
Abbreviation Names := (gmap (Z * bytes) DirEntry).

(** The entries of one directory. *)
Definition view (N : Names) (dir : Z) (E : gmap bytes DirEntry) : Prop := forall name, E !! name = N !! (dir, name).

Lemma view_insert N dir E name e : view N dir E -> view (<[(dir, name) := e]> N) dir (<[name := e]> E).
Proof.
  intros HE name'. destruct (decide (name = name')) as [->|]; [by rewrite !lookup_insert_eq|].
  rewrite !lookup_insert_ne by congruence. apply HE.
Qed.
Lemma view_delete N dir E name : view N dir E -> view (delete (dir, name) N) dir (delete name E).
Proof.
  intros HE name'. destruct (decide (name = name')) as [->|]; [by rewrite !lookup_delete_eq|].
  rewrite !lookup_delete_ne by congruence. apply HE.
Qed.
Lemma view_insert_other N dir dir' E name e : dir <> dir' -> view N dir E -> view (<[(dir', name) := e]> N) dir E.
Proof. intros Hne HE name'. rewrite lookup_insert_ne by congruence. apply HE. Qed.
Lemma view_delete_other N dir dir' E name : dir <> dir' -> view N dir E -> view (delete (dir', name) N) dir E.
Proof. intros Hne HE name'. rewrite lookup_delete_ne by congruence. apply HE. Qed.
Lemma view_det N dir E E' : view N dir E -> view N dir E' -> E = E'.
Proof. intros H H'. apply map_eq. intros k. by rewrite H, H'. Qed.

(** The type bits say directory exactly for directories. *)
Definition dir_data (i : Inode) : option ChunkId := match i_data i with IDirectory r => Some r | _ => None end.
Definition kind_ok (i : Inode) : Prop := is_dir i = bool_decide (is_Some (dir_data i)).

Section Spec.
Context (content_id : bytes -> ChunkId) (limits : Limits) (now : nat -> Timespec).
Context (Hid : forall b, wf_id (content_id b)) (Hfan : BTREE_ORDER <= max_fanout limits).
Context (Hnow : forall i, timespec_wf (now i)).
Context (sh : Shape) (Hsh : shape_ok BTREE_ORDER (max_fanout limits) sh) (Hmin : sh_min sh = 1).
#[local] Abbreviation fanout := (max_fanout limits).
#[local] Abbreviation stages := (TransactionSpec.stages content_id).
#[local] Abbreviation succeeds := (TransactionSpec.succeeds content_id).
#[local] Abbreviation inodes := (TransactionSpec.inodes limits sh).
#[local] Abbreviation directory := (DirectorySpec.directory BTREE_ORDER fanout).
Implicit Types (x : Tx StoreError) (t : Txn) (n : nat) (N : Names).

(** The transaction [t] stands for the file system with the inodes [I] and
    the names [N]. *)
Record fs t n (I : gmap Z Inode) N : Prop := {
  fs_ok : prov_ok (txn_tx t);
  fs_inodes : inodes (txn_tx t) n (inode_index_root (txn_root t)) I;
  fs_dirs dir i r : I !! dir = Some i -> dir_data i = Some r -> exists E, directory (txn_tx t) sh n r E /\ view N dir E;
  fs_owner dir name e : N !! (dir, name) = Some e -> exists i, I !! dir = Some i /\ is_Some (dir_data i);
  fs_kinds ino i : I !! ino = Some i -> is_u64 ino /\ inode_wf i /\ kind_ok i;
}.

Lemma directory_stages x L n (r : ChunkId) E : prov_ok x -> directory x sh n r E -> directory (stages x L) sh n r E.
Proof. intros Hx [HE Hok]. split; [|done]. eapply holds_sub; [by apply stages_sub|done]. Qed.
Lemma directory_le x n n' (r : ChunkId) E : (n <= n')%nat -> directory x sh n r E -> directory x sh n' r E.
Proof. intros Hn [HE Hok]. split; [|done]. by eapply holds_le. Qed.

(** ** Reading *)

Lemma fs_inode t n I N ino :
  fs t n I N -> (n <= 128)%nat -> is_u64 ino ->
  inode_for_tx limits t ino = match I !! ino with Some i => Ok i | None => invariant "inode missing" end.
Proof. intros HF Hn Hi. eapply inode_for_tx_ok; [apply HF|done|done]. Qed.

Lemma fs_lookup t n I N dir i (r : ChunkId) name :
  fs t n I N -> (n <= 128)%nat -> I !! dir = Some i -> dir_data i = Some r ->
  tx_lookup limits t r name = Ok (N !! (dir, name)).
Proof.
  intros HF Hn Hi Hr. destruct (fs_dirs _ _ _ _ HF _ _ _ Hi Hr) as (E & HE & Hv). unfold tx_lookup.
  by rewrite (dir_lookup_ok _ _ _ _ _ _ _ _ HE Hn), Hv.
Qed.

Lemma dir_root_of_ok msg i r : dir_data i = Some r -> dir_root_of msg i = Ok r.
Proof. unfold dir_data, dir_root_of. destruct (i_data i); congruence. Qed.
Lemma dir_root_of_not msg i : dir_data i = None -> dir_root_of msg i = invariant msg.
Proof. unfold dir_data, dir_root_of. by destruct (i_data i). Qed.

(** ** Writing *)

Lemma tx_dir_insert_at t n (r : ChunkId) E name e :
  prov_ok (txn_tx t) -> directory (txn_tx t) sh n r E -> (n <= 128)%nat -> key_ok name -> DirEntry_ok e ->
  succeeds (fun a => txn_tx (snd a)) (txn_tx t) (tx_dir_insert content_id limits t r name e) (fun a =>
    txn_root (snd a) = txn_root t /\ txn_features (snd a) = txn_features t /\
    directory (txn_tx (snd a)) sh (S n) (fst a) (<[name := e]> E)).
Proof.
  intros Hx HE Hn Hk He.
  destruct (dir_insert_ok content_id BTREE_ORDER fanout order_ok Hfan Hid _ sh n r E name e Hsh Hx HE Hn Hk He) as (r' & l & Ei & Hnew & _).
  exists (r', set_tx t (stages (txn_tx t) (map node_record l))), (map node_record l). split; [|split; [done|]].
  - unfold tx_dir_insert. rewrite Ei. cbn. by rewrite staged_stages.
  - cbn. intros Hg. split; [done|]. split; [done|]. rewrite <-staged_stages in *. apply Hnew. by apply good_nodes.
Qed.

Lemma tx_dir_remove_at t n (r : ChunkId) E name :
  prov_ok (txn_tx t) -> directory (txn_tx t) sh n r E -> (n <= 128)%nat ->
  succeeds (fun a => txn_tx (snd a)) (txn_tx t) (tx_dir_remove content_id limits t r name) (fun a =>
    txn_root (snd a) = txn_root t /\ txn_features (snd a) = txn_features t /\
    directory (txn_tx (snd a)) sh n (fst a) (delete name E)).
Proof.
  intros Hx HE Hn.
  destruct (dir_remove_ok content_id BTREE_ORDER fanout order_ok Hfan Hid _ sh n r E name Hsh Hmin Hx HE Hn) as (r' & l & Ei & Hnew & _).
  exists (r', set_tx t (stages (txn_tx t) (map node_record l))), (map node_record l). split; [|split; [done|]].
  - unfold tx_dir_remove. rewrite Ei. cbn. by rewrite staged_stages.
  - cbn. intros Hg. split; [done|]. split; [done|]. rewrite <-staged_stages in *. apply Hnew. by apply good_nodes.
Qed.

Lemma tx_dir_insert_ok t n I N dir i (r : ChunkId) name e :
  fs t n I N -> (n <= 128)%nat -> I !! dir = Some i -> dir_data i = Some r -> key_ok name -> DirEntry_ok e ->
  succeeds (fun a => txn_tx (snd a)) (txn_tx t) (tx_dir_insert content_id limits t r name e) (fun a =>
    txn_root (snd a) = txn_root t /\ txn_features (snd a) = txn_features t /\
    exists E, directory (txn_tx (snd a)) sh (S n) (fst a) (<[name := e]> E) /\ view N dir E).
Proof.
  intros HF Hn Hi Hr Hk He. destruct (fs_dirs _ _ _ _ HF _ _ _ Hi Hr) as (E & HE & Hv).
  eapply succeeds_impl; [by apply (tx_dir_insert_at t n r E name e (fs_ok _ _ _ _ HF) HE Hn)|].
  intros a L _ _ (? & ? & ?). split_and!; [done..|]. by exists E.
Qed.

Lemma tx_dir_remove_ok t n I N dir i (r : ChunkId) name :
  fs t n I N -> (n <= 128)%nat -> I !! dir = Some i -> dir_data i = Some r ->
  succeeds (fun a => txn_tx (snd a)) (txn_tx t) (tx_dir_remove content_id limits t r name) (fun a =>
    txn_root (snd a) = txn_root t /\ txn_features (snd a) = txn_features t /\
    exists E, directory (txn_tx (snd a)) sh n (fst a) (delete name E) /\ view N dir E).
Proof.
  intros HF Hn Hi Hr. destruct (fs_dirs _ _ _ _ HF _ _ _ Hi Hr) as (E & HE & Hv).
  eapply succeeds_impl; [by apply (tx_dir_remove_at t n r E name (fs_ok _ _ _ _ HF) HE Hn)|].
  intros a L _ _ (? & ? & ?). split_and!; [done..|]. by exists E.
Qed.

Lemma fs_stages t t' L n I N :
  fs t n I N -> txn_tx t' = stages (txn_tx t) L -> txn_root t' = txn_root t -> fs t' n I N.
Proof.
  intros [Hok Hin Hd Ho Hk] Hx Hr. split; try done; rewrite ?Hx, ?Hr.
  - by apply stages_ok.
  - by apply inodes_stages.
  - intros dir i r Hi Hr'. destruct (Hd _ _ _ Hi Hr') as (E & HE & Hv). exists E. split; [|done]. by apply directory_stages.
Qed.

Lemma fs_le t n n' I N : (n <= n')%nat -> fs t n I N -> fs t n' I N.
Proof.
  intros Hn [Hok Hin Hd Ho Hk]. split; try done; [by eapply inodes_le|].
  intros dir i r Hi Hr. destruct (Hd _ _ _ Hi Hr) as (E & HE & Hv). exists E. split; [|done]. by eapply directory_le.
Qed.

(** Writing the inode [ino] when only names under [ino] have changed. *)
Lemma fs_put_inode t n I N N' ino i :
  fs t n I N -> (n <= 128)%nat -> is_u64 ino -> inode_wf i -> kind_ok i ->
  (forall dir name, dir <> ino -> N' !! (dir, name) = N !! (dir, name)) ->
  match dir_data i with
  | Some r => exists E, directory (txn_tx t) sh (S n) r E /\ view N' ino E
  | None => forall name, N' !! (ino, name) = None
  end ->
  succeeds txn_tx (txn_tx t) (put_inode_in_tx content_id limits t ino i) (fun t' => fs t' (S n) (<[ino := i]> I) N').
Proof.
  intros HF Hn Hino Hwf Hkind Hother Hdir.
  destruct (put_inode_in_tx_ok content_id limits Hid Hfan sh Hsh t n I ino i (fs_ok _ _ _ _ HF) (fs_inodes _ _ _ _ HF) Hn Hino Hwf)
    as (t' & L & E & Hx & Hpost).
  exists t', L. split; [done|]. split; [done|]. intros Hg. destruct (Hpost Hg) as (Hin & _ & _). split; try done.
  - rewrite Hx. by apply stages_ok, HF.
  - intros dir i' r Hi Hr. rewrite Hx. destruct (decide (dir = ino)) as [->|Hne].
    + rewrite lookup_insert_eq in Hi. injection Hi as <-. rewrite Hr in Hdir. destruct Hdir as (E0 & HE & Hv).
      exists E0. split; [|done]. apply directory_stages; [apply HF|done].
    + rewrite lookup_insert_ne in Hi by done. destruct (fs_dirs _ _ _ _ HF _ _ _ Hi Hr) as (E0 & HE & Hv).
      exists E0. split; [apply directory_stages; [apply HF|]; by eapply directory_le; [|done]; lia|]. intros name. by rewrite Hv, Hother.
  - intros dir name e He. destruct (decide (dir = ino)) as [->|Hne].
    + exists i. rewrite lookup_insert_eq. split; [done|]. destruct (dir_data i); [by eexists|]. by rewrite Hdir in He.
    + rewrite Hother in He by done. rewrite lookup_insert_ne by done. by eapply fs_owner.
  - intros ino' i' Hi. destruct (decide (ino' = ino)) as [->|Hne].
    + rewrite lookup_insert_eq in Hi. by injection Hi as <-.
    + rewrite lookup_insert_ne in Hi by done. by eapply fs_kinds.
Qed.

(** Dropping the inode [ino], which owns no names. *)
Lemma fs_remove_inode t n I N ino :
  fs t n I N -> (n <= 128)%nat -> is_u64 ino -> (forall name, N !! (ino, name) = None) ->
  succeeds txn_tx (txn_tx t) (remove_inode_in_tx content_id limits t ino) (fun t' => fs t' n (delete ino I) N).
Proof.
  intros HF Hn Hino Hnone.
  destruct (remove_inode_in_tx_ok content_id limits Hid Hfan sh Hsh Hmin t n I ino (fs_ok _ _ _ _ HF) (fs_inodes _ _ _ _ HF) Hn Hino)
    as (t' & L & E & Hx & Hpost).
  exists t', L. split; [done|]. split; [done|]. intros Hg. destruct (Hpost Hg) as (Hin & _ & _). split; try done.
  - rewrite Hx. by apply stages_ok, HF.
  - intros dir i' r [Hne Hi]%lookup_delete_Some Hr. destruct (fs_dirs _ _ _ _ HF _ _ _ Hi Hr) as (E0 & HE & Hv).
    rewrite Hx. exists E0. split; [|done]. apply directory_stages; [apply HF|done].
  - intros dir name e He. rewrite lookup_delete_ne by (intros ->; congruence). by eapply fs_owner.
  - intros ino' i' [_ Hi]%lookup_delete_Some. by eapply fs_kinds.
Qed.

(** ** Inodes the operations write *)

Lemma with_data_wf i (r : ChunkId) r0 tm :
  inode_wf i -> dir_data i = Some r0 -> wf_id r -> timespec_wf tm -> inode_wf (with_mtime (with_data i (IDirectory r)) tm).
Proof.
  intros [] Hd Hr Ht. unfold dir_data in Hd. unfold file_type in *. destruct (i_data i) eqn:E; try done.
Qed.
Lemma nlink_dec_wf i : inode_wf i -> inode_wf (nlink_dec i).
Proof. intros []. split; try done. cbn. width. Qed.
Lemma nlink_inc_wf i : inode_wf i -> inode_wf (nlink_inc i).
Proof. intros []. split; try done. cbn. unfold saturating_add. width. Qed.

Lemma directory_wf_root x n (r : ChunkId) E : directory x sh n r E -> wf_id r.
Proof.
  intros [(m & [[-> _]|Ht] & _) _]; [|by apply tree_wf in Ht]. split; [done|]. apply Forall_replicate. width.
Qed.

(** ** [create_entry] *)

Definition entry_ok (e : NewEntry) : Prop :=
  is_u32 (ne_uid e) /\ is_u32 (ne_gid e) /\
  match ne_kind e with
  | ESymlink target => wf_bytes target /\ zlen target < 2 ^ 32
  | EDevice _ rdev => is_u32 rdev
  | _ => True
  end.

Lemma entry_inode_wf tm e :
  timespec_wf tm -> entry_ok e ->
  inode_wf (entry_inode tm e) /\ kind_ok (entry_inode tm e) /\
  dir_data (entry_inode tm e) = (if is_directory (ne_kind e) then Some ChunkId_ZERO else None).
Proof.
  intros Ht (Hu & Hg & Hk).
  assert (Hnew : forall tg, wf_bytes tg -> zlen tg < 2 ^ 32 -> inode_wf (new_file tm (ne_uid e) (ne_gid e) (ne_mode e)) /\
      inode_wf (new_dir tm (ne_uid e) (ne_gid e) (ne_mode e)) /\ inode_wf (new_symlink tm tg (ne_uid e) (ne_gid e)))
    by (intros; by apply new_inode_wf).
  destruct (Hnew [] ltac:(constructor) ltac:(done)) as (Hf & Hd & _).
  assert (Hkind : forall k, k = S_IFREG \/ k = S_IFDIR \/ k = S_IFCHR \/ k = S_IFBLK ->
    Z.land (Z.lor k (Z.land (ne_mode e) S_IPERM)) S_IFMT = k) by (intros; by apply new_mode).
  unfold entry_inode, kind_ok, is_dir, file_type. destruct (ne_kind e) as [| |tg|c rdev]; cbn.
  - by rewrite Hkind by auto.
  - by rewrite Hkind by auto.
  - split; [|done]. apply Hnew; apply Hk.
  - assert (Hc : (if c then S_IFCHR else S_IFBLK) = S_IFCHR \/ (if c then S_IFCHR else S_IFBLK) = S_IFBLK) by (destruct c; auto).
    rewrite Hkind by tauto. split; [|split; [by destruct c|done]].
    destruct Hf. split; cbn; try done; [apply new_mode; tauto|]. unfold file_type. cbn. rewrite Hkind by tauto. by destruct c.
Qed.

Definition created (parent_inode : Inode) (root : ChunkId) (k : EntryKind) : Inode :=
  let p := with_mtime (with_data parent_inode (IDirectory root)) (now 1) in
  if is_directory k then nlink_inc p else p.

Lemma kind_ok_dir i (r : ChunkId) tm : is_dir i = true -> kind_ok (with_mtime (with_data i (IDirectory r)) tm).
Proof. intros Hd. unfold kind_ok, is_dir, file_type in *. cbn in *. by rewrite Hd. Qed.

Lemma DirEntry_new_ok ino k : is_u64 ino -> DirEntry_ok {| de_ino := ino; de_d_type := entry_d_type k |}.
Proof. intros Hi. split; [done|]. destruct k; cbn; unfold DT_REG, DT_DIR, DT_LNK, DT_UNKNOWN; width. Qed.

Lemma fs_parent t n I N parent i (r : ChunkId) : fs t n I N -> I !! parent = Some i -> dir_data i = Some r ->
  is_u64 parent /\ inode_wf i /\ is_dir i = true.
Proof.
  intros HF Hi Hr. destruct (fs_kinds _ _ _ _ HF _ _ Hi) as (Hu & Hw & Hk). split_and!; [done..|].
  unfold kind_ok in Hk. by rewrite Hk, Hr.
Qed.

(** The parent's inode with its new tree and a new modification time, its link
    count possibly moved. *)
Lemma parent_ok i (r r' : ChunkId) tm (f : Inode -> Inode) :
  inode_wf i -> is_dir i = true -> dir_data i = Some r -> wf_id r' -> timespec_wf tm ->
  f = (fun i => i) \/ f = nlink_inc \/ f = nlink_dec ->
  let p := f (with_mtime (with_data i (IDirectory r')) tm) in inode_wf p /\ kind_ok p /\ dir_data p = Some r'.
Proof.
  intros Hw Hd Hr Hr' Ht Hf. pose proof (with_data_wf i r' r tm Hw Hr Hr' Ht) as Hw'. pose proof (kind_ok_dir i r' tm Hd) as Hk.
  destruct Hf as [->|[->| ->]]; cbv zeta; split_and!; try done; [by apply nlink_inc_wf|by apply nlink_dec_wf].
Qed.

(** C2. [create_entry].  With the parent a directory that does not hold the
    name and a number no inode has, creating an entry stages the new inode,
    the directory with the name, and the parent with the directory's root, a
    new time and one link more for a new directory; unless payloads collide,
    the transaction then stands for the file system with exactly these
    changes.  Otherwise it fails with the error of the first guard, and
    stages nothing. *)
Theorem create_entry_refines t n I N ino parent name e :
  fs t n I N -> (n <= 126)%nat -> is_u64 parent -> is_u64 ino -> I !! ino = None -> key_ok name -> entry_ok e ->
  match I !! parent with
  | None => create_entry_tx content_id limits now t ino parent name e = invariant "inode missing"
  | Some pi =>
      match dir_data pi with
      | None => create_entry_tx content_id limits now t ino parent name e = invariant "parent not a directory"
      | Some r =>
          match N !! (parent, name) with
          | Some _ => create_entry_tx content_id limits now t ino parent name e = invariant "entry already exists"
          | None =>
              let inode := entry_inode (now 0%nat) e in
              let entry := {| de_ino := ino; de_d_type := entry_d_type (ne_kind e) |} in
              succeeds txn_tx (txn_tx t) (put_inode_in_tx content_id limits t ino inode) (fun t1 =>
              succeeds (fun a => txn_tx (snd a)) (txn_tx t1) (tx_dir_insert content_id limits t1 r name entry) (fun '(r', t2) =>
              let p := created pi r' (ne_kind e) in
              succeeds txn_tx (txn_tx t2) (put_inode_in_tx content_id limits t2 parent p) (fun t3 =>
              create_entry_tx content_id limits now t ino parent name e = Ok t3 /\
              fs t3 (S (S n)) (<[parent := p]> (<[ino := inode]> I)) (<[(parent, name) := entry]> N))))
          end
      end
  end.
Proof.
  intros HF Hn Hp Hi Hnew Hk He.
  assert (Eread : inode_for_tx limits t parent = match I !! parent with Some i => Ok i | None => invariant "inode missing" end)
    by (eapply fs_inode; [done|lia|done]).
  unfold create_entry_tx. rewrite Eread. destruct (I !! parent) as [pi|] eqn:Epi; [|done]. cbn [rbind].
  destruct (dir_data pi) as [r|] eqn:Er; [|by rewrite dir_root_of_not].
  rewrite (dir_root_of_ok _ _ _ Er). cbn [rbind]. rewrite (fs_lookup t n I N parent pi r name HF ltac:(lia) Epi Er). cbn [rbind].
  destruct (N !! (parent, name)) as [e0|] eqn:EN; [done|]. cbn [is_Some bool_decide]. rewrite bool_decide_eq_false_2 by by intros [? ?].
  destruct (fs_parent _ _ _ _ _ _ _ HF Epi Er) as (_ & Hpw & Hpd). cbv zeta.
  set (inode := entry_inode _ e). set (entry := {| de_ino := ino; de_d_type := _ |}).
  destruct (entry_inode_wf (now 0%nat) e (Hnow 0) He) as (Hiw & Hik & Hidd). fold inode in Hiw, Hik, Hidd.
  assert (Hne : ino <> parent) by congruence.
  assert (Hnone : forall nm, N !! (ino, nm) = None).
  { intros nm. destruct (N !! (ino, nm)) eqn:E; [|done]. destruct (fs_owner _ _ _ _ HF _ _ _ E) as (i' & Hi' & _). congruence. }
  eapply succeeds_impl.
  { apply (fs_put_inode t n I N N ino inode HF ltac:(lia) Hi Hiw Hik); [done|]. rewrite Hidd.
    destruct (is_directory (ne_kind e)); [|done]. exists ∅. split; [|intros nm; by rewrite Hnone, lookup_empty].
    split; [|apply map_Forall_empty]. exists []. split; [by left|done]. }
  intros t1 L1 E1 _ HF1. rewrite E1. cbn [rbind].
  assert (Epi1 : <[ino := inode]> I !! parent = Some pi) by (by rewrite lookup_insert_ne).
  eapply succeeds_impl; [apply (tx_dir_insert_ok t1 (S n) _ N parent pi r name entry HF1 ltac:(lia) Epi1 Er Hk); by apply DirEntry_new_ok|].
  intros [r' t2] L2 E2 Hx2 (Hr2 & _ & E & HE & Hv). rewrite E2. cbn [rbind fst snd] in *.
  assert (HF2 : fs t2 (S n) (<[ino := inode]> I) N) by (by eapply fs_stages).
  pose proof (directory_wf_root _ _ _ _ HE) as Hrw.
  destruct (parent_ok pi r r' (now 1%nat) (if is_directory (ne_kind e) then nlink_inc else fun i => i) Hpw Hpd Er Hrw (Hnow 1))
    as (Hw' & Hk' & Hd'); [destruct (is_directory _); auto|].
  assert (Hcr : created pi r' (ne_kind e) =
    (if is_directory (ne_kind e) then nlink_inc else fun i => i) (with_mtime (with_data pi (IDirectory r')) (now 1%nat)))
    by (unfold created; by destruct (is_directory _)).
  cbv zeta in Hw', Hk', Hd'. rewrite <-Hcr in Hw', Hk', Hd'.
  eapply succeeds_impl.
  { apply (fs_put_inode t2 (S n) _ N (<[(parent, name) := entry]> N) parent (created pi r' (ne_kind e)) HF2 ltac:(lia) Hp Hw' Hk').
    - intros dir nm Hd. by rewrite lookup_insert_ne by congruence.
    - rewrite Hd'. exists (<[name := entry]> E). split; [done|]. by apply view_insert. }
  intros t3 L3 E3 _ HF3. unfold created in E3. by rewrite E3.
Qed.

(** ** [unlink] *)

Definition no_names N (dir : Z) : Prop := forall name, N !! (dir, name) = None.

Lemma view_empty N dir E : view N dir E -> E = ∅ <-> no_names N dir.
Proof.
  intros Hv. split.
  - intros -> name. by rewrite <-Hv, lookup_empty.
  - intros Hn. apply map_eq. intros k. by rewrite Hv, Hn, lookup_empty.
Qed.

Lemma dir_not_empty_ok t n I N dir i (r : ChunkId) :
  fs t n I N -> (n <= 128)%nat -> I !! dir = Some i -> dir_data i = Some r ->
  (forall E, view N dir E -> Z.of_nat (size E) < 2 ^ 64 - 1) ->
  exists b, dir_not_empty limits t i = Ok b /\ (b = false <-> no_names N dir).
Proof.
  intros HF Hn Hi Hr Hsz. destruct (fs_dirs _ _ _ _ HF _ _ _ Hi Hr) as (E & HE & Hv). specialize (Hsz E Hv).
  unfold dir_not_empty. unfold dir_data in Hr. destruct (i_data i) as [r0| | |]; try done. injection Hr as ->.
  pose proof (view_empty _ _ _ Hv) as Hve. setoid_rewrite <-Hve. destruct (ChunkId_is_zero r) eqn:Ez.
  - exists false. split; [done|]. split; [intros _|done]. destruct HE as [(m & [[_ ->]|Ht] & Em) _].
    + by apply (fmap_empty_inv DirEntry_encode).
    + by rewrite (tree_nonzero _ _ _ _ _ _ _ _ _ Ht) in Ez.
  - destruct (dir_probe_ok BTREE_ORDER fanout order_ok _ sh n r E HE Hn Hsz) as (l & more & -> & Hl). cbn.
    eexists. split; [done|]. case_bool_decide; cbn; split; try done; tauto.
Qed.

(** What a removal leaves of the target: nothing, or one link less. *)
Definition dropped (is_dir_ : bool) (target : Inode) : option Inode :=
  if is_dir_ then None else if i_nlink (nlink_dec target) =? 0 then None else Some (nlink_dec target).
Definition unlinked (parent_inode target : Inode) (root : ChunkId) : Inode :=
  let p := with_mtime (with_data parent_inode (IDirectory root)) (now 0) in
  if is_dir target then nlink_dec p else p.

(** The last step: the target's inode is dropped or written back. *)
Definition drop_target t (is_dir_ : bool) (ino : Z) (target : Inode) : outcome Txn :=
  match dropped is_dir_ target with
  | None => remove_inode_in_tx content_id limits t ino
  | Some i => put_inode_in_tx content_id limits t ino i
  end.

Lemma kind_ok_nlink i k : kind_ok i -> kind_ok (with_nlink i k).
Proof. done. Qed.

Lemma drop_target_ok t n I N is_dir_ ino target :
  fs t n I N -> (n <= 128)%nat -> I !! ino = Some target -> no_names N ino -> is_dir target = is_dir_ ->
  succeeds txn_tx (txn_tx t) (drop_target t is_dir_ ino target) (fun t' =>
    fs t' (S n) (match dropped is_dir_ target with None => delete ino I | Some i => <[ino := i]> I end) N).
Proof.
  intros HF Hn Hi Hnn Hd. destruct (fs_kinds _ _ _ _ HF _ _ Hi) as (Hu & Hw & Hk). unfold drop_target, dropped.
  destruct is_dir_.
  { eapply succeeds_impl; [by apply (fs_remove_inode t n I N ino)|]. intros t' L _ _ HF'. exact (fs_le t' n (S n) _ _ ltac:(lia) HF'). }
  destruct (_ =? 0).
  { eapply succeeds_impl; [by apply (fs_remove_inode t n I N ino)|]. intros t' L _ _ HF'. exact (fs_le t' n (S n) _ _ ltac:(lia) HF'). }
  apply (fs_put_inode t n I N N); try done; [by apply nlink_dec_wf|].
  unfold kind_ok in Hk. rewrite Hd in Hk. change (dir_data (nlink_dec target)) with (dir_data target).
  destruct (dir_data target); [by symmetry in Hk; apply bool_decide_eq_false in Hk; destruct Hk; eexists|done].
Qed.

Lemma unlink_apply_ok t n I N parent name is_dir_ pi (r : ChunkId) ino target :
  fs t n I N -> (n <= 126)%nat -> I !! parent = Some pi -> dir_data pi = Some r -> I !! ino = Some target -> ino <> parent ->
  no_names N ino -> is_dir target = is_dir_ ->
  succeeds (fun a => txn_tx (snd a)) (txn_tx t) (tx_dir_remove content_id limits t r name) (fun '(r', t1) =>
  let p := unlinked pi target r' in
  succeeds txn_tx (txn_tx t1) (put_inode_in_tx content_id limits t1 parent p) (fun t2 =>
  succeeds txn_tx (txn_tx t2) (drop_target t2 is_dir_ ino target) (fun t3 =>
  unlink_apply content_id limits now t parent pi r name is_dir_ ino target = Ok (ino, t3) /\
  fs t3 (S (S n))
    (match dropped is_dir_ target with None => delete ino (<[parent := p]> I) | Some i => <[ino := i]> (<[parent := p]> I) end)
    (delete (parent, name) N)))).
Proof.
  intros HF Hn Hpi Hr Ht Hne Hnn Hd. destruct (fs_parent _ _ _ _ _ _ _ HF Hpi Hr) as (Hpu & Hpw & Hpd).
  unfold unlink_apply.
  eapply succeeds_impl; [apply (tx_dir_remove_ok t n I N parent pi r name HF ltac:(lia) Hpi Hr)|].
  intros [r' t1] L1 E1 Hx1 (Hr1 & _ & E & HE & Hv). rewrite E1. cbn [rbind fst snd] in *.
  assert (HF1 : fs t1 n I N) by (by eapply fs_stages).
  pose proof (directory_wf_root _ _ _ _ HE) as Hrw. cbv zeta.
  destruct (parent_ok pi r r' (now 0%nat) (if is_dir target then nlink_dec else fun i => i) Hpw Hpd Hr Hrw (Hnow 0))
    as (Hw' & Hk' & Hd'); [destruct (is_dir target); auto|].
  assert (Hun : unlinked pi target r' =
    (if is_dir target then nlink_dec else fun i => i) (with_mtime (with_data pi (IDirectory r')) (now 0%nat)))
    by (unfold unlinked; by destruct (is_dir target)).
  cbv zeta in Hw', Hk', Hd'. rewrite <-Hun in Hw', Hk', Hd'.
  eapply succeeds_impl.
  { apply (fs_put_inode t1 n I N (delete (parent, name) N) parent (unlinked pi target r') HF1 ltac:(lia) Hpu Hw' Hk').
    - intros dir nm Hdir. by rewrite lookup_delete_ne by congruence.
    - rewrite Hd'. exists (delete name E). split; [eapply directory_le; [|done]; lia|]. by apply view_delete. }
  intros t2 L2 E2 _ HF2. unfold unlinked in E2. rewrite E2. cbn [rbind].
  eapply succeeds_impl.
  { apply (drop_target_ok t2 (S n) _ _ is_dir_ ino target HF2 ltac:(lia)); [by rewrite lookup_insert_ne|intros nm|done].
    rewrite lookup_delete_ne by congruence. apply Hnn. }
  intros t3 L3 E3 _ HF3. split; [|done]. unfold drop_target, dropped in E3.
  destruct is_dir_; [by rewrite E3|]. cbv zeta. by destruct (_ =? 0); rewrite E3.
Qed.

(** C3. [unlink] and [rmdir].  The name is looked up, the target's kind and,
    for a directory, its emptiness are checked; then the name leaves its
    directory, the parent gets the new root, a new time and for a directory
    one link less, and the target's inode is dropped when it is a directory or
    its last link goes, and otherwise loses one link. *)
Theorem unlink_refines t n I N parent name is_dir_ pi (r : ChunkId) e target :
  fs t n I N -> (n <= 126)%nat -> I !! parent = Some pi -> dir_data pi = Some r ->
  N !! (parent, name) = Some e -> I !! de_ino e = Some target -> de_ino e <> parent ->
  (forall E, view N (de_ino e) E -> Z.of_nat (size E) < 2 ^ 64 - 1) ->
  if is_dir_ && negb (is_dir target) then unlink_tx content_id limits now t parent name is_dir_ = invariant "not a directory"
  else if negb is_dir_ && is_dir target then unlink_tx content_id limits now t parent name is_dir_ = invariant "is a directory"
  else
    (~ no_names N (de_ino e) -> unlink_tx content_id limits now t parent name is_dir_ = invariant "directory not empty") /\
    (no_names N (de_ino e) ->
      succeeds (fun a => txn_tx (snd a)) (txn_tx t) (tx_dir_remove content_id limits t r name) (fun '(r', t1) =>
      let p := unlinked pi target r' in
      succeeds txn_tx (txn_tx t1) (put_inode_in_tx content_id limits t1 parent p) (fun t2 =>
      succeeds txn_tx (txn_tx t2) (drop_target t2 is_dir_ (de_ino e) target) (fun t3 =>
      unlink_tx content_id limits now t parent name is_dir_ = Ok (de_ino e, t3) /\
      fs t3 (S (S n))
        (match dropped is_dir_ target with None => delete (de_ino e) (<[parent := p]> I) | Some i => <[de_ino e := i]> (<[parent := p]> I) end)
        (delete (parent, name) N))))).
Proof.
  intros HF Hn Hpi Hr He Ht Hne Hsz. destruct (fs_kinds _ _ _ _ HF _ _ Ht) as (Htu & Htw & Htk).
  assert (Eread : forall j i, I !! j = Some i -> inode_for_tx limits t j = Ok i).
  { intros j i Hi. destruct (fs_kinds _ _ _ _ HF _ _ Hi) as (Hu & _). rewrite (fs_inode t n I N j HF ltac:(lia) Hu). by rewrite Hi. }
  unfold unlink_tx. rewrite (Eread _ _ Hpi). cbn [rbind]. rewrite (dir_root_of_ok _ _ _ Hr). cbn [rbind].
  rewrite (fs_lookup t n I N parent pi r name HF ltac:(lia) Hpi Hr), He. cbn [rbind ok_or]. rewrite (Eread _ _ Ht). cbn [rbind].
  unfold unlink_guard. unfold kind_ok in Htk.
  destruct is_dir_, (is_dir target) eqn:Ed; cbn [andb negb]; try done; symmetry in Htk.
  - apply bool_decide_eq_true in Htk as [rt Hrt].
    destruct (dir_not_empty_ok t n I N _ _ rt HF ltac:(lia) Ht Hrt Hsz) as (b & -> & Hb). cbn [rbind]. split.
    + intros Hf. destruct b; [done|]. by destruct Hf; apply Hb.
    + intros Hnn. rewrite (proj2 Hb Hnn). cbn [rbind]. by apply unlink_apply_ok.
  - apply bool_decide_eq_false in Htk.
    assert (Hnn : no_names N (de_ino e)).
    { intros nm. destruct (N !! (de_ino e, nm)) eqn:E; [|done]. destruct (fs_owner _ _ _ _ HF _ _ _ E) as (i' & Hi' & Hd'). congruence. }
    split; [done|]. intros _. cbn [rbind]. by apply unlink_apply_ok.
Qed.

(** ** [link] *)

Lemma link_d_type_ok ino i : is_u64 ino -> DirEntry_ok {| de_ino := ino; de_d_type := link_d_type i |}.
Proof. intros Hi. split; [done|]. unfold link_d_type. cbn. destruct (i_data i); unfold DT_REG, DT_LNK, DT_UNKNOWN; width. Qed.

Lemma fs_read t n I N ino i : fs t n I N -> (n <= 128)%nat -> I !! ino = Some i -> inode_for_tx limits t ino = Ok i.
Proof. intros HF Hn Hi. destruct (fs_kinds _ _ _ _ HF _ _ Hi) as (Hu & _). rewrite (fs_inode t n I N ino HF Hn Hu). by rewrite Hi. Qed.

Lemma fs_not_dir t n I N ino i : fs t n I N -> I !! ino = Some i -> is_dir i = false -> dir_data i = None /\ no_names N ino.
Proof.
  intros HF Hi Hd. destruct (fs_kinds _ _ _ _ HF _ _ Hi) as (_ & _ & Hk). unfold kind_ok in Hk. rewrite Hd in Hk.
  symmetry in Hk. apply bool_decide_eq_false in Hk. split; [destruct (dir_data i); [by destruct Hk; eexists|done]|].
  intros nm. destruct (N !! (ino, nm)) eqn:E; [|done]. destruct (fs_owner _ _ _ _ HF _ _ _ E) as (i' & Hi' & Hd'). congruence.
Qed.

(** Writing a directory's inode after its tree became the one at [r'] that
    holds the names [N'] gives it. *)
Lemma fs_put_dir t n I N N' dir i (r r' : ChunkId) E tm f :
  fs t n I N -> (n <= 127)%nat -> I !! dir = Some i -> dir_data i = Some r -> timespec_wf tm ->
  f = (fun i => i) \/ f = nlink_inc \/ f = nlink_dec ->
  directory (txn_tx t) sh (S n) r' E -> view N' dir E -> (forall d name, d <> dir -> N' !! (d, name) = N !! (d, name)) ->
  let p := f (with_mtime (with_data i (IDirectory r')) tm) in
  succeeds txn_tx (txn_tx t) (put_inode_in_tx content_id limits t dir p) (fun t' =>
    fs t' (S n) (<[dir := p]> I) N').
Proof.
  intros HF Hn Hi Hr Ht Hf HE Hv Hother p. destruct (fs_parent _ _ _ _ _ _ _ HF Hi Hr) as (Hu & Hw & Hd).
  destruct (parent_ok i r r' tm f Hw Hd Hr (directory_wf_root _ _ _ _ HE) Ht Hf) as (Hw' & Hk' & Hd').
  apply (fs_put_inode t n I N N' dir p HF ltac:(lia) Hu Hw' Hk' Hother). unfold p. rewrite Hd'. by exists E.
Qed.

(** [link].  A hard link to an inode that is not a directory adds the name
    to its directory and one to the inode's links. *)
Theorem link_refines t n I N parent name ino pi (r : ChunkId) target :
  fs t n I N -> (n <= 125)%nat -> I !! parent = Some pi -> dir_data pi = Some r -> key_ok name ->
  N !! (parent, name) = None -> I !! ino = Some target ->
  if is_dir target then link_tx content_id limits now t parent name ino = invariant "cannot hard link a directory"
  else
    let entry := {| de_ino := ino; de_d_type := link_d_type target |} in
    succeeds (fun a => txn_tx (snd a)) (txn_tx t) (tx_dir_insert content_id limits t r name entry) (fun '(r', t1) =>
    let p := with_mtime (with_data pi (IDirectory r')) (now 0%nat) in
    succeeds txn_tx (txn_tx t1) (put_inode_in_tx content_id limits t1 parent p) (fun t2 =>
    succeeds txn_tx (txn_tx t2) (put_inode_in_tx content_id limits t2 ino (nlink_inc target)) (fun t3 =>
    link_tx content_id limits now t parent name ino = Ok t3 /\
    fs t3 (S (S n)) (<[ino := nlink_inc target]> (<[parent := p]> I)) (<[(parent, name) := entry]> N)))).
Proof.
  intros HF Hn Hpi Hr Hk HN Ht. unfold link_tx. rewrite (fs_read t n I N parent pi HF ltac:(lia) Hpi). cbn [rbind].
  rewrite (dir_root_of_ok _ _ _ Hr). cbn [rbind]. rewrite (fs_lookup t n I N parent pi r name HF ltac:(lia) Hpi Hr), HN. cbn [rbind].
  rewrite bool_decide_eq_false_2 by by intros [? ?]. rewrite (fs_read t n I N ino target HF ltac:(lia) Ht). cbn [rbind].
  destruct (is_dir target) eqn:Ed; [done|]. destruct (fs_not_dir _ _ _ _ _ _ HF Ht Ed) as [Htd Hnn].
  destruct (fs_kinds _ _ _ _ HF _ _ Ht) as (Htu & Htw & Htk). set (entry := {| de_ino := ino; de_d_type := _ |}). cbv zeta.
  assert (Hne : ino <> parent) by congruence.
  eapply succeeds_impl; [apply (tx_dir_insert_ok t n I N parent pi r name entry HF ltac:(lia) Hpi Hr Hk); by apply link_d_type_ok|].
  intros [r' t1] L1 E1 Hx1 (Hr1 & _ & E & HE & Hv). rewrite E1. cbn [rbind fst snd] in *.
  assert (HF1 : fs t1 n I N) by (by eapply fs_stages).
  assert (Hother : forall d nm, d <> parent -> (<[(parent, name) := entry]> N) !! (d, nm) = N !! (d, nm))
    by (intros d nm Hd; by rewrite lookup_insert_ne by congruence).
  assert (Hv' : view (<[(parent, name) := entry]> N) parent (<[name := entry]> E)) by (by apply view_insert).
  epose proof (fs_put_dir t1 n I N _ parent pi r r' _ (now 0%nat) (fun i => i)
    HF1 ltac:(lia) Hpi Hr (Hnow 0%nat) (or_introl eq_refl) HE Hv' Hother) as Hput. cbv beta zeta in Hput.
  eapply succeeds_impl; [exact Hput|].
  intros t2 L2 E2 _ HF2. rewrite E2. cbn [rbind].
  eapply succeeds_impl.
  { apply (fs_put_inode t2 (S n) _ _ (<[(parent, name) := entry]> N) ino (nlink_inc target) HF2 ltac:(lia) Htu (nlink_inc_wf _ Htw) Htk);
      [done|]. change (dir_data (nlink_inc target)) with (dir_data target). rewrite Htd. intros nm.
    rewrite lookup_insert_ne by congruence. apply Hnn. }
  intros t3 L3 E3 _ HF3. by rewrite E3.
Qed.
End Spec.

(** * Examples *)

(** A hash under which the payloads below have distinct ids. *)
Definition mix_hash (b : bytes) : ChunkId := to_le 32 (fold_left (fun h x => (h * 257 + x + 1) mod 2 ^ 64) b 0).
Lemma mix_hash_wf b : wf_id (mix_hash b).
Proof. split; [apply length_to_le | apply to_le_wf]. Qed.

Definition clock (i : nat) : Timespec := {| ts_sec := match i with O => 100 | _ => 101 end; ts_nsec := 0 |}.
Lemma clock_wf i : timespec_wf (clock i).
Proof. split; destruct i; cbn; width. Qed.

(** The root directory, inode 1, holds the file [a], inode 2. *)
Definition tx_none : Tx StoreError :=
  {| tx_text := fun _ => String.EmptyString; tx_indexed := fun _ => false; tx_fetch := fun _ => Ok None; tx_pending := ∅; tx_records := []; tx_asked := [] |}.
Definition txn_none : Txn := {| txn_tx := tx_none; txn_root := Root_default; txn_features := 0 |}.
Definition entry_a : DirEntry := {| de_ino := 2; de_d_type := DT_REG |}.
Definition inode_a : Inode := new_file (clock 0) 5 6 420.
Definition sample_txn : outcome (ChunkId * Txn) :=
  let! t := put_inode_in_tx mix_hash Limits_default txn_none 2 inode_a in
  let! '(r, t) := tx_dir_insert mix_hash Limits_default t ChunkId_ZERO [97] entry_a in
  let! t := put_inode_in_tx mix_hash Limits_default t 1 (with_mtime (with_data (new_dir (clock 0) 0 0 493) (IDirectory r)) (clock 0)) in
  Ok (r, t).
Definition fs_txn : Txn := Eval vm_compute in match sample_txn with Ok (_, t) => t | Err _ => txn_none end.
Definition fs_dir : ChunkId := Eval vm_compute in match sample_txn with Ok (r, _) => r | Err _ => [] end.
Definition inode_dir : Inode := with_mtime (with_data (new_dir (clock 0) 0 0 493) (IDirectory fs_dir)) (clock 0).
Definition fs_inodes_ : gmap Z Inode := {[ 1 := inode_dir; 2 := inode_a ]}.
Definition fs_names : Names := {[ (1, [97]) := entry_a ]}.
Definition full_shape : Shape := {| sh_leaf := 64; sh_min := 1 |}.

Lemma sample_inodes_wf : (inode_wf inode_a /\ kind_ok inode_a) /\ (inode_wf inode_dir /\ kind_ok inode_dir).
Proof.
  destruct (new_inode_wf (clock 0) 5 6 420 []) as (Ha & _ & _); [apply clock_wf | width | width | constructor | done |].
  destruct (new_inode_wf (clock 0) 0 0 493 []) as (_ & Hd & _); [apply clock_wf | width | width | constructor | done |].
  split; (split; [|done]); [done|]. eapply with_data_wf; [done | done | | apply clock_wf]. apply (bool_decide_unpack _). by vm_compute.
Qed.

Definition sample_objects : gmap Z bytes := {[ 1 := mix_hash (inode_image inode_dir); 2 := mix_hash (inode_image inode_a) ]}.

Lemma sample_object i : inode_wf i -> fetch_pending_or_store (txn_tx fs_txn) (mix_hash (inode_image i)) = Ok (Some (inode_image i)) ->
  inode_object (txn_tx fs_txn) (mix_hash (inode_image i)) i.
Proof. intros Hi Hs. split_and!; [apply mix_hash_wf | done | done]. Qed.

Lemma fs_sample : fs Limits_default full_shape fs_txn 0 fs_inodes_ fs_names.
Proof.
  destruct sample_inodes_wf as [[Ha Hka] [Hd Hkd]]. split.
  - done.
  - exists sample_objects. split.
    + exists (<[extent_key 1 := mix_hash (inode_image inode_dir)]> (<[extent_key 2 := mix_hash (inode_image inode_a)]> ∅)).
      split; [eval_holds [(extent_key 1, mix_hash (inode_image inode_dir)); (extent_key 2, mix_hash (inode_image inode_a))]|].
      apply extents_insert; [apply extents_insert; [|width]|width]. split; [intros o [v Hv]; done|].
      intros k v. split; [done|intros (o & _ & _ & Ho); done].
    + apply map_Forall2_insert_2; [|apply map_Forall2_singleton]; apply sample_object; try done; by vm_compute.
  - intros dir i r Hi Hr. unfold fs_inodes_ in Hi. rewrite lookup_insert_Some, lookup_singleton_Some in Hi.
    destruct Hi as [[<- <-]|[_ [<- <-]]]; [|done]. injection Hr as <-. exists {[ [97] := entry_a ]}. split.
    + split; [eval_holds [([97%Z], DirEntry_encode entry_a)]|]. apply map_Forall_singleton. split; cbn; unfold DT_REG; width.
    + intros name. unfold fs_names. destruct (decide (name = [97])) as [->|Hne]; [by rewrite !lookup_singleton_eq|].
      by rewrite !lookup_singleton_ne by congruence.
  - intros dir name e He. unfold fs_names in He. rewrite lookup_singleton_Some in He. destruct He as [[= <- <-] <-]. exists inode_dir. split; [done|]. by eexists.
  - intros ino i Hi. unfold fs_inodes_ in Hi. rewrite lookup_insert_Some, lookup_singleton_Some in Hi.
    destruct Hi as [[<- <-]|[_ [<- <-]]]; (split; [width|done]).
Qed.

Lemma full_shape_ok : shape_ok BTREE_ORDER (max_fanout Limits_default) full_shape.
Proof. by vm_compute. Qed.

(** A directory [b] made in the root directory, with number 3. *)
Definition entry_b : NewEntry := {| ne_kind := EDirectory; ne_mode := 493; ne_uid := 5; ne_gid := 6 |}.

Lemma create_entry_refines_witness :
  succeeds mix_hash txn_tx (txn_tx fs_txn) (put_inode_in_tx mix_hash Limits_default fs_txn 3 (new_dir (clock 0) 5 6 493)) (fun t1 =>
  succeeds mix_hash (fun a => txn_tx (snd a)) (txn_tx t1) (tx_dir_insert mix_hash Limits_default t1 fs_dir [98] {| de_ino := 3; de_d_type := DT_DIR |})
    (fun '(r', t2) =>
  succeeds mix_hash txn_tx (txn_tx t2) (put_inode_in_tx mix_hash Limits_default t2 1 (created clock inode_dir r' EDirectory)) (fun t3 =>
  create_entry_tx mix_hash Limits_default clock fs_txn 3 1 [98] entry_b = Ok t3 /\
  fs Limits_default full_shape t3 2
    (<[1 := created clock inode_dir r' EDirectory]> (<[3 := new_dir (clock 0) 5 6 493]> fs_inodes_))
    (<[(1, [98]) := {| de_ino := 3; de_d_type := DT_DIR |}]> fs_names)))).
Proof.
  exact (create_entry_refines mix_hash Limits_default clock mix_hash_wf ltac:(by vm_compute) clock_wf full_shape full_shape_ok
    fs_txn 0 fs_inodes_ fs_names 3 1 [98] entry_b fs_sample ltac:(lia) ltac:(width) ltac:(width) eq_refl
    ltac:(split; [by repeat constructor | done]) ltac:(repeat split; done)).
Defined.

(** The file [a] removed: its last link. *)
Lemma unlink_refines_witness :
  succeeds mix_hash (fun a => txn_tx (snd a)) (txn_tx fs_txn) (tx_dir_remove mix_hash Limits_default fs_txn fs_dir [97]) (fun '(r', t1) =>
  succeeds mix_hash txn_tx (txn_tx t1) (put_inode_in_tx mix_hash Limits_default t1 1 (unlinked clock inode_dir inode_a r')) (fun t2 =>
  succeeds mix_hash txn_tx (txn_tx t2) (remove_inode_in_tx mix_hash Limits_default t2 2) (fun t3 =>
  unlink_tx mix_hash Limits_default clock fs_txn 1 [97] false = Ok (2, t3) /\
  fs Limits_default full_shape t3 2 (delete 2 (<[1 := unlinked clock inode_dir inode_a r']> fs_inodes_)) (delete (1, [97]) fs_names)))).
Proof.
  refine (proj2 (unlink_refines mix_hash Limits_default clock mix_hash_wf ltac:(by vm_compute) clock_wf full_shape full_shape_ok eq_refl
    fs_txn 0 fs_inodes_ fs_names 1 [97] false inode_dir fs_dir entry_a inode_a fs_sample ltac:(lia) eq_refl eq_refl eq_refl eq_refl
    ltac:(done) _) _).
  - intros E Hv. assert (E = ∅) as ->; [|done]. apply map_eq. intros k. rewrite Hv, lookup_empty. by apply lookup_singleton_ne.
  - intros k. by apply lookup_singleton_ne.
Defined.

(** A second name [b] for the file. *)
Lemma link_refines_witness :
  succeeds mix_hash (fun a => txn_tx (snd a)) (txn_tx fs_txn) (tx_dir_insert mix_hash Limits_default fs_txn fs_dir [98] entry_a) (fun '(r', t1) =>
  let p := with_mtime (with_data inode_dir (IDirectory r')) (clock 0) in
  succeeds mix_hash txn_tx (txn_tx t1) (put_inode_in_tx mix_hash Limits_default t1 1 p) (fun t2 =>
  succeeds mix_hash txn_tx (txn_tx t2) (put_inode_in_tx mix_hash Limits_default t2 2 (nlink_inc inode_a)) (fun t3 =>
  link_tx mix_hash Limits_default clock fs_txn 1 [98] 2 = Ok t3 /\
  fs Limits_default full_shape t3 2 (<[2 := nlink_inc inode_a]> (<[1 := p]> fs_inodes_)) (<[(1, [98]) := entry_a]> fs_names)))).
Proof.
  exact (link_refines mix_hash Limits_default clock mix_hash_wf ltac:(by vm_compute) clock_wf full_shape full_shape_ok
    fs_txn 0 fs_inodes_ fs_names 1 [98] 2 inode_dir fs_dir inode_a fs_sample ltac:(lia) eq_refl eq_refl
    ltac:(split; [by repeat constructor | done]) eq_refl eq_refl).
Defined.
