(* ===== verification/Mutation.v ===== *)
(** Component [store/epoch.rs], the mutation log: the operations an epoch
    acknowledges, the codec of their bodies, the envelopes that carry them, and
    what recovery selects from the envelopes it finds.

    A name or a descriptor that does not fit its length prefix is the panic of
    the code's [expect].  The decoder leaves trailing bytes unread. *)
From stdpp Require Import gmap.
From Stdlib Require String.
From S2P Require Import Prelude Codec Repr Version SegRecord Superblock Descriptor Context BTree StoreError.
Import String.StringSyntax.

(** * Operations *)

Inductive MutationOp : Type :=
| OpCreate (parent : Z) (name : bytes) (ino d_type : Z) (inode_id parent_inode_id : ChunkId)
| OpSetattr (ino : Z) (inode_id : ChunkId)
| OpUnlink (parent : Z) (name : bytes) (child : Z) (is_dir : bool) (parent_inode_id : ChunkId) (child_inode_id : option ChunkId)
| OpRename (src_parent : Z) (src_name : bytes) (dst_parent : Z) (dst_name : bytes) (src_ino : Z) (dst_ino : option Z)
    (src_is_dir : bool) (sp_inode_id dp_inode_id : ChunkId) (src_child_inode_id dst_child_inode_id : option ChunkId)
| OpWrite (ino size : Z) (chunks : list (Z * ChunkId * bytes)) (inode_id : ChunkId).
#[global] Instance MutationOp_eq_dec : EqDecision MutationOp.
Proof. solve_decision. Defined.

Definition OP_CREATE : Z := 0x01.
Definition OP_SETATTR : Z := 0x02.
Definition OP_UNLINK : Z := 0x03.
Definition OP_RENAME : Z := 0x04.
Definition OP_WRITE : Z := 0x05.

(** * The body codec *)

(** [w.bytes16(name).expect(..)] and [w.bytes32(desc).expect(..)]. *)
Definition put_name (w : Writer) (name : bytes) : result (trap CodecError) Writer :=
  map_err (fun _ => Panic) (Writer_bytes16 w name).
Definition put_desc (w : Writer) (desc : bytes) : result (trap CodecError) Writer :=
  map_err (fun _ => Panic) (Writer_bytes32 w desc).

(** An optional field: a flag byte, then the value. *)
Definition put_opt {A} (put : Writer -> A -> Writer) (w : Writer) (o : option A) : Writer :=
  match o with
  | Some a => put (Writer_u8 w 1) a
  | None => Writer_u8 w 0
  end.
Definition get_opt {A} (get : Reader -> result CodecError (A * Reader)) (r : Reader) : result CodecError (option A * Reader) :=
  let! '(flag, r) := Reader_u8 r in
  if negb (flag =? 0) then let! '(a, r) := get r in Ok (Some a, r) else Ok (None, r).

Fixpoint put_chunks (w : Writer) (chunks : list (Z * ChunkId * bytes)) : result (trap CodecError) Writer :=
  match chunks with
  | [] => Ok w
  | (off, cid, desc) :: chunks' =>
      let w := Writer_u64 w off in
      let w := Writer_bytes w cid in
      let! w := put_desc w desc in
      put_chunks w chunks'
  end.

Fixpoint get_chunks (n : nat) (r : Reader) : result CodecError (list (Z * ChunkId * bytes) * Reader) :=
  match n with
  | O => Ok ([], r)
  | S n' =>
      let! '(off, r) := Reader_u64 r in
      let! '(cid, r) := record_read_id r in
      let! '(desc, r) := Reader_bytes32 r in
      let! '(chunks, r) := get_chunks n' r in
      Ok ((off, cid, desc) :: chunks, r)
  end.

Definition MutationOp_encode (op : MutationOp) : result (trap CodecError) bytes :=
  let w := Writer_new in
  let! w :=
    match op with
    | OpCreate parent name ino d_type inode_id parent_inode_id =>
        let w := Writer_u8 w OP_CREATE in
        let w := Writer_u64 w parent in
        let! w := put_name w name in
        let w := Writer_u64 w ino in
        let w := Writer_u8 w d_type in
        let w := Writer_bytes w inode_id in
        Ok (Writer_bytes w parent_inode_id)
    | OpSetattr ino inode_id =>
        let w := Writer_u8 w OP_SETATTR in
        let w := Writer_u64 w ino in
        Ok (Writer_bytes w inode_id)
    | OpUnlink parent name child is_dir parent_inode_id child_inode_id =>
        let w := Writer_u8 w OP_UNLINK in
        let w := Writer_u64 w parent in
        let! w := put_name w name in
        let w := Writer_u64 w child in
        let w := Writer_u8 w (Z.b2z is_dir) in
        let w := Writer_bytes w parent_inode_id in
        Ok (put_opt Writer_bytes w child_inode_id)
    | OpRename src_parent src_name dst_parent dst_name src_ino dst_ino src_is_dir sp dp src_child dst_child =>
        let w := Writer_u8 w OP_RENAME in
        let w := Writer_u64 w src_parent in
        let! w := put_name w src_name in
        let w := Writer_u64 w dst_parent in
        let! w := put_name w dst_name in
        let w := Writer_u64 w src_ino in
        let w := put_opt Writer_u64 w dst_ino in
        let w := Writer_u8 w (Z.b2z src_is_dir) in
        let w := Writer_bytes w sp in
        let w := Writer_bytes w dp in
        let w := put_opt Writer_bytes w src_child in
        Ok (put_opt Writer_bytes w dst_child)
    | OpWrite ino size chunks inode_id =>
        let w := Writer_u8 w OP_WRITE in
        let w := Writer_u64 w ino in
        let w := Writer_u64 w size in
        let w := Writer_u32 w (wrap 32 (zlen chunks)) in
        let! w := put_chunks w chunks in
        Ok (Writer_bytes w inode_id)
    end in
  Ok (Writer_into_bytes w).

Definition MutationOp_decode (b : bytes) : result CodecError MutationOp :=
  let r := Reader_new b in
  let! '(op, r) := Reader_u8 r in
  if op =? OP_CREATE then
    let! '(parent, r) := Reader_u64 r in
    let! '(name, r) := Reader_bytes16 r in
    let! '(ino, r) := Reader_u64 r in
    let! '(d_type, r) := Reader_u8 r in
    let! '(inode_id, r) := record_read_id r in
    let! '(parent_inode_id, _) := record_read_id r in
    Ok (OpCreate parent name ino d_type inode_id parent_inode_id)
  else if op =? OP_SETATTR then
    let! '(ino, r) := Reader_u64 r in
    let! '(inode_id, _) := record_read_id r in
    Ok (OpSetattr ino inode_id)
  else if op =? OP_UNLINK then
    let! '(parent, r) := Reader_u64 r in
    let! '(name, r) := Reader_bytes16 r in
    let! '(child, r) := Reader_u64 r in
    let! '(is_dir, r) := Reader_u8 r in
    let! '(parent_inode_id, r) := record_read_id r in
    let! '(child_inode_id, _) := get_opt record_read_id r in
    Ok (OpUnlink parent name child (negb (is_dir =? 0)) parent_inode_id child_inode_id)
  else if op =? OP_RENAME then
    let! '(src_parent, r) := Reader_u64 r in
    let! '(src_name, r) := Reader_bytes16 r in
    let! '(dst_parent, r) := Reader_u64 r in
    let! '(dst_name, r) := Reader_bytes16 r in
    let! '(src_ino, r) := Reader_u64 r in
    let! '(dst_ino, r) := get_opt Reader_u64 r in
    let! '(src_is_dir, r) := Reader_u8 r in
    let! '(sp, r) := record_read_id r in
    let! '(dp, r) := record_read_id r in
    let! '(src_child, r) := get_opt record_read_id r in
    let! '(dst_child, _) := get_opt record_read_id r in
    Ok (OpRename src_parent src_name dst_parent dst_name src_ino dst_ino (negb (src_is_dir =? 0)) sp dp src_child dst_child)
  else if op =? OP_WRITE then
    let! '(ino, r) := Reader_u64 r in
    let! '(size, r) := Reader_u64 r in
    let! '(n, r) := Reader_u32 r in
    fail_if 2 ^ 20 <? n with Malformed ;;
    let! '(chunks, r) := get_chunks (Z.to_nat n) r in
    let! '(inode_id, _) := record_read_id r in
    Ok (OpWrite ino size chunks inode_id)
  else Err Malformed.

(** * Envelopes *)

(** [Epoch::envelope] on the counter it bumps: [seq += 1] is checked. *)
Definition envelope_at (seq : Z) (op : MutationOp) : result (trap CodecError) (bytes * Z) :=
  let! seq := ok_or (checked_add 64 seq 1) Panic in
  let w := Writer_new in
  let w := Writer_u64 w seq in
  let! b := MutationOp_encode op in
  let w := Writer_bytes w b in
  Ok (Writer_into_bytes w, seq).

Definition descriptor_error {A} (m : result CodecError A) : result StoreError A :=
  map_err (fun e => StoreDescriptor (OfCodec e)) m.

Definition envelope_seq (b : bytes) : result StoreError Z :=
  let! '(seq, _) := descriptor_error (Reader_u64 (Reader_new b)) in
  Ok seq.

Definition decode_envelope (b : bytes) : result StoreError (Z * MutationOp) :=
  let! '(seq, r) := descriptor_error (Reader_u64 (Reader_new b)) in
  let! op := descriptor_error (MutationOp_decode (drop (Z.to_nat (r_pos r)) b)) in
  Ok (seq, op).

(** * What recovery replays *)

(** The envelopes among the records of the segments, in scan order, that are
    above the root's [log_seq]. *)
Fixpoint collect_log (log_seq : Z) (records : list (RecordTag * bytes)) : result StoreError (list (Z * bytes)) :=
  match records with
  | [] => Ok []
  | (tag, payload) :: records' =>
      if bool_decide (tag = MutationLog) then
        let! s := envelope_seq payload in
        let! log := collect_log log_seq records' in
        Ok (if log_seq <? s then (s, payload) :: log else log)
      else collect_log log_seq records'
  end.

(** [sort_by_key(|(s, _)| *s)], which is stable. *)
Fixpoint insert_by_seq (x : Z * bytes) (log : list (Z * bytes)) : list (Z * bytes) :=
  match log with
  | [] => [x]
  | y :: log' => if fst x <=? fst y then x :: log else y :: insert_by_seq x log'
  end.
Fixpoint sort_by_seq (log : list (Z * bytes)) : list (Z * bytes) :=
  match log with
  | [] => []
  | x :: log' => insert_by_seq x (sort_by_seq log')
  end.

(** Some window of two has equal sequence numbers. *)
Fixpoint repeated_seq (log : list (Z * bytes)) : bool :=
  match log with
  | x :: log' => match log' with y :: _ => (fst x =? fst y) || repeated_seq log' | [] => false end
  | [] => false
  end.

Definition select_log (log_seq : Z) (records : list (RecordTag * bytes)) : result StoreError (list (Z * bytes)) :=
  let! log := collect_log log_seq records in
  let log := sort_by_seq log in
  fail_if repeated_seq log with StoreInvariant "duplicate mutation log sequence at recovery" ;;
  Ok log.
