(* ===== verification/MutationSpec.v ===== *)
(** The mutation log: the envelope codec reads back what it wrote, and
    recovery selects exactly the envelopes above the root's sequence number,
    in sequence order. *)
From stdpp Require Import gmap sorting.
From Stdlib Require String.
From S2P Require Import Prelude Codec Repr Version SegRecord Superblock Descriptor Context BTree StoreError Mutation.
Import String.StringSyntax.

(** * The image of an operation *)

Definition name_image (name : bytes) : bytes := to_le 2 (zlen name) ++ name.
Definition opt_image {A} (image : A -> bytes) (o : option A) : bytes :=
  match o with Some a => 1 :: image a | None => [0] end.
Definition chunk_image (c : Z * ChunkId * bytes) : bytes :=
  let '(off, cid, desc) := c in to_le 8 off ++ cid ++ to_le 4 (zlen desc) ++ desc.

Definition op_image (op : MutationOp) : bytes :=
  match op with
  | OpCreate parent name ino d_type inode_id parent_inode_id =>
      OP_CREATE :: to_le 8 parent ++ name_image name ++ to_le 8 ino ++ [d_type] ++ inode_id ++ parent_inode_id
  | OpSetattr ino inode_id => OP_SETATTR :: to_le 8 ino ++ inode_id
  | OpUnlink parent name child is_dir parent_inode_id child_inode_id =>
      OP_UNLINK :: to_le 8 parent ++ name_image name ++ to_le 8 child ++ [Z.b2z is_dir] ++ parent_inode_id ++
        opt_image (fun id => id) child_inode_id
  | OpRename src_parent src_name dst_parent dst_name src_ino dst_ino src_is_dir sp dp src_child dst_child =>
      OP_RENAME :: to_le 8 src_parent ++ name_image src_name ++ to_le 8 dst_parent ++ name_image dst_name ++ to_le 8 src_ino ++
        opt_image (to_le 8) dst_ino ++ [Z.b2z src_is_dir] ++ sp ++ dp ++
        opt_image (fun id => id) src_child ++ opt_image (fun id => id) dst_child
  | OpWrite ino size chunks inode_id =>
      OP_WRITE :: to_le 8 ino ++ to_le 8 size ++ to_le 4 (zlen chunks) ++ flat_map chunk_image chunks ++ inode_id
  end.

(** Fields in range; names and descriptors fit their length prefixes. *)
Definition name_ok (name : bytes) : Prop := wf_bytes name /\ zlen name < 2 ^ 16.
Definition opt_ok {A} (P : A -> Prop) (o : option A) : Prop := match o with Some a => P a | None => True end.
Definition chunk_ok (c : Z * ChunkId * bytes) : Prop :=
  let '(off, cid, desc) := c in is_u64 off /\ wf_id cid /\ wf_bytes desc /\ zlen desc < 2 ^ 32.

Definition op_ok (op : MutationOp) : Prop :=
  match op with
  | OpCreate parent name ino d_type inode_id parent_inode_id =>
      is_u64 parent /\ name_ok name /\ is_u64 ino /\ is_u8 d_type /\ wf_id inode_id /\ wf_id parent_inode_id
  | OpSetattr ino inode_id => is_u64 ino /\ wf_id inode_id
  | OpUnlink parent name child is_dir parent_inode_id child_inode_id =>
      is_u64 parent /\ name_ok name /\ is_u64 child /\ wf_id parent_inode_id /\ opt_ok wf_id child_inode_id
  | OpRename src_parent src_name dst_parent dst_name src_ino dst_ino src_is_dir sp dp src_child dst_child =>
      is_u64 src_parent /\ name_ok src_name /\ is_u64 dst_parent /\ name_ok dst_name /\ is_u64 src_ino /\
      opt_ok is_u64 dst_ino /\ wf_id sp /\ wf_id dp /\ opt_ok wf_id src_child /\ opt_ok wf_id dst_child
  | OpWrite ino size chunks inode_id => is_u64 ino /\ is_u64 size /\ zlen chunks < 2 ^ 32 /\ Forall chunk_ok chunks /\ wf_id inode_id
  end.

Lemma put_name_ok w name : name_ok name -> put_name w name = Ok {| w_buf := w_buf w ++ name_image name |}.
Proof.
  intros [_ Hl]. unfold put_name, Writer_bytes16, Writer_bytes, Writer_u16, name_image. pass_guard. cbn. by rewrite app_assoc.
Qed.

Lemma put_opt_ok {A} (put : Writer -> A -> Writer) image w o :
  (forall w a, put w a = {| w_buf := w_buf w ++ image a |}) -> put_opt put w o = {| w_buf := w_buf w ++ opt_image image o |}.
Proof.
  intros Hput. destruct o as [a|]; cbn [put_opt opt_image]; [|done]. rewrite Hput. unfold Writer_u8. cbn [w_buf].
  by rewrite <-app_assoc.
Qed.

Lemma put_chunks_ok chunks w : Forall chunk_ok chunks ->
  put_chunks w chunks = Ok {| w_buf := w_buf w ++ flat_map chunk_image chunks |}.
Proof.
  intros Hc. revert w. induction Hc as [|[[off cid] desc] chunks (_ & _ & _ & Hd) _ IH]; intros w.
  - cbn. rewrite app_nil_r. by destruct w.
  - cbn [put_chunks]. unfold put_desc, Writer_bytes32. pass_guard. cbn [rbind map_err]. rewrite IH.
    unfold Writer_bytes, Writer_u64, Writer_u32. cbn [w_buf flat_map chunk_image]. by rewrite <-!app_assoc.
Qed.

Lemma MutationOp_encode_image op : op_ok op -> MutationOp_encode op = Ok (op_image op).
Proof.
  assert (Hid : forall (w : Writer) (a : bytes), Writer_bytes w a = {| w_buf := w_buf w ++ a |}) by done.
  assert (H64 : forall (w : Writer) (a : Z), Writer_u64 w a = {| w_buf := w_buf w ++ to_le 8 a |}) by done.
  destruct op; cbn [op_ok]; intros Hop; destruct_and?; unfold MutationOp_encode; rewrite ?put_name_ok by done; cbn [rbind];
    rewrite ?put_name_ok by done; cbn [rbind]; rewrite ?put_chunks_ok by done; cbn [rbind];
    rewrite ?(put_opt_ok Writer_bytes (fun id => id)) by done; rewrite ?(put_opt_ok Writer_u64 (to_le 8)) by done;
    unfold Writer_into_bytes, Writer_bytes, Writer_u8, Writer_u32, Writer_u64; cbn [w_buf Writer_new app op_image];
    rewrite ?wrap_small by (split; [apply zlen_nonneg|done]); by rewrite <-?app_assoc.
Qed.

Lemma Reader_bytes16_ok r name l : reader_at r (name_image name ++ l) -> name_ok name ->
  exists r', Reader_bytes16 r = Ok (name, r') /\ reader_at r' l.
Proof.
  intros Hat [_ Hl]. unfold name_image in Hat. rewrite <-app_assoc in Hat. pose proof (zlen_nonneg name).
  assert (is_u16 (zlen name)) by width. unfold Reader_bytes16. read_with Reader_u16_ok. read_with Reader_take_ok. eauto.
Qed.

Lemma get_opt_ok {A} (get : Reader -> result CodecError (A * Reader)) image (P : A -> Prop) r o l :
  (forall r a l, reader_at r (image a ++ l) -> P a -> exists r', get r = Ok (a, r') /\ reader_at r' l) ->
  reader_at r (opt_image image o ++ l) -> opt_ok P o -> exists r', get_opt get r = Ok (o, r') /\ reader_at r' l.
Proof.
  intros Hget Hat Ho. unfold get_opt. destruct o as [a|]; cbn [opt_image opt_ok app] in *.
  - assert (is_u8 1) by done. read_with Reader_u8_ok. cbn [Z.eqb negb]. cbv iota.
    destruct (Hget _ _ _ Hat0 Ho) as (r' & -> & Hr'). cbn [rbind]. eauto.
  - assert (is_u8 0) by done. read_with Reader_u8_ok. eauto.
Qed.

Lemma get_opt_id_ok r o l : reader_at r (opt_image (fun id => id) o ++ l) -> opt_ok wf_id o ->
  exists r', get_opt record_read_id r = Ok (o, r') /\ reader_at r' l.
Proof. apply get_opt_ok. intros. by apply record_read_id_ok. Qed.
Lemma get_opt_u64_ok r o l : reader_at r (opt_image (to_le 8) o ++ l) -> opt_ok is_u64 o ->
  exists r', get_opt Reader_u64 r = Ok (o, r') /\ reader_at r' l.
Proof. apply get_opt_ok. intros. by apply Reader_u64_ok. Qed.

Lemma get_chunks_ok chunks r l :
  reader_at r (flat_map chunk_image chunks ++ l) -> Forall chunk_ok chunks ->
  exists r', get_chunks (length chunks) r = Ok (chunks, r') /\ reader_at r' l.
Proof.
  intros Hat Hc. revert r Hat. induction Hc as [|[[off cid] desc] chunks (Ho & Hcid & _ & Hd) _ IH]; intros r Hat.
  - exists r. done.
  - cbn [flat_map chunk_image] in Hat. rewrite <-!app_assoc in Hat. cbn [length get_chunks].
    unfold Reader_bytes32, Reader_bytes32_capped. pose proof (zlen_nonneg desc). assert (is_u32 (zlen desc)) by width.
    read_with Reader_u64_ok. read_with record_read_id_ok. read_with Reader_u32_ok. pass_guard. cbn [rbind].
    read_with Reader_take_ok. edestruct IH as (r' & -> & Hr'); [eassumption|]. cbn [rbind]. eauto.
Qed.

Lemma Reader_u64_buf r v r' : Reader_u64 r = Ok (v, r') -> r_buf r' = r_buf r.
Proof.
  unfold Reader_u64. destruct (Reader_take r 8) as [[b r1]|] eqn:E; cbn [rbind]; [|done]. intros [= _ <-].
  unfold Reader_take in E. inv_ok E. by simplify_eq/=.
Qed.

Lemma flag_of_bool b : negb (Z.b2z b =? 0) = b.
Proof. by destruct b. Qed.

(** The decoder on a body with any bytes behind it: only a write of too many
    chunks is refused. *)
Definition decodable (op : MutationOp) : bool :=
  match op with OpWrite _ _ chunks _ => zlen chunks <=? 2 ^ 20 | _ => true end.

Lemma MutationOp_decode_image op s :
  op_ok op -> zlen (op_image op ++ s) < 2 ^ 63 ->
  MutationOp_decode (op_image op ++ s) = if decodable op then Ok op else Err Malformed.
Proof.
  intros Hop Hlen. pose proof (Reader_new_at _ Hlen) as Hat. unfold MutationOp_decode. cbv zeta.
  generalize dependent (Reader_new (op_image op ++ s)). intros rd Hat. clear Hlen.
  assert (Hflag : forall b, is_u8 (Z.b2z b)) by by intros [].
  destruct op; cbn [op_ok op_image decodable] in *; destruct_and?; repeat (rewrite <-?app_assoc in Hat; cbn [app] in Hat).
  - assert (is_u8 OP_CREATE) by done. read_with Reader_u8_ok. cbn [Z.eqb OP_CREATE Pos.eqb]. cbv iota.
    read_with Reader_u64_ok. read_with Reader_bytes16_ok. read_with Reader_u64_ok. read_with Reader_u8_ok.
    do 2 read_with record_read_id_ok.
  - assert (is_u8 OP_SETATTR) by done. read_with Reader_u8_ok. cbn [Z.eqb OP_SETATTR OP_CREATE Pos.eqb]. cbv iota.
    read_with Reader_u64_ok. read_with record_read_id_ok.
  - pose proof (Hflag is_dir). assert (is_u8 OP_UNLINK) by done. read_with Reader_u8_ok. cbn [Z.eqb OP_SETATTR OP_CREATE OP_UNLINK Pos.eqb]. cbv iota.
    read_with Reader_u64_ok. read_with Reader_bytes16_ok. read_with Reader_u64_ok. read_with Reader_u8_ok.
    read_with record_read_id_ok. read_with get_opt_id_ok. by rewrite flag_of_bool.
  - pose proof (Hflag src_is_dir). assert (is_u8 OP_RENAME) by done. read_with Reader_u8_ok. cbn [Z.eqb OP_SETATTR OP_CREATE OP_UNLINK OP_RENAME Pos.eqb]. cbv iota.
    read_with Reader_u64_ok. read_with Reader_bytes16_ok. read_with Reader_u64_ok. read_with Reader_bytes16_ok.
    read_with Reader_u64_ok. read_with get_opt_u64_ok. read_with Reader_u8_ok.
    do 2 read_with record_read_id_ok. do 2 read_with get_opt_id_ok. by rewrite flag_of_bool.
  - assert (is_u8 OP_WRITE) by done. read_with Reader_u8_ok. cbn [Z.eqb OP_SETATTR OP_CREATE OP_UNLINK OP_RENAME OP_WRITE Pos.eqb]. cbv iota.
    pose proof (zlen_nonneg chunks). assert (is_u32 (zlen chunks)) by width.
    do 2 read_with Reader_u64_ok. read_with Reader_u32_ok. rewrite Z.leb_antisym. destruct (2 ^ 20 <? zlen chunks); [done|]. cbn [negb].
    replace (Z.to_nat (zlen chunks)) with (length chunks) by (unfold zlen; lia).
    read_with get_chunks_ok. read_with record_read_id_ok.
Qed.

(** The body of an operation on names is small. *)
Lemma wf_id_len id : wf_id id -> zlen id = 32.
Proof. intros [Hl _]. unfold zlen. by rewrite Hl. Qed.
Lemma opt_image_len {A} (image : A -> bytes) (P : A -> Prop) o :
  (forall a, P a -> zlen (image a) <= 32) -> opt_ok P o -> zlen (opt_image image o) <= 33.
Proof. intros Hi Ho. destruct o as [a|]; cbn [opt_image]; rewrite zlen_cons; [|done]. specialize (Hi a Ho). lia. Qed.
Lemma op_image_len op : op_ok op -> match op with OpWrite _ _ _ _ => True | _ => zlen (op_image op) < 2 ^ 20 end.
Proof.
  assert (Hid : forall o, opt_ok wf_id o -> zlen (opt_image (fun id => id) o) <= 33).
  { intros o Ho. apply (opt_image_len _ wf_id); [|done]. intros a Ha. by rewrite wf_id_len. }
  assert (H64 : forall o, opt_ok is_u64 o -> zlen (opt_image (to_le 8) o) <= 33).
  { intros o Ho. apply (opt_image_len _ is_u64); [|done]. intros a _. by rewrite zlen_to_le. }
  destruct op; cbn [op_ok op_image]; unfold name_ok, name_image; intros; destruct_and?; try done;
    rewrite ?zlen_cons, ?zlen_app, ?zlen_cons, ?zlen_to_le, ?zlen_nil;
    repeat match goal with
      | H : wf_id _ |- _ => apply wf_id_len in H
      | H : opt_ok wf_id _ |- _ => apply Hid in H
      | H : opt_ok is_u64 _ |- _ => apply H64 in H
      end; lia.
Qed.

Lemma envelope_ok seq op s :
  0 <= seq < 2 ^ 64 - 1 -> op_ok op -> zlen (op_image op ++ s) < 2 ^ 62 ->
  let b := to_le 8 (seq + 1) ++ op_image op in
  envelope_at seq op = Ok (b, seq + 1) /\
  envelope_seq (b ++ s) = Ok (seq + 1) /\
  decode_envelope (b ++ s) = if decodable op then Ok (seq + 1, op) else Err (StoreDescriptor (OfCodec Malformed)).
Proof.
  intros Hseq Hop Hlen. cbv zeta. split.
  - unfold envelope_at. rewrite (proj2 (checked_add_Some 64 seq 1 (seq + 1))) by (split; [done|width]). cbn [ok_or rbind]. by rewrite MutationOp_encode_image.
  - assert (Hl : zlen ((to_le 8 (seq + 1) ++ op_image op) ++ s) < 2 ^ 63) by (rewrite !zlen_app, zlen_to_le in *; lia).
    pose proof (Reader_new_at _ Hl) as Hat. assert (Hu : is_u64 (seq + 1)) by width.
    rewrite <-app_assoc in *. destruct (Reader_u64_ok _ _ _ Hat Hu) as (r & E & Hr).
    unfold envelope_seq, decode_envelope. rewrite E. cbn [descriptor_error map_err rbind]. split; [done|].
    assert (Hpos : drop (Z.to_nat (r_pos r)) (to_le 8 (seq + 1) ++ op_image op ++ s) = op_image op ++ s).
    { pose proof (Reader_u64_buf _ _ _ E) as Hb. pose proof (ra_rest _ _ Hr) as Hd. rewrite Hb in Hd. exact Hd. }
    rewrite Hpos, MutationOp_decode_image by (done || lia). by destruct (decodable op).
Qed.

(** The log envelope.  Staging an operation takes the next sequence
    number and gives an envelope from which both the number and the operation
    read back, whatever lies behind it in its buffer; only a write of more
    than [2^20] chunks, which is acknowledged, cannot be read back. *)
Theorem envelope_roundtrip seq op s :
  0 <= seq < 2 ^ 64 - 1 -> op_ok op -> zlen (op_image op ++ s) < 2 ^ 62 ->
  exists b, envelope_at seq op = Ok (b, seq + 1) /\
    envelope_seq (b ++ s) = Ok (seq + 1) /\
    decode_envelope (b ++ s) = if decodable op then Ok (seq + 1, op) else Err (StoreDescriptor (OfCodec Malformed)).
Proof. intros. eexists. by apply envelope_ok. Qed.

(** * The selection *)

Lemma collect_log_ok log_seq records :
  match collect_log log_seq records with
  | Ok log => forall s b, (s, b) ∈ log <-> (MutationLog, b) ∈ records /\ envelope_seq b = Ok s /\ log_seq < s
  | Err e => exists b, (MutationLog, b) ∈ records /\ envelope_seq b = Err e
  end.
Proof.
  induction records as [|[tag b0] records IH]; cbn [collect_log].
  { intros s b. rewrite !elem_of_nil. tauto. }
  case_bool_decide as Ht.
  - subst tag. destruct (envelope_seq b0) as [s0|e0] eqn:E0; cbn [rbind]; [|exists b0; split; [by left|done]].
    destruct (collect_log log_seq records) as [log|e]; cbn [rbind].
    + intros s b. rewrite elem_of_cons. destruct (Z.ltb_spec log_seq s0) as [Hlt|Hge].
      * rewrite elem_of_cons, IH. split.
        -- intros [[= -> ->]|(? & ? & ?)]; [auto|tauto].
        -- intros ([[= ->]|?] & Hs & ?); [left; congruence|right; tauto].
      * rewrite IH. split; [tauto|]. intros ([[= ->]|?] & Hs & ?); [|tauto]. rewrite E0 in Hs. injection Hs as ->. lia.
    + destruct IH as (b & ? & ?). exists b. split; [by right|done].
  - destruct (collect_log log_seq records) as [log|e].
    + intros s b. rewrite IH, elem_of_cons. split; [tauto|]. intros ([[= <- _]|?] & ?); [done|tauto].
    + destruct IH as (b & ? & ?). exists b. split; [by right|done].
Qed.

Definition seq_le (x y : Z * bytes) : Prop := fst x <= fst y.
Definition seq_lt (x y : Z * bytes) : Prop := fst x < fst y.

Lemma insert_by_seq_perm x log : insert_by_seq x log ≡ₚ x :: log.
Proof.
  induction log as [|y log IH]; cbn [insert_by_seq]; [done|]. destruct (_ <=? _); [done|]. rewrite IH. apply Permutation_swap.
Qed.
Lemma sort_by_seq_perm log : sort_by_seq log ≡ₚ log.
Proof. induction log as [|x log IH]; cbn [sort_by_seq]; [done|]. by rewrite insert_by_seq_perm, IH. Qed.

Lemma insert_by_seq_sorted x log : StronglySorted seq_le log -> StronglySorted seq_le (insert_by_seq x log).
Proof.
  induction 1 as [|y log Hs IH Hy]; cbn [insert_by_seq]; [by repeat constructor|].
  destruct (Z.leb_spec (fst x) (fst y)) as [Hle|Hlt].
  - constructor; [by constructor|]. constructor; [done|]. eapply list.Forall_impl; [exact Hy|]. unfold seq_le. intros; lia.
  - constructor; [done|]. rewrite insert_by_seq_perm. constructor; [unfold seq_le; lia|done].
Qed.
Lemma sort_by_seq_sorted log : StronglySorted seq_le (sort_by_seq log).
Proof. induction log as [|x log IH]; cbn [sort_by_seq]; [constructor|by apply insert_by_seq_sorted]. Qed.

Lemma repeated_seq_ok log : StronglySorted seq_le log ->
  if repeated_seq log then ~ NoDup (map fst log) else StronglySorted seq_lt log.
Proof.
  induction 1 as [|x log Hs IH Hx]; cbn [repeated_seq]; [constructor|].
  destruct log as [|y log]; [by repeat constructor|]. destruct (Z.eqb_spec (fst x) (fst y)) as [He|Hne]; cbn [orb].
  - intros Hnd. cbn [map] in Hnd. apply list.NoDup_cons in Hnd as [Hnin _]. apply Hnin. rewrite He. by left.
  - destruct (repeated_seq (y :: log)).
    + intros Hnd. apply IH. by apply list.NoDup_cons in Hnd as [_ ?].
    + constructor; [done|]. apply list.Forall_cons in Hx as [Hxy _]. unfold seq_le, seq_lt in *.
      apply StronglySorted_inv in IH as [_ IH]. constructor; [lia|]. eapply list.Forall_impl; [exact IH|]. cbn. intros; lia.
Qed.

(** What recovery replays: the envelopes above the root's sequence number,
    all of them, in increasing order of their numbers; two envelopes that
    carry one number, or one that carries none, make the open fail. *)
Theorem select_log_exact log_seq records :
  match select_log log_seq records with
  | Ok log =>
      StronglySorted seq_lt log /\
      forall s b, (s, b) ∈ log <-> (MutationLog, b) ∈ records /\ envelope_seq b = Ok s /\ log_seq < s
  | Err e =>
      (exists b, (MutationLog, b) ∈ records /\ envelope_seq b = Err e) \/
      (exists log, collect_log log_seq records = Ok log /\ ~ NoDup (map fst log))
  end.
Proof.
  unfold select_log. pose proof (collect_log_ok log_seq records) as Hc.
  destruct (collect_log log_seq records) as [log|e]; cbn [rbind]; [|by left].
  pose proof (repeated_seq_ok _ (sort_by_seq_sorted log)) as Hr. destruct (repeated_seq (sort_by_seq log)).
  - right. exists log. split; [done|]. intros Hnd. apply Hr. by rewrite sort_by_seq_perm.
  - split; [done|]. intros s b. rewrite sort_by_seq_perm. apply Hc.
Qed.

(** A create logged as number 5, read back from a longer buffer. *)
Definition sample_op : MutationOp := OpCreate 1 [97] 2 8 (repeat 7 32) (repeat 9 32).
Lemma envelope_roundtrip_witness :
  op_ok sample_op /\
  exists b, envelope_at 4 sample_op = Ok (b, 4 + 1) /\ envelope_seq (b ++ [0; 0]) = Ok (4 + 1) /\
    decode_envelope (b ++ [0; 0]) = Ok (4 + 1, sample_op).
Proof.
  assert (Hop : op_ok sample_op) by (apply (bool_decide_unpack _); by vm_compute).
  split; [exact Hop|]. exact (envelope_roundtrip 4 sample_op [0; 0] ltac:(lia) Hop ltac:(by vm_compute)).
Defined.
