(* ===== verification/Epoch.v ===== *)
(** Component [store/epoch.rs], the overlay, and the epoch operations of
    [store/mod.rs]: namespace and data mutations that are acknowledged once
    their log envelope is appended, and whose effect on the trees is left to
    the next checkpoint.

    An operation is its part under the epoch mutex: it reads the committed
    store (a provider and the committed root) through the overlay, and gives
    the new epoch and the records to append.  The time stamps are readings of
    the clock, in the order of the code.  The lock-free count of pending
    operations and the tracing are left out. *)
From stdpp Require Import gmap sorting.
From Stdlib Require String.
From S2P Require Import Prelude Codec Repr Version SegRecord Inode Superblock Descriptor Context Candidate Keys BTree StoreError RootObj ExtentTree Directory Transaction Namespace Mutation.
Import String.StringSyntax.

(** * The overlay *)

Record Epoch : Type := {
  ep_seq : Z;
  pending_inodes : gmap Z Inode;
  removed_inodes : gset Z;
  pending_entries : gmap (Z * bytes) DirEntry;
  removed_entries : gset (Z * bytes);
  pending_extents : gmap (Z * Z) bytes;
  pending_chunks : gmap bytes bytes;
  staged_objects : gset bytes;
  staged_payloads : gmap bytes bytes;
  feature_persisted : bool;
  max_ino : Z
}.

(** [#[derive(Default)]] *)
Definition Epoch_default : Epoch :=
  {| ep_seq := 0; pending_inodes := ∅; removed_inodes := ∅; pending_entries := ∅; removed_entries := ∅;
     pending_extents := ∅; pending_chunks := ∅; staged_objects := ∅; staged_payloads := ∅;
     feature_persisted := false; max_ino := 0 |}.

Definition Epoch_is_empty (ep : Epoch) : bool :=
  bool_decide (pending_inodes ep = ∅) && bool_decide (removed_inodes ep = ∅) &&
  bool_decide (pending_entries ep = ∅) && bool_decide (removed_entries ep = ∅) &&
  bool_decide (pending_extents ep = ∅) && bool_decide (pending_chunks ep = ∅).

(** Field updates. *)
Definition set_seq (ep : Epoch) (s : Z) : Epoch :=
  {| ep_seq := s; pending_inodes := pending_inodes ep; removed_inodes := removed_inodes ep;
     pending_entries := pending_entries ep; removed_entries := removed_entries ep; pending_extents := pending_extents ep;
     pending_chunks := pending_chunks ep; staged_objects := staged_objects ep; staged_payloads := staged_payloads ep;
     feature_persisted := feature_persisted ep; max_ino := max_ino ep |}.
Definition set_inodes (ep : Epoch) (pending : gmap Z Inode) (removed : gset Z) : Epoch :=
  {| ep_seq := ep_seq ep; pending_inodes := pending; removed_inodes := removed;
     pending_entries := pending_entries ep; removed_entries := removed_entries ep; pending_extents := pending_extents ep;
     pending_chunks := pending_chunks ep; staged_objects := staged_objects ep; staged_payloads := staged_payloads ep;
     feature_persisted := feature_persisted ep; max_ino := max_ino ep |}.
Definition set_entries (ep : Epoch) (pending : gmap (Z * bytes) DirEntry) (removed : gset (Z * bytes)) : Epoch :=
  {| ep_seq := ep_seq ep; pending_inodes := pending_inodes ep; removed_inodes := removed_inodes ep;
     pending_entries := pending; removed_entries := removed; pending_extents := pending_extents ep;
     pending_chunks := pending_chunks ep; staged_objects := staged_objects ep; staged_payloads := staged_payloads ep;
     feature_persisted := feature_persisted ep; max_ino := max_ino ep |}.
Definition set_data (ep : Epoch) (extents : gmap (Z * Z) bytes) (chunks : gmap bytes bytes) : Epoch :=
  {| ep_seq := ep_seq ep; pending_inodes := pending_inodes ep; removed_inodes := removed_inodes ep;
     pending_entries := pending_entries ep; removed_entries := removed_entries ep; pending_extents := extents;
     pending_chunks := chunks; staged_objects := staged_objects ep; staged_payloads := staged_payloads ep;
     feature_persisted := feature_persisted ep; max_ino := max_ino ep |}.
Definition set_staged (ep : Epoch) (objects : gset bytes) (payloads : gmap bytes bytes) : Epoch :=
  {| ep_seq := ep_seq ep; pending_inodes := pending_inodes ep; removed_inodes := removed_inodes ep;
     pending_entries := pending_entries ep; removed_entries := removed_entries ep; pending_extents := pending_extents ep;
     pending_chunks := pending_chunks ep; staged_objects := objects; staged_payloads := payloads;
     feature_persisted := feature_persisted ep; max_ino := max_ino ep |}.
Definition set_max_ino (ep : Epoch) (ino : Z) : Epoch :=
  {| ep_seq := ep_seq ep; pending_inodes := pending_inodes ep; removed_inodes := removed_inodes ep;
     pending_entries := pending_entries ep; removed_entries := removed_entries ep; pending_extents := pending_extents ep;
     pending_chunks := pending_chunks ep; staged_objects := staged_objects ep; staged_payloads := staged_payloads ep;
     feature_persisted := feature_persisted ep; max_ino := ino |}.

Definition pend_inode (ep : Epoch) (ino : Z) (i : Inode) : Epoch := set_inodes ep (<[ino := i]> (pending_inodes ep)) (removed_inodes ep).
Definition drop_inode (ep : Epoch) (ino : Z) : Epoch := set_inodes ep (pending_inodes ep) ({[ino]} ∪ removed_inodes ep).
Definition pend_entry (ep : Epoch) (dir : Z) (name : bytes) (e : DirEntry) : Epoch :=
  set_entries ep (<[(dir, name) := e]> (pending_entries ep)) (removed_entries ep).
Definition drop_entry (ep : Epoch) (dir : Z) (name : bytes) : Epoch :=
  set_entries ep (pending_entries ep) ({[(dir, name)]} ∪ removed_entries ep).

Definition mark_staged (ep : Epoch) (id : ChunkId) : Epoch := set_staged ep ({[id]} ∪ staged_objects ep) (staged_payloads ep).
Definition is_staged (ep : Epoch) (id : ChunkId) : bool := bool_decide (id ∈ staged_objects ep).

Definition overlay_inode (ep : Epoch) (ino : Z) (committed : option Inode) : option Inode :=
  if bool_decide (ino ∈ removed_inodes ep) then None
  else match pending_inodes ep !! ino with
  | Some i => Some i
  | None => committed
  end.

Definition overlay_entry (ep : Epoch) (parent : Z) (name : bytes) : option DirEntry :=
  if bool_decide ((parent, name) ∈ removed_entries ep) then None else pending_entries ep !! (parent, name).

Definition overlay_chunk (ep : Epoch) (cid : ChunkId) : option bytes := pending_chunks ep !! cid.
Definition overlay_extent (ep : Epoch) (ino off : Z) : option bytes := pending_extents ep !! (ino, off).

(** [Epoch::envelope] *)
Definition Epoch_envelope (ep : Epoch) (op : MutationOp) : outcome (bytes * Epoch) :=
  let! '(b, seq) := of_trap_codec (envelope_at (ep_seq ep) op) in
  Ok (b, set_seq ep seq).

Definition with_size (i : Inode) (size : Z) : Inode :=
  {| i_mode := i_mode i; i_uid := i_uid i; i_gid := i_gid i; i_size := size; i_atime := i_atime i;
     i_ctime := i_ctime i; i_mtime := i_mtime i; i_crtime := i_crtime i; i_nlink := i_nlink i; i_rdev := i_rdev i;
     i_flags := i_flags i; i_xattr_root := i_xattr_root i; i_data_kind := i_data_kind i; i_data := i_data i |}.

(** A sorted map iterated: its bindings in key order. *)
Definition name_leb (a b : bytes) : bool := match cmp_key a b with Gt => false | _ => true end.
Definition name_le {A} (x y : bytes * A) : Prop := name_leb (fst x) (fst y) = true.
#[global] Instance name_le_dec {A} : RelDecision (@name_le A).
Proof. intros x y. unfold name_le. apply _. Defined.
Definition in_order {A} (m : gmap bytes A) : list (bytes * A) := merge_sort name_le (map_to_list m).

(** One directory: the committed entries, the pending ones over them, then
    the removed names out of them. *)
Definition merge_entries (ep : Epoch) (dir : Z) (committed : list (bytes * DirEntry)) : gmap bytes DirEntry :=
  let merged := fold_left (fun m '(name, e) => <[name := e]> m) committed ∅ in
  let merged := fold_left (fun m '((p, name), e) => if p =? dir then <[name := e]> m else m)
                  (map_to_list (pending_entries ep)) merged in
  fold_left (fun m '(p, name) => if p =? dir then delete name m else m) (elements (removed_entries ep)) merged.

(** [usize::MAX] *)
Definition USIZE_MAX : Z := 2 ^ 64 - 1.

Section Ops.
Context (content_id : bytes -> ChunkId) (limits : Limits) (now : nat -> Timespec) (read_only : bool).
(** The committed store: its objects as a provider, and its root. *)
Context (x : Tx StoreError) (root : Root).
#[local] Abbreviation fanout := (max_fanout limits).

Definition ensure_writable : outcome unit := if read_only then Err (Error StoreReadOnly) else Ok tt.

(** * Reads through the overlay *)

Definition get_inode_epoch (ep : Epoch) (ino : Z) : outcome (option Inode) :=
  let! committed := get_inode limits x root ino in
  Ok (overlay_inode ep ino committed).

(** The tree of the committed directory: none for one the epoch made. *)
Definition committed_dir_root (dir_ino : Z) : outcome ChunkId :=
  let! o := get_inode limits x root dir_ino in
  match o with
  | Some i => dir_root_of "not a directory" i
  | None => Ok ChunkId_ZERO
  end.

Definition dir_lookup_epoch (ep : Epoch) (dir_ino : Z) (name : bytes) : outcome (option DirEntry) :=
  match overlay_entry ep dir_ino name with
  | Some e => Ok (Some e)
  | None =>
      if bool_decide ((dir_ino, name) ∈ removed_entries ep) then Ok None
      else
        let! dir_root := committed_dir_root dir_ino in
        if ChunkId_is_zero dir_root then Ok None
        else of_tree (dir_lookup BTREE_ORDER fanout x dir_root name)
  end.

Definition chunk_descriptor_epoch (ep : Epoch) (cid : ChunkId) : outcome (option bytes) :=
  match overlay_chunk ep cid with
  | Some b => Ok (Some b)
  | None => chunk_descriptor limits x root cid
  end.

Definition read_dir_epoch (ep : Epoch) (dir_ino : Z) : outcome (list (bytes * DirEntry)) :=
  let! dir_root := committed_dir_root dir_ino in
  let! committed :=
    (if ChunkId_is_zero dir_root then Ok []
     else let! '(l, _) := of_tree (dir_scan BTREE_ORDER fanout x dir_root None USIZE_MAX) in Ok l) in
  Ok (in_order (merge_entries ep dir_ino committed)).

(** * Staging *)

(** Object records staged for an operation: those whose object is neither
    staged by the epoch nor in the object index. *)
Definition epoch_stage (ep : Epoch) (records : list PendingRecord) (tag : RecordTag) (payload : bytes)
    (materialized_len : option Z) : ChunkId * Epoch * list PendingRecord :=
  let id := content_id payload in
  if is_staged ep id || tx_indexed x id then (id, ep, records)
  else
    let ep := mark_staged ep id in
    let ep := set_staged ep (staged_objects ep) (<[id := payload]> (staged_payloads ep)) in
    (id, ep, records ++ [{| pr_tag := tag; pr_payload := payload; pr_materialized_len := materialized_len |}]).

Definition stage_inode (ep : Epoch) (records : list PendingRecord) (i : Inode) : outcome (ChunkId * Epoch * list PendingRecord) :=
  let! b := of_trap_codec (Inode_encode i) in
  Ok (epoch_stage ep records InodeTag b None).

(** The envelope of the operation, behind its objects. *)
Definition log_op (ep : Epoch) (records : list PendingRecord) (op : MutationOp) : outcome (Epoch * list PendingRecord) :=
  let! '(env, ep) := Epoch_envelope ep op in
  Ok (ep, records ++ [{| pr_tag := MutationLog; pr_payload := env; pr_materialized_len := None |}]).

(** [ok_or_else(..)?] on an inode that may be missing. *)
Definition present_inode (ep : Epoch) (ino : Z) (msg : String.string) : outcome Inode :=
  let! o := get_inode_epoch ep ino in
  ok_or o (Error (StoreInvariant msg)).

(** * Operations *)

(** The inode number: the committed maximum plus one at the first allocation
    of the epoch, the cached maximum plus one after it. *)
Definition epoch_alloc (ep : Epoch) : outcome (Z * Epoch) :=
  if max_ino ep =? 0 then
    let! inodes := all_inodes limits x root in
    let committed := match inodes with [] => 1 | i :: is_ => fold_left Z.max is_ i end in
    let ino := saturating_add 64 committed 1 in
    Ok (ino, set_max_ino ep ino)
  else
    let ino := saturating_add 64 (max_ino ep) 1 in
    Ok (ino, set_max_ino ep ino).

(** Behind the guards: the number, the objects, the overlay, the envelope. *)
Definition epoch_create_apply (ep : Epoch) (parent : Z) (parent_inode : Inode) (name : bytes) (entry : NewEntry)
    : outcome (Z * Epoch * list PendingRecord) :=
  let! '(ino, ep) := epoch_alloc ep in
  let inode := entry_inode (now 0) entry in
  let d_type := entry_d_type (ne_kind entry) in
  let! '(inode_id, ep, records) := stage_inode ep [] inode in
  let pin := with_mtime parent_inode (now 1) in
  let pin := if is_directory (ne_kind entry) then nlink_inc pin else pin in
  let! '(parent_inode_id, ep, records) := stage_inode ep records pin in
  let ep := pend_inode ep ino inode in
  let ep := pend_inode ep parent pin in
  let ep := pend_entry ep parent name {| de_ino := ino; de_d_type := d_type |} in
  let! '(ep, records) := log_op ep records (OpCreate parent name ino d_type inode_id parent_inode_id) in
  Ok (ino, ep, records).

Definition epoch_create (ep : Epoch) (parent : Z) (name : bytes) (entry : NewEntry) : outcome (Z * Epoch * list PendingRecord) :=
  let! _ := ensure_writable in
  let! _ := name_guard name in
  let! parent_inode := present_inode ep parent "parent missing" in
  let! _ := dir_root_of "parent not a directory" parent_inode in
  let! existing := dir_lookup_epoch ep parent name in
  fail_if bool_decide (is_Some existing) with Error (StoreInvariant "entry already exists") ;;
  epoch_create_apply ep parent parent_inode name entry.

(** An update without a size: one with a size closes the epoch and takes the
    transactional path. *)
Definition update_meta (i : Inode) (u : AttrUpdate) (ctime : Timespec) : Inode :=
  {| i_mode := match au_mode u with Some m => Z.lor (Z.land (i_mode i) S_IFMT) (Z.land m S_IPERM) | None => i_mode i end;
     i_uid := from_option (fun v => v) (i_uid i) (au_uid u);
     i_gid := from_option (fun v => v) (i_gid i) (au_gid u);
     i_size := i_size i;
     i_atime := from_option (fun v => v) (i_atime i) (au_atime u);
     i_ctime := ctime;
     i_mtime := from_option (fun v => v) (i_mtime i) (au_mtime u);
     i_crtime := i_crtime i; i_nlink := i_nlink i; i_rdev := i_rdev i; i_flags := i_flags i;
     i_xattr_root := i_xattr_root i; i_data_kind := i_data_kind i; i_data := i_data i |}.

Definition epoch_setattr (ep : Epoch) (ino : Z) (update : AttrUpdate) : outcome (Inode * Epoch * list PendingRecord) :=
  let! _ := ensure_writable in
  let! inode := present_inode ep ino "inode missing" in
  let inode := update_meta inode update (now 0) in
  let! '(inode_id, ep, records) := stage_inode ep [] inode in
  let! '(ep, records) := log_op ep records (OpSetattr ino inode_id) in
  Ok (inode, pend_inode ep ino inode, records).

(** The guards of a removal. *)
Definition epoch_unlink_guard (ep : Epoch) (is_dir_ : bool) (ino : Z) (target : Inode) : outcome unit :=
  if is_dir_ then
    fail_if negb (is_dir target) with Error (StoreInvariant "not a directory") ;;
    let! entries := read_dir_epoch ep ino in
    fail_if negb (bool_decide (entries = [])) with Error (StoreInvariant "directory not empty") ;;
    Ok tt
  else
    fail_if is_dir target with Error (StoreInvariant "is a directory") ;;
    Ok tt.

(** What becomes of the removed entry's inode. *)
Definition epoch_drop_child (ep : Epoch) (records : list PendingRecord) (is_dir_ : bool) (ino : Z) (target : Inode)
    : outcome (option ChunkId * Epoch * list PendingRecord) :=
  if is_dir_ then Ok (None, drop_inode ep ino, records)
  else
    let t := nlink_dec target in
    if i_nlink t =? 0 then Ok (None, drop_inode ep ino, records)
    else
      let! '(id, ep, records) := stage_inode ep records t in
      Ok (Some id, pend_inode ep ino t, records).

(** Behind the guards: the objects, the overlay, the envelope. *)
Definition epoch_unlink_apply (ep : Epoch) (parent : Z) (pin : Inode) (name : bytes) (is_dir_ : bool) (ino : Z) (target : Inode)
    : outcome (Z * Epoch * list PendingRecord) :=
  let! '(parent_inode_id, ep, records) := stage_inode ep [] pin in
  let! '(child_inode_id, ep, records) := epoch_drop_child ep records is_dir_ ino target in
  let ep := pend_inode ep parent pin in
  let ep := drop_entry ep parent name in
  let! '(ep, records) := log_op ep records (OpUnlink parent name ino is_dir_ parent_inode_id child_inode_id) in
  Ok (ino, ep, records).

Definition epoch_unlink (ep : Epoch) (parent : Z) (name : bytes) (is_dir_ : bool) : outcome (Z * Epoch * list PendingRecord) :=
  let! _ := ensure_writable in
  let! _ := name_guard name in
  let! found := dir_lookup_epoch ep parent name in
  let! entry := ok_or found (Error (StoreInvariant "no such entry")) in
  let! target := present_inode ep (de_ino entry) "target inode missing" in
  let! _ := epoch_unlink_guard ep is_dir_ (de_ino entry) target in
  let! pin := present_inode ep parent "parent missing" in
  let pin := with_mtime pin (now 0) in
  let pin := if is_dir target then nlink_dec pin else pin in
  epoch_unlink_apply ep parent pin name is_dir_ (de_ino entry) target.

(** The replaced destination of a rename: the type rules, then its inode is
    dropped or loses a link. *)
Definition epoch_replace_dst (ep : Epoch) (src_is_dir : bool) (dst_ino : Z) : outcome (bool * Epoch) :=
  let! dst_inode := present_inode ep dst_ino "dst inode missing" in
  let dst_is_dir := is_dir dst_inode in
  fail_if src_is_dir && negb dst_is_dir with Error (StoreInvariant "cannot rename dir over file") ;;
  fail_if negb src_is_dir && dst_is_dir with Error (StoreInvariant "cannot rename file over dir") ;;
  let! full :=
    (if src_is_dir && dst_is_dir then
       let! entries := read_dir_epoch ep dst_ino in Ok (negb (bool_decide (entries = [])))
     else Ok false) in
  fail_if full with Error (StoreInvariant "directory not empty") ;;
  if dst_is_dir then Ok (dst_is_dir, drop_inode ep dst_ino)
  else
    let t := nlink_dec dst_inode in
    if i_nlink t =? 0 then Ok (dst_is_dir, drop_inode ep dst_ino) else Ok (dst_is_dir, pend_inode ep dst_ino t).

(** The moves of the overlay: entries and parents. *)
Definition epoch_move (ep : Epoch) (src_parent : Z) (src_name : bytes) (dst_parent : Z) (dst_name : bytes) (entry : DirEntry)
    (nsp ndp : Inode) : Epoch :=
  let same := src_parent =? dst_parent in
  let ep := if negb same then drop_entry ep src_parent src_name else ep in
  let ep := pend_entry ep dst_parent dst_name entry in
  let ep := if negb same then pend_inode (pend_inode ep src_parent nsp) dst_parent ndp else pend_inode ep src_parent nsp in
  if same then drop_entry ep src_parent src_name else ep.

(** A rename to another name. *)
Definition epoch_rename_move (ep : Epoch) (src_parent : Z) (src_name : bytes) (dst_parent : Z) (dst_name : bytes)
    : outcome (RenameOutcome * Epoch * list PendingRecord) :=
  let! found := dir_lookup_epoch ep src_parent src_name in
  let! src_entry := ok_or found (Error (StoreInvariant "no such entry")) in
  let! src_inode := present_inode ep (de_ino src_entry) "src inode missing" in
  let src_is_dir := is_dir src_inode in
  let! sp := present_inode ep src_parent "src parent missing" in
  let! dp := present_inode ep dst_parent "dst parent missing" in
  let! _ := dir_root_of "dst parent not a directory" dp in
  let! dst := dir_lookup_epoch ep dst_parent dst_name in
  let! '(replaced, replaced_is_dir, ep) :=
    match dst with
    | Some dst_entry =>
        if de_ino dst_entry =? de_ino src_entry then Ok (None, false, ep)
        else let! '(d, ep) := epoch_replace_dst ep src_is_dir (de_ino dst_entry) in Ok (Some (de_ino dst_entry), d, ep)
    | None => Ok (None, false, ep)
    end in
  let! '(src_child_inode_id, ep, records) := stage_inode ep [] src_inode in
  let nsp := with_mtime sp (now 0) in
  let ndp := with_mtime dp (now 1) in
  let across := negb (src_parent =? dst_parent) && src_is_dir in
  let nsp := if across then nlink_dec nsp else nsp in
  let ndp := if across then nlink_inc ndp else ndp in
  let ndp := if replaced_is_dir then nlink_dec ndp else ndp in
  let! '(sp_inode_id, ep, records) := stage_inode ep records nsp in
  let! '(dp_inode_id, ep, records) := stage_inode ep records ndp in
  let ep := epoch_move ep src_parent src_name dst_parent dst_name src_entry nsp ndp in
  let! '(ep, records) := log_op ep records
    (OpRename src_parent src_name dst_parent dst_name (de_ino src_entry) replaced src_is_dir sp_inode_id dp_inode_id
      (Some src_child_inode_id) None) in
  Ok ({| src_ino := de_ino src_entry; replaced_dst_ino := replaced |}, ep, records).

(** A name renamed onto itself stays; nothing is logged. *)
Definition epoch_rename (ep : Epoch) (src_parent : Z) (src_name : bytes) (dst_parent : Z) (dst_name : bytes)
    : outcome (RenameOutcome * Epoch * list PendingRecord) :=
  let! _ := ensure_writable in
  let! _ := name_guard src_name in
  let! _ := name_guard dst_name in
  if (src_parent =? dst_parent) && bool_decide (src_name = dst_name) then
    let! found := dir_lookup_epoch ep src_parent src_name in
    let! entry := ok_or found (Error (StoreInvariant "no such entry")) in
    Ok ({| src_ino := de_ino entry; replaced_dst_ino := None |}, ep, [])
  else epoch_rename_move ep src_parent src_name dst_parent dst_name.

(** * Writes: the chunks come prepared *)

Record ExtentUpdate : Type := {
  eu_offset : Z;
  eu_descriptor : Representation;
  eu_content_id : ChunkId;
  eu_objects : list ObjectRecord
}.

Definition self_aliasing (u : ExtentUpdate) : bool :=
  match eu_descriptor u with ExactRef target _ _ => bool_decide (target = eu_content_id u) | _ => false end.

Fixpoint stage_objects (ep : Epoch) (records : list PendingRecord) (len : Z) (objects : list ObjectRecord)
    : Epoch * list PendingRecord :=
  match objects with
  | [] => (ep, records)
  | o :: objects' =>
      let '(tag, ml) := match o_kind o with Candidate.Data => (Version.Data, Some len) | Candidate.Model => (Version.Model, None) end in
      let '(_, ep, records) := epoch_stage ep records tag (o_payload o) ml in
      stage_objects ep records len objects'
  end.

(** One update: its objects, its extent, and its chunk unless the descriptor
    names its own content. *)
Definition stage_update (ino : Z) (ep : Epoch) (records : list PendingRecord) (u : ExtentUpdate)
    : outcome (Z * ChunkId * bytes * Epoch * list PendingRecord) :=
  let! desc_bytes := of_codec (Descriptor.encode (eu_descriptor u)) in
  let '(ep, records) := stage_objects ep records (Representation_len (eu_descriptor u)) (eu_objects u) in
  let extents := <[(ino, eu_offset u) := desc_bytes]> (pending_extents ep) in
  let chunks :=
    if self_aliasing u then pending_chunks ep
    else match pending_chunks ep !! eu_content_id u with
    | Some _ => pending_chunks ep
    | None => <[eu_content_id u := desc_bytes]> (pending_chunks ep)
    end in
  Ok (eu_offset u, eu_content_id u, desc_bytes, set_data ep extents chunks, records).

Fixpoint stage_updates (ino : Z) (ep : Epoch) (records : list PendingRecord) (updates : list ExtentUpdate)
    : outcome (list (Z * ChunkId * bytes) * Epoch * list PendingRecord) :=
  match updates with
  | [] => Ok ([], ep, records)
  | u :: updates' =>
      let! '(off, cid, desc, ep, records) := stage_update ino ep records u in
      let! '(chunks, ep, records) := stage_updates ino ep records updates' in
      Ok ((off, cid, desc) :: chunks, ep, records)
  end.

(** The second half of [epoch_write_semantic]: the file grows to [end_] at
    least, [old_size] being its size when the chunks were prepared. *)
Definition epoch_write_stage (ep : Epoch) (ino old_size end_ : Z) (updates : list ExtentUpdate)
    : outcome (Epoch * list PendingRecord) :=
  let new_size := Z.max old_size end_ in
  let! inode := present_inode ep ino "inode missing" in
  let new_size := Z.max (i_size inode) new_size in
  let! '(chunks, ep, records) := stage_updates ino ep [] updates in
  let fin := with_size inode new_size in
  let! '(inode_id, ep, records) := stage_inode ep records fin in
  let ep := pend_inode ep ino fin in
  log_op ep records (OpWrite ino new_size chunks inode_id).
End Ops.
