(* ===== verification/Checkpoint.v ===== *)
(** The checkpoint and the replay of the mutation log in [store/mod.rs]
    ([epoch_checkpoint], [replay_op], [epoch_replay]): how the overlay of an
    epoch, or the log of an epoch that a crash cut short, becomes the trees of
    a root.

    Both are bodies over a transaction.  A checkpoint works on the frozen
    epoch and is followed by [overlay_remove] on the live one, once its commit
    has succeeded. *)
From stdpp Require Import gmap sorting.
From Stdlib Require String.
From S2P Require Import Prelude Codec Repr Version SegRecord Inode Superblock Descriptor Context Candidate Keys BTree StoreError RootObj ExtentTree Directory Transaction Namespace Mutation Epoch.
Import String.StringSyntax.

(** Sorted sets and maps iterated. *)
Definition sorted_inos (s : gset Z) : list Z := merge_sort Z.le (elements s).
Definition key_le {A} (x y : Z * A) : Prop := fst x <= fst y.
#[global] Instance key_le_dec {A} : RelDecision (@key_le A).
Proof. intros x y. unfold key_le. apply _. Defined.
Definition by_number {A} (l : list (Z * A)) : list (Z * A) := merge_sort key_le l.

Definition affected_dirs (ep : Epoch) : gset Z :=
  list_to_set (map (fun '((parent, _), _) => parent) (map_to_list (pending_entries ep))) ∪
  list_to_set (map fst (elements (removed_entries ep))).
Definition affected_files (ep : Epoch) : gset Z :=
  list_to_set (map (fun '((ino, _), _) => ino) (map_to_list (pending_extents ep))).

(** The pending extents of one file, in offset order. *)
Definition extents_of (ep : Epoch) (ino : Z) : list (Z * bytes) :=
  by_number (omap (fun '((f, off), b) => if f =? ino then Some (off, b) else None) (map_to_list (pending_extents ep))).

(** [Result::ok] *)
Definition ok_opt {A} (m : outcome A) : option A := match m with Ok a => Some a | Err _ => None end.

(** Every update of the data of an inode in the final map: the pending inode,
    else the committed one, else the panic of the [expect]. *)
Definition set_final (final : gmap Z Inode) (committed : option Inode) (ino : Z) (d : InodeData) : outcome (gmap Z Inode) :=
  let! i := ok_or (match final !! ino with Some i => Some i | None => committed end) Panic in
  Ok (<[ino := with_data i d]> final).

Section Ops.
Context (content_id : bytes -> ChunkId) (limits : Limits).
#[local] Abbreviation fanout := (max_fanout limits).

(** ** The merge *)

(** The new tree of one directory. *)
Definition build_dir (ep : Epoch) (t : Txn) (final : gmap Z Inode) (parent : Z) : outcome (Txn * gmap Z Inode) :=
  let committed_parent := ok_opt (inode_for_tx limits t parent) in
  let dir_root := match committed_parent with
    | Some i => match i_data i with IDirectory dir_root => dir_root | _ => ChunkId_ZERO end
    | None => ChunkId_ZERO
    end in
  let! committed :=
    (if ChunkId_is_zero dir_root then Ok []
     else let! '(l, _) := of_tree (dir_scan BTREE_ORDER fanout (txn_tx t) dir_root None USIZE_MAX) in Ok l) in
  let entries := map (fun '(n, e) => (n, DirEntry_encode e)) (in_order (merge_entries ep parent committed)) in
  let! '(new_dir_root, x) := of_tree (bulk_load content_id BTREE_ORDER fanout (txn_tx t) entries) in
  let! final := set_final final committed_parent parent (IDirectory new_dir_root) in
  Ok (set_tx t x, final).

(** The new tree of one file. *)
Definition build_file (ep : Epoch) (t : Txn) (final : gmap Z Inode) (ino : Z) : outcome (Txn * gmap Z Inode) :=
  let committed_file := ok_opt (inode_for_tx limits t ino) in
  let extent_root := match committed_file with
    | Some i => match i_data i with IFile extent_root => extent_root | _ => ChunkId_ZERO end
    | None => ChunkId_ZERO
    end in
  let batch := map (fun '(off, b) => (to_be 8 off, Some b)) (extents_of ep ino) in
  let! '(new_extent_root, x) := of_tree (apply_sorted_batch content_id BTREE_ORDER fanout (txn_tx t) extent_root batch) in
  let! final := set_final final committed_file ino (IFile new_extent_root) in
  Ok (set_tx t x, final).

Fixpoint build_all (build : Txn -> gmap Z Inode -> Z -> outcome (Txn * gmap Z Inode)) (t : Txn) (final : gmap Z Inode)
    (inos : list Z) : outcome (Txn * gmap Z Inode) :=
  match inos with
  | [] => Ok (t, final)
  | ino :: inos' =>
      let! '(t, final) := build t final ino in
      build_all build t final inos'
  end.

(** An inode whose tree was not rebuilt takes the tree of the committed
    inode. *)
Definition committed_root_of (ep : Epoch) (t : Txn) (ino : Z) (fin : Inode) : Inode :=
  let rebuilt := match i_data fin with
    | IFile _ => bool_decide (ino ∈ affected_files ep)
    | IDirectory _ => bool_decide (ino ∈ affected_dirs ep)
    | _ => true
    end in
  if rebuilt then fin
  else match ok_opt (inode_for_tx limits t ino) with
  | Some cur =>
      match i_data fin, i_data cur with
      | IFile _, IFile committed_root => with_data fin (IFile committed_root)
      | IDirectory _, IDirectory committed_root => with_data fin (IDirectory committed_root)
      | _, _ => fin
      end
  | None => fin
  end.

(** The inode objects, in inode order, and the batch of the inode index. *)
Fixpoint stage_inodes (removed : gset Z) (t : Txn) (batch : gmap bytes (option bytes)) (final : list (Z * Inode))
    : outcome (Txn * gmap bytes (option bytes)) :=
  match final with
  | [] => Ok (t, batch)
  | (ino, inode) :: final' =>
      if bool_decide (ino ∈ removed) then stage_inodes removed t batch final'
      else
        let! b := of_trap_codec (Inode_encode inode) in
        let '(id, t) := put_object content_id t InodeTag b None in
        stage_inodes removed t (<[to_be 8 ino := Some id]> batch) final'
  end.
Definition removed_batch (removed : gset Z) : gmap bytes (option bytes) :=
  list_to_map (map (fun ino => (to_be 8 ino, None)) (elements removed)).

(** Steps 1 to 3.5: the final inodes over their new trees. *)
Definition build_trees (ep : Epoch) (t : Txn) : outcome (Txn * gmap Z Inode) :=
  let final := pending_inodes ep in
  let! '(t, final) := build_all (build_dir ep) t final (sorted_inos (affected_dirs ep)) in
  let! '(t, final) := build_all (build_file ep) t final (sorted_inos (affected_files ep)) in
  Ok (t, map_imap (fun ino fin => Some (committed_root_of ep t ino fin)) final).

(** Steps 5 to 7: the batches of the two indexes, and the log sequence. *)
Definition apply_indexes (ep : Epoch) (t : Txn) (inode_batch : list BatchOp) : outcome Txn :=
  let committed_root := txn_root t in
  let chunk_batch := map (fun '(cid, desc) => (cid, Some desc)) (in_order (pending_chunks ep)) in
  let! '(chunk_root, x) :=
    of_tree (apply_sorted_batch content_id BTREE_ORDER fanout (txn_tx t) (chunk_index_root committed_root) chunk_batch) in
  let t := set_root (set_tx t x) (with_chunk_index (txn_root t) chunk_root) in
  let! '(inode_root, x) :=
    of_tree (apply_sorted_batch content_id BTREE_ORDER fanout (txn_tx t) (inode_index_root committed_root) inode_batch) in
  let t := set_root (set_tx t x) (with_inode_index (txn_root t) inode_root) in
  Ok (set_root t (with_log_seq (txn_root t) (Z.max (ep_seq ep) (log_seq (txn_root t))))).

(** Steps 1 to 7 of [epoch_checkpoint], on the frozen epoch and a fresh
    transaction. *)
Definition checkpoint_merge (ep : Epoch) (t : Txn) : outcome Txn :=
  let! '(t, final) := build_trees ep t in
  let! '(t, batch) := stage_inodes (removed_inodes ep) t (removed_batch (removed_inodes ep)) (by_number (map_to_list final)) in
  apply_indexes ep t (in_order batch).
End Ops.

(** ** After the commit *)

(** The bindings of [m] that are not those of [frozen]. *)
Definition compare_and_remove {K} `{Countable K} {A} `{EqDecision A} (m frozen : gmap K A) : gmap K A :=
  base.filter (fun '(k, a) => frozen !! k <> Some a) m.

(** Step 8: exactly the bindings that were merged leave the live epoch. *)
Definition overlay_remove (ep frozen : Epoch) : Epoch :=
  {| ep_seq := ep_seq ep;
     pending_inodes := compare_and_remove (pending_inodes ep) (pending_inodes frozen);
     removed_inodes := removed_inodes ep ∖ removed_inodes frozen;
     pending_entries := compare_and_remove (pending_entries ep) (pending_entries frozen);
     removed_entries := removed_entries ep ∖ removed_entries frozen;
     pending_extents := compare_and_remove (pending_extents ep) (pending_extents frozen);
     pending_chunks := compare_and_remove (pending_chunks ep) (pending_chunks frozen);
     staged_objects := ∅;
     staged_payloads := ∅;
     feature_persisted := feature_persisted ep;
     max_ino := max_ino ep |}.

(** * Replay *)

Section Replay.
Context (content_id : bytes -> ChunkId) (limits : Limits) (now : nat -> Timespec).
#[local] Abbreviation fanout := (max_fanout limits).

(** [fetch_inode] *)
Definition fetch_inode (t : Txn) (id : ChunkId) : outcome Inode :=
  let! o := safe (fetch_pending_or_store (txn_tx t) id) in
  let! b := ok_or o (Error (StoreInvariant "replay: staged inode object missing")) in
  of_codec (Inode_decode b).

Definition replay_create (t : Txn) (parent : Z) (name : bytes) (ino d_type : Z) (inode_id parent_inode_id : ChunkId) : outcome Txn :=
  let! inode := fetch_inode t inode_id in
  let! t := put_inode_in_tx content_id limits t ino inode in
  let! pmeta := fetch_inode t parent_inode_id in
  let! pin_cur := inode_for_tx limits t parent in
  let! dir_root := dir_root_of "parent not a directory" pin_cur in
  let! '(new_root, t) := tx_dir_insert content_id limits t dir_root name {| de_ino := ino; de_d_type := d_type |} in
  put_inode_in_tx content_id limits t parent (with_data pmeta (IDirectory new_root)).

(** The attributes of the staged inode on the current one. *)
Definition apply_attributes (cur staged : Inode) : Inode :=
  {| i_mode := i_mode staged; i_uid := i_uid staged; i_gid := i_gid staged; i_size := i_size staged;
     i_atime := i_atime staged; i_ctime := i_ctime staged; i_mtime := i_mtime staged;
     i_crtime := i_crtime cur; i_nlink := i_nlink cur; i_rdev := i_rdev cur; i_flags := i_flags cur;
     i_xattr_root := i_xattr_root cur; i_data_kind := i_data_kind cur; i_data := i_data cur |}.

Definition replay_setattr (t : Txn) (ino : Z) (inode_id : ChunkId) : outcome Txn :=
  let! staged := fetch_inode t inode_id in
  let! cur := inode_for_tx limits t ino in
  put_inode_in_tx content_id limits t ino (apply_attributes cur staged).

(** The staged inode with the data of the current one. *)
Definition replay_child (t : Txn) (ino : Z) (id : option ChunkId) : outcome Txn :=
  match id with
  | Some id =>
      let! child := fetch_inode t id in
      let! cur := inode_for_tx limits t ino in
      put_inode_in_tx content_id limits t ino (with_data child (i_data cur))
  | None => remove_inode_in_tx content_id limits t ino
  end.

Definition replay_unlink (t : Txn) (parent : Z) (name : bytes) (child : Z) (parent_inode_id : ChunkId)
    (child_inode_id : option ChunkId) : outcome Txn :=
  let! pmeta := fetch_inode t parent_inode_id in
  let! pin_cur := inode_for_tx limits t parent in
  let! dir_root := dir_root_of "parent not a directory" pin_cur in
  let! '(new_root, t) := tx_dir_remove content_id limits t dir_root name in
  let! t := put_inode_in_tx content_id limits t parent (with_data pmeta (IDirectory new_root)) in
  replay_child t child child_inode_id.

Definition replay_replaced (t : Txn) (src_ino : Z) (dst_ino : option Z) (src_is_dir : bool) : outcome Txn :=
  match dst_ino with
  | Some dst_ino =>
      if dst_ino =? src_ino then Ok t
      else if src_is_dir then remove_inode_in_tx content_id limits t dst_ino
      else
        let! i := inode_for_tx limits t dst_ino in
        let i := nlink_dec i in
        if i_nlink i =? 0 then remove_inode_in_tx content_id limits t dst_ino
        else put_inode_in_tx content_id limits t dst_ino i
  | None => Ok t
  end.

Definition replay_rename (t : Txn) (src_parent : Z) (src_name : bytes) (dst_parent : Z) (dst_name : bytes) (src_ino : Z)
    (dst_ino : option Z) (src_is_dir : bool) (sp_inode_id dp_inode_id : ChunkId) (src_child : option ChunkId) : outcome Txn :=
  let! spmeta := fetch_inode t sp_inode_id in
  let! dpmeta := fetch_inode t dp_inode_id in
  let! sp := inode_for_tx limits t src_parent in
  let! src_root := dir_root_of "src parent not a dir" sp in
  let! found := tx_lookup limits t src_root src_name in
  let! entry := ok_or found (Error (StoreInvariant "replay: src entry missing")) in
  let replaced := bool_decide (is_Some dst_ino) in
  let! t :=
    (if src_parent =? dst_parent then
       let! '(root, t) := move_within content_id limits t src_root src_name dst_name entry replaced in
       put_inode_in_tx content_id limits t src_parent (with_data spmeta (IDirectory root))
     else
       let! dp := inode_for_tx limits t dst_parent in
       let! dst_root := dir_root_of "dst parent not a dir" dp in
       let! '(dst_root, t) := (if replaced then tx_dir_remove content_id limits t dst_root dst_name else Ok (dst_root, t)) in
       let! '(dst_root, t) := tx_dir_insert content_id limits t dst_root dst_name entry in
       let! '(src_root, t) := tx_dir_remove content_id limits t src_root src_name in
       let! t := put_inode_in_tx content_id limits t src_parent (with_data spmeta (IDirectory src_root)) in
       put_inode_in_tx content_id limits t dst_parent (with_data dpmeta (IDirectory dst_root))) in
  let! t := replay_child t src_ino src_child in
  replay_replaced t src_ino dst_ino src_is_dir.

(** The extents of a write; the clock is read once for each. *)
Fixpoint replay_chunks (k : nat) (t : Txn) (ino : Z) (chunks : list (Z * ChunkId * bytes)) : outcome Txn :=
  match chunks with
  | [] => Ok t
  | (off, cid, desc_bytes) :: chunks' =>
      let! rep := of_codec (Descriptor.decode limits desc_bytes) in
      let! t := put_chunk_in_tx content_id limits t cid rep in
      let! t := put_extent_in_tx content_id limits t (now k) ino off rep in
      replay_chunks (S k) t ino chunks'
  end.

Definition replay_write (t : Txn) (ino : Z) (chunks : list (Z * ChunkId * bytes)) (inode_id : ChunkId) : outcome Txn :=
  let! t := replay_chunks 0 t ino chunks in
  let! fin := fetch_inode t inode_id in
  let! cur := inode_for_tx limits t ino in
  put_inode_in_tx content_id limits t ino (with_ctime (with_size cur (i_size fin)) (i_ctime fin)).

Definition replay_op (t : Txn) (op : MutationOp) : outcome Txn :=
  match op with
  | OpCreate parent name ino d_type inode_id parent_inode_id => replay_create t parent name ino d_type inode_id parent_inode_id
  | OpSetattr ino inode_id => replay_setattr t ino inode_id
  | OpUnlink parent name child _ parent_inode_id child_inode_id => replay_unlink t parent name child parent_inode_id child_inode_id
  | OpRename src_parent src_name dst_parent dst_name src_ino dst_ino src_is_dir sp dp src_child _ =>
      replay_rename t src_parent src_name dst_parent dst_name src_ino dst_ino src_is_dir sp dp src_child
  | OpWrite ino _ chunks inode_id => replay_write t ino chunks inode_id
  end.

Fixpoint replay_ops (t : Txn) (log : list (Z * bytes)) : outcome Txn :=
  match log with
  | [] => Ok t
  | (_, env) :: log' =>
      let! '(_, op) := safe (decode_envelope env) in
      let! t := replay_op t op in
      replay_ops t log'
  end.

(** [epoch_replay] between the scan of the segments and the commit; [None]
    when there is nothing to replay. *)
Definition replay_log (t : Txn) (records : list (RecordTag * bytes)) : outcome (option Txn) :=
  let! log := safe (select_log (log_seq (txn_root t)) records) in
  match last log with
  | None => Ok None
  | Some (s, _) =>
      let! t := replay_ops t log in
      Ok (Some (set_root t (with_log_seq (txn_root t) s)))
  end.
End Replay.
