(* ===== verification/FileRead.v ===== *)
(** The read path of [store/mod.rs]: collecting the extents of a window, level
    by level, enumerating and prefetching what their descriptors need, and
    materializing them, inline, in runs of worker threads, or by the worker
    pool of [store/workers.rs]; the file reads of the committed store and of
    an epoch on top of it, and the [PrefetchContext] of [store/epoch.rs].

    The committed store is a provider and a root.  A batched fetch is the
    single fetches in order.  Left out are the read-cost sample and the other
    counters; the numbers formatted into messages; and how a slot of the pool
    is filled, as its results are taken by ordinal. *)
From stdpp Require Import gmap.
From Stdlib Require String.
From S2P Require Import Prelude Codec Repr Version SegRecord Inode Superblock Descriptor Context Streams Materialize Keys BTree StoreError RootObj ExtentTree Directory Transaction Namespace Mutation Epoch Checkpoint.
Import String.StringSyntax.

(** [expect("32-byte child id")] *)
Definition child_id_value (value : bytes) : outcome ChunkId := ok_or (ChunkId_from_bytes value) Panic.

(** [expect("8-byte extent key")] *)
Definition extent_start (key : bytes) : outcome Z := ok_or (if (length key =? 8)%nat then Some (from_be key) else None) Panic.

Definition key_below (a b : bytes) : bool := match cmp_key a b with Lt => true | _ => false end.

(** * The batched extent scan *)

(** The entries of a leaf whose keys lie in the window. *)
Fixpoint leaf_window (start_key end_key : bytes) (entries : list Entry) : outcome (list (Z * bytes)) :=
  match entries with
  | [] => Ok []
  | e :: entries' =>
      if key_below (e_key e) start_key then leaf_window start_key end_key entries'
      else if negb (key_below (e_key e) end_key) then Ok []
      else
        let! start := extent_start (e_key e) in
        let! out := leaf_window start_key end_key entries' in
        Ok ((start, e_value e) :: out)
  end.

(** The children behind separators: all whose range meets the window. *)
Fixpoint window_children (start_key end_key : bytes) (entries : list Entry) : outcome (list ChunkId) :=
  match entries with
  | [] => Ok []
  | e :: entries' =>
      if negb (key_below (e_key e) end_key) then Ok []
      else
        let child_below_start := match entries' with n :: _ => negb (key_below start_key (e_key n)) | [] => false end in
        if child_below_start then window_children start_key end_key entries'
        else
          let! c := child_id_value (e_value e) in
          let! next := window_children start_key end_key entries' in
          Ok (c :: next)
  end.

Definition first_in_window (start_key : bytes) (entries : list Entry) : bool :=
  match entries with e :: _ => key_below start_key (e_key e) | [] => true end.

(** * What a decode needs *)

Record Deps : Type := {
  rd_deps : list ChunkId;
  rd_seen_objects : gset (list Z);
  rd_seen_nested : gset (list Z);
  rd_descriptors : gmap (list Z) bytes
}.
Definition Deps_empty : Deps := {| rd_deps := []; rd_seen_objects := ∅; rd_seen_nested := ∅; rd_descriptors := ∅ |}.

Definition add_dep (d : Deps) (oid : ChunkId) : Deps :=
  if bool_decide (oid ∈ rd_seen_objects d) then d
  else {| rd_deps := rd_deps d ++ [oid]; rd_seen_objects := {[oid]} ∪ rd_seen_objects d;
          rd_seen_nested := rd_seen_nested d; rd_descriptors := rd_descriptors d |}.

(** The chunks that a descriptor refers to. *)
Definition nested_chunks (desc : Representation) : list ChunkId :=
  let present id := if ChunkId_is_zero id then [] else [id] in
  match desc with
  | ExactRef target _ _ => [target]
  | BaseResidual base _ _ _ => [base]
  | SequenceDict dictionary _ _ _ _ _ _ _ _ _ _ _ _ => present dictionary
  | SequenceSharedDict dictionary _ shared _ _ _ _ _ _ _ _ _ _ _ _ => present dictionary ++ [shared]
  | _ => []
  end.

Definition see_nested (d : Deps) (id : ChunkId) : Deps :=
  {| rd_deps := rd_deps d; rd_seen_objects := rd_seen_objects d; rd_seen_nested := {[id]} ∪ rd_seen_nested d;
     rd_descriptors := rd_descriptors d |}.
Definition add_descriptor (d : Deps) (id : ChunkId) (b : bytes) : Deps :=
  {| rd_deps := rd_deps d; rd_seen_objects := rd_seen_objects d; rd_seen_nested := rd_seen_nested d;
     rd_descriptors := <[id := b]> (rd_descriptors d) |}.

(** [PreparedRead], without its read-cost sample. *)
Record PreparedRead : Type := {
  pd_starts : list Z;
  pd_descs : list Representation;
  pd_objects : gmap (list Z) bytes;
  pd_descriptors : gmap (list Z) bytes;
  pd_offset : Z;
  pd_end : Z;
  pd_avail : Z
}.

(** * The window *)

(** [materialize], with its errors as the store's. *)
Definition of_materialize {A} (m : Context.outcome A) : outcome A :=
  map_err (trap_map (fun e => StoreDescriptor (OfMaterialized e))) m.

(** The copy of one materialized extent's part of the window. *)
Definition assemble_extent_window (out : bytes) (start : Z) (chunk : bytes) (offset end_ avail : Z) : outcome bytes :=
  let extent_end := Z.min (saturating_add 64 start (zlen chunk)) end_ in
  let copy_start := Z.max start offset in
  if extent_end <=? copy_start then Ok out
  else
    let s := copy_start - start in
    let c := extent_end - copy_start in
    let o := copy_start - offset in
    fail_if avail <? o with Panic ;;
    let c := Z.min c (avail - o) in
    let! src := get_slice chunk s (s + c) in
    copy_from_slice out o (o + c) src.

(** The runs of a parallel decode: thread [w] of [workers] takes the
    extents from [lo] to [hi]. *)
Definition worker_run (workers n w : Z) : option (Z * Z) :=
  let lo := w * n / workers in
  let hi := Z.min (Z.max ((w + 1) * n / workers) (lo + 1)) n in
  if hi <=? lo then None else Some (lo, hi).
Definition worker_runs (workers n : Z) : list (Z * Z) := omap (worker_run workers n) (seqZ 0 workers).

(** The join of a thread. *)
Definition join_run {A} (m : outcome A) : outcome A :=
  match m with Err Panic => invariant "read decode thread panicked" | m => m end.

Definition u64_le (a b : Z * Z) : bool := (fst a <? fst b) || ((fst a =? fst b) && (snd a <=? snd b)).

(** [range(..=key).next_back()] *)
Definition last_at_most {V} (m : gmap (Z * Z) V) (key : Z * Z) : option (Z * Z * V) :=
  fold_left (fun best e => if u64_le (fst e) key then
      match best with Some b => if u64_le (fst e) (fst b) then best else Some e | None => Some e end
    else best) (map_to_list m) None.

Section Read.
Context (limits : Limits).
#[local] Abbreviation fanout := (max_fanout limits).

(** ** The prefetching resolver *)

Definition decode_descriptor (b : bytes) : result MaterializeError Representation :=
  map_err (fun e => InvalidDescriptor (Context.OfCodec e)) (Descriptor.decode limits b).

Definition PrefetchContext (base : DecoderContext) (objects : gmap (list Z) bytes)
    (descriptors : option (gmap (list Z) bytes)) (ep : option Epoch) : DecoderContext :=
  {| fetch_object id :=
       match objects !! id with
       | Some b => Ok b
       | None =>
           match ep ≫= (fun e => staged_payloads e !! id) with
           | Some b => Ok b
           | None => @fetch_object base id
           end
       end;
     fetch_descriptor id :=
       match descriptors ≫= (fun d => d !! id) with
       | Some b => decode_descriptor b
       | None =>
           match ep ≫= (fun e => overlay_chunk e id) with
           | Some b => decode_descriptor b
           | None => @fetch_descriptor base id
           end
       end;
     decode_rans := @decode_rans base;
     universe_bytes := @universe_bytes base |}.

(** ** Decoding a window *)

Definition materialize_into_window (ctx : DecoderContext) (desc : Representation) (start offset end_ : Z) (out : bytes)
    : outcome bytes :=
  let extent_end := Z.min (saturating_add 64 start (Representation_len desc)) end_ in
  let copy_start := Z.max start offset in
  if extent_end <=? copy_start then Ok out
  else
    let! '(chunk, _) := of_materialize (@materialize ctx limits desc 0 (max_decode_work limits) (Prelude.vec 0 (Representation_len desc))) in
    let s := copy_start - start in
    let c := extent_end - copy_start in
    let o := copy_start - offset in
    fail_if zlen out <? o with Panic ;;
    let c := Z.min c (zlen out - o) in
    let! src := get_slice chunk s (s + c) in
    copy_from_slice out o (o + c) src.

(** One extent, materialized whole: the work of a thread of a run, and of
    [WorkerTask::DecodeExtent]. *)
Definition decode_extent (ctx : DecoderContext) (start : Z) (desc : Representation) : outcome (Z * bytes) :=
  let! '(chunk, _) := of_materialize (@materialize ctx limits desc 0 (max_decode_work limits) (Prelude.vec 0 (Representation_len desc))) in
  Ok (start, chunk).

Fixpoint decode_inline (ctx : DecoderContext) (extents : list (Z * Representation)) (offset end_ : Z) (out : bytes) : outcome bytes :=
  match extents with
  | [] => Ok out
  | (start, desc) :: extents' =>
      let! out := materialize_into_window ctx desc start offset end_ out in
      decode_inline ctx extents' offset end_ out
  end.

Fixpoint decode_all (ctx : DecoderContext) (extents : list (Z * Representation)) : outcome (list (Z * bytes)) :=
  match extents with
  | [] => Ok []
  | (start, desc) :: extents' =>
      let! c := decode_extent ctx start desc in
      let! mine := decode_all ctx extents' in
      Ok (c :: mine)
  end.

Fixpoint assemble_all (chunks : list (Z * bytes)) (offset end_ avail : Z) (out : bytes) : outcome bytes :=
  match chunks with
  | [] => Ok out
  | (start, chunk) :: chunks' =>
      let! out := assemble_extent_window out start chunk offset end_ avail in
      assemble_all chunks' offset end_ avail out
  end.

Fixpoint assemble_runs (runs : list (outcome (list (Z * bytes)))) (offset end_ avail : Z) (out : bytes) : outcome bytes :=
  match runs with
  | [] => Ok out
  | run :: runs' =>
      let! chunks := run in
      let! out := assemble_all chunks offset end_ avail out in
      assemble_runs runs' offset end_ avail out
  end.

(** The results of the pool, by ordinal: one that is not a decoded extent is
    [unreachable!]. *)
Fixpoint assemble_pool (results : list (outcome (Z * bytes))) (offset end_ avail : Z) (out : bytes) : outcome bytes :=
  match results with
  | [] => Ok out
  | Ok (start, chunk) :: results' =>
      let! out := assemble_extent_window out start chunk offset end_ avail in
      assemble_pool results' offset end_ avail out
  | Err _ :: _ => Err Panic
  end.

(** [worker_pool] is the probe switch; [granted] is what the semaphore has, of
    which a grant is at most one worker per extent. *)
Definition decode_prepared (base : DecoderContext) (worker_pool : bool) (granted : Z) (p : PreparedRead) : outcome bytes :=
  let out := Prelude.vec 0 (pd_avail p) in
  let ctx := PrefetchContext base (pd_objects p) (Some (pd_descriptors p)) None in
  let extents := zip (pd_starts p) (pd_descs p) in
  let n := zlen (pd_descs p) in
  let workers := Z.min n granted in
  if n =? 0 then Ok out
  else if n =? 1 then decode_inline ctx extents (pd_offset p) (pd_end p) out
  else if worker_pool then
    assemble_pool (map (fun '(start, desc) => decode_extent ctx start desc) extents) (pd_offset p) (pd_end p) (pd_avail p) out
  else if workers <=? 1 then decode_inline ctx extents (pd_offset p) (pd_end p) out
  else
    let runs := map (fun '(lo, hi) => join_run (decode_all ctx (slice (Z.to_nat lo) (Z.to_nat (hi - lo)) extents)))
                  (worker_runs workers n) in
    assemble_runs runs (pd_offset p) (pd_end p) (pd_avail p) out.

(** ** The committed store *)

Section Store.
Context (x : Tx StoreError) (root : Root).

Definition fetch_objects_many (ids : list ChunkId) : list (result StoreError (option bytes)) := map (tx_fetch x) ids.

(** One node of the frontier: the children to visit next, the extents. *)
Definition scan_node (start_key end_key : bytes) (r : result StoreError (option bytes)) : outcome (list ChunkId * list (Z * bytes)) :=
  match r with
  | Ok (Some b) =>
      match Node_decode b BTREE_ORDER fanout with
      | Ok (Leaf entries) => let! out := leaf_window start_key end_key entries in Ok ([], out)
      | Ok (Internal first_child entries) =>
          let! next := window_children start_key end_key entries in
          Ok ((if first_in_window start_key entries then [first_child] else []) ++ next, [])
      | Err e => Err (Error (StoreIndex (OfCodec e)))
      end
  | Ok None => invariant "extent tree node missing (batched scan)"
  | Err e => Err (Error e)
  end.

Fixpoint scan_level (start_key end_key : bytes) (results : list (result StoreError (option bytes)))
    : outcome (list ChunkId * list (Z * bytes)) :=
  match results with
  | [] => Ok ([], [])
  | r :: results' =>
      let! '(next, out) := scan_node start_key end_key r in
      let! '(next', out') := scan_level start_key end_key results' in
      Ok (next ++ next', out ++ out')
  end.

(** [while !frontier.is_empty()]; [None] when the fuel is gone. *)
Fixpoint scan_loop (fuel : nat) (start_key end_key : bytes) (frontier : list ChunkId) (out : list (Z * bytes))
    : option (outcome (list (Z * bytes))) :=
  match frontier with
  | [] => Some (Ok out)
  | _ =>
      match fuel with
      | O => None
      | S fuel =>
          match scan_level start_key end_key (fetch_objects_many frontier) with
          | Ok (next, more) => scan_loop fuel start_key end_key next (out ++ more)
          | Err e => Some (Err e)
          end
      end
  end.

Definition scan_extents_batched (fuel : nat) (extent_root : ChunkId) (start_offset end_offset : Z)
    : option (outcome (list (Z * bytes))) :=
  if ChunkId_is_zero extent_root || (end_offset <=? start_offset) then Some (Ok [])
  else scan_loop fuel (extent_key start_offset) (extent_key end_offset) [extent_root] [].

(** The descriptor bytes of a nested chunk: the overlay first. *)
Definition nested_descriptor (ep : option Epoch) (id : ChunkId) : outcome (option bytes) :=
  match ep ≫= (fun e => overlay_chunk e id) with
  | Some b => Ok (Some b)
  | None => chunk_descriptor limits x root id
  end.

(** [levels] is what is left below [max_reference_depth]. *)
Fixpoint collect_read_deps (levels : nat) (ep : option Epoch) (desc : Representation) (d : Deps) : outcome Deps :=
  let d := fold_left add_dep (descriptor_objects desc) d in
  match levels with
  | O => Ok d
  | S levels =>
      (fix each (ids : list ChunkId) (d : Deps) : outcome Deps :=
         match ids with
         | [] => Ok d
         | id :: ids =>
             if bool_decide (id ∈ rd_seen_nested d) then each ids d
             else
               let d := see_nested d id in
               let! o := nested_descriptor ep id in
               match o with
               | None => each ids d
               | Some b =>
                   let d := add_descriptor d id b in
                   match Descriptor.decode limits b with
                   | Ok desc' => let! d := collect_read_deps levels ep desc' d in each ids d
                   | Err _ => each ids d
                   end
               end
         end) (nested_chunks desc) d
  end.

Fixpoint prepare_descs (ep : option Epoch) (extents : list (Z * bytes)) (d : Deps) : outcome (list Representation * Deps) :=
  match extents with
  | [] => Ok ([], d)
  | (_, b) :: extents' =>
      let! desc := of_codec (Descriptor.decode limits b) in
      let! d := collect_read_deps (Z.to_nat (max_reference_depth limits)) ep desc d in
      let! '(descs, d) := prepare_descs ep extents' d in
      Ok (desc :: descs, d)
  end.

(** The batched fetch, with the payloads that an epoch has staged behind it. *)
Fixpoint fetched_objects (ep : option Epoch) (deps : list (ChunkId * result StoreError (option bytes))) (m : gmap (list Z) bytes)
    : outcome (gmap (list Z) bytes) :=
  match deps with
  | [] => Ok m
  | (id, r) :: deps' =>
      match r with
      | Ok (Some b) => fetched_objects ep deps' (<[id := b]> m)
      | Ok None =>
          fetched_objects ep deps' (match ep ≫= (fun e => staged_payloads e !! id) with Some b => <[id := b]> m | None => m end)
      | Err e => Err (Error e)
      end
  end.

Definition materialize_prepare (ep : option Epoch) (extents : list (Z * bytes)) (offset end_ avail : Z) : outcome PreparedRead :=
  let! '(descs, d) := prepare_descs ep extents Deps_empty in
  let! objects := fetched_objects ep (zip (rd_deps d) (fetch_objects_many (rd_deps d))) ∅ in
  Ok {| pd_starts := map fst extents; pd_descs := descs; pd_objects := objects; pd_descriptors := rd_descriptors d;
        pd_offset := offset; pd_end := end_; pd_avail := avail |}.

Definition materialize_range_batched (base : DecoderContext) (worker_pool : bool) (granted : Z) (ep : option Epoch)
    (extents : list (Z * bytes)) (offset end_ avail : Z) : outcome bytes :=
  let! p := materialize_prepare ep extents offset end_ avail in
  decode_prepared base worker_pool granted p.

(** [impl DecoderContext for Store].  A lookup in the chunk index never
    panics on nodes that decode. *)
Definition Store_context (rans : bytes -> bytes -> Z -> RansCodec -> Z -> result MaterializeError bytes)
    (universe : UniverseId -> bytes -> Z -> Z -> Z -> result MaterializeError bytes) : DecoderContext :=
  {| fetch_object id :=
       match tx_fetch x id with
       | Ok (Some b) => Ok b
       | Ok None => Err (Context.MissingObject id)
       | Err e => Err (Universe (Msg (tx_text x e)))
       end;
     fetch_descriptor := Store_fetch_descriptor limits (fun id =>
       match chunk_descriptor limits x root id with
       | Ok o => Ok o
       | Err (Error e) => Err (tx_text x e)
       | Err Panic => Err String.EmptyString
       end);
     decode_rans := rans;
     universe_bytes := universe |}.

(** [match covering(..)? { Some((start, _)) => start, None => offset }] *)
Definition window_start (extent_root : ChunkId) (offset : Z) : outcome Z :=
  let! o := of_tree (covering BTREE_ORDER fanout x extent_root offset) in
  Ok (match o with Some (start, _) => start | None => offset end).

Definition read_file (base : DecoderContext) (worker_pool : bool) (granted : Z) (fuel : nat) (ino offset len : Z)
    : option (outcome bytes) :=
  match
    (let! o := get_inode limits x root ino in
     let! inode := ok_or o (Error (StoreInvariant "inode missing")) in
     fail_if negb (is_file inode) with Error (StoreInvariant "not a regular file") ;;
     let avail := Z.min (Z.max (i_size inode - offset) 0) len in
     let! extent_root := match i_data inode with IFile extent_root => Ok extent_root | _ => Err Panic end in
     let! scan_start := window_start extent_root offset in
     Ok (extent_root, scan_start, avail))
  with
  | Err e => Some (Err e)
  | Ok (extent_root, scan_start, avail) =>
      let end_ := saturating_add 64 offset avail in
      scanned ← scan_extents_batched fuel extent_root scan_start end_;
      Some (let! extents := scanned in
            materialize_range_batched base worker_pool granted None extents offset end_ avail)
  end.

(** ** The epoch over it *)

(** The window of an overlay read, from the inode's size on: where the scan
    starts, and where the read ends; [None] for an empty window. *)
Definition epoch_window (ep : Epoch) (ino offset len : Z) : outcome (option (ChunkId * Z * Z)) :=
  let! inode := present_inode limits x root ep ino "inode missing" in
  fail_if negb (is_file inode) with Error (StoreInvariant "not a regular file") ;;
  let! committed := get_inode limits x root ino in
  let extent_root := match committed with
    | Some i => match i_data i with IFile extent_root => extent_root | _ => ChunkId_ZERO end
    | None => ChunkId_ZERO
    end in
  let end_ := Z.min (saturating_add 64 offset len) (i_size inode) in
  if end_ <=? offset then Ok None
  else
    let! scan_start := (if ChunkId_is_zero extent_root then Ok offset else window_start extent_root offset) in
    let! scan_start :=
      match last_at_most (pending_extents ep) (ino, offset) with
      | Some ((_, poff), b) =>
          match Descriptor.decode limits b with
          | Ok d =>
              let! pend := ok_or (checked_add 64 poff (Representation_len d)) Panic in
              Ok (if offset <? pend then Z.min scan_start poff else scan_start)
          | Err _ => Ok scan_start
          end
      | None => Ok scan_start
      end in
    Ok (Some (extent_root, scan_start, end_)).

(** The pending extents of the window over the scanned ones, by offset. *)
Definition overlay_extents (ep : Epoch) (ino scan_start end_ : Z) (scanned : list (Z * bytes)) : list (Z * bytes) :=
  let extents := fold_left (fun m '(off, b) => <[off := b]> m) scanned (∅ : gmap Z bytes) in
  let extents := fold_left (fun m '((f, off), b) => if (f =? ino) && (scan_start <=? off) && (off <? end_) then <[off := b]> m else m)
                   (map_to_list (pending_extents ep)) extents in
  by_number (map_to_list extents).

Definition read_file_epoch_prepare (fuel : nat) (ep : Epoch) (ino offset len : Z) : option (outcome (option PreparedRead)) :=
  match epoch_window ep ino offset len with
  | Err e => Some (Err e)
  | Ok None => Some (Ok None)
  | Ok (Some (extent_root, scan_start, end_)) =>
      scanned ← (if ChunkId_is_zero extent_root then Some (Ok []) else scan_extents_batched fuel extent_root scan_start end_);
      Some (let! scanned := scanned in
            let! p := materialize_prepare (Some ep) (overlay_extents ep ino scan_start end_ scanned) offset end_ (end_ - offset) in
            Ok (Some p))
  end.

Definition read_file_epoch (base : DecoderContext) (worker_pool : bool) (granted : Z) (fuel : nat) (ep : Epoch) (ino offset len : Z)
    : option (outcome bytes) :=
  prepared ← read_file_epoch_prepare fuel ep ino offset len;
  Some (let! o := prepared in
        match o with
        | None => Ok []
        | Some p => decode_prepared base worker_pool granted p
        end).
End Store.
End Read.
