(* ===== verification/FileWrite.v ===== *)
(** The write path of [store/mod.rs]: composing the chunks of a write over what
    the file holds, the gate in front of a commit, the transaction that puts
    the extents of a file, truncation and attribute updates; with the depth
    walks of [optimizer/rebase.rs] and the resolver of [optimizer/search.rs]
    that they use.

    The committed store is a provider and a root, as in FileRead; [read] stands
    for [Store::read_file] over it where a definition does no more than call
    it.  The clock is a parameter, one reading per call in the order of the
    code.  Left out are the guided search between composing and committing, the
    advisory semantic context, the locks and the counters. *)
From stdpp Require Import gmap.
From Stdlib Require String.
From S2P Require Import Prelude Codec Repr Version SegRecord Inode Superblock Descriptor Context Streams Materialize Candidate Encoders Keys BTree StoreError RootObj ExtentTree Directory Transaction Namespace Mutation Epoch Checkpoint FileRead.
Import String.StringSyntax.

(** The view of a batch that is not committed yet. *)
Record PendingBatch : Type := {
  pb_descriptors : gmap (list Z) bytes;
  pb_objects : gmap (list Z) bytes;
  pb_depths : gmap (list Z) Z
}.
Definition PendingBatch_default : PendingBatch := {| pb_descriptors := ∅; pb_objects := ∅; pb_depths := ∅ |}.

(** One chunk of a write, ready for the search. *)
Record Composed : Type := {
  cm_off : Z;
  cm_bytes : bytes;
  cm_cid : ChunkId;
  cm_prev_version : option BaseChunk;
  cm_dictionary : option BaseChunk;
  cm_synthetic : option PendingBatch
}.

(** [HashMap::from_iter] over the objects of a candidate. *)
Definition object_map (objects : list ObjectRecord) : gmap (list Z) bytes :=
  fold_left (fun m o => <[o_id o := o_payload o]> m) objects ∅.

(** The references that a depth walk follows. *)
Definition chain_nexts (desc : Representation) : list ChunkId :=
  match desc with
  | ExactRef target _ _ => [target]
  | BaseResidual base _ _ _ => [base]
  | SequenceDict dictionary _ _ _ _ _ _ _ _ _ _ _ _ => [dictionary]
  | SequenceSharedDict dictionary _ shared _ _ _ _ _ _ _ _ _ _ _ _ =>
      (if ChunkId_is_zero dictionary then [] else [dictionary]) ++ [shared]
  | _ => []
  end.

Definition MAX_CHAIN_WALK : Z := 64.
Definition REBASE_DEPTH_THRESHOLD : Z := 2.

(** [Result::ok] followed by [flatten]: an error is absence, a panic is not. *)
Definition ok_flat {A} (m : outcome (option A)) : outcome (option A) :=
  match m with Err (Error _) => Ok None | m => m end.

(** [sort_by_key], stable, on the offsets of a batch. *)
Fixpoint insert_by_offset (w : Z * bytes) (l : list (Z * bytes)) : list (Z * bytes) :=
  match l with
  | [] => [w]
  | v :: l' => if fst w <=? fst v then w :: l else v :: insert_by_offset w l'
  end.
Definition sort_by_offset (l : list (Z * bytes)) : list (Z * bytes) := foldr insert_by_offset [] l.

Definition div_ceil (a b : Z) : Z := (a + b - 1) / b.

Section Write.
Context {hash : ContentHash} (limits : Limits) (now : nat -> Timespec).
#[local] Abbreviation fanout := (max_fanout limits).
#[local] Abbreviation content_id := (@ChunkId_of hash).

(** * The gate in front of a commit *)

(** A candidate's own objects, then the batch, then the store. *)
Definition CandidateResolver (store : DecoderContext) (objects : gmap (list Z) bytes) (pending : option PendingBatch)
    : DecoderContext :=
  {| fetch_object id :=
       match objects !! id with
       | Some b => Ok b
       | None =>
           match pending ≫= (fun p => pb_objects p !! id) with
           | Some b => Ok b
           | None => @fetch_object store id
           end
       end;
     fetch_descriptor id :=
       match pending ≫= (fun p => pb_descriptors p !! id) with
       | Some b => decode_descriptor limits b
       | None => @fetch_descriptor store id
       end;
     decode_rans := @decode_rans store;
     universe_bytes := @universe_bytes store |}.

Definition validate_update_pending (store : DecoderContext) (u : ExtentUpdate) (pending : option PendingBatch) : outcome unit :=
  let resolver := CandidateResolver store (object_map (eu_objects u)) pending in
  let! b := of_materialize (@materialize_to_vec resolver limits (eu_descriptor u)) in
  fail_if bool_decide (content_id b <> eu_content_id u) with Error (StoreInvariant "update does not materialize to its content id") ;;
  Ok tt.
Definition validate_update (store : DecoderContext) (u : ExtentUpdate) : outcome unit := validate_update_pending store u None.

(** [coded] are the encoders behind an entropy coder: SPARSE-BLOCK64, RANS and
    SEQUENCE. *)
Definition encode_chunk (policy : Policy) (coded : list (CandidateContext -> bytes -> outcome (list Candidate)))
    (chunk : bytes) (offset : Z) (cid : ChunkId) : outcome ExtentUpdate :=
  let ctx := {| cc_limits := limits; cc_policy := policy; cc_content_id := cid; cc_bases := []; cc_dedup := None |} in
  let! z := zero_candidate chunk cid limits in
  let! f := fill_candidate chunk cid in
  let encoders := [SparseEncoder_encode; PaletteEncoder_encode; PeriodicEncoder_encode] ++ coded in
  let! cands := foldr (fun (enc : CandidateContext -> bytes -> outcome (list Candidate)) (rest : list Candidate -> outcome (list Candidate)) acc =>
      let! more := enc ctx chunk in rest (acc ++ more)) Ok encoders (option_list z ++ option_list f) in
  let! r := raw_candidate chunk cid limits in
  let! best := ok_or (pick_cheapest (cands ++ option_list r) policy) (Error (StoreInvariant "no candidate for chunk")) in
  Ok {| eu_offset := offset; eu_descriptor := representation best; eu_content_id := cid; eu_objects := objects best |}.

(** * The store *)

Section Store.
Context (x : Tx StoreError) (root : Root).

(** ** Depth of a reference chain *)

(** The stack of the walk, popped from its end: [levels] is what is left below
    the cap, the map holds the deepest depth each node was explored from. *)
Fixpoint walk_depth (levels : nat) (id : ChunkId) (d : Z) (visited : gmap (list Z) Z) (max_depth : Z)
    : outcome (gmap (list Z) Z * Z) :=
  match levels with
  | O => Ok (visited, max_depth)
  | S levels =>
      if (match visited !! id with Some vd => d <=? vd | None => false end) then Ok (visited, max_depth)
      else
        let visited := <[id := d]> visited in
        let! o := ok_flat (chunk_descriptor limits x root id) in
        match o with
        | None => Ok (visited, max_depth)
        | Some b =>
            match Descriptor.decode limits b with
            | Err _ => Ok (visited, max_depth)
            | Ok next_desc =>
                let nexts := chain_nexts next_desc in
                let max_depth := if bool_decide (nexts = []) then max_depth else Z.max max_depth (saturating_add 8 d 1) in
                (fix each (ids : list ChunkId) (visited : gmap (list Z) Z) (max_depth : Z) :=
                   match ids with
                   | [] => Ok (visited, max_depth)
                   | n :: ids =>
                       let! '(visited, max_depth) := walk_depth levels n (saturating_add 8 d 1) visited max_depth in
                       each ids visited max_depth
                   end) (rev nexts) visited max_depth
            end
        end
  end.

Definition walk (cap : Z) (id : ChunkId) : outcome Z :=
  let! '(_, max_depth) := walk_depth (Z.to_nat cap) id 0 ∅ 0 in Ok max_depth.

(** The depth of a descriptor from the depths of its references. *)
Definition depth_over (resolve : ChunkId -> outcome Z) (desc : Representation) : outcome Z :=
  match desc with
  | ExactRef id _ _ | BaseResidual id _ _ _ | SequenceDict id _ _ _ _ _ _ _ _ _ _ _ _ =>
      let! d := resolve id in Ok (saturating_add 8 d 1)
  | SequenceSharedDict dictionary _ shared _ _ _ _ _ _ _ _ _ _ _ _ =>
      let! d := (if ChunkId_is_zero dictionary then Ok 0 else resolve dictionary) in
      let! s := resolve shared in
      Ok (saturating_add 8 (Z.max d s) 1)
  | _ => Ok 0
  end.

Definition chain_depth (desc : Representation) : outcome Z := depth_over (walk (max_reference_depth limits)) desc.

Definition chain_depth_uncapped (desc : Representation) (pending_depths : gmap (list Z) Z) : outcome Z :=
  depth_over (fun id => match pending_depths !! id with Some d => Ok d | None => walk MAX_CHAIN_WALK id end) desc.

(** ** Bases *)

Context (read : Z -> Z -> Z -> outcome bytes).

Definition base_chunk_from_bytes (b : bytes) : outcome (option BaseChunk) :=
  let id := content_id b in
  let! o := chunk_descriptor limits x root id in
  match o with
  | None => Ok None
  | Some desc_bytes =>
      match Descriptor.decode limits desc_bytes with
      | Err _ => Ok None
      | Ok desc => let! depth := chain_depth desc in Ok (Some {| bc_id := id; bc_bytes := b; bc_depth := depth |})
      end
  end.

Definition base_chunk_at (ino offset len : Z) : outcome (option BaseChunk) :=
  if len =? 0 then Ok None
  else
    let! o := ok_flat (get_inode limits x root ino) in
    match o with
    | None => Ok None
    | Some _ =>
        match read ino offset len with
        | Err Panic => Err Panic
        | Err (Error _) | Ok [] => Ok None
        | Ok b => base_chunk_from_bytes b
        end
    end.

(** ** Composing the chunks of a write *)

#[local] Abbreviation cc := (chunk_class limits).

(** [chunk_bytes[..n].copy_from_slice(&bytes[..n])] into a zeroed chunk. *)
Definition chunk_prefix (b : bytes) : outcome bytes :=
  let n := Z.min (zlen b) cc in
  let! src := get_slice b 0 n in
  copy_from_slice (Prelude.vec 0 cc) 0 n src.

(** The chunk before the write: its buffer, what was read for it, and whether
    that came from the batch. *)
Definition old_chunk (overlay : option (gmap Z bytes)) (ino chunk_off old_size : Z) (full_chunk : bool) : outcome (bytes * bytes * bool) :=
  if full_chunk then Ok (Prelude.vec 0 cc, [], false)
  else
    match overlay ≫= (.!! chunk_off) with
    | Some b => let! buf := chunk_prefix b in Ok (buf, b, true)
    | None =>
        let! e := ok_or (checked_add 64 chunk_off cc) Panic in
        let read_end := Z.min e old_size in
        if chunk_off <? read_end then
          let! partial := read ino chunk_off (read_end - chunk_off) in
          let! buf := chunk_prefix partial in
          Ok (buf, partial, false)
        else Ok (Prelude.vec 0 cc, [], false)
    end.

(** The previous version of the chunk, as a base. *)
Definition prev_version (ino chunk_off chunk_len old_size : Z) (partial : bytes) (from_overlay full_chunk : bool)
    : outcome (option BaseChunk) :=
  if negb from_overlay && (chunk_off <? old_size) then
    let! long := (if full_chunk then Ok false
                  else let! e := ok_or (checked_add 64 chunk_off chunk_len) Panic in Ok (e <=? old_size)) in
    if negb full_chunk && long then
      let! b := get_slice partial 0 chunk_len in base_chunk_from_bytes b
    else if full_chunk then base_chunk_at ino chunk_off chunk_len
    else Ok None
  else Ok None.

(** The chunk before it as a dictionary: from the batch, with the view that
    resolves it, or from the store. *)
Definition dictionary (overlay : option (gmap Z bytes)) (ino chunk_off chunk_len : Z) : outcome (option BaseChunk * option PendingBatch) :=
  if cc <=? chunk_off then
    let prev_off := chunk_off - cc in
    match overlay ≫= (.!! prev_off) with
    | Some prev_bytes =>
        let pcid := content_id prev_bytes in
        let! desc_bytes := of_codec (Descriptor.encode (Raw pcid (zlen prev_bytes))) in
        Ok (Some {| bc_id := pcid; bc_bytes := prev_bytes; bc_depth := 0 |},
            Some {| pb_descriptors := {[pcid := desc_bytes]}; pb_objects := {[pcid := prev_bytes]}; pb_depths := ∅ |})
    | None => let! d := base_chunk_at ino prev_off chunk_len in Ok (d, None)
    end
  else Ok (None, None).

Definition compose_chunk (overlay : option (gmap Z bytes)) (ino offset : Z) (data : bytes) (end_ old_size new_size chunk : Z)
    : outcome (option (gmap Z bytes) * Composed) :=
  let chunk_off := chunk * cc in
  let in_start := Z.max offset chunk_off in
  let! e := ok_or (checked_add 64 chunk_off cc) Panic in
  let in_end := Z.min end_ e in
  let write_start := in_start - chunk_off in
  let write_end := in_end - chunk_off in
  let! payload := get_slice data (in_start - offset) (in_end - offset) in
  let full_chunk := (write_start =? 0) && (write_end =? cc) in
  let! '(buf, partial, from_overlay) := old_chunk overlay ino chunk_off old_size full_chunk in
  let! buf := copy_from_slice buf write_start write_end payload in
  let chunk_end := Z.min (saturating_add 64 chunk_off cc) new_size in
  let chunk_len := chunk_end - chunk_off in
  let! chunk_bytes := get_slice buf 0 chunk_len in
  let overlay := (fun o => <[chunk_off := chunk_bytes]> o) <$> overlay in
  let! prev := prev_version ino chunk_off chunk_len old_size partial from_overlay full_chunk in
  let! '(dict, synthetic) := dictionary overlay ino chunk_off chunk_len in
  Ok (overlay, {| cm_off := chunk_off; cm_bytes := chunk_bytes; cm_cid := content_id chunk_bytes;
                  cm_prev_version := prev; cm_dictionary := dict; cm_synthetic := synthetic |}).

(** [while chunk < last_chunk] *)
Fixpoint compose_chunks (chunks : list Z) (overlay : option (gmap Z bytes)) (ino offset : Z) (data : bytes) (end_ old_size new_size : Z)
    : outcome (option (gmap Z bytes) * list Composed) :=
  match chunks with
  | [] => Ok (overlay, [])
  | chunk :: chunks' =>
      let! '(overlay, c) := compose_chunk overlay ino offset data end_ old_size new_size chunk in
      let! '(overlay, cs) := compose_chunks chunks' overlay ino offset data end_ old_size new_size in
      Ok (overlay, c :: cs)
  end.

(** [prepare_write] up to the search: the composed chunks and the new size. *)
Definition prepare_compose (overlay : option (gmap Z bytes)) (ino offset : Z) (data : bytes) (epoch_size : option Z)
    : outcome (option (gmap Z bytes) * list Composed * Z) :=
  if zlen data =? 0 then
    let! committed := get_inode limits x root ino in
    Ok (overlay, [], match epoch_size with Some s => s | None => match committed with Some i => i_size i | None => 0 end end)
  else
    let end_ := saturating_add 64 offset (zlen data) in
    let first_chunk := offset / cc in
    let last_chunk := div_ceil end_ cc in
    let! old_size :=
      match epoch_size with
      | Some s => Ok s
      | None => let! o := get_inode limits x root ino in
                let! inode := ok_or o (Error (StoreInvariant "inode missing")) in
                Ok (i_size inode)
      end in
    let new_size := Z.max old_size end_ in
    let! '(overlay, composed) :=
      compose_chunks (seqZ first_chunk (last_chunk - first_chunk)) overlay ino offset data end_ old_size new_size in
    Ok (overlay, composed, new_size).

(** The regions of [write_region_batch], composed one after the other over one
    overlay. *)
Fixpoint compose_regions (regions : list (Z * bytes)) (overlay : gmap Z bytes) (ino new_size : Z) : outcome (list Composed * Z) :=
  match regions with
  | [] => Ok ([], new_size)
  | (offset, data) :: regions' =>
      let! '(overlay', composed, sz) := prepare_compose (Some overlay) ino offset data None in
      let overlay := match overlay' with Some o => o | None => overlay end in
      let! '(more, new_size) := compose_regions regions' overlay ino (Z.max new_size sz) in
      Ok (composed ++ more, new_size)
  end.
Definition compose_batch (ino : Z) (writes : list (Z * bytes)) : outcome (list Composed * Z) :=
  compose_regions (sort_by_offset writes) ∅ ino 0.
End Store.

(** * The extents of a file, in a transaction *)

Definition put_objects (t : Txn) (len : Z) (objects : list ObjectRecord) : Txn :=
  fold_left (fun t o =>
    let '(tag, ml) := match o_kind o with Candidate.Data => (Version.Data, Some len) | Candidate.Model => (Version.Model, None) end in
    snd (put_object content_id t tag (o_payload o) ml)) objects t.

(** One update, [now k] the reading of the clock. *)
Definition put_update (t : Txn) (k : nat) (ino : Z) (u : ExtentUpdate) : outcome Txn :=
  let t := put_objects t (Representation_len (eu_descriptor u)) (eu_objects u) in
  let! t := put_chunk_in_tx content_id limits t (eu_content_id u) (eu_descriptor u) in
  put_extent_in_tx content_id limits t (now k) ino (eu_offset u) (eu_descriptor u).

Fixpoint put_updates (t : Txn) (k : nat) (ino : Z) (updates : list ExtentUpdate) : outcome Txn :=
  match updates with
  | [] => Ok t
  | u :: updates' => let! t := put_update t k ino u in put_updates t (S k) ino updates'
  end.

(** The extents that start at or behind [size], removed one by one. *)
Fixpoint remove_past (t : Txn) (keep : ChunkId) (size : Z) (all : list (Z * bytes)) : outcome (ChunkId * Txn) :=
  match all with
  | [] => Ok (keep, t)
  | (start, _) :: all' =>
      if size <=? start then
        let! '(nr, _, x) := of_tree (extent_remove content_id BTREE_ORDER fanout (txn_tx t) keep start) in
        remove_past (set_tx t x) nr size all'
      else remove_past t keep size all'
  end.
Definition keep_below (t : Txn) (extent_root : ChunkId) (size : Z) : outcome (ChunkId * Txn) :=
  let! all := of_tree (extent_scan_all BTREE_ORDER fanout (txn_tx t) extent_root) in
  remove_past t extent_root size all.

(** The new size of the file; extents behind it go. *)
Definition set_file_size (t : Txn) (k : nat) (ino size : Z) : outcome Txn :=
  let! inode := inode_for_tx limits t ino in
  let! '(inode, t) :=
    match i_data inode with
    | IFile extent_root =>
        if ChunkId_is_zero extent_root then Ok (inode, t)
        else
          let! '(keep_root, t) := keep_below t extent_root size in
          Ok (if bool_decide (keep_root <> extent_root) then with_data inode (IFile keep_root) else inode, t)
    | _ => Ok (inode, t)
    end in
  put_inode_in_tx content_id limits t ino (with_mtime (with_size inode size) (now k)).

(** [commit_file_extents] and [commit_file_extents_deferred] between the begin
    and the commit of their transaction. *)
Definition commit_file_extents (t : Txn) (ino : Z) (updates : list ExtentUpdate) (new_size : option Z) : outcome Txn :=
  let! t := put_updates t 0 ino updates in
  match new_size with
  | Some size => set_file_size t (length updates) ino size
  | None => Ok t
  end.

(** * Truncation *)

Section Truncate.
Context (policy : Policy) (coded : list (CandidateContext -> bytes -> outcome (list Candidate))).

(** The last extent below the new size, cut and encoded again when it reaches
    past it. *)
Definition truncate_trim (x : Tx StoreError) (store : DecoderContext) (extent_root : ChunkId) (new_size : Z) : outcome (option ExtentUpdate) :=
  if new_size =? 0 then Ok None
  else
    let! o := of_tree (covering BTREE_ORDER fanout x extent_root (new_size - 1)) in
    match o with
    | None => Ok None
    | Some (start, desc_bytes) =>
        let! desc := of_codec (Descriptor.decode limits desc_bytes) in
        if new_size <? saturating_add 64 start (Representation_len desc) then
          let! '(chunk, _) := of_materialize
            (@materialize store limits desc 0 (max_decode_work limits) (Prelude.vec 0 (Representation_len desc))) in
          let! prefix := get_slice chunk 0 (new_size - start) in
          let! update := encode_chunk policy coded prefix start (content_id prefix) in
          Ok (Some update)
        else Ok None
    end.

(** In the transaction, with the inode that was read before it. *)
Definition truncate_tx (t : Txn) (store : DecoderContext) (ino : Z) (inode : Inode) (extent_root : ChunkId) (new_size : Z)
    (trim : option ExtentUpdate) : outcome Txn :=
  let! '(keep, t) := (if 0 <? new_size then keep_below t extent_root new_size else Ok (ChunkId_ZERO, t)) in
  let! '(keep, t) :=
    match trim with
    | Some u =>
        let! _ := validate_update store u in
        let t := put_objects t (Representation_len (eu_descriptor u)) (eu_objects u) in
        let! t := put_chunk_in_tx content_id limits t (eu_content_id u) (eu_descriptor u) in
        let! b := of_codec (Descriptor.encode (eu_descriptor u)) in
        let! '(keep, x) := of_tree (extent_insert content_id BTREE_ORDER fanout (txn_tx t) keep (eu_offset u) b) in
        Ok (keep, set_tx t x)
    | None => Ok (keep, t)
    end in
  put_inode_in_tx content_id limits t ino
    (with_ctime (with_mtime (with_size (with_data inode (IFile keep)) new_size) (now 0)) (now 0)).

(** [truncate_file_locked] up to its commit: [x] and [root] are the committed
    store, [t] the transaction that begins after the reads. *)
Definition truncate_file (x : Tx StoreError) (root : Root) (store : DecoderContext) (t : Txn) (ino new_size : Z) : outcome Txn :=
  let! o := get_inode limits x root ino in
  let! inode := ok_or o (Error (StoreInvariant "inode missing")) in
  fail_if negb (is_file inode) with Error (StoreInvariant "not a regular file") ;;
  let! extent_root := match i_data inode with IFile extent_root => Ok extent_root | _ => Err Panic end in
  let! trim := truncate_trim x store extent_root new_size in
  truncate_tx t store ino inode extent_root new_size trim.
End Truncate.

(** * Attributes *)

Definition with_times (i : Inode) (atime mtime : option Timespec) (ctime : Timespec) : Inode :=
  update_meta i {| au_mode := None; au_uid := None; au_gid := None; au_size := None; au_atime := atime; au_mtime := mtime |} ctime.

(** [setattr_inode_locked] when no size is given, or the size the inode has. *)
Definition setattr_tx (t : Txn) (ino : Z) (update : AttrUpdate) : outcome (Inode * Txn) :=
  let! inode := inode_for_tx limits t ino in
  let inode := update_meta inode update (now 0) in
  let! t := put_inode_in_tx content_id limits t ino inode in
  Ok (inode, t).

(** Its second transaction otherwise, behind the truncation. *)
Definition setattr_resized_tx (t : Txn) (ino size : Z) (update : AttrUpdate) : outcome (Inode * Txn) :=
  let! inode := inode_for_tx limits t ino in
  let inode := with_times (with_size inode size) (au_atime update) (au_mtime update) (now 0) in
  let! t := put_inode_in_tx content_id limits t ino inode in
  Ok (inode, t).
End Write.
