(* ===== verification/Facade.v ===== *)
(** The rest of the facade of [store/mod.rs]: the directory wrappers, walks
    over the whole committed store ([logical_bytes], [parent_of],
    [resolve_path]), snapshots and extended attributes.

    A committed store is a provider and a root, as in FileRead; what runs
    between [begin_tx] and [commit] is a function on the transaction.  Each
    operation that writes takes its clock readings in the order of the code.
    Left out are the locks, the flush of the epoch that the attribute
    operations begin with, and the commit itself. *)
From stdpp Require Import gmap sorting.
From Stdlib Require String.
From S2P Require Import Prelude Codec Repr Version SegRecord Inode Superblock Descriptor Context Materialize Candidate Keys BTree StoreError RootObj ExtentTree Directory Transaction Namespace Mutation Epoch FileWrite.
Import String.StringSyntax.

Definition with_xattr_root (i : Inode) (r : ChunkId) : Inode :=
  {| i_mode := i_mode i; i_uid := i_uid i; i_gid := i_gid i; i_size := i_size i; i_atime := i_atime i;
     i_ctime := i_ctime i; i_mtime := i_mtime i; i_crtime := i_crtime i; i_nlink := i_nlink i; i_rdev := i_rdev i;
     i_flags := i_flags i; i_xattr_root := r; i_data_kind := i_data_kind i; i_data := i_data i |}.

(** [path.split(|&b| b == b'/')]: the parts between the separators. *)
Fixpoint split_path (path : bytes) : list bytes :=
  match path with
  | [] => [[]]
  | b :: path' =>
      if b =? 47 then [] :: split_path path'
      else match split_path path' with part :: parts => (b :: part) :: parts | [] => [[b]] end
  end.

(** The parts that are looked up: neither empty nor [.]. *)
Definition path_components (path : bytes) : list bytes :=
  base.filter (fun part => part <> [] /\ part <> [46]) (split_path path).

(** The order of the pending entries: by directory, then by name. *)
Definition entry_le (a b : (Z * bytes) * DirEntry) : Prop :=
  fst (fst a) < fst (fst b) \/ (fst (fst a) = fst (fst b) /\ kle (snd (fst a)) (snd (fst b))).
#[global] Instance entry_le_dec a b : Decision (entry_le a b).
Proof. unfold entry_le, kle. solve_decision. Defined.
Definition pending_entries_in_order (ep : Epoch) : list ((Z * bytes) * DirEntry) := merge_sort entry_le (map_to_list (pending_entries ep)).

Definition valid_snapshot_name (name : bytes) : bool :=
  negb (zlen name =? 0) && (zlen name <=? 255) && negb (bool_decide (47 ∈ name)) && negb (bool_decide (0 ∈ name)).

Definition XATTR_NAME_MAX : Z := 255.
Definition XATTR_SIZE_MAX : Z := 64 * 1024.
Definition validate_xattr_name (name : bytes) : bool :=
  negb (zlen name =? 0) && (zlen name <=? XATTR_NAME_MAX) && negb (bool_decide (0 ∈ name)) && negb (bool_decide (47 ∈ name)).

Section Facade.
Context {hash : ContentHash} (limits : Limits) (now : nat -> Timespec).
#[local] Abbreviation fanout := (max_fanout limits).
#[local] Abbreviation content_id := (@ChunkId_of hash).

(** * Over the committed store *)

Section Store.
Context (x : Tx StoreError) (root : Root).

Definition committed_inode_of (ino : Z) : outcome Inode :=
  let! o := get_inode limits x root ino in
  ok_or o (Error (StoreInvariant "inode missing")).

Definition Store_dir_lookup (dir_ino : Z) (name : bytes) : outcome (option DirEntry) :=
  let! inode := committed_inode_of dir_ino in
  let! dir_root := dir_root_of "not a directory" inode in
  of_tree (dir_lookup BTREE_ORDER fanout x dir_root name).

Definition Store_dir_scan (dir_ino : Z) (start_after : option bytes) (limit : Z) : outcome (list (bytes * DirEntry) * bool) :=
  let! inode := committed_inode_of dir_ino in
  let! dir_root := dir_root_of "not a directory" inode in
  of_tree (dir_scan BTREE_ORDER fanout x dir_root start_after limit).

(** The bytes of the extents of one file; one that does not decode counts
    nothing. *)
Fixpoint extent_bytes (entries : list (Z * bytes)) (total : Z) : Z :=
  match entries with
  | [] => total
  | (_, b) :: entries' =>
      extent_bytes entries' (match Descriptor.decode limits b with
                             | Ok d => saturating_add 64 total (Representation_len d)
                             | Err _ => total
                             end)
  end.

Fixpoint logical_bytes_of (inos : list Z) (total : Z) : outcome Z :=
  match inos with
  | [] => Ok total
  | ino :: inos' =>
      let! o := get_inode limits x root ino in
      let! total :=
        match o with
        | None => Ok total
        | Some inode =>
            match i_data inode with
            | IFile extent_root =>
                if ChunkId_is_zero extent_root then Ok total
                else let! entries := of_tree (extent_scan_all BTREE_ORDER fanout x extent_root) in Ok (extent_bytes entries total)
            | _ => Ok total
            end
        end in
      logical_bytes_of inos' total
  end.
Definition logical_bytes : outcome Z :=
  let! inos := all_inodes limits x root in logical_bytes_of inos 0.

(** Whether an entry of a directory names [ino]; one that does not decode is
    passed over. *)
Fixpoint entries_name (ino : Z) (entries : list EntryPair) : bool :=
  match entries with
  | [] => false
  | (_, v) :: entries' =>
      match DirEntry_decode v with
      | Ok e => if de_ino e =? ino then true else entries_name ino entries'
      | Err _ => entries_name ino entries'
      end
  end.

Fixpoint parent_among (dirs : list Z) (ino : Z) : outcome Z :=
  match dirs with
  | [] => Ok (root_dir_ino root)
  | dir_ino :: dirs' =>
      let! o := get_inode limits x root dir_ino in
      match o with
      | Some inode =>
          match i_data inode with
          | IDirectory dir_root =>
              if ChunkId_is_zero dir_root then parent_among dirs' ino
              else
                let! entries := of_tree (scan_all BTREE_ORDER fanout x dir_root) in
                if entries_name ino entries then Ok dir_ino else parent_among dirs' ino
          | _ => parent_among dirs' ino
          end
      | None => parent_among dirs' ino
      end
  end.
Definition parent_of (ino : Z) : outcome Z :=
  if ino =? root_dir_ino root then Ok (root_dir_ino root)
  else let! dirs := all_inodes limits x root in parent_among dirs ino.

(** The pending entries first, in the order of the map. *)
Definition parent_of_epoch (ep : Epoch) (ino : Z) : outcome Z :=
  if ino =? root_dir_ino root then Ok (root_dir_ino root)
  else
    match list_find (fun pe : (Z * bytes) * DirEntry => de_ino (snd pe) = ino) (pending_entries_in_order ep) with
    | Some (_, ((parent, _), _)) => Ok parent
    | None => parent_of ino
    end.

Fixpoint resolve_components (ino : Z) (components : list bytes) : outcome (option Z) :=
  match components with
  | [] => Ok (Some ino)
  | comp :: components' =>
      if bool_decide (comp = [46; 46]) then invariant "'..' resolution not supported in v1 resolve_path"
      else
        let! o := Store_dir_lookup ino comp in
        match o with
        | Some entry => resolve_components (de_ino entry) components'
        | None => Ok None
        end
  end.
Definition resolve_path (path : bytes) : outcome (option Z) := resolve_components (root_dir_ino root) (path_components path).

(** ** Snapshots *)

Definition list_snapshots : outcome (list (bytes * SnapshotEntry)) :=
  of_tree (snapshot_list BTREE_ORDER fanout x (snapshot_tree_root root)).
Definition Store_snapshot_lookup (name : bytes) : outcome (option SnapshotEntry) :=
  of_tree (snapshot_lookup BTREE_ORDER fanout x (snapshot_tree_root root) name).

(** The root that a snapshot names. *)
Definition snapshot_root (name : bytes) : outcome (SnapshotEntry * Root) :=
  let! o := Store_snapshot_lookup name in
  let! entry := ok_or o (Error (StoreInvariant "no such snapshot")) in
  let! b := safe (tx_fetch x (se_root_id entry)) in
  let! snap_bytes := ok_or b (Error (StoreInvariant "snapshot root object missing")) in
  let! snap_root := map_err (fun _ => Error (StoreSuperblock "snapshot root decode")) (Root_decode snap_bytes) in
  Ok (entry, snap_root).

(** ** Extended attributes *)

Definition xattr_root_of (ep : Epoch) (ino : Z) : outcome ChunkId :=
  let! seen := get_inode_epoch limits x root ep ino in
  let! _ := ok_or seen (Error (StoreInvariant "inode missing")) in
  let! o := get_inode limits x root ino in
  Ok (match o with Some i => i_xattr_root i | None => ChunkId_ZERO end).

Definition get_xattr (ep : Epoch) (ino : Z) (name : bytes) : outcome (option bytes) :=
  let! xattr_root := xattr_root_of ep ino in
  if ChunkId_is_zero xattr_root then Ok None
  else of_tree (get BTREE_ORDER fanout x xattr_root name).

Definition list_xattr (ep : Epoch) (ino : Z) : outcome (list bytes) :=
  let! xattr_root := xattr_root_of ep ino in
  if ChunkId_is_zero xattr_root then Ok []
  else
    let! entries := of_tree (scan_all BTREE_ORDER fanout x xattr_root) in
    Ok (map fst entries).
End Store.

(** * In a transaction *)

Definition dir_insert_tx (t : Txn) (dir_ino : Z) (name : bytes) (entry : DirEntry) : outcome Txn :=
  let! inode := inode_for_tx limits t dir_ino in
  let! dir_root := dir_root_of "not a directory" inode in
  let! '(new_root, x) := of_tree (dir_insert content_id BTREE_ORDER fanout (txn_tx t) dir_root name entry) in
  put_inode_in_tx content_id limits (set_tx t x) dir_ino (with_mtime (with_data inode (IDirectory new_root)) (now 0)).

Definition dir_remove_tx (t : Txn) (dir_ino : Z) (name : bytes) : outcome Txn :=
  let! inode := inode_for_tx limits t dir_ino in
  let! dir_root := dir_root_of "not a directory" inode in
  let! '(new_root, _, x) := of_tree (dir_remove content_id BTREE_ORDER fanout (txn_tx t) dir_root name) in
  put_inode_in_tx content_id limits (set_tx t x) dir_ino (with_mtime (with_data inode (IDirectory new_root)) (now 0)).

(** [sec * 1_000_000_000 + nsec], two readings of the clock. *)
Definition created_unix_ns : outcome Z :=
  let! s := ok_or (checked_mul 64 (ts_sec (now 0)) 1000000000) Panic in
  ok_or (checked_add 64 s (ts_nsec (now 1))) Panic.

Definition create_snapshot (t : Txn) (name : bytes) : outcome (SnapshotEntry * Txn) :=
  fail_if negb (valid_snapshot_name name) with Error (StoreConfigError "invalid snapshot name") ;;
  let root_id := Root_id content_id (txn_root t) in
  let! created := created_unix_ns in
  let entry := {| se_root_id := root_id; se_created_unix_ns := created |} in
  let! '(r, x) := of_tree (snapshot_insert content_id BTREE_ORDER fanout (txn_tx t) (snapshot_tree_root (txn_root t)) name entry) in
  Ok (entry, set_root (set_tx t x) (with_snapshot_tree (txn_root t) r)).

Definition delete_snapshot (t : Txn) (name : bytes) : outcome (bool * Txn) :=
  let! '(r, present, x) := of_tree (snapshot_remove content_id BTREE_ORDER fanout (txn_tx t) (snapshot_tree_root (txn_root t)) name) in
  Ok (present, set_root (set_tx t x) (with_snapshot_tree (txn_root t) r)).

(** The transaction's root becomes the snapshot's, whole; the snapshot is put
    back into its own tree. *)
Definition restore_snapshot_tx (t : Txn) (name : bytes) (entry : SnapshotEntry) (snap_root : Root) : outcome Txn :=
  let! '(r, x) := of_tree (snapshot_insert content_id BTREE_ORDER fanout (txn_tx t) (snapshot_tree_root snap_root) name entry) in
  Ok (set_root (set_tx t x) (with_snapshot_tree snap_root r)).
Definition restore_snapshot (x : Tx StoreError) (root : Root) (t : Txn) (name : bytes) : outcome Txn :=
  let! '(entry, snap_root) := snapshot_root x root name in
  restore_snapshot_tx t name entry snap_root.

Definition set_xattr (t : Txn) (ino : Z) (name value : bytes) : outcome Txn :=
  fail_if negb (validate_xattr_name name) with Error (StoreConfigError "invalid xattr name") ;;
  fail_if XATTR_SIZE_MAX <? zlen value with Error (StoreLimit "xattr value") ;;
  let! inode := inode_for_tx limits t ino in
  let! '(new_root, x) := of_tree (insert content_id BTREE_ORDER fanout (txn_tx t) (i_xattr_root inode) name value) in
  put_inode_in_tx content_id limits (set_tx t x) ino (with_ctime (with_xattr_root inode new_root) (now 0)).

(** [None] is a transaction that is dropped. *)
Definition remove_xattr (t : Txn) (ino : Z) (name : bytes) : outcome (option Txn) :=
  let! inode := inode_for_tx limits t ino in
  if ChunkId_is_zero (i_xattr_root inode) then Ok None
  else
    let! o := of_tree (get BTREE_ORDER fanout (txn_tx t) (i_xattr_root inode) name) in
    match o with
    | None => Ok None
    | Some _ =>
        let! '(new_root, x) := of_tree (remove content_id BTREE_ORDER fanout (txn_tx t) (i_xattr_root inode) name) in
        let! t := put_inode_in_tx content_id limits (set_tx t x) ino (with_ctime (with_xattr_root inode new_root) (now 0)) in
        Ok (Some t)
    end.
End Facade.
