(* ===== verification/Gc.v ===== *)
(** Component [store/gc.rs]: the mark walk from the roots, the rebuild of the
    chunk index from what is reachable, and the compaction of victim segments
    into a fresh one.

    The store is its log state (transport, object index, segment writer) and
    its commit state.  A work list is kept with its end first; a hash set that
    the code drains into a list is drained in the order of [elements].  The
    loops of the walk run on fuel, [None] when it is gone.  The choice of
    victims by their scanned occupancy, a comparison of floats, is left to the
    caller, who names them. *)
From stdpp Require Import gmap sorting.
From Stdlib Require String.
From S2P Require Import Prelude Codec Repr Version SegRecord Inode Superblock Descriptor Context BTree StoreError RootObj Segment SyncIo Recovery StoreLog Directory Transaction FileWrite.
Import String.StringSyntax.

Inductive MarkKind : Type :=
| MRoot
| MInode
| MTreeInodeIndex
| MTreeDirectory
| MTreeExtent
| MTreeChunkIndex
| MTreeSnapshot
| MTreeXattr
| MObject.

Inductive TreeValue : Type :=
| VInodeId
| VDirectory
| VExtentDescriptor
| VChunkIndexEntry
| VSnapshot
| VXattr.

Record LiveMark : Type := {
  lm_live : gset (list Z);
  lm_referenced : gset (list Z);
  lm_descriptors : gset (list Z)
}.

(** The state of the walk. *)
Record Marking : Type := {
  mk_live : gset (list Z);
  mk_work : list (ChunkId * MarkKind);
  mk_referenced : gset (list Z);
  mk_descriptors : gset (list Z)
}.
Definition Marking_new : Marking := {| mk_live := ∅; mk_work := []; mk_referenced := ∅; mk_descriptors := ∅ |}.

Definition mark_id (m : Marking) (id : ChunkId) : Marking :=
  {| mk_live := {[id]} ∪ mk_live m; mk_work := mk_work m; mk_referenced := mk_referenced m; mk_descriptors := mk_descriptors m |}.
Definition push_work (m : Marking) (id : ChunkId) (kind : MarkKind) : Marking :=
  {| mk_live := mk_live m; mk_work := (id, kind) :: mk_work m; mk_referenced := mk_referenced m; mk_descriptors := mk_descriptors m |}.
Definition set_work (m : Marking) (work : list (ChunkId * MarkKind)) : Marking :=
  {| mk_live := mk_live m; mk_work := work; mk_referenced := mk_referenced m; mk_descriptors := mk_descriptors m |}.
Definition refer (m : Marking) (ids : list ChunkId) : Marking :=
  {| mk_live := mk_live m; mk_work := mk_work m; mk_referenced := list_to_set ids ∪ mk_referenced m; mk_descriptors := mk_descriptors m |}.
Definition keep_descriptor (m : Marking) (b : bytes) : Marking :=
  {| mk_live := mk_live m; mk_work := mk_work m; mk_referenced := mk_referenced m; mk_descriptors := {[b]} ∪ mk_descriptors m |}.

(** [if !root.is_zero() { worklist.push(..) }] *)
Definition push_tree (m : Marking) (root : ChunkId) (kind : MarkKind) : Marking :=
  if ChunkId_is_zero root then m else push_work m root kind.

Definition tree_kind (v : TreeValue) : MarkKind :=
  match v with
  | VInodeId => MTreeInodeIndex
  | VDirectory => MTreeDirectory
  | VExtentDescriptor => MTreeExtent
  | VChunkIndexEntry => MTreeChunkIndex
  | VSnapshot => MTreeSnapshot
  | VXattr => MTreeXattr
  end.

(** The objects that [mark_descriptor_refs] takes from a descriptor. *)
Definition object_refs (desc : Representation) : list ChunkId :=
  match desc with
  | Raw obj _ => [obj]
  | Rans model enc_obj _ _ _ => [model; enc_obj]
  | SequenceRans model enc_obj _ _ _ _ _ _ _ _ => [model; enc_obj]
  | SparseBlock64 model enc_obj _ _ _ _ _ _ _ _ _ => [model; enc_obj]
  | SequenceDict _ _ model enc_obj _ _ _ _ _ _ _ _ _ => [model; enc_obj]
  | SequenceSharedDict _ _ _ _ model enc_obj _ _ _ _ _ _ _ _ _ => [model; enc_obj]
  | SequenceDeep model enc_obj _ _ _ _ _ _ _ _ _ => [model; enc_obj]
  | BaseResidual _ _ (RansCoded _ enc_obj model _ _ _) _ => [enc_obj; model]
  | EntropyRef _ _ _ _ (RansCoded _ enc_obj model _ _ _) _ => [enc_obj; model]
  | BaseResidual _ _ (BaseSequence _ enc_obj model _ _ _ _ _ _ _) _ => [enc_obj; model]
  | _ => []
  end.

(** The chunk that stage 3 follows from a resolved descriptor. *)
Definition chain_next (desc : Representation) : option ChunkId :=
  match desc with
  | ExactRef target _ _ => Some target
  | BaseResidual base _ _ _ => Some base
  | _ => None
  end.

(** * The mark walk *)

Section Mark.
Context (content_id : bytes -> ChunkId) (limits : Limits) (x : Tx StoreError) (root : Root).
#[local] Abbreviation fanout := (max_fanout limits).

Definition mark_object (m : Marking) (r : ChunkId) : Marking :=
  if bool_decide (r ∈ mk_live m) then m else push_work (mark_id m r) r MObject.
Definition mark_descriptor_refs (b : bytes) (m : Marking) : Marking :=
  match Descriptor.decode limits b with
  | Ok desc => fold_left mark_object (object_refs desc) m
  | Err _ => m
  end.
Definition collect_descriptor_refs (b : bytes) (m : Marking) : Marking :=
  match Descriptor.decode limits b with
  | Ok desc => refer m (chain_nexts desc)
  | Err _ => m
  end.

Definition mark_fetch (what : String.string) (id : ChunkId) : outcome bytes :=
  let! o := safe (tx_fetch x id) in
  ok_or o (Error (StoreInvariant what)).

Definition mark_leaf_value (v : TreeValue) (e : Entry) (m : Marking) : outcome Marking :=
  match v with
  | VInodeId =>
      let! inode_id := ok_or (ChunkId_from_bytes (e_value e)) (Error (StoreInvariant "inode value not 32 bytes")) in
      Ok (push_work m inode_id MInode)
  | VDirectory | VXattr | VChunkIndexEntry => Ok m
  | VExtentDescriptor =>
      Ok (keep_descriptor (collect_descriptor_refs (e_value e) (mark_descriptor_refs (e_value e) m)) (e_value e))
  | VSnapshot =>
      let! entry := of_codec (SnapshotEntry_decode (e_value e)) in
      Ok (push_work m (se_root_id entry) MRoot)
  end.
Fixpoint mark_leaf (v : TreeValue) (entries : list Entry) (m : Marking) : outcome Marking :=
  match entries with
  | [] => Ok m
  | e :: entries' => let! m := mark_leaf_value v e m in mark_leaf v entries' m
  end.
Fixpoint mark_children (kind : MarkKind) (entries : list Entry) (m : Marking) : outcome Marking :=
  match entries with
  | [] => Ok m
  | e :: entries' =>
      let! child := of_tree (child_id e) in
      mark_children kind entries' (push_work m child kind)
  end.

Definition walk_tree (node_id : ChunkId) (v : TreeValue) (m : Marking) : outcome Marking :=
  if ChunkId_is_zero node_id then Ok m
  else
    let! payload := mark_fetch "missing tree node" node_id in
    let! node := map_err (fun e => Error (StoreIndex (OfCodec e))) (Node_decode payload BTREE_ORDER fanout) in
    match node with
    | Internal first_child entries => mark_children (tree_kind v) entries (push_work m first_child (tree_kind v))
    | Leaf entries => mark_leaf v entries m
    end.

Definition decode_root (id : ChunkId) : outcome Root :=
  let! payload := mark_fetch "missing root object" id in
  map_err (fun _ => Error (StoreSuperblock "root")) (Root_decode payload).
Definition decode_inode (id : ChunkId) : outcome Inode :=
  let! payload := mark_fetch "missing inode object" id in
  of_codec (Inode_decode payload).

Definition mark_root (r : Root) (m : Marking) : Marking :=
  let m := push_work m (inode_index_root r) MTreeInodeIndex in
  let m := push_work m (chunk_index_root r) MTreeChunkIndex in
  let m := push_tree m (snapshot_tree_root r) MTreeSnapshot in
  push_tree m (model_index_root r) MTreeChunkIndex.
Definition mark_inode (i : Inode) (m : Marking) : Marking :=
  let m := push_tree m (i_xattr_root i) MTreeXattr in
  match i_data i with
  | IDirectory dir_root => push_tree m dir_root MTreeDirectory
  | IFile extent_root => push_tree m extent_root MTreeExtent
  | _ => m
  end.

(** One object that was not marked before. *)
Definition visit (id : ChunkId) (kind : MarkKind) (m : Marking) : outcome Marking :=
  match kind with
  | MRoot => let! r := decode_root id in Ok (mark_root r m)
  | MInode => let! i := decode_inode id in Ok (mark_inode i m)
  | MTreeInodeIndex => walk_tree id VInodeId m
  | MTreeDirectory => walk_tree id VDirectory m
  | MTreeExtent => walk_tree id VExtentDescriptor m
  | MTreeChunkIndex => walk_tree id VChunkIndexEntry m
  | MTreeSnapshot => walk_tree id VSnapshot m
  | MTreeXattr => walk_tree id VXattr m
  | MObject => Ok m
  end.

(** [while let Some((id, kind)) = worklist.pop()] *)
Fixpoint mark_loop (fuel : nat) (m : Marking) : option (outcome Marking) :=
  match mk_work m with
  | [] => Some (Ok m)
  | (id, kind) :: work =>
      match fuel with
      | O => None
      | S fuel =>
          let m := set_work m work in
          if bool_decide (id ∈ mk_live m) then mark_loop fuel m
          else
            match visit id kind (mark_id m id) with
            | Ok m => mark_loop fuel m
            | Err e => Some (Err e)
            end
      end
  end.

(** Stage 3, [while let Some(cid) = queue.pop()]: the set of the ids seen. *)
Fixpoint resolve_loop (fuel : nat) (queue : list ChunkId) (seen : gset (list Z)) (m : Marking) : option (outcome (gset (list Z) * Marking)) :=
  match queue with
  | [] => Some (Ok (seen, m))
  | cid :: queue =>
      match fuel with
      | O => None
      | S fuel =>
          if bool_decide (cid ∈ seen) then resolve_loop fuel queue seen m
          else
            let seen := {[cid]} ∪ seen in
            match chunk_descriptor limits x root cid with
            | Err e => Some (Err e)
            | Ok None => resolve_loop fuel queue seen m
            | Ok (Some b) =>
                match Descriptor.decode limits b with
                | Err _ => resolve_loop fuel queue seen m
                | Ok desc =>
                    let queue := match chain_next desc with
                                 | Some n => if bool_decide (n ∈ seen) then queue else n :: queue
                                 | None => queue
                                 end in
                    resolve_loop fuel queue seen (mark_descriptor_refs b m)
                end
            end
      end
  end.

Fixpoint push_snapshots (snapshots : list (bytes * SnapshotEntry)) (m : Marking) : Marking :=
  match snapshots with
  | [] => m
  | (_, entry) :: snapshots' => push_snapshots snapshots' (push_work m (se_root_id entry) MRoot)
  end.

Definition mark_live_full (fuel : nat) : option (outcome LiveMark) :=
  let m := push_work Marking_new (Root_id content_id root) MRoot in
  match of_tree (snapshot_list BTREE_ORDER fanout x (snapshot_tree_root root)) with
  | Err e => Some (Err e)
  | Ok snapshots =>
      match mark_loop fuel (push_snapshots snapshots m) with
      | None => None
      | Some (Err e) => Some (Err e)
      | Some (Ok m) =>
          match resolve_loop fuel (elements (mk_referenced m)) ∅ m with
          | None => None
          | Some (Err e) => Some (Err e)
          | Some (Ok (seen, m)) => Some (Ok {| lm_live := mk_live m; lm_referenced := seen; lm_descriptors := mk_descriptors m |})
          end
      end
  end.

Definition mark_live (fuel : nat) : option (outcome (gset (list Z))) :=
  match mark_live_full fuel with
  | None => None
  | Some (Err e) => Some (Err e)
  | Some (Ok mark) => Some (Ok (lm_live mark))
  end.

(** ** The nodes of a committed tree *)

Fixpoint push_children (entries : list Entry) (stack : list ChunkId) : outcome (list ChunkId) :=
  match entries with
  | [] => Ok stack
  | e :: entries' => let! child := of_tree (child_id e) in push_children entries' (child :: stack)
  end.
Fixpoint node_ids_loop (fuel : nat) (stack : list ChunkId) (out : gset (list Z)) : option (outcome (gset (list Z))) :=
  match stack with
  | [] => Some (Ok out)
  | id :: stack =>
      match fuel with
      | O => None
      | S fuel =>
          if bool_decide (id ∈ out) then node_ids_loop fuel stack out
          else
            let out := {[id]} ∪ out in
            let next :=
              let! payload := mark_fetch "missing tree node" id in
              let! node := map_err (fun e => Error (StoreIndex (OfCodec e))) (Node_decode payload BTREE_ORDER fanout) in
              match node with
              | Internal first_child entries => push_children entries (first_child :: stack)
              | Leaf _ => Ok stack
              end in
            match next with
            | Ok stack => node_ids_loop fuel stack out
            | Err e => Some (Err e)
            end
      end
  end.
Definition collect_tree_node_ids (fuel : nat) (tree_root : ChunkId) (out : gset (list Z)) : option (outcome (gset (list Z))) :=
  if ChunkId_is_zero tree_root then Some (Ok out) else node_ids_loop fuel [tree_root] out.

(** ** The entries that stay *)

Fixpoint kept_entries (mark : LiveMark) (entries : list EntryPair) : outcome (list EntryPair) :=
  match entries with
  | [] => Ok []
  | (key, value) :: entries' =>
      let! cid := ok_or (ChunkId_from_bytes key) (Error (StoreInvariant "chunk index key not 32 bytes")) in
      let! kept := kept_entries mark entries' in
      Ok (if bool_decide (cid ∈ lm_referenced mark) || bool_decide (value ∈ lm_descriptors mark) then (key, value) :: kept else kept)
  end.
End Mark.

(** * The staging provider of the rebuild

    [put] appends a node record to the writer of the fresh segment and notes
    its location; a payload that is staged already is not appended again. *)

Record RebuildProvider : Type := {
  rb_writer : SegmentWriter;
  rb_new_seq : Z;
  rb_pending : gmap (list Z) bytes;
  rb_locations : list (ChunkId * Location)
}.

(** [record::encode] with the CRC and the content id. *)
Class RecordCoder : Type := { coder_crc : bytes -> Z; coder_id : bytes -> ChunkId }.

Section Collect.
Context {coder : RecordCoder} (limits : Limits).
#[local] Abbreviation content_id := coder_id.
#[local] Abbreviation crc32c := coder_crc.
#[local] Abbreviation fanout := (max_fanout limits).

(** Append a record at the end of what the writer holds, and its location. *)
Definition append_record_at (w : SegmentWriter) (new_seq : Z) (tag : RecordTag) (flags : Z) (ml : option Z) (payload : bytes)
    : SegmentWriter * Location :=
  (SegmentWriter_append w (record_encode crc32c content_id tag flags ml payload),
   {| loc_segment_seq := new_seq; loc_offset := sw_durable_end w + buffered_len w; loc_stored_len := zlen payload;
      loc_materialized_len := ml; loc_tag := tag |}).

Definition rebuild_put (p : RebuildProvider) (id : ChunkId) (b : bytes) : RebuildProvider :=
  match rb_pending p !! id with
  | Some _ => p
  | None =>
      let '(w, loc) := append_record_at (rb_writer p) (rb_new_seq p) BtreeNode 0 None b in
      {| rb_writer := w; rb_new_seq := rb_new_seq p; rb_pending := <[id := b]> (rb_pending p); rb_locations := rb_locations p ++ [(id, loc)] |}
  end.
#[global] Instance rebuild_provider : ObjectProvider RebuildProvider :=
  {| prov_get p id := Ok (rb_pending p !! id); prov_put := rebuild_put |}.

Record RebuiltIndex : Type := {
  rx_root : ChunkId;
  rx_old_only : gset (list Z);
  rx_old_nodes : gset (list Z)
}.

(** [rebuild_chunk_index]: the index, and the provider with the writer and
    the new locations. *)
Definition rebuild_chunk_index (fuel : nat) (x : Tx StoreError) (root : Root) (w : SegmentWriter) (new_seq : Z) (mark : LiveMark)
    (new_locations : list (ChunkId * Location)) : option (outcome (RebuiltIndex * RebuildProvider)) :=
  let old_root := chunk_index_root root in
  match collect_tree_node_ids limits x fuel old_root ∅ with
  | None => None
  | Some r =>
      Some (
        let! old_nodes := r in
        let! kept := (if ChunkId_is_zero old_root then Ok []
                      else let! entries := of_tree (scan_all BTREE_ORDER fanout x old_root) in kept_entries mark entries) in
        let p := {| rb_writer := w; rb_new_seq := new_seq; rb_pending := ∅; rb_locations := new_locations |} in
        let! '(new_root, p) := of_tree (bulk_load content_id BTREE_ORDER fanout p kept) in
        Ok ({| rx_root := new_root; rx_old_only := old_nodes ∖ dom (rb_pending p); rx_old_nodes := old_nodes |}, p))
  end.

(** * The object index around a compaction *)

Definition location_le (a b : ChunkId * Location) : Prop :=
  loc_segment_seq (snd a) < loc_segment_seq (snd b) \/
  (loc_segment_seq (snd a) = loc_segment_seq (snd b) /\ loc_offset (snd a) <= loc_offset (snd b)).
#[global] Instance location_le_dec : RelDecision location_le.
Proof. intros a b. unfold location_le. apply _. Defined.

(** The live records of the victims that are copied. *)
Definition copied (victims : list Z) (live old_nodes : gset (list Z)) (current_root_id : ChunkId) (e : ChunkId * Location) : Prop :=
  loc_segment_seq (snd e) ∈ victims /\ fst e ∈ live /\ fst e ∉ old_nodes /\ fst e <> current_root_id.
#[global] Instance copied_dec victims live old_nodes current_root_id e : Decision (copied victims live old_nodes current_root_id e).
Proof. unfold copied. apply _. Defined.
Definition copy_candidates (x : ObjectIndex) (victims : list Z) (live old_nodes : gset (list Z)) (current_root_id : ChunkId)
    : list (ChunkId * Location) :=
  merge_sort location_le (base.filter (copied victims live old_nodes current_root_id) (ObjectIndex_iter x)).

(** The entries of dead records in the victims. *)
Definition dead (victims : list Z) (live old_only : gset (list Z)) (e : ChunkId * Location) : Prop :=
  loc_segment_seq (snd e) ∈ victims /\ (fst e ∉ live \/ fst e ∈ old_only).
#[global] Instance dead_dec victims live old_only e : Decision (dead victims live old_only e).
Proof. unfold dead. apply _. Defined.
Definition dead_ids (x : ObjectIndex) (victims : list Z) (live old_only : gset (list Z)) : list ChunkId :=
  map fst (base.filter (dead victims live old_only) (ObjectIndex_iter x)).

Definition insert_locations (x : ObjectIndex) (locations : list (ChunkId * Location)) : ObjectIndex :=
  fold_left (fun x e => ObjectIndex_insert x (fst e) (snd e)) locations x.
Definition remove_ids (x : ObjectIndex) (ids : list ChunkId) : ObjectIndex :=
  fold_left (fun x id => fst (ObjectIndex_remove x id)) ids x.

(** The reclaimable estimate: [+=] on a [u64]. *)
Fixpoint sum_sizes (l : list (ChunkId * Location)) (total : Z) : outcome Z :=
  match l with
  | [] => Ok total
  | (_, loc) :: l' => let! total := ok_or (checked_add 64 total (Location_total_size loc)) Panic in sum_sizes l' total
  end.
Definition reclaimable_bytes (x : ObjectIndex) (victims : list Z) (live old_only : gset (list Z)) : outcome Z :=
  sum_sizes (base.filter (dead victims live old_only) (ObjectIndex_iter x)) 0.

(** * Compaction *)

Section Compact.
Context {D : Type} `{IoBackend D} (text : StoreError -> String.string) (hooks : CrashHooks).

Record GcState : Type := { gc_log : LogState D; gc_commit : CommitState }.
Definition set_io (st : GcState) (d : D) : GcState :=
  {| gc_log := Build_LogState d (lg_index (gc_log st)) (lg_segment (gc_log st)); gc_commit := gc_commit st |}.
Definition set_index (st : GcState) (i : ObjectIndex) : GcState :=
  {| gc_log := Build_LogState (lg_io (gc_log st)) i (lg_segment (gc_log st)); gc_commit := gc_commit st |}.
Definition set_commit (st : GcState) (cs : CommitState) : GcState := {| gc_log := gc_log st; gc_commit := cs |}.
Definition install_segment (st : GcState) (w : SegmentWriter) : GcState :=
  {| gc_log := Build_LogState (lg_io (gc_log st)) (lg_index (gc_log st)) (Some w); gc_commit := gc_commit st |}.

(** The store as a provider of its committed objects. *)
Definition committed_store (l : LogState D) : Tx StoreError :=
  {| tx_text := text; tx_indexed := ObjectIndex_contains (lg_index l); tx_fetch := fetch_object l; tx_pending := ∅; tx_records := []; tx_asked := [] |}.

Definition current_segment_seq (l : LogState D) : Z := match lg_segment l with Some w => sw_seq w | None => 0 end.

(** One copied record: the flags and the materialized length stay. *)
Fixpoint copy_records (d : D) (w : SegmentWriter) (new_seq : Z) (candidates : list (ChunkId * Location)) (locations : list (ChunkId * Location))
    : result StoreError (SegmentWriter * list (ChunkId * Location)) :=
  match candidates with
  | [] => Ok (w, locations)
  | (id, loc) :: candidates' =>
      let! payload := io_read_payload d (loc_segment_seq loc) (loc_offset loc) (loc_stored_len loc) in
      let flags := match loc_materialized_len loc with Some _ => FLAG_HAS_MATERIALIZED_LEN | None => 0 end in
      let '(w, new_loc) := append_record_at w new_seq (loc_tag loc) flags (loc_materialized_len loc) payload in
      copy_records d w new_seq candidates' (locations ++ [(id, new_loc)])
  end.

(** The transport's step inside the state. *)
Definition on_io {A} (st : GcState) (m : D * result StoreError A) : GcState * outcome A :=
  (set_io st (fst m), safe (snd m)).
Definition on_flush (st : GcState) (m : (D * SegmentWriter) * result StoreError unit) : GcState * outcome SegmentWriter :=
  let '((d, w), r) := m in (set_io st d, safe (let! _ := r in Ok w)).
Definition pure_step {A} (st : GcState) (m : outcome A) : GcState * outcome A := (st, m).

(** The root that the compaction publishes. *)
Definition compacted_root (root : Root) (index_root : ChunkId) (new_seq generation : Z) : Root :=
  {| root_format_major := root_format_major root; root_format_minor := root_format_minor root; inode_index_root := inode_index_root root;
     root_dir_ino := root_dir_ino root; snapshot_tree_root := snapshot_tree_root root; model_index_root := model_index_root root;
     root_segment_seq := new_seq; index_epoch := saturating_add 64 (index_epoch root) 1; root_uuid := root_uuid root;
     root_generation := generation; chunk_index_root := index_root; log_seq := log_seq root |}.

Fixpoint delete_segments (st : GcState) (victims : list Z) : GcState * outcome unit :=
  match victims with
  | [] => (st, Ok tt)
  | seq :: victims' =>
      do! (st, u) := on_io st (io_delete_segment (lg_io (gc_log st)) seq) in
      delete_segments st victims'
  end.

(** Stages 5 and 6 on the object index. *)
Definition published_index (x : ObjectIndex) (locations : list (ChunkId * Location)) (root_id : ChunkId) (root_loc : Location) : ObjectIndex :=
  ObjectIndex_insert (insert_locations x locations) root_id root_loc.

Definition collect_impl (fuel : nat) (st : GcState) (mark : LiveMark) (victims : list Z) : option (GcState * outcome Z) :=
  let live := lm_live mark in
  let root := cs_root (gc_commit st) in
  let current_root_id := Root_id content_id root in
  let '(st, opened) :=
    do! (st, new_seq) := pure_step st (ok_or (checked_add 64 (current_segment_seq (gc_log st)) 1) Panic) in
    on_io st (SegmentWriter_open crc32c content_id (lg_io (gc_log st)) new_seq) in
  match opened with
  | Err e => Some (st, Err e)
  | Ok w =>
      let new_seq := sw_seq w in
      match rebuild_chunk_index fuel (committed_store (gc_log st)) root w new_seq mark [] with
      | None => None
      | Some rebuilt =>
          Some (
            do! (st, rp) := pure_step st rebuilt in
            let '(rx, p) := rp in
            do! (st, reclaimable) := pure_step st (reclaimable_bytes (lg_index (gc_log st)) victims live (rx_old_only rx)) in
            do! (st, wl) := pure_step st (safe (copy_records (lg_io (gc_log st)) (rb_writer p) new_seq
              (copy_candidates (lg_index (gc_log st)) victims live (rx_old_nodes rx) current_root_id) (rb_locations p))) in
            let '(w, locations) := wl in
            do! (st, w) := on_flush st (SegmentWriter_flush (lg_io (gc_log st)) w) in
            do! (st, u) := on_io st (SegmentWriter_fdatasync (lg_io (gc_log st)) w) in
            do! (st, u) := on_io st (io_sync_segments_dir (lg_io (gc_log st))) in
            do! (st, generation) := pure_step st (ok_or (checked_add 64 (cs_generation (gc_commit st)) 1) Panic) in
            let root := compacted_root (cs_root (gc_commit st)) (rx_root rx) new_seq generation in
            let root_bytes := Root_encode root in
            let root_id := content_id root_bytes in
            let offset := sw_durable_end w in
            let w := SegmentWriter_append w (record_encode crc32c content_id RootTag 0 None root_bytes) in
            do! (st, w) := on_flush st (SegmentWriter_flush (lg_io (gc_log st)) w) in
            do! (st, u) := on_io st (SegmentWriter_fdatasync (lg_io (gc_log st)) w) in
            do! (st, u) := pure_step st (safe (hit hooks AfterRootWrite)) in
            let '((slot, sb), cs) := write_superblock crc32c (gc_commit st) root_id root in
            do! (st, u) := on_io st (io_write_superblock_slot (lg_io (gc_log st)) slot sb) in
            let st := set_commit st cs in
            do! (st, u) := pure_step st (safe (hit hooks AfterSuperblockWrite)) in
            do! (st, u) := on_io st (io_fsync_superblock (lg_io (gc_log st))) in
            do! (st, u) := pure_step st (safe (hit hooks AfterSuperblockFsync)) in
            let root_loc := {| loc_segment_seq := new_seq; loc_offset := offset; loc_stored_len := zlen root_bytes;
                               loc_materialized_len := None; loc_tag := RootTag |} in
            let st := set_commit (set_index st (published_index (lg_index (gc_log st)) locations root_id root_loc)) (publish_commit (gc_commit st) root) in
            let st := install_segment st w in
            do! (st, u) := pure_step st (safe (hit hooks BeforeOldSegmentDelete)) in
            do! (st, u) := delete_segments st victims in
            let x := lg_index (gc_log st) in
            let st := set_index st (remove_ids x (dead_ids x victims live (rx_old_only rx))) in
            (st, Ok reclaimable))
      end
  end.

(** [compact_full] over the segments of the directory. *)
Definition compact_full (fuel : nat) (st : GcState) (segments : list Z) : option (GcState * outcome Z) :=
  match mark_live_full content_id limits (committed_store (gc_log st)) (cs_root (gc_commit st)) fuel with
  | None => None
  | Some (Err e) => Some (st, Err e)
  | Some (Ok mark) => if zlen segments =? 0 then Some (st, Ok 0) else collect_impl fuel st mark segments
  end.

(** [unreachable_bytes] *)
Definition unreachable_bytes (fuel : nat) (st : GcState) : option (outcome Z) :=
  match mark_live content_id limits (committed_store (gc_log st)) (cs_root (gc_commit st)) fuel with
  | None => None
  | Some (Err e) => Some (Err e)
  | Some (Ok live) => Some (sum_sizes (base.filter (fun e => fst e ∉ live) (ObjectIndex_iter (lg_index (gc_log st)))) 0)
  end.
End Compact.
End Collect.
