(* ===== verification/EpochSpec.v ===== *)
(** The overlay against finite maps: what a reader sees through it, what each
    epoch operation does to that view, and which acknowledged operations a
    recovery replays. *)
From stdpp Require Import gmap sorting.
From Stdlib Require String.
From S2P Require Import Prelude Codec Repr Version SegRecord Inode Superblock Descriptor Context Candidate Keys BTree StoreError RootObj BTreeNode BTreeSpec BTreeCheck IndexSpec RemoveSpec ScanSpec ExtentTree ExtentSpec Directory DirectorySpec Transaction TransactionSpec Namespace NamespaceSpec Mutation MutationSpec Epoch Checkpoint.
Import String.StringSyntax.

(** * A sorted map iterated *)

#[local] Instance name_le_total {A} : Total (@name_le A).
Proof.
  intros [a x] [b y]. unfold name_le, name_leb. cbn. rewrite (cmp_key_antisym a b). destruct (cmp_key a b); cbn; auto.
Qed.
#[local] Instance name_le_trans {A} : Transitive (@name_le A).
Proof.
  intros [a x] [b y] [c z]. unfold name_le, name_leb. cbn. intros Hab Hbc.
  destruct (cmp_key_spec a b), (cmp_key_spec b c), (cmp_key_spec a c); try done; korder.
Qed.

Lemma in_order_named {A} (m : gmap bytes A) : named m (in_order m).
Proof.
  unfold in_order. set (l := merge_sort name_le (map_to_list m)).
  assert (Hp : l ≡ₚ map_to_list m) by apply merge_sort_Permutation.
  assert (Hs : StronglySorted name_le l) by apply (StronglySorted_merge_sort name_le).
  split; [|intros k v; rewrite Hp; apply elem_of_map_to_list].
  assert (Hnd : NoDup (map fst l)) by (rewrite Hp; apply NoDup_fst_map_to_list).
  clear Hp. induction Hs as [|[k v] l Hs IH Hf]; [constructor|]. cbn [map] in *. apply list.NoDup_cons in Hnd as [Hnin Hnd].
  constructor; [by apply IH|]. apply list.Forall_forall. intros k' Hk'. rewrite list.Forall_forall in Hf.
  apply list_elem_of_fmap in Hk' as ([k2 v2] & -> & Hin). pose proof (Hf _ Hin) as Hle. unfold name_le, name_leb in Hle. cbn in *.
  destruct (cmp_key_spec k k2) as [->|?|?]; try done. destruct Hnin. by apply (list_elem_of_fmap_2 fst _ (k2, v2)).
Qed.

(** * The view through the overlay *)

Definition overlay_name (ep : Epoch) (N : Names) (dir : Z) (name : bytes) : option DirEntry :=
  if bool_decide ((dir, name) ∈ removed_entries ep) then None
  else match pending_entries ep !! (dir, name) with Some e => Some e | None => N !! (dir, name) end.

(** The three passes of the merge, each at one name. *)
Lemma fold_insert_lookup {V} (l : list (bytes * V)) (m : gmap bytes V) (name : bytes) :
  NoDup (map fst l) ->
  fold_left (fun m '(n, e) => <[n := e]> m) l m !! name =
  match (list_to_map l : gmap bytes V) !! name with Some e => Some e | None => m !! name end.
Proof.
  revert m. induction l as [|[n e] l IH]; intros m Hnd; [done|]. cbn [fold_left map] in *.
  apply list.NoDup_cons in Hnd as [Hnin Hnd]. rewrite IH by done. rewrite list_to_map_cons. destruct (decide (n = name)) as [->|Hne].
  - rewrite lookup_insert_eq. replace ((list_to_map l : gmap bytes V) !! name) with (@None V); [by rewrite lookup_insert_eq|].
    symmetry. by apply not_elem_of_list_to_map.
  - rewrite !lookup_insert_ne by done. done.
Qed.

Lemma fold_pending_lookup (dir : Z) (l : list (Z * bytes * DirEntry)) (m : gmap bytes DirEntry) (name : bytes) :
  NoDup (map fst l) ->
  fold_left (fun m '((p, n), e) => if p =? dir then <[n := e]> m else m) l m !! name =
  match (list_to_map l : Names) !! (dir, name) with Some e => Some e | None => m !! name end.
Proof.
  revert m. induction l as [|[[p n] e] l IH]; intros m Hnd; [done|]. cbn [fold_left map] in *.
  apply list.NoDup_cons in Hnd as [Hnin Hnd]. rewrite IH by done. rewrite list_to_map_cons. destruct (decide ((p, n) = (dir, name))) as [[= -> ->]|Hne].
  - rewrite Z.eqb_refl, !lookup_insert_eq.
    replace ((list_to_map l : Names) !! (dir, name)) with (@None DirEntry); [done|]. symmetry. by apply not_elem_of_list_to_map.
  - rewrite lookup_insert_ne by done. destruct ((list_to_map l : Names) !! (dir, name)); [done|].
    destruct (Z.eqb_spec p dir) as [->|]; [|done]. by rewrite lookup_insert_ne by congruence.
Qed.

Lemma fold_removed_lookup (dir : Z) (l : list (Z * bytes)) (m : gmap bytes DirEntry) (name : bytes) :
  fold_left (fun m '(p, n) => if p =? dir then delete n m else m) l m !! name =
  if bool_decide ((dir, name) ∈ l) then None else m !! name.
Proof.
  revert m. induction l as [|[p n] l IH]; intros m; [done|]. cbn [fold_left]. rewrite IH.
  destruct (decide ((dir, name) ∈ l)) as [Hin|Hnin].
  - rewrite !bool_decide_eq_true_2 by (done || by right). done.
  - rewrite (bool_decide_eq_false_2 ((dir, name) ∈ l)) by done. destruct (decide ((dir, name) = (p, n))) as [[= <- <-]|Hne].
    + rewrite Z.eqb_refl, bool_decide_eq_true_2 by left. by rewrite lookup_delete_eq.
    + rewrite bool_decide_eq_false_2 by (rewrite elem_of_cons; tauto).
      destruct (Z.eqb_spec p dir) as [->|]; [|done]. by rewrite lookup_delete_ne by congruence.
Qed.

Lemma merge_entries_lookup ep N dir E l name :
  named E l -> view N dir E -> merge_entries ep dir l !! name = overlay_name ep N dir name.
Proof.
  intros [Hs Hl] Hv. unfold merge_entries, overlay_name. rewrite fold_removed_lookup.
  rewrite (bool_decide_ext _ _ (elem_of_elements (removed_entries ep) (dir, name))). case_bool_decide; [done|].
  rewrite fold_pending_lookup by apply NoDup_fst_map_to_list. rewrite list_to_map_to_list.
  destruct (pending_entries ep !! (dir, name)); [done|]. rewrite fold_insert_lookup by by apply sorted_NoDup.
  rewrite <-Hv. destruct ((list_to_map l : gmap bytes DirEntry) !! name) as [e|] eqn:El.
  - symmetry. apply Hl. apply elem_of_list_to_map_2. done.
  - rewrite lookup_empty. symmetry. destruct (E !! name) eqn:EE; [|done]. apply Hl in EE.
    apply not_elem_of_list_to_map in El. destruct El. by apply (list_elem_of_fmap_2 fst) in EE.
Qed.

Section Reads.
Context (limits : Limits) (sh : Shape) (x : Tx StoreError) (root : Root) (n : nat) (I : gmap Z Inode) (N : Names).
(** The committed store stands for the inodes [I] and the names [N]. *)
#[local] Abbreviation store := {| txn_tx := x; txn_root := root; txn_features := 0 |}.
Context (HF : fs limits sh store n I N) (Hpend : tx_pending x = ∅) (Hn : (n <= 128)%nat).
Context (Hsize : forall dir E, view N dir E -> Z.of_nat (size E) < 2 ^ 64 - 1).
#[local] Abbreviation fanout := (max_fanout limits).

Lemma get_inode_ok ino : is_u64 ino -> get_inode limits x root ino = Ok (I !! ino).
Proof.
  intros Hi. pose proof (inodes_lookup limits sh x n _ I ino (fs_inodes _ _ _ _ _ _ HF) Hn Hi) as Hl. unfold get_inode. cbn in Hl.
  destruct (I !! ino) as [i|]; [destruct Hl as (id & -> & Ho)|rewrite Hl]; cbn [of_tree map_err rbind]; [|done].
  rewrite (load_inode_ok x _ id i); [done| |done]. unfold fetch_pending_or_store. by rewrite Hpend, lookup_empty.
Qed.

Lemma get_inode_epoch_ok ep ino : is_u64 ino -> get_inode_epoch limits x root ep ino = Ok (overlay_inode ep ino (I !! ino)).
Proof. intros Hi. unfold get_inode_epoch. by rewrite get_inode_ok. Qed.

(** A directory, or a number the committed store does not have. *)
Definition dir_ready (dir : Z) : Prop := forall i, I !! dir = Some i -> is_Some (dir_data i).

Lemma committed_dir_ok dir : is_u64 dir -> dir_ready dir ->
  exists r E, committed_dir_root limits x root dir = Ok r /\ DirectorySpec.directory BTREE_ORDER fanout x sh n r E /\ view N dir E.
Proof.
  intros Hu Hd. unfold committed_dir_root. rewrite get_inode_ok by done. cbn [rbind].
  destruct (I !! dir) as [i|] eqn:Ei.
  - destruct (Hd i Ei) as [r Hr]. rewrite (dir_root_of_ok _ _ _ Hr).
    destruct (fs_dirs _ _ _ _ _ _ HF dir i r Ei Hr) as (E & HE & Hv). by exists r, E.
  - exists ChunkId_ZERO, ∅. split; [done|]. split.
    + split; [|apply map_Forall_empty]. exists []. split; [by left|done].
    + intros name. rewrite lookup_empty. destruct (N !! (dir, name)) eqn:En; [|done].
      destruct (fs_owner _ _ _ _ _ _ HF _ _ _ En) as (i & Hi & _). congruence.
Qed.

Lemma directory_zero (p : Tx StoreError) m (r : ChunkId) E :
  DirectorySpec.directory BTREE_ORDER fanout p sh m r E -> ChunkId_is_zero r = true -> E = ∅.
Proof.
  intros [(l & [[_ ->]|Ht] & Em) _] Hz; [by apply (fmap_empty_inv DirEntry_encode)|].
  by rewrite (tree_nonzero _ _ _ _ _ _ _ _ _ Ht) in Hz.
Qed.

Lemma dir_lookup_epoch_ok ep dir name : is_u64 dir -> dir_ready dir ->
  dir_lookup_epoch limits x root ep dir name = Ok (overlay_name ep N dir name).
Proof.
  intros Hu Hd. destruct (committed_dir_ok dir Hu Hd) as (r & E & Er & HE & Hv).
  unfold dir_lookup_epoch, overlay_entry, overlay_name. case_bool_decide; [done|].
  destruct (pending_entries ep !! (dir, name)); [done|]. rewrite Er. cbn [rbind]. rewrite <-Hv.
  destruct (ChunkId_is_zero r) eqn:Ez; [by rewrite (directory_zero _ _ _ _ HE Ez), lookup_empty|].
  by rewrite (dir_lookup_ok _ _ _ _ _ _ _ _ HE Hn).
Qed.

Lemma take_after_none (l : list (bytes * DirEntry)) : zlen l <= USIZE_MAX -> take (Z.to_nat USIZE_MAX) (after None l) = l.
Proof.
  intros Hl. assert (Hall : after None l = l).
  { clear Hl. unfold after. induction l as [|y l IH]; [done|]. by rewrite filter_cons_True, IH. }
  rewrite Hall. apply take_ge. unfold zlen in Hl. lia.
Qed.

Lemma scan_committed (p : Tx StoreError) m (r : ChunkId) dir E :
  DirectorySpec.directory BTREE_ORDER fanout p sh m r E -> (m <= 128)%nat -> view N dir E ->
  exists l, named E l /\
    (if ChunkId_is_zero r then Ok []
     else let! '(l, _) := of_tree (dir_scan BTREE_ORDER fanout p r None USIZE_MAX) in Ok l : outcome (list (bytes * DirEntry))) = Ok l.
Proof.
  intros HE Hm Hv. destruct (dir_scan_ok BTREE_ORDER fanout order_ok p sh m r E None USIZE_MAX HE Hm ltac:(done)) as (l & more & Hl & Hscan).
  exists l. split; [done|]. pose proof (named_size _ _ Hl) as Hsz. pose proof (Hsize dir E Hv).
  destruct (ChunkId_is_zero r) eqn:Ez.
  - rewrite (directory_zero _ _ _ _ HE Ez) in Hsz. by destruct l.
  - destruct Hscan as [-> _]; [unfold zlen; lia|]. cbn [of_tree map_err rbind]. by rewrite take_after_none by (unfold zlen, USIZE_MAX; lia).
Qed.

(** C16. Lookup and listing agree.  Through the overlay of an epoch a
    directory, committed or made by the epoch, has one view: the removed
    names are gone, a pending entry shadows the committed one.  A lookup
    returns the view's entry and a listing returns exactly the view, in name
    order. *)
Theorem epoch_reads_agree ep dir : is_u64 dir -> dir_ready dir ->
  (forall name, dir_lookup_epoch limits x root ep dir name = Ok (overlay_name ep N dir name)) /\
  exists E l, (forall name, E !! name = overlay_name ep N dir name) /\ named E l /\ read_dir_epoch limits x root ep dir = Ok l.
Proof.
  intros Hu Hd. split; [intros name; by apply dir_lookup_epoch_ok|].
  destruct (committed_dir_ok dir Hu Hd) as (r & E & Er & HE & Hv). unfold read_dir_epoch. rewrite Er. cbn [rbind].
  destruct (scan_committed x n r dir E HE Hn Hv) as (l & Hl & ->). cbn [rbind].
  exists (merge_entries ep dir l), (in_order (merge_entries ep dir l)). split; [|split; [apply in_order_named|done]].
  intros name. by eapply merge_entries_lookup.
Qed.

Lemma read_dir_epoch_empty ep dir : is_u64 dir -> dir_ready dir ->
  exists l, read_dir_epoch limits x root ep dir = Ok l /\ (l = [] <-> forall name, overlay_name ep N dir name = None).
Proof.
  intros Hu Hd. destruct (committed_dir_ok dir Hu Hd) as (r & E & Er & HE & Hv). unfold read_dir_epoch. rewrite Er. cbn [rbind].
  destruct (scan_committed x n r dir E HE Hn Hv) as (l & Hl & ->). cbn [rbind]. eexists. split; [done|].
  pose proof (in_order_named (merge_entries ep dir l)) as Hin. pose proof (named_size _ _ Hin) as Hsz. split.
  - intros El name. rewrite El in Hsz. symmetry in Hsz. apply map_size_empty_inv in Hsz.
    by rewrite <-(merge_entries_lookup ep N dir E l name Hl Hv), Hsz, lookup_empty.
  - intros Hno. assert (merge_entries ep dir l = ∅) as ->; [|done]. apply map_eq. intros name.
    by rewrite (merge_entries_lookup ep N dir E l name Hl Hv), Hno, lookup_empty.
Qed.
End Reads.

(** * What an operation does to the view *)

Lemma with_mtime_wf i tm : inode_wf i -> timespec_wf tm -> inode_wf (with_mtime i tm).
Proof. intros [] Ht. split; done. Qed.

Lemma validate_name_ok name : wf_bytes name -> validate_name name = true -> name_ok name.
Proof. unfold validate_name. intros Hw Hv. bools. split; [done|lia]. Qed.

Section Operations.
Context (content_id : bytes -> ChunkId) (limits : Limits) (now : nat -> Timespec) (read_only : bool).
Context (Hid : forall b, wf_id (content_id b)) (Hnow : forall i, timespec_wf (now i)).
Context (sh : Shape) (x : Tx StoreError) (root : Root) (n : nat) (I : gmap Z Inode) (N : Names).
#[local] Abbreviation store := {| txn_tx := x; txn_root := root; txn_features := 0 |}.
Context (HF : fs limits sh store n I N) (Hpend : tx_pending x = ∅) (Hn : (n <= 128)%nat).
Context (Hsize : forall dir E, view N dir E -> Z.of_nat (size E) < 2 ^ 64 - 1).
Implicit Types (ep : Epoch).

(** The overlay fields that staging leaves alone. *)
Definition same_overlay ep ep' : Prop :=
  ep_seq ep' = ep_seq ep /\ pending_inodes ep' = pending_inodes ep /\ removed_inodes ep' = removed_inodes ep /\
  pending_entries ep' = pending_entries ep /\ removed_entries ep' = removed_entries ep /\
  pending_extents ep' = pending_extents ep /\ pending_chunks ep' = pending_chunks ep /\ max_ino ep' = max_ino ep.
(** The object of [payload] will be found: it is in the index already, or it
    is staged and an overlay read finds its payload. *)
Definition resolvable ep (payload : bytes) : Prop :=
  tx_indexed x (content_id payload) = true \/ content_id payload ∈ staged_objects ep.

Lemma epoch_stage_ok ep records tag payload ml :
  exists ep' more, epoch_stage content_id x ep records tag payload ml = (content_id payload, ep', records ++ more) /\
    same_overlay ep ep' /\ resolvable ep' payload /\ (forall p, resolvable ep p -> resolvable ep' p).
Proof.
  unfold epoch_stage, is_staged, resolvable. case_bool_decide as Hs; cbn [orb].
  { exists ep, []. rewrite app_nil_r. split_and!; try done. by right. }
  destruct (tx_indexed x (content_id payload)) eqn:Ei.
  { exists ep, []. rewrite app_nil_r. split_and!; try done. by left. }
  eexists _, [_]. split; [reflexivity|]. cbn. split_and!; try done; [by right; set_solver|]. intros p [?|?]; [by left|right; set_solver].
Qed.

Lemma stage_inode_ok ep records i : data_wf (i_data i) ->
  exists ep' more, stage_inode content_id x ep records i = Ok (content_id (inode_image i), ep', records ++ more) /\
    same_overlay ep ep' /\ resolvable ep' (inode_image i) /\ (forall p, resolvable ep p -> resolvable ep' p).
Proof.
  intros Hd. unfold stage_inode. rewrite Inode_encode_image by done. cbn [of_trap_codec map_err rbind].
  destruct (epoch_stage_ok ep records InodeTag (inode_image i) None) as (ep' & more & -> & ?). by exists ep', more.
Qed.

Lemma log_op_ok ep records op : 0 <= ep_seq ep < 2 ^ 64 - 1 -> op_ok op -> zlen (op_image op) < 2 ^ 62 ->
  exists env, log_op ep records op =
      Ok (set_seq ep (ep_seq ep + 1), records ++ [{| pr_tag := MutationLog; pr_payload := env; pr_materialized_len := None |}]) /\
    decode_envelope env = if decodable op then Ok (ep_seq ep + 1, op) else Err (StoreDescriptor (OfCodec Malformed)).
Proof.
  intros Hseq Hop Hl. exists (to_le 8 (ep_seq ep + 1) ++ op_image op).
  destruct (envelope_ok (ep_seq ep) op [] Hseq Hop) as (He & _ & Hd); [by rewrite app_nil_r|]. rewrite app_nil_r in Hd. split; [|done].
  unfold log_op, Epoch_envelope. by rewrite He.
Qed.

(** The epoch after a create. *)
Definition created_view ep ep' (parent : Z) (name : bytes) (ino : Z) (inode pin : Inode) (d_type : Z) : Prop :=
  (forall d nm, overlay_name ep' N d nm =
    if decide ((d, nm) = (parent, name))
    then (if bool_decide ((parent, name) ∈ removed_entries ep) then None else Some {| de_ino := ino; de_d_type := d_type |})
    else overlay_name ep N d nm) /\
  (forall i c, i ∉ removed_inodes ep -> overlay_inode ep' i c =
    if decide (i = parent) then Some pin else if decide (i = ino) then Some inode else overlay_inode ep i c) /\
  ep_seq ep' = ep_seq ep + 1.

(** The fields behind that view. *)
Definition created_fields ep ep' (parent : Z) (name : bytes) (ino : Z) (inode pin : Inode) (d_type : Z) : Prop :=
  ep_seq ep' = ep_seq ep + 1 /\ pending_inodes ep' = <[parent := pin]> (<[ino := inode]> (pending_inodes ep)) /\
  removed_inodes ep' = removed_inodes ep /\
  pending_entries ep' = <[(parent, name) := {| de_ino := ino; de_d_type := d_type |}]> (pending_entries ep) /\
  removed_entries ep' = removed_entries ep /\ pending_extents ep' = pending_extents ep /\ pending_chunks ep' = pending_chunks ep /\
  max_ino ep' = ino.

Lemma created_fields_view ep ep' parent name ino inode pin d_type :
  created_fields ep ep' parent name ino inode pin d_type -> created_view ep ep' parent name ino inode pin d_type.
Proof.
  intros (S1 & S2 & S3 & S4 & S5 & _). split_and!; [..|done].
  - intros d nm. unfold overlay_name. rewrite S5, S4.
    destruct (decide ((d, nm) = (parent, name))) as [[= -> ->]|Hne]; [by rewrite lookup_insert_eq|by rewrite lookup_insert_ne by congruence].
  - intros i c Hi. unfold overlay_inode. rewrite S3, S2.
    rewrite (bool_decide_eq_false_2 (i ∈ removed_inodes ep)) by done. destruct (decide (i = parent)) as [->|]; [by rewrite lookup_insert_eq|].
    rewrite lookup_insert_ne by done. destruct (decide (i = ino)) as [->|]; [by rewrite lookup_insert_eq|by rewrite lookup_insert_ne].
Qed.

Lemma epoch_alloc_fields ep ino ep0 : epoch_alloc limits x root ep = Ok (ino, ep0) -> ep0 = set_max_ino ep ino.
Proof.
  unfold epoch_alloc. destruct (max_ino ep =? 0); [|by intros [= <- <-]]. destruct (all_inodes limits x root); [|done]. by intros [= <- <-].
Qed.

Lemma epoch_create_apply_ok ep parent pi name e ino ep0 :
  is_u64 parent -> name_ok name -> entry_ok e -> 0 <= ep_seq ep < 2 ^ 64 - 1 -> inode_wf pi ->
  epoch_alloc limits x root ep = Ok (ino, ep0) -> is_u64 ino ->
  let inode := entry_inode (now 0%nat) e in
  let pin := with_mtime pi (now 1%nat) in
  let pin := if is_directory (ne_kind e) then nlink_inc pin else pin in
  let d_type := entry_d_type (ne_kind e) in
  exists ep' records env,
    epoch_create_apply content_id limits now x root ep parent pi name e =
      Ok (ino, ep', records ++ [{| pr_tag := MutationLog; pr_payload := env; pr_materialized_len := None |}]) /\
    created_fields ep ep' parent name ino inode pin d_type /\ inode_wf inode /\ inode_wf pin /\
    decode_envelope env = Ok (ep_seq ep + 1,
      OpCreate parent name ino d_type (content_id (inode_image inode)) (content_id (inode_image pin))) /\
    resolvable ep' (inode_image inode) /\ resolvable ep' (inode_image pin).
Proof.
  intros Hu Ev He Hseq Hpiwf Ealloc Hino. cbv zeta. unfold epoch_create_apply. rewrite Ealloc. cbn [rbind].
  set (inode := entry_inode _ e). set (pin := if is_directory _ then _ else _).
  assert (Hiw : inode_wf inode) by (by apply entry_inode_wf).
  assert (Hpw : inode_wf pin) by (unfold pin; destruct (is_directory _); [apply nlink_inc_wf|]; by apply with_mtime_wf).
  apply epoch_alloc_fields in Ealloc as ->. set (ep0 := set_max_ino ep ino).
  destruct (stage_inode_ok ep0 [] inode (iw_data _ Hiw)) as (ep1 & more1 & -> & (S11 & S12 & S13 & S14 & S15 & S16 & S17 & S18) & Hr1 & _). cbn [rbind].
  destruct (stage_inode_ok ep1 ([] ++ more1) pin (iw_data _ Hpw))
    as (ep2 & more2 & -> & (S21 & S22 & S23 & S24 & S25 & S26 & S27 & S28) & Hr2 & Hk2). cbn [rbind].
  set (ep3 := pend_entry _ parent name _).
  assert (E3 : ep_seq ep3 = ep_seq ep) by (cbn; rewrite S21, S11; done).
  set (op := OpCreate _ _ _ _ _ _).
  assert (Hop : op_ok op).
  { split_and!; try done; [|apply Hid..]. destruct (ne_kind e); cbn; unfold DT_REG, DT_DIR, DT_LNK, DT_UNKNOWN; width. }
  destruct (log_op_ok ep3 (([] ++ more1) ++ more2) op) as (env & -> & Henv); [by rewrite E3 | done | pose proof (op_image_len op Hop); cbn in *; lia |].
  cbn [rbind]. rewrite E3 in *. eexists _, _, env. split; [reflexivity|].
  split; [|split; [done|split; [done|split; [done|split; [by apply Hk2|done]]]]].
  unfold created_fields. cbn. rewrite S22, S12, S23, S13, S24, S14, S25, S15, S26, S16, S27, S17, S28, S18. by split_and!.
Qed.

(** C14. [epoch_create].  Behind the guards, each with its own error, a create
    puts the inode and the parent's update into the overlay and takes the next
    sequence number; its records end with an envelope from which recovery
    reads the operation back, whose objects are staged or indexed.  The new
    name is visible, except when the epoch had removed the name before: then
    the create is acknowledged and the name stays absent. *)
Theorem epoch_create_exact ep parent name e :
  is_u64 parent -> dir_ready I parent -> wf_bytes name -> entry_ok e -> 0 <= ep_seq ep < 2 ^ 64 - 1 ->
  (forall pi, overlay_inode ep parent (I !! parent) = Some pi -> inode_wf pi) ->
  let m := epoch_create content_id limits now read_only x root ep parent name e in
  if read_only then m = Err (Error StoreReadOnly)
  else if negb (validate_name name) then m = config_error "invalid entry name"
  else match overlay_inode ep parent (I !! parent) with
  | None => m = invariant "parent missing"
  | Some pi =>
      if bool_decide (dir_data pi = None) then m = invariant "parent not a directory"
      else match overlay_name ep N parent name with
      | Some _ => m = invariant "entry already exists"
      | None =>
          forall ino ep0, epoch_alloc limits x root ep = Ok (ino, ep0) -> is_u64 ino ->
          let inode := entry_inode (now 0%nat) e in
          let pin := with_mtime pi (now 1%nat) in
          let pin := if is_directory (ne_kind e) then nlink_inc pin else pin in
          let d_type := entry_d_type (ne_kind e) in
          exists ep' records env,
            m = Ok (ino, ep', records ++ [{| pr_tag := MutationLog; pr_payload := env; pr_materialized_len := None |}]) /\
            created_view ep ep' parent name ino inode pin d_type /\
            decode_envelope env = Ok (ep_seq ep + 1,
              OpCreate parent name ino d_type (content_id (inode_image inode)) (content_id (inode_image pin))) /\
            resolvable ep' (inode_image inode) /\ resolvable ep' (inode_image pin)
      end
  end.
Proof.
  intros Hu Hd Hw He Hseq Hpiwf. cbv zeta. unfold epoch_create, ensure_writable, name_guard. destruct read_only; [done|]. cbn [rbind].
  destruct (validate_name name) eqn:Ev; cbn [negb rbind]; [|done]. apply validate_name_ok in Ev; [|done].
  unfold present_inode. rewrite (get_inode_epoch_ok limits sh x root n I N HF Hpend Hn ep parent Hu). cbn [rbind].
  destruct (overlay_inode ep parent (I !! parent)) as [pi|] eqn:Epi; cbn [ok_or rbind]; [|done]. specialize (Hpiwf pi eq_refl).
  destruct (dir_data pi) as [r|] eqn:Er; [|by rewrite bool_decide_eq_true_2, (dir_root_of_not _ _ Er)].
  rewrite bool_decide_eq_false_2 by done. rewrite (dir_root_of_ok _ _ _ Er). cbn [rbind].
  rewrite (dir_lookup_epoch_ok limits sh x root n I N HF Hpend Hn ep parent name Hu Hd). cbn [rbind].
  destruct (overlay_name ep N parent name) as [old|] eqn:Eo; [done|]. rewrite bool_decide_eq_false_2 by by intros [? ?].
  intros ino ep0 Ealloc Hino.
  destruct (epoch_create_apply_ok ep parent pi name e ino ep0 Hu Ev He Hseq Hpiwf Ealloc Hino)
    as (ep' & records & env & E & Hf & _ & _ & Henv & Hr). exists ep', records, env. split; [done|]. split; [by apply created_fields_view|done].
Qed.

(** The epoch after a removal: the inode is gone or has lost a link. *)
Definition removed_view ep ep' (parent : Z) (name : bytes) (ino : Z) (left_ : option Inode) (pin : Inode) : Prop :=
  (forall d nm, overlay_name ep' N d nm = if decide ((d, nm) = (parent, name)) then None else overlay_name ep N d nm) /\
  (forall i c, i ∉ removed_inodes ep -> overlay_inode ep' i c =
    if decide (i = ino) then left_ else if decide (i = parent) then Some pin else overlay_inode ep i c) /\
  ep_seq ep' = ep_seq ep + 1.

(** The fields behind that view. *)
Definition removed_fields ep ep' (parent : Z) (name : bytes) (ino : Z) (left_ : option Inode) (pin : Inode) : Prop :=
  ep_seq ep' = ep_seq ep + 1 /\ pending_entries ep' = pending_entries ep /\
  removed_entries ep' = {[(parent, name)]} ∪ removed_entries ep /\
  pending_extents ep' = pending_extents ep /\ pending_chunks ep' = pending_chunks ep /\ max_ino ep' = max_ino ep /\
  match left_ with
  | None => pending_inodes ep' = <[parent := pin]> (pending_inodes ep) /\ removed_inodes ep' = {[ino]} ∪ removed_inodes ep
  | Some t => pending_inodes ep' = <[parent := pin]> (<[ino := t]> (pending_inodes ep)) /\ removed_inodes ep' = removed_inodes ep
  end.

Lemma removed_fields_view ep ep' parent name ino left_ pin : ino <> parent -> parent ∉ removed_inodes ep ->
  removed_fields ep ep' parent name ino left_ pin -> removed_view ep ep' parent name ino left_ pin.
Proof.
  intros Hne Hpr (S1 & S4 & S5 & _ & _ & _ & S2). split_and!; [..|done].
  - intros d nm. unfold overlay_name. rewrite S5, S4.
    destruct (decide ((d, nm) = (parent, name))) as [->|Hnk]; [by rewrite bool_decide_eq_true_2 by (clear; set_solver)|].
    rewrite (bool_decide_ext _ ((d, nm) ∈ removed_entries ep)) by (clear -Hnk; set_solver). done.
  - intros i c Hi. unfold overlay_inode. destruct left_ as [t|]; destruct S2 as [-> ->].
    + rewrite bool_decide_eq_false_2 by done. destruct (decide (i = ino)) as [->|].
      * by rewrite lookup_insert_ne, lookup_insert_eq by done.
      * destruct (decide (i = parent)) as [->|].
        -- by rewrite lookup_insert_eq.
        -- by rewrite !lookup_insert_ne by done.
    + destruct (decide (i = ino)) as [->|Hnino]; [by rewrite bool_decide_eq_true_2 by (clear; set_solver)|].
      assert (Hi' : i ∉ {[ino]} ∪ removed_inodes ep) by (clear -Hi Hnino; set_solver). rewrite !bool_decide_eq_false_2 by done.
      destruct (decide (i = parent)) as [->|]; [by rewrite lookup_insert_eq|by rewrite lookup_insert_ne].
Qed.

Lemma epoch_drop_child_ok ep records is_dir_ ino target : inode_wf target ->
  exists id ep' more, epoch_drop_child content_id x ep records is_dir_ ino target = Ok (id, ep', records ++ more) /\
    id = (fun t => content_id (inode_image t)) <$> dropped is_dir_ target /\
    (forall t, dropped is_dir_ target = Some t -> resolvable ep' (inode_image t)) /\
    (forall p, resolvable ep p -> resolvable ep' p) /\
    ep_seq ep' = ep_seq ep /\ pending_entries ep' = pending_entries ep /\ removed_entries ep' = removed_entries ep /\
    pending_extents ep' = pending_extents ep /\ pending_chunks ep' = pending_chunks ep /\ max_ino ep' = max_ino ep /\
    match dropped is_dir_ target with
    | None => pending_inodes ep' = pending_inodes ep /\ removed_inodes ep' = {[ino]} ∪ removed_inodes ep
    | Some t => pending_inodes ep' = <[ino := t]> (pending_inodes ep) /\ removed_inodes ep' = removed_inodes ep
    end.
Proof.
  intros Hw. unfold epoch_drop_child, dropped.
  destruct is_dir_; [exists None, (drop_inode ep ino), []; rewrite app_nil_r; by split_and!|].
  destruct (i_nlink (nlink_dec target) =? 0); [exists None, (drop_inode ep ino), []; rewrite app_nil_r; by split_and!|].
  destruct (stage_inode_ok ep records (nlink_dec target) (iw_data _ (nlink_dec_wf _ Hw)))
    as (ep1 & more & -> & (S1 & S2 & S3 & S4 & S5 & S6 & S7 & S8) & Hr & Hk). cbn [rbind].
  eexists _, _, more. split; [reflexivity|]. cbn. rewrite S1, S2, S3, S4, S5, S6, S7, S8. split_and!; try done. by intros t [= <-].
Qed.

Lemma epoch_unlink_apply_ok ep parent pin name is_dir_ ino target :
  is_u64 parent -> name_ok name -> is_u64 ino -> 0 <= ep_seq ep < 2 ^ 64 - 1 -> inode_wf pin -> inode_wf target ->
  exists ep' records env,
    epoch_unlink_apply content_id x ep parent pin name is_dir_ ino target =
      Ok (ino, ep', records ++ [{| pr_tag := MutationLog; pr_payload := env; pr_materialized_len := None |}]) /\
    removed_fields ep ep' parent name ino (dropped is_dir_ target) pin /\
    decode_envelope env = Ok (ep_seq ep + 1, OpUnlink parent name ino is_dir_ (content_id (inode_image pin))
      ((fun t => content_id (inode_image t)) <$> dropped is_dir_ target)) /\
    resolvable ep' (inode_image pin) /\
    (forall t, dropped is_dir_ target = Some t -> resolvable ep' (inode_image t)).
Proof.
  intros Hu Hname Hino Hseq Hpw Htw. unfold epoch_unlink_apply.
  destruct (stage_inode_ok ep [] pin (iw_data _ Hpw)) as (ep1 & more1 & -> & (S11 & S12 & S13 & S14 & S15 & S16 & S17 & S18) & Hr1 & _). cbn [rbind].
  destruct (epoch_drop_child_ok ep1 ([] ++ more1) is_dir_ ino target Htw)
    as (id & ep2 & more2 & -> & -> & Hr2 & Hk2 & S21 & S24 & S25 & S26 & S27 & S28 & S2). cbn [rbind].
  set (ep3 := drop_entry _ parent name). assert (E3 : ep_seq ep3 = ep_seq ep) by (cbn; rewrite S21, S11; done).
  set (op := OpUnlink _ _ _ _ _ _).
  assert (Hop : op_ok op). { cbn. split_and!; try done; try apply Hid. destruct (dropped is_dir_ target); cbn; [apply Hid|done]. }
  destruct (log_op_ok ep3 (([] ++ more1) ++ more2) op) as (env & -> & Henv); [by rewrite E3 | done | pose proof (op_image_len op Hop); cbn in *; lia |].
  cbn [rbind]. rewrite E3 in *. eexists _, _, env. split; [reflexivity|]. split; [|split; [done|split; [by apply Hk2|done]]].
  unfold removed_fields. cbn. rewrite S24, S14, S25, S15, S26, S16, S27, S17, S28, S18. split_and!; [done..|].
  destruct (dropped is_dir_ target) as [t|]; destruct S2 as [-> ->]; by rewrite S12, S13.
Qed.

(** C17. [epoch_unlink].  Behind the guards, each with its own error, a removal
    takes the name out of the view and nothing else, drops the inode (a
    directory, or a last link) or leaves it with one link less, and takes the
    next sequence number; its envelope reads back, and the objects it names
    are staged or indexed.  A directory is refused exactly when the view
    has names in it. *)
Theorem epoch_unlink_exact ep parent name is_dir_ :
  is_u64 parent -> dir_ready I parent -> wf_bytes name -> 0 <= ep_seq ep < 2 ^ 64 - 1 ->
  (forall i p, overlay_inode ep i (I !! i) = Some p -> inode_wf p) ->
  (forall e, overlay_name ep N parent name = Some e -> is_u64 (de_ino e) /\ de_ino e <> parent /\
    forall target, overlay_inode ep (de_ino e) (I !! de_ino e) = Some target -> is_dir target = true -> dir_ready I (de_ino e)) ->
  let m := epoch_unlink content_id limits now read_only x root ep parent name is_dir_ in
  if read_only then m = Err (Error StoreReadOnly)
  else if negb (validate_name name) then m = config_error "invalid entry name"
  else match overlay_name ep N parent name with
  | None => m = invariant "no such entry"
  | Some e =>
      match overlay_inode ep (de_ino e) (I !! de_ino e) with
      | None => m = invariant "target inode missing"
      | Some target =>
          if is_dir_ && negb (is_dir target) then m = invariant "not a directory"
          else if negb is_dir_ && is_dir target then m = invariant "is a directory"
          else
            (is_dir_ = true -> ~ (forall nm, overlay_name ep N (de_ino e) nm = None) -> m = invariant "directory not empty") /\
            ((is_dir_ = true -> forall nm, overlay_name ep N (de_ino e) nm = None) ->
             match overlay_inode ep parent (I !! parent) with
             | None => m = invariant "parent missing"
             | Some pi =>
                 let pin := with_mtime pi (now 0%nat) in
                 let pin := if is_dir target then nlink_dec pin else pin in
                 exists ep' records env,
                   m = Ok (de_ino e, ep', records ++ [{| pr_tag := MutationLog; pr_payload := env; pr_materialized_len := None |}]) /\
                   removed_view ep ep' parent name (de_ino e) (dropped is_dir_ target) pin /\
                   decode_envelope env = Ok (ep_seq ep + 1, OpUnlink parent name (de_ino e) is_dir_ (content_id (inode_image pin))
                     ((fun t => content_id (inode_image t)) <$> dropped is_dir_ target)) /\
                   resolvable ep' (inode_image pin) /\
                   (forall t, dropped is_dir_ target = Some t -> resolvable ep' (inode_image t))
             end)
      end
  end.
Proof.
  intros Hu Hd Hw Hseq Hwf Hent. cbv zeta. unfold epoch_unlink, ensure_writable, name_guard. destruct read_only; [done|]. cbn [rbind].
  destruct (validate_name name) eqn:Ev; cbn [negb rbind]; [|done]. apply validate_name_ok in Ev; [|done].
  rewrite (dir_lookup_epoch_ok limits sh x root n I N HF Hpend Hn ep parent name Hu Hd). cbn [rbind].
  destruct (overlay_name ep N parent name) as [e|] eqn:Eo; cbn [ok_or rbind]; [|done]. destruct (Hent e eq_refl) as (Heu & Hne & Her).
  unfold present_inode. rewrite (get_inode_epoch_ok limits sh x root n I N HF Hpend Hn ep (de_ino e) Heu). cbn [rbind].
  destruct (overlay_inode ep (de_ino e) (I !! de_ino e)) as [target|] eqn:Et; cbn [ok_or rbind]; [|done]. specialize (Hwf _ _ Et) as Htw.
  unfold epoch_unlink_guard.
  specialize (Her target eq_refl). destruct is_dir_, (is_dir target) eqn:Ed; cbn [negb andb]; try done.
  1: destruct (read_dir_epoch_empty limits sh x root n I N HF Hpend Hn Hsize ep (de_ino e) Heu (Her eq_refl)) as (l & El & Hl);
    rewrite El; cbn [rbind]; case_bool_decide as Hnil; cbn [negb].
  2: { split; [done|]. intros Hno. by destruct Hnil; apply Hl, Hno. }
  all: split; [try done; intros _ []; by apply Hl|]; intros _; cbn [rbind].
  all: rewrite (get_inode_epoch_ok limits sh x root n I N HF Hpend Hn ep parent Hu); cbn [rbind].
  all: destruct (overlay_inode ep parent (I !! parent)) as [pi|] eqn:Ep; cbn [ok_or rbind]; [|done]; specialize (Hwf _ _ Ep) as Hpw.
  all: assert (Hpr : parent ∉ removed_inodes ep) by (unfold overlay_inode in Ep; by case_bool_decide).
  all: match goal with |- exists ep' records env, epoch_unlink_apply _ _ _ _ ?p _ ?d ?i ?t = _ /\ _ =>
         destruct (epoch_unlink_apply_ok ep parent p name d i t) as (ep' & records & env & E & Hf & Hr); try done;
         try apply nlink_dec_wf; try (by apply with_mtime_wf); exists ep', records, env; split; [done|]; split; [by apply removed_fields_view|done] end.
Qed.
End Operations.

(** * Examples *)

(** The transaction's objects in the store, nothing staged: what its commit
    leaves. *)
Definition settled (x : Tx StoreError) : Tx StoreError :=
  {| tx_text := tx_text x;
     tx_indexed := fun id => bool_decide (is_Some (tx_pending x !! id)) || tx_indexed x id;
     tx_fetch := fetch_pending_or_store x;
     tx_pending := ∅;
     tx_records := []; tx_asked := [] |}.

Lemma settled_ok x : prov_ok x -> prov_ok (settled x).
Proof.
  intros [Hf Hi]. split; cbn; unfold fetch_pending_or_store.
  - intros id c Hc. destruct (tx_pending x !! id) eqn:E; [by rewrite bool_decide_eq_true_2|]. by rewrite (Hf id c), orb_true_r.
  - intros id Hid. destruct (tx_pending x !! id) eqn:E; [done|]. apply Hi. by rewrite bool_decide_eq_false_2 in Hid by by intros [? ?].
Qed.

Lemma settled_seen x id b : seen (settled x) id b <-> seen x id b.
Proof. unfold seen, fetch_pending_or_store at 1. cbn. by rewrite lookup_empty. Qed.

Lemma settled_sub order max_fanout x : sub order max_fanout x (settled x).
Proof.
  intros id n. unfold fetch. destruct (ChunkId_is_zero id); [done|]. cbn [safe]. cbn.
  unfold fetch_pending_or_store at 2. cbn. by rewrite lookup_empty.
Qed.

Lemma fs_settled limits sh t n I N : fs limits sh t n I N ->
  fs limits sh {| txn_tx := settled (txn_tx t); txn_root := txn_root t; txn_features := 0 |} n I N.
Proof.
  intros [Hok (X & (M & HM & HX) & Ho) Hd Hw Hk].
  assert (Hs : sub BTREE_ORDER (max_fanout limits) (txn_tx t) (settled (txn_tx t))) by apply settled_sub.
  split; [by apply settled_ok | | | done | done].
  - exists X. split; [exists M; split; [|done]; by eapply holds_sub|].
    eapply map_Forall2_impl; [exact Ho|]. intros _ id i (? & ? & ?). split_and!; [done..|by apply settled_seen].
  - intros dir i r Hi Hr. destruct (Hd dir i r Hi Hr) as (E & [HE Hall] & Hv). exists E. split; [|done]. split; [by eapply holds_sub|done].
Qed.

Definition fs_store : Tx StoreError := settled (txn_tx fs_txn).
Definition fs_root : Root := txn_root fs_txn.
Definition fs_committed := fs_settled _ _ _ _ _ _ fs_sample.

Lemma fs_names_view dir E : view fs_names dir E -> Z.of_nat (size E) < 2 ^ 64 - 1.
Proof.
  intros Hv. destruct (decide (dir = 1)) as [->|Hne].
  - assert (E = {[ [97] := entry_a ]}) as ->; [|done]. apply map_eq. intros k. rewrite Hv. unfold fs_names.
    destruct (decide (k = [97])) as [->|]; [by rewrite !lookup_singleton_eq|by rewrite !lookup_singleton_ne by congruence].
  - assert (E = ∅) as ->; [|done]. apply map_eq. intros k. rewrite Hv. unfold fs_names. by rewrite lookup_singleton_ne, lookup_empty by congruence.
Qed.

Lemma fs_dir_ready : dir_ready fs_inodes_ 1.
Proof. intros i Hi. injection Hi as <-. by eexists. Qed.

(** The root directory with the name [a] removed by the epoch and a name [b]
    pending. *)
Definition overlay_sample : Epoch := pend_entry (drop_entry Epoch_default 1 [97]) 1 [98] {| de_ino := 3; de_d_type := DT_REG |}.

Lemma epoch_reads_agree_witness :
  dir_lookup_epoch Limits_default fs_store fs_root overlay_sample 1 [97] = Ok None /\
  exists E l, (forall name, E !! name = overlay_name overlay_sample fs_names 1 name) /\ named E l /\
    read_dir_epoch Limits_default fs_store fs_root overlay_sample 1 = Ok l.
Proof.
  destruct (epoch_reads_agree Limits_default full_shape fs_store fs_root 0 fs_inodes_ fs_names fs_committed eq_refl ltac:(lia)
    fs_names_view overlay_sample 1 ltac:(width) fs_dir_ready) as [Hl Hr].
  split; [by rewrite Hl|exact Hr].
Defined.

(** The removed name made again in the same epoch: acknowledged, and still
    absent. *)
Definition removed_epoch : Epoch := drop_inode (drop_entry Epoch_default 1 [97]) 2.
Definition entry_c : NewEntry := {| ne_kind := EFile; ne_mode := 420; ne_uid := 5; ne_gid := 6 |}.

Lemma epoch_create_exact_witness :
  exists ino ep' records,
    epoch_create mix_hash Limits_default clock false fs_store fs_root removed_epoch 1 [97] entry_c = Ok (ino, ep', records) /\
    dir_lookup_epoch Limits_default fs_store fs_root ep' 1 [97] = Ok None.
Proof.
  pose proof (epoch_create_exact mix_hash Limits_default clock false mix_hash_wf clock_wf full_shape fs_store fs_root 0 fs_inodes_ fs_names
    fs_committed eq_refl ltac:(lia) fs_names_view removed_epoch 1 [97] entry_c ltac:(width) fs_dir_ready ltac:(by repeat constructor)
    ltac:(repeat split; done) ltac:(cbn; lia) ltac:(intros pi [= <-]; apply sample_inodes_wf)) as H.
  destruct (epoch_alloc Limits_default fs_store fs_root removed_epoch) as [[ino ep0]|e] eqn:Ea; [|by vm_compute in Ea].
  assert (Hi : is_u64 ino) by (vm_compute in Ea; injection Ea as <- _; width).
  destruct (H ino ep0 eq_refl Hi) as (ep' & records & env & E & (Hv & _) & _). eexists ino, ep', _. split; [exact E|].
  rewrite (dir_lookup_epoch_ok Limits_default full_shape fs_store fs_root 0 fs_inodes_ fs_names fs_committed eq_refl ltac:(lia)
    ep' 1 [97] ltac:(width) fs_dir_ready), Hv. done.
Defined.

(** The file [a] removed in a fresh epoch. *)
Lemma epoch_unlink_exact_witness :
  exists ep' records,
    epoch_unlink mix_hash Limits_default clock false fs_store fs_root Epoch_default 1 [97] false = Ok (2, ep', records) /\
    dir_lookup_epoch Limits_default fs_store fs_root ep' 1 [97] = Ok None.
Proof.
  pose proof (epoch_unlink_exact mix_hash Limits_default clock false mix_hash_wf clock_wf full_shape fs_store fs_root 0 fs_inodes_ fs_names
    fs_committed eq_refl ltac:(lia) fs_names_view Epoch_default 1 [97] false ltac:(width) fs_dir_ready ltac:(by repeat constructor) ltac:(cbn; lia)) as H.
  destruct H as [_ H].
  - intros i p Hi. apply (fs_kinds _ _ _ _ _ _ fs_sample i p Hi).
  - intros e [= <-]. cbn. split_and!; try done. by intros target [= <-].
  - destruct (H ltac:(done)) as (ep' & records & env & E & (Hv & _) & _). eexists ep', _. split; [exact E|].
    rewrite (dir_lookup_epoch_ok Limits_default full_shape fs_store fs_root 0 fs_inodes_ fs_names fs_committed eq_refl ltac:(lia)
      ep' 1 [97] ltac:(width) fs_dir_ready), Hv. done.
Defined.
