(* ===== verification/CheckpointSpec.v ===== *)
(** The checkpoint against the view: what the merge of an epoch commits is
    what a reader saw through the overlay. *)
From stdpp Require Import gmap sorting.
From Stdlib Require String.
From S2P Require Import Prelude Codec Repr Version SegRecord Inode Superblock Descriptor Context Candidate Keys BTree StoreError RootObj BTreeNode BTreeSpec BTreeCheck IndexSpec RemoveSpec ScanSpec ExtentTree ExtentSpec BulkSpec BatchSpec Directory DirectorySpec Transaction TransactionSpec Namespace NamespaceSpec Mutation Epoch Checkpoint EpochSpec.
Import String.StringSyntax.

(** * Trees *)

(** The entries of a tree are encodable. *)
Lemma tree_entries_ok {P} `{ProviderLaws P} order max_fanout (p : P) sh n id lo hi m :
  BTreeSpec.tree order max_fanout p sh n id lo hi m -> Forall (fun kv : bytes * bytes => key_ok kv.1 /\ value_ok kv.2) m.
Proof.
  revert id lo hi m. induction n as [|n IH]; intros id lo hi m [_ [(es & _ & [Hok _] & _ & -> & _)|Hi]]; try done.
  1, 2: unfold pairs; apply list.Forall_fmap; eapply list.Forall_impl; [apply Hok|]; intros e (? & ? & ?); done.
  destruct Hi as (c & es & _ & _ & _ & Hk). revert Hk. generalize ((lo, c) :: eslots es). intros ss. revert m.
  induction ss as [|[s c'] ss IHs]; intros m Hk; cbn [kids] in Hk; [by subst|].
  destruct Hk as (m1 & m2 & -> & Ht & Hk). apply list.Forall_app. split; [by eapply IH|by apply IHs].
Qed.

Lemma directory_entries_ok {P} `{ProviderLaws P} order max_fanout (p : P) sh n (r : ChunkId) E name e :
  DirectorySpec.directory order max_fanout p sh n r E -> E !! name = Some e -> key_ok name /\ DirEntry_ok e.
Proof.
  intros [(m & Hix & Em) Hok] He. split; [|by apply (Hok name)].
  assert (Hs : sorted (map fst m)) by by eapply index_sorted.
  assert (Hin : (name, DirEntry_encode e) ∈ m) by (apply elem_of_to_map; [done|]; by rewrite <-Em, lookup_fmap, He).
  destruct Hix as [[_ ->]|Ht]; [by apply not_elem_of_nil in Hin|]. apply tree_entries_ok in Ht. rewrite list.Forall_forall in Ht.
  by apply (Ht _ Hin).
Qed.

(** A sorted batch changes exactly its keys. *)
Lemma batch_lookup (b : list BatchOp) (M : gmap bytes bytes) (k : bytes) : batch_sorted b ->
  fold_left map_op b M !! k = match (list_to_map b : gmap bytes (option bytes)) !! k with Some o => o | None => M !! k end.
Proof.
  unfold batch_sorted. intros Hs. apply sorted_NoDup in Hs. revert M. induction b as [|[k0 o] b IH]; intros M; [done|].
  cbn [map] in Hs. apply list.NoDup_cons in Hs as [Hnin Hs]. cbn [fold_left]. rewrite IH by done. rewrite list_to_map_cons.
  destruct (decide (k = k0)) as [->|Hne].
  - rewrite lookup_insert_eq. replace ((list_to_map b : gmap bytes (option bytes)) !! k0) with (@None (option bytes)).
    + unfold map_op. cbn. destruct o; [apply lookup_insert_eq|apply lookup_delete_eq].
    + symmetry. by apply not_elem_of_list_to_map.
  - rewrite lookup_insert_ne by done. destruct ((list_to_map b : gmap bytes (option bytes)) !! k); [done|].
    unfold map_op. cbn. destruct o; [by apply lookup_insert_ne|by apply lookup_delete_ne].
Qed.

Lemma in_order_map {A} (m : gmap bytes A) : (list_to_map (in_order m) : gmap bytes A) = m.
Proof.
  destruct (in_order_named m) as [Hs Hl]. apply sorted_NoDup in Hs. apply map_eq. intros k. apply option_eq. intros v.
  rewrite <-Hl. symmetry. by apply elem_of_list_to_map.
Qed.

(** The bindings that a batch makes, in their order. *)
Definition somes (b : list BatchOp) : list (bytes * bytes) := omap (fun o : BatchOp => (fun v => (o.1, v)) <$> o.2) b.

Lemma somes_in b k : k ∈ map fst (somes b) -> k ∈ map fst b.
Proof.
  induction b as [|[k0 [v|]] b IH]; cbn; [done|..]; intros Hk; apply elem_of_cons; [|right; by apply IH].
  apply elem_of_cons in Hk as [->|Hk]; [by left|right; by apply IH].
Qed.

Lemma somes_length b : (length (somes b) <= length b)%nat.
Proof. induction b as [|[k0 [v|]] b IH]; cbn in *; unfold somes in *; lia. Qed.

Lemma somes_sorted b : batch_sorted b -> sorted (map fst (somes b)).
Proof.
  unfold batch_sorted. induction b as [|[k0 [v|]] b IH]; intros Hs; [done|..]; cbn in *; apply StronglySorted_inv in Hs as [Hs Hf]; [|by apply IH].
  constructor; [by apply IH|]. rewrite list.Forall_forall in *. intros k Hk. apply Hf. by apply somes_in.
Qed.

Lemma fold_somes b : batch_sorted b -> fold_left map_op b ∅ = to_map (somes b).
Proof.
  intros Hs. apply map_eq. intros k. rewrite batch_lookup by done. unfold batch_sorted in Hs. apply sorted_NoDup in Hs. unfold to_map.
  induction b as [|[k0 [v|]] b IH]; [done|..]; cbn in *; apply list.NoDup_cons in Hs as [Hnin Hs]; rewrite ?list_to_map_cons.
  - destruct (decide (k = k0)) as [->|]; [by rewrite !lookup_insert_eq|]. rewrite !lookup_insert_ne by done. by apply IH.
  - destruct (decide (k = k0)) as [->|]; [|rewrite lookup_insert_ne by done; by apply IH]. rewrite lookup_insert_eq. symmetry.
    apply not_elem_of_list_to_map. intros Hin. by apply Hnin, somes_in.
Qed.

(** ** Lists by number *)

#[local] Instance key_le_total {A} : Total (@key_le A).
Proof. intros x y. unfold key_le. lia. Qed.
#[local] Instance key_le_trans {A} : Transitive (@key_le A).
Proof. intros x y z. unfold key_le. lia. Qed.

Lemma by_number_perm {A} (l : list (Z * A)) : by_number l ≡ₚ l.
Proof. apply merge_sort_Permutation. Qed.

Lemma by_number_strict {A} (l : list (Z * A)) : NoDup (map fst l) -> StronglySorted (fun x y => fst x < fst y) (by_number l).
Proof.
  intros Hnd. assert (Hs : StronglySorted key_le (by_number l)) by apply (StronglySorted_merge_sort key_le).
  assert (Hnd' : NoDup (map fst (by_number l))) by by rewrite by_number_perm. clear Hnd. revert Hs Hnd'. generalize (by_number l). clear l.
  induction 1 as [|x l Hs IH Hf]; intros Hnd; [constructor|]. cbn [map] in Hnd. apply list.NoDup_cons in Hnd as [Hnin Hnd].
  constructor; [by apply IH|]. rewrite list.Forall_forall in *. intros y Hy. specialize (Hf y Hy). unfold key_le in Hf.
  assert (fst x <> fst y); [|lia]. intros E. apply Hnin. rewrite E. by apply list_elem_of_fmap_2.
Qed.

Lemma number_batch_sorted {A} (f : A -> option bytes) (l : list (Z * A)) :
  StronglySorted (fun x y => fst x < fst y) l -> Forall (fun x => is_u64 (fst x)) l ->
  batch_sorted (map (fun x => (extent_key (fst x), f (snd x))) l).
Proof.
  unfold batch_sorted. intros Hs Hu. induction Hs as [|x l Hs IH Hf]; [constructor|]. apply list.Forall_cons in Hu as [Hx Hu]. cbn [map].
  constructor; [by apply IH|]. apply list.Forall_forall. intros k Hk. rewrite map_map in Hk. cbn in Hk.
  apply list_elem_of_fmap in Hk as (y & -> & Hy). rewrite list.Forall_forall in *. apply extent_key_lt; [done|by apply Hu|by apply Hf].
Qed.

Lemma extents_of_in ep f off b : (off, b) ∈ extents_of ep f <-> pending_extents ep !! (f, off) = Some b.
Proof.
  unfold extents_of. rewrite by_number_perm, list_elem_of_omap. split.
  - intros ([[f' off'] b'] & Hin & E). apply elem_of_map_to_list in Hin. destruct (Z.eqb_spec f' f) as [->|]; [|done]. by injection E as -> ->.
  - intros H. exists ((f, off), b). split; [by apply elem_of_map_to_list|]. by rewrite Z.eqb_refl.
Qed.

Lemma extents_of_strict ep f : StronglySorted (fun x y => fst x < fst y) (extents_of ep f).
Proof.
  apply by_number_strict. pose proof (NoDup_fst_map_to_list (pending_extents ep)) as Hnd. revert Hnd.
  generalize (map_to_list (pending_extents ep)). intros l Hnd. induction l as [|[[f' off] b] l IH]; [constructor|].
  cbn [map] in Hnd. apply list.NoDup_cons in Hnd as [Hnin Hnd]. cbn [omap list_omap]. destruct (Z.eqb_spec f' f) as [->|]; [|by apply IH].
  cbn [map fst]. apply list.NoDup_cons. split; [|by apply IH]. intros Hin. apply Hnin. clear -Hin.
  apply list_elem_of_fmap in Hin as ([o b'] & -> & Hin). apply list_elem_of_omap in Hin as ([[f' off'] b''] & Hin & E).
  destruct (Z.eqb_spec f' f) as [->|]; [|done]. injection E as -> ->. by apply (list_elem_of_fmap_2 fst) in Hin.
Qed.

(** * Staging in steps *)

Section Yields.
Context (content_id : bytes -> ChunkId) (Hid : forall b, wf_id (content_id b)).
#[local] Abbreviation T := (Tx StoreError).
#[local] Abbreviation stages := (TransactionSpec.stages content_id).
#[local] Abbreviation good := (TransactionSpec.good content_id).
Implicit Types (x : T) (L : list PendingRecord).

(** An object that is pending or indexed stays what it is. *)
Definition bound x (id : ChunkId) : Prop := is_Some (tx_pending x !! id) \/ tx_indexed x id = true.

Lemma stage_bound x id b tag ml id' : bound x id' ->
  bound (Tx_stage x id b tag ml) id' /\ prov_get (Tx_stage x id b tag ml) id' = prov_get x id'.
Proof.
  intros Hb. unfold Tx_stage. cbn [with_asked tx_pending tx_indexed]. destruct (bool_decide _) eqn:Ep; [done|]. destruct (tx_indexed x id) eqn:Ei; [done|]. cbn [orb].
  apply bool_decide_eq_false in Ep. assert (Hne : id <> id') by (intros ->; destruct Hb; [done|congruence]). split.
  - destruct Hb as [Hb|Hb]; [left|by right]. cbn. by rewrite lookup_insert_ne.
  - cbn. unfold fetch_pending_or_store. cbn. by rewrite lookup_insert_ne.
Qed.

Lemma stage_binds x id b tag ml : bound (Tx_stage x id b tag ml) id.
Proof.
  unfold Tx_stage. cbn [with_asked tx_pending tx_indexed]. destruct (bool_decide _) eqn:Ep; [left; by apply bool_decide_eq_true in Ep|].
  destruct (tx_indexed x id) eqn:Ei; [by right|]. left. cbn. rewrite lookup_insert_eq. by eexists.
Qed.

Lemma stages_bound x L id : bound x id -> bound (stages x L) id /\ prov_get (stages x L) id = prov_get x id.
Proof.
  revert x. induction L as [|r L IH]; intros x Hb; [done|].
  unfold TransactionSpec.stages in *. cbn [fold_left]. destruct (stage_bound x (content_id (pr_payload r)) (pr_payload r)
    (pr_tag r) (pr_materialized_len r) id Hb) as [Hb' E]. destruct (IH _ Hb') as [Hb'' E']. split; [done|]. by rewrite <-E.
Qed.

Lemma stages_binds x L r : r ∈ L -> bound (stages x L) (content_id (pr_payload r)).
Proof.
  revert x. induction L as [|r' L IH]; intros x Hr; [by apply not_elem_of_nil in Hr|]. apply elem_of_cons in Hr as [->|Hr]; cbn; [|by apply IH].
  apply stages_bound, stage_binds.
Qed.

Lemma good_earlier x L L' : good (stages (stages x L) L') L <-> good (stages x L) L.
Proof.
  unfold good, reads_back. rewrite !list.Forall_forall. split; intros Hg b Hb; specialize (Hg b Hb);
    apply list_elem_of_fmap in Hb as (r & -> & Hr);
    destruct (stages_bound (stages x L) L' (content_id (pr_payload r))) as [_ E]; [by apply stages_binds| |by apply stages_binds|];
    rewrite E in *; done.
Qed.

(** [m] succeeds from [x] and stages some records; [U] holds of its result,
    and [Q] unless a staged payload has collided. *)
Definition yields {A} (tx : A -> T) (x : T) (m : outcome A) (U Q : A -> Prop) : Prop :=
  exists a L, m = Ok a /\ tx a = stages x L /\ U a /\ (good (tx a) L -> Q a).

Lemma yields_ret {A} (tx : A -> T) (a : A) (U Q : A -> Prop) : U a -> Q a -> yields tx (tx a) (Ok a) U Q.
Proof. intros HU HQ. by exists a, []. Qed.

Lemma yields_impl {A} (tx : A -> T) x (m : outcome A) (U Q U' Q' : A -> Prop) :
  yields tx x m U Q -> (forall a L, tx a = stages x L -> U a -> U' a) -> (forall a L, tx a = stages x L -> U a -> Q a -> Q' a) ->
  yields tx x m U' Q'.
Proof. intros (a & L & -> & Ha & HU & HQ) H1 H2. exists a, L. split_and!; [done..|by eapply H1|]. intros Hg. by eapply H2; [..|apply HQ]. Qed.

Lemma yields_bind {A B} (tx : A -> T) (txb : B -> T) x (m : outcome A) (k : A -> outcome B) U Q U' Q' :
  yields tx x m U Q ->
  (forall a L, tx a = stages x L -> U a ->
   yields txb (tx a) (k a) U' (fun b => Q a -> (exists L', txb b = stages (tx a) L') -> Q' b)) ->
  yields txb x (rbind m k) U' Q'.
Proof.
  intros (a & L & -> & Ha & HU & HQ) Hk. destruct (Hk a L Ha HU) as (b & L' & E & Hb & HU' & HQ').
  exists b, (L ++ L'). split; [done|]. rewrite Ha in *. split; [by rewrite stages_app|]. split; [done|].
  intros [Hg1 Hg2]%good_app. apply HQ'; [done| |by exists L']. apply HQ. rewrite Hb in Hg1. by apply good_earlier in Hg1.
Qed.
End Yields.

(** * Well-formed overlays *)

Definition file_data (i : Inode) : option ChunkId := match i_data i with IFile r => Some r | _ => None end.

(** The inode that a rebuilt tree goes to. *)
Definition base_inode ep (I : gmap Z Inode) (ino : Z) : option Inode :=
  match pending_inodes ep !! ino with Some i => Some i | None => I !! ino end.

(** The overlay of an epoch over the committed inodes [I] and names [N]. *)
Record overlay_wf (ep : Epoch) (I : gmap Z Inode) (N : Names) : Prop := {
  ov_entry d name e : pending_entries ep !! (d, name) = Some e -> key_ok name /\ DirEntry_ok e;
  ov_dir d : d ∈ affected_dirs ep -> is_u64 d /\ exists i, base_inode ep I d = Some i /\ is_Some (dir_data i);
  ov_file f : f ∈ affected_files ep -> is_u64 f /\ exists i, base_inode ep I f = Some i /\ is_Some (file_data i);
  ov_extent f off b : pending_extents ep !! (f, off) = Some b -> is_u64 off /\ value_ok b;
  ov_chunk cid b : pending_chunks ep !! cid = Some b -> key_ok cid /\ value_ok b;
  ov_inode ino i : pending_inodes ep !! ino = Some i -> is_u64 ino /\ inode_wf i /\ kind_ok i;
  ov_same ino i c : pending_inodes ep !! ino = Some i -> I !! ino = Some c ->
    (is_Some (dir_data i) <-> is_Some (dir_data c)) /\ (is_Some (file_data i) <-> is_Some (file_data c));
  ov_fresh ino i r : pending_inodes ep !! ino = Some i -> I !! ino = None -> dir_data i = Some r \/ file_data i = Some r -> r = ChunkId_ZERO;
  ov_removed ino : ino ∈ removed_inodes ep -> is_u64 ino;
  ov_owner d name e : overlay_name ep N d name = Some e -> exists i, overlay_inode ep d (I !! d) = Some i /\ is_Some (dir_data i)
}.

(** * The parts of the merge *)

Section Merge.
Context (content_id : bytes -> ChunkId) (limits : Limits) (Hid : forall b, wf_id (content_id b)) (Hfan : BTREE_ORDER <= max_fanout limits).
#[local] Abbreviation fanout := (max_fanout limits).
#[local] Abbreviation stages := (TransactionSpec.stages content_id).
#[local] Abbreviation good := (TransactionSpec.good content_id).

(** The trees before, the trees after, and the longest batch. *)
Context (sh sh' : Shape) (cap : Z).
Context (Hsh' : shape_ok BTREE_ORDER fanout sh') (Hmin' : sh_min sh' = 0) (Hmin : 0 <= sh_min sh) (Hleaf : sh_leaf sh <= sh_leaf sh').
Context (Hfit : sh_leaf sh + cap <= 2 * sh_leaf sh') (Hfit16 : sh_leaf sh + cap < 2 ^ 16) (Hpos : 0 <= sh_leaf sh).
Implicit Types (x : Tx StoreError) (t : Txn) (n : nat) (I : gmap Z Inode) (N : Names) (ep : Epoch).

#[local] Abbreviation holds := (BTreeSpec.holds BTREE_ORDER fanout).
#[local] Abbreviation directory := (DirectorySpec.directory BTREE_ORDER fanout).
(** The height after a merge. *)
Definition after_levels n : nat := Nat.max (S n) 64.

Lemma holds_shape x n (r : ChunkId) M : holds x sh n r M -> holds x sh' n r M.
Proof.
  intros (m & Hix & ->). exists m. split; [|done]. destruct Hix as [?|Ht]; [by left|right].
  eapply tree_shape; [done| |exact Ht]. lia.
Qed.

Lemma holds_wf x sh0 m (r : ChunkId) M : holds x sh0 m r M -> wf_id r.
Proof.
  intros (l & [[-> _]|Ht] & _); [split; [done|apply Forall_replicate; width]|]. exact (tree_wf _ _ _ _ _ _ _ _ _ Ht).
Qed.

(** A batch over an index that may be empty. *)
Lemma batch_any_root x n (r : ChunkId) M b :
  prov_ok x -> holds x sh n r M -> (n <= 128)%nat -> batch_sorted b -> Forall BatchSpec.op_ok b -> zlen b <= cap ->
  exists r' l, apply_sorted_batch content_id BTREE_ORDER fanout x r b = Ok (r', staged content_id x l) /\
    (reads_back content_id (staged content_id x l) l ->
     holds (staged content_id x l) sh' (after_levels n) r' (fold_left map_op b M)).
Proof.
  intros Hx HM Hn Hs Hb Hz. destruct (decide (r = ChunkId_ZERO)) as [->|Hne].
  - destruct HM as (m & [[_ ->]|Ht] & ->); [|by apply tree_nonzero in Ht].
    destruct (bulk_load_ok (P := Tx StoreError) content_id BTREE_ORDER fanout ltac:(done) Hfan Hid x sh' (somes b) Hsh' Hmin' Hx (somes_sorted b Hs))
      as (r' & h & l & El & Hh & Hix & _).
    { clear -Hb. induction Hb as [|[k [v|]] b [Hk Hv] Hb IH]; cbn; [constructor|by constructor|done]. }
    assert (Hlen : zlen (somes b) < 2 ^ 16) by (pose proof (somes_length b); unfold zlen in *; lia).
    assert (Hh16 : (h <= 16)%nat).
    { destruct (decide (h <= 16)%nat); [done|]. assert (2 ^ 17 <= 2 ^ Z.of_nat h) by (apply Z.pow_le_mono_r; lia). lia. }
    unfold apply_sorted_batch. destruct (Z.eqb_spec (zlen b) 0) as [E|E].
    + assert (b = []) as -> by (destruct b; [done|rewrite zlen_cons in E; pose proof (zlen_nonneg b); lia]).
      exists ChunkId_ZERO, []. split; [done|]. intros _. exists []. split; [by left|done].
    + change (BTREE_ORDER =? 0) with false. rewrite batch_increasing_ok by done. cbn [negb].
      change (ChunkId_is_zero ChunkId_ZERO) with true. exists r', l. split; [exact El|]. intros Hr.
      change (to_map []) with (∅ : gmap bytes bytes). rewrite fold_somes by done.
      eapply (holds_le _ _ _ _ h); [|exists (somes b); split; [by apply Hix|done]]. unfold after_levels. lia.
  - destruct (apply_sorted_batch_ok (P := Tx StoreError) content_id BTREE_ORDER fanout order_ok Hfan Hid sh sh' cap Hsh' Hleaf ltac:(lia) Hfit Hfit16 x n r M b
      Hx HM Hne Hn Hs Hb Hz) as (r' & l & El & Hh & _).
    exists r', l. split; [done|]. intros Hr. eapply holds_le; [|by apply Hh]. unfold after_levels. lia.
Qed.
(** ** Inodes up to their tree *)

(** The same inode, except for the root of its tree. *)
Definition same_node (i j : Inode) : Prop :=
  j = with_data i (i_data j) /\
  match i_data i, i_data j with IDirectory _, IDirectory _ | IFile _, IFile _ => True | d, d' => d = d' end.
Definition root_wf (i : Inode) : Prop := match i_data i with IDirectory r | IFile r => wf_id r | _ => True end.

Lemma same_node_refl i : same_node i i.
Proof. split; [by destruct i|]. by destruct (i_data i). Qed.
Lemma same_node_trans i j k : same_node i j -> same_node j k -> same_node i k.
Proof.
  intros [Ej Hj] [Ek Hk]. split; [rewrite Ek, Ej; done|]. destruct (i_data i), (i_data j), (i_data k); try done; congruence.
Qed.
Lemma same_node_dir i r r0 : dir_data i = Some r0 -> same_node i (with_data i (IDirectory r)).
Proof. unfold dir_data. intros Hd. split; [done|]. cbn. by destruct (i_data i). Qed.
Lemma same_node_file i r r0 : file_data i = Some r0 -> same_node i (with_data i (IFile r)).
Proof. unfold file_data. intros Hd. split; [done|]. cbn. by destruct (i_data i). Qed.

Lemma same_node_wf i j : same_node i j -> inode_wf i -> root_wf j -> inode_wf j.
Proof.
  intros [-> Hk] [] Hr. unfold root_wf, file_type in *. cbn in *.
  destruct (i_data i), (i_data j); try done; try (injection Hk as <-); split; done.
Qed.
Lemma same_node_kind i j : same_node i j -> kind_ok i -> kind_ok j.
Proof.
  intros [-> Hk] Hi. unfold kind_ok, is_dir, file_type, dir_data in *. cbn. rewrite Hi.
  destruct (i_data i), (i_data j); try done; by apply bool_decide_ext; split; intros [? ?]; eexists.
Qed.
Lemma same_node_fits i j : same_node i j -> data_fits (i_data i) -> data_fits (i_data j).
Proof. intros [_ Hk]. destruct (i_data i), (i_data j); cbn; try done; by injection Hk as ->. Qed.
Lemma same_node_dir_data i j : same_node i j -> is_Some (dir_data i) <-> is_Some (dir_data j).
Proof.
  intros [_ Hk]. unfold dir_data. destruct (i_data i), (i_data j); try done; split; try done; by eexists.
Qed.
Lemma same_node_file_data i j : same_node i j -> is_Some (file_data i) <-> is_Some (file_data j).
Proof.
  intros [_ Hk]. unfold file_data. destruct (i_data i), (i_data j); try done; split; try done; by eexists.
Qed.
(** ** The trees *)

Context (ep : Epoch) (n : nat) (I : gmap Z Inode) (N : Names) (Hn : (n <= 128)%nat).
Context (Hsize : forall dir E, view N dir E -> Z.of_nat (size E) < 2 ^ 64 - 1).
Context (Hsize' : forall dir (E : gmap bytes DirEntry), (forall name, E !! name = overlay_name ep N dir name) -> Z.of_nat (size E) < 2 ^ 64).
#[local] Abbreviation fs t := (NamespaceSpec.fs limits sh t n I N).
#[local] Abbreviation levels := (after_levels n).

(** The inode whose tree a rebuild replaces. *)
Definition target (final : gmap Z Inode) (ino : Z) : option Inode :=
  match final !! ino with Some i => Some i | None => I !! ino end.

Lemma build_dir_ok t (final : gmap Z Inode) d i :
  fs t -> is_u64 d -> dir_ready I d -> target final d = Some i ->
  (forall name e, pending_entries ep !! (d, name) = Some e -> key_ok name /\ DirEntry_ok e) ->
  yields content_id (fun a => txn_tx a.1) (txn_tx t) (build_dir content_id limits ep t final d)
    (fun a => txn_root a.1 = txn_root t /\ exists r, a.2 = <[d := with_data i (IDirectory r)]> final)
    (fun a => exists r E, a.2 = <[d := with_data i (IDirectory r)]> final /\ wf_id r /\
      directory (txn_tx a.1) sh' levels r E /\ forall name, E !! name = overlay_name ep N d name).
Proof.
  intros HF Hd Hready Ht Hpend. unfold build_dir. rewrite (fs_inode _ _ _ _ _ _ _ HF Hn Hd).
  set (dir_root := match _ with Some _ => _ | None => _ end).
  assert (HE : exists E, directory (txn_tx t) sh n dir_root E /\ view N d E).
  { unfold dir_root. destruct (I !! d) as [c|] eqn:Ec; cbn [ok_opt].
    - destruct (Hready c Ec) as [r Hr]. destruct (fs_dirs _ _ _ _ _ _ HF d c r Ec Hr) as (E & HE & Hv). exists E.
      unfold dir_data in Hr. destruct (i_data c); [|done..]. by injection Hr as ->.
    - exists ∅. split; [split; [exists []; split; [by left|done]|apply map_Forall_empty]|].
      intros name. rewrite lookup_empty. destruct (N !! (d, name)) eqn:En; [|done].
      destruct (fs_owner _ _ _ _ _ _ HF _ _ _ En) as (c & Hc & _). congruence. }
  destruct HE as (E & HE & Hv). destruct (scan_committed limits sh n N Hn Hsize (txn_tx t) n dir_root d E HE Hn Hv) as (l & Hl & Escan).
  rewrite Escan. cbn [rbind]. set (merged := merge_entries ep d l).
  assert (Hm : forall name, merged !! name = overlay_name ep N d name) by (intros name; by eapply merge_entries_lookup).
  assert (Hok : forall name e, merged !! name = Some e -> key_ok name /\ DirEntry_ok e).
  { intros name e He. rewrite Hm in He. unfold overlay_name in He. case_bool_decide; [done|].
    destruct (pending_entries ep !! (d, name)) as [e'|] eqn:Ep; [injection He as <-; by apply Hpend|].
    rewrite <-Hv in He. exact (directory_entries_ok _ _ _ _ _ _ _ _ _ HE He). }
  pose proof (in_order_named merged) as Hin. destruct Hin as [Hs Hl'].
  set (entries := map (fun '(name, e) => (name, DirEntry_encode e)) (in_order merged)).
  assert (Hfst : map fst entries = map fst (in_order merged)) by (unfold entries; rewrite map_map; by apply map_ext; intros []).
  destruct (bulk_load_ok (P := Tx StoreError) content_id BTREE_ORDER fanout ltac:(done) Hfan Hid (txn_tx t) sh' entries Hsh' Hmin'
    (fs_ok _ _ _ _ _ _ HF)) as (r & h & nodes & -> & Hh & Hix & _).
  { by rewrite Hfst. }
  { apply list.Forall_forall. intros kv Hkv. apply list_elem_of_fmap in Hkv as ([name e] & -> & Hkv). apply Hl' in Hkv.
    destruct (Hok _ _ Hkv). split; [done|]. by apply DirEntry_value. }
  cbn [of_tree map_err rbind]. unfold set_final.
  assert (Ht' : match final !! d with Some i => Some i | None => ok_opt (match I !! d with Some i => Ok i | None => invariant "inode missing" end) end = Some i)
    by (unfold target in Ht; destruct (final !! d); [done|]; by destruct (I !! d)).
  rewrite Ht'. cbn [ok_or rbind].
  assert (Hlen : zlen entries < 2 ^ 64).
  { unfold entries, zlen. rewrite length_map. pose proof (named_size merged _ (conj Hs Hl')). specialize (Hsize' d merged Hm). lia. }
  eexists _, (map node_record nodes). split; [reflexivity|]. cbn [fst snd]. split; [by rewrite <-staged_stages|].
  split; [split; [done|by exists r]|]. intros Hg. cbn [txn_tx set_tx] in *. rewrite good_nodes in Hg. specialize (Hix Hg).
  exists r, merged. split; [done|].
  assert (HD : directory (staged content_id (txn_tx t) nodes) sh' levels r merged).
  { split; [|intros name e He; by apply (Hok name)]. eapply (holds_le _ _ _ _ h).
    - unfold after_levels. destruct (decide (h <= 64)%nat); [lia|]. assert (2 ^ 65 <= 2 ^ Z.of_nat h) by (apply Z.pow_le_mono_r; lia). lia.
    - exists entries. split; [done|]. unfold to_map, entries.
      rewrite <-(in_order_map merged) at 1. rewrite <-list_to_map_fmap. f_equal. by apply map_ext; intros []. }
  split; [by eapply directory_wf_root|]. done.
Qed.

(** The extents of a file that the epoch found: those of the committed file,
    none for a file it made. *)
Definition file_base x (f : Z) (M : gmap bytes bytes) : Prop :=
  match I !! f with Some c => exists r, file_data c = Some r /\ holds x sh n r M | None => M = ∅ end.

(** The extents after the merge. *)
Definition merged_extents (f : Z) (M M' : gmap bytes bytes) : Prop :=
  (forall off, is_u64 off -> M' !! extent_key off = match pending_extents ep !! (f, off) with Some b => Some b | None => M !! extent_key off end) /\
  (forall k, (forall off, is_u64 off -> k <> extent_key off) -> M' !! k = M !! k).

Lemma build_file_ok t (final : gmap Z Inode) (f : Z) (i : Inode) (M : gmap bytes bytes) :
  fs t -> is_u64 f -> file_base (txn_tx t) f M -> target final f = Some i ->
  (forall off b, pending_extents ep !! (f, off) = Some b -> is_u64 off /\ value_ok b) ->
  zlen (extents_of ep f) <= cap ->
  yields content_id (fun a => txn_tx a.1) (txn_tx t) (build_file content_id limits ep t final f)
    (fun a => txn_root a.1 = txn_root t /\ exists r, a.2 = <[f := with_data i (IFile r)]> final)
    (fun a => exists r M', a.2 = <[f := with_data i (IFile r)]> final /\ wf_id r /\
      holds (txn_tx a.1) sh' levels r M' /\ merged_extents f M M').
Proof.
  intros HF Hf HM Ht Hpend Hcap. unfold build_file. rewrite (fs_inode _ _ _ _ _ _ _ HF Hn Hf).
  set (extent_root := match _ with Some _ => _ | None => _ end).
  assert (HE : holds (txn_tx t) sh n extent_root M).
  { unfold extent_root, file_base in *. destruct (I !! f) as [c|] eqn:Ec; cbn [ok_opt].
    - destruct HM as (r & Hr & HM). unfold file_data in Hr. destruct (i_data c); [done| |done..]. by injection Hr as ->.
    - subst M. exists []. split; [by left|done]. }
  set (batch := map _ (extents_of ep f)).
  assert (Hb : batch = map (fun x : Z * bytes => (extent_key (fst x), Some (snd x))) (extents_of ep f)) by (by apply map_ext; intros []).
  assert (Hin : Forall (fun x : Z * bytes => is_u64 (fst x) /\ value_ok (snd x)) (extents_of ep f)).
  { apply list.Forall_forall. intros [off b] Hx. apply extents_of_in in Hx. by apply Hpend. }
  assert (Hbs : batch_sorted batch).
  { rewrite Hb. apply (number_batch_sorted Some); [apply extents_of_strict|]. eapply list.Forall_impl; [exact Hin|]. by intros ? []. }
  destruct (batch_any_root (txn_tx t) n extent_root M batch (fs_ok _ _ _ _ _ _ HF) HE Hn Hbs) as (r & nodes & -> & Hh).
  { rewrite Hb. apply list.Forall_fmap. eapply list.Forall_impl; [exact Hin|]. intros x [? ?]. split; [apply extent_key_ok|done]. }
  { rewrite Hb. unfold zlen in *. by rewrite length_map. }
  cbn [of_tree map_err rbind]. unfold set_final.
  assert (Ht' : match final !! f with Some i => Some i | None => ok_opt (match I !! f with Some i => Ok i | None => invariant "inode missing" end) end = Some i)
    by (unfold target in Ht; destruct (final !! f); [done|]; by destruct (I !! f)).
  rewrite Ht'. cbn [ok_or rbind].
  eexists _, (map node_record nodes). split; [reflexivity|]. cbn [fst snd txn_tx set_tx]. split; [by rewrite <-staged_stages|].
  split; [split; [done|by exists r]|]. intros Hg. rewrite good_nodes in Hg. specialize (Hh Hg).
  exists r, (fold_left map_op batch M). split; [done|].
  split; [by eapply holds_wf|]. split; [done|].
  assert (Hlk : forall k, fold_left map_op batch M !! k = match (list_to_map batch : gmap bytes (option bytes)) !! k with Some o => o | None => M !! k end)
    by (intros k; by apply batch_lookup).
  assert (Hnd : NoDup (map fst batch)) by by apply sorted_NoDup.
  split.
  - intros off Hoff. rewrite Hlk. destruct (pending_extents ep !! (f, off)) as [b|] eqn:Ep.
    + apply extents_of_in in Ep. rewrite (proj1 (elem_of_list_to_map batch (extent_key off) (Some b) Hnd)); [done|]. rewrite Hb.
      by apply (list_elem_of_fmap_2 (fun x : Z * bytes => (extent_key (fst x), Some (snd x))) _ (off, b)).
    + replace ((list_to_map batch : gmap bytes (option bytes)) !! extent_key off) with (@None (option bytes)); [done|]. symmetry.
      apply not_elem_of_list_to_map. rewrite Hb. intros Hk. apply list_elem_of_fmap in Hk as ([k o] & Ek & Hk).
      apply list_elem_of_fmap in Hk as ([off' b] & [= -> _] & Hk). rewrite list.Forall_forall in Hin. destruct (Hin _ Hk) as [Hu _].
      cbn in Ek, Hu. apply extent_key_inj in Ek; [|done..]. subst off'. apply extents_of_in in Hk. congruence.
  - intros k Hk. rewrite Hlk. replace ((list_to_map batch : gmap bytes (option bytes)) !! k) with (@None (option bytes)); [done|]. symmetry.
    apply not_elem_of_list_to_map. rewrite Hb. intros Hin'. apply list_elem_of_fmap in Hin' as ([k' o] & Ek & Hin').
    apply list_elem_of_fmap in Hin' as ([off' b] & [= -> _] & Hin'). cbn in Ek. rewrite list.Forall_forall in Hin. destruct (Hin _ Hin') as [Hu _]. by apply (Hk off').
Qed.

(** ** All trees of one kind *)

(** The committed files have their trees. *)
Definition files_ok x : Prop := forall f c r, I !! f = Some c -> file_data c = Some r -> exists M, holds x sh n r M.

(** A transaction over the committed state. *)
Definition over t : Prop := fs t /\ files_ok (txn_tx t).

Lemma over_stages t t' L : over t -> txn_tx t' = stages (txn_tx t) L -> txn_root t' = txn_root t -> over t'.
Proof.
  intros [HF Hf] Hx Hr. split; [by eapply fs_stages|]. intros f c r Hc Hd. destruct (Hf f c r Hc Hd) as [M HM]. exists M.
  rewrite Hx. eapply holds_sub; [apply stages_sub, HF|done].
Qed.

Lemma build_all_ok (build : Txn -> gmap Z Inode -> Z -> outcome (Txn * gmap Z Inode)) (mk : ChunkId -> InodeData)
    (P : Tx StoreError -> Z -> ChunkId -> Prop) (ok : Z -> Prop) inos t (final : gmap Z Inode) :
  (forall x L ino r, prov_ok x -> P x ino r -> P (stages x L) ino r) ->
  (forall t (final : gmap Z Inode) ino i, over t -> ok ino -> target final ino = Some i ->
   yields content_id (fun a => txn_tx a.1) (txn_tx t) (build t final ino)
     (fun a => txn_root a.1 = txn_root t /\ exists r, a.2 = <[ino := with_data i (mk r)]> final)
     (fun a => exists r, a.2 = <[ino := with_data i (mk r)]> final /\ wf_id r /\ P (txn_tx a.1) ino r)) ->
  over t -> NoDup inos -> Forall (fun ino => ok ino /\ is_Some (target final ino)) inos ->
  yields content_id (fun a => txn_tx a.1) (txn_tx t) (build_all build t final inos)
    (fun a => over a.1 /\ txn_root a.1 = txn_root t /\ (forall ino, ino ∉ inos -> a.2 !! ino = final !! ino) /\
      forall ino, ino ∈ inos -> exists i r, target final ino = Some i /\ a.2 !! ino = Some (with_data i (mk r)))
    (fun a => forall ino, ino ∈ inos -> exists i r, target final ino = Some i /\ a.2 !! ino = Some (with_data i (mk r)) /\
      wf_id r /\ P (txn_tx a.1) ino r).
Proof.
  intros Hkeep Hstep HF Hnd Hall. revert t final HF Hall. induction inos as [|ino inos IH]; intros t final HF Hall.
  { cbn [build_all]. apply (yields_ret content_id (fun a : Txn * gmap Z Inode => txn_tx a.1) (t, final)).
    - split_and!; [done..|]. intros ino Hin. by apply not_elem_of_nil in Hin.
    - intros ino Hin. by apply not_elem_of_nil in Hin. }
  apply list.NoDup_cons in Hnd as [Hnin Hnd]. apply list.Forall_cons in Hall as [[Hok [i Hi]] Hall]. cbn [build_all].
  eapply yields_bind; [by apply (Hstep t final ino i HF Hok Hi)|]. intros [t1 final1] L Hx [Hroot [r Hr]]. cbn [fst snd] in *.
  assert (HF1 : over t1) by (by eapply over_stages).
  assert (Htg : forall ino', ino' <> ino -> target final1 ino' = target final ino').
  { intros ino' Hne. unfold target. by rewrite Hr, lookup_insert_ne. }
  eapply yields_impl; [apply (IH Hnd t1 final1 HF1)|..].
  - rewrite list.Forall_forall in *. intros ino' Hin. destruct (Hall ino' Hin). split; [done|]. rewrite Htg; [done|]. by intros ->.
  - intros [t2 final2] L2 Hx2 (HF2 & Hroot2 & Hkept & Hin2). cbn [fst snd] in *. split_and!; [done|congruence|..].
    + intros ino' Hni. apply not_elem_of_cons in Hni as [Hne Hni]. by rewrite Hkept, Hr, lookup_insert_ne.
    + intros ino' Hin. apply elem_of_cons in Hin as [->|Hin].
      * exists i, r. by rewrite Hkept, Hr, lookup_insert_eq.
      * destruct (Hin2 ino' Hin) as (i' & r' & Ht' & ?). exists i', r'. rewrite <-Htg; [done|]. by intros ->.
  - intros [t2 final2] L2 Hx2 (HF2 & Hroot2 & Hkept & _) Hq (r1 & Hr1 & Hw & HP) _. cbn [fst snd] in *.
    intros ino' Hin. apply elem_of_cons in Hin as [->|Hin].
    + exists i, r1. rewrite Hkept, Hr1, lookup_insert_eq by done. split_and!; [done..|]. rewrite Hx2. apply Hkeep; [apply HF1|done].
    + destruct (Hq ino' Hin) as (i' & r' & Ht' & ?). exists i', r'. rewrite <-Htg; [done|]. by intros ->.
Qed.

Context (HW : overlay_wf ep I N) (Hfan_files : forall f, zlen (extents_of ep f) <= cap).

Lemma sorted_inos_in (s : gset Z) ino : ino ∈ sorted_inos s <-> ino ∈ s.
Proof. unfold sorted_inos. by rewrite merge_sort_Permutation, elem_of_elements. Qed.
Lemma sorted_inos_nodup (s : gset Z) : NoDup (sorted_inos s).
Proof. unfold sorted_inos. rewrite merge_sort_Permutation. apply NoDup_elements. Qed.

(** The tree of [j], inode [ino] after the merge. *)
Definition tree_merged x ino j : Prop :=
  match i_data j with
  | IDirectory r => exists E, directory x sh' levels r E /\ forall name, E !! name = overlay_name ep N ino name
  | IFile r => exists M M', file_base x ino M /\ holds x sh' levels r M' /\ merged_extents ino M M'
  | _ => True
  end.

Lemma file_base_stages x L f M : prov_ok x -> file_base x f M -> file_base (stages x L) f M.
Proof.
  intros Hx. unfold file_base. destruct (I !! f) as [c|]; [|done]. intros (r & Hr & HM). exists r. split; [done|].
  eapply holds_sub; [by apply stages_sub|done].
Qed.

Lemma affected_entry d name e : pending_entries ep !! (d, name) = Some e -> d ∈ affected_dirs ep.
Proof.
  intros He. unfold affected_dirs. apply elem_of_union_l, elem_of_list_to_set. apply elem_of_map_to_list in He.
  by apply (list_elem_of_fmap_2 (fun '((parent, _), _) => parent)) in He.
Qed.
Lemma affected_removed d name : (d, name) ∈ removed_entries ep -> d ∈ affected_dirs ep.
Proof.
  intros He. unfold affected_dirs. apply elem_of_union_r, elem_of_list_to_set. apply elem_of_elements in He.
  by apply (list_elem_of_fmap_2 fst) in He.
Qed.
Lemma affected_extent f off b : pending_extents ep !! (f, off) = Some b -> f ∈ affected_files ep.
Proof.
  intros He. unfold affected_files. apply elem_of_list_to_set. apply elem_of_map_to_list in He.
  by apply (list_elem_of_fmap_2 (fun '((ino, _), _) => ino)) in He.
Qed.

Lemma base_ready d i : base_inode ep I d = Some i -> is_Some (dir_data i) -> dir_ready I d.
Proof.
  intros Hb Hd c Hc. unfold base_inode in Hb. destruct (pending_inodes ep !! d) as [p|] eqn:Ep; [|by simplify_eq].
  injection Hb as ->. by apply (ov_same _ _ _ HW d i c Ep Hc).
Qed.
Lemma base_file x f i : files_ok x -> base_inode ep I f = Some i -> is_Some (file_data i) -> exists M, file_base x f M.
Proof.
  intros HFs Hb Hd. unfold file_base. destruct (I !! f) as [c|] eqn:Ec; [|by eexists].
  assert (Hc : is_Some (file_data c)).
  { unfold base_inode in Hb. rewrite Ec in Hb. destruct (pending_inodes ep !! f) as [p|] eqn:Ep; [|by simplify_eq].
    injection Hb as ->. by apply (ov_same _ _ _ HW f i c Ep Ec). }
  destruct Hc as [r Hr]. destruct (HFs f c r Ec Hr) as [M HM]. by exists M, r.
Qed.

Lemma base_wf t ino i : fs t -> base_inode ep I ino = Some i -> is_u64 ino /\ inode_wf i /\ kind_ok i.
Proof.
  intros HF Hb. unfold base_inode in Hb. destruct (pending_inodes ep !! ino) as [p|] eqn:Ep.
  - injection Hb as ->. by apply (ov_inode _ _ _ HW).
  - by apply (fs_kinds _ _ _ _ _ _ HF).
Qed.

Lemma dir_view_stages x L r d : prov_ok x ->
  (exists E, directory x sh' levels r E /\ forall name, E !! name = overlay_name ep N d name) ->
  exists E, directory (stages x L) sh' levels r E /\ forall name, E !! name = overlay_name ep N d name.
Proof. intros Hx (E & HE & Hv). exists E. split; [by apply directory_stages|done]. Qed.

Lemma file_view_stages x L r f : prov_ok x ->
  (exists M M', file_base x f M /\ holds x sh' levels r M' /\ merged_extents f M M') ->
  exists M M', file_base (stages x L) f M /\ holds (stages x L) sh' levels r M' /\ merged_extents f M M'.
Proof.
  intros Hx (M & M' & HM & HM' & Hm). exists M, M'. split; [by apply file_base_stages|]. split; [|done].
  eapply holds_sub; [by apply stages_sub|done].
Qed.

Lemma build_dirs_ok t (final : gmap Z Inode) : over t -> (forall d, d ∈ affected_dirs ep -> target final d = base_inode ep I d) ->
  yields content_id (fun a => txn_tx a.1) (txn_tx t) (build_all (build_dir content_id limits ep) t final (sorted_inos (affected_dirs ep)))
    (fun a => over a.1 /\ txn_root a.1 = txn_root t /\ (forall ino, ino ∉ affected_dirs ep -> a.2 !! ino = final !! ino) /\
      forall d, d ∈ affected_dirs ep -> exists i r, base_inode ep I d = Some i /\ a.2 !! d = Some (with_data i (IDirectory r)))
    (fun a => forall d, d ∈ affected_dirs ep -> exists i r, base_inode ep I d = Some i /\ a.2 !! d = Some (with_data i (IDirectory r)) /\
      wf_id r /\ exists E, directory (txn_tx a.1) sh' levels r E /\ forall name, E !! name = overlay_name ep N d name).
Proof.
  intros HF Htg. eapply yields_impl; [eapply (build_all_ok _ IDirectory
    (fun x d r => exists E, directory x sh' levels r E /\ forall name, E !! name = overlay_name ep N d name)
    (fun d => d ∈ affected_dirs ep /\ exists i, base_inode ep I d = Some i /\ is_Some (dir_data i)))|..].
  - intros x L d r Hx. by apply dir_view_stages.
  - intros t' final' d i [HF' _] (Hin & b & Hb & Hdir) Ht.
    destruct (ov_dir _ _ _ HW d Hin) as (Hu & _).
    eapply yields_impl; [apply (build_dir_ok t' final' d i HF' Hu)|done|].
    + by eapply base_ready.
    + done.
    + intros name e. apply (ov_entry _ _ _ HW).
    + intros a L _ _ (r & E & ? & ? & ? & ?). exists r. split_and!; [done..|]. by exists E.
  - done.
  - apply sorted_inos_nodup.
  - apply list.Forall_forall. intros d Hd. apply sorted_inos_in in Hd. destruct (ov_dir _ _ _ HW d Hd) as (_ & i & Hi & Hdir).
    split; [split; [done|by exists i]|]. rewrite Htg by done. by exists i.
  - intros a L _ (? & ? & Hk & Hr). split_and!; [done..| |].
    + intros ino Hin. apply Hk. by rewrite sorted_inos_in.
    + intros d Hd. destruct (Hr d) as (i & r & Ht & ?); [by apply sorted_inos_in|]. exists i, r. by rewrite <-Htg.
  - intros a L _ _ Hq d Hd. destruct (Hq d) as (i & r & Ht & ?); [by apply sorted_inos_in|]. exists i, r. by rewrite <-Htg.
Qed.

Lemma build_files_ok t (final : gmap Z Inode) : over t -> (forall f, f ∈ affected_files ep -> target final f = base_inode ep I f) ->
  yields content_id (fun a => txn_tx a.1) (txn_tx t) (build_all (build_file content_id limits ep) t final (sorted_inos (affected_files ep)))
    (fun a => over a.1 /\ txn_root a.1 = txn_root t /\ (forall ino, ino ∉ affected_files ep -> a.2 !! ino = final !! ino) /\
      forall f, f ∈ affected_files ep -> exists i r, base_inode ep I f = Some i /\ a.2 !! f = Some (with_data i (IFile r)))
    (fun a => forall f, f ∈ affected_files ep -> exists i r, base_inode ep I f = Some i /\ a.2 !! f = Some (with_data i (IFile r)) /\
      wf_id r /\ exists M M', file_base (txn_tx a.1) f M /\ holds (txn_tx a.1) sh' levels r M' /\ merged_extents f M M').
Proof.
  intros HF Htg. eapply yields_impl; [eapply (build_all_ok _ IFile
    (fun x f r => exists M M', file_base x f M /\ holds x sh' levels r M' /\ merged_extents f M M')
    (fun f => f ∈ affected_files ep /\ exists i, base_inode ep I f = Some i /\ is_Some (file_data i)))|..].
  - intros x L f r Hx. by apply file_view_stages.
  - intros t' final' f i [HF' HFs'] (Hin & b & Hb & Hfile) Ht. destruct (ov_file _ _ _ HW f Hin) as (Hu & _).
    destruct (base_file _ _ _ HFs' Hb Hfile) as [M HM].
    eapply yields_impl; [apply (build_file_ok t' final' f i M HF' Hu HM Ht); [apply (ov_extent _ _ _ HW)|done]|done|].
    intros a L Hx _ (r & M' & ? & ? & ? & ?). exists r. split_and!; [done..|]. exists M, M'. split_and!; [|done..].
    rewrite Hx. apply file_base_stages; [apply HF'|done].
  - done.
  - apply sorted_inos_nodup.
  - apply list.Forall_forall. intros f Hf. apply sorted_inos_in in Hf. destruct (ov_file _ _ _ HW f Hf) as (_ & i & Hi & Hfile).
    split; [split; [done|by exists i]|]. rewrite Htg by done. by exists i.
  - intros a L _ (? & ? & Hk & Hr). split_and!; [done..| |].
    + intros ino Hin. apply Hk. by rewrite sorted_inos_in.
    + intros f Hf. destruct (Hr f) as (i & r & Ht & ?); [by apply sorted_inos_in|]. exists i, r. by rewrite <-Htg.
  - intros a L _ _ Hq f Hf. destruct (Hq f) as (i & r & Ht & ?); [by apply sorted_inos_in|]. exists i, r. by rewrite <-Htg.
Qed.

(** ** The inodes over their trees *)

Lemma directory_after x (r : ChunkId) E : directory x sh n r E -> directory x sh' levels r E.
Proof.
  intros [HE Hok]. split; [|done]. eapply (holds_le _ _ _ _ n); [unfold after_levels; lia|]. by apply holds_shape.
Qed.
Lemma holds_after x (r : ChunkId) M : holds x sh n r M -> holds x sh' levels r M.
Proof. intros HM. eapply (holds_le _ _ _ _ n); [unfold after_levels; lia|]. by apply holds_shape. Qed.
Lemma holds_zero x m : holds x sh' m ChunkId_ZERO ∅.
Proof. exists []. split; [by left|done]. Qed.
Lemma wf_id_zero : wf_id ChunkId_ZERO.
Proof. split; [done|apply Forall_replicate; width]. Qed.

Lemma unaffected_name d name : d ∉ affected_dirs ep -> overlay_name ep N d name = N !! (d, name).
Proof.
  intros Hd. unfold overlay_name. rewrite bool_decide_eq_false_2 by (intros H; by eapply Hd, affected_removed).
  destruct (pending_entries ep !! (d, name)) eqn:Ep; [|done]. by destruct Hd; eapply affected_entry.
Qed.

Lemma unaffected_extents f M : f ∉ affected_files ep -> merged_extents f M M.
Proof.
  intros Hf. split; [|done]. intros off _. destruct (pending_extents ep !! (f, off)) eqn:Ep; [|done].
  by destruct Hf; eapply affected_extent.
Qed.

(** An inode that keeps its committed tree, or has none. *)
Lemma unaffected_tree t ino : over t -> ino ∉ affected_dirs ep -> ino ∉ affected_files ep ->
  match I !! ino with
  | Some c => root_wf c /\ tree_merged (txn_tx t) ino c
  | None => forall j, (forall r, dir_data j = Some r \/ file_data j = Some r -> r = ChunkId_ZERO) -> root_wf j /\ tree_merged (txn_tx t) ino j
  end.
Proof.
  intros [HF HFs] Hd Hf. destruct (I !! ino) as [c|] eqn:Ec.
  - destruct (fs_kinds _ _ _ _ _ _ HF ino c Ec) as (_ & Hc & _). split.
    { unfold root_wf. pose proof (iw_data _ Hc). by destruct (i_data c). }
    unfold tree_merged. destruct (i_data c) as [r|r|?|] eqn:Er; [..|done|done].
    + destruct (fs_dirs _ _ _ _ _ _ HF ino c r Ec) as (E & HE & Hv); [by unfold dir_data; rewrite Er|].
      exists E. split; [by apply directory_after|]. intros name. by rewrite unaffected_name.
    + destruct (HFs ino c r Ec) as [M HM]; [by unfold file_data; rewrite Er|]. exists M, M. split_and!.
      * unfold file_base. rewrite Ec. exists r. unfold file_data. by rewrite Er.
      * by apply holds_after.
      * by apply unaffected_extents.
  - intros j Hj. unfold root_wf, tree_merged, dir_data, file_data in *. destruct (i_data j) as [r|r|?|]; [..|done|done].
    + assert (r = ChunkId_ZERO) as -> by (by apply Hj; left). split; [apply wf_id_zero|]. exists ∅. split.
      * split; [rewrite fmap_empty; apply holds_zero|apply map_Forall_empty].
      * intros name. rewrite lookup_empty, unaffected_name by done. destruct (N !! (ino, name)) eqn:En; [|done].
        destruct (fs_owner _ _ _ _ _ _ HF _ _ _ En) as (c & Hc & _). congruence.
    + assert (r = ChunkId_ZERO) as -> by (by apply Hj; right). split; [apply wf_id_zero|]. exists ∅, ∅. split_and!.
      * unfold file_base. by rewrite Ec.
      * apply holds_zero.
      * by apply unaffected_extents.
Qed.

Lemma committed_root_ok t ino fin : over t -> pending_inodes ep !! ino = Some fin -> ino ∉ affected_dirs ep -> ino ∉ affected_files ep ->
  let j := committed_root_of limits ep t ino fin in same_node fin j /\ root_wf j /\ tree_merged (txn_tx t) ino j.
Proof.
  intros HO Hp Hd Hf. pose proof (unaffected_tree t ino HO Hd Hf) as Hu. destruct HO as [HF HFs].
  destruct (ov_inode _ _ _ HW ino fin Hp) as (Hino & Hwf & _). unfold committed_root_of.
  rewrite (fs_inode _ _ _ _ _ _ _ HF Hn Hino), !bool_decide_eq_false_2 by done.
  pose proof (ov_fresh _ _ _ HW ino fin) as Hfresh. destruct (I !! ino) as [c|] eqn:Ec; cbn [ok_opt].
  - destruct (ov_same _ _ _ HW ino fin c Hp Ec) as [Hsd Hsf]. unfold dir_data, file_data in Hsd, Hsf. cbn zeta.
    destruct Hu as [Hrw Htm]. unfold tree_merged, root_wf in *.
    destruct (i_data fin) as [r|r|?|] eqn:Efin, (i_data c) as [rc|rc|?|] eqn:Erc; cbn [with_data i_data];
      try (destruct Hsd as [[? [=]] _]; by eexists); try (destruct Hsf as [[? [=]] _]; by eexists);
      try (destruct Hsd as [_ [? [=]]]; by eexists); try (destruct Hsf as [_ [? [=]]]; by eexists);
      rewrite ?Efin; (split; [|done]); try apply same_node_refl; (split; [done|]); cbn; by rewrite Efin.
  - cbn zeta. assert (Hz : forall r, dir_data fin = Some r \/ file_data fin = Some r -> r = ChunkId_ZERO) by (intros r; by apply (Hfresh r Hp eq_refl)).
    destruct (Hu fin Hz) as [Hrw Htm]. assert (Eif : forall b : bool, (if b then fin else fin) = fin) by (by intros []).
    unfold invariant. cbn [ok_opt]. rewrite Eif. split; [apply same_node_refl|done].
Qed.

Lemma build_trees_ok t : over t ->
  yields content_id (fun a => txn_tx a.1) (txn_tx t) (build_trees content_id limits ep t)
    (fun a => over a.1 /\ txn_root a.1 = txn_root t /\
      (forall ino, is_Some (a.2 !! ino) <-> is_Some (pending_inodes ep !! ino) \/ ino ∈ affected_dirs ep \/ ino ∈ affected_files ep) /\
      forall ino j, a.2 !! ino = Some j -> exists i, base_inode ep I ino = Some i /\ same_node i j)
    (fun a => forall ino j, a.2 !! ino = Some j -> root_wf j /\ tree_merged (txn_tx a.1) ino j).
Proof.
  intros HO. unfold build_trees. assert (Hsep : forall ino, ino ∈ affected_dirs ep -> ino ∈ affected_files ep -> False).
  { intros ino Hd Hf. destruct (ov_dir _ _ _ HW ino Hd) as (_ & i & Hi & Hdir). destruct (ov_file _ _ _ HW ino Hf) as (_ & i' & Hi' & Hfile).
    rewrite Hi in Hi'. injection Hi' as <-. unfold dir_data, file_data in *. destruct (i_data i), Hdir, Hfile; done. }
  eapply yields_bind; [by apply build_dirs_ok|]. intros [t1 final1] L1 Hx1 (HO1 & Hroot1 & Hk1 & Hd1). cbn [fst snd] in *.
  eapply yields_bind; [apply build_files_ok; [done|]|].
  { intros f Hf. unfold target, base_inode. by rewrite Hk1 by by intros ?; eapply Hsep. }
  intros [t2 final2] L2 Hx2 (HO2 & Hroot2 & Hk2 & Hf2). cbn [fst snd] in *.
  assert (Hcases : forall ino j, map_imap (fun ino fin => Some (committed_root_of limits ep t2 ino fin)) final2 !! ino = Some j ->
    (ino ∈ affected_dirs ep /\ final1 !! ino = Some j) \/ (ino ∈ affected_files ep /\ final2 !! ino = Some j) \/
    (ino ∉ affected_dirs ep /\ ino ∉ affected_files ep /\ exists fin, pending_inodes ep !! ino = Some fin /\ j = committed_root_of limits ep t2 ino fin)).
  { intros ino j Hj. rewrite map_lookup_imap in Hj. destruct (final2 !! ino) as [fin|] eqn:E2; [|done]. cbn in Hj. injection Hj as <-.
    destruct (decide (ino ∈ affected_dirs ep)) as [Hd|Hd]; [left|right; destruct (decide (ino ∈ affected_files ep)) as [Hf|Hf]; [left|right]].
    - split; [done|]. assert (Hf : ino ∉ affected_files ep) by (by intros ?; eapply Hsep). rewrite Hk2 in E2 by done. rewrite E2.
      destruct (Hd1 ino Hd) as (i & r & _ & Hr). rewrite E2 in Hr. injection Hr as ->. unfold committed_root_of. cbn.
      by rewrite bool_decide_eq_true_2.
    - split; [done|]. destruct (Hf2 ino Hf) as (i & r & _ & Hr). rewrite E2 in Hr. injection Hr as ->. unfold committed_root_of. cbn.
      by rewrite bool_decide_eq_true_2.
    - split; [done|]. split; [done|]. rewrite Hk2, Hk1 in E2 by done. by exists fin. }
  apply (yields_ret content_id (fun a : Txn * gmap Z Inode => txn_tx a.1) (t2, _)); cbn [fst snd].
  - split; [done|]. split; [congruence|]. split.
    + intros ino. rewrite map_lookup_imap. destruct (decide (ino ∈ affected_files ep)) as [Hf|Hf].
      { destruct (Hf2 ino Hf) as (i & r & _ & ->). split; [by auto|]. intros _. by eexists. }
      rewrite Hk2 by done. destruct (decide (ino ∈ affected_dirs ep)) as [Hd|Hd].
      { destruct (Hd1 ino Hd) as (i & r & _ & ->). split; [by auto|]. intros _. by eexists. }
      rewrite Hk1 by done. destruct (pending_inodes ep !! ino); cbn; split; try done; [by left|by intros [[? ?]|[?|?]]].
    + intros ino j Hj. destruct (Hcases ino j Hj) as [[Hd E]|[[Hf E]|(Hd & Hf & fin & Hp & ->)]].
      * destruct (Hd1 ino Hd) as (i & r & Hb & Hr). rewrite E in Hr. injection Hr as ->. exists i. split; [done|].
        destruct (ov_dir _ _ _ HW ino Hd) as (_ & i' & Hi' & [r0 Hr0]). rewrite Hb in Hi'. injection Hi' as <-. by eapply same_node_dir.
      * destruct (Hf2 ino Hf) as (i & r & Hb & Hr). rewrite E in Hr. injection Hr as ->. exists i. split; [done|].
        destruct (ov_file _ _ _ HW ino Hf) as (_ & i' & Hi' & [r0 Hr0]). rewrite Hb in Hi'. injection Hi' as <-. by eapply same_node_file.
      * exists fin. split; [unfold base_inode; by rewrite Hp|]. by apply committed_root_ok.
  - intros Hq2 [L2' Hx2'] Hq1 [L1' Hx1'] ino j Hj. destruct (Hcases ino j Hj) as [[Hd E]|[[Hf E]|(Hd & Hf & fin & Hp & ->)]].
    + destruct (Hq1 ino Hd) as (i & r & _ & Hr & Hw & HD). rewrite E in Hr. injection Hr as ->. split; [done|].
      unfold tree_merged. cbn. cbn in Hx1'. rewrite Hx1'. apply dir_view_stages; [apply HO1|done].
    + destruct (Hq2 ino Hf) as (i & r & _ & Hr & Hw & HF2). rewrite E in Hr. injection Hr as ->. split; [done|]. exact HF2.
    + by apply committed_root_ok.
Qed.

(** ** The inode objects *)

(** The batch of the inode index, apart from the staging. *)
Definition inode_ops (removed : gset Z) (batch : gmap bytes (option bytes)) (l : list (Z * Inode)) : gmap bytes (option bytes) :=
  fold_left (fun b '(ino, i) => if bool_decide (ino ∈ removed) then b else <[extent_key ino := Some (content_id (inode_image i))]> b) l batch.

Lemma stage_inodes_ok (removed : gset Z) (l : list (Z * Inode)) t (batch : gmap bytes (option bytes)) : Forall (fun x : Z * Inode => data_fits (i_data x.2)) l ->
  yields content_id (fun a => txn_tx a.1) (txn_tx t) (stage_inodes content_id removed t batch l)
    (fun a => txn_root a.1 = txn_root t /\ a.2 = inode_ops removed batch l)
    (fun a => forall (ino : Z) (i : Inode), (ino, i) ∈ l -> ino ∉ removed -> seen (txn_tx a.1) (content_id (inode_image i)) (inode_image i)).
Proof.
  intros Hall. revert t batch. induction l as [|[ino i] l IH]; intros t batch.
  { apply (yields_ret content_id (fun a : Txn * gmap bytes (option bytes) => txn_tx a.1) (t, batch)); [done|].
    intros ino i Hin. by apply not_elem_of_nil in Hin. }
  apply list.Forall_cons in Hall as [Hi Hall]. cbn [stage_inodes inode_ops fold_left]. case_bool_decide as Hrem.
  { eapply yields_impl; [by apply IH|done|]. intros a L _ _ Hq ino' i' Hin Hni. apply elem_of_cons in Hin as [[= -> ->]|Hin]; [done|by eapply Hq]. }
  cbn in Hi. rewrite Inode_encode_fits by done. cbn [of_trap_codec map_err rbind put_object].
  set (r := {| pr_tag := InodeTag; pr_payload := inode_image i; pr_materialized_len := None |}).
  destruct (IH Hall (set_tx t (stages (txn_tx t) [r])) (<[extent_key ino := Some (content_id (inode_image i))]> batch))
    as (a & L & E & Hx & [Hroot Hops] & HQ).
  exists a, (r :: L). split; [exact E|]. split; [rewrite Hx; cbn [txn_tx set_tx]; by rewrite <-stages_app|]. split; [done|].
  intros Hg. rewrite Hx in HQ, Hg. cbn [txn_tx set_tx] in HQ, Hg. apply (good_app _ _ [r] L) in Hg as [Hg1 Hg2].
  intros ino' i' Hin Hni. apply elem_of_cons in Hin as [[= -> ->]|Hin].
  - rewrite Hx. cbn [txn_tx set_tx]. apply (good_seen content_id _ [r] r Hg1). by left.
  - rewrite Hx. cbn [txn_tx set_tx]. by eapply HQ.
Qed.

Lemma inode_ops_lookup (removed : gset Z) (l : list (Z * Inode)) (batch : gmap bytes (option bytes)) ino :
  NoDup (map fst l) -> Forall (fun x : Z * Inode => is_u64 x.1) l -> is_u64 ino ->
  inode_ops removed batch l !! extent_key ino =
    if bool_decide (ino ∈ removed) then batch !! extent_key ino
    else match (list_to_map l : gmap Z Inode) !! ino with
    | Some i => Some (Some (content_id (inode_image i)))
    | None => batch !! extent_key ino
    end.
Proof.
  intros Hnd Hu Hino. revert batch. induction l as [|[k i] l IH]; intros batch; [by case_bool_decide|].
  cbn [map fst] in Hnd. apply list.NoDup_cons in Hnd as [Hnin Hnd]. apply list.Forall_cons in Hu as [Hk Hu]. cbn in Hk.
  unfold inode_ops in *. cbn [fold_left]. rewrite IH by done. rewrite list_to_map_cons. destruct (decide (ino = k)) as [->|Hne].
  - rewrite lookup_insert_eq. case_bool_decide; [done|]. replace ((list_to_map l : gmap Z Inode) !! k) with (@None Inode); [by rewrite lookup_insert_eq|].
    symmetry. by apply not_elem_of_list_to_map.
  - rewrite (lookup_insert_ne _ k ino) by done.
    assert (Hkey : extent_key k <> extent_key ino) by (intros Ek; by apply extent_key_inj in Ek).
    case_bool_decide; [by case_bool_decide; rewrite ?lookup_insert_ne by done|].
    destruct ((list_to_map l : gmap Z Inode) !! ino); [done|]. by case_bool_decide; rewrite ?lookup_insert_ne by done.
Qed.

Lemma inode_ops_keys (removed : gset Z) (l : list (Z * Inode)) (batch : gmap bytes (option bytes)) k o :
  inode_ops removed batch l !! k = Some o ->
  batch !! k = Some o \/ exists ino i, (ino, i) ∈ l /\ k = extent_key ino /\ o = Some (content_id (inode_image i)).
Proof.
  revert batch. induction l as [|[ino i] l IH]; intros batch Hk; [by left|]. unfold inode_ops in *. cbn [fold_left] in Hk.
  apply IH in Hk as [Hk|(ino' & i' & Hin & ?)]; [|right; exists ino', i'; split; [by right|done]].
  case_bool_decide; [by left|]. apply lookup_insert_Some in Hk as [[<- <-]|[_ Hk]]; [|by left]. right. exists ino, i. split; [by left|done].
Qed.

Lemma removed_batch_lookup (removed : gset Z) k o :
  removed_batch removed !! k = Some o <-> o = None /\ exists ino, ino ∈ removed /\ k = to_be 8 ino.
Proof.
  unfold removed_batch. setoid_rewrite <-elem_of_elements. induction (elements removed) as [|ino l IH]; cbn [map].
  { change (list_to_map []) with (∅ : gmap bytes (option bytes)). rewrite lookup_empty. split; [done|]. intros (_ & ino & Hin & _). by apply not_elem_of_nil in Hin. }
  rewrite list_to_map_cons, lookup_insert_Some, IH. setoid_rewrite elem_of_cons. split.
  - intros [[<- <-]|[Hne (-> & ino' & Hin & ->)]]; (split; [done|]); [exists ino; auto|exists ino'; auto].
  - intros (-> & ino' & [->|Hin] & ->); [by left|]. destruct (decide (to_be 8 ino = to_be 8 ino')) as [->|Hne]; [by left|]. right. split; [done|].
    split; [done|]. by exists ino'.
Qed.

(** ** The indexes *)

Context (Hfan_chunks : Z.of_nat (size (pending_chunks ep)) <= cap).

Definition merged_chunks (C C' : gmap bytes bytes) : Prop :=
  forall cid, C' !! cid = match pending_chunks ep !! cid with Some b => Some b | None => C !! cid end.

Lemma batch_yields x (r : ChunkId) M b : prov_ok x -> holds x sh n r M -> batch_sorted b -> Forall BatchSpec.op_ok b -> zlen b <= cap ->
  yields content_id snd x (of_tree (apply_sorted_batch content_id BTREE_ORDER fanout x r b)) (fun _ => True)
    (fun a => holds a.2 sh' levels a.1 (fold_left map_op b M)).
Proof.
  intros Hx HM Hs Hb Hz. destruct (batch_any_root x n r M b Hx HM Hn Hs Hb Hz) as (r' & nodes & -> & Hh).
  exists (r', staged content_id x nodes), (map node_record nodes). split; [done|]. cbn [fst snd]. split; [apply staged_stages|].
  split; [done|]. intros Hg. rewrite good_nodes in Hg. by apply Hh.
Qed.

Lemma holds_stages x L sh0 m (r : ChunkId) M : prov_ok x -> holds x sh0 m r M -> holds (stages x L) sh0 m r M.
Proof. intros Hx HM. eapply holds_sub; [by apply stages_sub|done]. Qed.

Lemma apply_indexes_ok t b M C : prov_ok (txn_tx t) ->
  holds (txn_tx t) sh n (inode_index_root (txn_root t)) M -> holds (txn_tx t) sh n (chunk_index_root (txn_root t)) C ->
  batch_sorted b -> Forall BatchSpec.op_ok b -> zlen b <= cap ->
  yields content_id txn_tx (txn_tx t) (apply_indexes content_id limits ep t b)
    (fun t' => log_seq (txn_root t') = Z.max (ep_seq ep) (log_seq (txn_root t)))
    (fun t' => holds (txn_tx t') sh' levels (inode_index_root (txn_root t')) (fold_left map_op b M) /\
      exists C', holds (txn_tx t') sh' levels (chunk_index_root (txn_root t')) C' /\ merged_chunks C C').
Proof.
  intros Hx HM HC Hs Hb Hz. unfold apply_indexes. destruct (in_order_named (pending_chunks ep)) as [Hcs Hcl].
  set (cb := map _ (in_order (pending_chunks ep))).
  assert (Hcb : cb = map (fun kv : bytes * bytes => (kv.1, Some kv.2)) (in_order (pending_chunks ep))) by (by apply map_ext; intros []).
  assert (Hfst : map fst cb = map fst (in_order (pending_chunks ep))) by (rewrite Hcb, map_map; by apply map_ext).
  eapply yields_bind; [apply (batch_yields (txn_tx t) (chunk_index_root (txn_root t)) C cb Hx HC)|].
  { unfold batch_sorted. by rewrite Hfst. }
  { rewrite Hcb. apply list.Forall_fmap, list.Forall_forall. intros [cid d] Hin. apply Hcl in Hin. by apply (ov_chunk _ _ _ HW). }
  { unfold zlen. rewrite Hcb, length_map. pose proof (named_size (pending_chunks ep) _ (conj Hcs Hcl)). lia. }
  intros [cr x1] L1 Hx1 _. cbn [fst snd txn_tx set_tx set_root txn_root with_chunk_index] in *.
  assert (Hp1 : prov_ok x1) by (rewrite Hx1; by apply stages_ok).
  assert (HM1 : holds x1 sh n (inode_index_root (txn_root t)) M) by (rewrite Hx1; by apply holds_stages).
  eapply yields_bind; [by apply (batch_yields x1 (inode_index_root (txn_root t)) M b)|].
  intros [ir x2] L2 Hx2 _. cbn [fst snd] in *.
  match goal with |- yields _ _ _ (Ok ?a) _ _ => apply (yields_ret content_id txn_tx a) end; [done|].
  intros Hi _ Hc [L3 Hx3]. cbn [txn_tx set_tx set_root txn_root with_chunk_index with_inode_index with_log_seq inode_index_root chunk_index_root] in *.
  split; [done|]. exists (fold_left map_op cb C). split; [rewrite Hx3; by apply holds_stages|].
  intros cid. rewrite batch_lookup by (unfold batch_sorted; by rewrite Hfst).
  replace (list_to_map cb : gmap bytes (option bytes)) with (Some <$> pending_chunks ep).
  { rewrite lookup_fmap. by destruct (pending_chunks ep !! cid). }
  rewrite <-(in_order_map (pending_chunks ep)) at 1. rewrite <-list_to_map_fmap. f_equal. unfold cb. by apply map_ext; intros [].
Qed.

(** ** The whole *)

Lemma tree_merged_stages x L ino j : prov_ok x -> tree_merged x ino j -> tree_merged (stages x L) ino j.
Proof.
  intros Hx. unfold tree_merged. destruct (i_data j); [by apply dir_view_stages|by apply file_view_stages|done..].
Qed.

(** What is left of [m] without the removed numbers. *)
Definition kept {A} (m : gmap Z A) : gmap Z A := base.filter (fun kv : Z * A => kv.1 ∉ removed_inodes ep) m.
Lemma kept_lookup {A} (m : gmap Z A) ino : kept m !! ino = if bool_decide (ino ∈ removed_inodes ep) then None else m !! ino.
Proof.
  unfold kept. rewrite map_lookup_filter. destruct (m !! ino) as [a|]; cbn; [|by case_bool_decide].
  case_bool_decide; case_guard; done.
Qed.

(** The index after the merge, from its batch. *)
Lemma inode_index_merged (final : gmap Z Inode) (X : gmap Z bytes) M :
  extents_map X M -> (forall ino j, final !! ino = Some j -> is_u64 ino) ->
  let b := in_order (inode_ops (removed_inodes ep) (removed_batch (removed_inodes ep)) (by_number (map_to_list final))) in
  batch_sorted b /\ Forall BatchSpec.op_ok b /\ zlen b <= Z.of_nat (size (removed_inodes ep ∪ dom final)) /\
  extents_map (kept (((fun j => content_id (inode_image j)) <$> final) ∪ X)) (fold_left map_op b M).
Proof.
  intros [HXu HX] Hfin. cbv zeta. set (B := inode_ops _ _ _). destruct (in_order_named B) as [Hs Hl].
  assert (Hnd : NoDup (map fst (by_number (map_to_list final)))) by (rewrite by_number_perm; apply NoDup_fst_map_to_list).
  assert (Hltm : (list_to_map (by_number (map_to_list final)) : gmap Z Inode) = final).
  { rewrite <-(list_to_map_to_list final) at 2. symmetry. apply list_to_map_proper; [apply NoDup_fst_map_to_list|]. by rewrite by_number_perm. }
  assert (Hin : forall ino j, (ino, j) ∈ by_number (map_to_list final) <-> final !! ino = Some j).
  { intros ino j. rewrite by_number_perm. apply elem_of_map_to_list. }
  assert (Hu : Forall (fun x : Z * Inode => is_u64 x.1) (by_number (map_to_list final))).
  { apply list.Forall_forall. intros [ino j] Hx. apply Hin in Hx. by eapply Hfin. }
  assert (HB : forall ino, is_u64 ino -> B !! extent_key ino =
    if bool_decide (ino ∈ removed_inodes ep) then Some None
    else match final !! ino with Some i => Some (Some (content_id (inode_image i))) | None => None end).
  { intros ino Hino. unfold B. rewrite inode_ops_lookup, Hltm by done. case_bool_decide as Hr.
    - apply removed_batch_lookup. split; [done|]. by exists ino.
    - destruct (final !! ino); [done|]. destruct (removed_batch (removed_inodes ep) !! extent_key ino) as [o|] eqn:E; [|done].
      apply removed_batch_lookup in E as (-> & ino' & Hr' & E). apply (extent_key_inj ino ino') in E as ->; [done..|by apply (ov_removed _ _ _ HW)]. }
  assert (Hkeys : forall k o, B !! k = Some o -> exists ino, ino ∈ removed_inodes ep ∪ dom final /\ is_u64 ino /\ k = extent_key ino /\
    match o with Some v => exists j, v = content_id (inode_image j) | None => True end).
  { intros k o Hk. apply inode_ops_keys in Hk as [Hk|(ino & i & Hi & -> & ->)].
    - apply removed_batch_lookup in Hk as (-> & ino & Hr & ->). exists ino. split_and!; [set_solver|by apply (ov_removed _ _ _ HW)|done|done].
    - apply Hin in Hi. exists ino. split_and!; [|by eapply Hfin|done|by eexists]. apply elem_of_union_r, elem_of_dom. by eexists. }
  split; [done|]. split; [|split].
  - apply list.Forall_forall. intros [k o] Hko. apply Hl, Hkeys in Hko as (ino & _ & _ & -> & Ho). split; [apply extent_key_ok|].
    destruct o as [v|]; [|done]. destruct Ho as [j ->]. destruct (Hid (inode_image j)) as [Hlen Hw]. split; [done|]. unfold zlen. cbn. rewrite Hlen. done.
  - apply sorted_NoDup in Hs. unfold zlen. rewrite <-(length_map fst (in_order B)). apply Nat2Z.inj_le.
    change (size (removed_inodes ep ∪ dom final)) with (length (elements (removed_inodes ep ∪ dom final))).
    rewrite <-(length_map extent_key (elements _)). apply submseteq_length, NoDup_submseteq; [done|].
    intros k Hk. apply list_elem_of_fmap in Hk as ([k' o] & -> & Hk). apply Hl, Hkeys in Hk as (ino & Hino & _ & -> & _).
    cbn [fst]. apply (list_elem_of_fmap_2 extent_key). by apply elem_of_elements.
  - split.
    + intros o [v Hv]. rewrite kept_lookup in Hv. case_bool_decide; [done|]. apply lookup_union_Some_raw in Hv as [Hv|[_ Hv]].
      * rewrite lookup_fmap in Hv. destruct (final !! o) eqn:Ef; [|done]. by eapply Hfin.
      * apply HXu. by eexists.
    + intros k v. rewrite batch_lookup, in_order_map by done. split.
      * intros Hk. destruct (B !! k) as [o|] eqn:EB.
        -- destruct (Hkeys _ _ EB) as (ino & _ & Hino & -> & _). exists ino. split_and!; [done..|]. rewrite HB in EB by done.
           rewrite kept_lookup. subst o. case_bool_decide; [done|]. destruct (final !! ino) as [j|] eqn:Ef; [|done].
           apply lookup_union_Some_l. rewrite lookup_fmap, Ef. cbn. congruence.
        -- apply HX in Hk as (ino & Hino & -> & Hx). exists ino. split_and!; [done..|]. rewrite HB in EB by done. rewrite kept_lookup.
           case_bool_decide; [done|]. destruct (final !! ino) eqn:Ef; [done|]. rewrite lookup_union_r; [done|]. by rewrite lookup_fmap, Ef.
      * intros (ino & Hino & -> & Hk). rewrite kept_lookup in Hk. rewrite HB by done. case_bool_decide; [done|].
        destruct (final !! ino) as [j|] eqn:Ef.
        -- rewrite (lookup_union_Some_l _ _ _ (content_id (inode_image j))) in Hk by (by rewrite lookup_fmap, Ef). done.
        -- rewrite lookup_union_r in Hk by (by rewrite lookup_fmap, Ef). apply HX. by exists ino.
Qed.

Context (Hfan_inodes :
  Z.of_nat (size (removed_inodes ep ∪ (dom (pending_inodes ep) ∪ affected_dirs ep ∪ affected_files ep))) <= cap).

(** C4. [epoch_checkpoint].  Over a committed store that stands for the inodes
    [I] and the names [N], the merge of a well-formed overlay whose batches
    fit succeeds, consumes the epoch's log sequence, and commits what a reader
    saw.  That the batches fit is a condition of the code's own making, since
    [patch_rec] splits a leaf once: the pending chunks, the extents of each
    file and the inodes to store must each be at most [cap], where a committed
    leaf and [cap] entries together fill at most two leaves of the new shape,
    which allows 8128 entries over leaves of the order at the default limits.  A larger epoch can commit leaves that no reader accepts
    ([BatchSpec.oversized_batch_unreadable]).  For an overlay within it, unless a staged
    payload has collided, the new root stands for a file system whose names
    are exactly those of the overlay's view and whose inodes are those of the
    view up to the roots of their trees; the tree of every file has the
    committed extents under the pending ones, and the chunk index the
    committed chunks under the pending ones. *)
Theorem checkpoint_refines t C : over t -> holds (txn_tx t) sh n (chunk_index_root (txn_root t)) C ->
  yields content_id txn_tx (txn_tx t) (checkpoint_merge content_id limits ep t)
    (fun t' => log_seq (txn_root t') = Z.max (ep_seq ep) (log_seq (txn_root t)))
    (fun t' => exists I' N', NamespaceSpec.fs limits sh' t' levels I' N' /\
      (forall d name, N' !! (d, name) = overlay_name ep N d name) /\
      (forall ino, option_Forall2 same_node (overlay_inode ep ino (I !! ino)) (I' !! ino)) /\
      (forall f j r, I' !! f = Some j -> file_data j = Some r ->
        exists M M', file_base (txn_tx t') f M /\ holds (txn_tx t') sh' levels r M' /\ merged_extents f M M') /\
      exists C', holds (txn_tx t') sh' levels (chunk_index_root (txn_root t')) C' /\ merged_chunks C C').
Proof.
  intros HO HC. unfold checkpoint_merge. eapply yields_bind; [by apply build_trees_ok|].
  intros [t1 final] L1 Hx1 (HO1 & Hroot1 & Hdom & Hbase). cbn [fst snd] in *.
  assert (Hfu : forall ino j, final !! ino = Some j -> is_u64 ino).
  { intros ino j Hj. destruct (Hbase ino j Hj) as (i & Hi & _). by eapply base_wf; [apply HO1|]. }
  eapply yields_bind; [apply stage_inodes_ok|].
  { apply list.Forall_forall. intros [ino j] Hj. rewrite by_number_perm in Hj. apply elem_of_map_to_list in Hj. cbn.
    destruct (Hbase ino j Hj) as (i & Hi & Hs). destruct (base_wf t1 ino i ltac:(apply HO1) Hi) as (_ & Hw & _).
    eapply same_node_fits; [done|]. apply data_wf_fits, Hw. }
  intros [t2 B] L2 Hx2 [Hroot2 Hops]. cbn [fst snd] in *. subst B.
  assert (HO2 : over t2) by (by eapply over_stages). destruct HO2 as [HF2 HFs2].
  destruct (fs_inodes _ _ _ _ _ _ HF2) as (X & (M & HM & HX) & HXo).
  destruct (inode_index_merged final X M HX Hfu) as (Hbs & Hbok & Hbl & HX').
  eapply yields_impl; [apply (apply_indexes_ok t2 _ M C (fs_ok _ _ _ _ _ _ HF2) HM)|..].
  - rewrite Hroot2, Hroot1, Hx2, Hx1, <-stages_app. apply holds_stages; [apply HO|done].
  - done.
  - done.
  - etrans; [exact Hbl|]. etrans; [|exact Hfan_inodes]. apply Nat2Z.inj_le, subseteq_size, union_mono_l. intros ino Hi.
    apply elem_of_dom, Hdom in Hi as [Hi|[Hi|Hi]]; rewrite !elem_of_union; [left; left; by apply elem_of_dom|left; by right|by right].
  - intros t' L' _ ->. by rewrite Hroot2, Hroot1.
  - intros t' L3 Hx3 Hlog (Hidx & C' & HC' & HCm) Hseen [L2' Hx2'] Htrees [L1' Hx1']. clear Hlog.
    set (I' := kept (final ∪ I)).
    set (N' := base.filter (fun kv : Z * bytes * DirEntry => kv.1 ∉ removed_entries ep) (pending_entries ep ∪ N)).
    assert (HN' : forall d name, N' !! (d, name) = overlay_name ep N d name).
    { intros d name. unfold N', overlay_name. rewrite map_lookup_filter, lookup_union.
      destruct (pending_entries ep !! (d, name)) as [e|], (N !! (d, name)) as [e'|]; cbn; case_bool_decide; cbn;
        try case_guard; done. }
    assert (HI' : forall ino j, I' !! ino = Some j -> ino ∉ removed_inodes ep /\ exists i, base_inode ep I ino = Some i /\ same_node i j /\
      root_wf j /\ tree_merged (txn_tx t') ino j).
    { intros ino j Hj. unfold I' in Hj. rewrite kept_lookup in Hj. case_bool_decide as Hr; [done|]. split; [done|].
      destruct (final !! ino) as [j'|] eqn:Ef.
      - rewrite (lookup_union_Some_l _ _ _ j') in Hj by done. injection Hj as ->. destruct (Hbase ino j Ef) as (i & Hi & Hs).
        destruct (Htrees ino j Ef) as [Hrw Htm]. exists i. split_and!; [done..|]. rewrite Hx1'. apply tree_merged_stages; [apply HO1|done].
      - rewrite lookup_union_r in Hj by done. exists j. assert (Hnd : ino ∉ affected_dirs ep /\ ino ∉ affected_files ep /\ pending_inodes ep !! ino = None).
        { split_and!; [intros ?; assert (Hs : is_Some (final !! ino)) by (apply Hdom; auto); rewrite Ef in Hs; by destruct Hs..|].
          destruct (pending_inodes ep !! ino) eqn:Ep; [|done]. assert (Hs : is_Some (final !! ino)) by (apply Hdom; left; by rewrite Ep).
          rewrite Ef in Hs. by destruct Hs. }
        destruct Hnd as (Hd & Hf & Hp). split; [unfold base_inode; by rewrite Hp|]. split; [apply same_node_refl|].
        pose proof (unaffected_tree t1 ino HO1 Hd Hf) as Hu. rewrite Hj in Hu. split; [apply Hu|]. rewrite Hx1'.
        apply tree_merged_stages; [apply HO1|apply Hu]. }
    assert (Hover : forall ino, option_Forall2 same_node (overlay_inode ep ino (I !! ino)) (I' !! ino)).
    { intros ino. unfold overlay_inode. destruct (I' !! ino) as [j|] eqn:Ej.
      - destruct (HI' ino j Ej) as (Hr & i & Hi & Hs & _). rewrite bool_decide_eq_false_2 by done. unfold base_inode in Hi.
        destruct (pending_inodes ep !! ino); [injection Hi as ->; by constructor|rewrite Hi; by constructor].
      - unfold I' in Ej. rewrite kept_lookup in Ej. case_bool_decide; [constructor|]. apply lookup_union_None in Ej as [Ef Ei].
        destruct (pending_inodes ep !! ino) eqn:Ep; [|rewrite Ei; constructor].
        assert (Hs : is_Some (final !! ino)) by (apply Hdom; left; by rewrite Ep). rewrite Ef in Hs. by destruct Hs. }
    exists I', N'. split; [split|].
    + rewrite Hx1'. apply stages_ok, HO1.
    + exists (kept (((fun j => content_id (inode_image j)) <$> final) ∪ X)). split; [by eexists|].
      intros ino. unfold I'. rewrite !kept_lookup. case_bool_decide; [constructor|]. rewrite !lookup_union, lookup_fmap.
      destruct (final !! ino) as [j|] eqn:Ef; cbn.
      * assert (Hj : I' !! ino = Some j).
        { unfold I'. rewrite kept_lookup, bool_decide_eq_false_2 by done. by apply lookup_union_Some_l. }
        destruct (HI' ino j Hj) as (_ & i & Hi & Hs & Hrw & _). destruct (base_wf t1 ino i ltac:(apply HO1) Hi) as (_ & Hw & _).
        specialize (Hseen ino j). rewrite by_number_perm, elem_of_map_to_list in Hseen.
        assert (Ho : inode_object (txn_tx t') (content_id (inode_image j)) j).
        { split; [apply Hid|]. split; [by eapply same_node_wf|]. rewrite Hx2'. apply stages_seen; [apply HF2|by apply Hseen]. }
        destruct (X !! ino), (I !! ino); by constructor.
      * specialize (HXo ino). destruct HXo as [id c Ho|]; [|constructor]. constructor. rewrite Hx2'. apply inode_object_stages; [apply HF2|done].
    + intros dir i r Hi Hr. destruct (HI' dir i Hi) as (_ & _ & _ & _ & _ & Ht). unfold tree_merged, dir_data in *.
      destruct (i_data i); [|done..]. injection Hr as ->. destruct Ht as (E & HE & Hv). exists E. split; [done|]. intros name. by rewrite HN', Hv.
    + intros dir name e He. rewrite HN' in He. destruct (ov_owner _ _ _ HW _ _ _ He) as (i & Hi & Hdir). specialize (Hover dir).
      rewrite Hi in Hover. inversion Hover as [? j Hs E1 E2|]; subst. exists j. split; [done|]. by apply (same_node_dir_data _ _ Hs).
    + intros ino j Hj. destruct (HI' ino j Hj) as (_ & i & Hi & Hs & Hrw & _). destruct (base_wf t1 ino i ltac:(apply HO1) Hi) as (Hu & Hw & Hk).
      split; [done|]. split; [by eapply same_node_wf|by eapply same_node_kind].
    + split; [done|]. split; [done|]. split; [|by exists C'].
      intros f j r Hj Hr. destruct (HI' f j Hj) as (_ & _ & _ & _ & _ & Ht). unfold tree_merged, file_data in *.
      destruct (i_data j); [done| |done..]. by injection Hr as ->.
Qed.
End Merge.

(** * Examples *)

(** The epoch has removed the file [a], its last link, and made a file [b]. *)
Definition merge_sample : Epoch :=
  drop_inode (drop_entry (pend_entry (pend_inode (set_seq Epoch_default 2) 3 inode_a) 1 [98] {| de_ino := 3; de_d_type := DT_REG |}) 1 [97]) 2.
Definition merge_shape : Shape := {| sh_leaf := 64; sh_min := 0 |}.

Lemma merge_sample_name (d : Z) (name : bytes) : overlay_name merge_sample fs_names d name =
  if decide ((d, name) = (1, [98])) then Some {| de_ino := 3; de_d_type := DT_REG |} else None.
Proof.
  unfold overlay_name. cbn. destruct (decide ((d, name) = (1, [98]))) as [->|Hne]; [done|].
  rewrite lookup_insert_ne by done. rewrite lookup_empty. case_bool_decide as Hr; [done|]. unfold fs_names. apply lookup_singleton_ne.
  intros E. apply Hr. rewrite <-E. by apply elem_of_union_l, elem_of_singleton.
Qed.

Lemma merge_sample_wf : overlay_wf merge_sample fs_inodes_ fs_names.
Proof.
  assert (Hd : affected_dirs merge_sample = {[1]}) by (by apply (bool_decide_unpack _); vm_compute).
  assert (Hf : affected_files merge_sample = ∅) by (by apply (bool_decide_unpack _); vm_compute).
  assert (Hp : pending_inodes merge_sample = {[3 := inode_a]}) by done. split.
  - intros d name e He. cbn in He. apply lookup_insert_Some in He as [[[= <- <-] <-]|[_ He]]; [|by rewrite lookup_empty in He].
    split; [split; [by repeat constructor|done]|]. split; cbn; unfold DT_REG; width.
  - intros d Hin. rewrite Hd in Hin. apply elem_of_singleton in Hin as ->. split; [width|]. exists inode_dir. split; [done|by eexists].
  - intros f Hin. exfalso. rewrite Hf in Hin. exact (not_elem_of_empty f Hin).
  - intros f off b Hb. done.
  - intros cid b Hb. done.
  - intros ino i Hi. rewrite Hp in Hi. apply lookup_singleton_Some in Hi as [<- <-]. split; [width|]. apply sample_inodes_wf.
  - intros ino i c Hi. rewrite Hp in Hi. apply lookup_singleton_Some in Hi as [<- <-]. done.
  - intros ino i r Hi _ Hr. rewrite Hp in Hi. apply lookup_singleton_Some in Hi as [<- <-]. by destruct Hr as [Hr|[= <-]].
  - intros ino Hin. change (ino ∈ ({[2]} ∪ ∅ : gset Z)) in Hin. apply elem_of_union in Hin as [Hin|Hin]; [|exfalso; exact (not_elem_of_empty ino Hin)].
    apply elem_of_singleton in Hin as ->. split; lia.
  - intros d name e He. rewrite merge_sample_name in He. case_decide as E; [|done]. injection E as -> ->. exists inode_dir. split; [done|by eexists].
Qed.

Lemma merge_sample_size (d : Z) (E : gmap bytes DirEntry) :
  (forall name, E !! name = overlay_name merge_sample fs_names d name) -> Z.of_nat (size E) < 2 ^ 64.
Proof.
  intros HE. assert (Hsub : E ⊆ {[ [98] := {| de_ino := 3; de_d_type := DT_REG |} ]}).
  { apply map_subseteq_spec. intros name e He. rewrite HE, merge_sample_name in He. case_decide as Eq; [|done].
    injection Eq as _ ->. by rewrite lookup_singleton_eq. }
  apply map_subseteq_size in Hsub. rewrite map_size_singleton in Hsub. lia.
Qed.

Lemma checkpoint_refines_witness :
  exists t' L, checkpoint_merge mix_hash Limits_default merge_sample fs_txn = Ok t' /\ log_seq (txn_root t') = 2 /\
    (good mix_hash (txn_tx t') L -> exists I' N', fs Limits_default merge_shape t' 64 I' N' /\
      N' !! (1, [97]) = None /\ N' !! (1, [98]) = Some {| de_ino := 3; de_d_type := DT_REG |} /\ I' !! 2 = None).
Proof.
  destruct (checkpoint_refines mix_hash Limits_default mix_hash_wf ltac:(by vm_compute) full_shape merge_shape 64 ltac:(by vm_compute)
    eq_refl ltac:(by vm_compute) ltac:(by vm_compute) ltac:(by vm_compute) ltac:(by vm_compute) ltac:(by vm_compute)
    merge_sample 0 fs_inodes_ fs_names ltac:(lia) fs_names_view merge_sample_size merge_sample_wf
    ltac:(intros f; by vm_compute) ltac:(by vm_compute) ltac:(by vm_compute) fs_txn ∅)
    as (t' & L & E & _ & Hlog & HQ).
  - split; [exact fs_sample|]. intros f c r Hc Hr. exists ∅. unfold fs_inodes_ in Hc. rewrite lookup_insert_Some, lookup_singleton_Some in Hc.
    destruct Hc as [[_ <-]|[_ [_ <-]]]; [done|]. injection Hr as <-. exists []. split; [by left|done].
  - exists []. split; [by left|done].
  - exists t', L. split; [exact E|]. split; [exact Hlog|]. intros Hg. destruct (HQ Hg) as (I' & N' & HF & HN & HI & _).
    exists I', N'. split; [exact HF|]. split; [by rewrite HN, merge_sample_name|]. split; [by rewrite HN, merge_sample_name|].
    specialize (HI 2). by inversion HI.
Defined.
