(* ===== verification/EpochInvariant.v ===== *)
(** The overlay across operations and checkpoints: the well-formedness that
    the merge needs is kept by the operations of an epoch, and dropping what
    a checkpoint has merged keeps the view. *)
From stdpp Require Import gmap sorting.
From Stdlib Require String.
From S2P Require Import Prelude Codec Repr Version SegRecord Inode Superblock Descriptor Context Candidate Keys BTree StoreError RootObj BTreeNode BTreeSpec IndexSpec ScanSpec ExtentTree ExtentSpec Directory DirectorySpec Transaction TransactionSpec Namespace NamespaceSpec Mutation MutationSpec Epoch Checkpoint EpochSpec CheckpointSpec.
Import String.StringSyntax.

(** * Dropping what was merged *)

(** The live epoch has grown from the frozen one: neither the removals nor the
    pending keys have become fewer. *)
Definition grown_from (frozen ep : Epoch) : Prop :=
  removed_entries frozen ⊆ removed_entries ep /\ dom (pending_entries frozen) ⊆ dom (pending_entries ep) /\
  removed_inodes frozen ⊆ removed_inodes ep /\ dom (pending_inodes frozen) ⊆ dom (pending_inodes ep).

Lemma compare_and_remove_lookup {K} `{Countable K} {A} `{EqDecision A} (m frozen : gmap K A) k :
  compare_and_remove m frozen !! k = match m !! k with
    | Some a => if bool_decide (frozen !! k = Some a) then None else Some a
    | None => None
    end.
Proof.
  unfold compare_and_remove. rewrite map_lookup_filter. destruct (m !! k) as [a|]; cbn; [|done].
  case_bool_decide; case_guard; done.
Qed.

(** The overlay removal of a checkpoint.  The live epoch has grown from
    the frozen one while its merge ran, and the merge has committed the names
    that the frozen epoch showed.  Then the view of a name is what it was,
    with one exception: a name that the frozen epoch had removed and that was
    made again during the merge, hidden until then, comes into view; and
    every later entry, and every later removal, is kept. *)
Theorem overlay_remove_view (frozen ep : Epoch) (N N' : Names) (d : Z) (name : bytes) :
  grown_from frozen ep -> (forall d name, N' !! (d, name) = overlay_name frozen N d name) ->
  overlay_name (overlay_remove ep frozen) N' d name =
    if bool_decide ((d, name) ∈ removed_entries frozen) then
      match pending_entries ep !! (d, name) with
      | Some e => if bool_decide (pending_entries frozen !! (d, name) = Some e) then None else Some e
      | None => None
      end
    else overlay_name ep N d name.
Proof.
  intros (Hr & Hp & _) HN. unfold overlay_name at 1. cbn [overlay_remove removed_entries pending_entries].
  rewrite compare_and_remove_lookup, HN. unfold overlay_name.
  destruct (decide ((d, name) ∈ removed_entries frozen)) as [Hf|Hf].
  - rewrite (bool_decide_eq_true_2 ((d, name) ∈ removed_entries frozen)) by done.
    rewrite bool_decide_eq_false_2 by (intros Hin; by apply elem_of_difference in Hin as [_ ?]).
    destruct (pending_entries ep !! (d, name)); [|done]. by case_bool_decide.
  - rewrite (bool_decide_eq_false_2 ((d, name) ∈ removed_entries frozen)) by done.
    rewrite (bool_decide_ext ((d, name) ∈ removed_entries ep ∖ removed_entries frozen) ((d, name) ∈ removed_entries ep))
      by (rewrite elem_of_difference; tauto).
    case_bool_decide; [done|]. destruct (pending_entries ep !! (d, name)) as [e|] eqn:Ep.
    + case_bool_decide as Hfe; [by rewrite Hfe|done].
    + destruct (pending_entries frozen !! (d, name)) eqn:Ef; [|done].
      assert (Hin : (d, name) ∈ dom (pending_entries ep)) by (apply Hp, elem_of_dom; by eexists).
      apply elem_of_dom in Hin. rewrite Ep in Hin. by destruct Hin.
Qed.

(** A name removed in the frozen epoch and made again while its merge ran. *)
Definition remade : Epoch := pend_entry (drop_entry Epoch_default 1 [97]) 1 [97] {| de_ino := 9; de_d_type := DT_REG |}.

Lemma overlay_remove_view_witness :
  overlay_name remade ({[ (1, [97]) := {| de_ino := 2; de_d_type := DT_REG |} ]} : Names) 1 [97] = None /\
  overlay_name (overlay_remove remade (drop_entry Epoch_default 1 [97])) (∅ : Names) 1 [97] = Some {| de_ino := 9; de_d_type := DT_REG |}.
Proof.
  split; [by vm_compute|].
  rewrite (overlay_remove_view (drop_entry Epoch_default 1 [97]) remade {[ (1, [97]) := {| de_ino := 2; de_d_type := DT_REG |} ]} ∅ 1 [97]).
  - by vm_compute.
  - unfold grown_from. split_and!; vm_compute; done.
  - intros d name. rewrite lookup_empty. unfold overlay_name. cbn [removed_entries pending_entries drop_entry Epoch_default].
    case_bool_decide as Hin; [done|]. change (pending_entries (drop_entry Epoch_default 1 [97])) with (∅ : gmap (Z * bytes) DirEntry).
    rewrite (lookup_empty (M := gmap (Z * bytes))), lookup_singleton_ne; [done|]. intros E. apply Hin. rewrite <-E.
    apply elem_of_union_l. by apply elem_of_singleton.
Defined.

(** * Inode numbers *)

Section Alloc.
Context (limits : Limits) (sh : Shape) (n : nat) (I : gmap Z Inode) (N : Names) (Hn : (n <= 128)%nat).
Context (Hsize : Z.of_nat (size I) < 2 ^ 64).
#[local] Abbreviation fs t := (NamespaceSpec.fs limits sh t n I N).
Implicit Types (t : Txn) (ino : Z).

Lemma all_inodes_ok t : fs t -> exists l, all_inodes limits (txn_tx t) (txn_root t) = Ok l /\ forall ino, ino ∈ l <-> is_Some (I !! ino).
Proof.
  intros HF. destruct (fs_inodes _ _ _ _ _ _ HF) as (X & (M & (m & Hix & ->) & HX) & HXI).
  destruct (extents_listing X m HX (index_sorted _ _ _ _ _ _ _ Hix)) as (l & [Hs Hl] & -> & Hu).
  assert (Hdom : forall ino, is_Some (X !! ino) <-> is_Some (I !! ino)).
  { intros ino. specialize (HXI ino). destruct HXI; split; intros [? ?]; try done; by eexists. }
  assert (Hlen : zlen (map enc_extent l) < 2 ^ 64).
  { unfold zlen. rewrite length_map. assert (Hle : (length l <= size I)%nat); [|lia].
    rewrite <-(size_dom (D := gset Z) I). change (size (dom I)) with (length (elements (dom I))). rewrite <-(length_map fst l).
    apply submseteq_length, NoDup_submseteq.
    - assert (Hnd : NoDup (map fst l)); [|done]. clear -Hs. induction Hs as [|a l' Hs IH Hf]; [constructor|]. constructor; [|done].
      intros Hin. rewrite list.Forall_forall in Hf. specialize (Hf _ Hin). lia.
    - intros ino Hin. apply list_elem_of_fmap in Hin as ([o v] & -> & Hin). apply elem_of_elements, elem_of_dom, Hdom. apply Hl in Hin. by eexists. }
  unfold all_inodes. destruct (scan_all_ok BTREE_ORDER (max_fanout limits) (txn_tx t) sh n _ _ Hix Hn Hlen) as [-> _]. cbn [of_tree map_err rbind].
  exists (map fst l). split.
  - clear -Hu. induction Hu as [|[o v] l Ho Hu IH]; [done|]. cbn [map enc_extent key_inos fst]. rewrite key_offset_ok by done.
    cbn [of_tree map_err rbind]. by rewrite IH.
  - intros ino. rewrite <-Hdom. split.
    + intros Hin. apply list_elem_of_fmap in Hin as ([o v] & -> & Hin). apply Hl in Hin. by eexists.
    + intros [v Hv]. apply Hl in Hv. by apply (list_elem_of_fmap_2 fst) in Hv.
Qed.

Lemma max_of l : match l with [] => 1 | i :: is_ => fold_left Z.max is_ i end = 1 /\ l = [] \/
  (forall ino, ino ∈ l -> ino <= match l with [] => 1 | i :: is_ => fold_left Z.max is_ i end) /\
  match l with [] => 1 | i :: is_ => fold_left Z.max is_ i end ∈ l.
Proof.
  destruct l as [|i l]; [by left|right].
  assert (H : forall l i, (forall j, j ∈ i :: l -> j <= fold_left Z.max l i) /\ fold_left Z.max l i ∈ i :: l).
  { clear. induction l as [|k l IH]; intros i; cbn [fold_left].
    - split; [|by left]. intros j Hj. apply elem_of_cons in Hj as [->|Hj]; [lia|by apply not_elem_of_nil in Hj].
    - destruct (IH (Z.max i k)) as [H1 H2]. split.
      + intros j Hj. pose proof (H1 (Z.max i k) ltac:(by left)) as Hm. apply elem_of_cons in Hj as [->|Hj]; [lia|].
        apply elem_of_cons in Hj as [->|Hj]; [lia|]. apply H1. by right.
      + apply elem_of_cons in H2 as [H2|H2]; [|by do 2 right].
        destruct (Z.max_spec i k) as [[_ E]|[_ E]]; rewrite E in *; rewrite H2; [right; by left|by left]. }
  apply H.
Qed.
End Alloc.

(** * The invariant *)

(** [ino] has an inode, or had one. *)
Definition known (ep : Epoch) (I : gmap Z Inode) (ino : Z) : Prop := is_Some (base_inode ep I ino) \/ ino ∈ removed_inodes ep.

(** The overlay of an open epoch over the committed inodes [I] and names [N]:
    well formed, and no number beyond the allocation cache is known. *)
Record overlay_inv (ep : Epoch) (I : gmap Z Inode) (N : Names) : Prop := {
  oi_wf : overlay_wf ep I N;
  oi_pos : 0 <= max_ino ep;
  oi_first ino : max_ino ep = 0 -> known ep I ino -> is_Some (I !! ino);
  oi_max ino : max_ino ep <> 0 -> known ep I ino -> ino <= max_ino ep
}.

(** The same inode again, with other attributes. *)
Definition touches (i c : Inode) : Prop := i_data i = i_data c /\ is_dir i = is_dir c.

(** The same overlay, whatever the sequence and the allocation cache. *)
Definition same_maps (ep ep' : Epoch) : Prop :=
  pending_inodes ep' = pending_inodes ep /\ removed_inodes ep' = removed_inodes ep /\
  pending_entries ep' = pending_entries ep /\ removed_entries ep' = removed_entries ep /\
  pending_extents ep' = pending_extents ep /\ pending_chunks ep' = pending_chunks ep.

Lemma mode_update (a m : Z) :
  let r := Z.lor (Z.land a S_IFMT) (Z.land m S_IPERM) in is_u32 r /\ Z.land r S_IFMT = Z.land a S_IFMT.
Proof.
  cbv zeta. assert (Hb : forall b k, 0 <= k -> 0 <= Z.land b (Z.ones k) < 2 ^ k) by (intros; rewrite Z.land_ones by done; by apply Z.mod_pos_bound; lia).
  set (r := Z.lor _ _). split.
  - assert (E : r = Z.land r (Z.ones 16)).
    { unfold r. rewrite Z.land_lor_distr_l, <-!Z.land_assoc. done. }
    rewrite E. pose proof (Hb r 16 ltac:(lia)). width.
  - unfold r. rewrite Z.land_lor_distr_l, <-!Z.land_assoc. change (Z.land S_IPERM S_IFMT) with 0. change (Z.land S_IFMT S_IFMT) with S_IFMT.
    by rewrite Z.land_0_r, Z.lor_0_r.
Qed.

Definition update_ok (u : AttrUpdate) : Prop :=
  opt_ok is_u32 (au_uid u) /\ opt_ok is_u32 (au_gid u) /\ opt_ok timespec_wf (au_atime u) /\ opt_ok timespec_wf (au_mtime u).

Lemma update_meta_wf (i : Inode) (u : AttrUpdate) (t : Timespec) : inode_wf i -> update_ok u -> timespec_wf t ->
  inode_wf (update_meta i u t) /\ touches (update_meta i u t) i.
Proof.
  intros [] (Hu & Hg & Ha & Hm) Ht. assert (Hty : file_type (update_meta i u t) = file_type i).
  { unfold file_type, update_meta. cbn. destruct (au_mode u); [apply mode_update|done]. }
  split; [|split; [done|unfold is_dir; by rewrite Hty]]. split; try done.
  - cbn. destruct (au_mode u); [apply mode_update|done].
  - cbn. by destruct (au_uid u).
  - cbn. by destruct (au_gid u).
  - cbn. by destruct (au_atime u).
  - cbn. by destruct (au_mtime u).
  - by rewrite Hty.
Qed.

Section Keeps.
Context (I : gmap Z Inode) (N : Names).
Implicit Types (ep : Epoch) (ino d : Z) (name : bytes) (i c : Inode) (e : DirEntry).
#[local] Abbreviation overlay_wf ep := (CheckpointSpec.overlay_wf ep I N).

Lemma overlay_wf_same ep ep' : same_maps ep ep' -> overlay_wf ep -> overlay_wf ep'.
Proof.
  intros (E2 & E3 & E4 & E5 & E6 & E7) H.
  assert (Ed : affected_dirs ep' = affected_dirs ep) by (unfold affected_dirs; by rewrite E4, E5).
  assert (Ef : affected_files ep' = affected_files ep) by (unfold affected_files; by rewrite E6).
  destruct H. split; unfold base_inode, overlay_name, overlay_inode in *; rewrite ?E2, ?E3, ?E4, ?E5, ?E6, ?E7, ?Ed, ?Ef; done.
Qed.

Lemma overlay_base ep ino c : overlay_inode ep ino (I !! ino) = Some c -> base_inode ep I ino = Some c /\ ino ∉ removed_inodes ep.
Proof. unfold overlay_inode, base_inode. case_bool_decide; [done|]. by intros. Qed.

Lemma affected_dirs_in ep d : d ∈ affected_dirs ep <-> (exists name, (exists e, pending_entries ep !! (d, name) = Some e) \/ (d, name) ∈ removed_entries ep).
Proof.
  unfold affected_dirs. rewrite elem_of_union, !elem_of_list_to_set. split.
  - intros [H|H]; apply list_elem_of_fmap in H as ([k v] & -> & H).
    + destruct k as [p name]. apply elem_of_map_to_list in H. exists name. left. by exists v.
    + apply elem_of_elements in H. exists v. by right.
  - intros (name & [(e & H)|H]); [left|right].
    + apply elem_of_map_to_list in H. by apply (list_elem_of_fmap_2 (fun '((p, _), _) => p)) in H.
    + apply elem_of_elements in H. by apply (list_elem_of_fmap_2 fst) in H.
Qed.

(** Replacing an inode by an update of it. *)
Lemma touch_keeps ep ino i c : overlay_wf ep -> overlay_inode ep ino (I !! ino) = Some c ->
  touches i c -> is_u64 ino -> inode_wf i -> kind_ok i -> overlay_wf (pend_inode ep ino i).
Proof.
  intros H [Hb Hr]%overlay_base [Hdata Hdir] Hu Hi Hk. destruct H as [Oe Od Ofl Oex Och Oi Os Ofr Orm Oow].
  assert (Hbase : forall j p, base_inode ep I j = Some p -> exists p', base_inode (pend_inode ep ino i) I j = Some p' /\ i_data p' = i_data p).
  { intros j p Hp. unfold base_inode in *. cbn. destruct (decide (ino = j)) as [->|Hne].
    - rewrite lookup_insert_eq. exists i. rewrite Hb in Hp. injection Hp as <-. done.
    - rewrite lookup_insert_ne by done. by exists p. }
  assert (Hd : forall p p', i_data p' = i_data p -> dir_data p' = dir_data p /\ file_data p' = file_data p)
    by (intros p p' E; unfold dir_data, file_data; by rewrite E).
  destruct (Hd c i Hdata) as [Edir Efile].
  split; try done.
  - intros d Hin. destruct (Od d Hin) as (Hdu & p & Hp & Hpd). split; [done|]. destruct (Hbase d p Hp) as (p' & Hp' & E).
    exists p'. split; [done|]. by destruct (Hd p p' E) as [-> _].
  - intros f Hin. destruct (Ofl f Hin) as (Hdu & p & Hp & Hpd). split; [done|]. destruct (Hbase f p Hp) as (p' & Hp' & E).
    exists p'. split; [done|]. by destruct (Hd p p' E) as [_ ->].
  - intros j p. cbn. destruct (decide (ino = j)) as [->|Hne]; [rewrite lookup_insert_eq; by intros [= <-]|rewrite lookup_insert_ne by done; apply Oi].
  - intros j p q. cbn. destruct (decide (ino = j)) as [->|Hne].
    + rewrite lookup_insert_eq. intros [= <-] Hq. rewrite Edir, Efile. unfold base_inode in Hb. rewrite Hq in Hb.
      destruct (pending_inodes ep !! j) as [p0|] eqn:Ep; [injection Hb as ->; by apply (Os j)|by injection Hb as ->].
    + rewrite lookup_insert_ne by done. apply Os.
  - intros j p r. cbn. destruct (decide (ino = j)) as [->|Hne].
    + rewrite lookup_insert_eq. intros [= <-] Hq. rewrite Edir, Efile. unfold base_inode in Hb. rewrite Hq in Hb.
      destruct (pending_inodes ep !! j) as [p0|] eqn:Ep; [injection Hb as ->; by apply (Ofr j)|done].
    + rewrite lookup_insert_ne by done. apply Ofr.
  - intros d name e He. destruct (Oow d name e He) as (p & Hp & Hpd). unfold overlay_inode in *. cbn.
    case_bool_decide; [done|]. destruct (decide (ino = d)) as [->|Hne].
    + rewrite lookup_insert_eq. exists i. split; [done|]. rewrite Edir. unfold base_inode in Hb.
      destruct (pending_inodes ep !! d); simplify_eq; done.
    + rewrite lookup_insert_ne by done. by exists p.
Qed.

(** A new inode under an unknown number. *)
Lemma fresh_keeps ep ino i : overlay_wf ep -> ~ known ep I ino -> is_u64 ino -> inode_wf i -> kind_ok i ->
  (forall r : ChunkId, dir_data i = Some r \/ file_data i = Some r -> r = ChunkId_ZERO) -> overlay_wf (pend_inode ep ino i).
Proof.
  intros H Hno Hu Hi Hk Hz. assert (Hb : base_inode ep I ino = None) by (destruct (base_inode ep I ino) eqn:E; [destruct Hno; left; by eexists|done]).
  assert (HI : I !! ino = None) by (unfold base_inode in Hb; by destruct (pending_inodes ep !! ino)).
  assert (Hbase : forall j p, base_inode ep I j = Some p -> base_inode (pend_inode ep ino i) I j = Some p).
  { intros j p Hp. unfold base_inode in *. cbn. rewrite lookup_insert_ne; [done|]. intros ->. congruence. }
  destruct H as [Oe Od Ofl Oex Och Oi Os Ofr Orm Oow]. split; try done.
  - intros d Hin. destruct (Od d Hin) as (Hdu & p & Hp & Hpd). split; [done|]. exists p. by rewrite (Hbase d p Hp).
  - intros f Hin. destruct (Ofl f Hin) as (Hdu & p & Hp & Hpd). split; [done|]. exists p. by rewrite (Hbase f p Hp).
  - intros j p. cbn. destruct (decide (ino = j)) as [->|Hne]; [rewrite lookup_insert_eq; by intros [= <-]|rewrite lookup_insert_ne by done; apply Oi].
  - intros j p q. cbn. destruct (decide (ino = j)) as [->|Hne]; [congruence|rewrite lookup_insert_ne by done; apply Os].
  - intros j p r. cbn. destruct (decide (ino = j)) as [->|Hne]; [rewrite lookup_insert_eq; intros [= <-] _; apply Hz|rewrite lookup_insert_ne by done; apply Ofr].
  - intros d name e He. destruct (Oow d name e He) as (p & Hp & Hpd). exists p. split; [|done].
    destruct (overlay_base ep d p Hp) as [Hpb _]. unfold overlay_inode in *. cbn. case_bool_decide; [done|].
    rewrite lookup_insert_ne; [done|]. intros ->. congruence.
Qed.

(** A name in a directory of the view. *)
Lemma entry_keeps ep d name e i : overlay_wf ep -> overlay_inode ep d (I !! d) = Some i -> is_Some (dir_data i) -> is_u64 d ->
  key_ok name -> DirEntry_ok e -> overlay_wf (pend_entry ep d name e).
Proof.
  intros H Hd Hdir Hu Hk He. destruct H as [Oe Od Ofl Oex Och Oi Os Ofr Orm Oow]. split; try done.
  - intros d' nm e'. cbn. rewrite lookup_insert_Some. intros [[[= <- <-] <-]|[_ H]]; [done|by apply (Oe d' nm e')].
  - intros d' Hin. apply affected_dirs_in in Hin as (nm & Hin). destruct (decide (d = d')) as [->|Hne].
    + split; [done|]. exists i. by destruct (overlay_base ep d' i Hd).
    + apply Od, affected_dirs_in. exists nm. destruct Hin as [(e' & Hin)|Hin]; [left|by right].
      cbn in Hin. rewrite lookup_insert_ne in Hin by congruence. by exists e'.
  - intros d' nm e' H. unfold overlay_inode. cbn. change (exists i0, overlay_inode ep d' (I !! d') = Some i0 /\ is_Some (dir_data i0)).
    destruct (decide ((d, name) = (d', nm))) as [[= <- <-]|Hne]; [by exists i|]. apply (Oow d' nm e').
    unfold overlay_name in *. cbn in H. by rewrite lookup_insert_ne in H by done.
Qed.

(** A name taken out. *)
Lemma drop_entry_keeps ep d name i : overlay_wf ep -> base_inode ep I d = Some i -> is_Some (dir_data i) -> is_u64 d ->
  overlay_wf (drop_entry ep d name).
Proof.
  intros H Hd Hdir Hu. destruct H as [Oe Od Ofl Oex Och Oi Os Ofr Orm Oow]. split; try done.
  - intros d' Hin. apply affected_dirs_in in Hin as (nm & Hin). destruct (decide (d = d')) as [->|Hne]; [split; [done|by exists i]|].
    apply Od, affected_dirs_in. exists nm. destruct Hin as [Hin|Hin]; [by left|right]. cbn in Hin.
    apply elem_of_union in Hin as [Hin|Hin]; [apply elem_of_singleton in Hin; congruence|done].
  - intros d' nm e'. unfold overlay_name. cbn. case_bool_decide as Hin; [done|]. intros H. apply (Oow d' nm e').
    unfold overlay_name. rewrite bool_decide_eq_false_2; [done|]. intros Hin'. apply Hin. by apply elem_of_union_r.
Qed.

(** An inode taken out, no name being in it. *)
Lemma drop_inode_keeps ep ino : overlay_wf ep -> is_u64 ino -> (forall nm : bytes, overlay_name ep N ino nm = None) ->
  overlay_wf (drop_inode ep ino).
Proof.
  intros H Hu Hno. destruct H as [Oe Od Ofl Oex Och Oi Os Ofr Orm Oow]. split; try done.
  - intros j Hj. cbn in Hj. apply elem_of_union in Hj as [Hj|Hj]; [by apply elem_of_singleton in Hj as ->|by apply Orm].
  - intros d nm e He. assert (Hd : d <> ino) by (intros ->; unfold overlay_name in *; cbn in He; by rewrite Hno in He).
    destruct (Oow d nm e He) as (p & Hp & Hpd). exists p. split; [|done]. unfold overlay_inode in *. cbn.
    rewrite (bool_decide_ext _ (d ∈ removed_inodes ep)); [done|]. rewrite elem_of_union, elem_of_singleton. tauto.
Qed.
End Keeps.

(** * The operations of an epoch *)

Section Steps.
Context (content_id : bytes -> ChunkId) (limits : Limits) (Hid : forall b, wf_id (content_id b)).
Context (sh : Shape) (root : Root) (n : nat) (I : gmap Z Inode) (N : Names) (Hn : (n <= 128)%nat).
Context (Hsize : forall dir E, view N dir E -> Z.of_nat (size E) < 2 ^ 64 - 1) (HsizeI : Z.of_nat (size I) < 2 ^ 64).
Implicit Types (x : Tx StoreError) (ep : Epoch) (ino parent : Z) (name : bytes) (i c : Inode) (e : NewEntry) (now : nat -> Timespec).

(** The store as an operation finds it: the root of the last checkpoint,
    whatever records have been appended since. *)
Definition serves x : Prop := fs limits sh {| txn_tx := x; txn_root := root; txn_features := 0 |} n I N /\ tx_pending x = ∅.

Inductive epoch_step (ep ep' : Epoch) : Prop :=
  | step_create x now parent name e ino records : serves x -> (forall k : nat, timespec_wf (now k)) ->
      is_u64 parent -> wf_bytes name -> entry_ok e -> 0 <= ep_seq ep < 2 ^ 64 - 1 ->
      epoch_create content_id limits now false x root ep parent name e = Ok (ino, ep', records) ->
      ino < 2 ^ 64 - 1 -> epoch_step ep ep'
  | step_unlink x now parent name is_dir_ ino records : serves x -> (forall k : nat, timespec_wf (now k)) ->
      is_u64 parent -> wf_bytes name -> 0 <= ep_seq ep < 2 ^ 64 - 1 ->
      epoch_unlink content_id limits now false x root ep parent name is_dir_ = Ok (ino, ep', records) -> epoch_step ep ep'
  | step_setattr x now ino update i records : serves x -> (forall k : nat, timespec_wf (now k)) -> is_u64 ino -> update_ok update ->
      epoch_setattr content_id limits now false x root ep ino update = Ok (i, ep', records) -> epoch_step ep ep'.

Lemma overlay_inode_facts x ep ino c : serves x -> overlay_wf ep I N -> overlay_inode ep ino (I !! ino) = Some c ->
  is_u64 ino /\ inode_wf c /\ kind_ok c.
Proof.
  intros [HF _] HW Hc. apply overlay_base in Hc as [Hb _]. unfold base_inode in Hb.
  destruct (pending_inodes ep !! ino) as [p|] eqn:Ep; [injection Hb as ->; by apply (ov_inode _ _ _ HW)|].
  by apply (fs_kinds _ _ _ _ _ _ HF).
Qed.

Lemma overlay_name_facts x ep parent name (d : DirEntry) : serves x -> overlay_wf ep I N -> overlay_name ep N parent name = Some d ->
  is_u64 (de_ino d).
Proof.
  intros [HF _] HW. unfold overlay_name. case_bool_decide; [done|].
  destruct (pending_entries ep !! (parent, name)) as [d'|] eqn:Ep; [intros [= <-]; by apply (ov_entry _ _ _ HW) in Ep as [_ [? _]]|].
  intros HN. destruct (fs_owner _ _ _ _ _ _ HF _ _ _ HN) as (i & Hi & [r Hr]).
  destruct (fs_dirs _ _ _ _ _ _ HF _ _ _ Hi Hr) as (E & HE & Hv). rewrite <-Hv in HN.
  destruct HE as [_ Hok]. by apply (Hok _ _ HN).
Qed.

Lemma overlay_ready x ep d i : serves x -> overlay_wf ep I N -> overlay_inode ep d (I !! d) = Some i -> is_Some (dir_data i) -> dir_ready I d.
Proof. intros _ HW Hi. apply overlay_base in Hi as [Hb _]. by apply (base_ready ep I N HW d i). Qed.

(** The number of a create is new. *)
Lemma alloc_fresh x ep ino ep0 : serves x -> overlay_inv ep I N -> epoch_alloc limits x root ep = Ok (ino, ep0) -> ino < 2 ^ 64 - 1 ->
  0 < ino /\ forall j, known ep I j -> j < ino.
Proof.
  intros [HF _] HI. unfold epoch_alloc.
  destruct (Z.eqb_spec (max_ino ep) 0) as [E|E].
  - destruct (all_inodes_ok limits sh n I N Hn HsizeI _ HF) as (l & El & Hl). cbn in El. rewrite El. cbn [rbind].
    intros [= <- _]. unfold saturating_add. intros Hlt. destruct (max_of l) as [[-> ->]|[Hm Hin]].
    + split; [lia|]. intros j Hj. apply (oi_first _ _ _ HI j E) in Hj. apply Hl in Hj. by apply not_elem_of_nil in Hj.
    + apply Hl in Hin as Hin'. destruct Hin' as [c Hc]. apply (fs_kinds _ _ _ _ _ _ HF) in Hc as [Hu _].
      unfold is_u64, in_width in Hu. split; [lia|]. intros j Hj. apply (oi_first _ _ _ HI j E) in Hj. apply Hl in Hj. apply Hm in Hj. lia.
  - intros [= <- _]. unfold saturating_add. intros Hlt. pose proof (oi_pos _ _ _ HI).
    split; [lia|]. intros j Hj. apply (oi_max _ _ _ HI j E) in Hj. lia.
Qed.

Lemma known_same ep ep' j : same_maps ep ep' -> known ep' I j <-> known ep I j.
Proof. intros (E2 & E3 & _). unfold known, base_inode. by rewrite E2, E3. Qed.

Lemma known_touch ep ino i j : is_Some (base_inode ep I ino) -> known (pend_inode ep ino i) I j <-> known ep I j.
Proof.
  intros Hs. unfold known, base_inode in *. cbn. destruct (decide (ino = j)) as [->|Hne]; [|by rewrite lookup_insert_ne].
  rewrite lookup_insert_eq. split; [intros _; by left|intros _; left; by eexists].
Qed.

Lemma known_fresh ep ino i j : known (pend_inode ep ino i) I j -> known ep I j \/ j = ino.
Proof.
  unfold known, base_inode. cbn. destruct (decide (ino = j)) as [->|Hne]; [by right|]. rewrite lookup_insert_ne by done. tauto.
Qed.

Lemma known_drop ep ino j : is_Some (base_inode ep I ino) -> known (drop_inode ep ino) I j <-> known ep I j.
Proof.
  intros Hs. unfold known, base_inode in *. cbn. rewrite elem_of_union, elem_of_singleton. split; [intros [?|[->|?]]; tauto|tauto].
Qed.

Lemma kind_touch i c : touches i c -> kind_ok c -> kind_ok i.
Proof. intros [Hd Hi]. unfold kind_ok. rewrite Hi. unfold dir_data. by rewrite Hd. Qed.

Lemma create_keeps x now ep ep' parent name e ino records : serves x -> (forall k : nat, timespec_wf (now k)) ->
  is_u64 parent -> wf_bytes name -> entry_ok e -> 0 <= ep_seq ep < 2 ^ 64 - 1 -> overlay_inv ep I N ->
  epoch_create content_id limits now false x root ep parent name e = Ok (ino, ep', records) -> ino < 2 ^ 64 - 1 -> overlay_inv ep' I N.
Proof.
  intros HS Hnow Hu Hw He Hseq HI H Hlt. pose proof HS as [HF Hp]. pose proof (oi_wf _ _ _ HI) as HW.
  unfold epoch_create, ensure_writable, name_guard in H. cbn [rbind] in H.
  destruct (validate_name name) eqn:Ev; cbn [negb rbind] in H; [|done]. apply validate_name_ok in Ev; [|done].
  unfold present_inode in H. rewrite (get_inode_epoch_ok limits sh x root n I N HF Hp Hn ep parent Hu) in H. cbn [rbind] in H.
  destruct (overlay_inode ep parent (I !! parent)) as [pi|] eqn:Epi; cbn [ok_or rbind] in H; [|done].
  destruct (dir_data pi) as [r|] eqn:Er; [|by rewrite (dir_root_of_not _ _ Er) in H]. rewrite (dir_root_of_ok _ _ _ Er) in H. cbn [rbind] in H.
  destruct (dir_lookup_epoch _ _ _ _ _ _) as [o|]; cbn [rbind] in H; [|done]. case_bool_decide; [done|].
  destruct (overlay_inode_facts x ep parent pi HS HW Epi) as (_ & Hpw & Hpk).
  destruct (epoch_alloc limits x root ep) as [[ino' ep0]|err] eqn:Ea; [|unfold epoch_create_apply in H; by rewrite Ea in H].
  assert (ino' = ino) as ->.
  { unfold epoch_create_apply in H. rewrite Ea in H. cbn [rbind] in H.
    do 2 (destruct (stage_inode _ _ _ _ _) as [[[? ?] ?]|]; cbn [rbind] in H; [|done]).
    destruct (log_op _ _ _) as [[? ?]|]; cbn [rbind] in H; [|done]. by injection H. }
  destruct (alloc_fresh x ep ino ep0 HS HI Ea Hlt) as [Hpos Hnew]. assert (Hino : is_u64 ino) by width.
  destruct (epoch_create_apply_ok content_id limits now Hid Hnow sh x root n I N HF Hp Hn Hsize ep parent pi name e ino ep0 Hu Ev He Hseq Hpw Ea Hino)
    as (ep2 & rec2 & env & E & Hf & Hiw & Hpw' & _). rewrite E in H. injection H as [= <- <-].
  set (inode := entry_inode _ _) in *. set (pin := if is_directory _ then _ else _) in *.
  destruct (entry_inode_wf (now 0%nat) e (Hnow 0%nat) He) as (_ & Hik & Hid'). fold inode in Hik, Hid'.
  assert (Htouch : touches pin pi) by (unfold pin; by destruct (is_directory _)).
  assert (Hno : ~ known ep I ino) by (intros Hk; apply Hnew in Hk; lia).
  assert (Hnp : ino <> parent). { intros ->. apply Hno. left. apply overlay_base in Epi as [-> _]. by eexists. }
  destruct Hf as (_ & F2 & F3 & F4 & F5 & F6 & F7 & F8).
  set (epa := pend_inode ep ino inode). set (epb := pend_inode epa parent pin).
  set (ep1 := pend_entry epb parent name {| de_ino := ino; de_d_type := entry_d_type (ne_kind e) |}).
  assert (Hsame : same_maps ep1 ep2) by (unfold same_maps; by rewrite F2, F3, F4, F5, F6, F7).
  assert (Ha : overlay_inode epa parent (I !! parent) = Some pi).
  { unfold overlay_inode in *. cbn. rewrite lookup_insert_ne by done. done. }
  assert (Wa : overlay_wf epa I N).
  { apply fresh_keeps; try done. intros z [Hz|Hz].
    - rewrite Hid' in Hz. destruct (is_directory _); congruence.
    - unfold inode, entry_inode in Hz. destruct (ne_kind e); try done; by injection Hz as <-. }
  assert (Wb : overlay_wf epb I N) by (apply (touch_keeps I N epa parent pin pi); try done; by apply (kind_touch pin pi)).
  assert (Hb : overlay_inode epb parent (I !! parent) = Some pin).
  { unfold overlay_inode in Ha |- *. cbn in Ha |- *. case_bool_decide; [done|]. by rewrite lookup_insert_eq. }
  assert (Hpd : is_Some (dir_data pin)) by (destruct Htouch as [Hd _]; unfold dir_data in *; rewrite Hd, Er; by eexists).
  split.
  - apply (overlay_wf_same I N ep1); [done|]. apply (entry_keeps I N epb parent name _ pin); try done. by apply DirEntry_new_ok.
  - rewrite F8. lia.
  - rewrite F8. lia.
  - intros j _ Hj. rewrite F8. apply (known_same ep1 ep2 j Hsame) in Hj. change (known epb I j) in Hj.
    apply known_touch in Hj; [|apply overlay_base in Ha as [-> _]; by eexists]. apply known_fresh in Hj as [Hj| ->]; [|lia]. apply Hnew in Hj. lia.
Qed.

(** A step that touches known inodes, drops known inodes and leaves the cache. *)
Lemma keeps_known ep ep' : overlay_inv ep I N -> overlay_wf ep' I N -> max_ino ep' = max_ino ep ->
  (forall j, known ep' I j -> known ep I j) -> overlay_inv ep' I N.
Proof.
  intros [_ Hpos Hf Hm] HW E Hk. split; [done|by rewrite E| |]; intros j; rewrite E; intros E0 Hj; [by apply Hf, Hk|by apply Hm, Hk].
Qed.

(** What becomes of the removed inode. *)
Lemma child_keeps ep ino is_dir_ target : overlay_wf ep I N -> overlay_inode ep ino (I !! ino) = Some target -> is_u64 ino ->
  inode_wf target -> kind_ok target -> is_dir_ = is_dir target ->
  (is_dir_ = true -> forall nm : bytes, overlay_name ep N ino nm = None) ->
  let ep' := match dropped is_dir_ target with None => drop_inode ep ino | Some t => pend_inode ep ino t end in
  overlay_wf ep' I N /\ forall j, known ep' I j <-> known ep I j.
Proof.
  intros HW Ht Hu Hw Hk Hd Hno ep'. assert (Hb : is_Some (base_inode ep I ino)) by (apply overlay_base in Ht as [-> _]; by eexists).
  assert (Hnone : forall nm : bytes, overlay_name ep N ino nm = None).
  { destruct is_dir_; [by apply Hno|]. intros nm. destruct (overlay_name ep N ino nm) as [d|] eqn:E; [|done].
    destruct (ov_owner _ _ _ HW _ _ _ E) as (i & Hi & Hid'). rewrite Hi in Ht. injection Ht as ->.
    unfold kind_ok in Hk. rewrite <-Hd in Hk. symmetry in Hk. by apply bool_decide_eq_false in Hk. }
  unfold ep'. destruct (dropped is_dir_ target) as [t|] eqn:E; split.
  - assert (touches t target) by (unfold dropped in E; destruct is_dir_; [done|]; case_match; [done|]; by injection E as <-).
    apply (touch_keeps I N ep ino t target); try done; [|by apply (kind_touch t target)].
    unfold dropped in E. destruct is_dir_; [done|]. case_match; [done|]. injection E as <-. by apply nlink_dec_wf.
  - intros j. by apply known_touch.
  - by apply drop_inode_keeps.
  - intros j. by apply known_drop.
Qed.

Lemma lookup_found x ep parent name (d : DirEntry) : serves x -> overlay_wf ep I N -> is_u64 parent ->
  dir_lookup_epoch limits x root ep parent name = Ok (Some d) -> overlay_name ep N parent name = Some d.
Proof.
  intros [HF Hp] HW Hu H.
  assert (Hready : dir_ready I parent -> overlay_name ep N parent name = Some d).
  { intros Hr. rewrite (dir_lookup_epoch_ok limits sh x root n I N HF Hp Hn ep parent name Hu Hr) in H. by injection H. }
  destruct (pending_entries ep !! (parent, name)) as [d'|] eqn:Ep.
  { apply Hready. assert (Hin : parent ∈ affected_dirs ep) by (apply affected_dirs_in; exists name; left; by exists d').
    destruct (ov_dir _ _ _ HW parent Hin) as (_ & i & Hi & Hd). by apply (base_ready ep I N HW parent i). }
  unfold dir_lookup_epoch, overlay_entry in H. case_bool_decide as Hrm; [done|]. rewrite Ep in H. unfold committed_dir_root in H.
  rewrite (get_inode_ok limits sh x root n I N HF Hp Hn parent Hu) in H. cbn [rbind] in H.
  apply Hready. intros i Hi. rewrite Hi in H. destruct (dir_data i) eqn:E; [by eexists|]. by rewrite (dir_root_of_not _ _ E) in H.
Qed.

Lemma unlink_keeps x now ep ep' parent name is_dir_ ino records : serves x -> (forall k : nat, timespec_wf (now k)) ->
  is_u64 parent -> wf_bytes name -> 0 <= ep_seq ep < 2 ^ 64 - 1 -> overlay_inv ep I N ->
  epoch_unlink content_id limits now false x root ep parent name is_dir_ = Ok (ino, ep', records) -> overlay_inv ep' I N.
Proof.
  intros HS Hnow Hu Hw Hseq HI H. pose proof HS as [HF Hp]. pose proof (oi_wf _ _ _ HI) as HW.
  unfold epoch_unlink, ensure_writable, name_guard in H. cbn [rbind] in H.
  destruct (validate_name name) eqn:Ev; cbn [negb rbind] in H; [|done]. apply validate_name_ok in Ev; [|done].
  destruct (dir_lookup_epoch _ _ _ _ _ _) as [o|] eqn:El; cbn [rbind] in H; [|done]. destruct o as [d|]; cbn [ok_or rbind] in H; [|done].
  apply (lookup_found x ep parent name d HS HW Hu) in El. pose proof (overlay_name_facts x ep parent name d HS HW El) as Hdu.
  unfold present_inode in H. rewrite (get_inode_epoch_ok limits sh x root n I N HF Hp Hn ep (de_ino d) Hdu) in H. cbn [rbind] in H.
  destruct (overlay_inode ep (de_ino d) (I !! de_ino d)) as [target|] eqn:Et; cbn [ok_or rbind] in H; [|done].
  destruct (overlay_inode_facts x ep (de_ino d) target HS HW Et) as (_ & Htw & Htk).
  destruct (epoch_unlink_guard _ _ _ _ _ _ _) as [[]|] eqn:Eg; cbn [rbind] in H; [|done].
  assert (Hd : is_dir_ = is_dir target /\ (is_dir_ = true -> forall nm : bytes, overlay_name ep N (de_ino d) nm = None)).
  { unfold epoch_unlink_guard in Eg. destruct is_dir_, (is_dir target) eqn:Ed; cbn [negb] in Eg; try done. split; [done|]. intros _.
    assert (Hr : dir_ready I (de_ino d)).
    { apply (overlay_ready x ep _ target HS HW Et). unfold kind_ok in Htk. rewrite Ed in Htk. by symmetry in Htk; apply bool_decide_eq_true in Htk. }
    destruct (read_dir_epoch_empty limits sh x root n I N HF Hp Hn Hsize ep (de_ino d) Hdu Hr) as (l & E & Hl). rewrite E in Eg.
    cbn [rbind] in Eg. case_bool_decide; [by apply Hl|done]. }
  destruct Hd as [Hd Hempty].
  rewrite (get_inode_epoch_ok limits sh x root n I N HF Hp Hn ep parent Hu) in H. cbn [rbind] in H.
  destruct (overlay_inode ep parent (I !! parent)) as [pi|] eqn:Epi; cbn [ok_or rbind] in H; [|done].
  destruct (overlay_inode_facts x ep parent pi HS HW Epi) as (_ & Hpw & Hpk).
  set (pin := if is_dir target then _ else _) in *.
  assert (Hpin : touches pin pi /\ inode_wf pin).
  { unfold pin. destruct (is_dir target); (split; [done|]); try apply nlink_dec_wf; by apply with_mtime_wf. }
  destruct Hpin as [Htouch Hpinw]. pose proof (kind_touch pin pi Htouch Hpk) as Hpink.
  destruct (epoch_unlink_apply_ok content_id limits now Hid Hnow sh x root n I N HF Hp Hn Hsize ep parent pin name is_dir_ (de_ino d) target Hu Ev Hdu Hseq Hpinw Htw)
    as (ep2 & rec2 & env & E & (_ & F4 & F5 & F6 & F7 & F8 & F2) & _). rewrite E in H. injection H as [= <- <-].
  destruct (ov_owner _ _ _ HW _ _ _ El) as (pi' & Hpi' & Hpd). rewrite Hpi' in Epi. injection Epi as ->.
  assert (Hne : de_ino d <> parent).
  { intros Heq. rewrite Heq in Et, Hempty. rewrite Hpi' in Et. injection Et as ->. unfold kind_ok in Hpk.
    rewrite bool_decide_eq_true_2 in Hpk by done. by rewrite Hempty in El by congruence. }
  destruct (child_keeps ep (de_ino d) is_dir_ target HW Et Hdu Htw Htk Hd Hempty) as [Wa Ka].
  set (epa := match dropped is_dir_ target with None => drop_inode ep (de_ino d) | Some t => pend_inode ep (de_ino d) t end) in *.
  assert (Ha : overlay_inode epa parent (I !! parent) = Some pi).
  { unfold epa. destruct (dropped is_dir_ target); unfold overlay_inode in *; cbn; [by rewrite lookup_insert_ne|].
    rewrite (bool_decide_ext _ (parent ∈ removed_inodes ep)); [done|]. rewrite elem_of_union, elem_of_singleton. naive_solver. }
  assert (Wb : overlay_wf (pend_inode epa parent pin) I N) by (by apply (touch_keeps I N epa parent pin pi)).
  set (ep1 := drop_entry (pend_inode epa parent pin) parent name).
  assert (Hsame : same_maps ep1 ep2).
  { unfold same_maps, ep1, epa. rewrite F4, F5, F6, F7. destruct (dropped is_dir_ target); destruct F2 as [-> ->]; by split_and!. }
  apply (keeps_known ep ep2 HI); [|done|].
  - apply (overlay_wf_same I N ep1); [done|]. apply (drop_entry_keeps I N _ parent name pin); try done.
    + unfold base_inode. cbn. by rewrite lookup_insert_eq.
    + destruct Htouch as [Hdt _]. unfold dir_data in *. by rewrite Hdt.
  - intros j Hj. apply (known_same ep1 ep2 j Hsame) in Hj. change (known (pend_inode epa parent pin) I j) in Hj.
    apply known_touch in Hj; [by apply Ka|]. apply overlay_base in Ha as [-> _]. by eexists.
Qed.

Lemma setattr_keeps x now ep ep' ino update i records : serves x -> (forall k : nat, timespec_wf (now k)) -> is_u64 ino -> update_ok update ->
  overlay_inv ep I N -> epoch_setattr content_id limits now false x root ep ino update = Ok (i, ep', records) -> overlay_inv ep' I N.
Proof.
  intros HS Hnow Hu Hup HI H. pose proof HS as [HF Hp]. pose proof (oi_wf _ _ _ HI) as HW.
  unfold epoch_setattr, ensure_writable, present_inode in H. cbn [rbind] in H.
  rewrite (get_inode_epoch_ok limits sh x root n I N HF Hp Hn ep ino Hu) in H. cbn [rbind] in H.
  destruct (overlay_inode ep ino (I !! ino)) as [c|] eqn:Ec; cbn [ok_or rbind] in H; [|done].
  destruct (overlay_inode_facts x ep ino c HS HW Ec) as (_ & Hcw & Hck).
  destruct (update_meta_wf c update (now 0%nat) Hcw Hup (Hnow 0%nat)) as [Hiw Ht]. set (c' := update_meta _ _ _) in *.
  destruct (stage_inode_ok content_id limits now Hid Hnow sh x root n I N HF Hp Hn Hsize ep [] c' (iw_data _ Hiw)) as (ep1 & more & E & (_ & S2 & S3 & S4 & S5 & S6 & S7 & S8) & _).
  rewrite E in H. cbn [rbind] in H. unfold log_op, Epoch_envelope in H.
  destruct (of_trap_codec _) as [[b s]|]; cbn [rbind] in H; [|done]. injection H as <- <- _.
  assert (Hsame : same_maps (pend_inode ep ino c') (pend_inode (set_seq ep1 s) ino c')) by (unfold same_maps; cbn; by rewrite S2, S3, S4, S5, S6, S7).
  apply (keeps_known ep _ HI).
  - apply (overlay_wf_same I N _ _ Hsame). apply (touch_keeps I N ep ino c' c); try done. by apply (kind_touch c' c).
  - done.
  - intros j Hj. apply (known_same _ _ j Hsame) in Hj. apply known_touch in Hj; [done|]. apply overlay_base in Ec as [-> _]. by eexists.
Qed.

(** An epoch with nothing pending: after an open, and after a checkpoint that
    no operation has overlapped, which keeps the allocation cache. *)
Definition fresh_epoch ep : Prop :=
  pending_inodes ep = ∅ /\ removed_inodes ep = ∅ /\ pending_entries ep = ∅ /\ removed_entries ep = ∅ /\
  pending_extents ep = ∅ /\ pending_chunks ep = ∅ /\ 0 <= max_ino ep /\
  (max_ino ep <> 0 -> forall ino, is_Some (I !! ino) -> ino <= max_ino ep).

Lemma fresh_inv x ep : serves x -> fresh_epoch ep -> overlay_inv ep I N.
Proof.
  intros [HF _] (E2 & E3 & E4 & E5 & E6 & E7 & E8 & E9).
  assert (Hempty : overlay_wf Epoch_default I N).
  { split; cbn; try (intros *; by rewrite lookup_empty).
    - intros d Hd. apply affected_dirs_in in Hd as (nm & [(e & Hd)|Hd]); cbn in Hd; [by rewrite lookup_empty in Hd|by apply not_elem_of_empty in Hd].
    - intros f Hd. unfold affected_files in Hd. cbn in Hd. apply elem_of_list_to_set in Hd. by apply elem_of_nil in Hd.
    - intros ino Hd. by apply not_elem_of_empty in Hd.
    - intros d nm e. unfold overlay_name, overlay_inode. cbn. intros HN. apply (fs_owner _ _ _ _ _ _ HF) in HN as (i & -> & Hi). by exists i. }
  assert (Hk : forall j, known ep I j -> is_Some (I !! j)).
  { intros j. unfold known, base_inode. rewrite E2, E3, lookup_empty. intros [?|Hd]; [done|by apply not_elem_of_empty in Hd]. }
  split; [|done| |].
  - apply (overlay_wf_same I N Epoch_default); [|done]. unfold same_maps. by rewrite E2, E3, E4, E5, E6, E7.
  - intros j _. apply Hk.
  - intros j Hm Hj. by apply E9, Hk.
Qed.

Lemma step_keeps ep ep' : epoch_step ep ep' -> overlay_inv ep I N -> overlay_inv ep' I N.
Proof.
  intros [x now parent name e ino records HS Hnow Hu Hw He Hseq H Hlt|x now parent name is_dir_ ino records HS Hnow Hu Hw Hseq H
    |x now ino update i records HS Hnow Hu Hup H] HI.
  - by apply (create_keeps x now ep ep' parent name e ino records).
  - by apply (unlink_keeps x now ep ep' parent name is_dir_ ino records).
  - by apply (setattr_keeps x now ep ep' ino update i records).
Qed.

(** C18. Every epoch that creates, removals and attribute updates reach from one with nothing
    pending has an overlay as a checkpoint needs it: every changed directory
    has an inode, pending or committed, that is one; names are only in
    directories that the view has; pending inodes encode, and keep the kind of
    the committed inode they replace; a new directory or file starts from the
    empty tree; and the next number the epoch hands out is one that no inode
    has or had. *)
Theorem epoch_reachable_wf x ep0 ep : serves x -> fresh_epoch ep0 -> rtc epoch_step ep0 ep ->
  overlay_wf ep I N /\
  forall x' ino ep', serves x' -> epoch_alloc limits x' root ep = Ok (ino, ep') -> ino < 2 ^ 64 - 1 -> forall j, known ep I j -> j < ino.
Proof.
  intros HS Hf Hr. assert (HI : overlay_inv ep I N).
  { pose proof (fresh_inv x ep0 HS Hf) as H0. clear HS Hf. induction Hr as [|ep1 ep2 ep3 Hs _ IH]; [done|]. apply IH. by apply (step_keeps ep1). }
  split; [by apply oi_wf|]. intros x' ino ep' HS' Ea Hlt. by apply (alloc_fresh x' ep ino ep' HS' HI Ea Hlt).
Qed.
End Steps.

Lemma default_fresh (I : gmap Z Inode) : fresh_epoch I Epoch_default.
Proof. split_and!; try reflexivity. intros Hne. by destruct Hne. Qed.

(** The sample file system: a file made in a fresh epoch. *)
Lemma epoch_reachable_wf_witness : exists ep : Epoch, is_Some (pending_entries ep !! (1, [98])) /\ CheckpointSpec.overlay_wf ep fs_inodes_ fs_names.
Proof.
  assert (HS : serves Limits_default full_shape fs_root 0 fs_inodes_ fs_names fs_store) by (split; [exact fs_committed|done]).
  destruct (epoch_create mix_hash Limits_default clock false fs_store fs_root Epoch_default 1 [98] entry_c) as [[[ino ep'] records]|e] eqn:E;
    [|by vm_compute in E].
  assert (Hi : ino < 2 ^ 64 - 1) by (vm_compute in E; by injection E as <- _ _).
  exists ep'. split; [by vm_compute in E; injection E as _ <- _|].
  apply (epoch_reachable_wf mix_hash Limits_default mix_hash_wf full_shape fs_root 0 fs_inodes_ fs_names ltac:(lia) fs_names_view
    eq_refl fs_store Epoch_default ep' HS (default_fresh _)).
  apply rtc_once. refine (step_create _ _ _ _ _ _ _ _ _ fs_store clock 1 [98] entry_c ino records HS clock_wf _ _ _ _ E Hi).
  - width.
  - by repeat constructor.
  - repeat split; done.
  - cbn. lia.
Defined.
