(* ===== verification/Durability.v ===== *)
(** Component [store/durability.rs] and the group gate of [store/mod.rs]: the
    coordinator that lets concurrent [fsync]s share one physical barrier.

    The coordinator's own operations ([register], [max_required], [covers])
    and the body of the gate's loop ([gate_check]) are functions of the state
    under the group mutex.  The gate as threads run it is a transition system:
    a [Gate] is the program point of one caller, and a [step] is one access to
    shared state, that is one load or store of an atomic, one critical section
    of the group mutex, one wait or wake-up of the condition variable, or one
    event of the physical barrier.  Two values exist for the statements only:
    [w_acked], the mutations acknowledged so far as the pair of the epoch's
    sequence number and the published root's generation, and [w_stable], the
    part of them a completed physical barrier made power-durable. *)
From stdpp Require Import relations.
From S2P Require Import Prelude Codec Repr Version SegRecord Superblock Descriptor Context BTree StoreError.

(** A point of the two monotonic coordinates [(seq, gen)]. *)
Abbreviation Cut := (Z * Z)%type.

Record DurabilityWaiter : Type := { required_seq : Z; required_gen : Z; joined_gen : Z }.
#[global] Instance DurabilityWaiter_eq_dec : EqDecision DurabilityWaiter.
Proof. solve_decision. Defined.

(** [owner_error] keeps the error whose text the code keeps. *)
Record DurabilityGroup : Type := {
  waiters : list DurabilityWaiter;
  owner_cut : option Cut;
  owner_error : option (Z * StoreError);
  next_gen : Z;
}.

(** [#[derive(Default)]] *)
Definition DurabilityGroup_default : DurabilityGroup :=
  {| waiters := []; owner_cut := None; owner_error := None; next_gen := 0 |}.

Definition register (g : DurabilityGroup) (required_seq required_gen : Z) : DurabilityWaiter * DurabilityGroup :=
  let joined_gen := next_gen g in
  let w := {| required_seq := required_seq; required_gen := required_gen; joined_gen := joined_gen |} in
  (w, {| waiters := waiters g ++ [w]; owner_cut := owner_cut g; owner_error := owner_error g; next_gen := next_gen g |}).

Definition max_required (g : DurabilityGroup) : Cut :=
  fold_left (fun '(s, m) w => (Z.max s (required_seq w), Z.max m (required_gen w))) (waiters g) (0, 0).

Definition covers (durable_seq durable_gen required_seq required_gen : Z) : bool :=
  (required_seq <=? durable_seq) && (required_gen <=? durable_gen).

(** What a caller gets: the error of the barrier it ran itself, or
    [StoreError::Io] of the text of the error its generation failed with. *)
Inductive GateError : Type :=
| OwnBarrier (e : StoreError)
| GenerationIo (e : StoreError).

(** What the loop of [durability_gate] does next. *)
Inductive Turn : Type :=
| Return (r : result GateError unit)
| BecomeOwner (cut : Cut) (generation : Z)
| Park.

(** One turn of the loop, under the group mutex. *)
Definition gate_check (durable : Cut) (g : DurabilityGroup) (waiter : DurabilityWaiter) : Turn * DurabilityGroup :=
  if covers (fst durable) (snd durable) (required_seq waiter) (required_gen waiter) then (Return (Ok tt), g)
  else match owner_cut g with
  | None =>
      let cut := max_required g in
      let generation := next_gen g in
      (BecomeOwner cut generation,
       {| waiters := waiters g; owner_cut := Some cut; owner_error := None; next_gen := saturating_add 64 (next_gen g) 1 |})
  | Some _ =>
      match owner_error g with
      | Some (failed_gen, err) =>
          if failed_gen =? joined_gen waiter then (Return (Err (GenerationIo err)), g) else (Park, g)
      | None => (Park, g)
      end
  end.

(** From taking the mutex to the end of the first turn of the loop. *)
Definition gate_enter (durable : Cut) (g : DurabilityGroup) (req : Cut)
    : Turn * DurabilityWaiter * DurabilityGroup :=
  if covers (fst durable) (snd durable) (fst req) (snd req) then
    (Return (Ok tt), {| required_seq := fst req; required_gen := snd req; joined_gen := next_gen g |}, g)
  else
    let '(w, g) := register g (fst req) (snd req) in
    let '(d, g) := gate_check durable g w in (d, w, g).

(** The owner's last writes to the group, before it wakes everyone. *)
Definition gate_publish (g : DurabilityGroup) (generation : Z) (r : result StoreError unit) : DurabilityGroup :=
  {| waiters := waiters g; owner_cut := None;
     owner_error := match r with Ok _ => None | Err e => Some (generation, e) end;
     next_gen := next_gen g |}.

(** * Threads *)

(** The program point of a caller of [durability_barrier].  [Publish] holds
    the group mutex; [synced] says that the physical barrier in flight has
    reached the point where the root it makes durable is fixed. *)
Inductive Stage : Type := StoreSeq | StoreGen | Finish.
Inductive Gate : Type :=
| Idle
| ReadGen (req_seq : Z)                       (* epoch().seq is read, the root's generation is not *)
| LoadSeq (req : Cut)                         (* fast path: before durable_seq.load *)
| LoadGen (req : Cut) (seq : Z)               (* fast path: before durable_gen.load *)
| LockGroup (req : Cut)                       (* before durability_group.lock *)
| Parked (w : DurabilityWaiter)               (* in durability_cv.wait *)
| Woken (w : DurabilityWaiter)                (* notified, before it has the mutex again *)
| Barrier (w : DurabilityWaiter) (cut : Cut) (generation : Z) (synced : bool)
| Publish (w : DurabilityWaiter) (cut : Cut) (generation : Z) (r : result StoreError unit) (st : Stage)
| Returned (req : Cut) (r : result GateError unit).

Record World : Type := {
  w_acked : Cut;
  w_stable : Cut;
  w_durable : Cut;                            (* the atomics durable_seq and durable_gen *)
  w_group : DurabilityGroup;
  w_threads : list Gate;
}.

Definition waiter_req (w : DurabilityWaiter) : Cut := (required_seq w, required_gen w).

(** Where a turn of the loop leaves the thread. *)
Definition after_turn (w : DurabilityWaiter) (d : Turn) : Gate :=
  match d with
  | Return r => Returned (waiter_req w) r
  | BecomeOwner cut generation => Barrier w cut generation false
  | Park => Parked w
  end.

Definition unpark (g : Gate) : Gate := match g with Parked w => Woken w | _ => g end.

(** The mutex of the group is held across steps only while an outcome is
    published. *)
Definition in_publish (g : Gate) : bool := match g with Publish _ _ _ _ _ => true | _ => false end.
Definition unlocked (w : World) : Prop := Forall (fun g => in_publish g = false) (w_threads w).

Definition set_thread (w : World) (i : nat) (g : Gate) : World :=
  {| w_acked := w_acked w; w_stable := w_stable w; w_durable := w_durable w; w_group := w_group w;
     w_threads := <[i := g]> (w_threads w) |}.
Definition set_group (w : World) (g : DurabilityGroup) : World :=
  {| w_acked := w_acked w; w_stable := w_stable w; w_durable := w_durable w; w_group := g; w_threads := w_threads w |}.
Definition set_durable (w : World) (d : Cut) : World :=
  {| w_acked := w_acked w; w_stable := w_stable w; w_durable := d; w_group := w_group w; w_threads := w_threads w |}.
Definition set_acked (w : World) (a : Cut) : World :=
  {| w_acked := a; w_stable := w_stable w; w_durable := w_durable w; w_group := w_group w; w_threads := w_threads w |}.
Definition set_stable (w : World) (s : Cut) : World :=
  {| w_acked := w_acked w; w_stable := s; w_durable := w_durable w; w_group := w_group w; w_threads := w_threads w |}.
Definition notify_all (w : World) : World :=
  {| w_acked := w_acked w; w_stable := w_stable w; w_durable := w_durable w; w_group := w_group w;
     w_threads := map unpark (w_threads w) |}.

Definition cut_le (a b : Cut) : Prop := fst a <= fst b /\ snd a <= snd b.

(** One access of thread [i] to shared state. *)
Inductive thread_step (w : World) (i : nat) : Gate -> World -> Prop :=
| S_call :                                    (* required_seq = self.epoch().seq *)
    thread_step w i Idle (set_thread w i (ReadGen (fst (w_acked w))))
| S_read_gen s :                              (* required_gen = root.generation *)
    thread_step w i (ReadGen s) (set_thread w i (LoadSeq (s, snd (w_acked w))))
| S_load_seq req :
    thread_step w i (LoadSeq req) (set_thread w i (LoadGen req (fst (w_durable w))))
| S_load_gen req s :
    thread_step w i (LoadGen req s)
      (set_thread w i (if covers s (snd (w_durable w)) (fst req) (snd req) then Returned req (Ok tt) else LockGroup req))
| S_enter req d wt g :
    unlocked w -> gate_enter (w_durable w) (w_group w) req = (d, wt, g) ->
    thread_step w i (LockGroup req) (set_group (set_thread w i (after_turn wt d)) g)
| S_turn wt d g :
    unlocked w -> gate_check (w_durable w) (w_group w) wt = (d, g) ->
    thread_step w i (Woken wt) (set_group (set_thread w i (after_turn wt d)) g)
| S_spurious wt : thread_step w i (Parked wt) (set_thread w i (Woken wt))
| S_sync wt cut gn :                          (* the barrier's root is durable *)
    thread_step w i (Barrier wt cut gn false) (set_stable (set_thread w i (Barrier wt cut gn true)) (w_acked w))
| S_barrier_ok wt cut gn :
    unlocked w -> thread_step w i (Barrier wt cut gn true) (set_thread w i (Publish wt cut gn (Ok tt) StoreSeq))
| S_barrier_err wt cut gn sy e :
    unlocked w -> thread_step w i (Barrier wt cut gn sy) (set_thread w i (Publish wt cut gn (Err e) Finish))
| S_store_seq wt cut gn r :
    thread_step w i (Publish wt cut gn r StoreSeq)
      (set_durable (set_thread w i (Publish wt cut gn r StoreGen)) (fst cut, snd (w_durable w)))
| S_store_gen wt cut gn r :
    thread_step w i (Publish wt cut gn r StoreGen)
      (set_durable (set_thread w i (Publish wt cut gn r Finish)) (fst (w_durable w), snd cut))
| S_finish wt cut gn r :
    thread_step w i (Publish wt cut gn r Finish)
      (notify_all (set_group (set_thread w i (Returned (waiter_req wt) (map_err OwnBarrier r)))
        (gate_publish (w_group w) gn r))).

(** Any thread moves, or a mutation is acknowledged. *)
Inductive step (w : World) : World -> Prop :=
| S_thread i g w' : w_threads w !! i = Some g -> thread_step w i g w' -> step w w'
| S_mutation a : cut_le (w_acked w) a -> step w (set_acked w a).

(** [n] callers at the opening of a store whose recovered root stands at [a]:
    both atomics start at zero, and what was recovered is on disk. *)
Definition init (n : nat) (a : Cut) : World :=
  {| w_acked := a; w_stable := a; w_durable := (0, 0); w_group := DurabilityGroup_default; w_threads := replicate n Idle |}.

Definition reachable (w : World) : Prop := exists n a, cut_le (0, 0) a /\ rtc step (init n a) w.
