(* ===== verification/DurabilitySpec.v ===== *)
(** What the group gate promises: an [fsync] that returns success is covered
    by a completed barrier, the durable point never moves back, no caller waits
    without a barrier in flight, and every caller can return. *)
From stdpp Require Import relations.
From S2P Require Import Prelude Codec Repr Version SegRecord Superblock Descriptor Context BTree StoreError Durability.

(** * Cuts *)

#[global] Instance cut_le_preorder : PreOrder cut_le.
Proof. split; [intros a; split; lia | intros a b c [] []; split; lia]. Qed.

Ltac cuts := cbn in *; unfold cut_le, waiter_req in *; cbn in *; lia.

Lemma max_required_snoc ws w g g' :
  waiters g' = ws ++ [w] -> waiters g = ws ->
  max_required g' = (Z.max (max_required g).1 (required_seq w), Z.max (max_required g).2 (required_gen w)).
Proof.
  intros E' E. unfold max_required. rewrite E', E, fold_left_app. cbn. by destruct (fold_left _ ws _).
Qed.

Definition with_waiters (ws : list DurabilityWaiter) : DurabilityGroup :=
  {| waiters := ws; owner_cut := None; owner_error := None; next_gen := 0 |}.
Lemma max_required_waiters g : max_required g = max_required (with_waiters (waiters g)).
Proof. done. Qed.

(** The cut is the least one that covers every waiter. *)
Lemma max_required_ge g w : w ∈ waiters g -> cut_le (waiter_req w) (max_required g).
Proof.
  rewrite max_required_waiters. induction (waiters g) as [|v ws IH] using rev_ind; [by intros ?%elem_of_nil|].
  intros [Hw|Hw]%elem_of_app; rewrite (max_required_snoc ws v (with_waiters ws)) by done.
  - specialize (IH Hw). cuts.
  - apply list_elem_of_singleton in Hw as ->. cuts.
Qed.
Lemma max_required_le g a :
  cut_le (0, 0) a -> (forall w, w ∈ waiters g -> cut_le (waiter_req w) a) -> cut_le (max_required g) a.
Proof.
  intros H0. rewrite max_required_waiters. induction (waiters g) as [|v ws IH] using rev_ind; [done|]. intros Hall.
  rewrite (max_required_snoc ws v (with_waiters ws)) by done.
  assert (H1 : cut_le (max_required (with_waiters ws)) a) by (apply IH; intros w Hw; apply Hall; set_solver).
  assert (H2 : cut_le (waiter_req v) a) by (apply Hall; set_solver). cuts.
Qed.

Lemma covers_true s g rs rg : covers s g rs rg = true -> cut_le (rs, rg) (s, g).
Proof. unfold covers. rewrite andb_true_iff, !Z.leb_le. cuts. Qed.

(** * Who owns the barrier *)

Definition owner_of (g : Gate) : option Cut :=
  match g with Barrier _ cut _ _ | Publish _ cut _ _ _ => Some cut | _ => None end.
Definition is_parked (g : Gate) : bool := match g with Parked _ => true | _ => false end.

Record Owned (w : World) : Prop := {
  own_cut i g cut : w_threads w !! i = Some g -> owner_of g = Some cut -> owner_cut (w_group w) = Some cut;
  own_one i j g g' : w_threads w !! i = Some g -> w_threads w !! j = Some g' ->
    is_Some (owner_of g) -> is_Some (owner_of g') -> i = j;
  own_some cut : owner_cut (w_group w) = Some cut -> exists i g, w_threads w !! i = Some g /\ owner_of g = Some cut;
  own_parked i g : w_threads w !! i = Some g -> is_parked g = true -> is_Some (owner_cut (w_group w));
  own_error : is_Some (owner_cut (w_group w)) -> owner_error (w_group w) = None;
}.

(** The three ways a step can change the ownership. *)
Inductive Kind (w : World) (i : nat) (g : Gate) (w' : World) : Prop :=
| K_same g' :
    w_threads w' = <[i := g']> (w_threads w) -> owner_of g' = owner_of g ->
    owner_cut (w_group w') = owner_cut (w_group w) -> owner_error (w_group w') = owner_error (w_group w) ->
    (is_parked g' = true -> is_Some (owner_cut (w_group w))) -> Kind w i g w'
| K_take g' cut :
    w_threads w' = <[i := g']> (w_threads w) -> owner_of g = None -> owner_of g' = Some cut -> is_parked g' = false ->
    owner_cut (w_group w) = None -> owner_cut (w_group w') = Some cut -> owner_error (w_group w') = None -> Kind w i g w'
| K_finish g' :
    w_threads w' = map unpark (<[i := g']> (w_threads w)) -> is_Some (owner_of g) -> owner_of g' = None ->
    is_parked g' = false -> owner_cut (w_group w') = None -> Kind w i g w'.

Lemma gate_check_cases d g wt t g' :
  gate_check d g wt = (t, g') ->
  (exists r, t = Return r /\ g' = g /\
    ((r = Ok tt /\ cut_le (waiter_req wt) d) \/
     (exists n e, is_Some (owner_cut g) /\ owner_error g = Some (n, e) /\ r = Err (GenerationIo e)))) \/
  (exists cut n, t = BecomeOwner cut n /\ owner_cut g = None /\ cut = max_required g /\
    waiters g' = waiters g /\ owner_cut g' = Some cut /\ owner_error g' = None) \/
  (t = Park /\ g' = g /\ is_Some (owner_cut g)).
Proof.
  unfold gate_check. destruct (covers _ _ _ _) eqn:Ec.
  { intros [= <- <-]. left. eexists. split_and!; [done..|]. left. split; [done|]. apply covers_true in Ec. cuts. }
  destruct (owner_cut g) as [c|] eqn:Ecut.
  - destruct (owner_error g) as [[n e]|] eqn:Ee; [destruct (n =? joined_gen wt)|]; intros [= <- <-].
    + left. eexists. split_and!; [done..|]. right. exists n, e. split_and!; [by eexists | done..].
    + right; right. split_and!; [done..|by eexists].
    + right; right. split_and!; [done..|by eexists].
  - intros [= <- <-]. right; left. eexists _, _. by split_and!.
Qed.

(** [gate_enter] either returns, or registers and takes a turn. *)
Lemma gate_enter_cases d g req t wt g' :
  gate_enter d g req = (t, wt, g') ->
  waiter_req wt = req /\
  ((t = Return (Ok tt) /\ g' = g /\ cut_le req d) \/
   gate_check d (snd (register g (fst req) (snd req))) wt = (t, g') /\
   waiters (snd (register g (fst req) (snd req))) = waiters g ++ [wt]).
Proof.
  destruct req as [rs rg]. unfold gate_enter. destruct (covers _ _ _ _) eqn:Ec.
  - intros [= <- <- <-]. split; [done|]. left. split_and!; [done..|]. apply covers_true in Ec. cuts.
  - cbn. destruct (gate_check _ _ _) as [t' g''] eqn:E. intros [= <- <- <-]. split; [done|]. by right.
Qed.

Lemma turn_kind w i g d wt gr gr' :
  owner_of g = None -> gate_check (w_durable w) gr wt = (d, gr') ->
  owner_cut gr = owner_cut (w_group w) -> owner_error gr = owner_error (w_group w) ->
  Kind w i g (set_group (set_thread w i (after_turn wt d)) gr').
Proof.
  intros Hg E Hc He. apply gate_check_cases in E as [(r & -> & -> & _)|[(cut & n & -> & Ho & -> & _ & Ec & Ee)|(-> & -> & Hs)]].
  - by eapply K_same.
  - eapply K_take; [done..| |done|done]. by rewrite <-Hc.
  - eapply K_same; [done..|]. intros _. by rewrite <-Hc.
Qed.

Lemma step_kind w i g w' : thread_step w i g w' -> Kind w i g w'.
Proof.
  destruct 1; try (by eapply K_same; [done..|]).
  - eapply K_same; [done| by destruct (covers _ _ _ _) | done.. | by destruct (covers _ _ _ _)].
  - apply gate_enter_cases in H0 as [Hr [(-> & -> & _)|[E _]]]; [by eapply K_same|].
    by eapply turn_kind.
  - by eapply turn_kind.
  - by eapply K_finish.
Qed.

Lemma owner_unpark g : owner_of (unpark g) = owner_of g.
Proof. by destruct g. Qed.
Lemma parked_unpark g : is_parked (unpark g) = false.
Proof. by destruct g. Qed.

(** A thread of the world after thread [i] moved to [g']. *)
Lemma lookup_moved (ths : list Gate) i g g' j h :
  ths !! i = Some g -> <[i := g']> ths !! j = Some h -> (j = i /\ h = g') \/ (j <> i /\ ths !! j = Some h).
Proof. intros Hi [(-> & <- & _)|[? ?]]%list_lookup_insert_Some; [by left | by right]. Qed.
Lemma lookup_mover (ths : list Gate) i g g' : ths !! i = Some g -> <[i := g']> ths !! i = Some g'.
Proof. intros Hi. apply list_lookup_insert_eq. by apply lookup_lt_Some in Hi. Qed.

Lemma Owned_step w i g w' : Owned w -> w_threads w !! i = Some g -> Kind w i g w' -> Owned w'.
Proof.
  intros [Hcut Hone Hsome Hpark Herr] Hi [g' Hth Ho Hc He Hp|g' cut Hth Hg Hg' Hp Hc Hc' He|g' Hth Hg Hg' Hp Hc].
  - split; rewrite ?Hth, ?Hc, ?He; try done.
    + intros j h c [[-> ->]|[_ Hj]]%(lookup_moved _ _ _ _ _ _ Hi); [rewrite Ho|]; eauto.
    + intros j k h h' [[-> ->]|[? Hj]]%(lookup_moved _ _ _ _ _ _ Hi) [[-> ->]|[? Hk]]%(lookup_moved _ _ _ _ _ _ Hi);
        rewrite ?Ho; eauto.
    + intros c (j & h & Hj & Hh)%Hsome. destruct (decide (j = i)) as [->|Hne].
      * exists i, g'. split; [by eapply lookup_mover|]. rewrite Ho. congruence.
      * exists j, h. by rewrite list_lookup_insert_ne.
    + intros j h [[-> ->]|[_ Hj]]%(lookup_moved _ _ _ _ _ _ Hi); eauto.
  - assert (Hno : forall j h, w_threads w !! j = Some h -> owner_of h = None).
    { intros j h Hj. destruct (owner_of h) as [c|] eqn:E; [|done]. by rewrite (Hcut _ _ _ Hj E) in Hc. }
    split; rewrite ?Hth, ?Hc'; try done.
    + intros j h c [[-> ->]|[_ Hj]]%(lookup_moved _ _ _ _ _ _ Hi) E; [congruence|]. by rewrite (Hno _ _ Hj) in E.
    + intros j k h h' [[-> ->]|[? Hj]]%(lookup_moved _ _ _ _ _ _ Hi) [[-> ->]|[? Hk]]%(lookup_moved _ _ _ _ _ _ Hi) [? E] [? E'];
        [done | by rewrite (Hno _ _ Hk) in E' | by rewrite (Hno _ _ Hj) in E | by rewrite (Hno _ _ Hj) in E].
    + intros c [= <-]. exists i, g'. split; [by eapply lookup_mover|done].
  - assert (Hno : forall j h, <[i := g']> (w_threads w) !! j = Some h -> owner_of h = None).
    { intros j h [[-> ->]|[Hne Hj]]%(lookup_moved _ _ _ _ _ _ Hi); [done|].
      destruct (owner_of h) as [c|] eqn:E; [|done]. destruct Hne.
      apply (Hone j i h g Hj Hi); [by rewrite E|done]. }
    assert (Hno' : forall j h, w_threads w' !! j = Some h -> owner_of h = None /\ is_parked h = false).
    { intros j h. rewrite Hth. intros (h' & -> & Hj)%list_lookup_fmap_Some. rewrite owner_unpark, parked_unpark. eauto. }
    split; rewrite ?Hc; try done.
    + intros j h c Hj E. by rewrite (proj1 (Hno' _ _ Hj)) in E.
    + intros j k h h' Hj _ [? E]. by rewrite (proj1 (Hno' _ _ Hj)) in E.
    + intros j h Hj E. by rewrite (proj2 (Hno' _ _ Hj)) in E.
Qed.

(** * What every program point knows *)

Definition knows (w : World) (g : Gate) : Prop :=
  match g with
  | Idle => True
  | ReadGen s => s <= fst (w_acked w)
  | LoadSeq req | LockGroup req => cut_le req (w_acked w)
  | LoadGen req s => cut_le req (w_acked w) /\ s <= fst (w_durable w)
  | Parked wt | Woken wt => wt ∈ waiters (w_group w)
  | Barrier wt cut _ synced => wt ∈ waiters (w_group w) /\ cut_le (waiter_req wt) cut /\ (synced = true -> cut_le cut (w_stable w))
  | Publish wt cut _ r st =>
      wt ∈ waiters (w_group w) /\ cut_le (waiter_req wt) cut /\ (is_ok r = true -> cut_le cut (w_stable w)) /\
      (st <> Finish -> is_ok r = true)
  | Returned req (Ok _) => cut_le req (w_stable w)
  | Returned req (Err e) => exists e', e = OwnBarrier e'
  end.

Record Sound (w : World) : Prop := {
  snd_owned : Owned w;
  snd_zero : cut_le (0, 0) (w_durable w);
  snd_durable : cut_le (w_durable w) (w_stable w);
  snd_stable : cut_le (w_stable w) (w_acked w);
  snd_required : cut_le (w_durable w) (max_required (w_group w));
  snd_waiters wt : wt ∈ waiters (w_group w) -> cut_le (waiter_req wt) (w_acked w);
  snd_cut cut : owner_cut (w_group w) = Some cut ->
    cut_le (w_durable w) cut /\ cut_le cut (w_acked w) /\ cut_le cut (max_required (w_group w));
  snd_threads i g : w_threads w !! i = Some g -> knows w g;
}.

(** The values of a world only grow. *)
Record grows (w w' : World) : Prop := {
  gr_acked : cut_le (w_acked w) (w_acked w');
  gr_stable : cut_le (w_stable w) (w_stable w');
  gr_durable : cut_le (w_durable w) (w_durable w');
  gr_waiters : exists ws, waiters (w_group w') = waiters (w_group w) ++ ws;
}.

#[global] Instance grows_preorder : PreOrder grows.
Proof.
  split.
  - intros w. split; try done. exists []. by rewrite app_nil_r.
  - intros w1 w2 w3 [? ? ? [ws1 E1]] [? ? ? [ws2 E2]]. split; try by etransitivity.
    exists (ws1 ++ ws2). by rewrite E2, E1, app_assoc.
Qed.

Lemma knows_grows w w' g : grows w w' -> knows w g -> knows w' g.
Proof.
  intros [Ha Hs Hd [ws Hw]].
  assert (Hin : forall wt, wt ∈ waiters (w_group w) -> wt ∈ waiters (w_group w')) by (intros; rewrite Hw; set_solver).
  destruct g as [| | | | | | |wt cut gn sy|wt cut gn r st|req [|]]; cbn; auto; try cuts.
  - intros (? & ? & Hsy). split_and!; [by apply Hin|done|]. intros E. specialize (Hsy E). cuts.
  - intros (? & ? & Hok & Hst). split_and!; [by apply Hin|done| |done]. intros E. specialize (Hok E). cuts.
Qed.
Lemma knows_unpark w g : knows w g -> knows w (unpark g).
Proof. by destruct g. Qed.

(** The world after thread [i] moved to [g'] and at most one waiter came. *)
Lemma Sound_moved w w' i g g' :
  Sound w -> w_threads w !! i = Some g -> Kind w i g w' -> grows w w' ->
  (w_threads w' = <[i := g']> (w_threads w) \/ w_threads w' = map unpark (<[i := g']> (w_threads w))) ->
  knows w' g' -> cut_le (w_durable w') (w_stable w') -> cut_le (w_stable w') (w_acked w') ->
  (forall wt, wt ∈ waiters (w_group w') -> wt ∈ waiters (w_group w) \/ cut_le (waiter_req wt) (w_acked w')) ->
  (forall cut, owner_cut (w_group w') = Some cut ->
    cut_le (w_durable w') cut /\ cut_le cut (w_acked w') /\ cut_le cut (max_required (w_group w'))) ->
  cut_le (w_durable w') (max_required (w_group w')) -> Sound w'.
Proof.
  intros [] Hi HK Hg Hth Hk H1 H2 Hws Hcut Hreq. split; try done.
  - by eapply Owned_step.
  - destruct Hg. cuts.
  - intros wt Hwt. destruct (Hws wt Hwt) as [Hold|]; [|done]. destruct Hg. etransitivity; [by apply snd_waiters0|done].
  - assert (Hall : forall j h, <[i := g']> (w_threads w) !! j = Some h -> knows w' h).
    { intros j h [[-> ->]|[_ Hj]]%(lookup_moved _ _ _ _ _ _ Hi); [done|]. eapply knows_grows; eauto. }
    destruct Hth as [->| ->]; [done|]. intros j h (h' & -> & Hj)%list_lookup_fmap_Some. apply knows_unpark. eauto.
Qed.

(** Moves that touch nothing shared. *)
Lemma Sound_local w i g g' :
  Sound w -> w_threads w !! i = Some g -> Kind w i g (set_thread w i g') -> knows w g' -> Sound (set_thread w i g').
Proof.
  intros HS Hi HK Hk.
  assert (Hgr : grows w (set_thread w i g')) by (split; try done; exists []; by rewrite app_nil_r).
  eapply Sound_moved; try done; try apply HS; cbn; by left.
Qed.

Lemma max_required_mono g g' ws : waiters g' = waiters g ++ ws -> cut_le (0, 0) (max_required g) /\ cut_le (max_required g) (max_required g').
Proof.
  assert (H0 : forall l, cut_le (0, 0) (max_required (with_waiters l))).
  { induction l as [|v l IH] using rev_ind; [done|]. rewrite (max_required_snoc l v (with_waiters l)) by done. cuts. }
  intros E. split; [apply H0|]. apply max_required_le; [apply H0|]. intros v Hv. apply max_required_ge. rewrite E. set_solver.
Qed.

(** A turn of the loop, with the waiter in the group or just put there. *)
Lemma Sound_turn w i g gr wt d gr' :
  Sound w -> w_threads w !! i = Some g -> owner_of g = None ->
  (gr = w_group w \/ (gr = snd (register (w_group w) (required_seq wt) (required_gen wt)) /\
                     waiters gr = waiters (w_group w) ++ [wt] /\ cut_le (waiter_req wt) (w_acked w))) ->
  wt ∈ waiters gr -> gate_check (w_durable w) gr wt = (d, gr') ->
  Sound (set_group (set_thread w i (after_turn wt d)) gr').
Proof.
  intros HS Hi Hg Hgr Hin E.
  assert (Hsame : owner_cut gr = owner_cut (w_group w) /\ owner_error gr = owner_error (w_group w)) by (by destruct Hgr as [->|(-> & _)]).
  destruct Hsame as [Hc He].
  assert (Hws : exists ws, waiters gr = waiters (w_group w) ++ ws /\ forall v, v ∈ waiters gr -> cut_le (waiter_req v) (w_acked w)).
  { destruct Hgr as [->|(_ & -> & Hle)].
    - exists []. rewrite app_nil_r. split; [done|]. apply (snd_waiters _ HS).
    - exists [wt]. split; [done|]. intros v [Hv|Hv]%elem_of_app; [by apply (snd_waiters _ HS)|].
      by apply list_elem_of_singleton in Hv as ->. }
  destruct Hws as (ws & Hws & Hle). pose proof (max_required_mono _ _ _ Hws) as [H0 Hmax].
  pose proof (turn_kind w i g d wt gr gr' Hg E Hc He) as HK.
  assert (Hw' : waiters gr' = waiters gr).
  { apply gate_check_cases in E as [(? & _ & -> & _)|[(? & ? & _ & _ & _ & ? & _)|(_ & -> & _)]]; done. }
  assert (Hm' : max_required gr' = max_required gr) by (by rewrite max_required_waiters, Hw', <-max_required_waiters).
  pose proof (snd_required _ HS) as Hdm. pose proof (snd_durable _ HS). pose proof (snd_stable _ HS). pose proof (snd_zero _ HS).
  eapply Sound_moved; try done; cbn; rewrite ?Hm'.
  - split; cbn; try done. exists ws. by rewrite Hw'.
  - by left.
  - apply gate_check_cases in E as [(r & -> & -> & Hr)|[(cut & n & -> & Ho & -> & _ & Ec & _)|(-> & -> & Hs)]]; cbn.
    + destruct Hr as [[-> Hr]|(n & e & Hs & Ee & ->)]; [cuts|].
      rewrite Hc in Hs. apply (own_error _ (snd_owned _ HS)) in Hs. congruence.
    + rewrite Hw'. split_and!; [done| |done]. by apply max_required_ge.
    + done.
  - intros v Hv. right. apply Hle. by rewrite <-Hw'.
  - intros cut Hcut. apply gate_check_cases in E as [(r & -> & -> & Hr)|[(cut' & n & -> & Ho & -> & _ & Ec & _)|(-> & -> & Hs)]].
    + rewrite Hc in Hcut. destruct (snd_cut _ HS _ Hcut) as (? & ? & ?). split_and!; [done..|cuts].
    + rewrite Ec in Hcut. injection Hcut as <-. split_and!; [cuts| |done].
      apply max_required_le; [|done]. cuts.
    + rewrite Hc in Hcut. destruct (snd_cut _ HS _ Hcut) as (? & ? & ?). split_and!; [done..|cuts].
  - cuts.
Qed.

Lemma grows_group w w' :
  cut_le (w_acked w) (w_acked w') -> cut_le (w_stable w) (w_stable w') -> cut_le (w_durable w) (w_durable w') ->
  waiters (w_group w') = waiters (w_group w) -> grows w w'.
Proof. intros ? ? ? E. split; try done. exists []. by rewrite app_nil_r. Qed.

(** Moves of the owner: the group keeps its waiters, and what the others know
    stays true because the values only grow. *)
Lemma Sound_owner w w' i g g' cut :
  Sound w -> w_threads w !! i = Some g -> Kind w i g w' -> owner_of g = Some cut ->
  (w_threads w' = <[i := g']> (w_threads w) \/ w_threads w' = map unpark (<[i := g']> (w_threads w))) ->
  waiters (w_group w') = waiters (w_group w) ->
  (owner_cut (w_group w') = None \/ owner_cut (w_group w') = owner_cut (w_group w)) -> w_acked w' = w_acked w ->
  cut_le (w_stable w) (w_stable w') -> cut_le (w_stable w') (w_acked w) -> cut_le (w_durable w) (w_durable w') ->
  cut_le (w_durable w') (w_stable w') -> cut_le (w_durable w') cut ->
  knows w' g' -> Sound w'.
Proof.
  intros HS Hi HK Ho Hth Hws Hc Ha Hs Hsa Hd Hds Hdc Hk.
  pose proof (own_cut _ (snd_owned _ HS) _ _ _ Hi Ho) as Hcut. destruct (snd_cut _ HS _ Hcut) as (? & ? & Hm).
  assert (Hmax : max_required (w_group w') = max_required (w_group w))
    by (by rewrite max_required_waiters, Hws, <-max_required_waiters).
  eapply Sound_moved; try done; rewrite ?Ha, ?Hmax, ?Hws; try done.
  - by apply grows_group; rewrite ?Ha.
  - by left.
  - intros c Hc'. destruct Hc as [E|E]; rewrite E in Hc'; [done|]. assert (c = cut) as -> by congruence. done.
  - cuts.
Qed.

Lemma Sound_step w i g w' : Sound w -> w_threads w !! i = Some g -> thread_step w i g w' -> Sound w'.
Proof.
  intros HS Hi Hst. pose proof (step_kind _ _ _ _ Hst) as HK.
  pose proof (snd_threads _ HS _ _ Hi) as Hk. pose proof (snd_stable _ HS) as Hsa. pose proof (snd_durable _ HS) as Hds.
  assert (Hown : forall cut, owner_of g = Some cut ->
    cut_le (w_durable w) cut /\ cut_le cut (w_acked w)).
  { intros cut Ho. pose proof (own_cut _ (snd_owned _ HS) _ _ _ Hi Ho) as Hcut. by destruct (snd_cut _ HS _ Hcut) as (? & ? & _). }
  destruct Hst; cbn [knows] in Hk.
  - eapply Sound_local; [done..|]. cbn. lia.
  - eapply Sound_local; [done..|]. cuts.
  - eapply Sound_local; [done..|]. cuts.
  - eapply Sound_local; [done..|]. destruct Hk as [Hr Hs]. destruct (covers _ _ _ _) eqn:Ec; cbn; [|done].
    apply covers_true in Ec. cuts.
  - destruct (gate_enter_cases _ _ _ _ _ _ H0) as [Hr [(-> & -> & Hle)|[E Hin]]].
    + refine (Sound_local w i _ (Returned (waiter_req wt) (Ok tt)) HS Hi HK _). cbn. rewrite Hr. cuts.
    + destruct req as [rs rg]. cbn [fst snd] in *. injection Hr as <- <-.
      eapply (Sound_turn w i _ _ wt d g HS Hi eq_refl); [right; by split_and! | rewrite Hin; apply elem_of_app; right; apply list_elem_of_here | done].
  - eapply Sound_turn; [done|done|done|by left|done|done].
  - by eapply Sound_local.
  - destruct (Hown _ eq_refl). eapply Sound_owner; [done..|by left|done|by right|done| | | | | |]; cbn; try cuts.
    split_and!; [apply Hk..|done].
  - eapply Sound_owner; [done..|by left|done|by right|done| | | | | |]; cbn; try (by destruct (Hown _ eq_refl)); try cuts.
    destruct Hk as (? & ? & ?). by split_and!; auto.
  - destruct Hk as (? & ? & ?). eapply Sound_owner; [done..|by left|done|by right|done| | | | | |]; cbn; try (by destruct (Hown _ eq_refl)); cuts.
  - destruct (Hown _ eq_refl). destruct Hk as (? & ? & Hok & Hf). specialize (Hf ltac:(done)).
    eapply Sound_owner; [done..|by left|done|by right|done| | | | | |]; cbn; try cuts; [specialize (Hok Hf); cuts|].
    by split_and!.
  - destruct (Hown _ eq_refl). destruct Hk as (? & ? & Hok & Hf). specialize (Hf ltac:(done)).
    eapply Sound_owner; [done..|by left|done|by right|done| | | | | |]; cbn; try cuts; [specialize (Hok Hf); cuts|].
    by split_and!.
  - destruct (Hown _ eq_refl). destruct Hk as (? & ? & Hok & Hf).
    eapply Sound_owner; [done..|by right|done|by left|done| | | | | |]; cbn; try cuts.
    destruct r; cbn in *; [specialize (Hok eq_refl); cuts | by eexists].
Qed.

Lemma Sound_mutation w a : Sound w -> cut_le (w_acked w) a -> Sound (set_acked w a).
Proof.
  intros HS Ha. pose proof (snd_stable _ HS).
  assert (Hg : grows w (set_acked w a)) by by apply grows_group.
  split; try apply HS; cbn.
  - destruct (snd_owned _ HS). by split.
  - by etransitivity.
  - intros wt Hwt. etransitivity; [by apply (snd_waiters _ HS)|done].
  - intros cut Hc. destruct (snd_cut _ HS _ Hc) as (? & ? & ?). split_and!; [done|cuts|done].
  - intros i g Hi. eapply knows_grows; [done|]. by eapply (snd_threads _ HS).
Qed.

Lemma step_sound w w' : step w w' -> Sound w -> Sound w'.
Proof. intros [i g w1 Hi Hst|a Ha] HS; [by eapply Sound_step | by apply Sound_mutation]. Qed.

Lemma init_sound n a : cut_le (0, 0) a -> Sound (init n a).
Proof.
  intros Ha. assert (Hidle : forall i g, w_threads (init n a) !! i = Some g -> g = Idle).
  { intros i g [-> _]%lookup_replicate. done. }
  split; cbn; try done.
  - split; cbn; try done.
    + intros i g cut ->%Hidle. done.
    + intros i j g g' ->%Hidle ? [? ?]. done.
    + intros i g ->%Hidle. done.
  - by intros wt ?%elem_of_nil.
  - intros i g ->%Hidle. done.
Qed.

Lemma steps_sound w w' : rtc step w w' -> Sound w -> Sound w'.
Proof. induction 1; eauto using step_sound. Qed.
Lemma reachable_sound w : reachable w -> Sound w.
Proof. intros (n & a & Ha & Hs). eapply steps_sound; [done|]. by apply init_sound. Qed.

Lemma thread_step_grows w i g w' : Sound w -> w_threads w !! i = Some g -> thread_step w i g w' -> grows w w'.
Proof.
  intros HS Hi Hst. pose proof (snd_stable _ HS) as Hsa.
  assert (Hown : forall cut, owner_of g = Some cut -> cut_le (w_durable w) cut).
  { intros cut Ho. pose proof (own_cut _ (snd_owned _ HS) _ _ _ Hi Ho) as Hcut. by destruct (snd_cut _ HS _ Hcut). }
  assert (Hturn : forall gr wt d gr', gate_check (w_durable w) gr wt = (d, gr') -> waiters gr' = waiters gr).
  { intros gr wt d gr' E. by apply gate_check_cases in E as [(? & _ & -> & _)|[(? & ? & _ & _ & _ & ? & _)|(_ & -> & _)]]. }
  destruct Hst; try (by apply grows_group).
  - destruct (gate_enter_cases _ _ _ _ _ _ H0) as [_ [(_ & -> & _)|[E Hin]]]; [by apply grows_group|].
    split; cbn; try done. exists [wt]. by rewrite (Hturn _ _ _ _ E).
  - apply grows_group; try done. cbn. by eapply Hturn.
  - apply grows_group; try done. cbn. specialize (Hown _ eq_refl). cuts.
  - apply grows_group; try done. cbn. specialize (Hown _ eq_refl). cuts.
Qed.

Lemma steps_grow w w' : rtc step w w' -> Sound w -> grows w w'.
Proof.
  induction 1 as [|w w1 w2 Hst _ IH]; [done|]. intros HS. etransitivity; [|by apply IH; eapply step_sound].
  destruct Hst as [i g w1 Hi Hst|a Ha]; [by eapply thread_step_grows | by apply grows_group].
Qed.

(** The durable point never moves back, never runs ahead of what completed
    barriers made durable, and never past what some caller asked for.  This
    rests on the group keeping every waiter for ever: the list of waiters only
    grows, also past the return of their callers. *)
Theorem durable_point_monotone w w' :
  reachable w -> rtc step w w' ->
  cut_le (w_durable w) (w_durable w') /\ cut_le (w_durable w') (w_stable w') /\
  cut_le (w_durable w') (max_required (w_group w')) /\
  exists ws, waiters (w_group w') = waiters (w_group w) ++ ws.
Proof.
  intros HR Hs. apply reachable_sound in HR as HS. pose proof (steps_sound _ _ Hs HS) as HS'.
  destruct (steps_grow _ _ Hs HS). split_and!; [done|apply HS'|apply HS'|done].
Qed.

(** * Linearizability *)

(** What a call that began when [a] was acknowledged has read so far. *)
Definition since (a : Cut) (g : Gate) : Prop :=
  match g with
  | Idle => True
  | ReadGen s => fst a <= s
  | LoadSeq req | LoadGen req _ | LockGroup req | Returned req _ => cut_le a req
  | Parked wt | Woken wt | Barrier wt _ _ _ | Publish wt _ _ _ _ => cut_le a (waiter_req wt)
  end.

Lemma since_step a i w w' :
  step w w' -> cut_le a (w_acked w) -> (forall g, w_threads w !! i = Some g -> since a g) ->
  cut_le a (w_acked w') /\ (forall g, w_threads w' !! i = Some g -> since a g).
Proof.
  intros [j h w1 Hj Hst|b Hb] Ha Hi; [|split; [by etransitivity|done]].
  assert (Hmove : forall g', since a h -> since a g' -> forall g, <[j := g']> (w_threads w) !! i = Some g -> since a g).
  { intros g' _ Hg' g [[-> ->]|[_ Hg]]%(lookup_moved _ _ _ _ _ _ Hj); [done|by apply Hi]. }
  assert (Hunp : forall g, since a g -> since a (unpark g)) by by intros [].
  assert (Hother : forall g', (i = j -> since a h -> since a g') -> forall g, <[j := g']> (w_threads w) !! i = Some g -> since a g).
  { intros g' Hg' g [[-> ->]|[_ Hg]]%(lookup_moved _ _ _ _ _ _ Hj); [apply Hg'; [done|by apply Hi]|by apply Hi]. }
  assert (Hturn : forall wt d, since a (Woken wt) -> since a (after_turn wt d)) by by intros wt [].
  clear Hmove. destruct Hst; (split; [done|]); cbn [w_threads set_thread set_group set_durable set_stable notify_all];
    try (by apply Hother).
  - apply Hother. intros _ _. cuts.
  - apply Hother. intros _ ?. cuts.
  - apply Hother. intros _ ?. by destruct (covers _ _ _ _).
  - apply Hother. intros _ ?. apply Hturn. cbn. by apply gate_enter_cases in H0 as [-> _].
  - apply Hother. intros _. apply Hturn.
  - intros g (g' & -> & Hg)%list_lookup_fmap_Some. apply Hunp. by eapply Hother; [|exact Hg].
Qed.

(** C19. An [fsync] that returns success made durable all that was acknowledged
    before it was called: whatever the interleaving of callers, barriers that
    fail and mutations, if a call has not begun in one state and has returned
    success in a later one, completed barriers cover every mutation that was
    acknowledged in the first, both the epoch's and the direct ones. *)
Theorem fsync_linearizable w w' i req :
  reachable w -> w_threads w !! i = Some Idle -> rtc step w w' ->
  w_threads w' !! i = Some (Returned req (Ok tt)) -> cut_le (w_acked w) (w_stable w').
Proof.
  intros HR Hi Hs Hi'. apply reachable_sound in HR.
  assert (Hk : knows w' (Returned req (Ok tt))) by (eapply snd_threads; [by eapply steps_sound|done]).
  etransitivity; [|exact Hk]. set (a := w_acked w). change (since a (Returned req (Ok tt))).
  assert (Hinv : cut_le a (w_acked w) /\ forall g, w_threads w !! i = Some g -> since a g).
  { split; [done|]. intros g. rewrite Hi. by intros [= <-]. }
  clearbody a. clear HR Hi Hk. induction Hs as [|w w1 w2 Hst _ IH]; [by apply Hinv|]. apply IH; [done|].
  destruct Hinv. by eapply since_step.
Qed.

(** * Progress *)

Lemma owner_unlocked w : Sound w -> (forall i g, w_threads w !! i = Some g -> in_publish g = false) -> unlocked w.
Proof. intros HS H. apply Forall_lookup. eauto. Qed.
Lemma idle_no_owner w i g : Sound w -> owner_cut (w_group w) = None -> w_threads w !! i = Some g -> owner_of g = None.
Proof. intros HS Hc Hi. destruct (owner_of g) as [c|] eqn:E; [|done]. by rewrite (own_cut _ (snd_owned _ HS) _ _ _ Hi E) in Hc. Qed.
Lemma idle_unlocked w : Sound w -> owner_cut (w_group w) = None -> unlocked w.
Proof. intros HS Hc. apply owner_unlocked; [done|]. intros i g Hi. pose proof (idle_no_owner _ _ _ HS Hc Hi). by destruct g. Qed.
Lemma barrier_unlocked w i wt cut gn sy : Sound w -> w_threads w !! i = Some (Barrier wt cut gn sy) -> unlocked w.
Proof.
  intros HS Hi. apply owner_unlocked; [done|]. intros j g Hj. destruct (in_publish g) eqn:E; [|done].
  assert (j = i) as -> by (eapply (own_one _ (snd_owned _ HS) j i); eauto; by destruct g).
  by assert (g = Barrier wt cut gn sy) as -> by congruence.
Qed.

(** From [w], thread [i] can return [r] and leave no barrier in flight, waking
    the others and leaving them otherwise where they were. *)
Definition can_return (w : World) (i : nat) (req : Cut) (r : result GateError unit) : Prop :=
  exists w', rtc step w w' /\ owner_cut (w_group w') = None /\
    w_threads w' = map unpark (<[i := Returned req r]> (w_threads w)).

Lemma can_return_step w w1 i g g' req r :
  w_threads w !! i = Some g -> thread_step w i g w1 -> w_threads w1 = <[i := g']> (w_threads w) ->
  can_return w1 i req r -> can_return w i req r.
Proof.
  intros Hi Hst Hth (w' & Hs & Hc & Hw). exists w'. split; [by eapply rtc_l; [eapply S_thread|]|]. split; [done|].
  by rewrite Hw, Hth, list_insert_insert_eq.
Qed.

Lemma publish_returns w i wt cut gn r st :
  w_threads w !! i = Some (Publish wt cut gn r st) -> can_return w i (waiter_req wt) (map_err OwnBarrier r).
Proof.
  assert (Hfin : forall w0, w_threads w0 !! i = Some (Publish wt cut gn r Finish) ->
    can_return w0 i (waiter_req wt) (map_err OwnBarrier r)).
  { intros w0 Hi. eexists. split; [apply rtc_once; by eapply S_thread; [|apply S_finish]|]. by split. }
  assert (Hgen : forall w0, w_threads w0 !! i = Some (Publish wt cut gn r StoreGen) ->
    can_return w0 i (waiter_req wt) (map_err OwnBarrier r)).
  { intros w0 Hi. eapply can_return_step; [done|apply S_store_gen|done|]. apply Hfin. by eapply lookup_mover. }
  destruct st; [|apply Hgen|apply Hfin]. intros Hi.
  eapply can_return_step; [done|apply S_store_seq|done|]. apply Hgen. by eapply lookup_mover.
Qed.

Lemma barrier_returns w i wt cut gn sy :
  Sound w -> w_threads w !! i = Some (Barrier wt cut gn sy) -> can_return w i (waiter_req wt) (Ok tt).
Proof.
  assert (Hsy : forall w0, Sound w0 -> w_threads w0 !! i = Some (Barrier wt cut gn true) -> can_return w0 i (waiter_req wt) (Ok tt)).
  { intros w0 HS Hi. eapply can_return_step; [done|apply S_barrier_ok; by eapply barrier_unlocked|done|].
    apply (publish_returns _ i wt cut gn (Ok tt) StoreSeq). by eapply lookup_mover. }
  intros HS Hi. destruct sy; [by apply Hsy|]. eapply can_return_step; [done|apply S_sync|done|].
  apply Hsy; [|by eapply lookup_mover]. by eapply Sound_step; [|exact Hi|apply S_sync].
Qed.

Definition quiet (w : World) : Prop :=
  owner_cut (w_group w) = None /\ forall i g, w_threads w !! i = Some g -> is_parked g = false.

Lemma unpark_quiet ths : (forall (i : nat) g, ths !! i = Some g -> is_parked g = false) -> map unpark ths = ths.
Proof.
  intros H. induction ths as [|g ths IH]; [done|]. cbn. rewrite IH by (intros i; apply (H (S i))).
  f_equal. specialize (H 0%nat g eq_refl). by destruct g.
Qed.

(** When no barrier is in flight a turn of the loop returns success, or makes
    its caller the owner of the next one, whatever an earlier generation's
    error says. *)
Lemma idle_turn d g wt :
  owner_cut g = None -> cut_le (waiter_req wt) d /\ gate_check d g wt = (Return (Ok tt), g) \/
  exists g', gate_check d g wt = (BecomeOwner (max_required g) (next_gen g), g').
Proof.
  intros Hc. unfold gate_check. destruct (covers _ _ _ _) eqn:Ec.
  - left. split; [|done]. apply covers_true in Ec. cuts.
  - right. rewrite Hc. by eexists.
Qed.

Lemma turn_returns w w0 i g wt d gr' :
  Sound w0 -> quiet w -> w_threads w !! i = Some g -> thread_step w i g w0 ->
  w0 = set_group (set_thread w i (after_turn wt d)) gr' ->
  (d = Return (Ok tt) /\ owner_cut gr' = None \/ exists cut n, d = BecomeOwner cut n) ->
  can_return w i (waiter_req wt) (Ok tt).
Proof.
  intros HS [Hc Hp] Hi Hst -> [[-> Hc']|(cut & n & ->)].
  - eexists. split; [by eapply rtc_once, S_thread|]. split; [done|]. cbn. symmetry. apply unpark_quiet.
    intros j h [[-> ->]|[_ Hj]]%(lookup_moved _ _ _ _ _ _ Hi); [done|by eapply Hp].
  - eapply can_return_step; [done|exact Hst|done|]. eapply barrier_returns; [done|by eapply lookup_mover].
Qed.

Definition pending (g : Gate) : bool := match g with Idle | Returned _ _ => false | _ => true end.

Definition returns (w : World) (i : nat) : Prop := exists req, can_return w i req (Ok tt).

Lemma returns_step w i g g' :
  w_threads w !! i = Some g -> thread_step w i g (set_thread w i g') -> returns (set_thread w i g') i -> returns w i.
Proof. intros Hi Hst [req Hr]. exists req. by eapply can_return_step. Qed.
Lemma quiet_set w i g g' : quiet w -> w_threads w !! i = Some g -> is_parked g' = false -> quiet (set_thread w i g').
Proof. intros [Hc Hp] Hi Hg'. split; [done|]. intros j k [[-> ->]|[_ Hj]]%(lookup_moved _ _ _ _ _ _ Hi); [done|by eapply Hp]. Qed.

Lemma lock_returns w i req : Sound w -> quiet w -> w_threads w !! i = Some (LockGroup req) -> returns w i.
Proof.
  intros HS HQ Hi. pose proof (idle_unlocked _ HS (proj1 HQ)) as Hu.
  destruct (gate_enter (w_durable w) (w_group w) req) as [[d wt] gr'] eqn:E.
  pose proof (S_enter w i req d wt gr' Hu E) as Hst. exists (waiter_req wt).
  eapply turn_returns; [by eapply Sound_step|done|done|done|done|].
  destruct (gate_enter_cases _ _ _ _ _ _ E) as [_ [(-> & -> & _)|[Et _]]]; [left; split; [done|apply HQ]|].
  destruct (idle_turn (w_durable w) (snd (register (w_group w) req.1 req.2)) wt (proj1 HQ)) as [[_ E']|[g' E']]; rewrite E' in Et;
    injection Et as <- <-; [left; by split; [|apply HQ] | right; by eexists _, _].
Qed.

Lemma fast_path_returns w i req s : Sound w -> quiet w -> w_threads w !! i = Some (LoadGen req s) -> returns w i.
Proof.
  intros HS HQ Hi. pose proof (S_load_gen w i req s) as Hst. pose proof (Sound_step _ _ _ _ HS Hi Hst) as HS1.
  destruct (covers _ _ _ _).
  - exists req. eexists. split; [by eapply rtc_once, S_thread|]. split; [apply HQ|]. symmetry. apply unpark_quiet.
    by eapply quiet_set.
  - eapply returns_step; [done..|]. eapply lock_returns; [done|by eapply quiet_set|by eapply lookup_mover].
Qed.
Lemma load_returns w i req : Sound w -> quiet w -> w_threads w !! i = Some (LoadSeq req) -> returns w i.
Proof.
  intros HS HQ Hi. pose proof (S_load_seq w i req) as Hst. eapply returns_step; [done..|].
  eapply fast_path_returns; [by eapply Sound_step|by eapply quiet_set|by eapply lookup_mover].
Qed.

Lemma solo_returns w i g :
  Sound w -> quiet w -> w_threads w !! i = Some g -> pending g = true -> returns w i.
Proof.
  intros HS HQ Hi Hp. pose proof HQ as [Hc Hpk]. pose proof (idle_unlocked _ HS Hc) as Hu.
  destruct g as [|s|req|req s|req|wt|wt|wt cut gn sy|wt cut gn r st|req r]; try done;
    eauto using load_returns, fast_path_returns, lock_returns.
  - pose proof (S_read_gen w i s) as Hst. eapply returns_step; [done..|].
    eapply load_returns; [by eapply Sound_step|by eapply quiet_set|by eapply lookup_mover].
  - by specialize (Hpk _ _ Hi).
  - destruct (gate_check (w_durable w) (w_group w) wt) as [d gr'] eqn:E. pose proof (S_turn w i wt d gr' Hu E) as Hst.
    exists (waiter_req wt). eapply turn_returns; [by eapply Sound_step|done|done|done|done|].
    destruct (idle_turn (w_durable w) (w_group w) wt Hc) as [[_ E']|[g' E']]; rewrite E' in E; injection E as <- <-;
      [by left|right; by eexists _, _].
  - eexists. by eapply barrier_returns.
  - by pose proof (idle_no_owner _ _ _ HS Hc Hi).
Qed.

(** Where a caller ends when every barrier still to run succeeds. *)
Definition settled (g g' : Gate) : Prop :=
  match g with
  | Idle | Returned _ _ => g' = g
  | Publish wt _ _ r _ => g' = Returned (waiter_req wt) (map_err OwnBarrier r)
  | _ => exists req, g' = Returned req (Ok tt)
  end.
Lemma settled_trans g g1 g2 : settled g g1 -> settled g1 g2 -> settled g g2.
Proof. by destruct g; cbn; first [intros [? ->] | intros ->]; cbn; intros ->; eauto. Qed.
Definition all_settled (n : nat) (ths ths' : list Gate) : Prop :=
  length ths' = length ths /\
  forall i g, ths !! i = Some g -> exists g', ths' !! i = Some g' /\ if (i <? n)%nat then settled g g' else g' = g.

Lemma settle_quiet w n : Sound w -> quiet w ->
  exists w', rtc step w w' /\ Sound w' /\ quiet w' /\ all_settled n (w_threads w) (w_threads w').
Proof.
  intros HS HQ. induction n as [|n (w1 & Hs1 & HS1 & HQ1 & Hlen & Hall)].
  { exists w. split_and!; [done..|]. split; [done|]. intros i g Hi. by exists g. }
  destruct (w_threads w !! n) as [g|] eqn:Hn.
  - destruct (Hall n g Hn) as (g' & Hg' & E). rewrite Nat.ltb_irrefl in E. subst g'. destruct (pending g) eqn:Hp.
    + destruct (solo_returns _ _ _ HS1 HQ1 Hg' Hp) as (req & w' & Hs' & Hc & Hth).
      rewrite unpark_quiet in Hth by by eapply quiet_set.
      assert (HQ' : quiet w') by (split; [done|]; rewrite Hth; by eapply quiet_set).
      exists w'. split_and!; [by etransitivity|by eapply steps_sound|done|]. split; [by rewrite Hth, length_insert|].
      intros i h Hi. rewrite Hth. destruct (decide (i = n)) as [->|Hne].
      * eexists. split; [by eapply lookup_mover|]. rewrite (proj2 (Nat.ltb_lt n (S n))) by lia.
        assert (h = g) as -> by congruence. destruct g; try done; try by exists req.
        by pose proof (idle_no_owner _ _ _ HS1 (proj1 HQ1) Hg').
      * rewrite list_lookup_insert_ne by done. destruct (Hall i h Hi) as (h' & Hh' & Hif). exists h'. split; [done|].
        destruct (Nat.ltb_spec i (S n)), (Nat.ltb_spec i n); try done; lia.
    + exists w1. split_and!; [done..|]. split; [done|]. intros i h Hi. destruct (Hall i h Hi) as (h' & Hh' & Hif).
      exists h'. split; [done|]. destruct (Nat.ltb_spec i (S n)), (Nat.ltb_spec i n); try done; try lia.
      subst h'. assert (i = n) as -> by lia. assert (h = g) as -> by congruence. by destruct g.
  - exists w1. split_and!; [done..|]. split; [done|]. intros i h Hi. destruct (Hall i h Hi) as (h' & Hh' & Hif).
    exists h'. split; [done|]. apply lookup_ge_None in Hn. pose proof (lookup_lt_Some _ _ _ Hi).
    destruct (Nat.ltb_spec i (S n)), (Nat.ltb_spec i n); try done; lia.
Qed.

(** The barrier in flight, if there is one, can end. *)
Lemma drain w : Sound w -> exists w', rtc step w w' /\ quiet w' /\ length (w_threads w') = length (w_threads w) /\
  forall i g, w_threads w !! i = Some g -> exists g', w_threads w' !! i = Some g' /\ (settled g g' \/ g' = unpark g /\ owner_of g = None).
Proof.
  intros HS. destruct (owner_cut (w_group w)) as [cut|] eqn:Hc.
  - destruct (own_some _ (snd_owned _ HS) _ Hc) as (i & g & Hi & Hg).
    assert (Hret : exists req r, can_return w i req r /\ settled g (Returned req r)).
    { destruct g as [| | | | | | |wt cut' gn sy|wt cut' gn r st|]; try done.
      - exists (waiter_req wt), (Ok tt). split; [by eapply barrier_returns|by eexists].
      - exists (waiter_req wt), (map_err OwnBarrier r). split; [by eapply publish_returns|done]. }
    destruct Hret as (req & r & (w' & Hs & Hc' & Hth) & Hset). exists w'. split; [done|]. split; [|split].
    + split; [done|]. intros j h. rewrite Hth. intros (h' & -> & _)%list_lookup_fmap_Some. by destruct h'.
    + by rewrite Hth, length_map, length_insert.
    + intros j h Hj. rewrite Hth, list_lookup_fmap. destruct (decide (j = i)) as [->|Hne].
      * erewrite lookup_mover by done. eexists. split; [done|]. left. by assert (h = g) as -> by congruence.
      * rewrite list_lookup_insert_ne, Hj by done. eexists. split; [done|]. right. split; [done|].
        destruct (owner_of h) as [c|] eqn:E; [|done]. destruct Hne.
        apply (own_one _ (snd_owned _ HS) j i h g Hj Hi); by eexists.
  - exists w. split; [done|]. split; [|split; [done|]].
    + split; [done|]. intros i g Hi. destruct (is_parked g) eqn:E; [|done].
      apply (own_parked _ (snd_owned _ HS) _ _ Hi) in E. rewrite Hc in E. by destruct E.
    + intros i g Hi. exists g. split; [done|]. right. split; [|by eapply idle_no_owner].
      destruct g; try done. destruct (own_parked _ (snd_owned _ HS) _ _ Hi eq_refl) as [c E]. by rewrite Hc in E.
Qed.

(** From any state the gate can reach, whatever barriers failed before, there
    is a run in which every caller that has not returned does return success,
    except the owner that is already publishing a failed barrier, which
    returns that error. *)
Lemma fsync_can_succeed w :
  reachable w ->
  exists w', rtc step w w' /\ length (w_threads w') = length (w_threads w) /\
    forall i g, w_threads w !! i = Some g -> exists g', w_threads w' !! i = Some g' /\ settled g g'.
Proof.
  intros HS%reachable_sound. destruct (drain w HS) as (w1 & Hs1 & HQ1 & Hl1 & Hall1).
  assert (HS1 : Sound w1) by by eapply steps_sound.
  destruct (settle_quiet w1 (length (w_threads w1)) HS1 HQ1) as (w' & Hs' & _ & _ & Hl & Hall).
  exists w'. split; [by etransitivity|]. split; [by rewrite Hl|]. intros i g Hi.
  destruct (Hall1 i g Hi) as (g1 & Hg1 & Hset). destruct (Hall i g1 Hg1) as (g' & Hg' & Hif).
  rewrite (proj2 (Nat.ltb_lt _ _)) in Hif by by eapply lookup_lt_Some. exists g'. split; [done|].
  destruct Hset as [Hset|[-> Ho]]; [|by destruct g].
  by eapply settled_trans.
Qed.

(** ** Every schedule *)

(** A thread that has something to do: it is inside a call and does not wait. *)
Definition runnable (g : Gate) : bool := match g with Idle | Parked _ | Returned _ _ => false | _ => true end.

(** One access of a runnable thread, with any mutations acknowledged since the
    last one.  New calls and spurious wake-ups are not among these steps. *)
Definition work (w w' : World) : Prop :=
  exists a i g, cut_le (w_acked w) a /\ w_threads w !! i = Some g /\ runnable g = true /\ thread_step (set_acked w a) i g w'.

Lemma work_sound w w' : work w w' -> Sound w -> Sound w'.
Proof.
  intros (a & i & g & Ha & Hi & _ & Hst) HS. eapply Sound_step; [by apply Sound_mutation|exact Hi|exact Hst].
Qed.

(** How many accesses a thread is away from parking or returning. *)
Definition rank (g : Gate) : nat :=
  match g with
  | ReadGen _ => 12 | LoadSeq _ => 11 | LoadGen _ _ => 10 | LockGroup _ => 9 | Woken _ => 8
  | Barrier _ _ _ false => 7 | Barrier _ _ _ true => 6
  | Publish _ _ _ _ StoreSeq => 5 | Publish _ _ _ _ StoreGen => 4 | Publish _ _ _ _ Finish => 3
  | Parked _ => 1 | Idle | Returned _ _ => 0
  end.
(** Every return of an owner can wake all of the [n] threads once more. *)
Definition weight (n : nat) (g : Gate) : nat := if pending g then rank g + 7 * n + 1 else 0.
Definition measure (n : nat) (ths : list Gate) : nat := sum_list (map (weight n) ths).

Lemma measure_insert n ths i g g' : ths !! i = Some g -> (measure n (<[i := g']> ths) + weight n g = measure n ths + weight n g')%nat.
Proof.
  unfold measure. revert i. induction ths as [|h ths IH]; intros [|i] Hi; try done; cbn in *; [injection Hi as ->; lia|].
  rewrite <-!Nat.add_assoc. f_equal. exact (IH i Hi).
Qed.
Lemma measure_unpark n ths : (measure n (map unpark ths) <= measure n ths + 7 * length ths)%nat.
Proof.
  unfold measure. induction ths as [|h ths IH]; [done|]. cbn [map sum_list length]. assert (weight n (unpark h) <= weight n h + 7)%nat; [|cbn; lia].
  destruct h; unfold weight; cbn; lia.
Qed.
Lemma measure_bound n ths : (measure n ths <= length ths * (7 * n + 13))%nat.
Proof.
  unfold measure. induction ths as [|h ths IH]; [done|]. cbn [map sum_list length]. assert (weight n h <= 7 * n + 13)%nat; [|cbn; lia].
  destruct h as [| | | | | | |? ? ? []|? ? ? ? []|]; unfold weight; cbn; lia.
Qed.

(** A turn of the loop ends in a program point of less rank. *)
Lemma turn_rank w d : (rank (after_turn w d) <= 7)%nat.
Proof. by destruct d; cbn; lia. Qed.

Lemma work_measure w w' : work w w' ->
  length (w_threads w') = length (w_threads w) /\
  (measure (length (w_threads w)) (w_threads w') < measure (length (w_threads w)) (w_threads w))%nat.
Proof.
  intros (a & i & g & Ha & Hi & Hg & Hst). set (n := length (w_threads w)) in *.
  assert (Hmove : forall g', (rank g' < rank g)%nat -> (measure n (<[i := g']> (w_threads w)) < measure n (w_threads w))%nat).
  { intros g' Hr. pose proof (measure_insert n _ i g g' Hi). assert (weight n g' < weight n g)%nat; [|lia].
    unfold weight. destruct (pending g) eqn:Ep; [destruct (pending g'); lia|by destruct g]. }
  assert (Hrest : forall g', (rank g' < rank g)%nat -> length (<[i := g']> (w_threads w)) = n /\
    (measure n (<[i := g']> (w_threads w)) < measure n (w_threads w))%nat) by (intros g' Hr; split; [apply length_insert|by apply Hmove]).
  destruct Hst; try done; cbn [w_threads set_thread set_group set_durable set_stable set_acked]; try (apply Hrest; cbn; lia).
  - apply Hrest. destruct (covers _ _ _ _); cbn; lia.
  - apply Hrest. pose proof (turn_rank wt d). cbn. lia.
  - apply Hrest. pose proof (turn_rank wt d). cbn. lia.
  - apply Hrest. destruct sy; cbn; lia.
  - cbn [notify_all w_threads set_thread set_group set_acked]. split; [by rewrite length_map, length_insert|].
    pose proof (measure_unpark n (<[i := Returned (waiter_req wt) (map_err OwnBarrier r)]> (w_threads w))) as Hu.
    pose proof (measure_insert n _ i _ (Returned (waiter_req wt) (map_err OwnBarrier r)) Hi) as Hm. rewrite length_insert in Hu. fold n in Hu.
    unfold weight in Hm. cbn in Hm. lia.
Qed.

Lemma works_measure k w w' : nsteps work k w w' ->
  length (w_threads w') = length (w_threads w) /\
  (measure (length (w_threads w)) (w_threads w') + k <= measure (length (w_threads w)) (w_threads w))%nat.
Proof.
  induction 1 as [w|k w w1 w2 Hw _ [IHl IH]]; [split; [done|lia]|]. apply work_measure in Hw as [Hl Hm]. rewrite Hl in *. split; [done|lia].
Qed.

(** A thread inside a call stays inside it until it returns. *)
Definition called (g : Gate) : bool := match g with Idle => false | _ => true end.
Lemma work_called w w' i g : work w w' -> w_threads w !! i = Some g -> called g = true ->
  exists g', w_threads w' !! i = Some g' /\ called g' = true.
Proof.
  intros (a & j & h & _ & Hj & _ & Hst) Hi Hc.
  assert (Hmove : forall h', called h' = true -> exists g', <[j := h']> (w_threads w) !! i = Some g' /\ called g' = true).
  { intros h' Hh. destruct (decide (i = j)) as [->|Hne]; [exists h'; split; [by eapply lookup_mover|done]|].
    exists g. by rewrite list_lookup_insert_ne. }
  destruct Hst; cbn [w_threads set_thread set_group set_durable set_stable set_acked]; try by apply Hmove.
  - apply Hmove. by destruct (covers _ _ _ _).
  - apply Hmove. by destruct d.
  - apply Hmove. by destruct d.
  - cbn [notify_all w_threads set_thread set_group set_acked]. destruct (Hmove (Returned (waiter_req wt) (map_err OwnBarrier r)) eq_refl) as (g' & Hg' & Hc').
    exists (unpark g'). rewrite list_lookup_fmap, Hg'. split; [done|by destruct g'].
Qed.

(** A state in which no thread has work left has no caller waiting. *)
Lemma stuck_returned w : Sound w -> (forall w', ~ work w w') -> forall i g, w_threads w !! i = Some g -> called g = true -> exists req r, g = Returned req r.
Proof.
  intros HS Hstuck.
  assert (Hno : forall i g w', w_threads w !! i = Some g -> runnable g = true -> thread_step (set_acked w (w_acked w)) i g w' -> False).
  { intros i g w' Hi Hg Hst. apply (Hstuck w'). exists (w_acked w), i, g. by split_and!. }
  assert (Hpub : forall i wt cut gn r st, w_threads w !! i = Some (Publish wt cut gn r st) -> False).
  { intros i wt cut gn r [] Hi; (eapply Hno; [exact Hi|done|constructor]). }
  assert (Hun : unlocked (set_acked w (w_acked w))).
  { apply Forall_lookup. intros i g Hi. destruct g; try done. exfalso. by eapply Hpub. }
  assert (Hbar : forall i g, w_threads w !! i = Some g -> owner_of g = None).
  { intros i g Hi. destruct g as [| | | | | | |wt cut gn []|wt cut gn r st|]; try done; exfalso.
    - eapply Hno; [exact Hi|done|by apply S_barrier_ok].
    - eapply Hno; [exact Hi|done|apply S_sync].
    - by eapply Hpub. }
  intros i g Hi Hc. destruct g as [|s|req|req s|req|wt|wt|wt cut gn sy|wt cut gn r st|req r]; try done; try by apply Hbar in Hi.
  - exfalso. eapply Hno; [exact Hi|done|constructor].
  - exfalso. eapply Hno; [exact Hi|done|constructor].
  - exfalso. eapply Hno; [exact Hi|done|constructor].
  - exfalso. destruct (gate_enter (w_durable w) (w_group w) req) as [[d wt] g] eqn:E. eapply Hno; [exact Hi|done|by eapply S_enter].
  - exfalso. destruct (own_parked _ (snd_owned _ HS) _ _ Hi eq_refl) as [cut E].
    destruct (own_some _ (snd_owned _ HS) _ E) as (j & h & Hj & Hh). by rewrite (Hbar _ _ Hj) in Hh.
  - exfalso. destruct (gate_check (w_durable w) (w_group w) wt) as [d g] eqn:E. eapply Hno; [exact Hi|done|by eapply S_turn].
  - by exists req, r.
Qed.

(** C20. Every [fsync] returns, under every schedule.  From any state the gate
    can reach, the threads inside a call make at most [n * (7 * n + 13)]
    accesses before no thread can go on, whichever thread moves next, whatever
    barriers fail and whatever is acknowledged meanwhile, with no new call and
    no spurious wake-up to help; and then every one of them has returned:
    nobody waits for a wake-up that does not come. *)
Theorem every_fsync_returns w :
  reachable w ->
  let n := length (w_threads w) in
  (forall k w', nsteps work k w w' -> (k <= n * (7 * n + 13))%nat) /\
  (forall w', rtc work w w' -> (forall w'', ~ work w' w'') ->
    forall i g, w_threads w !! i = Some g -> called g = true -> exists req r, w_threads w' !! i = Some (Returned req r)).
Proof.
  intros HS%reachable_sound n. split.
  - intros k w' Hk. apply works_measure in Hk as [_ Hk]. pose proof (measure_bound n (w_threads w)). fold n in Hk, H. lia.
  - intros w' Hs Hstuck. induction Hs as [w|w w1 w' Hw _ IH]; intros i g Hi Hc.
    + destruct (stuck_returned w HS Hstuck i g Hi Hc) as (req & r & ->). by exists req, r.
    + destruct (work_called w w1 i g Hw Hi Hc) as (g1 & Hi1 & Hc1). eapply IH; [by eapply work_sound|done|exact Hi1|done].
Qed.

(** No generation's failure reaches anyone but its owner.  A call that
    returns an error returns the error of the barrier it ran itself: the branch
    that hands a failed generation's error to the callers it covered is never
    taken.  Such a caller is woken, and its next turn finds no barrier in
    flight: it makes the caller the owner of a new one, or returns success if
    the durable point covers it. *)
Theorem failure_reaches_owner_only w :
  reachable w ->
  (forall i req e, w_threads w !! i = Some (Returned req (Err e)) -> exists e', e = OwnBarrier e') /\
  (forall wt gn e d, let g := gate_publish (w_group w) gn (Err e) in
    cut_le (waiter_req wt) d /\ gate_check d g wt = (Return (Ok tt), g) \/
    exists g', gate_check d g wt = (BecomeOwner (max_required (w_group w)) (next_gen (w_group w)), g')).
Proof.
  intros HS%reachable_sound. split.
  - intros i req e Hi. by apply (snd_threads _ HS) in Hi.
  - intros wt gn e d g. by apply (idle_turn d g wt).
Qed.

(** * Examples *)

(** One step of thread [i] of a concrete world. *)
Ltac run i c :=
  eapply rtc_l;
  [eapply (S_thread _ i); [reflexivity | first [eapply c; [by repeat constructor | reflexivity] | eapply c; by repeat constructor | eapply c]]
  |]; cbv.

(** Two callers, and two mutations acknowledged after the opening. *)
Definition two_callers : World := set_acked (init 2 (5, 7)) (6, 8).
Lemma two_callers_reachable : reachable two_callers.
Proof. exists 2%nat, (5, 7). split; [by split|]. apply rtc_once, S_mutation. by split. Qed.

(** The first owns a barrier, the second waits for it. *)
Definition waiting (n : Z) (j : Z) : DurabilityWaiter := {| required_seq := 6; required_gen := n; joined_gen := j |}.
Definition owner_and_waiter : World := {|
  w_acked := (6, 8); w_stable := (5, 7); w_durable := (0, 0);
  w_group := {| waiters := [waiting 8 0; waiting 8 1]; owner_cut := Some (6, 8); owner_error := None; next_gen := 1 |};
  w_threads := [Barrier (waiting 8 0) (6, 8) 0 false; Parked (waiting 8 1)] |}.
Lemma owner_and_waiter_run : rtc step two_callers owner_and_waiter.
Proof.
  run 0%nat S_call. run 0%nat S_read_gen. run 0%nat S_load_seq. run 0%nat S_load_gen. run 0%nat S_enter.
  run 1%nat S_call. run 1%nat S_read_gen. run 1%nat S_load_seq. run 1%nat S_load_gen. run 1%nat S_enter. apply rtc_refl.
Qed.
Lemma owner_and_waiter_reachable : reachable owner_and_waiter.
Proof.
  destruct two_callers_reachable as (n & a & Ha & Hs). exists n, a. split; [done|].
  etransitivity; [exact Hs|exact owner_and_waiter_run].
Qed.

(** The owner's barrier succeeds and covers both. *)
Definition both_covered : World := {|
  w_acked := (6, 8); w_stable := (6, 8); w_durable := (6, 8);
  w_group := {| waiters := [waiting 8 0; waiting 8 1]; owner_cut := None; owner_error := None; next_gen := 1 |};
  w_threads := [Returned (6, 8) (Ok tt); Returned (6, 8) (Ok tt)] |}.
Lemma both_covered_run : rtc step owner_and_waiter both_covered.
Proof.
  unfold owner_and_waiter. run 0%nat S_sync. run 0%nat S_barrier_ok. run 0%nat S_store_seq. run 0%nat S_store_gen.
  run 0%nat S_finish. run 1%nat S_turn. apply rtc_refl.
Qed.

Lemma fsync_linearizable_witness : cut_le (6, 8) (w_stable both_covered).
Proof.
  apply (fsync_linearizable two_callers both_covered 1 (6, 8) two_callers_reachable); [reflexivity| |reflexivity].
  etransitivity; [exact owner_and_waiter_run|exact both_covered_run].
Defined.

Lemma durable_point_monotone_witness :
  cut_le (w_durable owner_and_waiter) (w_durable both_covered) /\
  exists ws, waiters (w_group both_covered) = waiters (w_group owner_and_waiter) ++ ws.
Proof.
  destruct (durable_point_monotone owner_and_waiter both_covered owner_and_waiter_reachable both_covered_run) as (H & _ & _ & Hw).
  split; [exact H|exact Hw].
Defined.

(** One access of thread [i], as a step of work. *)
Ltac works i c :=
  eapply rtc_l;
  [eexists (6, 8), i, _; split; [by split|]; split; [reflexivity|]; split; [reflexivity|];
   first [eapply c; [by repeat constructor | reflexivity] | eapply c; by repeat constructor | eapply c]
  |]; cbv.

Lemma both_covered_stuck w' : ~ work both_covered w'.
Proof. intros (a & [|[|i]] & g & _ & Hi & Hg & _); cbn in Hi; try done; by injection Hi as <-. Qed.

(** The owner's accesses and the woken waiter's turn. *)
Lemma every_fsync_returns_witness :
  rtc work owner_and_waiter both_covered /\ exists req r, w_threads both_covered !! 1%nat = Some (Returned req r).
Proof.
  assert (Hrun : rtc work owner_and_waiter both_covered).
  { unfold owner_and_waiter. works 0%nat S_sync. works 0%nat S_barrier_ok. works 0%nat S_store_seq. works 0%nat S_store_gen.
    works 0%nat S_finish. works 1%nat S_turn. apply rtc_refl. }
  split; [exact Hrun|].
  destruct (every_fsync_returns owner_and_waiter owner_and_waiter_reachable) as [_ H].
  exact (H both_covered Hrun both_covered_stuck 1%nat _ eq_refl eq_refl).
Defined.

(** The owner's barrier fails: the error is kept for generation 0, which the
    second caller's turn does not look at. *)
Lemma failure_reaches_owner_only_witness :
  exists g', gate_check (0, 0) (gate_publish (w_group owner_and_waiter) 0 (Err StoreReadOnly)) (waiting 8 0) = (BecomeOwner (6, 8) 1, g').
Proof.
  destruct (failure_reaches_owner_only owner_and_waiter owner_and_waiter_reachable) as [_ H].
  destruct (H (waiting 8 0) 0 StoreReadOnly (0, 0)) as [[[Hle _] _]|[g' E]]; [exfalso; cbn in Hle; lia|].
  exists g'. exact E.
Defined.
