(* ===== verification/ReplaySpec.v ===== *)
(** Which acknowledged mutations a recovery replays: the envelopes that a
    sequence of epoch operations leaves in the log, against the selection of
    the recovery. *)
From stdpp Require Import gmap sorting.
From Stdlib Require String.
From S2P Require Import Prelude Codec Repr Version SegRecord Inode Superblock Descriptor Context Candidate Keys BTree StoreError RootObj Transaction Namespace Mutation MutationSpec Epoch Checkpoint EpochSpec.
Import String.StringSyntax.

(** The payloads of the log records among the scanned ones. *)
Definition logged (records : list (RecordTag * bytes)) : list bytes :=
  omap (fun '(tag, b) => if bool_decide (tag = MutationLog) then Some b else None) records.

(** Operations logged one after the other. *)
Fixpoint log_ops (ep : Epoch) (records : list PendingRecord) (ops : list MutationOp) : outcome (Epoch * list PendingRecord) :=
  match ops with
  | [] => Ok (ep, records)
  | op :: ops' =>
      let! '(ep, records) := log_op ep records op in
      log_ops ep records ops'
  end.

Definition numbered (s : Z) (bs : list bytes) : list (Z * bytes) := zip (seqZ (s + 1) (zlen bs)) bs.

Lemma numbered_cons s b bs : numbered s (b :: bs) = (s + 1, b) :: numbered (s + 1) bs.
Proof.
  unfold numbered. rewrite zlen_cons, seqZ_cons by (pose proof (zlen_nonneg bs); lia). cbn [zip zip_with]. f_equal.
  f_equal. f_equal; lia.
Qed.

Lemma numbered_map {A} (f : bytes -> A) s bs : map (fun '(_, b) => f b) (numbered s bs) = map f bs.
Proof. revert s. induction bs as [|b bs IH]; intros s; [done|]. rewrite numbered_cons. cbn [map]. by rewrite IH. Qed.

(** The envelopes carry the numbers after [s]. *)
Definition carries (s : Z) (bs : list bytes) : Prop := Forall (fun '(k, b) => envelope_seq b = Ok k) (numbered s bs).

Lemma carries_cons s b bs : carries s (b :: bs) <-> envelope_seq b = Ok (s + 1) /\ carries (s + 1) bs.
Proof. unfold carries. by rewrite numbered_cons, list.Forall_cons. Qed.

Definition seq_of (b : bytes) : Z := match envelope_seq b with Ok s => s | Err _ => 0 end.

Lemma carries_pairs s bs : carries s bs -> map (fun b => (seq_of b, b)) bs = numbered s bs.
Proof.
  revert s. induction bs as [|b bs IH]; intros s Hc; [done|]. apply carries_cons in Hc as [Hb Hc].
  rewrite numbered_cons, <-(IH _ Hc). cbn [map]. by unfold seq_of at 1; rewrite Hb.
Qed.

Lemma collect_log_all L records : Forall (fun b => exists s, envelope_seq b = Ok s) (logged records) ->
  collect_log L records = Ok (base.filter (fun p => L < fst p) (map (fun b => (seq_of b, b)) (logged records))).
Proof.
  induction records as [|[tag b] records IH]; intros Hall; [done|]. cbn [collect_log]. unfold logged in *. cbn [omap list_omap] in *.
  case_bool_decide; [|by apply IH]. apply list.Forall_cons in Hall as [[s Hs] Hall]. rewrite Hs, IH by done. cbn [rbind map].
  assert (seq_of b = s) as -> by (unfold seq_of; by rewrite Hs). destruct (Z.ltb_spec L s).
  - by rewrite filter_cons_True.
  - by rewrite filter_cons_False by (cbn; lia).
Qed.

Lemma numbered_above L s bs : base.filter (fun p => L < fst p) (numbered s bs) = drop (Z.to_nat (L - s)) (numbered s bs).
Proof.
  revert s. induction bs as [|b bs IH]; intros s; [by destruct (Z.to_nat (L - s))|]. rewrite numbered_cons. destruct (Z.ltb_spec L (s + 1)) as [Hlt|Hge].
  - rewrite filter_cons_True by done. rewrite IH. replace (Z.to_nat (L - s)) with O by lia. by replace (Z.to_nat (L - (s + 1))) with O by lia.
  - rewrite filter_cons_False by (cbn; lia). rewrite IH. replace (Z.to_nat (L - s)) with (S (Z.to_nat (L - (s + 1)))) by lia. done.
Qed.

Lemma numbered_sorted s bs : StronglySorted seq_lt (numbered s bs) /\ Forall (fun p => s < fst p) (numbered s bs).
Proof.
  revert s. induction bs as [|b bs IH]; intros s; [by repeat constructor|]. rewrite numbered_cons. destruct (IH (s + 1)) as [Hs Hf].
  split; constructor; try done; cbn; [lia|]. eapply list.Forall_impl; [exact Hf|]. cbn. intros; lia.
Qed.

Lemma sorted_drop {A} (R : A -> A -> Prop) l k : StronglySorted R l -> StronglySorted R (drop k l).
Proof.
  revert k. induction l as [|a l IH]; intros k Hs; [by destruct k|]. destruct k; [done|]. apply StronglySorted_inv in Hs as [Hs _]. by apply IH.
Qed.

Lemma sort_by_seq_unique log log' : StronglySorted seq_lt log -> log' ≡ₚ log -> sort_by_seq log' = log.
Proof.
  intros Hs Hp. assert (Hnd : NoDup (map fst log)).
  { clear Hp. induction Hs as [|a log Hs IH Hf]; [constructor|]. cbn. constructor; [|done]. intros Hin.
    apply list_elem_of_fmap in Hin as (b & He & Hb). rewrite list.Forall_forall in Hf. specialize (Hf b Hb). unfold seq_lt in Hf. lia. }
  pose proof (repeated_seq_ok _ (sort_by_seq_sorted log')) as Hr. destruct (repeated_seq _).
  - destruct Hr. by rewrite sort_by_seq_perm, Hp.
  - apply (StronglySorted_unique_strong seq_lt); [|done..|by rewrite sort_by_seq_perm]. unfold seq_lt. intros; lia.
Qed.

Lemma select_numbered L s bs scanned : carries s bs -> logged scanned ≡ₚ bs ->
  select_log L scanned = Ok (drop (Z.to_nat (L - s)) (numbered s bs)).
Proof.
  intros Hc Hp. unfold select_log. rewrite collect_log_all.
  2: { rewrite Hp. clear Hp. revert s Hc. induction bs as [|b bs IH]; intros s Hc; [constructor|].
    apply carries_cons in Hc as [Hb Hc]. constructor; [by eexists|by eapply IH]. }
  cbn [rbind]. rewrite (sort_by_seq_unique (drop (Z.to_nat (L - s)) (numbered s bs))).
  - assert (Hr : repeated_seq (drop (Z.to_nat (L - s)) (numbered s bs)) = false); [|by rewrite Hr].
    pose proof (sorted_drop _ _ (Z.to_nat (L - s)) (proj1 (numbered_sorted s bs))) as Hs.
    generalize dependent (drop (Z.to_nat (L - s)) (numbered s bs)). intros l Hs. induction Hs as [|a [|b l] Hs IH Hf]; [done..|].
    apply list.Forall_cons in Hf as [Hf _]. unfold seq_lt in Hf. cbn [repeated_seq] in *. rewrite IH. by rewrite (proj2 (Z.eqb_neq (fst a) (fst b))) by lia.
  - apply sorted_drop, numbered_sorted.
  - by rewrite Hp, (carries_pairs _ _ Hc), numbered_above.
Qed.

Lemma log_ops_ok ep records ops : 0 <= ep_seq ep -> ep_seq ep + zlen ops < 2 ^ 64 ->
  Forall (fun op => op_ok op /\ zlen (op_image op) < 2 ^ 62) ops ->
  exists ep' bs,
    log_ops ep records ops = Ok (ep', records ++ map (fun b => {| pr_tag := MutationLog; pr_payload := b; pr_materialized_len := None |}) bs) /\
    ep_seq ep' = ep_seq ep + zlen ops /\ carries (ep_seq ep) bs /\ length bs = length ops /\
    map decode_envelope bs =
      map (fun '(s, op) => if decodable op then Ok (s, op) else Err (StoreDescriptor (OfCodec Malformed)))
        (zip (seqZ (ep_seq ep + 1) (zlen ops)) ops).
Proof.
  revert ep records. induction ops as [|op ops IH]; intros ep records H0 Hmax Hall.
  { exists ep, []. rewrite zlen_nil, app_nil_r. split_and!; [done|lia|constructor|done|done]. }
  rewrite zlen_cons in *. pose proof (zlen_nonneg ops). apply list.Forall_cons in Hall as [[Hop Hl] Hall].
  destruct (envelope_ok (ep_seq ep) op []) as (He & Hs & Hd); [lia|done|by rewrite app_nil_r|]. rewrite app_nil_r in Hs, Hd.
  set (b := to_le 8 (ep_seq ep + 1) ++ op_image op) in *. cbn [log_ops]. unfold log_op, Epoch_envelope. rewrite He. cbn [of_trap_codec map_err rbind].
  destruct (IH (set_seq ep (ep_seq ep + 1)) (records ++ [{| pr_tag := MutationLog; pr_payload := b; pr_materialized_len := None |}]))
    as (ep' & bs & -> & E1 & E2 & E3 & E4); [cbn; lia..|done|]. cbn [ep_seq set_seq] in *.
  exists ep', (b :: bs). split_and!.
  - cbn. by rewrite <-app_assoc.
  - lia.
  - by apply carries_cons.
  - cbn. by rewrite E3.
  - rewrite seqZ_cons by lia. cbn [map zip zip_with]. rewrite Hd. f_equal. rewrite E4. do 3 f_equal; lia.
Qed.

(** C15. The numbers of the log.  An epoch that has counted to [s] gives its
    operations the numbers [s + 1], [s + 2], ...; the recovery of a store
    whose root carries [L] replays exactly the operations after the first
    [L - s], in their order.  An epoch that continues at the root's number
    loses none; the one that [Store::open] makes has counted to zero, and
    after a reopen of a store with [log_seq = L] its first [L] operations,
    each of them acknowledged, are not replayed. *)
Theorem recovery_replays_after ep ops L scanned :
  0 <= ep_seq ep -> ep_seq ep + zlen ops < 2 ^ 64 ->
  Forall (fun op => op_ok op /\ decodable op = true /\ zlen (op_image op) < 2 ^ 62) ops ->
  exists ep' records, log_ops ep [] ops = Ok (ep', records) /\ ep_seq ep' = ep_seq ep + zlen ops /\
    (logged scanned ≡ₚ map pr_payload records ->
     exists log, select_log L scanned = Ok log /\
       map (fun '(s, b) => decode_envelope b) log =
         map Ok (drop (Z.to_nat (L - ep_seq ep)) (zip (seqZ (ep_seq ep + 1) (zlen ops)) ops))).
Proof.
  intros H0 Hmax Hall. destruct (log_ops_ok ep [] ops) as (ep' & bs & -> & E1 & E2 & E3 & E4); [done..| |].
  { eapply list.Forall_impl; [exact Hall|]. by intros op (? & _ & ?). }
  eexists ep', _. split; [reflexivity|]. split; [done|]. intros Hp. rewrite app_nil_l, map_map, map_id in Hp.
  eexists. split; [by apply select_numbered|].
  change (map ?f ?l) with (f <$> l). rewrite !fmap_drop. f_equal. change (?f <$> ?l) with (map f l).
  rewrite numbered_map, E4. apply map_ext_Forall. clear -Hall. generalize (ep_seq ep + 1) (zlen ops). intros s k.
  apply list.Forall_forall. intros [s' op] Hin. apply elem_of_zip_r in Hin. rewrite list.Forall_forall in Hall.
  by destruct (Hall op Hin) as (_ & -> & _).
Qed.

(** A store whose root carries [log_seq = 1] is opened and logs one create:
    the recovery after the next crash replays nothing. *)
Lemma recovery_replays_after_witness :
  exists ep' records, log_ops Epoch_default [] [sample_op] = Ok (ep', records) /\ ep_seq ep' = 1 /\
    select_log 1 (map (fun r => (pr_tag r, pr_payload r)) records) = Ok [].
Proof.
  destruct (recovery_replays_after Epoch_default [sample_op] 1 [(MutationLog, to_le 8 1 ++ op_image sample_op)]) as (ep' & records & E & Es & H).
  - cbn. lia.
  - by vm_compute.
  - constructor; [|constructor]. split; [apply (bool_decide_unpack _); by vm_compute|by vm_compute].
  - assert (Er : records = [{| pr_tag := MutationLog; pr_payload := to_le 8 1 ++ op_image sample_op; pr_materialized_len := None |}])
      by (vm_compute in E; injection E as _ <-; by vm_compute).
    exists ep', records. split; [exact E|]. split; [by rewrite Es|]. subst records. destruct H as (log & Hl & Hm); [by vm_compute|].
    cbn [map pr_tag pr_payload]. rewrite Hl. by destruct log.
Defined.
