(* ===== verification/FileReadSpec.v ===== *)
(** The read path against the picture of a file: a read returns the window of
    the file in which every extent is painted at its offset over zeros, by
    whichever of the three decode paths it runs; and where it does not. *)
From stdpp Require Import gmap sorting.
From Stdlib Require String FunctionalExtensionality.
From S2P Require Import Prelude Codec Repr Version SegRecord Inode Superblock Descriptor Context Streams Materialize Candidate Keys BTree StoreError RootObj BTreeNode BTreeSpec BTreeCheck IndexSpec RemoveSpec ScanSpec ExtentTree ExtentSpec Directory Transaction TransactionSpec Namespace NamespaceSpec Mutation Epoch Checkpoint EpochSpec FileRead.
Import String.StringSyntax FunctionalExtensionality.

(** * Painting *)

(** The byte that a chunk at an offset gives for the position [q]. *)
Definition byte_at (c : Z * bytes) (q : Z) : option Z :=
  if (fst c <=? q) && (q <? fst c + zlen (snd c)) then snd c !! Z.to_nat (q - fst c) else None.

(** The last chunk that covers the position, or zero. *)
Definition paint (l : list (Z * bytes)) (q : Z) : Z := fold_left (fun v c => from_option (fun b => b) v (byte_at c q)) l 0.

Definition window (l : list (Z * bytes)) (offset avail : Z) : bytes := map (paint l) (seqZ offset avail).

Lemma zlen_window l offset avail : 0 <= avail -> zlen (window l offset avail) = avail.
Proof. intros. unfold window, zlen. rewrite length_map, length_seqZ. lia. Qed.

Lemma window_lookup l offset avail (i : nat) : 0 <= avail ->
  window l offset avail !! i = if (Z.of_nat i <? avail) then Some (paint l (offset + Z.of_nat i)) else None.
Proof.
  intros. unfold window. rewrite list_lookup_fmap. destruct (Z.ltb_spec (Z.of_nat i) avail).
  - rewrite lookup_seqZ_lt by lia. done.
  - rewrite lookup_seqZ_ge by lia. done.
Qed.

Lemma paint_snoc l c q : paint (l ++ [c]) q = from_option (fun b => b) (paint l q) (byte_at c q).
Proof. unfold paint. by rewrite fold_left_app. Qed.

Lemma window_empty offset avail : window [] offset avail = Prelude.vec 0 avail.
Proof.
  apply list_eq. intros i. unfold window, Prelude.vec. rewrite list_lookup_fmap. destruct (decide (Z.of_nat i < avail)).
  - rewrite lookup_seqZ_lt, lookup_replicate_2 by lia. done.
  - rewrite lookup_seqZ_ge by lia. symmetry. apply lookup_replicate_None. lia.
Qed.

Lemma splice_lookup {A} (pos : nat) (src out : list A) (i : nat) : (pos + length src <= length out)%nat ->
  splice pos src out !! i = if decide (pos <= i < pos + length src)%nat then src !! (i - pos)%nat else out !! i.
Proof.
  intros Hl. unfold splice. assert (length (take pos out) = pos) by (rewrite length_take; lia).
  destruct (decide (i < pos)%nat).
  - rewrite lookup_app_l by lia. rewrite lookup_take_lt by lia. case_decide; [lia|done].
  - rewrite lookup_app_r by lia. replace (length (take pos out)) with pos. destruct (decide (i - pos < length src)%nat).
    + rewrite lookup_app_l by lia. case_decide; [done|lia].
    + rewrite lookup_app_r by lia. rewrite lookup_drop. case_decide; [lia|]. f_equal. lia.
Qed.

(** No part of the chunk lies in the window. *)
Lemma window_skip l start chunk offset avail : 0 <= avail ->
  Z.min (start + zlen chunk) (offset + avail) <= Z.max start offset ->
  window (l ++ [(start, chunk)]) offset avail = window l offset avail.
Proof.
  intros Ha Hno. apply list_eq. intros i. rewrite !window_lookup by done. destruct (Z.ltb_spec (Z.of_nat i) avail); [|done].
  f_equal. rewrite paint_snoc. unfold byte_at. cbn [fst snd]. set (q := offset + Z.of_nat i).
  destruct (Z.leb_spec start q), (Z.ltb_spec q (start + zlen chunk)); try done. lia.
Qed.

(** The part that does, copied. *)
Lemma window_copy {E} l start (chunk : bytes) offset avail : 0 <= avail ->
  let ee := Z.min (start + zlen chunk) (offset + avail) in
  let cs := Z.max start offset in
  cs < ee ->
  exists src, get_slice (E := E) chunk (cs - start) (cs - start + (ee - cs)) = Ok src /\
    copy_from_slice (E := E) (window l offset avail) (cs - offset) (cs - offset + (ee - cs)) src =
      Ok (window (l ++ [(start, chunk)]) offset avail).
Proof.
  intros Ha ee cs Hlt. pose proof (zlen_window l offset avail Ha) as Hw.
  eexists. split; [apply get_slice_Ok; split; [lia|reflexivity]|].
  set (src := slice _ _ chunk). assert (Hsrc : zlen src = ee - cs).
  { unfold src. replace (cs - start + (ee - cs) - (cs - start)) with (ee - cs) by lia. apply zlen_slice; lia. }
  apply copy_from_slice_Ok. split; [lia|]. split; [lia|]. symmetry. apply list_eq. intros i.
  rewrite splice_lookup by (unfold zlen in *; lia). rewrite !window_lookup by done.
  case_decide as Hi.
  - assert (Hlt' : Z.of_nat i < avail) by (unfold zlen in *; lia). destruct (Z.ltb_spec (Z.of_nat i) avail); [|lia].
    rewrite paint_snoc. unfold byte_at. cbn [fst snd]. unfold src, slice. rewrite lookup_take_lt by (unfold zlen in *; lia).
    rewrite lookup_drop. destruct (Z.leb_spec start (offset + Z.of_nat i)), (Z.ltb_spec (offset + Z.of_nat i) (start + zlen chunk));
      cbn [andb]; try (unfold zlen in *; lia).
    replace (Z.to_nat (cs - start) + (i - Z.to_nat (cs - offset)))%nat with (Z.to_nat (offset + Z.of_nat i - start)) by (unfold zlen in *; lia).
    destruct (lookup_lt_is_Some_2 chunk (Z.to_nat (offset + Z.of_nat i - start))) as [b Hb]; [unfold zlen in *; lia|]. by rewrite Hb.
  - destruct (Z.ltb_spec (Z.of_nat i) avail); [|done]. f_equal. rewrite paint_snoc. unfold byte_at. cbn [fst snd].
    destruct (Z.leb_spec start (offset + Z.of_nat i)), (Z.ltb_spec (offset + Z.of_nat i) (start + zlen chunk)); try done.
    unfold zlen in *; lia.
Qed.

Lemma assemble_ok l start chunk offset avail : 0 <= avail -> offset + avail < 2 ^ 64 ->
  assemble_extent_window (window l offset avail) start chunk offset (offset + avail) avail =
    Ok (window (l ++ [(start, chunk)]) offset avail).
Proof.
  intros Ha Hend. unfold assemble_extent_window, saturating_add.
  replace (Z.min (Z.min (start + zlen chunk) (2 ^ 64 - 1)) (offset + avail)) with (Z.min (start + zlen chunk) (offset + avail)) by lia.
  destruct (Z.leb_spec (Z.min (start + zlen chunk) (offset + avail)) (Z.max start offset)).
  { by rewrite window_skip. }
  destruct (Z.ltb_spec avail (Z.max start offset - offset)); [lia|]. cbv zeta.
  rewrite (Z.min_l (Z.min _ _ - _)) by lia.
  destruct (window_copy (E := StoreError) l start chunk offset avail Ha) as (src & -> & E); [lia|]. exact E.
Qed.

Lemma assemble_all_ok chunks l offset avail : 0 <= avail -> offset + avail < 2 ^ 64 ->
  assemble_all chunks offset (offset + avail) avail (window l offset avail) = Ok (window (l ++ chunks) offset avail).
Proof.
  intros Ha He. revert l. induction chunks as [|[s c] chunks IH]; intros l; cbn [assemble_all]; [by rewrite app_nil_r|].
  rewrite assemble_ok by done. cbn [rbind]. by rewrite IH, <-app_assoc.
Qed.

(** * The three decode paths *)

(** The descriptor materializes to the chunk, of the length it states. *)
Definition decodes (limits : Limits) (ctx : DecoderContext) (desc : Representation) (chunk : bytes) : Prop :=
  (exists b, @materialize ctx limits desc 0 (max_decode_work limits) (Prelude.vec 0 (Representation_len desc)) = Ok (chunk, b)) /\
  zlen chunk = Representation_len desc.

(** The runs of the threads are the batch, cut at increasing places. *)
Lemma worker_run_bounds workers n w : 0 < workers <= n -> 0 <= w < workers ->
  worker_run workers n w = Some (w * n / workers, (w + 1) * n / workers).
Proof.
  intros Hk Hw. unfold worker_run.
  assert (H1 : w * n / workers + 1 <= (w + 1) * n / workers).
  { replace ((w + 1) * n) with (w * n + n) by lia. rewrite <-(Z.div_add _ 1) by lia. apply Z.div_le_mono; lia. }
  assert (H2 : (w + 1) * n / workers <= n) by (apply Z.div_le_upper_bound; nia).
  rewrite (Z.max_l ((w + 1) * n / workers)) by lia. rewrite Z.min_l by lia. destruct (Z.leb_spec ((w + 1) * n / workers) (w * n / workers)); [lia|done].
Qed.

Lemma worker_runs_cover {A} (l : list A) workers (k : nat) : 0 < workers <= zlen l -> Z.of_nat k <= workers ->
  concat (map (fun '(lo, hi) => slice (Z.to_nat lo) (Z.to_nat (hi - lo)) l) (omap (worker_run workers (zlen l)) (seqZ 0 (Z.of_nat k)))) =
  take (Z.to_nat (Z.of_nat k * zlen l / workers)) l.
Proof.
  intros Hw. induction k as [|k IH]; intros Hk.
  { cbn. rewrite Z.div_0_l by lia. by rewrite take_0. }
  replace (Z.of_nat (S k)) with (Z.of_nat k + 1) by lia. rewrite seqZ_app by lia. cbn [seqZ Z.to_nat].
  change (seqZ (0 + Z.of_nat k) 1) with [0 + Z.of_nat k]. rewrite omap_app, map_app, concat_app, IH by lia.
  cbn [omap list_omap]. rewrite worker_run_bounds by lia. cbn [map concat]. rewrite app_nil_r.
  set (a := (0 + Z.of_nat k) * zlen l / workers). set (b := (0 + Z.of_nat k + 1) * zlen l / workers).
  assert (Hab : 0 <= a <= b).
  { unfold a, b. split; [apply Z.div_pos; nia|apply Z.div_le_mono; [lia|nia]]. }
  replace (Z.of_nat k * zlen l / workers) with a by (unfold a; f_equal; lia).
  replace ((Z.of_nat k + 1) * zlen l / workers) with b by (unfold b; f_equal; lia).
  unfold slice. rewrite Z2Nat.inj_sub by lia. rewrite take_drop_commute.
  replace (Z.to_nat a + (Z.to_nat b - Z.to_nat a))%nat with (Z.to_nat b) by lia.
  rewrite <-(take_drop (Z.to_nat a) (take (Z.to_nat b) l)) at 2. rewrite take_take. by rewrite Nat.min_l by lia.
Qed.

Lemma worker_runs_all {A} (l : list A) workers : 0 < workers <= zlen l ->
  concat (map (fun '(lo, hi) => slice (Z.to_nat lo) (Z.to_nat (hi - lo)) l) (worker_runs workers (zlen l))) = l.
Proof.
  intros Hw. unfold worker_runs. replace workers with (Z.of_nat (Z.to_nat workers)) at 2 by lia.
  rewrite worker_runs_cover by lia. rewrite Z2Nat.id by lia. rewrite Z.mul_comm, Z.div_mul by lia. rewrite take_ge; [done|].
  unfold zlen. lia.
Qed.

Section Decode.
Context (limits : Limits) (ctx : DecoderContext) (offset avail : Z) (Ha : 0 <= avail) (He : offset + avail < 2 ^ 64).

Lemma decode_extent_ok start desc chunk : decodes limits ctx desc chunk -> decode_extent limits ctx start desc = Ok (start, chunk).
Proof. intros [[b E] _]. unfold decode_extent. rewrite E. done. Qed.

Lemma into_window_ok l start desc chunk : decodes limits ctx desc chunk ->
  materialize_into_window limits ctx desc start offset (offset + avail) (window l offset avail) =
    Ok (window (l ++ [(start, chunk)]) offset avail).
Proof.
  intros [[b E] Hl]. unfold materialize_into_window, saturating_add. rewrite <-Hl.
  replace (Z.min (Z.min (start + zlen chunk) (2 ^ 64 - 1)) (offset + avail)) with (Z.min (start + zlen chunk) (offset + avail)) by lia.
  destruct (Z.leb_spec (Z.min (start + zlen chunk) (offset + avail)) (Z.max start offset)); [by rewrite window_skip|].
  rewrite Hl, E, <-Hl. cbn [of_materialize map_err rbind]. rewrite zlen_window by done.
  destruct (Z.ltb_spec avail (Z.max start offset - offset)); [lia|]. cbv zeta. rewrite (Z.min_l (Z.min _ _ - _)) by lia.
  destruct (window_copy (E := StoreError) l start chunk offset avail Ha) as (src & -> & E'); [lia|]. exact E'.
Qed.

Definition decode_to (extents : list (Z * Representation)) (chunks : list (Z * bytes)) : Prop :=
  Forall2 (fun e c => fst e = fst c /\ decodes limits ctx (snd e) (snd c)) extents chunks.

Lemma decode_inline_ok extents chunks l : decode_to extents chunks ->
  decode_inline limits ctx extents offset (offset + avail) (window l offset avail) = Ok (window (l ++ chunks) offset avail).
Proof.
  intros H. revert l. induction H as [|[s d] [s' c] es cs [[= ->] Hd] _ IH]; intros l; cbn [decode_inline]; [by rewrite app_nil_r|].
  rewrite (into_window_ok l s' d c Hd). cbn [rbind]. by rewrite IH, <-app_assoc.
Qed.

Lemma decode_all_ok extents chunks : decode_to extents chunks -> decode_all limits ctx extents = Ok chunks.
Proof.
  induction 1 as [|[s d] [s' c] es cs [[= ->] Hd] _ IH]; cbn [decode_all]; [done|]. rewrite (decode_extent_ok s' d c Hd). cbn [rbind].
  by rewrite IH.
Qed.

Lemma assemble_pool_ok extents chunks l : decode_to extents chunks ->
  assemble_pool (map (fun '(start, desc) => decode_extent limits ctx start desc) extents) offset (offset + avail) avail (window l offset avail) =
    Ok (window (l ++ chunks) offset avail).
Proof.
  intros H. revert l. induction H as [|[s d] [s' c] es cs [[= ->] Hd] _ IH]; intros l; cbn [map assemble_pool]; [by rewrite app_nil_r|].
  rewrite (decode_extent_ok s' d c Hd). rewrite assemble_ok by done. cbn [rbind]. by rewrite IH, <-app_assoc.
Qed.

Lemma assemble_runs_ok runs chunks l : Forall2 (fun r cs => r = Ok cs) runs chunks ->
  assemble_runs runs offset (offset + avail) avail (window l offset avail) = Ok (window (l ++ concat chunks) offset avail).
Proof.
  intros H. revert l. induction H as [|r cs rs css -> _ IH]; intros l; cbn [assemble_runs concat]; [by rewrite app_nil_r|].
  cbn [rbind]. rewrite assemble_all_ok by done. cbn [rbind]. by rewrite IH, app_assoc.
Qed.

Lemma decode_runs_ok extents chunks ranges : decode_to extents chunks ->
  Forall2 (fun r cs => r = Ok cs)
    (map (fun '(lo, hi) => join_run (decode_all limits ctx (slice (Z.to_nat lo) (Z.to_nat (hi - lo)) extents))) ranges)
    (map (fun '(lo, hi) => slice (Z.to_nat lo) (Z.to_nat (hi - lo)) chunks) ranges).
Proof.
  intros H. induction ranges as [|[lo hi] ranges IH]; [constructor|]. cbn [map]. constructor; [|done].
  rewrite (decode_all_ok _ (slice (Z.to_nat lo) (Z.to_nat (hi - lo)) chunks)); [done|].
  unfold slice. by apply Forall2_take, Forall2_drop.
Qed.
End Decode.

Lemma decode_window_ok limits base worker_pool granted (p : PreparedRead) chunks :
  let ctx := PrefetchContext limits base (pd_objects p) (Some (pd_descriptors p)) None in
  length (pd_starts p) = length (pd_descs p) -> decode_to limits ctx (zip (pd_starts p) (pd_descs p)) chunks ->
  0 <= pd_avail p -> pd_end p = pd_offset p + pd_avail p -> pd_end p < 2 ^ 64 ->
  decode_prepared limits base worker_pool granted p = Ok (window chunks (pd_offset p) (pd_avail p)).
Proof.
  intros ctx Hlen H Ha He Hw. unfold decode_prepared. set (workers := Z.min _ granted). rewrite <-(window_empty (pd_offset p)). fold ctx. rewrite He in *.
  assert (Hz : zlen (zip (pd_starts p) (pd_descs p)) = zlen (pd_descs p)).
  { unfold zlen. rewrite length_zip_with. lia. }
  assert (Hz' : zlen chunks = zlen (pd_descs p)) by (rewrite <-Hz; unfold zlen; f_equal; symmetry; by eapply Forall2_length).
  destruct (Z.eqb_spec (zlen (pd_descs p)) 0).
  { destruct chunks; [done|]. unfold zlen in *. cbn in Hz'. lia. }
  destruct (Z.eqb_spec (zlen (pd_descs p)) 1); [exact (decode_inline_ok limits ctx (pd_offset p) (pd_avail p) Ha Hw _ _ [] H)|].
  destruct worker_pool; [exact (assemble_pool_ok limits ctx (pd_offset p) (pd_avail p) Ha Hw _ _ [] H)|].
  destruct (Z.leb_spec workers 1); [exact (decode_inline_ok limits ctx (pd_offset p) (pd_avail p) Ha Hw _ _ [] H)|].
  rewrite (assemble_runs_ok (pd_offset p) (pd_avail p) Ha Hw _ _ [] (decode_runs_ok limits ctx _ _ (worker_runs workers (zlen (pd_descs p))) H)).
  cbn [app]. rewrite <-Hz'. rewrite worker_runs_all by (unfold workers in *; lia). done.
Qed.

(** C21. [decode_prepared].  When every extent of a prepared read decodes, the
    bytes are the window with the chunks painted in order, whether they were
    decoded inline, in the runs of however many threads were granted, or by the
    worker pool. *)
Theorem decode_prepared_window limits base worker_pool granted (p : PreparedRead) chunks :
  let ctx := PrefetchContext limits base (pd_objects p) (Some (pd_descriptors p)) None in
  length (pd_starts p) = length (pd_descs p) -> decode_to limits ctx (zip (pd_starts p) (pd_descs p)) chunks ->
  0 <= pd_avail p -> pd_end p = pd_offset p + pd_avail p -> pd_end p < 2 ^ 64 ->
  decode_prepared limits base worker_pool granted p = Ok (window chunks (pd_offset p) (pd_avail p)).
Proof. apply decode_window_ok. Qed.

(** * The batched scan *)

Lemma key_below_spec a b : key_below a b = bool_decide (klt a b).
Proof.
  unfold key_below. destruct (cmp_key_spec a b) as [->|Hlt|Hgt]; symmetry; try (apply bool_decide_eq_false; korder). by apply bool_decide_eq_true.
Qed.

Definition dec_extent (kv : bytes * bytes) : Z * bytes := (from_be (fst kv), snd kv).

(** Only extents among the pairs. *)
Definition exts (m : kvs) : Prop := exists l, m = map enc_extent l /\ Forall (fun x : Z * bytes => is_u64 x.1) l.

Lemma exts_app m1 m2 : exts (m1 ++ m2) -> exts m1 /\ exts m2.
Proof.
  intros (l & E & Hl). symmetry in E. apply map_eq_app in E as (l1 & l2 & -> & <- & <-). apply Forall_app in Hl as [H1 H2].
  split; [by exists l1|by exists l2].
Qed.

Lemma dec_enc l : Forall (fun x : Z * bytes => is_u64 x.1) l -> map dec_extent (map enc_extent l) = l.
Proof.
  induction 1 as [|[o v] l Ho _ IH]; [done|]. cbn [map]. rewrite IH. f_equal. unfold dec_extent, enc_extent. cbn [fst snd]. f_equal.
  apply from_be_to_be. change (256 ^ Z.of_nat 8) with (2 ^ 64). cbn in Ho. width.
Qed.

Section Scan.
Context (limits : Limits) (sh : Shape) (x : Tx StoreError) (Hpend : tx_pending x = ∅).
Context (s e : Z) (Hs : is_u64 s) (He : is_u64 e).
#[local] Abbreviation fanout := (max_fanout limits).
#[local] Abbreviation sk := (extent_key s).
#[local] Abbreviation ek := (extent_key e).
#[local] Abbreviation tree := (BTreeSpec.tree BTREE_ORDER fanout).
#[local] Abbreviation hit m := (map dec_extent (range (Some sk) (Some ek) m)).

Lemma fetch_committed id nd : fetch BTREE_ORDER fanout x id = Ok nd ->
  exists b, tx_fetch x id = Ok (Some b) /\ Node_decode b BTREE_ORDER fanout = Ok nd.
Proof.
  unfold fetch. destruct (ChunkId_is_zero id); [done|]. cbn [prov_get Tx_provider]. unfold fetch_pending_or_store. rewrite Hpend, lookup_empty.
  destruct (tx_fetch x id) as [[b|]|] eqn:E; cbn; [|done..]. intros H. exists b. split; [done|].
  destruct (Node_decode b BTREE_ORDER fanout); cbn in H; [by injection H as ->|done].
Qed.

Lemma leaf_window_ok es : sorted (map e_key es) -> exts (pairs es) -> leaf_window sk ek es = Ok (hit (pairs es)).
Proof.
  induction es as [|en es IH]; intros Hso Hx; [done|]. cbn [map] in Hso. apply sorted_cons_inv in Hso as [Hso Hf]. rewrite Forall_fmap in Hf.
  change (pairs (en :: es)) with ([(e_key en, e_value en)] ++ pairs es) in *. apply exts_app in Hx as [([|[o v] [|]] & E & Ho) Hx]; try done.
  injection E as Ek Ev. foralls. cbn [fst] in *. cbn [leaf_window app]. rewrite !key_below_spec, Ek. unfold range.
  case_bool_decide as Hlt.
  { rewrite filter_cons_False; [by apply IH|]. intros [Ha _]. cbn in Ha. korder. }
  case_bool_decide as Hlt'; cbn [negb].
  - rewrite filter_cons_True by (split; cbn; [destruct (cmp_key_spec (extent_key o) sk); korder|done]). cbn [map].
    unfold extent_start. pose proof (key_offset_ok o) as Hk. unfold key_offset in Hk.
    assert (Hl : length (extent_key o) = 8%nat) by apply to_be_length. rewrite Hl. cbn [Nat.eqb ok_or rbind]. rewrite IH by done. cbn [rbind].
    unfold dec_extent at 1. cbn [fst snd]. by rewrite Ev.
  - rewrite filter_cons_False by (by intros [_ Hb]). change (base.filter (in_range (Some sk) (Some ek)) (pairs es)) with (range (Some sk) (Some ek) (pairs es)).
    rewrite range_none; [done|]. unfold pairs. rewrite Forall_fmap. eapply Forall_impl; [exact Hf|]. intros en' Hlt2 [_ Hb]. cbn in *. apply Hlt'.
    rewrite Ek in Hlt2. korder.
Qed.

(** Every child is over some part of the pairs. *)
Definition visits (T : ChunkId -> option bytes -> option bytes -> kvs -> Prop) (c : ChunkId) (m : kvs) : Prop :=
  exists lo hi, T c lo hi m /\ exts m.

Lemma window_children_ok (T : ChunkId -> option bytes -> option bytes -> kvs -> Prop) es hi m :
  (forall c lo hi m, T c lo hi m -> within lo hi m /\ sorted (map fst m) /\ m <> []) ->
  Forall child_entry_ok es -> kids T (eslots es) hi m -> exts m ->
  exists next ms, window_children sk ek es = Ok next /\ Forall2 (visits T) next ms /\
    concat (map (range (Some sk) (Some ek)) ms) = range (Some sk) (Some ek) m.
Proof.
  intros HT Hok. revert m. induction Hok as [|en es [_ Hv] Hok IH]; intros m; cbn [eslots map kids window_children].
  { intros -> _. by exists [], []. }
  intros (m1 & m2 & -> & Ht & Hk) Hx. pose proof Hx as Hx0. apply exts_app in Hx as [Hx1 Hx2].
  rewrite key_below_spec. case_bool_decide as Hlt; cbn [negb].
  2: { exists [], []. split_and!; [done|constructor|]. symmetry. apply range_none.
    assert (Hkk : kids T ((Some (e_key en), e_value en) :: eslots es) hi (m1 ++ m2)) by by exists m1, m2.
    destruct (kids_within T HT _ _ _ _ _ Hkk) as (Hw & _). eapply Forall_impl; [exact Hw|]. intros kv [Ha _] [_ Hb]. cbn in *. apply Hlt. korder. }
  destruct (IH m2 Hk Hx2) as (next & ms & -> & Hn & Hc).
  set (skip := match es with n :: _ => _ | [] => false end). rewrite range_app.
  destruct skip eqn:Eskip.
  - exists next, ms. split_and!; [done..|]. rewrite range_none; [done|]. destruct es as [|en' es]; [done|]. unfold skip in Eskip.
    rewrite key_below_spec in Eskip. apply negb_true_iff, bool_decide_eq_false in Eskip. cbn [eslots map next_lo] in Ht.
    destruct (HT _ _ _ _ Ht) as (Hw & _). eapply Forall_impl; [exact Hw|]. intros kv [_ Hb] [Ha _]. cbn in *. apply Eskip. korder.
  - unfold child_id_value, ChunkId_from_bytes. pose proof Hv as [Hl _]. unfold zlen. rewrite Hl. cbn [ok_or rbind].
    exists (e_value en :: next), (m1 :: ms). split; [done|]. split; [constructor; [|done]; by eexists _, _|]. cbn [map concat]. by rewrite Hc.
Qed.

Lemma scan_node_ok n id lo hi m : tree x sh n id lo hi m -> exts m ->
  exists next ms out, scan_node limits sk ek (tx_fetch x id) = Ok (next, out) /\
    Forall2 (fun c m => exists n', n = S n' /\ visits (tree x sh n') c m) next ms /\
    out ++ map dec_extent (concat (map (range (Some sk) (Some ek)) ms)) = hit m.
Proof.
  intros Ht Hx. apply tree_inv in Ht as [(es & E & Hok & _ & -> & _)|(n' & c & es & -> & E & Hok & _ & Hk)];
    apply fetch_committed in E as (b & Eb & Ed); unfold scan_node; rewrite Eb, Ed.
  - rewrite (leaf_window_ok es); [|apply Hok|done]. cbn [rbind]. eexists [], [], _. split; [reflexivity|]. split; [constructor|]. by rewrite app_nil_r.
  - destruct Hk as (m1 & m2 & -> & Ht & Hk). apply exts_app in Hx as [Hx1 Hx2].
    destruct (window_children_ok (tree x sh n') es hi m2) as (next & ms & -> & Hn & Hc); [intros ? ? ? ? H0; exact (tree_within _ _ _ _ _ _ _ _ _ H0)|apply Hok|exact Hk|exact Hx2|].
    cbn [rbind]. assert (Hnext : Forall2 (fun c m => exists n'', S n' = S n'' /\ visits (tree x sh n'') c m) next ms)
      by (eapply Forall2_impl; [exact Hn|]; intros; by exists n').
    destruct (first_in_window sk es) eqn:Ef.
    + exists (c :: next), (m1 :: ms), []. split; [done|]. split; [constructor; [|done]; exists n'; split; [done|by eexists _, _]|].
      cbn [map concat app]. by rewrite Hc, range_app.
    + exists next, ms, []. split; [done|]. split; [done|]. cbn [app]. rewrite Hc, range_app. rewrite (range_none _ _ m1); [done|].
      destruct es as [|en es]; [done|]. unfold first_in_window in Ef. rewrite key_below_spec in Ef. apply bool_decide_eq_false in Ef.
      cbn [eslots map next_lo] in Ht. destruct (tree_within _ _ _ _ _ _ _ _ _ Ht) as (Hw & _). eapply Forall_impl; [exact Hw|].
      intros kv [_ Hb] [Ha _]. cbn in *. apply Ef. korder.
Qed.

(** The frontier: trees below the fuel. *)
Definition frontier_ok (fuel : nat) (F : list ChunkId) (ms : list kvs) : Prop :=
  Forall2 (fun c m => exists n, (n < fuel)%nat /\ visits (tree x sh n) c m) F ms.

Lemma scan_level_ok fuel F ms : frontier_ok (S fuel) F ms ->
  exists next ms' out, scan_level limits sk ek (fetch_objects_many x F) = Ok (next, out) /\ frontier_ok fuel next ms' /\
    out ++ map dec_extent (concat (map (range (Some sk) (Some ek)) ms')) ≡ₚ map dec_extent (concat (map (range (Some sk) (Some ek)) ms)).
Proof.
  induction 1 as [|c m F ms (n & Hn & lo & hi & Ht & Hx) _ IH]; cbn [fetch_objects_many map scan_level].
  { exists [], [], []. split; [done|]. split; [constructor|done]. }
  destruct (scan_node_ok n c lo hi m Ht Hx) as (next & ms1 & out & -> & Hnext & E). cbn [rbind].
  destruct IH as (next' & ms' & out' & E' & Hf' & Hp). unfold fetch_objects_many in E'. rewrite E'. cbn [rbind].
  exists (next ++ next'), (ms1 ++ ms'), (out ++ out'). split; [done|]. split.
  - apply Forall2_app; [|done]. eapply Forall2_impl; [exact Hnext|]. intros c' m' (n' & -> & Hv). exists n'. split; [lia|done].
  - cbn [concat]. rewrite !map_app, !concat_app, !map_app, <-Hp, <-E. solve_Permutation.
Qed.

Lemma scan_loop_ok fuel F ms out : frontier_ok fuel F ms ->
  exists out', scan_loop limits x fuel sk ek F out = Some (Ok out') /\
    out' ≡ₚ out ++ map dec_extent (concat (map (range (Some sk) (Some ek)) ms)).
Proof.
  revert F ms out. induction fuel as [|fuel IH]; intros F ms out HF.
  - destruct HF as [|c m F ms (n & Hn & _) _]; [|lia]. exists out. cbn. by rewrite app_nil_r.
  - destruct (decide (F = [])) as [->|Hne].
    { apply Forall2_nil_inv_l in HF as ->. exists out. cbn. by rewrite app_nil_r. }
    destruct (scan_level_ok fuel F ms HF) as (next & ms' & more & El & HF' & Hp).
    destruct (IH next ms' (out ++ more) HF') as (out' & Eo & Hp'). exists out'. split.
    + destruct F; [done|]. cbn [scan_loop]. by rewrite El.
    + rewrite Hp', <-app_assoc. by rewrite Hp.
Qed.
End Scan.

(** The scan of an extent tree: all extents that start in the window, in some
    order (a tree whose leaves lie at different depths gives its shallower
    ones first). *)
Lemma scan_extents_ok limits sh x n (r : ChunkId) (E : gmap Z bytes) s e fuel : tx_pending x = ∅ -> is_u64 s -> is_u64 e ->
  extents BTREE_ORDER (max_fanout limits) x sh n r E -> (n < fuel)%nat ->
  exists l out, listing E l /\ Forall (fun y : Z * bytes => is_u64 y.1) l /\
    scan_extents_batched limits x fuel r s e = Some (Ok out) /\ out ≡ₚ base.filter (fun y : Z * bytes => s <= y.1 < e) l.
Proof.
  intros Hp Hs He (M & (m & Hix & ->) & HX) Hn.
  destruct (extents_listing E m HX (index_sorted _ _ _ _ _ _ _ Hix)) as (l & Hl & -> & Hu). exists l.
  assert (Hnone : e <= s -> base.filter (fun y : Z * bytes => s <= y.1 < e) l = []).
  { intros Hle. clear -Hle. induction l as [|y l IH]; [done|]. by rewrite filter_cons_False by lia. }
  unfold scan_extents_batched. destruct Hix as [[-> Em]|Ht].
  { exists []. rewrite orb_true_l. destruct l; [|done]. by split_and!. }
  rewrite (tree_nonzero _ _ _ _ _ _ _ _ _ Ht). cbn [orb]. destruct (Z.leb_spec e s).
  { exists []. rewrite Hnone by done. by split_and!. }
  destruct (scan_loop_ok limits sh x Hp s e fuel [r] [map enc_extent l] []) as (out & E1 & E2).
  { constructor; [|constructor]. exists n. split; [done|]. exists None, None. split; [done|]. by exists l. }
  exists out. split_and!; [done..|]. rewrite E2. cbn [map concat app]. rewrite app_nil_r, range_extents by done. rewrite dec_enc; [done|].
  by apply Forall_filter.
Qed.

(** * Prefetching changes nothing *)

Lemma prefetch_transparent limits base objects descriptors :
  (forall (id : ChunkId) b, objects !! id = Some b -> @fetch_object base id = Ok b) ->
  (forall (id : ChunkId) b, descriptors !! id = Some b -> @fetch_descriptor base id = decode_descriptor limits b) ->
  PrefetchContext limits base objects (Some descriptors) None = base.
Proof.
  intros Ho Hd. destruct base as [fo fd rans uni]. unfold PrefetchContext. f_equal; apply functional_extensionality; intros id.
  - cbn. destruct (objects !! id) as [b|] eqn:E; [|done]. symmetry. by apply (Ho id b).
  - cbn. destruct (descriptors !! id) as [b|] eqn:E; [|done]. symmetry. by apply (Hd id b).
Qed.

Section Prepare.
Context (limits : Limits) (sh : Shape) (x : Tx StoreError) (root : Root) (n : nat) (C : gmap bytes bytes) (Hn : (n <= 128)%nat).
Context (HC : holds BTREE_ORDER (max_fanout limits) x sh n (chunk_index_root root) C).
Context (rans : bytes -> bytes -> Z -> RansCodec -> Z -> result MaterializeError bytes).
Context (universe : UniverseId -> bytes -> Z -> Z -> Z -> result MaterializeError bytes).
(** No read of the log fails. *)
Context (Hio : forall id, exists o, tx_fetch x id = Ok o).
#[local] Abbreviation base := (Store_context limits x root rans universe).

Lemma chunk_descriptor_ok (id : ChunkId) : chunk_descriptor limits x root id = Ok (C !! id).
Proof. unfold chunk_descriptor. by rewrite (get_ok _ _ _ _ _ _ _ _ HC Hn). Qed.

(** The captured descriptors are those of the chunk index. *)
Definition deps_ok (d : Deps) : Prop := forall (id : ChunkId) b, rd_descriptors d !! id = Some b -> C !! id = Some b.

Lemma add_deps_ok ids d : deps_ok d -> deps_ok (fold_left add_dep ids d).
Proof.
  revert d. induction ids as [|i ids IH]; intros d Hd; [done|]. cbn [fold_left]. apply IH. unfold add_dep. by case_bool_decide.
Qed.

Lemma collect_ok levels desc d : deps_ok d -> exists d', collect_read_deps limits x root levels None desc d = Ok d' /\ deps_ok d'.
Proof.
  revert desc d. induction levels as [|levels IH]; intros desc d Hd; cbn [collect_read_deps]; apply (add_deps_ok (descriptor_objects desc)) in Hd.
  { by eexists. }
  generalize dependent (fold_left add_dep (descriptor_objects desc) d). clear d. intros d Hd. generalize (nested_chunks desc). intros ids. revert d Hd.
  induction ids as [|id ids IHids]; intros d Hd; [by eexists|]. case_bool_decide; [by apply IHids|].
  unfold nested_descriptor. cbn [mbind option_bind]. rewrite chunk_descriptor_ok. cbn [rbind].
  destruct (C !! id) as [b|] eqn:Ec; [|by apply IHids].
  assert (Hd' : deps_ok (add_descriptor (see_nested d id) id b)).
  { intros j b' Hj. cbn in Hj. apply lookup_insert_Some in Hj as [[<- <-]|[_ Hj]]; [done|by apply Hd]. }
  destruct (Descriptor.decode limits b) as [desc'|]; [|by apply IHids].
  destruct (IH desc' _ Hd') as (d' & -> & Hd''). cbn [rbind]. by apply IHids.
Qed.

Lemma prepare_descs_ok extents descs d : Forall2 (fun y dd => Descriptor.decode limits (snd y) = Ok dd) extents descs -> deps_ok d ->
  exists d', prepare_descs limits x root None extents d = Ok (descs, d') /\ deps_ok d'.
Proof.
  intros H. revert d. induction H as [|[o b] dd extents descs E _ IH]; intros d Hd; cbn [prepare_descs]; [by exists d|].
  cbn [snd] in E. rewrite E. cbn [of_codec map_err rbind]. destruct (collect_ok (Z.to_nat (max_reference_depth limits)) dd d Hd) as (d1 & -> & Hd1).
  cbn [rbind]. destruct (IH d1 Hd1) as (d2 & -> & Hd2). cbn [rbind]. by exists d2.
Qed.

Definition objects_ok (m : gmap (list Z) bytes) : Prop := forall (id : ChunkId) b, m !! id = Some b -> tx_fetch x id = Ok (Some b).

Lemma fetched_ok ids m : objects_ok m -> exists m', fetched_objects None (zip ids (fetch_objects_many x ids)) m = Ok m' /\ objects_ok m'.
Proof.
  revert m. induction ids as [|id ids IH]; intros m Hm; [by exists m|]. cbn [fetch_objects_many map zip zip_with fetched_objects].
  destruct (Hio id) as [[b|] E]; rewrite E; [|by apply IH]. apply IH. intros j b' Hj.
  apply lookup_insert_Some in Hj as [[<- <-]|[_ Hj]]; [done|by apply Hm].
Qed.

(** A prepared read of the committed store decodes as the store itself. *)
Lemma prepare_ok extents descs offset end_ avail : Forall2 (fun y dd => Descriptor.decode limits (snd y) = Ok dd) extents descs ->
  exists p, materialize_prepare limits x root None extents offset end_ avail = Ok p /\
    pd_starts p = map fst extents /\ pd_descs p = descs /\ pd_offset p = offset /\ pd_end p = end_ /\ pd_avail p = avail /\
    PrefetchContext limits base (pd_objects p) (Some (pd_descriptors p)) None = base.
Proof.
  intros H. unfold materialize_prepare. destruct (prepare_descs_ok extents descs Deps_empty H) as (d & -> & Hd); [by intros id b Hb|].
  cbn [rbind]. destruct (fetched_ok (rd_deps d) ∅) as (m & -> & Hm); [by intros id b Hb|]. cbn [rbind].
  eexists. split; [reflexivity|]. cbn. split_and!; try done. apply prefetch_transparent.
  - intros id b Hb. cbn. by rewrite (Hm id b Hb).
  - intros id b Hb. cbn. unfold Store_fetch_descriptor. rewrite chunk_descriptor_ok, (Hd id b Hb). done.
Qed.
End Prepare.

(** * Reading a file *)

(** The extents of a file and what they decode to: apart from each other. *)
Record file_chunks (limits : Limits) (base : DecoderContext) (E : gmap Z bytes) (D : Z -> bytes) : Prop := {
  fc_decodes off b : E !! off = Some b -> exists desc, Descriptor.decode limits b = Ok desc /\ decodes limits base desc (D off);
  fc_apart off off' : is_Some (E !! off) -> is_Some (E !! off') -> off < off' -> off + zlen (D off) <= off'
}.

Definition chunks (D : Z -> bytes) (l : list (Z * bytes)) : list (Z * bytes) := map (fun y => (fst y, D (fst y))) l.

Lemma paint_from v l q : (forall c, c ∈ l -> byte_at c q = None) -> fold_left (fun v c => from_option (fun b => b) v (byte_at c q)) l v = v.
Proof.
  revert v. induction l as [|c l IH]; intros v H; [done|]. cbn [fold_left]. rewrite (H c) by by left. cbn. apply IH. intros. apply H. by right.
Qed.

Lemma paint_one l q b : (exists c, c ∈ l /\ byte_at c q = Some b) -> (forall c b', c ∈ l -> byte_at c q = Some b' -> b' = b) -> paint l q = b.
Proof.
  unfold paint. generalize 0 at 1. induction l as [|c l IH]; intros v (c' & Hin & Hc) Hu; [by apply not_elem_of_nil in Hin|]. cbn [fold_left].
  destruct (decide (Exists (fun c => is_Some (byte_at c q)) l)) as [Hex|Hno].
  - apply list.Exists_exists in Hex as (c2 & Hin2 & [b2 Hb2]). apply IH.
    + exists c2. split; [done|]. rewrite Hb2. f_equal. apply (Hu c2); [by right|done].
    + intros. eapply Hu; [by right|done].
  - rewrite paint_from.
    2: { intros c2 Hin2. destruct (byte_at c2 q) eqn:E2; [|done]. destruct Hno. apply list.Exists_exists. exists c2. split; [done|by eexists]. }
    apply elem_of_cons in Hin as [->|Hin]; [by rewrite Hc|]. destruct Hno. apply list.Exists_exists. exists c'. split; [done|by eexists].
Qed.

(** Two pictures agree where the same chunks cover. *)
Lemma paint_agree l1 l2 q : (forall c b, byte_at c q = Some b -> c ∈ l1 <-> c ∈ l2) ->
  (forall c c' b b', c ∈ l1 -> c' ∈ l1 -> byte_at c q = Some b -> byte_at c' q = Some b' -> b = b') -> paint l1 q = paint l2 q.
Proof.
  intros Hc Hu. destruct (decide (Exists (fun c => is_Some (byte_at c q)) l1)) as [Hex|Hno].
  - apply list.Exists_exists in Hex as (c & Hin & [b Hb]). transitivity b; [|symmetry]; apply paint_one.
    + by exists c.
    + intros c' b' Hin' Hb'. exact (Hu c' c b' b Hin' Hin Hb' Hb).
    + exists c. split; [by apply (Hc c b Hb)|done].
    + intros c' b' Hin' Hb'. apply (Hc c' b' Hb') in Hin'. exact (Hu c' c b' b Hin' Hin Hb' Hb).
  - assert (Hn : forall c, c ∈ l1 -> byte_at c q = None).
    { intros c Hin. destruct (byte_at c q) eqn:E; [|done]. destruct Hno. apply list.Exists_exists. exists c. split; [done|by eexists]. }
    unfold paint. rewrite !paint_from; [done| |done]. intros c Hin. destruct (byte_at c q) eqn:E; [|done].
    apply (Hc c _ E) in Hin. rewrite Hn in E by done. done.
Qed.

Lemma byte_at_Some c q b : byte_at c q = Some b -> fst c <= q < fst c + zlen (snd c).
Proof. unfold byte_at. destruct (Z.leb_spec (fst c) q), (Z.ltb_spec q (fst c + zlen (snd c))); done. Qed.

Section Picture.
Context (limits : Limits) (base : DecoderContext) (E : gmap Z bytes) (D : Z -> bytes) (HD : file_chunks limits base E D).

Lemma chunks_elem (l : list (Z * bytes)) c : c ∈ chunks D l <-> exists y, y ∈ l /\ c = (fst y, D (fst y)).
Proof. unfold chunks. rewrite list_elem_of_fmap. split; intros (y & ? & ?); by exists y. Qed.

Lemma chunks_unique l q c c' b b' : (forall y, y ∈ l -> is_Some (E !! fst y)) ->
  c ∈ chunks D l -> c' ∈ chunks D l -> byte_at c q = Some b -> byte_at c' q = Some b' -> b = b'.
Proof.
  intros Hl Hc Hc' Hb Hb'. apply chunks_elem in Hc as (y & Hy & ->), Hc' as (y' & Hy' & ->).
  pose proof (byte_at_Some _ _ _ Hb) as H1. pose proof (byte_at_Some _ _ _ Hb') as H2. cbn [fst snd] in *.
  destruct (Z.lt_trichotomy (fst y) (fst y')) as [Hlt|[Heq|Hgt]].
  - pose proof (fc_apart _ _ _ _ HD _ _ (Hl y Hy) (Hl y' Hy') Hlt). lia.
  - rewrite Heq in Hb. congruence.
  - pose proof (fc_apart _ _ _ _ HD _ _ (Hl y' Hy') (Hl y Hy) Hgt). lia.
Qed.

(** Extents that the window does not meet may be left out. *)
Lemma window_same l1 l2 offset avail : (forall y, y ∈ l1 -> is_Some (E !! fst y)) ->
  (forall o b, o < offset + avail -> offset < o + zlen (D o) -> (o, b) ∈ l1 <-> (o, b) ∈ l2) ->
  window (chunks D l1) offset avail = window (chunks D l2) offset avail.
Proof.
  intros Hl Hc. unfold window. apply map_ext_in. intros q Hq. apply list_elem_of_In, elem_of_seqZ in Hq.
  apply paint_agree; [|intros c c' b b' H1 H2; by apply (chunks_unique l1 q c c')].
  intros c b Hb. apply byte_at_Some in Hb. rewrite !chunks_elem. split; intros ([o v] & Hin & ->); exists (o, v); cbn [fst snd] in *;
    (split; [|done]); apply (Hc o v) in Hin; done || lia.
Qed.
End Picture.

(** ** What the predecessor search returns *)

Lemma search_missing (es : list Entry) key i e : search key es = Missing (S i) -> get_idx (E := BTreeError) es (Z.of_nat i) = Ok e -> klt (e_key e) key /\ e ∈ es.
Proof.
  revert i e. induction es as [|e0 es IH]; intros i e Hs He; cbn in Hs; [done|]. destruct (cmp_key (e_key e0) key) eqn:Ec; try done.
  unfold get_idx in He, IH. rewrite Nat2Z.id in He. destruct i as [|i].
  - cbn in He. injection He as <-. split; [done|by left].
  - destruct (search key es) as [j|j] eqn:Ej; [done|]. injection Hs as ->. cbn in He.
    destruct (IH i e eq_refl) as [? ?]; [by rewrite Nat2Z.id|]. split; [done|by right].
Qed.

Lemma kids_member (T : ChunkId -> option bytes -> option bytes -> kvs -> Prop) ss hi m s c : kids T ss hi m -> (s, c) ∈ ss ->
  exists lo hi m, T c lo hi m.
Proof.
  revert m. induction ss as [|[lo c0] ss IH]; intros m Hk Hin; [by apply not_elem_of_nil in Hin|]. destruct Hk as (m1 & m2 & -> & Ht & Hk).
  apply elem_of_cons in Hin as [[= -> ->]|Hin]; [by eexists _, _, _|by apply (IH m2)].
Qed.

Lemma predecessor_below limits (x : Tx StoreError) sh n root M key k v : holds BTREE_ORDER (max_fanout limits) x sh n root M ->
  predecessor BTREE_ORDER (max_fanout limits) x root key = Ok (Some (k, v)) -> klt k key /\ key_ok k.
Proof.
  intros (m & Hix & _). unfold predecessor. destruct Hix as [[-> _]|Ht]; [done|]. rewrite (tree_nonzero _ _ _ _ _ _ _ _ _ Ht).
  assert (Hc : forall (c : option EntryPair), c = None \/ (exists k v, c = Some (k, v) /\ klt k key /\ key_ok k) ->
    forall levels n id lo hi m, tree BTREE_ORDER (max_fanout limits) x sh n id lo hi m ->
    predecessor_loop BTREE_ORDER (max_fanout limits) levels x id key c = Ok (Some (k, v)) -> klt k key /\ key_ok k).
  { intros c Hc levels. revert c Hc. clear Ht m n root. induction levels as [|levels IH]; intros c Hc n id lo hi m Ht; cbn [predecessor_loop]; [done|].
    assert (Hcand : forall cc : option EntryPair, cc = c -> Ok (E := trap BTreeError) cc = Ok (Some (k, v)) -> klt k key /\ key_ok k).
    { intros cc -> [= ->]. destruct Hc as [?|(k' & v' & [= <- <-] & ?)]; done. }
    apply tree_inv in Ht as [(es & -> & Hok & _)|(n' & c0 & es & -> & -> & Hok & _ & Hk)]; cbn [rbind].
    - destruct (search key es) as [i|[|i]] eqn:Es; try by apply Hcand.
      destruct (get_idx es (Z.of_nat i)) as [e|] eqn:Ei; cbn [rbind]; [|done]. intros [= <- <-].
      destruct (search_missing es key i e Es Ei) as [Hlt Hin]. split; [done|].
      pose proof (eok_entries _ (nok_ok _ Hok)) as Hen. cbn in Hen. rewrite list.Forall_forall in Hen. by apply Hen.
    - pose proof (eok_entries _ (nok_ok _ Hok)) as Hen. cbn in Hen. rewrite list.Forall_forall in Hen.
      assert (Hchild : forall (e : Entry) (cc : option EntryPair), e ∈ es -> cc = None \/ (exists k v, cc = Some (k, v) /\ klt k key /\ key_ok k) ->
        (let! c1 := child_id e in predecessor_loop BTREE_ORDER (max_fanout limits) levels x c1 key cc) = Ok (Some (k, v)) -> klt k key /\ key_ok k).
      { intros e cc Hin Hcc. rewrite child_id_ok by by apply Hen. cbn [rbind].
        destruct (kids_member _ _ _ _ (Some (e_key e)) (e_value e) Hk) as (lo' & hi' & m' & Ht'); [|by apply (IH cc Hcc _ _ _ _ _ Ht')].
        right. by apply (list_elem_of_fmap_2 (fun e => (Some (e_key e), e_value e))). }
      destruct (search key es) as [i|[|i]] eqn:Es.
      + destruct (get_idx es (Z.of_nat i)) as [e|] eqn:Ei; cbn [rbind]; [|done]. apply Hchild; [|done].
        unfold get_idx in Ei. apply ok_or_Ok_inv in Ei. by apply list_elem_of_lookup_2 in Ei.
      + destruct (kids_member _ _ _ _ lo c0 Hk) as (lo' & hi' & m' & Ht'); [by left|]. by apply (IH c Hc _ _ _ _ _ Ht').
      + destruct (get_idx es (Z.of_nat i)) as [e|] eqn:Ei; cbn [rbind]; [|done]. destruct (search_missing es key i e Es Ei) as [Hlt Hin].
        apply Hchild; [done|]. right. exists (e_key e), (e_value e). split_and!; try done. by apply Hen. }
  apply (Hc None (or_introl eq_refl) MAX_LEVELS n root None None m Ht).
Qed.

Lemma window_start_le limits x sh n r (E : gmap Z bytes) offset s0 : is_u64 offset ->
  extents BTREE_ORDER (max_fanout limits) x sh n r E -> window_start limits x r offset = Ok s0 -> is_u64 s0 /\ s0 <= offset.
Proof.
  intros Ho (M & HM & _). unfold window_start, covering. set (key := extent_key (saturating_add 64 offset 1)).
  destruct (predecessor BTREE_ORDER (max_fanout limits) x r key) as [[[k v]|]|] eqn:Ep; cbn [rbind of_tree map_err]; [| |done].
  2: { by intros [= <-]. }
  destruct (predecessor_below _ _ _ _ _ _ _ _ _ HM Ep) as [Hlt [Hw _]]. unfold key_offset.
  destruct (Nat.eqb_spec (length k) 8) as [Hl|]; cbn [rbind map_err]; [|done]. intros [= <-].
  assert (Hk : k = extent_key (from_be k) /\ is_u64 (from_be k)).
  { unfold extent_key, to_be, from_be. pose proof (from_le_bound (rev k)) as Hb. unfold zlen in Hb. rewrite length_rev, Hl in Hb. split.
    - assert (Hr : to_le 8 (from_le (rev k)) = rev k).
      { rewrite <-Hl, <-length_rev. by apply to_le_from_le, Forall_rev. }
      by rewrite Hr, rev_involutive.
    - apply Hb. by apply Forall_rev. }
  destruct Hk as [Ek Hku]. split; [done|]. rewrite Ek in Hlt. unfold key, saturating_add in Hlt. rewrite extent_key_lt in Hlt by (width || done). lia.
Qed.

Section ReadFile.
Context (limits : Limits) (sh : Shape) (x : Tx StoreError) (root : Root) (n : nat) (I : gmap Z Inode) (N : Names) (C : gmap bytes bytes).
#[local] Abbreviation store := {| txn_tx := x; txn_root := root; txn_features := 0 |}.
Context (HF : fs limits sh store n I N) (Hpend : tx_pending x = ∅) (Hn : (n <= 128)%nat).
Context (HC : holds BTREE_ORDER (max_fanout limits) x sh n (chunk_index_root root) C).
Context (rans : bytes -> bytes -> Z -> RansCodec -> Z -> result MaterializeError bytes).
Context (universe : UniverseId -> bytes -> Z -> Z -> Z -> result MaterializeError bytes).
Context (Hio : forall id, exists o, tx_fetch x id = Ok o).
#[local] Abbreviation base := (Store_context limits x root rans universe).

(** What a batch of extents decodes to. *)
Lemma batch_decodes E D (l : list (Z * bytes)) : file_chunks limits base E D -> (forall o b, (o, b) ∈ l -> E !! o = Some b) ->
  exists descs, Forall2 (fun y dd => Descriptor.decode limits (snd y) = Ok dd) l descs /\
    decode_to limits base (zip (map fst l) descs) (chunks D l).
Proof.
  intros HD. induction l as [|[o b] l IH]; intros Hl; [exists []; by split; constructor|].
  destruct (fc_decodes _ _ _ _ HD o b) as (dd & E1 & E2); [apply Hl; by left|]. destruct IH as (descs & H1 & H2); [intros; apply Hl; by right|].
  exists (dd :: descs). split; [by constructor|]. by constructor.
Qed.

(** A batch of the extents of a file, materialized: its picture. *)
Lemma range_batched_ok E D out worker_pool granted offset avail : file_chunks limits base E D ->
  (forall o b, (o, b) ∈ out -> E !! o = Some b) -> 0 <= avail -> offset + avail < 2 ^ 64 ->
  materialize_range_batched limits x root base worker_pool granted None out offset (offset + avail) avail =
    Ok (window (chunks D out) offset avail).
Proof.
  intros HD Hout Ha Hend. destruct (batch_decodes E D out HD Hout) as (descs & H1 & H2). unfold materialize_range_batched.
  destruct (prepare_ok limits sh x root n C Hn HC rans universe Hio out descs offset (offset + avail) avail H1) as (p & -> & P1 & P2 & P3 & P4 & P5 & P6).
  cbn [rbind]. rewrite <-P1, <-P2, <-P6 in H2. rewrite <-P3, <-P5 in *.
  assert (Hl : length (pd_starts p) = length (pd_descs p)) by (rewrite P1, P2, length_map; by eapply Forall2_length).
  apply decode_window_ok; try done. by rewrite P4.
Qed.

Lemma read_file_ok ino i r E D offset len worker_pool granted fuel m s0 :
  is_u64 ino -> I !! ino = Some i -> i_data i = IFile r -> is_file i = true ->
  extents BTREE_ORDER (max_fanout limits) x sh m r E -> (m < fuel)%nat -> file_chunks limits base E D ->
  is_u64 offset -> is_u64 len -> window_start limits x r offset = Ok s0 ->
  exists l, listing E l /\
    read_file limits x root base worker_pool granted fuel ino offset len =
      Some (Ok (window (chunks D (base.filter (fun y : Z * bytes => s0 <= y.1) l)) offset (Z.min (Z.max (i_size i - offset) 0) len))).
Proof.
  intros Hu Hi Hr Hf HE Hm HD Ho Hlen Hs0. set (avail := Z.min (Z.max (i_size i - offset) 0) len).
  destruct (fs_kinds _ _ _ _ _ _ HF ino i Hi) as (_ & Hiw & _). pose proof (iw_size _ Hiw) as Hsz.
  assert (Hav : 0 <= avail /\ offset + avail < 2 ^ 64) by (unfold avail; width).
  unfold read_file. rewrite (get_inode_ok limits sh x root n I N HF Hpend Hn ino Hu), Hi. cbn [rbind ok_or]. rewrite Hf. cbn [negb]. rewrite Hr. cbn [rbind].
  rewrite Hs0. cbn [rbind]. fold avail. replace (saturating_add 64 offset avail) with (offset + avail) by (unfold saturating_add; lia).
  destruct (window_start_le limits x sh m r E offset s0 Ho HE Hs0) as [Hs0u Hs0le].
  destruct (scan_extents_ok limits sh x m r E s0 (offset + avail) fuel Hpend Hs0u ltac:(width) HE Hm) as (l & out & Hl & Hlu & -> & Hp).
  exists l. split; [done|]. cbn [mbind option_bind rbind]. f_equal.
  assert (Hout : forall o b, (o, b) ∈ out -> E !! o = Some b).
  { intros o b Hin. rewrite Hp in Hin. apply list_elem_of_filter in Hin as [_ Hin]. by apply Hl in Hin. }
  rewrite (range_batched_ok E D out worker_pool granted offset avail HD Hout) by apply Hav. f_equal.
  apply (window_same limits base E D HD).
  - intros [o b] Hin. eexists. by apply Hout.
  - intros o b Ho1 Ho2. rewrite Hp, !list_elem_of_filter. cbn [fst]. split; [by intros [[? ?] ?]|intros [? ?]; split; [lia|done]].
Qed.

(** C13. [read_file].  A read of a regular file whose extents decode and lie
    apart succeeds and returns the requested window, cut at the file size:
    exactly the extents at or behind the start that [covering] gives, painted
    over zeros, whatever the height of the tree, the prefetch and the decode
    path.  This is the content of the file when no extent before that start
    reaches into the window; C22 shows a read for which one does. *)
Theorem read_file_exact ino i r E D offset len worker_pool granted fuel m s0 :
  is_u64 ino -> I !! ino = Some i -> i_data i = IFile r -> is_file i = true ->
  extents BTREE_ORDER (max_fanout limits) x sh m r E -> (m < fuel)%nat -> file_chunks limits base E D ->
  is_u64 offset -> is_u64 len -> window_start limits x r offset = Ok s0 ->
  exists l, listing E l /\
    let avail := Z.min (Z.max (i_size i - offset) 0) len in
    let behind := base.filter (fun y : Z * bytes => s0 <= y.1) l in
    read_file limits x root base worker_pool granted fuel ino offset len = Some (Ok (window (chunks D behind) offset avail)) /\
    ((forall o, is_Some (E !! o) -> o < s0 -> o + zlen (D o) <= offset) ->
     window (chunks D behind) offset avail = window (chunks D l) offset avail).
Proof.
  intros Hu Hi Hr Hf HE Hm HD Ho Hlen Hs0.
  destruct (read_file_ok ino i r E D offset len worker_pool granted fuel m s0 Hu Hi Hr Hf HE Hm HD Ho Hlen Hs0) as (l & Hl & E1).
  exists l. split; [done|]. split; [exact E1|]. intros Hno. apply (window_same limits base E D HD).
  - intros [o b] Hin. apply list_elem_of_filter in Hin as [_ Hin]. apply Hl in Hin. by eexists.
  - intros o b Ho1 Ho2. rewrite list_elem_of_filter. cbn [fst]. split; [by intros [_ ?]|]. intros Hin. split; [|done].
    destruct (Z.le_gt_cases s0 o); [done|]. apply Hl in Hin. pose proof (Hno o ltac:(by eexists) ltac:(done)). lia.
Qed.

(** A tree of one leaf: where the scan starts. *)
Lemma window_start_leaf r (E : gmap Z bytes) offset : is_u64 offset -> offset < 2 ^ 64 - 1 ->
  extents BTREE_ORDER (max_fanout limits) x sh 0 r E -> is_Some (E !! (offset + 1)) -> window_start limits x r offset = Ok offset.
Proof.
  intros Ho Hlt (M & (m & Hix & ->) & HX) Hs. unfold window_start, covering. replace (saturating_add 64 offset 1) with (offset + 1) by (unfold saturating_add; lia).
  destruct Hix as [[-> ->]|Ht]; [done|]. apply tree_inv in Ht as [(es & Ef & Hok & _ & -> & _)|(n' & ? & ? & ? & _)]; [|done].
  rewrite (predecessor_leaf _ _ _ _ es _ Ef (nok_sorted _ Hok)). cbn [rbind of_tree map_err].
  rewrite decide_True; [done|]. rewrite <-to_map_lookup. rewrite (extents_lookup E _ _ HX) by width. done.
Qed.

(** C22. The last byte of an extent that another extent follows.  In a file
    whose tree is one leaf, a read that starts at the last byte before an
    extent asks for the predecessor of that extent's key, which the leaf
    search answers with nothing; the extent that holds the byte is left out,
    and the read returns zero for it. *)
Theorem read_loses_byte ino i r E D offset o worker_pool granted fuel :
  is_u64 ino -> I !! ino = Some i -> i_data i = IFile r -> is_file i = true -> (0 < fuel)%nat ->
  extents BTREE_ORDER (max_fanout limits) x sh 0 r E -> file_chunks limits base E D ->
  is_u64 offset -> offset < i_size i -> is_Some (E !! (offset + 1)) ->
  is_Some (E !! o) -> o < offset -> o + zlen (D o) = offset + 1 ->
  read_file limits x root base worker_pool granted fuel ino offset 1 = Some (Ok [0]) /\
  forall l, listing E l -> D o !! Z.to_nat (offset - o) = Some (paint (chunks D l) offset).
Proof.
  intros Hu Hi Hr Hf Hfu HE HD Ho Hsz Hnext [b Hb] Hlt Hend.
  destruct (fs_kinds _ _ _ _ _ _ HF ino i Hi) as (_ & Hiw & _). pose proof (iw_size _ Hiw) as Hszw.
  assert (Hs0 : window_start limits x r offset = Ok offset) by (apply (window_start_leaf r E); done || width).
  destruct (read_file_ok ino i r E D offset 1 worker_pool granted fuel 0 offset Hu Hi Hr Hf HE Hfu HD Ho ltac:(width) Hs0) as (l & Hl & E1).
  assert (Hcov : byte_at (o, D o) offset = D o !! Z.to_nat (offset - o)).
  { unfold byte_at. cbn [fst snd]. destruct (Z.leb_spec o offset), (Z.ltb_spec offset (o + zlen (D o))); done || lia. }
  destruct (lookup_lt_is_Some_2 (D o) (Z.to_nat (offset - o))) as [v Hv]; [unfold zlen in *; lia|]. split.
  - rewrite E1. do 2 f_equal. replace (Z.min (Z.max (i_size i - offset) 0) 1) with 1 by lia. unfold window. change (seqZ offset 1) with [0 + offset].
    cbn [map]. f_equal. apply paint_from. intros c Hc. apply chunks_elem in Hc as ([o' b'] & Hin & ->). apply list_elem_of_filter in Hin as [Hge Hin].
    cbn [fst snd] in *. destruct (byte_at (o', D o') (0 + offset)) eqn:Eb; [|done]. apply byte_at_Some in Eb. cbn [fst snd] in Eb.
    assert (o' = offset) as -> by lia. apply Hl in Hin. pose proof (fc_apart _ _ _ _ HD o offset ltac:(by eexists) ltac:(by eexists) Hlt). lia.
  - intros l' Hl'. rewrite Hv. f_equal. symmetry. apply paint_one.
    + exists (o, D o). split; [|by rewrite Hcov]. apply chunks_elem. exists (o, b). split; [by apply Hl'|done].
    + intros c b' Hc Hb'. eapply (chunks_unique limits base E D HD l'); [|exact Hc| |exact Hb'|by rewrite Hcov].
      * intros [o' b''] Hin. apply Hl' in Hin. by eexists.
      * apply chunks_elem. exists (o, b). split; [by apply Hl'|done].
Qed.
End ReadFile.

(** * When an extent does not decode *)

(** A batch in which one extent fails to decode, behind extents that do.
    Decoded inline the read returns the extent's error, when the extent meets
    the window at all; the worker pool's assembly takes every result for a
    decoded extent and panics. *)
Theorem decode_failure_paths limits base (p : PreparedRead) pre s desc post chunks_ e :
  let ctx := PrefetchContext limits base (pd_objects p) (Some (pd_descriptors p)) None in
  zip (pd_starts p) (pd_descs p) = pre ++ (s, desc) :: post -> 1 < zlen (pd_descs p) ->
  decode_to limits ctx pre chunks_ ->
  @materialize ctx limits desc 0 (max_decode_work limits) (Prelude.vec 0 (Representation_len desc)) = Err (Error e) ->
  0 <= pd_avail p -> pd_end p = pd_offset p + pd_avail p -> pd_end p < 2 ^ 64 ->
  (forall granted, decode_prepared limits base true granted p = Err Panic) /\
  (Z.max s (pd_offset p) < Z.min (saturating_add 64 s (Representation_len desc)) (pd_end p) ->
   decode_prepared limits base false 1 p = Err (Error (StoreDescriptor (OfMaterialized e)))).
Proof.
  intros ctx Hz Hn Hpre He Ha Hend Hw. split.
  - intros granted. unfold decode_prepared. rewrite <-(window_empty (pd_offset p)). fold ctx. rewrite Hend in *.
    destruct (Z.eqb_spec (zlen (pd_descs p)) 0); [lia|]. destruct (Z.eqb_spec (zlen (pd_descs p)) 1); [lia|]. rewrite Hz, map_app.
    assert (Hgo : forall l, assemble_pool (map (fun '(start, desc) => decode_extent limits ctx start desc) pre ++
        map (fun '(start, desc) => decode_extent limits ctx start desc) ((s, desc) :: post)) (pd_offset p) (pd_offset p + pd_avail p) (pd_avail p)
        (window l (pd_offset p) (pd_avail p)) = Err Panic); [|apply Hgo].
    clear Hz. induction Hpre as [|[s1 d1] [s2 c1] pre cs [[= ->] Hd] _ IH]; intros l; cbn [map app assemble_pool].
    + unfold decode_extent at 1. by rewrite He.
    + rewrite (decode_extent_ok limits ctx s2 d1 c1 Hd). rewrite assemble_ok by done. cbn [rbind]. apply IH.
  - intros Hmeet. unfold decode_prepared. rewrite <-(window_empty (pd_offset p)). fold ctx. rewrite Hend in *.
    destruct (Z.eqb_spec (zlen (pd_descs p)) 0); [lia|]. destruct (Z.eqb_spec (zlen (pd_descs p)) 1); [lia|]. rewrite Z.min_r by lia.
    change (1 <=? 1) with true. cbv iota. rewrite Hz. clear Hz. generalize (@nil (Z * bytes)).
    induction Hpre as [|[s1 d1] [s2 c1] pre cs [[= ->] Hd] _ IH]; intros l; cbn [app decode_inline].
    + unfold materialize_into_window. destruct (Z.leb_spec (Z.min (saturating_add 64 s (Representation_len desc)) (pd_offset p + pd_avail p))
        (Z.max s (pd_offset p))); [lia|]. rewrite He. done.
    + cbn [fst snd] in *. rewrite (into_window_ok limits ctx (pd_offset p) (pd_avail p) Ha Hw l s2 d1 c1 Hd). cbn [rbind]. apply IH.
Qed.

(** * Examples *)

(** A file of eight bytes in two extents. *)
Definition two_extents : outcome Txn :=
  let! t := put_inode_in_tx mix_hash Limits_default txn_none 2 inode_a in
  let! t := put_extent_in_tx mix_hash Limits_default t (clock 0) 2 0 (Inline [1; 2; 3; 4]) in
  let! t := put_extent_in_tx mix_hash Limits_default t (clock 0) 2 4 (Inline [5; 6; 7; 8]) in
  let! i := inode_for_tx Limits_default t 2 in
  put_inode_in_tx mix_hash Limits_default t 2 (with_size i 8).
Definition two_txn : Txn := Eval vm_compute in match two_extents with Ok t => t | Err _ => txn_none end.
Definition two_inode : Inode := Eval vm_compute in match inode_for_tx Limits_default two_txn 2 with Ok i => i | Err _ => inode_a end.
Definition two_root : ChunkId := Eval vm_compute in match i_data two_inode with IFile r => r | _ => [] end.
Definition two_store : Tx StoreError := settled (txn_tx two_txn).
Definition two_map : gmap Z bytes :=
  {[ 0 := match Descriptor.encode (Inline [1; 2; 3; 4]) with Ok b => b | Err _ => [] end;
     4 := match Descriptor.encode (Inline [5; 6; 7; 8]) with Ok b => b | Err _ => [] end ]}.
Definition two_chunk (off : Z) : bytes := if off =? 0 then [1; 2; 3; 4] else [5; 6; 7; 8].
Definition two_base : DecoderContext :=
  Store_context Limits_default two_store (txn_root two_txn) (fun _ _ _ _ _ => Err RangeOutOfBounds) (fun _ _ _ _ _ => Err RangeOutOfBounds).

Lemma two_inode_wf : inode_wf two_inode.
Proof.
  assert (E : exists b, wf_bytes b /\ zlen b < 2 ^ 63 /\ Inode_decode b = Ok two_inode).
  { exists (inode_image two_inode). split_and!; [apply (bool_decide_unpack _); by vm_compute|by vm_compute|by vm_compute]. }
  destruct E as (b & Hw & Hl & Hd). by apply (inode_decode_bwd b).
Qed.

Lemma two_fs : fs Limits_default full_shape {| txn_tx := two_store; txn_root := txn_root two_txn; txn_features := 0 |} 0 {[ 2 := two_inode ]} ∅.
Proof.
  apply (fs_settled Limits_default full_shape two_txn). split.
  - done.
  - exists {[ 2 := mix_hash (inode_image two_inode) ]}. split.
    + exists (<[extent_key 2 := mix_hash (inode_image two_inode)]> ∅). split; [eval_holds [(extent_key 2, mix_hash (inode_image two_inode))]|].
      apply extents_insert; [|width]. split; [intros o [v Hv]; done|]. intros k v. split; [done|intros (o & _ & _ & Ho); done].
    + apply map_Forall2_singleton. split_and!; [apply mix_hash_wf|apply two_inode_wf|]. by vm_compute.
  - intros dir i r Hi Hr. apply lookup_singleton_Some in Hi as [<- <-]. done.
  - intros dir name e He. done.
  - intros ino i Hi. apply lookup_singleton_Some in Hi as [<- <-]. split; [width|]. split; [apply two_inode_wf|done].
Qed.

Lemma two_extents_hold : extents BTREE_ORDER (max_fanout Limits_default) two_store full_shape 0 two_root two_map.
Proof.
  exists (<[extent_key 0 := two_map !!! 0]> (<[extent_key 4 := two_map !!! 4]> ∅)). split.
  - eval_holds [(extent_key 0, two_map !!! 0); (extent_key 4, two_map !!! 4)].
  - unfold two_map. rewrite lookup_total_insert_eq, lookup_total_insert_ne, lookup_total_singleton_eq by done.
    apply extents_insert; [apply extents_insert; [|width]|width]. split; [intros o [v Hv]; done|].
    intros k v. split; [done|intros (o & _ & _ & Ho); done].
Qed.

Lemma two_file : file_chunks Limits_default two_base two_map two_chunk.
Proof.
  assert (Hk : forall off, is_Some (two_map !! off) -> off = 0 \/ off = 4).
  { intros off [b Hb]. unfold two_map in Hb. rewrite lookup_insert_Some, lookup_singleton_Some in Hb. naive_solver. }
  split.
  - intros off b Hb. unfold two_map in Hb. rewrite lookup_insert_Some, lookup_singleton_Some in Hb. destruct Hb as [[<- <-]|[_ [<- <-]]].
    + exists (Inline [1; 2; 3; 4]). split; [by vm_compute|]. split; [|done]. eexists. by vm_compute.
    + exists (Inline [5; 6; 7; 8]). split; [by vm_compute|]. split; [|done]. eexists. by vm_compute.
  - intros off off' H1 H2 Hlt. apply Hk in H1, H2. destruct H1 as [->| ->], H2 as [->| ->]; try lia. done.
Qed.

Lemma two_chunk_index : holds BTREE_ORDER (max_fanout Limits_default) two_store full_shape 0 (chunk_index_root (txn_root two_txn)) ∅.
Proof. exists []. split; [left; by vm_compute|done]. Qed.

Lemma two_io (id : ChunkId) : exists o, tx_fetch two_store id = Ok o.
Proof. cbn. unfold fetch_pending_or_store. destruct (_ !! id); by eexists. Qed.

(** Six bytes from offset 2, across the two extents; and the byte at offset 3. *)
Example two_read :
  read_file Limits_default two_store (txn_root two_txn) two_base false 4 2 2 2 6 = Some (Ok [3; 4; 5; 6; 7; 8]) /\
  read_file Limits_default two_store (txn_root two_txn) two_base true 4 2 2 0 100 = Some (Ok [1; 2; 3; 4; 5; 6; 7; 8]) /\
  read_file Limits_default two_store (txn_root two_txn) two_base false 4 2 2 3 1 = Some (Ok [0]).
Proof. by vm_compute. Qed.

Lemma read_file_exact_witness : exists l, listing two_map l /\
  read_file Limits_default two_store (txn_root two_txn) two_base false 4 2 2 2 6 = Some (Ok (window (chunks two_chunk l) 2 6)).
Proof.
  destruct (read_file_exact Limits_default full_shape two_store (txn_root two_txn) 0 {[ 2 := two_inode ]} ∅ ∅ two_fs eq_refl ltac:(lia)
    two_chunk_index _ _ two_io 2 two_inode two_root two_map two_chunk 2 6 false 4 2%nat 0%nat 0
    ltac:(width) eq_refl eq_refl eq_refl two_extents_hold ltac:(lia) two_file ltac:(width) ltac:(width) ltac:(by vm_compute)) as (l & Hl & E & Hw).
  exists l. split; [exact Hl|]. change (Z.min (Z.max (i_size two_inode - 2) 0) 6) with 6 in *. rewrite <-Hw; [exact E|].
  intros o [b Hb] Ho. unfold two_map in Hb. rewrite lookup_insert_Some, lookup_singleton_Some in Hb. destruct Hb as [[<- _]|[_ [<- _]]]; lia.
Defined.

Lemma read_loses_byte_witness :
  read_file Limits_default two_store (txn_root two_txn) two_base false 4 1 2 3 1 = Some (Ok [0]) /\
  forall l, listing two_map l -> paint (chunks two_chunk l) 3 = 4.
Proof.
  destruct (read_loses_byte Limits_default full_shape two_store (txn_root two_txn) 0 {[ 2 := two_inode ]} ∅ ∅ two_fs eq_refl ltac:(lia)
    two_chunk_index _ _ two_io 2 two_inode two_root two_map two_chunk 3 0 false 4 1%nat
    ltac:(width) eq_refl eq_refl eq_refl ltac:(lia) two_extents_hold two_file ltac:(width) ltac:(by vm_compute) ltac:(by eexists) ltac:(by eexists)
    ltac:(lia) ltac:(by vm_compute)) as [E Hp].
  split; [exact E|]. intros l Hl. specialize (Hp l Hl). cbn in Hp. by injection Hp.
Defined.

(** A prepared read of two inline extents. *)
Definition two_prepared : PreparedRead :=
  {| pd_starts := [0; 4]; pd_descs := [Inline [1; 2; 3; 4]; Inline [5; 6; 7; 8]]; pd_objects := ∅; pd_descriptors := ∅;
     pd_offset := 2; pd_end := 7; pd_avail := 5 |}.

Lemma decode_prepared_window_witness :
  decode_prepared Limits_default two_base false 8 two_prepared = Ok [3; 4; 5; 6; 7] /\
  decode_prepared Limits_default two_base true 8 two_prepared = Ok [3; 4; 5; 6; 7].
Proof.
  assert (H : forall pool, decode_prepared Limits_default two_base pool 8 two_prepared = Ok (window [(0, [1; 2; 3; 4]); (4, [5; 6; 7; 8])] 2 5)).
  { intros pool. apply (decode_prepared_window Limits_default two_base pool 8 two_prepared [(0, [1; 2; 3; 4]); (4, [5; 6; 7; 8])]); try done.
    repeat constructor; cbn [fst snd]; eexists; by vm_compute. }
  split; rewrite H; by vm_compute.
Defined.

(** The second extent refers to an object that is not there. *)
Definition broken_prepared : PreparedRead :=
  {| pd_starts := [0; 4]; pd_descs := [Inline [1; 2; 3; 4]; Raw (mix_hash []) 4]; pd_objects := ∅; pd_descriptors := ∅;
     pd_offset := 0; pd_end := 8; pd_avail := 8 |}.

Lemma decode_failure_paths_witness :
  decode_prepared Limits_default two_base true 8 broken_prepared = Err Panic /\
  decode_prepared Limits_default two_base false 1 broken_prepared =
    Err (Error (StoreDescriptor (OfMaterialized (Context.MissingObject (mix_hash []))))).
Proof.
  destruct (decode_failure_paths Limits_default two_base broken_prepared [(0, Inline [1; 2; 3; 4])] 4 (Raw (mix_hash []) 4) [] [(0, [1; 2; 3; 4])]
    (Context.MissingObject (mix_hash [])) eq_refl ltac:(by vm_compute) ltac:(repeat constructor; cbn [fst snd]; eexists; by vm_compute)
    ltac:(by vm_compute) ltac:(done) eq_refl ltac:(done)) as [H1 H2].
  split; [apply H1|]. apply H2. by vm_compute.
Defined.
