(* ===== verification/FileWriteSpec.v ===== *)
(** The write path against a file as an array of bytes: composing a write puts
    its bytes over what the file holds, committing the extents of the composed
    chunks makes a read return them, truncation cuts the array; and where the
    code does not do so. *)
From stdpp Require Import gmap sorting.
From Stdlib Require String.
From S2P Require Import Prelude Codec Repr Version SegRecord Inode Superblock Descriptor Context Streams Materialize Candidate Keys BTree StoreError RootObj BTreeNode BTreeSpec BTreeCheck IndexSpec RemoveSpec ScanSpec ExtentTree ExtentSpec Directory Transaction TransactionSpec Namespace NamespaceSpec Mutation Epoch Checkpoint EpochSpec CheckpointSpec FileRead FileReadSpec FileWrite.
Import String.StringSyntax.

(** * Composing *)

(** Byte [i], zero where there is none. *)
Definition byte_or_zero (b : bytes) (i : Z) : Z := default 0 (b !! Z.to_nat i).

(** The bytes of the chunk at [off] after writing [data] at [offset] over [old]. *)
Definition over (old : bytes) (offset : Z) (data : bytes) (off len : Z) : bytes :=
  map (fun p => if (offset <=? p) && (p <? offset + zlen data) then byte_or_zero data (p - offset) else byte_or_zero old (p - off))
    (seqZ off len).

Lemma zlen_over old offset data off len : 0 <= len -> zlen (over old offset data off len) = len.
Proof. intros. unfold over, zlen. rewrite length_map, length_seqZ. lia. Qed.

Lemma slice_lookup {A} (pos n : nat) (l : list A) i : slice pos n l !! i = if decide (i < n)%nat then l !! (pos + i)%nat else None.
Proof.
  unfold slice. case_decide.
  - rewrite lookup_take_lt by done. apply lookup_drop.
  - rewrite lookup_take_ge by lia. done.
Qed.

Lemma vec_lookup (n : Z) (i : nat) : (i < Z.to_nat n)%nat -> Prelude.vec 0 n !! i = Some 0.
Proof. intros. by apply lookup_replicate_2. Qed.

(** Two writes into a zeroed chunk, cut. *)
Lemma spliced_over old offset data off cc len :
  0 <= off -> 0 <= offset -> 0 <= len <= cc -> off < offset + zlen data -> offset < off + cc ->
  let s := Z.max offset off - off in
  let e := Z.min (offset + zlen data) (off + cc) - off in
  let n := Z.min (zlen old) cc in
  slice 0 (Z.to_nat len) (splice (Z.to_nat s) (slice (Z.to_nat (s + off - offset)) (Z.to_nat (e - s)) data)
    (splice 0 (slice 0 (Z.to_nat n) old) (Prelude.vec 0 cc))) = over old offset data off len.
Proof.
  intros Hoff Hofs Hlen H1 H2 s e n. pose proof (zlen_nonneg data). pose proof (zlen_nonneg old).
  assert (Hin : zlen (splice 0 (slice 0 (Z.to_nat n) old) (Prelude.vec 0 cc)) = cc).
  { change (splice 0) with (@splice Z (Z.to_nat 0)). change (slice 0) with (@slice Z (Z.to_nat 0)).
    rewrite zlen_splice by (rewrite ?zlen_slice, ?zlen_vec; lia). apply zlen_vec. lia. }
  assert (Hsl : zlen (slice (Z.to_nat (s + off - offset)) (Z.to_nat (e - s)) data) = e - s) by (apply zlen_slice; lia).
  assert (Hsn : zlen (slice 0 (Z.to_nat n) old) = n).
  { change (slice 0) with (@slice Z (Z.to_nat 0)). apply zlen_slice; lia. }
  apply list_eq. intros i. rewrite slice_lookup. unfold over. rewrite list_lookup_fmap. case_decide as Hi.
  2: { rewrite lookup_seqZ_ge by lia. done. }
  rewrite lookup_seqZ_lt by lia. cbn [fmap option_fmap option_map]. rewrite Nat.add_0_l.
  rewrite splice_lookup by (unfold zlen in *; lia). case_decide as Hs.
  - rewrite slice_lookup, decide_True by (unfold zlen in *; lia).
    destruct (Z.leb_spec offset (off + Z.of_nat i)), (Z.ltb_spec (off + Z.of_nat i) (offset + zlen data)); cbn [andb]; try (unfold zlen in *; lia).
    unfold byte_or_zero. replace (Z.to_nat (s + off - offset) + (i - Z.to_nat s))%nat with (Z.to_nat (off + Z.of_nat i - offset)) by lia.
    destruct (lookup_lt_is_Some_2 data (Z.to_nat (off + Z.of_nat i - offset))) as [b ->]; [unfold zlen in *; lia|]. done.
  - assert (Hno : (offset <=? off + Z.of_nat i) && (off + Z.of_nat i <? offset + zlen data) = false).
    { destruct (Z.leb_spec offset (off + Z.of_nat i)), (Z.ltb_spec (off + Z.of_nat i) (offset + zlen data)); try done. unfold zlen in *. lia. }
    rewrite Hno. rewrite splice_lookup by (pose proof (zlen_vec 0 cc); unfold zlen in *; lia).
    unfold byte_or_zero. replace (Z.to_nat (off + Z.of_nat i - off)) with i by lia. case_decide as Hc.
    + rewrite slice_lookup, decide_True by (unfold zlen in *; lia). rewrite Nat.sub_0_r, Nat.add_0_l.
      destruct (lookup_lt_is_Some_2 old i) as [b ->]; [unfold zlen in *; lia|]. done.
    + rewrite vec_lookup by lia. rewrite lookup_ge_None_2 by (unfold zlen in *; lia). done.
Qed.

Section Compose.
Context {hash : ContentHash} (limits : Limits) (sh : Shape) (x : Tx StoreError) (root : Root) (n : nat).
Context (I : gmap Z Inode) (N : Names) (C : gmap bytes bytes).
#[local] Abbreviation store := {| txn_tx := x; txn_root := root; txn_features := 0 |}.
Context (HF : fs limits sh store n I N) (Hpend : tx_pending x = ∅) (Hn : (n <= 128)%nat).
Context (HC : holds BTREE_ORDER (max_fanout limits) x sh n (chunk_index_root root) C).
Context (read : Z -> Z -> Z -> outcome bytes).
#[local] Abbreviation cc := (chunk_class limits).
#[local] Abbreviation content_id := (@ChunkId_of hash).

(** ** What the search is given can always be built *)

Lemma walk_depth_ok levels id d visited deepest : exists r, walk_depth limits x root levels id d visited deepest = Ok r.
Proof.
  revert id d visited deepest. induction levels as [|levels IH]; intros id d visited deepest; cbn [walk_depth]; [by eexists|].
  destruct (match visited !! id with Some vd => d <=? vd | None => false end); [by eexists|].
  rewrite (chunk_descriptor_ok limits sh x root n C Hn HC). cbn [ok_flat rbind].
  destruct (C !! id) as [b|]; [|by eexists]. destruct (Descriptor.decode limits b) as [desc|]; [|by eexists].
  generalize (<[id := d]> visited) (if bool_decide (chain_nexts desc = []) then deepest else Z.max deepest (saturating_add 8 d 1)).
  induction (rev (chain_nexts desc)) as [|i ids IHids]; intros v m; [by eexists|].
  destruct (IH i (saturating_add 8 d 1) v m) as ([v' m'] & ->). cbn [rbind]. apply IHids.
Qed.

Lemma chain_depth_ok desc : exists d, chain_depth limits x root desc = Ok d.
Proof.
  assert (Hw : forall id, exists d, walk limits x root (max_reference_depth limits) id = Ok d).
  { intros id. unfold walk. destruct (walk_depth_ok (Z.to_nat (max_reference_depth limits)) id 0 ∅ 0) as ([v m] & ->). by eexists. }
  unfold chain_depth, depth_over. destruct desc; try by eexists.
  1, 2, 3: match goal with |- context [walk _ _ _ _ ?i] => destruct (Hw i) as [d ->]; by eexists end.
  assert (Hz : exists d, (if ChunkId_is_zero dictionary then Ok 0 else walk limits x root (max_reference_depth limits) dictionary) = Ok d).
  { destruct (ChunkId_is_zero _); [by eexists|apply Hw]. }
  destruct Hz as [d ->]. destruct (Hw shared) as [s ->]. by eexists.
Qed.

Lemma base_from_bytes_ok b : exists o, base_chunk_from_bytes limits x root b = Ok o.
Proof.
  unfold base_chunk_from_bytes. rewrite (chunk_descriptor_ok limits sh x root n C Hn HC). cbn [rbind].
  destruct (C !! content_id b); [|by eexists]. destruct (Descriptor.decode limits _) as [desc|]; [|by eexists].
  destruct (chain_depth_ok desc) as [d ->]. by eexists.
Qed.

Lemma base_at_ok ino offset len : is_u64 ino -> read ino offset len <> Err Panic -> exists o, base_chunk_at limits x root read ino offset len = Ok o.
Proof.
  intros Hu Hr. unfold base_chunk_at. destruct (len =? 0); [by eexists|].
  rewrite (get_inode_ok limits sh x root n I N HF Hpend Hn ino Hu). cbn [ok_flat rbind]. destruct (I !! ino); [|by eexists].
  destruct (read ino offset len) as [[|v b]|[e|]]; try done; try by eexists. apply base_from_bytes_ok.
Qed.

(** ** One chunk *)

Context (ino : Z) (Hino : is_u64 ino) (Hread : forall offset len, is_u64 offset -> is_u64 len -> read ino offset len <> Err Panic).

(** What the chunk at [off] holds before the write: the batch's bytes, or as
    much of the file as the store has. *)
Definition holds_before (overlay : option (gmap Z bytes)) (off old_size : Z) (old : bytes) : Prop :=
  match overlay ≫= (.!! off) with
  | Some b => old = b
  | None => if off <? old_size then read ino off (Z.min (off + cc) old_size - off) = Ok old /\ zlen old = Z.min (off + cc) old_size - off
            else old = []
  end.

Lemma chunk_prefix_ok b : 0 <= cc -> chunk_prefix limits b = Ok (splice 0 (slice 0 (Z.to_nat (Z.min (zlen b) cc)) b) (Prelude.vec 0 cc)).
Proof.
  intros Hc. pose proof (zlen_nonneg b). unfold chunk_prefix. rewrite (proj2 (get_slice_Ok _ _ _ _)) by (split; [lia|reflexivity]). cbn [rbind].
  rewrite Z.sub_0_r. apply copy_from_slice_Ok. rewrite zlen_vec by lia. split; [lia|]. split; [|done].
  change (slice 0) with (@slice Z (Z.to_nat 0)). rewrite zlen_slice; lia.
Qed.

Lemma empty_prefix c : splice 0 (slice 0 (Z.to_nat (Z.min (zlen (@nil Z)) c)) []) (Prelude.vec 0 c) = Prelude.vec 0 c.
Proof. unfold splice, slice. by rewrite drop_nil, take_nil. Qed.

Lemma old_chunk_ok overlay off old_size old : 0 < cc -> 0 <= off -> off + cc < 2 ^ 64 -> holds_before overlay off old_size old ->
  exists partial from_overlay, from_overlay = bool_decide (is_Some (overlay ≫= (.!! off))) /\
    (from_overlay = false -> off < old_size -> partial = old) /\
    old_chunk limits read overlay ino off old_size false =
      Ok (splice 0 (slice 0 (Z.to_nat (Z.min (zlen old) cc)) old) (Prelude.vec 0 cc), partial, from_overlay).
Proof.
  intros Hc Ho Hw Hb. unfold holds_before in Hb. unfold old_chunk. destruct (overlay ≫= (.!! off)) as [b|] eqn:Eo.
  - subst old. rewrite chunk_prefix_ok by lia. cbn [rbind]. eexists _, _. by split_and!.
  - rewrite (proj2 (checked_add_Some 64 off cc (off + cc))) by done. cbn [ok_or rbind].
    destruct (Z.ltb_spec off old_size) as [Hs|Hs].
    + destruct Hb as [Hr _]. destruct (Z.ltb_spec off (Z.min (off + cc) old_size)); [|lia]. rewrite Hr. cbn [rbind]. rewrite chunk_prefix_ok by lia.
      cbn [rbind]. eexists _, _. by split_and!.
    + subst old. destruct (Z.ltb_spec off (Z.min (off + cc) old_size)); [lia|]. rewrite empty_prefix. eexists [], false. split_and!; done || lia.
Qed.

Lemma prev_version_ok off len old_size old (from_overlay full : bool) : 0 <= off -> off + len < 2 ^ 64 -> 0 <= len ->
  (from_overlay = false -> full = false -> off < old_size -> off + len <= old_size -> len <= zlen old) ->
  exists o, prev_version limits x root read ino off len old_size old from_overlay full = Ok o.
Proof.
  intros H0 Hw Hl Hlen. unfold prev_version. destruct from_overlay; cbn [negb andb]; [by eexists|].
  destruct (Z.ltb_spec off old_size); [|by eexists]. destruct full; cbn [negb andb rbind].
  { apply base_at_ok; [done|]. apply Hread; width. }
  rewrite (proj2 (checked_add_Some 64 off len (off + len))) by done. cbn [ok_or rbind]. destruct (Z.leb_spec (off + len) old_size); [|by eexists].
  rewrite (proj2 (get_slice_Ok _ _ _ _)) by (split; [specialize (Hlen eq_refl eq_refl); lia|reflexivity]). apply base_from_bytes_ok.
Qed.

Lemma dictionary_ok overlay off len : 0 < cc -> 0 <= off < 2 ^ 64 -> is_u64 len -> exists d, dictionary limits x root read overlay ino off len = Ok d.
Proof.
  intros Hc Ho Hl. unfold dictionary. destruct (Z.leb_spec cc off); [|by eexists]. destruct (overlay ≫= (.!! (off - cc))); [by eexists|].
  destruct (base_at_ok ino (off - cc) len Hino) as [o ->]; [apply Hread; width|by eexists].
Qed.

Lemma compose_chunk_ok overlay offset data old_size new_size k old : 0 < cc -> 0 <= offset -> 0 <= k ->
  let off := k * cc in
  off < offset + zlen data -> offset < off + cc -> off + cc < 2 ^ 64 -> offset + zlen data <= new_size -> old_size <= new_size ->
  holds_before overlay off old_size old ->
  exists c, compose_chunk limits x root read overlay ino offset data (offset + zlen data) old_size new_size k =
      Ok ((fun o => <[off := cm_bytes c]> o) <$> overlay, c) /\
    cm_off c = off /\ cm_bytes c = over old offset data off (Z.min cc (new_size - off)) /\ cm_cid c = content_id (cm_bytes c).
Proof.
  intros Hc Hofs Hk off H1 H2 Hw Hnew Hold Hb. pose proof (zlen_nonneg data). unfold compose_chunk. fold off.
  rewrite (proj2 (checked_add_Some 64 off cc (off + cc))) by done. cbn [ok_or rbind].
  set (s := Z.max offset off - off). set (e := Z.min (offset + zlen data) (off + cc) - off).
  assert (Hse : 0 <= s <= e /\ e <= cc) by lia. rewrite (proj2 (get_slice_Ok _ _ _ _)) by (split; [lia|reflexivity]). cbn [rbind].
  replace (Z.to_nat (Z.min (offset + zlen data) (off + cc) - offset - (Z.max offset off - offset))) with (Z.to_nat (e - s)) by lia.
  replace (Z.max offset off - offset) with (s + off - offset) by lia. set (payload := slice _ _ data).
  assert (Hp : zlen payload = e - s) by (apply zlen_slice; lia).
  set (len := Z.min cc (new_size - off)). assert (Hlen : 0 < len <= cc) by lia.
  assert (Hbuf : forall buf : bytes, zlen buf = cc -> copy_from_slice (E := StoreError) buf s e payload = Ok (splice (Z.to_nat s) payload buf)).
  { intros buf Hz. apply copy_from_slice_Ok. split; [lia|]. by split. }
  assert (Hcut : forall buf : bytes, zlen buf = cc -> get_slice (E := StoreError) (splice (Z.to_nat s) payload buf) 0 len =
      Ok (slice 0 (Z.to_nat len) (splice (Z.to_nat s) payload buf))).
  { intros buf Hz. apply get_slice_Ok. rewrite zlen_splice by lia. split; [lia|]. by rewrite Z.sub_0_r. }
  assert (Hend : Z.min (saturating_add 64 off cc) new_size - off = len) by (unfold saturating_add; lia).
  assert (Hov : slice 0 (Z.to_nat len) (splice (Z.to_nat s) payload (splice 0 (slice 0 (Z.to_nat (Z.min (zlen old) cc)) old) (Prelude.vec 0 cc))) =
      over old offset data off len) by (apply spliced_over; lia).
  assert (Hpre : zlen (splice 0 (slice 0 (Z.to_nat (Z.min (zlen old) cc)) old) (Prelude.vec 0 cc)) = cc).
  { pose proof (chunk_prefix_ok old ltac:(lia)) as E0. unfold chunk_prefix in E0. pose proof (zlen_nonneg old).
    change (splice 0) with (@splice Z (Z.to_nat 0)). change (slice 0) with (@slice Z (Z.to_nat 0)).
    rewrite zlen_splice by (rewrite ?zlen_slice, ?zlen_vec; lia). apply zlen_vec. lia. }
  destruct ((s =? 0) && (e =? cc)) eqn:Efull.
  - apply andb_true_iff in Efull as [Es0 Ee]. apply Z.eqb_eq in Es0, Ee. cbn [old_chunk rbind].
    rewrite (Hbuf _ (zlen_vec 0 cc ltac:(lia))). cbn [rbind]. rewrite Hend, (Hcut _ (zlen_vec 0 cc ltac:(lia))). cbn [rbind].
    destruct (prev_version_ok off len old_size [] false true) as [o ->]; [lia|lia|lia|done|]. cbn [rbind].
    match goal with |- context [dictionary _ _ _ _ ?ov _ _ _] => destruct (dictionary_ok ov off len Hc ltac:(lia) ltac:(width)) as [[d sy] ->] end. cbn [rbind].
    match goal with |- context [Ok (_, ?c)] => exists c end. split; [reflexivity|]. cbn [cm_off cm_bytes cm_cid]. split_and!; [done| |done]. rewrite <-Hov. f_equal.
    apply list_eq. intros i. rewrite !splice_lookup by (pose proof (zlen_vec 0 cc); unfold zlen in *; lia). case_decide; [done|].
    unfold zlen in *. rewrite !lookup_ge_None_2; [done|lia|]. pose proof (zlen_vec 0 cc). unfold zlen in *. lia.
  - destruct (old_chunk_ok overlay off old_size old Hc ltac:(lia) Hw Hb) as (partial & fo & Efo & Hpart & ->). cbn [rbind].
    rewrite (Hbuf _ Hpre). cbn [rbind]. rewrite Hend, (Hcut _ Hpre). cbn [rbind]. rewrite Hov.
    destruct (prev_version_ok off len old_size partial fo false) as [o ->]; [lia|lia|lia| |].
    { intros Hfo _ Hs Hl. rewrite (Hpart Hfo Hs). rewrite Hfo in Efo. symmetry in Efo. apply bool_decide_eq_false in Efo.
      unfold holds_before in Hb. destruct (overlay ≫= (.!! off)) eqn:Eo; [by destruct Efo|].
      destruct (Z.ltb_spec off old_size); [|lia]. destruct Hb as [_ ->]. lia. }
    cbn [rbind]. match goal with |- context [dictionary _ _ _ _ ?ov _ _ _] => destruct (dictionary_ok ov off len Hc ltac:(lia) ltac:(width)) as [[d sy] ->] end. cbn [rbind].
    match goal with |- context [Ok (_, ?c)] => exists c end. split; [reflexivity|]. by split_and!.
Qed.

(** ** All chunks *)

(** The array after the write: its bytes over the first [size] of [cur]. *)
Definition put (cur : Z -> Z) (size offset : Z) (data : bytes) (p : Z) : Z :=
  if (offset <=? p) && (p <? offset + zlen data) then byte_or_zero data (p - offset) else if p <? size then cur p else 0.

Lemma over_put cur size offset data off len : 0 <= off -> len <= cc ->
  over (map cur (seqZ off (Z.min (off + cc) size - off))) offset data off len = map (put cur size offset data) (seqZ off len).
Proof.
  intros Ho Hl. unfold over. apply map_ext_in. intros p Hp. apply list_elem_of_In, elem_of_seqZ in Hp. unfold put.
  destruct (_ && _); [done|]. unfold byte_or_zero. rewrite list_lookup_fmap.
  destruct (Z.ltb_spec p size).
  - rewrite lookup_seqZ_lt by lia. cbn. f_equal. lia.
  - rewrite lookup_seqZ_ge by lia. done.
Qed.

Definition composed_of (old : Z -> bytes) (offset : Z) (data : bytes) (new_size k : Z) (c : Composed) : Prop :=
  cm_off c = k * cc /\ cm_bytes c = over (old k) offset data (k * cc) (Z.min cc (new_size - k * cc)) /\ cm_cid c = content_id (cm_bytes c).

Definition overlay_after (overlay : option (gmap Z bytes)) (cs : list Composed) : option (gmap Z bytes) :=
  (fun o => fold_left (fun o c => <[cm_off c := cm_bytes c]> o) cs o) <$> overlay.

Lemma compose_chunks_ok ks overlay offset data old_size new_size old : 0 < cc -> 0 <= offset ->
  offset + zlen data <= new_size -> old_size <= new_size -> NoDup ks ->
  (forall k, k ∈ ks -> 0 <= k /\ k * cc < offset + zlen data /\ offset < k * cc + cc /\ k * cc + cc < 2 ^ 64 /\
    holds_before overlay (k * cc) old_size (old k)) ->
  exists cs, compose_chunks limits x root read ks overlay ino offset data (offset + zlen data) old_size new_size = Ok (overlay_after overlay cs, cs) /\
    Forall2 (composed_of old offset data new_size) ks cs.
Proof.
  intros Hc Hofs Hnew Hold Hnd. revert overlay. induction Hnd as [|k ks Hni _ IH]; intros overlay Hk; cbn [compose_chunks].
  { exists []. split; [|constructor]. unfold overlay_after. cbn. by destruct overlay. }
  destruct (Hk k) as (H0 & H1 & H2 & H3 & Hb); [by left|].
  destruct (compose_chunk_ok overlay offset data old_size new_size k (old k) Hc Hofs H0 H1 H2 H3 Hnew Hold Hb) as (c & -> & E1 & E2 & E3). cbn [rbind].
  destruct (IH ((fun o => <[k * cc := cm_bytes c]> o) <$> overlay)) as (cs & -> & Hcs).
  { intros k' Hk'. destruct (Hk k') as (G0 & G1 & G2 & G3 & Gb); [by right|]. split_and!; try done. unfold holds_before in *.
    destruct overlay as [o|]; cbn [fmap option_fmap option_map mbind option_bind] in *; [|done]. rewrite lookup_insert_ne; [done|].
    intros E. apply Z.mul_reg_r in E; [|lia]. by subst. }
  cbn [rbind]. exists (c :: cs). split; [|by constructor]. do 2 f_equal. unfold overlay_after. destruct overlay; [|done]. cbn. by rewrite E1.
Qed.

Lemma chunk_span offset len k : 0 < cc -> 0 <= offset -> 0 < len ->
  k ∈ seqZ (offset / cc) (div_ceil (offset + len) cc - offset / cc) -> 0 <= k /\ k * cc < offset + len /\ offset < k * cc + cc.
Proof.
  intros Hc Ho Hl [Hk1 Hk2]%elem_of_seqZ. unfold div_ceil in Hk2.
  pose proof (Z.div_mod offset cc ltac:(lia)). pose proof (Z.mod_pos_bound offset cc Hc).
  pose proof (Z.div_mod (offset + len + cc - 1) cc ltac:(lia)). pose proof (Z.mod_pos_bound (offset + len + cc - 1) cc Hc).
  pose proof (Z.div_pos offset cc Ho Hc). split_and!; [lia|nia|nia].
Qed.

(** The size the write starts from. *)
Definition size_before (epoch_size : option Z) (old_size : Z) : Prop :=
  match epoch_size with Some s => s = old_size | None => exists i, I !! ino = Some i /\ i_size i = old_size end.

Lemma prepare_compose_ok overlay offset data epoch_size old_size old : 0 < cc -> 0 <= offset -> data <> [] ->
  offset + zlen data + cc <= 2 ^ 64 -> size_before epoch_size old_size ->
  let ks := seqZ (offset / cc) (div_ceil (offset + zlen data) cc - offset / cc) in
  let new_size := Z.max old_size (offset + zlen data) in
  (forall k, k ∈ ks -> holds_before overlay (k * cc) old_size (old k)) ->
  exists cs, prepare_compose limits x root read overlay ino offset data epoch_size = Ok (overlay_after overlay cs, cs, new_size) /\
    Forall2 (composed_of old offset data new_size) ks cs.
Proof.
  intros Hc Ho Hd Hw Hs ks new_size Hb. unfold prepare_compose.
  assert (Hl : 0 < zlen data) by (destruct data; [done|]; rewrite zlen_cons; pose proof (zlen_nonneg data); lia).
  destruct (Z.eqb_spec (zlen data) 0); [lia|]. replace (saturating_add 64 offset (zlen data)) with (offset + zlen data) by (unfold saturating_add; lia).
  match goal with |- context [rbind ?m _] => assert (Hsz : m = Ok old_size) end.
  { destruct epoch_size as [s|]; cbn in Hs; [by subst|]. destruct Hs as (i & Hi & <-).
    rewrite (get_inode_ok limits sh x root n I N HF Hpend Hn ino Hino), Hi. done. }
  rewrite Hsz. cbn [rbind]. fold ks new_size.
  destruct (compose_chunks_ok ks overlay offset data old_size new_size old Hc Ho) as (cs & -> & Hcs); [lia|lia|apply NoDup_seqZ| |].
  - intros k Hk. destruct (chunk_span offset (zlen data) k Hc Ho Hl Hk) as (? & ? & ?). split_and!; try done; [|by apply Hb].
    apply Z.lt_le_trans with (offset + zlen data + cc); lia.
  - cbn [rbind]. by exists cs.
Qed.

(** The chunk [k] of the file as the write finds it: in the batch, or in the
    store where the file reaches it. *)
Definition finds (overlay : option (gmap Z bytes)) (cur : Z -> Z) (old_size k : Z) : Prop :=
  let now_there := map cur (seqZ (k * cc) (Z.min (k * cc + cc) old_size - k * cc)) in
  match overlay ≫= (.!! (k * cc)) with
  | Some b => b = now_there
  | None => k * cc < old_size -> read ino (k * cc) (Z.min (k * cc + cc) old_size - k * cc) = Ok now_there
  end.

Lemma finds_before overlay cur old_size k : 0 < cc -> finds overlay cur old_size k ->
  holds_before overlay (k * cc) old_size (map cur (seqZ (k * cc) (Z.min (k * cc + cc) old_size - k * cc))).
Proof.
  intros Hc. unfold finds, holds_before. destruct (overlay ≫= _); [done|]. intros Hr. destruct (Z.ltb_spec (k * cc) old_size).
  - split; [by apply Hr|]. unfold zlen. rewrite length_map, length_seqZ. lia.
  - rewrite seqZ_nil by lia. done.
Qed.

(** C5. [prepare_write] up to the search.  When every chunk that the write
    touches is found as the array [cur] has it, in the batch or in the store,
    the composed chunks are the touched ones in order; each holds the array
    after the write, cut at the new size, under its content id; and every
    written byte lies in one of them. *)
Theorem compose_exact overlay cur offset data epoch_size old_size : 0 < cc -> 0 <= offset -> data <> [] ->
  offset + zlen data + cc <= 2 ^ 64 -> size_before epoch_size old_size ->
  let ks := seqZ (offset / cc) (div_ceil (offset + zlen data) cc - offset / cc) in
  let new_size := Z.max old_size (offset + zlen data) in
  (forall k, k ∈ ks -> finds overlay cur old_size k) ->
  exists cs, prepare_compose limits x root read overlay ino offset data epoch_size = Ok (overlay_after overlay cs, cs, new_size) /\
    map cm_off cs = map (fun k => k * cc) ks /\
    Forall (fun c => cm_bytes c = map (put cur old_size offset data) (seqZ (cm_off c) (Z.min cc (new_size - cm_off c))) /\
      cm_cid c = content_id (cm_bytes c)) cs /\
    forall p, offset <= p < offset + zlen data -> exists c, c ∈ cs /\ cm_off c <= p < cm_off c + zlen (cm_bytes c).
Proof.
  intros Hc Ho Hd Hw Hs ks new_size Hf.
  destruct (prepare_compose_ok overlay offset data epoch_size old_size
    (fun k => map cur (seqZ (k * cc) (Z.min (k * cc + cc) old_size - k * cc))) Hc Ho Hd Hw Hs) as (cs & E & Hcs).
  { intros k Hk. by apply finds_before, Hf. }
  fold ks new_size in E, Hcs. exists cs. split; [exact E|].
  assert (Hl : 0 < zlen data) by (destruct data; [done|]; rewrite zlen_cons; pose proof (zlen_nonneg data); lia).
  assert (Hk0 : forall k, k ∈ ks -> 0 <= k * cc).
  { intros k Hk. destruct (chunk_span offset (zlen data) k Hc Ho Hl Hk). nia. }
  assert (Hall : forall c, c ∈ cs -> exists k, k ∈ ks /\ cm_off c = k * cc /\ cm_cid c = content_id (cm_bytes c) /\
      cm_bytes c = map (put cur old_size offset data) (seqZ (cm_off c) (Z.min cc (new_size - cm_off c)))).
  { intros c Hin. apply list_elem_of_lookup in Hin as [i Hi]. destruct (Forall2_lookup_r _ _ _ _ _ Hcs Hi) as (k & Hk & E1 & E2 & E3).
    apply list_elem_of_lookup_2 in Hk. exists k. split_and!; try done. rewrite E2, E1. apply over_put; [by apply Hk0|lia]. }
  split_and!.
  - clear -Hcs. induction Hcs as [|k c ks cs [E _] _ IH]; [done|]. cbn. by rewrite E, IH.
  - apply list.Forall_forall. intros c Hin. destruct (Hall c Hin) as (k & _ & _ & ? & ?). done.
  - intros p Hp. assert (Hkp : p / cc ∈ ks).
    { apply elem_of_seqZ. unfold div_ceil. pose proof (Z.div_le_mono offset p cc Hc). split; [lia|].
      enough (p / cc < (offset + zlen data + cc - 1) / cc) by lia.
      apply Z.lt_le_trans with (p / cc + 1); [lia|]. rewrite <-Z.div_add by lia. apply Z.div_le_mono; lia. }
    apply list_elem_of_lookup in Hkp as [i Hi]. destruct (Forall2_lookup_l _ _ _ _ _ Hcs Hi) as (c & Hci & E1 & E2 & _).
    apply list_elem_of_lookup_2 in Hci. exists c. split; [done|]. rewrite E2, E1.
    pose proof (Z.div_mod p cc ltac:(lia)). pose proof (Z.mod_pos_bound p cc Hc). rewrite zlen_over; [lia|]. lia.
Qed.

(** C25. A batch of two writes to the first chunk of a file, the second inside
    the first and neither below the end of the file.  Each region is cut at the
    size that it alone would give the committed file, so the second one cuts
    the chunk that the first had composed: the batch commits the size of the
    first write and, as the last extent of the chunk, the shorter bytes. *)
Theorem batch_cuts_chunk i old o1 d1 o2 d2 : 0 < cc -> 2 * cc <= 2 ^ 64 -> I !! ino = Some i ->
  0 <= o1 <= o2 -> d1 <> [] -> d2 <> [] -> o2 + zlen d2 < o1 + zlen d1 -> o1 + zlen d1 <= cc ->
  i_size i <= o2 + zlen d2 -> holds_before None 0 (i_size i) old ->
  exists c1 c2, compose_batch limits x root read ino [(o1, d1); (o2, d2)] = Ok ([c1; c2], o1 + zlen d1) /\
    cm_off c1 = 0 /\ zlen (cm_bytes c1) = o1 + zlen d1 /\ cm_off c2 = 0 /\ zlen (cm_bytes c2) = o2 + zlen d2.
Proof.
  intros Hc Hw Hi Ho Hd1 Hd2 Hlt Hle Hs Hb.
  assert (H1 : 0 < zlen d1) by (destruct d1; [done|]; rewrite zlen_cons; pose proof (zlen_nonneg d1); lia).
  assert (H2 : 0 < zlen d2) by (destruct d2; [done|]; rewrite zlen_cons; pose proof (zlen_nonneg d2); lia).
  assert (Hks : forall o (d : bytes), 0 <= o -> 0 < zlen d -> o + zlen d <= cc ->
    seqZ (o / cc) (div_ceil (o + zlen d) cc - o / cc) = [0]).
  { intros o d Ho' Hd' Hl'. unfold div_ceil. rewrite (Z.div_small o) by lia.
    replace (o + zlen d + cc - 1) with (1 * cc + (o + zlen d - 1)) by lia. rewrite Z.div_add_l, (Z.div_small (o + zlen d - 1)) by lia. done. }
  unfold compose_batch, sort_by_offset. cbn [foldr insert_by_offset fst].
  destruct (Z.leb_spec o1 o2); [|lia]. cbn [compose_regions].
  destruct (prepare_compose_ok (Some ∅) o1 d1 None (i_size i) (fun _ => old) Hc ltac:(lia) Hd1 ltac:(lia)) as (cs1 & -> & F1); [by exists i| |].
  { rewrite Hks by lia. intros k ->%list_elem_of_singleton. unfold holds_before in *. cbn in *. by rewrite lookup_empty. }
  rewrite Hks in F1 by lia. apply Forall2_cons_inv_l in F1 as (c1 & cs & (E1 & E2 & _) & ->%Forall2_nil_inv_l & ->).
  cbn [rbind overlay_after fmap option_fmap option_map fold_left].
  destruct (prepare_compose_ok (Some (<[cm_off c1 := cm_bytes c1]> ∅)) o2 d2 None (i_size i) (fun _ => cm_bytes c1) Hc ltac:(lia) Hd2 ltac:(lia))
    as (cs2 & -> & F2); [by exists i| |].
  { rewrite Hks by lia. intros k ->%list_elem_of_singleton. unfold holds_before. cbn. rewrite E1. by rewrite lookup_insert_eq. }
  rewrite Hks in F2 by lia. apply Forall2_cons_inv_l in F2 as (c2 & cs & (E3 & E4 & _) & ->%Forall2_nil_inv_l & ->).
  cbn [rbind app]. exists c1, c2. pose proof (i_size i) as sz. rewrite E2, E4, !zlen_over by lia. split_and!; [|done|lia|done|lia].
  do 2 f_equal. pose proof (zlen_nonneg d1). destruct (Z.max_spec 0 (Z.max (i_size i) (o1 + zlen d1))). all: lia.
Qed.
End Compose.

(** * Truncation to the start of an extent *)

(** [covering] below a key that an extent has: behind a separator, the entry
    it returns is the separator, whose value is the id of a node. *)
Lemma covering_at_start fanout (x : Tx StoreError) (r : ChunkId) offset c0 es i e c es' j s :
  0 <= offset -> offset + 1 < 2 ^ 64 -> fetch BTREE_ORDER fanout x r = Ok (Internal c0 es) ->
  search (extent_key (offset + 1)) es = Missing (S i) -> es !! i = Some e -> key_offset (e_key e) = Ok s -> child_id e = Ok c ->
  fetch BTREE_ORDER fanout x c = Ok (Leaf es') -> search (extent_key (offset + 1)) es' = Found j ->
  covering BTREE_ORDER fanout x r offset = Ok (Some (s, e_value e)).
Proof.
  intros Ho Hw Hr Hs Hi Hk Hc Hf Hj. unfold covering. replace (saturating_add 64 offset 1) with (offset + 1) by (unfold saturating_add; lia).
  unfold predecessor. pose proof Hr as Hz. apply fetch_Ok in Hz as [-> _].
  assert (exists n, MAX_LEVELS = S (S n)) as [n ->] by by exists 127%nat. cbn [predecessor_loop]. rewrite Hr. cbn [rbind]. rewrite Hs.
  unfold get_idx. rewrite Nat2Z.id, Hi. cbn [ok_or rbind]. rewrite Hc. cbn [rbind]. rewrite Hf. cbn [rbind]. rewrite Hj. cbn [rbind].
  by rewrite Hk.
Qed.

(** C24. [truncate_file] to the start of an extent, in a file whose tree has
    two levels there.  The search for the extent in front of the new size asks
    for the predecessor of a key that is present, and the leaf answers with
    the separator above it; the node id that the separator carries is decoded
    as a descriptor, and the truncation fails with that error. *)
Theorem truncate_at_extent_fails `{hash : ContentHash} limits now policy coded x root store t ino new_size inode r c0 es i e c es' j s err :
  0 < new_size < 2 ^ 64 -> get_inode limits x root ino = Ok (Some inode) -> is_file inode = true -> i_data inode = IFile r ->
  fetch BTREE_ORDER (max_fanout limits) x r = Ok (Internal c0 es) -> search (extent_key new_size) es = Missing (S i) -> es !! i = Some e ->
  key_offset (e_key e) = Ok s -> child_id e = Ok c ->
  fetch BTREE_ORDER (max_fanout limits) x c = Ok (Leaf es') -> search (extent_key new_size) es' = Found j ->
  Descriptor.decode limits (e_value e) = Err err ->
  truncate_file limits now policy coded x root store t ino new_size = Err (Error (StoreDescriptor (OfCodec err))).
Proof.
  intros Hn Hg Hf Hd Hr Hs Hi Hk Hc Hl Hj He. unfold truncate_file. rewrite Hg. cbn [rbind ok_or]. rewrite Hf, Hd. cbn [negb rbind].
  unfold truncate_trim. destruct (Z.eqb_spec new_size 0); [lia|].
  rewrite (covering_at_start (max_fanout limits) x r (new_size - 1) c0 es i e c es' j s); try lia; try done; try (by replace (new_size - 1 + 1) with new_size by lia).
  cbn [of_tree map_err rbind]. by rewrite He.
Qed.

(** A file of 65 chunks, written in order: the least that has two levels. *)
Definition big_hash : ContentHash := {| ChunkId_of := mix_hash |}.
Definition big_chunk : bytes := match Descriptor.encode (Zero 65536) with Ok b => b | Err _ => [] end.
Fixpoint big_tree (k : nat) : tree_outcome (ChunkId * Tx StoreError) :=
  match k with
  | O => Ok (ChunkId_ZERO, txn_tx txn_none)
  | S k =>
      let! '(r, x) := big_tree k in
      extent_insert mix_hash BTREE_ORDER (max_fanout Limits_default) x r (65536 * Z.of_nat k) big_chunk
  end.
Definition big_inode (r : ChunkId) : Inode := with_size (with_data inode_a (IFile r)) (65 * 65536).
Definition big_file : outcome (ChunkId * Txn) :=
  let! '(r, x) := of_tree (big_tree 65) in
  let! t := put_inode_in_tx mix_hash Limits_default (set_tx txn_none x) 2 (big_inode r) in
  Ok (r, t).
(** Its root, the root object, and the nodes and objects that they reach. *)
Definition big_parts := Eval vm_compute in
  match big_file with
  | Ok (r, t) =>
      let get id := match fetch_pending_or_store (txn_tx t) id with Ok (Some b) => [(id, b)] | _ => [] end in
      let children := match fetch BTREE_ORDER (max_fanout Limits_default) (txn_tx t) r with
                      | Ok (Internal c es) => c :: map e_value es | _ => [] end in
      let ir := inode_index_root (txn_root t) in
      let inodes := match fetch BTREE_ORDER (max_fanout Limits_default) (txn_tx t) ir with Ok (Leaf es) => map e_value es | _ => [] end in
      (r, ir, flat_map get ([r; ir] ++ children ++ inodes))
  | Err _ => ([], [], [])
  end.
Definition big_root : ChunkId := fst (fst big_parts).
Definition big_store : Tx StoreError :=
  {| tx_text := fun _ => String.EmptyString; tx_indexed := fun id => existsb (fun p => bool_decide (fst p = id)) (snd big_parts);
     tx_fetch := fun id => Ok (snd <$> find (fun p => bool_decide (fst p = id)) (snd big_parts)); tx_pending := ∅; tx_records := []; tx_asked := [] |}.
Definition big_index : Root := with_inode_index Root_default (snd (fst big_parts)).
Definition big_context : DecoderContext :=
  Store_context Limits_default big_store big_index (fun _ _ _ _ _ => Err RangeOutOfBounds) (fun _ _ _ _ _ => Err RangeOutOfBounds).

Definition big_txn : Txn := {| txn_tx := big_store; txn_root := big_index; txn_features := 0 |}.

(** The size that a truncation leaves in the inode. *)
Definition truncated (size : Z) : outcome Z :=
  let! t := @truncate_file big_hash Limits_default clock Policy_balanced [] big_store big_index big_context big_txn 2 size in
  let! i := inode_for_tx Limits_default t 2 in
  Ok (i_size i).

(** In its second leaf the file cannot be cut at a chunk boundary; one byte
    above it, and at a boundary in the first leaf, it can. *)
Example truncated_sizes : (exists e, truncated (40 * 65536) = Err (Error (StoreDescriptor (OfCodec e)))) /\
  truncated (40 * 65536 + 1) = Ok (40 * 65536 + 1) /\ truncated (20 * 65536) = Ok (20 * 65536).
Proof. split; [by eexists; vm_compute|]. by split; vm_compute. Qed.

Lemma truncate_at_extent_fails_witness :
  exists r c0 es i e c es' j err, fetch BTREE_ORDER (max_fanout Limits_default) big_store r = Ok (Internal c0 es) /\
    search (extent_key (40 * 65536)) es = Missing (S i) /\ es !! i = Some e /\ child_id e = Ok c /\
    fetch BTREE_ORDER (max_fanout Limits_default) big_store c = Ok (Leaf es') /\ search (extent_key (40 * 65536)) es' = Found j /\
    @truncate_file big_hash Limits_default clock Policy_balanced [] big_store big_index big_context big_txn 2 (40 * 65536) =
      Err (Error (StoreDescriptor (OfCodec err))).
Proof.
  eexists big_root, _, _, 0%nat, _, _, _, 8%nat, _. split_and!; [vm_compute; reflexivity..|].
  eapply (@truncate_at_extent_fails big_hash Limits_default clock Policy_balanced [] big_store big_index big_context big_txn 2 (40 * 65536));
    [lia|vm_compute; reflexivity..].
Defined.

(** * Composing over a committed file *)

(** [Store::read_file]; the fuel is above the height of every tree. *)
Definition committed_read limits (x : Tx StoreError) (root : Root) base worker_pool granted (ino offset len : Z) : outcome bytes :=
  match read_file limits x root base worker_pool granted 129 ino offset len with Some m => m | None => Err Panic end.

Lemma window_start_single limits (x : Tx StoreError) sh (r : ChunkId) (E : gmap Z bytes) offset :
  extents BTREE_ORDER (max_fanout limits) x sh 0 r E -> exists s0, window_start limits x r offset = Ok s0.
Proof.
  intros (M & (m & Hix & ->) & [_ HX]). unfold window_start, covering. destruct Hix as [[-> ->]|Ht]; [by eexists|].
  pose proof (BTreeSpec.tree_within _ _ _ _ _ _ _ _ _ Ht) as (_ & Hs & _).
  apply tree_inv in Ht as [(es & Ef & Hok & _ & -> & _)|(n' & ? & ? & ? & _)]; [|done].
  unfold predecessor. pose proof Ef as Hz. apply fetch_Ok in Hz as [-> _]. assert (exists n, MAX_LEVELS = S n) as [n ->] by by exists 128%nat.
  cbn [predecessor_loop]. rewrite Ef. cbn [rbind].
  destruct (search _ es) as [i|[|i]] eqn:Es; [by eexists..|]. destruct (get_idx es (Z.of_nat i)) as [e|] eqn:Ei.
  - cbn [rbind of_tree map_err]. assert (Hin : e ∈ es) by (unfold get_idx in Ei; apply ok_or_Ok_inv in Ei; by apply list_elem_of_lookup_2 in Ei).
    assert (Hm : (e_key e, e_value e) ∈ pairs es) by (by apply (list_elem_of_fmap_2 (fun e => (e_key e, e_value e)))).
    apply elem_of_to_map in Hm; [|done]. apply HX in Hm as (o & Ho & Ek & _). rewrite Ek, key_offset_ok by done. by eexists.
  - exfalso. unfold get_idx in Ei. rewrite Nat2Z.id in Ei. destruct (es !! i) eqn:El; [done|]. apply lookup_ge_None in El.
    assert (Hb : forall (l : list Entry) key i, search key l = Missing i -> (i <= length l)%nat).
    { clear. induction l as [|e l IH]; intros key i; cbn [search]; [by intros [= <-]|]. destruct (cmp_key (e_key e) key); try done.
      - destruct (search key l) eqn:E; [done|]. intros [= <-]. cbn. apply IH in E. lia.
      - intros [= <-]. lia. }
    apply Hb in Es. lia.
Qed.

Lemma two_reads offset len : is_u64 offset -> is_u64 len ->
  committed_read Limits_default two_store (txn_root two_txn) two_base false 4 2 offset len <> Err Panic.
Proof.
  intros Ho Hl. destruct (window_start_single Limits_default two_store full_shape two_root two_map offset two_extents_hold) as [s0 Hs0].
  destruct (read_file_ok Limits_default full_shape two_store (txn_root two_txn) 0 {[ 2 := two_inode ]} ∅ ∅ two_fs eq_refl ltac:(lia)
    two_chunk_index _ _ two_io 2 two_inode two_root two_map two_chunk offset len false 4 129%nat 0%nat s0
    ltac:(width) eq_refl eq_refl eq_refl two_extents_hold ltac:(lia) two_file Ho Hl Hs0) as (l & _ & E).
  unfold committed_read. unfold two_base. rewrite E. done.
Qed.

Definition two_content (p : Z) : Z := p + 1.

Lemma compose_exact_witness : exists c,
  @prepare_compose big_hash Limits_default two_store (txn_root two_txn)
    (committed_read Limits_default two_store (txn_root two_txn) two_base false 4) None 2 6 [9; 9; 9] None = Ok (None, [c], 9) /\
  cm_off c = 0 /\ cm_bytes c = [1; 2; 3; 4; 5; 6; 9; 9; 9] /\ cm_cid c = mix_hash (cm_bytes c).
Proof.
  assert (Hs : seqZ (6 / chunk_class Limits_default)
    (div_ceil (6 + zlen [9; 9; 9]) (chunk_class Limits_default) - 6 / chunk_class Limits_default) = [0]) by by vm_compute.
  destruct (@compose_exact big_hash Limits_default full_shape two_store (txn_root two_txn) 0 {[ 2 := two_inode ]} ∅ ∅ two_fs eq_refl ltac:(lia)
    two_chunk_index (committed_read Limits_default two_store (txn_root two_txn) two_base false 4) 2 ltac:(width) two_reads
    None two_content 6 [9; 9; 9] None 8) as (cs & E & Eo & Ec & _); [by vm_compute|lia|congruence|by vm_compute| | |].
  - exists two_inode. split; [apply lookup_singleton_eq|reflexivity].
  - rewrite Hs. intros k ->%list_elem_of_singleton _. by vm_compute.
  - rewrite Hs in Eo. cbn [map] in Eo. destruct cs as [|c [|c' cs]]; cbn [map] in Eo; [congruence| |congruence]. injection Eo as Eo.
    apply list.Forall_cons in Ec as [[Eb Eh] _]. exists c. split; [exact E|]. rewrite Z.mul_0_l in Eo. split; [exact Eo|]. split; [|exact Eh].
    rewrite Eb, Eo. by vm_compute.
Defined.

Lemma batch_cuts_chunk_witness : exists c1 c2,
  @compose_batch big_hash Limits_default two_store (txn_root two_txn)
    (committed_read Limits_default two_store (txn_root two_txn) two_base false 4) 2 [(0, replicate 20 7); (6, [9; 9; 9])] = Ok ([c1; c2], 20) /\
  cm_off c1 = 0 /\ zlen (cm_bytes c1) = 20 /\ cm_off c2 = 0 /\ zlen (cm_bytes c2) = 9.
Proof.
  apply (@batch_cuts_chunk big_hash Limits_default full_shape two_store (txn_root two_txn) 0 {[ 2 := two_inode ]} ∅ ∅ two_fs eq_refl ltac:(lia)
    two_chunk_index (committed_read Limits_default two_store (txn_root two_txn) two_base false 4) 2 ltac:(width) two_reads
    two_inode [1; 2; 3; 4; 5; 6; 7; 8] 0 (replicate 20 7) 6 [9; 9; 9]); try (by vm_compute); congruence.
Defined.
