(* ===== verification/CommitSpec.v ===== *)
(** The transaction of a write against the maps it stands for: the extents of
    the file, the chunk index and the inode after [commit_file_extents] and
    after a truncation; and the file as an array of bytes: writing and then
    reading. *)
From stdpp Require Import gmap sorting.
From Stdlib Require String.
From S2P Require Import Prelude Codec Repr Version SegRecord Inode Superblock Descriptor Context Streams Materialize Candidate Keys BTree StoreError RootObj BTreeNode BTreeSpec BTreeCheck IndexSpec RemoveSpec ScanSpec ExtentTree ExtentSpec Directory Transaction TransactionSpec Namespace NamespaceSpec Mutation Epoch Checkpoint EpochSpec CheckpointSpec FileRead FileReadSpec FileWrite FileWriteSpec.
Import String.StringSyntax.

(** * Runs step by step *)

Section Steps.
Context (content_id : bytes -> ChunkId).
#[local] Abbreviation succeeds := (TransactionSpec.succeeds content_id).

(** The functions [l], run one after the other from [s]: each succeeds, and
    where [Q] holds in the end unless on the way a payload has collided that
    one of them staged. *)
Fixpoint run_steps {S} (tx : S -> Tx StoreError) (l : list (S -> outcome S)) (s : S) (Q : S -> Prop) : Prop :=
  match l with
  | [] => Q s
  | f :: l => succeeds tx (tx s) (f s) (fun s => run_steps tx l s Q)
  end.

Lemma steps_impl {S} (tx : S -> Tx StoreError) l (Q Q' : S -> Prop) : (forall s, Q s -> Q' s) -> forall s, run_steps tx l s Q -> run_steps tx l s Q'.
Proof.
  intros HQ. induction l as [|f l IH]; intros s; cbn [run_steps]; [apply HQ|]. intros H. eapply succeeds_impl; [exact H|]. intros s' _ _ _. apply IH.
Qed.
End Steps.

(** * The steps *)

Section Commit.
Context {hash : ContentHash} (limits : Limits) (now : nat -> Timespec).
#[local] Abbreviation content_id := (@ChunkId_of hash).
Context (Hid : forall b, wf_id (content_id b)) (Hfan : BTREE_ORDER <= max_fanout limits) (Hnow : forall i, timespec_wf (now i)).
Context (sh : Shape) (Hsh : shape_ok BTREE_ORDER (max_fanout limits) sh) (Hmin : sh_min sh = 1).
#[local] Abbreviation fanout := (max_fanout limits).
#[local] Abbreviation fs := (NamespaceSpec.fs limits sh).
#[local] Abbreviation stages := (TransactionSpec.stages content_id).
#[local] Abbreviation succeeds := (TransactionSpec.succeeds content_id).
#[local] Abbreviation yields := (CheckpointSpec.yields content_id).
#[local] Abbreviation steps := (run_steps content_id).
Implicit Types (t : Txn) (n : nat) (I : gmap Z Inode) (N : Names) (E : gmap Z bytes) (C : gmap bytes bytes) (u : ExtentUpdate).

(** The transaction stands for a file system in which [ino] is the file [i]
    with the extents [E], over the chunk index [C]. *)
Record file_tx t n I N C (ino : Z) (i : Inode) E : Prop := {
  ft_fs : fs t n I N;
  ft_chunks : holds BTREE_ORDER fanout (txn_tx t) sh n (chunk_index_root (txn_root t)) C;
  ft_inode : I !! ino = Some i;
  ft_file : exists r, i_data i = IFile r /\ wf_id r /\ extents BTREE_ORDER fanout (txn_tx t) sh n r E
}.

Lemma holds_keeps x L n (r : ChunkId) M : prov_ok x -> holds BTREE_ORDER fanout x sh n r M -> holds BTREE_ORDER fanout (stages x L) sh n r M.
Proof. intros Hx HM. eapply holds_sub; [by apply stages_sub|done]. Qed.

(** Staging, with at most the chunk index of the root changed. *)
Lemma file_tx_stages t t' L n I N C ino i E : file_tx t n I N C ino i E ->
  txn_tx t' = stages (txn_tx t) L -> txn_root t' = txn_root t -> file_tx t' n I N C ino i E.
Proof.
  intros [HF HC Hi (r & Hr & Hw & HE)] Hx Hroot. pose proof (fs_ok _ _ _ _ _ _ HF) as Hp. split.
  - by eapply fs_stages.
  - rewrite Hx, Hroot. by apply holds_keeps.
  - done.
  - exists r. split_and!; [done..|]. rewrite Hx. by apply extents_stages.
Qed.

Lemma put_objects_stages t len objects : exists L, txn_tx (put_objects t len objects) = stages (txn_tx t) L /\
  txn_root (put_objects t len objects) = txn_root t.
Proof.
  unfold put_objects. revert t. induction objects as [|o objects IH]; intros t; [by exists []|]. cbn [fold_left].
  destruct (match o_kind o with Candidate.Data => (Version.Data, Some len) | Candidate.Model => (Version.Model, None) end) as [tag ml].
  destruct (IH (snd (put_object content_id t tag (o_payload o) ml))) as (L & E & Er).
  exists ({| pr_tag := tag; pr_payload := o_payload o; pr_materialized_len := ml |} :: L). split; [|exact Er]. rewrite E. done.
Qed.

(** The chunk index after an update. *)
Definition indexed C u (b : bytes) : gmap bytes bytes := if self_aliasing u then C else <[eu_content_id u := b]> C.

(** An update that the transaction takes: its descriptor is valid. *)
Record update_fits u (b : bytes) : Prop := {
  uf_offset : is_u64 (eu_offset u);
  uf_valid : exists s, Representation_validate limits (eu_descriptor u) = Ok s;
  uf_encoded : Descriptor.encode (eu_descriptor u) = Ok b;
  uf_value : value_ok b;
  uf_id : wf_id (eu_content_id u)
}.

Lemma id_key_ok (id : ChunkId) : wf_id id -> key_ok id.
Proof. intros [Hl Hw]. split; [done|]. unfold zlen. by rewrite Hl. Qed.

Lemma put_chunk_ok t n I N C ino i E u b : file_tx t n I N C ino i E -> (n <= 128)%nat -> update_fits u b ->
  yields txn_tx (txn_tx t) (put_chunk_in_tx content_id limits t (eu_content_id u) (eu_descriptor u))
    (fun t' => fs t' n I N /\ forall r E', extents BTREE_ORDER fanout (txn_tx t) sh n r E' -> extents BTREE_ORDER fanout (txn_tx t') sh n r E')
    (fun t' => holds BTREE_ORDER fanout (txn_tx t') sh (S n) (chunk_index_root (txn_root t')) (indexed C u b)).
Proof.
  intros [HF HC Hi _] Hn [Ho [s Hv] He Hb Hc]. pose proof (fs_ok _ _ _ _ _ _ HF) as Hp. unfold put_chunk_in_tx. rewrite Hv.
  unfold indexed. change (match eu_descriptor u with ExactRef target _ _ => bool_decide (target = eu_content_id u) | _ => false end) with (self_aliasing u).
  destruct (self_aliasing u).
  { exists t, []. split; [done|]. split; [done|]. split; [by split|]. intros _. eapply holds_le; [|exact HC]. lia. }
  rewrite He. cbn [of_codec map_err rbind].
  destruct (insert_ok content_id BTREE_ORDER fanout order_ok Hfan Hid (txn_tx t) sh n _ C (eu_content_id u) b Hsh Hp HC Hn (id_key_ok _ Hc) Hb)
    as (r' & l & Ei & Hnew & _).
  rewrite Ei. cbn [of_tree map_err rbind]. eexists _, (map node_record l). split; [reflexivity|]. cbn [txn_tx txn_root].
  split; [by rewrite staged_stages|]. split; [split|].
  - destruct HF as [Hok Hin Hd Hown Hk]. split; cbn [txn_tx txn_root with_chunk_index inode_index_root]; try done; rewrite ?staged_stages.
    + by apply stages_ok.
    + by apply inodes_stages.
    + intros dir i' r Hi' Hr'. destruct (Hd _ _ _ Hi' Hr') as (E0 & HE0 & Hv0). exists E0. split; [|done]. by apply directory_stages.
  - intros r E' HE. rewrite staged_stages. by apply extents_stages.
  - intros Hg. rewrite good_nodes in Hg. cbn [with_chunk_index chunk_index_root]. by apply Hnew.
Qed.

Definition file_inode (i : Inode) (r : ChunkId) (tm : Timespec) : Inode := with_ctime (with_data i (IFile r)) tm.

Lemma file_inode_wf i r0 r tm : inode_wf i -> kind_ok i -> i_data i = IFile r0 -> wf_id r -> timespec_wf tm ->
  inode_wf (file_inode i r tm) /\ kind_ok (file_inode i r tm).
Proof.
  intros Hw Hk Hd Hr Ht. assert (Hs : same_node i (with_data i (IFile r))) by (apply (same_node_file i r r0); unfold file_data; by rewrite Hd).
  split.
  - assert (inode_wf (with_data i (IFile r))) as [] by (apply (same_node_wf i); done). by split.
  - by apply (same_node_kind i) in Hs.
Qed.

(** Writing an inode leaves the other trees of the root. *)
Lemma put_inode_root t ino i t' : put_inode_in_tx content_id limits t ino i = Ok t' -> same_but_inodes (txn_root t) (txn_root t').
Proof.
  unfold put_inode_in_tx. destruct (put_inode content_id t i) as [[id t0]|] eqn:E0; [|done]. cbn [rbind].
  assert (txn_root t0 = txn_root t) as <-.
  { unfold put_inode in E0. destruct (of_trap_codec _); [|done]. cbn [rbind] in E0. by injection E0 as _ <-. }
  destruct (of_tree _) as [[r x]|]; [|done]. cbn [rbind]. intros [= <-]. done.
Qed.

(** Writing the inode of the file. *)
Lemma put_file_ok t n I N ino i (i' : Inode) (r : ChunkId) : fs t n I N -> (n <= 128)%nat -> I !! ino = Some i -> (exists r0, i_data i = IFile r0) ->
  inode_wf i' -> kind_ok i' -> i_data i' = IFile r ->
  yields txn_tx (txn_tx t) (put_inode_in_tx content_id limits t ino i')
    (fun t' => same_but_inodes (txn_root t) (txn_root t')) (fun t' => fs t' (S n) (<[ino := i']> I) N).
Proof.
  intros HF Hn Hi [r0 Hr0] Hw Hk Hd. destruct (fs_kinds _ _ _ _ _ _ HF ino i Hi) as (Hu & _).
  assert (Hnone : forall name, N !! (ino, name) = None).
  { intros name. destruct (N !! (ino, name)) eqn:En; [|done]. destruct (fs_owner _ _ _ _ _ _ HF _ _ _ En) as (j & Hj & [dr Hdj]).
    unfold dir_data in Hdj. rewrite Hi in Hj. injection Hj as <-. by rewrite Hr0 in Hdj. }
  destruct (fs_put_inode content_id limits Hid Hfan sh Hsh t n I N N ino i' HF Hn Hu Hw Hk) as (t' & L & E' & Hx & Hpost);
    [done|unfold dir_data; by rewrite Hd|].
  exists t', L. split; [done|]. split; [done|]. split; [by eapply put_inode_root|exact Hpost].
Qed.

(** What the file is once its inode is written. *)
Lemma file_tx_put t t' L n I N C ino (i' : Inode) (r : ChunkId) E : prov_ok (txn_tx t) -> txn_tx t' = stages (txn_tx t) L ->
  same_but_inodes (txn_root t) (txn_root t') -> fs t' (S n) (<[ino := i']> I) N -> i_data i' = IFile r -> wf_id r ->
  holds BTREE_ORDER fanout (txn_tx t) sh (S n) (chunk_index_root (txn_root t)) C -> extents BTREE_ORDER fanout (txn_tx t) sh (S n) r E ->
  file_tx t' (S n) (<[ino := i']> I) N C ino i' E.
Proof.
  intros Hp Hx Hroot HF Hd Hr HC HE. split.
  - done.
  - rewrite Hx, Hroot. by apply holds_keeps.
  - apply lookup_insert_eq.
  - exists r. split_and!; [done..|]. rewrite Hx. by apply extents_stages.
Qed.

Lemma yields_succeeds {A} (tx : A -> Tx StoreError) x m (U Q : A -> Prop) : yields tx x m U Q -> succeeds tx x m Q.
Proof. intros (a & L & ? & ? & _ & ?). by exists a, L. Qed.
Lemma succeeds_earlier {A} (tx : A -> Tx StoreError) x L m (Q : A -> Prop) : succeeds tx (stages x L) m Q -> succeeds tx x m Q.
Proof.
  intros (a & L' & E & Hx & HQ). exists a, (L ++ L'). split; [done|]. split; [by rewrite stages_app|]. intros [_ Hg]%good_app. by apply HQ.
Qed.

(** * One update *)

Lemma fs_set_tx t n I N x L : fs t n I N -> x = stages (txn_tx t) L -> fs (set_tx t x) n I N.
Proof. intros HF ->. by eapply fs_stages. Qed.

Lemma extents_wf (x : Tx StoreError) n (r : ChunkId) E : extents BTREE_ORDER fanout x sh n r E -> wf_id r.
Proof. intros (M & (m & [[-> _]|Ht] & _) & _); [exact zero_id_wf|exact (tree_wf _ _ _ _ _ _ _ _ _ Ht)]. Qed.

Lemma extent_insert_at x n (r : ChunkId) E off b : prov_ok x -> extents BTREE_ORDER fanout x sh n r E -> (n <= 128)%nat -> is_u64 off -> value_ok b ->
  yields snd x (of_tree (extent_insert content_id BTREE_ORDER fanout x r off b))
    (fun a => wf_id (fst a)) (fun a => extents BTREE_ORDER fanout (snd a) sh (S n) (fst a) (<[off := b]> E)).
Proof.
  intros Hx (M & HM & HE) Hn Ho Hb. destruct (insert_ok content_id BTREE_ORDER fanout order_ok Hfan Hid x sh n r M (extent_key off) b
    Hsh Hx HM Hn (extent_key_ok off) Hb) as (r' & l & Ei & Hnew & _).
  exists (r', staged content_id x l), (map node_record l). unfold extent_insert. rewrite Ei. split; [done|]. cbn [fst snd]. split; [by rewrite staged_stages|].
  split; [exact (insert_root_wf content_id BTREE_ORDER fanout Hid _ _ _ _ _ _ Ei)|]. rewrite good_nodes. intros Hg. exists (<[extent_key off := b]> M). split; [by apply Hnew|by apply extents_insert].
Qed.

Lemma extent_remove_at x n (r : ChunkId) E off : prov_ok x -> extents BTREE_ORDER fanout x sh n r E -> (n <= 128)%nat -> is_u64 off ->
  succeeds snd x (of_tree (extent_remove content_id BTREE_ORDER fanout x r off))
    (fun a => extents BTREE_ORDER fanout (snd a) sh n (fst (fst a)) (delete off E)).
Proof.
  intros Hx (M & HM & HE) Hn Ho. destruct (remove_ok content_id BTREE_ORDER fanout order_ok Hfan Hid x sh n r M (extent_key off) Hsh Hmin Hx HM Hn)
    as (r' & l & Ei & Hnew & _).
  eexists (r', _, staged content_id x l), (map node_record l). unfold extent_remove. rewrite (get_ok _ _ _ _ _ _ _ _ HM Hn). cbn [rbind]. rewrite Ei. split; [reflexivity|]. cbn [fst snd]. split; [by rewrite staged_stages|].
  rewrite good_nodes. intros Hg. exists (delete (extent_key off) M). split; [by apply Hnew|by apply extents_delete].
Qed.

Lemma put_update_ok t n k I N C ino i E u b : file_tx t n I N C ino i E -> (n <= 128)%nat -> update_fits u b ->
  succeeds txn_tx (txn_tx t) (put_update limits now t k ino u) (fun t' => exists r, let i' := file_inode i r (now k) in
      file_tx t' (S n) (<[ino := i']> I) N (indexed C u b) ino i' (<[eu_offset u := b]> E)).
Proof.
  intros HF Hn Hu. unfold put_update. destruct (put_objects_stages t (Representation_len (eu_descriptor u)) (eu_objects u)) as (L0 & E0 & R0).
  set (t0 := put_objects _ _ _) in *. pose proof (file_tx_stages _ _ _ _ _ _ _ _ _ _ HF E0 R0) as HF0.
  destruct (ft_file _ _ _ _ _ _ _ _ HF0) as (r & Hd & Hw & HE). apply (succeeds_earlier txn_tx _ L0). rewrite <-E0.
  apply (yields_succeeds txn_tx _ _ (fun _ => True)). eapply yields_bind; [by eapply put_chunk_ok|]. intros t1 L1 Ex1 [HF1 HE1].
  destruct Hu as [Ho Hv He Hb Hc]. unfold put_extent_in_tx. rewrite He. cbn [of_codec map_err rbind]. pose proof (ft_inode _ _ _ _ _ _ _ _ HF0) as Hi.
  destruct (fs_kinds _ _ _ _ _ _ HF1 ino i Hi) as (Hui & Hwf & Hk).
  rewrite (fs_inode limits sh t1 n I N ino HF1 Hn Hui), Hi. cbn [rbind]. rewrite Hd.
  eapply yields_bind; [by apply extent_insert_at; [apply HF1|by apply HE1|..]|]. intros [r' x'] L2 Ex2 Hw'. cbn [fst snd] in *.
  destruct (file_inode_wf i r r' (now k) Hwf Hk Hd Hw' (Hnow k)) as [Hwf' Hk'].
  assert (HF1' : fs (set_tx t1 x') n I N) by by eapply fs_set_tx.
  eapply yields_impl; [apply (put_file_ok (set_tx t1 x') n I N ino i (file_inode i r' (now k)) r'); try done; by exists r|done|].
  intros t' L3 Ex3 Hroot HF' HE' _ HC _. exists r'. eapply file_tx_put; [apply HF1'|exact Ex3|exact Hroot|exact HF'|done|exact Hw'| |exact HE'].
  cbn [txn_tx txn_root set_tx]. rewrite Ex2. by apply holds_keeps; [apply HF1|].
Qed.

(** * The updates *)

(** The maps after a list of updates, each with its encoded descriptor. *)
Definition updates_extents E (l : list (ExtentUpdate * bytes)) : gmap Z bytes := fold_left (fun E ub => <[eu_offset (fst ub) := snd ub]> E) l E.
Definition updates_chunks C (l : list (ExtentUpdate * bytes)) : gmap bytes bytes := fold_left (fun C ub => indexed C (fst ub) (snd ub)) l C.
(** The change time after them. *)
Definition updates_ctime (k : nat) (l : list (ExtentUpdate * bytes)) (tm : Timespec) : Timespec :=
  match l with [] => tm | _ => now (k + (length l - 1)) end.

(** The updates one at a time. *)
Fixpoint put_each (k : nat) (ino : Z) (us : list ExtentUpdate) : list (Txn -> outcome Txn) :=
  match us with
  | [] => []
  | u :: us => (fun t => put_update limits now t k ino u) :: put_each (S k) ino us
  end.

Lemma put_updates_ok l : forall t n k I N C ino i E, file_tx t n I N C ino i E -> (n + length l <= 128)%nat ->
  Forall (fun ub => update_fits (fst ub) (snd ub)) l ->
  steps txn_tx (put_each k ino (map fst l)) t (fun t' => put_updates limits now t k ino (map fst l) = Ok t' /\
    exists r, let i' := file_inode i r (updates_ctime k l (i_ctime i)) in
      file_tx t' (length l + n) (<[ino := i']> I) N (updates_chunks C l) ino i' (updates_extents E l)).
Proof.
  induction l as [|[u b] l IH]; intros t n k I N C ino i E HF Hn Hl; cbn [map put_each put_updates run_steps].
  - split; [done|]. destruct (ft_file _ _ _ _ _ _ _ _ HF) as (r & Hd & _). exists r. cbn.
    replace (file_inode i r (i_ctime i)) with i by (destruct i; unfold file_inode; cbn in *; by rewrite Hd).
    by rewrite insert_id by apply HF.
  - apply Forall_cons in Hl as [Hu Hl]. cbn [length fst snd] in *.
    eapply succeeds_impl; [by apply (put_update_ok t n k I N C ino i E u b); [|lia|]|]. intros t' L -> _ [r HF']. cbn [rbind].
    eapply steps_impl; [|by apply (IH t' (S n) (S k)); [|lia|]]. cbn beta. intros t'' [-> [r' HF'']]. split; [done|]. exists r'. rewrite insert_insert_eq in HF''.
    replace (length l + S n)%nat with (S (length l + n)) in HF'' by lia.
    assert (Et : updates_ctime (S k) l (now k) = updates_ctime k ((u, b) :: l) (i_ctime i)).
    { unfold updates_ctime. destruct l; cbn [length]; [f_equal; lia|]. f_equal. lia. }
    cbn [updates_extents updates_chunks fold_left fst snd]. rewrite <-Et. exact HF''.
Qed.

(** * The new size *)

(** The extents of a listing that start behind [size], taken out. *)
Definition without (size : Z) (l : list (Z * bytes)) E : gmap Z bytes :=
  fold_left (fun E y => if size <=? fst y then delete (fst y) E else E) l E.

Lemma without_lookup size l : forall E o, without size l E !! o = if decide (size <= o /\ o ∈ map fst l) then None else E !! o.
Proof.
  induction l as [|[o' b'] l IH]; intros E o; cbn [without fold_left map fst].
  - rewrite decide_False; [done|]. by intros [_ ?%elem_of_nil].
  - unfold without in IH. rewrite IH. pose proof (elem_of_cons (map fst l) o o') as Hc. destruct (Z.leb_spec size o') as [Hle|Hgt].
    + destruct (decide (o = o')) as [->|Hne].
      * rewrite lookup_delete_eq. repeat case_decide; done || tauto.
      * rewrite lookup_delete_ne by done. repeat case_decide; done || tauto.
    + repeat case_decide; try done; [tauto|]. exfalso. destruct H0 as [? [->|?]%Hc]; [lia|tauto].
Qed.

Lemma without_listing size E l : listing E l -> without size l E = base.filter (fun y : Z * bytes => y.1 < size) E.
Proof.
  intros [_ Hl]. apply map_eq. intros o. rewrite without_lookup. destruct (E !! o) as [b|] eqn:Eo.
  - assert (Ho : o ∈ map fst l) by (apply list_elem_of_fmap; exists (o, b); split; [done|by apply Hl]). case_decide as H.
    + symmetry. apply map_lookup_filter_None. right. intros ? _ ?. cbn in *. lia.
    + symmetry. apply map_lookup_filter_Some. split; [done|]. cbn. destruct (Z.lt_ge_cases o size); [done|]. by destruct H.
  - transitivity (@None bytes); [by case_decide|]. symmetry. apply map_lookup_filter_None. by left.
Qed.

(** The extents of a listing one at a time; the state is the root of the
    extent tree and the transaction. *)
#[local] Abbreviation kept_tx := (fun a : ChunkId * Txn => txn_tx (snd a)).
Definition remove_each (size : Z) (l : list (Z * bytes)) : list (ChunkId * Txn -> outcome (ChunkId * Txn)) :=
  map (fun y a => remove_past limits (snd a) (fst a) size [y]) l.

Lemma remove_past_cons t (keep : ChunkId) size y l :
  remove_past limits t keep size (y :: l) = rbind (remove_past limits t keep size [y]) (fun a => remove_past limits (snd a) (fst a) size l).
Proof. destruct y as [o b]. cbn [remove_past]. destruct (size <=? o); [|done]. by destruct (of_tree _) as [[[r e] x]|]. Qed.

Lemma remove_past_ok size n l : forall t (keep : ChunkId) E, prov_ok (txn_tx t) -> extents BTREE_ORDER fanout (txn_tx t) sh n keep E -> (n <= 128)%nat ->
  Forall (fun y : Z * bytes => is_u64 y.1) l ->
  steps kept_tx (remove_each size l) (keep, t) (fun a => remove_past limits t keep size l = Ok a /\
    txn_root (snd a) = txn_root t /\ (exists L, txn_tx (snd a) = stages (txn_tx t) L) /\
    extents BTREE_ORDER fanout (txn_tx (snd a)) sh n (fst a) (without size l E)).
Proof.
  induction l as [|[o b] l IH]; intros t keep E Hp HE Hn Hu.
  - cbn [remove_each map run_steps]. split; [done|]. cbn [fst snd]. split; [done|]. split; [by exists []|done].
  - rewrite remove_past_cons. apply Forall_cons in Hu as [Ho Hu]. cbn [remove_each map run_steps fst snd without fold_left] in *.
    cbn [remove_past]. destruct (size <=? o) eqn:Es.
    + destruct (extent_remove_at _ n keep E o Hp HE Hn Ho) as ([[r' existed] x'] & L & Ee & Ex & HE'). rewrite Ee. cbn [rbind fst snd] in *.
      exists (r', set_tx t x'), L. split; [done|]. split; [done|]. intros Hg. specialize (HE' Hg). cbn [snd set_tx txn_tx] in *.
      assert (Hx' : prov_ok x') by (rewrite Ex; by apply stages_ok).
      eapply steps_impl; [|by apply (IH (set_tx t x') r' (delete o E) Hx')]. cbn beta. cbn [fst snd set_tx txn_root txn_tx].
      intros [k' t'] (-> & Hr & (L' & Et) & Hk). cbn [fst snd] in *. split_and!; [done..| |done]. exists (L ++ L'). by rewrite Et, Ex, stages_app.
    + exists (keep, t), []. split; [done|]. split; [done|]. intros _. cbn [rbind fst snd]. by apply IH.
Qed.

(** Strictly ascending offsets below a bound are no more than the bound. *)
Lemma offsets_length hi l : StronglySorted Z.lt l -> forall lo, Forall (fun o => lo <= o < hi) l -> zlen l <= Z.max 0 (hi - lo).
Proof.
  induction 1 as [|o l _ IH Hlt]; intros lo Hl; [unfold zlen; cbn; lia|]. apply Forall_cons in Hl as [Ho Hl].
  rewrite zlen_cons. assert (zlen l <= Z.max 0 (hi - (o + 1))); [|lia]. apply IH. rewrite list.Forall_forall in *.
  intros o' Ho'. specialize (Hlt _ Ho'). specialize (Hl _ Ho'). lia.
Qed.

(** Offsets that a listing of the whole tree can reach. *)
Definition offsets_below E : Prop := forall o, is_Some (E !! o) -> o < 2 ^ 64 - 1.

Lemma extent_scan_all_ok (x : Tx StoreError) n (r : ChunkId) E : extents BTREE_ORDER fanout x sh n r E -> (n <= 128)%nat -> offsets_below E ->
  exists l, listing E l /\ Forall (fun y : Z * bytes => is_u64 y.1) l /\ of_tree (extent_scan_all BTREE_ORDER fanout x r) = Ok l.
Proof.
  intros (M & (m & Hix & ->) & HE) Hn Hb. destruct (extents_listing E m HE (index_sorted _ _ _ _ _ _ _ Hix)) as (l & Hl & -> & Hu).
  exists l. split; [done|]. split; [done|]. unfold extent_scan_all.
  destruct (scan_ok BTREE_ORDER fanout x sh n r _ None None (2 ^ 64 - 1) Hix Hn ltac:(lia)) as (more & -> & _). cbn [rbind].
  rewrite range_all, take_ge, decode_starts_ok; [done|done| |by apply Forall_true].
  assert (zlen (map fst l) <= Z.max 0 (2 ^ 64 - 1 - 0)).
  { apply (offsets_length (2 ^ 64 - 1)); [apply Hl|]. apply Forall_fmap. rewrite list.Forall_forall in *. intros [o b] Hin. cbn.
    pose proof (Hu _ Hin) as Ho. cbn in Ho. split; [width|]. apply Hb. eexists. by apply Hl. }
  rewrite zlen_map in H. rewrite length_map. unfold zlen in H. lia.
Qed.

(** Every extent of the file is looked at, one at a time. *)
Lemma keep_below_ok t n (r : ChunkId) E size : prov_ok (txn_tx t) -> extents BTREE_ORDER fanout (txn_tx t) sh n r E -> (n <= 128)%nat -> offsets_below E ->
  exists l, of_tree (extent_scan_all BTREE_ORDER fanout (txn_tx t) r) = Ok l /\ listing E l /\
  steps kept_tx (remove_each size l) (r, t) (fun a => keep_below limits t r size = Ok a /\
    txn_root (snd a) = txn_root t /\ (exists L, txn_tx (snd a) = stages (txn_tx t) L) /\
    extents BTREE_ORDER fanout (txn_tx (snd a)) sh n (fst a) (base.filter (fun y : Z * bytes => y.1 < size) E)).
Proof.
  intros Hp HE Hn Hb. destruct (extent_scan_all_ok _ _ _ _ HE Hn Hb) as (l & Hl & Hu & Es). exists l. split; [done|]. split; [done|]. unfold keep_below. rewrite Es. cbn [rbind].
  rewrite <-(without_listing size E l Hl). by apply remove_past_ok.
Qed.

Definition resized_inode (i : Inode) (r : ChunkId) (size : Z) (tm : Timespec) : Inode := with_mtime (with_size (with_data i (IFile r)) size) tm.

Lemma resized_wf i r0 r size tm : inode_wf i -> kind_ok i -> i_data i = IFile r0 -> wf_id r -> is_u64 size -> timespec_wf tm ->
  inode_wf (resized_inode i r size tm) /\ kind_ok (resized_inode i r size tm).
Proof.
  intros Hw Hk Hd Hr Hs Ht. assert (Hsn : same_node i (with_data i (IFile r))) by (apply (same_node_file i r r0); unfold file_data; by rewrite Hd).
  split.
  - assert (inode_wf (with_data i (IFile r))) as [] by (apply (same_node_wf i); done). by split.
  - by apply (same_node_kind i) in Hsn.
Qed.

(** The inode that goes in is the resized one whether or not extents went. *)
Lemma resized_same i r0 r size tm : i_data i = IFile r0 ->
  with_mtime (with_size (if bool_decide (r <> r0) then with_data i (IFile r) else i) size) tm = resized_inode i r size tm.
Proof.
  intros Hd. unfold resized_inode. case_bool_decide as H; [done|]. subst r0.
  replace (with_data i (IFile r)) with i; [done|]. destruct i; cbn in *; by rewrite Hd.
Qed.

Lemma extents_le (x : Tx StoreError) n n' (r : ChunkId) E : (n <= n')%nat -> extents BTREE_ORDER fanout x sh n r E -> extents BTREE_ORDER fanout x sh n' r E.
Proof. intros Hn (M & HM & HX). exists M. split; [by eapply holds_le|done]. Qed.

Lemma extents_zero (x : Tx StoreError) n (r : ChunkId) E : extents BTREE_ORDER fanout x sh n r E -> ChunkId_is_zero r = true -> E = ∅.
Proof.
  intros (M & (m & [[-> ->]|Ht] & ->) & [Hu HX]) Ez; [|by rewrite (tree_nonzero _ _ _ _ _ _ _ _ _ Ht) in Ez].
  apply map_eq. intros o. rewrite lookup_empty. destruct (E !! o) as [b|] eqn:Eo; [|done]. exfalso.
  assert (H : (∅ : gmap bytes bytes) !! extent_key o = Some b); [|done]. apply HX. exists o. split_and!; [apply Hu; by eexists|done..].
Qed.

Lemma set_file_size_ok t n k I N C ino i E size : file_tx t n I N C ino i E -> (n <= 128)%nat -> offsets_below E -> is_u64 size ->
  exists i1 (r1 : ChunkId) l, inode_for_tx limits t ino = Ok i1 /\ i_data i1 = IFile r1 /\
    of_tree (extent_scan_all BTREE_ORDER fanout (txn_tx t) r1) = Ok l /\
  steps kept_tx (remove_each size l) (r1, t) (fun a =>
  succeeds txn_tx (txn_tx (snd a)) (set_file_size limits now t k ino size) (fun t' =>
    exists r, let i' := resized_inode i r size (now k) in
      file_tx t' (S n) (<[ino := i']> I) N C ino i' (base.filter (fun y : Z * bytes => y.1 < size) E))).
Proof.
  intros [HF HC Hi (r & Hd & Hw & HE)] Hn Hb Hs. pose proof (fs_ok _ _ _ _ _ _ HF) as Hp. destruct (fs_kinds _ _ _ _ _ _ HF ino i Hi) as (Hui & Hwf & Hk).
  assert (Hput : forall t1 L (keep : ChunkId), txn_root t1 = txn_root t -> txn_tx t1 = stages (txn_tx t) L ->
    extents BTREE_ORDER fanout (txn_tx t1) sh n keep (base.filter (fun y : Z * bytes => y.1 < size) E) ->
    succeeds txn_tx (txn_tx t1) (put_inode_in_tx content_id limits t1 ino (resized_inode i keep size (now k))) (fun t' =>
      exists r, let i' := resized_inode i r size (now k) in
        file_tx t' (S n) (<[ino := i']> I) N C ino i' (base.filter (fun y : Z * bytes => y.1 < size) E))).
  { intros t1 L keep Hroot Hx HE1. pose proof (extents_wf _ _ _ _ HE1) as Hw'. destruct (resized_wf i r keep size (now k)) as [Hwf' Hk']; try done.
    assert (HF1 : fs t1 n I N) by by eapply fs_stages.
    apply (yields_succeeds txn_tx _ _ (fun _ => True)).
    eapply yields_impl; [apply (put_file_ok t1 n I N ino i (resized_inode i keep size (now k)) keep); try done; by exists r|done|].
    intros t' L' Ex' Hsame HF'. exists keep. eapply file_tx_put; [apply HF1|exact Ex'|exact Hsame|exact HF'|done|exact Hw'| |].
    - rewrite Hx, Hroot. eapply holds_le; [|by apply holds_keeps]. lia.
    - eapply extents_le; [|exact HE1]. lia. }
  destruct (keep_below_ok t n r E size Hp HE Hn Hb) as (l & Es & Hl & Hsteps). exists i, r, l.
  unfold set_file_size. rewrite (fs_inode limits sh t n I N ino HF Hn Hui), Hi. split; [done|]. split; [done|]. split; [done|]. cbn [rbind]. rewrite Hd.
  destruct (ChunkId_is_zero r) eqn:Ez; cbn [rbind].
  - assert (l = []) as ->.
    { unfold extent_scan_all, scan in Es. rewrite Ez in Es. by injection Es as <-. }
    cbn [remove_each map run_steps fst snd]. pose proof (Hput t [] r eq_refl eq_refl) as Hr.
    rewrite <-(resized_same i r r size (now k) Hd), bool_decide_eq_false_2 in Hr by auto. apply Hr.
    pose proof (extents_zero _ _ _ _ HE Ez) as ->. by rewrite map_filter_empty.
  - eapply steps_impl; [|exact Hsteps]. cbn beta. intros [keep t1] (Ek & Hroot & (L & Hx) & HE1). cbn [fst snd] in *.
    rewrite Ek. cbn [rbind]. rewrite resized_same by done. by eapply Hput.
Qed.

Lemma file_tx_le t n n' I N C ino i E : (n <= n')%nat -> file_tx t n I N C ino i E -> file_tx t n' I N C ino i E.
Proof.
  intros Hn [HF HC Hi (r & Hr & Hw & HE)]. split; [by eapply fs_le|by eapply holds_le|done|].
  exists r. split_and!; [done..|]. by eapply extents_le.
Qed.

Lemma updates_below l : forall E, offsets_below E -> Forall (fun ub : ExtentUpdate * bytes => eu_offset (fst ub) < 2 ^ 64 - 1) l -> offsets_below (updates_extents E l).
Proof.
  induction l as [|[u b] l IH]; intros E HE Hl; [done|]. apply Forall_cons in Hl as [Hu Hl]. apply IH; [|done].
  intros o [b' Hb]. cbn [fst snd] in *. apply lookup_insert_Some in Hb as [[<- _]|[_ Hb]]; [done|]. apply HE. by eexists.
Qed.

(** The file after a commit: its size cuts the extents off. *)
Definition kept (size : option Z) E : gmap Z bytes :=
  match size with Some s => base.filter (fun y : Z * bytes => y.1 < s) E | None => E end.
(** Its inode, [m] readings of the clock later. *)
Definition committed_inode (i : Inode) (r : ChunkId) (m : nat) (ctime : Timespec) (size : option Z) : Inode :=
  match size with Some s => resized_inode (file_inode i r ctime) r s (now m) | None => file_inode i r ctime end.

(** C6. [commit_file_extents].  Over a transaction that stands for a file
    system, the commit of a list of updates runs through, and the transaction
    it leaves stands for the same file system with one inode changed: the
    file's extents are the old ones with the updates written over them in
    order, those at or behind the new size taken out; the chunk index has the
    updates' content ids, except the self-aliasing ones; every other inode
    and every directory is as it was.

    The updates are followed one at a time, and so are the removals behind the
    new size: the commit succeeds when none of them has staged a payload that
    collides, since the next one reads what it staged. *)
Theorem commit_refines t n I N C ino i E (l : list (ExtentUpdate * bytes)) (size : option Z) :
  file_tx t n I N C ino i E -> (n + length l <= 128)%nat -> offsets_below E ->
  Forall (fun ub : ExtentUpdate * bytes => update_fits (fst ub) (snd ub) /\ eu_offset (fst ub) < 2 ^ 64 - 1) l ->
  match size with Some s => is_u64 s | None => True end ->
  let post := fun t' => exists r, let i' := committed_inode i r (length l) (updates_ctime 0 l (i_ctime i)) size in
      file_tx t' (S (length l + n)) (<[ino := i']> I) N (updates_chunks C l) ino i' (kept size (updates_extents E l)) in
  let commit := commit_file_extents limits now t ino (map fst l) size in
  steps txn_tx (put_each 0 ino (map fst l)) t (fun t1 =>
    match size with
    | None => commit = Ok t1 /\ post t1
    | Some s =>
        exists i1 (r1 : ChunkId) all, inode_for_tx limits t1 ino = Ok i1 /\ i_data i1 = IFile r1 /\
          of_tree (extent_scan_all BTREE_ORDER fanout (txn_tx t1) r1) = Ok all /\
        steps kept_tx (remove_each s all) (r1, t1) (fun a => succeeds txn_tx (txn_tx (snd a)) commit post)
    end).
Proof.
  intros HF Hn Hb Hl Hs post commit. apply Forall_and in Hl as [Hl Hlo]. subst commit. unfold commit_file_extents.
  eapply steps_impl; [|by apply (put_updates_ok l t n 0 I N C ino i E)]. cbn beta. intros t' [-> [r HF']]. cbn [rbind].
  destruct size as [s|].
  - destruct (set_file_size_ok _ _ (length l) _ _ _ _ _ _ s HF') as (i1 & r1 & all & E1 & Ed & Es & Hst); [lia|by apply updates_below|done|].
    exists i1, r1, all. split; [exact E1|]. split; [exact Ed|]. split; [exact Es|]. rewrite length_map. eapply steps_impl; [|exact Hst]. cbn beta. intros a Ha.
    eapply succeeds_impl; [exact Ha|]. intros t'' L _ _ [r' HF'']. exists r'. cbv zeta in HF''. rewrite insert_insert_eq in HF''. exact HF''.
  - split; [done|]. exists r. eapply file_tx_le; [|exact HF']. lia.
Qed.

(** * Truncation *)




End Commit.

(** * Examples *)

(** The file of eight bytes, in a transaction: two bytes written at 4, and the
    file cut at six. *)
Definition two_tx : Txn := {| txn_tx := two_store; txn_root := txn_root two_txn; txn_features := 0 |}.
Definition nine_bytes : bytes := Eval vm_compute in match Descriptor.encode (Inline [9; 9]) with Ok b => b | Err _ => [] end.
Definition nine_update : ExtentUpdate :=
  {| eu_offset := 4; eu_descriptor := Inline [9; 9]; eu_content_id := mix_hash [9; 9]; eu_objects := [] |}.

Lemma two_file_tx : file_tx Limits_default full_shape two_tx 0 {[ 2 := two_inode ]} ∅ ∅ 2 two_inode two_map.
Proof.
  split; [exact two_fs|exact two_chunk_index|by vm_compute|]. exists two_root. split; [by vm_compute|].
  split; [apply (bool_decide_unpack _); by vm_compute|exact two_extents_hold].
Qed.

Lemma nine_fits : update_fits Limits_default nine_update nine_bytes.
Proof. split; [cbn; width|by eexists; vm_compute|by vm_compute|split; [apply (bool_decide_unpack _); by vm_compute|by vm_compute]|apply mix_hash_wf]. Qed.

Lemma two_below : offsets_below two_map.
Proof. intros o [b Hb]. unfold two_map in Hb. rewrite lookup_insert_Some, lookup_singleton_Some in Hb. naive_solver lia. Qed.

(** The state that a step reaches, and one step of a run, all of whose
    payloads read back. *)
Definition reached {A} (m : outcome A) (d : A) : A := match m with Ok a => a | Err _ => d end.
Ltac advance H d :=
  let a := fresh "a" in let E := fresh "E" in let Ea := fresh "Ea" in
  lazymatch type of H with
  | TransactionSpec.succeeds ?c ?tx ?x ?m ?P =>
      destruct (succeeds_clean c tx x m P H ltac:(by vm_compute)) as (a & E & H');
      clear H; rename H' into H; assert (Ea : a = reached m d) by exact (eq_sym (f_equal (fun o => reached o d) E)); subst a; clear E
  end.

Lemma commit_refines_witness :
  exists t', @commit_file_extents big_hash Limits_default clock two_tx 2 [nine_update] (Some 4) = Ok t' /\
    exists r, let i' := resized_inode (file_inode two_inode r (clock 0)) r 4 (clock 1) in
      file_tx Limits_default full_shape t' 2 (<[2 := i']> {[ 2 := two_inode ]}) ∅ {[ mix_hash [9; 9] := nine_bytes ]} 2 i'
        (base.filter (fun y : Z * bytes => y.1 < 4) (<[4 := nine_bytes]> two_map)).
Proof.
  pose proof (@commit_refines big_hash Limits_default clock mix_hash_wf ltac:(by vm_compute) clock_wf full_shape ltac:(by vm_compute) eq_refl
    two_tx 0 {[ 2 := two_inode ]} ∅ ∅ 2 two_inode two_map [(nine_update, nine_bytes)] (Some 4) two_file_tx ltac:(cbn; lia) two_below
    ltac:(apply Forall_singleton; split; [exact nine_fits|cbn; lia]) ltac:(width)) as H.
  cbv zeta in H. cbn [map fst put_each run_steps] in H.
  advance H two_tx.
  destruct H as (i1 & r1 & all & E1 & Ed & Es & H).
  vm_compute in E1. injection E1 as <-. vm_compute in Ed. injection Ed as <-. vm_compute in Es. injection Es as <-.
  cbn [remove_each map run_steps] in H.
  advance H (two_root, two_tx). advance H (two_root, two_tx).
  exact (succeeds_clean _ _ _ _ _ H ltac:(by vm_compute)).
Defined.

