(* ===== verification/FacadeSpec.v ===== *)
(** The facade against the maps a store stands for: paths, parents, snapshots
    and extended attributes. *)
From stdpp Require Import gmap sorting.
From Stdlib Require String.
From S2P Require Import Prelude Codec Repr Version SegRecord Inode Superblock Descriptor Context Streams Materialize Candidate Keys BTree StoreError RootObj BTreeNode BTreeSpec BTreeCheck IndexSpec RemoveSpec ScanSpec ExtentTree ExtentSpec Directory DirectorySpec Transaction TransactionSpec Namespace NamespaceSpec Mutation MutationSpec Epoch Checkpoint FileWrite Facade EpochSpec CheckpointSpec EpochInvariant FileReadSpec FileWriteSpec CommitSpec.
Import String.StringSyntax.

(** * Paths *)

(** The parts with the separator between them. *)
Fixpoint join_path (parts : list bytes) : bytes :=
  match parts with
  | [] => []
  | [part] => part
  | part :: parts' => part ++ 47 :: join_path parts'
  end.

Lemma split_path_cons path : exists part parts, split_path path = part :: parts.
Proof.
  induction path as [|b path (part & parts & E)]; cbn [split_path]; [by eexists _, _|].
  destruct (b =? 47); [by eexists _, _|]. rewrite E. by eexists _, _.
Qed.

Lemma split_path_ok path : join_path (split_path path) = path /\ Forall (fun part => 47 ∉ part) (split_path path).
Proof.
  induction path as [|b path [Hj Hf]]; cbn [split_path]; [split; [done|]; repeat constructor; by apply not_elem_of_nil|].
  destruct (split_path_cons path) as (part & parts & E). rewrite E in *. destruct (Z.eqb_spec b 47) as [->|Hb].
  - split; [change (47 :: join_path (part :: parts) = 47 :: path); by rewrite Hj|]. constructor; [by apply not_elem_of_nil|done].
  - apply Forall_cons in Hf as [Hp Hf]. split.
    + rewrite <-Hj. by destruct parts.
    + constructor; [|done]. rewrite not_elem_of_cons. by split.
Qed.

Lemma split_path_unique parts : parts <> [] -> Forall (fun part => 47 ∉ part) parts -> split_path (join_path parts) = parts.
Proof.
  induction parts as [|part parts IH]; intros Hne Hf; [done|]. apply Forall_cons in Hf as [Hp Hf].
  induction part as [|b part IHp].
  - destruct parts as [|p2 parts]; [done|]. change (join_path ([] :: p2 :: parts)) with (47 :: join_path (p2 :: parts)). cbn [split_path].
    change (47 =? 47) with true. cbv iota. by rewrite IH.
  - apply not_elem_of_cons in Hp as [Hb Hp]. assert (IHp' : split_path (join_path (part :: parts)) = part :: parts) by by apply IHp.
    assert (Ej : join_path ((b :: part) :: parts) = b :: join_path (part :: parts)) by by destruct parts.
    rewrite Ej. cbn [split_path]. rewrite (proj2 (Z.eqb_neq b 47)) by congruence. by rewrite IHp'.
Qed.

Section Committed.
Context (limits : Limits) (sh : Shape) (x : Tx StoreError) (root : Root) (n : nat) (I : gmap Z Inode) (N : Names).
#[local] Abbreviation fanout := (max_fanout limits).
Context (HF : NamespaceSpec.fs limits sh {| txn_tx := x; txn_root := root; txn_features := 0 |} n I N) (Hpend : tx_pending x = ∅) (Hn : (n <= 128)%nat).

Lemma committed_inode_ok ino : is_u64 ino ->
  committed_inode_of limits x root ino = match I !! ino with Some i => Ok i | None => Err (Error (StoreInvariant "inode missing")) end.
Proof. intros Hu. unfold committed_inode_of. rewrite (get_inode_ok limits sh x root n I N HF Hpend Hn ino Hu). by destruct (I !! ino). Qed.

(** A lookup in a committed directory. *)
Definition looked_up (dir : Z) (name : bytes) : outcome (option DirEntry) :=
  match I !! dir with
  | None => invariant "inode missing"
  | Some i => match dir_data i with Some _ => Ok (N !! (dir, name)) | None => invariant "not a directory" end
  end.

Lemma Store_dir_lookup_ok dir name : is_u64 dir -> Store_dir_lookup limits x root dir name = looked_up dir name.
Proof.
  intros Hu. unfold Store_dir_lookup, looked_up. rewrite committed_inode_ok by done. destruct (I !! dir) as [i|] eqn:Hi; [|done]. cbn [rbind].
  destruct (dir_data i) as [r|] eqn:Hd; [|by rewrite (dir_root_of_not _ _ Hd)]. rewrite (dir_root_of_ok _ _ _ Hd). cbn [rbind].
  destruct (fs_dirs _ _ _ _ _ _ HF dir i r Hi Hd) as (E & HE & Hv). by rewrite (dir_lookup_ok _ _ _ _ _ _ _ _ HE Hn), Hv.
Qed.

Lemma names_ok dir name e : N !! (dir, name) = Some e -> is_u64 (de_ino e).
Proof.
  intros He. destruct (fs_owner _ _ _ _ _ _ HF _ _ _ He) as (i & Hi & [r Hr]). destruct (fs_dirs _ _ _ _ _ _ HF dir i r Hi Hr) as (E & HE & Hv).
  destruct (directory_entries_ok BTREE_ORDER fanout x sh n r E name e HE) as [_ [? _]]; [by rewrite Hv|done].
Qed.

(** The walk of a path through the names. *)
Fixpoint resolved (ino : Z) (components : list bytes) : outcome (option Z) :=
  match components with
  | [] => Ok (Some ino)
  | comp :: components' =>
      if bool_decide (comp = [46; 46]) then invariant "'..' resolution not supported in v1 resolve_path"
      else let! o := looked_up ino comp in
           match o with Some e => resolved (de_ino e) components' | None => Ok None end
  end.

Lemma resolve_components_ok components : forall ino, is_u64 ino -> resolve_components limits x root ino components = resolved ino components.
Proof.
  induction components as [|comp components IH]; intros ino Hu; [done|]. cbn [resolve_components resolved]. case_bool_decide; [done|].
  rewrite Store_dir_lookup_ok by done. unfold looked_up. destruct (I !! ino) as [i|]; [|done]. destruct (dir_data i); [|done]. cbn [rbind].
  destruct (N !! (ino, comp)) as [e|] eqn:En; [|done]. apply IH. by eapply names_ok.
Qed.

(** [resolve_path].  A path is the one list of parts without a separator
    that joins to it; empty parts and dots are passed over, and the others
    are looked up one in the other from the root directory: a name that is
    missing gives nothing, a [..] or a part below something that is not a
    directory an error. *)
Theorem resolve_path_exact path : is_u64 (root_dir_ino root) ->
  exists parts, join_path parts = path /\ parts <> [] /\ Forall (fun part => 47 ∉ part) parts /\
    (forall parts', join_path parts' = path -> parts' <> [] -> Forall (fun part => 47 ∉ part) parts' -> parts' = parts) /\
    resolve_path limits x root path = resolved (root_dir_ino root) (base.filter (fun part => part <> [] /\ part <> [46]) parts).
Proof.
  intros Hu. destruct (split_path_ok path) as [Hj Hf]. exists (split_path path). split; [done|].
  split; [by destruct (split_path_cons path) as (? & ? & ->)|]. split; [done|]. split.
  - intros parts' <- Hne Hf'. symmetry. by apply split_path_unique.
  - unfold resolve_path, path_components. by apply resolve_components_ok.
Qed.

(** ** Parents *)

Context (Hsize : forall dir E, view N dir E -> Z.of_nat (size E) < 2 ^ 64 - 1) (Hinos : Z.of_nat (size I) < 2 ^ 64).

Lemma entries_name_ok ino (l : list (bytes * DirEntry)) : Forall (fun y : bytes * DirEntry => DirEntry_ok y.2) l ->
  entries_name ino (map (enc_named DirEntry_encode) l) = bool_decide (ino ∈ map (fun y : bytes * DirEntry => de_ino y.2) l).
Proof.
  induction 1 as [|[k e] l He _ IH]; [done|]. cbn [map enc_named entries_name fst snd]. rewrite DirEntry_roundtrip by done.
  destruct (Z.eqb_spec (de_ino e) ino) as [<-|Hne].
  - rewrite bool_decide_eq_true_2; [done|by left].
  - rewrite IH. apply bool_decide_ext. rewrite elem_of_cons. split; [by right|]. intros [?|?]; congruence.
Qed.

(** [dir] has an entry for [ino]. *)
Definition parents (dir ino : Z) : Prop := exists name e, N !! (dir, name) = Some e /\ de_ino e = ino.

Lemma parent_among_ok ino dirs : Forall is_u64 dirs ->
  exists p, parent_among limits x root dirs ino = Ok p /\
    ((exists before after, dirs = before ++ p :: after /\ parents p ino /\ Forall (fun d => ~ parents d ino) before) \/
     (Forall (fun d => ~ parents d ino) dirs /\ p = root_dir_ino root)).
Proof.
  induction 1 as [|d dirs Hu _ IH]; [exists (root_dir_ino root); split; [done|]; by right|]. cbn [parent_among].
  rewrite (get_inode_ok limits sh x root n I N HF Hpend Hn d Hu). cbn [rbind].
  assert (Hno : (~ parents d ino) -> exists p, parent_among limits x root dirs ino = Ok p /\
    ((exists before after, d :: dirs = before ++ p :: after /\ parents p ino /\ Forall (fun d => ~ parents d ino) before) \/
     (Forall (fun d => ~ parents d ino) (d :: dirs) /\ p = root_dir_ino root))).
  { intros Hd. destruct IH as (p & E & [(before & after & -> & Hp & Hb)|[Hb ->]]); eexists; (split; [exact E|]).
    - left. exists (d :: before), after. split; [done|]. split; [done|by constructor].
    - right. split; [by constructor|done]. }
  destruct (I !! d) as [i|] eqn:Hi.
  2: { apply Hno. intros (name & e & He & _). destruct (fs_owner _ _ _ _ _ _ HF _ _ _ He) as (j & Hj & _). congruence. }
  assert (Hdir : dir_data i = None -> ~ parents d ino).
  { intros Hd (name & e & He & _). destruct (fs_owner _ _ _ _ _ _ HF _ _ _ He) as (j & Hj & [r Hr]). congruence. }
  unfold dir_data in Hdir. destruct (i_data i) as [r|r|tg|] eqn:Ed; try by apply Hno, Hdir.
  destruct (fs_dirs _ _ _ _ _ _ HF d i r Hi) as (E & HE & Hv); [unfold dir_data; by rewrite Ed|].
  destruct (records_named _ _ _ _ _ _ _ _ _ HE) as (l & Hnm & Hix & Hok).
  assert (Hin : ino ∈ map (fun y : bytes * DirEntry => de_ino y.2) l <-> parents d ino).
  { unfold parents. rewrite list_elem_of_fmap. split.
    - intros ([k e] & -> & Hin). exists k, e. split; [|done]. rewrite <-Hv. by apply Hnm.
    - intros (name & e & He & <-). exists (name, e). split; [done|]. apply Hnm. by rewrite Hv. }
  destruct (ChunkId_is_zero r) eqn:Ez.
  { apply Hno. rewrite <-Hin. destruct Hix as [[-> Em]|Ht]; [|by rewrite (tree_nonzero _ _ _ _ _ _ _ _ _ Ht) in Ez].
    destruct l; [by apply not_elem_of_nil|done]. }
  assert (Hl : zlen (map (enc_named DirEntry_encode) l) < 2 ^ 64).
  { unfold zlen. rewrite length_map, (named_size E l Hnm). specialize (Hsize d E Hv). lia. }
  destruct (scan_all_ok BTREE_ORDER fanout x sh n r _ Hix Hn Hl) as [-> _]. cbn [of_tree map_err rbind].
  rewrite entries_name_ok by done. case_bool_decide as Hb; rewrite Hin in Hb.
  - exists d. split; [done|]. left. by exists [], dirs.
  - by apply Hno.
Qed.

(** [parent_of].  The root directory is its own parent; of another inode
    the result is a directory that has an entry for it, and the root when
    there is none.  With one name per directory that is the one parent. *)
Theorem parent_of_exact ino : is_u64 ino ->
  exists p, parent_of limits x root ino = Ok p /\
    (ino = root_dir_ino root -> p = ino) /\
    (ino <> root_dir_ino root -> parents p ino \/ ((forall d, ~ parents d ino) /\ p = root_dir_ino root)).
Proof.
  intros Hu. unfold parent_of. destruct (Z.eqb_spec ino (root_dir_ino root)) as [->|Hne]; [by eexists|].
  destruct (all_inodes_ok limits sh n I N Hn Hinos _ HF) as (dirs & E & Hd). cbn [txn_tx txn_root] in E. rewrite E. cbn [rbind].
  destruct (parent_among_ok ino dirs) as (p & -> & Hp).
  { apply list.Forall_forall. intros d [i Hi]%Hd. by destruct (fs_kinds _ _ _ _ _ _ HF d i Hi). }
  exists p. split; [done|]. split; [done|]. intros _. destruct Hp as [(? & ? & _ & Hp & _)|[Hno ->]]; [by left|].
  right. split; [|done]. intros d Hp. rewrite list.Forall_forall in Hno. apply (Hno d); [|done].
  destruct Hp as (name & e & He & _). destruct (fs_owner _ _ _ _ _ _ HF _ _ _ He) as (i & Hi & _). apply Hd. by eexists.
Qed.
End Committed.

(** * Extended attributes *)

Section Attributes.
Context {hash : ContentHash} (limits : Limits) (now : nat -> Timespec).
#[local] Abbreviation content_id := (@ChunkId_of hash).
Context (Hid : forall b, wf_id (content_id b)) (Hfan : BTREE_ORDER <= max_fanout limits) (Hnow : forall i, timespec_wf (now i)).
Context (sh : Shape) (Hsh : shape_ok BTREE_ORDER (max_fanout limits) sh) (Hmin : sh_min sh = 1).
#[local] Abbreviation fanout := (max_fanout limits).
#[local] Abbreviation fs := (NamespaceSpec.fs limits sh).
#[local] Abbreviation stages := (TransactionSpec.stages content_id).
#[local] Abbreviation succeeds := (TransactionSpec.succeeds content_id).
#[local] Abbreviation attributes := (holds BTREE_ORDER fanout).
Implicit Types (t : Txn) (n : nat) (I : gmap Z Inode) (N : Names) (A : gmap bytes bytes).

(** Writing an inode whose names are as they were. *)
Lemma put_same_names_ok t n I N ino i (i' : Inode) : fs t n I N -> (n <= 128)%nat -> I !! ino = Some i ->
  inode_wf i' -> kind_ok i' -> dir_data i' = dir_data i ->
  succeeds txn_tx (txn_tx t) (put_inode_in_tx content_id limits t ino i') (fun t' => fs t' (S n) (<[ino := i']> I) N).
Proof.
  intros HF Hn Hi Hw Hk Hd. destruct (fs_kinds _ _ _ _ _ _ HF ino i Hi) as (Hu & _).
  apply (fs_put_inode content_id limits Hid Hfan sh Hsh t n I N N ino i' HF Hn Hu Hw Hk); [done|]. rewrite Hd.
  destruct (dir_data i) as [r|] eqn:Hdi.
  - destruct (fs_dirs _ _ _ _ _ _ HF ino i r Hi Hdi) as (E & HE & Hv). exists E. split; [|done]. eapply directory_le; [|exact HE]. lia.
  - intros name. destruct (N !! (ino, name)) eqn:En; [|done]. destruct (fs_owner _ _ _ _ _ _ HF _ _ _ En) as (j & Hj & [dr Hdj]). congruence.
Qed.

Definition attributed (i : Inode) (r : ChunkId) (tm : Timespec) : Inode := with_ctime (with_xattr_root i r) tm.

Lemma attributed_wf i r tm : inode_wf i -> kind_ok i -> wf_id r -> timespec_wf tm -> inode_wf (attributed i r tm) /\ kind_ok (attributed i r tm).
Proof. intros [] Hk Hr Ht. split; [by split|done]. Qed.

Lemma attributes_wf (x : Tx StoreError) n (r : ChunkId) A : attributes x sh n r A -> wf_id r.
Proof. intros (m & [[-> _]|Ht] & _); [exact zero_id_wf|exact (tree_wf _ _ _ _ _ _ _ _ _ Ht)]. Qed.

(** Writing the tree that an attribute operation made, out of the nodes [l]. *)
Lemma put_attributed_ok t l n m I N ino i A (r : ChunkId) tm : fs t n I N -> (n <= 128)%nat -> I !! ino = Some i -> timespec_wf tm -> wf_id r ->
  let x' := staged content_id (txn_tx t) l in
  (reads_back content_id x' l -> attributes x' sh m r A) ->
  succeeds txn_tx (txn_tx t) (put_inode_in_tx content_id limits (set_tx t x') ino (attributed i r tm))
    (fun t' => fs t' (S n) (<[ino := attributed i r tm]> I) N /\ attributes (txn_tx t') sh m r A).
Proof.
  intros HF Hn Hi Ht Hr x' HA. destruct (fs_kinds _ _ _ _ _ _ HF ino i Hi) as (_ & Hwf & Hk).
  destruct (attributed_wf i r tm Hwf Hk Hr Ht) as [Hwf' Hk']. assert (Hx : x' = stages (txn_tx t) (map node_record l)) by apply staged_stages.
  assert (HF' : fs (set_tx t x') n I N) by (rewrite Hx; by eapply fs_stages).
  destruct (put_same_names_ok (set_tx t x') n I N ino i (attributed i r tm)) as (t' & L & E & Ex & Hpost); [done..|].
  exists t', (map node_record l ++ L). cbn [txn_tx set_tx] in Ex. split; [done|]. split; [by rewrite stages_app, <-Hx|]. intros [Hg1 Hg2]%good_app.
  split; [by apply Hpost|]. rewrite Ex, Hx in Hg1. apply good_earlier in Hg1. rewrite <-Hx, good_nodes in Hg1. rewrite Ex.
  eapply holds_sub; [apply stages_sub, HF'|by apply HA].
Qed.

Lemma xattr_name_ok name : wf_bytes name -> validate_xattr_name name = true -> key_ok name.
Proof.
  intros Hw Hv. unfold validate_xattr_name in Hv. repeat apply andb_prop in Hv as [Hv ?]. split; [done|].
  apply Z.leb_le in H1. unfold XATTR_NAME_MAX in *. lia.
Qed.

(** C23. Extended attributes are a map.  [set_xattr] refuses a name that is
    empty, too long or holds a zero or a slash, and a value above the limit;
    otherwise the file's attributes are the old ones with the value at the
    name, and the inode changes in its attribute tree and change time only.
    [remove_xattr] changes nothing when the name is not there and otherwise
    takes it out. *)
Theorem xattr_updates t n I N ino i A name value :
  fs t n I N -> (n <= 128)%nat -> I !! ino = Some i -> attributes (txn_tx t) sh n (i_xattr_root i) A ->
  wf_bytes name -> wf_bytes value ->
  (if validate_xattr_name name then
     if XATTR_SIZE_MAX <? zlen value then set_xattr limits now t ino name value = Err (Error (StoreLimit "xattr value"))
     else succeeds txn_tx (txn_tx t) (set_xattr limits now t ino name value) (fun t' => exists r, let i' := attributed i r (now 0) in
            fs t' (S n) (<[ino := i']> I) N /\ attributes (txn_tx t') sh (S n) r (<[name := value]> A))
   else set_xattr limits now t ino name value = Err (Error (StoreConfigError "invalid xattr name"))) /\
  (match A !! name with
   | None => remove_xattr limits now t ino name = Ok None
   | Some _ =>
       succeeds (fun o => match o with Some t' => txn_tx t' | None => txn_tx t end) (txn_tx t) (remove_xattr limits now t ino name)
         (fun o => exists t' r, o = Some t' /\ let i' := attributed i r (now 0) in
            fs t' (S n) (<[ino := i']> I) N /\ attributes (txn_tx t') sh n r (delete name A))
   end).
Proof.
  intros HF Hn Hi HA Hwn Hwv. destruct (fs_kinds _ _ _ _ _ _ HF ino i Hi) as (Hu & _). pose proof (fs_ok _ _ _ _ _ _ HF) as Hp.
  pose proof (fs_inode limits sh t n I N ino HF Hn Hu) as Ei. rewrite Hi in Ei. split.
  - unfold set_xattr. destruct (validate_xattr_name name) eqn:Hv; [|done]. cbn [negb]. destruct (Z.ltb_spec XATTR_SIZE_MAX (zlen value)) as [|Hsz]; [done|].
    rewrite Ei. cbn [rbind]. unfold XATTR_SIZE_MAX in Hsz.
    destruct (insert_ok content_id BTREE_ORDER fanout order_ok Hfan Hid (txn_tx t) sh n _ A name value Hsh Hp HA Hn (xattr_name_ok _ Hwn Hv))
      as (r & l & Er & Hnew & _); [split; [done|lia]|]. pose proof (insert_root_wf content_id BTREE_ORDER fanout Hid _ _ _ _ _ _ Er) as Hr. rewrite Er. cbn [of_tree map_err rbind].
    eapply succeeds_impl; [by apply (put_attributed_ok t l n (S n) I N ino i (<[name := value]> A) r (now 0))|]. intros t' L _ _ [? ?]. by exists r.
  - unfold remove_xattr. rewrite Ei. cbn [rbind]. rewrite (get_ok _ _ _ _ _ _ _ _ HA Hn).
    destruct (ChunkId_is_zero (i_xattr_root i)) eqn:Ez.
    { assert (A = ∅) as ->; [|done]. destruct HA as (m & [[_ ->]|Ht] & ->); [done|by rewrite (tree_nonzero _ _ _ _ _ _ _ _ _ Ht) in Ez]. }
    cbn [of_tree map_err rbind]. destruct (A !! name) as [v|] eqn:Ev; [|done].
    destruct (remove_ok content_id BTREE_ORDER fanout order_ok Hfan Hid (txn_tx t) sh n _ A name Hsh Hmin Hp HA Hn) as (r & l & Er & Hnew & _).
    pose proof (remove_root_wf content_id BTREE_ORDER fanout order_ok Hfan Hid _ _ _ _ _ _ _ _ Hsh Hmin Hp HA Hn Er) as Hr. rewrite Er. cbn [of_tree map_err rbind].
    destruct (put_attributed_ok t l n n I N ino i (delete name A) r (now 0) HF Hn Hi (Hnow 0) Hr Hnew) as (t' & L & E' & Ex & Hpost). unfold attributed in E'. rewrite E'. cbn [rbind].
    exists (Some t'), L. split; [done|]. split; [done|]. intros Hg. exists t', r. split; [done|]. by apply Hpost.
Qed.
End Attributes.

(** Attributes read back: through any epoch that sees the inode, the value of
    a name and the list of the names in order are those of the committed
    inode's map; an inode the epoch made has none. *)
Lemma xattr_reads limits sh x root n I N ep ino A name :
  NamespaceSpec.fs limits sh {| txn_tx := x; txn_root := root; txn_features := 0 |} n I N -> tx_pending x = ∅ -> (n <= 128)%nat -> is_u64 ino ->
  match I !! ino with Some i => holds BTREE_ORDER (max_fanout limits) x sh n (i_xattr_root i) A | None => A = ∅ end -> Z.of_nat (size A) < 2 ^ 64 ->
  match overlay_inode ep ino (I !! ino) with
  | None => get_xattr limits x root ep ino name = Err (Error (StoreInvariant "inode missing")) /\
            list_xattr limits x root ep ino = Err (Error (StoreInvariant "inode missing"))
  | Some _ => get_xattr limits x root ep ino name = Ok (A !! name) /\
              exists names, list_xattr limits x root ep ino = Ok names /\ sorted names /\ forall k, k ∈ names <-> is_Some (A !! k)
  end.
Proof.
  intros HF Hpend Hn Hu HA Hsz. unfold get_xattr, list_xattr, xattr_root_of, get_inode_epoch.
  rewrite (get_inode_ok limits sh x root n I N HF Hpend Hn ino Hu). cbn [rbind]. destruct (overlay_inode ep ino (I !! ino)) as [j|]; [|done]. cbn [ok_or rbind].
  destruct (I !! ino) as [i|].
  2: { subst A. change (ChunkId_is_zero ChunkId_ZERO) with true. cbv iota. split; [done|]. exists []. split; [done|]. split; [constructor|].
       intros k. rewrite lookup_empty. split; [by intros ?%not_elem_of_nil|by intros [? ?]]. }
  rewrite (get_ok _ _ _ _ _ _ _ _ HA Hn). destruct HA as (m & Hix & ->). pose proof (index_sorted _ _ _ _ _ _ _ Hix) as Hs.
  assert (Hz : ChunkId_is_zero (i_xattr_root i) = true -> m = []).
  { intros Hz. destruct Hix as [[_ ->]|Ht]; [done|]. by rewrite (tree_nonzero _ _ _ _ _ _ _ _ _ Ht) in Hz. }
  assert (Hkeys : forall k, k ∈ map fst m <-> is_Some (to_map m !! k)).
  { intros k. rewrite list_elem_of_fmap. split.
    - intros ([k' v] & -> & Hin). exists v. by apply elem_of_to_map.
    - intros [v Hv]. exists (k, v). split; [done|]. by apply elem_of_to_map. }
  destruct (ChunkId_is_zero (i_xattr_root i)).
  { rewrite Hz in * by done. split; [done|]. exists []. split; [done|]. split; [constructor|exact Hkeys]. }
  split; [done|]. assert (Hl : zlen m < 2 ^ 64).
  { unfold zlen. replace (length m) with (size (to_map m)); [done|]. unfold to_map. apply sorted_NoDup in Hs.
    rewrite <-(length_map_to_list (list_to_map m)). by rewrite map_to_list_to_map. }
  destruct (scan_all_ok BTREE_ORDER (max_fanout limits) x sh n _ m Hix Hn Hl) as [-> _]. by exists (map fst m).
Qed.

(** * Snapshots *)

Section Snapshots.
Context {hash : ContentHash} (limits : Limits) (now : nat -> Timespec).
#[local] Abbreviation content_id := (@ChunkId_of hash).
Context (Hid : forall b, wf_id (content_id b)) (Hfan : BTREE_ORDER <= max_fanout limits) (Hnow : forall i, timespec_wf (now i)).
Context (sh : Shape) (Hsh : shape_ok BTREE_ORDER (max_fanout limits) sh) (Hmin : sh_min sh = 1).
#[local] Abbreviation fanout := (max_fanout limits).
#[local] Abbreviation fs := (NamespaceSpec.fs limits sh).
#[local] Abbreviation stages := (TransactionSpec.stages content_id).
#[local] Abbreviation succeeds := (TransactionSpec.succeeds content_id).
#[local] Abbreviation snapshots := (DirectorySpec.snapshots BTREE_ORDER fanout).
Implicit Types (t : Txn) (n : nat) (I : gmap Z Inode) (N : Names) (S : gmap bytes SnapshotEntry).

Lemma snapshot_insert_at (x : Tx StoreError) n (r : ChunkId) S name e : prov_ok x -> snapshots x sh n r S -> (n <= 128)%nat -> key_ok name -> SnapshotEntry_ok e ->
  succeeds snd x (of_tree (snapshot_insert content_id BTREE_ORDER fanout x r name e))
    (fun a => snapshots (snd a) sh (Datatypes.S n) (fst a) (<[name := e]> S)).
Proof.
  intros Hx HS Hn Hk He.
  destruct (record_insert_ok content_id BTREE_ORDER fanout order_ok Hfan Hid _ _ SnapshotEntry_value x sh n r S name e Hsh Hx HS Hn Hk He)
    as (r' & l & Ei & Hnew & _).
  exists (r', staged content_id x l), (map node_record l). unfold snapshot_insert. rewrite Ei. split; [done|]. cbn [fst snd].
  split; [by rewrite staged_stages|]. rewrite good_nodes. exact Hnew.
Qed.

Lemma snapshot_name_ok name : wf_bytes name -> valid_snapshot_name name = true -> key_ok name.
Proof.
  intros Hw Hv. unfold valid_snapshot_name in Hv. repeat apply andb_prop in Hv as [Hv ?]. split; [done|]. apply Z.leb_le in H1. lia.
Qed.

(** The other trees of a root and its numbers. *)
Definition but_snapshots (r r' : Root) : Prop := r' = with_snapshot_tree r (snapshot_tree_root r').

Lemma fs_but_snapshots t n I N x L r : fs t n I N -> x = stages (txn_tx t) L -> fs (set_root (set_tx t x) (with_snapshot_tree (txn_root t) r)) n I N.
Proof.
  intros HF ->. pose proof (fs_stages content_id limits sh t (set_tx t (stages (txn_tx t) L)) L n I N HF eq_refl eq_refl) as [? ? ? ? ?]. by split.
Qed.

(** C11. [create_snapshot] and [restore_snapshot].  A snapshot names the root
    that the transaction began at.  A restore puts that root back whole
    wherever its object is found: the inodes, the names and the snapshots of
    the time come back, with the snapshot itself kept in the list, and so does
    the root's place in the mutation log. *)
Theorem snapshot_restore_exact t n S name :
  prov_ok (txn_tx t) -> snapshots (txn_tx t) sh n (snapshot_tree_root (txn_root t)) S -> (n <= 128)%nat -> wf_bytes name ->
  (valid_snapshot_name name = false -> create_snapshot limits now t name = Err (Error (StoreConfigError "invalid snapshot name"))) /\
  (valid_snapshot_name name = true -> (forall i, ts_sec (now i) * 1000000000 + ts_nsec (now (Datatypes.S i)) < 2 ^ 64) ->
   succeeds (fun a => txn_tx (snd a)) (txn_tx t) (create_snapshot limits now t name) (fun a =>
     se_root_id (fst a) = Root_id content_id (txn_root t) /\ but_snapshots (txn_root t) (txn_root (snd a)) /\
     snapshots (txn_tx (snd a)) sh (Datatypes.S n) (snapshot_tree_root (txn_root (snd a))) (<[name := fst a]> S))) /\
  (forall e snap S0 I N, valid_snapshot_name name = true -> tx_pending (txn_tx t) = ∅ -> S !! name = Some e -> se_root_id e = Root_id content_id snap ->
   tx_fetch (txn_tx t) (Root_id content_id snap) = Ok (Some (Root_encode snap)) -> RootObj.root_wf snap ->
   fs (set_root t snap) n I N -> snapshots (txn_tx t) sh n (snapshot_tree_root snap) S0 ->
   succeeds txn_tx (txn_tx t) (restore_snapshot limits (txn_tx t) (txn_root t) t name) (fun t' =>
     but_snapshots snap (txn_root t') /\ log_seq (txn_root t') = log_seq snap /\ fs t' n I N /\
     snapshots (txn_tx t') sh (Datatypes.S n) (snapshot_tree_root (txn_root t')) (<[name := e]> S0))).
Proof.
  intros Hp HS Hn Hw. split; [|split].
  - intros Hv. unfold create_snapshot. by rewrite Hv.
  - intros Hv Hclock. pose proof (snapshot_name_ok name Hw Hv) as Hk. unfold create_snapshot. rewrite Hv. cbn [negb].
    pose proof (Hnow 0%nat) as [Hs0 Hn0]. pose proof (Hnow 1%nat) as [Hs1 Hn1]. specialize (Hclock 0%nat).
    assert (Hc : created_unix_ns now = Ok (ts_sec (now 0) * 1000000000 + ts_nsec (now 1))).
    { unfold created_unix_ns, checked_mul, checked_add. destruct (Z.ltb_spec (ts_sec (now 0%nat) * 1000000000) (2 ^ 64)); [|lia]. cbn [ok_or rbind].
      by destruct (Z.ltb_spec (ts_sec (now 0%nat) * 1000000000 + ts_nsec (now 1%nat)) (2 ^ 64)); [|lia]. }
    rewrite Hc. cbn [rbind]. set (e := {| se_root_id := _; se_created_unix_ns := _ |}).
    destruct (snapshot_insert_at (txn_tx t) n _ S name e Hp HS Hn Hk) as ([r x] & L & -> & Hx & Hpost); [split; [apply Hid|cbn; width]|].
    cbn [rbind fst snd] in *. eexists (e, _), L. split; [reflexivity|]. cbn [fst snd txn_tx txn_root set_root set_tx]. split; [done|].
    intros Hg. split; [done|]. split; [done|]. by apply Hpost.
  - intros e snap S0 I N Hv Hpend He Hid' Hobj Hwf HF HS0. pose proof (snapshot_name_ok name Hw Hv) as Hk.
    unfold restore_snapshot, snapshot_root, Store_snapshot_lookup, snapshot_lookup.
    pose proof (record_lookup_ok BTREE_ORDER fanout _ _ _ SnapshotEntry_roundtrip _ sh n _ S name HS Hn) as Hl. unfold record_lookup in Hl.
    rewrite Hl. cbn [of_tree map_err rbind]. rewrite He. cbn [ok_or rbind]. rewrite Hid', Hobj. cbn [safe map_err ok_or rbind].
    rewrite Root_encode_image, (root_decode_fwd snap) by (done || by left). cbn [map_err rbind]. unfold restore_snapshot_tx.
    destruct (snapshot_insert_at (txn_tx t) n _ S0 name e Hp HS0 Hn Hk) as ([r x] & L & -> & Hx & Hpost); [by apply (proj2 HS name)|].
    cbn [rbind fst snd] in *. eexists _, L. split; [reflexivity|]. cbn [txn_tx txn_root set_root set_tx]. split; [done|]. intros Hg.
    split; [done|]. split; [done|]. split; [exact (fs_but_snapshots (set_root t snap) n I N x L r HF Hx)|]. by apply Hpost.
Qed.

(** C12. A restore is undone by the next mount.  The restored root carries the
    snapshot's place in the mutation log; every envelope in the segments with
    a number above it is replayed over the restored root when the store is
    next opened, also those that were merged and acknowledged long before the
    restore. *)
Theorem restore_replays_log x root t name e snap t' scanned s b :
  snapshot_root limits x root name = Ok (e, snap) -> restore_snapshot limits x root t name = Ok t' ->
  (MutationLog, b) ∈ scanned -> envelope_seq b = Ok s -> log_seq snap < s ->
  log_seq (txn_root t') = log_seq snap /\
  (forall log, select_log (log_seq (txn_root t')) scanned = Ok log -> (s, b) ∈ log) /\
  replay_log content_id limits now t' scanned <> Ok None.
Proof.
  intros Hs Hr Hin Hseq Hlt. unfold restore_snapshot in Hr. rewrite Hs in Hr. cbn [rbind] in Hr. unfold restore_snapshot_tx in Hr.
  destruct (of_tree _) as [[r x']|]; [|done]. injection Hr as <-. cbn [txn_root set_root set_tx log_seq with_snapshot_tree].
  assert (Hlog : forall log, select_log (log_seq snap) scanned = Ok log -> (s, b) ∈ log).
  { intros log. unfold select_log. pose proof (collect_log_ok (log_seq snap) scanned) as Hc. destruct (collect_log (log_seq snap) scanned) as [l|]; [|done]. cbn [rbind].
    destruct (repeated_seq _); [done|]. intros [= <-]. rewrite sort_by_seq_perm. by apply Hc. }
  split; [done|]. split; [exact Hlog|]. unfold replay_log. cbn [txn_root set_root set_tx log_seq with_snapshot_tree].
  destruct (select_log (log_seq snap) scanned) as [log|]; [|done]. cbn [safe map_err rbind]. specialize (Hlog _ eq_refl).
  destruct (last log) as [[s' b']|] eqn:El; [|apply last_None in El as ->; by apply not_elem_of_nil in Hlog].
  destruct (replay_ops _ _ _ _ _) as [t2|]; done.
Qed.
End Snapshots.

(** * Examples *)

(** The sample file system under a root that names its root directory. *)
Definition home_root : Root :=
  {| root_format_major := 1; root_format_minor := 0; inode_index_root := inode_index_root fs_root; root_dir_ino := 1;
     snapshot_tree_root := ChunkId_ZERO; model_index_root := ChunkId_ZERO; root_segment_seq := 0; index_epoch := 0;
     root_uuid := replicate 16 0; root_generation := 1; chunk_index_root := ChunkId_ZERO; log_seq := 0 |}.
Definition home_txn : Txn := {| txn_tx := fs_store; txn_root := home_root; txn_features := 0 |}.

Lemma home_fs : NamespaceSpec.fs Limits_default full_shape home_txn 0 fs_inodes_ fs_names.
Proof. pose proof fs_committed as []. by split. Qed.

(** "/a//." and "/b/c", and a path through a file. *)
Example home_paths :
  resolve_path Limits_default fs_store home_root [47; 97; 47; 47; 46] = Ok (Some 2) /\
  resolve_path Limits_default fs_store home_root [47; 98; 47; 99] = Ok None /\
  resolve_path Limits_default fs_store home_root [47; 97; 47; 99] = invariant "not a directory".
Proof. by vm_compute. Qed.

Lemma resolve_path_exact_witness : exists parts, join_path parts = [47; 97] /\
  resolve_path Limits_default fs_store home_root [47; 97] = resolved fs_inodes_ fs_names 1 (base.filter (fun part => part <> [] /\ part <> [46]) parts).
Proof.
  destruct (resolve_path_exact Limits_default full_shape fs_store home_root 0 fs_inodes_ fs_names home_fs eq_refl ltac:(lia) [47; 97] ltac:(cbn; width))
    as (parts & Hj & _ & _ & _ & E).
  exists parts. split; [exact Hj|exact E].
Defined.

Lemma parent_of_exact_witness : exists p, parent_of Limits_default fs_store home_root 2 = Ok p /\
  (parents fs_names p 2 \/ ((forall d, ~ parents fs_names d 2) /\ p = 1)).
Proof.
  destruct (parent_of_exact Limits_default full_shape fs_store home_root 0 fs_inodes_ fs_names home_fs eq_refl ltac:(lia) fs_names_view ltac:(by vm_compute) 2 ltac:(width))
    as (p & E & _ & Hp).
  exists p. split; [exact E|]. apply Hp. cbn. lia.
Defined.

Lemma xattr_updates_witness :
  exists t', @set_xattr big_hash Limits_default clock home_txn 2 [117] [1; 2] = Ok t' /\
    exists r, let i' := attributed inode_a r (clock 0) in
      NamespaceSpec.fs Limits_default full_shape t' 1 (<[2 := i']> fs_inodes_) fs_names /\
      holds BTREE_ORDER (max_fanout Limits_default) (txn_tx t') full_shape 1 r {[ [117] := [1; 2] ]}.
Proof.
  destruct (@xattr_updates big_hash Limits_default clock mix_hash_wf ltac:(by vm_compute) clock_wf full_shape ltac:(by vm_compute) eq_refl
    home_txn 0 fs_inodes_ fs_names 2 inode_a ∅ [117] [1; 2] home_fs ltac:(lia) ltac:(by vm_compute)) as [H _].
  - exists []. split; [left; by vm_compute|done].
  - apply (bool_decide_unpack _); by vm_compute.
  - apply (bool_decide_unpack _); by vm_compute.
  - exact (succeeds_clean _ _ _ _ _ H ltac:(by vm_compute)).
Defined.

(** A snapshot of it, in a store that has moved on to [log_seq = 1]. *)
Definition kept_run : outcome (SnapshotEntry * Txn) :=
  @create_snapshot big_hash Limits_default clock (snd (put_object mix_hash home_txn RootTag (Root_encode home_root) None)) [115].
Definition kept_records : list PendingRecord := Eval vm_compute in match kept_run with Ok (_, t) => tx_records (txn_tx t) | Err _ => [] end.
Definition kept_entry : SnapshotEntry := Eval vm_compute in match kept_run with Ok (e, _) => e | Err _ => snap_entry end.
Definition kept_root : Root := Eval vm_compute in match kept_run with Ok (_, t) => with_log_seq (txn_root t) 1 | Err _ => Root_default end.
Definition kept_store : Tx StoreError := settled (stages mix_hash fs_store kept_records).
Definition kept_txn : Txn := {| txn_tx := kept_store; txn_root := kept_root; txn_features := 0 |}.

Lemma kept_fs : NamespaceSpec.fs Limits_default full_shape (set_root kept_txn home_root) 0 fs_inodes_ fs_names.
Proof.
  pose proof (fs_stages mix_hash Limits_default full_shape home_txn (set_tx home_txn (stages mix_hash fs_store kept_records)) kept_records 0 _ _ home_fs eq_refl eq_refl) as HF.
  exact (fs_settled _ _ _ _ _ _ HF).
Qed.

Lemma kept_snapshots : DirectorySpec.snapshots BTREE_ORDER (max_fanout Limits_default) kept_store full_shape 0 (snapshot_tree_root kept_root) {[ [115] := kept_entry ]}.
Proof.
  split.
  - eval_holds [([115%Z], SnapshotEntry_encode kept_entry)].
  - apply map_Forall_singleton. split; [apply (bool_decide_unpack _); by vm_compute|cbn; width].
Qed.

Lemma home_root_wf : RootObj.root_wf home_root.
Proof.
  split; cbn; try width; try done; apply (bool_decide_unpack _); by vm_compute.
Qed.

Lemma snapshot_restore_exact_witness :
  succeeds mix_hash txn_tx kept_store (@restore_snapshot big_hash Limits_default kept_store kept_root kept_txn [115]) (fun t' =>
    but_snapshots home_root (txn_root t') /\ log_seq (txn_root t') = 0 /\ NamespaceSpec.fs Limits_default full_shape t' 0 fs_inodes_ fs_names /\
    DirectorySpec.snapshots BTREE_ORDER (max_fanout Limits_default) (txn_tx t') full_shape 1 (snapshot_tree_root (txn_root t')) {[ [115] := kept_entry ]}).
Proof.
  destruct (@snapshot_restore_exact big_hash Limits_default clock mix_hash_wf ltac:(by vm_compute) clock_wf full_shape ltac:(by vm_compute)
    kept_txn 0 {[ [115] := kept_entry ]} [115] (fs_ok _ _ _ _ _ _ kept_fs) kept_snapshots ltac:(lia) ltac:(apply (bool_decide_unpack _); by vm_compute))
    as (_ & _ & Hr).
  apply (Hr kept_entry home_root ∅ fs_inodes_ fs_names); [by vm_compute..|exact home_root_wf|exact kept_fs|].
  split; [|apply map_Forall_empty]. exists []. split; [by left|done].
Defined.

(** The create that the store had merged before the restore is replayed. *)
Lemma restore_replays_log_witness : exists t',
  @restore_snapshot big_hash Limits_default kept_store kept_root kept_txn [115] = Ok t' /\ log_seq kept_root = 1 /\ log_seq (txn_root t') = 0 /\
  replay_log mix_hash Limits_default clock t' [(MutationLog, to_le 8 1 ++ op_image sample_op)] <> Ok None.
Proof.
  destruct (@restore_snapshot big_hash Limits_default kept_store kept_root kept_txn [115]) as [t'|err] eqn:E; [|by vm_compute in E].
  destruct (@restore_replays_log big_hash Limits_default clock kept_store kept_root kept_txn [115] kept_entry home_root t'
    [(MutationLog, to_le 8 1 ++ op_image sample_op)] 1 (to_le 8 1 ++ op_image sample_op)) as (El & _ & Hr);
    [by vm_compute|exact E|by left|by vm_compute|by vm_compute|]. exists t'. split; [done|]. split; [done|]. split; [exact El|exact Hr].
Defined.
