(* ===== verification/GcSpec.v ===== *)
(** The collector: what the mark walk reaches, that it ends, and what a
    compaction does to the object index. *)
From stdpp Require Import gmap sorting.
From Stdlib Require String.
From S2P Require Import Prelude Codec Repr Version SegRecord Inode Superblock Descriptor Context BTree StoreError RootObj Segment SyncIo Recovery StoreLog BTreeNode BTreeSpec BTreeCheck IndexSpec Directory Transaction TransactionSpec Namespace NamespaceSpec ExtentTree FileWrite Gc RecoverySpec EpochSpec.
Import String.StringSyntax.

#[global] Instance MarkKind_eq_dec : EqDecision MarkKind.
Proof. solve_decision. Defined.

(** * The object graph *)

Section Graph.
Context (content_id : bytes -> ChunkId) (limits : Limits) (x : Tx StoreError) (root : Root).
#[local] Abbreviation fanout := (max_fanout limits).
Implicit Types (id c : ChunkId) (k : MarkKind) (m : Marking).

Definition object id (b : bytes) : Prop := tx_fetch x id = Ok (Some b).
Definition root_object id (r : Root) : Prop := exists b, object id b /\ Root_decode b = Ok r.
Definition inode_at id (i : Inode) : Prop := exists b, object id b /\ Inode_decode b = Ok i.
Definition node_object id (nd : Node) : Prop :=
  ChunkId_is_zero id = false /\ exists b, object id b /\ Node_decode b BTREE_ORDER fanout = Ok nd.

(** What a tree's kind says of its leaf values. *)
Definition kind_value k : option TreeValue :=
  match k with
  | MTreeInodeIndex => Some VInodeId
  | MTreeDirectory => Some VDirectory
  | MTreeExtent => Some VExtentDescriptor
  | MTreeChunkIndex => Some VChunkIndexEntry
  | MTreeSnapshot => Some VSnapshot
  | MTreeXattr => Some VXattr
  | _ => None
  end.

(** One reference of the graph. *)
Inductive points_to : ChunkId -> MarkKind -> ChunkId -> MarkKind -> Prop :=
| pt_inodes id r : root_object id r -> points_to id MRoot (inode_index_root r) MTreeInodeIndex
| pt_chunks id r : root_object id r -> points_to id MRoot (chunk_index_root r) MTreeChunkIndex
| pt_snapshots id r : root_object id r -> ChunkId_is_zero (snapshot_tree_root r) = false -> points_to id MRoot (snapshot_tree_root r) MTreeSnapshot
| pt_models id r : root_object id r -> ChunkId_is_zero (model_index_root r) = false -> points_to id MRoot (model_index_root r) MTreeChunkIndex
| pt_xattrs id i : inode_at id i -> ChunkId_is_zero (i_xattr_root i) = false -> points_to id MInode (i_xattr_root i) MTreeXattr
| pt_entries id i r : inode_at id i -> i_data i = IDirectory r -> ChunkId_is_zero r = false -> points_to id MInode r MTreeDirectory
| pt_extents id i r : inode_at id i -> i_data i = IFile r -> ChunkId_is_zero r = false -> points_to id MInode r MTreeExtent
| pt_first id k v c es : kind_value k = Some v -> node_object id (Internal c es) -> points_to id k c k
| pt_child id k v c0 es e c : kind_value k = Some v -> node_object id (Internal c0 es) -> e ∈ es -> child_id e = Ok c -> points_to id k c k
| pt_inode id es e c : node_object id (Leaf es) -> e ∈ es -> ChunkId_from_bytes (e_value e) = Some c -> points_to id MTreeInodeIndex c MInode
| pt_snapshot id es e s : node_object id (Leaf es) -> e ∈ es -> SnapshotEntry_decode (e_value e) = Ok s -> points_to id MTreeSnapshot (se_root_id s) MRoot
| pt_object id es e desc c : node_object id (Leaf es) -> e ∈ es -> Descriptor.decode limits (e_value e) = Ok desc -> c ∈ object_refs desc ->
    points_to id MTreeExtent c MObject.

(** What the roots reach. *)
Inductive reach (roots : list ChunkId) : ChunkId -> MarkKind -> Prop :=
| reach_root id : id ∈ roots -> reach roots id MRoot
| reach_step id k c k' : reach roots id k -> points_to id k c k' -> reach roots c k'.

(** The extents of a leaf: their descriptors, and the chunks these name. *)
Definition describes id k (b : bytes) : Prop := k = MTreeExtent /\ exists es e, node_object id (Leaf es) /\ e ∈ es /\ b = e_value e.
Definition refers id k c : Prop := exists b desc, describes id k b /\ Descriptor.decode limits b = Ok desc /\ c ∈ chain_nexts desc.

(** * One step of the walk *)

(** [m'] is [m] with the references [W], the chunks [R] and the descriptors
    [B] added: a reference is on the work list, or marked already. *)
Record adds (W : ChunkId -> MarkKind -> Prop) (R : ChunkId -> Prop) (B : bytes -> Prop) m m' : Prop := {
  ad_live : mk_live m ⊆ mk_live m';
  ad_live_new (id : ChunkId) : id ∈ mk_live m' -> id ∈ mk_live m \/ (W id MObject /\ (id, MObject) ∈ mk_work m');
  ad_work w : w ∈ mk_work m -> w ∈ mk_work m';
  ad_work_new id k : (id, k) ∈ mk_work m' -> (id, k) ∈ mk_work m \/ W id k;
  ad_refs id k : W id k -> (id, k) ∈ mk_work m' \/ (k = MObject /\ id ∈ mk_live m');
  ad_referenced (c : ChunkId) : c ∈ mk_referenced m' <-> c ∈ mk_referenced m \/ R c;
  ad_descriptors (b : bytes) : b ∈ mk_descriptors m' <-> b ∈ mk_descriptors m \/ B b
}.
#[local] Abbreviation none := (fun _ => False).
#[local] Abbreviation nothing := (fun _ _ => False).

Lemma adds_refl m : adds nothing none none m m.
Proof. split; try tauto; set_solver. Qed.

Lemma adds_trans W R B W' R' B' m m' m'' : adds W R B m m' -> adds W' R' B' m' m'' ->
  adds (fun c k => W c k \/ W' c k) (fun c => R c \/ R' c) (fun b => B b \/ B' b) m m''.
Proof.
  intros [L1 N1 K1 V1 F1 R1 B1] [L2 N2 K2 V2 F2 R2 B2]. split.
  - set_solver.
  - intros id [H|[? ?]]%N2; [apply N1 in H as [?|[? ?]]|]; auto.
  - auto.
  - intros id k [H|?]%V2; [apply V1 in H|]; tauto.
  - intros id k [[H|[? H]]%F1|H]; [left; auto|right; split; [done|by apply L2]|by apply F2].
  - intros c. rewrite R2, R1. tauto.
  - intros b. rewrite B2, B1. tauto.
Qed.

Lemma adds_iff W R B W' R' B' m m' : (forall c k, W c k <-> W' c k) -> (forall c, R c <-> R' c) -> (forall b, B b <-> B' b) -> adds W R B m m' -> adds W' R' B' m m'.
Proof.
  intros HW HR HB [L N K V F HRR HBB]. split; try done.
  - intros id [?|[? ?]]%N; [by left|right]. by rewrite <-HW.
  - intros id k H. rewrite <-HW. by apply V.
  - intros id k H. apply F. by apply HW.
  - intros c. rewrite <-HR. apply HRR.
  - intros b. rewrite <-HB. apply HBB.
Qed.

Lemma push_work_adds m c k : adds (fun c' k' => c' = c /\ k' = k) none none m (push_work m c k).
Proof.
  split; cbn; try done; try tauto.
  - intros w Hw. by right.
  - intros id k' [[= -> ->]|H]%elem_of_cons; auto.
  - intros id k' [-> ->]. left. by left.
Qed.

Lemma push_tree_adds m c k : adds (fun c' k' => ChunkId_is_zero c = false /\ c' = c /\ k' = k) none none m (push_tree m c k).
Proof.
  unfold push_tree. destruct (ChunkId_is_zero c).
  - eapply adds_iff; [..|apply adds_refl]; naive_solver.
  - eapply adds_iff; [..|apply push_work_adds]; naive_solver.
Qed.

Lemma mark_object_adds m r : adds (fun c k => c = r /\ k = MObject) none none m (mark_object m r).
Proof.
  unfold mark_object. case_bool_decide as Hin.
  - split; try tauto; [set_solver|]. intros id k [-> ->]. by right.
  - split; cbn; try tauto; [set_solver| | | |].
    + intros id Hid. apply elem_of_union in Hid as [->%elem_of_singleton|?]; [right; split; [done|by left]|by left].
    + intros w Hw. by right.
    + intros id k [[= -> ->]|?]%elem_of_cons; auto.
    + intros id k [-> ->]. left. by left.
Qed.

Lemma mark_objects_adds refs : forall m, adds (fun c k => c ∈ refs /\ k = MObject) none none m (fold_left mark_object refs m).
Proof.
  induction refs as [|r refs IH]; intros m.
  - eapply adds_iff; [..|apply adds_refl]; try tauto. intros c k. rewrite elem_of_nil. tauto.
  - cbn [fold_left]. eapply adds_iff; [..|eapply adds_trans; [apply mark_object_adds|apply IH]]; try tauto.
    intros c k. rewrite elem_of_cons. naive_solver.
Qed.

Lemma descriptor_refs_adds b m : adds (fun c k => exists desc, Descriptor.decode limits b = Ok desc /\ c ∈ object_refs desc /\ k = MObject) none none m
  (mark_descriptor_refs limits b m).
Proof.
  unfold mark_descriptor_refs. destruct (Descriptor.decode limits b) as [desc|e].
  - eapply adds_iff; [..|apply mark_objects_adds]; try tauto. naive_solver.
  - eapply adds_iff; [..|apply adds_refl]; naive_solver.
Qed.

Lemma collect_refs_adds b m : adds nothing (fun c => exists desc, Descriptor.decode limits b = Ok desc /\ c ∈ chain_nexts desc) none m (collect_descriptor_refs limits b m).
Proof.
  unfold collect_descriptor_refs. destruct (Descriptor.decode limits b) as [desc|e].
  - split; cbn; try tauto; [set_solver|]. intros c. rewrite elem_of_union, elem_of_list_to_set. naive_solver.
  - eapply adds_iff; [..|apply adds_refl]; naive_solver.
Qed.

Lemma keep_descriptor_adds b m : adds nothing none (fun b' => b' = b) m (keep_descriptor m b).
Proof. split; cbn; try tauto; [set_solver|]. intros b'. rewrite elem_of_union, elem_of_singleton. tauto. Qed.

(** What one leaf entry adds. *)
Definition value_points (v : TreeValue) (e : Entry) c k : Prop :=
  match v with
  | VInodeId => ChunkId_from_bytes (e_value e) = Some c /\ k = MInode
  | VSnapshot => exists s, SnapshotEntry_decode (e_value e) = Ok s /\ c = se_root_id s /\ k = MRoot
  | VExtentDescriptor => exists desc, Descriptor.decode limits (e_value e) = Ok desc /\ c ∈ object_refs desc /\ k = MObject
  | _ => False
  end.
Definition value_refers (v : TreeValue) (e : Entry) c : Prop :=
  v = VExtentDescriptor /\ exists desc, Descriptor.decode limits (e_value e) = Ok desc /\ c ∈ chain_nexts desc.
Definition value_describes (v : TreeValue) (e : Entry) (b : bytes) : Prop := v = VExtentDescriptor /\ b = e_value e.

Lemma leaf_value_adds v e m m' : mark_leaf_value limits v e m = Ok m' -> adds (value_points v e) (value_refers v e) (value_describes v e) m m'.
Proof.
  unfold value_points, value_refers, value_describes. destruct v; cbn [mark_leaf_value].
  - destruct (ChunkId_from_bytes (e_value e)) as [c|]; [|done]. intros [= <-]. eapply adds_iff; [..|apply push_work_adds]; naive_solver.
  - intros [= <-]. eapply adds_iff; [..|apply adds_refl]; naive_solver.
  - intros [= <-]. eapply adds_iff; [..|eapply adds_trans; [eapply adds_trans; [apply descriptor_refs_adds|apply collect_refs_adds]|apply keep_descriptor_adds]]; naive_solver.
  - intros [= <-]. eapply adds_iff; [..|apply adds_refl]; naive_solver.
  - destruct (SnapshotEntry_decode (e_value e)) as [s|]; [|done]. intros [= <-]. eapply adds_iff; [..|apply push_work_adds]; naive_solver.
  - intros [= <-]. eapply adds_iff; [..|apply adds_refl]; naive_solver.
Qed.

Lemma leaf_adds v es : forall m m', mark_leaf limits v es m = Ok m' ->
  adds (fun c k => exists e, e ∈ es /\ value_points v e c k) (fun c => exists e, e ∈ es /\ value_refers v e c) (fun b => exists e, e ∈ es /\ value_describes v e b) m m'.
Proof.
  induction es as [|e es IH]; intros m m'; cbn [mark_leaf].
  - intros [= <-]. eapply adds_iff; [..|apply adds_refl]; intros; split; try done; by intros (? & ?%elem_of_nil & _).
  - destruct (mark_leaf_value limits v e m) as [m1|] eqn:E; [|done]. cbn [rbind]. intros Hm.
    eapply adds_iff; [..|eapply adds_trans; [by apply (leaf_value_adds v e)|by apply IH]]; intros; setoid_rewrite elem_of_cons; naive_solver.
Qed.

Lemma children_adds k es : forall m m', mark_children k es m = Ok m' -> adds (fun c k' => k' = k /\ exists e, e ∈ es /\ child_id e = Ok c) none none m m'.
Proof.
  induction es as [|e es IH]; intros m m'; cbn [mark_children].
  - intros [= <-]. eapply adds_iff; [..|apply adds_refl]; intros; split; try done. by intros (_ & ? & ?%elem_of_nil & _).
  - destruct (child_id e) as [c|] eqn:E; [|done]. cbn [of_tree map_err rbind]. intros Hm.
    eapply adds_iff; [..|eapply adds_trans; [apply (push_work_adds m c k)|by apply IH]]; [|tauto..]. intros c' k'. split.
    + intros [[-> ->]|(-> & e' & He & Hc)]; (split; [done|]); [exists e|exists e']; (split; [|done]); [by left|by right].
    + intros (-> & e' & [->|He]%elem_of_cons & Hc); [left; split; congruence|right; split; [done|]; by exists e'].
Qed.

Lemma mark_fetch_ok what id b : mark_fetch x what id = Ok b <-> object id b.
Proof. unfold mark_fetch, object. destruct (tx_fetch x id) as [[b'|]|e]; cbn; split; congruence. Qed.

Lemma node_object_unique id nd nd' : node_object id nd -> node_object id nd' -> nd = nd'.
Proof. unfold node_object, object. intros (_ & b & Hb & Hd) (_ & b' & Hb' & Hd'). congruence. Qed.

Lemma walk_tree_inv id v m m' : walk_tree limits x id v m = Ok m' ->
  (ChunkId_is_zero id = true /\ m' = m) \/
  (exists c es, node_object id (Internal c es) /\ mark_children (tree_kind v) es (push_work m c (tree_kind v)) = Ok m') \/
  (exists es, node_object id (Leaf es) /\ mark_leaf limits v es m = Ok m').
Proof.
  unfold walk_tree. destruct (ChunkId_is_zero id) eqn:Ez; [intros [= <-]; by left|]. intros Hm. right.
  destruct (mark_fetch x _ id) as [b|] eqn:Ef; [|done]. apply mark_fetch_ok in Ef. cbn [rbind] in Hm.
  destruct (Node_decode b BTREE_ORDER fanout) as [nd|] eqn:Ed; [|done]. cbn [map_err rbind] in Hm.
  assert (Hnd : node_object id nd) by (split; [done|by exists b]). destruct nd as [es|c es]; [right; by exists es|left; by exists c, es].
Qed.

Lemma tree_points id k v c k' : kind_value k = Some v -> points_to id k c k' ->
  (exists c0 es, node_object id (Internal c0 es) /\ k' = k /\ (c = c0 \/ exists e, e ∈ es /\ child_id e = Ok c)) \/
  (exists es e, node_object id (Leaf es) /\ e ∈ es /\ value_points v e c k').
Proof.
  intros Hv Hp. destruct Hp as [| | | | | | |id k v' c es Hk Hn|id k v' c0 es e c Hk Hn He Hc|id es e c Hn He Hc|id es e s Hn He Hc|id es e desc c Hn He Hd Hc]; try done.
  - left. exists c, es. auto.
  - left. exists c0, es. split; [done|]. split; [done|]. right. by exists e.
  - right. exists es, e. injection Hv as <-. done.
  - right. exists es, e. injection Hv as <-. split; [done|]. split; [done|]. by exists s.
  - right. exists es, e. injection Hv as <-. split; [done|]. split; [done|]. by exists desc.
Qed.

Lemma walk_tree_adds id k v m m' : kind_value k = Some v -> walk_tree limits x id v m = Ok m' ->
  adds (points_to id k) (refers id k) (describes id k) m m'.
Proof.
  intros Hv Hm. assert (Hk : tree_kind v = k) by (by destruct k; cbn in Hv; try done; injection Hv as <-).
  apply walk_tree_inv in Hm as [[Hz ->]|[(c & es & Hnd & Hm)|(es & Hnd & Hm)]].
  - eapply adds_iff; [..|apply adds_refl]; intros; split; try done.
    + intros Hp. apply (tree_points id k v) in Hp as [(? & ? & [? _] & _)|(? & ? & [? _] & _)]; congruence.
    + intros (b & desc & [_ (es & e & [? _] & _)] & _). congruence.
    + intros [_ (es & e & [? _] & _)]. congruence.
  - rewrite Hk in Hm. eapply adds_iff; [..|eapply adds_trans; [apply push_work_adds|by apply children_adds]].
    + intros c' k'. split.
      * intros [[-> ->]|(-> & e & He & Hc)]; [by eapply pt_first|by eapply pt_child].
      * intros Hp. apply (tree_points id k v) in Hp as [(c0 & es' & Hn & -> & Hc)|(es' & e & Hn & _)]; [..|done];
          pose proof (node_object_unique _ _ _ Hnd Hn); simplify_eq. destruct Hc as [->|?]; auto.
    + intros c'. split; [tauto|]. intros (b & desc & [_ (es' & e & Hnd' & _)] & _). pose proof (node_object_unique _ _ _ Hnd Hnd'). done.
    + intros b. split; [tauto|]. intros [_ (es' & e & Hnd' & _)]. pose proof (node_object_unique _ _ _ Hnd Hnd'). done.
  - eapply adds_iff; [..|by apply leaf_adds].
    + intros c' k'. split.
      * intros (e & He & Hp). destruct k; cbn in Hv; try done; injection Hv as <-; cbn in Hp; try done.
        -- destruct Hp as [Hp ->]. by eapply pt_inode.
        -- destruct Hp as (desc & Hd & Hc & ->). by eapply pt_object.
        -- destruct Hp as (s & Hd & -> & ->). by eapply pt_snapshot.
      * intros Hp. apply (tree_points id k v) in Hp as [(c0 & es' & Hn & _)|(es' & e & Hn & Hp)]; [..|done];
          pose proof (node_object_unique _ _ _ Hnd Hn); simplify_eq. by exists e.
    + intros c'. unfold value_refers, refers, describes. split.
      * intros (e & He & -> & desc & Hd & Hc). destruct k; try done. exists (e_value e), desc. split; [|done]. split; [done|]. by exists es, e.
      * intros (b & desc & [-> (es' & e & Hnd' & He & ->)] & Hd & Hc). cbn in Hv. injection Hv as <-. pose proof (node_object_unique _ _ _ Hnd Hnd'). simplify_eq.
        exists e. split; [done|]. split; [done|]. by exists desc.
    + intros b. unfold value_describes, describes. split.
      * intros (e & He & -> & ->). destruct k; try done. split; [done|]. by exists es, e.
      * intros [-> (es' & e & Hnd' & He & ->)]. cbn in Hv. injection Hv as <-. pose proof (node_object_unique _ _ _ Hnd Hnd'). simplify_eq. by exists e.
Qed.

Lemma root_object_unique id r r' : root_object id r -> root_object id r' -> r = r'.
Proof. unfold root_object, object. intros (b & Hb & Hd) (b' & Hb' & Hd'). congruence. Qed.
Lemma inode_at_unique id i i' : inode_at id i -> inode_at id i' -> i = i'.
Proof. unfold inode_at, object. intros (b & Hb & Hd) (b' & Hb' & Hd'). congruence. Qed.

Lemma no_describes id k c b : k <> MTreeExtent -> (refers id k c <-> False) /\ (describes id k b <-> False).
Proof. intros Hk. split; split; try done; [intros (? & ? & [? _] & _)|intros [? _]]; congruence. Qed.

(** Visiting an object adds its references, no more and no less. *)
Lemma visit_adds id k m m' : visit limits x id k m = Ok m' -> adds (points_to id k) (refers id k) (describes id k) m m'.
Proof.
  destruct k; cbn [visit]; try by apply walk_tree_adds.
  - unfold decode_root. destruct (mark_fetch x _ id) as [b|] eqn:Ef; [|done]. apply mark_fetch_ok in Ef. cbn [rbind].
    destruct (Root_decode b) as [r|] eqn:Ed; [|done]. cbn [map_err rbind]. intros [= <-].
    assert (Hr : root_object id r) by by exists b. unfold mark_root.
    eapply adds_iff; [..|eapply adds_trans; [eapply adds_trans; [eapply adds_trans; [apply push_work_adds|apply push_work_adds]|apply push_tree_adds]|apply push_tree_adds]].
    2, 3: intros c; cbn; pose proof (no_describes id MRoot c c); naive_solver.
    intros c k. split.
    + intros [[[[-> ->]|[-> ->]]|(? & -> & ->)]|(? & -> & ->)]; [by apply pt_inodes|by apply pt_chunks|by apply pt_snapshots|by apply pt_models].
    + intros Hp. inversion Hp; subst; cbn in *; try done; match goal with H : root_object id _ |- _ => pose proof (root_object_unique _ _ _ Hr H) as <- end; naive_solver.
  - unfold decode_inode. destruct (mark_fetch x _ id) as [b|] eqn:Ef; [|done]. apply mark_fetch_ok in Ef. cbn [rbind].
    destruct (Inode_decode b) as [i|] eqn:Ed; [|done]. cbn [of_codec map_err rbind]. intros [= <-].
    assert (Hi : inode_at id i) by by exists b. unfold mark_inode.
    assert (Hadd : adds (fun c k => (ChunkId_is_zero (i_xattr_root i) = false /\ c = i_xattr_root i /\ k = MTreeXattr) \/
        match i_data i with
        | IDirectory r => ChunkId_is_zero r = false /\ c = r /\ k = MTreeDirectory
        | IFile r => ChunkId_is_zero r = false /\ c = r /\ k = MTreeExtent
        | _ => False
        end) none none m (mark_inode i m)).
    { unfold mark_inode. destruct (i_data i);
        (eapply adds_iff; [..|eapply adds_trans; [apply push_tree_adds|first [apply push_tree_adds|apply adds_refl]]]); naive_solver. }
    eapply adds_iff; [..|exact Hadd].
    2, 3: intros c; cbn; pose proof (no_describes id MInode c c); naive_solver.
    intros c k. split.
    + intros [(? & -> & ->)|Hd]; [by apply pt_xattrs|]. destruct (i_data i) eqn:Ei; try done; destruct Hd as (? & -> & ->); [by eapply pt_entries|by eapply pt_extents].
    + intros Hp. inversion Hp; subst; cbn in *; try done; match goal with H : inode_at id _ |- _ => pose proof (inode_at_unique _ _ _ Hi H) as <- end; [naive_solver|right..];
        match goal with H : i_data i = _ |- _ => rewrite H end; done.
  - intros [= <-]. eapply adds_iff; [..|apply adds_refl].
    + intros c k. split; [done|]. intros Hp. inversion Hp; subst; done.
    + intros c. cbn. pose proof (no_describes id MObject c c). naive_solver.
    + intros c. cbn. pose proof (no_describes id MObject c c). naive_solver.
Qed.

(** * The invariant of the walk *)

(** A kind under which the object was visited: its references are on the work
    list or marked, its chunks and descriptors noted. *)
Definition visited m id k : Prop :=
  (forall c kc, points_to id k c kc -> (c, kc) ∈ mk_work m \/ c ∈ mk_live m) /\
  (forall c, refers id k c -> c ∈ mk_referenced m) /\
  (forall b, describes id k b -> b ∈ mk_descriptors m).

Record walking (roots : list ChunkId) m : Prop := {
  wk_work id k : (id, k) ∈ mk_work m -> reach roots id k;
  wk_live (id : ChunkId) : id ∈ mk_live m -> exists k, reach roots id k /\ visited m id k;
  wk_roots id : id ∈ roots -> (id, MRoot) ∈ mk_work m \/ id ∈ mk_live m;
  wk_referenced (c : ChunkId) : c ∈ mk_referenced m -> exists id k, reach roots id k /\ refers id k c;
  wk_descriptors (b : bytes) : b ∈ mk_descriptors m -> exists id k, reach roots id k /\ describes id k b
}.

Lemma visited_object m id : visited m id MObject.
Proof.
  split; [|split].
  - intros c kc Hp. inversion Hp; subst; done.
  - intros c (? & ? & [? _] & _). done.
  - intros b [? _]. done.
Qed.

Lemma visit_walking roots m id k work m' : walking roots m -> mk_work m = (id, k) :: work -> visit limits x id k (mark_id (set_work m work) id) = Ok m' -> walking roots m'.
Proof.
  intros [Hw Hl Hr Hc Hd] Ew Hv. apply visit_adds in Hv as [L N K V F RR BB]. cbn in *.
  assert (Hid : reach roots id k) by (apply Hw; rewrite Ew; by left).
  assert (Hkeep : forall c kc, (c, kc) ∈ mk_work m \/ c ∈ mk_live m -> (c, kc) ∈ mk_work m' \/ c ∈ mk_live m').
  { intros c kc [H|H]; [|right; set_solver]. rewrite Ew in H. apply elem_of_cons in H as [[= -> ->]|H]; [right; set_solver|left; by apply K]. }
  split.
  - intros c kc [H|H]%V; [apply Hw; rewrite Ew; by right|by apply reach_step with id k].
  - intros c [H|[H _]]%N; [|exists MObject; split; [by apply reach_step with id k|apply visited_object]].
    apply elem_of_union in H as [->%elem_of_singleton|H].
    + exists k. split; [done|]. split; [intros c kc [?|[_ ?]]%F; auto|]. split; [intros c H; apply RR; by right|intros b H; apply BB; by right].
    + apply Hl in H as (kc & ? & Hp & Href & Hdesc). exists kc. split; [done|]. split; [intros c' kc' Hc'; by apply Hkeep, Hp|].
      split; [intros c' Hc'; apply RR; left; by apply Href|intros b Hb; apply BB; left; by apply Hdesc].
  - intros c H. by apply Hkeep, Hr.
  - intros c [H|H]%RR; [by apply Hc|by exists id, k].
  - intros b [H|H]%BB; [by apply Hd|by exists id, k].
Qed.

Lemma skip_walking roots m id k work : walking roots m -> mk_work m = (id, k) :: work -> id ∈ mk_live m -> walking roots (set_work m work).
Proof.
  intros [Hw Hl Hr Hc Hd] Ew Hin.
  assert (Hkeep : forall c kc, (c, kc) ∈ mk_work m \/ c ∈ mk_live m -> (c, kc) ∈ work \/ c ∈ mk_live m).
  { intros c kc [H|H]; [|by right]. rewrite Ew in H. apply elem_of_cons in H as [[= -> ->]|H]; [by right|by left]. }
  split; cbn; try done.
  - intros c kc H. apply Hw. rewrite Ew. by right.
  - intros c H. apply Hl in H as (kc & ? & Hp & ?). exists kc. split; [done|]. split; [|done]. intros c' kc' H'. by apply Hkeep, Hp.
  - intros c H. by apply Hkeep, Hr.
Qed.

Lemma mark_loop_walking roots fuel : forall m m', walking roots m -> mark_loop limits x fuel m = Some (Ok m') -> walking roots m' /\ mk_work m' = [].
Proof.
  induction fuel as [|fuel IH]; intros m m' Hm; cbn [mark_loop]; destruct (mk_work m) as [|[id k] work] eqn:Ew; try (by intros [= <-]).
  case_bool_decide as Hin; [apply IH; by eapply skip_walking|].
  destruct (visit limits x id k _) as [m1|] eqn:Ev; [|done]. apply IH. by eapply visit_walking.
Qed.

(** No object is reached under two kinds that reference different things. *)
Definition unambiguous (roots : list ChunkId) : Prop := forall id k k', reach roots id k -> reach roots id k' ->
  (forall c kc, points_to id k c kc -> points_to id k' c kc) /\ (forall b, describes id k b -> describes id k' b).

Lemma walked roots m : walking roots m -> mk_work m = [] -> unambiguous roots ->
  (forall id, id ∈ mk_live m <-> exists k, reach roots id k) /\
  (forall c : ChunkId, c ∈ mk_referenced m <-> exists id k, reach roots id k /\ refers id k c) /\
  (forall b : bytes, b ∈ mk_descriptors m <-> exists id k, reach roots id k /\ describes id k b).
Proof.
  intros [Hw Hl Hr Hc Hd] Ew Hu. rewrite Ew in *.
  assert (Hall : forall id k, reach roots id k -> id ∈ mk_live m).
  { intros id k Hid. induction Hid as [id Hid|id k c k' Hid IH Hp]; [by apply Hr in Hid as [?%elem_of_nil|?]|].
    apply Hl in IH as (k0 & Hk0 & Hp0 & _). apply (Hu id k k0) in Hp; [|done..].
    apply Hp0 in Hp as [Hp|?]; [|done]. rewrite Ew in Hp. by apply elem_of_nil in Hp. }
  assert (Hdesc : forall id k b, reach roots id k -> describes id k b -> b ∈ mk_descriptors m).
  { intros id k b Hk Hb. destruct (Hl id) as (k0 & Hk0 & _ & _ & Hb0); [by eapply Hall|]. apply Hb0. by apply (Hu id k k0). }
  split; [|split].
  - intros id. split; [intros (k & ? & _)%Hl; by exists k|intros [k ?]; by eapply Hall].
  - intros c. split; [apply Hc|]. intros (id & k & Hk & b & desc & Hb & Hrest). destruct (Hl id) as (k0 & Hk0 & _ & Href0 & _); [by eapply Hall|].
    apply Href0. exists b, desc. split; [|done]. by apply (Hu id k k0).
  - intros b. split; [apply Hd|]. intros (id & k & ? & ?). by eapply Hdesc.
Qed.

(** * Stage 3: the chains of descriptors *)

(** The descriptor that the chunk index has for a chunk. *)
Definition descriptor_of c (b : bytes) (desc : Representation) : Prop :=
  chunk_descriptor limits x root c = Ok (Some b) /\ Descriptor.decode limits b = Ok desc.

Inductive chained (start : ChunkId -> Prop) : ChunkId -> Prop :=
| chained_start c : start c -> chained start c
| chained_next c b desc n : chained start c -> descriptor_of c b desc -> chain_next desc = Some n -> chained start n.

Record resolving (start : ChunkId -> Prop) m0 (queue : list ChunkId) (seen : gset (list Z)) m : Prop := {
  rs_start c : start c -> c ∈ queue \/ c ∈ seen;
  rs_queue c : c ∈ queue -> chained start c;
  rs_seen (c : ChunkId) : c ∈ seen -> chained start c;
  rs_next (c : ChunkId) b desc n : c ∈ seen -> descriptor_of c b desc -> chain_next desc = Some n -> n ∈ queue \/ n ∈ seen;
  rs_live (o : ChunkId) : o ∈ mk_live m <-> o ∈ mk_live m0 \/ exists c b desc, c ∈ seen /\ descriptor_of c b desc /\ o ∈ object_refs desc;
  rs_descriptors : mk_descriptors m = mk_descriptors m0
}.

Lemma mark_object_sets refs : forall m, mk_descriptors (fold_left mark_object refs m) = mk_descriptors m /\
  forall o : ChunkId, o ∈ mk_live (fold_left mark_object refs m) <-> o ∈ mk_live m \/ o ∈ refs.
Proof.
  induction refs as [|r refs IH]; intros m; cbn [fold_left]; [split; [done|]; set_solver|].
  destruct (IH (mark_object m r)) as [-> Ho]. unfold mark_object in *. case_bool_decide; (split; [done|]); intros o; rewrite Ho; set_solver.
Qed.

Lemma resolve_loop_resolving start m0 fuel : forall queue seen m seen' m', resolving start m0 queue seen m ->
  resolve_loop limits x root fuel queue seen m = Some (Ok (seen', m')) -> resolving start m0 [] seen' m'.
Proof.
  induction fuel as [|fuel IH]; intros [|cid queue] seen m seen' m' Hm; cbn [resolve_loop]; try (by intros [= <- <-]).
  case_bool_decide as Hin.
  - apply IH. destruct Hm as [S Q V X L Ds]. split; try done; [|set_solver|]; [intros c [?%elem_of_cons|?]%S|intros c b desc n ? ? ?; destruct (X c b desc n) as [?%elem_of_cons|?]]; naive_solver.
  - assert (Hstop : forall (m1 : Marking) (desc : option (bytes * Representation)),
        mk_descriptors m1 = mk_descriptors m -> (forall o : ChunkId, o ∈ mk_live m1 <-> o ∈ mk_live m \/ exists b d, desc = Some (b, d) /\ o ∈ object_refs d) ->
        (forall b d, descriptor_of cid b d <-> desc = Some (b, d)) ->
        resolving start m0 (match desc with Some (_, d) => match chain_next d with Some n => if bool_decide (n ∈ ({[cid]} ∪ seen : gset (list Z))) then queue else n :: queue | None => queue end | None => queue end) ({[cid]} ∪ seen) m1).
    { intros m1 desc Hds Hlv Hof. destruct Hm as [S Q V X L Ds].
      assert (Hcid : chained start cid) by (apply Q; by left).
      set (q := match desc with Some _ => _ | None => _ end).
      assert (Hq : forall c, c ∈ queue -> c ∈ q).
      { intros c Hc. unfold q. destruct desc as [[b d]|]; [|done]. destruct (chain_next d); [|done]. case_bool_decide; [done|by right]. }
      assert (Hkeep : forall c, c ∈ cid :: queue \/ c ∈ seen -> c ∈ q \/ c ∈ ({[cid]} ∪ seen : gset (list Z))).
      { intros c [[->|Hc]%elem_of_cons|Hc]; [right; set_solver|left; by apply Hq|right; set_solver]. }
      split.
      - intros c Hc. by apply Hkeep, S.
      - intros c Hc. unfold q in Hc. destruct desc as [[b d]|]; [|apply Q; by right]. destruct (chain_next d) as [n|] eqn:En; [|apply Q; by right].
        case_bool_decide; [apply Q; by right|]. apply elem_of_cons in Hc as [->|Hc]; [|apply Q; by right]. apply chained_next with cid b d; [done| |done]. by apply Hof.
      - intros c [->%elem_of_singleton|?]%elem_of_union; auto.
      - intros c b d n [->%elem_of_singleton|Hc]%elem_of_union Hd Hn; [|by apply Hkeep, (X c b d n)].
        apply Hof in Hd. unfold q. rewrite Hd, Hn. case_bool_decide; [by right|left; by left].
      - intros o. rewrite Hlv, L. split.
        + intros [[?|(c & b & d & Hc & ?)]|(b & d & -> & Ho)]; [by left|right; exists c, b, d; split; [set_solver|done]|].
          right. exists cid, b, d. split; [set_solver|]. split; [by apply Hof|done].
        + intros [?|(c & b & d & [->%elem_of_singleton|Hc]%elem_of_union & Hd & Ho)]; [auto|right|left; right; by exists c, b, d].
          exists b, d. split; [by apply Hof|done].
      - congruence. }
    destruct (chunk_descriptor limits x root cid) as [[b|]|e] eqn:Ec; [|..|done].
    + destruct (Descriptor.decode limits b) as [desc|] eqn:Ed.
      * apply IH. unfold mark_descriptor_refs. rewrite Ed. destruct (mark_object_sets (object_refs desc) m) as [Hd Hl].
        apply (Hstop _ (Some (b, desc))); [done| |].
        -- intros o. rewrite Hl. naive_solver.
        -- intros b' d. unfold descriptor_of. rewrite Ec. split; [intros [[= <-] ?]; congruence|intros [= <- <-]; done].
      * apply IH. apply (Hstop m None); [done|naive_solver|]. intros b' d. unfold descriptor_of. rewrite Ec. split; [intros [[= <-] ?]; congruence|done].
    + apply IH. apply (Hstop m None); [done|naive_solver|]. intros b' d. unfold descriptor_of. rewrite Ec. split; [intros [? _]; congruence|done].
Qed.

(** ** No object under two kinds, by enumeration *)

Definition visit_check (K : list (ChunkId * MarkKind)) : Prop :=
  Forall (fun y => match visit limits x y.1 y.2 Marking_new with Ok m => Forall (.∈ K) (mk_work m) | Err _ => False end) K.

#[global] Instance visit_check_dec K : Decision (visit_check K).
Proof. unfold visit_check. apply list.Forall_dec. intros y. destruct (visit limits x y.1 y.2 Marking_new); apply _. Defined.

Lemma visit_points id k m c kc : visit limits x id k Marking_new = Ok m -> points_to id k c kc -> (c, kc) ∈ mk_work m.
Proof.
  intros [_ N _ _ F _ _]%visit_adds Hp. apply F in Hp as [?|[-> Hc]]; [done|]. apply N in Hc as [Hc|[_ ?]]; [|done]. by apply not_elem_of_empty in Hc.
Qed.

Lemma unambiguous_check roots K : Forall (fun id => (id, MRoot) ∈ K) roots -> visit_check K -> NoDup (map fst K) ->
  (forall id k, reach roots id k -> (id, k) ∈ K) /\ unambiguous roots.
Proof.
  intros Hr HK Hnd. unfold visit_check in HK. rewrite list.Forall_forall in Hr. rewrite list.Forall_forall in HK.
  assert (H : forall id k, reach roots id k -> (id, k) ∈ K).
  { intros id k Hid. induction Hid as [id Hid|id k c k' _ IH Hp]; [by apply Hr|]. apply HK in IH. cbn [fst snd] in IH.
    destruct (visit limits x id k Marking_new) as [m|] eqn:E; [|done]. rewrite list.Forall_forall in IH. apply IH. by eapply visit_points. }
  split; [done|]. intros id k k' Hk Hk'. replace k' with k; [done|]. apply H in Hk, Hk'.
  clear -Hnd Hk Hk'. induction K as [|[i kk] K IH]; [by apply elem_of_nil in Hk|]. cbn in Hnd. apply list.NoDup_cons in Hnd as [Hn Hnd].
  apply elem_of_cons in Hk as [Hk|Hk]; apply elem_of_cons in Hk' as [Hk'|Hk']; simplify_eq; [done|exfalso; apply Hn..|by apply IH];
    apply list_elem_of_fmap; eexists; (split; [|eassumption]); done.
Qed.

(** * What the mark finds *)

Lemma push_snapshots_work l : forall m, push_snapshots l m = set_work m (rev (map (fun y => (se_root_id y.2, MRoot)) l) ++ mk_work m).
Proof.
  induction l as [|[name e] l IH]; intros m; cbn [push_snapshots map rev]; [by destruct m|]. rewrite IH. unfold push_work, set_work. cbn. f_equal. by rewrite <-app_assoc.
Qed.

Definition mark_roots (snapshots : list (bytes * SnapshotEntry)) : list ChunkId := Root_id content_id root :: map (fun y => se_root_id y.2) snapshots.

Lemma walking_start l : walking (mark_roots l) (push_snapshots l (push_work Marking_new (Root_id content_id root) MRoot)).
Proof.
  rewrite push_snapshots_work. unfold push_work, set_work, mark_roots.
  assert (H : forall id k, (id, k) ∈ rev (map (fun y : bytes * SnapshotEntry => (se_root_id y.2, MRoot)) l) ++ [(Root_id content_id root, MRoot)] <->
    k = MRoot /\ id ∈ Root_id content_id root :: map (fun y : bytes * SnapshotEntry => se_root_id y.2) l).
  { intros id k. rewrite elem_of_app, (list_elem_of_In (rev _)), <-in_rev, <-list_elem_of_In, list_elem_of_singleton, elem_of_cons, !list_elem_of_fmap. split.
    - intros [(y & [= -> ->] & Hy)|[= -> ->]]; (split; [done|]); [right; by exists y|by left].
    - intros [-> [->|(y & -> & Hy)]]; [by right|left; by exists y]. }
  split; cbn [mk_work mk_live mk_referenced mk_descriptors Marking_new]; try (intros ? Hc; by apply not_elem_of_empty in Hc).
  - intros id k [-> Hid]%H. by apply reach_root.
  - intros id Hid. left. by apply H.
Qed.

(** C8. The mark is exact.  When no object is reached under two kinds that
    reference different things, a walk that ends has found the descriptors of
    every extent that the current root or a snapshot reaches, as chunks what
    these descriptors name and what an exact copy or the base of a residual
    names in turn, and as live objects all that the roots reach or that the
    descriptors of these chunks hold, and nothing else.  Only those two chain
    forms are followed: the dictionary of a chunk that is itself the base of
    another is not found. *)
Theorem mark_exact fuel snapshots mark : let roots := mark_roots snapshots in
  let start := fun c => exists id k, reach roots id k /\ refers id k c in
  snapshot_list BTREE_ORDER fanout x (snapshot_tree_root root) = Ok snapshots -> unambiguous roots ->
  mark_live_full content_id limits x root fuel = Some (Ok mark) ->
  (forall b : bytes, b ∈ lm_descriptors mark <-> exists id k, reach roots id k /\ describes id k b) /\
  (forall c : ChunkId, c ∈ lm_referenced mark <-> chained start c) /\
  (forall o : ChunkId, o ∈ lm_live mark <-> (exists k, reach roots o k) \/ exists c b desc, chained start c /\ descriptor_of c b desc /\ o ∈ object_refs desc).
Proof.
  intros roots start Hs Hu. unfold mark_live_full. rewrite Hs. cbn [of_tree map_err].
  destruct (mark_loop _ _ _ _) as [[m|]|] eqn:El; [|done..]. apply (mark_loop_walking roots) in El as [Hw Ew]; [|apply walking_start].
  destruct (walked _ _ Hw Ew Hu) as (Hl & Hr & Hd).
  destruct (resolve_loop _ _ _ _ _ _ _) as [[[seen m']|]|] eqn:Eq; [|done..]. intros [= <-]. cbn [lm_live lm_referenced lm_descriptors].
  apply (resolve_loop_resolving start m) in Eq as [S _ V X L Ds].
  2: { split; try done.
       - intros c Hc. left. apply elem_of_elements. by apply Hr.
       - intros c Hc%elem_of_elements%Hr. by apply chained_start.
       - intros o. split; [by left|]. intros [?|(? & ? & ? & Hc & _)]; [done|by apply not_elem_of_empty in Hc]. }
  assert (Hseen : forall c : ChunkId, c ∈ seen <-> chained start c).
  { intros c. split; [apply V|]. intros Hc. induction Hc as [c Hc|c b desc n _ IH Hd' Hn].
    - by apply S in Hc as [?%elem_of_nil|?].
    - by destruct (X c b desc n IH Hd' Hn) as [?%elem_of_nil|?]. }
  split; [|split; [done|]].
  - intros b. by rewrite Ds, Hd.
  - intros o. rewrite L, Hl. split; (intros [?|(c & b & desc & Hc & ?)]; [by left|right; exists c, b, desc; split; [by apply Hseen|done]]).
Qed.

(** * The loops end

    A loop ends with a result when all fuel from some point on gives it.  Each
    loop takes one id from its list and either goes on with the rest, or has
    an id of a finite set before it that it will not take again. *)
Definition ends {A} (loop : nat -> option A) : Prop := exists fuel r, forall more, (fuel <= more)%nat -> loop more = Some r.

Lemma ends_now {A} (loop : nat -> option A) r : (forall fuel, loop fuel = Some r) -> ends loop.
Proof. intros H. by exists 0%nat, r. Qed.
Lemma ends_step {A} (loop next : nat -> option A) : (forall fuel, loop (S fuel) = next fuel) -> ends next -> ends loop.
Proof. intros H (fuel & r & Hr). exists (S fuel), r. intros [|more] Hm; [lia|]. rewrite H. apply Hr. lia. Qed.
Lemma ends_once {A} (loop : nat -> option A) r : (forall fuel, loop (S fuel) = Some r) -> ends loop.
Proof. intros H. exists 1%nat, r. intros [|more] ?; [lia|apply H]. Qed.

(** Induction on what is left of the finite set, then on the list. *)
Lemma worklist_ind {T : Type} (ids : gset (list Z)) (P : gset (list Z) -> list T -> Prop) :
  (forall done, P done []) ->
  (forall done w work, (forall done', done ⊆ done' -> P done' work) ->
     (forall id done' work', id ∈ ids -> id ∉ done -> {[id]} ∪ done ⊆ done' -> P done' work') -> P done (w :: work)) ->
  forall done work, P done work.
Proof.
  intros Hnil Hcons done. remember (size (ids ∖ done)) as k eqn:Hk. revert done Hk.
  induction k as [k IHk] using lt_wf_ind. intros done Hk work. revert done Hk. induction work as [|w work IHw]; intros done Hk; [apply Hnil|].
  assert (Hnew : forall id done' work', id ∈ ids -> id ∉ done -> {[id]} ∪ done ⊆ done' -> P done' work').
  { intros id done' work' Hid Hni Hsub. apply (IHk (size (ids ∖ done'))); [|done]. rewrite Hk. apply subset_size. set_solver. }
  apply Hcons; [|exact Hnew]. intros done' Hsub. destruct (decide (ids ∖ done' = ids ∖ done)) as [E|E].
  - apply IHw. by rewrite E.
  - apply (IHk (size (ids ∖ done'))); [|done]. rewrite Hk. apply subset_size. set_solver.
Qed.

Context (stored : gset (list Z)) (Hstored : forall (id : ChunkId) b, object id b -> id ∈ stored).

Lemma walk_tree_stored id v m m' : walk_tree limits x id v m = Ok m' -> (id : list Z) ∈ stored \/ m' = m.
Proof. intros [[_ ->]|[(? & ? & [_ (b & Hb & _)] & _)|(? & [_ (b & Hb & _)] & _)]]%walk_tree_inv; [by right|left..]; by eapply Hstored. Qed.

Lemma visit_stored id k m m' : visit limits x id k m = Ok m' -> (id : list Z) ∈ stored \/ m' = m.
Proof.
  destruct k; cbn [visit]; try by apply walk_tree_stored.
  - unfold decode_root. destruct (mark_fetch x _ id) as [b|] eqn:E; [|done]. apply mark_fetch_ok in E. left. by eapply Hstored.
  - unfold decode_inode. destruct (mark_fetch x _ id) as [b|] eqn:E; [|done]. apply mark_fetch_ok in E. left. by eapply Hstored.
  - intros [= <-]. by right.
Qed.

Lemma mark_loop_ends m : ends (fun fuel => mark_loop limits x fuel m).
Proof.
  enough (H : forall live work m, live = mk_live m -> work = mk_work m -> ends (fun fuel => mark_loop limits x fuel m)) by by eapply H.
  clear m. apply (worklist_ind stored (fun live work => forall m, live = mk_live m -> work = mk_work m -> ends (fun fuel => mark_loop limits x fuel m)));
    [intros done m -> Ew|intros done [id k] work IHw IHn m -> Ew].
  - apply (ends_now _ (Ok m)). intros [|fuel]; cbn [mark_loop]; by rewrite <-Ew.
  - eapply ends_step; [intros fuel; cbn [mark_loop]; rewrite <-Ew; reflexivity|]. cbn beta. case_bool_decide as Hin; [by apply (IHw (mk_live m))|].
    destruct (visit limits x id k _) as [m'|e] eqn:Ev; [|by apply (ends_now _ (Err e))].
    pose proof (visit_adds _ _ _ _ Ev) as [Hsub _ _ _ _ _ _]. cbn in Hsub. pose proof (visit_stored _ _ _ _ Ev) as [Hid| ->].
    + by apply (IHn id (mk_live m') (mk_work m')).
    + by apply (IHw ({[id]} ∪ mk_live m)); [set_solver|..].
Qed.

Context (indexed : gset (list Z)) (Hindexed : forall (c : ChunkId) b, chunk_descriptor limits x root c = Ok (Some b) -> c ∈ indexed).

Lemma resolve_loop_ends seen queue : forall m, ends (fun fuel => resolve_loop limits x root fuel queue seen m).
Proof.
  revert seen queue. apply (worklist_ind indexed (fun seen queue => forall m, ends (fun fuel => resolve_loop limits x root fuel queue seen m)));
    [intros seen m|intros seen c queue IHw IHn m].
  - apply (ends_now _ (Ok (seen, m))). by intros [|fuel].
  - eapply ends_step; [intros fuel; cbn [resolve_loop]; reflexivity|]. cbn beta. case_bool_decide as Hin; [by apply IHw|].
    destruct (chunk_descriptor limits x root c) as [[b|]|e] eqn:Ec; [|apply IHw; set_solver|by apply (ends_now _ (Err e))].
    destruct (Descriptor.decode limits b) as [desc|]; (apply (IHn c); [by eapply Hindexed|done|done]).
Qed.

Lemma node_ids_loop_ends out stack : ends (fun fuel => node_ids_loop limits x fuel stack out).
Proof.
  revert out stack. apply (worklist_ind stored (fun out stack => ends (fun fuel => node_ids_loop limits x fuel stack out)));
    [intros out|intros out id stack IHw IHn].
  - apply (ends_now _ (Ok out)). by intros [|fuel].
  - eapply ends_step; [intros fuel; cbn [node_ids_loop]; reflexivity|]. cbn beta. case_bool_decide as Hin; [by apply IHw|].
    destruct (mark_fetch x _ id) as [b|e] eqn:Ef; cbn [rbind]; [|by eapply ends_now].
    apply mark_fetch_ok, Hstored in Ef. destruct (map_err _ _) as [[es|c es]|e]; cbn [rbind]; [apply (IHn id); try done; set_solver|..|by eapply ends_now].
    destruct (push_children es _) as [stack'|e]; [|by eapply ends_now]. apply (IHn id); try done; set_solver.
Qed.

(** C26. The collector's walks end.  In a store of finitely many objects whose
    chunk index has finitely many entries, enough fuel gives the mark a
    result, and more fuel the same one, whatever the objects hold: a cycle
    of references, a tree without end or a broken object is an error or a
    stop.  So it is with the listing of a tree's nodes. *)
Theorem mark_terminates tree_root out : (exists fuel r, forall more, (fuel <= more)%nat -> mark_live_full content_id limits x root more = Some r) /\
  (exists fuel r, forall more, (fuel <= more)%nat -> collect_tree_node_ids limits x more tree_root out = Some r).
Proof.
  split.
  - unfold mark_live_full. destruct (of_tree _) as [snapshots|e]; [|by exists 0%nat, (Err e)].
    destruct (mark_loop_ends (push_snapshots snapshots (push_work Marking_new (Root_id content_id root) MRoot))) as (f1 & [m|e] & H1);
      [|exists f1, (Err e); intros more Hm; by rewrite (H1 more Hm)].
    destruct (resolve_loop_ends ∅ (elements (mk_referenced m)) m) as (f2 & [[seen m']|e] & H2);
      (eexists (f1 + f2)%nat, _; intros more Hm; rewrite (H1 more), (H2 more) by lia; reflexivity).
  - unfold collect_tree_node_ids. destruct (ChunkId_is_zero tree_root); [by exists 0%nat, (Ok out)|]. apply node_ids_loop_ends.
Qed.
End Graph.

(** * Examples *)

(** A file whose extent is a copy of chunk [kept_chunk], which is compressed
    against the dictionary chunk [dict_chunk], which is raw. *)
Definition kept_chunk : ChunkId := mix_hash [1; 1].
Definition dict_chunk : ChunkId := mix_hash [2; 2].
Definition raw_object : ChunkId := mix_hash [9; 9; 9; 9].
Definition dict_desc : Representation := SequenceDict dict_chunk 4 (mix_hash [10]) (mix_hash [11]) 12 Single 1 1 1 1 1 4 4.
Definition chain_run : outcome Txn :=
  let '(_, t) := put_object mix_hash txn_none Data [9; 9; 9; 9] (Some 4) in
  let '(_, t) := put_object mix_hash t Model [10] None in
  let '(_, t) := put_object mix_hash t Data [11] None in
  let! t := put_inode_in_tx mix_hash Limits_default t 2 inode_a in
  let! t := put_extent_in_tx mix_hash Limits_default t (clock 0) 2 0 (ExactRef kept_chunk 0 4) in
  let! t := put_chunk_in_tx mix_hash Limits_default t kept_chunk dict_desc in
  let! t := put_chunk_in_tx mix_hash Limits_default t dict_chunk (Raw raw_object 4) in
  let '(_, t) := put_object mix_hash t RootTag (Root_encode (txn_root t)) None in
  Ok t.
Definition chain_txn : Txn := Eval vm_compute in match chain_run with Ok t => t | Err _ => txn_none end.
Definition chain_root : Root := txn_root chain_txn.
Definition chain_store : Tx StoreError := settled (txn_tx chain_txn).

Definition chain_inode : Inode := Eval vm_compute in match inode_for_tx Limits_default chain_txn 2 with Ok i => i | Err _ => inode_a end.
Definition chain_extents : ChunkId := Eval vm_compute in match i_data chain_inode with IFile r => r | _ => [] end.

(** The objects the root reaches. *)
Definition chain_graph : list (ChunkId * MarkKind) :=
  [(Root_id mix_hash chain_root, MRoot); (inode_index_root chain_root, MTreeInodeIndex); (chunk_index_root chain_root, MTreeChunkIndex);
   (mix_hash (inode_image chain_inode), MInode); (chain_extents, MTreeExtent)].

Lemma chain_unambiguous : unambiguous Limits_default chain_store (mark_roots mix_hash chain_root []).
Proof.
  apply (unambiguous_check mix_hash Limits_default chain_store _ chain_graph).
  - apply (bool_decide_unpack _); by vm_compute.
  - apply (bool_decide_unpack _); by vm_compute.
  - apply (bool_decide_unpack _); by vm_compute.
Qed.

Definition chain_mark : LiveMark := match mark_live_full mix_hash Limits_default chain_store chain_root 20 with
                                   | Some (Ok mark) => mark | _ => {| lm_live := ∅; lm_referenced := ∅; lm_descriptors := ∅ |} end.

(** The file's chunk is found, the dictionary it needs is not, nor the
    dictionary's object. *)
Lemma mark_exact_witness :
  (forall c : ChunkId, c ∈ lm_referenced chain_mark <->
    chained Limits_default chain_store chain_root
      (fun c => exists id k, reach Limits_default chain_store (mark_roots mix_hash chain_root []) id k /\ refers Limits_default chain_store id k c) c) /\
  kept_chunk ∈ lm_referenced chain_mark /\ chain_nexts dict_desc = [dict_chunk] /\ dict_chunk ∉ lm_referenced chain_mark /\ raw_object ∉ lm_live chain_mark.
Proof.
  assert (E : mark_live_full mix_hash Limits_default chain_store chain_root 20 = Some (Ok chain_mark)) by by vm_compute.
  destruct (mark_exact mix_hash Limits_default chain_store chain_root 20 [] chain_mark eq_refl chain_unambiguous E) as (_ & H & _).
  split; [exact H|]. split; [apply (bool_decide_unpack _); by vm_compute|]. split; [done|]. split; apply (bool_decide_unpack _); by vm_compute.
Defined.

Definition chain_stored : gset (list Z) := dom (tx_pending (txn_tx chain_txn)).
Lemma chain_objects (id : ChunkId) b : object chain_store id b -> id ∈ chain_stored.
Proof.
  unfold object. cbn [tx_fetch chain_store settled]. unfold fetch_pending_or_store, chain_stored. intros Hf. apply elem_of_dom.
  destruct (tx_pending (txn_tx chain_txn) !! id); [by eexists|by cbn in Hf].
Qed.

Definition chunk_values : gmap bytes bytes :=
  {[ kept_chunk := default [] (match Descriptor.encode dict_desc with Ok b => Some b | Err _ => None end);
     dict_chunk := default [] (match Descriptor.encode (Raw raw_object 4) with Ok b => Some b | Err _ => None end) ]}.
Lemma chain_index : holds BTREE_ORDER (max_fanout Limits_default) chain_store full_shape 0 (chunk_index_root chain_root) chunk_values.
Proof. eval_holds [(kept_chunk, chunk_values !!! kept_chunk); (dict_chunk, chunk_values !!! dict_chunk)]. Qed.

Lemma chain_indexed (c : ChunkId) b : chunk_descriptor Limits_default chain_store chain_root c = Ok (Some b) -> c ∈ dom chunk_values.
Proof.
  unfold chunk_descriptor. rewrite (get_ok _ _ _ _ _ _ _ _ chain_index) by lia. cbn [of_tree map_err]. intros [= Hc]. apply elem_of_dom. by eexists.
Qed.

Lemma mark_terminates_witness :
  exists fuel r, forall more, (fuel <= more)%nat -> mark_live_full mix_hash Limits_default chain_store chain_root more = Some r.
Proof.
  apply (mark_terminates mix_hash Limits_default chain_store chain_root chain_stored chain_objects (dom chunk_values) chain_indexed ChunkId_ZERO ∅).
Defined.
