(* ===== verification/CompactSpec.v ===== *)
(** A compaction: the rebuilt chunk index stands for the entries that stay,
    and what becomes of every entry of the object index. *)
From stdpp Require Import gmap sorting.
From Stdlib Require String.
From S2P Require Import Prelude Codec Repr Version SegRecord Inode Superblock Descriptor Context Keys BTree StoreError RootObj Segment SyncIo Recovery StoreLog BTreeNode BTreeSpec BTreeCheck IndexSpec ScanSpec BulkSpec Directory Transaction TransactionSpec FileWrite Gc RecoverySpec LogSpec CheckpointSpec Namespace NamespaceSpec EpochSpec GcSpec SegmentSpec WriterSpec.
Import String.StringSyntax.

(** * The staging provider *)

#[global] Program Instance rebuild_laws {coder : RecordCoder} : ProviderLaws RebuildProvider := { prov_ok _ := True }.
Next Obligation. done. Qed.
Next Obligation. intros coder p id b id' _ Hne. cbn. unfold rebuild_put. destruct (rb_pending p !! id); [done|]. cbn. by rewrite lookup_insert_ne. Qed.
Next Obligation. intros coder p id b c _ Hg. cbn in *. injection Hg as Hg. unfold rebuild_put. rewrite Hg. cbn. by rewrite Hg. Qed.
Next Obligation. intros coder p id b _ Hg. cbn in *. injection Hg as Hg. unfold rebuild_put. rewrite Hg. cbn. by rewrite lookup_insert_eq. Qed.

Section Placed.
Context {coder : RecordCoder}.

(** Where the staged nodes are: each id once in the provider is an id with a
    location in the fresh segment. *)
Record placed (p : RebuildProvider) : Prop := {
  pl_new e : e ∈ rb_locations p -> loc_segment_seq e.2 = rb_new_seq p;
  pl_ids (id : ChunkId) : id ∈ map fst (rb_locations p) <-> id ∈ dom (rb_pending p);
  pl_writer : sw_seq (rb_writer p) = rb_new_seq p
}.

Lemma put_placed p id b : placed p -> placed (rebuild_put p id b) /\ rb_new_seq (rebuild_put p id b) = rb_new_seq p.
Proof.
  intros [Hn Hi Hw]. unfold rebuild_put. destruct (rb_pending p !! id) eqn:E; [done|]. cbn. split; [|done]. split; cbn; try done.
  - intros e [He|He%list_elem_of_singleton]%elem_of_app; [by apply Hn|by subst].
  - intros id'. rewrite map_app, elem_of_app, Hi, dom_insert. cbn. set_solver.
Qed.
Lemma staged_placed l : forall p, placed p -> placed (staged coder_id p l) /\ rb_new_seq (staged coder_id p l) = rb_new_seq p.
Proof.
  induction l as [|b l IH]; intros p Hp; [done|]. unfold staged. cbn [fold_left]. destruct (put_placed p (coder_id b) b Hp) as [Hp' <-]. by apply IH.
Qed.
End Placed.

Section Rebuild.
Context {coder : RecordCoder} (limits : Limits).
Context (Hid : forall b, wf_id (coder_id b)) (Hfan : BTREE_ORDER <= max_fanout limits).
#[local] Abbreviation fanout := (max_fanout limits).
#[local] Abbreviation holds := (holds BTREE_ORDER fanout).
Implicit Types (M : gmap bytes bytes) (mark : LiveMark).

(** The entries that stay: the chunk is referenced, or an extent carries this
    very descriptor. *)
Definition kept mark (y : bytes * bytes) : Prop := y.1 ∈ lm_referenced mark \/ y.2 ∈ lm_descriptors mark.
#[global] Instance kept_dec mark y : Decision (kept mark y).
Proof. unfold kept. apply _. Defined.

Lemma kept_entries_ok mark (l : list EntryPair) : Forall (fun y : EntryPair => zlen y.1 = 32) l -> kept_entries mark l = Ok (base.filter (kept mark) l).
Proof.
  induction 1 as [|[k v] l Hk _ IH]; [done|]. cbn [kept_entries fst] in *. unfold ChunkId_from_bytes. rewrite Hk. cbn [Z.eqb Pos.eqb ok_or rbind]. rewrite IH. cbn [rbind].
  rewrite filter_cons. unfold kept. cbn [fst snd]. do 2 case_bool_decide; cbn [orb]; destruct (decide _); tauto || done.
Qed.

Lemma filter_sorted mark (m : list (bytes * bytes)) : sorted (map fst m) -> sorted (map fst (base.filter (kept mark) m)).
Proof.
  unfold sorted. induction m as [|y m IH]; [done|]. intros [Hs Hf]%StronglySorted_inv. rewrite filter_cons. destruct (decide _) as [_|_]; [|by apply IH].
  constructor; [by apply IH|]. rewrite list.Forall_forall in *. intros k (z & -> & Hz)%list_elem_of_fmap. apply Hf. apply list_elem_of_fmap. exists z.
  split; [done|]. by apply list_elem_of_filter in Hz as [_ ?].
Qed.
Lemma filter_to_map mark (m : list (bytes * bytes)) : sorted (map fst m) -> to_map (base.filter (kept mark) m) = base.filter (kept mark) (to_map m).
Proof.
  intros Hs. pose proof (sorted_NoDup _ (filter_sorted mark m Hs)) as Hf. apply sorted_NoDup in Hs. apply map_eq. intros k. apply option_eq. intros v. rewrite map_lookup_filter_Some. unfold to_map.
  rewrite <-!elem_of_list_to_map, list_elem_of_filter; [tauto|done..].
Qed.


(** C10. The rebuild is a filter.  Over a chunk index that holds the map [M]
    the fresh index is the tree of the entries of [M] whose chunk the mark
    referenced or whose descriptor an extent carries, and of no others, at a
    height logarithmic in their number.  Every node it staged is appended to
    the fresh segment, once, with its location there; unless content ids
    collide all of it reads back. *)
Theorem rebuild_exact fuel (x : Tx StoreError) sh n (root : Root) w new_seq mark M rx p sh' :
  holds x sh n (chunk_index_root root) M -> (n <= 128)%nat -> Z.of_nat (size M) < 2 ^ 64 ->
  (forall k v, M !! k = Some v -> zlen k = 32) -> sw_seq w = new_seq -> shape_ok BTREE_ORDER fanout sh' -> sh_min sh' = 0 ->
  rebuild_chunk_index limits fuel x root w new_seq mark [] = Some (Ok (rx, p)) ->
  placed p /\ rb_new_seq p = new_seq /\
  collect_tree_node_ids limits x fuel (chunk_index_root root) ∅ = Some (Ok (rx_old_nodes rx)) /\
  rx_old_only rx = rx_old_nodes rx ∖ dom (rb_pending p) /\
  exists l n', p = staged coder_id {| rb_writer := w; rb_new_seq := new_seq; rb_pending := ∅; rb_locations := [] |} l /\
    2 ^ Z.of_nat n' <= Z.max 1 (Z.of_nat (size (base.filter (kept mark) M))) /\
    (reads_back coder_id p l -> holds p sh' n' (rx_root rx) (base.filter (kept mark) M)).
Proof.
  intros (m & Hix & ->) Hn Hsz Hk Hw Hsh Hmin Hr. pose proof (index_sorted _ _ _ _ _ _ _ Hix) as Hs.
  assert (Hlen : forall l : list (bytes * bytes), sorted (map fst l) -> Z.of_nat (size (to_map l)) = zlen l).
  { intros l Hl%sorted_NoDup. unfold zlen. f_equal. rewrite <-length_map_to_list. unfold to_map. by rewrite map_to_list_to_map. }
  assert (Hkeys : Forall (fun y : EntryPair => zlen y.1 = 32) m).
  { apply list.Forall_forall. intros [k v] Hin. apply (Hk k v). apply elem_of_list_to_map; [by apply sorted_NoDup|done]. }
  assert (Hok : Forall (fun kv : bytes * bytes => key_ok kv.1 /\ value_ok kv.2) m).
  { destruct Hix as [[_ ->]|Ht]; [by apply list.Forall_nil|exact (tree_entries_ok _ _ _ _ _ _ _ _ _ Ht)]. }
  unfold rebuild_chunk_index in Hr. destruct (collect_tree_node_ids _ _ _ _ _) as [[nodes|]|]; [|done..]. cbn [rbind] in Hr.
  assert (Hkept : (if ChunkId_is_zero (chunk_index_root root) then Ok []
                   else let! entries := of_tree (scan_all BTREE_ORDER fanout x (chunk_index_root root)) in kept_entries mark entries) = Ok (base.filter (kept mark) m)).
  { rewrite Hlen in Hsz by done. destruct (ChunkId_is_zero _) eqn:Ez.
    - destruct Hix as [[_ ->]|Ht]; [done|by rewrite (tree_nonzero _ _ _ _ _ _ _ _ _ Ht) in Ez].
    - destruct (scan_all_ok BTREE_ORDER fanout x sh n _ m Hix Hn Hsz) as [-> _]. cbn [of_tree map_err rbind]. by apply kept_entries_ok. }
  rewrite Hkept in Hr. cbn [rbind] in Hr. set (p0 := {| rb_writer := w; rb_new_seq := new_seq; rb_pending := ∅; rb_locations := [] |}) in *.
  pose proof (filter_sorted mark m Hs) as Hsf.
  destruct (bulk_load_ok coder_id BTREE_ORDER fanout order_ok Hfan Hid p0 sh' (base.filter (kept mark) m)) as (r & h & l & E & Hh & Hi & _); try done.
  { apply list.Forall_forall. intros y Hy. rewrite list.Forall_forall in Hok. apply Hok. by apply list_elem_of_filter in Hy as [_ ?]. }
  rewrite E in Hr. cbn [of_tree map_err rbind] in Hr. injection Hr as <- <-. cbn [rx_old_nodes rx_old_only rx_root].
  destruct (staged_placed l p0) as [Hp Hseq]; [split; cbn; try done; set_solver|].
  split; [done|]. split; [done|]. split; [done|]. split; [done|]. exists l, h. split; [done|].
  rewrite <-filter_to_map by done. split; [by rewrite Hlen|]. intros Hg. exists (base.filter (kept mark) m). split; [by apply Hi|done].
Qed.
End Rebuild.

(** * A bulk load only stages *)

Section Puts.
Context {P : Type} `{ObjectProvider P} (content_id : bytes -> ChunkId) (order max_fanout : Z).
Implicit Types p : P.

Definition puts p p' : Prop := exists l, p' = staged content_id p l.
Lemma puts_refl p : puts p p.
Proof. by exists []. Qed.
Lemma puts_trans p p' p'' : puts p p' -> puts p' p'' -> puts p p''.
Proof. intros [l ->] [l' ->]. exists (l ++ l'). unfold staged. by rewrite fold_left_app. Qed.

Lemma stage_node_puts p nd id p' : stage_node content_id order p nd = Ok (id, p') -> puts p p'.
Proof. unfold stage_node, Node_id. destruct (Node_encode nd order) as [b|]; cbn [rbind]; [|done]. intros [= <- <-]. by exists [b]. Qed.
Lemma load_leaves_puts cs : forall p level p', load_leaves content_id order p cs = Ok (level, p') -> puts p p'.
Proof.
  induction cs as [|c cs IH]; intros p level p'; cbn [load_leaves]; [intros [= <- <-]; apply puts_refl|]. intros Hr. inv_ok Hr.
  eapply puts_trans; [by eapply stage_node_puts|by eapply IH].
Qed.
Lemma load_internals_puts cs : forall p level p', load_internals content_id order p cs = Ok (level, p') -> puts p p'.
Proof.
  induction cs as [|c cs IH]; intros p level p'; cbn [load_internals]; [intros [= <- <-]; apply puts_refl|]. intros Hr. inv_ok Hr.
  eapply puts_trans; [by eapply stage_node_puts|by eapply IH].
Qed.
Lemma load_levels_puts fuel : forall p lv level p', load_levels content_id order fuel p lv = Ok (level, p') -> puts p p'.
Proof.
  induction fuel as [|fuel IH]; intros p lv level p'; cbn [load_levels]; (destruct (zlen lv <=? 1); [intros [= <- <-]; apply puts_refl|]); [done|].
  intros Hr. inv_ok Hr. eapply puts_trans; [by eapply load_internals_puts|by eapply IH].
Qed.
Lemma bulk_load_puts p entries root p' : bulk_load content_id order max_fanout p entries = Ok (root, p') -> puts p p'.
Proof.
  unfold bulk_load. destruct (zlen entries =? 0); [intros [= <- <-]; apply puts_refl|]. intros Hr. inv_ok Hr.
  eapply puts_trans; [by eapply load_leaves_puts|by eapply load_levels_puts].
Qed.
End Puts.

(** * The object index across a compaction *)

Record index_ok (x : ObjectIndex) : Prop := {
  io_shards : length (shards x) = SHARDS;
  io_home i s (id : ChunkId) loc : shards x !! i = Some s -> s !! id = Some loc -> shard_of id = i
}.

Lemma get_remove x (id id' : ChunkId) : length (shards x) = SHARDS ->
  ObjectIndex_get (fst (ObjectIndex_remove x id)) id' = if decide (id' = id) then None else ObjectIndex_get x id'.
Proof.
  intros Hl. unfold ObjectIndex_remove. cbn [fst]. rewrite get_alter by done. destruct (decide (id' = id)) as [->|Hne].
  - rewrite decide_True by done. destruct (shard_lookup x id Hl) as [s ->]. cbn. by rewrite lookup_delete_eq.
  - destruct (decide _) as [E|]; [|done]. unfold ObjectIndex_get. destruct (shards x !! _) as [s|]; [|done]. cbn. by rewrite lookup_delete_ne.
Qed.

Lemma index_ok_alter x f (id : ChunkId) : index_ok x -> (forall s (id' : ChunkId) loc, (f s : gmap (list Z) Location) !! id' = Some loc -> id' = id \/ s !! id' = Some loc) ->
  index_ok {| shards := alter f (shard_of id) (shards x) |}.
Proof.
  intros [Hl Hh] Hf. split; cbn; [by rewrite length_alter|]. intros i s id' loc Hs Hg. destruct (decide (i = shard_of id)) as [->|Hne].
  - rewrite list_lookup_alter_eq in Hs. apply fmap_Some in Hs as (s0 & Hs0 & ->). apply Hf in Hg as [->|Hg]; [done|by eapply Hh].
  - rewrite list_lookup_alter_ne in Hs by done. by eapply Hh.
Qed.
Lemma index_ok_insert x (id : ChunkId) loc : index_ok x -> index_ok (ObjectIndex_insert x id loc).
Proof.
  intros Hx. apply index_ok_alter; [done|]. intros s id' l. destruct (decide (id' = id)) as [->|]; [by left|]. rewrite lookup_insert_ne by done. by right.
Qed.
Lemma index_ok_remove x (id : ChunkId) : index_ok x -> index_ok (fst (ObjectIndex_remove x id)).
Proof. intros Hx. apply index_ok_alter; [done|]. intros s id' l [_ Hd]%lookup_delete_Some. by right. Qed.

Lemma iter_get x (id : ChunkId) loc : index_ok x -> (id, loc) ∈ ObjectIndex_iter x <-> ObjectIndex_get x id = Some loc.
Proof.
  intros [Hl Hh]. unfold ObjectIndex_iter, ObjectIndex_get. rewrite list_elem_of_In, in_concat. setoid_rewrite <-list_elem_of_In. split.
  - intros (l & (s & -> & Hs)%list_elem_of_fmap & Hin). apply elem_of_map_to_list in Hin. apply list_elem_of_lookup in Hs as [i Hi].
    rewrite (Hh i s id loc) by done. by rewrite Hi.
  - intros Hg. destruct (shards x !! shard_of id) as [s|] eqn:E; [|done]. cbn in Hg. exists (map_to_list s). split; [|by apply elem_of_map_to_list].
    apply list_elem_of_fmap. exists s. split; [done|]. by eapply list_elem_of_lookup_2.
Qed.

Lemma get_insert_locations l : forall x (id : ChunkId), index_ok x -> index_ok (insert_locations x l) /\
  ((id ∉ map fst l /\ ObjectIndex_get (insert_locations x l) id = ObjectIndex_get x id) \/
   exists loc, (id, loc) ∈ l /\ ObjectIndex_get (insert_locations x l) id = Some loc).
Proof.
  unfold insert_locations. induction l as [|[id0 loc0] l IH]; intros x id Hx; cbn [fold_left fst snd map].
  - split; [done|]. left. split; [by apply not_elem_of_nil|done].
  - destruct (IH (ObjectIndex_insert x id0 loc0) id) as [Hok Hg]; [by apply index_ok_insert|]. split; [done|].
    destruct Hg as [[Hni Hg]|(loc & Hin & Hg)]; [|right; exists loc; split; [by right|done]].
    rewrite get_insert in Hg by apply Hx. destruct (decide (id = id0)) as [->|Hne].
    + right. exists loc0. split; [by left|done].
    + left. split; [|done]. by apply not_elem_of_cons.
Qed.

Lemma get_remove_ids l : forall x (id : ChunkId), index_ok x -> index_ok (remove_ids x l) /\
  ObjectIndex_get (remove_ids x l) id = if bool_decide (id ∈ l) then None else ObjectIndex_get x id.
Proof.
  unfold remove_ids. induction l as [|id0 l IH]; intros x id Hx; cbn [fold_left]; [done|].
  destruct (IH (fst (ObjectIndex_remove x id0)) id) as [Hok ->]; [by apply index_ok_remove|]. split; [done|].
  rewrite get_remove by apply Hx. destruct (decide (id = id0)) as [->|Hne].
  - rewrite (bool_decide_eq_true_2 (id0 ∈ id0 :: l)) by by left. by destruct (bool_decide _).
  - rewrite (bool_decide_ext (id ∈ id0 :: l) (id ∈ l)); [done|]. rewrite elem_of_cons. tauto.
Qed.

(** * The compaction *)

Section Compaction.
Context {coder : RecordCoder} (limits : Limits) {D : Type} `{IoBackend D} (text : StoreError -> String.string) (hooks : CrashHooks).
Implicit Types (st : @GcState D) (id : ChunkId).

Lemma step_inv {S A B : Type} (m : S * outcome A) (k : S -> A -> S * outcome B) s' b : step m k = (s', Ok b) ->
  exists s a, m = (s, Ok a) /\ k s a = (s', Ok b).
Proof. destruct m as [s [a|e]]; cbn; [|done]. intros Hk. by exists s, a. Qed.
Lemma on_io_inv {A : Type} st (m : D * result StoreError A) st' a : on_io st m = (st', Ok a) ->
  lg_index (gc_log st') = lg_index (gc_log st) /\ lg_segment (gc_log st') = lg_segment (gc_log st) /\ gc_commit st' = gc_commit st /\ snd m = Ok a.
Proof. destruct m as [d [b|e]]; intros [= <-]; subst; done. Qed.
Lemma on_flush_inv st d w st' w' : on_flush st (SegmentWriter_flush d w) = (st', Ok w') ->
  lg_index (gc_log st') = lg_index (gc_log st) /\ lg_segment (gc_log st') = lg_segment (gc_log st) /\ gc_commit st' = gc_commit st /\ sw_seq w' = sw_seq w.
Proof.
  unfold SegmentWriter_flush, on_flush. destruct (zlen (sw_buffer w) =? 0); [by intros [= <- <-]|].
  destruct (io_write_at _ _ _ _) as [d' [u|e]]; cbn; [|done]. by intros [= <- <-].
Qed.
Lemma safe_inv {E A : Type} (m : result E A) a : safe m = Ok a -> m = Ok a.
Proof. destruct m; cbn; congruence. Qed.
Lemma pure_inv {A : Type} st (m : outcome A) st' a : pure_step st m = (st', Ok a) -> st' = st /\ m = Ok a.
Proof. by intros [= <- <-]. Qed.

(** Where the copies are: one new location for each candidate, in order. *)
Lemma copy_records_ok (d : D) new_seq candidates : forall w locations w' locations',
  copy_records d w new_seq candidates locations = Ok (w', locations') ->
  sw_seq w' = sw_seq w /\ exists l, locations' = locations ++ l /\ map fst l = map fst candidates /\ Forall (fun e : ChunkId * Location => loc_segment_seq e.2 = new_seq) l.
Proof.
  induction candidates as [|[id loc] candidates IH]; intros w locations w' locations'; cbn [copy_records].
  - intros [= <- <-]. split; [done|]. exists []. by rewrite app_nil_r.
  - destruct (io_read_payload _ _ _ _) as [b|e]; [|done]. cbn [rbind append_record_at]. intros (Hw & l & -> & Hl & Hf)%IH. split; [done|].
    eexists (_ :: l). rewrite <-app_assoc. split; [reflexivity|]. split; [cbn; by rewrite Hl|]. by constructor.
Qed.

Lemma delete_segments_ok victims : forall st st' u, delete_segments st victims = (st', Ok u) ->
  lg_index (gc_log st') = lg_index (gc_log st) /\ lg_segment (gc_log st') = lg_segment (gc_log st) /\ gc_commit st' = gc_commit st.
Proof.
  induction victims as [|seq victims IH]; intros st st' u; cbn [delete_segments]; [by intros [= <-]|].
  intros (st1 & u1 & (E1 & E2 & E3 & _)%on_io_inv & (-> & -> & ->)%IH)%step_inv. by rewrite E1, E2, E3.
Qed.

Lemma open_seq (d d' : D) seq w : SegmentWriter_open coder_crc coder_id d seq = (d', Ok w) -> sw_seq w = seq.
Proof. unfold SegmentWriter_open. destruct (open_segment_common _ _ _ _) as [d1 [e|e]]; cbn; [|done]. by intros [= <- <-]. Qed.

(** An entry is in a victim; it was moved to segment [seq]. *)
Definition in_victims (victims : list Z) (o : option Location) : Prop := exists loc, o = Some loc /\ loc_segment_seq loc ∈ victims.
Definition moved (seq : Z) (o : option Location) : Prop := exists loc, o = Some loc /\ loc_segment_seq loc = seq.

Lemma copied_ids x victims live nodes root_id id : index_ok x ->
  id ∈ map fst (copy_candidates x victims live nodes root_id) <-> in_victims victims (ObjectIndex_get x id) /\ id ∈ live /\ id ∉ nodes /\ id <> root_id.
Proof.
  intros Hx. unfold copy_candidates, in_victims. rewrite (merge_sort_Permutation location_le (base.filter _ _)), list_elem_of_fmap. split.
  - intros ([i loc] & -> & Hin). apply list_elem_of_filter in Hin as [(Hv & Hl & Hn & Hr) Hin]. apply iter_get in Hin; [|done]. cbn [fst snd] in *. split; [by exists loc|done].
  - intros ((loc & Hg & Hv) & Hl & Hn & Hr). exists (id, loc). split; [done|]. apply list_elem_of_filter. split; [done|]. by apply iter_get.
Qed.
Lemma dead_ids_in x victims live old_only id : index_ok x ->
  id ∈ dead_ids x victims live old_only <-> in_victims victims (ObjectIndex_get x id) /\ (id ∉ live \/ id ∈ old_only).
Proof.
  intros Hx. unfold dead_ids, in_victims. rewrite list_elem_of_fmap. split.
  - intros ([i loc] & -> & Hin). apply list_elem_of_filter in Hin as [[Hv Hl] Hin]. apply iter_get in Hin; [|done]. cbn [fst snd] in *. split; [by exists loc|done].
  - intros ((loc & Hg & Hv) & Hl). exists (id, loc). split; [done|]. apply list_elem_of_filter. split; [done|]. by apply iter_get.
Qed.

(** The index after the publication and the removal of the dead. *)
Lemma published_get x (locations : list (ChunkId * Location)) root_id root_loc victims live old_only seq id :
  index_ok x -> Forall (fun e : ChunkId * Location => loc_segment_seq e.2 = seq) locations -> loc_segment_seq root_loc = seq -> seq ∉ victims ->
  let x' := published_index x locations root_id root_loc in
  let o := ObjectIndex_get (remove_ids x' (dead_ids x' victims live old_only)) id in
  (id = root_id \/ id ∈ map fst locations -> moved seq o) /\
  (id <> root_id -> id ∉ map fst locations -> in_victims victims (ObjectIndex_get x id) -> id ∉ live \/ id ∈ old_only -> o = None) /\
  (id <> root_id -> id ∉ map fst locations -> ~ (in_victims victims (ObjectIndex_get x id) /\ (id ∉ live \/ id ∈ old_only)) -> o = ObjectIndex_get x id).
Proof.
  intros Hx Hl Hr Hseq x' o. destruct (get_insert_locations locations x id Hx) as [Hx1 Hg1].
  assert (Hx' : index_ok x') by by apply index_ok_insert. assert (Hg' : ObjectIndex_get x' id = if decide (id = root_id) then Some root_loc else ObjectIndex_get (insert_locations x locations) id).
  { unfold x', published_index. by rewrite get_insert by apply Hx1. }
  destruct (get_remove_ids (dead_ids x' victims live old_only) x' id Hx') as [_ Ho]. fold o in Ho.
  assert (Hd : id ∈ dead_ids x' victims live old_only <-> in_victims victims (ObjectIndex_get x' id) /\ (id ∉ live \/ id ∈ old_only)) by by apply dead_ids_in.
  assert (Hmoved : moved seq (ObjectIndex_get x' id) -> moved seq o).
  { intros (loc & E & Es). rewrite Ho, bool_decide_eq_false_2; [by exists loc|]. rewrite Hd. intros [(loc' & E' & Hin) _]. rewrite E in E'. injection E' as <-. by rewrite Es in Hin. }
  split; [|split].
  - intros Hin. apply Hmoved. rewrite Hg'. destruct (decide (id = root_id)) as [->|Hne]; [by exists root_loc|]. destruct Hin as [?|Hin]; [done|].
    destruct Hg1 as [[? _]|(loc & Hloc & ->)]; [done|]. exists loc. split; [done|]. rewrite list.Forall_forall in Hl. by apply (Hl (id, loc)).
  - intros Hne Hni Hv Hlv. rewrite Ho, bool_decide_eq_true_2; [done|]. apply Hd. split; [|done]. rewrite Hg', decide_False by done.
    destruct Hg1 as [[_ ->]|(loc & Hloc & _)]; [done|]. exfalso. apply Hni. apply list_elem_of_fmap. by exists (id, loc).
  - intros Hne Hni Hnv. assert (E : ObjectIndex_get x' id = ObjectIndex_get x id).
    { rewrite Hg', decide_False by done. destruct Hg1 as [[_ ->]|(loc & Hloc & _)]; [done|]. exfalso. apply Hni. apply list_elem_of_fmap. by exists (id, loc). }
    rewrite Ho, E, bool_decide_eq_false_2; [done|]. by rewrite Hd, E.
Qed.

Lemma published_fate (x : ObjectIndex) (locations : list (ChunkId * Location)) (root_id : ChunkId) (root_loc : Location) (victims : list Z) (live nodes old_only put : gset (list Z)) (current : ChunkId) (seq : Z) (id : ChunkId) :
  index_ok x -> Forall (fun e : ChunkId * Location => loc_segment_seq e.2 = seq) locations -> loc_segment_seq root_loc = seq -> seq ∉ victims ->
  (id ∈ map fst locations <-> id ∈ put \/ (in_victims victims (ObjectIndex_get x id) /\ id ∈ live /\ id ∉ nodes /\ id <> current)) ->
  (id ∈ old_only <-> id ∈ nodes /\ id ∉ put) ->
  let x' := published_index x locations root_id root_loc in
  let after := ObjectIndex_get (remove_ids x' (dead_ids x' victims live old_only)) id in
  let before := ObjectIndex_get x id in
  let fresh := id = root_id \/ id ∈ put \/ (in_victims victims before /\ id ∈ live /\ id ∉ nodes /\ id <> current) in
  let gone := in_victims victims before /\ (id ∉ live \/ id ∈ nodes) in
  (fresh -> moved seq after) /\ (~ fresh -> gone -> after = None) /\ (~ fresh -> ~ gone -> after = before).
Proof.
  intros Hx Hl Hr Hseq Hin Hdif x' after before fresh gone.
  destruct (published_get x locations root_id root_loc victims live old_only seq id Hx Hl Hr Hseq) as (H1 & H2 & H3).
  fold x' after before in H1, H2, H3. rewrite Hin in H1, H2, H3. rewrite Hdif in H2, H3. fold before in H1, H2, H3. clearbody after before. subst fresh gone. clear -H1 H2 H3.
  split; [|split].
  - intros Hfresh. apply H1. tauto.
  - intros Hfresh [Hv Hd]. apply H2; tauto.
  - intros Hfresh Hgone. apply H3; tauto.
Qed.

(** What a rebuild from the empty provider returns. *)
Lemma rebuild_placed fuel (x : Tx StoreError) root w mark rx p : rebuild_chunk_index limits fuel x root w (sw_seq w) mark [] = Some (Ok (rx, p)) ->
  placed p /\ rb_new_seq p = sw_seq w /\ rx_old_only rx = rx_old_nodes rx ∖ dom (rb_pending p).
Proof.
  unfold rebuild_chunk_index. destruct (collect_tree_node_ids _ _ _ _ _) as [[nodes|]|]; [|done..]. cbn [rbind].
  destruct (if ChunkId_is_zero _ then _ else _) as [kept|]; [|done]. cbn [rbind].
  set (p0 := {| rb_writer := w; rb_new_seq := sw_seq w; rb_pending := ∅; rb_locations := [] |}).
  destruct (bulk_load _ _ _ _ _) as [[r q]|] eqn:E; [|done]. cbn [of_tree map_err rbind]. intros [= <- <-]. cbn [rx_old_only rx_old_nodes].
  apply bulk_load_puts in E as [l ->]. destruct (staged_placed l p0) as [? ?]; [split; cbn; try done; set_solver|done].
Qed.

(** What the object index holds after a compaction into segment [seq]: where
    each id was before and where it is now. *)
Definition compacted_index fuel st (mark : LiveMark) (victims : list Z) st' : Prop :=
  let seq := current_segment_seq (gc_log st) + 1 in
  let current := Root_id coder_id (cs_root (gc_commit st)) in
  exists d w rx p generation, rebuild_chunk_index limits fuel (committed_store text (gc_log (set_io st d))) (cs_root (gc_commit st)) w seq mark [] = Some (Ok (rx, p)) /\
    cs_root (gc_commit st') = compacted_root (cs_root (gc_commit st)) (rx_root rx) seq generation /\
    forall id, let before := ObjectIndex_get (lg_index (gc_log st)) id in
      let after := ObjectIndex_get (lg_index (gc_log st')) id in
      let fresh := id = Root_id coder_id (cs_root (gc_commit st')) \/ id ∈ dom (rb_pending p) \/
        (in_victims victims before /\ id ∈ lm_live mark /\ id ∉ rx_old_nodes rx /\ id <> current) in
      let gone := in_victims victims before /\ (id ∉ lm_live mark \/ id ∈ rx_old_nodes rx) in
      (fresh -> moved seq after) /\ (~ fresh -> gone -> after = None) /\ (~ fresh -> ~ gone -> after = before).

(** C9. A compaction and the object index.  When [collect_impl] succeeds with
    a fresh segment that is no victim: the new root and the nodes of the
    rebuilt chunk index are found in the fresh segment, and so is every live
    object of a victim, except the nodes of the old chunk index and the old
    root; of the other entries of the victims those of dead objects are gone,
    and so are those of every old node that the rebuild did not stage again,
    live or not; all the rest is as it was. *)
Theorem collect_index_exact fuel st mark victims st' r :
  index_ok (lg_index (gc_log st)) -> (current_segment_seq (gc_log st) + 1) ∉ victims ->
  collect_impl limits text hooks fuel st mark victims = Some (st', Ok r) -> compacted_index fuel st mark victims st'.
Proof.
  intros Hx Hseq. unfold collect_impl, compacted_index. set (seq := current_segment_seq (gc_log st) + 1) in *. set (current := Root_id coder_id (cs_root (gc_commit st))). cbv zeta.
  destruct (step _ _) as [st1 [w|e]] eqn:Eo; [|done].
  apply step_inv in Eo as (s0 & seq0 & [-> Es]%pure_inv & Eo). unfold checked_add in Es. destruct (_ <? _); [|done]. injection Es as <-.
  assert (Ew : sw_seq w = seq) by (destruct (SegmentWriter_open _ _ _ _) as [d ww] eqn:E in Eo; injection Eo as _ Ew; destruct ww; [|done]; injection Ew as ->; by eapply open_seq).
  assert (E1 : exists d, st1 = set_io st d) by (by destruct (SegmentWriter_open _ _ _ _) in Eo; injection Eo as <- _; eexists).
  destruct E1 as [d ->].
  cbn [set_io gc_log gc_commit] in *. rewrite Ew. destruct (rebuild_chunk_index _ _ _ _ _ _ _ _) as [rebuilt|] eqn:Er; [|done]. intros Hr. apply (inj Some) in Hr.
  apply step_inv in Hr as (s1 & [rx p] & [-> ->]%pure_inv & Hr).
  apply step_inv in Hr as (s2 & rec & [-> _]%pure_inv & Hr).
  apply step_inv in Hr as (s3 & [w3 locations] & [-> Hcopy]%pure_inv & Hr).
  apply step_inv in Hr as (s4 & w4 & (I4 & _ & C4 & W4)%on_flush_inv & Hr).
  apply step_inv in Hr as (s5 & u5 & (I5 & _ & C5 & _)%on_io_inv & Hr).
  apply step_inv in Hr as (s6 & u6 & (I6 & _ & C6 & _)%on_io_inv & Hr).
  apply step_inv in Hr as (s7 & gen & [-> _]%pure_inv & Hr).
  apply step_inv in Hr as (s8 & w8 & (I8 & _ & C8 & W8)%on_flush_inv & Hr).
  apply step_inv in Hr as (s9 & u9 & (I9 & _ & C9 & _)%on_io_inv & Hr).
  apply step_inv in Hr as (s10 & u10 & [-> _]%pure_inv & Hr).
  unfold write_superblock in Hr. cbv beta iota zeta in Hr.
  apply step_inv in Hr as (s11 & u11 & (I11 & _ & C11 & _)%on_io_inv & Hr).
  apply step_inv in Hr as (s12 & u12 & [-> _]%pure_inv & Hr).
  apply step_inv in Hr as (s13 & u13 & (I13 & _ & C13 & _)%on_io_inv & Hr).
  apply step_inv in Hr as (s14 & u14 & [-> _]%pure_inv & Hr).
  apply step_inv in Hr as (s15 & u15 & [-> _]%pure_inv & Hr).
  apply step_inv in Hr as (s16 & u16 & (I16 & _ & C16)%delete_segments_ok & Hr).
  apply pair_equal_spec in Hr as [<- _].
  rewrite <-Ew in Er. destruct (rebuild_placed _ _ _ _ _ _ _ Er) as ([Hpn Hpi Hpw] & Hps & Hold). rewrite Ew in Er.
  apply safe_inv, copy_records_ok in Hcopy as (_ & l & -> & Hl & Hfl).
  cbn [set_io set_index set_commit install_segment gc_log gc_commit lg_index] in I4, C4, I5, C5, I6, C6, I8, C8, I9, C9, I11, I13, I16, C16.
  assert (EI : lg_index (gc_log s13) = lg_index (gc_log st)) by congruence.
  assert (EC : cs_root (gc_commit s6) = cs_root (gc_commit st)) by congruence.
  rewrite EI in I16. rewrite EC in C16, I16. set (root' := compacted_root (cs_root (gc_commit st)) (rx_root rx) seq gen) in *.
  exists d, w, rx, p, gen. split; [exact Er|]. unfold set_index. cbn [gc_commit gc_log lg_index]. rewrite C16, I16. cbn [cs_root publish_commit].
  split; [done|]. intros id.
  assert (Hseqs : Forall (fun e : ChunkId * Location => loc_segment_seq e.2 = seq) (rb_locations p ++ l)).
  { apply Forall_app. split; [|done]. apply list.Forall_forall. intros e He. rewrite (Hpn e He), Hps. exact Ew. }
  assert (Hin : id ∈ map fst (rb_locations p ++ l) <-> id ∈ dom (rb_pending p) \/
    (in_victims victims (ObjectIndex_get (lg_index (gc_log st)) id) /\ id ∈ lm_live mark /\ id ∉ rx_old_nodes rx /\ id <> current)).
  { rewrite map_app, elem_of_app, Hpi, Hl. by rewrite copied_ids by done. }
  assert (Hdif : id ∈ rx_old_only rx <-> id ∈ rx_old_nodes rx /\ id ∉ dom (rb_pending p)) by (rewrite Hold; apply elem_of_difference).
  by apply published_fate.
Qed.
End Compaction.

(** * Examples *)

#[local] Instance mix_coder : RecordCoder := {| coder_crc := sample_crc; coder_id := mix_hash |}.
#[local] Existing Instance sample_os.
#[local] Existing Instance sample_os_laws.

(** The chain of descriptors in segment 0 of a disk. *)
Definition chain_log : LogState Disk := Eval vm_compute in fst (flush_segment (fst (append_records sample_crc mix_hash 1000000
  (Build_LogState (sample_disk sample_segment) ObjectIndex_new
    (Some {| sw_seq := 0; sw_buffer := []; sw_durable_end := zlen sample_segment; sw_record_count := 0 |})) (tx_records (txn_tx chain_txn))))).
Definition chain_state : GcState := {| gc_log := chain_log; gc_commit := {| cs_root := chain_root; cs_superblock := cs_superblock (commit_state_gen 1); cs_generation := 1; features_in_use := 0 |} |}.

(** Well-formedness of an index, by enumeration. *)
Lemma index_ok_check x : length (shards x) = SHARDS ->
  Forall (fun y : nat * gmap (list Z) Location => map_Forall (fun id _ => shard_of id = y.1) y.2) (imap pair (shards x)) -> index_ok x.
Proof.
  intros Hl Hf. split; [done|]. intros i s id loc Hs Hg. rewrite Forall_lookup in Hf. refine (Hf i (i, s) _ id loc Hg).
  by rewrite list_lookup_imap, Hs.
Qed.

(** Segment 0 is compacted into segment 1: 913 bytes are reclaimed. *)
#[local] Abbreviation chain_collected := (collect_impl Limits_default (fun _ => String.EmptyString) CrashHooks_none 30 chain_state chain_mark [0]).
Definition chain_after : GcState := Eval vm_compute in match chain_collected with Some (st', _) => st' | None => chain_state end.
Lemma collect_index_exact_witness : chain_collected = Some (chain_after, Ok 913) /\
  compacted_index Limits_default (fun _ => String.EmptyString) 30 chain_state chain_mark [0] chain_after /\
  ObjectIndex_get (lg_index (gc_log chain_after)) raw_object = None /\ ObjectIndex_get (lg_index chain_log) raw_object <> None.
Proof.
  assert (E : chain_collected = Some (chain_after, Ok 913)) by (vm_compute; reflexivity).
  split; [exact E|]. split; [|split; [by vm_compute|by vm_compute]].
  apply (collect_index_exact Limits_default (fun _ => String.EmptyString) CrashHooks_none 30 chain_state chain_mark [0] chain_after 913);
    [|apply (bool_decide_unpack _); by vm_compute|exact E].
  apply index_ok_check; [by vm_compute|]. apply (bool_decide_unpack _); by vm_compute.
Defined.

(** The rebuild keeps the chunk that the file copies and drops its dictionary. *)
Definition fresh_writer : SegmentWriter := {| sw_seq := 1; sw_buffer := []; sw_durable_end := 4; sw_record_count := 0 |}.
Definition chain_rebuilt : RebuiltIndex * RebuildProvider := Eval vm_compute in
  match rebuild_chunk_index Limits_default 30 chain_store chain_root fresh_writer 1 chain_mark [] with
  | Some (Ok r) => r
  | _ => ({| rx_root := []; rx_old_only := ∅; rx_old_nodes := ∅ |}, {| rb_writer := fresh_writer; rb_new_seq := 0; rb_pending := ∅; rb_locations := [] |})
  end.
Lemma fan_default : BTREE_ORDER <= max_fanout Limits_default.
Proof. by vm_compute. Qed.
Lemma merge_shape_ok : shape_ok BTREE_ORDER (max_fanout Limits_default) merge_shape.
Proof. by vm_compute. Qed.
Lemma rebuild_exact_witness : base.filter (kept chain_mark) chunk_values = {[ kept_chunk := chunk_values !!! kept_chunk ]} /\
  exists l n', snd chain_rebuilt = staged mix_hash {| rb_writer := fresh_writer; rb_new_seq := 1; rb_pending := ∅; rb_locations := [] |} l /\ 2 ^ Z.of_nat n' <= 1 /\
    (reads_back mix_hash (snd chain_rebuilt) l ->
     holds BTREE_ORDER (max_fanout Limits_default) (snd chain_rebuilt) merge_shape n' (rx_root (fst chain_rebuilt)) (base.filter (kept chain_mark) chunk_values)).
Proof.
  assert (E : base.filter (kept chain_mark) chunk_values = {[ kept_chunk := chunk_values !!! kept_chunk ]}) by (apply (bool_decide_unpack _); by vm_compute).
  split; [exact E|].
  destruct (@rebuild_exact mix_coder Limits_default mix_hash_wf fan_default 30 chain_store full_shape 0 chain_root fresh_writer 1 chain_mark chunk_values
    (fst chain_rebuilt) (snd chain_rebuilt) merge_shape chain_index ltac:(lia) ltac:(vm_compute; reflexivity)) as (_ & _ & _ & _ & l & n' & Hp & Hn & Hh);
    [|reflexivity|exact merge_shape_ok|reflexivity|vm_compute; reflexivity|exists l, n'; split; [exact Hp|split; [exact Hn|exact Hh]]].
  intros k v Hk. unfold chunk_values in Hk. rewrite lookup_insert_Some, lookup_singleton_Some in Hk. by destruct Hk as [[<- _]|[_ [<- _]]].
Defined.
